(* ===== verification/_CoqProject ===== *)
-Q . S2P
Prelude.v
RustStd.v
Text.v
Ura.v
AgentId.v
Json.v
Lexer.v
Ast.v
Parser.v
ParserFuel.v
ParserRoundtrip.v
Ir.v
Planner.v
PlannerProps.v
CompileProps.v
Diagnostics.v
Trace.v
World.v
Retry.v
RetryProps.v
Phases.v
PhasesProps.v
MissionProps.v
Determinism.v
RunLogic.v
Conformance.v
Provenance.v
Dispatcher.v
UsageQuota.v
UsageQuotaProps.v
Identity.v
Decision.v
Grants.v
PolicyEngine.v
AuthorityProof.v
AccessControl.v
StoreJournal.v
StoreProps.v
StoreTheorems.v
TrustAnchor.v
TrustLoad.v
DeviceCaller.v
PolicyGate.v
PolicyGateProps.v
SampleCodec.v
AdmissionSamples.v
GateSamples.v
Programs.v
LoopLedger.v
LoopService.v
LoopSafe.v
LoopActions.v
LoopRounds.v
LoopTheorems.v
LoopOutcome.v
LoopAbility.v
LoopSamples.v
Schedule.v
ScheduleService.v
ScheduleDue.v
ScheduleFires.v
ScheduleStore.v
ScheduleAbility.v
ScheduleSamples.v
ShellAst.v
ShellStages.v
ShellRun.v
ShellProps.v
ShellWalk.v
ShellSamples.v
SessionWire.v
Presence.v
FrameScheduler.v
DeviceSession.v
LiveSession.v
Cancellation.v
PendingDispatch.v
SessionSamples.v
Consent.v
Samples.v
