(* ===== verification/Prelude.v ===== *)
(** * EasyNet: a verification library for the EAL engine, admission, automation and sessions

    EasyNet-Cli is a runtime for networks of agents and devices.  Its programs,
    _missions_, are written in the EasyNet Agent Language (EAL): a text is
    scanned, parsed, compiled to a schedule of phases and run against a
    dispatcher that turns each step into a child invocation.  This library
    models that engine, from the bytes of a source text to the report of a run,
    with the identifiers and requests it depends on; and the part of the daemon
    that decides whether an invocation is admitted: addresses and identities,
    trusted keys, quotas, grants, the policy engine, proofs of authority, the
    purposes of devices, the store of grants on disk and the gate that composes
    them; and the loops and schedules the daemon runs on behalf of its users, as
    tasks that interleave, over a disk, across restarts; and the guard that judges
    shell commands before bash runs them; and the sessions over which a hub calls
    its devices, at both ends: frames and their scheduling, reconnection, presence,
    calls that wait for an answer, cancellation; and the approval of sensitive actions.  All of it is executable: the
    examples evaluate texts to reports, envelopes to decisions, schedules to what
    the daemon does, commands to verdicts and frames to calls.

    ** Parts, files and sources (under src/src)

    - [Prelude]: results with their monad and tactics, loops that may fail.
      [RustStd]: the standard library as used: machine integers, UTF-8, ordered
      maps, stable sorts.  [Json]: JSON values, [f64] literals and the class
      [SerdeJson] for the codec.  [Text]: [str::trim] and the other string
      functions of the daemon.
    - [Ura] (core/ura/mod.rs), [Identity] (core/identity/mod.rs): what is read
      off addresses; the SDK's parser and builders are the class [UraLib].
    - [AgentId] (core/agent/id.rs): agent, ability and node identifiers.
    - [Lexer] (with the escapes of strings), [Ast], [Parser] (eal/parser): the front end; the
      position of the scanner and of the parser is the unread rest.
      [ParserFuel] and [ParserRoundtrip] hold the theorems on the parser.
    - [Ir] (eal/runtime/ir.rs) and [Planner] (eal/runtime/planner.rs): mission
      IR, semantic analysis, cycle check, phases, lowering, the call cap.
      [PlannerProps] and [CompileProps] hold the theorems.
    - [Diagnostics] (eal/diagnostics/mod.rs), [Trace]
      (daemon/execution/child_invocation.rs,
      daemon/invocation/causal_context_projection.rs,
      eal/interpreter/trace.rs): errors, invocation records, traces and the
      bounded trace buffer.
    - [World] (the traits of eal/interpreter/mod.rs): the state monad of the
      interpreter and the interfaces it runs against: clocks and sleeping
      ([World]), SHA-256 ([Sha256]), the dispatcher ([StepDispatcher]), the
      thread pool ([Rayon]).
    - [Retry] (eal/interpreter/retry.rs): one step with its retries, arguments
      and result.  [Phases] (eal/interpreter/phases.rs, eal/interpreter/mod.rs):
      batches, loops, the state [PhaseRunState], the run and its report; a panic
      is [None] of the monad [pm].
    - [Dispatcher] (eal/interpreter/dispatch.rs, the requests of
      daemon/execution/mission/invocation_gateway.rs): the production
      dispatcher, and that it meets the interfaces of the interpreter.
    - [UsageQuota] (daemon/invocation/admission/usage_quota.rs, [QuotaConfig] of
      daemon/persistence/daemon_config.rs): the quota gate of the daemon, a
      machine whose events are its critical sections.  [UsageQuotaProps]
      holds its theorems, witnesses and runs.
    - [Decision], [Grants], [PolicyEngine], [AuthorityProof], [DeviceCaller]
      (decision.rs, grant_matcher.rs, policy_engine.rs and owner_resolution.rs,
      authority_proof.rs, device_caller.rs of daemon/invocation/admission):
      decisions, the choice of a grant, the engine, the verifier of proofs, the
      rules for devices, each with its theorems.
    - [AccessControl] (daemon/persistence/access_control.rs): the store of an
      owner's grants, requests and proofs over a journal whose records are
      chained by hashes.  Operations run in the monad [acm] on the store
      [AccessControlStore] and a world of files and a clock ([PolicyWorld]); what
      is changed before an error stays changed.  [StoreJournal] has a calculus of
      weakest preconditions and the journal, [StoreProps] the invariant
      [consistent], the specification of each operation and the stores that
      opening, operating and restarting lead to ([reachable]); [StoreTheorems]
      the guarantees, those in memory for every open store whatever its disk does
      ([in_use]).
    - [TrustAnchor] (daemon/trust/anchor.rs): the trusted keys of a realm, with
      [TrustLoad].
    - [PolicyGate] (daemon/invocation/admission/policy_gate.rs,
      ability_ura_for_wire of daemon/axon_bridge/descriptor_ref.rs, the registry
      of stores): from an envelope to a decision; [PolicyGateProps] composes the
      theorems on its parts.
    - [SampleCodec], [AdmissionSamples], [GateSamples]: interfaces of the admission components instantiated, their
      witnesses, and stores and invocations evaluated.
    - [Programs]: what the automation services share: errors, programs ([Prog])
      of atomic actions, one per lock or file operation, and the files of a
      store.
    - [LoopLedger] (daemon/execution/loop_instance/mod.rs, core/domain/mod.rs):
      the data of loops, their validation and the pure functions of their
      controllers.  [LoopService] (loop_instance/mod.rs, loop_instance/store.rs,
      the loops' part of bin/easynet-daemon.rs): the service.  Tasks
      interleave at every action of its operations, file operations may fail, and the daemon may
      restart at any point ([step], [run]).  [LoopSafe], [LoopActions],
      [LoopRounds], [LoopTheorems]: the invariant, what
      each kind of task may change (rely and guarantee), that every action of
      every task keeps to it, and what follows for all runs;
      [LoopOutcome]: a controller that runs alone against the plain description
      of a loop.
    - [LoopAbility] (daemon/ability/builtins/automation/loop_ability.rs,
      daemon/execution/runtime_identity.rs): the handlers of requests, the
      authority of deferred invocations, the driver of loops.  [LoopSamples]:
      the interfaces of loops instantiated, witnesses, and runs in which the
      guarantees end.
    - [Schedule] (daemon/execution/schedule/mod.rs, schedule/store.rs,
      core/domain/mod.rs): the data of schedules, their validation, the fires
      that are due and the record on disk; the cron crate and chrono are the
      classes [CronLib] and [Calendar].  [ScheduleService] (the same files and
      the tick runner and start of bin/easynet-daemon.rs): the operations as
      programs, the runner, the invocations of the blocking pool and the daemon
      as a machine over events ([daemon_step]).  [ScheduleDue]: what is due;
      [ScheduleFires]: rights to fire, which tasks hand on and none duplicates;
      [ScheduleStore]: the records on disk.  [ScheduleAbility]
      (daemon/ability/builtins/automation/schedule.rs): the handlers of
      requests.  [ScheduleSamples]: the interfaces instantiated, witnesses, and
      runs in which the guarantees end.
    - [ShellAst] (support/shellguard/ast): the checks on the text of a command and
      the walk over its tree, a writer of commands that may refuse ([W]); the
      parser, tree-sitter-bash, is the class [TreeSitter].  [ShellStages]
      (support/shellguard: security, permissions.rs, pathconstraints.rs,
      readonly.rs, destructive.rs): the stages that judge commands; a panic is
      [None].  [ShellRun] (support/shellguard/runner.rs, shell.rs and process.rs
      of daemon/ability/builtins/device_control): the runner, the pipeline and
      the handlers of shell.run and process.exec over the class [Os].
      [ShellProps] and [ShellWalk]: the theorems; [ShellSamples]: trees, witnesses, and texts that
      bash understands otherwise than the guard.
    - [SessionWire] (daemon/invocation/bidi/session_wire.rs): the carrier of
      bidirectional input, to the byte, and call modes.  [FrameScheduler]
      (bidi/session_initiator/frame_scheduler.rs): the reader of a session and
      the actor that queues its frames per call, interleaved at every access to
      the budget and the channel they share ([sched_step]); frames are the class
      [DownFrames].  [LiveSession] (session_initiator/frame_loop.rs): the loop
      over the hub's frames on top of it ([live_step]).  [DeviceSession]
      (bidi/session_initiator.rs, session_initiator/supervisor.rs, prelude.rs,
      session_initiator/connection_state.rs, boot/join_connection_state.rs): the
      sender all producers share, as
      interleaved calls ([UpSender]), and the supervisor that dials, waits and
      dials again, with its phases and the state it shows ([Supervisor]).
    - [Presence] (bidi/state/presence.rs): the registry of sessions and its
      events; the map, the counter and the broadcast are each atomic, a call is
      not ([presence_step]).  [PendingDispatch] (bidi/state/pending_dispatch.rs,
      bidi/state/session_failure.rs, execution/mission/failure_codes.rs, the
      watchers of dispatch/daemon_invocation_service.rs, the dispatch to a
      device of dispatch/unary_dispatcher.rs): failure codes, the tables of calls,
      the watcher on top of presence ([hub_step]), the dispatcher on top of both
      ([plane_step]), streamed calls ([stream_step]).  [Cancellation]
      (dispatch/cancellation.rs): the registry behind invocation.cancel; handles
      and envelopes are the class [Lifecycles].  [SessionSamples]: the interfaces
      instantiated, witnesses, and runs in which the guarantees end.
    - [Consent] (daemon/execution/permission/mod.rs,
      daemon/execution/session/mod.rs): the broker that asks an operator before a
      sensitive action, as interleaved threads ([Broker]), and the index of agent
      sessions with their timelines ([Sessions]).
    - [RetryProps], [PhasesProps], [MissionProps], [Determinism], [RunLogic],
      [Conformance], [Provenance]: the theorems on runs.
      [Samples]: the interfaces instantiated, runs evaluated, and the
      divergences between code and comments shown on concrete missions.

    ** What the theorems show

    - Front end: scanner and parser are total ([tokenize_total],
      [parse_terminates]); a printed token list, a string literal and a printed
      program read back ([tokenize_print], [literal_roundtrip],
      [parse_print_parse], with floats written as decimals for them); the parser
      returns well-formed programs and every well-formed program has a text
      ([parse_well_formed], [parse_complete]).
    - Compilation: phases partition the steps, data flows to later phases only,
      phases are as few as possible, nothing is lost, the IR meets what the
      interpreter assumes, the cap of 256 calls holds, and the internal errors
      (cycles, exhausted recursion) do not occur (the [compile_] theorems).
    - Steps: attempts, backoff, timeouts and arguments ([step_attempts],
      [compute_backoff_bounds], [backoff_sleep_exact],
      [dispatch_timeout_budget], [resolve_arguments_spec],
      [data_flow_roundtrip]).
    - Runs of compiled missions on any dispatcher, clock and thread schedule:
      no panic ([mission_never_panics]); missions without loops run their plan
      ([mission_runs_its_plan]); completed steps consume what completed steps
      produced, and outputs and emissions are theirs ([mission_provenance],
      [mission_emissions]); the report agrees with the traces
      ([mission_report_consistent], [trace_buffer_refines]); dispatches are
      bounded ([mission_dispatch_budget], [mission_dispatch_cap],
      [mission_gateway_calls]); parallel and sequential runs give the same
      report ([mission_deterministic]).
    - The production dispatcher routes a step to its target or not at all
      ([target_request_routing]) and meets the interfaces ([gateway_meter],
      [agent_aware_pure]).
    - Quotas, for every interleaving of callers: counters stay within the caps
      and the table within its bound ([quota_bounded]), slots are pending only
      while a reservation is live ([quota_no_leak]); calls in sequence are
      counted as tumbling windows count them, for keys within the limits that the
      table holds and digests that do not collide ([quota_refines_meter],
      [quota_reset_exact]); [disabled_gate_allocates] shows a race.
    - Grants and decisions: the matcher finds the best grant whatever the order
      of storage ([find_grant_best], [find_grant_order_independent]); the engine
      allows exactly what is not denied and has a ground ([check_allow_iff],
      [check_grants_monotone]); [segment_prefix_matches] states what wildcards
      compare.  A proof that verifies says what it has to ([verify_proof_sound]).
    - The store.  On a working disk, for sequences of operations and restarts in
      which new requests have new ids, no grant is to the all-zero principal and
      sequence numbers last ([fit]): it reopens as it was ([store_reopens], which
      also says when it does not) and moves forward only ([store_moves_forward]).
      On any disk and for any operations, one-time grants and proofs of an open
      store are used once ([once_grant_single_use], [proof_single_use]); on disks
      whose appends are whole or fail the journal only grows
      ([journal_append_only]); and two journals that replay accepts and that
      differ have different heads ([journal_tamper_evident]).
    - Trusted keys: well-formedness ([trust_anchor_invariant]), revocation for
      good ([revoked_key_never_returns]), save and load
      ([trust_anchor_roundtrip]).
    - Devices and the gate: purposes are bound to one invocation
      ([purpose_binds_invocation]) and policy and verifier agree on them
      ([policy_purpose_verified]); what passes the gate passes on a ground
      ([verify_policy_sound]), a one-time grant passes one invocation of an open
      store, whatever its disk does ([once_grant_admits_once]), a device needs its purpose
      ([device_needs_bound_purpose]), and a grant takes effect
      ([granted_invocation_passes]).
    - Loops, for every schedule and failing disk, as long as every start binds the
      store ([bound_throughout]):
      no invocation is made twice ([dispatch_at_most_once]), each is asked for
      and follows the one it depends on ([dispatch_justified]), their number is
      bounded ([dispatch_bound]), ledgers in memory and on disk are true and fit
      to resume from ([ledger_invariant]) except in one window
      ([announced_unbinds]; [unbound_start_repeats_dispatch] shows what follows);
      an undisturbed loop ends as described ([loop_reaches_outcome]).  Requests:
      a loop runs the agent of its creator ([loop_created_for_caller]) and
      answers to nobody else ([foreign_user_refused]).
    - Schedules, for every interleaving of ticks, requests and invocations: a run
      of the daemon makes each fire once and none that was on disk when it
      started ([fires_once]; [stale_save_loses_fire] shows that the disk may know
      less).  A schedule reads back while it has not fired
      ([schedule_roundtrip]); once it has, no start binds the store
      ([fired_schedule_unbinds]), and on a working disk a start binds exactly
      when none has ([schedule_store_binds]).  What a tick selects
      ([due_fires]), what the policies come to, with and against their
      documentation ([misfire_policies]), and when the selection panics
      ([wide_window_panics]).
      Requests: [schedule_created_for_caller], [foreign_schedule_refused].
    - Shell commands: the commands that are judged are all the commands of the
      tree but those in redirect targets and numbers ([every_command_extracted]);
      bash gets a text exactly when every command passes each stage, the stages
      and their tables stated apart from the code's ([pipeline_accepts_iff]);
      redirects with the writing operators lead below the roots, as far as the
      text shows ([write_targets_confined]); output and time are bounded, and what
      the answer says of them is so ([runner_output_bounded]); only characters
      outside ASCII make the stages panic ([pipeline_panics_only_on_non_ascii]).
    - Sessions at the device, for every interleaving of reader, actor and
      producers: the inputs of a call reach it in the hub's order, or the session
      has ended ([inputs_reach_their_calls], [frames_in_order]); what is held is
      bounded ([scheduler_bounded]) and a call that stalls holds up no other one
      ([stalled_call_blocks_nobody]); the carrier reads back
      ([carrier_roundtrip]); what the device sends is numbered without a gap,
      modulo 2^64 ([up_frames_sequenced]).  The supervisor projects the connected
      state only while a session is live, and what is shown is the last projection
      the store recorded ([connected_only_while_live]); its waits follow
      their curve ([waits_follow_curve]).
    - Sessions at the hub, for every interleaving of their tasks: a stale task
      cannot end the session that replaced its own ([stale_removal_harmless]);
      calls in sequence keep the events in step with the registry
      ([events_follow_registry]; [overlap_misleads] shows that overlapping ones
      do not); a call does not wait for a target that went offline
      ([offline_calls_fail]), a dispatch ends as it reports
      ([dispatch_outcomes]), a streamed call gets one terminal result at most
      ([one_terminal_result]).  Cancellation: the registry is bounded
      ([registry_bounded]) and only an owner's command reaches an invocation
      ([cancel_by_owner]).
    - Approvals, for every interleaving of asks, decisions and subscribers: an
      action is allowed only by a decision on its own request, or with nobody
      subscribed ([allow_needs_operator], which also says what stays in the queue).
      A late subscriber to a session misses nothing ([attach_is_gapless]).
    - Identifiers: the exact languages and the round trip of the display form.

    ** Bounds and fuel

    The scanner has one unit of fuel per byte, the parser a multiple of the
    number of unread tokens, the depth-first search one per item, block
    analysis a depth of 2 (loops do not nest): running out is an error of its
    own that the theorems exclude.  The retry loop and the loop iterations count
    down their bounds.  Integers keep their widths where they may wrap
    ([u64_wrap], [u64_saturating]); theorems on the static call bound assume
    fewer than 2^59 calls, more than a machine can hold, and the one on
    reservation ids fewer than 2^64 - 2 events of the gate.  The admission
    components have no loops beyond those over their data.  Sequence numbers of
    the journal wrap, and the theorems on reopening assume that they last.
    Runs of the loop service are finite lists of choices of any length;
    [loop_reaches_outcome] shows that enough steps of a controller end it, with
    a [u32] number of iterations.  The instants between two times
    ([fires_between]) have one unit of fuel per second, and it is proved that
    none is missed.  Identifiers of calls are 64 bits wide and repeat after 2^63
    calls: the theorems on waiting calls assume fewer ([few_calls],
    [few_streams]).  Numbers of sessions and of frames that are sent wrap at 64
    bits ([stale_removal_harmless] assumes fewer sessions); the number of the next
    frame expected saturates as in the code.

    ** What is not modelled

    Terminal output, the thread-local mission context handed to workers, the
    yields of the backoff loop to other rayon tasks, serde
    of IR and identifiers, the rendering of parser and planner messages (their
    errors are data types), and the code behind the interfaces: the SDK, the
    codec, SHA-256, Ed25519, rayon, the gateway, files.  rayon is assumed to run
    every task once, in a world of some interleaving, with costs that add up
    ([scope_spec], [scope_cost]).  Of a disk it is assumed that an append adds
    its line or fails ([LossyDisk]), or that it works ([ReliableDisk]); of serde
    and TOML that what they write reads back.  The store is used under the lock
    of its registry, so its operations are modelled one after the other; its
    listings, and the handling of directories and files around it and around the
    trust anchor, are not modelled.  Of loops the broadcast to live subscribers
    is not modelled (a subscription reads the history), identifiers of new loops
    are fresh by assumption, and a text cut off by a failed write is assumed not
    to parse ([LoopCodecLaws]).  The same holds of schedules,
    and of serde that a flattened schedule reads back while the map of its fires,
    which has integer keys, is empty, and is refused otherwise
    ([ScheduleCodecLaws]); writing a file is one action, so a mixture that two
    writers of one temporary file may leave is not modelled; of the cron crate it is assumed that instants are
    whole seconds and [after] goes through them in order ([CronLaws]), of chrono
    which durations are in range ([CalendarLaws]).  Of the trees of tree-sitter-bash
    it is assumed that tokens without a name and strings hold no commands but
    substitutions ([grammatical]).  What bash does with a text is not modelled:
    the theorems are on the tree and the commands of the guard, and the runs of
    [ShellSamples] show where bash takes another view.  Of a process the reads of
    its pipes and its status are given by [Os]; process groups, signals and the
    writing of standard input are not modelled.  Of sessions the transport, the
    heartbeats, the bodies of the preludes and what the peers answer are inputs of
    the machines, and so is whether the store records a projection; the texts of
    their errors are left out; a collection of entries by
    a watcher is one step, although the map is read shard by shard; the hub's
    dispatch of streamed and bidirectional calls, the drain of a session and its
    admission are not modelled.

    Left out, too: signature verification and the admission facade, routes, agent
    specs, stored missions, the keyring, plugins, the command line and
    the foreign-function interface.  They are glue between the parts above and
    libraries, calls into the SDK, or tables of texts; the parts of them that are
    state machines of their own (routes, the drain of a session) are where this
    library would grow next. *)

From stdpp Require Export base gmap list strings.
From Stdlib Require Export ZArith Lia.
From Stdlib Require Import Ascii String Sorting.Sorted.

#[global] Set Default Proof Using "Type".

(** ** Results *)

(** Rust's [Result<A, E>]; [anyhow::Result<A>] with its messages as a data
    type [E] of the component that raises them. *)
Inductive result (E A : Type) : Type :=
| Ok (a : A)
| Err (e : E).
Arguments Ok {E A} a.
Arguments Err {E A} e.

#[global] Instance result_ret E : MRet (result E) := λ A a, Ok a.
#[global] Instance result_bind E : MBind (result E) := λ A B f r,
  match r with Ok a => f a | Err e => Err e end.
#[global] Instance result_fmap E : FMap (result E) := λ A B f r,
  match r with Ok a => Ok (f a) | Err e => Err e end.

(** [anyhow::ensure!(b, e)]. *)
Definition ensure {E} (b : bool) (e : E) : result E unit :=
  if b then Ok tt else Err e.

(** [Result::map_err]. *)
Definition map_err {E F A} (f : E → F) (r : result E A) : result F A :=
  match r with Ok a => Ok a | Err e => Err (f e) end.

(** [Option::ok_or]. *)
Definition ok_or {E A} (o : option A) (e : E) : result E A :=
  match o with Some a => Ok a | None => Err e end.

Definition is_Ok {E A} (r : result E A) : Prop := ∃ a, r = Ok a.

Lemma bind_Ok {E A B} (f : A → result E B) (r : result E A) b :
  (r ≫= f) = Ok b ↔ ∃ a, r = Ok a ∧ f a = Ok b.
Proof. destruct r; cbn; naive_solver. Qed.

Lemma fmap_Ok {E A B} (f : A → B) (r : result E A) b :
  (f <$> r) = Ok b ↔ ∃ a, r = Ok a ∧ b = f a.
Proof. destruct r; cbn; naive_solver. Qed.

Lemma ensure_Ok {E} b (e : E) u : ensure b e = Ok u ↔ b = true.
Proof. destruct b, u; cbn; naive_solver. Qed.

Lemma map_err_Ok {E F A} (f : E → F) (r : result E A) a :
  map_err f r = Ok a ↔ r = Ok a.
Proof. destruct r; cbn; naive_solver. Qed.

Lemma ok_or_Ok {E A} (o : option A) (e : E) a : ok_or o e = Ok a ↔ o = Some a.
Proof. destruct o; cbn; naive_solver. Qed.

(** [inv_ok] takes apart every hypothesis saying that a monadic computation
    returned [Ok]. *)
Ltac inv_ok :=
  repeat match goal with
  | H : (_ ≫= _) = Ok _ |- _ =>
      apply bind_Ok in H; let x := fresh "x" in let E := fresh "E" in
      destruct H as (x & E & H); cbn beta match zeta in H
  | H : (_ <$> _) = Ok _ |- _ =>
      apply fmap_Ok in H; let x := fresh "x" in let E := fresh "E" in
      destruct H as (x & E & H)
  | H : ensure _ _ = Ok _ |- _ => apply ensure_Ok in H
  | H : map_err _ _ = Ok _ |- _ => apply map_err_Ok in H
  | H : ok_or _ _ = Ok _ |- _ => apply ok_or_Ok in H
  | H : mret _ = Ok _ |- _ => unfold mret, result_ret in H
  | H : Ok _ = Ok _ |- _ => injection H as H; try subst
  | H : Err _ = Ok _ |- _ => discriminate H
  | x : unit |- _ => destruct x
  end.

(** [inv_pairs] also takes apart the pairs the steps bind. *)
Ltac inv_pairs :=
  repeat (progress inv_ok ||
          match goal with H : (let '(_, _) := ?x in _) = Ok _ |- _ => is_var x; destruct x end).

(** A [for] loop whose body may leave with [?], threading a state. *)
Fixpoint try_fold {E S A} (f : S → A → result E S) (st : S) (l : list A) : result E S :=
  match l with
  | [] => Ok st
  | x :: l => st ← f st x; try_fold f st l
  end.

Lemma try_fold_inv {E S A} (P : S → Prop) (f : S → A → result E S) l st st' :
  (∀ st x st', x ∈ l → P st → f st x = Ok st' → P st') → P st → try_fold f st l = Ok st' → P st'.
Proof.
  revert st. induction l as [|x l IH]; cbn [try_fold]; intros st Hstep HP Hf; inv_ok; [done|].
  eapply IH; [|eapply Hstep; [|exact HP|done]|done]; [|left]. intros. eapply Hstep; [by right|done..].
Qed.

Lemma try_fold_Ok {E S A} (P : S → Prop) (f : S → A → result E S) l st :
  (∀ st x, x ∈ l → P st → ∃ st', f st x = Ok st' ∧ P st') → P st →
  ∃ st', try_fold f st l = Ok st' ∧ P st'.
Proof.
  revert st. induction l as [|x l IH]; cbn [try_fold]; intros st Hstep HP; [by eauto|].
  destruct (Hstep st x) as (st1 & E1 & HP1); [left|done|]. rewrite E1. cbn [mbind result_bind].
  apply IH; [|done]. intros. apply Hstep; [by right|done].
Qed.

Lemma try_fold_snoc {E S A} (f : S → A → result E S) st l x :
  try_fold f st (l ++ [x]) = (st' ← try_fold f st l; f st' x).
Proof.
  revert st. induction l as [|y l IH]; intros st; cbn [app try_fold].
  - cbn. by destruct (f st x).
  - destruct (f st y); cbn; [by rewrite IH|done].
Qed.

(** [iter().map(f).collect::<Result<Vec<_>>>()]. *)
Fixpoint collect {E A B} (f : A → result E B) (l : list A) : result E (list B) :=
  match l with
  | [] => Ok []
  | x :: l => y ← f x; ys ← collect f l; Ok (y :: ys)
  end.

Lemma collect_Ok {E A B} (f : A → result E B) l ys :
  collect f l = Ok ys ↔ Forall2 (λ x y, f x = Ok y) l ys.
Proof.
  revert ys. induction l as [|x l IH]; cbn [collect]; intros ys.
  - split; [intros; inv_ok; constructor|by intros ->%Forall2_nil_inv_l].
  - split.
    + intros. inv_ok. constructor; [done|]. by apply IH.
    + intros (y & ys' & Hy & Hys & ->)%Forall2_cons_inv_l. rewrite Hy. cbn.
      apply IH in Hys. by rewrite Hys.
Qed.

(** ** Lists *)

Lemma forallb_Forall {A} (p : A → bool) l :
  forallb p l = true ↔ Forall (λ x, p x = true) l.
Proof.
  induction l as [|x l IH]; cbn; [by split; [constructor|]|].
  rewrite andb_true_iff, IH, Forall_cons. done.
Qed.

Lemma existsb_app {A} (p : A → bool) l k :
  existsb p (l ++ k) = existsb p l || existsb p k.
Proof. induction l as [|x l IH]; cbn; [done|]. by rewrite IH, orb_assoc. Qed.

Lemma forallb_app' {A} (p : A → bool) l k :
  forallb p (l ++ k) = forallb p l && forallb p k.
Proof. induction l as [|x l IH]; cbn; [done|]. by rewrite IH, andb_assoc. Qed.

Lemma filter_all {A} (P : A → Prop) `{∀ x, Decision (P x)} (l : list A) : (∀ x, x ∈ l → P x) → filter P l = l.
Proof.
  induction l as [|x l IH]; intros Hl; [done|]. rewrite filter_cons_True by (apply Hl; left).
  f_equal. apply IH. intros y Hy. apply Hl. by right.
Qed.

Lemma filter_none {A} (P : A → Prop) `{∀ x, Decision (P x)} (l : list A) : (∀ x, x ∈ l → ¬ P x) → filter P l = [].
Proof.
  induction l as [|x l IH]; intros Hl; [done|]. rewrite filter_cons_False by (apply Hl; left).
  apply IH. intros y Hy. apply Hl. by right.
Qed.
