(* ===== verification/RustStd.v ===== *)
(** * The parts of the Rust standard library the modelled code uses

    Strings are byte strings ([String.string]); [&str] values are their UTF-8
    bytes.  This file models byte and character classes ([u8]/[char] methods),
    [str::chars], [str::split], [BTreeMap::insert] (a key-sorted association
    list), [slice::sort_by_key] and [slice::sort_by] (stable sorts) and
    machine-width integers ([Z] with explicit bounds). *)

From stdpp Require Import sorting.
From Stdlib Require Import Ascii String.
From Stdlib Require Import Sorting.Sorted.
From S2P Require Import Prelude.

Open Scope Z_scope.

(** ** Machine integers *)

Definition u32_max : Z := 2 ^ 32 - 1.
Definition i32_max : Z := 2 ^ 31 - 1.
Definition u64_max : Z := 2 ^ 64 - 1.
Definition i64_max : Z := 2 ^ 63 - 1.
Definition i64_min : Z := - 2 ^ 63.

(** Unchecked arithmetic on [u64] in a release build: wraps modulo 2^64. *)
Definition u64_wrap (z : Z) : Z := z mod 2 ^ 64.

(** [u64::saturating_mul], [u64::try_from(_).unwrap_or(u64::MAX)]. *)
Definition u64_saturating (z : Z) : Z := Z.min z u64_max.

(** ** Bytes and characters *)

(** The value of a byte, 0 to 255. *)
Definition byte_val (c : ascii) : Z := Z.of_N (N_of_ascii c).

Definition between (lo hi z : Z) : bool := (lo <=? z) && (z <=? hi).

(** [u8::is_ascii_digit], [char::is_ascii_lowercase], [..uppercase], on a code
    point (for an ASCII byte its byte value). *)
Definition is_ascii_digit (z : Z) : bool := between 48 57 z.
Definition is_ascii_lowercase (z : Z) : bool := between 97 122 z.
Definition is_ascii_uppercase (z : Z) : bool := between 65 90 z.
Definition is_ascii_alphabetic (z : Z) : bool := is_ascii_lowercase z || is_ascii_uppercase z.
Definition is_ascii_alphanumeric (z : Z) : bool := is_ascii_alphabetic z || is_ascii_digit z.

(** [u8::is_ascii_whitespace]: space, tab, line feed, form feed, carriage return. *)
Definition is_ascii_whitespace (z : Z) : bool :=
  (z =? 32) || (z =? 9) || (z =? 10) || (z =? 12) || (z =? 13).

(** ** UTF-8 *)

Definition replacement_char : Z := 65533.

(** A byte of the form 10xxxxxx. *)
Definition is_continuation (z : Z) : bool := between 128 191 z.

(** The code point of a two, three or four byte sequence; an overlong or
    malformed sequence, which a Rust [str] never holds, reads as U+FFFD. *)
Definition cp2 (a b : Z) : Z :=
  let z := (a - 192) * 64 + (b - 128) in
  if is_continuation b && (128 <=? z) then z else replacement_char.
Definition cp3 (a b c : Z) : Z :=
  let z := (a - 224) * 4096 + (b - 128) * 64 + (c - 128) in
  if is_continuation b && is_continuation c && (2048 <=? z) then z else replacement_char.
Definition cp4 (a b c d : Z) : Z :=
  let z := (a - 240) * 262144 + (b - 128) * 4096 + (c - 128) * 64 + (d - 128) in
  if is_continuation b && is_continuation c && is_continuation d && (65536 <=? z)
  then z else replacement_char.

(** [str::chars]: the code points of a byte string. *)
Fixpoint chars (s : string) : list Z :=
  match s with
  | EmptyString => []
  | String a s1 =>
      let za := byte_val a in
      if za <? 128 then za :: chars s1
      else if between 192 223 za then
        match s1 with
        | String b s2 => cp2 za (byte_val b) :: chars s2
        | EmptyString => [replacement_char]
        end
      else if between 224 239 za then
        match s1 with
        | String b (String c s3) => cp3 za (byte_val b) (byte_val c) :: chars s3
        | _ => [replacement_char]
        end
      else if between 240 247 za then
        match s1 with
        | String b (String c (String d s4)) =>
            cp4 za (byte_val b) (byte_val c) (byte_val d) :: chars s4
        | _ => [replacement_char]
        end
      else replacement_char :: chars s1
  end.

(** A string all of whose bytes satisfy [p]. *)
Fixpoint str_forall (p : Z → bool) (s : string) : bool :=
  match s with
  | EmptyString => true
  | String c s' => p (byte_val c) && str_forall p s'
  end.

(** [str::contains(char)] for an ASCII character. *)
Fixpoint str_contains (z : Z) (s : string) : bool :=
  match s with
  | EmptyString => false
  | String c s' => (byte_val c =? z) || str_contains z s'
  end.

(** [str::contains(&str)]. *)
Fixpoint str_contains_str (p s : string) : bool :=
  String.prefix p s ||
  match s with
  | EmptyString => false
  | String _ s' => str_contains_str p s'
  end.

(** [str::split(char)] for an ASCII separator: never empty. *)
Fixpoint str_split (z : Z) (s : string) : list string :=
  match s with
  | EmptyString => [EmptyString]
  | String c s' =>
      if byte_val c =? z then EmptyString :: str_split z s'
      else match str_split z s' with
           | seg :: segs => String c seg :: segs
           | [] => [String c EmptyString]
           end
  end.

(** ** [BTreeMap<String, V>] *)

Section btree.
Context {V : Type}.

(** [BTreeMap::insert] on an association list kept in key order. *)
Fixpoint btree_insert (k : string) (v : V) (m : list (string * V)) : list (string * V) :=
  match m with
  | [] => [(k, v)]
  | (k', v') :: m' =>
      match String.compare k k' with
      | Eq => (k, v) :: m'
      | Lt => (k, v) :: m
      | Gt => (k', v') :: btree_insert k v m'
      end
  end.

(** Lookup in an association list. *)
Fixpoint assoc (k : string) (m : list (string * V)) : option V :=
  match m with
  | [] => None
  | (k', v) :: m' => if String.eqb k k' then Some v else assoc k m'
  end.

(** [IndexMap::insert], as in [serde_json::Map] with insertion order kept: an
    existing key keeps its place. *)
Fixpoint index_insert (k : string) (v : V) (m : list (string * V)) : list (string * V) :=
  match m with
  | [] => [(k, v)]
  | (k', v') :: m' =>
      if String.eqb k k' then (k', v) :: m' else (k', v') :: index_insert k v m'
  end.

End btree.

(** ** [slice::sort_by_key], a stable sort *)

Section sort_by_key.
Context {A : Type} (key : A → nat).

Fixpoint insert_by_key (x : A) (l : list A) : list A :=
  match l with
  | [] => [x]
  | y :: l' => if (key y <=? key x)%nat then y :: insert_by_key x l' else x :: l
  end.

Definition sort_by_key (l : list A) : list A :=
  foldl (λ acc x, insert_by_key x acc) [] l.

End sort_by_key.

(** ** [String::from_utf8_lossy] *)

(** The bytes of U+FFFD before [s]. *)
Definition lossy_replacement (s : string) : string :=
  String (ascii_of_nat 239) (String (ascii_of_nat 191) (String (ascii_of_nat 189) s)).

(** The second byte a lead byte of three or four bytes admits. *)
Definition second_ok (lead z : Z) : bool :=
  if lead =? 224 then between 160 191 z
  else if lead =? 237 then between 128 159 z
  else if lead =? 240 then between 144 191 z
  else if lead =? 244 then between 128 143 z
  else is_continuation z.

(** Well-formed sequences are kept; every maximal ill-formed part becomes one
    replacement character. *)
Fixpoint from_utf8_lossy (s : string) : string :=
  match s with
  | EmptyString => EmptyString
  | String a r =>
      let z := byte_val a in
      if z <? 128 then String a (from_utf8_lossy r)
      else if between 194 223 z then
        match r with
        | String b r1 =>
            if is_continuation (byte_val b) then String a (String b (from_utf8_lossy r1))
            else lossy_replacement (from_utf8_lossy r)
        | EmptyString => lossy_replacement EmptyString
        end
      else if between 224 244 z then
        match r with
        | String b r1 =>
            if second_ok z (byte_val b) then
              match r1 with
              | String c r2 =>
                  if is_continuation (byte_val c) then
                    if z <? 240 then String a (String b (String c (from_utf8_lossy r2)))
                    else match r2 with
                         | String d r3 =>
                             if is_continuation (byte_val d)
                             then String a (String b (String c (String d (from_utf8_lossy r3))))
                             else lossy_replacement (from_utf8_lossy r2)
                         | EmptyString => lossy_replacement EmptyString
                         end
                  else lossy_replacement (from_utf8_lossy r1)
              | EmptyString => lossy_replacement EmptyString
              end
            else lossy_replacement (from_utf8_lossy r)
        | EmptyString => lossy_replacement EmptyString
        end
      else lossy_replacement (from_utf8_lossy r)
  end.

(** ** Lemmas *)

Create HintDb ruststd.

Lemma between_spec lo hi z : between lo hi z = true ↔ lo ≤ z ≤ hi.
Proof. unfold between. rewrite andb_true_iff, !Z.leb_le. lia. Qed.

Lemma byte_val_bound c : 0 ≤ byte_val c < 256.
Proof.
  unfold byte_val. pose proof (N_ascii_bounded c). lia.
Qed.

Lemma byte_val_inj c d : byte_val c = byte_val d → c = d.
Proof.
  unfold byte_val. intros H%N2Z.inj.
  rewrite <- (ascii_N_embedding c), <- (ascii_N_embedding d). by f_equal.
Qed.

Lemma str_app_cons c s t : String c s +:+ t = String c (s +:+ t).
Proof. done. Qed.

Lemma str_forall_app p s t : str_forall p (s +:+ t) = str_forall p s && str_forall p t.
Proof. induction s as [|c s IH]; [done|]. rewrite str_app_cons. cbn. by rewrite IH, andb_assoc. Qed.

Lemma str_forall_impl (p q : Z → bool) s :
  (∀ z, p z = true → q z = true) → str_forall p s = true → str_forall q s = true.
Proof.
  intros Hpq. induction s as [|c s IH]; cbn; [done|].
  rewrite !andb_true_iff. intros [??]. eauto.
Qed.

(** An ASCII string has one character per byte. *)
Lemma chars_ascii s : str_forall (between 0 127) s = true →
  chars s = byte_val <$> String.list_ascii_of_string s.
Proof.
  induction s as [|c s IH]; [done|]. cbn [str_forall].
  rewrite andb_true_iff. intros [Hc%between_spec Hs].
  cbn [chars String.list_ascii_of_string fmap list_fmap].
  replace (byte_val c <? 128) with true by (symmetry; apply Z.ltb_lt; lia).
  f_equal. by apply IH.
Qed.

Lemma chars_ascii_length s : str_forall (between 0 127) s = true →
  length (chars s) = String.length s.
Proof.
  intros H. rewrite chars_ascii by done. rewrite length_fmap.
  clear H. induction s as [|c s IH]; cbn; congruence.
Qed.

Lemma cp2_ge a b : 128 ≤ cp2 a b.
Proof. unfold cp2, replacement_char. case_match; lia. Qed.
Lemma cp3_ge a b c : 128 ≤ cp3 a b c.
Proof. unfold cp3, replacement_char. case_match; lia. Qed.
Lemma cp4_ge a b c d : 128 ≤ cp4 a b c d.
Proof. unfold cp4, replacement_char. case_match; lia. Qed.

#[export] Hint Resolve cp2_ge cp3_ge cp4_ge : ruststd.

(** A character test that only accepts ASCII accepts all characters of a string
    exactly when it accepts all its bytes. *)
Lemma chars_forallb (p : Z → bool) s :
  (∀ z, p z = true → 0 ≤ z ≤ 127) →
  forallb p (chars s) = str_forall p s.
Proof.
  intros Hp.
  assert (Hnp : ∀ z, 128 ≤ z → p z = false).
  { intros z Hz. destruct (p z) eqn:E; [|done]. apply Hp in E. lia. }
  remember (String.length s) as n eqn:Hn.
  revert s Hn. induction n as [n IH] using lt_wf_ind. intros s ->.
  assert (IH' : ∀ t, (String.length t < String.length s)%nat →
    forallb p (chars t) = str_forall p t) by (intros t Ht; by apply (IH _ Ht)).
  clear IH. destruct s as [|a s1]; [done|].
  cbn [chars str_forall].
  destruct (byte_val a <? 128) eqn:Ea; cbn [forallb].
  { f_equal. apply IH'. cbn. lia. }
  apply Z.ltb_ge in Ea. rewrite (Hnp (byte_val a)) by lia.
  repeat case_match; cbn [forallb]; rewrite ?Hnp by (unfold replacement_char; auto with ruststd; lia); done.
Qed.

Lemma str_length_app s t : String.length (s +:+ t) = (String.length s + String.length t)%nat.
Proof. induction s as [|c s IH]; [done|]. rewrite str_app_cons. cbn. by rewrite IH. Qed.

Lemma str_app_assoc (s t u : string) : (s +:+ t) +:+ u = s +:+ (t +:+ u).
Proof. induction s as [|c s IH]; [done|]. by rewrite !str_app_cons, IH. Qed.

Lemma str_app_nil_r (s : string) : s +:+ EmptyString = s.
Proof. induction s as [|c s IH]; [done|]. by rewrite str_app_cons, IH. Qed.

Lemma str_split_none z s : str_contains z s = false → str_split z s = [s].
Proof.
  induction s as [|c s IH]; cbn; [done|].
  destruct (byte_val c =? z); [done|]. intros H. by rewrite (IH H).
Qed.

Lemma str_split_once z s t c : byte_val c = z → str_contains z s = false →
  str_contains z t = false → str_split z (s +:+ String c t) = [s; t].
Proof.
  intros Hc Hs Ht. induction s as [|d s IH]; [|rewrite str_app_cons]; cbn in *.
  - change (EmptyString +:+ String c t) with (String c t). cbn.
    rewrite Hc, Z.eqb_refl. by rewrite str_split_none.
  - apply orb_false_iff in Hs as [Hd Hs]. rewrite Hd. by rewrite IH.
Qed.

Lemma str_contains_app z s t :
  str_contains z (s +:+ t) = str_contains z s || str_contains z t.
Proof. induction s as [|c s IH]; [done|]. rewrite str_app_cons. cbn. by rewrite IH, orb_assoc. Qed.

(** A class of bytes without [z] keeps [z] out. *)
Lemma str_forall_not_contains p z s : p z = false →
  str_forall p s = true → str_contains z s = false.
Proof.
  intros Hz. induction s as [|c s IH]; cbn; [done|].
  rewrite andb_true_iff. intros [Hc Hs]. apply orb_false_iff. split; [|auto].
  apply Z.eqb_neq. congruence.
Qed.

(** *** Association lists *)

Section assoc_lemmas.
Context {V : Type}.
Implicit Types (m : list (string * V)).

Lemma string_compare_eq k k' : String.compare k k' = Eq → k = k'.
Proof. apply String.compare_eq_iff. Qed.

Lemma string_compare_refl k : String.compare k k = Eq.
Proof.
  induction k as [|c k IH]; cbn; [done|]. unfold Ascii.compare. by rewrite N.compare_refl.
Qed.

Lemma assoc_btree_insert k v m k' :
  assoc k' (btree_insert k v m) = if String.eqb k' k then Some v else assoc k' m.
Proof.
  induction m as [|[k1 v1] m IH]; cbn; [done|].
  destruct (String.compare k k1) eqn:E; cbn.
  - apply string_compare_eq in E as ->. by destruct (String.eqb k' k1).
  - done.
  - rewrite IH. destruct (String.eqb_spec k' k1) as [->|]; [|done].
    destruct (String.eqb_spec k1 k) as [->|]; [|done].
    by rewrite string_compare_refl in E.
Qed.

Lemma assoc_index_insert k v m k' :
  assoc k' (index_insert k v m) = if String.eqb k' k then Some v else assoc k' m.
Proof.
  induction m as [|[k1 v1] m IH]; cbn; [done|].
  destruct (String.eqb_spec k k1) as [->|]; cbn.
  - by destruct (String.eqb k' k1).
  - rewrite IH. destruct (String.eqb_spec k' k1) as [->|]; [|done].
    by destruct (String.eqb_spec k1 k) as [->|].
Qed.

Lemma elem_of_btree_insert k v m p :
  p ∈ btree_insert k v m → p = (k, v) ∨ p ∈ m.
Proof.
  induction m as [|[k1 v1] m IH]; cbn; [set_solver|].
  destruct (String.compare k k1); set_solver.
Qed.

Lemma elem_of_btree_insert_new k v m : (k, v) ∈ btree_insert k v m.
Proof.
  induction m as [|[k1 v1] m IH]; cbn; [set_solver|].
  destruct (String.compare k k1); set_solver.
Qed.

Lemma assoc_Some_elem k v m : assoc k m = Some v → (k, v) ∈ m.
Proof.
  induction m as [|[k1 v1] m IH]; cbn; [done|].
  destruct (String.eqb_spec k k1) as [->|]; intros H; simplify_eq; set_solver.
Qed.

(** Strictly increasing keys: the representation invariant of a [BTreeMap]. *)
Definition btree_wf m : Prop := StronglySorted (λ p q, String.compare p.1 q.1 = Lt) m.

End assoc_lemmas.

Lemma string_compare_trans a b c :
  String.compare a b = Lt → String.compare b c = Lt → String.compare a c = Lt.
Proof.
  revert b c. induction a as [|x a IH]; intros [|y b] [|z c]; cbn; try done.
  unfold Ascii.compare.
  destruct (N.compare_spec (N_of_ascii x) (N_of_ascii y)) as [Exy|Lxy|]; try done;
  destruct (N.compare_spec (N_of_ascii y) (N_of_ascii z)) as [Eyz|Lyz|]; try done; intros H1 H2.
  - rewrite Exy, Eyz, N.compare_refl. eauto.
  - rewrite Exy. by apply N.compare_lt_iff in Lyz as ->.
  - rewrite <- Eyz. by apply N.compare_lt_iff in Lxy as ->.
  - assert (N_of_ascii x < N_of_ascii z)%N as Hlt by lia.
    by apply N.compare_lt_iff in Hlt as ->.
Qed.

Lemma string_compare_gt a b : String.compare a b = Gt → String.compare b a = Lt.
Proof. intros H. rewrite String.compare_antisym, H. done. Qed.

(** Insertion keeps the keys sorted. *)
Lemma btree_insert_wf {V} k (v : V) m : btree_wf m → btree_wf (btree_insert k v m).
Proof.
  unfold btree_wf. induction 1 as [|[k1 v1] m Hm IH Hall]; cbn.
  { repeat constructor. }
  destruct (String.compare k k1) eqn:E.
  - apply string_compare_eq in E as ->. by constructor.
  - constructor; [by constructor|]. constructor; [done|].
    eapply Forall_impl; [exact Hall|]. intros [k2 v2]. cbn. by apply string_compare_trans.
  - constructor; [done|]. apply Forall_forall. intros p Hp.
    apply elem_of_btree_insert in Hp as [->|Hp]; cbn.
    + by apply string_compare_gt.
    + by eapply Forall_forall in Hall.
Qed.

(** *** Stable sorting *)

Section sort_lemmas.
Context {A : Type} (key : A → nat).
Implicit Types (l : list A).

Notation key_le := (λ x y, (key x ≤ key y)%nat).

Lemma insert_by_key_perm x l : insert_by_key key x l ≡ₚ x :: l.
Proof.
  induction l as [|y l IH]; cbn; [done|].
  case_match; [|done]. rewrite IH. apply Permutation_swap.
Qed.

Lemma insert_by_key_sorted x l :
  StronglySorted key_le l → StronglySorted key_le (insert_by_key key x l).
Proof.
  induction 1 as [|y l Hl IH Hy]; cbn; [repeat constructor|].
  destruct (key y <=? key x)%nat eqn:E.
  - constructor; [done|]. rewrite insert_by_key_perm.
    apply Nat.leb_le in E. by constructor.
  - apply Nat.leb_gt in E. constructor; [by constructor|].
    constructor; [lia|]. eapply Forall_impl; [exact Hy|]. cbn. lia.
Qed.

(** Inserting after all equal keys: the new element is last in its class. *)
Lemma insert_by_key_filter x l k :
  StronglySorted key_le l →
  filter (λ y, key y = k) (insert_by_key key x l) =
  filter (λ y, key y = k) l ++ filter (λ y, key y = k) [x].
Proof.
  induction 1 as [|y l Hl IH Hy]; cbn [insert_by_key]; [done|].
  destruct (key y <=? key x)%nat eqn:E.
  - rewrite !filter_cons. case_decide; cbn; by rewrite IH.
  - apply Nat.leb_gt in E. rewrite (filter_cons _ x).
    destruct (decide (key x = k)) as [<-|]; [|rewrite (filter_cons _ x []); by rewrite decide_False, app_nil_r].
    enough (filter (λ z, key z = key x) (y :: l) = []) as ->.
    { rewrite (filter_cons _ x []). by rewrite decide_True. }
    rewrite filter_cons, decide_False by lia.
    clear -Hy E. induction Hy as [|z l Hz Hl IHl]; [done|].
    rewrite filter_cons, decide_False by lia. done.
Qed.

Lemma sort_by_key_acc_perm acc l :
  foldl (λ acc x, insert_by_key key x acc) acc l ≡ₚ acc ++ l.
Proof.
  revert acc. induction l as [|x l IH]; intros acc; cbn; [by rewrite app_nil_r|].
  rewrite IH, insert_by_key_perm. by rewrite <- Permutation_middle.
Qed.

Lemma sort_by_key_acc_sorted acc l : StronglySorted key_le acc →
  StronglySorted key_le (foldl (λ acc x, insert_by_key key x acc) acc l).
Proof.
  revert acc. induction l as [|x l IH]; intros acc Hacc; cbn; [done|].
  by apply IH, insert_by_key_sorted.
Qed.

Lemma sort_by_key_perm l : sort_by_key key l ≡ₚ l.
Proof. unfold sort_by_key. by rewrite sort_by_key_acc_perm. Qed.

Lemma sort_by_key_sorted l : StronglySorted key_le (sort_by_key key l).
Proof. apply sort_by_key_acc_sorted. constructor. Qed.

(** Stability: elements with the same key keep their order. *)
Lemma sort_by_key_stable l k :
  filter (λ y, key y = k) (sort_by_key key l) = filter (λ y, key y = k) l.
Proof.
  unfold sort_by_key.
  enough (∀ acc, StronglySorted key_le acc →
    filter (λ y, key y = k) (foldl (λ acc x, insert_by_key key x acc) acc l) =
    filter (λ y, key y = k) acc ++ filter (λ y, key y = k) l) as H.
  { apply H. constructor. }
  induction l as [|x l IH]; intros acc Hacc; cbn [foldl].
  { by rewrite app_nil_r. }
  rewrite IH by by apply insert_by_key_sorted.
  rewrite insert_by_key_filter by done.
  rewrite <- app_assoc. f_equal. by rewrite <- filter_app.
Qed.

(** A list with distinct keys has one sorted arrangement. *)
Lemma sorted_perm_unique l1 l2 :
  StronglySorted key_le l1 → StronglySorted key_le l2 → l1 ≡ₚ l2 →
  NoDup (key <$> l1) → l1 = l2.
Proof.
  revert l2. induction l1 as [|x l1 IH]; intros l2 H1 H2 Hp Hnd.
  { symmetry in Hp. by apply Permutation_nil_r in Hp. }
  destruct l2 as [|y l2]; [by apply Permutation_nil_r in Hp|].
  inversion H1 as [|?? H1' Hx]; inversion H2 as [|?? H2' Hy]; subst.
  cbn in Hnd. apply NoDup_cons in Hnd as [Hnotin Hnd].
  assert (x = y) as ->.
  { assert (y ∈ x :: l1) as [->|Hin1]%elem_of_cons by (rewrite Hp; set_solver); [done|].
    assert (x ∈ y :: l2) as [->|Hin2]%elem_of_cons by (rewrite <- Hp; set_solver); [done|].
    eapply Forall_forall in Hx; [|exact Hin1]. eapply Forall_forall in Hy; [|exact Hin2].
    exfalso. apply Hnotin. replace (key x) with (key y) by lia.
    by apply list_elem_of_fmap_2. }
  f_equal. apply IH; try done. by apply (inj (cons y)).
Qed.

Lemma sort_by_key_unique l1 l2 : l1 ≡ₚ l2 → NoDup (key <$> l1) →
  sort_by_key key l1 = sort_by_key key l2.
Proof.
  intros Hp Hnd. apply sorted_perm_unique; auto using sort_by_key_sorted.
  - by rewrite !sort_by_key_perm.
  - by rewrite sort_by_key_perm.
Qed.

Lemma sort_by_key_id l : StronglySorted key_le l → sort_by_key key l = l.
Proof.
  intros Hs. unfold sort_by_key.
  enough (∀ acc, StronglySorted key_le (acc ++ l) →
    foldl (λ acc x, insert_by_key key x acc) acc l = acc ++ l) as H by by apply H.
  clear Hs. induction l as [|x l IH]; intros acc Hs; cbn; [by rewrite app_nil_r|].
  assert (insert_by_key key x acc = acc ++ [x]) as ->.
  { clear IH. induction acc as [|y acc IHacc]; cbn; [done|].
    inversion Hs as [|?? Hs' Hy]; subst. apply Forall_app in Hy as [_ Hy].
    inversion Hy; subst. replace (key y <=? key x)%nat with true
      by (symmetry; by apply Nat.leb_le). f_equal. by apply IHacc. }
  rewrite IH; by rewrite <- app_assoc.
Qed.

End sort_lemmas.

#[export] Hint Resolve sort_by_key_perm sort_by_key_sorted btree_insert_wf : ruststd.

(** ** [slice::sort_by] *)

Section sort_by.
Context {A : Type} (leb : A → A → bool).

Fixpoint insert_by (x : A) (l : list A) : list A :=
  match l with
  | [] => [x]
  | y :: l' => if leb y x then y :: insert_by x l' else x :: l
  end.

Definition sort_by (l : list A) : list A := foldl (λ acc x, insert_by x acc) [] l.

Lemma insert_by_perm x l : insert_by x l ≡ₚ x :: l.
Proof.
  induction l as [|y l IH]; cbn; [done|]. destruct (leb y x); [|done].
  rewrite IH. apply Permutation_swap.
Qed.

Lemma sort_by_perm l : sort_by l ≡ₚ l.
Proof.
  unfold sort_by. change l with ([] ++ l) at 2. generalize (@nil A) as acc.
  induction l as [|x l IH]; intros acc; cbn; [by rewrite app_nil_r|].
  rewrite IH, insert_by_perm. apply Permutation_middle.
Qed.

Context (leb_total : ∀ x y, leb x y = true ∨ leb y x = true).
Context (leb_trans : ∀ x y z, leb x y = true → leb y z = true → leb x z = true).

Lemma insert_by_sorted x l : StronglySorted leb l → StronglySorted leb (insert_by x l).
Proof using leb_total leb_trans.
  induction 1 as [|y l Hl IH Hy]; cbn; [by repeat constructor|].
  destruct (leb y x) eqn:E.
  - constructor; [done|]. apply List.Forall_forall. intros z Hz.
    apply list_elem_of_In in Hz. rewrite insert_by_perm in Hz. apply elem_of_cons in Hz as [->|Hz]; [by apply Is_true_true|].
    rewrite List.Forall_forall in Hy. apply Hy. by apply list_elem_of_In.
  - destruct (leb_total x y) as [Hxy|]; [|congruence].
    constructor; [by constructor|]. constructor; [by apply Is_true_true|].
    eapply List.Forall_impl; [|exact Hy]. intros z Hz%Is_true_true. apply Is_true_true. eauto.
Qed.

Lemma sort_by_sorted l : StronglySorted leb (sort_by l).
Proof using leb_total leb_trans.
  unfold sort_by. assert (Hacc : StronglySorted leb (@nil A)) by constructor. revert Hacc.
  generalize (@nil A) as acc. induction l as [|x l IH]; intros acc Hacc; cbn; [done|].
  apply IH. by apply insert_by_sorted.
Qed.

(** The first element of the sorted list with a property is a least one. *)
Lemma find_sorted (p : A → bool) l x : StronglySorted leb l → List.find p l = Some x →
  x ∈ l ∧ p x = true ∧ ∀ y, y ∈ l → p y = true → leb x y = true.
Proof using leb_total.
  assert (Hrefl : ∀ x, leb x x = true) by (intros z; by destruct (leb_total z z)).
  induction 1 as [|z l Hl IH Hz]; cbn; [done|]. destruct (p z) eqn:Ez.
  - intros [= <-]. split_and!; [left|done|]. intros y [->|Hy]%elem_of_cons _; [done|].
    rewrite List.Forall_forall in Hz. apply Is_true_true, Hz. by apply list_elem_of_In.
  - intros (Hin & Hp & Hmin)%IH. split_and!; [by right|done|].
    intros y [->|Hy]%elem_of_cons Hpy; [congruence|]. by apply Hmin.
Qed.

Lemma find_sort_by_Some (p : A → bool) l x : List.find p (sort_by l) = Some x →
  x ∈ l ∧ p x = true ∧ ∀ y, y ∈ l → p y = true → leb x y = true.
Proof using leb_total leb_trans.
  intros (Hin & Hp & Hmin)%find_sorted; [|apply sort_by_sorted]. rewrite sort_by_perm in Hin.
  split_and!; [done..|]. intros y Hy. apply Hmin. by rewrite sort_by_perm.
Qed.

Lemma find_sort_by_None (p : A → bool) l : List.find p (sort_by l) = None ↔ ∀ x, x ∈ l → p x = false.
Proof.
  split.
  - intros Hf x Hx. apply (List.find_none p _ Hf). apply list_elem_of_In. by rewrite sort_by_perm.
  - intros Hl. destruct (List.find p (sort_by l)) as [x|] eqn:E; [|done].
    apply List.find_some in E as [Hin Hp]. apply list_elem_of_In in Hin. rewrite sort_by_perm in Hin.
    rewrite Hl in Hp by done. done.
Qed.

(** Where the order tells the elements with the property apart, the result does
    not depend on the order of the list. *)
Lemma find_sort_by_unique (p : A → bool) l k :
  l ≡ₚ k →
  (∀ x y, x ∈ l → y ∈ l → p x = true → p y = true → leb x y = true → leb y x = true → x = y) →
  List.find p (sort_by l) = List.find p (sort_by k).
Proof using leb_total leb_trans.
  intros Hlk Hanti. destruct (List.find p (sort_by l)) as [x|] eqn:El.
  - apply find_sort_by_Some in El as (Hx & Hpx & Hmx).
    destruct (List.find p (sort_by k)) as [y|] eqn:Ek.
    + apply find_sort_by_Some in Ek as (Hy & Hpy & Hmy). rewrite <-Hlk in Hy. f_equal.
      apply Hanti; [done..|by apply Hmx|]. apply Hmy; [by rewrite <-Hlk|done].
    + rewrite find_sort_by_None in Ek. rewrite Ek in Hpx; [done|]. by rewrite <-Hlk.
  - symmetry. rewrite find_sort_by_None in El |- *. intros x Hx. apply El. by rewrite Hlk.
Qed.
End sort_by.
