(* ===== verification/Text.v ===== *)
(** * Strings of the Rust standard library

    Trimming, prefixes, suffixes and case of [str], on UTF-8 byte strings. *)

From Stdlib Require Import String Ascii.
From S2P Require Import Prelude RustStd.

Open Scope Z_scope.

(** ** [str::trim] *)

(** The white space of Unicode in UTF-8, by its number of bytes. *)
Definition ws1 (a : ascii) : bool := between 9 13 (byte_val a) || (byte_val a =? 32).
Definition ws2 (a b : ascii) : bool :=
  (byte_val a =? 194) && ((byte_val b =? 133) || (byte_val b =? 160)).
Definition ws3 (a b c : ascii) : bool :=
  let '(x, y, z) := (byte_val a, byte_val b, byte_val c) in
  (x =? 225) && (y =? 154) && (z =? 128)
  || (x =? 226) && (y =? 128) && (between 128 138 z || (z =? 168) || (z =? 169) || (z =? 175))
  || (x =? 226) && (y =? 129) && (z =? 159)
  || (x =? 227) && (y =? 128) && (z =? 128).

Fixpoint trim_start (s : string) : string :=
  match s with
  | EmptyString => EmptyString
  | String a s1 =>
      if ws1 a then trim_start s1
      else match s1 with
      | EmptyString => s
      | String b s2 =>
          if ws2 a b then trim_start s2
          else match s2 with
          | EmptyString => s
          | String c s3 => if ws3 a b c then trim_start s3 else s
          end
      end
  end.

(** Cut where only white space is left; a byte inside a character never starts
    white space. *)
Fixpoint trim_end (s : string) : string :=
  match s with
  | EmptyString => EmptyString
  | String a s' => if bool_decide (trim_start s = EmptyString) then EmptyString else String a (trim_end s')
  end.

Definition trim (s : string) : string := trim_end (trim_start s).

(** [str::eq_ignore_ascii_case]. *)
Definition to_ascii_lowercase (a : ascii) : ascii :=
  if is_ascii_uppercase (byte_val a) then ascii_of_N (N_of_ascii a + 32) else a.
Fixpoint eq_ignore_ascii_case (s t : string) : bool :=
  match s, t with
  | EmptyString, EmptyString => true
  | String a s, String b t =>
      bool_decide (to_ascii_lowercase a = to_ascii_lowercase b) && eq_ignore_ascii_case s t
  | _, _ => false
  end.

(** [str::to_ascii_lowercase]. *)
Fixpoint lowercase (s : string) : string :=
  match s with
  | EmptyString => EmptyString
  | String a s => String (to_ascii_lowercase a) (lowercase s)
  end.

(** ** Emptiness *)

Definition is_empty (s : string) : bool := bool_decide (s = EmptyString).

(** [s.trim().is_empty()]. *)
Definition blank (s : string) : bool := is_empty (trim s).

(** [o.as_deref().map(str::trim).filter(|v| !v.is_empty())]. *)
Definition nonblank (o : option string) : option string :=
  s ← o; let s := trim s in if is_empty s then None else Some s.

(** ** Parts of a string *)

(** [str::strip_prefix] of a string. *)
Fixpoint strip_prefix (p s : string) : option string :=
  match p, s with
  | EmptyString, _ => Some s
  | String a p, String b s => if bool_decide (a = b) then strip_prefix p s else None
  | String _ _, EmptyString => None
  end.

(** [str::strip_suffix]: [s] without the suffix [p]. *)
Fixpoint strip_suffix (p s : string) : option string :=
  if bool_decide (s = p) then Some EmptyString
  else match s with
  | EmptyString => None
  | String a s => String a <$> strip_suffix p s
  end.

(** [str::split_once] at an ASCII character. *)
Fixpoint split_once (z : Z) (s : string) : option (string * string) :=
  match s with
  | EmptyString => None
  | String a s =>
      if byte_val a =? z then Some (EmptyString, s)
      else '(l, r) ← split_once z s; Some (String a l, r)
  end.

Fixpoint str_drop (n : nat) (s : string) : string :=
  match n, s with
  | S n, String _ s => str_drop n s
  | _, _ => s
  end.

(** [s.get(n..)]: nothing past the end and inside a character. *)
Definition get_from (n : nat) (s : string) : option string :=
  if (String.length s <? n)%nat then None
  else let r := str_drop n s in
       match r with
       | EmptyString => Some r
       | String a _ => if is_continuation (byte_val a) then None else Some r
       end.

(** [str::ends_with] of an ASCII character. *)
Fixpoint ends_with (z : Z) (s : string) : bool :=
  match s with
  | EmptyString => false
  | String a EmptyString => byte_val a =? z
  | String _ s => ends_with z s
  end.

(** ** Lemmas *)

Lemma strip_prefix_Some p s r : strip_prefix p s = Some r ↔ s = p +:+ r.
Proof.
  revert s. induction p as [|a p IH]; intros [|b s]; cbn [strip_prefix]; rewrite ?str_app_cons.
  - change (EmptyString +:+ r) with r. naive_solver.
  - change (EmptyString +:+ r) with r. naive_solver.
  - naive_solver.
  - case_bool_decide as E; [subst|naive_solver]. rewrite IH. naive_solver.
Qed.

Lemma str_strip_suffix_Some p s r : strip_suffix p s = Some r → s = r +:+ p.
Proof.
  revert r. induction s as [|a s IH]; intros r; cbn [strip_suffix]; case_bool_decide as E.
  1, 3: by intros [= <-]; subst.
  - done.
  - intros (r' & Hr & ->)%fmap_Some. rewrite str_app_cons. f_equal. by apply IH.
Qed.

Lemma split_once_Some z s l r : split_once z s = Some (l, r) →
  ∃ c, byte_val c = z ∧ s = l +:+ String c r ∧ str_contains z l = false.
Proof.
  revert l r. induction s as [|a s IH]; intros l r; cbn [split_once]; [done|].
  destruct (byte_val a =? z) eqn:E.
  { intros [= <- <-]. exists a. split; [by apply Z.eqb_eq|done]. }
  destruct (split_once z s) as [[l' r']|]; [|done]. cbn. intros [= <- <-].
  destruct (IH l' r' eq_refl) as (c & ? & -> & Hl). exists c. cbn [str_contains]. rewrite E, Hl. done.
Qed.

Lemma str_drop_app p s : str_drop (String.length p) (p +:+ s) = s.
Proof. induction p as [|a p IH]; [by destruct s|]. rewrite str_app_cons. cbn. done. Qed.

(** Trimming twice is trimming once. *)
Lemma trim_start_eq s : trim_start s =
  match s with
  | String a s1 =>
      if ws1 a then trim_start s1
      else match s1 with
      | String b s2 =>
          if ws2 a b then trim_start s2
          else match s2 with
          | String c s3 => if ws3 a b c then trim_start s3 else s
          | EmptyString => s
          end
      | EmptyString => s
      end
  | EmptyString => EmptyString
  end.
Proof. by destruct s as [|? [|? []]]. Qed.

Lemma trim_start_ind (P : string → Prop) :
  (∀ s, (∀ t, (String.length t < String.length s)%nat → P t) → P s) → ∀ s, P s.
Proof.
  intros Hstep s. remember (String.length s) as n eqn:Hn. revert s Hn.
  induction (lt_wf n) as [n _ IH]. intros s ->. apply Hstep. intros t Ht. by eapply IH.
Qed.

Lemma trim_start_app s t : trim_start s = EmptyString → trim_start (s +:+ t) = trim_start t.
Proof.
  induction s as [s IH] using trim_start_ind. rewrite (trim_start_eq s). destruct s as [|a s1]; [done|].
  rewrite str_app_cons, (trim_start_eq (String a (s1 +:+ t))). destruct (ws1 a); [apply IH; cbn; lia|].
  destruct s1 as [|b s2]; [done|]. rewrite str_app_cons. destruct (ws2 a b); [apply IH; cbn; lia|].
  destruct s2 as [|c s3]; [done|]. rewrite str_app_cons. destruct (ws3 a b c); [apply IH; cbn; lia|done].
Qed.

Lemma trim_start_idemp s : trim_start (trim_start s) = trim_start s.
Proof.
  induction s as [s IH] using trim_start_ind. rewrite (trim_start_eq s). destruct s as [|a s1]; [done|].
  destruct (ws1 a) eqn:E1; [apply IH; cbn; lia|].
  destruct s1 as [|b s2]; [by rewrite trim_start_eq, E1|]. destruct (ws2 a b) eqn:E2; [apply IH; cbn; lia|].
  destruct s2 as [|c s3]; [by rewrite trim_start_eq, E1, E2|].
  destruct (ws3 a b c) eqn:E3; [apply IH; cbn; lia|by rewrite trim_start_eq, E1, E2, E3].
Qed.

Lemma trim_end_app s : ∃ rest, s = trim_end s +:+ rest ∧ trim_start rest = EmptyString.
Proof.
  induction s as [|a s (rest & Hs & Hr)]; [by exists EmptyString|]. cbn [trim_end].
  destruct (bool_decide_reflect (trim_start (String a s) = EmptyString)) as [Hw|]; [by exists (String a s)|].
  exists rest. rewrite str_app_cons. by rewrite <- Hs.
Qed.

Lemma trim_end_idemp s : trim_end (trim_end s) = trim_end s.
Proof.
  induction s as [|a s IH]; [done|]. cbn [trim_end].
  destruct (bool_decide_reflect (trim_start (String a s) = EmptyString)) as [|Hw]; [done|]. cbn [trim_end].
  rewrite bool_decide_false; [by rewrite IH|]. intros Hw'. apply Hw.
  destruct (trim_end_app s) as (rest & Hs & Hr). rewrite Hs at 1. by rewrite <- str_app_cons, trim_start_app.
Qed.

(** White space at the start of a prefix is white space at the start. *)
Lemma trim_start_prefix s t : trim_start (s +:+ t) = s +:+ t → trim_start s = s.
Proof.
  destruct s as [|a s1]; [done|]. rewrite str_app_cons, (trim_start_eq (String a _)), (trim_start_eq (String a s1)).
  assert (∀ u v : string, trim_start u = v → (String.length v ≤ String.length u)%nat) as Hlen.
  { intros u v <-. clear. induction u as [u IH] using trim_start_ind. rewrite trim_start_eq.
    destruct u as [|x [|y [|z u]]]; cbn; repeat case_match; cbn; try lia.
    all: etrans; [apply IH; cbn; lia|cbn; lia]. }
  destruct (ws1 a). { intros He%Hlen. cbn in He. lia. }
  destruct s1 as [|b s2]; [done|]. rewrite str_app_cons. destruct (ws2 a b). { intros He%Hlen. cbn in He. lia. }
  destruct s2 as [|c s3]; [done|]. rewrite str_app_cons. destruct (ws3 a b c); [|done]. intros He%Hlen. cbn in He. lia.
Qed.

Lemma trim_idemp s : trim (trim s) = trim s.
Proof.
  unfold trim. destruct (trim_end_app (trim_start s)) as (rest & Hs & _).
  rewrite (trim_start_prefix _ rest), trim_end_idemp; [done|]. rewrite <- Hs. apply trim_start_idemp.
Qed.

(** ** Slices *)

(** The first bytes of a text. *)
Fixpoint str_take (n : nat) (s : string) : string :=
  match n, s with
  | S n, String a s => String a (str_take n s)
  | _, _ => EmptyString
  end.

Lemma str_take_app n s t : str_take n (s +:+ t) = str_take n s +:+ str_take (n - String.length s) t.
Proof.
  revert n. induction s as [|a s IH]; intros n; [by destruct n|]. rewrite str_app_cons. destruct n as [|n]; [done|].
  cbn [str_take String.length Nat.sub]. by rewrite IH, str_app_cons.
Qed.
Lemma str_take_all n s : (String.length s ≤ n)%nat → str_take n s = s.
Proof. revert n. induction s as [|a s IH]; intros [|n] Hn; cbn in *; try done; [lia|]. by rewrite IH by lia. Qed.
Lemma str_take_0 s : str_take 0 s = EmptyString.
Proof. done. Qed.
Lemma str_take_length n s : String.length (str_take n s) = Nat.min n (String.length s).
Proof. revert n. induction s as [|a s IH]; intros [|n]; cbn; [done..|]. by rewrite IH. Qed.

Lemma str_take_drop n s : str_take n s +:+ str_drop n s = s.
Proof. revert n. induction s as [|a s IH]; intros [|n]; try done. cbn [str_take str_drop]. by rewrite str_app_cons, IH. Qed.
Lemma str_drop_length n s : String.length (str_drop n s) = (String.length s - n)%nat.
Proof. revert n. induction s as [|a s IH]; intros [|n]; try done. cbn. apply IH. Qed.
