(* ===== verification/Ura.v ===== *)
(** * Resource addresses (src/src/core/ura/mod.rs)

    The grammar of URAs belongs to the Axon SDK: its parser and builders are the
    interface [UraLib].  This file has what the CLI projects from them: realms,
    scope labels, ability selectors and the names under which owners publish and
    the daemon dispatches abilities. *)

From Stdlib Require Import String Ascii.
From S2P Require Import Prelude RustStd Text.

Open Scope Z_scope.

(** ** The SDK *)

(** [URAKind] of the SDK. *)
Inductive URAKind :=
| KAuthority | KDevice | KUser | KService | KAgent | KAbility | KResource | KUnknown.

#[global] Instance URAKind_eq_dec : EqDecision URAKind.
Proof. solve_decision. Defined.

(** [AbilityOwner] of the SDK. *)
Inductive AbilityOwner :=
| OwnerAgent (user_id agent_id : string)
| OwnerService (principal_id service_id : string)
| OwnerSystemAgent (device_id agent_id : string)
| OwnerDevice (device_id : string)
| OwnerAuthority.

#[global] Instance AbilityOwner_eq_dec : EqDecision AbilityOwner.
Proof. solve_decision. Defined.

(** [ParsedURA]: kind, realm and the results of its accessors. *)
Record ParsedURA := mk_ParsedURA {
  ura_kind : URAKind;
  ura_realm : string;
  ura_user_id : option string;
  ura_device_id : option string;
  ura_agent_ids : option (string * string);
  ura_device_agent_ids : option (string * string);
  ura_service_ids : option (string * string);
  ura_ability_owner : option AbilityOwner;
  ura_ability_name : option string;
  ura_resource_owner_id : option string;
  ura_resource_path : option string;
}.

(** The parser (its error rendered), the builders, [Display] of kinds, and the
    [Debug] form of strings. *)
Class UraLib := {
  parse_ura : string → result string ParsedURA;
  user_ura : string → string → string;
  device_ura : string → string → string;
  agent_ura : string → string → string → string;
  device_agent_ura : string → string → string → string;
  service_ura : string → string → string → string;
  authority_ura : string → string;
  authority_ability_ura : string → string → string;
  resource_dot_ura : string → string → string → string;
  owner_ability_ura : string → string → option string;
  ability_owner_identity_ura : string → option string;
  kind_display : URAKind → string;
  debug_str : string → string;
}.

(** ** Projections *)

Section ura.
Context `{!UraLib}.

(** [parse_ura(ura).ok()] and its kind. *)
Definition parsed (ura : string) : option ParsedURA :=
  match parse_ura ura with Ok p => Some p | Err _ => None end.
Definition kind_of (ura : string) : option URAKind := ura_kind <$> parsed ura.

Definition REALM_EASYNET : string := "easynet.run".

Definition realm_from_ura (ura : string) : option string := ura_realm <$> parsed ura.

Definition user_realm_from_ura (ura : string) : option string :=
  p ← parsed ura;
  if bool_decide (ura_kind p = KUser) then Some (ura_realm p) else None.

Definition device_ephemeral_resource_ura (device_ura category resource_id : string) : option string :=
  device ← parsed device_ura;
  if negb (bool_decide (ura_kind device = KDevice)) || blank category || blank resource_id then None
  else
    device_id ← ura_device_id device;
    Some (resource_dot_ura (ura_realm device) ("device." +:+ device_id) (category +:+ "/" +:+ resource_id)).

(** ** Scope labels *)

Definition URA_KIND_SCOPE_LABELS : list string :=
  ["authority"; "device"; "user"; "service"; "agent"; "ability"; "resource"].

Definition ura_kind_scope_label (kind : URAKind) : string :=
  match kind with
  | KAuthority => "authority"
  | KDevice => "device"
  | KUser => "user"
  | KService => "service"
  | KAgent => "agent"
  | KAbility => "ability"
  | KResource => "resource"
  | KUnknown => "unknown"
  end.

Definition is_ura_kind_scope_label (value : string) : bool := bool_decide (value ∈ URA_KIND_SCOPE_LABELS).

(** [sort] and [dedup] of a vector of strings: insertion into an ordered list
    that has no duplicates. *)
Definition sort_dedup (l : list string) : list string :=
  (foldl (λ m s, btree_insert s tt m) [] l).*1.

Definition canonical_ura_kind_scope_labels (values : list string) : option (list string) :=
  if existsb (λ v, is_empty (trim v) || negb (bool_decide (trim v = v)) || negb (is_ura_kind_scope_label (trim v))) values
  then None
  else
    let normalized := sort_dedup (trim <$> values) in
    if bool_decide (normalized = []) || negb (bool_decide (length normalized = length values))
       || negb (bool_decide (normalized = values))
    then None else Some normalized.

(** ** Hubs *)

Definition hub_ura (realm : string) : string := authority_ura realm.
Definition hub_ability_ura (realm ability_name : string) : string := authority_ability_ura realm ability_name.
Definition LOCAL_SYSTEM_AGENT_URA : string := "easynet:///r/_system/agent/_system.local".

Definition realm_prefix_ura (realm : string) : result string string :=
  let hub := hub_ura realm in
  prefix ← ok_or (strip_suffix "/authority" hub)
    ("Axon authority_ura returned unexpected identity shape: " +:+ debug_str hub);
  Ok (prefix +:+ "/").

(** ** Names of abilities *)

(** [starts_with(&format!("{id}."))] and [strip_prefix] with its fallback. *)
Definition strip_id (id name : string) : string := default name (strip_prefix (id +:+ ".") name).

Definition owner_local_ability_name (owner_ura ability_name : string) : string :=
  let name := trim ability_name in
  if is_empty name then EmptyString
  else match parsed owner_ura with
  | None => name
  | Some owner =>
      match ura_kind owner with
      | KAgent =>
          match (match ura_agent_ids owner with
                 | Some (_, id) => Some id
                 | None => snd <$> ura_device_agent_ids owner
                 end) with
          | None => name
          | Some agent_id => strip_id agent_id name
          end
      | KDevice => strip_id "device" name
      | _ => name
      end
  end.

Definition descriptor_public_ability_name (owner_ura ability_name : string) : string :=
  let owner_local_name := owner_local_ability_name owner_ura ability_name in
  match parsed owner_ura with
  | None => owner_local_name
  | Some owner =>
      match ura_device_agent_ids owner with
      | None => owner_local_name
      | Some (_, agent_id) =>
          let prefix := agent_id +:+ "." in
          if str_contains 46 owner_local_name || String.prefix prefix owner_local_name
          then owner_local_name else prefix +:+ owner_local_name
      end
  end.

Definition is_callable_ability_owner_ura (owner_ura : string) : bool :=
  match kind_of owner_ura with
  | Some (KAgent | KService | KAuthority) => true
  | _ => false
  end.

Definition ability_ura_matches_owner_ura (owner_ura ability_ura : string) : bool :=
  match kind_of ability_ura with
  | Some KAbility =>
      is_callable_ability_owner_ura owner_ura
      && bool_decide (ability_owner_identity_ura ability_ura = Some owner_ura)
  | _ => false
  end.

Definition local_dispatch_ability_key (target_ura ability : string) : string :=
  let name := trim ability in
  if is_empty name then EmptyString
  else match parsed target_ura with
  | None => name
  | Some target =>
      match ura_kind target with
      | KAgent =>
          match ura_device_agent_ids target, ura_agent_ids target with
          | Some (_, agent_id), _ =>
              let public_name := owner_local_ability_name target_ura name in
              if str_contains 46 public_name then public_name else agent_id +:+ "." +:+ public_name
          | None, Some (_, agent_id) =>
              let public_name := owner_local_ability_name target_ura name in
              if String.prefix (agent_id +:+ ".") public_name then public_name
              else agent_id +:+ "." +:+ public_name
          | None, None => name
          end
      | KDevice | KService | KAuthority => owner_local_ability_name target_ura name
      | _ => name
      end
  end.

(** ** Selectors *)

Record AbilitySelector := mk_AbilitySelector {
  sel_ability_ura : string;
  sel_owner_ura : string;
  sel_owner_kind : string;
  sel_dispatch_target : string;
  sel_public_name : string;
  sel_local_registry_ability : string;
}.

Definition AbilitySelector_parse (raw : string) : result string AbilitySelector :=
  let ability_ura := trim raw in
  let invalid (why : string) := "invalid Ability URA " +:+ debug_str ability_ura +:+ ": " +:+ why in
  if is_empty ability_ura then Err "invalid Ability URA: value must not be empty"
  else
    p ← map_err invalid (parse_ura ability_ura);
    _ ← ensure (bool_decide (ura_kind p = KAbility)) (invalid "expected /ability/ role");
    owner ← ok_or (ura_ability_owner p) (invalid "missing typed ability owner");
    '(owner_ura, owner_kind, dispatch_target) ←
      match owner with
      | OwnerAgent user_id agent_id => Ok (agent_ura (ura_realm p) user_id agent_id, "agent", agent_id)
      | OwnerService principal_id service_id =>
          Ok (service_ura (ura_realm p) principal_id service_id, "service", service_id)
      | OwnerSystemAgent device_id agent_id =>
          Ok (device_agent_ura (ura_realm p) device_id agent_id, "system-agent", agent_id)
      | OwnerDevice _ => Err (invalid ("Device is execution substrate, not an Ability owner; " +:+
                                       "use a device-sponsored SystemAgent owner"))
      | OwnerAuthority =>
          let owner_ura := authority_ura (ura_realm p) in Ok (owner_ura, "authority", owner_ura)
      end;
    public_name ← ok_or (ura_ability_name p) (invalid "missing public ability name");
    Ok (mk_AbilitySelector ability_ura owner_ura owner_kind dispatch_target public_name
          (local_dispatch_ability_key owner_ura public_name)).

Record OwnerLocalAbilityName := mk_OwnerLocalAbilityName {
  ol_registry_name : string;
  ol_owner : string;
  ol_public_name : string;
}.

Definition OwnerLocalAbilityName_parse (raw : string) : result string OwnerLocalAbilityName :=
  let raw := trim raw in
  '(owner, public_name) ← ok_or (split_once 46 raw)
    ("owner-local ability must use `<agent>.<ability>` form; got " +:+ debug_str raw);
  let owner := trim owner in
  let public_name := trim public_name in
  if is_empty owner || is_empty public_name
  then Err "owner-local ability must have non-empty owner and ability segments"
  else if str_contains 46 owner then Err "owner-local ability owner segment must not contain `.`"
  else Ok (mk_OwnerLocalAbilityName (owner +:+ "." +:+ public_name) owner public_name).
End ura.
