(* ===== verification/AgentId.v ===== *)
(** * Agent identity (src/src/core/agent/id.rs)

    [AgentId], [AbilityName] and [NodeId]: their validators, parsers and
    display forms, with the exact languages they accept, the round trip of the
    canonical display form, and the agreement of the two constructors. *)

From Stdlib Require Import String Ascii.
From S2P Require Import Prelude RustStd.

Open Scope Z_scope.

(** ** Data *)

Definition DEFAULT_TENANT : string := "default".
Definition MAX_SEGMENT_LEN : nat := 63.
Definition MAX_NODE_ID_LEN : nat := 128.

Record AgentId := mk_AgentId { tenant : string; name : string }.

Record AbilityName := mk_AbilityName { ability_str : string }.

Record NodeId := mk_NodeId { node_str : string }.

Inductive AgentIdError :=
| Empty
| EmptySegment (which : string)
| SegmentTooLong (which : string) (len max : nat)
| InvalidChar (which : string) (ch : Z)
| UppercaseRejected (which : string)
| ReservedV2 (feature : string)
| WrongLayer.

Inductive NodeIdError :=
| NodeEmpty
| NodeTooLong (len max : nat)
| NodeInvalidChar (ch : Z)
| NodeUppercaseRejected.

#[global] Instance AgentId_eq_dec : EqDecision AgentId.
Proof. solve_decision. Defined.
#[global] Instance AbilityName_eq_dec : EqDecision AbilityName.
Proof. solve_decision. Defined.

(** ** Operations *)

(** The accepted characters: [a-z0-9_-], and [.] too where it is allowed. *)
Definition segment_char (z : Z) : bool :=
  is_ascii_lowercase z || is_ascii_digit z || (z =? 95) || (z =? 45).
Definition dotted_char (z : Z) : bool := segment_char z || (z =? 46).

(** The [for ch in s.chars()] loop of the three validators: [up] and [bad] are
    the errors of the first rejected character. *)
Fixpoint check_chars {E} (ok : Z → bool) (up : E) (bad : Z → E) (cs : list Z) : result E unit :=
  match cs with
  | [] => Ok tt
  | ch :: cs' =>
      if is_ascii_uppercase ch then Err up
      else if ok ch then check_chars ok up bad cs' else Err (bad ch)
  end.

Definition validate_segment (s : string) (which : string) : result AgentIdError unit :=
  if String.eqb s EmptyString then Err (EmptySegment which)
  else if (MAX_SEGMENT_LEN <? length (chars s))%nat
  then Err (SegmentTooLong which (length (chars s)) MAX_SEGMENT_LEN)
  else check_chars segment_char (UppercaseRejected which) (InvalidChar which) (chars s).

Definition validate_ability_segment (s : string) : result AgentIdError unit :=
  let which := "ability" in
  if String.eqb s EmptyString then Err (EmptySegment which)
  else if (MAX_SEGMENT_LEN <? length (chars s))%nat
  then Err (SegmentTooLong which (length (chars s)) MAX_SEGMENT_LEN)
  else check_chars dotted_char (UppercaseRejected which) (InvalidChar which) (chars s).

(** [AgentId::parse]; 35 is [#], 47 is [/]. *)
Definition AgentId_parse (s : string) : result AgentIdError AgentId :=
  if str_contains 35 s then Err (ReservedV2 "instance id (`#<id>`)")
  else if str_contains_str "://" s then Err WrongLayer
  else if String.eqb s EmptyString then Err Empty
  else
    tn ← match str_split 47 s with
         | [n] => Ok (DEFAULT_TENANT, n)
         | [t; n] => Ok (t, n)
         | _ => Err (ReservedV2 "multi-level namespace (`a/b/c`)")
         end;
    let '(t, n) := (tn : string * string) in
    _ ← validate_segment t "tenant";
    _ ← validate_segment n "name";
    Ok (mk_AgentId t n).

(** [AgentId::new]. *)
Definition AgentId_new (t n : string) : result AgentIdError AgentId :=
  _ ← validate_segment t "tenant";
  _ ← validate_segment n "name";
  Ok (mk_AgentId t n).

(** [impl Display for AgentId]: always the full form. *)
Definition AgentId_display (id : AgentId) : string :=
  tenant id +:+ "/" +:+ name id.

Definition AbilityName_parse (s : string) : result AgentIdError AbilityName :=
  _ ← validate_ability_segment s; Ok (mk_AbilityName s).

Definition NodeId_parse (s : string) : result NodeIdError NodeId :=
  if String.eqb s EmptyString then Err NodeEmpty
  else if (MAX_NODE_ID_LEN <? length (chars s))%nat
  then Err (NodeTooLong (length (chars s)) MAX_NODE_ID_LEN)
  else
    _ ← check_chars dotted_char NodeUppercaseRejected NodeInvalidChar (chars s);
    Ok (mk_NodeId s).

(** ** Specification *)

(** The languages the documentation gives: non-empty, bounded length, every
    byte in the class. *)
Definition in_language (max : nat) (p : Z → bool) (s : string) : Prop :=
  s ≠ EmptyString ∧ (String.length s ≤ max)%nat ∧ str_forall p s = true.

Definition valid_segment : string → Prop := in_language MAX_SEGMENT_LEN segment_char.

(** ** Lemmas *)

Lemma segment_char_ascii z : segment_char z = true → 0 ≤ z ≤ 127.
Proof.
  unfold segment_char, is_ascii_lowercase, is_ascii_digit.
  rewrite !orb_true_iff, !between_spec, !Z.eqb_eq. lia.
Qed.

Lemma dotted_char_ascii z : dotted_char z = true → 0 ≤ z ≤ 127.
Proof.
  unfold dotted_char. rewrite orb_true_iff, Z.eqb_eq.
  intros [?%segment_char_ascii|]; lia.
Qed.

Lemma segment_char_not_upper z : segment_char z = true → is_ascii_uppercase z = false.
Proof.
  unfold segment_char, is_ascii_lowercase, is_ascii_digit, is_ascii_uppercase.
  rewrite !orb_true_iff, !between_spec, !Z.eqb_eq. intros H.
  apply not_true_iff_false. rewrite between_spec. lia.
Qed.

Lemma dotted_char_not_upper z : dotted_char z = true → is_ascii_uppercase z = false.
Proof.
  unfold dotted_char. rewrite orb_true_iff, Z.eqb_eq.
  intros [?%segment_char_not_upper| ->]; done.
Qed.

#[export] Hint Resolve segment_char_ascii dotted_char_ascii
  segment_char_not_upper dotted_char_not_upper : ruststd.

Lemma check_chars_Ok {E} ok (up : E) bad cs :
  (∀ z, ok z = true → is_ascii_uppercase z = false) →
  check_chars ok up bad cs = Ok tt ↔ forallb ok cs = true.
Proof.
  intros Hup. induction cs as [|c cs IH]; cbn; [done|].
  rewrite andb_true_iff.
  destruct (is_ascii_uppercase c) eqn:Eu.
  { split; [done|]. intros [Hc%Hup _]. congruence. }
  destruct (ok c); naive_solver.
Qed.

(** The shape shared by the three validators. *)
Lemma validator_Ok {E} ok (max : nat) (e1 : E) e2 up bad s :
  (∀ z, ok z = true → 0 ≤ z ≤ 127) →
  (∀ z, ok z = true → is_ascii_uppercase z = false) →
  (if String.eqb s EmptyString then Err e1
   else if (max <? length (chars s))%nat then Err e2
   else check_chars ok up bad (chars s)) = Ok tt ↔ in_language max ok s.
Proof.
  intros Hascii Hup. unfold in_language.
  destruct (String.eqb_spec s EmptyString) as [->|Hne]; [naive_solver|].
  assert (Hlen : str_forall ok s = true → length (chars s) = String.length s).
  { intros Hs. apply chars_ascii_length. revert Hs. apply str_forall_impl.
    intros z Hz. apply between_spec. by apply Hascii. }
  destruct (Nat.ltb_spec max (length (chars s))) as [Hlt|Hge].
  - split; [done|]. intros (_ & Hle & Hs). rewrite <- Hlen in Hle by done. lia.
  - rewrite check_chars_Ok, chars_forallb by done. split.
    + intros Hs. rewrite Hlen in Hge by done. done.
    + naive_solver.
Qed.

Lemma validate_segment_Ok s which :
  validate_segment s which = Ok tt ↔ valid_segment s.
Proof. apply validator_Ok; auto with ruststd. Qed.

Lemma valid_segment_not_contains s z : segment_char z = false →
  valid_segment s → str_contains z s = false.
Proof. intros Hz (_ & _ & Hs). by eapply str_forall_not_contains. Qed.

Lemma str_contains_str_head c p s :
  str_contains_str (String c p) s = true → str_contains (byte_val c) s = true.
Proof.
  induction s as [|d s IH]; cbn [str_contains_str str_contains]; [done|].
  rewrite !orb_true_iff. intros [H|H]; [left|auto].
  cbn in H. case_match; [|done]. subst. apply Z.eqb_refl.
Qed.

Lemma display_not_contains id z : segment_char z = false → z ≠ 47 →
  valid_segment (tenant id) → valid_segment (name id) →
  str_contains z (AgentId_display id) = false.
Proof.
  intros Hz Hne Ht Hn. unfold AgentId_display. rewrite !str_contains_app.
  rewrite !(valid_segment_not_contains _ z) by done. cbn.
  rewrite ?(valid_segment_not_contains _ z), ?orb_false_r by done. apply Z.eqb_neq. intros Hz47. by apply Hne.
Qed.

Lemma AgentId_new_Ok t n id :
  AgentId_new t n = Ok id ↔ id = mk_AgentId t n ∧ valid_segment t ∧ valid_segment n.
Proof.
  unfold AgentId_new. split.
  - intros H. inv_ok. rewrite validate_segment_Ok in *. done.
  - intros (-> & ->%(validate_segment_Ok _ "tenant") & ->%(validate_segment_Ok _ "name")). done.
Qed.

Lemma str_split_not_nil z s : str_split z s ≠ [].
Proof. destruct s as [|c s]; cbn; [done|]. repeat case_match; done. Qed.

(** Splitting at [/] into one or two segments. *)
Lemma str_split_join s segs : str_split 47 s = segs →
  match segs with
  | [n] => s = n
  | [t; n] => s = t +:+ "/" +:+ n
  | _ => True
  end.
Proof.
  revert segs. induction s as [|c s IH]; cbn; intros segs <-; [done|].
  pose proof (str_split_not_nil 47 s).
  destruct (byte_val c =? 47) eqn:E.
  - apply Z.eqb_eq in E. assert (c = "/"%char) as -> by by apply byte_val_inj.
    specialize (IH _ eq_refl). by destruct (str_split 47 s) as [|? [|]]; subst.
  - specialize (IH _ eq_refl). destruct (str_split 47 s) as [|? [|? [|]]]; subst; done.
Qed.

(** ** Properties *)

(** [AgentId::parse] accepts exactly the shorthand [name] and
    the full form [tenant/name] with both segments in [[a-z0-9_-]{1,63}], and
    the identity it returns is the one the form denotes (the shorthand in the
    default tenant).  Every other string is an error. *)
Theorem AgentId_parse_accepts s id :
  AgentId_parse s = Ok id ↔
  valid_segment (tenant id) ∧ valid_segment (name id) ∧
  (s = AgentId_display id ∨ (tenant id = DEFAULT_TENANT ∧ s = name id)).
Proof.
  split.
  - unfold AgentId_parse. intros H.
    repeat (case_match; [done|]). inv_ok.
    destruct x as [t n]. cbn in H. inv_ok. rewrite validate_segment_Ok in *. cbn.
    split_and!; [done..|].
    pose proof (str_split_join s _ eq_refl) as Hj.
    destruct (str_split 47 s) as [|? [|? [|]]]; try done; simplify_eq; auto.
  - intros (Ht & Hn & Hs).
    assert (Hc : ∀ z, segment_char z = false → z ≠ 47 → str_contains z s = false).
    { intros z Hz Hne. destruct Hs as [->|[_ ->]].
      - by apply display_not_contains.
      - by apply valid_segment_not_contains. }
    unfold AgentId_parse. rewrite Hc by done.
    destruct (str_contains_str "://" s) eqn:E.
    { apply str_contains_str_head in E. by rewrite Hc in E. }
    apply (validate_segment_Ok _ "tenant") in Ht as Ht'.
    apply (validate_segment_Ok _ "name") in Hn as Hn'.
    destruct id as [t n]; cbn in *.
    assert (Hsp : str_split 47 s = [t; n] ∨ (t = DEFAULT_TENANT ∧ str_split 47 s = [n])).
    { destruct Hs as [->|[-> ->]]; [left|right; split; [done|]].
      - apply (str_split_once 47 t n "/"%char); try done;
          by apply valid_segment_not_contains.
      - by apply str_split_none, valid_segment_not_contains. }
    destruct (String.eqb_spec s EmptyString) as [->|].
    { destruct Hs as [Hs|[_ Hs]].
      - by destruct t.
      - subst. by destruct Hn as [[] _]. }
    destruct Hsp as [->|[-> ->]]; cbn [mbind result_bind]; by rewrite Ht', Hn'.
Qed.

Lemma AgentId_parse_accepts_witness :
  valid_segment (tenant (mk_AgentId "default" "claude")) ∧
  valid_segment (name (mk_AgentId "default" "claude")) ∧
  ("claude" = AgentId_display (mk_AgentId "default" "claude") ∨
   (tenant (mk_AgentId "default" "claude") = DEFAULT_TENANT ∧
    "claude" = name (mk_AgentId "default" "claude"))).
Proof. apply (AgentId_parse_accepts "claude" (mk_AgentId "default" "claude")). vm_compute. reflexivity. Defined.

(** The canonical display form of every identity either
    constructor can produce parses back to that identity, so the shorthand and
    the full form of the default tenant denote equal identities. *)
Theorem AgentId_display_roundtrip id :
  (∃ s, AgentId_parse s = Ok id) ∨ (∃ t n, AgentId_new t n = Ok id) →
  AgentId_parse (AgentId_display id) = Ok id.
Proof.
  intros [[s Hs]|(t & n & Hn)]; apply AgentId_parse_accepts.
  - apply AgentId_parse_accepts in Hs as (? & ? & _). auto.
  - apply AgentId_new_Ok in Hn as (-> & ? & ?). auto.
Qed.

Lemma AgentId_display_roundtrip_witness :
  AgentId_parse "default/claude" = Ok (mk_AgentId "default" "claude").
Proof.
  apply (AgentId_display_roundtrip (mk_AgentId "default" "claude")).
  left. exists "claude". vm_compute. reflexivity.
Defined.

(** [NodeId::parse] accepts exactly [[a-z0-9_.-]{1,128}] and
    [AbilityName::parse] exactly [[a-z0-9_.-]{1,63}], both keeping the bytes
    unchanged. *)
Theorem node_and_ability_languages s :
  (∀ n, NodeId_parse s = Ok n ↔ n = mk_NodeId s ∧ in_language MAX_NODE_ID_LEN dotted_char s) ∧
  (∀ a, AbilityName_parse s = Ok a ↔
        a = mk_AbilityName s ∧ in_language MAX_SEGMENT_LEN dotted_char s).
Proof.
  split.
  - intros n. unfold NodeId_parse.
    rewrite <- (validator_Ok dotted_char MAX_NODE_ID_LEN NodeEmpty
      (NodeTooLong (length (chars s)) MAX_NODE_ID_LEN) NodeUppercaseRejected NodeInvalidChar)
      by auto with ruststd.
    repeat case_match; cbn; try naive_solver.
    destruct (check_chars _ _ _ _) as [[]|]; cbn; naive_solver.
  - intros a. unfold AbilityName_parse.
    rewrite <- (validator_Ok dotted_char MAX_SEGMENT_LEN (EmptySegment "ability")
      (SegmentTooLong "ability" (length (chars s)) MAX_SEGMENT_LEN)
      (UppercaseRejected "ability") (InvalidChar "ability")) by auto with ruststd.
    unfold validate_ability_segment. cbn zeta.
    destruct (if String.eqb s EmptyString then _ else _) as [[]|]; cbn; naive_solver.
Qed.
