(* ===== verification/Json.v ===== *)
(** * JSON values and floating-point literals

    [serde_json::Value] as the modelled code builds and inspects it: objects
    are association lists in insertion order ([serde_json::Map] as locked in
    Cargo.lock keeps insertion order), numbers are 64-bit integers or finite
    [f64]s.  The codec itself ([serde_json::to_vec], [from_slice]) is library
    code: it is the class [SerdeJson], with the round trip its documentation
    promises for values without floats. *)

From Stdlib Require Import String SpecFloat.
From S2P Require Import Prelude RustStd.

Open Scope Z_scope.

(** ** [f64] literals *)

(** [f64] as IEEE 754 binary64 in the Standard Library's executable format. *)
Definition f64 : Type := spec_float.

(** [f64::from_str] on a decimal with integer value [m] of all its digits and
    [k] digits after the point: the quotient [m / 10^k] rounded once, to nearest
    even. *)
Definition f64_of_decimal (neg : bool) (m : N) (k : nat) : f64 :=
  match m with
  | N0 => S754_zero neg
  | Npos p =>
      match (10 ^ N.of_nat k)%N with
      | N0 => S754_nan
      | Npos d => SFdiv 53 1024 (S754_finite neg p 0) (S754_finite false d 0)
      end
  end.

Definition f64_is_finite (f : f64) : bool :=
  match f with S754_zero _ | S754_finite _ _ _ => true | _ => false end.

(** ** Values *)

Inductive Value :=
| VNull
| VBool (b : bool)
| VInt (n : Z)
| VFloat (f : f64)
| VString (s : string)
| VArray (l : list Value)
| VObject (m : list (string * Value)).

(** [json!(f)]: a NaN or infinite float becomes [null]. *)
Definition json_of_f64 (f : f64) : Value :=
  if f64_is_finite f then VFloat f else VNull.

(** [Value::as_object], [Value::as_str]. *)
Definition as_object (v : Value) : option (list (string * Value)) :=
  match v with VObject m => Some m | _ => None end.
Definition as_str (v : Value) : option string :=
  match v with VString s => Some s | _ => None end.
(** [Value::get] of a field, [Value::as_bool], [Value::as_u64]. *)
Definition value_get (k : string) (v : Value) : option Value := m ← as_object v; assoc k m.
Definition as_bool (v : Value) : option bool := match v with VBool b => Some b | _ => None end.
Definition as_u64 (v : Value) : option Z :=
  match v with VInt n => if between 0 u64_max n then Some n else None | _ => None end.

Section value_ind.
Context (P : Value → Prop).
Hypotheses (Hnull : P VNull) (Hbool : ∀ b, P (VBool b)) (Hint : ∀ n, P (VInt n))
  (Hfloat : ∀ f, P (VFloat f)) (Hstr : ∀ s, P (VString s))
  (Harr : ∀ l, Forall P l → P (VArray l))
  (Hobj : ∀ m, Forall (λ kv, P kv.2) m → P (VObject m)).

(** Induction that reaches the elements of arrays and objects. *)
Fixpoint Value_ind' (v : Value) : P v :=
  match v with
  | VNull => Hnull
  | VBool b => Hbool b
  | VInt n => Hint n
  | VFloat f => Hfloat f
  | VString s => Hstr s
  | VArray l => Harr l
      ((fix go (l : list Value) : Forall P l :=
          match l with [] => Forall_nil_2 _ | x :: l => Forall_cons_2 _ _ _ (Value_ind' x) (go l) end) l)
  | VObject m => Hobj m
      ((fix go (m : list (string * Value)) : Forall (λ kv, P kv.2) m :=
          match m with
          | [] => Forall_nil_2 _
          | kv :: m => Forall_cons_2 _ _ _ (Value_ind' kv.2) (go m)
          end) m)
  end.
End value_ind.

(** Values the library's text form represents exactly: integers in the range of
    [i64] or [u64], distinct object keys, no floats, nesting below the parser's
    recursion limit of 128. *)
Fixpoint json_exact (depth : nat) (v : Value) : bool :=
  match v with
  | VNull | VBool _ | VString _ => true
  | VInt n => between i64_min u64_max n
  | VFloat _ => false
  | VArray l =>
      match depth with O => false | S d => forallb (json_exact d) l end
  | VObject m =>
      match depth with
      | O => false
      | S d => bool_decide (NoDup (m.*1)) && forallb (λ kv, json_exact d kv.2) m
      end
  end.

(** ** The codec *)

(** [serde_json::to_vec] and [serde_json::from_slice] (and [from_str], which
    reads the same bytes); the error is its rendered text. *)
Class SerdeJson := {
  to_vec : Value → result string string;
  from_slice : string → result string Value;
}.

(** What the documentation of the library promises and the interpreter relies
    on. *)
Class SerdeJsonLaws `{SerdeJson} : Prop := {
  serde_roundtrip v : json_exact 127 v = true → ∃ b, to_vec v = Ok b ∧ from_slice b = Ok v;
}.
