(* ===== verification/Lexer.v ===== *)
(** * The EAL lexer (src/src/eal/parser/lexer.rs) and string literals (src/src/eal/parser/string_escape.rs)

    The scanner works on the unread rest of the input; its position is
    [input.len() - rest.len()].  Fuel is one unit per token: every token takes
    at least one byte, so [S (length input)] is enough (proved below).  The escapes
    of a literal, which the lexer carries verbatim, are peeled off in one place. *)

From Stdlib Require Import String Ascii.
From S2P Require Import Prelude RustStd Json.

Open Scope Z_scope.

(** ** Tokens *)

Inductive Token :=
| TMission | TLet | TCall | TEmit | TOn | TWith | TTimeout | TRetries
| TOnFailure | TOptional | TAbort | TSkip | TRetry | TContinue
| TLoop | TBody | TVerify
| TStringLit (s : string)
| TIntLit (n : Z)
| TFloatLit (f : f64)
| TBoolLit (b : bool)
| TIdent (s : string)
| TLBrace | TRBrace | TLParen | TRParen | TLBracket | TRBracket
| TEq | TColon | TComma | TDot | TEof.

(** The errors of the scanner; [ParseInt] carries which of the reasons of
    [i64::from_str] applies. *)
Inductive IntError := InvalidDigit | PosOverflow | NegOverflow.
Inductive LexError :=
| UnexpectedChar (ch : Z) (pos : nat)
| UnterminatedString
| ParseInt (e : IntError)
| LexOutOfFuel.

(** ** Scanning *)

(** [skip_ws]: ASCII whitespace and [// ...] comments.  [comment] says whether
    the inner loop of a comment is running; it stops at the line feed, which
    the outer loop then skips as whitespace. *)
Fixpoint skip_ws (comment : bool) (s : string) : string :=
  match s with
  | EmptyString => EmptyString
  | String c s' =>
      let z := byte_val c in
      if comment then skip_ws (negb (z =? 10)) s'
      else if is_ascii_whitespace z then skip_ws false s'
      else match s' with
           | String d s'' =>
               if (z =? 47) && (byte_val d =? 47) then skip_ws true s'' else s
           | EmptyString => s
           end
  end.

(** The loop of [read_string]: the literal's bytes, escapes kept verbatim, and
    what follows the closing quote ([34]); a backslash is [92]. *)
Fixpoint read_string_body (s : string) : option (string * string) :=
  match s with
  | EmptyString => None
  | String c s' =>
      if byte_val c =? 34 then Some (EmptyString, s')
      else if byte_val c =? 92 then
        match s' with
        | EmptyString => None
        | String d s'' => prod_map (λ b, String c (String d b)) id <$> read_string_body s''
        end
      else prod_map (String c) id <$> read_string_body s'
  end.

(** The longest prefix of bytes in a class, and the rest. *)
Fixpoint take_while (p : Z → bool) (s : string) : string * string :=
  match s with
  | EmptyString => (EmptyString, EmptyString)
  | String c s' =>
      if p (byte_val c) then prod_map (String c) id (take_while p s') else (EmptyString, s)
  end.

(** The value of a string of digits. *)
Fixpoint digits_value (acc : N) (s : string) : N :=
  match s with
  | EmptyString => acc
  | String c s' => digits_value (acc * 10 + Z.to_N (byte_val c - 48))%N s'
  end.

(** [i64::from_str] on an optional minus sign and digits. *)
Definition parse_i64 (neg : bool) (digits : string) : result LexError Z :=
  match digits with
  | EmptyString => Err (ParseInt InvalidDigit)
  | _ =>
      let n := Z.of_N (digits_value 0 digits) in
      if neg then if - n <? i64_min then Err (ParseInt NegOverflow) else Ok (- n)
      else if i64_max <? n then Err (ParseInt PosOverflow) else Ok n
  end.

(** [read_number]; a [.] ([46]) starts a fraction only before a digit. *)
Definition read_number (s : string) : result LexError (Token * string) :=
  let '(neg, s1) := match s with
                    | String c s' => if byte_val c =? 45 then (true, s') else (false, s)
                    | EmptyString => (false, s)
                    end in
  let '(ds, s2) := take_while is_ascii_digit s1 in
  match s2 with
  | String c (String d s3) =>
      if (byte_val c =? 46) && is_ascii_digit (byte_val d) then
        let '(fs, s4) := take_while is_ascii_digit (String d s3) in
        Ok (TFloatLit (f64_of_decimal neg (digits_value 0 (ds +:+ fs)) (String.length fs)), s4)
      else n ← parse_i64 neg ds; Ok (TIntLit n, s2)
  | _ => n ← parse_i64 neg ds; Ok (TIntLit n, s2)
  end.

Definition is_word_char (z : Z) : bool := is_ascii_alphanumeric z || (z =? 95).

(** The keyword table of [read_word]. *)
Definition keyword (w : string) : option Token :=
  if String.eqb w "mission" then Some TMission
  else if String.eqb w "let" then Some TLet
  else if String.eqb w "call" then Some TCall
  else if String.eqb w "emit" then Some TEmit
  else if String.eqb w "on" then Some TOn
  else if String.eqb w "with" then Some TWith
  else if String.eqb w "timeout" then Some TTimeout
  else if String.eqb w "retries" then Some TRetries
  else if String.eqb w "on_failure" then Some TOnFailure
  else if String.eqb w "optional" then Some TOptional
  else if String.eqb w "abort" then Some TAbort
  else if String.eqb w "skip" then Some TSkip
  else if String.eqb w "retry" then Some TRetry
  else if String.eqb w "continue" then Some TContinue
  else if String.eqb w "loop" then Some TLoop
  else if String.eqb w "body" then Some TBody
  else if String.eqb w "verify" then Some TVerify
  else if String.eqb w "true" then Some (TBoolLit true)
  else if String.eqb w "false" then Some (TBoolLit false)
  else None.

Definition read_word (s : string) : Token * string :=
  let '(w, rest) := take_while is_word_char s in
  (match keyword w with Some t => t | None => TIdent w end, rest).

(** The one-byte tokens. *)
Definition symbol (z : Z) : option Token :=
  if z =? 123 then Some TLBrace else if z =? 125 then Some TRBrace
  else if z =? 40 then Some TLParen else if z =? 41 then Some TRParen
  else if z =? 91 then Some TLBracket else if z =? 93 then Some TRBracket
  else if z =? 61 then Some TEq else if z =? 58 then Some TColon
  else if z =? 44 then Some TComma else if z =? 46 then Some TDot
  else None.

(** [next_token] on the rest [s0] of an input of [len] bytes. *)
Definition next_token (len : nat) (s0 : string) : result LexError (Token * string) :=
  let s := skip_ws false s0 in
  match s with
  | EmptyString => Ok (TEof, s)
  | String c s' =>
      let z := byte_val c in
      match symbol z with
      | Some t => Ok (t, s')
      | None =>
          if z =? 34 then
            match read_string_body s' with
            | Some (b, rest) => Ok (TStringLit b, rest)
            | None => Err UnterminatedString
            end
          else if is_ascii_digit z || (z =? 45) then read_number s
          else if is_ascii_alphabetic z || (z =? 95) then Ok (read_word s)
          else Err (UnexpectedChar z (len - String.length s))
      end
  end.

(** [Token::Eof] test of [tokenize]. *)
Definition is_eof (t : Token) : bool := match t with TEof => true | _ => false end.

(** The loop of [tokenize]. *)
Fixpoint tokenize_loop (fuel len : nat) (s : string) : result LexError (list Token) :=
  match fuel with
  | O => Err LexOutOfFuel
  | S fuel' =>
      ts ← next_token len s;
      let '(t, rest) := (ts : Token * string) in
      if is_eof t then Ok [t]
      else (cons t) <$> tokenize_loop fuel' len rest
  end.

(** [Lexer::new(input).tokenize()]. *)
Definition tokenize (input : string) : result LexError (list Token) :=
  tokenize_loop (S (String.length input)) (String.length input) input.

(** ** Printing tokens back

    The inverse the round-trip theorems use; the source has no printer.  A value
    read from a decimal does not keep its digits, so the printer is given the
    text to write for each [f64]. *)

Definition dquote : ascii := ascii_of_nat 34.
Definition backslash : ascii := ascii_of_nat 92.
Definition space : ascii := ascii_of_nat 32.

Definition digit_char (d : N) : ascii := ascii_of_N (48 + d).

(** Decimal digits of [n], most significant first; [fuel] bounds their number. *)
Fixpoint digits_of_fuel (fuel : nat) (n : N) (acc : string) : string :=
  match fuel with
  | O => acc
  | S f =>
      let acc' := String (digit_char (n mod 10)) acc in
      if (n <? 10)%N then acc' else digits_of_fuel f (n / 10) acc'
  end.

Definition digits_of (n : N) : string := digits_of_fuel (S (N.to_nat (N.log2 n))) n EmptyString.

Definition print_int (z : Z) : string :=
  if z <? 0 then String "-"%char (digits_of (Z.to_N (- z))) else digits_of (Z.to_N z).

Definition print_token (ft : f64 → string) (t : Token) : string :=
  match t with
  | TMission => "mission" | TLet => "let" | TCall => "call" | TEmit => "emit" | TOn => "on"
  | TWith => "with" | TTimeout => "timeout" | TRetries => "retries" | TOnFailure => "on_failure"
  | TOptional => "optional" | TAbort => "abort" | TSkip => "skip" | TRetry => "retry"
  | TContinue => "continue" | TLoop => "loop" | TBody => "body" | TVerify => "verify"
  | TStringLit s => String dquote (s +:+ String dquote EmptyString)
  | TIntLit n => print_int n
  | TFloatLit f => ft f
  | TBoolLit b => if b then "true" else "false"
  | TIdent s => s
  | TLBrace => "{" | TRBrace => "}" | TLParen => "(" | TRParen => ")"
  | TLBracket => "[" | TRBracket => "]" | TEq => "=" | TColon => ":" | TComma => ","
  | TDot => "." | TEof => EmptyString
  end.

Fixpoint print_tokens (ft : f64 → string) (ts : list Token) : string :=
  match ts with
  | [] => EmptyString
  | t :: ts' => print_token ft t +:+ String space (print_tokens ft ts')
  end.

(** A literal body in which every quote is escaped and no backslash is last. *)
Fixpoint well_escaped (s : string) : bool :=
  match s with
  | EmptyString => true
  | String c s' =>
      if byte_val c =? 34 then false
      else if byte_val c =? 92 then
        match s' with EmptyString => false | String _ s'' => well_escaped s'' end
      else well_escaped s'
  end.

Definition ident_start (s : string) : bool :=
  match s with
  | String c _ => is_ascii_alphabetic (byte_val c) || (byte_val c =? 95)
  | EmptyString => false
  end.

(** A non-empty word that does not start with a digit and is not a keyword. *)
Definition ident_ok (s : string) : bool :=
  ident_start s && str_forall is_word_char s && bool_decide (keyword s = None).

(** The tokens [tokenize] can produce (floats: any value it read). *)
Definition token_ok (t : Token) : bool :=
  match t with
  | TStringLit s => well_escaped s
  | TIntLit n => between i64_min i64_max n
  | TIdent s => ident_ok s
  | TEof => false
  | _ => true
  end.

(** [s] is a decimal numeral with a point whose value, rounded, is [f]. *)
Definition decimal_of (f : f64) (s : string) : Prop := ∃ (neg : bool) ds fs,
  s = (if neg then String "-"%char ds else ds) +:+ String "."%char fs ∧
  str_forall is_ascii_digit ds = true ∧ ds ≠ EmptyString ∧ str_forall is_ascii_digit fs = true ∧ fs ≠ EmptyString ∧
  f = f64_of_decimal neg (digits_value 0 (ds +:+ fs)) (String.length fs).

(** The floats among [ts] are written as decimals for them. *)
Definition floats_written (ft : f64 → string) (ts : list Token) : Prop := ∀ f, TFloatLit f ∈ ts → decimal_of f (ft f).

(** ** Lemmas *)

Definition head_not (p : Z → bool) (s : string) : bool :=
  match s with EmptyString => true | String c _ => negb (p (byte_val c)) end.

Lemma take_while_spec p s a b : take_while p s = (a, b) →
  s = a +:+ b ∧ str_forall p a = true ∧ head_not p b = true.
Proof.
  revert a b. induction s as [|c s IH]; cbn; intros a b H; [by simplify_eq|].
  destruct (p (byte_val c)) eqn:E.
  - destruct (take_while p s) as [a' b'] eqn:Et. cbn in H. simplify_eq.
    destruct (IH _ _ eq_refl) as (-> & Ha & Hb). rewrite str_app_cons. cbn. by rewrite E, Ha.
  - simplify_eq. cbn. by rewrite E.
Qed.

Lemma take_while_app p a b : str_forall p a = true → head_not p b = true →
  take_while p (a +:+ b) = (a, b).
Proof.
  intros Ha Hb. induction a as [|c a IH]; cbn in Ha.
  - change (EmptyString +:+ b) with b. destruct b as [|c b]; [done|]. cbn in *.
    by destruct (p (byte_val c)).
  - rewrite str_app_cons. apply andb_true_iff in Ha as [Hc Ha]. cbn. by rewrite Hc, IH.
Qed.

Lemma skip_ws_length m s : (String.length (skip_ws m s) ≤ String.length s)%nat.
Proof.
  remember (String.length s) as n eqn:Hn. revert m s Hn.
  induction n as [n IH] using lt_wf_ind. intros m s ->.
  assert (IH' : ∀ m t, (String.length t < String.length s)%nat →
    (String.length (skip_ws m t) ≤ String.length t)%nat) by (intros m' t Ht; by apply (IH _ Ht)).
  destruct s as [|c s]; [done|]. cbn [skip_ws String.length].
  repeat case_match; subst; cbn [String.length] in *;
    repeat match goal with |- context [skip_ws ?m ?t] =>
      lazymatch goal with
      | H : (String.length (skip_ws m t) ≤ _)%nat |- _ => fail
      | _ => pose proof (IH' m t ltac:(cbn; lia))
      end end; lia.
Qed.

Lemma read_string_body_spec s b rest : read_string_body s = Some (b, rest) →
  well_escaped b = true ∧ s = b +:+ String dquote rest.
Proof.
  remember (String.length s) as n eqn:Hn. revert s b Hn.
  induction n as [n IH] using lt_wf_ind. intros s b ->.
  assert (IH' : ∀ t b, (String.length t < String.length s)%nat → read_string_body t = Some (b, rest) →
    well_escaped b = true ∧ t = b +:+ String dquote rest)
    by (intros t b' Ht; by apply (IH _ Ht)). clear IH.
  destruct s as [|c s]; [done|]. cbn [read_string_body].
  destruct (byte_val c =? 34) eqn:Eq.
  { intros [= <- <-]. apply Z.eqb_eq in Eq. split; [done|].
    change (EmptyString +:+ ?x) with x. f_equal. by apply byte_val_inj. }
  destruct (byte_val c =? 92) eqn:Eb.
  - destruct s as [|d s]; [done|]. intros ([b' r'] & Hr & [= -> ->])%fmap_Some.
    apply IH' in Hr as [Hw ->]; [|cbn; lia]. split.
    + cbn [well_escaped]. by rewrite Eq, Eb.
    + done.
  - intros ([b' r'] & Hr & [= -> ->])%fmap_Some.
    apply IH' in Hr as [Hw ->]; [|cbn; lia]. split.
    + cbn [well_escaped]. by rewrite Eq, Eb.
    + done.
Qed.

Lemma read_string_body_app b rest : well_escaped b = true →
  read_string_body (b +:+ String dquote rest) = Some (b, rest).
Proof.
  remember (String.length b) as n eqn:Hn. revert b Hn.
  induction n as [n IH] using lt_wf_ind. intros b ->.
  assert (IH' : ∀ t, (String.length t < String.length b)%nat → well_escaped t = true →
    read_string_body (t +:+ String dquote rest) = Some (t, rest))
    by (intros t Ht; by apply (IH _ Ht)). clear IH.
  destruct b as [|c b]; [done|]. rewrite str_app_cons. cbn [well_escaped read_string_body].
  destruct (byte_val c =? 34); [done|]. destruct (byte_val c =? 92).
  - destruct b as [|d b]; [done|]. rewrite str_app_cons. intros H. by rewrite IH' by (cbn; lia || done).
  - intros H. by rewrite IH' by (cbn; lia || done).
Qed.

(** *** Numbers *)

Lemma digit_char_val d : (d < 10)%N → byte_val (digit_char d) = 48 + Z.of_N d.
Proof. intros H. unfold byte_val, digit_char. rewrite N_ascii_embedding by lia. lia. Qed.

Lemma digits_value_app acc s t :
  digits_value acc (s +:+ t) = digits_value (digits_value acc s) t.
Proof. revert acc. induction s as [|c s IH]; intros acc; [done|]. rewrite str_app_cons. cbn. apply IH. Qed.

Lemma digits_of_fuel_spec fuel n acc : (n < 2 ^ N.of_nat fuel)%N →
  ∃ ds, digits_of_fuel fuel n acc = ds +:+ acc ∧
    str_forall is_ascii_digit ds = true ∧ digits_value 0 ds = n ∧
    (fuel ≠ O → ds ≠ EmptyString).
Proof.
  revert n acc. induction fuel as [|f IH]; intros n acc Hn.
  { exists EmptyString. change (2 ^ N.of_nat 0)%N with 1%N in Hn.
    assert (n = 0%N) as -> by lia. done. }
  cbn [digits_of_fuel].
  assert (Hd : ∀ m, (m < 10)%N → is_ascii_digit (byte_val (digit_char m)) = true).
  { intros m Hm. rewrite digit_char_val by done. apply between_spec. lia. }
  pose proof (N.mod_lt n 10 ltac:(lia)) as Hmod.
  destruct (N.ltb_spec n 10) as [Hlt|Hge].
  - exists (String (digit_char (n mod 10)) EmptyString). split_and!; try done.
    + cbn. by rewrite Hd.
    + cbn. rewrite digit_char_val by done. rewrite N.mod_small by done. lia.
  - destruct (IH (n / 10)%N (String (digit_char (n mod 10)) acc)) as (ds & -> & Hds & Hv & Hne).
    { apply N.Div0.div_lt_upper_bound. rewrite Nat2N.inj_succ, N.pow_succ_r' in Hn. lia. }
    exists (ds +:+ String (digit_char (n mod 10)) EmptyString). split_and!.
    + by rewrite str_app_assoc.
    + rewrite str_forall_app, Hds. cbn. by rewrite Hd.
    + rewrite digits_value_app, Hv. cbn [digits_value]. rewrite digit_char_val by done.
      rewrite Z.add_simpl_l, N2Z.id. pose proof (N.div_mod' n 10). lia.
    + intros _ He. destruct ds; done.
Qed.

Lemma digits_of_spec n :
  str_forall is_ascii_digit (digits_of n) = true ∧ digits_value 0 (digits_of n) = n ∧
  digits_of n ≠ EmptyString.
Proof.
  unfold digits_of.
  destruct (digits_of_fuel_spec (S (N.to_nat (N.log2 n))) n EmptyString) as (ds & -> & H).
  { rewrite Nat2N.inj_succ, N2Nat.id. destruct n as [|p]; [done|].
    pose proof (N.log2_spec (Npos p) ltac:(lia)). rewrite N.pow_succ_r' in *. lia. }
  rewrite str_app_nil_r. naive_solver.
Qed.

(** A first byte that neither starts whitespace nor a comment. *)
Definition plain_start (s : string) : bool :=
  match s with
  | EmptyString => false
  | String c _ => negb (is_ascii_whitespace (byte_val c)) && negb (byte_val c =? 47)
  end.

Lemma skip_ws_plain s : plain_start s = true → skip_ws false s = s.
Proof.
  destruct s as [|c s]; [done|]. cbn. rewrite andb_true_iff, !negb_true_iff.
  intros [-> ->]. by destruct s.
Qed.

Lemma skip_ws_space s : skip_ws false (String space s) = skip_ws false s.
Proof. done. Qed.

Lemma next_token_space len s : next_token len (String space s) = next_token len s.
Proof. unfold next_token. by rewrite skip_ws_space. Qed.

Lemma is_word_char_val z : is_word_char z = true ↔
  97 ≤ z ≤ 122 ∨ 65 ≤ z ≤ 90 ∨ 48 ≤ z ≤ 57 ∨ z = 95.
Proof.
  unfold is_word_char, is_ascii_alphanumeric, is_ascii_alphabetic, is_ascii_lowercase,
    is_ascii_uppercase, is_ascii_digit.
  rewrite !orb_true_iff, !between_spec, Z.eqb_eq. lia.
Qed.

Lemma ident_start_val c s : ident_start (String c s) = true ↔
  97 ≤ byte_val c ≤ 122 ∨ 65 ≤ byte_val c ≤ 90 ∨ byte_val c = 95.
Proof.
  cbn. unfold is_ascii_alphabetic, is_ascii_lowercase, is_ascii_uppercase.
  rewrite !orb_true_iff, !between_spec, Z.eqb_eq. lia.
Qed.

(** Boolean tests of a byte against a concrete range, decided by [lia]. *)
Ltac byte_test :=
  repeat match goal with
  | |- context [?a =? ?b] =>
      first [ replace (a =? b) with false by (symmetry; apply Z.eqb_neq; lia)
            | replace (a =? b) with true by (symmetry; apply Z.eqb_eq; lia) ]
  | |- context [between ?lo ?hi ?z] =>
      first [ replace (between lo hi z) with true by (symmetry; apply between_spec; lia)
            | replace (between lo hi z) with false
                by (symmetry; apply not_true_iff_false; rewrite between_spec; lia) ]
  end.

(** The scanner on a word. *)
Lemma next_token_word len w rest :
  ident_start w = true → str_forall is_word_char w = true → head_not is_word_char rest = true →
  next_token len (w +:+ rest) =
  Ok (match keyword w with Some t => t | None => TIdent w end, rest).
Proof.
  intros Hs Hw Hr. destruct w as [|c w]; [done|].
  apply ident_start_val in Hs as Hc. pose proof (take_while_app _ _ _ Hw Hr) as Htw.
  unfold next_token. rewrite skip_ws_plain; rewrite str_app_cons in *.
  2:{ cbn. unfold is_ascii_whitespace. byte_test. done. }
  unfold symbol, is_ascii_digit, is_ascii_alphabetic, is_ascii_lowercase, is_ascii_uppercase.
  byte_test. cbn [orb].
  destruct (_ || _ || _) eqn:Eo.
  - unfold read_word. by rewrite Htw.
  - exfalso. cbn in Hs. unfold is_ascii_alphabetic, is_ascii_lowercase, is_ascii_uppercase in Hs.
    congruence.
Qed.

(** The sign of a numeral. *)
Lemma number_sign (neg : bool) ds rest : str_forall is_ascii_digit ds = true → ds ≠ EmptyString →
  (match (if neg then String "-"%char ds else ds) +:+ rest with
   | String c s' => if byte_val c =? 45 then (true, s')
       else (false, (if neg then String "-"%char ds else ds) +:+ rest)
   | EmptyString => (false, (if neg then String "-"%char ds else ds) +:+ rest)
   end) = (neg, ds +:+ rest).
Proof.
  intros Hds Hne. destruct neg; [done|]. destruct ds as [|c ds]; [done|]. rewrite str_app_cons.
  cbn in Hds. apply andb_true_iff in Hds as [Hc%between_spec _]. by byte_test.
Qed.

(** The scanner on a printed integer. *)
Lemma read_number_digits (neg : bool) ds rest :
  str_forall is_ascii_digit ds = true → ds ≠ EmptyString → head_not is_ascii_digit rest = true →
  (∀ d r, rest ≠ String "."%char (String d r)) →
  read_number ((if neg then String "-"%char ds else ds) +:+ rest) =
  (n ← parse_i64 neg ds; Ok (TIntLit n, rest)).
Proof.
  intros Hds Hne Hr Hdot. unfold read_number.
  pose proof (take_while_app _ _ _ Hds Hr) as Htw.
  rewrite number_sign, Htw by done. destruct rest as [|c [|d rest]]; [done..|].
  destruct (Z.eqb_spec (byte_val c) 46) as [E|]; [|done].
  exfalso. apply (Hdot d rest). f_equal. by apply byte_val_inj.
Qed.

(** The scanner on a decimal. *)
Lemma read_number_decimal f s rest : decimal_of f s → read_number (s +:+ String space rest) = Ok (TFloatLit f, String space rest).
Proof.
  intros (neg & ds & fs & -> & Hds & Hne & Hfs & Hfne & ->). rewrite str_app_assoc, str_app_cons. unfold read_number.
  rewrite number_sign by done. rewrite (take_while_app _ ds) by done.
  destruct fs as [|d fs]; [done|]. rewrite str_app_cons. change (byte_val "."%char =? 46) with true.
  pose proof (take_while_app is_ascii_digit (String d fs) (String space rest) Hfs eq_refl) as Htw. rewrite str_app_cons in Htw. rewrite Htw.
  cbn in Hfs. apply andb_true_iff in Hfs as [-> _]. done.
Qed.

(** A numeral starts with a digit or a sign. *)
Lemma next_token_number len (neg : bool) ds rest t rest' :
  str_forall is_ascii_digit ds = true → ds ≠ EmptyString →
  read_number ((if neg then String "-"%char ds else ds) +:+ rest) = Ok (t, rest') →
  next_token len ((if neg then String "-"%char ds else ds) +:+ rest) = Ok (t, rest').
Proof.
  intros Hds Hne Hread.
  assert (Hhd : ∃ c s, (if neg then String "-"%char ds else ds) +:+ rest = String c s ∧
    (48 ≤ byte_val c ≤ 57 ∨ byte_val c = 45)).
  { destruct neg; [by eexists _, _; rewrite str_app_cons; split; [|right]|].
    destruct ds as [|c ds']; [done|]. eexists c, _. rewrite str_app_cons. split; [done|left].
    cbn in Hds. apply andb_true_iff in Hds as [Hc _]. by apply between_spec in Hc. }
  destruct Hhd as (c & s & Heq & Hc). unfold next_token. rewrite Heq in *.
  rewrite skip_ws_plain by (cbn; unfold is_ascii_whitespace; byte_test; done).
  cbv zeta. unfold symbol. byte_test. rewrite <- Hread.
  replace (is_ascii_digit (byte_val c) || (byte_val c =? 45)) with true; [done|].
  symmetry. apply orb_true_iff. unfold is_ascii_digit. rewrite between_spec, Z.eqb_eq. done.
Qed.

Lemma parse_i64_print n : between i64_min i64_max n = true →
  let neg := n <? 0 in let ds := digits_of (Z.to_N (Z.abs n)) in
  print_int n = (if neg then String "-"%char ds else ds) ∧ parse_i64 neg ds = Ok n.
Proof.
  intros Hn%between_spec. cbn zeta. unfold print_int.
  destruct (digits_of_spec (Z.to_N (Z.abs n))) as (_ & Hv & Hne).
  assert (Hp : parse_i64 (n <? 0) (digits_of (Z.to_N (Z.abs n))) = Ok n).
  { unfold parse_i64. destruct (digits_of (Z.to_N (Z.abs n))) eqn:E; [done|].
    rewrite Hv, Z2N.id by lia. unfold i64_min, i64_max in *.
    destruct (Z.ltb_spec n 0); [destruct (Z.ltb_spec (- Z.abs n) (- 2 ^ 63))
      |destruct (Z.ltb_spec (2 ^ 63 - 1) (Z.abs n))]; try lia; f_equal; lia. }
  destruct (Z.ltb_spec n 0) as [Hneg|Hpos].
  - rewrite Z.abs_neq in Hp |- * by lia. done.
  - rewrite Z.abs_eq in Hp |- * by lia. done.
Qed.

Lemma next_token_int len n rest : between i64_min i64_max n = true →
  next_token len (print_int n +:+ String space rest) = Ok (TIntLit n, String space rest).
Proof.
  intros Hn. destruct (parse_i64_print n Hn) as [-> Hp].
  destruct (digits_of_spec (Z.to_N (Z.abs n))) as (Hds & _ & Hne).
  generalize dependent (digits_of (Z.to_N (Z.abs n))). generalize (n <? 0).
  intros neg ds Hp Hds Hne.
  pose proof (read_number_digits neg ds (String space rest) Hds Hne eq_refl
    ltac:(done)) as Hread. rewrite Hp in Hread. cbn [mbind result_bind] in Hread.
  by apply next_token_number.
Qed.

Lemma next_token_float len f s rest : decimal_of f s →
  next_token len (s +:+ String space rest) = Ok (TFloatLit f, String space rest).
Proof.
  intros Hd. pose proof (read_number_decimal f s rest Hd) as Hread.
  destruct Hd as (neg & ds & fs & -> & Hds & Hne & _). rewrite str_app_assoc in *. by apply next_token_number.
Qed.

(** The scanner reads a printed token back and stops after it. *)
Lemma next_token_print ft len t rest : token_ok t = true → floats_written ft [t] →
  next_token len (print_token ft t +:+ String space rest) = Ok (t, String space rest).
Proof.
  intros Hok Hf.
  destruct t; try done;
    try (rewrite next_token_word by done; reflexivity).
  - unfold print_token. rewrite str_app_cons, str_app_assoc.
    cbn [token_ok] in Hok. unfold next_token. rewrite skip_ws_plain by done.
    change (symbol (byte_val dquote)) with (@None Token). change (byte_val dquote =? 34) with true.
    cbn match. change (String dquote EmptyString +:+ String space rest)
      with (String dquote (String space rest)). by rewrite read_string_body_app.
  - by apply next_token_int.
  - apply next_token_float, Hf. set_solver.
  - destruct b; (rewrite next_token_word by done; reflexivity).
  - cbn in Hok. unfold ident_ok in Hok. rewrite !andb_true_iff, bool_decide_eq_true in Hok.
    destruct Hok as [[? ?] Hk]. cbn [print_token]. rewrite next_token_word by done. by rewrite Hk.
Qed.

(** *** Progress and well-formed tokens *)

Lemma take_while_length p s a b : take_while p s = (a, b) →
  String.length s = (String.length a + String.length b)%nat.
Proof. intros (-> & _)%take_while_spec. apply str_length_app. Qed.

Lemma parse_i64_range neg ds n : parse_i64 neg ds = Ok n →
  between i64_min i64_max n = true ∧ ds ≠ EmptyString.
Proof.
  unfold parse_i64. destruct ds as [|c ds]; [done|].
  generalize (digits_value 0 (String c ds)). intros v H. split; [|done].
  apply between_spec. unfold i64_min, i64_max in *.
  destruct neg; repeat case_match; simplify_eq;
    repeat match goal with H : (_ <? _) = false |- _ => apply Z.ltb_ge in H end; lia.
Qed.

Lemma read_number_ok s t rest : read_number s = Ok (t, rest) →
  is_eof t = false ∧ token_ok t = true ∧ (String.length rest < String.length s)%nat.
Proof.
  unfold read_number.
  destruct (match s with EmptyString => _ | String _ _ => _ end) as [neg s1] eqn:Es.
  assert (Hs1 : (String.length s1 ≤ String.length s)%nat).
  { destruct s; repeat case_match; simplify_eq; cbn; lia. }
  destruct (take_while is_ascii_digit s1) as [ds s2] eqn:Ed.
  apply take_while_length in Ed.
  assert (Hint : (n ← parse_i64 neg ds; Ok (TIntLit n, s2)) = Ok (t, rest) →
    is_eof t = false ∧ token_ok t = true ∧ (String.length rest < String.length s)%nat).
  { intros H. inv_ok. apply parse_i64_range in E as [Hr Hne].
    split_and!; [done..|]. destruct ds; [done|]. cbn in Ed. lia. }
  destruct s2 as [|c [|d s3]]; [exact Hint..|].
  destruct (_ && _); [|exact Hint].
  destruct (take_while is_ascii_digit (String d s3)) as [fs s4] eqn:Ef.
  apply take_while_length in Ef. intros [= <- <-]. cbn in *. split_and!; [done..|]. lia.
Qed.

Lemma read_word_ok s t rest : ident_start s = true → read_word s = (t, rest) →
  is_eof t = false ∧ token_ok t = true ∧ (String.length rest < String.length s)%nat.
Proof.
  unfold read_word. intros Hs. destruct (take_while is_word_char s) as [w r] eqn:Ew.
  pose proof (take_while_length _ _ _ _ Ew) as Hlen.
  apply take_while_spec in Ew as (-> & Hw & Hr). intros [= <- <-].
  destruct w as [|c w].
  { exfalso. change (EmptyString +:+ r) with r in Hs. destruct r as [|c r]; [done|].
    apply ident_start_val in Hs. cbn in Hr. apply negb_true_iff in Hr.
    apply not_true_iff_false in Hr. apply Hr, is_word_char_val. lia. }
  rewrite str_app_cons in Hs. cbn in Hlen. rewrite Hlen. split_and!; [| |lia].
  - destruct (keyword _) eqn:Ek; [|done]. unfold keyword in Ek.
    repeat case_match; simplify_eq; done.
  - destruct (keyword _) eqn:Ek.
    + unfold keyword in Ek. repeat case_match; simplify_eq; done.
    + cbn [token_ok]. unfold ident_ok. rewrite Hw, Ek.
      change (ident_start (String c w)) with (ident_start (String c (w +:+ r))). by rewrite Hs.
Qed.

Lemma symbol_ok z t : symbol z = Some t → is_eof t = false ∧ token_ok t = true.
Proof. unfold symbol. intros H. repeat case_match; by simplify_eq. Qed.

(** Every token but the last takes input, and is one the language has. *)
Lemma next_token_ok len s t rest : next_token len s = Ok (t, rest) →
  t = TEof ∨
  (is_eof t = false ∧ token_ok t = true ∧ (String.length rest < String.length s)%nat).
Proof.
  unfold next_token. pose proof (skip_ws_length false s) as Hws.
  destruct (skip_ws false s) as [|c s'] eqn:Es; [intros [= <- <-]; by left|].
  intros H. right. cbn in Hws.
  destruct (symbol (byte_val c)) as [t'|] eqn:Esym.
  { simplify_eq. apply symbol_ok in Esym as [??]. split_and!; [done..|lia]. }
  destruct (byte_val c =? 34).
  { destruct (read_string_body s') as [[b r]|] eqn:Eb; [|done]. simplify_eq.
    apply read_string_body_spec in Eb as [Hw ->].
    rewrite str_length_app in Hws. cbn in Hws. split_and!; [done..|lia]. }
  destruct (is_ascii_digit _ || _).
  { apply read_number_ok in H as (? & ? & Hl). cbn in Hl. split_and!; [done..|lia]. }
  destruct (is_ascii_alphabetic _ || _) eqn:Ei; [|done]. injection H as H.
  apply read_word_ok in H as (? & ? & Hl); [|by cbn]. cbn in Hl. split_and!; [done..|lia].
Qed.

Lemma next_token_fuel len s : next_token len s ≠ Err LexOutOfFuel.
Proof.
  assert (Hi : ∀ neg ds r, (n ← parse_i64 neg ds; Ok (TIntLit n, r : string)) ≠ Err LexOutOfFuel).
  { intros neg ds r. unfold parse_i64. destruct ds; [done|]. repeat case_match; done. }
  unfold next_token, read_number.
  repeat (first [ done | apply Hi | progress cbn zeta | case_match ]).
Qed.

Lemma tokenize_loop_ok fuel len s : (String.length s < fuel)%nat →
  tokenize_loop fuel len s ≠ Err LexOutOfFuel ∧
  ∀ ts, tokenize_loop fuel len s = Ok ts →
    ∃ ts', ts = ts' ++ [TEof] ∧ forallb token_ok ts' = true.
Proof.
  revert s. induction fuel as [|fuel IH]; intros s Hs; [lia|]. cbn [tokenize_loop].
  destruct (next_token len s) as [[t rest]|e] eqn:En; cbn [mbind result_bind].
  2:{ split; [|done]. intros [= ->]. by apply next_token_fuel in En. }
  apply next_token_ok in En as [->|(Ht & Hok & Hlen)]; cbn [is_eof].
  { split; [done|]. intros ts [= <-]. by exists []. }
  rewrite Ht. destruct (IH rest ltac:(lia)) as [IH1 IH2].
  destruct (tokenize_loop fuel len rest) as [ts|e]; cbn.
  - split; [done|]. intros ts0 [= <-]. destruct (IH2 ts eq_refl) as (ts' & -> & Hts').
    exists (t :: ts'). cbn. by rewrite Hok, Hts'.
  - split; [|done]. congruence.
Qed.

Lemma print_tokens_fuel ft ts : (length ts ≤ String.length (print_tokens ft ts))%nat.
Proof. induction ts as [|t ts IH]; [done|]. cbn. rewrite str_length_app. cbn. lia. Qed.

Lemma tokenize_loop_print ft fuel len ts : (length ts < fuel)%nat →
  forallb token_ok ts = true → floats_written ft ts →
  tokenize_loop fuel len (print_tokens ft ts) = Ok (ts ++ [TEof]).
Proof.
  assert (Hsp : ∀ fuel s, tokenize_loop fuel len (String space s) = tokenize_loop fuel len s).
  { intros [|f] s; [done|]. cbn [tokenize_loop]. by rewrite next_token_space. }
  revert fuel. induction ts as [|t ts IH]; intros fuel Hf; cbn [forallb print_tokens].
  { by destruct fuel; [lia|]. }
  rewrite andb_true_iff. intros [Ht Hts] Hw.
  assert (floats_written ft [t] ∧ floats_written ft ts) as [Hft Hfts] by (split; intros f Hin; apply Hw; set_solver).
  destruct fuel as [|fuel]; [cbn in Hf; lia|]. cbn [tokenize_loop].
  rewrite next_token_print by done. cbn [mbind result_bind].
  assert (is_eof t = false) as -> by by destruct t.
  rewrite Hsp, IH by (cbn in Hf; lia || done). done.
Qed.

(** ** Properties *)

(** The scanner terminates on every input: it never runs out
    of the fuel [tokenize] gives it, and when it succeeds it returns
    well-formed tokens followed by exactly one end marker. *)
Theorem tokenize_total input :
  tokenize input ≠ Err LexOutOfFuel ∧
  ∀ ts, tokenize input = Ok ts →
    ∃ ts', ts = ts' ++ [TEof] ∧ forallb token_ok ts' = true.
Proof. apply tokenize_loop_ok. lia. Qed.

(** Printing any sequence of well-formed tokens, string literals verbatim and
    floats as decimals for them, and scanning the text gives the sequence back. *)
Theorem tokenize_print ft ts :
  forallb token_ok ts = true → floats_written ft ts →
  tokenize (print_tokens ft ts) = Ok (ts ++ [TEof]).
Proof.
  intros Hok Hf. apply tokenize_loop_print; try done.
  pose proof (print_tokens_fuel ft ts). lia.
Qed.

(** One half, written as 0.5. *)
Definition half : f64 := f64_of_decimal false 5 1.
Definition half_text (_ : f64) : string := "0.5".

Lemma half_decimal : decimal_of half (half_text half).
Proof. exists false, "0", "5". by split_and!. Qed.

Lemma tokenize_print_witness :
  tokenize (print_tokens half_text [TLet; TIdent "a"; TEq; TIdent "claude"; TDot; TIdent "chat"; TLParen;
    TIdent "n"; TColon; TIntLit (-42); TComma; TStringLit "x\n"; TComma; TFloatLit half; TRParen]) =
  Ok ([TLet; TIdent "a"; TEq; TIdent "claude"; TDot; TIdent "chat"; TLParen;
    TIdent "n"; TColon; TIntLit (-42); TComma; TStringLit "x\n"; TComma; TFloatLit half; TRParen] ++ [TEof]).
Proof.
  apply tokenize_print; [vm_compute; reflexivity|]. intros f Hf.
  assert (f = half) as -> by set_solver. exact half_decimal.
Defined.

(** ** String-literal escapes *)

(** [unescape_string_literal]; the characters it inspects are ASCII, so the
    bytes of any other character pass through unchanged. *)
Fixpoint unescape_string_literal (raw : string) : string :=
  match raw with
  | EmptyString => EmptyString
  | String c s' =>
      if negb (byte_val c =? 92) then String c (unescape_string_literal s')
      else match s' with
           | EmptyString => String backslash EmptyString
           | String d s'' =>
               if byte_val d =? 34 then String dquote (unescape_string_literal s'')
               else if byte_val d =? 92 then String backslash (unescape_string_literal s'')
               else String backslash (String d (unescape_string_literal s''))
           end
  end.

(** What an author writes to embed a text: a backslash before every quote and
    every backslash. *)
Fixpoint author_escape (s : string) : string :=
  match s with
  | EmptyString => EmptyString
  | String c s' =>
      if (byte_val c =? 34) || (byte_val c =? 92)
      then String backslash (String c (author_escape s'))
      else String c (author_escape s')
  end.

(** No backslash stands before a quote or a backslash. *)
Fixpoint payload_only (s : string) : bool :=
  match s with
  | EmptyString => true
  | String c s' =>
      if byte_val c =? 92 then
        match s' with
        | EmptyString => true
        | String d s'' => negb (byte_val d =? 34) && negb (byte_val d =? 92) && payload_only s''
        end
      else payload_only s'
  end.

(** ** Lemmas *)

Lemma author_escape_well_escaped s : well_escaped (author_escape s) = true.
Proof.
  induction s as [|c s IH]; cbn; [done|].
  destruct (byte_val c =? 34) eqn:E1; destruct (byte_val c =? 92) eqn:E2; cbn; rewrite ?E1, ?E2; done.
Qed.

Lemma unescape_author_escape s : unescape_string_literal (author_escape s) = s.
Proof.
  induction s as [|c s IH]; cbn; [done|].
  destruct (byte_val c =? 34) eqn:E1; destruct (byte_val c =? 92) eqn:E2; cbn;
    rewrite ?E1, ?E2; cbn; rewrite ?IH; f_equal;
    try (apply byte_val_inj; symmetry; by apply Z.eqb_eq).
Qed.

(** ** Properties *)

(** The escape contract end to end.  For every text, the
    literal an author writes for it is scanned as one verbatim token, and
    peeling that token gives the text back. *)
Theorem literal_roundtrip ft s :
  tokenize (print_tokens ft [TStringLit (author_escape s)]) =
    Ok [TStringLit (author_escape s); TEof] ∧
  unescape_string_literal (author_escape s) = s.
Proof.
  split; [|apply unescape_author_escape].
  unfold tokenize. rewrite tokenize_loop_print; cbn; rewrite ?author_escape_well_escaped; try done.
  - rewrite !str_length_app. cbn. lia.
  - intros f Hf. set_solver.
Qed.

(** Peeling leaves every other escape of a payload alone:
    a text in which no backslash stands before a quote or a backslash is
    returned unchanged. *)
Theorem unescape_payload s : payload_only s = true → unescape_string_literal s = s.
Proof.
  remember (String.length s) as n eqn:Hn. revert s Hn.
  induction n as [n IH] using lt_wf_ind. intros s ->.
  destruct s as [|c s]; [done|]. cbn.
  destruct (byte_val c =? 92) eqn:E; cbn.
  - apply Z.eqb_eq in E. assert (c = backslash) as -> by by apply byte_val_inj.
    destruct s as [|d s]; [done|]. rewrite !andb_true_iff, !negb_true_iff.
    intros [[-> ->] Hs]. repeat f_equal. eapply IH; [|done..]. cbn. lia.
  - intros Hs. f_equal. eapply IH; [|done..]. cbn. lia.
Qed.

Lemma unescape_payload_witness : unescape_string_literal "\d+\.\d+" = "\d+\.\d+".
Proof. apply unescape_payload. vm_compute. reflexivity. Defined.
