(* ===== verification/Ast.v ===== *)
(** * The EAL abstract syntax (src/src/eal/parser/ast.rs)

    The types of the syntax tree, with induction principles that reach nested
    objects and loop blocks. *)

From Stdlib Require Import String.
From S2P Require Import Prelude RustStd Json.

Open Scope Z_scope.

(** [TargetKind]: which surface form a call was written in. *)
Inductive TargetKind := TKAgent | TKDevice.

(** [FailurePolicy]. *)
Inductive FailurePolicy := FPAbort | FPSkip | FPRetry | FPContinue.

#[global] Instance TargetKind_eq_dec : EqDecision TargetKind.
Proof. solve_decision. Defined.
#[global] Instance FailurePolicy_eq_dec : EqDecision FailurePolicy.
Proof. solve_decision. Defined.

(** [FieldValue] and [Field] (a key and its value). *)
Inductive FieldValue :=
| FVString (s : string)
| FVInt (n : Z)
| FVFloat (f : f64)
| FVBool (b : bool)
| FVVarRef (var_name : string)
| FVObject (fields : list (string * FieldValue)).

Definition Field : Type := string * FieldValue.

(** [StepOptions]; [timeout_seconds] and [max_retries] are [i32]. *)
Record StepOptions := mk_StepOptions {
  timeout_seconds : option Z;
  max_retries : option Z;
  on_failure : option FailurePolicy;
  optional : bool;
}.

Definition default_options : StepOptions := mk_StepOptions None None None false.

(** [CallExpr]. *)
Record CallExpr := mk_CallExpr {
  function_name : string;
  target_node : option string;
  target_kind : TargetKind;
  arguments : list Field;
  options : StepOptions;
}.

(** [EmitStatement]. *)
Record EmitStatement := mk_EmitStatement {
  emit_name : string;
  emit_kind : string;
  emit_value : FieldValue;
}.

(** [LoopBlock], over the type of the statements it holds. *)
Record LoopBlockOf (S : Type) := mk_LoopBlock {
  loop_name : option string;
  max_iters : Z;
  loop_body : list S;
  loop_verify : list S;
}.
Arguments mk_LoopBlock {S} _ _ _ _.
Arguments loop_name {S} _.
Arguments max_iters {S} _.
Arguments loop_body {S} _.
Arguments loop_verify {S} _.

(** [Statement]. *)
Inductive Statement :=
| SLetCall (binding : string) (call : CallExpr)
| SCall (call : CallExpr)
| SEmit (e : EmitStatement)
| SLoop (l : LoopBlockOf Statement).

Definition LoopBlock : Type := LoopBlockOf Statement.

(** [MissionDecl] and [EalProgram]. *)
Record MissionDecl := mk_MissionDecl {
  mission_name : string;
  statements : list Statement;
}.

Record EalProgram := mk_EalProgram { mission : MissionDecl }.

(** Induction that reaches the fields of an object. *)
Section field_value_ind.
Context (P : FieldValue → Prop).
Hypotheses (Hs : ∀ s, P (FVString s)) (Hi : ∀ n, P (FVInt n)) (Hf : ∀ f, P (FVFloat f))
  (Hb : ∀ b, P (FVBool b)) (Hv : ∀ v, P (FVVarRef v))
  (Ho : ∀ fs, Forall (λ kv, P kv.2) fs → P (FVObject fs)).

Fixpoint FieldValue_ind' (v : FieldValue) : P v :=
  match v with
  | FVString s => Hs s
  | FVInt n => Hi n
  | FVFloat f => Hf f
  | FVBool b => Hb b
  | FVVarRef v => Hv v
  | FVObject fs => Ho fs
      ((fix go (fs : list (string * FieldValue)) : Forall (λ kv, P kv.2) fs :=
          match fs with
          | [] => Forall_nil_2 _
          | kv :: fs => Forall_cons_2 _ _ _ (FieldValue_ind' kv.2) (go fs)
          end) fs)
  end.
End field_value_ind.

(** Induction that reaches the statements of a loop. *)
Section statement_ind.
Context (P : Statement → Prop).
Hypotheses (Hlet : ∀ b c, P (SLetCall b c)) (Hcall : ∀ c, P (SCall c)) (Hemit : ∀ e, P (SEmit e))
  (Hloop : ∀ l, Forall P (loop_body l) → Forall P (loop_verify l) → P (SLoop l)).

Fixpoint Statement_ind' (s : Statement) : P s :=
  match s with
  | SLetCall b c => Hlet b c
  | SCall c => Hcall c
  | SEmit e => Hemit e
  | SLoop l =>
      let go := (fix go (ss : list Statement) : Forall P ss :=
          match ss with
          | [] => Forall_nil_2 _
          | s :: ss => Forall_cons_2 _ _ _ (Statement_ind' s) (go ss)
          end) in
      Hloop l (go (loop_body l)) (go (loop_verify l))
  end.
End statement_ind.
