(* ===== verification/Parser.v ===== *)
(** * The EAL parser (src/src/eal/parser/mod.rs)

    A recursive-descent parser over the unread tokens (the tokens from
    [Parser::pos] on).  Loops and recursion take fuel computed from the number
    of unread tokens; [ParserFuel] proves that the fuel never runs out. *)

From Stdlib Require Import String SpecFloat.
From S2P Require Import Prelude RustStd Json Lexer Ast.

Open Scope Z_scope.

(** ** Errors *)

Inductive ParseError :=
| LexFailed (e : LexError)
| Expected (expected got : Token)
| ExpectedString (got : Token)
| ExpectedIdent (got : Token)
| ExpectedInt (got : Token)
| NotABlockForm (s : string)
| ExpectedEmitKind (got : Token)
| DuplicateBody
| DuplicateVerify
| ExpectedSubBlock (got : Token)
| MissingBody
| MissingVerify
| ExpectedContextualIdent (expected : string) (got : Token)
| ExpectedNonNegative (n : Z)
| OutOfU32Range (n : Z)
| ExpectedIntegerLiteral (got : Token)
| ExpectedCall (got : Token)
| ExpectedAgentId (got : Token)
| UnknownAccessor (acc : string)
| BareIdentifierArgument (ident : string)
| BareIdentifierField (ident : string)
| ExpectedArgumentValue (got : Token)
| ExpectedValue (got : Token)
| OutOfRange (field : string) (n : Z)
| ExpectedFailurePolicy (got : Token)
| OutOfFuel.

(** The parser's state is the list of unread tokens; a parse gives a value and
    the tokens left. *)
Abbreviation parsed A := (result ParseError (A * list Token)).

(** ** Cursor *)

(** [Token]'s derived equality ([f64] compares as IEEE floats). *)
Definition token_eqb (t u : Token) : bool :=
  match t, u with
  | TMission, TMission | TLet, TLet | TCall, TCall | TEmit, TEmit | TOn, TOn | TWith, TWith
  | TTimeout, TTimeout | TRetries, TRetries | TOnFailure, TOnFailure | TOptional, TOptional
  | TAbort, TAbort | TSkip, TSkip | TRetry, TRetry | TContinue, TContinue | TLoop, TLoop
  | TBody, TBody | TVerify, TVerify | TLBrace, TLBrace | TRBrace, TRBrace | TLParen, TLParen
  | TRParen, TRParen | TLBracket, TLBracket | TRBracket, TRBracket | TEq, TEq | TColon, TColon
  | TComma, TComma | TDot, TDot | TEof, TEof => true
  | TStringLit a, TStringLit b | TIdent a, TIdent b => String.eqb a b
  | TIntLit a, TIntLit b => a =? b
  | TFloatLit a, TFloatLit b => SFeqb a b
  | TBoolLit a, TBoolLit b => Bool.eqb a b
  | _, _ => false
  end.

Definition peek (ts : list Token) : Token := default TEof (ts !! 0%nat).
Definition peek_at (offset : nat) (ts : list Token) : Token := default TEof (ts !! offset).
Definition advance (ts : list Token) : Token * list Token := (peek ts, tail ts).

Definition expect (expected : Token) (ts : list Token) : result ParseError (list Token) :=
  let '(t, ts) := advance ts in
  if token_eqb t expected then Ok ts else Err (Expected expected t).

Definition expect_string (ts : list Token) : parsed string :=
  let '(t, ts) := advance ts in
  match t with TStringLit s => Ok (s, ts) | _ => Err (ExpectedString t) end.

Definition expect_ident (ts : list Token) : parsed string :=
  let '(t, ts) := advance ts in
  match t with TIdent s => Ok (s, ts) | _ => Err (ExpectedIdent t) end.

Definition expect_int (ts : list Token) : parsed Z :=
  let '(t, ts) := advance ts in
  match t with TIntLit n => Ok (n, ts) | _ => Err (ExpectedInt t) end.

Definition expect_contextual_ident (expected : string) (ts : list Token)
  : result ParseError (list Token) :=
  match peek ts with
  | TIdent s => if String.eqb s expected then Ok (advance ts).2
                else Err (ExpectedContextualIdent expected (TIdent s))
  | t => Err (ExpectedContextualIdent expected t)
  end.

Definition expect_u32 (ts : list Token) : parsed Z :=
  match peek ts with
  | TIntLit n =>
      let ts := (advance ts).2 in
      if n <? 0 then Err (ExpectedNonNegative n)
      else if u32_max <? n then Err (OutOfU32Range n) else Ok (n, ts)
  | t => Err (ExpectedIntegerLiteral t)
  end.

Definition expect_i32_in_range (field : string) (ts : list Token) : parsed Z :=
  '(n, ts) ← expect_int ts;
  if between 0 i32_max n then Ok (n, ts) else Err (OutOfRange field n).

Definition expect_emit_kind (ts : list Token) : parsed string :=
  let '(t, ts) := advance ts in
  match t with
  | TStringLit s | TIdent s => Ok (s, ts)
  | _ => Err (ExpectedEmitKind t)
  end.

Definition is_member_call_start (ts : list Token) : bool :=
  match peek_at 1 ts with TDot | TLParen => true | _ => false end.

Definition parse_optional_block_name (ts : list Token) : parsed (option string) :=
  match peek ts with
  | TStringLit _ => '(s, ts) ← expect_string ts; Ok (Some s, ts)
  | _ => Ok (None, ts)
  end.

(** ** Values *)

(** The [IDENT.output] / [IDENT.result] branch both value parsers share; they
    differ in the error for an identifier without accessor. *)
Definition parse_reference (bare : string → ParseError) (ts : list Token) : parsed FieldValue :=
  '(ident, ts) ← expect_ident ts;
  if token_eqb (peek ts) TDot then
    let ts := (advance ts).2 in
    '(acc, ts) ← expect_ident ts;
    if String.eqb acc "output" then Ok (FVVarRef ident, ts)
    else if String.eqb acc "result" then Ok (FVVarRef (ident +:+ ".result"), ts)
    else Err (UnknownAccessor acc)
  else Err (bare ident).

(** The scalar literals, the last branch of both value parsers. *)
Definition parse_scalar (other : Token → ParseError) (ts : list Token) : parsed FieldValue :=
  let '(t, ts) := advance ts in
  match t with
  | TStringLit s => Ok (FVString s, ts)
  | TIntLit n => Ok (FVInt n, ts)
  | TFloatLit f => Ok (FVFloat f, ts)
  | TBoolLit b => Ok (FVBool b, ts)
  | t => Err (other t)
  end.

(** [parse_value]: a value in a [with { ... }] block. *)
Definition parse_value (ts : list Token) : parsed FieldValue :=
  match peek ts with
  | TIdent _ => parse_reference BareIdentifierField ts
  | _ => parse_scalar ExpectedValue ts
  end.

(** [parse_arg_value] and the comma-separated [key: value] loop that its object
    branch and [parse_named_args] share, up to the closing token. *)
Fixpoint parse_arg_value_fuel (fuel : nat) (ts : list Token) {struct fuel} : parsed FieldValue :=
  match fuel with
  | O => Err OutOfFuel
  | S fuel =>
      match peek ts with
      | TLBrace =>
          let ts := (advance ts).2 in
          '(fields, ts) ← parse_colon_fields fuel TRBrace ts;
          ts ← expect TRBrace ts;
          Ok (FVObject fields, ts)
      | TIdent _ => parse_reference BareIdentifierArgument ts
      | _ => parse_scalar ExpectedArgumentValue ts
      end
  end
with parse_colon_fields (fuel : nat) (close : Token) (ts : list Token) {struct fuel}
  : parsed (list Field) :=
  match fuel with
  | O => Err OutOfFuel
  | S fuel =>
      if token_eqb (peek ts) close || token_eqb (peek ts) TEof then Ok ([], ts)
      else
        '(key, ts) ← expect_ident ts;
        ts ← expect TColon ts;
        '(value, ts) ← parse_arg_value_fuel fuel ts;
        if token_eqb (peek ts) TComma then
          '(fields, ts) ← parse_colon_fields fuel close (advance ts).2;
          Ok ((key, value) :: fields, ts)
        else Ok ([(key, value)], ts)
  end.

Definition parse_arg_value (ts : list Token) : parsed FieldValue :=
  parse_arg_value_fuel (S (length ts)) ts.

Definition parse_named_args (ts : list Token) : parsed (list Field) :=
  parse_colon_fields (S (length ts)) TRParen ts.

(** [parse_fields]: the [key = value] loop of a [with] block. *)
Fixpoint parse_fields_fuel (fuel : nat) (ts : list Token) : parsed (list Field) :=
  match fuel with
  | O => Err OutOfFuel
  | S fuel =>
      if token_eqb (peek ts) TRBrace || token_eqb (peek ts) TEof then Ok ([], ts)
      else
        '(key, ts) ← expect_ident ts;
        ts ← expect TEq ts;
        '(value, ts) ← parse_value ts;
        let ts := if token_eqb (peek ts) TComma then (advance ts).2 else ts in
        '(fields, ts) ← parse_fields_fuel fuel ts;
        Ok ((key, value) :: fields, ts)
  end.

Definition parse_fields (ts : list Token) : parsed (list Field) :=
  parse_fields_fuel (S (length ts)) ts.

(** ** Options *)

Definition parse_policy (ts : list Token) : parsed FailurePolicy :=
  let '(t, ts) := advance ts in
  match t with
  | TAbort => Ok (FPAbort, ts)
  | TSkip => Ok (FPSkip, ts)
  | TRetry => Ok (FPRetry, ts)
  | TContinue => Ok (FPContinue, ts)
  | _ => Err (ExpectedFailurePolicy t)
  end.

Definition set_timeout (n : Z) (o : StepOptions) : StepOptions :=
  mk_StepOptions (Some n) (max_retries o) (on_failure o) (optional o).
Definition set_retries (n : Z) (o : StepOptions) : StepOptions :=
  mk_StepOptions (timeout_seconds o) (Some n) (on_failure o) (optional o).
Definition set_on_failure (p : FailurePolicy) (o : StepOptions) : StepOptions :=
  mk_StepOptions (timeout_seconds o) (max_retries o) (Some p) (optional o).
Definition set_optional (o : StepOptions) : StepOptions :=
  mk_StepOptions (timeout_seconds o) (max_retries o) (on_failure o) true.

(** The loop of [parse_options]. *)
Fixpoint parse_options_fuel (fuel : nat) (opts : StepOptions) (ts : list Token)
  : parsed StepOptions :=
  match fuel with
  | O => Err OutOfFuel
  | S fuel =>
      match peek ts with
      | TTimeout =>
          '(n, ts) ← expect_i32_in_range "timeout" (advance ts).2;
          parse_options_fuel fuel (set_timeout n opts) ts
      | TRetries =>
          '(n, ts) ← expect_i32_in_range "retries" (advance ts).2;
          parse_options_fuel fuel (set_retries n opts) ts
      | TOnFailure =>
          '(p, ts) ← parse_policy (advance ts).2;
          parse_options_fuel fuel (set_on_failure p opts) ts
      | TOptional => parse_options_fuel fuel (set_optional opts) (advance ts).2
      | _ => Ok (opts, ts)
      end
  end.

Definition parse_options (ts : list Token) : parsed StepOptions :=
  parse_options_fuel (S (length ts)) default_options ts.

(** ** Calls *)

Definition parse_call_expr (ts : list Token) : parsed CallExpr :=
  ts ← expect TCall ts;
  '(function_name, ts) ← expect_string ts;
  ts ← expect TOn ts;
  '(target, ts) ← expect_string ts;
  '(arguments, ts) ←
    (if token_eqb (peek ts) TWith then
       ts ← expect TLBrace (advance ts).2;
       '(fields, ts) ← parse_fields ts;
       ts ← expect TRBrace ts;
       Ok (fields, ts)
     else Ok ([], ts) : parsed (list Field));
  '(options, ts) ← parse_options ts;
  Ok (mk_CallExpr function_name (Some target) TKDevice arguments options, ts).

Definition parse_member_call (ts : list Token) : parsed CallExpr :=
  '(agent, ts) ←
    (let '(t, ts) := advance ts in
     match t with
     | TIdent s | TStringLit s => Ok (s, ts)
     | t => Err (ExpectedAgentId t)
     end : parsed string);
  ts ← expect TDot ts;
  '(ability, ts) ← expect_ident ts;
  ts ← expect TLParen ts;
  '(arguments, ts) ← parse_named_args ts;
  ts ← expect TRParen ts;
  '(options, ts) ← parse_options ts;
  Ok (mk_CallExpr ability (Some agent) TKAgent arguments options, ts).

Definition parse_rhs (ts : list Token) : parsed CallExpr :=
  match peek ts with
  | TCall => parse_call_expr ts
  | TIdent _ | TStringLit _ =>
      if token_eqb (peek_at 1 ts) TDot then parse_member_call ts
      else Err (ExpectedCall (peek ts))
  | t => Err (ExpectedCall t)
  end.

Definition parse_emit_statement (ts : list Token) : parsed EmitStatement :=
  ts ← expect TEmit ts;
  '(name, ts) ← expect_string ts;
  ts ← expect_contextual_ident "kind" ts;
  '(kind, ts) ← expect_emit_kind ts;
  ts ← expect_contextual_ident "value" ts;
  '(value, ts) ← parse_arg_value ts;
  Ok (mk_EmitStatement name kind value, ts).

(** ** Statements *)

(** Identifiers reserved at statement start. *)
Definition reserved_block_name (s : string) : bool :=
  String.eqb s "chat" || String.eqb s "handoff" || String.eqb s "discuss".

(** [parse_statement], [parse_loop_block], its loop over sub-blocks, and the
    statement loops of a mission (which also stop at the end of input) and of
    a sub-block. *)
Fixpoint parse_statement (fuel : nat) (ts : list Token) {struct fuel} : parsed Statement :=
  match fuel with
  | O => Err OutOfFuel
  | S fuel =>
      match peek ts with
      | TLet =>
          '(binding, ts) ← expect_ident (advance ts).2;
          ts ← expect TEq ts;
          '(call, ts) ← parse_rhs ts;
          Ok (SLetCall binding call, ts)
      | TLoop => '(l, ts) ← parse_loop_block fuel ts; Ok (SLoop l, ts)
      | TIdent s =>
          if reserved_block_name s && negb (is_member_call_start ts)
          then Err (NotABlockForm s)
          else '(call, ts) ← parse_rhs ts; Ok (SCall call, ts)
      | TEmit => '(e, ts) ← parse_emit_statement ts; Ok (SEmit e, ts)
      | _ => '(call, ts) ← parse_rhs ts; Ok (SCall call, ts)
      end
  end
with parse_loop_block (fuel : nat) (ts : list Token) {struct fuel} : parsed LoopBlock :=
  match fuel with
  | O => Err OutOfFuel
  | S fuel =>
      ts ← expect TLoop ts;
      '(name, ts) ← parse_optional_block_name ts;
      ts ← expect_contextual_ident "max_iters" ts;
      ts ← expect TColon ts;
      '(max_iters, ts) ← expect_u32 ts;
      ts ← expect TLBrace ts;
      '(blocks, ts) ← parse_sub_blocks fuel None None ts;
      ts ← expect TRBrace ts;
      match blocks with
      | (None, _) => Err MissingBody
      | (_, None) => Err MissingVerify
      | (Some body, Some verify) => Ok (mk_LoopBlock name max_iters body verify, ts)
      end
  end
with parse_sub_blocks (fuel : nat) (body verify : option (list Statement)) (ts : list Token)
    {struct fuel} : parsed (option (list Statement) * option (list Statement)) :=
  match fuel with
  | O => Err OutOfFuel
  | S fuel =>
      match peek ts with
      | TRBrace => Ok ((body, verify), ts)
      | TBody =>
          match body with
          | Some _ => Err DuplicateBody
          | None =>
              ts ← expect TLBrace (advance ts).2;
              '(stmts, ts) ← parse_statements fuel false ts;
              ts ← expect TRBrace ts;
              parse_sub_blocks fuel (Some stmts) verify ts
          end
      | TVerify =>
          match verify with
          | Some _ => Err DuplicateVerify
          | None =>
              ts ← expect TLBrace (advance ts).2;
              '(stmts, ts) ← parse_statements fuel false ts;
              ts ← expect TRBrace ts;
              parse_sub_blocks fuel body (Some stmts) ts
          end
      | t => Err (ExpectedSubBlock t)
      end
  end
with parse_statements (fuel : nat) (stop_at_eof : bool) (ts : list Token)
    {struct fuel} : parsed (list Statement) :=
  match fuel with
  | O => Err OutOfFuel
  | S fuel =>
      if token_eqb (peek ts) TRBrace || (stop_at_eof && token_eqb (peek ts) TEof)
      then Ok ([], ts)
      else
        '(s, ts) ← parse_statement fuel ts;
        '(ss, ts) ← parse_statements fuel stop_at_eof ts;
        Ok (s :: ss, ts)
  end.

(** Fuel for the statements of [n] unread tokens. *)
Definition statement_fuel (n : nat) : nat := 3 * n + 3.

Definition parse_mission (ts : list Token) : parsed MissionDecl :=
  ts ← expect TMission ts;
  '(name, ts) ← expect_string ts;
  ts ← expect TLBrace ts;
  '(stmts, ts) ← parse_statements (statement_fuel (length ts)) true ts;
  ts ← expect TRBrace ts;
  Ok (mk_MissionDecl name stmts, ts).

Definition parse_program (ts : list Token) : parsed EalProgram :=
  '(m, ts) ← parse_mission ts;
  Ok (mk_EalProgram m, ts).

(** [parse]: scan, then parse one mission; what follows it is not read. *)
Definition parse (source : string) : result ParseError EalProgram :=
  ts ← map_err LexFailed (tokenize source);
  fst <$> parse_program ts.
