(* ===== verification/ParserFuel.v ===== *)
(** * The EAL parser terminates

    Every loop iteration and every recursive call of the parser reads at least
    one token, so the fuel computed from the number of unread tokens is never
    exhausted: [parse] is a total function of the source text. *)

From Stdlib Require Import String.
From S2P Require Import Prelude RustStd Json Lexer Ast Parser.

Create HintDb parser_fuel.

(** Every error but running out of fuel. *)
Definition genuine (e : ParseError) : bool :=
  match e with OutOfFuel | LexFailed LexOutOfFuel => false | _ => true end.

(** A parse that does not run out of fuel and leaves a number of tokens in [P]. *)
Definition good {A} (P : nat → Prop) (r : parsed A) : Prop :=
  match r with Ok (_, ts) => P (length ts) | Err e => genuine e = true end.

(** The same for a parser that returns only the tokens left. *)
Definition good_skip (P : nat → Prop) (r : result ParseError (list Token)) : Prop :=
  match r with Ok ts => P (length ts) | Err e => genuine e = true end.

Lemma good_mono {A} (P Q : nat → Prop) (r : parsed A) :
  good P r → (∀ n, P n → Q n) → good Q r.
Proof. destruct r as [[a ts]|e]; cbn; auto. Qed.

Lemma good_bind {A B} (P Q : nat → Prop) (r : parsed A) (k : A * list Token → parsed B) :
  good P r → (∀ a ts, P (length ts) → good Q (k (a, ts))) → good Q (r ≫= k).
Proof. destruct r as [[a ts]|e]; cbn; auto. Qed.

Lemma good_bind_skip {B} (P Q : nat → Prop) r (k : list Token → parsed B) :
  good_skip P r → (∀ ts, P (length ts) → good Q (k ts)) → good Q (r ≫= k).
Proof. destruct r as [ts|e]; cbn; auto. Qed.

Lemma peek_cons ts : token_eqb (peek ts) TEof = false → ∃ t ts', ts = t :: ts'.
Proof. destruct ts; cbn; [done|eauto]. Qed.

Lemma tail_length_peek (ts : list Token) t : peek ts = t → t ≠ TEof →
  (length (tail ts) < length ts)%nat.
Proof. destruct ts; cbn; [congruence|lia]. Qed.

Lemma token_eqb_eof t : token_eqb TEof t = true → t = TEof.
Proof. by destruct t. Qed.

Lemma expect_good t ts : t ≠ TEof → good_skip (λ n, n < length ts)%nat (expect t ts).
Proof.
  unfold expect, advance. intros Ht. destruct (token_eqb (peek ts) t) eqn:E; cbn; [|done].
  destruct ts as [|u ts]; cbn; [|lia]. by apply token_eqb_eof in E.
Qed.

(** Parsers that read one token of a given kind. *)
Lemma advance_match_good {A} (f : Token → option A) (err : Token → ParseError) ts :
  f TEof = None → (∀ t, genuine (err t) = true) →
  good (λ n, n < length ts)%nat
    (match f (peek ts) with Some a => Ok (a, tail ts) | None => Err (err (peek ts)) end).
Proof.
  intros Hf He. destruct ts as [|t ts]; cbn; [by rewrite Hf; cbn|].
  destruct (f t); cbn; [lia|done].
Qed.

Ltac one_token :=
  match goal with |- good _ ?r =>
    let ts := match r with context [peek ?ts] => ts end in
    destruct ts as [|[] ?]; cbn; try done; try lia
  end.

Lemma expect_string_good ts : good (λ n, n < length ts)%nat (expect_string ts).
Proof. unfold expect_string, advance. one_token. Qed.
Lemma expect_ident_good ts : good (λ n, n < length ts)%nat (expect_ident ts).
Proof. unfold expect_ident, advance. one_token. Qed.
Lemma expect_int_good ts : good (λ n, n < length ts)%nat (expect_int ts).
Proof. unfold expect_int, advance. one_token. Qed.
Lemma expect_emit_kind_good ts : good (λ n, n < length ts)%nat (expect_emit_kind ts).
Proof. unfold expect_emit_kind, advance. one_token. Qed.
Lemma parse_policy_good ts : good (λ n, n < length ts)%nat (parse_policy ts).
Proof. unfold parse_policy, advance. one_token. Qed.
Lemma parse_scalar_good other ts : (∀ t, genuine (other t) = true) →
  good (λ n, n < length ts)%nat (parse_scalar other ts).
Proof. intros Ho. unfold parse_scalar, advance. destruct ts as [|[] ts]; cbn; auto; lia. Qed.
Lemma expect_u32_good ts : good (λ n, n < length ts)%nat (expect_u32 ts).
Proof.
  unfold expect_u32, advance. destruct ts as [|[] ts]; cbn; try done.
  repeat case_match; cbn; try done; lia.
Qed.
Lemma expect_contextual_ident_good s ts :
  good_skip (λ n, n < length ts)%nat (expect_contextual_ident s ts).
Proof.
  unfold expect_contextual_ident, advance. destruct ts as [|[] ts]; cbn; try done.
  case_match; cbn; [lia|done].
Qed.
Lemma expect_i32_in_range_good f ts :
  good (λ n, n < length ts)%nat (expect_i32_in_range f ts).
Proof.
  unfold expect_i32_in_range. eapply good_bind; [apply expect_int_good|].
  intros n ts' Hn. by case_match.
Qed.
Lemma parse_optional_block_name_good ts :
  good (λ n, n ≤ length ts)%nat (parse_optional_block_name ts).
Proof. unfold parse_optional_block_name. destruct ts as [|[] ts]; cbn; lia. Qed.

#[export] Hint Resolve expect_string_good expect_ident_good expect_int_good
  expect_emit_kind_good parse_policy_good parse_scalar_good expect_u32_good
  expect_contextual_ident_good expect_i32_in_range_good parse_optional_block_name_good
  : parser_fuel.
#[export] Hint Extern 1 (good_skip _ (expect _ _)) => (apply expect_good; discriminate) : parser_fuel.

(** [good_step] runs one monadic step, [good_auto] a whole straight-line parser. *)
Ltac good_step :=
  match goal with
  | |- good _ (_ ≫= _) =>
      first [ eapply good_bind_skip; [solve [eauto with parser_fuel]|intros ? ?]
            | eapply good_bind; [solve [eauto with parser_fuel]|intros ? ? ?] ]; cbn beta iota in *
  | |- good _ (Ok (_, _)) => cbn [good]
  | |- good _ (Err _) => cbn [good]; done
  | |- good _ (if ?b then _ else _) => destruct b
  end.
Ltac good_auto := repeat good_step; cbn [good advance snd] in *; try lia.

Lemma tail_length_le (ts : list Token) : (length (tail ts) ≤ length ts)%nat.
Proof. destruct ts; cbn; lia. Qed.

Lemma parse_reference_good bare ts : (∀ s, genuine (bare s) = true) →
  good (λ n, n < length ts)%nat (parse_reference bare ts).
Proof.
  intros Hb. unfold parse_reference. repeat good_step; try (cbn; by auto).
  all: cbn [good advance snd] in *; pose proof (tail_length_le ts0); lia.
Qed.

#[export] Hint Extern 1 (good _ (parse_reference _ _)) =>
  (apply parse_reference_good; reflexivity) : parser_fuel.
#[export] Hint Extern 1 (good _ (parse_scalar _ _)) =>
  (apply parse_scalar_good; reflexivity) : parser_fuel.

Lemma parse_value_good ts : good (λ n, n < length ts)%nat (parse_value ts).
Proof. unfold parse_value. case_match; eauto with parser_fuel. Qed.

Lemma parse_arg_fuel_good fuel :
  (∀ ts, (length ts < fuel)%nat →
     good (λ n, n < length ts)%nat (parse_arg_value_fuel fuel ts)) ∧
  (∀ close ts, (length ts < fuel)%nat →
     good (λ n, n ≤ length ts)%nat (parse_colon_fields fuel close ts)).
Proof.
  induction fuel as [|fuel [IHv IHf]]; [split; intros; lia|]. split.
  - intros ts Hts. cbn [parse_arg_value_fuel].
    destruct (peek ts) eqn:Ep; eauto with parser_fuel.
    apply tail_length_peek in Ep; [|done]. cbn [advance snd].
    eapply good_bind; [apply IHf; lia|]. intros a ts1 H1. good_auto.
  - intros close ts Hts. cbn [parse_colon_fields].
    destruct (_ || _); [cbn; lia|]. do 2 good_step.
    eapply good_bind; [apply IHv; lia|]. intros v ts2 H2. cbn beta iota in *.
    destruct (token_eqb _ _); [|cbn; lia]. pose proof (tail_length_le ts2).
    eapply good_bind; [apply IHf; cbn; lia|]. intros fs ts3 H3. cbn in *. lia.
Qed.

Lemma parse_arg_value_good ts : good (λ n, n < length ts)%nat (parse_arg_value ts).
Proof. apply parse_arg_fuel_good. lia. Qed.
Lemma parse_named_args_good ts : good (λ n, n ≤ length ts)%nat (parse_named_args ts).
Proof. apply parse_arg_fuel_good. lia. Qed.

#[export] Hint Resolve parse_value_good parse_arg_value_good parse_named_args_good : parser_fuel.

Lemma parse_fields_good ts : good (λ n, n ≤ length ts)%nat (parse_fields ts).
Proof.
  unfold parse_fields.
  enough (∀ fuel ts, (length ts < fuel)%nat →
    good (λ n, n ≤ length ts)%nat (parse_fields_fuel fuel ts)) as H by (apply H; lia).
  clear ts. induction fuel as [|fuel IH]; intros ts Hts; [lia|]. cbn [parse_fields_fuel].
  destruct (_ || _); [cbn; lia|]. do 3 good_step.
  pose proof (tail_length_le ts2) as Htl.
  eapply good_bind; [apply IH; case_match; cbn in *; lia|].
  intros fs ts4 H4. cbn. case_match; cbn in *; lia.
Qed.

Lemma parse_options_good ts : good (λ n, n ≤ length ts)%nat (parse_options ts).
Proof.
  unfold parse_options.
  enough (∀ fuel o ts, (length ts < fuel)%nat →
    good (λ n, n ≤ length ts)%nat (parse_options_fuel fuel o ts)) as H by (apply H; lia).
  clear ts. induction fuel as [|fuel IH]; intros o ts Hts; [lia|]. cbn [parse_options_fuel].
  destruct (peek ts) eqn:Ep; try (cbn; lia); apply tail_length_peek in Ep; try done;
    cbn [advance snd].
  all: try (good_step; eapply good_mono; [apply IH; lia|]; cbn; lia).
  eapply good_mono; [apply IH; lia|]. cbn. lia.
Qed.

#[export] Hint Resolve parse_fields_good parse_options_good : parser_fuel.

Lemma parse_call_expr_good ts : good (λ n, n < length ts)%nat (parse_call_expr ts).
Proof.
  unfold parse_call_expr. do 4 good_step.
  eapply (good_bind (λ n, n < length ts)%nat).
  - destruct (token_eqb _ _) eqn:E; [|cbn; lia]. cbn [advance snd].
    pose proof (tail_length_le ts3). do 3 good_step. cbn in *. lia.
  - intros. good_auto.
Qed.

Lemma parse_member_call_good ts : good (λ n, n < length ts)%nat (parse_member_call ts).
Proof.
  unfold parse_member_call. eapply (good_bind (λ n, n < length ts)%nat).
  - unfold advance. destruct ts as [|[] ts]; cbn; try done; lia.
  - intros. cbn beta iota in *. good_auto.
Qed.

#[export] Hint Resolve parse_call_expr_good parse_member_call_good : parser_fuel.

Lemma parse_rhs_good ts : good (λ n, n < length ts)%nat (parse_rhs ts).
Proof. unfold parse_rhs. repeat case_match; eauto with parser_fuel; done. Qed.

Lemma parse_emit_statement_good ts : good (λ n, n < length ts)%nat (parse_emit_statement ts).
Proof. unfold parse_emit_statement. good_auto. Qed.

#[export] Hint Resolve parse_rhs_good parse_emit_statement_good : parser_fuel.

Lemma parse_statement_good fuel :
  (∀ ts, (3 * length ts + 1 < fuel)%nat →
     good (λ n, n < length ts)%nat (parse_statement fuel ts)) ∧
  (∀ ts, (3 * length ts < fuel)%nat →
     good (λ n, n < length ts)%nat (parse_loop_block fuel ts)) ∧
  (∀ b v ts, (3 * length ts < fuel)%nat →
     good (λ n, n ≤ length ts)%nat (parse_sub_blocks fuel b v ts)) ∧
  (∀ eof ts, (3 * length ts + 2 < fuel)%nat →
     good (λ n, n ≤ length ts)%nat (parse_statements fuel eof ts)).
Proof.
  induction fuel as [|fuel (IHst & IHl & IHb & IHss)]; [split_and!; intros; lia|].
  split_and!.
  - intros ts Hts. cbn [parse_statement].
    destruct (peek ts) eqn:Ep; try (by good_auto).
    + apply tail_length_peek in Ep; [|done]. cbn [advance snd]. good_auto.
    + eapply good_bind; [apply IHl; lia|]. intros l ts1 H1. cbn in *. lia.
  - intros ts Hts. cbn [parse_loop_block]. do 6 good_step.
    eapply good_bind; [apply IHb; lia|]. intros [b v] ts7 H7. cbn beta iota in *.
    good_step. destruct b, v; cbn; try done. lia.
  - intros b v ts Hts. cbn [parse_sub_blocks].
    destruct (peek ts) eqn:Ep; try (cbn; done); try (cbn; lia).
    all: apply tail_length_peek in Ep; [|done]; case_match; [done|]; cbn [advance snd].
    all: good_step; eapply good_bind; [apply IHss; lia|]; intros ss ts2 H2; cbn beta iota in *.
    all: good_step; eapply good_mono; [apply IHb; lia|]; cbn; lia.
  - intros eof ts Hts. cbn [parse_statements].
    destruct (_ || _); [cbn; lia|].
    eapply good_bind; [apply IHst; lia|]. intros s ts1 H1. cbn beta iota in *.
    eapply good_bind; [apply IHss; lia|]. intros ss ts2 H2. cbn in *. lia.
Qed.

Lemma parse_mission_good ts : good (λ n, n < length ts)%nat (parse_mission ts).
Proof.
  unfold parse_mission. do 3 good_step.
  eapply good_bind; [apply parse_statement_good; unfold statement_fuel; lia|].
  intros. good_auto.
Qed.

(** ** Property *)

(** C33 (termination): the whole front end, scanner and parser, is total: on no
    source text does it run out of the fuel the model gives its loops and its
    recursion, so every text is either a program or a genuine syntax error. *)
Theorem parse_terminates source :
  parse source ≠ Err OutOfFuel ∧ parse source ≠ Err (LexFailed LexOutOfFuel).
Proof.
  enough (∀ e, parse source = Err e → genuine e = true) as H
    by (split; intros E; apply H in E; done).
  unfold parse. destruct (tokenize_loop_ok (S (String.length source)) (String.length source)
    source ltac:(lia)) as [Htok _]. fold (tokenize source) in Htok.
  destruct (tokenize source) as [ts|e0]; cbn [map_err mbind result_bind]; intros e He.
  - unfold parse_program in He. pose proof (parse_mission_good ts) as Hm.
    destruct (parse_mission ts) as [[m r]|e']; [done|]. by injection He as <-.
  - simplify_eq. by destruct e0.
Qed.
