(* ===== verification/ParserRoundtrip.v ===== *)
(** * The EAL parser accepts exactly what a printer writes

    A printer from programs to tokens (the source has none), the invariant
    [program_ok] of every program the parser returns, and the round trip
    through text. *)

From Stdlib Require Import String.
From S2P Require Import Prelude RustStd Json Lexer Ast Parser ParserFuel.

Open Scope Z_scope.

(** ** Printer *)

(** [strip_suffix suf s] is [Some p] when [s] is [p] followed by [suf]. *)
Fixpoint strip_suffix (suf s : string) : option string :=
  if String.eqb s suf then Some EmptyString
  else match s with
       | EmptyString => None
       | String c s' => String c <$> strip_suffix suf s'
       end.

Definition print_ref (v : string) : list Token :=
  match strip_suffix ".result" v with
  | Some p => [TIdent p; TDot; TIdent "result"]
  | None => [TIdent v; TDot; TIdent "output"]
  end.

Fixpoint print_value (v : FieldValue) : list Token :=
  match v with
  | FVString s => [TStringLit s]
  | FVInt n => [TIntLit n]
  | FVFloat f => [TFloatLit f]
  | FVBool b => [TBoolLit b]
  | FVVarRef v => print_ref v
  | FVObject fs =>
      TLBrace :: foldr (λ kv acc, TIdent kv.1 :: TColon :: print_value kv.2 ++ TComma :: acc)
                       [TRBrace] fs
  end.

(** Fields with a separator token between key and value. *)
Definition print_fields (sep : Token) (fs : list Field) : list Token :=
  foldr (λ kv acc, TIdent kv.1 :: sep :: print_value kv.2 ++ TComma :: acc) [] fs.

Definition print_policy (p : FailurePolicy) : Token :=
  match p with FPAbort => TAbort | FPSkip => TSkip | FPRetry => TRetry | FPContinue => TContinue end.

Definition print_options (o : StepOptions) : list Token :=
  match timeout_seconds o with Some n => [TTimeout; TIntLit n] | None => [] end ++
  match max_retries o with Some n => [TRetries; TIntLit n] | None => [] end ++
  match on_failure o with Some p => [TOnFailure; print_policy p] | None => [] end ++
  (if optional o then [TOptional] else []).

Definition print_call (c : CallExpr) : list Token :=
  let target := match target_node c with Some t => t | None => EmptyString end in
  match target_kind c with
  | TKDevice =>
      [TCall; TStringLit (function_name c); TOn; TStringLit target] ++
      match arguments c with
      | [] => []
      | fs => [TWith; TLBrace] ++ print_fields TEq fs ++ [TRBrace]
      end
  | TKAgent =>
      [TStringLit target; TDot; TIdent (function_name c); TLParen] ++
      print_fields TColon (arguments c) ++ [TRParen]
  end ++ print_options (options c).

Fixpoint print_statement (s : Statement) : list Token :=
  match s with
  | SLetCall b c => [TLet; TIdent b; TEq] ++ print_call c
  | SCall c => print_call c
  | SEmit e =>
      [TEmit; TStringLit (emit_name e); TIdent "kind"; TStringLit (emit_kind e); TIdent "value"] ++
      print_value (emit_value e)
  | SLoop (mk_LoopBlock name n body verify) =>
      TLoop :: match name with Some s => [TStringLit s] | None => [] end ++
      [TIdent "max_iters"; TColon; TIntLit n; TLBrace; TBody; TLBrace] ++
      concat (map print_statement body) ++
      [TRBrace; TVerify; TLBrace] ++ concat (map print_statement verify) ++ [TRBrace; TRBrace]
  end.

Definition print_statements (ss : list Statement) : list Token := concat (map print_statement ss).

Definition print_program (p : EalProgram) : list Token :=
  [TMission; TStringLit (mission_name (mission p)); TLBrace] ++
  print_statements (statements (mission p)) ++ [TRBrace].

(** ** What the parser guarantees of a program *)

Definition ref_ok (v : string) : bool :=
  match strip_suffix ".result" v with Some p => ident_ok p | None => ident_ok v end.

(** [obj]: whether nested objects are allowed (member-call arguments). *)
Fixpoint value_ok (obj : bool) (v : FieldValue) : bool :=
  match v with
  | FVString s => well_escaped s
  | FVInt n => between i64_min i64_max n
  | FVFloat _ | FVBool _ => true
  | FVVarRef v => ref_ok v
  | FVObject fs => obj && forallb (λ kv, ident_ok kv.1 && value_ok true kv.2) fs
  end.

Definition fields_ok (obj : bool) (fs : list Field) : bool :=
  forallb (λ kv, ident_ok kv.1 && value_ok obj kv.2) fs.

Definition opt_ok {A} (p : A → bool) (o : option A) : bool :=
  match o with Some a => p a | None => true end.

Definition options_ok (o : StepOptions) : bool :=
  opt_ok (between 0 i32_max) (timeout_seconds o) && opt_ok (between 0 i32_max) (max_retries o).

(** A target is always present; member calls name an identifier and may nest
    objects, device calls name a string and may not. *)
Definition call_ok (c : CallExpr) : bool :=
  match target_node c with Some t => well_escaped t | None => false end &&
  match target_kind c with
  | TKAgent => ident_ok (function_name c) && fields_ok true (arguments c)
  | TKDevice => well_escaped (function_name c) && fields_ok false (arguments c)
  end && options_ok (options c).

Fixpoint statement_ok (s : Statement) : bool :=
  match s with
  | SLetCall b c => ident_ok b && call_ok c
  | SCall c => call_ok c
  | SEmit e => well_escaped (emit_name e) && well_escaped (emit_kind e) && value_ok true (emit_value e)
  | SLoop (mk_LoopBlock name n body verify) =>
      opt_ok well_escaped name && between 0 u32_max n &&
      forallb statement_ok body && forallb statement_ok verify
  end.

Definition program_ok (p : EalProgram) : bool :=
  well_escaped (mission_name (mission p)) && forallb statement_ok (statements (mission p)).

(** The float literals of the program are written as decimals for them. *)
Definition floats_printed (ft : f64 → string) (p : EalProgram) : Prop := floats_written ft (print_program p).

(** ** The round trip on tokens *)

Lemma strip_suffix_Some suf s p : strip_suffix suf s = Some p → s = p +:+ suf.
Proof.
  revert p. induction s as [|c s IH]; intros p; cbn [strip_suffix].
  - destruct (String.eqb_spec EmptyString suf) as [<-|]; [|done]. by intros [= <-].
  - destruct (String.eqb_spec (String c s) suf) as [<-|]; [by intros [= <-]|].
    intros (p' & Hp & ->)%fmap_Some. by rewrite str_app_cons, <- (IH _ Hp).
Qed.

Lemma strip_suffix_app suf p : strip_suffix suf (p +:+ suf) = Some p.
Proof.
  induction p as [|c p IH].
  - change (EmptyString +:+ suf) with suf. destruct suf; cbn [strip_suffix]; by rewrite String.eqb_refl.
  - rewrite str_app_cons. cbn [strip_suffix]. rewrite IH.
    destruct (String.eqb_spec (String c (p +:+ suf)) suf) as [E|]; [|done].
    apply (f_equal String.length) in E. cbn in E. rewrite str_length_app in E. lia.
Qed.

Lemma parse_reference_print bare v rest :
  parse_reference bare (print_ref v ++ rest) = Ok (FVVarRef v, rest).
Proof.
  unfold print_ref. destruct (strip_suffix ".result" v) as [p|] eqn:E; [|done].
  apply strip_suffix_Some in E as ->. done.
Qed.

Lemma print_ref_peek v rest : ∃ s, peek (print_ref v ++ rest) = TIdent s.
Proof. unfold print_ref. case_match; cbn; eauto. Qed.

Lemma peek_head t ts : peek (t :: ts) = t.
Proof. done. Qed.
Lemma peek_second t u ts : peek_at 1 (t :: u :: ts) = u.
Proof. done. Qed.

(** Runs the cursor over tokens that are known. *)
Ltac read_tokens :=
  repeat first [ rewrite peek_head | rewrite peek_second | rewrite <- app_assoc
               | progress cbn [token_eqb tail mbind result_bind snd fst app advance] ].

(** The loop over [key: value] fields, given that it works for each value. *)
Lemma parse_colon_fields_print close fs : close = TRBrace ∨ close = TRParen →
  Forall (λ kv, ∀ f rest, (length (print_value kv.2) < f)%nat →
    parse_arg_value_fuel f (print_value kv.2 ++ rest) = Ok (kv.2, rest)) fs →
  ∀ f rest, (length (print_fields TColon fs) < f)%nat →
    parse_colon_fields f close (print_fields TColon fs ++ close :: rest) = Ok (fs, close :: rest).
Proof.
  intros Hc. induction 1 as [|[k v] fs Hv _ IH]; intros f rest Hf; cbn [snd] in *.
  { destruct f as [|f]; [cbn in Hf; lia|]. by destruct Hc as [-> | ->]. }
  destruct f as [|f]; [cbn in Hf; lia|]. cbn [print_fields foldr fst snd] in *.
  fold (print_fields TColon fs) in *. cbn [length] in Hf. rewrite length_app in Hf. cbn in Hf.
  cbn [parse_colon_fields]. rewrite <- !app_comm_cons.
  assert (token_eqb (TIdent k) close = false) as Hk by by destruct Hc as [-> | ->].
  rewrite !peek_head. rewrite Hk.
  change (token_eqb (TIdent k) TEof) with false. cbn [orb].
  unfold expect_ident, expect, advance. rewrite !peek_head. cbn [tail mbind result_bind].
  rewrite !peek_head. cbn [token_eqb tail mbind result_bind].
  rewrite <- app_assoc. rewrite Hv by lia. cbn [mbind result_bind].
  rewrite <- app_comm_cons. rewrite !peek_head. cbn [token_eqb].
  cbn [snd tail]. rewrite IH by lia. done.
Qed.

Lemma print_object_fields fs :
  foldr (λ kv acc, TIdent kv.1 :: TColon :: print_value kv.2 ++ TComma :: acc) [TRBrace] fs =
  print_fields TColon fs ++ [TRBrace].
Proof.
  unfold print_fields. induction fs as [|[k v] fs IH]; [done|]. cbn.
  rewrite IH. by rewrite <- app_assoc.
Qed.

Lemma parse_arg_value_print v : ∀ f rest, (length (print_value v) < f)%nat →
  parse_arg_value_fuel f (print_value v ++ rest) = Ok (v, rest).
Proof.
  induction v as [|?|?|?|v|fs IH] using FieldValue_ind'; intros fl rest Hf;
    (destruct fl as [|fl]; [cbn in Hf; lia|]); cbn [parse_arg_value_fuel]; try done.
  - cbn [print_value]. destruct (print_ref_peek v rest) as [s ->]. apply parse_reference_print.
  - cbn [print_value] in *. rewrite print_object_fields in *. cbn [length] in Hf.
    rewrite length_app in Hf. cbn in Hf. rewrite <- app_comm_cons, <- app_assoc.
    rewrite !peek_head. cbn [advance snd tail].
    change ([TRBrace] ++ rest) with (TRBrace :: rest).
    rewrite parse_colon_fields_print by (auto || lia). done.
Qed.

Lemma parse_named_args_print fs rest :
  parse_named_args (print_fields TColon fs ++ TRParen :: rest) = Ok (fs, TRParen :: rest).
Proof.
  apply parse_colon_fields_print; auto.
  - apply Forall_forall. intros kv _ f r. apply parse_arg_value_print.
  - rewrite length_app. lia.
Qed.

Lemma parse_value_print v rest : value_ok false v = true →
  parse_value (print_value v ++ rest) = Ok (v, rest).
Proof.
  destruct v; try done. intros _. cbn [print_value]. unfold parse_value.
  destruct (print_ref_peek var_name rest) as [s ->]. apply parse_reference_print.
Qed.

Lemma print_fields_length sep fs : (length fs ≤ length (print_fields sep fs))%nat.
Proof.
  unfold print_fields. induction fs as [|kv fs IH]; cbn; [lia|]. rewrite length_app. cbn. lia.
Qed.

Lemma parse_fields_print fs rest : fields_ok false fs = true →
  parse_fields (print_fields TEq fs ++ TRBrace :: rest) = Ok (fs, TRBrace :: rest).
Proof.
  unfold parse_fields. intros Hok.
  enough (∀ f, (length fs < f)%nat → parse_fields_fuel f (print_fields TEq fs ++ TRBrace :: rest) =
    Ok (fs, TRBrace :: rest)) as H.
  { apply H. rewrite length_app. pose proof (print_fields_length TEq fs). lia. }
  induction fs as [|[k v] fs IH]; intros f Hf; (destruct f as [|f]; [cbn in Hf; lia|]); [done|].
  cbn in Hok. apply andb_true_iff in Hok as [[_ Hv]%andb_true_iff Hok].
  cbn [print_fields foldr fst snd]. fold (print_fields TEq fs). cbn in Hf.
  rewrite <- !app_comm_cons, <- app_assoc, <- app_comm_cons.
  cbn [parse_fields_fuel].
  rewrite !peek_head. cbn [token_eqb orb].
  unfold expect_ident, expect, advance.
  rewrite !peek_head. cbn [mbind result_bind tail].
  rewrite !peek_head. cbn [token_eqb mbind result_bind].
  rewrite parse_value_print by done. cbn [mbind result_bind].
  rewrite !peek_head. cbn [token_eqb snd tail].
  rewrite IH by (done || lia). done.
Qed.

(** The token after a call continues neither its options nor its arguments. *)
Definition call_stop (ts : list Token) : bool :=
  match peek ts with TTimeout | TRetries | TOnFailure | TOptional | TWith => false | _ => true end.

Lemma parse_options_stop f o rest : call_stop rest = true →
  parse_options_fuel (S f) o rest = Ok (o, rest).
Proof. unfold call_stop. cbn. by destruct (peek rest). Qed.

Lemma parse_timeout_step f o n ts : between 0 i32_max n = true →
  parse_options_fuel (S f) o (TTimeout :: TIntLit n :: ts) = parse_options_fuel f (set_timeout n o) ts.
Proof. intros H. cbn [parse_options_fuel]. unfold expect_i32_in_range, expect_int. cbn -[between]. by rewrite H. Qed.
Lemma parse_retries_step f o n ts : between 0 i32_max n = true →
  parse_options_fuel (S f) o (TRetries :: TIntLit n :: ts) = parse_options_fuel f (set_retries n o) ts.
Proof. intros H. cbn [parse_options_fuel]. unfold expect_i32_in_range, expect_int. cbn -[between]. by rewrite H. Qed.
Lemma parse_on_failure_step f o p ts :
  parse_options_fuel (S f) o (TOnFailure :: print_policy p :: ts) =
  parse_options_fuel f (set_on_failure p o) ts.
Proof. by destruct p. Qed.
Lemma parse_optional_step f o ts :
  parse_options_fuel (S f) o (TOptional :: ts) = parse_options_fuel f (set_optional o) ts.
Proof. done. Qed.

Lemma parse_options_print o rest : options_ok o = true → call_stop rest = true →
  parse_options (print_options o ++ rest) = Ok (o, rest).
Proof.
  destruct o as [t r p b]. unfold options_ok, parse_options, print_options.
  cbn [timeout_seconds max_retries on_failure optional].
  rewrite andb_true_iff. intros [Ht Hr] Hstop.
  destruct t as [t|], r as [r|], p as [p|], b; cbn [app length opt_ok] in *;
    rewrite ?parse_timeout_step, ?parse_retries_step, ?parse_on_failure_step, ?parse_optional_step
      by done;
    by apply parse_options_stop.
Qed.

Lemma print_options_no_with o rest : call_stop rest = true →
  token_eqb (peek (print_options o ++ rest)) TWith = false.
Proof.
  intros Hs. destruct o as [[] [] [] []]; try done. unfold call_stop in Hs. cbn.
  by destruct (peek rest).
Qed.

Lemma parse_call_print c rest : call_ok c = true → call_stop rest = true →
  parse_rhs (print_call c ++ rest) = Ok (c, rest).
Proof.
  destruct c as [fn [t|] k args o]; [|done]. unfold call_ok, print_call. cbn [target_node
    target_kind function_name arguments options].
  rewrite !andb_true_iff. intros [[_ Hk] Ho] Hstop. destruct k.
  - rewrite <- !app_assoc. unfold parse_rhs, parse_member_call, expect_ident, expect. read_tokens.
    rewrite parse_named_args_print. read_tokens. by rewrite parse_options_print.
  - apply andb_true_iff in Hk as [_ Hargs]. rewrite <- !app_assoc.
    unfold parse_rhs, parse_call_expr, expect_string, expect. read_tokens.
    destruct args as [|a args].
    + read_tokens. rewrite print_options_no_with by done. read_tokens. by rewrite parse_options_print.
    + set (fs := a :: args) in *. read_tokens. rewrite <- ?app_assoc. read_tokens.
      rewrite parse_fields_print by done. read_tokens. by rewrite parse_options_print.
Qed.

(** *** Statements *)

Lemma print_call_start c : ∃ t ts, print_call c = t :: ts ∧
  (t = TCall ∨ ∃ s, t = TStringLit s).
Proof. unfold print_call. destruct (target_kind c); cbn; eauto 10. Qed.

(** A statement starts with a token that ends neither a call nor a block. *)
Lemma print_statement_start s rest : ∃ t ts, print_statement s ++ rest = t :: ts ∧
  call_stop (t :: ts) = true ∧ token_eqb t TRBrace = false ∧ token_eqb t TEof = false.
Proof.
  destruct s as [b c|c|e|[name n body verify]]; cbn [print_statement app]; try (by eexists _, _).
  destruct (print_call_start c) as (t & ts & -> & [->|[s ->]]); by eexists _, _.
Qed.

Lemma print_statements_stop ss rest : call_stop (print_statements ss ++ TRBrace :: rest) = true.
Proof.
  unfold print_statements. destruct ss as [|s ss]; [done|]. cbn [map concat].
  rewrite <- app_assoc. by destruct (print_statement_start s
    (concat (map print_statement ss) ++ TRBrace :: rest)) as (t & ts & -> & ? & _).
Qed.

Definition statement_prints (s : Statement) : Prop := ∀ f rest,
  (3 * length (print_statement s) + 1 < f)%nat → call_stop rest = true →
  parse_statement f (print_statement s ++ rest) = Ok (s, rest).

Lemma parse_statements_print ss : Forall statement_prints ss → ∀ f eof rest,
  (3 * length (print_statements ss) + 2 < f)%nat →
  parse_statements f eof (print_statements ss ++ TRBrace :: rest) = Ok (ss, TRBrace :: rest).
Proof.
  unfold print_statements.
  induction 1 as [|s ss Hs _ IH]; intros f eof rest Hf; (destruct f as [|f]; [lia|]); [done|].
  cbn [parse_statements map concat] in *. rewrite length_app in Hf. rewrite <- app_assoc.
  set (tail := concat (map print_statement ss) ++ TRBrace :: rest).
  destruct (print_statement_start s tail) as (t & ts & E & _ & Hb & He).
  assert (1 ≤ length (print_statement s))%nat.
  { destruct s as [b c|c|e|[]]; cbn; try lia.
    destruct (print_call_start c) as (? & ? & -> & _). cbn. lia. }
  rewrite E, peek_head, Hb, He, andb_false_r. cbn [orb]. rewrite <- E.
  rewrite Hs; [|lia|apply print_statements_stop]. cbn [mbind result_bind].
  unfold tail. rewrite IH by lia. done.
Qed.

Lemma parse_statement_call f c rest : call_ok c = true → call_stop rest = true →
  parse_statement (S f) (print_call c ++ rest) = Ok (SCall c, rest).
Proof.
  intros Hok Hstop. cbn [parse_statement].
  destruct (print_call_start c) as (t & ts & E & Ht).
  rewrite E, <- app_comm_cons, peek_head, app_comm_cons, <- E.
  destruct Ht as [-> | [s ->]]; by rewrite parse_call_print.
Qed.

Lemma parse_loop_print name n body verify :
  opt_ok well_escaped name = true → between 0 u32_max n = true →
  Forall statement_prints body → Forall statement_prints verify →
  statement_prints (SLoop (mk_LoopBlock name n body verify)).
Proof.
  intros Hname Hn Hb Hv f rest Hf Hstop.
  cbn [print_statement] in *. fold (print_statements body) in *. fold (print_statements verify) in *.
  cbn [length] in Hf. rewrite !length_app in Hf. cbn [length] in Hf.
  destruct f as [|[|[|f]]]; [lia..|].
  rewrite <- !app_comm_cons, <- !app_assoc. cbn [app].
  cbn [parse_statement parse_loop_block].
  unfold parse_optional_block_name, expect_u32, expect_contextual_ident, expect_string, expect.
  apply between_spec in Hn.
  assert (Hu : (n <? 0) = false ∧ (u32_max <? n) = false).
  { split; apply Z.ltb_ge; lia. }
  destruct Hu as [Hn0 Hn1].
  destruct name as [name|]; read_tokens; rewrite String.eqb_refl; read_tokens;
    rewrite Hn0, Hn1; read_tokens;
    cbn [parse_sub_blocks]; unfold expect; read_tokens;
    (rewrite parse_statements_print by (done || lia)); read_tokens;
    (destruct f as [|f]; [cbn in Hf; lia|]);
    cbn [parse_sub_blocks]; unfold expect; read_tokens;
    (rewrite parse_statements_print by (done || (cbn in Hf; lia))); read_tokens;
    (destruct f as [|f]; [cbn in Hf; lia|]); cbn [parse_sub_blocks]; by read_tokens.
Qed.

Lemma parse_statement_print s : statement_ok s = true → statement_prints s.
Proof.
  induction s as [b c|c|e|[name n body verify] IHb IHv] using Statement_ind'; intros Hok.
  - cbn in Hok. apply andb_true_iff in Hok as [_ Hok]. intros f rest Hf Hstop.
    destruct f as [|f]; [lia|]. cbn [parse_statement print_statement].
    unfold expect_ident, expect. read_tokens. by rewrite parse_call_print.
  - intros f rest Hf Hstop. destruct f as [|f]; [lia|]. by apply parse_statement_call.
  - intros f rest Hf Hstop. destruct f as [|f]; [lia|]. destruct e as [nm kd v].
    cbn [parse_statement print_statement emit_name emit_kind emit_value].
    unfold parse_emit_statement, expect_contextual_ident, expect_string, expect_emit_kind, expect.
    read_tokens. rewrite String.eqb_refl. read_tokens. rewrite String.eqb_refl. read_tokens.
    unfold parse_arg_value. rewrite parse_arg_value_print by (rewrite length_app; lia). done.
  - cbn [statement_ok] in Hok. rewrite !andb_true_iff, !forallb_Forall in Hok.
    destruct Hok as [[[Hname Hn] Hb] Hv]. cbn in IHb, IHv.
    apply parse_loop_print; try done.
    + eapply Forall_impl; [apply Forall_and; split; [exact IHb|exact Hb]|]. naive_solver.
    + eapply Forall_impl; [apply Forall_and; split; [exact IHv|exact Hv]|]. naive_solver.
Qed.

Lemma parse_program_print p rest : program_ok p = true →
  parse_program (print_program p ++ rest) = Ok (p, rest).
Proof.
  destruct p as [[nm ss]]. unfold program_ok, print_program. cbn [mission mission_name statements].
  rewrite andb_true_iff, forallb_Forall. intros [_ Hss].
  unfold parse_program, parse_mission, expect_string, expect. read_tokens.
  rewrite parse_statements_print.
  - by read_tokens.
  - eapply Forall_impl; [exact Hss|]. intros s. apply parse_statement_print.
  - unfold statement_fuel. rewrite length_app. cbn [length]. lia.
Qed.

(** ** Printed programs are scannable *)

Lemma ident_ok_well_escaped s : ident_ok s = true → well_escaped s = true.
Proof.
  unfold ident_ok. rewrite !andb_true_iff. intros [[_ H] _].
  induction s as [|c s IH]; [done|]. cbn in *. apply andb_true_iff in H as [Hc%is_word_char_val H].
  byte_test. auto.
Qed.

Lemma print_ref_ok v : ref_ok v = true → forallb token_ok (print_ref v) = true.
Proof.
  unfold ref_ok, print_ref. destruct (strip_suffix ".result" v); intros H;
    cbn [forallb token_ok]; rewrite H; reflexivity.
Qed.

Lemma print_value_ok obj v : value_ok obj v = true → forallb token_ok (print_value v) = true.
Proof.
  revert obj. induction v as [| | | | |fs IH] using FieldValue_ind'; intros obj; try done;
    try (cbn; by rewrite andb_true_r).
  - apply print_ref_ok.
  - cbn [value_ok print_value]. rewrite andb_true_iff, forallb_Forall. intros [_ Hfs].
    rewrite print_object_fields. cbn [forallb token_ok andb]. rewrite forallb_app'. cbn. rewrite andb_true_r.
    unfold print_fields. induction fs as [|[k v] fs IHfs]; [done|].
    apply Forall_cons in IH as [IHv IH], Hfs as [[Hk Hv]%andb_true_iff Hfs]. cbn in *.
    rewrite Hk, forallb_app', (IHv _ Hv). cbn. by apply IHfs.
Qed.

Lemma print_fields_ok sep obj fs : token_ok sep = true → fields_ok obj fs = true →
  forallb token_ok (print_fields sep fs) = true.
Proof.
  intros Hsep. unfold fields_ok, print_fields. induction fs as [|[k v] fs IH]; [done|].
  cbn. rewrite !andb_true_iff, forallb_app'. intros [[Hk Hv] Hfs].
  rewrite (print_value_ok _ _ Hv). cbn. auto.
Qed.

Lemma i32_i64 n : between 0 i32_max n = true → between i64_min i64_max n = true.
Proof. rewrite !between_spec. unfold i32_max, i64_min, i64_max. lia. Qed.
Lemma u32_i64 n : between 0 u32_max n = true → between i64_min i64_max n = true.
Proof. rewrite !between_spec. unfold u32_max, i64_min, i64_max. lia. Qed.

Lemma print_options_ok o : options_ok o = true → forallb token_ok (print_options o) = true.
Proof.
  destruct o as [t r p b]. unfold options_ok, print_options.
  cbn [timeout_seconds max_retries on_failure optional]. rewrite andb_true_iff. intros [Ht Hr].
  rewrite !forallb_app', !andb_true_iff. split_and!.
  - destruct t; [|done]. cbn. by rewrite i32_i64.
  - destruct r; [|done]. cbn. by rewrite i32_i64.
  - by destruct p as [[]|].
  - by destruct b.
Qed.

Lemma print_call_ok c : call_ok c = true → forallb token_ok (print_call c) = true.
Proof.
  destruct c as [fn [t|] k args o]; [|done]. unfold call_ok, print_call.
  cbn [target_node target_kind function_name arguments options].
  rewrite !andb_true_iff, forallb_app', andb_true_iff. intros [[Ht Hk] Ho].
  split; [|by apply print_options_ok]. destruct k; apply andb_true_iff in Hk as [Hf Ha].
  - rewrite !forallb_app', (print_fields_ok TColon true _ eq_refl Ha). cbn. by rewrite Ht, Hf.
  - rewrite forallb_app'. cbn [forallb token_ok]. rewrite Ht, Hf. destruct args; [done|].
    rewrite !forallb_app', (print_fields_ok TEq false _ eq_refl Ha). done.
Qed.

Lemma print_statement_ok s : statement_ok s = true → forallb token_ok (print_statement s) = true.
Proof.
  assert (Hcat : ∀ ss, Forall (λ s, statement_ok s = true → forallb token_ok (print_statement s) = true) ss →
    forallb statement_ok ss = true → forallb token_ok (concat (map print_statement ss)) = true).
  { induction 1 as [|s' ss Hs _ IH]; [done|]. cbn. rewrite andb_true_iff, forallb_app'.
    intros [H1 H2]. by rewrite Hs, IH. }
  induction s as [b c|c|e|[name n body verify] IHb IHv] using Statement_ind'; intros Hok.
  - cbn in Hok. apply andb_true_iff in Hok as [Hb Hc]. cbn. rewrite Hb. by apply print_call_ok.
  - by apply print_call_ok.
  - cbn [statement_ok print_statement] in *. rewrite !andb_true_iff in Hok. destruct Hok as [[H1 H2] H3].
    rewrite forallb_app', (print_value_ok _ _ H3). cbn [forallb token_ok]. by rewrite H1, H2.
  - cbn [statement_ok print_statement] in *. rewrite !andb_true_iff in Hok.
    destruct Hok as [[[Hname Hn] Hb] Hv]. cbn in IHb, IHv.
    cbn [forallb token_ok]. rewrite !forallb_app', (Hcat _ IHb Hb), (Hcat _ IHv Hv).
    cbn [forallb token_ok]. rewrite (u32_i64 _ Hn). destruct name; cbn in *; [by rewrite Hname|done].
Qed.

Lemma print_program_ok p : program_ok p = true → forallb token_ok (print_program p) = true.
Proof.
  unfold program_ok, print_program. rewrite andb_true_iff. intros [Hn Hss].
  rewrite !forallb_app'. cbn [forallb token_ok]. rewrite Hn. cbn. rewrite andb_true_r.
  unfold print_statements. induction (statements (mission p)) as [|s ss IH]; [done|].
  cbn in *. apply andb_true_iff in Hss as [Hs Hss]. by rewrite forallb_app', print_statement_ok, IH.
Qed.

(** The round trip through text. *)
Lemma parse_print_program ft p : program_ok p = true → floats_printed ft p →
  parse (print_tokens ft (print_program p)) = Ok p.
Proof.
  intros Hok Hf. pose proof (print_program_ok p Hok) as Hts.
  unfold parse, tokenize. rewrite tokenize_loop_print; [|pose proof (print_tokens_fuel ft (print_program p)); lia|done..].
  cbn [map_err mbind result_bind]. by rewrite parse_program_print.
Qed.

(** ** Every program the parser returns is well formed *)

(** A token the scanner can produce, the end marker included. *)
Definition scanned (t : Token) : bool := token_ok t || is_eof t.
Definition all_scanned (ts : list Token) : Prop := forallb scanned ts = true.

(** From scanned tokens a parser returns a value with [Q] and scanned tokens. *)
Definition yields {A} (Q : A → Prop) (r : parsed A) : Prop :=
  match r with Ok (a, ts) => Q a ∧ all_scanned ts | Err _ => True end.
Definition skips (r : result ParseError (list Token)) : Prop :=
  match r with Ok ts => all_scanned ts | Err _ => True end.

Lemma yields_bind {A B} (Q : A → Prop) (R : B → Prop) (r : parsed A) k :
  yields Q r → (∀ a ts, Q a → all_scanned ts → yields R (k (a, ts))) → yields R (r ≫= k).
Proof. destruct r as [[a ts]|e]; cbn; naive_solver. Qed.
Lemma yields_bind_skip {B} (R : B → Prop) r k :
  skips r → (∀ ts, all_scanned ts → yields R (k ts)) → yields R (r ≫= k).
Proof. destruct r as [ts|e]; cbn; naive_solver. Qed.

Lemma all_scanned_tail ts : all_scanned ts → all_scanned (tail ts).
Proof. unfold all_scanned. destruct ts; cbn; [done|]. by intros [_ ?]%andb_true_iff. Qed.

Lemma all_scanned_advance ts : all_scanned ts → all_scanned (advance ts).2.
Proof. apply all_scanned_tail. Qed.

Lemma all_scanned_peek ts : all_scanned ts → scanned (peek ts) = true.
Proof. unfold all_scanned. destruct ts; cbn; [done|]. by intros [? _]%andb_true_iff. Qed.

Lemma expect_skips t ts : all_scanned ts → skips (expect t ts).
Proof. intros H. unfold expect, advance. case_match; cbn; [by apply all_scanned_tail|done]. Qed.
Lemma expect_contextual_ident_skips s ts : all_scanned ts → skips (expect_contextual_ident s ts).
Proof.
  intros H. unfold expect_contextual_ident. repeat case_match; cbn; try done. by apply all_scanned_tail.
Qed.

(** Parsers that read one token. *)
Ltac read_one :=
  match goal with H : all_scanned ?ts |- _ =>
    pose proof (all_scanned_tail _ H); pose proof (all_scanned_peek _ H);
    unfold advance, scanned in *; destruct (peek ts) eqn:?; cbn in *; try done
  end.

Lemma expect_string_yields ts : all_scanned ts →
  yields (λ s, well_escaped s = true) (expect_string ts).
Proof. intros H. unfold expect_string. read_one. by rewrite ?orb_false_r in *. Qed.
Lemma expect_ident_yields ts : all_scanned ts → yields (λ s, ident_ok s = true) (expect_ident ts).
Proof. intros H. unfold expect_ident. read_one. by rewrite ?orb_false_r in *. Qed.
Lemma expect_emit_kind_yields ts : all_scanned ts →
  yields (λ s, well_escaped s = true) (expect_emit_kind ts).
Proof.
  intros H. unfold expect_emit_kind. read_one; rewrite ?orb_false_r in *; auto using ident_ok_well_escaped.
Qed.
Lemma parse_policy_yields ts : all_scanned ts → yields (λ _, True) (parse_policy ts).
Proof. intros H. unfold parse_policy. read_one. Qed.
Lemma parse_scalar_yields other obj ts : all_scanned ts →
  yields (λ v, value_ok obj v = true) (parse_scalar other ts).
Proof. intros H. unfold parse_scalar. read_one; by rewrite ?orb_false_r in *. Qed.
Lemma expect_i32_yields f ts : all_scanned ts →
  yields (λ n, between 0 i32_max n = true) (expect_i32_in_range f ts).
Proof.
  intros H. unfold expect_i32_in_range, expect_int. read_one. by case_match; cbn.
Qed.
Lemma expect_u32_yields ts : all_scanned ts →
  yields (λ n, between 0 u32_max n = true) (expect_u32 ts).
Proof.
  intros H. unfold expect_u32. read_one.
  destruct (Z.ltb_spec n 0); [done|]. destruct (Z.ltb_spec u32_max n); [done|].
  cbn. split; [|done]. apply between_spec. lia.
Qed.
Lemma parse_optional_block_name_yields ts : all_scanned ts →
  yields (λ o, opt_ok well_escaped o = true) (parse_optional_block_name ts).
Proof.
  intros H. unfold parse_optional_block_name, expect_string. read_one. by rewrite ?orb_false_r in *.
Qed.

Create HintDb parser_sound.
#[export] Hint Resolve all_scanned_tail all_scanned_advance expect_skips expect_contextual_ident_skips
  expect_string_yields expect_ident_yields expect_emit_kind_yields parse_policy_yields
  parse_scalar_yields expect_i32_yields expect_u32_yields parse_optional_block_name_yields
  : parser_sound.
#[export] Hint Extern 1 (all_scanned (if ?b then _ else _)) => destruct b : parser_sound.

Ltac yields_step :=
  cbn beta iota zeta;
  match goal with
  | |- yields _ (_ ≫= _) =>
      first [ eapply yields_bind_skip; [solve [eauto with parser_sound]|intros ? ?]
            | eapply yields_bind; [solve [eauto with parser_sound]|intros ? ? ? ?] ]; cbn beta iota in *
  | |- yields _ (Err _) => exact I
  | |- yields _ (if ?b then _ else _) => destruct b eqn:?
  | |- yields _ (Ok (_, _)) => cbn [yields]; split
  end.
(** Closes a conjunction of boolean facts that are all in the context. *)
Ltac all_true := repeat match goal with H : _ = true |- _ => rewrite H; clear H end; reflexivity.
Ltac yields_auto := repeat yields_step; cbn [snd advance] in *; eauto with parser_sound.

Lemma ident_no_dot s : str_forall is_word_char s = true → strip_suffix ".result" s = None.
Proof.
  intros H. destruct (strip_suffix ".result" s) as [p|] eqn:E; [|done].
  apply strip_suffix_Some in E as ->. rewrite str_forall_app in H.
  apply andb_true_iff in H as [_ H]. done.
Qed.

Lemma ident_ref_ok s : ident_ok s = true → ref_ok s = true.
Proof.
  intros H. unfold ref_ok. rewrite ident_no_dot; [done|].
  unfold ident_ok in H. by rewrite !andb_true_iff in H; destruct H as [[_ ?] _].
Qed.

Lemma parse_reference_yields bare obj ts : all_scanned ts →
  yields (λ v, value_ok obj v = true) (parse_reference bare ts).
Proof.
  intros H. unfold parse_reference. yields_auto; cbn [value_ok].
  - by apply ident_ref_ok.
  - unfold ref_ok. by rewrite strip_suffix_app.
Qed.
#[export] Hint Resolve parse_reference_yields : parser_sound.

Lemma parse_value_yields ts : all_scanned ts → yields (λ v, value_ok false v = true) (parse_value ts).
Proof. intros H. unfold parse_value. case_match; eauto with parser_sound. Qed.
#[export] Hint Resolve parse_value_yields : parser_sound.

Lemma parse_arg_value_yields fuel :
  (∀ ts, all_scanned ts → yields (λ v, value_ok true v = true) (parse_arg_value_fuel fuel ts)) ∧
  (∀ close ts, all_scanned ts →
     yields (λ fs, fields_ok true fs = true) (parse_colon_fields fuel close ts)).
Proof.
  induction fuel as [|fuel [IHv IHf]]; [done|]. split.
  - intros ts H. cbn [parse_arg_value_fuel]. case_match; eauto with parser_sound.
    eapply yields_bind; [apply IHf, all_scanned_tail, H|]. intros fs ts1 Hfs H1. yields_auto.
  - intros close ts H. cbn [parse_colon_fields]. yields_auto; unfold fields_ok in *; cbn; all_true.
Qed.

Lemma parse_arg_yields ts : all_scanned ts → yields (λ v, value_ok true v = true) (parse_arg_value ts).
Proof. apply parse_arg_value_yields. Qed.
Lemma parse_named_args_yields ts : all_scanned ts →
  yields (λ fs, fields_ok true fs = true) (parse_named_args ts).
Proof. apply parse_arg_value_yields. Qed.

Lemma parse_fields_yields ts : all_scanned ts →
  yields (λ fs, fields_ok false fs = true) (parse_fields ts).
Proof.
  unfold parse_fields. generalize (S (length ts)) as fuel.
  intros fuel. revert ts. induction fuel as [|fuel IH]; intros ts H; [done|].
  cbn [parse_fields_fuel]. yields_auto; unfold fields_ok in *; cbn; all_true.
Qed.

Lemma parse_options_yields ts : all_scanned ts →
  yields (λ o, options_ok o = true) (parse_options ts).
Proof.
  unfold parse_options. intros H.
  assert (Ho : options_ok default_options = true) by done. revert Ho H.
  generalize default_options. generalize (S (length ts)) as fuel.
  intros fuel. revert ts. induction fuel as [|fuel IH]; intros ts o Ho H; [done|].
  cbn [parse_options_fuel].
  case_match; try (by split); yields_auto; apply IH; auto with parser_sound;
    unfold options_ok in *; cbn; apply andb_true_iff in Ho as [Ht Hr]; all_true.
Qed.
#[export] Hint Resolve parse_arg_yields parse_named_args_yields parse_fields_yields
  parse_options_yields : parser_sound.

Lemma parse_call_expr_yields ts : all_scanned ts → yields (λ c, call_ok c = true) (parse_call_expr ts).
Proof.
  intros H. unfold parse_call_expr. do 4 yields_step.
  eapply (yields_bind (λ fs, fields_ok false fs = true)); [yields_auto|].
  intros. yields_auto. unfold call_ok; cbn [target_node target_kind function_name arguments Ast.options]; all_true.
Qed.

Lemma parse_member_call_yields ts : all_scanned ts →
  yields (λ c, call_ok c = true) (parse_member_call ts).
Proof.
  intros H. unfold parse_member_call.
  eapply (yields_bind (λ s, well_escaped s = true)).
  - read_one; rewrite ?orb_false_r in *; auto using ident_ok_well_escaped.
  - intros. yields_auto. unfold call_ok; cbn [target_node target_kind function_name arguments Ast.options]; all_true.
Qed.
#[export] Hint Resolve parse_call_expr_yields parse_member_call_yields : parser_sound.

Lemma parse_rhs_yields ts : all_scanned ts → yields (λ c, call_ok c = true) (parse_rhs ts).
Proof. intros H. unfold parse_rhs. repeat case_match; cbn [yields]; auto with parser_sound. Qed.

Lemma parse_emit_yields ts : all_scanned ts →
  yields (λ e, statement_ok (SEmit e) = true) (parse_emit_statement ts).
Proof. intros H. unfold parse_emit_statement. yields_auto. cbn. all_true. Qed.
#[export] Hint Resolve parse_rhs_yields parse_emit_yields : parser_sound.

Abbreviation block_ok := (λ o, opt_ok (forallb statement_ok) o = true).

Lemma parse_statement_yields fuel :
  (∀ ts, all_scanned ts → yields (λ s, statement_ok s = true) (parse_statement fuel ts)) ∧
  (∀ ts, all_scanned ts → yields (λ l, statement_ok (SLoop l) = true) (parse_loop_block fuel ts)) ∧
  (∀ b v ts, block_ok b → block_ok v → all_scanned ts →
     yields (λ bv, block_ok bv.1 ∧ block_ok bv.2) (parse_sub_blocks fuel b v ts)) ∧
  (∀ eof ts, all_scanned ts →
     yields (λ ss, forallb statement_ok ss = true) (parse_statements fuel eof ts)).
Proof.
  induction fuel as [|fuel (IHst & IHl & IHb & IHss)]; [done|]. split_and!.
  - intros ts H. cbn [parse_statement].
    case_match; yields_auto; cbn [statement_ok] in *; try all_true; done.
  - intros ts H. cbn [parse_loop_block]. do 6 yields_step.
    eapply yields_bind; [by apply IHb|]. intros [b v] ts7 [Hb Hv] Hts. cbn beta iota in *.
    yields_step. destruct b, v; cbn [yields]; try done. cbn in *. split; [all_true|done].
  - intros b v ts Hb Hv H. cbn [parse_sub_blocks].
    case_match; try done; case_match; try done; repeat yields_step; apply IHb; auto.
  - intros eof ts H. cbn [parse_statements]. yields_auto. cbn. all_true.
Qed.

Lemma parse_program_yields ts : all_scanned ts → yields (λ p, program_ok p = true) (parse_program ts).
Proof.
  intros H. unfold parse_program.
  eapply (yields_bind (λ m, program_ok (mk_EalProgram m) = true)); [|intros; by split].
  unfold parse_mission. do 3 yields_step.
  eapply yields_bind; [by apply parse_statement_yields|]. intros. yields_auto.
  unfold program_ok. cbn. all_true.
Qed.

Lemma tokenize_scanned source ts : tokenize source = Ok ts → all_scanned ts.
Proof.
  intros H. unfold tokenize in H. apply tokenize_loop_ok in H as (ts' & -> & Hts'); [|lia].
  unfold all_scanned. rewrite forallb_app'. apply andb_true_iff. split; [|done].
  rewrite forallb_Forall in *. eapply Forall_impl; [exact Hts'|]. intros t Ht. unfold scanned. by rewrite Ht.
Qed.

Lemma parse_ok source p : parse source = Ok p → program_ok p = true.
Proof.
  unfold parse. intros H. inv_ok. apply tokenize_scanned, parse_program_yields in E.
  destruct x0 as [p' ts]. rewrite E0 in E. cbn in H. subst. by destruct E.
Qed.

(** Source text with single quotes in place of double quotes. *)
Fixpoint quoted (s : string) : string :=
  match s with
  | EmptyString => EmptyString
  | String c s' => String (if byte_val c =? 39 then dquote else c) (quoted s')
  end.

(** ** Properties *)

(** C35 (type): every program the parser returns is well formed: every
    call has a target, member calls name an identifier, timeouts and retries
    are non-negative [i32]s and iteration bounds [u32]s, literals keep their
    escapes balanced, names are identifiers and references are
    [x] or [x.result]. *)
Theorem parse_well_formed source p : parse source = Ok p → program_ok p = true.
Proof. apply parse_ok. Qed.

(** C25 (roundtrip): the parser reads back what it made: a program it returns,
    written in the canonical form of this development (the repository has no
    printer), parses to the same program - with every float literal written as
    some decimal numeral whose value rounds to it, since a program does not keep
    the digits of its floats. *)
Theorem parse_print_parse ft source p : parse source = Ok p → floats_printed ft p →
  parse (print_tokens ft (print_program p)) = Ok p.
Proof. intros H Hf. apply parse_print_program; [by eapply parse_ok|done]. Qed.

(** The concrete syntax covers the abstract syntax: every
    well-formed program whose floats have decimals is the parse of some text. *)
Theorem parse_complete ft p : program_ok p = true → floats_printed ft p →
  ∃ source, parse source = Ok p.
Proof. intros H Hf. eexists. by apply (parse_print_program ft). Qed.

Definition sample_source : string := quoted
  "mission 'm' { let a = 'claude/w1'.review(path: 'x', opts: { n: -3, deep: { q: a.result } }) timeout 5
     call 'shell' on 'node-1' with { cmd = 'ls', nice = 0.5, from = a.output } retries 2 on_failure retry optional
     loop 'fix' max_iters: 3 { verify { let v = b.run() } body { call 'c' on 'n' } }
     emit 'out' kind text value a.output } trailing tokens".

Lemma parse_well_formed_witness : ∃ p, parse sample_source = Ok p ∧ program_ok p = true.
Proof.
  eexists. split; [vm_compute; reflexivity|].
  apply (parse_well_formed sample_source). vm_compute. reflexivity.
Defined.

(** The tokens that are floats. *)
Definition floats_of (ts : list Token) : list f64 := omap (λ t, match t with TFloatLit f => Some f | _ => None end) ts.

Lemma floats_written_half ts : floats_of ts = [half] → floats_written half_text ts.
Proof.
  intros Hts f Hf. assert (f ∈ floats_of ts) as Hin by (apply list_elem_of_omap; by exists (TFloatLit f)).
  rewrite Hts in Hin. apply list_elem_of_singleton in Hin as ->. exact half_decimal.
Qed.

Lemma parse_print_parse_witness : ∃ p, parse sample_source = Ok p ∧ floats_of (print_program p) = [half] ∧
  parse (print_tokens half_text (print_program p)) = Ok p.
Proof.
  eexists. split; [vm_compute; reflexivity|]. split; [vm_compute; reflexivity|].
  apply (parse_print_parse half_text sample_source); [vm_compute; reflexivity|].
  apply floats_written_half. vm_compute. reflexivity.
Defined.

Lemma parse_complete_witness : ∃ source,
  parse source = Ok (mk_EalProgram (mk_MissionDecl "m" [SCall (mk_CallExpr "f" (Some "a/b") TKAgent
    [("k", FVObject [("n", FVInt 7)])] default_options)])).
Proof.
  apply (parse_complete half_text); [vm_compute; reflexivity|]. intros f Hf. cbn in Hf. set_solver.
Defined.
