(* ===== verification/Ir.v ===== *)
(** * Mission IR (src/src/eal/runtime/ir.rs)

    The compilation target of EAL: calls with their data-flow edges, loops,
    emits and the phase ranges, with the static call bound the planner checks. *)

From Stdlib Require Import String.
From S2P Require Import Prelude RustStd AgentId Json.

Open Scope Z_scope.

(** ** Data *)

(** [IrTarget]. *)
Inductive IrTarget :=
| Agent (id : AgentId)
| Device (node_id : string).

Definition display_string (t : IrTarget) : string :=
  match t with Agent id => AgentId_display id | Device node_id => node_id end.

(** [IrFailurePolicy]. *)
Inductive IrFailurePolicy := Continue | Abort | Skip | Retry.

#[global] Instance IrTarget_eq_dec : EqDecision IrTarget.
Proof. solve_decision. Defined.
#[global] Instance IrFailurePolicy_eq_dec : EqDecision IrFailurePolicy.
Proof. solve_decision. Defined.

(** [IrCall]; [call_timeout_seconds] and [call_max_retries] are [i32], the
    [BTreeMap] of input references is its sorted list of entries. *)
Record IrCall := mk_IrCall {
  step_id : string;
  step_name : string;
  ability : AbilityName;
  target : IrTarget;
  static_arguments : Value;
  input_refs : list (string * string);
  output_binding : option string;
  call_timeout_seconds : Z;
  call_max_retries : Z;
  call_on_failure : IrFailurePolicy;
  call_optional : bool;
  content_type : string;
}.

(** [IrLoop], over the type of its steps (the serde tag carries no data). *)
Record IrLoopOf (S : Type) := mk_IrLoop {
  ir_loop_name : option string;
  ir_max_iters : Z;
  ir_body : list S;
  ir_verify : list S;
  result_binding : option string;
}.
Arguments mk_IrLoop {S} _ _ _ _ _.
Arguments ir_loop_name {S} _.
Arguments ir_max_iters {S} _.
Arguments ir_body {S} _.
Arguments ir_verify {S} _.
Arguments result_binding {S} _.

(** [IrStep]. *)
Inductive IrStep :=
| IrStepLoop (l : IrLoopOf IrStep)
| IrStepCall (c : IrCall).

Definition IrLoop : Type := IrLoopOf IrStep.

(** [IrEmitValue] and [IrEmit]. *)
Inductive IrEmitValue :=
| Literal (value : Value)
| Binding (binding : string).

Record IrEmit := mk_IrEmit {
  ir_emit_name : string;
  ir_emit_kind : string;
  ir_emit_value : IrEmitValue;
}.

(** [PhaseRange]: a half-open range of step indices. *)
Record PhaseRange := mk_PhaseRange { start : nat; stop : nat }.

(** [IrConstraints] and its cap on the static call count. *)
Record IrConstraints := mk_IrConstraints { max_parallel : Z; deadline_seconds : Z }.
Definition default_constraints : IrConstraints := mk_IrConstraints 0 0.
Definition default_max_calls : Z := 256.

(** [MissionIr]. *)
Record MissionIr := mk_MissionIr {
  ir_name : string;
  ir_steps : list IrStep;
  ir_phases : list PhaseRange;
  ir_emits : list IrEmit;
  ir_constraints : IrConstraints;
}.

(** ** Operations *)

(** [IrStep::walk_calls]: the calls of a step in source order, body before
    verify. *)
Fixpoint walk_calls (s : IrStep) : list IrCall :=
  match s with
  | IrStepCall c => [c]
  | IrStepLoop (mk_IrLoop _ _ body verify _) =>
      concat (map walk_calls body) ++ concat (map walk_calls verify)
  end.

(** [IrStep::static_call_bound], a saturating [u64] product. *)
Definition static_call_bound (s : IrStep) : Z :=
  match s with
  | IrStepCall _ => 1
  | IrStepLoop l =>
      u64_saturating (ir_max_iters l *
        Z.of_nat (length (concat (map walk_calls (ir_body l))) +
                  length (concat (map walk_calls (ir_verify l)))))
  end.

(** The binding a step exports: the [let] name of a call, [<name>.result] of a
    named loop. *)
Definition step_output (s : IrStep) : option string :=
  match s with
  | IrStepCall c => output_binding c
  | IrStepLoop l => result_binding l
  end.

(** The bindings a step reads from the enclosing scope; loops are hermetic. *)
Definition step_inputs (s : IrStep) : list string :=
  match s with
  | IrStepCall c => snd <$> input_refs c
  | IrStepLoop _ => []
  end.

Definition is_call (s : IrStep) : bool :=
  match s with IrStepCall _ => true | IrStepLoop _ => false end.

(** Induction that reaches the steps of a loop. *)
Section step_ind.
Context (P : IrStep → Prop).
Hypotheses (Hcall : ∀ c, P (IrStepCall c))
  (Hloop : ∀ l, Forall P (ir_body l) → Forall P (ir_verify l) → P (IrStepLoop l)).

Fixpoint IrStep_ind' (s : IrStep) : P s :=
  match s with
  | IrStepCall c => Hcall c
  | IrStepLoop l =>
      let go := (fix go (ss : list IrStep) : Forall P ss :=
          match ss with
          | [] => Forall_nil_2 _
          | s :: ss => Forall_cons_2 _ _ _ (IrStep_ind' s) (go ss)
          end) in
      Hloop l (go (ir_body l)) (go (ir_verify l))
  end.
End step_ind.
