(* ===== verification/Planner.v ===== *)
(** * The EAL compile pass (src/src/eal/runtime/planner.rs)

    Semantic analysis (symbol table, dependency edges, cycle detection), phase
    assignment and lowering to Mission IR.  Symbol tables are [gmap]s and
    dependency sets [gset]s; the order in which a [HashSet] is iterated is
    unspecified, so it is a parameter, the class [HashOrder]. *)

From Stdlib Require Import String.
From S2P Require Import Prelude RustStd AgentId Json Lexer Ast Ir.

Open Scope Z_scope.

(** ** Parameters *)

(** The iteration order of [HashSet<String>]: every element once. *)
Class HashOrder := {
  hash_iter : gset string → list string;
  hash_iter_perm s : hash_iter s ≡ₚ elements s;
}.

(** ** Errors *)

Inductive PlanError :=
| DuplicateBinding (name : string)
| DuplicateLoopBinding (name : string)
| EmitNotTopLevel (name : string)
| MaxItersTooSmall (label : string)
| MaxItersTooLarge (label : string)
| EmptyBody (label : string)
| EmptyVerify (label : string)
| NestedLoop (label : string) (inner : option string)
| VerifyNotCall (label : string)
| RetryWithoutRetries (step_id : string)
| OptionalAbort (step_id : string)
| UndefinedVariable (step_id var : string)
| EmitUndefinedVariable (emit var : string)
| Cycle (here dep : string)
| NestedReference (key : string)
| InternalReference (var : string)
| MissingAgentTarget (step_id : string)
| InvalidAgentTarget (step_id raw : string) (e : AgentIdError)
| MissingDeviceTarget (step_id : string)
| InvalidAbility (step_id name : string) (e : AgentIdError)
| TooManyCalls (mission : string) (total cap : Z)
| PlanPanic (what : string)
| PlanOutOfFuel.

(** ** Analyzed statements *)

Record AnalyzedStep := mk_AnalyzedStep {
  as_step_id : string;
  as_binding : option string;
  as_call : CallExpr;
  as_deps : gset string;
}.

(** [AnalyzedLoop]: the loop's sub-blocks are already lowered. *)
Record AnalyzedLoop := mk_AnalyzedLoop {
  al_name : option string;
  al_max_iters : Z;
  al_body : list IrStep;
  al_verify : list IrStep;
  al_result_binding : option string;
}.

Inductive AnalyzedItem :=
| ACall (s : AnalyzedStep)
| ALoop (l : AnalyzedLoop).

Record AnalyzedMission := mk_AnalyzedMission {
  am_items : list AnalyzedItem;
  am_emits : list IrEmit;
}.

(** [AnalyzedItem::binding], [AnalyzedItem::outer_deps]. *)
Definition item_binding (it : AnalyzedItem) : option string :=
  match it with ACall c => as_binding c | ALoop l => al_result_binding l end.
Definition outer_deps (it : AnalyzedItem) : gset string :=
  match it with ACall c => as_deps c | ALoop _ => ∅ end.
Definition is_loop_item (it : AnalyzedItem) : bool :=
  match it with ALoop _ => true | ACall _ => false end.

(** ** Calls and emits *)

(** [format!("__anon_{n}")]. *)
Definition anon_id (n : Z) : string := "__anon_" +:+ print_int n.

(** A [u32] increment. *)
Definition u32_succ (n : Z) : Z := (n + 1) mod 2 ^ 32.

(** The loop of [analyze_call] over the arguments. *)
Fixpoint collect_deps (symbols : gmap string Z) (step_id : string) (args : list Field)
    (deps : gset string) : result PlanError (gset string) :=
  match args with
  | [] => Ok deps
  | (_, FVVarRef v) :: args =>
      _ ← ensure (bool_decide (is_Some (symbols !! v))) (UndefinedVariable step_id v);
      collect_deps symbols step_id args ({[v]} ∪ deps)
  | _ :: args => collect_deps symbols step_id args deps
  end.

(** [analyze_call]: the step, the symbol table and the anonymous counter. *)
Definition analyze_call (binding : option string) (call : CallExpr) (symbols : gmap string Z)
    (anon : Z) (item_idx : Z) : result PlanError (AnalyzedStep * gmap string Z * Z) :=
  _ ← match binding with
      | Some name => ensure (bool_decide (symbols !! name = None)) (DuplicateBinding name)
      | None => Ok tt
      end;
  let '(step_id, anon) :=
    match binding with
    | Some name => (name, anon)
    | None => let anon := u32_succ anon in (anon_id anon, anon)
    end in
  _ ← match on_failure (options call) with
      | Some FPRetry =>
          ensure (0 <? default 0 (max_retries (options call))) (RetryWithoutRetries step_id)
      | _ => Ok tt
      end;
  _ ← ensure (negb (optional (options call) &&
                    bool_decide (on_failure (options call) = Some FPAbort)))
             (OptionalAbort step_id);
  deps ← collect_deps symbols step_id (arguments call) ∅;
  let symbols := match binding with Some name => <[name := item_idx]> symbols | None => symbols end in
  Ok (mk_AnalyzedStep step_id binding call deps, symbols, anon).

(** [field_value_to_json] *)
Fixpoint field_value_to_json (v : FieldValue) : result PlanError Value :=
  match v with
  | FVString s => Ok (VString s)
  | FVInt n => Ok (VInt n)
  | FVFloat f => Ok (json_of_f64 f)
  | FVBool b => Ok (VBool b)
  | FVObject fields =>
      VObject <$>
      (fix go (fs : list Field) (map : list (string * Value)) : result PlanError (list (string * Value)) :=
         match fs with
         | [] => Ok map
         | (key, value) :: fs =>
             match value with
             | FVVarRef _ => Err (NestedReference key)
             | _ => j ← field_value_to_json value; go fs (index_insert key j map)
             end
         end) fields []
  | FVVarRef v => Err (InternalReference v)
  end.

Definition emit_value_to_ir (v : FieldValue) : result PlanError IrEmitValue :=
  match v with
  | FVVarRef name => Ok (Binding name)
  | other => Literal <$> field_value_to_json other
  end.

Definition analyze_emit (e : EmitStatement) (symbols : gmap string Z) : result PlanError IrEmit :=
  _ ← match emit_value e with
      | FVVarRef v =>
          ensure (bool_decide (is_Some (symbols !! v))) (EmitUndefinedVariable (emit_name e) v)
      | _ => Ok tt
      end;
  value ← emit_value_to_ir (emit_value e);
  Ok (mk_IrEmit (emit_name e) (emit_kind e) value).

(** ** Lowering *)

(** The loop of [lower_call] over the arguments. *)
Fixpoint lower_arguments (args : list Field) (static_args : list (string * Value))
    (refs : list (string * string))
  : result PlanError (list (string * Value) * list (string * string)) :=
  match args with
  | [] => Ok (static_args, refs)
  | (key, FVVarRef v) :: args => lower_arguments args static_args (btree_insert key v refs)
  | (key, other) :: args =>
      j ← field_value_to_json other;
      lower_arguments args (index_insert key j static_args) refs
  end.

Definition lower_policy (p : option FailurePolicy) : IrFailurePolicy :=
  match p with
  | Some FPAbort => Abort
  | Some FPSkip => Skip
  | Some FPRetry => Retry
  | Some FPContinue | None => Continue
  end.

Definition lower_target (step : AnalyzedStep) : result PlanError IrTarget :=
  match target_kind (as_call step) with
  | TKAgent =>
      raw ← ok_or (target_node (as_call step)) (MissingAgentTarget (as_step_id step));
      id ← map_err (InvalidAgentTarget (as_step_id step) raw) (AgentId_parse raw);
      Ok (Agent id)
  | TKDevice =>
      node_id ← ok_or (target_node (as_call step)) (MissingDeviceTarget (as_step_id step));
      Ok (Device node_id)
  end.

Definition lower_call (step : AnalyzedStep) : result PlanError IrStep :=
  let call := as_call step in
  '(static_args, refs) ← lower_arguments (arguments call) [] [];
  target ← lower_target step;
  ability ← map_err (InvalidAbility (as_step_id step) (function_name call))
                    (AbilityName_parse (function_name call));
  Ok (IrStepCall (mk_IrCall (as_step_id step) (as_step_id step) ability target
        (VObject static_args) refs (as_binding step)
        (default 0 (timeout_seconds (options call))) (default 0 (max_retries (options call)))
        (lower_policy (on_failure (options call))) (optional (options call)) "application/json")).

Definition lower_item (it : AnalyzedItem) : result PlanError IrStep :=
  match it with
  | ACall s => lower_call s
  | ALoop l => Ok (IrStepLoop (mk_IrLoop (al_name l) (al_max_iters l) (al_body l) (al_verify l)
                                 (al_result_binding l)))
  end.

(** ** Cycles and phases *)

(** The map from exported bindings to item indices ([collect] into a
    [HashMap]: a later entry wins). *)
Definition binding_index (items : list AnalyzedItem) : gmap string nat :=
  foldl (λ m '(i, it), match item_binding it with Some b => <[b := i]> m | None => m end)
        ∅ (imap pair items).

Section planner.
Context `{HashOrder}.

(** [dfs]; the fuel bounds the recursion depth. *)
Fixpoint dfs (fuel : nat) (idx : nat) (items : list AnalyzedItem) (map : gmap string nat)
    (visited in_stack : list bool) : result PlanError (list bool * list bool) :=
  match fuel, items !! idx with
  | O, _ => Err PlanOutOfFuel
  | _, None => Err (PlanPanic "index out of bounds")
  | S fuel, Some item =>
      '(visited, in_stack) ←
        (fix go (deps : list string) (visited in_stack : list bool)
           : result PlanError (list bool * list bool) :=
           match deps with
           | [] => Ok (visited, in_stack)
           | dep :: deps =>
               match map !! dep with
               | None => go deps visited in_stack
               | Some di =>
                   v ← ok_or (visited !! di) (PlanPanic "index out of bounds");
                   if negb v then
                     '(visited, in_stack) ← dfs fuel di items map visited in_stack;
                     go deps visited in_stack
                   else
                     on_stack ← ok_or (in_stack !! di) (PlanPanic "index out of bounds");
                     if on_stack : bool then
                       Err (Cycle (match item with
                                   | ACall c => as_step_id c
                                   | ALoop l => default "<anonymous-loop>" (al_name l)
                                   end) dep)
                     else go deps visited in_stack
               end
           end) (hash_iter (outer_deps item)) (<[idx := true]> visited) (<[idx := true]> in_stack);
      Ok (visited, <[idx := false]> in_stack)
  end.

(** [detect_cycles]. *)
Definition detect_cycles (items : list AnalyzedItem) : result PlanError unit :=
  let n := length items in
  let id_to_idx := binding_index items in
  _ ← try_fold (λ '(visited, in_stack) i,
        v ← ok_or (visited !! i) (PlanPanic "index out of bounds");
        if negb v then dfs (S n) i items id_to_idx visited in_stack
        else Ok (visited, in_stack))
      (replicate n false, replicate n false) (seq 0 n);
  Ok tt.

(** The body of [assign_phases]' loop: the phase of an item, given the phases
    computed so far. *)
Definition phase_of_item (map : gmap string nat) (phase : list nat) (it : AnalyzedItem) : nat :=
  let '(has, mx) := foldl (λ '(has, mx) dep,
      match map !! dep with
      | Some di => (true, Nat.max mx (default 0%nat (phase !! di)))
      | None => (has, mx)
      end) (false, 0%nat) (hash_iter (outer_deps it)) in
  if has then S mx else 0%nat.

Definition assign_phases (items : list AnalyzedItem) : list nat :=
  let map := binding_index items in
  foldl (λ phase '(i, it), <[i := phase_of_item map phase it]> phase)
        (replicate (length items) 0%nat) (imap pair items).

(** ** Statements *)

(** The state of the statement walk: [symbols], [anon_counter], [items] and
    [emits]. *)
Record WalkState := mk_WalkState {
  ws_symbols : gmap string Z;
  ws_anon : Z;
  ws_items : list AnalyzedItem;
  ws_emits : list IrEmit;
}.

(** [symbols.insert(b, usize::MAX - i)] for the seed bindings. *)
Definition seed_symbols (seed : list string) : gmap string Z :=
  foldl (λ m '(i, b), <[b := u64_max - Z.of_nat i]> m) ∅ (imap pair seed).

(** One call statement of the walk. *)
Definition walk_call (binding : option string) (call : CallExpr) (st : WalkState)
  : result PlanError WalkState :=
  '(step, symbols, anon) ← analyze_call binding call (ws_symbols st) (ws_anon st)
                             (Z.of_nat (length (ws_items st)));
  Ok (mk_WalkState symbols anon (ws_items st ++ [ACall step]) (ws_emits st)).

(** The nested-loop check of [analyze_loop]. *)
Fixpoint first_loop (ss : list Statement) : option LoopBlock :=
  match ss with
  | [] => None
  | SLoop l :: _ => Some l
  | _ :: ss => first_loop ss
  end.

Definition last_is_call (items : list AnalyzedItem) : bool :=
  match last items with Some (ACall _) => true | _ => false end.

(** [analyze_loop], over the analysis of its sub-blocks ([analyze_statements]
    and [analyze_statements_with_seed] are [block] without and with seeds). *)
Definition analyze_loop
    (block : list Statement → Z → list string → result PlanError (AnalyzedMission * Z))
    (l : LoopBlock) (anon : Z) : result PlanError (AnalyzedLoop * Z) :=
  let '(mk_LoopBlock name max_iters body verify) := l in
  let label := default "<anonymous>" name in
  _ ← ensure (1 <=? max_iters) (MaxItersTooSmall label);
  _ ← ensure (max_iters <=? 32) (MaxItersTooLarge label);
  _ ← ensure (negb (bool_decide (length body = 0%nat))) (EmptyBody label);
  _ ← ensure (negb (bool_decide (length verify = 0%nat))) (EmptyVerify label);
  _ ← match first_loop (body ++ verify) with
      | Some inner => Err (NestedLoop label (loop_name inner))
      | None => Ok tt
      end;
  '(body_items, anon) ← block body anon [];
  let body_bindings := omap item_binding (am_items body_items) in
  '(verify_items, anon) ← block verify anon body_bindings;
  _ ← ensure (last_is_call (am_items verify_items)) (VerifyNotCall label);
  body_ir ← collect lower_item (am_items body_items);
  verify_ir ← collect lower_item (am_items verify_items);
  let result_binding := (λ n, n +:+ ".result") <$> name in
  Ok (mk_AnalyzedLoop name max_iters body_ir verify_ir result_binding, anon).

(** The [match] on a statement in [analyze_statements_inner]'s loop. *)
Definition walk_statement
    (block : list Statement → Z → list string → result PlanError (AnalyzedMission * Z))
    (allow_emit : bool) (st : WalkState) (s : Statement) : result PlanError WalkState :=
  match s with
  | SLetCall binding call => walk_call (Some binding) call st
  | SCall call => walk_call None call st
  | SLoop l =>
      '(analyzed, anon) ← analyze_loop block l (ws_anon st);
      symbols ← match al_result_binding analyzed with
        | Some b =>
            _ ← ensure (bool_decide (ws_symbols st !! b = None)) (DuplicateLoopBinding b);
            Ok (<[b := Z.of_nat (length (ws_items st))]> (ws_symbols st))
        | None => Ok (ws_symbols st)
        end;
      Ok (mk_WalkState symbols anon (ws_items st ++ [ALoop analyzed]) (ws_emits st))
  | SEmit e =>
      _ ← ensure allow_emit (EmitNotTopLevel (emit_name e));
      ir ← analyze_emit e (ws_symbols st);
      Ok (mk_WalkState (ws_symbols st) (ws_anon st) (ws_items st) (ws_emits st ++ [ir]))
  end.

(** [analyze_statements_inner]: the walk over a block's statements in its own
    scope, then the cycle check.  [depth] bounds the nesting of blocks. *)
Fixpoint analyze_statements_inner (depth : nat) (stmts : list Statement) (anon : Z)
    (seed : list string) (allow_emit : bool) : result PlanError (AnalyzedMission * Z) :=
  match depth with
  | O => Err PlanOutOfFuel
  | S depth =>
      st ← try_fold (walk_statement (λ ss a sd, analyze_statements_inner depth ss a sd false) allow_emit)
             (mk_WalkState (seed_symbols seed) anon [] []) stmts;
      _ ← detect_cycles (ws_items st);
      Ok (mk_AnalyzedMission (ws_items st) (ws_emits st), ws_anon st)
  end.

(** Blocks nest at most once: a loop in a loop is rejected before its blocks
    are analyzed. *)
Definition block_depth : nat := 2.

Definition analyze_mission (p : EalProgram) : result PlanError AnalyzedMission :=
  fst <$> analyze_statements_inner block_depth (statements (mission p)) 0 [] true.

(** ** Compilation *)

(** The schedule: the order of the items, their phases, the number of phases. *)
Definition schedule (items : list AnalyzedItem) : list nat * list nat * nat :=
  let n := length items in
  if existsb is_loop_item items then (seq 0 n, seq 0 n, n)
  else
    let phase_of := assign_phases items in
    let num_phases := match phase_of with [] => 0%nat | _ => S (list_max phase_of) end in
    (sort_by_key (λ i, default 0%nat (phase_of !! i)) (seq 0 n), phase_of, num_phases).

(** The state of the lowering loop of [compile]. *)
Record LowerState := mk_LowerState {
  ls_steps : list IrStep;
  ls_phases : list PhaseRange;
  ls_cur : nat;
  ls_start : nat;
  ls_slots : list (option AnalyzedItem);
}.

(** [while cur_phase < phase]: [k] phases end at [out_idx]. *)
Fixpoint close_phases (k : nat) (out_idx : nat) (st : LowerState) : LowerState :=
  match k with
  | O => st
  | S k => close_phases k out_idx
             (mk_LowerState (ls_steps st) (ls_phases st ++ [mk_PhaseRange (ls_start st) out_idx])
                (S (ls_cur st)) out_idx (ls_slots st))
  end.

(** One iteration of the lowering loop. *)
Definition lower_step (phase_of : list nat) (out_idx orig_idx : nat) (st : LowerState)
  : result PlanError LowerState :=
  phase ← ok_or (phase_of !! orig_idx) (PlanPanic "index out of bounds");
  let st := close_phases (phase - ls_cur st) out_idx st in
  item ← ok_or (ls_slots st !! orig_idx ≫= id)
               (PlanPanic "each AnalyzedItem index visited exactly once");
  step ← lower_item item;
  Ok (mk_LowerState (ls_steps st ++ [step]) (ls_phases st) (ls_cur st) (ls_start st)
        (<[orig_idx := None]> (ls_slots st))).

Fixpoint lower_loop (phase_of : list nat) (out_idx : nat) (ordered : list nat) (st : LowerState)
  : result PlanError LowerState :=
  match ordered with
  | [] => Ok st
  | i :: ordered => st ← lower_step phase_of out_idx i st; lower_loop phase_of (S out_idx) ordered st
  end.

(** [iter().map(static_call_bound).sum::<u64>()]. *)
Definition total_bound (steps : list IrStep) : Z :=
  foldl (λ acc s, u64_wrap (acc + static_call_bound s)) 0 steps.

Definition compile (p : EalProgram) : result PlanError MissionIr :=
  analyzed ← analyze_mission p;
  let items := am_items analyzed in
  let '(ordered, phase_of, num_phases) := schedule items in
  st ← lower_loop phase_of 0 ordered (mk_LowerState [] [] 0 0 (Some <$> items));
  let e := length (ls_steps st) in
  let phases := if bool_decide (e = 0%nat) then ls_phases st
                else ls_phases st ++ [mk_PhaseRange (ls_start st) e] in
  let phases := phases ++ replicate (num_phases - length phases) (mk_PhaseRange e e) in
  let total := total_bound (ls_steps st) in
  _ ← ensure (total <=? default_max_calls)
        (TooManyCalls (mission_name (mission p)) total default_max_calls);
  Ok (mk_MissionIr (mission_name (mission p)) (ls_steps st) phases (am_emits analyzed)
        default_constraints).
End planner.

(** One admissible iteration order. *)
Definition elements_order : HashOrder := {|
  hash_iter s := elements s;
  hash_iter_perm s := Permutation_refl (elements s);
|}.
