(* ===== verification/PlannerProps.v ===== *)
(** * What the compile pass guarantees

    The dependency graph of a block's items, the cycle check on it, the phase
    assignment, and the layout of sorted phases as contiguous ranges; the invariant
    of the statement walk, the well-formedness of the IR it lowers to, and the
    properties of [compile]. *)

From Stdlib Require Import String Sorting.Sorted.
From S2P Require Import Prelude RustStd AgentId Json Ast Ir Planner Lexer.

Open Scope nat_scope.

(** ** The binding index *)

Lemma imap_pair_snoc {A} (l : list A) x : imap pair (l ++ [x]) = imap pair l ++ [(length l, x)].
Proof. rewrite imap_app. cbn. by rewrite Nat.add_0_r. Qed.

Lemma binding_index_snoc items it :
  binding_index (items ++ [it]) =
  match item_binding it with
  | Some b => <[b := length items]> (binding_index items)
  | None => binding_index items
  end.
Proof. unfold binding_index. rewrite imap_pair_snoc, foldl_app. done. Qed.

Lemma binding_index_Some items b i : binding_index items !! b = Some i →
  ∃ it, items !! i = Some it ∧ item_binding it = Some b.
Proof.
  induction items as [|it items IH] using rev_ind; [done|]. rewrite binding_index_snoc.
  assert (binding_index items !! b = Some i → ∃ it', (items ++ [it]) !! i = Some it' ∧
    item_binding it' = Some b) as IH'.
  { intros (it' & Hi & Hb)%IH. exists it'. split; [|done]. by apply lookup_app_l_Some. }
  destruct (item_binding it) as [b'|] eqn:Eb; [|done].
  intros [[-> <-]|[_ ?]]%lookup_insert_Some; [|by apply IH'].
  exists it. split; [by apply list_lookup_middle|done].
Qed.

Lemma binding_index_is_Some items i it b : items !! i = Some it → item_binding it = Some b →
  is_Some (binding_index items !! b).
Proof.
  revert i. induction items as [|it' items IH] using rev_ind; [done|].
  intros i Hi Hb. rewrite binding_index_snoc.
  assert (is_Some (binding_index items !! b) ∨ it' = it) as [H| ->].
  { apply lookup_app_Some in Hi as [Hi|[_ Hi]]; [left; by eapply IH|right].
    by apply list_lookup_singleton_Some in Hi as [_ ?]. }
  - destruct (item_binding it'); [|done]. rewrite lookup_insert_is_Some. destruct (decide (s = b)); auto.
  - rewrite Hb, lookup_insert_is_Some. auto.
Qed.

Lemma binding_index_bound items b i : binding_index items !! b = Some i → i < length items.
Proof. intros (it & Hi & _)%binding_index_Some. by apply lookup_lt_Some in Hi. Qed.

(** Every resolved dependency of an item points to an earlier item. *)
Definition backward (items : list AnalyzedItem) : Prop := ∀ i it d j,
  items !! i = Some it → d ∈ outer_deps it → binding_index items !! d = Some j → j < i.

Section with_order.
Context `{HashOrder}.

Lemma elem_of_hash_iter d s : d ∈ hash_iter s ↔ d ∈ s.
Proof. by rewrite hash_iter_perm, elem_of_elements. Qed.

(** ** The cycle check *)

(** On backward dependencies a search from [idx] ends, finds no cycle and
    leaves the stack marks as it found them. *)
Lemma dfs_Ok items fuel idx visited in_stack :
  backward items → idx < length items → idx < fuel →
  length visited = length items → (∀ j, j ≤ idx → in_stack !! j = Some false) →
  ∃ visited', dfs fuel idx items (binding_index items) visited in_stack = Ok (visited', in_stack) ∧
    length visited' = length items.
Proof.
  intros Hback. revert idx visited in_stack.
  induction fuel as [|fuel IH]; intros idx visited in_stack Hidx Hfuel Hv Hs; [lia|].
  destruct (lookup_lt_is_Some_2 items idx Hidx) as [item Hitem]. cbn [dfs]. rewrite Hitem.
  set (st1 := <[idx := true]> in_stack).
  assert (Hst : <[idx := false]> st1 = in_stack).
  { unfold st1. rewrite list_insert_insert_eq. apply list_insert_id. by apply Hs. }
  assert (Hdeps : ∀ d j, d ∈ hash_iter (outer_deps item) →
    binding_index items !! d = Some j → j < idx).
  { intros d j Hd%elem_of_hash_iter Hj. by eapply Hback. }
  assert (Hlow : ∀ j, j < idx → st1 !! j = Some false).
  { intros j Hj. unfold st1. rewrite list_lookup_insert_ne by lia. apply Hs. lia. }
  assert (Hv1 : length (<[idx := true]> visited) = length items) by (by rewrite length_insert).
  revert Hv1 Hdeps. generalize (<[idx := true]> visited) as vis.
  induction (hash_iter (outer_deps item)) as [|d deps IHd]; intros vis Hv1 Hdeps.
  { exists vis. cbn [mbind result_bind]. by rewrite Hst. }
  assert (Hdeps' : ∀ d j, d ∈ deps → binding_index items !! d = Some j → j < idx).
  { intros ? ? ?. apply Hdeps. by right. }
  destruct (binding_index items !! d) as [di|] eqn:Ed; [|by apply IHd].
  assert (Hdi : di < idx) by (eapply Hdeps; [left|done]).
  destruct (lookup_lt_is_Some_2 vis di ltac:(lia)) as [v Hvd]. rewrite Hvd.
  destruct v; cbn [ok_or mbind result_bind negb].
  - rewrite (Hlow di Hdi). cbn [ok_or mbind result_bind]. by apply IHd.
  - destruct (IH di vis st1) as (vis' & -> & Hvis'); [lia..|done| |].
    + intros j Hj. apply Hlow. lia.
    + cbn [mbind result_bind]. by apply IHd.
Qed.

Lemma detect_cycles_Ok items : backward items → detect_cycles items = Ok tt.
Proof.
  intros Hback. unfold detect_cycles.
  set (n := length items).
  destruct (try_fold_Ok (λ vs : list bool * list bool, length vs.1 = n ∧ vs.2 = replicate n false)
    (λ '(visited, in_stack) i,
        v ← ok_or (visited !! i) (PlanPanic "index out of bounds");
        if negb v then dfs (S n) i items (binding_index items) visited in_stack
        else Ok (visited, in_stack)) (seq 0 n) (replicate n false, replicate n false))
    as (st & -> & _); [|by split; [apply length_replicate|]|done].
  intros [visited in_stack] i Hi%elem_of_seq [Hv Hs]. cbn in Hv, Hs. subst in_stack.
  destruct (lookup_lt_is_Some_2 visited i ltac:(lia)) as [v ->]. cbn [ok_or mbind result_bind].
  destruct v; cbn [negb]; [by eauto|].
  destruct (dfs_Ok items (S n) i visited (replicate n false)) as (vis & -> & Hvis); try done.
  - unfold n in *. lia.
  - lia.
  - intros j Hj. apply lookup_replicate_2. lia.
  - by eauto.
Qed.

(** ** Phase assignment *)

(** [phase_of_item] is one more than the largest phase of a resolved
    dependency, and zero without one. *)
Lemma phase_of_item_spec map phase it :
  (∀ d j, d ∈ outer_deps it → map !! d = Some j →
     default 0 (phase !! j) < phase_of_item map phase it) ∧
  (∀ k, phase_of_item map phase it = S k →
     ∃ d j, d ∈ outer_deps it ∧ map !! d = Some j ∧ default 0 (phase !! j) = k).
Proof.
  unfold phase_of_item.
  assert (Hset : ∀ d, d ∈ outer_deps it ↔ d ∈ hash_iter (outer_deps it))
    by (intros; symmetry; apply elem_of_hash_iter).
  setoid_rewrite Hset. generalize (hash_iter (outer_deps it)) as deps. intros deps.
  set (f := λ '(has, mx) dep, match map !! dep with
      | Some di => (true, Nat.max mx (default 0 (phase !! di)))
      | None => (has, mx) end).
  assert (Hgen : ∀ has mx, let '(has', mx') := foldl f (has, mx) deps in
    mx ≤ mx' ∧ (has = true → has' = true) ∧
    (∀ d j, d ∈ deps → map !! d = Some j → has' = true ∧ default 0 (phase !! j) ≤ mx') ∧
    (has' = true → (has = true ∧ mx' = mx) ∨
       ∃ d j, d ∈ deps ∧ map !! d = Some j ∧ default 0 (phase !! j) = mx' ∨
              (has = false ∧ mx' = mx ∧ d ∈ deps ∧ map !! d = Some j))).
  2:{ specialize (Hgen false 0). destruct (foldl f (false, 0) deps) as [has mx].
      destruct Hgen as (_ & _ & H1 & H2). split.
      - intros d j Hd Hj. destruct (H1 d j Hd Hj) as [-> ?]. lia.
      - intros k. destruct has; [|done]. intros [= <-].
        destruct (H2 eq_refl) as [[? _]|(d & j & [?|(_ & -> & Hd & Hj)])]; [done|by eauto|].
        exists d, j. destruct (H1 d j Hd Hj) as [_ ?]. split_and!; auto. lia. }
  induction deps as [|d deps IH]; intros has mx; cbn [foldl].
  { split_and!; auto. by intros ? ? ?%elem_of_nil. }
  change (f (has, mx) d) with (match map !! d with
      | Some di => (true, Nat.max mx (default 0 (phase !! di))) | None => (has, mx) end).
  destruct (map !! d) as [di|] eqn:Ed.
  - specialize (IH true (Nat.max mx (default 0 (phase !! di)))).
    destruct (foldl f _ deps) as [has' mx']. destruct IH as (H1 & H2 & H3 & H4).
    split_and!; [lia|auto| |].
    + intros d' j' [->|Hd]%elem_of_cons Hj; [|by eapply H3]. simplify_eq. split; [auto|lia].
    + intros Hh. destruct (H4 Hh) as [[_ ->]|(d' & j' & [(? & ? & ?)|(? & _)])]; [|right..]; [|set_solver|done].
      destruct (Nat.max_spec mx (default 0 (phase !! di))) as [[_ E]|[_ E]]; rewrite E.
      * right. exists d, di. left. split_and!; [left|done|done].
      * destruct has; [by left|right]. exists d, di. right. split_and!; try done. left.
  - specialize (IH has mx). destruct (foldl f _ deps) as [has' mx'].
    destruct IH as (H1 & H2 & H3 & H4). split_and!; auto.
    + intros d' j' [->|Hd]%elem_of_cons Hj; [congruence|by eapply H3].
    + intros Hh. destruct (H4 Hh) as [?|(d' & j' & Hd)]; [by left|right]. exists d', j'. set_solver.
Qed.

Lemma phase_of_item_ext map phase phase' it :
  (∀ d j, d ∈ outer_deps it → map !! d = Some j → phase !! j = phase' !! j) →
  phase_of_item map phase it = phase_of_item map phase' it.
Proof.
  intros Hext. unfold phase_of_item.
  assert (Hext' : ∀ d j, d ∈ hash_iter (outer_deps it) → map !! d = Some j → phase !! j = phase' !! j).
  { intros d j Hd. apply Hext. by apply elem_of_hash_iter. }
  revert Hext'. generalize (hash_iter (outer_deps it)). clear Hext. intros deps Hext.
  enough (∀ p, foldl (λ '(has, mx) dep, match map !! dep with
      | Some di => (true, Nat.max mx (default 0 (phase !! di))) | None => (has, mx) end) p deps =
    foldl (λ '(has, mx) dep, match map !! dep with
      | Some di => (true, Nat.max mx (default 0 (phase' !! di))) | None => (has, mx) end) p deps) as E
    by by rewrite E.
  induction deps as [|d deps IH]; intros [has mx]; [done|]. cbn [foldl].
  destruct (map !! d) as [di|] eqn:Ed.
  - rewrite (Hext d di) by (by left || done). apply IH. intros ? ? ?. apply Hext. by right.
  - apply IH. intros ? ? ?. apply Hext. by right.
Qed.

(** The phases are a fixed point of [phase_of_item]. *)
Lemma assign_phases_spec items : backward items →
  length (assign_phases items) = length items ∧
  ∀ i it, items !! i = Some it →
    assign_phases items !! i = Some (phase_of_item (binding_index items) (assign_phases items) it).
Proof.
  intros Hback. unfold assign_phases. set (map := binding_index items).
  assert (Hgen : ∀ pre post, items = pre ++ post →
    let ph := foldl (λ phase '(i, it), <[i := phase_of_item map phase it]> phase)
                (replicate (length items) 0) (imap pair pre) in
    length ph = length items ∧
    ∀ i it, pre !! i = Some it → ph !! i = Some (phase_of_item map ph it)).
  2:{ destruct (Hgen items [] (eq_sym (app_nil_r _))) as [H1 H2]. auto. }
  induction pre as [|it pre IH] using rev_ind; intros post ->.
  { cbn. split; [apply length_replicate|done]. }
  rewrite imap_pair_snoc, foldl_app. cbn [foldl].
  destruct (IH (it :: post)) as [Hlen Hph]; [by rewrite <- app_assoc|].
  set (ph := foldl _ _ (imap pair pre)) in *.
  assert (Hn : length pre < length ph) by (rewrite Hlen, !length_app; cbn; lia).
  assert (Hext : ∀ i it', (pre ++ [it]) !! i = Some it' → i ≤ length pre →
    phase_of_item map ph it' =
    phase_of_item map (<[length pre := phase_of_item map ph it]> ph) it').
  { intros i it' Hi Hle. apply phase_of_item_ext. intros d j Hd Hj.
    rewrite list_lookup_insert_ne; [done|].
    pose proof (Hback i it' d j ltac:(by apply lookup_app_l_Some) Hd Hj). lia. }
  cbn zeta. split; [by rewrite length_insert|]. intros i it' Hi.
  rewrite <- (Hext i it' Hi) by (apply lookup_lt_Some in Hi; rewrite length_app in Hi; cbn in Hi; lia).
  apply lookup_app_Some in Hi as [Hi|[Hle Hi]].
  - rewrite list_lookup_insert_ne by (apply lookup_lt_Some in Hi; lia). by apply Hph.
  - apply list_lookup_singleton_Some in Hi as [E <-].
    replace i with (length pre) by lia. by rewrite list_lookup_insert_eq.
Qed.
End with_order.

(** ** The layout of phases *)

Section layout.
Context (key : nat → nat).

(** How many of the scheduled items lie in phases before [k]. *)
Definition before (k : nat) (l : list nat) : nat := length (filter (λ i, key i < k) l).

Abbreviation sorted := (StronglySorted (λ i j, key i ≤ key j)).

Lemma before_app k l l' : before k (l ++ l') = before k l + before k l'.
Proof. unfold before. by rewrite filter_app, length_app. Qed.

Lemma before_all k l : (∀ i, i ∈ l → key i < k) → before k l = length l.
Proof.
  unfold before. induction l as [|i l IH]; intros Hl; [done|].
  rewrite filter_cons_True by (apply Hl; left). cbn. rewrite IH; [done|]. intros. apply Hl. by right.
Qed.

Lemma before_none k l : (∀ i, i ∈ l → k ≤ key i) → before k l = 0.
Proof.
  unfold before. induction l as [|i l IH]; intros Hl; [done|].
  rewrite filter_cons_False by (specialize (Hl i (list_elem_of_here _ _)); lia).
  apply IH. intros. apply Hl. by right.
Qed.

Lemma before_mono k k' l : k ≤ k' → before k l ≤ before k' l.
Proof.
  intros Hk. unfold before. induction l as [|i l IH]; [done|]. rewrite !filter_cons.
  repeat case_decide; cbn; lia.
Qed.

Lemma before_0 l : before 0 l = 0.
Proof. apply before_none. lia. Qed.

Lemma sorted_app l l' : sorted (l ++ l') → ∀ i j, i ∈ l → j ∈ l' → key i ≤ key j.
Proof.
  induction l as [|x l IH]; intros Hs i j Hi Hj; [by apply elem_of_nil in Hi|].
  inversion Hs as [|?? Hs' Hx]; subst. apply elem_of_cons in Hi as [->|Hi]; [|by eapply IH].
  rewrite Forall_forall in Hx. apply Hx, elem_of_app. by right.
Qed.

(** In a sorted schedule the items of phases before [k] come first. *)
Lemma sorted_before l p i k : sorted l → l !! p = Some i → p < before k l ↔ key i < k.
Proof.
  intros Hs Hp. apply list_elem_of_split_length in Hp as (l1 & l2 & -> & ->).
  assert (H2 : ∀ j, j ∈ i :: l2 → key i ≤ key j).
  { intros j [->|Hj]%elem_of_cons; [done|].
    eapply (sorted_app (l1 ++ [i]) l2); [by rewrite <- app_assoc|set_solver|done]. }
  assert (H1 : ∀ j, j ∈ l1 → key j ≤ key i).
  { intros j Hj. eapply sorted_app; [exact Hs|done|left]. }
  rewrite before_app. destruct (decide (key i < k)) as [Hk|Hk].
  - rewrite (before_all k l1) by (intros j Hj%H1; lia).
    unfold before. rewrite filter_cons, decide_True by done. cbn. lia.
  - rewrite (before_none k (i :: l2)) by (intros j Hj%H2; lia).
    assert (before k l1 ≤ length l1) by apply length_filter. lia.
Qed.

Definition phase_range (l : list nat) (k : nat) : PhaseRange :=
  mk_PhaseRange (before k l) (before (S k) l).

(** ** The lowering loop *)

(** What holds of the loop's state when the items [pre] are lowered. *)
Record lowered (items : list AnalyzedItem) (pre : list nat) (st : LowerState) : Prop := {
  lw_slots i it : i ∉ pre → items !! i = Some it → ls_slots st !! i = Some (Some it);
  lw_steps : Forall2 (λ i s, ∃ it, items !! i = Some it ∧ lower_item it = Ok s) pre (ls_steps st);
  lw_phases : ls_phases st = phase_range pre <$> seq 0 (ls_cur st);
  lw_start : ls_start st = before (ls_cur st) pre;
  lw_cur : ls_cur st = list_max (key <$> pre);
}.

Lemma close_phases_spec k out st :
  close_phases (S k) out st =
  mk_LowerState (ls_steps st)
    (ls_phases st ++ mk_PhaseRange (ls_start st) out :: replicate k (mk_PhaseRange out out))
    (S k + ls_cur st) out (ls_slots st).
Proof.
  revert st. induction k as [|k IH]; intros st; [done|].
  change (close_phases (S (S k)) out st) with (close_phases (S k) out
    (mk_LowerState (ls_steps st) (ls_phases st ++ [mk_PhaseRange (ls_start st) out])
                (S (ls_cur st)) out (ls_slots st))).
  rewrite IH. cbn [ls_steps ls_phases ls_cur ls_start ls_slots]. f_equal; [|lia].
  by rewrite <- app_assoc.
Qed.

Lemma list_max_le_elem l i : i ∈ l → key i ≤ list_max (key <$> l).
Proof.
  intros Hi. assert (Forall (λ k, k ≤ list_max (key <$> l)) (key <$> l)) as HF by by apply list_max_le.
  rewrite Forall_fmap, Forall_forall in HF. by apply HF.
Qed.

(** Closing phases up to the next item's phase. *)
Lemma close_phases_lowered items pre st k : lowered items pre st → ls_cur st ≤ k →
  let st' := close_phases (k - ls_cur st) (length pre) st in
  ls_slots st' = ls_slots st ∧ ls_steps st' = ls_steps st ∧ ls_cur st' = k ∧
  ls_phases st' = phase_range pre <$> seq 0 k ∧ ls_start st' = before k pre.
Proof.
  intros [_ _ Hph Hstart Hcur] Hk. destruct (k - ls_cur st) as [|d] eqn:Ed.
  { cbn. assert (ls_cur st = k) as <- by lia. done. }
  cbn zeta. rewrite close_phases_spec. cbn [ls_steps ls_phases ls_cur ls_start ls_slots].
  assert (Hall : ∀ k', ls_cur st < k' → before k' pre = length pre).
  { intros k' Hk'. apply before_all. intros i Hi%list_max_le_elem. lia. }
  split_and!; try done; [lia| |by rewrite Hall by lia].
  replace k with (ls_cur st + S d) by lia. rewrite seq_app, fmap_app, Hph. f_equal. cbn. f_equal.
  - unfold phase_range. by rewrite Hstart, (Hall (S (ls_cur st))) by lia.
  - clear Ed. assert (Hgen : ∀ a, ls_cur st < a →
      replicate d (mk_PhaseRange (length pre) (length pre)) = phase_range pre <$> seq a d).
    { induction d as [|d IH]; intros a Ha; [done|]. cbn. rewrite (IH (S a)) by lia. f_equal.
      unfold phase_range. by rewrite !Hall by lia. }
    apply Hgen. lia.
Qed.

Lemma before_snoc_same pre i k : k ≤ key i → before k (pre ++ [i]) = before k pre.
Proof.
  intros Hk. rewrite before_app, (before_none k [i]); [lia|].
  by intros j ->%list_elem_of_singleton.
Qed.

Context (items : list AnalyzedItem) (phase_of : list nat).
Hypothesis Hkey : ∀ i, i < length items → phase_of !! i = Some (key i).

Lemma lower_step_lowered pre i st : lowered items pre st → i ∉ pre → i < length items →
  (∀ j, j ∈ pre → key j ≤ key i) →
  match lower_step phase_of (length pre) i st with
  | Ok st' => lowered items (pre ++ [i]) st'
  | Err e => ∃ it, items !! i = Some it ∧ lower_item it = Err e
  end.
Proof using Hkey.
  intros Hlow Hi Hn Hge. unfold lower_step. rewrite Hkey by done. cbn [ok_or mbind result_bind].
  destruct (lookup_lt_is_Some_2 items i Hn) as [it Hit].
  assert (Hle : ls_cur st ≤ key i).
  { rewrite (lw_cur _ _ _ Hlow). apply list_max_le, Forall_fmap, Forall_forall. by apply Hge. }
  pose proof (close_phases_lowered _ _ _ _ Hlow Hle) as (Hsl & Hst & Hcu & Hph & Hstart).
  set (st1 := close_phases _ _ st) in *.
  rewrite Hsl, (lw_slots _ _ _ Hlow i it Hi Hit). cbn [mbind option_bind ok_or result_bind id].
  destruct (lower_item it) as [s|e] eqn:El; cbn [mbind result_bind]; [|by eauto].
  constructor; cbn [ls_steps ls_phases ls_cur ls_start ls_slots].
  - intros j it' Hj Hit'. apply not_elem_of_app in Hj as [Hj Hji].
    rewrite list_lookup_insert_ne by set_solver. by apply (lw_slots _ _ _ Hlow).
  - rewrite Hst. apply Forall2_app; [apply (lw_steps _ _ _ Hlow)|]. constructor; [by eauto|constructor].
  - rewrite Hph, Hcu. apply list_fmap_ext. intros j k [-> Hk]%lookup_seq. unfold phase_range.
    cbn in Hk. by rewrite !before_snoc_same by lia.
  - by rewrite Hstart, Hcu, before_snoc_same by lia.
  - rewrite Hcu, fmap_app, list_max_app. cbn. rewrite <- (lw_cur _ _ _ Hlow). lia.
Qed.

Lemma lower_loop_lowered ordered : ∀ pre st, lowered items pre st → NoDup (pre ++ ordered) →
  (∀ i, i ∈ ordered → i < length items) → sorted (pre ++ ordered) →
  match lower_loop phase_of (length pre) ordered st with
  | Ok st' => lowered items (pre ++ ordered) st'
  | Err e => ∃ i it, items !! i = Some it ∧ lower_item it = Err e
  end.
Proof using Hkey.
  induction ordered as [|i ordered IH]; intros pre st Hlow Hnd Hlt Hs; cbn [lower_loop].
  { by rewrite app_nil_r. }
  assert (Hnotin : i ∉ pre).
  { apply NoDup_app in Hnd as (_ & Hnd & _). intros Hi. apply (Hnd i Hi). left. }
  assert (Hge : ∀ j, j ∈ pre → key j ≤ key i).
  { intros j Hj. eapply sorted_app; [exact Hs|done|left]. }
  assert (Hstep := lower_step_lowered pre i st Hlow Hnotin (Hlt i (list_elem_of_here _ _)) Hge).
  destruct (lower_step phase_of (length pre) i st) as [st1|e]; cbn [mbind result_bind].
  - rewrite cons_middle, app_assoc.
    replace (S (length pre)) with (length (pre ++ [i])) by (rewrite length_app; cbn; lia).
    apply IH; [done|by rewrite <- app_assoc|intros; apply Hlt; by right|by rewrite <- app_assoc].
  - destruct Hstep as (it & ? & ?). by eauto.
Qed.

End layout.

(** ** The compile pass *)

(** ** Well-formed IR *)

(** A call that asks for retries has some, and an optional call does not abort
    the mission. *)
Definition call_wf (c : IrCall) : Prop :=
  (call_on_failure c = Retry → (0 < call_max_retries c)%Z) ∧
  ¬ (call_optional c = true ∧ call_on_failure c = Abort).

(** Every binding a step reads is given or exported by an earlier step. *)
Definition steps_scoped (avail : list string) (steps : list IrStep) : Prop := ∀ i s b,
  steps !! i = Some s → b ∈ step_inputs s → b ∈ avail ++ omap step_output (take i steps).

(** A flat list of calls in a scope of its own. *)
Definition block_wf (avail : list string) (steps : list IrStep) : Prop :=
  Forall (λ s, ∃ c, s = IrStepCall c ∧ call_wf c) steps ∧
  steps_scoped avail steps ∧ NoDup (avail ++ omap step_output steps).

(** A step: calls as above; loops run 1 to 32 times, their non-empty blocks
    hold calls only, the verify block sees the body's bindings and nothing
    else from outside. *)
Definition step_wf (s : IrStep) : Prop :=
  match s with
  | IrStepCall c => call_wf c
  | IrStepLoop l =>
      (1 ≤ ir_max_iters l ≤ 32)%Z ∧ ir_body l ≠ [] ∧ ir_verify l ≠ [] ∧
      block_wf [] (ir_body l) ∧ block_wf (omap step_output (ir_body l)) (ir_verify l) ∧
      result_binding l = (λ n, n +:+ ".result") <$> ir_loop_name l
  end.

(** The sum of the static call bounds, as a mathematical integer. *)
Definition call_bound (steps : list IrStep) : Z :=
  foldr (λ s acc, static_call_bound s + acc)%Z 0%Z steps.

(** ** Calls and their lowering *)

Definition scope_of (items : list AnalyzedItem) : list string := omap item_binding items.

(** Properties of an analyzed item on its own. *)
Definition item_ok (it : AnalyzedItem) : Prop :=
  match it with
  | ACall s =>
      (∀ v, v ∈ as_deps s ↔ ∃ k, (k, FVVarRef v) ∈ arguments (as_call s)) ∧
      (on_failure (options (as_call s)) = Some FPRetry →
         (0 < default 0 (max_retries (options (as_call s))))%Z) ∧
      ¬ (optional (options (as_call s)) = true ∧ on_failure (options (as_call s)) = Some FPAbort)
  | ALoop l => step_wf (IrStepLoop (mk_IrLoop (al_name l) (al_max_iters l) (al_body l)
                                      (al_verify l) (al_result_binding l)))
  end.

Lemma var_ref_cases fv : (∃ v, fv = FVVarRef v) ∨ (∀ v, fv ≠ FVVarRef v).
Proof. destruct fv; eauto. Qed.

Lemma collect_deps_Ok symbols id args : ∀ deps deps', collect_deps symbols id args deps = Ok deps' →
  (∀ v, v ∈ deps' ↔ v ∈ deps ∨ ∃ k, (k, FVVarRef v) ∈ args) ∧
  (∀ k v, (k, FVVarRef v) ∈ args → is_Some (symbols !! v)).
Proof.
  induction args as [|[k fv] args IH]; intros deps deps' Hc.
  { cbn in Hc. inv_ok. split; [|set_solver]. intros v. split; [by left|]. intros [?|[? ?]]; set_solver. }
  destruct (var_ref_cases fv) as [[v ->]|Hv].
  - cbn [collect_deps] in Hc. inv_ok. apply bool_decide_eq_true in E.
    destruct (IH _ _ Hc) as [H1 H2]. split.
    + intros w. rewrite H1. set_solver.
    + intros k' w [[= -> ->]|Hw]%elem_of_cons; [done|by eapply H2].
  - destruct (IH deps deps') as [H1 H2].
    { destruct fv; cbn in Hc; try done. by destruct (Hv var_name). }
    split; [intros w; rewrite H1; set_solver|].
    intros k' w [[= -> <-]|Hw]%elem_of_cons; [by destruct (Hv w)|by eapply H2].
Qed.

Lemma analyze_call_Ok binding call symbols anon idx step symbols' anon' :
  analyze_call binding call symbols anon idx = Ok (step, symbols', anon') →
  as_binding step = binding ∧ as_call step = call ∧ item_ok (ACall step) ∧
  (∀ v, v ∈ as_deps step → is_Some (symbols !! v)) ∧
  match binding with
  | Some b => symbols !! b = None ∧ symbols' = <[b := idx]> symbols
  | None => symbols' = symbols
  end.
Proof.
  unfold analyze_call. intros Hc.
  destruct binding as [b|]; inv_ok; simplify_eq; inv_ok; cbn [as_binding as_call as_deps] in *;
    match goal with Hd : collect_deps _ _ _ _ = Ok _ |- _ => apply collect_deps_Ok in Hd as [Hd1 Hd2] end.
  all: match goal with Ho : negb _ = true |- _ => rename Ho into Hopt end.
  all: split_and!; try done; try (by apply bool_decide_eq_true in E).
  all: try (intros v Hv; apply Hd1 in Hv as [Hv|[k Hv]]; [set_solver|by eapply Hd2]).
  all: cbn [item_ok as_call as_deps]; split_and?.
  all: try (intros v; rewrite Hd1; set_solver).
  all: try (intros [Ho1 Ho2]; rewrite Ho1, Ho2 in Hopt; done).
  all: intros Hr; rewrite Hr in *; inv_ok; by apply Z.ltb_lt.
Qed.

Lemma lower_arguments_Ok args : ∀ sa refs sa' refs',
  lower_arguments args sa refs = Ok (sa', refs') →
  ∀ k v, (k, v) ∈ refs' → (k, v) ∈ refs ∨ (k, FVVarRef v) ∈ args.
Proof.
  induction args as [|[k0 fv] args IH]; intros sa refs sa' refs' Hl k v Hkv.
  { cbn in Hl. inv_ok. by left. }
  assert (Hother : (∀ v, fv ≠ FVVarRef v) → (k, v) ∈ refs ∨ (k, FVVarRef v) ∈ (k0, fv) :: args).
  { intros Hv. destruct fv; cbn [lower_arguments] in Hl; inv_ok; try (by destruct (Hv var_name));
      destruct (IH _ _ _ _ Hl _ _ Hkv); auto; right; by right. }
  destruct fv; try (by apply Hother).
  cbn [lower_arguments] in Hl. destruct (IH _ _ _ _ Hl _ _ Hkv) as [Hin|]; [|right; by right].
  apply elem_of_btree_insert in Hin as [[= -> ->]|]; [right; left|by left].
Qed.

Lemma lower_item_Ok it s : item_ok it → lower_item it = Ok s →
  step_output s = item_binding it ∧ (∀ b, b ∈ step_inputs s → b ∈ outer_deps it) ∧ step_wf s ∧
  is_call s = negb (is_loop_item it).
Proof.
  destruct it as [st|l]; cbn [lower_item item_ok].
  - intros (Hdeps & Hretry & Hopt) Hl. unfold lower_call in Hl. inv_pairs.
    cbn [step_output output_binding item_binding step_inputs
      input_refs outer_deps step_wf is_call is_loop_item negb]. split_and!; try done.
    + intros b ([k v] & -> & Hkv)%list_elem_of_fmap. apply Hdeps. exists k.
      eapply lower_arguments_Ok in Hkv; [|done]. by destruct Hkv as [?%elem_of_nil|].
    + split; cbn.
      * intros Hr. apply Hretry. by destruct (on_failure _) as [[]|].
      * intros [Ho Hr]. apply Hopt. split; [done|]. by destruct (on_failure _) as [[]|].
  - intros Hl [= <-]. split_and!; try done. cbn. set_solver.
Qed.

(** ** The statement walk *)

(** The items of a block: each is well formed, reads only what is in scope,
    and no binding is exported twice or shadows a seed. *)
Record items_ok (seed : list string) (items : list AnalyzedItem) : Prop := {
  io_items : Forall item_ok items;
  io_deps i it d : items !! i = Some it → d ∈ outer_deps it → d ∈ seed ++ scope_of (take i items);
  io_fresh b : b ∈ seed → b ∉ scope_of items;
  io_nodup : NoDup (scope_of items);
}.

Definition emit_ok (avail : list string) (e : IrEmit) : Prop :=
  match ir_emit_value e with Binding b => b ∈ avail | Literal _ => True end.

Record walk_ok (seed : list string) (st : WalkState) : Prop := {
  wo_items : items_ok seed (ws_items st);
  wo_symbols b : is_Some (ws_symbols st !! b) ↔ b ∈ seed ++ scope_of (ws_items st);
  wo_emits : Forall (emit_ok (seed ++ scope_of (ws_items st))) (ws_emits st);
}.

Lemma scope_of_app items items' : scope_of (items ++ items') = scope_of items ++ scope_of items'.
Proof. apply omap_app. Qed.

Lemma scope_of_singleton it : scope_of [it] = option_list (item_binding it).
Proof. unfold scope_of. cbn. by destruct (item_binding it). Qed.

Lemma elem_of_scope b items : b ∈ scope_of items ↔ ∃ i it, items !! i = Some it ∧ item_binding it = Some b.
Proof.
  unfold scope_of. rewrite list_elem_of_omap. split.
  - intros (it & [i Hi]%list_elem_of_lookup & Hb). eauto.
  - intros (i & it & Hi%list_elem_of_lookup_2 & Hb). eauto.
Qed.

Lemma items_ok_snoc seed items it : items_ok seed items → item_ok it →
  (∀ d, d ∈ outer_deps it → d ∈ seed ++ scope_of items) →
  (∀ b, item_binding it = Some b → b ∉ seed ++ scope_of items) →
  items_ok seed (items ++ [it]).
Proof.
  intros [H1 H2 H3 H4] Hit Hd Hb. constructor.
  - apply Forall_app. split; [done|]. by constructor.
  - intros i it' d Hi Hd'. apply lookup_app_Some in Hi as [Hi|[Hle Hi]].
    + rewrite take_app_le by (apply lookup_lt_Some in Hi; lia). by eapply H2.
    + apply list_lookup_singleton_Some in Hi as [Hi <-]. rewrite take_app_ge by lia.
      rewrite Hi. cbn [take]. rewrite app_nil_r. by apply Hd.
  - intros b Hseed. rewrite scope_of_app, scope_of_singleton, elem_of_app. intros [?|Hin]; [by eapply H3|].
    destruct (item_binding it) as [b'|] eqn:E; cbn in Hin; [|by apply elem_of_nil in Hin].
    apply list_elem_of_singleton in Hin as ->. by eapply (Hb b'); [|apply elem_of_app; left].
  - rewrite scope_of_app, scope_of_singleton. apply NoDup_app. split_and!; [done| |].
    + intros b Hin Hin'. destruct (item_binding it) as [b'|] eqn:E; cbn in Hin'; [|by apply elem_of_nil in Hin'].
      apply list_elem_of_singleton in Hin' as ->. by eapply (Hb b'); [|apply elem_of_app; right].
    + destruct (item_binding it); cbn; [apply NoDup_singleton|constructor].
Qed.

(** One more item, with the symbol table extended by its binding. *)
Lemma walk_ok_snoc seed st it anon symbols : walk_ok seed st → item_ok it →
  (∀ d, d ∈ outer_deps it → is_Some (ws_symbols st !! d)) →
  match item_binding it with
  | Some b => ws_symbols st !! b = None ∧ ∃ i, symbols = <[b := i]> (ws_symbols st)
  | None => symbols = ws_symbols st
  end →
  walk_ok seed (mk_WalkState symbols anon (ws_items st ++ [it]) (ws_emits st)).
Proof.
  intros [H1 H2 H3] Hit Hd Hb.
  constructor; cbn [ws_items ws_symbols ws_emits]; rewrite ?scope_of_app, ?scope_of_singleton, ?app_assoc.
  - apply items_ok_snoc; auto.
    + intros d Hdd. apply H2. by apply Hd.
    + intros b Eb. rewrite Eb in Hb. destruct Hb as [Hb _]. rewrite <- H2, Hb. apply is_Some_None.
  - intros b. rewrite elem_of_app, <- H2.
    destruct (item_binding it) as [b'|]; cbn.
    + destruct Hb as (_ & i & ->). rewrite lookup_insert_is_Some, list_elem_of_singleton.
      destruct (decide (b' = b)); naive_solver.
    + subst symbols. rewrite elem_of_nil. tauto.
  - eapply Forall_impl; [exact H3|]. intros e. unfold emit_ok. destruct (ir_emit_value e); [done|].
    set_solver.
Qed.

Lemma seed_symbols_is_Some seed b : is_Some (seed_symbols seed !! b) ↔ b ∈ seed.
Proof.
  unfold seed_symbols. induction seed as [|b' seed IH] using rev_ind.
  { cbn. rewrite lookup_empty, elem_of_nil. split; [by intros []|done]. }
  rewrite imap_pair_snoc, foldl_app. cbn [foldl]. rewrite lookup_insert_is_Some, IH.
  rewrite elem_of_app, list_elem_of_singleton. destruct (decide (b' = b)); naive_solver.
Qed.

Lemma walk_ok_start seed anon : walk_ok seed (mk_WalkState (seed_symbols seed) anon [] []).
Proof.
  constructor; cbn [ws_items ws_symbols ws_emits].
  { constructor; [constructor|done|by intros b _ ?%elem_of_nil|constructor]. }
  2: constructor.
  intros b. rewrite app_nil_r. apply seed_symbols_is_Some.
Qed.

Lemma walk_call_ok seed binding call st st' : walk_ok seed st → walk_call binding call st = Ok st' →
  walk_ok seed st' ∧ ∃ c, ws_items st' = ws_items st ++ [ACall c].
Proof.
  intros Hw Hc. unfold walk_call in Hc. inv_pairs.
  apply analyze_call_Ok in E as (Hb & _ & Hok & Hd & Hs). split; [|by eauto].
  apply walk_ok_snoc; auto. cbn [item_binding]. rewrite Hb. destruct binding; [|done].
  destruct Hs as [? ->]. eauto.
Qed.

Lemma items_ok_backward seed items : items_ok seed items → backward items.
Proof.
  intros [_ Hdeps Hfresh Hnd] i it d j Hi Hd Hj.
  apply binding_index_Some in Hj as (jt & Hj & Hb).
  assert (Hin : d ∈ scope_of items) by (apply elem_of_scope; eauto).
  destruct (proj1 (elem_of_app _ _ _) (Hdeps i it d Hi Hd)) as [Hs|Hs].
  { by destruct (Hfresh d Hs). }
  destruct (decide (j < i)) as [|Hge]; [done|]. exfalso.
  rewrite <- (take_drop i items), scope_of_app in Hnd. apply NoDup_app in Hnd as (_ & Hdis & _).
  apply (Hdis d Hs). apply elem_of_scope. exists (j - i), jt. split; [|done].
  rewrite lookup_drop. by replace (i + (j - i)) with j by lia.
Qed.

(** ** Blocks *)

(** What the analysis of a block promises to the loop around it. *)
Definition block_spec
    (block : list Statement → Z → list string → result PlanError (AnalyzedMission * Z)) : Prop :=
  ∀ ss anon seed am anon', block ss anon seed = Ok (am, anon') →
    items_ok seed (am_items am) ∧ length (am_items am) = length ss ∧
    (first_loop ss = None → Forall (λ it, is_loop_item it = false) (am_items am)).

Lemma lowered_steps items steps : Forall item_ok items → Forall2 (λ it s, lower_item it = Ok s) items steps →
  Forall2 (λ it s, step_output s = item_binding it ∧ (∀ b, b ∈ step_inputs s → b ∈ outer_deps it) ∧
    step_wf s ∧ is_call s = negb (is_loop_item it)) items steps.
Proof.
  intros Hok H. induction H as [|it s items steps Hl _ IH]; [constructor|].
  apply Forall_cons in Hok as [Hit Hok]. constructor; [by apply lower_item_Ok|by apply IH].
Qed.

Lemma outputs_of_lowered items steps :
  Forall2 (λ it s, step_output s = item_binding it) items steps → omap step_output steps = scope_of items.
Proof. unfold scope_of. induction 1 as [|?????? IH]; [done|]. cbn. by rewrite H, IH. Qed.

Lemma scoped_of_lowered seed items steps : items_ok seed items →
  Forall2 (λ it s, step_output s = item_binding it ∧ ∀ b, b ∈ step_inputs s → b ∈ outer_deps it) items steps →
  steps_scoped seed steps.
Proof.
  intros Hok H i s b Hs Hb.
  destruct (Forall2_lookup_r _ _ _ _ _ H Hs) as (it & Hit & _ & Hin).
  rewrite (outputs_of_lowered (take i items)).
  - eapply io_deps; eauto.
  - apply Forall2_take. eapply Forall2_impl; [exact H|]. by intros ? ? [? _].
Qed.

Lemma lower_block seed items steps : items_ok seed items → NoDup seed →
  Forall (λ it, is_loop_item it = false) items → collect lower_item items = Ok steps →
  block_wf seed steps ∧ omap step_output steps = scope_of items ∧ length steps = length items.
Proof.
  intros Hok Hseed Hcalls Hl%collect_Ok. pose proof (Forall2_length _ _ _ Hl) as Hlen.
  apply lowered_steps in Hl; [|apply Hok].
  assert (Hout : omap step_output steps = scope_of items).
  { apply outputs_of_lowered. eapply Forall2_impl; [exact Hl|]. naive_solver. }
  split_and!; [split; [|split]|done|done].
  - clear Hlen Hout Hok. induction Hl as [|it s items steps (_ & _ & Hwf & Hc) _ IH]; [constructor|].
    apply Forall_cons in Hcalls as [Hit Hcalls]. constructor; [|by apply IH].
    destruct s as [l|c]; [by rewrite Hit in Hc|]. by exists c.
  - eapply scoped_of_lowered; [done|]. eapply Forall2_impl; [exact Hl|]. naive_solver.
  - rewrite Hout. apply NoDup_app. split_and!; [done| |apply Hok]. apply Hok.
Qed.

Lemma first_loop_app ss ss' : first_loop (ss ++ ss') = None → first_loop ss = None ∧ first_loop ss' = None.
Proof. induction ss as [|[] ss IH]; cbn; auto. done. Qed.

Lemma analyze_loop_Ok block l anon al anon' : block_spec block →
  analyze_loop block l anon = Ok (al, anon') → item_ok (ALoop al).
Proof.
  intros Hblock Hl. destruct l as [name n body verify]. unfold analyze_loop in Hl. inv_pairs.
  destruct (first_loop (body ++ verify)) eqn:Ef; [done|]. apply first_loop_app in Ef as [Efb Efv].
  simplify_eq. apply Hblock in E4 as (Hbi & Hbl & Hbc), E5 as (Hvi & Hvl & Hvc).
  cbn [am_items] in *.
  destruct (lower_block _ _ _ Hbi (NoDup_nil_2) (Hbc Efb) E7) as (Hb1 & Hb2 & Hb3).
  destruct (lower_block _ _ _ Hvi (io_nodup _ _ Hbi) (Hvc Efv) E8) as (Hv1 & Hv2 & Hv3).
  apply Z.leb_le in E, E0. apply negb_true_iff, bool_decide_eq_false in E1, E2.
  cbn [item_ok step_wf ir_max_iters ir_body ir_verify al_body al_verify al_max_iters
    al_result_binding al_name result_binding ir_loop_name].
  split_and!; try done.
  - intros ->. cbn in *. lia.
  - intros ->. cbn in *. lia.
  - by rewrite Hb2.
Qed.

Lemma analyze_emit_ok st e ir seed : walk_ok seed st → analyze_emit e (ws_symbols st) = Ok ir →
  emit_ok (seed ++ scope_of (ws_items st)) ir.
Proof.
  intros Hw He. unfold analyze_emit in He. inv_ok. unfold emit_ok. cbn [ir_emit_value].
  destruct (emit_value e); cbn in E0; inv_ok; simplify_eq; try done. apply bool_decide_eq_true in E. by apply (wo_symbols _ _ Hw).
Qed.

Lemma walk_statement_ok block allow_emit seed st s st' : block_spec block → walk_ok seed st →
  walk_statement block allow_emit st s = Ok st' →
  walk_ok seed st' ∧ ∃ new, ws_items st' = ws_items st ++ new ∧
    (allow_emit = false → length new = 1) ∧
    (first_loop [s] = None → Forall (λ it, is_loop_item it = false) new).
Proof.
  intros Hblock Hw Hs. destruct s as [b c|c|e|l]; cbn [walk_statement] in Hs.
  - apply (walk_call_ok seed) in Hs as [? [c' ?]]; [|done]. split; [done|]. exists [ACall c']. auto.
  - apply (walk_call_ok seed) in Hs as [? [c' ?]]; [|done]. split; [done|]. exists [ACall c']. auto.
  - inv_ok. split; [|exists []; split; [by rewrite app_nil_r|by split]].
    destruct Hw as [H1 H2 H3]. constructor; cbn; auto. apply Forall_app. split; [done|].
    constructor; [|constructor]. eapply analyze_emit_ok; [by constructor|done].
  - inv_pairs. apply analyze_loop_Ok in E; [|done]. split.
    + apply walk_ok_snoc; auto; [cbn; set_solver|]. cbn [item_binding].
      destruct (al_result_binding a) as [b|]; inv_ok; [|done].
      match goal with Hb : bool_decide _ = true |- _ => apply bool_decide_eq_true in Hb end. eauto.
    + eexists. split; [done|]. by split.
Qed.

Lemma walk_statements_ok block allow_emit seed ss : block_spec block → ∀ st st', walk_ok seed st →
  try_fold (walk_statement block allow_emit) st ss = Ok st' →
  walk_ok seed st' ∧ ∃ new, ws_items st' = ws_items st ++ new ∧
    (allow_emit = false → length new = length ss) ∧
    (first_loop ss = None → Forall (λ it, is_loop_item it = false) new).
Proof.
  intros Hblock. induction ss as [|s ss IH]; cbn [try_fold]; intros st st' Hw Hf; inv_ok.
  { split; [done|]. exists []. by rewrite app_nil_r. }
  apply (walk_statement_ok _ _ seed) in E as (Hw1 & new & Hnew & Hlen & Hcalls); [|done..].
  destruct (IH _ _ Hw1 Hf) as (Hw' & new' & Hnew' & Hlen' & Hcalls'). split; [done|].
  exists (new ++ new'). rewrite Hnew', Hnew, app_assoc. split_and!; [done| |].
  - intros Ha. rewrite length_app, Hlen, Hlen' by done. done.
  - intros Hl. apply (first_loop_app [s] ss) in Hl as [? ?]. apply Forall_app. auto.
Qed.

Section with_order.
Context `{HashOrder}.

Lemma analyze_statements_ok depth : ∀ ss anon seed allow_emit am anon',
  analyze_statements_inner depth ss anon seed allow_emit = Ok (am, anon') →
  items_ok seed (am_items am) ∧ Forall (emit_ok (seed ++ scope_of (am_items am))) (am_emits am) ∧
  (allow_emit = false → length (am_items am) = length ss) ∧
  (first_loop ss = None → Forall (λ it, is_loop_item it = false) (am_items am)).
Proof.
  induction depth as [|depth IH]; intros ss anon seed allow_emit am anon' Ha; [done|].
  cbn [analyze_statements_inner] in Ha. inv_ok. simplify_eq. cbn [am_items am_emits].
  apply (walk_statements_ok _ _ seed) in E as (Hw & new & Hnew & Hlen & Hcalls);
    [|clear -IH; intros ss anon seed am anon' Hb;
      apply IH in Hb as (? & _ & ? & ?); auto|apply walk_ok_start].
  cbn in Hnew. subst new. split_and!; auto; apply Hw.
Qed.

Lemma analyze_mission_ok p am : analyze_mission p = Ok am →
  items_ok [] (am_items am) ∧ Forall (emit_ok (scope_of (am_items am))) (am_emits am).
Proof.
  unfold analyze_mission. intros Ha. inv_ok. destruct x as [am' a]. cbn in Ha. subst.
  by apply analyze_statements_ok in E as (? & ? & _).
Qed.

(** ** Errors *)

(** Errors that report a defect of the compiler itself. *)
Definition internal_error (e : PlanError) : bool :=
  match e with Cycle _ _ | InternalReference _ | PlanPanic _ | PlanOutOfFuel => true | _ => false end.

Definition clean {A} (r : result PlanError A) : Prop :=
  match r with Ok _ => True | Err e => internal_error e = false end.

Lemma clean_bind {A B} (r : result PlanError A) (k : A → result PlanError B) :
  clean r → (∀ a, r = Ok a → clean (k a)) → clean (r ≫= k).
Proof. destruct r; cbn; auto. Qed.
Lemma clean_fmap {A B} (f : A → B) (r : result PlanError A) : clean r → clean (f <$> r).
Proof. by destruct r. Qed.
Lemma clean_ensure b e : internal_error e = false → clean (ensure b e).
Proof. by destruct b. Qed.
Lemma clean_ok_or {A} (o : option A) e : internal_error e = false → clean (ok_or o e).
Proof. by destruct o. Qed.
Lemma clean_map_err {E A} (f : E → PlanError) (r : result E A) :
  (∀ e, internal_error (f e) = false) → clean (map_err f r).
Proof. destruct r; cbn; auto. Qed.

Lemma field_value_clean v : (∀ w, v ≠ FVVarRef w) → clean (field_value_to_json v).
Proof.
  induction v as [| | | | |fs IH] using FieldValue_ind'; intros Hv; try done; [by destruct (Hv v)|].
  cbn [field_value_to_json]. apply clean_fmap. generalize (@nil (string * Value)) as m.
  induction fs as [|[k v] fs IHfs]; intros m; [done|]. apply Forall_cons in IH as [IHv IH].
  cbn in IHv. destruct v; try done; (apply clean_bind; [by apply IHv|intros; by apply IHfs]).
Qed.

Lemma lower_arguments_clean args : ∀ sa refs, clean (lower_arguments args sa refs).
Proof.
  induction args as [|[k v] args IH]; intros sa refs; [done|]. cbn [lower_arguments].
  destruct v; auto; (apply clean_bind; [by apply field_value_clean|auto]).
Qed.

Lemma lower_item_clean it : clean (lower_item it).
Proof.
  destruct it as [s|l]; [|done]. cbn [lower_item]. unfold lower_call.
  apply clean_bind; [apply lower_arguments_clean|]. intros [sa refs] _.
  apply clean_bind; [unfold lower_target; case_match|]; repeat (
    apply clean_bind || apply clean_ok_or || apply clean_map_err || done || intros ? _).
Qed.

Lemma collect_clean {A B} (f : A → result PlanError B) l : (∀ x, clean (f x)) → clean (collect f l).
Proof.
  intros Hf. induction l as [|x l IH]; [done|]. cbn [collect].
  apply clean_bind; [done|]. intros. by apply clean_bind.
Qed.

Lemma collect_deps_clean symbols id args : ∀ deps, clean (collect_deps symbols id args deps).
Proof.
  induction args as [|[k v] args IH]; intros deps; [done|]. cbn [collect_deps].
  destruct v; auto. apply clean_bind; [by apply clean_ensure|auto].
Qed.

Lemma walk_call_clean b c st : clean (walk_call b c st).
Proof.
  unfold walk_call. apply clean_bind; [|by intros [[? ?] ?]]. unfold analyze_call.
  apply clean_bind; [destruct b; [by apply clean_ensure|done]|]. intros _ _.
  destruct b; (apply clean_bind; [repeat case_match; try done; by apply clean_ensure|intros _ _]);
    (apply clean_bind; [by apply clean_ensure|intros _ _]);
    (apply clean_bind; [apply collect_deps_clean|done]).
Qed.

Lemma emit_clean e symbols : clean (analyze_emit e symbols).
Proof.
  unfold analyze_emit. apply clean_bind; [case_match; try done; by apply clean_ensure|intros _ _].
  apply clean_bind; [|done]. unfold emit_value_to_ir. case_match; try done; apply clean_fmap, field_value_clean; done.
Qed.

(** A block analysis that never fails internally on loop-free blocks. *)
Definition block_clean
    (block : list Statement → Z → list string → result PlanError (AnalyzedMission * Z)) : Prop :=
  ∀ ss anon seed, first_loop ss = None → clean (block ss anon seed).

Lemma analyze_loop_clean block l anon : block_clean block → clean (analyze_loop block l anon).
Proof.
  intros Hb. destruct l as [name n body verify]. unfold analyze_loop.
  do 4 (apply clean_bind; [by apply clean_ensure|intros _ _]).
  destruct (first_loop (body ++ verify)) eqn:Ef; [done|]. apply first_loop_app in Ef as [Efb Efv].
  apply clean_bind; [done|intros _ _].
  apply clean_bind; [by apply Hb|intros [bi a1] _].
  apply clean_bind; [by apply Hb|intros [vi a2] _].
  apply clean_bind; [by apply clean_ensure|intros _ _].
  do 2 (apply clean_bind; [apply collect_clean, lower_item_clean|intros ? _]). done.
Qed.

Lemma walk_statement_clean block allow_emit st s :
  (first_loop [s] ≠ None → block_clean block) → clean (walk_statement block allow_emit st s).
Proof.
  intros Hb. destruct s as [b c|c|e|l]; cbn [walk_statement]; try apply walk_call_clean.
  - apply clean_bind; [by apply clean_ensure|intros _ _]. by apply clean_bind; [apply emit_clean|].
  - apply clean_bind; [by apply analyze_loop_clean, Hb|intros [al a] _].
    apply clean_bind; [|done]. case_match; [|done]. by apply clean_bind; [apply clean_ensure|].
Qed.

Lemma walk_statements_clean block allow_emit ss :
  (first_loop ss ≠ None → block_clean block) → ∀ st,
  clean (try_fold (walk_statement block allow_emit) st ss).
Proof.
  induction ss as [|s ss IH]; intros Hb st; [done|]. cbn [try_fold]. apply clean_bind.
  - apply walk_statement_clean. intros Hs. apply Hb. by destruct s.
  - intros st' _. apply IH. intros Hs. apply Hb. by destruct s.
Qed.

Lemma analyze_statements_clean depth ss anon seed allow_emit :
  depth ≠ 0 → (first_loop ss ≠ None → 2 ≤ depth) →
  clean (analyze_statements_inner depth ss anon seed allow_emit).
Proof.
  revert ss anon seed allow_emit. induction depth as [|depth IH]; intros ss anon seed allow_emit Hd Hl; [done|].
  cbn [analyze_statements_inner]. set (block := λ ss a sd, analyze_statements_inner depth ss a sd false).
  apply clean_bind.
  - apply walk_statements_clean. intros Hf%Hl ss' a sd Hss. apply IH; [lia|done].
  - intros st Hst. apply (walk_statements_ok _ _ seed) in Hst as (Hw & _); [| |apply walk_ok_start].
    + rewrite detect_cycles_Ok; [done|]. eapply items_ok_backward, Hw.
    + intros ss' a sd am a' Hb. apply analyze_statements_ok in Hb as (? & _ & ? & ?); auto.
Qed.
End with_order.
