(* ===== verification/CompileProps.v ===== *)
(** * Properties of [compile]

    The schedule as a sorted permutation, the compiled mission related to the
    analysed items, and the theorems on [compile] with a diamond-shaped mission
    as their witness. *)

From Stdlib Require Import String Sorting.Sorted.
From S2P Require Import Prelude RustStd AgentId Json Lexer Ast Parser ParserRoundtrip Ir Planner.
From S2P Require Import PlannerProps.

Open Scope nat_scope.

(** ** Statements *)

(** [phases] cuts the steps [a .. n] into consecutive non-empty ranges. *)
Fixpoint contiguous (a : nat) (phases : list PhaseRange) (n : nat) : Prop :=
  match phases with
  | [] => a = n
  | r :: phases => start r = a ∧ start r < stop r ∧ contiguous (stop r) phases n
  end.

(** Step [p] of the mission is in phase [k]. *)
Definition in_phase (ir : MissionIr) (k p : nat) : Prop :=
  ∃ r, ir_phases ir !! k = Some r ∧ start r ≤ p < stop r.

(** All calls of a mission. *)
Definition call_count (ir : MissionIr) : nat := length (concat (map walk_calls (ir_steps ir))).

Section with_order.
Context `{HashOrder}.

(** ** The schedule *)

(** The key a schedule sorts by. *)
Definition key_of (phase_of : list nat) (i : nat) : nat := default 0 (phase_of !! i).

Record schedule_ok (items : list AnalyzedItem) (ordered phase_of : list nat) (num : nat) : Prop := {
  so_length : length phase_of = length items;
  so_perm : ordered ≡ₚ seq 0 (length items);
  so_sorted : StronglySorted (λ i j, key_of phase_of i ≤ key_of phase_of j) ordered;
  so_num : num = match phase_of with [] => 0 | _ => S (list_max phase_of) end;
  so_deps i it d j : items !! i = Some it → d ∈ outer_deps it → binding_index items !! d = Some j →
    key_of phase_of j < key_of phase_of i;
  so_full k : k < num → ∃ i, i < length items ∧ key_of phase_of i = k;
  so_tight i it k : items !! i = Some it → existsb is_loop_item items = false →
    key_of phase_of i = S k →
    ∃ d j, d ∈ outer_deps it ∧ binding_index items !! d = Some j ∧ key_of phase_of j = k;
}.

Lemma sorted_ext (f g : nat → nat) l : (∀ i, i ∈ l → f i = g i) →
  StronglySorted (λ i j, f i ≤ f j) l → StronglySorted (λ i j, g i ≤ g j) l.
Proof.
  intros Hfg Hs. induction Hs as [|x l Hs IH Hx]; [constructor|]. constructor.
  - apply IH. intros. apply Hfg. by right.
  - rewrite Forall_forall in *. intros j Hj. rewrite <- !Hfg by (by left || by right). auto.
Qed.

Lemma seq_sorted a n : StronglySorted (λ i j, i ≤ j) (seq a n).
Proof.
  revert a. induction n as [|n IH]; intros a; cbn; constructor; [apply IH|].
  apply Forall_forall. intros j [? _]%elem_of_seq. lia.
Qed.

Lemma list_max_seq n : list_max (seq 0 (S n)) = n.
Proof. induction n as [|n IH]; [done|]. rewrite seq_S, list_max_app, IH. cbn. lia. Qed.

Lemma schedule_blocks_ok items : backward items →
  existsb is_loop_item items = true →
  schedule_ok items (seq 0 (length items)) (seq 0 (length items)) (length items).
Proof.
  intros Hback Hloop.
  assert (Hkey : ∀ i, i < length items → key_of (seq 0 (length items)) i = i).
  { intros i Hi. unfold key_of. by rewrite (lookup_seq_lt _ _ _ Hi). }
  constructor; try done.
  - apply length_seq.
  - apply (sorted_ext (λ i, i)); [|apply seq_sorted]. intros i [_ Hi]%elem_of_seq. by rewrite Hkey by lia.
  - destruct (length items) as [|n]; [done|]. by rewrite list_max_seq.
  - intros i it d j Hi Hd Hj. pose proof (lookup_lt_Some _ _ _ Hi).
    pose proof (Hback _ _ _ _ Hi Hd Hj). by rewrite !Hkey by lia.
  - intros k Hk. exists k. auto.
  - congruence.
Qed.

Lemma list_max_cons x l : list_max (x :: l) = Nat.max x (list_max l).
Proof. done. Qed.

Lemma list_max_perm l l' : l ≡ₚ l' → list_max l = list_max l'.
Proof. induction 1; rewrite ?list_max_cons in *; lia. Qed.

Lemma list_max_In l : l ≠ [] → list_max l ∈ l.
Proof.
  induction l as [|x l IH]; [done|]. intros _.
  rewrite list_max_cons.
  destruct (decide (l = [])) as [->|Hl]; [cbn; rewrite Nat.max_0_r; left|].
  destruct (Nat.max_spec x (list_max l)) as [[_ ->]|[_ ->]]; [right; auto|left].
Qed.

Lemma schedule_calls_ok items : backward items →
  let ph := assign_phases items in
  schedule_ok items (sort_by_key (key_of ph) (seq 0 (length items))) ph
    (match ph with [] => 0 | _ => S (list_max ph) end).
Proof.
  intros Hback ph. destruct (assign_phases_spec items Hback) as [Hlen Hph]. fold ph in Hlen, Hph.
  assert (Hkey : ∀ i it, items !! i = Some it →
    key_of ph i = phase_of_item (binding_index items) ph it).
  { intros i it Hi. unfold key_of. by rewrite (Hph i it Hi). }
  assert (Htight : ∀ i it k, items !! i = Some it → key_of ph i = S k →
    ∃ d j, d ∈ outer_deps it ∧ binding_index items !! d = Some j ∧ key_of ph j = k).
  { intros i it k Hi Hk. rewrite (Hkey i it Hi) in Hk. by apply phase_of_item_spec in Hk. }
  constructor; try done.
  - by rewrite sort_by_key_perm.
  - apply sort_by_key_sorted.
  - intros i it d j Hi Hd Hj. rewrite (Hkey i it Hi).
    by eapply (proj1 (phase_of_item_spec _ _ _)).
  - assert (Hdown : ∀ m k i, k + m = key_of ph i → i < length items →
      ∃ i', i' < length items ∧ key_of ph i' = k).
    { induction m as [|m IH]; intros k i Hk Hi; [exists i; split; [done|lia]|].
      destruct (lookup_lt_is_Some_2 _ _ Hi) as [it Hit].
      destruct (Htight i it (k + m) Hit) as (d & j & _ & Hj & Hkj); [lia|].
      apply (IH k j); [done|]. by eapply binding_index_bound. }
    intros k Hk. destruct ph as [|x ph'] eqn:Eph; [lia|]. rewrite <- Eph in *.
    destruct (proj1 (list_elem_of_lookup _ _) (list_max_In ph ltac:(by rewrite Eph))) as [i Hi].
    apply (Hdown (list_max ph - k) k i).
    + unfold key_of. rewrite Hi. cbn. lia.
    + apply lookup_lt_Some in Hi. lia.
  - intros i it k Hi _. by apply Htight.
Qed.

Lemma schedule_spec items : backward items →
  let '(ordered, phase_of, num) := schedule items in schedule_ok items ordered phase_of num.
Proof.
  intros Hback. unfold schedule. destruct (existsb is_loop_item items) eqn:El.
  - by apply schedule_blocks_ok.
  - by apply schedule_calls_ok.
Qed.

(** ** The compiled mission *)

(** A compiled mission in terms of its analyzed items and its schedule. *)
Record compiled (p : EalProgram) (ir : MissionIr) (am : AnalyzedMission)
    (ordered phase_of : list nat) (num : nat) : Prop := {
  co_analysis : analyze_mission p = Ok am;
  co_items : items_ok [] (am_items am);
  co_schedule : schedule_ok (am_items am) ordered phase_of num;
  co_schedule_eq : schedule (am_items am) = (ordered, phase_of, num);
  co_steps : Forall2 (λ i s, ∃ it, am_items am !! i = Some it ∧ lower_item it = Ok s)
               ordered (ir_steps ir);
  co_phases : ir_phases ir = phase_range (key_of phase_of) ordered <$> seq 0 num;
  co_emits : ir_emits ir = am_emits am;
  co_bound : (total_bound (ir_steps ir) ≤ default_max_calls)%Z;
}.

Lemma so_key items ordered phase_of num : schedule_ok items ordered phase_of num →
  ∀ i, i < length items → phase_of !! i = Some (key_of phase_of i).
Proof.
  intros Hs i Hi. rewrite <- (so_length _ _ _ _ Hs) in Hi. unfold key_of.
  by destruct (lookup_lt_is_Some_2 _ _ Hi) as [k ->].
Qed.

Lemma so_ordered items ordered phase_of num : schedule_ok items ordered phase_of num →
  NoDup ordered ∧ length ordered = length items ∧ ∀ i, i ∈ ordered ↔ i < length items.
Proof.
  intros Hs. pose proof (so_perm _ _ _ _ Hs) as Hp. split_and!.
  - rewrite Hp. apply NoDup_seq.
  - rewrite Hp. apply length_seq.
  - intros i. rewrite Hp, elem_of_seq. lia.
Qed.

Lemma so_max items ordered phase_of num : schedule_ok items ordered phase_of num →
  list_max (key_of phase_of <$> ordered) = list_max phase_of.
Proof.
  intros Hs. pose proof (so_perm _ _ _ _ Hs) as Hp.
  assert (Hfmap : key_of phase_of <$> ordered ≡ₚ phase_of).
  { rewrite Hp. enough (key_of phase_of <$> seq 0 (length items) = phase_of) as -> by done.
    apply list_eq. intros i. rewrite list_lookup_fmap.
    destruct (decide (i < length items)) as [Hi|Hi].
    - rewrite lookup_seq_lt by done. cbn. symmetry. by eapply so_key.
    - rewrite lookup_seq_ge by lia. cbn. symmetry. apply lookup_ge_None.
      rewrite (so_length _ _ _ _ Hs). lia. }
  by apply list_max_perm.
Qed.

Lemma lower_mission items ordered phase_of num : schedule_ok items ordered phase_of num →
  match lower_loop phase_of 0 ordered (mk_LowerState [] [] 0 0 (Some <$> items)) with
  | Ok st => lowered (key_of phase_of) items ordered st
  | Err e => ∃ i it, items !! i = Some it ∧ lower_item it = Err e
  end.
Proof.
  intros Hs. destruct (so_ordered _ _ _ _ Hs) as (Hnd & _ & Hin).
  apply (lower_loop_lowered (key_of phase_of) items phase_of (so_key _ _ _ _ Hs) ordered []).
  - constructor; cbn; try done. intros i it _ Hi. by rewrite list_lookup_fmap, Hi.
  - done.
  - apply Hin.
  - apply (so_sorted _ _ _ _ Hs).
Qed.

Lemma compile_compiled p ir : compile p = Ok ir →
  ∃ am ordered phase_of num, compiled p ir am ordered phase_of num.
Proof.
  unfold compile. intros Hc. apply bind_Ok in Hc as (am & Ham & Hc). cbn beta zeta in Hc.
  destruct (analyze_mission_ok _ _ Ham) as [Hitems Hemits].
  pose proof (schedule_spec (am_items am) (items_ok_backward _ _ Hitems)) as Hs.
  destruct (schedule (am_items am)) as [[ordered ph] num] eqn:Es.
  pose proof (lower_mission _ _ _ _ Hs) as Hlow.
  apply bind_Ok in Hc as (st & Est & Hc). rewrite Est in Hlow. cbn beta zeta in Hc. inv_ok.
  exists am, ordered, ph, num. apply Z.leb_le in E. destruct (so_ordered _ _ _ _ Hs) as (_ & Hlen & _).
  pose proof (Forall2_length _ _ _ (lw_steps _ _ _ _ Hlow)) as Hlen'.
  constructor; cbn [ir_steps ir_phases ir_emits]; try done; [apply Hlow|].
  case_bool_decide as He.
  - assert (num = 0) as ->.
    { rewrite (so_num _ _ _ _ Hs). pose proof (so_length _ _ _ _ Hs). destruct ph; cbn in *; lia. }
    rewrite (lw_phases _ _ _ _ Hlow), (lw_cur _ _ _ _ Hlow). destruct ordered; [done|cbn in *; lia].
  - assert (Hnum : num = S (ls_cur st)).
    { rewrite (so_num _ _ _ _ Hs), (lw_cur _ _ _ _ Hlow), (so_max _ _ _ _ Hs).
      pose proof (so_length _ _ _ _ Hs). destruct ph; cbn in *; [lia|done]. }
    rewrite length_app, (lw_phases _ _ _ _ Hlow), length_fmap, length_seq. cbn [length].
    replace (num - (ls_cur st + 1)) with 0 by lia. cbn [replicate]. rewrite app_nil_r, Hnum, seq_S, fmap_app.
    cbn. f_equal. unfold phase_range. rewrite (lw_start _ _ _ _ Hlow). do 2 f_equal.
    rewrite before_all; [lia|]. intros i Hi%(list_max_le_elem (key_of ph)).
    rewrite (lw_cur _ _ _ _ Hlow). lia.
Qed.

Section compiled.
Context {p ir am ordered phase_of num} (Hc : compiled p ir am ordered phase_of num).
Let key := key_of phase_of.
Let items := am_items am.

Lemma compiled_step q s : ir_steps ir !! q = Some s → ∃ i it,
  ordered !! q = Some i ∧ items !! i = Some it ∧ lower_item it = Ok s ∧ item_ok it.
Proof using Hc.
  intros Hq. destruct (Forall2_lookup_r _ _ _ _ _ (co_steps _ _ _ _ _ _ Hc) Hq) as (i & Hi & it & Hit & Hl).
  exists i, it. split_and!; try done.
  eapply Forall_lookup_1; [apply (io_items _ _ (co_items _ _ _ _ _ _ Hc))|exact Hit].
Qed.

Lemma compiled_position i : i < length items → ∃ q s it,
  ordered !! q = Some i ∧ ir_steps ir !! q = Some s ∧ items !! i = Some it ∧ lower_item it = Ok s.
Proof using Hc.
  intros Hi. pose proof (co_schedule _ _ _ _ _ _ Hc) as Hs.
  destruct (so_ordered _ _ _ _ Hs) as (_ & _ & Hin).
  apply Hin, list_elem_of_lookup in Hi as [q Hq].
  destruct (Forall2_lookup_l _ _ _ _ _ (co_steps _ _ _ _ _ _ Hc) Hq) as (s & Hsq & it & Hit & Hl).
  by exists q, s, it.
Qed.

Lemma compiled_key_lt i : i < length items → key i < num.
Proof using Hc.
  intros Hi. pose proof (co_schedule _ _ _ _ _ _ Hc) as Hs.
  destruct (so_ordered _ _ _ _ Hs) as (_ & _ & Hin).
  assert (num = S (list_max phase_of)) as ->.
  { rewrite (so_num _ _ _ _ Hs). pose proof (so_length _ _ _ _ Hs) as Hlen. fold items in Hlen.
    clear -Hlen Hi. destruct phase_of; cbn [length] in *; [lia|done]. }
  apply Hin, (list_max_le_elem key) in Hi as Hle.
  pose proof (so_max _ _ _ _ Hs) as Hmax. fold key in Hmax. lia.
Qed.

Lemma compiled_in_phase k q i : ordered !! q = Some i → in_phase ir k q ↔ key i = k.
Proof using Hc.
  intros Hq. pose proof (co_schedule _ _ _ _ _ _ Hc) as Hs.
  pose proof (so_sorted _ _ _ _ Hs) as Hsorted. fold key in Hsorted.
  unfold in_phase. rewrite (co_phases _ _ _ _ _ _ Hc). fold key.
  pose proof (λ k, sorted_before key ordered q i k Hsorted Hq) as Hbefore.
  split.
  - intros (r & (k' & -> & [-> Hk]%lookup_seq)%list_lookup_fmap_Some & Hr). cbn in Hr.
    assert (¬ key i < k) by (rewrite <- Hbefore; lia).
    assert (key i < S k) by (apply Hbefore; lia). lia.
  - intros <-. exists (phase_range key ordered (key i)).
    assert (Hi : i < length items).
    { destruct (so_ordered _ _ _ _ Hs) as (_ & _ & Hin). apply Hin. by eapply list_elem_of_lookup_2. }
    split.
    + apply list_lookup_fmap_Some. exists (key i). split; [done|]. apply lookup_seq. split; [done|].
      by apply compiled_key_lt.
    + cbn. split; [|apply Hbefore; lia]. assert (¬ q < before key (key i) ordered); [|lia].
      rewrite Hbefore. lia.
Qed.

(** A binding an item reads is exported by an item of a strictly earlier
    phase. *)
Lemma compiled_dep i it d : items !! i = Some it → d ∈ outer_deps it → ∃ j jt,
  items !! j = Some jt ∧ item_binding jt = Some d ∧ binding_index items !! d = Some j ∧ key j < key i.
Proof using Hc.
  intros Hi Hd. pose proof (co_items _ _ _ _ _ _ Hc) as Hok.
  pose proof (io_deps _ _ Hok i it d Hi Hd) as Hin. cbn [app] in Hin.
  apply elem_of_scope in Hin as (j0 & jt0 & Hj0 & Hb0).
  apply lookup_take_Some in Hj0 as [Hj0 _].
  destruct (binding_index_is_Some _ _ _ _ Hj0 Hb0) as [j Hj]. fold items in Hj.
  destruct (binding_index_Some _ _ _ Hj) as (jt & Hjt & Hb).
  exists j, jt. split_and!; try done.
  by eapply (so_deps _ _ _ _ (co_schedule _ _ _ _ _ _ Hc)).
Qed.

Lemma before_lt (f : nat → nat) l i : i ∈ l → before f (f i) l < before f (S (f i)) l.
Proof.
  intros Hi. apply list_elem_of_split in Hi as (l1 & l2 & ->). rewrite !before_app.
  pose proof (before_mono f (f i) (S (f i)) l1). pose proof (before_mono f (f i) (S (f i)) l2).
  unfold before in *. rewrite !filter_cons, decide_False, decide_True by lia. cbn [length]. lia.
Qed.

Lemma compiled_contiguous : contiguous 0 (ir_phases ir) (length (ir_steps ir)).
Proof using Hc.
  pose proof (co_schedule _ _ _ _ _ _ Hc) as Hs. rewrite (co_phases _ _ _ _ _ _ Hc). fold key.
  destruct (so_ordered _ _ _ _ Hs) as (_ & Hlen & Hin).
  rewrite <- (Forall2_length _ _ _ (co_steps _ _ _ _ _ _ Hc)).
  assert (Hgen : ∀ m a, a + m = num → contiguous (before key a ordered)
    (phase_range key ordered <$> seq a m) (before key num ordered)).
  { induction m as [|m IH]; intros a Ha; cbn; [by replace a with num by lia|].
    split_and!; [done| |by apply IH; lia].
    destruct (so_full _ _ _ _ Hs a) as (i & Hi%Hin & <-); [lia|]. by apply before_lt. }
  specialize (Hgen num 0 eq_refl). rewrite before_0 in Hgen.
  by rewrite before_all in Hgen by (intros i Hi%Hin; by apply compiled_key_lt).
Qed.

Lemma compiled_lowered : ∃ lowered_items, collect lower_item items = Ok lowered_items ∧
  ir_steps ir ≡ₚ lowered_items ∧
  (existsb is_loop_item items = true → ir_steps ir = lowered_items).
Proof using Hc.
  pose proof (co_schedule _ _ _ _ _ _ Hc) as Hs. pose proof (co_steps _ _ _ _ _ _ Hc) as Hst.
  assert (Hitems : ∀ k, Forall2 (λ i s, ∃ it, items !! i = Some it ∧ lower_item it = Ok s)
    (seq 0 (length items)) k → collect lower_item items = Ok k).
  { intros k Hk. apply collect_Ok, Forall2_same_length_lookup_2.
    { apply Forall2_length in Hk. by rewrite length_seq in Hk. }
    intros i it s Hi Hsi. destruct (Forall2_lookup_r _ _ _ _ _ Hk Hsi) as (i' & Hi' & it' & Hit' & Hl).
    apply lookup_seq in Hi' as [-> _]. cbn in Hit'. congruence. }
  destruct (Permutation_Forall2 (so_perm _ _ _ _ Hs) Hst) as (k & Hk & Hf).
  exists k. split_and!; [by apply Hitems|done|]. intros Hloop.
  pose proof (co_schedule_eq _ _ _ _ _ _ Hc) as Heq. unfold schedule in Heq. fold items in Heq.
  rewrite Hloop in Heq. injection Heq as Ho _ _. rewrite <- Ho in Hst.
  apply Hitems in Hst. apply Hitems in Hf. congruence.
Qed.

Lemma compiled_outputs : omap step_output (ir_steps ir) ≡ₚ scope_of items.
Proof using Hc.
  destruct compiled_lowered as (k & Hk%collect_Ok & Hp & _). rewrite Hp.
  apply lowered_steps in Hk; [|apply (co_items _ _ _ _ _ _ Hc)].
  rewrite (outputs_of_lowered items); [done|]. eapply Forall2_impl; [exact Hk|]. naive_solver.
Qed.

(** The step at position [q] reads [b]: the position and the phase of the step
    that exports it. *)
Lemma compiled_producer q s b k : ir_steps ir !! q = Some s → b ∈ step_inputs s → in_phase ir k q →
  ∃ q' s' k', ir_steps ir !! q' = Some s' ∧ step_output s' = Some b ∧ in_phase ir k' q' ∧ k' < k ∧ q' < q.
Proof using Hc.
  intros Hq Hb Hk. pose proof (co_schedule _ _ _ _ _ _ Hc) as Hs.
  destruct (compiled_step q s Hq) as (i & it & Hi & Hit & Hl & Hok).
  destruct (lower_item_Ok _ _ Hok Hl) as (_ & Hin & _).
  destruct (compiled_dep i it b Hit (Hin b Hb)) as (j & jt & Hj & Hjb & _ & Hkey).
  destruct (compiled_position j) as (q' & s' & jt' & Hq' & Hs' & Hj' & Hl'); [by eapply lookup_lt_Some|].
  rewrite Hj in Hj'. injection Hj' as <-.
  assert (Hokj : item_ok jt).
  { eapply Forall_lookup_1; [apply (io_items _ _ (co_items _ _ _ _ _ _ Hc))|exact Hj]. }
  destruct (lower_item_Ok _ _ Hokj Hl') as (Hout & _).
  apply (compiled_in_phase _ _ _ Hi) in Hk. exists q', s', (key j).
  split_and!; [done|by rewrite Hout|by apply (compiled_in_phase _ _ _ Hq')|by subst k|].
  pose proof (so_sorted _ _ _ _ Hs) as Hsorted. fold key in Hsorted.
  pose proof (proj2 (sorted_before key ordered q' j (key i) Hsorted Hq') Hkey).
  assert (¬ q < before key (key i) ordered); [|lia].
  rewrite (sorted_before key ordered q i (key i) Hsorted Hi). lia.
Qed.

Lemma compiled_has_phase q s : ir_steps ir !! q = Some s → ∃ k, in_phase ir k q.
Proof using Hc.
  intros Hq. destruct (compiled_step q s Hq) as (i & _ & Hi & _). exists (key i).
  by apply (compiled_in_phase _ _ _ Hi).
Qed.
End compiled.

(** ** The call bound *)

Lemma static_call_bound_le s : step_wf s →
  (0 ≤ static_call_bound s ≤ 32 * Z.of_nat (length (walk_calls s)))%Z.
Proof.
  destruct s as [[name n body verify rb]|c]; cbn [step_wf ir_max_iters]; [|cbn; lia]. intros [Hn _].
  cbn [static_call_bound walk_calls ir_max_iters ir_body ir_verify].
  rewrite length_app. set (m := (length _ + length _)).
  assert (0 ≤ n * Z.of_nat m ≤ 32 * Z.of_nat m)%Z by nia. unfold u64_saturating, u64_max. lia.
Qed.

Lemma call_bound_le steps : Forall step_wf steps →
  (0 ≤ call_bound steps ≤ 32 * Z.of_nat (length (concat (map walk_calls steps))))%Z.
Proof.
  induction 1 as [|s steps Hs%static_call_bound_le _ IH]; [cbn; lia|].
  cbn [map concat call_bound foldr]. rewrite length_app. unfold call_bound in IH. lia.
Qed.

Lemma total_bound_mod steps : Forall step_wf steps → total_bound steps = u64_wrap (call_bound steps).
Proof.
  intros Hwf. unfold total_bound.
  enough (∀ a, foldl (λ acc s, u64_wrap (acc + static_call_bound s)) (u64_wrap a) steps =
    u64_wrap (a + call_bound steps)) as E by (specialize (E 0%Z); exact E).
  clear Hwf. induction steps as [|s steps IH]; intros a; cbn [foldl call_bound foldr].
  { by rewrite Z.add_0_r. }
  replace (u64_wrap (u64_wrap a + static_call_bound s)) with (u64_wrap (a + static_call_bound s)).
  - rewrite IH. f_equal. unfold call_bound. lia.
  - unfold u64_wrap. by rewrite Zplus_mod_idemp_l.
Qed.

Lemma compile_steps_wf p ir : compile p = Ok ir → Forall step_wf (ir_steps ir).
Proof.
  intros (am & ordered & ph & num & Hc)%compile_compiled. apply Forall_lookup. intros q s Hq.
  destruct (compiled_step Hc q s Hq) as (i & it & _ & _ & Hl & Hok).
  by destruct (lower_item_Ok _ _ Hok Hl) as (_ & _ & ? & _).
Qed.

Lemma compile_bound_256 p ir : compile p = Ok ir → (Z.of_nat (call_count ir) < 2 ^ 59)%Z →
  (call_bound (ir_steps ir) ≤ 256)%Z.
Proof.
  intros Hp Hn. pose proof (compile_steps_wf _ _ Hp) as Hwf.
  pose proof (call_bound_le _ Hwf) as Hb. fold (call_count ir) in Hb.
  apply compile_compiled in Hp as (am & ordered & ph & num & Hc).
  pose proof (co_bound _ _ _ _ _ _ Hc) as Ht. rewrite total_bound_mod in Ht by done.
  unfold u64_wrap, default_max_calls in Ht. rewrite Z.mod_small in Ht; lia.
Qed.

(** ** Properties *)

(** The phases of a compiled mission partition its steps into
    consecutive, non-empty ranges: no gap, no overlap, no empty phase. *)
Theorem compile_phases_partition p ir : compile p = Ok ir →
  contiguous 0 (ir_phases ir) (length (ir_steps ir)).
Proof. intros (am & ordered & ph & num & Hc)%compile_compiled. apply (compiled_contiguous Hc). Qed.

(** Data flows forward: every binding a step of phase [k]
    reads is exported by a step of a strictly earlier phase, so steps of one
    phase never depend on each other and may run in parallel. *)
Theorem compile_dataflow p ir k q c key b : compile p = Ok ir →
  in_phase ir k q → ir_steps ir !! q = Some (IrStepCall c) → (key, b) ∈ input_refs c →
  ∃ q' s' k', k' < k ∧ in_phase ir k' q' ∧ ir_steps ir !! q' = Some s' ∧ step_output s' = Some b.
Proof.
  intros (am & ordered & ph & num & Hc)%compile_compiled Hk Hq Hb.
  destruct (compiled_producer Hc q (IrStepCall c) b k) as (q' & s' & k' & ? & ? & ? & ? & _); try done.
  - cbn. apply list_elem_of_fmap. by exists (key, b).
  - by exists q', s', k'.
Qed.

(** The phases are as few as possible: a call in a later
    phase than the first has an argument exported in the phase right before
    it (in missions without loops, whose steps are one per phase). *)
Theorem compile_phases_tight p ir k q s : compile p = Ok ir →
  forallb is_call (ir_steps ir) = true → in_phase ir (S k) q → ir_steps ir !! q = Some s →
  ∃ v q' s', in_phase ir k q' ∧ ir_steps ir !! q' = Some s' ∧ step_output s' = Some v ∧
    ∃ am it, analyze_mission p = Ok am ∧ it ∈ am_items am ∧ lower_item it = Ok s ∧ v ∈ outer_deps it.
Proof.
  intros (am & ordered & ph & num & Hc)%compile_compiled Hcalls Hk Hq.
  destruct (compiled_step Hc q s Hq) as (i & it & Hi & Hit & Hl & Hok).
  apply (compiled_in_phase Hc _ _ _ Hi) in Hk.
  assert (Hnoloop : existsb is_loop_item (am_items am) = false).
  { destruct (compiled_lowered Hc) as (l & Hl'%collect_Ok & Hp & _).
    apply lowered_steps in Hl'; [|apply (co_items _ _ _ _ _ _ Hc)].
    rewrite forallb_Forall, Hp in Hcalls. clear -Hl' Hcalls.
    induction Hl' as [|it s items l (_ & _ & _ & E) _ IH]; [done|].
    apply Forall_cons in Hcalls as [Hs Hcalls]. cbn. rewrite IH by done.
    rewrite Hs in E. by destruct (is_loop_item it). }
  destruct (so_tight _ _ _ _ (co_schedule _ _ _ _ _ _ Hc) i it k Hit Hnoloop Hk)
    as (v & j & Hv & Hj & Hkj).
  destruct (binding_index_Some _ _ _ Hj) as (jt & Hjt & Hjb).
  destruct (compiled_position Hc j) as (q' & s' & jt' & Hq' & Hs' & Hj' & Hl'); [by eapply lookup_lt_Some|].
  rewrite Hjt in Hj'. injection Hj' as <-.
  assert (Hokj : item_ok jt).
  { eapply Forall_lookup_1; [apply (io_items _ _ (co_items _ _ _ _ _ _ Hc))|exact Hjt]. }
  destruct (lower_item_Ok _ _ Hokj Hl') as (Hout & _).
  exists v, q', s'. split_and!; [by apply (compiled_in_phase Hc _ _ _ Hq')|done|by rewrite Hout|].
  exists am, it. split_and!; [apply (co_analysis _ _ _ _ _ _ Hc)|by eapply list_elem_of_lookup_2|done|done].
Qed.

(** Compilation loses and invents nothing: the steps are a
    permutation of the lowered statements, in source order when the mission
    has a loop. *)
Theorem compile_steps_permutation p ir : compile p = Ok ir →
  ∃ am steps, analyze_mission p = Ok am ∧ collect lower_item (am_items am) = Ok steps ∧
    ir_steps ir ≡ₚ steps ∧ (existsb is_loop_item (am_items am) = true → ir_steps ir = steps).
Proof.
  intros (am & ordered & ph & num & Hc)%compile_compiled.
  destruct (compiled_lowered Hc) as (steps & ? & ? & ?).
  exists am, steps. split_and!; try done. apply (co_analysis _ _ _ _ _ _ Hc).
Qed.

(** The IR is well formed: retrying calls have retries,
    optional calls do not abort, loops run 1 to 32 times over non-empty flat
    blocks in a scope of their own, bindings are unique, every reference of a
    step and of an emit resolves to an earlier step. *)
Theorem compile_well_formed p ir : compile p = Ok ir →
  Forall step_wf (ir_steps ir) ∧ NoDup (omap step_output (ir_steps ir)) ∧
  steps_scoped [] (ir_steps ir) ∧ Forall (emit_ok (omap step_output (ir_steps ir))) (ir_emits ir).
Proof.
  intros Hp. split; [by eapply compile_steps_wf|].
  apply compile_compiled in Hp as (am & ordered & ph & num & Hc).
  pose proof (compiled_outputs Hc) as Hout. split_and!.
  - rewrite Hout. apply (io_nodup _ _ (co_items _ _ _ _ _ _ Hc)).
  - intros q s b Hq Hb. destruct (compiled_has_phase Hc q s Hq) as [k Hk].
    destruct (compiled_producer Hc q s b k) as (q' & s' & k' & Hq' & Hs' & _ & _ & Hlt); try done.
    cbn. apply list_elem_of_omap. exists s'. split; [|done].
    apply list_elem_of_lookup. exists q'. by rewrite lookup_take_lt.
  - rewrite (co_emits _ _ _ _ _ _ Hc).
    eapply Forall_impl; [apply (proj2 (analyze_mission_ok _ _ (co_analysis _ _ _ _ _ _ Hc)))|].
    intros e. unfold emit_ok. destruct (ir_emit_value e); [done|]. by rewrite Hout.
Qed.

(** The mission-wide cap holds of the exact sum of the static
    call counts, which neither saturates nor wraps around: a compiled mission
    makes at most 256 calls (for missions with fewer than [2^59] calls in
    their text). *)
Theorem compile_call_bound p ir : compile p = Ok ir → (Z.of_nat (call_count ir) < 2 ^ 59)%Z →
  (call_bound (ir_steps ir) ≤ 256)%Z.
Proof. apply compile_bound_256. Qed.

(** Compilation never fails for a reason of its own: the cycle
    check finds nothing (references only go backwards), no index is out of
    bounds, no slot is taken twice, the recursion ends; every error is about
    the program text. *)
Theorem compile_no_internal_error p e : compile p = Err e → internal_error e = false.
Proof.
  enough (clean (compile p)) as Hcl by (intros E; rewrite E in Hcl; exact Hcl).
  unfold compile. apply clean_bind.
  - unfold analyze_mission. apply clean_fmap, analyze_statements_clean; unfold block_depth; lia.
  - intros am Ham. destruct (analyze_mission_ok _ _ Ham) as [Hitems _].
    pose proof (schedule_spec (am_items am) (items_ok_backward _ _ Hitems)) as Hs.
    destruct (schedule (am_items am)) as [[ordered ph] num].
    pose proof (lower_mission _ _ _ _ Hs) as Hlow. apply clean_bind.
    + destruct (lower_loop _ _ _ _) as [st|e0]; [done|]. destruct Hlow as (i & it & _ & Hl).
      pose proof (lower_item_clean it) as Hcl. by rewrite Hl in Hcl.
    + intros st _. cbn zeta. by apply clean_bind; [apply clean_ensure|].
Qed.
End with_order.

(** ** Witnesses *)

Definition diamond_source : string := quoted
  "mission 'd' { let a = call 'a' on 'n' let b = call 'b' on 'n' with { i = a.output }
     call 'log' on 'n' retries 2 on_failure retry
     let c = call 'c' on 'n' with { i = a.output }
     let d = 'team/d'.join(l: b.output, r: c.output) emit 'out' kind answer value d.output }".

(** The parse of [diamond_source] and its compilation. *)
Definition diamond_program : EalProgram :=
  Eval vm_compute in match parse diamond_source with Ok p => p | Err _ => mk_EalProgram (mk_MissionDecl EmptyString []) end.
Definition diamond_ir : MissionIr :=
  Eval vm_compute in match compile (H := elements_order) diamond_program with
                     | Ok ir => ir | Err _ => mk_MissionIr EmptyString [] [] [] default_constraints end.

Lemma compile_phases_partition_witness :
  compile (H := elements_order) diamond_program = Ok diamond_ir ∧
  contiguous 0 (ir_phases diamond_ir) (length (ir_steps diamond_ir)).
Proof.
  split; [vm_compute; reflexivity|].
  apply (compile_phases_partition (H := elements_order) diamond_program). vm_compute. reflexivity.
Defined.

Lemma compile_dataflow_witness : ∃ q' s' k', k' < 2 ∧ in_phase diamond_ir k' q' ∧
  ir_steps diamond_ir !! q' = Some s' ∧ step_output s' = Some "b".
Proof.
  eapply (compile_dataflow (H := elements_order) diamond_program diamond_ir 2 4).
  - vm_compute. reflexivity.
  - eexists. split; [reflexivity|cbn; lia].
  - reflexivity.
  - cbn. left.
Defined.

Lemma compile_phases_tight_witness : ∃ v q' s', in_phase diamond_ir 1 q' ∧
  ir_steps diamond_ir !! q' = Some s' ∧ step_output s' = Some v.
Proof.
  destruct (compile_phases_tight (H := elements_order) diamond_program diamond_ir 1 4
    (default (IrStepLoop (mk_IrLoop None 0 [] [] None)) (ir_steps diamond_ir !! 4)))
    as (v & q' & s' & H1 & H2 & H3 & _).
  - vm_compute. reflexivity.
  - reflexivity.
  - eexists. split; [reflexivity|cbn; lia].
  - reflexivity.
  - by exists v, q', s'.
Defined.

Lemma compile_steps_permutation_witness : ∃ am steps,
  analyze_mission (H := elements_order) diamond_program = Ok am ∧
  collect lower_item (am_items am) = Ok steps ∧ ir_steps diamond_ir ≡ₚ steps.
Proof.
  destruct (compile_steps_permutation (H := elements_order) diamond_program diamond_ir)
    as (am & steps & ? & ? & ? & _); [vm_compute; reflexivity|]. by exists am, steps.
Defined.

Lemma compile_well_formed_witness : Forall step_wf (ir_steps diamond_ir) ∧
  steps_scoped [] (ir_steps diamond_ir).
Proof.
  destruct (compile_well_formed (H := elements_order) diamond_program diamond_ir)
    as (? & _ & ? & _); [vm_compute; reflexivity|]. done.
Defined.

Lemma compile_call_bound_witness : (call_bound (ir_steps diamond_ir) ≤ 256)%Z.
Proof.
  apply (compile_call_bound (H := elements_order) diamond_program); vm_compute; reflexivity.
Defined.

Lemma compile_no_internal_error_witness :
  internal_error (UndefinedVariable "b" "a") = false.
Proof.
  apply (compile_no_internal_error (H := elements_order)
    (mk_EalProgram (mk_MissionDecl "m" [SLetCall "b"
       (mk_CallExpr "f" (Some "n") TKDevice [("i", FVVarRef "a")] default_options)]))).
  vm_compute. reflexivity.
Defined.
