(* ===== verification/Diagnostics.v ===== *)
(** * EAL errors (src/src/eal/diagnostics/mod.rs)

    Categories, rendering, and the classification of SDK errors. *)

From Stdlib Require Import String Ascii.
From S2P Require Import Prelude RustStd.

Open Scope Z_scope.

(** [EalError]. *)
Inductive EalError :=
| Validation (m : string)
| NotFound (m : string)
| Unavailable (m : string)
| DeadlineExceeded (m : string)
| Internal (m : string).

Definition error_code (e : EalError) : string :=
  match e with
  | Validation _ => "validation_error"
  | NotFound _ => "not_found"
  | Unavailable _ => "unavailable"
  | DeadlineExceeded _ => "deadline_exceeded"
  | Internal _ => "internal_error"
  end.

Definition message (e : EalError) : string :=
  match e with
  | Validation m | NotFound m | Unavailable m | DeadlineExceeded m | Internal m => m
  end.

(** [Display]: [write!(f, "{}: {}", self.error_code(), self.message())]. *)
Definition display (e : EalError) : string := error_code e +:+ (": " +:+ message e).

(** The variants of the SDK's error that [from_axon_error] matches on; the SDK
    error itself and its rendering are library code. *)
Inductive AxonKind :=
| AValidation | APolicyDenied | ANotInstalled | ANotActivated | ADeadlineExceeded
| ABridge | ANativeBridge | AStream | AInvocation | AIo | ASymbolNotFound | AJson | APartialSuccess.

Class AxonErrors := {
  AxonError : Type;
  axon_kind : AxonError → AxonKind;
  axon_to_string : AxonError → string;
}.

Definition from_axon_error `{AxonErrors} (err : AxonError) : EalError :=
  let msg := axon_to_string err in
  match axon_kind err with
  | AValidation | APolicyDenied => Validation msg
  | ANotInstalled | ANotActivated => NotFound msg
  | ADeadlineExceeded => DeadlineExceeded msg
  | ABridge | ANativeBridge | AStream | AInvocation | AIo => Unavailable msg
  | ASymbolNotFound | AJson | APartialSuccess => Internal msg
  end.

(** ** Properties *)

Lemma append_prefix_inj a b s t : str_contains 58 a = false → str_contains 58 b = false →
  a +:+ (": " +:+ s) = b +:+ (": " +:+ t) → a = b ∧ s = t.
Proof.
  revert b. induction a as [|c a IH]; intros [|d b] Ha Hb E.
  - change (EmptyString +:+ ?x) with x in E. by injection E.
  - change (EmptyString +:+ ?x) with x in E. rewrite !str_app_cons in E. injection E as <- _.
    cbn in Hb. done.
  - change (EmptyString +:+ ?x) with x in E. rewrite !str_app_cons in E. injection E as -> _.
    cbn in Ha. done.
  - rewrite !str_app_cons in E. injection E as -> E. cbn in Ha, Hb.
    apply orb_false_iff in Ha as [_ Ha], Hb as [_ Hb]. destruct (IH b Ha Hb E) as [-> ->]. done.
Qed.

(** The rendered error keeps the category and the message: two
    errors with the same text, as traces store it, are the same error. *)
Theorem display_injective e e' : display e = display e' → e = e'.
Proof.
  unfold display. intros E. apply append_prefix_inj in E as [Hc Hm]; [|by destruct e|by destruct e'].
  destruct e, e'; cbn in *; try discriminate; by subst.
Qed.

Lemma display_injective_witness : NotFound "x: y" = NotFound "x: y".
Proof. apply display_injective. reflexivity. Defined.
