(* ===== verification/Trace.v ===== *)
(** * Invocation records and execution traces (src/src/daemon/execution/child_invocation.rs,
    src/src/daemon/invocation/causal_context_projection.rs, src/src/eal/interpreter/trace.rs)

    Receipt anchors and invocation records with their JSON projections: the
    envelope is a type of the Axon SDK and [hex::encode] a function of the hex
    crate, both are parameters, the class [ChildLibs].  The trace read model and the
    bounded trace buffer, refined to its specification: the first 500 and the last 500
    entries of what was pushed. *)

From Stdlib Require Import String.
From S2P Require Import Prelude RustStd Json AgentId Ir.

Open Scope nat_scope.

(** The variants of [CausalContext] the projection matches on. *)
Inductive CausalContext :=
| CausalNone
| CausalScalar (receipt_ura receipt_hash : string)
| CausalList (receipts : list (string * string))
| CausalMerkle (root proof_ura : string).

Class ChildLibs := {
  InvocationEnvelope : Type;
  caller_ura : InvocationEnvelope → string;
  callee_ura : InvocationEnvelope → string;
  env_ability : InvocationEnvelope → string;
  subject_ura : InvocationEnvelope → string;
  invocation_nonce : InvocationEnvelope → string;
  causal_context : InvocationEnvelope → CausalContext;
  hex : string → string;
}.

(** [ChildInvocationReceiptAnchor]. *)
Record Anchor := mk_Anchor {
  anchor_invocation_ura : string;
  anchor_receipt_ura : string;
  anchor_receipt_hash : string;
}.

#[global] Instance Anchor_eq_dec : EqDecision Anchor.
Proof. solve_decision. Defined.

Section projections.
Context `{ChildLibs}.

Definition causal_context_projection (causal : CausalContext) : Value :=
  match causal with
  | CausalNone => VObject [("form", VString "none")]
  | CausalScalar ura hash =>
      VObject [("form", VString "scalar"); ("receipt_hash", VString (hex hash));
               ("receipt_ura", VString ura)]
  | CausalList receipts =>
      VObject [("form", VString "list");
               ("receipts", VArray (map (λ '(ura, hash),
                  VObject [("receipt_hash", VString (hex hash)); ("receipt_ura", VString ura)])
                  receipts))]
  | CausalMerkle root proof =>
      VObject [("form", VString "merkle"); ("root", VString (hex root));
               ("proof_ura", VString proof)]
  end.

Definition anchor_projection (a : Anchor) : Value :=
  VObject [("invocation_ura", VString (anchor_invocation_ura a));
           ("receipt_ura", VString (anchor_receipt_ura a));
           ("receipt_hash", VString (hex (anchor_receipt_hash a)))].

(** [ChildInvocationRecord]. *)
Record ChildInvocationRecord := mk_ChildInvocationRecord {
  envelope : InvocationEnvelope;
  invocation_ura : string;
  terminal_receipt : Anchor;
  dependency_receipts : list Anchor;
}.

Definition projection (r : ChildInvocationRecord) : Value :=
  VObject [("invocation_ura", VString (invocation_ura r));
           ("caller_ura", VString (caller_ura (envelope r)));
           ("callee_ura", VString (callee_ura (envelope r)));
           ("ability", VString (env_ability (envelope r)));
           ("subject_ura", VString (subject_ura (envelope r)));
           ("invocation_nonce", VString (hex (invocation_nonce (envelope r))));
           ("causal_context", causal_context_projection (causal_context (envelope r)));
           ("dependency_receipts", VArray (map anchor_projection (dependency_receipts r)));
           ("terminal_receipt", anchor_projection (terminal_receipt r))].
End projections.

(** ** Traces *)

(** ** Data *)

Inductive StepOutcome := StepCompleted | StepFailed | StepSkipped.
Inductive MissionOutcome := MissionCompleted | MissionPartial | MissionAborted.

#[global] Instance StepOutcome_eq_dec : EqDecision StepOutcome.
Proof. solve_decision. Defined.

Record RetryRecord := mk_RetryRecord {
  rr_attempt : Z;
  rr_elapsed_ms : Z;
  rr_backoff_ms : Z;
  rr_error : string;
}.

Record StepTrace := mk_StepTrace {
  st_step_id : string;
  st_ability : AbilityName;
  st_target : IrTarget;
  st_phase_index : nat;
  st_started_at : Z;
  st_completed_at : Z;
  st_elapsed_ms : Z;
  st_outcome : StepOutcome;
  st_retry_count : Z;
  st_retry_history : list RetryRecord;
  st_result_size : option nat;
  st_result_sha256 : option string;
  st_error : option string;
  st_invocation : option Value;
  st_input_refs : list (string * string);
  st_output_binding : option string;
}.

Record EmissionRecord := mk_EmissionRecord {
  em_seq : nat;
  em_name : string;
  em_kind : string;
  em_value : Value;
  em_source_binding : option string;
  em_error : option string;
}.

Record ExecutionTrace := mk_ExecutionTrace {
  schema_version : Z;
  mission_id : string;
  trace_mission_name : string;
  trace_started_at : Z;
  trace_completed_at : Z;
  trace_total_elapsed_ms : Z;
  phase_count : nat;
  trace_steps_completed : nat;
  trace_steps_failed : nat;
  trace_steps_skipped : nat;
  outcome : MissionOutcome;
  step_traces : list StepTrace;
  ability_graph : list Value;
  emissions : list EmissionRecord;
  traces_truncated : nat;
}.

(** [ExecutionReport]; [outputs] is the map of captured bindings. *)
Record ExecutionReport := mk_ExecutionReport {
  report_total_elapsed_ms : Z;
  report_steps_completed : nat;
  report_steps_failed : nat;
  trace : ExecutionTrace;
  outputs : gmap string Value;
}.

(** [CapturedResult]: the bytes of a result and the record of its invocation. *)
Record CapturedResult `{ChildLibs} := mk_CapturedResult {
  cap_value : string;
  cap_invocation : ChildInvocationRecord;
}.

Definition EXECUTION_TRACE_SCHEMA_VERSION : Z := 1.
Definition TRACE_CAP_HEAD : nat := 500.
Definition TRACE_CAP_TAIL : nat := 500.

(** ** The bounded buffer *)

Record CappedTraceBuffer := mk_Buffer {
  buf_head : list StepTrace;
  buf_tail : list StepTrace;
  dropped : nat;
}.

Definition buffer_new : CappedTraceBuffer := mk_Buffer [] [] 0.

(** [push]: into the head while it has room, then into the rolling tail. *)
Definition buffer_push (t : StepTrace) (b : CappedTraceBuffer) : CappedTraceBuffer :=
  if length (buf_head b) <? TRACE_CAP_HEAD
  then mk_Buffer (buf_head b ++ [t]) (buf_tail b) (dropped b)
  else
    let '(tl, d) := if length (buf_tail b) =? TRACE_CAP_TAIL
                    then (tail (buf_tail b), S (dropped b)) else (buf_tail b, dropped b) in
    mk_Buffer (buf_head b) (tl ++ [t]) d.

Definition into_parts (b : CappedTraceBuffer) : list StepTrace * nat :=
  (buf_head b ++ buf_tail b, dropped b).

(** ** Refinement *)

(** The entries kept of a history, and how many fall between them. *)
Definition kept (history : list StepTrace) : list StepTrace :=
  take TRACE_CAP_HEAD history ++
  drop (Nat.max TRACE_CAP_HEAD (length history - TRACE_CAP_TAIL)) history.
Definition omitted (history : list StepTrace) : nat :=
  length history - (TRACE_CAP_HEAD + TRACE_CAP_TAIL).

(** A buffer represents a history. *)
Definition represents (b : CappedTraceBuffer) (history : list StepTrace) : Prop :=
  buf_head b = take TRACE_CAP_HEAD history ∧
  buf_tail b = drop (Nat.max TRACE_CAP_HEAD (length history - TRACE_CAP_TAIL)) history ∧
  dropped b = omitted history.

Lemma drop_snoc {A} n (l : list A) x : n ≤ length l → drop n (l ++ [x]) = drop n l ++ [x].
Proof. intros Hn. by rewrite drop_app_le. Qed.

Lemma tail_drop {A} n (l : list A) : tail (drop n l) = drop (S n) l.
Proof. revert l. induction n as [|n IH]; intros [|x l]; try done. apply IH. Qed.

Lemma buffer_push_represents b history t : represents b history →
  represents (buffer_push t b) (history ++ [t]).
Proof.
  unfold represents, buffer_push, omitted. intros (Hh & Ht & Hd).
  rewrite length_app. cbn [length]. rewrite Hh, length_take.
  assert (Hpos : 0 < TRACE_CAP_TAIL) by (unfold TRACE_CAP_TAIL; lia). revert Hpos Hh Ht Hd.
  generalize TRACE_CAP_HEAD as H, TRACE_CAP_TAIL as T. intros H T Hpos Hh Ht Hd.
  destruct (Nat.ltb_spec (Nat.min H (length history)) H) as [Hlt|Hge]; cbn [buf_head buf_tail dropped].
  - rewrite (take_ge history), (take_ge (history ++ [t])) by (rewrite ?length_app; cbn; lia).
    split_and!; [done| |lia]. rewrite Ht, !drop_ge; [done|rewrite ?length_app; cbn; lia..].
  - rewrite take_app_le by lia. rewrite Ht, length_drop.
    destruct (Nat.eqb_spec (length history - Nat.max H (length history - T)) T) as [He|Hne];
      cbn [buf_head buf_tail dropped].
    + split_and!; [done| |lia]. rewrite tail_drop, drop_snoc by lia. do 2 f_equal. lia.
    + split_and!; [done| |lia]. rewrite drop_snoc by lia. do 2 f_equal. lia.
Qed.

(** Pushing a sequence of traces. *)
Definition push_all (ts : list StepTrace) (b : CappedTraceBuffer) : CappedTraceBuffer :=
  foldl (λ b t, buffer_push t b) b ts.

Lemma push_all_represents ts : represents (push_all ts buffer_new) ts.
Proof.
  unfold push_all. induction ts as [|t ts IH] using rev_ind; [done|].
  rewrite foldl_app. by apply buffer_push_represents.
Qed.

Lemma trace_buffer_kept ts : length ts ≤ 1000 → kept ts = ts.
Proof.
  unfold kept. assert (TRACE_CAP_HEAD = 500 ∧ TRACE_CAP_TAIL = 500) as [EH ET] by done. rewrite EH, ET.
  intros Hle. replace (Nat.max 500 (length ts - 500)) with 500 by lia. apply take_drop.
Qed.

(** After any sequence of pushes the bounded buffer holds
    exactly the first 500 and the last 500 entries in order, and its counter
    is the number of entries in between. *)
Theorem trace_buffer_refines ts :
  into_parts (push_all ts buffer_new) = (kept ts, omitted ts) ∧
  length (kept ts) + omitted ts = length ts ∧ length (kept ts) ≤ 1000 ∧
  (length ts ≤ 1000 → kept ts = ts).
Proof.
  destruct (push_all_represents ts) as (Hh & Ht & Hd).
  unfold into_parts, kept, omitted in *. rewrite Hh, Ht, Hd.
  assert (TRACE_CAP_HEAD = 500 ∧ TRACE_CAP_TAIL = 500) as [EH ET] by done. rewrite EH, ET.
  split_and!; [done|rewrite length_app, length_take, length_drop; lia..|].
  apply trace_buffer_kept.
Qed.
