(* ===== verification/World.v ===== *)
(** * What the interpreter runs against

    The interpreter is written in a state monad over an opaque world: the two
    clocks, sleeping, the dispatcher it is given and the rayon thread pool are
    operations on the world (interfaces, the classes below); everything else
    is code of the repository.  SHA-256 is library code too. *)

From Stdlib Require Import String.
From S2P Require Import Prelude RustStd AgentId Json Ir Trace Diagnostics.

Open Scope Z_scope.

(** ** The state monad *)

Definition st (W A : Type) : Type := W → A * W.

#[global] Instance st_ret W : MRet (st W) := λ A a w, (a, w).
#[global] Instance st_bind W : MBind (st W) := λ A B f m w, let '(a, w') := m w in f a w'.

Lemma st_bind_eq {W A B} (m : st W A) (f : A → st W B) w : (m ≫= f) w = f (m w).1 (m w).2.
Proof. unfold mbind, st_bind. by destruct (m w). Qed.

(** A [for] loop over a list, threading a state. *)
Fixpoint fold_st {W S A} (f : S → A → st W S) (s : S) (l : list A) : st W S :=
  match l with
  | [] => mret s
  | x :: l => s ← f s x; fold_st f s l
  end.

(** ** Clocks *)

(** [Instant::now] in nanoseconds, [SystemTime::now().duration_since(UNIX_EPOCH)]
    in milliseconds ([None] before the epoch), [thread::sleep]. *)
Class World (W : Type) := {
  instant_now : st W Z;
  unix_epoch_ms : st W (option Z);
  sleep_ms : Z → st W unit;
}.

(** The largest [Instant] of the platform: [i64] seconds and nanoseconds. *)
Definition instant_max : Z := 2 ^ 63 * 1000000000 - 1.

(** [Instant::checked_add]. *)
Definition checked_add (t d : Z) : option Z :=
  if t + d <=? instant_max then Some (t + d) else None.

(** [millis_u64] (interpreter/mod.rs) of a duration in nanoseconds. *)
Definition millis_u64 (ns : Z) : Z := u64_saturating (ns / 1000000).

(** [Instant::duration_since], [Instant::elapsed]: saturating at zero. *)
Definition duration_since (later earlier : Z) : Z := Z.max 0 (later - earlier).

Section clocks.
Context {W} `{World W}.

Definition elapsed_ms (t0 : Z) : st W Z :=
  now ← instant_now; mret (millis_u64 (duration_since now t0)).

(** [now_unix_ms] (interpreter/retry.rs). *)
Definition now_unix_ms : st W Z :=
  ms ← unix_epoch_ms; mret (u64_saturating (default 0 ms)).
End clocks.

(** ** Hashing *)

(** [Sha256::digest]; digests have 32 bytes. *)
Class Sha256 := {
  sha256 : string → string;
  sha256_length s : String.length (sha256 s) = 32%nat;
}.

(** ** Dispatch *)

Record RunContext := mk_RunContext {
  run_tenant : string;
  run_trace_id : string;
  run_deadline : option Z;
}.

Inductive StepDispatchConcurrency := Sequential | Parallel.

Record StepDispatchOutcome `{ChildLibs} := mk_StepDispatchOutcome {
  out_value : Value;
  out_invocation : ChildInvocationRecord;
}.

(** The [dispatch] method: run context, target, ability, arguments, timeout,
    dependency receipts. *)
Definition Dispatch (W : Type) `{ChildLibs} : Type :=
  RunContext → IrTarget → AbilityName → Value → option Z → list Anchor →
  st W (result EalError StepDispatchOutcome).

(** [trait StepDispatcher]; of a worker-local clone only [dispatch] is used. *)
Class StepDispatcher (W : Type) `{ChildLibs} := {
  dispatch : Dispatch W;
  dispatch_concurrency : StepDispatchConcurrency;
  clone_for_thread : st W (result EalError (Dispatch W));
}.

(** ** The thread pool *)

(** [rayon::scope] with one spawned task per element, each pushing its indexed
    result onto the shared queue: the queue's contents when the scope ends, in
    completion order.  Whatever the interleaving, the world as one task
    observes it is some world, every task pushes once, and the tasks' uses of a
    resource add up. *)
Class Rayon (W : Type) := {
  scope : ∀ {A}, list (nat * st W A) → st W (list (nat * A));
  scope_spec {A} (tasks : list (nat * st W A)) w :
    ∃ rs, (scope tasks w).1 ≡ₚ rs ∧
      Forall2 (λ t r, r.1 = t.1 ∧ ∃ wi, r.2 = (t.2 wi).1) tasks rs;
  scope_cost {A} (cost : W → nat) (tasks : list (nat * st W A)) (ns : list nat) w :
    Forall2 (λ t n, ∀ wi, cost (t.2 wi).2 ≤ cost wi + n)%nat tasks ns →
    (cost (scope tasks w).2 ≤ cost w + sum_list ns)%nat;
}.

(** The one-thread pool: tasks run one after the other. *)
Definition sequential_scope {W A} (tasks : list (nat * st W A)) : st W (list (nat * A)) :=
  fold_st (λ out '(i, t), r ← t; mret (out ++ [(i, r)])) [] tasks.

Lemma sequential_scope_spec {W A} (tasks : list (nat * st W A)) w :
  ∃ rs, (sequential_scope tasks w).1 ≡ₚ rs ∧
    Forall2 (λ t r, r.1 = t.1 ∧ ∃ wi, r.2 = (t.2 wi).1) tasks rs.
Proof.
  unfold sequential_scope.
  enough (∀ out w, ∃ rs, (fold_st (λ out '(i, t), r ← t; mret (out ++ [(i, r)])) out tasks w).1
    = out ++ rs ∧ Forall2 (λ t r, r.1 = t.1 ∧ ∃ wi, r.2 = (t.2 wi).1) tasks rs) as Hgen.
  { destruct (Hgen [] w) as (rs & -> & ?). by exists rs. }
  clear w. induction tasks as [|[i t] tasks IH]; intros out w; cbn [fold_st].
  { exists []. cbn. rewrite app_nil_r. done. }
  rewrite !st_bind_eq. cbn. destruct (IH (out ++ [(i, (t w).1)]) (t w).2) as (rs & -> & Hrs).
  exists ((i, (t w).1) :: rs). rewrite <- app_assoc. split; [done|].
  constructor; [|done]. cbn. eauto.
Qed.

Lemma sequential_scope_cost {W A} (cost : W → nat) (tasks : list (nat * st W A)) ns w :
  Forall2 (λ t n, ∀ wi, cost (t.2 wi).2 ≤ cost wi + n)%nat tasks ns →
  (cost (sequential_scope tasks w).2 ≤ cost w + sum_list ns)%nat.
Proof.
  unfold sequential_scope. intros Hf.
  enough (∀ out w, (cost (fold_st (λ out '(i, t), r ← t; mret (out ++ [(i, r)])) out tasks w).2 ≤
    cost w + sum_list ns)%nat) as Hgen by apply Hgen.
  clear w. induction Hf as [|[i t] n tasks ns Ht _ IH]; intros out w; cbn [fold_st]; [cbn; lia|].
  change (sum_list (n :: ns)) with (n + sum_list ns)%nat.
  rewrite !st_bind_eq. cbn. specialize (Ht w). specialize (IH (out ++ [(i, (t w).1)]) (t w).2).
  cbn in Ht. lia.
Qed.

Definition sequential_rayon W : Rayon W := {|
  scope := λ A, sequential_scope;
  scope_spec := λ A, sequential_scope_spec;
  scope_cost := λ A, sequential_scope_cost;
|}.
