(* ===== verification/Retry.v ===== *)
(** * Steps: retry, argument resolution, results (src/src/eal/interpreter/retry.rs)

    Terminal output is not modelled. *)

From Stdlib Require Import String Ascii.
From S2P Require Import Prelude RustStd AgentId Json Lexer Ir Trace Diagnostics.
From S2P Require Import World.

Open Scope Z_scope.

Definition RETRY_BASE_MS : Z := 1000.
Definition RETRY_MAX_MS : Z := 30000.

(** ** Bytes *)

(** [{b:02x}] of a byte. *)
Definition hex_digit (n : Z) : ascii :=
  ascii_of_N (Z.to_N (if n <? 10 then 48 + n else 87 + n)).

Fixpoint hex_encode (s : string) : string :=
  match s with
  | EmptyString => EmptyString
  | String c s => String (hex_digit (byte_val c / 16)) (String (hex_digit (byte_val c mod 16)) (hex_encode s))
  end.

(** [u64::from_le_bytes]. *)
Fixpoint le_value (s : string) : Z :=
  match s with
  | EmptyString => 0
  | String c s => byte_val c + 256 * le_value s
  end.

(** [u32::to_le_bytes]. *)
Definition u32_le_bytes (n : Z) : string :=
  let byte k := ascii_of_N (Z.to_N (n / 2 ^ (8 * k) mod 256)) in
  String (byte 0) (String (byte 1) (String (byte 2) (String (byte 3) EmptyString))).

(** ** The verify predicate *)

Inductive VerifyDone :=
| DoneTrue
| DoneFalse
| Malformed (reason : string).

Section verify.
Context `{SerdeJson}.

(** [peel_shell_envelope]. *)
Definition peel_shell_envelope (v : Value) : Value :=
  match as_object v with
  | None => v
  | Some obj =>
      match assoc "result" obj, assoc "fulfilled_by" obj with
      | Some inner, Some _ =>
          match inner with
          | VString s => match from_slice s with Ok v => v | Err _ => VString s end
          | inner => inner
          end
      | _, _ => v
      end
  end.

(** [Display] of a value: its compact text, the bytes of [to_vec]. *)
Definition value_display (v : Value) : string :=
  match to_vec v with Ok text => text | Err e => e end.

(** [verify_output_done]. *)
Definition verify_output_done (bytes : string) : VerifyDone :=
  match from_slice bytes with
  | Err e => Malformed ("verify output is not JSON-decodable (" +:+ e +:+ ")")
  | Ok v =>
      match as_object (peel_shell_envelope v) with
      | None => Malformed ("verify output must be a JSON object with a top-level `done: bool` field, got "
                        +:+ value_display (peel_shell_envelope v))
      | Some obj =>
          match assoc "done" obj with
          | Some (VBool true) => DoneTrue
          | Some (VBool false) => DoneFalse
          | Some other => Malformed ("verify output `done` must be boolean, got " +:+ value_display other)
          | None => Malformed "verify output has no top-level `done` field (RFC §4.4)"
          end
      end
  end.
End verify.

(** ** Backoff *)

(** [compute_backoff] with [u64] arithmetic as in a release build. *)
Definition compute_backoff `{Sha256} (attempt : Z) (step_id : string) : Z :=
  let base := u64_wrap (RETRY_BASE_MS * u64_wrap (2 ^ Z.max 0 (attempt - 1))) in
  let capped := Z.min base RETRY_MAX_MS in
  let hash := sha256 (step_id +:+ u32_le_bytes attempt) in
  let jitter_seed := le_value (String.substring 0 8 hash) in
  let jitter := jitter_seed mod (RETRY_BASE_MS / 2 + 1) in
  capped + jitter.

Definition CHUNK_MS : Z := 50.

(** The sleeps of [backoff_sleep], in order. *)
Fixpoint backoff_chunks (fuel : nat) (remaining : Z) : list Z :=
  match fuel with
  | O => []
  | S fuel =>
      if 0 <? remaining then
        let chunk := Z.min remaining CHUNK_MS in
        chunk :: backoff_chunks fuel (Z.max 0 (remaining - chunk))
      else []
  end.

Definition backoff_sleeps (total_ms : Z) : list Z :=
  if total_ms <=? CHUNK_MS then [total_ms]
  else backoff_chunks (S (Z.to_nat (total_ms / CHUNK_MS))) total_ms.

(** ** Results *)

Inductive ResolveError :=
| UpstreamSkipped (binding arg : string)
| Other (m : string).

Section steps.
Context {W : Type} `{!World W, !ChildLibs, !SerdeJson, !Sha256}.

(** [StepExecResult]. *)
Inductive StepExecResult :=
| ExecOk (result_bytes result_sha256 : string) (elapsed_ms started_at completed_at retry_count : Z)
    (retry_history : list RetryRecord) (invocation : ChildInvocationRecord)
| ExecError (msg : string) (elapsed_ms started_at retry_count : Z) (retry_history : list RetryRecord)
| SkippedByDependency (msg : string) (started_at : Z).

Definition backoff_sleep (total_ms : Z) : st W unit :=
  fold_st (λ _ ms, sleep_ms ms) tt (backoff_sleeps total_ms).

Definition sha256_hex (data : string) : string := hex_encode (sha256 data).

(** [effective_dispatch_timeout_ms]. *)
Definition effective_dispatch_timeout_ms (step_timeout_ms : option Z) (deadline : option Z)
  : st W (result EalError (option Z)) :=
  match deadline with
  | None => mret (Ok step_timeout_ms)
  | Some deadline =>
      now ← instant_now;
      if deadline <=? now
      then mret (Err (DeadlineExceeded "mission run timeout expired before dispatch"))
      else
        let remaining_ms := Z.max (millis_u64 (duration_since deadline now)) 1 in
        mret (Ok (Some (match step_timeout_ms with
                        | Some step_timeout => Z.min step_timeout remaining_ms
                        | None => remaining_ms
                        end)))
  end.

(** [1 + max_retries] attempts under the retry policy, one otherwise. *)
Definition max_attempts (step : IrCall) : Z :=
  if bool_decide (call_on_failure step = Retry) && (0 <? call_max_retries step)
  then 1 + call_max_retries step else 1.

Definition step_timeout_ms (step : IrCall) : option Z :=
  if 0 <? call_timeout_seconds step then Some (call_timeout_seconds step * 1000) else None.

(** The loop of [execute_step_with_retry] from [attempt] on; [togo] is
    [max_attempts - attempt]. *)
Fixpoint retry_loop (disp : Dispatch W) (run : RunContext) (step : IrCall) (arguments : Value)
    (deps : list Anchor) (started_at t0 : Z) (attempt : Z) (togo : nat)
    (history : list RetryRecord) : st W StepExecResult :=
  match togo with
  | O =>
      elapsed ← elapsed_ms t0;
      mret (ExecError "exhausted all retry attempts" elapsed started_at
              (Z.max 0 (max_attempts step - 1)) history)
  | S togo =>
      _ ← (if 0 <? attempt then backoff_sleep (compute_backoff attempt (step_id step)) else mret tt);
      attempt_start ← instant_now;
      timeout ← effective_dispatch_timeout_ms (step_timeout_ms step) (run_deadline run);
      match timeout with
      | Err error =>
          elapsed ← elapsed_ms t0;
          mret (ExecError (display error) elapsed started_at attempt history)
      | Ok timeout =>
          res ← disp run (target step) (ability step) arguments timeout deps;
          match res with
          | Ok outcome =>
              match to_vec (out_value outcome) with
              | Err e =>
                  elapsed ← elapsed_ms t0;
                  mret (ExecError (display (Internal ("step result not JSON-serializable: " +:+ e)))
                          elapsed started_at attempt history)
              | Ok bytes =>
                  completed_at ← now_unix_ms;
                  elapsed ← elapsed_ms t0;
                  mret (ExecOk bytes (sha256_hex bytes) elapsed started_at completed_at attempt
                          history (out_invocation outcome))
              end
          | Err e =>
              let rendered := display e in
              attempt_elapsed ← elapsed_ms attempt_start;
              let backoff := if attempt + 1 <? max_attempts step
                             then compute_backoff (attempt + 1) (step_id step) else 0 in
              let history := history ++ [mk_RetryRecord (attempt + 1) attempt_elapsed backoff rendered] in
              if max_attempts step <=? attempt + 1 then
                elapsed ← elapsed_ms t0;
                mret (ExecError rendered elapsed started_at attempt history)
              else retry_loop disp run step arguments deps started_at t0 (attempt + 1) togo history
          end
      end
  end.

(** [execute_step_with_retry]. *)
Definition execute_step_with_retry (disp : Dispatch W) (run : RunContext) (step : IrCall)
    (arguments : Value) (deps : list Anchor) : st W StepExecResult :=
  started_at ← now_unix_ms;
  t0 ← instant_now;
  retry_loop disp run step arguments deps started_at t0 0 (Z.to_nat (max_attempts step)) [].

(** ** Arguments *)

(** The loop of [resolve_arguments] over the input references. *)
Fixpoint resolve_refs (results : gmap string CapturedResult) (skipped : gset string)
    (refs : list (string * string)) (args : list (string * Value))
  : result ResolveError (list (string * Value)) :=
  match refs with
  | [] => Ok args
  | (key, src) :: refs =>
      if bool_decide (src ∈ skipped) then Err (UpstreamSkipped src key)
      else
        captured ← ok_or (results !! src)
          (Other ("unresolved ref `" +:+ src +:+
                  "` (neither captured nor skipped — likely an analyzer/planner bug)"));
        val ← map_err (λ e, Other ("input ref `" +:+ key +:+ "` from binding `" +:+ src +:+
                 "` is not valid JSON: " +:+ e +:+ ". Upstream step likely returned a malformed result."))
                (from_slice (cap_value captured));
        resolve_refs results skipped refs (index_insert key val args)
  end.

Definition resolve_arguments (step : IrCall) (results : gmap string CapturedResult)
    (skipped : gset string) : result ResolveError Value :=
  args ← resolve_refs results skipped (input_refs step) (default [] (as_object (static_arguments step)));
  Ok (VObject args).

(** ** Processing a result *)

(** [process_step_result]: outcome, trace, captured bytes, invocation. *)
Definition process_step_result (step : IrCall) (r : StepExecResult) (phase_idx : nat)
  : st W (StepOutcome * StepTrace * option string * option ChildInvocationRecord) :=
  match r with
  | ExecOk bytes sha elapsed started_at completed_at retry_count history invocation =>
      mret (StepCompleted,
        mk_StepTrace (step_id step) (ability step) (target step) phase_idx started_at completed_at
          elapsed StepCompleted retry_count history (Some (String.length bytes)) (Some sha) None
          (Some (projection invocation)) (input_refs step) (output_binding step),
        Some bytes, Some invocation)
  | ExecError msg elapsed started_at retry_count history =>
      completed_at ← now_unix_ms;
      let outcome := if call_optional step || bool_decide (call_on_failure step = Skip)
                     then StepSkipped else StepFailed in
      mret (outcome,
        mk_StepTrace (step_id step) (ability step) (target step) phase_idx started_at completed_at
          elapsed outcome retry_count history None None (Some msg) None (input_refs step)
          (output_binding step), None, None)
  | SkippedByDependency msg started_at =>
      completed_at ← now_unix_ms;
      mret (StepSkipped,
        mk_StepTrace (step_id step) (ability step) (target step) phase_idx started_at completed_at
          0 StepSkipped 0 [] None None (Some msg) None (input_refs step) (output_binding step),
        None, None)
  end.
End steps.
