(* ===== verification/RetryProps.v ===== *)
(** * Properties of single steps *)

From Stdlib Require Import String Ascii.
From S2P Require Import Prelude RustStd AgentId Json Ir Trace Diagnostics World.
From S2P Require Import Retry.

Open Scope Z_scope.

(** ** Backoff *)

(** The jitter is at most half the base delay. *)
Lemma compute_backoff_jitter `{Sha256} attempt id :
  ∃ j, 0 ≤ j ≤ 500 ∧ compute_backoff attempt id =
    Z.min (u64_wrap (RETRY_BASE_MS * u64_wrap (2 ^ Z.max 0 (attempt - 1)))) RETRY_MAX_MS + j.
Proof.
  unfold compute_backoff. eexists. split; [|reflexivity].
  assert (RETRY_BASE_MS / 2 + 1 = 501) as -> by reflexivity.
  pose proof (Z.mod_pos_bound (le_value (String.substring 0 8
    (sha256 (id +:+ u32_le_bytes attempt)))) 501). lia.
Qed.

(** The capped exponential part: exact up to attempt 55, and at its cap until
    the product's low 64 bits vanish at attempt 62. *)
Lemma backoff_base attempt : 1 ≤ attempt ≤ 61 →
  Z.min (u64_wrap (RETRY_BASE_MS * u64_wrap (2 ^ Z.max 0 (attempt - 1)))) RETRY_MAX_MS =
  Z.min (RETRY_BASE_MS * 2 ^ (attempt - 1)) RETRY_MAX_MS.
Proof.
  intros Ha. assert (Hin : In (Z.to_nat attempt) (seq 1 61)) by (apply in_seq; lia).
  rewrite <- (Z2Nat.id attempt) by lia. clear Ha.
  revert Hin. generalize (Z.to_nat attempt). apply List.Forall_forall. 
  repeat (constructor; [vm_compute; reflexivity|]). constructor.
Qed.

Lemma backoff_base_zero attempt : 62 ≤ attempt →
  u64_wrap (RETRY_BASE_MS * u64_wrap (2 ^ Z.max 0 (attempt - 1))) = 0.
Proof.
  intros Ha. unfold u64_wrap. rewrite Zmult_mod_idemp_r, Z.max_r by lia.
  replace (RETRY_BASE_MS * 2 ^ (attempt - 1)) with (125 * 2 ^ (attempt - 62) * 2 ^ 64).
  - apply Z.mod_mul. lia.
  - replace (attempt - 1) with ((attempt - 62) + 61) by lia. rewrite Z.pow_add_r by lia.
    change RETRY_BASE_MS with (125 * 2 ^ 3). change (2 ^ 64) with (2 ^ 3 * 2 ^ 61). ring.
Qed.

(** The chunks of a sleep. *)
Lemma backoff_chunks_spec fuel total : 0 ≤ total ≤ Z.of_nat fuel * CHUNK_MS →
  foldr Z.add 0 (backoff_chunks fuel total) = total ∧
  Forall (λ ms, 0 < ms ≤ CHUNK_MS) (backoff_chunks fuel total).
Proof.
  revert total. induction fuel as [|fuel IH]; intros total Ht.
  { cbn. split; [lia|constructor]. }
  cbn [backoff_chunks].
  destruct (Z.ltb_spec 0 total) as [Hpos|]; [|cbn; split; [lia|constructor]].
  unfold CHUNK_MS in *. destruct (IH (Z.max 0 (total - Z.min total 50))) as [IH1 IH2]; [lia|].
  cbn. rewrite IH1. split; [lia|]. constructor; [lia|done].
Qed.

(** A sleep is cut into chunks of at most 50 ms that add up to it
    exactly. *)
Theorem backoff_sleep_exact total : 0 ≤ total →
  foldr Z.add 0 (backoff_sleeps total) = total ∧ Forall (λ ms, 0 ≤ ms ≤ 50) (backoff_sleeps total).
Proof.
  intros Ht. unfold backoff_sleeps. destruct (Z.leb_spec total CHUNK_MS) as [Hle|Hgt].
  - cbn. split; [lia|]. constructor; [|constructor]. unfold CHUNK_MS in Hle. lia.
  - destruct (backoff_chunks_spec (S (Z.to_nat (total / CHUNK_MS))) total) as [H1 H2].
    + unfold CHUNK_MS in *. pose proof (Z.div_mod total 50 ltac:(lia)).
      pose proof (Z.mod_pos_bound total 50). pose proof (Z.div_pos total 50 Ht). lia.
    + split; [done|]. eapply Forall_impl; [exact H2|]. unfold CHUNK_MS. cbn. lia.
Qed.

Lemma backoff_sleep_exact_witness : foldr Z.add 0 (backoff_sleeps 1234) = 1234.
Proof. apply (backoff_sleep_exact 1234). lia. Defined.

(** The delay before attempt [a] is [min(1000 * 2^(a-1), 30000)]
    plus at most 500 ms, for the attempts a mission can reasonably make. *)
Theorem compute_backoff_bounds `{Sha256} attempt id : 1 ≤ attempt ≤ 61 →
  Z.min (RETRY_BASE_MS * 2 ^ (attempt - 1)) RETRY_MAX_MS ≤ compute_backoff attempt id ≤
  Z.min (RETRY_BASE_MS * 2 ^ (attempt - 1)) RETRY_MAX_MS + 500.
Proof.
  intros Ha. destruct (compute_backoff_jitter attempt id) as (j & Hj & ->).
  rewrite backoff_base by done. lia.
Qed.

(** A digest for examples: 32 zero bytes. *)
Definition zero_sha256 : Sha256 := {|
  sha256 := λ _, string_of_list_ascii (replicate 32 (ascii_of_nat 0));
  sha256_length := λ _, eq_refl;
|}.

Lemma compute_backoff_bounds_witness : 4000 ≤ compute_backoff (H := zero_sha256) 3 "step" ≤ 4500.
Proof. apply (compute_backoff_bounds (H := zero_sha256) 3 "step"). lia. Defined.

(** From attempt 62 on the exponential part wraps to zero, so the
    delay falls back to the jitter alone instead of staying at the cap. *)
Theorem compute_backoff_collapses `{Sha256} attempt id : 62 ≤ attempt ≤ u32_max →
  0 ≤ compute_backoff attempt id ≤ 500.
Proof.
  intros Ha. destruct (compute_backoff_jitter attempt id) as (j & Hj & ->).
  rewrite backoff_base_zero by lia. unfold RETRY_MAX_MS. lia.
Qed.

Lemma compute_backoff_collapses_witness : 0 ≤ compute_backoff (H := zero_sha256) 62 "step" ≤ 500.
Proof. apply (compute_backoff_collapses (H := zero_sha256) 62 "step"). unfold u32_max. lia. Defined.

(** ** A logic for steps

    [ensures_st m n Q]: from every world, [m] returns a value with [Q] and uses
    at most [n] units of a metered resource. *)

Class Meter (W : Type) `{!World W, !ChildLibs, !StepDispatcher W} := {
  cost : W → nat;
  cost_instant w : (cost (instant_now w).2 ≤ cost w)%nat;
  cost_epoch w : (cost (unix_epoch_ms w).2 ≤ cost w)%nat;
  cost_sleep ms w : (cost (sleep_ms ms w).2 ≤ cost w)%nat;
  cost_clone w : (cost (clone_for_thread w).2 ≤ cost w)%nat;
  cost_dispatch run t a v timeout deps w :
    (cost (dispatch run t a v timeout deps w).2 ≤ S (cost w))%nat;
  cost_cloned w d : (clone_for_thread w).1 = Ok d → ∀ run t a v timeout deps w',
    (cost (d run t a v timeout deps w').2 ≤ S (cost w'))%nat;
}.

(** The meter that counts nothing. *)
Definition no_meter W `{!World W, !ChildLibs, !StepDispatcher W} : Meter W.
Proof. by exists (λ _, 0%nat); intros; lia. Defined.

Section logic.
Context {W : Type} `{!World W, !ChildLibs, !SerdeJson, !Sha256, !StepDispatcher W, !Meter W}.

Definition ensures_st {A} (m : st W A) (n : nat) (Q : A → Prop) : Prop :=
  ∀ w, (cost (m w).2 ≤ cost w + n)%nat ∧ Q (m w).1.

Lemma est_ret {A} (a : A) n (Q : A → Prop) : Q a → ensures_st (mret a) n Q.
Proof. intros HQ w. cbn. split; [lia|done]. Qed.

Lemma est_bind {A B} (m : st W A) (k : A → st W B) n n1 n2 Q R :
  (n1 + n2 ≤ n)%nat → ensures_st m n1 Q → (∀ a, Q a → ensures_st (k a) n2 R) → ensures_st (m ≫= k) n R.
Proof.
  intros Hn Hm Hk w. rewrite st_bind_eq. destruct (Hm w) as [Hc HQ].
  destruct (Hk _ HQ (m w).2) as [Hc' HR]. split; [lia|done].
Qed.

Lemma est_weaken {A} (m : st W A) n n' Q R :
  ensures_st m n Q → (n ≤ n')%nat → (∀ a, Q a → R a) → ensures_st m n' R.
Proof. intros Hm Hn HR w. destruct (Hm w). split; [lia|auto]. Qed.

(** A free step whose value is not constrained. *)
Abbreviation free m := (ensures_st m 0 (λ _, True)).

Lemma est_then {A B} (m : st W A) (k : A → st W B) n R :
  free m → (∀ a, ensures_st (k a) n R) → ensures_st (m ≫= k) n R.
Proof. intros Hm Hk. eapply est_bind; [|exact Hm|auto]. lia. Qed.

Lemma free_instant : free instant_now.
Proof. intros w. pose proof (cost_instant w). split; [lia|done]. Qed.
Lemma free_elapsed t0 : free (elapsed_ms t0).
Proof. apply est_then; [apply free_instant|]. intros. by apply est_ret. Qed.
Lemma free_unix : free now_unix_ms.
Proof.
  apply est_then; [|intros; by apply est_ret]. intros w. pose proof (cost_epoch w). split; [lia|done].
Qed.
Lemma free_sleep ms : free (sleep_ms ms).
Proof. intros w. pose proof (cost_sleep ms w). split; [lia|done]. Qed.
Lemma free_backoff ms : free (backoff_sleep ms).
Proof.
  unfold backoff_sleep. generalize tt. induction (backoff_sleeps ms) as [|x l IH]; intros u; cbn [fold_st].
  - by apply est_ret.
  - apply est_then; [apply free_sleep|auto].
Qed.
Lemma free_effective s d : free (effective_dispatch_timeout_ms s d).
Proof.
  unfold effective_dispatch_timeout_ms. destruct d; [|by apply est_ret].
  apply est_then; [apply free_instant|]. intros now. by case_match; apply est_ret.
Qed.

(** A dispatch function that uses one unit. *)
Definition metered (disp : Dispatch W) : Prop := ∀ run t a v timeout deps,
  ensures_st (disp run t a v timeout deps) 1 (λ _, True).

Lemma metered_dispatch : metered dispatch.
Proof. intros run t a v timeout deps w. pose proof (cost_dispatch run t a v timeout deps w). split; [lia|done]. Qed.

(** ** The retry loop *)

(** The attempts of a history are numbered from 1. *)
Definition numbered (h : list RetryRecord) (n : nat) : Prop :=
  rr_attempt <$> h = Z.of_nat <$> seq 1 n.

Lemma numbered_snoc h n x y e : numbered h n →
  numbered (h ++ [mk_RetryRecord (Z.of_nat n + 1) x y e]) (S n).
Proof.
  unfold numbered. intros Hh. rewrite seq_S, !fmap_app, Hh. cbn. do 2 f_equal. lia.
Qed.

(** The shape of a step result, of at most [M] attempts. *)
Definition result_shape (M : nat) (r : StepExecResult) : Prop :=
  match r with
  | ExecOk _ _ _ _ _ n h _ => ∃ m, n = Z.of_nat m ∧ (m < M)%nat ∧ numbered h m
  | ExecError msg _ _ n h => ∃ m, n = Z.of_nat m ∧ (m < M)%nat ∧
      (numbered h m ∨ (S m = M ∧ numbered h M ∧ ∃ h' x y, h = h' ++ [mk_RetryRecord (Z.of_nat M) x y msg]))
  | SkippedByDependency _ _ => False
  end.

Lemma max_attempts_pos step : 1 ≤ max_attempts step.
Proof. unfold max_attempts. case_match eqn:E; [|lia]. apply andb_true_iff in E as [_ E%Z.ltb_lt]. lia. Qed.

Lemma retry_loop_shape disp run step args deps started t0 togo : metered disp →
  ∀ k h, (k + togo = Z.to_nat (max_attempts step))%nat → (0 < togo)%nat → numbered h k →
  ensures_st (retry_loop disp run step args deps started t0 (Z.of_nat k) togo h) togo
    (result_shape (Z.to_nat (max_attempts step))).
Proof.
  intros Hd. set (M := Z.to_nat (max_attempts step)).
  assert (HM : max_attempts step = Z.of_nat M).
  { unfold M. pose proof (max_attempts_pos step). lia. }
  induction togo as [|togo IH]; intros k h Hk Hpos Hh; [lia|]. cbn [retry_loop].
  apply est_then; [case_match; [apply free_backoff|by apply est_ret]|intros _].
  apply est_then; [apply free_instant|intros attempt_start].
  apply est_then; [apply free_effective|intros [timeout|err]].
  2:{ apply est_then; [apply free_elapsed|intros e]. apply est_ret. exists k. split_and!; [done|lia|auto]. }
  eapply est_bind; [|apply Hd|]; [instantiate (1 := togo); lia|]. intros [out|e] _.
  - destruct (to_vec (out_value out)) as [bytes|e].
    + apply est_then; [apply free_unix|intros c]. apply est_then; [apply free_elapsed|intros el].
      apply est_ret. exists k. split_and!; [done|lia|done].
    + apply est_then; [apply free_elapsed|intros el]. apply est_ret. exists k. split_and!; [done|lia|auto].
  - apply est_then; [apply free_elapsed|intros el]. cbn zeta. rewrite HM.
    destruct (Z.leb_spec (Z.of_nat M) (Z.of_nat k + 1)) as [Hlast|Hmore].
    + apply est_then; [apply free_elapsed|intros el2]. apply est_ret. exists k.
      split_and!; [done|lia|]. right. assert (S k = M) as <- by lia.
      split_and!; [done|by apply numbered_snoc|]. eexists h, _, _. do 3 f_equal. lia.
    + replace (Z.of_nat k + 1) with (Z.of_nat (S k)) by lia.
      apply IH; [lia|lia|]. pose proof (numbered_snoc h k) as Hn.
      replace (Z.of_nat k + 1) with (Z.of_nat (S k)) in Hn by lia. by apply Hn.
Qed.

Lemma execute_step_shape disp run step args deps : metered disp →
  ensures_st (execute_step_with_retry disp run step args deps) (Z.to_nat (max_attempts step))
    (result_shape (Z.to_nat (max_attempts step))).
Proof.
  intros Hd. unfold execute_step_with_retry.
  apply est_then; [apply free_unix|intros s]. apply est_then; [apply free_instant|intros t0].
  pose proof (max_attempts_pos step). apply (retry_loop_shape _ _ _ _ _ _ _ _ Hd 0); [lia|lia|done].
Qed.

(** A step makes at most [1 + max_retries] dispatches under the
    retry policy and one under every other; its result has the number of the
    last attempt, below that bound, and the failed attempts numbered from 1,
    all of them with the last error as the message when every attempt failed. *)
Theorem step_attempts run step args deps w :
  let '(r, w') := execute_step_with_retry dispatch run step args deps w in
  (cost w' ≤ cost w + Z.to_nat (max_attempts step))%nat ∧ result_shape (Z.to_nat (max_attempts step)) r.
Proof.
  pose proof (execute_step_shape dispatch run step args deps metered_dispatch w) as Hs.
  by destruct (execute_step_with_retry dispatch run step args deps w).
Qed.
End logic.

(** ** Arguments *)

Section arguments.
Context `{!ChildLibs, !SerdeJson}.

Lemma resolve_refs_Ok results skipped refs : NoDup (refs.*1) → ∀ args args',
  resolve_refs results skipped refs args = Ok args' →
  (∀ k b, (k, b) ∈ refs → (b ∉ skipped) ∧ ∃ c v, (results !! b = Some c) ∧
     from_slice (cap_value c) = Ok v ∧ assoc k args' = Some v) ∧
  (∀ k, k ∉ refs.*1 → assoc k args' = assoc k args).
Proof.
  induction refs as [|[k b] refs IH]; intros Hnd args args' Hr; cbn in Hr.
  { inv_ok. split; [|done]. by intros k b ?%elem_of_nil. }
  cbn in Hnd. apply NoDup_cons in Hnd as [Hk Hnd]. case_bool_decide as Hs; [done|]. inv_ok.
  destruct (IH Hnd _ _ Hr) as [H1 H2]. split.
  - intros k' b' [[= -> ->]|Hin]%elem_of_cons; [|by apply H1]. split; [done|].
    exists x, x0. split_and!; [done|done|]. rewrite (H2 k Hk), assoc_index_insert, String.eqb_refl. done.
  - intros k' Hk'. cbn in Hk'. apply not_elem_of_cons in Hk' as [Hne Hk'].
    rewrite (H2 k' Hk'), assoc_index_insert. by destruct (String.eqb_spec k' k).
Qed.

(** When the arguments of a step resolve, every input names a
    captured result that was not skipped, the argument is that result's JSON,
    and all other arguments are the static ones. *)
Theorem resolve_arguments_spec step results skipped args :
  NoDup ((input_refs step).*1) → resolve_arguments step results skipped = Ok args →
  ∃ fields, args = VObject fields ∧
    (∀ k b, (k, b) ∈ input_refs step → (b ∉ skipped) ∧ ∃ c v, results !! b = Some c ∧
       from_slice (cap_value c) = Ok v ∧ assoc k fields = Some v) ∧
    (∀ k, k ∉ (input_refs step).*1 →
       assoc k fields = assoc k (default [] (as_object (static_arguments step)))).
Proof.
  intros Hnd Hr. unfold resolve_arguments in Hr. inv_ok. exists x. split; [done|].
  by apply (resolve_refs_Ok results skipped).
Qed.

(** Data flow between steps preserves values: what a producer
    returned is what the consumer receives under the argument that refers to
    it, through the captured bytes. *)
Theorem data_flow_roundtrip `{!SerdeJsonLaws} step results skipped fields k b c v :
  NoDup ((input_refs step).*1) → resolve_arguments step results skipped = Ok (VObject fields) →
  (k, b) ∈ input_refs step → results !! b = Some c →
  json_exact 127 v = true → to_vec v = Ok (cap_value c) →
  assoc k fields = Some v.
Proof.
  intros Hnd Hr Hin Hc Hex Hv. unfold resolve_arguments in Hr. inv_ok. simplify_eq.
  apply resolve_refs_Ok in E as [Hrefs _]; [|done]. destruct (Hrefs k b Hin) as (_ & c' & v' & Hc' & Hf & Ha).
  simplify_eq. destruct (serde_roundtrip v Hex) as (bytes & Hb & Hd). congruence.
Qed.
End arguments.

(** ** Deadlines *)

(** Under a run deadline a step is dispatched only before it, and
    the timeout handed to the dispatcher is at least a millisecond, within the
    remaining budget (rounded up to one millisecond) and within the step's own
    timeout. *)
Theorem dispatch_timeout_budget {W} `{!World W} (step : IrCall) deadline w :
  let now := (instant_now w).1 in
  match (effective_dispatch_timeout_ms (step_timeout_ms step) (Some deadline) w).1 with
  | Err e => deadline ≤ now ∧ error_code e = "deadline_exceeded"
  | Ok None => False
  | Ok (Some t) =>
      now < deadline ∧ 1 ≤ t ≤ Z.max 1 (millis_u64 (deadline - now)) ∧
      match step_timeout_ms step with Some own => t ≤ own | None => True end
  end.
Proof.
  cbn zeta. unfold effective_dispatch_timeout_ms. rewrite st_bind_eq. set (now := (instant_now w).1).
  destruct (Z.leb_spec deadline now) as [Hle|Hlt]; cbn; [done|].
  assert (Hown : ∀ own, step_timeout_ms step = Some own → 1 ≤ own).
  { unfold step_timeout_ms. intros own. case_match eqn:E; [|done]. intros [= <-]. apply Z.ltb_lt in E. lia. }
  unfold duration_since. rewrite (Z.max_r 0 (deadline - now)) by lia. split; [done|].
  destruct (step_timeout_ms step) as [own|]; [specialize (Hown own eq_refl)|]; split; try lia.
Qed.
