(* ===== verification/Phases.v ===== *)
(** * Phases, batches and loops (src/src/eal/interpreter/phases.rs), and the mission (src/src/eal/interpreter/mod.rs)

    The mutable borrows of [PhaseRunState] are its fields, passed and returned.
    A panic ([unreachable!], an index out of bounds) is [None] of the monad
    [pm].  Terminal output is not modelled.  At the end the run of a mission: the
    loop over phases and partitions, emissions and the report. *)

From Stdlib Require Import String.
From S2P Require Import Prelude RustStd AgentId Json Ir Trace Diagnostics World Retry.

Open Scope nat_scope.

(** ** The panicking monad *)

Definition pm (W A : Type) : Type := W → option (A * W).

#[global] Instance pm_ret W : MRet (pm W) := λ A a w, Some (a, w).
#[global] Instance pm_bind W : MBind (pm W) := λ A B f m w,
  match m w with Some (a, w') => f a w' | None => None end.

Definition lift {W A} (m : st W A) : pm W A := λ w, Some (m w).
Definition panic_on_none {W A} (o : option A) : pm W A := λ w, (λ a, (a, w)) <$> o.

Fixpoint fold_pm {W S A} (f : S → A → pm W S) (s : S) (l : list A) : pm W S :=
  match l with
  | [] => mret s
  | x :: l => s ← f s x; fold_pm f s l
  end.

(** ** Splitting a phase *)

Inductive PhasePartition :=
| Calls (steps : list IrStep)
| Loop (l : IrLoop).

(** [&steps[s..i]]. *)
Definition slice {A} (l : list A) (s e : nat) : list A := take (e - s) (drop s l).

(** The loop of [split_phase_steps] over index and step: partitions so far and
    the start of the current run of calls. *)
Definition split_step (steps : list IrStep) (acc : list PhasePartition * option nat)
    (x : nat * IrStep) : list PhasePartition * option nat :=
  let '(out, run_start) := acc in
  let '(i, step) := x in
  match step with
  | IrStepCall _ => (out, match run_start with None => Some i | s => s end)
  | IrStepLoop l =>
      let out := match run_start with Some s => out ++ [Calls (slice steps s i)] | None => out end in
      (out ++ [Loop l], None)
  end.

Definition split_phase_steps (steps : list IrStep) : list PhasePartition :=
  let '(out, run_start) := foldl (split_step steps) ([], None) (imap pair steps) in
  match run_start with Some s => out ++ [Calls (drop s steps)] | None => out end.

(** [calls_from_partition]; [None] is its [unreachable!]. *)
Definition calls_from_partition (steps : list IrStep) : option (list IrCall) :=
  mapM (λ s, match s with IrStepCall c => Some c | IrStepLoop _ => None end) steps.

(** [flatten_loop_leaves]; [None] is its error. *)
Definition flatten_loop_leaves (block : list IrStep) : option (list IrCall) :=
  mapM (λ s, match s with IrStepCall c => Some c | IrStepLoop _ => None end) block.

(** ** Receipts *)

Definition RECEIPT_GRAPH_SENTINEL : string := "__runner_receipt_graph__".
Definition LOOP_VERIFY_SYNTHETIC_BINDING : string := "__loop_verify.output__".

(** [substitute_receipt_graph]. *)
Definition substitute_receipt_graph (args : Value) (receipt_graph : list Value) : Value :=
  match args with
  | VObject fields =>
      VObject (map (λ kv, (kv.1, match as_str kv.2 with
                                 | Some s => if bool_decide (s = RECEIPT_GRAPH_SENTINEL)
                                             then VArray receipt_graph else kv.2
                                 | None => kv.2
                                 end)) fields)
  | args => args
  end.

Section phases.
Context {W : Type} `{!World W, !ChildLibs, !SerdeJson, !Sha256, !StepDispatcher W, !Rayon W}.

(** [dependency_receipts_from_captured]: the terminal receipts of the producers
    of the step's inputs, each producer once. *)
Definition dependency_receipts_from_captured (step : IrCall) (captured : gmap string CapturedResult)
  : list Anchor :=
  (foldl (λ '(seen, parents) binding,
     if bool_decide (binding ∈ seen) then (seen, parents)
     else ({[binding]} ∪ seen,
           match captured !! binding with
           | Some produced => parents ++ [terminal_receipt (cap_invocation produced)]
           | None => parents
           end)) ((∅ : gset string), []) (snd <$> input_refs step)).2.

(** [PhaseRunState]. *)
Record PhaseRunState := mk_PhaseRunState {
  global_step : nat;
  captured : gmap string CapturedResult;
  receipt_graph : list Value;
  skipped_bindings : gset string;
  completed : nat;
  failed : nat;
  skipped : nat;
  aborted : bool;
  all_traces : CappedTraceBuffer;
}.

(** ** Batches *)

(** The result of a step whose arguments do not resolve. *)
Definition unresolved (e : ResolveError) : st W StepExecResult :=
  match e with
  | UpstreamSkipped binding arg =>
      t ← now_unix_ms;
      mret (SkippedByDependency ("skipped: input `" +:+ arg +:+ "` depends on `" +:+ binding +:+
              "` which was skipped upstream") t)
  | Other e => t ← now_unix_ms; mret (ExecError e 0 t 0 [])
  end.

(** One iteration of [dispatch_batch]'s preparation loop: the results already
    known and the tasks to spawn. *)
Definition prepare_task (run : RunContext) (steps : list IrCall)
    (cap : gmap string CapturedResult) (graph : list Value) (skip : gset string)
    (acc : list (nat * StepExecResult) * list (nat * st W StepExecResult)) (local_idx : nat)
  : pm W (list (nat * StepExecResult) * list (nat * st W StepExecResult)) :=
  let '(collector, tasks) := acc in
  step ← panic_on_none (steps !! local_idx);
  match resolve_arguments step cap skip with
  | Err e => r ← lift (unresolved e); mret (collector ++ [(local_idx, r)], tasks)
  | Ok args =>
      d ← lift clone_for_thread;
      match d with
      | Err e =>
          t ← lift now_unix_ms;
          mret (collector ++ [(local_idx, ExecError (display e) 0 t 0 [])], tasks)
      | Ok disp =>
          let args := substitute_receipt_graph args graph in
          let deps := dependency_receipts_from_captured step cap in
          mret (collector, tasks ++ [(local_idx, execute_step_with_retry disp run step args deps)])
      end
  end.

(** One iteration of the sequential loop. *)
Definition dispatch_one (run : RunContext) (steps : list IrCall)
    (cap : gmap string CapturedResult) (graph : list Value) (skip : gset string)
    (results : list (nat * StepExecResult)) (local_idx : nat)
  : pm W (list (nat * StepExecResult)) :=
  step ← panic_on_none (steps !! local_idx);
  match resolve_arguments step cap skip with
  | Err e => r ← lift (unresolved e); mret (results ++ [(local_idx, r)])
  | Ok args =>
      let args := substitute_receipt_graph args graph in
      let deps := dependency_receipts_from_captured step cap in
      r ← lift (execute_step_with_retry dispatch run step args deps);
      mret (results ++ [(local_idx, r)])
  end.

Definition dispatch_batch (run : RunContext) (steps : list IrCall) (indices : list nat)
    (cap : gmap string CapturedResult) (graph : list Value) (skip : gset string) (parallel : bool)
  : pm W (list (nat * StepExecResult)) :=
  match indices with
  | [] => mret []
  | _ =>
      if parallel && (1 <? length indices) then
        '(collector, tasks) ← fold_pm (prepare_task run steps cap graph skip) ([], []) indices;
        finished ← lift (scope tasks);
        mret (sort_by_key fst (collector ++ finished))
      else fold_pm (dispatch_one run steps cap graph skip) [] indices
  end.

(** One iteration of [process_batch]. *)
Definition process_one (steps : list IrCall) (phase_idx : nat) (state : PhaseRunState)
    (r : nat * StepExecResult) : pm W PhaseRunState :=
  let '(local_idx, exec_result) := r in
  step ← panic_on_none (steps !! local_idx);
  '(outcome, trace, result_bytes, invocation) ← lift (process_step_result step exec_result phase_idx);
  let state := mk_PhaseRunState (S (global_step state)) (captured state) (receipt_graph state)
                 (skipped_bindings state) (completed state) (failed state) (skipped state)
                 (aborted state) (all_traces state) in
  state ← match outcome with
    | StepCompleted =>
        invocation ← panic_on_none invocation;
        let cap := match output_binding step, result_bytes with
                   | Some binding, Some bytes =>
                       <[binding := mk_CapturedResult _ bytes invocation]> (captured state)
                   | _, _ => captured state
                   end in
        mret (mk_PhaseRunState (global_step state) cap (receipt_graph state ++ [projection invocation])
                (skipped_bindings state) (S (completed state)) (failed state) (skipped state)
                (aborted state) (all_traces state))
    | StepFailed =>
        let ab := if negb (call_optional step) && bool_decide (call_on_failure step = Abort)
                  then true else aborted state in
        mret (mk_PhaseRunState (global_step state) (captured state) (receipt_graph state)
                (skipped_bindings state) (completed state) (S (failed state)) (skipped state)
                ab (all_traces state))
    | StepSkipped =>
        let sk := match output_binding step with
                  | Some binding => {[binding]} ∪ skipped_bindings state
                  | None => skipped_bindings state
                  end in
        mret (mk_PhaseRunState (global_step state) (captured state) (receipt_graph state) sk
                (completed state) (failed state) (S (skipped state)) (aborted state)
                (all_traces state))
    end;
  mret (mk_PhaseRunState (global_step state) (captured state) (receipt_graph state)
          (skipped_bindings state) (completed state) (failed state) (skipped state)
          (aborted state) (buffer_push trace (all_traces state))).

Definition process_batch (steps : list IrCall) (phase_idx : nat)
    (results : list (nat * StepExecResult)) (state : PhaseRunState) : pm W PhaseRunState :=
  fold_pm (process_one steps phase_idx) state results.

(** The indices of the steps with a given [optional] flag. *)
Definition indices_of (opt : bool) (steps : list IrCall) : list nat :=
  fst <$> filter (λ x, call_optional x.2 = opt) (imap pair steps).

(** [execute_calls_phase_partition]. *)
Definition execute_calls_phase_partition (run : RunContext) (steps : list IrCall) (phase_idx : nat)
    (state : PhaseRunState) : pm W PhaseRunState :=
  match steps with
  | [] => mret state
  | _ =>
      let can_parallel := (1 <? length steps) &&
                          match dispatch_concurrency with Parallel => true | Sequential => false end in
      let required := indices_of false steps in
      let optional := indices_of true steps in
      results ← dispatch_batch run steps required (captured state) (receipt_graph state)
                  (skipped_bindings state) can_parallel;
      state ← process_batch steps phase_idx results state;
      if negb (aborted state) && negb (bool_decide (optional = [])) then
        results ← dispatch_batch run steps optional (captured state) (receipt_graph state)
                    (skipped_bindings state) can_parallel;
        process_batch steps phase_idx results state
      else mret state
  end.

(** ** Loops *)

(** The scope of one iteration: [iter_captured] and [iter_skipped]. *)
Record IterScope := mk_IterScope {
  iter_captured : gmap string CapturedResult;
  iter_skipped : gset string;
}.

(** [process_batch] on one result with the block's own scope and a skip counter
    that is thrown away. *)
Definition process_in_block (steps : list IrCall) (phase_idx i : nat) (r : StepExecResult)
    (outer : PhaseRunState) (scope : IterScope) : pm W (PhaseRunState * IterScope) :=
  b ← process_batch steps phase_idx [(i, r)]
        (mk_PhaseRunState (global_step outer) (iter_captured scope) (receipt_graph outer)
           (iter_skipped scope) (completed outer) (failed outer) 0 (aborted outer) (all_traces outer));
  mret (mk_PhaseRunState (global_step b) (captured outer) (receipt_graph b) (skipped_bindings outer)
          (completed b) (failed b) (skipped outer) (aborted b) (all_traces b),
        mk_IterScope (captured b) (skipped_bindings b)).

(** The loop of [run_loop_block_sequentially] over index and step; the boolean
    is the function's result. *)
Fixpoint run_block_steps (run : RunContext) (steps : list IrCall) (phase_idx last_idx : nat)
    (todo : list (nat * IrCall)) (outer : PhaseRunState) (scope : IterScope)
  : pm W (bool * PhaseRunState * IterScope) :=
  match todo with
  | [] => mret (negb (aborted outer), outer, scope)
  | (i, step) :: todo =>
      if aborted outer then mret (false, outer, scope)
      else
        match resolve_arguments step (iter_captured scope) (iter_skipped scope) with
        | Err (UpstreamSkipped binding arg) =>
            r ← lift (unresolved (UpstreamSkipped binding arg));
            '(outer, scope) ← process_in_block steps phase_idx i r outer scope;
            run_block_steps run steps phase_idx last_idx todo outer scope
        | Err (Other e) =>
            r ← lift (unresolved (Other e));
            '(outer, scope) ← process_in_block steps phase_idx i r outer scope;
            mret (negb (aborted outer), outer, scope)
        | Ok args =>
            let args := substitute_receipt_graph args (receipt_graph outer) in
            let deps := dependency_receipts_from_captured step (iter_captured scope) in
            r ← lift (execute_step_with_retry dispatch run step args deps);
            let scope :=
              match r with
              | ExecOk bytes _ _ _ _ _ _ invocation =>
                  if i =? last_idx
                  then mk_IterScope (<[LOOP_VERIFY_SYNTHETIC_BINDING :=
                                         mk_CapturedResult _ bytes invocation]> (iter_captured scope))
                                    (iter_skipped scope)
                  else scope
              | _ => scope
              end in
            '(outer, scope) ← process_in_block steps phase_idx i r outer scope;
            run_block_steps run steps phase_idx last_idx todo outer scope
        end
  end.

Definition run_loop_block_sequentially (run : RunContext) (steps : list IrCall) (phase_idx : nat)
    (outer : PhaseRunState) (scope : IterScope) : pm W (bool * PhaseRunState * IterScope) :=
  run_block_steps run steps phase_idx (length steps - 1) (imap pair steps) outer scope.

(** [*state.failed += 1; *state.aborted = true]. *)
Definition loop_abort (state : PhaseRunState) : PhaseRunState :=
  mk_PhaseRunState (global_step state) (captured state) (receipt_graph state)
    (skipped_bindings state) (completed state) (S (failed state)) (skipped state) true
    (all_traces state).

Definition set_captured (cap : gmap string CapturedResult) (state : PhaseRunState) : PhaseRunState :=
  mk_PhaseRunState (global_step state) cap (receipt_graph state) (skipped_bindings state)
    (completed state) (failed state) (skipped state) (aborted state) (all_traces state).

(** The capture [execute_loop] inspects after an iteration. *)
Definition final_capture (final_call : IrCall) (scope : IterScope) : option CapturedResult :=
  match (output_binding final_call) ≫= (λ b, iter_captured scope !! b) with
  | Some c => Some c
  | None => iter_captured scope !! LOOP_VERIFY_SYNTHETIC_BINDING
  end.

(** The iterations of [execute_loop]; [togo] are left. *)
Fixpoint loop_iterations (run : RunContext) (lp : IrLoop) (body verify : list IrCall)
    (phase_idx : nat) (togo : nat) (state : PhaseRunState) : pm W PhaseRunState :=
  match togo with
  | O => mret (loop_abort state)
  | S togo =>
      if aborted state then mret state
      else
        '(body_ok, state, scope) ←
          run_loop_block_sequentially run body phase_idx state (mk_IterScope ∅ ∅);
        if negb body_ok || aborted state then mret state
        else
          '(verify_ok, state, scope) ← run_loop_block_sequentially run verify phase_idx state scope;
          if negb verify_ok || aborted state then mret state
          else
            final_call ← panic_on_none (verify !! (length verify - 1));
            match final_capture final_call scope with
            | None => mret (loop_abort state)
            | Some c =>
                match verify_output_done (cap_value c) with
                | Malformed _ => mret (loop_abort state)
                | DoneTrue =>
                    mret (match result_binding lp with
                          | Some rb => set_captured (<[rb := c]> (captured state)) state
                          | None => state
                          end)
                | DoneFalse => loop_iterations run lp body verify phase_idx togo state
                end
            end
  end.

(** [execute_loop]. *)
Definition execute_loop (run : RunContext) (lp : IrLoop) (phase_idx : nat) (state : PhaseRunState)
  : pm W PhaseRunState :=
  match flatten_loop_leaves (ir_body lp), flatten_loop_leaves (ir_verify lp) with
  | Some body, Some verify =>
      loop_iterations run lp body verify phase_idx (Z.to_nat (ir_max_iters lp)) state
  | _, _ => mret (loop_abort state)
  end.

(** ** Partitions *)

Definition run_partition (run : RunContext) (phase_idx : nat) (state : PhaseRunState)
    (p : PhasePartition) : pm W PhaseRunState :=
  match p with
  | Calls steps =>
      calls ← panic_on_none (calls_from_partition steps);
      execute_calls_phase_partition run calls phase_idx state
  | Loop lp => execute_loop run lp phase_idx state
  end.
End phases.

Arguments PhaseRunState {_}.
Arguments IterScope {_}.

(** ** Running a mission *)

(** [decode_emitted_value]. *)
Definition decode_emitted_value `{SerdeJson} (bytes : string) : Value :=
  match from_slice bytes with Ok v => v | Err _ => VString (from_utf8_lossy bytes) end.

Section mission.
Context {W : Type} `{!World W, !ChildLibs, !SerdeJson, !Sha256, !StepDispatcher W, !Rayon W}.

(** One record of [resolve_emissions]. *)
Definition resolve_emission (cap : gmap string CapturedResult) (idx : nat) (emit : IrEmit)
  : EmissionRecord :=
  let seq := S idx in
  match ir_emit_value emit with
  | Literal value => mk_EmissionRecord seq (ir_emit_name emit) (ir_emit_kind emit) value None None
  | Binding binding =>
      match cap !! binding with
      | Some r =>
          mk_EmissionRecord seq (ir_emit_name emit) (ir_emit_kind emit)
            (decode_emitted_value (cap_value r)) (Some binding) None
      | None =>
          mk_EmissionRecord seq (ir_emit_name emit) (ir_emit_kind emit) VNull (Some binding)
            (Some ("binding '" +:+ binding +:+
                   "' was not captured; producer may have failed or skipped"))
      end
  end.

Definition resolve_emissions (emits : list IrEmit) (cap : gmap string CapturedResult)
  : list EmissionRecord := imap (resolve_emission cap) emits.

(** The [ability_graph] of the trace: the invocation records of the steps that
    have one, with the step id added. *)
Definition ability_graph_of (ts : list StepTrace) : list Value :=
  omap (λ t, match st_invocation t with
             | Some (VObject fields) => Some (VObject (index_insert "step_id" (VString (st_step_id t)) fields))
             | other => other
             end) ts.

Definition initial_state : PhaseRunState :=
  mk_PhaseRunState 0 ∅ [] ∅ 0 0 0 false buffer_new.

(** [&ir.steps[phase.start..phase.end]]; [None] is the panic. *)
Definition phase_slice (steps : list IrStep) (r : PhaseRange) : option (list IrStep) :=
  if (start r <=? stop r) && (stop r <=? length steps) then Some (slice steps (start r) (stop r))
  else None.

(** The loop over a phase's partitions. *)
Definition run_partitions (run : RunContext) (phase_idx : nat) (ps : list PhasePartition)
    (state : PhaseRunState) : pm W PhaseRunState :=
  fold_pm (λ state p, if aborted state then mret state else run_partition run phase_idx state p)
          state ps.

(** The loop over the phases. *)
Definition run_phases (run : RunContext) (ir : MissionIr) (state : PhaseRunState) : pm W PhaseRunState :=
  fold_pm (λ state '(phase_idx, phase),
     if aborted state then mret state
     else
       phase_steps ← panic_on_none (phase_slice (ir_steps ir) phase);
       if bool_decide (length phase_steps = 0) then mret state
       else run_partitions run phase_idx (split_phase_steps phase_steps) state)
    state (imap pair (ir_phases ir)).

Definition mission_outcome (state : PhaseRunState) : MissionOutcome :=
  if aborted state then MissionAborted
  else if 0 <? failed state then MissionPartial
  else MissionCompleted.

(** [execute_with_dispatcher_for_trace_with_timeout]; the timeout is in
    nanoseconds. *)
Definition execute_mission (tenant : string) (ir : MissionIr) (mission_id : string)
    (run_timeout : option Z) : pm W ExecutionReport :=
  deadline ← match run_timeout with
    | Some timeout => now ← lift instant_now; mret (checked_add now timeout)
    | None => mret None
    end;
  let run := mk_RunContext tenant mission_id deadline in
  mission_start ← lift instant_now;
  started_at ← lift now_unix_ms;
  state ← run_phases run ir initial_state;
  total_elapsed ← lift (elapsed_ms mission_start);
  completed_at ← lift now_unix_ms;
  let outcome := mission_outcome state in
  let '(step_traces, truncated) := into_parts (all_traces state) in
  let ability_graph := ability_graph_of step_traces in
  let emissions := resolve_emissions (ir_emits ir) (captured state) in
  let trace := mk_ExecutionTrace EXECUTION_TRACE_SCHEMA_VERSION mission_id (ir_name ir) started_at
                 completed_at total_elapsed (length (ir_phases ir)) (completed state) (failed state)
                 (skipped state) outcome step_traces ability_graph emissions truncated in
  let outputs := (λ r, decode_emitted_value (cap_value r)) <$> captured state in
  mret (mk_ExecutionReport total_elapsed (completed state) (failed state) trace outputs).
End mission.
