(* ===== verification/PhasesProps.v ===== *)
(** * The interpreter does not panic, stays within bounds and keeps its books

    A logic for the panicking monad and, with it, one invariant carried through
    batches, loops, partitions and phases. *)

From Stdlib Require Import String Sorting.Sorted.
From S2P Require Import Prelude RustStd AgentId Json Ir Trace Diagnostics World.
From S2P Require Import Retry RetryProps Phases.

Open Scope nat_scope.

(** ** Weights *)

(** The weight of a step, given the weight of a call: a loop weighs its calls
    once per iteration. *)
Definition weight (f : IrCall → nat) (s : IrStep) : nat :=
  match s with
  | IrStepCall c => f c
  | IrStepLoop l => Z.to_nat (ir_max_iters l) *
      sum_list (f <$> concat (map walk_calls (ir_body l)) ++ concat (map walk_calls (ir_verify l)))
  end.

(** The dispatches a call may make. *)
Definition attempts (c : IrCall) : nat := Z.to_nat (max_attempts c).

Lemma sum_list_app l l' : sum_list (l ++ l') = sum_list l + sum_list l'.
Proof. induction l as [|n l IH]; [done|]. cbn. rewrite IH. lia. Qed.

Lemma sum_list_cons n l : sum_list (n :: l) = n + sum_list l.
Proof. done. Qed.

Section logic.
Context {W : Type} `{!World W, !ChildLibs, !SerdeJson, !Sha256, !StepDispatcher W, !Rayon W, !Meter W}.

(** [ensures m n Q]: from every world [m] does not panic, uses at most [n]
    dispatches and returns a value with [Q]. *)
Definition ensures {A} (m : pm W A) (n : nat) (Q : A → Prop) : Prop :=
  ∀ w, ∃ a w', m w = Some (a, w') ∧ cost w' ≤ cost w + n ∧ Q a.

Lemma ens_ret {A} (a : A) n (Q : A → Prop) : Q a → ensures (mret a) n Q.
Proof. intros HQ w. exists a, w. split_and!; [done|lia|done]. Qed.

Lemma ens_bind {A B} (m : pm W A) (k : A → pm W B) n n1 n2 Q R :
  n1 + n2 ≤ n → ensures m n1 Q → (∀ a, Q a → ensures (k a) n2 R) → ensures (m ≫= k) n R.
Proof.
  intros Hn Hm Hk w. destruct (Hm w) as (a & w1 & E & Hc & HQ).
  destruct (Hk a HQ w1) as (b & w2 & E2 & Hc2 & HR).
  exists b, w2. unfold mbind, pm_bind. rewrite E. split_and!; [done|lia|done].
Qed.

Lemma ens_bind0 {A B} (m : pm W A) (k : A → pm W B) n Q R :
  ensures m 0 Q → (∀ a, Q a → ensures (k a) n R) → ensures (m ≫= k) n R.
Proof. intros Hm Hk. by apply (ens_bind m k n 0 n Q R). Qed.

Lemma ens_weaken {A} (m : pm W A) n n' Q R :
  ensures m n Q → n ≤ n' → (∀ a, Q a → R a) → ensures m n' R.
Proof.
  intros Hm Hn HR w. destruct (Hm w) as (a & w' & E & Hc & HQ). exists a, w'. split_and!; [done|lia|auto].
Qed.

Lemma ens_lift {A} (m : st W A) n Q : ensures_st m n Q → ensures (lift m) n Q.
Proof.
  intros Hm w. destruct (Hm w) as [Hc HQ]. exists (m w).1, (m w).2.
  unfold lift. by destruct (m w).
Qed.

Lemma ens_some {A B} (o : option A) (k : A → pm W B) a n R :
  o = Some a → ensures (k a) n R → ensures (panic_on_none o ≫= k) n R.
Proof. intros -> Hk w. apply (Hk w). Qed.

Lemma ens_lift_then {A B} (m : st W A) (k : A → pm W B) n R :
  ensures_st m 0 (λ _, True) → (∀ a, ensures (k a) n R) → ensures (lift m ≫= k) n R.
Proof. intros Hm Hk. eapply ens_bind; [|by apply ens_lift|auto]. lia. Qed.

(** A loop with an invariant on the elements done so far. *)
Lemma ens_fold {S A} (f : S → A → pm W S) (c : A → nat) (P : list A → S → Prop) l : ∀ pre s,
  (∀ pre x s, x ∈ l → P pre s → ensures (f s x) (c x) (P (pre ++ [x]))) → P pre s →
  ensures (fold_pm f s l) (sum_list (c <$> l)) (P (pre ++ l)).
Proof.
  induction l as [|x l IH]; intros pre s Hf HP; cbn [fold_pm].
  { rewrite app_nil_r. by apply ens_ret. }
  eapply (ens_bind _ _ _ (c x) (sum_list (c <$> l))); [apply Nat.eq_le_incl; reflexivity|apply Hf; [left|done]|].
  intros s' HP'. rewrite cons_middle, app_assoc. apply IH; [|done]. intros. apply Hf; [by right|done].
Qed.

(** ** Batches *)

Definition sorted_lt : list nat → Prop := StronglySorted lt.

Lemma sorted_lt_unique l l' : l ≡ₚ l' → StronglySorted le l → sorted_lt l' → l = l'.
Proof.
  intros Hp Hl Hl'. apply (sorted_perm_unique id); [done| |done|].
  - clear -Hl'. induction Hl' as [|x l _ IH Hx]; constructor; [done|].
    eapply Forall_impl; [exact Hx|]. cbn. lia.
  - rewrite list_fmap_id, Hp. clear -Hl'. induction Hl' as [|x l _ IH Hx]; constructor; [|done].
    intros Hin. rewrite Forall_forall in Hx. specialize (Hx x Hin). lia.
Qed.

Lemma sort_by_fst {A} (l : list (nat * A)) idx : l.*1 ≡ₚ idx → sorted_lt idx →
  (sort_by_key fst l).*1 = idx.
Proof.
  intros Hp Hs. apply sorted_lt_unique; [by rewrite sort_by_key_perm| |done].
  pose proof (sort_by_key_sorted fst l) as Hsort. induction Hsort as [|x l' _ IH Hx]; cbn; constructor.
  - done.
  - by rewrite Forall_fmap.
Qed.

Definition idx_cost (steps : list IrCall) (i : nat) : nat := default 0 (attempts <$> steps !! i).

Lemma idx_cost_Some steps i c : steps !! i = Some c → idx_cost steps i = attempts c.
Proof. unfold idx_cost. by intros ->. Qed.

Lemma free_unresolved e : ensures_st (unresolved e) 0 (λ _, True).
Proof. destruct e; (apply est_then; [apply free_unix|intros; by apply est_ret]). Qed.

Lemma clone_metered : ensures_st clone_for_thread 0 (λ d, ∀ d', d = Ok d' → metered d').
Proof.
  intros w. pose proof (cost_clone w). split; [lia|]. intros d' Hd run t a v timeout deps w'.
  pose proof (cost_cloned w d' Hd run t a v timeout deps w'). split; [lia|done].
Qed.

(** The tasks prepared so far: with the known results they cover the indices
    done, and each uses at most the attempts of its step. *)
Definition prepared (steps : list IrCall) (done : list nat)
    (acc : list (nat * StepExecResult) * list (nat * st W StepExecResult)) : Prop :=
  acc.1.*1 ++ acc.2.*1 ≡ₚ done ∧
  Forall (λ t, ∀ w, cost (t.2 w).2 ≤ cost w + idx_cost steps t.1) acc.2.

Lemma prepare_task_prepared run steps cap graph skip pre i acc : i < length steps →
  prepared steps pre acc →
  ensures (prepare_task run steps cap graph skip acc i) 0 (prepared steps (pre ++ [i])).
Proof.
  intros Hi [Hp Hc]. destruct acc as [collector tasks]. cbn in Hp, Hc. unfold prepare_task.
  destruct (lookup_lt_is_Some_2 _ _ Hi) as [step Hstep].
  eapply ens_some; [exact Hstep|].
  assert (Hcol : ∀ r : StepExecResult, prepared steps (pre ++ [i]) (collector ++ [(i, r)], tasks)).
  { intros r. split; [|done]. cbn. rewrite fmap_app. cbn. rewrite <- app_assoc. rewrite (Permutation_app_comm [i]), app_assoc, Hp. done. }
  destruct (resolve_arguments step cap skip) as [args|e].
  - eapply ens_bind0; [apply ens_lift, clone_metered|]. intros [disp|e] Hd.
    + apply ens_ret. split.
      * cbn. rewrite fmap_app. cbn. by rewrite app_assoc, Hp.
      * cbn. apply Forall_app. split; [done|]. constructor; [|constructor]. cbn. intros w.
        rewrite (idx_cost_Some _ _ _ Hstep). apply (execute_step_shape disp). by apply Hd.
    + apply ens_lift_then; [apply free_unix|]. intros t. by apply ens_ret.
  - apply ens_lift_then; [apply free_unresolved|]. intros r. by apply ens_ret.
Qed.

Lemma dispatch_one_ok run steps cap graph skip pre i results : i < length steps → results.*1 = pre →
  ensures (dispatch_one run steps cap graph skip results i) (idx_cost steps i)
    (λ rs, rs.*1 = pre ++ [i]).
Proof.
  intros Hi Hr. unfold dispatch_one. destruct (lookup_lt_is_Some_2 _ _ Hi) as [step Hstep].
  eapply ens_some; [exact Hstep|]. rewrite (idx_cost_Some _ _ _ Hstep).
  destruct (resolve_arguments step cap skip) as [args|e].
  - eapply (ens_bind _ _ _ (attempts step) 0); [lia|apply ens_lift, execute_step_shape, metered_dispatch|].
    intros r _. apply ens_ret. rewrite fmap_app, Hr. done.
  - apply ens_lift_then; [apply free_unresolved|]. intros r. apply ens_ret. by rewrite fmap_app, Hr.
Qed.

Lemma scope_ok steps (tasks : list (nat * st W StepExecResult)) :
  Forall (λ t, ∀ w, cost (t.2 w).2 ≤ cost w + idx_cost steps t.1) tasks →
  ensures_st (scope tasks) (sum_list (idx_cost steps <$> tasks.*1)) (λ rs, rs.*1 ≡ₚ tasks.*1).
Proof.
  intros Ht w. split.
  - apply scope_cost. induction Ht as [|t tasks Ht _ IH]; cbn; constructor; [exact Ht|done].
  - destruct (scope_spec tasks w) as (rs & Hp & Hf). rewrite Hp. clear -Hf.
    induction Hf as [|t r tasks rs [E _] _ IH]; [done|]. cbn. by rewrite E, IH.
Qed.

(** Both ways of running a batch: one result per index, in index order. *)
Lemma dispatch_batch_ok run steps idx cap graph skip par :
  Forall (λ i, i < length steps) idx → sorted_lt idx →
  ensures (dispatch_batch run steps idx cap graph skip par) (sum_list (idx_cost steps <$> idx))
    (λ rs, rs.*1 = idx).
Proof.
  intros Hlt Hs. unfold dispatch_batch. destruct idx as [|i0 idx0]; [by apply ens_ret|].
  set (idx := i0 :: idx0) in *. rewrite Forall_forall in Hlt. destruct (par && _).
  - assert (Hz : sum_list ((λ _ : nat, 0) <$> idx) = 0) by (clear; by induction idx).
    eapply (ens_bind _ _ _ 0 (sum_list (idx_cost steps <$> idx))); [done| |].
    + rewrite <- Hz. apply (ens_fold _ (λ _, 0) (prepared steps) idx [] ([], [])).
      2: by split; [|constructor].
      intros pre x s Hx Hp. by apply prepare_task_prepared; [apply Hlt|].
    + intros [collector tasks] [Hp Hc]. cbn in Hp, Hc.
      eapply (ens_bind _ _ _ _ 0); [|apply ens_lift, scope_ok, Hc|].
      { rewrite <- Hp, fmap_app, sum_list_app. lia. }
      intros rs Hrs. apply ens_ret. apply sort_by_fst; [|done]. by rewrite fmap_app, Hrs, Hp.
  - apply (ens_fold _ (idx_cost steps) (λ pre rs, rs.*1 = pre) idx [] []); [|done].
    intros pre x s Hx Hp. apply dispatch_one_ok; [by apply Hlt|done].
Qed.

(** ** The books *)

Definition count_outcome (o : StepOutcome) (h : list StepTrace) : nat :=
  length (filter (λ t, st_outcome t = o) h).

(** What the counters, the receipt graph and the trace buffer say about the
    history [h] of processed steps.  Skips inside loops are not counted, so
    the skip counter is exact only in [flat] missions. *)
Record books (flat : bool) (h : list StepTrace) (s : PhaseRunState) : Prop := {
  bk_traces : represents (all_traces s) h;
  bk_global : global_step s = length h;
  bk_completed : completed s = count_outcome StepCompleted h;
  bk_receipts : receipt_graph s = omap st_invocation h;
  bk_receipts_completed : length (receipt_graph s) = completed s;
  bk_failed : count_outcome StepFailed h ≤ failed s;
  bk_failed_exact : aborted s = false → failed s = count_outcome StepFailed h;
  bk_skipped : skipped s ≤ count_outcome StepSkipped h;
  bk_skipped_exact : flat = true → skipped s = count_outcome StepSkipped h;
  bk_aborted : aborted s = true → 0 < failed s;
}.

(** A later state of the books, at most [k] steps further. *)
Definition later (flat : bool) (h : list StepTrace) (k : nat) (s : PhaseRunState) : Prop :=
  ∃ h', h `prefix_of` h' ∧ length h' ≤ length h + k ∧ books flat h' s.

Lemma later_refl flat h k s : books flat h s → later flat h k s.
Proof. intros Hb. exists h. split_and!; [done|lia|done]. Qed.

Lemma later_trans flat h h' k k' k'' s : h `prefix_of` h' → length h' ≤ length h + k → k + k' ≤ k'' →
  later flat h' k' s → later flat h k'' s.
Proof.
  intros Hp Hl Hk (h2 & Hp2 & Hl2 & Hb). exists h2. split_and!; [by etrans|lia|done].
Qed.

Lemma count_outcome_snoc o h t :
  count_outcome o (h ++ [t]) = count_outcome o h + if decide (st_outcome t = o) then 1 else 0.
Proof. unfold count_outcome. rewrite filter_app, length_app, filter_cons, filter_nil. by case_decide. Qed.

Lemma process_result_spec step r phase : ensures_st (process_step_result step r phase) 0
  (λ '(o, t, bytes, inv), st_outcome t = o ∧
     match o with
     | StepCompleted => ∃ b i, bytes = Some b ∧ inv = Some i ∧ st_invocation t = Some (projection i)
     | _ => st_invocation t = None
     end).
Proof.
  destruct r; cbn [process_step_result]; [apply est_ret; split; [done|]; by eexists _, _| |];
    (apply est_then; [apply free_unix|intros c]); apply est_ret; cbn; [by case_match|done].
Qed.

Ltac books_solve :=
  match goal with Hb : books _ _ _ |- _ => destruct Hb as [? ? ? ? ? ? ? ? ? ?] end;
  constructor; cbn [all_traces global_step completed receipt_graph failed aborted skipped];
  rewrite ?count_outcome_snoc, ?omap_app, ?length_app;
  repeat match goal with
  | H : st_outcome _ = _ |- _ => rewrite H
  | H : st_invocation _ = _ |- _ => cbn [omap list_omap]; rewrite H
  end; cbn [length]; rewrite ?length_app, ?app_nil_r; try done;
  repeat (case_decide; try done);
  try (by apply buffer_push_represents); try (f_equal; done); try (cbn [length]; lia);
  try (intros; cbn [length]; try match goal with H : ?a → _, H' : ?a |- _ => specialize (H H') end; lia).

Lemma process_one_books flat h steps phase s i r : i < length steps → books flat h s →
  ensures (process_one steps phase s (i, r)) 0 (λ s', ∃ t, books flat (h ++ [t]) s').
Proof.
  intros Hi Hb. unfold process_one. destruct (lookup_lt_is_Some_2 _ _ Hi) as [step Hstep].
  eapply ens_some; [exact Hstep|].
  eapply ens_bind0; [apply ens_lift, process_result_spec|]. intros [[[o t] bytes] inv] [Ho Hinv].
  intros w. destruct o; [destruct Hinv as (b & v & -> & -> & Hinv)|..].
  all: eexists _, w; split_and!; [reflexivity|lia|]; exists t; books_solve.
  all: case_match; intros Ha; [done|]; rewrite bk_failed_exact0 by done; lia.
Qed.

Lemma process_batch_books flat h steps phase rs s :
  Forall (λ r, r.1 < length steps) rs → books flat h s →
  ensures (process_batch steps phase rs s) 0 (later flat h (length rs)).
Proof.
  intros Hlt Hb. rewrite Forall_forall in Hlt. unfold process_batch.
  replace 0 with (sum_list ((λ _ : nat * StepExecResult, 0) <$> rs)) by (clear; by induction rs).
  eapply ens_weaken; [apply (ens_fold _ (λ _, 0) (λ pre, later flat h (length pre)) rs [] s)|done|done].
  - intros pre [i r] s' Hr (h1 & Hp & Hl & Hb1). apply Hlt in Hr.
    eapply ens_weaken; [by apply process_one_books|done|]. intros s'' (t & Hb2). exists (h1 ++ [t]).
    rewrite !length_app. cbn. split_and!; [by apply prefix_app_r|lia|done].
  - by apply later_refl.
Qed.

(** ** Runs of calls *)

Lemma indices_of_sorted opt steps :
  sorted_lt (indices_of opt steps) ∧ Forall (λ i, i < length steps) (indices_of opt steps).
Proof.
  unfold indices_of.
  assert (Hgen : ∀ (l : list IrCall) k,
    sorted_lt (fst <$> filter (λ x, call_optional x.2 = opt) (imap (λ i x, (k + i, x)) l)) ∧
    Forall (λ i, k ≤ i < k + length l) (fst <$> filter (λ x, call_optional x.2 = opt) (imap (λ i x, (k + i, x)) l))).
  { induction l as [|c l IH]; intros k; cbn [imap]; [by split; constructor|].
    rewrite (imap_ext _ (λ i x, (S k + i, x))) by (intros; cbn; f_equal; lia).
    destruct (IH (S k)) as [IH1 IH2]. rewrite filter_cons. cbn [length].
    assert (Hlo : Forall (λ i, k < i) (fst <$> filter (λ x, call_optional x.2 = opt) (imap (λ i x, (S k + i, x)) l))).
    { eapply Forall_impl; [exact IH2|]. cbn. lia. }
    assert (Hin : Forall (λ i, k ≤ i < k + S (length l)) (fst <$> filter (λ x, call_optional x.2 = opt) (imap (λ i x, (S k + i, x)) l))).
    { eapply Forall_impl; [exact IH2|]. cbn. lia. }
    case_decide; [|by split]. cbn. rewrite Nat.add_0_r. split; constructor; auto. lia. }
  destruct (Hgen steps 0) as [H1' H2']. split; [exact H1'|].
  eapply Forall_impl; [exact H2'|]. cbn. lia.
Qed.

Lemma indices_of_perm steps : indices_of false steps ++ indices_of true steps ≡ₚ seq 0 (length steps).
Proof.
  unfold indices_of. rewrite <- fmap_app.
  rewrite (list_filter_iff (λ x : nat * IrCall, call_optional x.2 = true)
             (λ x, ¬ call_optional x.2 = false)) by (intros [? ?]; cbn; by destruct (call_optional _)).
  rewrite filter_app_complement. enough ((imap pair steps).*1 = seq 0 (length steps)) as -> by done.
  apply list_eq. intros i. rewrite list_lookup_fmap, list_lookup_imap.
  destruct (steps !! i) as [c|] eqn:E; cbn.
  - symmetry. apply lookup_seq. apply lookup_lt_Some in E. lia.
  - symmetry. apply lookup_ge_None. rewrite length_seq. by apply lookup_ge_None.
Qed.

Lemma idx_cost_all steps : idx_cost steps <$> seq 0 (length steps) = attempts <$> steps.
Proof.
  apply list_eq. intros i. rewrite !list_lookup_fmap. unfold idx_cost.
  destruct (steps !! i) as [c|] eqn:E; cbn.
  - rewrite lookup_seq_lt by (by eapply lookup_lt_Some). cbn. by rewrite E.
  - rewrite lookup_seq_ge by (by apply lookup_ge_None). done.
Qed.

(** One batch of a run of calls: dispatch, then process. *)
Lemma batch_later flat h run steps opt phase s par : books flat h s →
  ensures (results ← dispatch_batch run steps (indices_of opt steps) (captured s) (receipt_graph s)
             (skipped_bindings s) par;
           process_batch steps phase results s)
    (sum_list (idx_cost steps <$> indices_of opt steps)) (later flat h (length (indices_of opt steps))).
Proof.
  intros Hb. destruct (indices_of_sorted opt steps) as [Hs Hlt].
  eapply (ens_bind _ _ _ _ 0); [|by apply dispatch_batch_ok|]; [lia|]. intros rs Hrs.
  rewrite <- Hrs in Hlt |- *. rewrite length_fmap. apply process_batch_books; [|done].
  by rewrite Forall_fmap in Hlt.
Qed.

Lemma pm_bind_assoc {A B C} (m : pm W A) (f : A → pm W B) (g : B → pm W C) w :
  ((m ≫= f) ≫= g) w = (m ≫= (λ a, f a ≫= g)) w.
Proof. unfold mbind, pm_bind. by destruct (m w) as [[a w']|]. Qed.

Lemma ens_assoc {A B C} (m : pm W A) (f : A → pm W B) (g : B → pm W C) n Q :
  ensures ((m ≫= f) ≫= g) n Q → ensures (m ≫= (λ a, f a ≫= g)) n Q.
Proof. intros He w. rewrite <- pm_bind_assoc. apply He. Qed.

Lemma calls_partition_later flat h run steps phase s : books flat h s →
  ensures (execute_calls_phase_partition run steps phase s) (sum_list (attempts <$> steps))
    (later flat h (length steps)).
Proof.
  intros Hb. unfold execute_calls_phase_partition.
  destruct steps as [|c steps0]; [by apply ens_ret, later_refl|]. set (steps := c :: steps0) in *.
  pose proof (indices_of_perm steps) as Hperm.
  assert (Hsum : sum_list (idx_cost steps <$> indices_of false steps) +
    sum_list (idx_cost steps <$> indices_of true steps) = sum_list (attempts <$> steps)).
  { rewrite <- sum_list_app, <- fmap_app, Hperm. by rewrite idx_cost_all. }
  assert (Hlen : length (indices_of false steps) + length (indices_of true steps) = length steps).
  { rewrite <- length_app, Hperm. apply length_seq. }
  cbn zeta. apply ens_assoc. eapply ens_bind; [|by apply batch_later|]; [by rewrite Hsum|].
  intros s1 (h1 & Hp & Hl & Hb1). destruct (_ && _).
  - eapply ens_weaken; [by apply batch_later|done|]. intros s2. by apply (later_trans _ _ h1 _ _ _ _ Hp Hl); lia.
  - apply ens_ret. eapply later_trans; [exact Hp|exact Hl| |by apply (later_refl _ _ 0)]. lia.
Qed.

(** ** Loops *)

Lemma process_in_block_later h steps phase i r outer sc : i < length steps → books false h outer →
  ensures (process_in_block steps phase i r outer sc) 0 (λ '(outer', _), later false h 1 outer').
Proof.
  intros Hi Hb. unfold process_in_block.
  eapply ens_bind0; [apply (process_batch_books false h); [by constructor; [|constructor]|]|].
  - destruct Hb. constructor; cbn; try done. lia.
  - intros b (h' & Hp & Hl & [? ? ? ? ? ? ? ? ? ?]). apply ens_ret. exists h'. split_and!; [done|done|].
    constructor; cbn; try done. pose proof (bk_skipped _ _ _ Hb). destruct Hp as [h2 ->].
    unfold count_outcome in *. rewrite filter_app, length_app. lia.
Qed.

Lemma run_block_later h run steps phase last_idx todo : ∀ outer sc,
  Forall (λ x, x.1 < length steps) todo → books false h outer →
  ensures (run_block_steps run steps phase last_idx todo outer sc) (sum_list (attempts <$> todo.*2))
    (λ '(_, outer', _), later false h (length todo) outer').
Proof.
  revert h. induction todo as [|[i step] todo IH]; intros h outer sc Hlt Hb; cbn [run_block_steps].
  { by apply ens_ret, later_refl. }
  apply Forall_cons in Hlt as [Hi Hlt]. cbn in Hi.
  destruct (aborted outer); [by apply ens_ret, later_refl|].
  assert (Hrec : ∀ r sc0, ensures
    ('(outer, scope) ← process_in_block steps phase i r outer sc0;
     run_block_steps run steps phase last_idx todo outer scope) (sum_list (attempts <$> todo.*2))
    (λ '(_, outer', _), later false h (length ((i, step) :: todo)) outer')).
  { intros r sc0. eapply ens_bind0; [by apply process_in_block_later|].
    intros [outer1 sc1] (h1 & Hp & Hl & Hb1). eapply ens_weaken; [by apply IH|done|].
    intros [[? ?] ?]. cbn [length]. apply (later_trans _ _ h1 1); [done|done|lia]. }
  destruct (resolve_arguments step (iter_captured sc) (iter_skipped sc)) as [args|[b a|e]].
  - eapply (ens_bind _ _ _ (attempts step)); [|apply ens_lift, execute_step_shape, metered_dispatch|].
    { apply Nat.eq_le_incl. reflexivity. }
    intros r _. apply Hrec.
  - apply ens_lift_then; [apply free_unresolved|]. intros r. eapply ens_weaken; [apply Hrec| |done].
    cbn [fmap list_fmap]. rewrite sum_list_cons. lia.
  - apply ens_lift_then; [apply free_unresolved|]. intros r.
    eapply ens_bind0; [by apply process_in_block_later|].
    intros [outer1 sc1] (h1 & Hp & Hl & Hb1). apply ens_ret. cbn [length].
    apply (later_trans _ _ h1 1 0); [done|done|lia|by apply later_refl].
Qed.

Lemma imap_pair_snd {A} (l : list A) : (imap pair l).*2 = l.
Proof.
  apply list_eq. intros i. rewrite list_lookup_fmap, list_lookup_imap. by destruct (l !! i).
Qed.

Lemma loop_block_later h run steps phase outer sc : books false h outer →
  ensures (run_loop_block_sequentially run steps phase outer sc) (sum_list (attempts <$> steps))
    (λ '(_, outer', _), later false h (length steps) outer').
Proof.
  intros Hb. unfold run_loop_block_sequentially.
  rewrite <- (imap_pair_snd steps) at 4. rewrite <- (length_imap pair steps).
  apply run_block_later; [|done]. apply Forall_lookup. intros q [i c] Hq. cbn.
  rewrite list_lookup_imap in Hq. destruct (steps !! q) as [c'|] eqn:E; [|done].
  cbn in Hq. injection Hq as <- _. by apply lookup_lt_Some in E.
Qed.

Lemma loop_abort_later h k s : books false h s → later false h k (loop_abort s).
Proof. intros Hb. apply later_refl. destruct Hb. constructor; cbn; try done; lia. Qed.

Lemma set_captured_later h k cap s : books false h s → later false h k (set_captured cap s).
Proof. intros Hb. apply later_refl. by destruct Hb. Qed.

Lemma loop_iterations_later run lp body verify phase togo : verify ≠ [] → ∀ h s, books false h s →
  ensures (loop_iterations run lp body verify phase togo s)
    (togo * sum_list (attempts <$> body ++ verify)) (later false h (togo * length (body ++ verify))).
Proof.
  intros Hv. induction togo as [|togo IH]; intros h s Hb; cbn [loop_iterations].
  { by apply ens_ret, loop_abort_later. }
  destruct (aborted s); [by apply ens_ret, later_refl|].
  rewrite fmap_app, sum_list_app in *. rewrite length_app in *. cbn [Nat.mul].
  eapply ens_bind; [|by apply loop_block_later|]; [rewrite <- !Nat.add_assoc; reflexivity|].
  intros [[body_ok s1] sc1] (h1 & Hp1 & Hl1 & Hb1).
  destruct (_ || _); [apply ens_ret, (later_trans _ _ h1 _ 0 _ _ Hp1 Hl1); [lia|by apply later_refl]|].
  eapply ens_bind; [|by apply loop_block_later|]; [reflexivity|].
  intros [[verify_ok s2] sc2] (h2 & Hp2 & Hl2 & Hb2).
  assert (Hp : h `prefix_of` h2) by (by etrans).
  assert (Hfin : ∀ k s', k ≤ togo * (length body + length verify) → later false h2 k s' →
    later false h (length body + length verify + togo * (length body + length verify)) s').
  { intros k s' Hk. apply (later_trans _ _ h2 (length body + length verify)); [done|lia|lia]. }
  destruct (_ || _); [apply ens_ret, (Hfin 0); [lia|by apply later_refl]|].
  destruct (lookup_lt_is_Some_2 verify (length verify - 1)) as [fc Hfc];
    [destruct verify; cbn in *; [done|lia]|].
  eapply ens_some; [exact Hfc|]. destruct (final_capture fc sc2) as [c|];
    [|apply ens_ret, (Hfin 0); [lia|by apply loop_abort_later]].
  destruct (verify_output_done (cap_value c)).
  - apply ens_ret, (Hfin 0); [lia|]. case_match; [by apply set_captured_later|by apply later_refl].
  - eapply ens_weaken; [by apply IH|done|]. intros s'. by apply Hfin.
  - apply ens_ret, (Hfin 0); [lia|by apply loop_abort_later].
Qed.
End logic.
