(* ===== verification/MissionProps.v ===== *)
(** * Properties of mission runs

    A compiled mission runs to its end on every dispatcher: no panic, a bounded
    number of dispatches, and a report that agrees with what was run. *)

From Stdlib Require Import String.
From S2P Require Import Prelude RustStd AgentId Json Ast Ir Planner PlannerProps.
From S2P Require Import CompileProps Trace Diagnostics World Retry RetryProps.
From S2P Require Import Phases PhasesProps.

Open Scope nat_scope.

(** ** Partitions of a phase *)

Definition partition_steps (p : PhasePartition) : list IrStep :=
  match p with Calls steps => steps | Loop l => [IrStepLoop l] end.

Definition partition_ok (p : PhasePartition) : Prop :=
  match p with Calls steps => Forall (λ s, is_call s = true) steps | Loop _ => True end.

(** The state of [split_phase_steps] after a prefix of the steps. *)
Definition split_inv (steps : list IrStep) (i : nat) (acc : list PhasePartition * option nat) : Prop :=
  let '(out, run) := acc in
  Forall partition_ok out ∧
  match run with
  | None => concat (map partition_steps out) = take i steps
  | Some s => s ≤ i ∧ concat (map partition_steps out) = take s steps ∧
      Forall (λ x, is_call x = true) (slice steps s i)
  end.

Lemma slice_snoc {A} (l : list A) s i x : s ≤ i → l !! i = Some x →
  slice l s (S i) = slice l s i ++ [x].
Proof.
  intros Hs Hx. unfold slice. replace (S i - s) with (S (i - s)) by lia.
  apply take_S_r. rewrite lookup_drop. by replace (s + (i - s)) with i by lia.
Qed.

Lemma take_slice {A} (l : list A) s i : s ≤ i → take s l ++ slice l s i = take i l.
Proof.
  intros Hs. unfold slice. rewrite <- (take_drop s (take i l)), take_take, skipn_firstn_comm.
  by rewrite Nat.min_l by lia.
Qed.

Lemma split_step_inv steps i acc x : split_inv steps i acc → steps !! i = Some x →
  split_inv steps (S i) (split_step steps acc (i, x)).
Proof.
  destruct acc as [out run]. intros [Hok Hrun] Hx. destruct x as [l|c]; cbn [split_step].
  - split.
    + apply Forall_app. split; [|by constructor; [|constructor]]. destruct run; [|done].
      apply Forall_app. split; [done|]. constructor; [|constructor]. apply Hrun.
    + rewrite (take_S_r _ _ _ Hx), map_app, concat_app. cbn. f_equal.
      destruct run as [s|]; [|done]. destruct Hrun as (Hs & Hcat & _).
      rewrite map_app, concat_app, Hcat. cbn. rewrite app_nil_r. by apply take_slice.
  - split; [done|]. destruct run as [s|].
    + destruct Hrun as (Hs & Hcat & Hcalls). split_and!; [lia|done|].
      rewrite (slice_snoc _ _ _ (IrStepCall c)) by done. apply Forall_app. by split; [|constructor].
    + split_and!; [lia|done|]. rewrite (slice_snoc _ _ _ (IrStepCall c)) by done.
      unfold slice. rewrite Nat.sub_diag. cbn. by constructor.
Qed.

Lemma split_phase_steps_spec steps : Forall partition_ok (split_phase_steps steps) ∧
  concat (map partition_steps (split_phase_steps steps)) = steps.
Proof.
  unfold split_phase_steps.
  assert (Hinv : split_inv steps (length steps) (foldl (split_step steps) ([], None) (imap pair steps))).
  { assert (Hgen : ∀ pre post, steps = pre ++ post →
      split_inv steps (length pre) (foldl (split_step steps) ([], None) (imap pair pre))).
    { induction pre as [|x pre IH] using rev_ind; intros post E; [by split; [constructor|]|].
      rewrite imap_pair_snoc, foldl_app, length_app. cbn [foldl length]. rewrite Nat.add_1_r.
      apply split_step_inv; [by apply (IH (x :: post)); rewrite E, <- app_assoc|].
      rewrite E, <- app_assoc. by apply list_lookup_middle. }
    by apply (Hgen steps []); rewrite app_nil_r. }
  destruct (foldl _ _ _) as [out run]. destruct Hinv as [Hok Hrun]. rewrite take_ge in Hrun by done.
  destruct run as [s|]; [|done]. destruct Hrun as (Hs & Hcat & Hcalls).
  unfold slice in Hcalls. rewrite take_ge in Hcalls by (rewrite length_drop; lia). split.
  - apply Forall_app. split; [done|]. by constructor; [|constructor].
  - rewrite map_app, concat_app, Hcat. cbn. rewrite app_nil_r. apply take_drop.
Qed.

Lemma calls_Some steps : Forall (λ s, is_call s = true) steps →
  calls_from_partition steps = Some (concat (map walk_calls steps)) ∧
  flatten_loop_leaves steps = Some (concat (map walk_calls steps)).
Proof.
  intros Hc. enough (calls_from_partition steps = Some (concat (map walk_calls steps))) as E by done.
  unfold calls_from_partition. induction Hc as [|s steps Hs _ IH]; [done|].
  destruct s as [l|c]; [done|]. cbn [mapM]. by rewrite IH.
Qed.

(** Consecutive ranges put the steps together again. *)
Lemma contiguous_slices {A} (l : list A) a phases n : contiguous a phases n → n ≤ length l → a ≤ n →
  concat (map (λ r, slice l (start r) (stop r)) phases) = slice l a n ∧
  Forall (λ r, start r ≤ stop r ≤ length l) phases.
Proof.
  revert a. induction phases as [|r phases IH]; cbn [contiguous]; intros a Hc Hn Ha.
  { subst. unfold slice. rewrite Nat.sub_diag. split; [done|constructor]. }
  destruct Hc as (<- & Hlt & Hc).
  assert (Hstop : stop r ≤ n).
  { clear -Hc. revert Hc. generalize (stop r). induction phases as [|r' phases IH]; cbn; [lia|].
    intros b (<- & ? & Hc). apply IH in Hc. lia. }
  destruct (IH (stop r) Hc Hn Hstop) as [Hcat Hf]. split; [|constructor; [lia|done]].
  cbn [map concat]. rewrite Hcat. unfold slice.
  replace (n - start r) with ((stop r - start r) + (n - stop r)) by lia.
  rewrite <- take_take_drop, drop_drop. do 3 f_equal. lia.
Qed.

Lemma sum_weight_concat f (ls : list (list IrStep)) :
  sum_list ((λ l, sum_list (weight f <$> l)) <$> ls) = sum_list (weight f <$> concat ls).
Proof.
  induction ls as [|l ls IH]; [done|]. cbn [fmap list_fmap concat]. rewrite fmap_app, sum_list_app, <- IH. done.
Qed.

Lemma weight_calls f steps : Forall (λ s, is_call s = true) steps →
  weight f <$> steps = f <$> concat (map walk_calls steps).
Proof. induction 1 as [|[l|c] steps Hs _ IH]; [done..|]. cbn. by rewrite IH. Qed.

Lemma sum_ones {A} (l : list A) : sum_list ((λ _, 1) <$> l) = length l.
Proof. induction l as [|x l IH]; [done|]. rewrite fmap_cons, sum_list_cons, IH. done. Qed.

Section run.
Context {W : Type} `{!World W, !ChildLibs, !SerdeJson, !Sha256, !StepDispatcher W, !Rayon W, !Meter W}.

Abbreviation one := (λ _ : IrCall, 1).

Lemma block_calls avail steps : block_wf avail steps → Forall (λ s, is_call s = true) steps.
Proof. intros [Hf _]. eapply Forall_impl; [exact Hf|]. by intros s (c & -> & _). Qed.

Lemma execute_loop_later h run lp phase s : step_wf (IrStepLoop lp) → books false h s →
  ensures (execute_loop run lp phase s) (weight attempts (IrStepLoop lp))
    (later false h (weight one (IrStepLoop lp))).
Proof.
  intros (_ & _ & Hv & Hbody & Hverify & _) Hb. unfold execute_loop.
  apply block_calls in Hbody, Hverify.
  rewrite (proj2 (calls_Some _ Hbody)), (proj2 (calls_Some _ Hverify)).
  cbn [weight]. rewrite sum_ones. apply loop_iterations_later; [|done].
  destruct (ir_verify lp) as [|[l|c] v]; [done| |done].
  apply Forall_cons in Hverify as [? _]. done.
Qed.

Lemma run_partition_later flat h run phase p s : partition_ok p → Forall step_wf (partition_steps p) →
  (flat = true → Forall (λ s, is_call s = true) (partition_steps p)) → books flat h s →
  ensures (run_partition run phase s p) (sum_list (weight attempts <$> partition_steps p))
    (later flat h (sum_list (weight one <$> partition_steps p))).
Proof.
  intros Hok Hwf Hflat Hb. destruct p as [steps|lp]; cbn [run_partition partition_steps] in *.
  - eapply ens_some; [by apply calls_Some|]. rewrite !weight_calls by done. rewrite sum_ones.
    by apply calls_partition_later.
  - apply Forall_cons in Hwf as [Hwf _]. destruct flat.
    { specialize (Hflat eq_refl). apply Forall_cons in Hflat as [? _]. done. }
    eapply ens_weaken; [by apply execute_loop_later| |]; cbn [fmap list_fmap]; rewrite !sum_list_cons.
    + lia.
    + intros s'. apply (later_trans _ _ h 0 _ _ _ ltac:(done)); lia.
Qed.

Lemma run_partitions_later flat h run phase ps s : Forall partition_ok ps →
  Forall step_wf (concat (map partition_steps ps)) →
  (flat = true → Forall (λ s, is_call s = true) (concat (map partition_steps ps))) → books flat h s →
  ensures (run_partitions run phase ps s) (sum_list (weight attempts <$> concat (map partition_steps ps)))
    (later flat h (sum_list (weight one <$> concat (map partition_steps ps)))).
Proof.
  intros Hok. unfold run_partitions. revert h s. induction Hok as [|p ps Hp _ IH]; intros h s Hwf Hflat Hb.
  { by apply ens_ret, later_refl. }
  cbn [map concat fold_pm] in *. rewrite Forall_app in Hwf. destruct Hwf as [Hwf1 Hwf2].
  rewrite !fmap_app, !sum_list_app.
  eapply ens_bind; [done| |].
  - instantiate (1 := later flat h (sum_list (weight one <$> partition_steps p))).
    destruct (aborted s); [by apply ens_ret, later_refl|].
    apply run_partition_later; try done. intros Hf. specialize (Hflat Hf). rewrite Forall_app in Hflat. by destruct Hflat.
  - intros s1 (h1 & Hp1 & Hl1 & Hb1). eapply ens_weaken; [apply (IH h1); try done|done|].
    + intros Hf. specialize (Hflat Hf). rewrite Forall_app in Hflat. by destruct Hflat.
    + intros s2. by apply (later_trans _ _ h1 _ _ _ _ Hp1 Hl1).
Qed.

Lemma run_phases_later flat run ir s h : contiguous 0 (ir_phases ir) (length (ir_steps ir)) →
  Forall step_wf (ir_steps ir) → (flat = true → Forall (λ s, is_call s = true) (ir_steps ir)) →
  books flat h s →
  ensures (run_phases run ir s) (sum_list (weight attempts <$> ir_steps ir))
    (later flat h (sum_list (weight one <$> ir_steps ir))).
Proof.
  intros Hcont Hwf Hflat Hb.
  destruct (contiguous_slices (ir_steps ir) 0 _ _ Hcont) as [Hcat Hr]; [lia..|].
  unfold slice in Hcat at 2. rewrite drop_0, Nat.sub_0_r, take_ge in Hcat by done.
  rewrite <- Hcat at 1 2. rewrite <- Hcat in Hwf, Hflat. clear Hcat Hcont. unfold run_phases.
  assert (Hgen : ∀ k (phases : list PhaseRange) s h, Forall (λ r, start r ≤ stop r ≤ length (ir_steps ir)) phases →
    Forall step_wf (concat (map (λ r, slice (ir_steps ir) (start r) (stop r)) phases)) →
    (flat = true → Forall (λ s, is_call s = true) (concat (map (λ r, slice (ir_steps ir) (start r) (stop r)) phases))) →
    books flat h s →
    ensures (fold_pm (λ state '(phase_idx, phase),
       if aborted state then mret state
       else
         phase_steps ← panic_on_none (phase_slice (ir_steps ir) phase);
         if bool_decide (length phase_steps = 0) then mret state
         else run_partitions run phase_idx (split_phase_steps phase_steps) state)
      s (imap (λ i r, (k + i, r)) phases))
     (sum_list (weight attempts <$> concat (map (λ r, slice (ir_steps ir) (start r) (stop r)) phases)))
     (later flat h (sum_list (weight one <$> concat (map (λ r, slice (ir_steps ir) (start r) (stop r)) phases))))).
  2:{ eapply ens_weaken; [apply (Hgen 0 (ir_phases ir)); done|done|done]. }
  clear Hr Hwf Hflat Hb s h. intros k phases. revert k.
  induction phases as [|r phases IH]; intros k s h Hr Hwf Hflat Hb; [by apply ens_ret, later_refl|].
  apply Forall_cons in Hr as [Hr Hrs]. cbn [map concat] in *.
  rewrite Forall_app in Hwf. destruct Hwf as [Hwf1 Hwf2].
  assert (Hflat1 : flat = true → Forall (λ s, is_call s = true) (slice (ir_steps ir) (start r) (stop r))).
  { intros Hf. specialize (Hflat Hf). rewrite Forall_app in Hflat. by destruct Hflat. }
  assert (Hflat2 : flat = true → Forall (λ s, is_call s = true)
    (concat (map (λ r, slice (ir_steps ir) (start r) (stop r)) phases))).
  { intros Hf. specialize (Hflat Hf). rewrite Forall_app in Hflat. by destruct Hflat. }
  rewrite !fmap_app, !sum_list_app. cbn [imap fold_pm].
  rewrite (imap_ext _ (λ i r, (S k + i, r))) by (intros; cbn; f_equal; lia).
  eapply ens_bind; [done| |].
  - instantiate (1 := later flat h (sum_list (weight one <$> slice (ir_steps ir) (start r) (stop r)))).
    destruct (aborted s); [by apply ens_ret, later_refl|].
    eapply ens_some.
    { unfold phase_slice. rewrite (proj2 (Nat.leb_le _ _) (proj1 Hr)), (proj2 (Nat.leb_le _ _) (proj2 Hr)). done. }
    case_bool_decide; [by apply ens_ret, later_refl|].
    destruct (split_phase_steps_spec (slice (ir_steps ir) (start r) (stop r))) as [Hok Hcat].
    rewrite <- Hcat at 2 3. apply run_partitions_later; rewrite ?Hcat; done.
  - intros s1 (h1 & Hp1 & Hl1 & Hb1). eapply ens_weaken; [by apply (IH (S k) s1 h1)|done|].
    intros s2. by apply (later_trans _ _ h1 _ _ _ _ Hp1 Hl1).
Qed.

(** ** Reports *)

(** The report of a run that processed the steps of [h]. *)
Record report_of (flat : bool) (h : list StepTrace) (rep : ExecutionReport) : Prop := {
  ro_traces : step_traces (trace rep) = kept h;
  ro_truncated : traces_truncated (trace rep) = omitted h;
  ro_completed : trace_steps_completed (trace rep) = count_outcome StepCompleted h;
  ro_failed : count_outcome StepFailed h ≤ trace_steps_failed (trace rep);
  ro_failed_exact : outcome (trace rep) ≠ MissionAborted →
    trace_steps_failed (trace rep) = count_outcome StepFailed h;
  ro_skipped : trace_steps_skipped (trace rep) ≤ count_outcome StepSkipped h;
  ro_skipped_exact : flat = true → trace_steps_skipped (trace rep) = count_outcome StepSkipped h;
  ro_outcome : outcome (trace rep) = MissionCompleted ↔ trace_steps_failed (trace rep) = 0;
  ro_summary : report_steps_completed rep = trace_steps_completed (trace rep) ∧
    report_steps_failed rep = trace_steps_failed (trace rep);
}.

Lemma books_report flat h s id nm t0 t1 el n es outs g :
  books flat h s →
  report_of flat h (mk_ExecutionReport el (completed s) (failed s)
    (mk_ExecutionTrace EXECUTION_TRACE_SCHEMA_VERSION id nm t0 t1 el n (completed s) (failed s) (skipped s)
       (mission_outcome s) (into_parts (all_traces s)).1 g es (into_parts (all_traces s)).2) outs).
Proof.
  intros [(Hh & Ht & Hd) _ Hc _ _ Hf Hfx Hs Hsx Ha]. unfold mission_outcome.
  constructor; cbn; try done.
  - unfold kept. by rewrite Hh, Ht.
  - intros Ho. apply Hfx. by destruct (aborted s).
  - destruct (aborted s); [specialize (Ha eq_refl); split; [done|lia]|].
    destruct (failed s) eqn:E; [done|]. cbn. split; [done|lia].
Qed.

Definition flat_mission (ir : MissionIr) : bool := forallb is_call (ir_steps ir).

(** The most dispatches and the most steps a run can take. *)
Definition dispatch_budget (ir : MissionIr) : nat := sum_list (weight attempts <$> ir_steps ir).
Definition step_budget (ir : MissionIr) : nat := sum_list (weight one <$> ir_steps ir).

Lemma initial_books flat : books flat [] initial_state.
Proof. by constructor. Qed.

Lemma execute_mission_report `{HashOrder} p ir tenant id timeout : compile p = Ok ir →
  ensures (execute_mission tenant ir id timeout) (dispatch_budget ir)
    (λ rep, ∃ h, length h ≤ step_budget ir ∧ report_of (flat_mission ir) h rep).
Proof.
  intros Hp. unfold execute_mission.
  eapply ens_bind0.
  { instantiate (1 := λ _, True). destruct timeout; [|by apply ens_ret].
    apply ens_lift_then; [apply free_instant|]. intros. by apply ens_ret. }
  intros deadline _. cbn zeta.
  apply ens_lift_then; [apply free_instant|intros mission_start].
  apply ens_lift_then; [apply free_unix|intros started_at].
  eapply (ens_bind _ _ _ (dispatch_budget ir) 0); [lia| |].
  { apply (run_phases_later (flat_mission ir) _ _ _ []).
    - apply compile_compiled in Hp as (am & ordered & ph & num & Hc). apply (compiled_contiguous Hc).
    - by eapply compile_steps_wf.
    - unfold flat_mission. by rewrite forallb_Forall.
    - apply initial_books. }
  intros s (h & _ & Hl & Hb).
  apply ens_lift_then; [apply free_elapsed|intros elapsed].
  apply ens_lift_then; [apply free_unix|intros completed_at].
  destruct (into_parts (all_traces s)) as [ts tr] eqn:E. apply ens_ret. exists h. split; [exact Hl|].
  pose proof (books_report _ _ _ id (ir_name ir) started_at completed_at elapsed (length (ir_phases ir))
    (resolve_emissions (ir_emits ir) (captured s))
    ((λ r, decode_emitted_value (cap_value r)) <$> captured s) (ability_graph_of ts) Hb) as Hrep.
  by rewrite E in Hrep.
Qed.

(** ** Budgets of compiled missions *)

Lemma step_weight_bound s : step_wf s → (static_call_bound s ≤ 256)%Z →
  Z.of_nat (weight one s) = static_call_bound s.
Proof.
  destruct s as [l|c]; [|done]. cbn [step_wf weight static_call_bound]. intros [Hn _] Hb.
  rewrite sum_ones, length_app in *. unfold u64_saturating, u64_max in *. lia.
Qed.

Lemma step_budget_bound steps : Forall step_wf steps → (call_bound steps ≤ 256)%Z →
  Z.of_nat (sum_list (weight one <$> steps)) = call_bound steps.
Proof.
  induction 1 as [|s steps Hs Hss IH]; [done|]. intros Hb.
  pose proof (call_bound_le _ Hss). pose proof (static_call_bound_le _ Hs).
  assert (E : call_bound (s :: steps) = (static_call_bound s + call_bound steps)%Z) by done.
  rewrite E in *. rewrite fmap_cons, sum_list_cons, Nat2Z.inj_add, step_weight_bound, IH by (done || lia). done.
Qed.

Lemma weight_le f g s : Forall (λ c, f c ≤ g c) (walk_calls s) → weight f s ≤ weight g s.
Proof.
  destruct s as [[nm n body verify rb]|c]; cbn [walk_calls weight ir_max_iters ir_body ir_verify].
  - intros Hf. apply Nat.mul_le_mono_l. induction Hf as [|c cs Hc _ IH]; [done|].
    rewrite !fmap_cons, !sum_list_cons. lia.
  - intros Hf. by apply Forall_cons in Hf as [? _].
Qed.

(** No call of the mission retries. *)
Definition retry_free (ir : MissionIr) : Prop :=
  Forall (λ c, call_on_failure c ≠ Retry) (concat (map walk_calls (ir_steps ir))).

Lemma retry_free_budget ir : retry_free ir → dispatch_budget ir ≤ step_budget ir.
Proof.
  unfold retry_free, dispatch_budget, step_budget. induction (ir_steps ir) as [|s steps IH]; [done|].
  cbn [map concat]. rewrite Forall_app. intros [H1' H2']. rewrite !fmap_cons, !sum_list_cons.
  specialize (IH H2'). enough (weight attempts s ≤ weight one s) by lia. apply weight_le.
  eapply Forall_impl; [exact H1'|]. intros c Hc. unfold attempts, max_attempts.
  rewrite bool_decide_eq_false_2 by done. done.
Qed.
End run.

(** ** Properties *)

Section properties.
Context {W : Type} `{!World W, !ChildLibs, !SerdeJson, !Sha256, !StepDispatcher W, !Rayon W, !HashOrder}.

(** C19 (safety): a compiled mission runs to its end and reports, on every
    dispatcher, thread pool and clock: no [unreachable!], no index out of
    bounds, no missing invocation record. *)
Theorem mission_never_panics p ir tenant id timeout (w : W) : compile p = Ok ir →
  ∃ rep w', execute_mission tenant ir id timeout w = Some (rep, w').
Proof.
  intros Hp. destruct (execute_mission_report (Meter0 := no_meter W) _ _ tenant id timeout Hp w) as (rep & w' & E & _). eauto.
Qed.

(** The report of a compiled mission is complete and
    consistent: no step trace is dropped, there are at most 256 of them, the
    completed and failed counters are those of the traces, and the outcome is
    [Completed] exactly when nothing failed. *)
Theorem mission_report_consistent p ir tenant id timeout (w w' : W) rep : compile p = Ok ir →
  (Z.of_nat (call_count ir) < 2 ^ 59)%Z →
  execute_mission tenant ir id timeout w = Some (rep, w') →
  traces_truncated (trace rep) = 0 ∧ length (step_traces (trace rep)) ≤ 256 ∧
  report_of (flat_mission ir) (step_traces (trace rep)) rep.
Proof.
  intros Hp Hn E.
  destruct (execute_mission_report (Meter0 := no_meter W) _ _ tenant id timeout Hp w) as (rep' & w'' & E' & _ & h & Hl & Hrep).
  rewrite E in E'. injection E' as <- <-.
  pose proof (compile_bound_256 p ir Hp Hn) as Hb.
  apply step_budget_bound in Hb as Hsb; [|by eapply compile_steps_wf]. fold (step_budget ir) in Hsb.
  assert (Hh : length h ≤ 256) by lia.
  assert (Hk : kept h = h) by (apply (trace_buffer_kept h); lia).
  assert (Hts : step_traces (trace rep) = h) by (by rewrite (ro_traces _ _ _ Hrep)).
  rewrite Hts, (ro_truncated _ _ _ Hrep). split_and!; [|done|done].
  unfold omitted, TRACE_CAP_HEAD, TRACE_CAP_TAIL. lia.
Qed.
Context `{!Meter W}.

(** A run dispatches at most the attempts of its calls, loop
    bodies once per iteration: [1 + max_retries] for a retrying call, one for
    every other. *)
Theorem mission_dispatch_budget p ir tenant id timeout (w w' : W) rep : compile p = Ok ir →
  execute_mission tenant ir id timeout w = Some (rep, w') →
  cost w' ≤ cost w + dispatch_budget ir.
Proof.
  intros Hp E. destruct (execute_mission_report _ _ tenant id timeout Hp w) as (rep' & w'' & E' & Hc & _).
  congruence.
Qed.

(** A compiled mission without retrying calls makes at most 256
    dispatches, the cap of the planner. *)
Theorem mission_dispatch_cap p ir tenant id timeout (w w' : W) rep : compile p = Ok ir →
  (Z.of_nat (call_count ir) < 2 ^ 59)%Z → retry_free ir →
  execute_mission tenant ir id timeout w = Some (rep, w') → cost w' ≤ cost w + 256.
Proof.
  intros Hp Hn Hr E.
  destruct (execute_mission_report _ _ tenant id timeout Hp w) as (rep' & w'' & E' & Hc & _).
  pose proof (compile_bound_256 p ir Hp Hn) as Hb.
  apply step_budget_bound in Hb as Hsb; [|by eapply compile_steps_wf]. fold (step_budget ir) in Hsb.
  pose proof (retry_free_budget ir Hr). rewrite E in E'. injection E' as <- <-. lia.
Qed.
End properties.
