(* ===== verification/Determinism.v ===== *)
(** * Runs do not depend on clocks, schedules or parallelism

    For a dispatcher whose answers are a function of the request, the report of
    a mission without a deadline is the same, up to its time stamps, on every
    clock, every thread-pool schedule and under both concurrency policies. *)

From Stdlib Require Import String Sorting.Sorted.
From S2P Require Import Prelude RustStd AgentId Json Ast Ir Trace Diagnostics.
From S2P Require Import World Retry RetryProps Phases PhasesProps.

Open Scope nat_scope.

(** ** Erasing time *)

Definition erase_retry (r : RetryRecord) : RetryRecord :=
  mk_RetryRecord (rr_attempt r) 0 (rr_backoff_ms r) (rr_error r).

Definition erase_trace (t : StepTrace) : StepTrace :=
  mk_StepTrace (st_step_id t) (st_ability t) (st_target t) (st_phase_index t) 0 0 0 (st_outcome t)
    (st_retry_count t) (erase_retry <$> st_retry_history t) (st_result_size t) (st_result_sha256 t)
    (st_error t) (st_invocation t) (st_input_refs t) (st_output_binding t).

Definition erase_buffer (b : CappedTraceBuffer) : CappedTraceBuffer :=
  mk_Buffer (erase_trace <$> buf_head b) (erase_trace <$> buf_tail b) (dropped b).

Definition erase_report (r : ExecutionReport) : ExecutionReport :=
  let t := trace r in
  mk_ExecutionReport 0 (report_steps_completed r) (report_steps_failed r)
    (mk_ExecutionTrace (schema_version t) (mission_id t) (trace_mission_name t) 0 0 0 (phase_count t)
       (trace_steps_completed t) (trace_steps_failed t) (trace_steps_skipped t) (outcome t)
       (erase_trace <$> step_traces t) (ability_graph t) (emissions t) (traces_truncated t))
    (outputs r).

Section erase.
Context `{!ChildLibs}.

Definition erase_result (r : StepExecResult) : StepExecResult :=
  match r with
  | ExecOk bytes sha _ _ _ n h inv => ExecOk bytes sha 0 0 0 n (erase_retry <$> h) inv
  | ExecError m _ _ n h => ExecError m 0 0 n (erase_retry <$> h)
  | SkippedByDependency m _ => SkippedByDependency m 0
  end.

Definition erase_state (s : PhaseRunState) : PhaseRunState :=
  mk_PhaseRunState (global_step s) (captured s) (receipt_graph s) (skipped_bindings s) (completed s)
    (failed s) (skipped s) (aborted s) (erase_buffer (all_traces s)).
End erase.

(** ** Pure dispatchers *)

(** A dispatch function of the request alone. *)
Definition PureDispatch `{ChildLibs} : Type :=
  RunContext → IrTarget → AbilityName → Value → option Z → list Anchor →
  result EalError StepDispatchOutcome.

Definition computes {W} `{ChildLibs} (disp : Dispatch W) (f : PureDispatch) : Prop :=
  ∀ run t a v timeout deps w, (disp run t a v timeout deps w).1 = f run t a v timeout deps.

(** The dispatcher and all its clones compute [f]. *)
Class PureDispatcher (W : Type) `{ChildLibs, !StepDispatcher W} (f : PureDispatch) : Prop := {
  pure_dispatch : computes dispatch f;
  pure_clone w : ∃ d, (clone_for_thread w).1 = Ok d ∧ computes d f;
}.

Section pure.
Context `{!ChildLibs, !SerdeJson, !Sha256} (f : PureDispatch).

(** The failed attempts of a step that always answers [e]. *)
Definition pure_record (step : IrCall) (e : EalError) (k : nat) : RetryRecord :=
  mk_RetryRecord (Z.of_nat k + 1) 0
    (if (Z.of_nat k + 1 <? max_attempts step)%Z then compute_backoff (Z.of_nat k + 1) (step_id step) else 0)
    (display e).

Definition pure_step (run : RunContext) (step : IrCall) (args : Value) (deps : list Anchor)
  : StepExecResult :=
  match f run (target step) (ability step) args (step_timeout_ms step) deps with
  | Ok out =>
      match to_vec (out_value out) with
      | Ok bytes => ExecOk bytes (sha256_hex bytes) 0 0 0 0 [] (out_invocation out)
      | Err e => ExecError (display (Internal ("step result not JSON-serializable: " +:+ e))) 0 0 0 []
      end
  | Err e => ExecError (display e) 0 0 (max_attempts step - 1)
               (pure_record step e <$> seq 0 (Z.to_nat (max_attempts step)))
  end.

Definition pure_unresolved (e : ResolveError) : StepExecResult :=
  match e with
  | UpstreamSkipped binding arg =>
      SkippedByDependency ("skipped: input `" +:+ arg +:+ "` depends on `" +:+ binding +:+
        "` which was skipped upstream") 0
  | Other e => ExecError e 0 0 0 []
  end.

(** What a step of a batch yields. *)
Definition pure_result (run : RunContext) (steps : list IrCall) (cap : gmap string CapturedResult)
    (graph : list Value) (skip : gset string) (i : nat) : StepExecResult :=
  match steps !! i with
  | None => SkippedByDependency EmptyString 0
  | Some step =>
      match resolve_arguments step cap skip with
      | Err e => pure_unresolved e
      | Ok args => pure_step run step (substitute_receipt_graph args graph)
                     (dependency_receipts_from_captured step cap)
      end
  end.

Section world.
Context {W : Type} `{!World W, !StepDispatcher W, !Rayon W}.

Lemma retry_loop_pure disp run step args deps started t0 : computes disp f → run_deadline run = None →
  ∀ togo k h w, k + togo = Z.to_nat (max_attempts step) → 0 < togo →
  erase_retry <$> h =
    match f run (target step) (ability step) args (step_timeout_ms step) deps with
    | Ok _ => [] | Err e => pure_record step e <$> seq 0 k end →
  (k ≠ 0 → ∃ e, f run (target step) (ability step) args (step_timeout_ms step) deps = Err e) →
  erase_result (retry_loop disp run step args deps started t0 (Z.of_nat k) togo h w).1 =
    pure_step run step args deps.
Proof.
  intros Hd Hdl. pose proof (max_attempts_pos step) as HM.
  induction togo as [|togo IH]; intros k h w Hk Hpos Hh Hk0; [lia|]. cbn [retry_loop].
  rewrite st_bind_eq.
  match goal with |- context [(?m w).2] => generalize (m w).2 end. clear w. intros w.
  rewrite st_bind_eq. unfold effective_dispatch_timeout_ms. rewrite Hdl.
  rewrite st_bind_eq. cbn [mret st_ret fst snd]. rewrite st_bind_eq, Hd. unfold pure_step.
  destruct (f run (target step) (ability step) args (step_timeout_ms step) deps) as [out|e] eqn:Ef.
  - assert (k = 0) as ->. { destruct k; [done|]. destruct Hk0 as [e He]; [lia|done]. }
    destruct (to_vec (out_value out)); rewrite !st_bind_eq; cbn [mret st_ret fst erase_result]; by rewrite Hh.
  - rewrite st_bind_eq. cbn zeta.
    destruct (Z.leb_spec (max_attempts step) (Z.of_nat k + 1)) as [Hlast|Hmore].
    + rewrite st_bind_eq. cbn [mret st_ret fst erase_result]. f_equal; [lia|].
      replace (Z.to_nat (max_attempts step)) with (S k) by lia.
      by rewrite fmap_app, Hh, seq_S, fmap_app.
    + replace (Z.of_nat k + 1)%Z with (Z.of_nat (S k)) by lia. rewrite IH; [|lia|lia| |by eauto].
      * unfold pure_step. by rewrite Ef.
      * rewrite seq_S, !fmap_app, Hh. f_equal. cbn. unfold pure_record, erase_retry. cbn [Nat.add].
        by replace (Z.of_nat k + 1)%Z with (Z.of_nat (S k)) by lia.
Qed.

Lemma execute_step_pure disp run step args deps w : computes disp f → run_deadline run = None →
  erase_result (execute_step_with_retry disp run step args deps w).1 = pure_step run step args deps.
Proof.
  intros Hd Hdl. unfold execute_step_with_retry. rewrite !st_bind_eq.
  pose proof (max_attempts_pos step).
  apply (retry_loop_pure disp run step args deps _ _ Hd Hdl _ 0); [lia|lia| |done].
  by case_match.
Qed.

Lemma unresolved_pure e (w : W) : erase_result (unresolved e w).1 = pure_unresolved e.
Proof. destruct e; cbn [unresolved]; by rewrite st_bind_eq. Qed.

(** ** Batches *)

Context `{!PureDispatcher W f}.

(** The value a computation returns, whatever the world (the meter counts
    nothing). *)
Definition returns {A} (m : pm W A) (Q : A → Prop) : Prop := ensures (Meter0 := no_meter W) m 0 Q.
Definition yields_st {A} (m : st W A) (Q : A → Prop) : Prop := ∀ w, Q (m w).1.

Lemma ret_lift {A B} (m : st W A) (k : A → pm W B) Q R :
  yields_st m Q → (∀ a, Q a → returns (k a) R) → returns (lift m ≫= k) R.
Proof.
  intros Hm Hk. eapply ens_bind0; [|exact Hk]. apply ens_lift. intros w. split; [cbn; lia|apply Hm].
Qed.

(** Results known and tasks spawned so far are those of the pure steps. *)
Definition prepared_pure (res : nat → StepExecResult) (pre : list nat)
    (acc : list (nat * StepExecResult) * list (nat * st W StepExecResult)) : Prop :=
  acc.1.*1 ++ acc.2.*1 ≡ₚ pre ∧
  Forall (λ r, erase_result r.2 = res r.1) acc.1 ∧
  Forall (λ t, ∀ w, erase_result (t.2 w).1 = res t.1) acc.2.

Lemma prepare_task_pure run steps cap graph skip pre i acc : run_deadline run = None →
  i < length steps → prepared_pure (pure_result run steps cap graph skip) pre acc →
  returns (prepare_task run steps cap graph skip acc i)
    (prepared_pure (pure_result run steps cap graph skip) (pre ++ [i])).
Proof using PureDispatcher0.
  intros Hdl Hi (Hp & Hcol & Htask). destruct acc as [collector tasks]. cbn in Hp, Hcol, Htask.
  unfold prepare_task. destruct (lookup_lt_is_Some_2 _ _ Hi) as [step Hstep].
  eapply ens_some; [exact Hstep|].
  assert (Hpres : pure_result run steps cap graph skip i =
    match resolve_arguments step cap skip with
    | Err e => pure_unresolved e
    | Ok args => pure_step run step (substitute_receipt_graph args graph)
                   (dependency_receipts_from_captured step cap)
    end) by (unfold pure_result; by rewrite Hstep).
  destruct (resolve_arguments step cap skip) as [args|e].
  - eapply (ret_lift _ _ (λ d, ∃ d', d = Ok d' ∧ computes d' f)); [intros w; apply pure_clone|].
    intros d (d' & -> & Hd). apply ens_ret. split_and!; cbn.
    + rewrite fmap_app. cbn. by rewrite app_assoc, Hp.
    + done.
    + apply Forall_app. split; [done|]. constructor; [|constructor]. cbn. intros w.
      by rewrite Hpres, execute_step_pure.
  - eapply (ret_lift _ _ (λ r, erase_result r = pure_unresolved e)); [intros w; apply unresolved_pure|].
    intros r Hr. apply ens_ret. split_and!; cbn.
    + rewrite fmap_app. cbn. rewrite <- app_assoc. rewrite (Permutation_app_comm [i]), app_assoc, Hp. done.
    + apply Forall_app. split; [done|]. constructor; [|constructor]. cbn. by rewrite Hr.
    + done.
Qed.

Definition erased (rs : list (nat * StepExecResult)) : list (nat * StepExecResult) :=
  (λ r, (r.1, erase_result r.2)) <$> rs.

Lemma erased_pure res (rs : list (nat * StepExecResult)) : Forall (λ r, erase_result r.2 = res r.1) rs →
  erased rs = (λ i, (i, res i)) <$> rs.*1.
Proof.
  unfold erased. induction 1 as [|[i r] rs Hr _ IH]; [done|]. rewrite !fmap_cons, IH. cbn in *. by rewrite Hr.
Qed.

Lemma dispatch_one_pure run steps cap graph skip pre i results : run_deadline run = None →
  i < length steps → erased results = (λ i, (i, pure_result run steps cap graph skip i)) <$> pre →
  returns (dispatch_one run steps cap graph skip results i)
    (λ rs, erased rs = (λ i, (i, pure_result run steps cap graph skip i)) <$> (pre ++ [i])).
Proof using PureDispatcher0.
  intros Hdl Hi Hr. unfold dispatch_one. destruct (lookup_lt_is_Some_2 _ _ Hi) as [step Hstep].
  eapply ens_some; [exact Hstep|]. unfold erased in *.
  destruct (resolve_arguments step cap skip) as [args|e] eqn:Ea.
  - eapply (ret_lift _ _ (λ r, erase_result r = pure_result run steps cap graph skip i)).
    { intros w. unfold pure_result. rewrite Hstep, Ea. apply execute_step_pure; [apply pure_dispatch|done]. }
    intros r Hri. apply ens_ret. rewrite !fmap_app, Hr. cbn. by rewrite Hri.
  - eapply (ret_lift _ _ (λ r, erase_result r = pure_result run steps cap graph skip i)).
    { intros w. unfold pure_result. rewrite Hstep, Ea. apply unresolved_pure. }
    intros r Hri. apply ens_ret. rewrite !fmap_app, Hr. cbn. by rewrite Hri.
Qed.

Lemma returns_fold {S A} (g : S → A → pm W S) (P : list A → S → Prop) l s :
  (∀ pre x s, x ∈ l → P pre s → returns (g s x) (P (pre ++ [x]))) → P [] s →
  returns (fold_pm g s l) (P l).
Proof.
  intros Hg HP. eapply ens_weaken; [apply (ens_fold (Meter0 := no_meter W) g (λ _, 0) P l [] s Hg HP)| |done].
  clear. by induction l.
Qed.

(** Both ways of running a batch give the results of the pure steps, in index
    order. *)
Lemma dispatch_batch_pure run steps idx cap graph skip par : run_deadline run = None →
  Forall (λ i, i < length steps) idx → sorted_lt idx →
  returns (dispatch_batch run steps idx cap graph skip par)
    (λ rs, erased rs = (λ i, (i, pure_result run steps cap graph skip i)) <$> idx).
Proof using PureDispatcher0.
  intros Hdl Hlt Hs. unfold dispatch_batch. destruct idx as [|i0 idx0]; [by apply ens_ret|].
  set (idx := i0 :: idx0) in *. rewrite Forall_forall in Hlt. set (res := pure_result run steps cap graph skip).
  destruct (par && _).
  - eapply ens_bind0; [apply (returns_fold _ (prepared_pure res) idx ([], []))|].
    + intros pre x s Hx Hp. by apply prepare_task_pure; [|apply Hlt|].
    + split_and!; constructor.
    + intros [collector tasks] (Hp & Hcol & Htask). cbn in Hp, Hcol, Htask.
      eapply (ret_lift _ _ (λ rs, rs.*1 ≡ₚ tasks.*1 ∧ Forall (λ r, erase_result r.2 = res r.1) rs)).
      { intros w. destruct (scope_spec tasks w) as (rs & Hperm & Hf). rewrite Hperm. clear -Hf Htask.
        induction Hf as [|t r tasks rs [E [wi Er]] _ IH]; [by split; [|constructor]|].
        apply Forall_cons in Htask as [Ht Htask]. destruct (IH Htask) as [IH1 IH2]. cbn. rewrite E, IH1.
        split; [done|]. constructor; [|done]. by rewrite E, Er, Ht. }
      intros rs [Hrs Hpure]. apply ens_ret. rewrite (erased_pure res).
      * rewrite sort_by_fst with (idx := idx); [done| |done]. by rewrite fmap_app, Hrs, Hp.
      * rewrite sort_by_key_perm. by apply Forall_app.
  - apply (returns_fold _ (λ pre rs, erased rs = (λ i, (i, res i)) <$> pre) idx []); [|done].
    intros pre x s Hx Hp. apply dispatch_one_pure; [done|by apply Hlt|done].
Qed.
End world.
End pure.

(** ** Two runs *)

Lemma erase_push t t' b b' : erase_trace t = erase_trace t' → erase_buffer b = erase_buffer b' →
  erase_buffer (buffer_push t b) = erase_buffer (buffer_push t' b').
Proof.
  intros Ht Hb. destruct b as [hd tl d], b' as [hd' tl' d']. unfold erase_buffer in Hb. cbn in Hb.
  injection Hb as Hh Htl ->. pose proof (f_equal length Hh) as Lh. pose proof (f_equal length Htl) as Lt.
  rewrite !length_fmap in Lh, Lt. unfold buffer_push, erase_buffer. cbn [buf_head buf_tail dropped].
  rewrite Lh, Lt. case_match; cbn [buf_head buf_tail dropped].
  - f_equal; [|done]. by rewrite !fmap_app, !fmap_cons, Hh, Ht.
  - assert (Htail : erase_trace <$> tail tl = erase_trace <$> tail tl').
    { destruct tl, tl'; try done. by injection Htl. }
    destruct (length tl' =? TRACE_CAP_TAIL); cbn [buf_head buf_tail dropped]; (f_equal; [done|]); by rewrite !fmap_app, !fmap_cons, ?Htl, ?Htail, Ht.
Qed.

Section two_runs.
Context `{!ChildLibs, !SerdeJson, !Sha256} (f : PureDispatch).
Context {W1 W2 : Type} `{!World W1, !StepDispatcher W1, !Rayon W1, !PureDispatcher W1 f}.
Context `{!World W2, !StepDispatcher W2, !Rayon W2, !PureDispatcher W2 f}.

(** Two computations return related values, or both panic. *)
Definition psim {A B} (R : A → B → Prop) (m1 : pm W1 A) (m2 : pm W2 B) : Prop := ∀ w1 w2,
  match m1 w1, m2 w2 with
  | Some (a, _), Some (b, _) => R a b
  | None, None => True
  | _, _ => False
  end.
Definition ssim {A B} (R : A → B → Prop) (m1 : st W1 A) (m2 : st W2 B) : Prop :=
  ∀ w1 w2, R (m1 w1).1 (m2 w2).1.

Lemma psim_ret {A B} (R : A → B → Prop) a b : R a b → psim R (mret a) (mret b).
Proof. intros HR w1 w2. exact HR. Qed.

Lemma psim_bind {A B A' B'} (R : A → B → Prop) (S : A' → B' → Prop) m1 m2 k1 k2 :
  psim R m1 m2 → (∀ a b, R a b → psim S (k1 a) (k2 b)) → psim S (m1 ≫= k1) (m2 ≫= k2).
Proof.
  intros Hm Hk w1 w2. specialize (Hm w1 w2). unfold mbind, pm_bind.
  destruct (m1 w1) as [[a w1']|], (m2 w2) as [[b w2']|]; try done. by apply Hk.
Qed.

Lemma psim_lift {A B A' B'} (R : A → B → Prop) (S : A' → B' → Prop) (m1 : st W1 A) (m2 : st W2 B) k1 k2 :
  ssim R m1 m2 → (∀ a b, R a b → psim S (k1 a) (k2 b)) → psim S (lift m1 ≫= k1) (lift m2 ≫= k2).
Proof.
  intros Hm Hk. apply (psim_bind R); [|done]. intros w1 w2. unfold lift. specialize (Hm w1 w2).
  by destruct (m1 w1), (m2 w2).
Qed.

Lemma psim_any {A A' B B'} (S : A' → B' → Prop) (m1 : st W1 A) (m2 : st W2 B) k1 k2 :
  (∀ a b, psim S (k1 a) (k2 b)) → psim S (lift m1 ≫= k1) (lift m2 ≫= k2).
Proof. intros Hk. by apply (psim_lift (λ _ _, True)). Qed.

Lemma psim_panic {A A' B'} (S : A' → B' → Prop) (o : option A) k1 k2 :
  (∀ a, psim S (k1 a) (k2 a)) → psim S (panic_on_none o ≫= k1) (panic_on_none o ≫= k2).
Proof.
  intros Hk. apply (psim_bind eq); [|by intros a ? <-]. intros w1 w2. by destruct o.
Qed.

Lemma psim_fold {S1 S2 A B} (R : S1 → S2 → Prop) (Q : A → B → Prop) g1 g2 l1 l2 :
  Forall2 Q l1 l2 → (∀ s1 s2 x y, R s1 s2 → Q x y → psim R (g1 s1 x) (g2 s2 y)) →
  ∀ s1 s2, R s1 s2 → psim R (fold_pm g1 s1 l1) (fold_pm g2 s2 l2).
Proof.
  intros Hl Hg. induction Hl as [|x y l1 l2 Hxy _ IH]; intros s1 s2 HR; cbn [fold_pm].
  - by apply psim_ret.
  - eapply psim_bind; [by apply Hg|]. intros s1' s2' HR'. by apply IH.
Qed.

(** States, and results, that differ in time stamps only. *)
Definition same (s1 s2 : PhaseRunState) : Prop := erase_state s1 = erase_state s2.
Definition same_result (r1 r2 : StepExecResult) : Prop := erase_result r1 = erase_result r2.
Definition same_entry (r1 r2 : nat * StepExecResult) : Prop := r1.1 = r2.1 ∧ same_result r1.2 r2.2.

Lemma process_result_same step r1 r2 phase : same_result r1 r2 →
  ssim (λ '(o1, t1, b1, i1) '(o2, t2, b2, i2), o1 = o2 ∧ erase_trace t1 = erase_trace t2 ∧ b1 = b2 ∧ i1 = i2)
    (process_step_result step r1 phase) (process_step_result step r2 phase).
Proof.
  intros Hr w1 w2. destruct r1, r2; try discriminate Hr; cbn in Hr; injection Hr; intros; subst;
    cbn [process_step_result]; rewrite ?st_bind_eq; cbn; unfold erase_trace; cbn; split_and!; try done;
    by f_equal.
Qed.

Lemma same_spec s1 s2 : same s1 s2 ↔
  (global_step s1 = global_step s2 ∧ captured s1 = captured s2 ∧ receipt_graph s1 = receipt_graph s2 ∧
   skipped_bindings s1 = skipped_bindings s2 ∧ completed s1 = completed s2 ∧ failed s1 = failed s2 ∧
   skipped s1 = skipped s2 ∧ aborted s1 = aborted s2 ∧
   erase_buffer (all_traces s1) = erase_buffer (all_traces s2)).
Proof.
  unfold same, erase_state. split; [|intuition congruence].
  generalize (erase_buffer (all_traces s1)), (erase_buffer (all_traces s2)). intros b1 b2 Hs.
  by injection Hs as -> -> -> -> -> -> -> -> ->.
Qed.

Lemma same_push s1 s2 t1 t2 : same s1 s2 → erase_trace t1 = erase_trace t2 →
  same (mk_PhaseRunState (global_step s1) (captured s1) (receipt_graph s1) (skipped_bindings s1)
          (completed s1) (failed s1) (skipped s1) (aborted s1) (buffer_push t1 (all_traces s1)))
       (mk_PhaseRunState (global_step s2) (captured s2) (receipt_graph s2) (skipped_bindings s2)
          (completed s2) (failed s2) (skipped s2) (aborted s2) (buffer_push t2 (all_traces s2))).
Proof.
  rewrite !same_spec. cbn -[erase_buffer buffer_push]. intros (? & ? & ? & ? & ? & ? & ? & ? & Hb) Ht.
  by rewrite (erase_push _ _ _ _ Ht Hb).
Qed.

Lemma process_one_same steps phase s1 s2 r1 r2 : same s1 s2 → same_entry r1 r2 →
  psim same (process_one steps phase s1 r1) (process_one steps phase s2 r2).
Proof.
  destruct r1 as [i r1], r2 as [j r2]. intros Hs [Hi Hr]. cbn in Hi, Hr. subst j. unfold process_one.
  apply psim_panic. intros step.
  eapply psim_lift; [by apply process_result_same|].
  intros [[[o1 t1] b1] i1] [[[o2 t2] b2] i2] (<- & Ht & <- & <-). cbn zeta.
  eapply psim_bind with (R := same); [|intros s1' s2' Hs'; by apply psim_ret, same_push].
  clear Ht t1 t2. apply same_spec in Hs as (Eg & Ec & Er & Es & Eco & Ef & Esk & Ea & Eb).
  destruct o1; [apply psim_panic; intros inv| |]; apply psim_ret; apply same_spec;
    cbn [global_step captured receipt_graph skipped_bindings completed failed skipped aborted all_traces];
    by rewrite ?Eg, ?Ec, ?Er, ?Es, ?Eco, ?Ef, ?Esk, ?Ea, ?Eb.
Qed.

Lemma process_batch_same steps phase rs1 rs2 s1 s2 : same s1 s2 → Forall2 same_entry rs1 rs2 →
  psim same (process_batch steps phase rs1 s1) (process_batch steps phase rs2 s2).
Proof.
  intros Hs Hr. unfold process_batch. eapply psim_fold; [exact Hr| |done].
  intros. by apply process_one_same.
Qed.

Lemma same_fields s1 s2 : same s1 s2 → captured s1 = captured s2 ∧ receipt_graph s1 = receipt_graph s2 ∧
  skipped_bindings s1 = skipped_bindings s2 ∧ aborted s1 = aborted s2.
Proof. rewrite same_spec. tauto. Qed.

Lemma erased_same rs1 rs2 : erased rs1 = erased rs2 → Forall2 same_entry rs1 rs2.
Proof.
  revert rs2. induction rs1 as [|r1 rs1 IH]; intros [|r2 rs2] E; try discriminate E; constructor.
  - injection E. done.
  - apply IH. by injection E.
Qed.

(** A batch yields the same entries in both runs, whatever the concurrency. *)
Lemma dispatch_batch_same run steps opt cap graph skip par1 par2 : run_deadline run = None →
  psim (Forall2 same_entry)
    (dispatch_batch (W := W1) run steps (indices_of opt steps) cap graph skip par1)
    (dispatch_batch (W := W2) run steps (indices_of opt steps) cap graph skip par2).
Proof using PureDispatcher0 PureDispatcher1.
  intros Hdl w1 w2. destruct (indices_of_sorted opt steps) as [Hs Hlt].
  destruct (dispatch_batch_pure f (W := W1) run steps _ cap graph skip par1 Hdl Hlt Hs w1) as (rs1 & w1' & -> & _ & E1).
  destruct (dispatch_batch_pure f (W := W2) run steps _ cap graph skip par2 Hdl Hlt Hs w2) as (rs2 & w2' & -> & _ & E2).
  apply erased_same. congruence.
Qed.

Lemma calls_partition_same run steps phase s1 s2 : run_deadline run = None → same s1 s2 →
  psim same (execute_calls_phase_partition (W := W1) run steps phase s1)
    (execute_calls_phase_partition (W := W2) run steps phase s2).
Proof using PureDispatcher0 PureDispatcher1.
  intros Hdl Hs. unfold execute_calls_phase_partition. destruct steps as [|c steps]; [by apply psim_ret|].
  cbn zeta. destruct (same_fields _ _ Hs) as (-> & -> & -> & _).
  eapply psim_bind; [by apply dispatch_batch_same|]. intros rs1 rs2 Hrs.
  eapply psim_bind; [by apply process_batch_same|]. intros s1' s2' Hs'.
  destruct (same_fields _ _ Hs') as (-> & -> & -> & ->). case_match; [|by apply psim_ret].
  eapply psim_bind; [by apply dispatch_batch_same|]. intros rs1' rs2' Hrs'. by apply process_batch_same.
Qed.

(** ** Loops *)

Definition same_scoped (x1 x2 : PhaseRunState * IterScope) : Prop := same x1.1 x2.1 ∧ x1.2 = x2.2.
Definition same_block (x1 x2 : bool * PhaseRunState * IterScope) : Prop :=
  x1.1.1 = x2.1.1 ∧ same x1.1.2 x2.1.2 ∧ x1.2 = x2.2.

Lemma process_in_block_same steps phase i r1 r2 s1 s2 scope : same_result r1 r2 → same s1 s2 →
  psim same_scoped (process_in_block steps phase i r1 s1 scope) (process_in_block steps phase i r2 s2 scope).
Proof.
  intros Hr Hs. unfold process_in_block. eapply psim_bind.
  - apply process_batch_same; [|by constructor].
    rewrite same_spec in *. cbn -[erase_buffer]. tauto.
  - intros b1 b2 Hb. apply psim_ret. unfold same_scoped. rewrite same_spec in *. cbn -[erase_buffer].
    destruct Hb as (? & -> & ? & -> & ?). tauto.
Qed.

Lemma execute_step_same run step args deps : run_deadline run = None →
  ssim same_result (execute_step_with_retry (W := W1) dispatch run step args deps)
    (execute_step_with_retry (W := W2) dispatch run step args deps).
Proof using PureDispatcher0 PureDispatcher1.
  intros Hdl w1 w2. unfold same_result.
  by rewrite !(execute_step_pure f) by (done || apply pure_dispatch).
Qed.

Lemma unresolved_same e : ssim same_result (unresolved (W := W1) e) (unresolved (W := W2) e).
Proof. intros w1 w2. unfold same_result. by rewrite !unresolved_pure. Qed.

Lemma run_block_steps_same run steps phase last_idx todo : run_deadline run = None → ∀ s1 s2 scope,
  same s1 s2 → psim same_block (run_block_steps (W := W1) run steps phase last_idx todo s1 scope)
    (run_block_steps (W := W2) run steps phase last_idx todo s2 scope).
Proof using PureDispatcher0 PureDispatcher1.
  intros Hdl. induction todo as [|[i step] todo IH]; intros s1 s2 scope Hs; cbn [run_block_steps];
    destruct (same_fields _ _ Hs) as (_ & Hg & _ & ->); [by apply psim_ret|]. rewrite Hg.
  destruct (aborted s2); [by apply psim_ret|].
  destruct (resolve_arguments step _ _) as [args|[binding arg|e]].
  - eapply psim_lift; [by apply execute_step_same|]. intros r1 r2 Hr. cbn zeta.
    match goal with |- psim _ (process_in_block _ _ _ _ _ ?x ≫= _) (process_in_block _ _ _ _ _ ?y ≫= _) =>
      assert (x = y) as -> end.
    { destruct r1, r2; try discriminate Hr; [|done..]. cbn in Hr. by injection Hr as -> _ _ _ ->. }
    eapply psim_bind; [by apply process_in_block_same|].
    intros [s1' sc1] [s2' sc2] [Hs' E]. cbn in Hs', E. subst sc2. by apply IH.
  - eapply psim_lift; [apply unresolved_same|]. intros r1 r2 Hr.
    eapply psim_bind; [by apply process_in_block_same|].
    intros [s1' sc1] [s2' sc2] [Hs' E]. cbn in Hs', E. subst sc2. by apply IH.
  - eapply psim_lift; [apply unresolved_same|]. intros r1 r2 Hr.
    eapply psim_bind; [by apply process_in_block_same|].
    intros [s1' sc1] [s2' sc2] [Hs' E]. cbn in Hs', E. subst sc2. apply psim_ret.
    destruct (same_fields _ _ Hs') as (_ & _ & _ & ->). by split.
Qed.

Lemma loop_abort_same s1 s2 : same s1 s2 → same (loop_abort s1) (loop_abort s2).
Proof.
  rewrite !same_spec. unfold loop_abort. cbn -[erase_buffer].
  intros (? & ? & ? & ? & ? & -> & ?). tauto.
Qed.

Lemma set_captured_same k c s1 s2 : same s1 s2 →
  same (set_captured (<[k := c]> (captured s1)) s1) (set_captured (<[k := c]> (captured s2)) s2).
Proof.
  rewrite !same_spec. unfold set_captured. cbn -[erase_buffer]. intros (? & -> & ?). tauto.
Qed.

Lemma loop_iterations_same run lp body verify phase togo : run_deadline run = None → ∀ s1 s2,
  same s1 s2 → psim same (loop_iterations (W := W1) run lp body verify phase togo s1)
    (loop_iterations (W := W2) run lp body verify phase togo s2).
Proof using PureDispatcher0 PureDispatcher1.
  intros Hdl. induction togo as [|togo IH]; intros s1 s2 Hs; cbn [loop_iterations].
  { by apply psim_ret, loop_abort_same. }
  destruct (same_fields _ _ Hs) as (_ & _ & _ & ->). destruct (aborted s2); [by apply psim_ret|].
  eapply psim_bind; [by apply run_block_steps_same|].
  intros [[ok t1] sc] [[ok' t2] sc'] (E1 & Ht & E2). cbn in E1, Ht, E2. subst ok' sc'.
  destruct (same_fields _ _ Ht) as (_ & _ & _ & ->). case_match; [by apply psim_ret|].
  eapply psim_bind; [by apply run_block_steps_same|].
  intros [[vok u1] sc1] [[vok' u2] sc1'] (E1 & Hu & E2). cbn in E1, Hu, E2. subst vok' sc1'.
  destruct (same_fields _ _ Hu) as (_ & _ & _ & ->). case_match; [by apply psim_ret|].
  apply psim_panic. intros final. destruct (final_capture final sc1) as [c|]; [|by apply psim_ret, loop_abort_same].
  destruct (verify_output_done (cap_value c)).
  - apply psim_ret. destruct (result_binding lp); [by apply set_captured_same|done].
  - by apply IH.
  - by apply psim_ret, loop_abort_same.
Qed.

(** ** Missions *)

Lemma run_partition_same run phase s1 s2 p : run_deadline run = None → same s1 s2 →
  psim same (run_partition (W := W1) run phase s1 p) (run_partition (W := W2) run phase s2 p).
Proof using PureDispatcher0 PureDispatcher1.
  intros Hdl Hs. destruct p as [steps|lp]; cbn [run_partition].
  - apply psim_panic. intros calls. by apply calls_partition_same.
  - unfold execute_loop. repeat case_match; [by apply loop_iterations_same|by apply psim_ret, loop_abort_same..].
Qed.

Lemma run_phases_same run ir s1 s2 : run_deadline run = None → same s1 s2 →
  psim same (run_phases (W := W1) run ir s1) (run_phases (W := W2) run ir s2).
Proof using PureDispatcher0 PureDispatcher1.
  intros Hdl Hs. unfold run_phases. apply (psim_fold _ eq); [reflexivity| |done].
  clear s1 s2 Hs. intros s1 s2 [i ph] ? Hs <-. destruct (same_fields _ _ Hs) as (_ & _ & _ & ->).
  destruct (aborted s2); [by apply psim_ret|]. apply psim_panic. intros steps.
  case_bool_decide; [by apply psim_ret|]. unfold run_partitions.
  apply (psim_fold _ eq); [reflexivity| |done].
  clear s1 s2 Hs. intros s1 s2 p ? Hs <-. destruct (same_fields _ _ Hs) as (_ & _ & _ & ->).
  destruct (aborted s2); [by apply psim_ret|]. by apply run_partition_same.
Qed.

Lemma erase_ability_graph ts1 ts2 : erase_trace <$> ts1 = erase_trace <$> ts2 →
  ability_graph_of ts1 = ability_graph_of ts2.
Proof.
  assert (Hmap : ∀ ts, ability_graph_of ts = ability_graph_of (erase_trace <$> ts)).
  { induction ts as [|t ts IH]; [done|]. unfold ability_graph_of in *. rewrite fmap_cons. cbn [omap list_omap].
    rewrite IH. by destruct t. }
  intros E. by rewrite Hmap, E, <- Hmap.
Qed.

Lemma same_into_parts b1 b2 : erase_buffer b1 = erase_buffer b2 →
  erase_trace <$> (into_parts b1).1 = erase_trace <$> (into_parts b2).1 ∧
  (into_parts b1).2 = (into_parts b2).2.
Proof.
  unfold erase_buffer, into_parts. intros E. injection E as Eh Et Ed. cbn. by rewrite !fmap_app, Eh, Et, Ed.
Qed.

(** C13 (equivalence): a mission without a deadline, over a dispatcher whose
    answers depend on the request only, gives the same report (outcome,
    counters, traces in order with their retry histories, graph of receipts,
    emissions, outputs), up to time stamps, on any two clocks, thread-pool
    schedules, thread clones and concurrency policies. *)
Theorem mission_deterministic tenant ir mission_id :
  psim (λ r1 r2, erase_report r1 = erase_report r2)
    (execute_mission (W := W1) tenant ir mission_id None)
    (execute_mission (W := W2) tenant ir mission_id None).
Proof using PureDispatcher0 PureDispatcher1.
  unfold execute_mission. apply (psim_bind (λ d1 d2, d1 = None ∧ d2 = None)); [by apply psim_ret|].
  intros ? ? [-> ->]. cbn zeta. apply psim_any. intros m1 m2. apply psim_any. intros t1 t2.
  eapply psim_bind; [by apply run_phases_same|]. intros s1 s2 Hs.
  apply psim_any. intros e1 e2. apply psim_any. intros u1 u2.
  apply same_spec in Hs as (_ & Hc & _ & _ & Hco & Hf & Hsk & Ha & Hb).
  destruct (same_into_parts _ _ Hb) as [Hp Hd]. destruct (into_parts (all_traces s1)) as [p1 d1].
  destruct (into_parts (all_traces s2)) as [p2 d2]. cbn in Hp, Hd. apply psim_ret.
  unfold erase_report, mission_outcome. cbn -[ability_graph_of resolve_emissions fmap].
  by rewrite Hc, Hco, Hf, Hsk, Ha, Hp, Hd, (erase_ability_graph _ _ Hp).
Qed.
End two_runs.
