(* ===== verification/RunLogic.v ===== *)
(** * What a batch does to the state

    A logic of partial correctness for the panicking monad, and with it the
    effect of dispatching and processing one batch: which traces are appended,
    what they record, and what is captured. *)

From Stdlib Require Import String Sorting.Sorted.
From S2P Require Import Prelude RustStd AgentId Json Ir Trace Diagnostics World.
From S2P Require Import Retry RetryProps Phases PhasesProps.

Open Scope nat_scope.

(** ** Partial correctness *)

Section post.
Context {W : Type}.

(** Whatever the world, a value that [m] returns satisfies [Q]. *)
Definition post {A} (m : pm W A) (Q : A → Prop) : Prop := ∀ w a w', m w = Some (a, w') → Q a.
Definition post_st {A} (m : st W A) (Q : A → Prop) : Prop := ∀ w, Q (m w).1.

Lemma post_ret {A} (a : A) (Q : A → Prop) : Q a → post (mret a) Q.
Proof. intros HQ w b w' E. by injection E as <- _. Qed.

Lemma post_bind {A B} (m : pm W A) (k : A → pm W B) Q R :
  post m Q → (∀ a, Q a → post (k a) R) → post (m ≫= k) R.
Proof.
  intros Hm Hk w b w'. unfold mbind, pm_bind. destruct (m w) as [[a w1]|] eqn:E; [|done].
  apply Hk. by eapply Hm.
Qed.

Lemma post_lift {A B} (m : st W A) (k : A → pm W B) Q R :
  post_st m Q → (∀ a, Q a → post (k a) R) → post (lift m ≫= k) R.
Proof.
  intros Hm Hk. apply (post_bind _ _ Q); [|done]. intros w a w' E. unfold lift in E.
  specialize (Hm w). destruct (m w). by injection E as <- _.
Qed.

Lemma post_any {A B} (m : st W A) (k : A → pm W B) R : (∀ a, post (k a) R) → post (lift m ≫= k) R.
Proof. intros Hk. by apply (post_lift _ _ (λ _, True)). Qed.

Lemma post_some {A B} (o : option A) (k : A → pm W B) R :
  (∀ a, o = Some a → post (k a) R) → post (panic_on_none o ≫= k) R.
Proof.
  intros Hk. apply (post_bind _ _ (λ a, o = Some a)); [|done]. intros w a w' E. unfold panic_on_none in E.
  destruct o; [|done]. by injection E as <- _.
Qed.

Lemma post_weaken {A} (m : pm W A) (Q R : A → Prop) : post m Q → (∀ a, Q a → R a) → post m R.
Proof. intros Hm HR w a w' E. eapply HR, Hm, E. Qed.

Lemma post_fold {S A} (f : S → A → pm W S) (P : list A → S → Prop) l : ∀ pre s,
  (∀ pre x s, x ∈ l → P pre s → post (f s x) (P (pre ++ [x]))) → P pre s →
  post (fold_pm f s l) (P (pre ++ l)).
Proof.
  induction l as [|x l IH]; intros pre s Hf HP; cbn [fold_pm].
  { rewrite app_nil_r. by apply post_ret. }
  eapply post_bind; [apply Hf; [left|done]|]. intros s' HP'. rewrite cons_middle, app_assoc.
  apply IH; [|done]. intros. apply Hf; [by right|done].
Qed.

Lemma pst_ret {A} (a : A) (Q : A → Prop) : Q a → post_st (mret a) Q.
Proof. by intros HQ w. Qed.

Lemma pst_bind {A B} (m : st W A) (k : A → st W B) Q R :
  post_st m Q → (∀ a, Q a → post_st (k a) R) → post_st (m ≫= k) R.
Proof. intros Hm Hk w. rewrite st_bind_eq. apply Hk, Hm. Qed.

Lemma pst_any {A B} (m : st W A) (k : A → st W B) R : (∀ a, post_st (k a) R) → post_st (m ≫= k) R.
Proof. intros Hk w. rewrite st_bind_eq. apply Hk. Qed.
End post.

Section batches.
Context {W : Type} `{!World W, !ChildLibs, !SerdeJson, !Sha256, !StepDispatcher W, !Rayon W}.

(** ** Steps *)

(** A result carries the digest of its bytes. *)
Definition digested (r : StepExecResult) : Prop :=
  match r with ExecOk bytes sha _ _ _ _ _ _ => sha = sha256_hex bytes | _ => True end.

Lemma retry_loop_digested disp run step args deps started t0 togo : ∀ attempt history,
  post_st (W := W) (retry_loop disp run step args deps started t0 attempt togo history) digested.
Proof.
  induction togo as [|togo IH]; intros attempt history; cbn [retry_loop].
  { apply pst_any. intros ?. by apply pst_ret. }
  do 3 (apply pst_any; intros ?). match goal with |- context [match ?x with Ok _ => _ | Err _ => _ end] => destruct x end.
  - apply pst_any. intros [out|e].
    + destruct (to_vec _); repeat (apply pst_any; intros ?); by apply pst_ret.
    + apply pst_any. intros ?. cbn zeta. case_match; [|apply IH]. apply pst_any. intros ?. by apply pst_ret.
  - apply pst_any. intros ?. by apply pst_ret.
Qed.

Lemma execute_step_digested disp run step args deps :
  post_st (W := W) (execute_step_with_retry disp run step args deps) digested.
Proof. unfold execute_step_with_retry. do 2 (apply pst_any; intros ?). apply retry_loop_digested. Qed.

(** ** Dispatching *)

(** What an entry of a batch says about its step: a value only if the arguments
    resolved. *)
Definition entry_ok (steps : list IrCall) (cap : gmap string CapturedResult) (skip : gset string)
    (x : nat * StepExecResult) : Prop :=
  digested x.2 ∧ ∀ step, steps !! x.1 = Some step →
    match x.2 with ExecOk _ _ _ _ _ _ _ _ => ∃ args, resolve_arguments step cap skip = Ok args | _ => True end.

Lemma unresolved_entry steps cap skip i e : post_st (W := W) (unresolved e)
  (λ r, entry_ok steps cap skip (i, r)).
Proof. destruct e; apply pst_any; intros ?; by apply pst_ret. Qed.

Lemma resolved_entry steps cap skip i step args r : steps !! i = Some step →
  resolve_arguments step cap skip = Ok args → digested r → entry_ok steps cap skip (i, r).
Proof.
  intros Hs Hr Hd. split; [done|]. cbn. intros step' Hs'. simplify_eq. case_match; [|done..]. by eexists.
Qed.

(** Entries known and tasks spawned so far. *)
Definition prepared_ok (steps : list IrCall) cap skip (pre : list nat)
    (acc : list (nat * StepExecResult) * list (nat * st W StepExecResult)) : Prop :=
  acc.1.*1 ++ acc.2.*1 ≡ₚ pre ∧ Forall (entry_ok steps cap skip) acc.1 ∧
  Forall (λ t, ∀ w, entry_ok steps cap skip (t.1, (t.2 w).1)) acc.2.

Lemma prepare_task_ok run steps cap graph skip pre i acc : prepared_ok steps cap skip pre acc →
  post (prepare_task run steps cap graph skip acc i) (prepared_ok steps cap skip (pre ++ [i])).
Proof.
  destruct acc as [collector tasks]. intros (Hp & Hc & Ht). cbn in Hp, Hc, Ht. unfold prepare_task.
  assert (Hcol : ∀ r, entry_ok steps cap skip (i, r) →
    prepared_ok steps cap skip (pre ++ [i]) (collector ++ [(i, r)], tasks)).
  { intros r Hr. split_and!; cbn; [|by apply Forall_app; split; [|by constructor]|done].
    rewrite fmap_app. cbn. rewrite <- app_assoc, (Permutation_app_comm [i]), app_assoc, Hp. done. }
  apply post_some. intros step Hs. destruct (resolve_arguments step cap skip) as [args|e] eqn:Ea.
  - apply post_any. intros [d|e].
    + cbn zeta. apply post_ret. split_and!; cbn; [by rewrite fmap_app, app_assoc, Hp|done|].
      apply Forall_app. split; [done|]. constructor; [|constructor]. intros w. cbn.
      eapply resolved_entry; [done..|]. apply execute_step_digested.
    + apply post_any. intros t. apply post_ret, Hcol. by split.
  - eapply post_lift; [apply (unresolved_entry steps cap skip i)|]. intros r Hr. by apply post_ret, Hcol.
Qed.

Lemma dispatch_one_entry run steps cap graph skip pre i results :
  results.*1 = pre ∧ Forall (entry_ok steps cap skip) results →
  post (dispatch_one run steps cap graph skip results i)
    (λ rs, rs.*1 = pre ++ [i] ∧ Forall (entry_ok steps cap skip) rs).
Proof.
  intros [Hp Hf]. unfold dispatch_one.
  assert (Hcol : ∀ r, entry_ok steps cap skip (i, r) → (results ++ [(i, r)]).*1 = pre ++ [i] ∧
    Forall (entry_ok steps cap skip) (results ++ [(i, r)])).
  { intros r Hr. split; [by rewrite fmap_app, Hp|]. apply Forall_app. by split; [|constructor]. }
  apply post_some. intros step Hs. destruct (resolve_arguments step cap skip) as [args|e] eqn:Ea.
  - cbn zeta. eapply post_lift; [apply execute_step_digested|]. intros r Hr. apply post_ret, Hcol.
    by eapply resolved_entry.
  - eapply post_lift; [apply (unresolved_entry steps cap skip i)|]. intros r Hr. by apply post_ret, Hcol.
Qed.

Lemma dispatch_batch_entries run steps idx cap graph skip par : sorted_lt idx →
  post (dispatch_batch run steps idx cap graph skip par)
    (λ rs, rs.*1 = idx ∧ Forall (entry_ok steps cap skip) rs).
Proof.
  intros Hs. unfold dispatch_batch. destruct idx as [|i0 idx0]; [by apply post_ret|].
  set (idx := i0 :: idx0) in *. destruct (par && _).
  - eapply post_bind; [apply (post_fold _ (prepared_ok steps cap skip) idx [])|].
    + intros pre x acc _. apply prepare_task_ok.
    + by split_and!.
    + intros [collector tasks] (Hp & Hc & Ht). cbn in Hp, Hc, Ht.
      eapply (post_lift _ _ (λ rs, rs.*1 ≡ₚ tasks.*1 ∧ Forall (entry_ok steps cap skip) rs)).
      { intros w. destruct (scope_spec tasks w) as (rs & Hperm & Hf). rewrite Hperm. clear -Hf Ht.
        induction Hf as [|t [j r] tasks rs [E [wi Er]] _ IH]; [by split|].
        apply Forall_cons in Ht as [Ht Hts]. destruct (IH Hts) as [IH1 IH2]. cbn in *. subst j r.
        split; [by rewrite IH1|]. by constructor. }
      intros rs [Hrs Hok]. apply post_ret. split.
      * apply sort_by_fst; [|done]. by rewrite fmap_app, Hrs, Hp.
      * rewrite sort_by_key_perm. by apply Forall_app.
  - apply (post_fold _ (λ pre rs, rs.*1 = pre ∧ Forall (entry_ok steps cap skip) rs) idx []); [|by split].
    intros pre x rs _. apply dispatch_one_entry.
Qed.

(** ** Processing *)

(** The trace of a call in a phase. *)
Record trace_of (c : IrCall) (phase : nat) (t : StepTrace) : Prop := {
  to_id : st_step_id t = step_id c;
  to_ability : st_ability t = ability c;
  to_target : st_target t = target c;
  to_phase : st_phase_index t = phase;
  to_refs : st_input_refs t = input_refs c;
  to_output : st_output_binding t = output_binding c;
}.

(** A trace is the record of a captured value: same invocation, size, digest. *)
Record made_by (t : StepTrace) (c : CapturedResult) : Prop := {
  mb_completed : st_outcome t = StepCompleted;
  mb_invocation : st_invocation t = Some (projection (cap_invocation c));
  mb_size : st_result_size t = Some (String.length (cap_value c));
  mb_digest : st_result_sha256 t = Some (sha256_hex (cap_value c));
}.

(** A failure that aborts the mission. *)
Definition critical (d : IrCall * StepTrace) : Prop :=
  st_outcome d.2 = StepFailed ∧ call_optional d.1 = false ∧ call_on_failure d.1 = Abort.

(** What processing one result does to the state. *)
Record processed (step : IrCall) (phase : nat) (r : StepExecResult) (s s' : PhaseRunState)
    (t : StepTrace) : Prop := {
  pr_trace : trace_of step phase t;
  pr_push : all_traces s' = buffer_push t (all_traces s);
  pr_captured b c : captured s' !! b = Some c →
    captured s !! b = Some c ∨ output_binding step = Some b ∧ made_by t c;
  pr_aborted : aborted s' = true ↔ aborted s = true ∨ critical (step, t);
  pr_result : match r with
    | ExecOk bytes _ _ _ _ _ _ inv => made_by t (mk_CapturedResult _ bytes inv)
    | _ => st_outcome t ≠ StepCompleted
    end;
}.

Lemma process_step_result_trace step r phase : digested r →
  post_st (W := W) (process_step_result step r phase) (λ '(o, t, bytes, inv),
    trace_of step phase t ∧ st_outcome t = o ∧
    match r with
    | ExecOk b _ _ _ _ _ _ i => o = StepCompleted ∧ bytes = Some b ∧ inv = Some i ∧
        made_by t (mk_CapturedResult _ b i)
    | _ => o ≠ StepCompleted
    end).
Proof.
  intros Hd. destruct r; cbn [process_step_result]; [|apply pst_any; intros ?..]; apply pst_ret.
  - cbn in Hd. subst. done.
  - split_and!; [done|done|]. by case_match.
  - done.
Qed.

Lemma process_one_processed steps phase s i r : digested r →
  post (W := W) (process_one steps phase s (i, r))
    (λ s', ∃ step t, steps !! i = Some step ∧ processed step phase r s s' t).
Proof.
  intros Hd. unfold process_one. apply post_some. intros step Hstep.
  eapply post_lift; [by apply process_step_result_trace|]. intros [[[o t] bytes] inv] (Ht & Ho & Hr).
  intros w s' w' E. exists step, t. split; [done|].
  destruct o; [destruct inv as [v|]; [|done]|..]; injection E as <- <-.
  - destruct r as [b sha e1 e2 e3 n hist i0| |]; [|done..]. destruct Hr as (_ & -> & [= ->] & Hm).
    constructor; cbn; try done.
    + intros b0 c. destruct (output_binding step) as [b1|]; [|by left].
      destruct (decide (b0 = b1)) as [->|Hne]; [rewrite lookup_insert_eq; intros [= <-]; by right|].
      rewrite lookup_insert_ne by done. by left.
    + unfold critical. cbn. rewrite Ho. split; [by left|]. by intros [?|[? _]].
  - constructor; cbn; try done.
    + by left.
    + unfold critical. cbn. rewrite Ho. destruct (call_optional step) eqn:Eo; cbn [negb andb].
      { split; [by left|]. by intros [?|(_ & ? & _)]. }
      case_bool_decide as Ha; [by split; [intros _; right|]|]. split; [by left|]. by intros [?|(_ & _ & ?)].
    + destruct r; [by destruct Hr|by rewrite Ho..].
  - constructor; cbn; try done.
    + by left.
    + unfold critical. cbn. rewrite Ho. split; [by left|]. by intros [?|[? _]].
    + destruct r; [by destruct Hr|by rewrite Ho..].
Qed.

(** A call that ran with the captures [cap]: completed only if its inputs were
    there. *)
Record ran (cap : gmap string CapturedResult) (skip : gset string) (phase : nat)
    (d : IrCall * StepTrace) : Prop := {
  ran_trace : trace_of d.1 phase d.2;
  ran_inputs : st_outcome d.2 = StepCompleted → ∃ args, resolve_arguments d.1 cap skip = Ok args;
}.

(** The state after the calls and traces of [done]. *)
Record batch_done (s s' : PhaseRunState) (done : list (IrCall * StepTrace)) : Prop := {
  bd_traces h : represents (all_traces s) h → represents (all_traces s') (h ++ done.*2);
  bd_captured b c : captured s' !! b = Some c →
    captured s !! b = Some c ∨ ∃ d, d ∈ done ∧ output_binding d.1 = Some b ∧ made_by d.2 c;
  bd_aborted : aborted s' = true ↔ aborted s = true ∨ Exists critical done;
}.

Lemma batch_done_nil s : batch_done s s [].
Proof.
  constructor; [intros h; by rewrite app_nil_r|by left|]. rewrite Exists_nil. tauto.
Qed.

Lemma batch_done_snoc s s' s'' done step phase r t : batch_done s s' done →
  processed step phase r s' s'' t → batch_done s s'' (done ++ [(step, t)]).
Proof.
  intros [Ht Hc Ha] Hp. constructor.
  - intros h Hh. rewrite (pr_push _ _ _ _ _ _ Hp), fmap_app, app_assoc. by apply buffer_push_represents, Ht.
  - intros b c Hb. destruct (pr_captured _ _ _ _ _ _ Hp _ _ Hb) as [Hb'|[Ho Hm]].
    + destruct (Hc b c Hb') as [?|(d & Hd & ?)]; [by left|]. right. exists d. split; [|done]. apply elem_of_app. by left.
    + right. exists (step, t). split; [|done]. apply elem_of_app. right. by apply list_elem_of_singleton.
  - rewrite (pr_aborted _ _ _ _ _ _ Hp), Ha, Exists_app, Exists_cons, Exists_nil. tauto.
Qed.

Lemma process_batch_done steps phase cap skip rs s : Forall (entry_ok steps cap skip) rs →
  post (W := W) (process_batch steps phase rs s) (λ s', ∃ done, batch_done s s' done ∧
    Forall2 (λ x d, steps !! x.1 = Some d.1 ∧ ran cap skip phase d) rs done).
Proof.
  intros Hok. rewrite Forall_forall in Hok. unfold process_batch.
  apply (post_fold _ (λ pre s', ∃ done, batch_done s s' done ∧
    Forall2 (λ x d, steps !! x.1 = Some d.1 ∧ ran cap skip phase d) pre done) rs []);
    [|exists []; by split; [apply batch_done_nil|constructor]].
  intros pre [i r] s' Hin (done & Hd & Hf). destruct (Hok _ Hin) as [Hdig Hres].
  eapply post_weaken; [by apply process_one_processed|]. intros s'' (step & t & Hs & Hp).
  exists (done ++ [(step, t)]). split; [by eapply batch_done_snoc|].
  apply Forall2_app; [done|]. constructor; [|constructor]. split; [done|].
  constructor; [apply (pr_trace _ _ _ _ _ _ Hp)|]. intros Hc. specialize (Hres step Hs). cbn in Hres.
  pose proof (pr_result _ _ _ _ _ _ Hp) as Hpr. by destruct r.
Qed.
End batches.
