(* ===== verification/Conformance.v ===== *)
(** * A mission without loops runs its plan

    The traces of a run are those of the planned calls, phase by phase, the
    required calls of a phase before its optional ones; a run stops early only
    after a failure that aborts, at the end of the batch with the failure. *)

From Stdlib Require Import String Sorting.Sorted.
From S2P Require Import Prelude RustStd AgentId Json Ast Ir Planner PlannerProps.
From S2P Require Import CompileProps Trace Diagnostics World Retry RetryProps Phases.
From S2P Require Import Phases PhasesProps MissionProps RunLogic.

Open Scope nat_scope.

(** ** Plans *)

(** The calls of a phase in the order of their traces. *)
Definition ordered (calls : list IrCall) : list IrCall :=
  filter (λ c, call_optional c = false) calls ++ filter (λ c, call_optional c = true) calls.

(** The calls of a mission with their phases. *)
Definition mission_plan (ir : MissionIr) : list (nat * IrCall) :=
  concat (imap (λ i r, pair i <$> ordered (concat (map walk_calls (slice (ir_steps ir) (start r) (stop r)))))
            (ir_phases ir)).

Definition executed (p : nat * IrCall) (t : StepTrace) : Prop := trace_of p.2 p.1 t.
Definition aborting (x : nat * IrCall * StepTrace) : Prop := critical (x.1.2, x.2).

(** ** Indices *)

Lemma Forall2_fst_snd {A B} (R : A → B → Prop) (l : list (A * B)) :
  Forall (λ x, R x.1 x.2) l → Forall2 R l.*1 l.*2.
Proof. induction 1; cbn; by constructor. Qed.

Lemma indices_of_calls opt (steps : list IrCall) :
  Forall2 (λ i c, steps !! i = Some c) (indices_of opt steps) (filter (λ c, call_optional c = opt) steps).
Proof.
  assert (Hsnd : filter (λ c, call_optional c = opt) steps =
    (filter (λ x, call_optional x.2 = opt) (imap pair steps)).*2).
  { rewrite <- (imap_pair_snd steps) at 1. generalize (imap pair steps). intros l.
    induction l as [|x l IH]; [done|]. rewrite fmap_cons, !filter_cons. case_decide; [|done]. cbn. by rewrite IH. }
  rewrite Hsnd. apply (Forall2_fst_snd (λ i c, steps !! i = Some c)), Forall_forall.
  intros [i c] [_ Hin]%list_elem_of_filter. apply list_elem_of_lookup in Hin as [q Hq]. rewrite list_lookup_imap in Hq. destruct (steps !! q) eqn:E; [|done].
  cbn in Hq. injection Hq as <- <-. done.
Qed.

Lemma Forall2_functional {A B} (f : A → option B) idx l l' :
  Forall2 (λ i c, f i = Some c) idx l → Forall2 (λ i c, f i = Some c) idx l' → l = l'.
Proof.
  intros Hl. revert l'. induction Hl as [|i c idx l Hc _ IH]; intros l' Hl'.
  - by apply Forall2_nil_inv_l in Hl'.
  - apply Forall2_cons_inv_l in Hl' as (c' & l'' & Hc' & Hl' & ->). simplify_eq. f_equal. by apply IH.
Qed.

Section conformance.
Context {W : Type} `{!World W, !ChildLibs, !SerdeJson, !Sha256, !StepDispatcher W, !Rayon W}.

(** ** Batches *)

(** The calls with one [optional] flag, dispatched and processed. *)
Lemma batch_calls run steps opt phase s par :
  post (results ← dispatch_batch (W := W) run steps (indices_of opt steps) (captured s) (receipt_graph s)
          (skipped_bindings s) par;
        process_batch steps phase results s)
    (λ s', ∃ done, batch_done s s' done ∧ done.*1 = filter (λ c, call_optional c = opt) steps ∧
       Forall (ran (captured s) (skipped_bindings s) phase) done).
Proof.
  destruct (indices_of_sorted opt steps) as [Hs _].
  eapply post_bind; [by apply dispatch_batch_entries|]. intros rs [Hidx Hok].
  eapply post_weaken; [by apply process_batch_done|]. intros s' (done & Hd & Hf). exists done.
  split_and!; [done| |].
  - apply (Forall2_functional (λ i, steps !! i) (indices_of opt steps)); [|apply indices_of_calls].
    rewrite <- Hidx. rewrite Forall2_fmap_l, Forall2_fmap_r. eapply Forall2_impl; [exact Hf|]. by intros ?? [? _].
  - clear -Hf. induction Hf as [|x d rs done [_ Hd] _ IH]; by constructor.
Qed.

Lemma post_assoc {A B C} (m : pm W A) (f : A → pm W B) (g : B → pm W C) Q :
  post ((m ≫= f) ≫= g) Q → post (m ≫= (λ a, f a ≫= g)) Q.
Proof. intros Hp w a w'. rewrite <- pm_bind_assoc. apply Hp. Qed.

(** ** Progress through a plan *)

(** From [s] the state [s'] is reached by executing a prefix
    of the plan: all of it unless the mission was aborted. *)
Definition advances (plan : list (nat * IrCall)) (s s' : PhaseRunState) : Prop :=
  ∃ p1 p2 ts, plan = p1 ++ p2 ∧ Forall2 executed p1 ts ∧
    (∀ h, represents (all_traces s) h → represents (all_traces s') (h ++ ts)) ∧
    (aborted s' = true ↔ aborted s = true ∨ Exists aborting (zip p1 ts)) ∧
    (aborted s' = false → p2 = []).

Lemma advances_stop plan s : (aborted s = false → plan = []) → advances plan s s.
Proof.
  intros Ha. exists [], plan, []. split_and!; [done|constructor|intros h; by rewrite app_nil_r| |done].
  cbn. rewrite Exists_nil. tauto.
Qed.

Lemma advances_trans A B s s1 s2 : advances A s s1 → (aborted s1 = true → s2 = s1) →
  (aborted s1 = false → advances B s1 s2) → advances (A ++ B) s s2.
Proof.
  intros (p1 & p2 & ts & -> & Hf & Hr & Ha & He) Hstop Hgo. destruct (aborted s1) eqn:E1.
  - rewrite (Hstop eq_refl). exists p1, (p2 ++ B), ts. rewrite <- app_assoc, E1. by split_and!.
  - rewrite (He eq_refl), app_nil_r.
    destruct (Hgo eq_refl) as (q1 & q2 & us & -> & Hf2 & Hr2 & Ha2 & He2).
    exists (p1 ++ q1), q2, (ts ++ us).
    split_and!; [by rewrite app_assoc|by apply Forall2_app|intros h Hh; rewrite app_assoc; by apply Hr2, Hr| |done].
    rewrite zip_with_app by (by eapply Forall2_length). rewrite Exists_app, Ha2, E1.
    assert (¬ (aborted s = true ∨ Exists aborting (zip p1 ts))) as Hn by (rewrite <- Ha; congruence).
    split; [intros [?|?]; [done|tauto]|tauto].
Qed.

Lemma batch_advances s s' phase calls cap skip done : batch_done s s' done → done.*1 = calls →
  Forall (ran cap skip phase) done → advances (pair phase <$> calls) s s'.
Proof.
  intros [Ht _ Ha] <- Hr. exists (pair phase <$> done.*1), [], done.*2.
  split_and!; [by rewrite app_nil_r| |done| |done].
  - rewrite !Forall2_fmap. clear Ht Ha. induction Hr as [|d done Hd _ IH]; constructor; [|done]. apply Hd.
  - rewrite Ha. enough (Exists critical done ↔ Exists aborting (zip (pair phase <$> done.*1) done.*2)) by tauto.
    clear. induction done as [|[c t] done IH]; cbn; [by rewrite !Exists_nil|]. by rewrite !Exists_cons, IH.
Qed.

Lemma calls_partition_advances run steps phase s : aborted s = false →
  post (execute_calls_phase_partition (W := W) run steps phase s)
    (advances (pair phase <$> ordered steps) s).
Proof.
  intros Ha. unfold execute_calls_phase_partition, ordered.
  destruct steps as [|c steps0]; [by apply post_ret, advances_stop|]. set (steps := c :: steps0) in *.
  cbn zeta. apply post_assoc. eapply post_bind; [apply batch_calls|].
  intros s1 (done & Hd & Hc & Hf). pose proof (batch_advances _ _ _ _ _ _ _ Hd Hc Hf) as Hadv.
  rewrite fmap_app. destruct (aborted s1) eqn:E1; cbn [negb andb].
  - apply post_ret. apply (advances_trans _ _ _ s1); [done|done|congruence].
  - case_bool_decide as Hopt; cbn [negb].
    + apply post_ret. apply (advances_trans _ _ _ s1); [done|done|]. intros _.
      apply advances_stop. intros _. pose proof (indices_of_calls true steps) as Hi.
      rewrite Hopt in Hi. apply Forall2_nil_inv_l in Hi. by rewrite Hi.
    + eapply post_weaken; [apply batch_calls|].
      intros s2 (done2 & Hd2 & Hc2 & Hf2). eapply advances_trans; [exact Hadv|congruence|].
      intros _. by eapply batch_advances.
Qed.

(** ** Phases *)

Lemma split_flat steps : Forall (λ s, is_call s = true) steps → steps ≠ [] →
  split_phase_steps steps = [Calls steps].
Proof.
  intros Hc Hne. unfold split_phase_steps.
  assert (Hgo : ∀ all (l : list (nat * IrStep)), Forall (λ x, is_call x.2 = true) l →
    foldl (split_step all) ([], Some 0) l = ([], Some 0)).
  { intros all. induction 1 as [|[i [lp|c]] l Hx _ IH]; [done|done|]. exact IH. }
  destruct steps as [|[lp|c] steps]; [done|by apply Forall_cons in Hc as [? _]|].
  apply Forall_cons in Hc as [_ Hc]. cbn [imap foldl split_step].
  rewrite Hgo; [done|]. apply Forall_lookup. intros q [i x] Hq. rewrite list_lookup_imap in Hq.
  destruct (steps !! q) eqn:E; [|done]. injection Hq as <- <-. by eapply Forall_lookup_1 in Hc.
Qed.

(** The body of the loop over the phases. *)
Definition phase_body (run : RunContext) (ir : MissionIr) (state : PhaseRunState) (x : nat * PhaseRange)
  : pm W PhaseRunState :=
  let '(phase_idx, phase) := x in
  if aborted state then mret state
  else
    phase_steps ← panic_on_none (phase_slice (ir_steps ir) phase);
    if bool_decide (length phase_steps = 0) then mret state
    else run_partitions run phase_idx (split_phase_steps phase_steps) state.

Lemma phase_body_advances run ir s i r : Forall (λ s, is_call s = true) (ir_steps ir) →
  aborted s = false →
  post (phase_body run ir s (i, r))
    (advances (pair i <$> ordered (concat (map walk_calls (slice (ir_steps ir) (start r) (stop r))))) s).
Proof.
  intros Hflat Ha. unfold phase_body. rewrite Ha. apply post_some. intros steps Hs.
  unfold phase_slice in Hs. destruct (_ && _); [|done]. injection Hs as <-.
  set (steps := slice (ir_steps ir) (start r) (stop r)).
  assert (Hc : Forall (λ s, is_call s = true) steps) by (apply Forall_take, Forall_drop, Hflat).
  case_bool_decide as Hl.
  { apply length_zero_iff_nil in Hl. rewrite Hl. by apply post_ret, advances_stop. }
  rewrite split_flat; [|done|by intros E; rewrite E in Hl].
  unfold run_partitions. cbn [fold_pm run_partition]. rewrite Ha, (proj1 (calls_Some _ Hc)).
  eapply post_bind; [|intros s' Hs'; apply post_ret, Hs'].
  apply post_some. intros calls [= <-]. by apply calls_partition_advances.
Qed.

Lemma aborted_stays run ir l s : aborted s = true → post (fold_pm (phase_body run ir) s l) (λ s', s' = s).
Proof.
  intros Ha. induction l as [|[i r] l IH]; [by apply post_ret|]. cbn [fold_pm phase_body]. rewrite Ha.
  eapply post_bind; [by apply (post_ret s (λ x, x = s))|]. by intros ? ->.
Qed.

Lemma run_phases_advances run ir s : Forall (λ s, is_call s = true) (ir_steps ir) →
  aborted s = false → post (run_phases run ir s) (advances (mission_plan ir) s).
Proof.
  intros Hflat. change (run_phases run ir s) with
    (fold_pm (phase_body run ir) s (imap pair (ir_phases ir))).
  unfold mission_plan.
  assert (Hgen : ∀ phases k s, aborted s = false →
    post (fold_pm (phase_body run ir) s (imap (λ i r, (k + i, r)) phases))
      (advances (concat (imap (λ i r, pair (k + i) <$>
         ordered (concat (map walk_calls (slice (ir_steps ir) (start r) (stop r))))) phases)) s));
    [|intros Ha; exact (Hgen (ir_phases ir) 0 s Ha)].
  clear s. induction phases as [|r phases IH]; intros k s Ha; [by apply post_ret, advances_stop|].
  cbn [imap concat fold_pm]. rewrite (imap_ext _ (λ i r, (S k + i, r))) by (intros; cbn; f_equal; lia).
  rewrite (imap_ext _ (λ i r, pair (S k + i) <$> ordered (concat (map walk_calls
    (slice (ir_steps ir) (start r) (stop r))))) phases) by (intros; cbn; by rewrite Nat.add_succ_r).
  rewrite Nat.add_0_r. eapply post_bind; [by apply phase_body_advances|].
  intros s1 Hs1. destruct (aborted s1) eqn:E1.
  - eapply post_weaken; [by apply aborted_stays|]. intros ? ->.
    apply (advances_trans _ _ _ s1); [done|done|congruence].
  - eapply post_weaken; [by apply (IH (S k))|]. intros s2 Hs2. by apply (advances_trans _ _ _ s1); [|congruence|].
Qed.

(** ** Missions *)

Lemma outcome_aborted s : mission_outcome s = MissionAborted ↔ aborted s = true.
Proof. unfold mission_outcome. destruct (aborted s); [done|]. by case_match. Qed.

Lemma represents_parts b h : represents b h → into_parts b = (kept h, omitted h).
Proof. intros (Hh & Ht & Hd). unfold into_parts, kept. by rewrite Hh, Ht, Hd. Qed.

(** The report of a run through the phases. *)
Lemma execute_mission_post (Q : PhaseRunState → Prop) tenant ir id timeout :
  (∀ run, post (run_phases (W := W) run ir initial_state) Q) →
  post (execute_mission tenant ir id timeout) (λ rep, ∃ s, Q s ∧
    (step_traces (trace rep), traces_truncated (trace rep)) = into_parts (all_traces s) ∧
    outcome (trace rep) = mission_outcome s ∧
    emissions (trace rep) = resolve_emissions (ir_emits ir) (captured s) ∧
    outputs rep = (λ r, decode_emitted_value (cap_value r)) <$> captured s).
Proof.
  intros HQ. unfold execute_mission. apply (post_bind _ _ (λ _, True)); [by intros ???|].
  intros deadline _. cbn zeta. do 2 (apply post_any; intros ?).
  eapply post_bind; [apply HQ|]. intros s Hs. do 2 (apply post_any; intros ?).
  destruct (into_parts (all_traces s)) as [ts tr] eqn:E. apply post_ret. by exists s.
Qed.

(** The buffer of a compiled mission drops nothing. *)
Lemma compiled_complete `{!HashOrder} p ir tenant id timeout (w w' : W) rep h : compile p = Ok ir →
  (Z.of_nat (call_count ir) < 2 ^ 59)%Z →
  execute_mission tenant ir id timeout w = Some (rep, w') →
  (step_traces (trace rep), traces_truncated (trace rep)) = (kept h, omitted h) →
  step_traces (trace rep) = h.
Proof.
  intros Hp Hn E Hparts.
  destruct (execute_mission_report (Meter0 := no_meter W) _ _ tenant id timeout Hp w) as (rep' & w'' & E' & _ & h' & Hl & Hrep).
  rewrite E in E'. injection E' as <- <-.
  pose proof (compile_bound_256 p ir Hp Hn) as Hb.
  apply step_budget_bound in Hb as Hsb; [|by eapply compile_steps_wf]. fold (step_budget ir) in Hsb.
  injection Hparts as -> Ho. apply trace_buffer_kept.
  rewrite (ro_truncated _ _ _ Hrep) in Ho. unfold omitted, TRACE_CAP_HEAD, TRACE_CAP_TAIL in Ho. lia.
Qed.

(** C1 (refinement): a compiled mission without loops runs its plan: it returns
    a report whose traces are, one for one, those of a prefix of the planned
    calls in phase order, required calls before optional ones.  The prefix is
    the whole plan unless the mission aborted, and it aborted exactly when a
    required call with the abort policy failed. *)
Theorem mission_runs_its_plan `{!HashOrder} p ir tenant id timeout (w : W) : compile p = Ok ir →
  flat_mission ir = true → (Z.of_nat (call_count ir) < 2 ^ 59)%Z →
  ∃ rep w' p1 p2, execute_mission tenant ir id timeout w = Some (rep, w') ∧
    mission_plan ir = p1 ++ p2 ∧ Forall2 executed p1 (step_traces (trace rep)) ∧
    (outcome (trace rep) = MissionAborted ↔ Exists aborting (zip p1 (step_traces (trace rep)))) ∧
    (outcome (trace rep) ≠ MissionAborted → p2 = []).
Proof.
  intros Hp Hflat Hn. unfold flat_mission in Hflat. rewrite forallb_Forall in Hflat.
  destruct (execute_mission_report (Meter0 := no_meter W) _ _ tenant id timeout Hp w) as (rep & w' & E & _).
  destruct (execute_mission_post (advances (mission_plan ir) initial_state) tenant ir id timeout
    ltac:(intros; by apply run_phases_advances) w rep w' E)
    as (s & (p1 & p2 & ts & Hplan & Hf & Hr & Ha & He) & Hparts & Ho & _ & _).
  specialize (Hr [] (push_all_represents [])). cbn in Hr. rewrite (represents_parts _ _ Hr) in Hparts.
  assert (Hts : step_traces (trace rep) = ts) by (by eapply compiled_complete).
  exists rep, w', p1, p2. rewrite Hts, Ho, outcome_aborted, Ha. cbn [aborted initial_state].
  split_and!; [done..| |].
  - split; [by intros [?|?]|by right].
  - intros Hna. apply He. destruct (aborted s); [tauto|done].
Qed.
End conformance.
