(* ===== verification/Provenance.v ===== *)
(** * Where values come from

    In every run, loops included, a completed call consumed only values of
    calls that completed before it, and every output of the report is the
    recorded result of a completed call. *)

From Stdlib Require Import String Sorting.Sorted.
From S2P Require Import Prelude RustStd AgentId Json Ast Ir Planner PlannerProps.
From S2P Require Import CompileProps Trace Diagnostics World Retry RetryProps Phases.
From S2P Require Import Phases PhasesProps MissionProps RunLogic Conformance.

Open Scope nat_scope.

(** ** Aliases *)

(** Bindings that are not the output binding of a call: the results of loops,
    and the binding of the last output of a loop block. *)
Definition loop_results (ir : MissionIr) : list string :=
  omap (λ s, match s with IrStepLoop l => result_binding l | IrStepCall _ => None end) (ir_steps ir).
Definition alias (ir : MissionIr) (b : string) : Prop :=
  b ∈ loop_results ir ∨ b = LOOP_VERIFY_SYNTHETIC_BINDING.

Section provenance.
Context {W : Type} `{!World W, !ChildLibs, !SerdeJson, !Sha256, !StepDispatcher W, !Rayon W}.
Context (al : string → Prop) (Hsynthetic : al LOOP_VERIFY_SYNTHETIC_BINDING).

(** A trace of [h] is the record of the value [c] of binding [b]. *)
Definition produced (h : list StepTrace) (b : string) (c : CapturedResult) : Prop :=
  ∃ t, t ∈ h ∧ made_by t c ∧ (st_output_binding t = Some b ∨ al b).
Definition captured_ok (h : list StepTrace) (cap : gmap string CapturedResult) : Prop :=
  ∀ b c, cap !! b = Some c → produced h b c.

(** Completed traces consume what earlier completed traces produced. *)
Definition sourced (h : list StepTrace) : Prop :=
  ∀ q t k b, h !! q = Some t → st_outcome t = StepCompleted → (k, b) ∈ st_input_refs t →
  ∃ q' t', q' < q ∧ h !! q' = Some t' ∧ st_outcome t' = StepCompleted ∧
    (st_output_binding t' = Some b ∨ al b).

Lemma resolve_refs_captured results skipped refs : ∀ args args',
  resolve_refs results skipped refs args = Ok args' → ∀ k b, (k, b) ∈ refs → is_Some (results !! b).
Proof.
  induction refs as [|[k0 b0] refs IH]; intros args args' Hr k b Hin; [by apply elem_of_nil in Hin|].
  cbn [resolve_refs] in Hr. case_bool_decide; [done|]. inv_ok.
  apply elem_of_cons in Hin as [[= -> ->]|Hin]; [|by eapply IH]. destruct (results !! b0); by eexists.
Qed.

Lemma produced_mono h h' b c : h `prefix_of` h' → produced h b c → produced h' b c.
Proof. intros [l ->] (t & Ht & ?). exists t. split; [|done]. apply elem_of_app. by left. Qed.

(** One more trace of a call whose inputs were captured. *)
Lemma sourced_snoc h cap skip phase step t : sourced h → captured_ok h cap → ran cap skip phase (step, t) →
  sourced (h ++ [t]).
Proof.
  intros Hs Hc [Ht Hin] q t' k b Hq Ho Hr. apply lookup_snoc_Some in Hq as [[Hlt Hq]|[-> <-]].
  - destruct (Hs q t' k b Hq Ho Hr) as (q' & t2 & Hq' & Hl & ?). exists q', t2. split_and!; [done| |naive_solver..].
    by apply lookup_app_l_Some.
  - destruct (Hin Ho) as [args Hargs]. cbn in Hargs. unfold resolve_arguments in Hargs. inv_ok.
    pose proof (to_refs _ _ _ Ht) as Hrefs. cbn in Hrefs. rewrite Hrefs in Hr.
    destruct (resolve_refs_captured _ _ _ _ _ E _ _ Hr) as [c Hc'].
    destruct (Hc _ _ Hc') as (t' & Hin' & Hm & Hb). apply list_elem_of_lookup in Hin' as [q' Hq'].
    exists q', t'. split_and!; [by eapply lookup_lt_Some|by apply lookup_app_l_Some|apply Hm|done].
Qed.

Lemma sourced_app h cap skip phase done : captured_ok h cap → Forall (ran cap skip phase) done →
  sourced h → sourced (h ++ done.*2).
Proof.
  intros Hc Hr Hs. induction done as [|[step t] done IH] using rev_ind.
  { by rewrite app_nil_r. }
  apply Forall_app in Hr as [Hr [Hd _]%Forall_cons].
  rewrite fmap_app, app_assoc. cbn. eapply sourced_snoc; [by apply IH| |done].
  intros b c Hb. eapply produced_mono; [|by apply Hc]. by apply prefix_app_r.
Qed.

(** ** Calls *)

Record tracked (h : list StepTrace) (s : PhaseRunState) : Prop := {
  tk_traces : represents (all_traces s) h;
  tk_captured : captured_ok h (captured s);
  tk_sourced : sourced h;
}.
Definition tracks (h : list StepTrace) (s : PhaseRunState) : Prop := ∃ h', h `prefix_of` h' ∧ tracked h' s.

Lemma batch_tracked h s s' phase done : tracked h s → batch_done s s' done →
  Forall (ran (captured s) (skipped_bindings s) phase) done → tracked (h ++ done.*2) s'.
Proof.
  intros [Ht Hc Hs] [Ht' Hc' _] Hr. constructor; [by apply Ht'| |by eapply sourced_app].
  intros b c Hb. destruct (Hc' b c Hb) as [Hb'|(d & Hd & Ho & Hm)].
  - eapply produced_mono; [|by apply Hc]. by apply prefix_app_r.
  - exists d.2. split_and!; [|done|].
    + apply elem_of_app. right. by apply list_elem_of_fmap_2.
    + left. rewrite Forall_forall in Hr. destruct (Hr d Hd) as [Htr _]. by rewrite (to_output _ _ _ Htr).
Qed.

Lemma calls_partition_tracks h run steps phase s : tracked h s →
  post (execute_calls_phase_partition (W := W) run steps phase s) (tracks h).
Proof.
  intros Hs. unfold execute_calls_phase_partition.
  destruct steps as [|c steps0]; [by apply post_ret; exists h|]. set (steps := c :: steps0) in *.
  cbn zeta. apply post_assoc. eapply post_bind; [apply batch_calls|].
  intros s1 (done & Hd & _ & Hf). pose proof (batch_tracked _ _ _ _ _ Hs Hd Hf) as Hs1. destruct (_ && _).
  - eapply post_weaken; [apply batch_calls|]. intros s2 (done2 & Hd2 & _ & Hf2).
    exists ((h ++ done.*2) ++ done2.*2). split; [|by eapply batch_tracked]. rewrite <- app_assoc. by apply prefix_app_r.
  - apply post_ret. exists (h ++ done.*2). split; [by apply prefix_app_r|done].
Qed.

(** ** Loops *)

(** Processing one result of a block. *)
Lemma process_in_block_post steps phase i r outer sc : digested r →
  post (W := W) (process_in_block steps phase i r outer sc) (λ '(outer', sc'), ∃ step t,
    steps !! i = Some step ∧ trace_of step phase t ∧
    match r with
    | ExecOk bytes _ _ _ _ _ _ inv => made_by t (mk_CapturedResult _ bytes inv)
    | _ => st_outcome t ≠ StepCompleted
    end ∧
    all_traces outer' = buffer_push t (all_traces outer) ∧ captured outer' = captured outer ∧
    (∀ b c, iter_captured sc' !! b = Some c →
       iter_captured sc !! b = Some c ∨ output_binding step = Some b ∧ made_by t c)).
Proof.
  intros Hd. unfold process_in_block, process_batch. cbn [fold_pm].
  eapply post_bind; [eapply post_bind; [by apply process_one_processed|intros s' Hs'; apply post_ret, Hs']|].
  intros b (step & t & Hs & [Ht Hp Hc _ Hr]). apply post_ret. by exists step, t.
Qed.

(** A block in progress: the outer state and the scope of the iteration. *)
Definition block_tracked (h : list StepTrace) (outer : PhaseRunState) (sc : IterScope) : Prop :=
  tracked h outer ∧ captured_ok h (iter_captured sc).

(** What a block may put into the scope before its result is processed. *)
Definition announces (r : StepExecResult) (sc0 sc : IterScope) : Prop :=
  ∀ b c, iter_captured sc !! b = Some c → iter_captured sc0 !! b = Some c ∨
    b = LOOP_VERIFY_SYNTHETIC_BINDING ∧
    match r with ExecOk bytes _ _ _ _ _ _ inv => c = mk_CapturedResult _ bytes inv | _ => False end.

Lemma process_in_block_tracked h steps phase i r outer sc0 sc : digested r →
  (∀ step, steps !! i = Some step → match r with ExecOk _ _ _ _ _ _ _ _ =>
     ∃ args, resolve_arguments step (iter_captured sc0) (iter_skipped sc0) = Ok args | _ => True end) →
  announces r sc0 sc → block_tracked h outer sc0 →
  post (W := W) (process_in_block steps phase i r outer sc)
    (λ '(outer', sc'), ∃ t, block_tracked (h ++ [t]) outer' sc').
Proof using Hsynthetic.
  intros Hd Hres Hann [[Ht Hc Hs] Hsc]. eapply post_weaken; [by apply process_in_block_post|].
  intros [outer' sc'] (step & t & Hstep & Htr & Hr & Hpush & Hcap & Hsc'). exists t.
  assert (Hmono : ∀ b c, produced h b c → produced (h ++ [t]) b c).
  { intros b c. apply produced_mono. by apply prefix_app_r. }
  assert (Hnew : t ∈ h ++ [t]) by (apply elem_of_app; right; by apply list_elem_of_singleton).
  split; [constructor|].
  - rewrite Hpush. by apply buffer_push_represents.
  - rewrite Hcap. intros b c Hb. by apply Hmono, Hc.
  - eapply (sourced_snoc h (iter_captured sc0) (iter_skipped sc0)); [done|done|].
    constructor; [exact Htr|]. intros Ho. specialize (Hres step Hstep). by destruct r.
  - intros b c Hb. destruct (Hsc' b c Hb) as [Hb1|[Ho Hm]].
    + destruct (Hann b c Hb1) as [Hb2|[-> Hc2]]; [by apply Hmono, Hsc|].
      destruct r; [subst c|done..]. exists t. split_and!; [done|done|by right].
    + exists t. split_and!; [done|done|]. left. by rewrite (to_output _ _ _ Htr).
Qed.

Definition block_tracks (h : list StepTrace) (x : bool * PhaseRunState * IterScope) : Prop :=
  ∃ h', h `prefix_of` h' ∧ block_tracked h' x.1.2 x.2.

Lemma block_tracks_trans h h' x : h `prefix_of` h' → block_tracks h' x → block_tracks h x.
Proof. intros Hp (h2 & Hp2 & Hb). exists h2. split; [by etrans|done]. Qed.

Lemma announces_refl r sc : announces r sc sc.
Proof. by left. Qed.

Lemma run_block_tracks run steps phase last_idx todo : Forall (λ x, steps !! x.1 = Some x.2) todo →
  ∀ h outer sc, block_tracked h outer sc →
  post (run_block_steps (W := W) run steps phase last_idx todo outer sc) (block_tracks h).
Proof using Hsynthetic.
  induction 1 as [|[i step] todo Hi _ IH]; intros h outer sc Hb; cbn [run_block_steps].
  { apply post_ret. by exists h. }
  destruct (aborted outer); [apply post_ret; by exists h|]. cbn in Hi.
  assert (Hgo : ∀ r sc', digested r → announces r sc sc' →
    match r with ExecOk _ _ _ _ _ _ _ _ =>
      ∃ args, resolve_arguments step (iter_captured sc) (iter_skipped sc) = Ok args | _ => True end →
    post (W := W) (process_in_block steps phase i r outer sc')
      (λ '(outer', sc'), ∃ t, block_tracked (h ++ [t]) outer' sc')).
  { intros r sc' Hd Hann Hr. eapply process_in_block_tracked; [done| |done|done].
    intros step' Hstep'. by simplify_eq. }
  assert (Hrec : ∀ outer' sc' t, block_tracked (h ++ [t]) outer' sc' →
    post (run_block_steps run steps phase last_idx todo outer' sc') (block_tracks h)).
  { intros outer' sc' t Hb'. eapply post_weaken; [by apply IH|]. intros x.
    apply block_tracks_trans. by apply prefix_app_r. }
  assert (Hun : ∀ e, post_st (W := W) (unresolved e) (λ r, digested r ∧
    match r with ExecOk _ _ _ _ _ _ _ _ => False | _ => True end)).
  { intros [b a|e]; apply pst_any; intros ?; by apply pst_ret. }
  destruct (resolve_arguments step (iter_captured sc) (iter_skipped sc)) as [args|[b a|e]] eqn:Er.
  - cbn zeta. eapply post_lift; [apply execute_step_digested|]. intros r Hd.
    eapply post_bind; [apply Hgo; [done| |by destruct r; [eexists|..]]|].
    + intros b c Hbc. destruct r; [|by left..]. destruct (i =? last_idx); [|by left].
      cbn in Hbc. apply lookup_insert_Some in Hbc as [[<- <-]|[_ Hbc]]; [by right|by left].
    + intros [outer' sc'] (t & Hb'). by eapply Hrec.
  - eapply post_lift; [apply Hun|]. intros r [Hd Hr].
    eapply post_bind; [apply Hgo; [done|apply announces_refl|by destruct r]|].
    intros [outer' sc'] (t & Hb'). by eapply Hrec.
  - eapply post_lift; [apply Hun|]. intros r [Hd Hr].
    eapply post_bind; [apply Hgo; [done|apply announces_refl|by destruct r]|].
    intros [outer' sc'] (t & Hb'). apply post_ret. exists (h ++ [t]). split; [by apply prefix_app_r|done].
Qed.

Lemma loop_block_tracks run steps phase h outer sc : block_tracked h outer sc →
  post (run_loop_block_sequentially (W := W) run steps phase outer sc) (block_tracks h).
Proof using Hsynthetic.
  apply run_block_tracks, Forall_lookup. intros q [i c] Hq. rewrite list_lookup_imap in Hq.
  destruct (steps !! q) eqn:E; [|done]. cbn in Hq. injection Hq as <- <-. done.
Qed.

Lemma loop_abort_tracked h s : tracked h s → tracked h (loop_abort s).
Proof. by intros []. Qed.

Lemma tracks_trans h h' s : h `prefix_of` h' → tracks h' s → tracks h s.
Proof. intros Hp (h2 & Hp2 & Hb). exists h2. split; [by etrans|done]. Qed.

(** The winning value, exported under the name of the loop's result. *)
Lemma loop_win_tracked h s sc fc c rb : block_tracked h s sc → final_capture fc sc = Some c → al rb →
  tracked h (set_captured (<[rb := c]> (captured s)) s).
Proof.
  intros [[Ht Hc Hs] Hsc] Hf Hal. constructor; [done| |done]. cbn. intros b c'.
  rewrite lookup_insert_Some. intros [[<- <-]|[_ Hb]]; [|by apply Hc].
  assert (∃ b, iter_captured sc !! b = Some c) as [b Hb].
  { unfold final_capture in Hf. destruct (output_binding fc ≫= _) as [c'|] eqn:E; [|by eexists].
    injection Hf as <-. destruct (output_binding fc); [|done]. by eexists. }
  destruct (Hsc b c Hb) as (t & Hin & Hm & _). exists t. split_and!; [done|done|by right].
Qed.

Lemma loop_iterations_tracks run lp body verify phase togo :
  (∀ rb, result_binding lp = Some rb → al rb) → ∀ h s, tracked h s →
  post (loop_iterations (W := W) run lp body verify phase togo s) (tracks h).
Proof using Hsynthetic.
  intros Hal. induction togo as [|togo IH]; intros h s Hs; cbn [loop_iterations].
  { apply post_ret. exists h. split; [done|by apply loop_abort_tracked]. }
  destruct (aborted s); [apply post_ret; by exists h|].
  eapply post_bind; [apply (loop_block_tracks run body phase h); by split|].
  intros [[ok s1] sc1] (h1 & Hp1 & Hb1). cbn in Hb1.
  destruct (_ || _); [apply post_ret; exists h1; split; [done|apply Hb1]|].
  eapply post_bind; [by apply (loop_block_tracks run verify phase h1)|].
  intros [[vok s2] sc2] (h2 & Hp2 & Hb2). cbn in Hb2.
  assert (Hp : h `prefix_of` h2) by (by etrans).
  destruct (_ || _); [apply post_ret; exists h2; split; [done|apply Hb2]|].
  apply post_some. intros fc _. destruct (final_capture fc sc2) as [c|] eqn:Ef;
    [|apply post_ret; exists h2; split; [done|apply loop_abort_tracked, Hb2]].
  destruct (verify_output_done (cap_value c)).
  - apply post_ret. exists h2. split; [done|]. destruct (result_binding lp) as [rb|]; [|apply Hb2].
    eapply loop_win_tracked; [done..|by apply Hal].
  - eapply post_weaken; [apply (IH h2); apply Hb2|]. intros s'. by apply tracks_trans.
  - apply post_ret. exists h2. split; [done|apply loop_abort_tracked, Hb2].
Qed.

(** ** Missions *)

(** The results of the loops among the steps are aliases. *)
Definition results_aliased (s : IrStep) : Prop :=
  match s with IrStepLoop l => ∀ rb, result_binding l = Some rb → al rb | IrStepCall _ => True end.

Lemma run_partition_tracks h run phase p s : Forall results_aliased (partition_steps p) → tracked h s →
  post (run_partition (W := W) run phase s p) (tracks h).
Proof using Hsynthetic.
  intros Hal Hs. destruct p as [steps|lp]; cbn [run_partition].
  - apply post_some. intros calls _. by apply calls_partition_tracks.
  - apply Forall_cons in Hal as [Hal _]. unfold execute_loop.
    repeat case_match; [by apply loop_iterations_tracks|..]; apply post_ret; exists h; (split; [done|by apply loop_abort_tracked]).
Qed.

Lemma tracks_fold {A} (f : PhaseRunState → A → pm W PhaseRunState) l h s :
  (∀ x h s, x ∈ l → tracked h s → post (f s x) (tracks h)) → tracked h s → post (fold_pm f s l) (tracks h).
Proof.
  intros Hf Hs. apply (post_fold f (λ _, tracks h) l []); [|by exists h].
  intros _ x s' Hx (h' & Hp & Hs'). eapply post_weaken; [by apply Hf|]. intros s''. by apply tracks_trans.
Qed.

Lemma run_phases_tracks h run ir s : Forall results_aliased (ir_steps ir) → tracked h s →
  post (run_phases (W := W) run ir s) (tracks h).
Proof using Hsynthetic.
  intros Hal Hs. change (run_phases run ir s) with (fold_pm (phase_body run ir) s (imap pair (ir_phases ir))).
  apply tracks_fold; [|done]. clear h s Hs. intros [i r] h s _ Hs. unfold phase_body.
  destruct (aborted s); [apply post_ret; by exists h|]. apply post_some. intros steps Hsteps.
  unfold phase_slice in Hsteps. destruct (_ && _); [|done]. injection Hsteps as <-.
  case_bool_decide; [apply post_ret; by exists h|].
  assert (Hal2 : Forall results_aliased (slice (ir_steps ir) (start r) (stop r))) by (apply Forall_take, Forall_drop, Hal).
  destruct (split_phase_steps_spec (slice (ir_steps ir) (start r) (stop r))) as [_ Hcat].
  rewrite <- Hcat in Hal2. unfold run_partitions. apply tracks_fold; [|done]. clear h s Hs.
  intros p h s Hp Hs. destruct (aborted s); [apply post_ret; by exists h|]. apply run_partition_tracks; [|done].
  rewrite Forall_forall in Hal2 |- *. intros x Hx. apply Hal2. apply list_elem_of_In, in_concat.
  exists (partition_steps p). rewrite <- !list_elem_of_In. split; [|done]. by apply list_elem_of_fmap_2.
Qed.
End provenance.

Section missions.
Context {W : Type} `{!World W, !ChildLibs, !SerdeJson, !Sha256, !StepDispatcher W, !Rayon W}.

Lemma results_aliased_all ir : Forall (results_aliased (alias ir)) (ir_steps ir).
Proof.
  apply Forall_forall. intros [l|c] Hin; [|done]. intros rb Hrb. left.
  apply list_elem_of_omap. by exists (IrStepLoop l).
Qed.

Lemma initial_tracked al : tracked al [] initial_state.
Proof. constructor; [by apply (push_all_represents [])|intros b c Hb; cbn in Hb; by rewrite lookup_empty in Hb|by intros []]. Qed.

(** C7 (invariant): provenance.  A compiled mission, loops included, returns a
    report in which every completed step consumed only bindings that an
    earlier completed step produced (its output, or the result of a loop), and
    every output is the decoded result of a completed step whose trace records
    that result's size, digest and invocation. *)
Theorem mission_provenance `{!HashOrder} p ir tenant id timeout (w : W) : compile p = Ok ir →
  (Z.of_nat (call_count ir) < 2 ^ 59)%Z →
  ∃ rep w', execute_mission tenant ir id timeout w = Some (rep, w') ∧
    sourced (alias ir) (step_traces (trace rep)) ∧
    ∀ b v, outputs rep !! b = Some v → ∃ c, v = decode_emitted_value (cap_value c) ∧
      produced (alias ir) (step_traces (trace rep)) b c.
Proof.
  intros Hp Hn.
  destruct (execute_mission_report (Meter0 := no_meter W) _ _ tenant id timeout Hp w) as (rep & w' & E & _).
  destruct (execute_mission_post (tracks (alias ir) []) tenant ir id timeout
    ltac:(intros; apply run_phases_tracks; [by right|apply results_aliased_all|apply initial_tracked]) w rep w' E)
    as (s & (h & _ & [Ht Hc Hs]) & Hparts & _ & _ & Hout).
  rewrite (represents_parts _ _ Ht) in Hparts.
  assert (Hts : step_traces (trace rep) = h) by (by eapply compiled_complete).
  exists rep, w'. rewrite Hts. split_and!; [done|done|]. intros b v Hb.
  rewrite Hout, lookup_fmap in Hb. destruct (captured s !! b) as [c|] eqn:Eb; [|done].
  injection Hb as <-. exists c. split; [done|by apply Hc].
Qed.

(** Emissions follow the declarations: one record per [emit],
    in order, numbered from 1, with its name and kind; a literal as it stands,
    a binding with the value of the report's output of that name, and exactly
    when there is no such output a null value and an error. *)
Theorem mission_emissions tenant ir id timeout (w w' : W) rep :
  execute_mission tenant ir id timeout w = Some (rep, w') →
  length (emissions (trace rep)) = length (ir_emits ir) ∧
  ∀ i e, ir_emits ir !! i = Some e → ∃ r, emissions (trace rep) !! i = Some r ∧
    em_seq r = S i ∧ em_name r = ir_emit_name e ∧ em_kind r = ir_emit_kind e ∧
    match ir_emit_value e with
    | Literal v => em_value r = v ∧ em_source_binding r = None ∧ em_error r = None
    | Binding b => em_source_binding r = Some b ∧
        match outputs rep !! b with
        | Some v => em_value r = v ∧ em_error r = None
        | None => em_value r = VNull ∧ is_Some (em_error r)
        end
    end.
Proof.
  intros E. destruct (execute_mission_post (λ _, True) tenant ir id timeout ltac:(by intros ????) w rep w' E)
    as (s & _ & _ & _ & -> & ->).
  split; [apply length_imap|]. intros i e He. unfold resolve_emissions. rewrite list_lookup_imap, He. cbn.
  eexists. split; [done|]. unfold resolve_emission. destruct (ir_emit_value e) as [v|b]; [done|].
  rewrite lookup_fmap. destruct (captured s !! b); [done|]. by split_and!; try eexists.
Qed.
End missions.
