(* ===== verification/Dispatcher.v ===== *)
(** * The agent-aware dispatcher (src/src/eal/interpreter/dispatch.rs and the
    requests of src/src/daemon/execution/mission/invocation_gateway.rs)

    The dispatcher of production runs: it validates the target of a step, makes
    a child-invocation request of it and hands it to the gateway.  URAs are
    parsed and built by the Axon SDK, credentials and ability manifests are read
    from disk and the gateway is a network service: they are the interfaces
    [UraLib] and [Daemon].  Durations are in milliseconds.  At the end: it meets the
    interfaces of the interpreter, with at most one gateway invocation per dispatch
    and answers that depend on the request only when credentials, manifests and
    gateway do. *)

From Stdlib Require Import String Ascii.
From S2P Require Import Prelude RustStd Text Ura AgentId Json Ast Ir Planner PlannerProps CompileProps Trace.
From S2P Require Import Diagnostics Trace World Retry RetryProps Phases PhasesProps MissionProps Determinism.

Open Scope Z_scope.

(** ** Interfaces *)

(** The fields of [AbilityManifest] that dispatch reads. *)
Record AbilityManifest := mk_AbilityManifest {
  manifest_name : string;
  manifest_timeout_seconds : option Z;
}.

(** [MissionInvocationTarget], [MissionInvocationRequest]. *)
Inductive MissionInvocationTarget :=
| LocalDeviceHost
| HostedAgent (agent : string)
| RemoteDeviceHost (ura : string)
| RemoteCallee (ura : string).

Record MissionInvocationRequest := mk_Request {
  req_ability : string;
  req_args : Value;
  req_target : MissionInvocationTarget;
  req_timeout_ms : Z;
  req_dependency_receipts : list Anchor;
  req_trace_id : option string;
}.

(** Reading the node id of the local credentials, the manifests of an agent, and
    the gateway; errors are rendered.  [AgentEntry] is the type of the rows of the
    registry. *)
Class Daemon (W AgentEntry : Type) `{ChildLibs} := {
  load_credentials_optional : st W (result string (option string));
  manifests_for : string → AgentEntry → st W (list AbilityManifest);
  gateway_invoke : MissionInvocationRequest → st W (result string StepDispatchOutcome);
}.

(** ** Requests *)

(** [INVOKE_DEFAULT_SECS] of src/src/support/platform/timeouts.rs. *)
Definition INVOKE_DEFAULT_SECS : Z := 3600.

(** [default_child_timeout]. *)
Definition default_child_timeout : Z := INVOKE_DEFAULT_SECS * 1000.

Definition request_system (ability : string) (args : Value) : MissionInvocationRequest :=
  mk_Request ability args LocalDeviceHost default_child_timeout [] None.
Definition request_hosted_agent (agent ability : string) (args : Value) : MissionInvocationRequest :=
  mk_Request ability args (HostedAgent agent) default_child_timeout [] None.

(** [MissionInvocationRequest::remote_target]; the error is rendered. *)
Definition request_remote_target `{UraLib} (target_ura ability : string) (args : Value)
  : result string MissionInvocationRequest :=
  let target_ura := trim target_ura in
  parsed ← map_err (λ e, "invalid remote Mission target URA: " +:+ e) (parse_ura target_ura);
  match ura_kind parsed with
  | KDevice => Ok (mk_Request ability args (RemoteDeviceHost target_ura) default_child_timeout [] None)
  | KAgent | KAuthority =>
      Ok (mk_Request ability args (RemoteCallee target_ura) default_child_timeout [] None)
  | kind => Err ("remote Mission target must be a Device, Agent, or Authority URA, got " +:+ kind_display kind)
  end.

Definition with_dispatch_timeout (ms : Z) (r : MissionInvocationRequest) : MissionInvocationRequest :=
  mk_Request (req_ability r) (req_args r) (req_target r) ms (req_dependency_receipts r) (req_trace_id r).
Definition with_dependency_receipts (deps : list Anchor) (r : MissionInvocationRequest)
  : MissionInvocationRequest :=
  mk_Request (req_ability r) (req_args r) (req_target r) (req_timeout_ms r) deps (req_trace_id r).
Definition with_trace_id (id : string) (r : MissionInvocationRequest) : MissionInvocationRequest :=
  mk_Request (req_ability r) (req_args r) (req_target r) (req_timeout_ms r) (req_dependency_receipts r) (Some id).

(** ** Local identity *)

Inductive EalLocalNodeIdentity :=
| Known (node_id : string)
| Unpaired
| IdentityUnavailable (reason : string).

Definition matches_node (i : EalLocalNodeIdentity) (node_id : string) : result EalError bool :=
  match i with
  | Known local => Ok (bool_decide (local = node_id))
  | Unpaired => Err (Unavailable ("EAL device target resolution requires paired local credentials " +:+
                                  "before remote device dispatch"))
  | IdentityUnavailable reason => Err (Unavailable reason)
  end.

(** ** The dispatcher *)

Section dispatcher.
Context {W AgentEntry : Type} `{!UraLib, !ChildLibs, !Daemon W AgentEntry}.

(** [EalLocalNodeIdentity::load]. *)
Definition load_identity : st W EalLocalNodeIdentity :=
  c ← load_credentials_optional;
  mret (match c with
        | Ok (Some node_id) =>
            let node_id := trim node_id in
            if bool_decide (node_id = EmptyString)
            then IdentityUnavailable "EAL device target resolution requires non-empty local node identity"
            else Known node_id
        | Ok None => Unpaired
        | Err e => IdentityUnavailable ("load local credentials for EAL device target resolution: " +:+ e)
        end).

(** The end of [device_request]: a target that is not this node. *)
Definition remote_device_request (tenant node_id ability : string) (args : Value)
  : result EalError MissionInvocationRequest :=
  target ← match parse_ura node_id with
           | Ok _ => Ok node_id
           | Err _ =>
               if negb (bool_decide (trim tenant = EmptyString)) then Ok (device_ura (trim tenant) node_id)
               else Err (Validation ("cannot resolve EAL device target " +:+ debug_str node_id +:+
                                     ": no tenant in scope"))
           end;
  map_err (λ e, Validation ("parse device target: " +:+ e)) (request_remote_target target ability args).

(** [device_request]. *)
Definition device_request (tenant node_id ability : string) (args : Value)
  : st W (result EalError MissionInvocationRequest) :=
  let node_id := trim node_id in
  if bool_decide (node_id = EmptyString) || eq_ignore_ascii_case node_id "local"
  then mret (Ok (request_system ability args))
  else
    identity ← load_identity;
    mret (is_local ← matches_node identity node_id;
          if (is_local : bool) then Ok (request_system ability args)
          else remote_device_request tenant node_id ability args).

(** [validate_agent_target]. *)
Definition validate_agent_target (registry : gmap string AgentEntry) (agent_id : AgentId)
    (ability : AbilityName) : st W (result EalError AbilityManifest) :=
  let key := AgentId_display agent_id in
  match registry !! key with
  | None => mret (Err (NotFound ("agent '" +:+ key +:+ "' not found in registry")))
  | Some entry =>
      manifests ← manifests_for (name agent_id) entry;
      mret (ok_or (List.find (λ m, bool_decide (manifest_name m = ability_str ability)) manifests)
              (NotFound ("unknown ability: " +:+ name agent_id +:+ "." +:+ ability_str ability)))
  end.

(** The request for a target, with the timeout of the target's manifest. *)
Definition target_request (registry : gmap string AgentEntry) (run : RunContext) (target : IrTarget)
    (ability : AbilityName) (arguments : Value)
  : st W (result EalError (MissionInvocationRequest * option Z)) :=
  match target with
  | Agent agent_id =>
      manifest ← validate_agent_target registry agent_id ability;
      mret (m ← manifest;
            Ok (request_hosted_agent (name agent_id) (ability_str ability) arguments,
                (λ s, s * 1000) <$> manifest_timeout_seconds m))
  | Device node_id =>
      request ← device_request (run_tenant run) node_id (ability_str ability) arguments;
      mret (r ← request; Ok (r, None))
  end.

(** [AgentAwareDispatcher::dispatch]. *)
Definition agent_dispatch (registry : gmap string AgentEntry) : Dispatch W :=
  λ run target ability arguments timeout_ms dependency_receipts,
    prepared ← target_request registry run target ability arguments;
    match prepared with
    | Err e => mret (Err e)
    | Ok (request, target_timeout) =>
        let timeout := match timeout_ms with
                       | Some t => t
                       | None => default (30 * 1000) target_timeout
                       end in
        outcome ← gateway_invoke
          (with_trace_id (run_trace_id run)
             (with_dependency_receipts dependency_receipts (with_dispatch_timeout timeout request)));
        mret (map_err (λ e, Unavailable ("Mission child dispatch: " +:+ e)) outcome)
    end.

(** [impl StepDispatcher for AgentAwareDispatcher]. *)
Definition AgentAwareDispatcher (registry : gmap string AgentEntry) : StepDispatcher W := {|
  dispatch := agent_dispatch registry;
  dispatch_concurrency := Parallel;
  clone_for_thread := mret (Ok (agent_dispatch registry));
|}.

(** ** Routing *)

(** The node id is one of the spellings of this machine. *)
Definition names_local (node_id : string) : Prop :=
  trim node_id = EmptyString ∨ eq_ignore_ascii_case (trim node_id) "local" = true.

(** The local node is known, and is another one. *)
Definition known_elsewhere (node_id : string) (w : W) : Prop :=
  ∃ local, (load_credentials_optional w).1 = Ok (Some local) ∧ trim local ≠ EmptyString ∧
    trim local ≠ trim node_id.

(** Where a device target may be sent. *)
Definition device_routed (node_id : string) (w : W) (t : MissionInvocationTarget) : Prop :=
  (names_local node_id → t = LocalDeviceHost) ∧
  match t with
  | LocalDeviceHost => names_local node_id ∨
      ∃ local, (load_credentials_optional w).1 = Ok (Some local) ∧ trim local = trim node_id
  | RemoteDeviceHost ura => known_elsewhere node_id w ∧ kind_of ura = Some KDevice
  | RemoteCallee ura => known_elsewhere node_id w ∧ (kind_of ura = Some KAgent ∨ kind_of ura = Some KAuthority)
  | HostedAgent _ => False
  end.

Lemma request_remote_target_Ok ura ability args r : request_remote_target ura ability args = Ok r →
  req_ability r = ability ∧ req_args r = args ∧
  match req_target r with
  | RemoteDeviceHost u => kind_of u = Some KDevice
  | RemoteCallee u => kind_of u = Some KAgent ∨ kind_of u = Some KAuthority
  | _ => False
  end.
Proof.
  unfold request_remote_target. cbn zeta. destruct (parse_ura (trim ura)) as [p|e] eqn:E; [|done]. cbn.
  assert (Hk : kind_of (trim ura) = Some (ura_kind p)) by (unfold kind_of, Ura.parsed; by rewrite E).
  destruct (ura_kind p); intros Hr; try discriminate Hr; injection Hr as <-; cbn; auto.
Qed.

Lemma device_request_routed tenant node_id ability args w r w' :
  device_request tenant node_id ability args w = (Ok r, w') →
  req_ability r = ability ∧ req_args r = args ∧ device_routed node_id w (req_target r).
Proof.
  unfold device_request. cbn zeta. case_bool_decide as He; cbn [orb].
  { intros [= <- _]. cbn. split_and!; [done|done|]. split; [done|]. left. by left. }
  destruct (eq_ignore_ascii_case (trim node_id) "local") eqn:El.
  { intros [= <- _]. cbn. split_and!; [done|done|]. split; [done|]. left. by right. }
  assert (Hn : ¬ names_local node_id) by (intros [?|?]; congruence).
  unfold load_identity. rewrite !st_bind_eq. cbn [mret st_ret fst snd].
  destruct (load_credentials_optional w) as [[[local|]|e] w1] eqn:Ec; cbn [fst snd]; [|done..].
  case_bool_decide as Hl; [done|]. cbn [matches_node mbind result_bind]. case_bool_decide as Hm.
  { intros [= <- _]. cbn. split_and!; [done|done|]. split; [done|]. right. exists local. by rewrite Ec. }
  intros [= Hr _]. unfold remote_device_request in Hr.
  destruct (match parse_ura (trim node_id) with Ok _ => _ | Err _ => _ end) as [target|e]; [|done].
  cbn in Hr. destruct (request_remote_target target ability args) as [r'|e] eqn:Et; [|done].
  injection Hr as <-. apply request_remote_target_Ok in Et as (Ha & Hg & Ht).
  assert (Hk : known_elsewhere node_id w) by (exists local; by rewrite Ec).
  split_and!; [done|done|]. split; [done|]. by destruct (req_target r').
Qed.

(** A step is sent where its target says, or not at all.  An agent
    call is made only for an agent in the registry under its full name that
    publishes the ability, as a hosted-agent request with the timeout of the
    manifest; a device call stays on this machine when the target names it (or
    is its node id), and leaves it only when the local node is known to be
    another and the target is a device, agent or authority address; ability and
    arguments are passed on unchanged. *)
Theorem target_request_routing registry run target ability args w r timeout w' :
  target_request registry run target ability args w = (Ok (r, timeout), w') →
  req_ability r = ability_str ability ∧ req_args r = args ∧
  match target with
  | Agent a => ∃ entry m, registry !! AgentId_display a = Some entry ∧
      m ∈ (manifests_for (name a) entry w).1 ∧ manifest_name m = ability_str ability ∧
      req_target r = HostedAgent (name a) ∧ timeout = (λ s, s * 1000) <$> manifest_timeout_seconds m
  | Device node_id => timeout = None ∧ device_routed node_id w (req_target r)
  end.
Proof.
  destruct target as [a|node_id]; cbn [target_request]; rewrite st_bind_eq.
  - unfold validate_agent_target. cbn zeta. destruct (registry !! AgentId_display a) as [entry|] eqn:Er; [|done].
    rewrite st_bind_eq. cbn [mret st_ret fst snd].
    destruct (List.find _ _) as [m|] eqn:Ef; [|done]. intros [= <- <- _].
    apply List.find_some in Ef as [Hin Hm%bool_decide_eq_true]. cbn. split_and!; [done|done|].
    exists entry, m. split_and!; [done|by apply list_elem_of_In|done|done|done].
  - destruct (device_request (run_tenant run) node_id (ability_str ability) args w) as [[r'|e] w1] eqn:Ed; [|done].
    intros [= <- <- _]. apply device_request_routed in Ed as (Ha & Hg & Ht). by split_and!.
Qed.
End dispatcher.

(** ** Missions on the dispatcher *)

Open Scope nat_scope.

(** ** Counting gateway invocations *)

Class GatewayMeter (W AgentEntry : Type) `{!World W, !ChildLibs, !Daemon W AgentEntry} := {
  calls : W → nat;
  calls_instant w : calls (instant_now w).2 ≤ calls w;
  calls_epoch w : calls (unix_epoch_ms w).2 ≤ calls w;
  calls_sleep ms w : calls (sleep_ms ms w).2 ≤ calls w;
  calls_credentials w : calls (load_credentials_optional w).2 ≤ calls w;
  calls_manifests agent entry w : calls (manifests_for agent entry w).2 ≤ calls w;
  calls_gateway r w : calls (gateway_invoke r w).2 ≤ S (calls w);
}.

Section metered.
Context {W AgentEntry : Type} `{!World W, !UraLib, !ChildLibs, !Daemon W AgentEntry, !GatewayMeter W AgentEntry}.

Lemma target_request_calls registry run target ability args w :
  calls (target_request registry run target ability args w).2 ≤ calls w.
Proof.
  destruct target as [a|node_id]; cbn [target_request]; rewrite st_bind_eq; cbn [mret st_ret snd].
  - unfold validate_agent_target. cbn zeta. destruct (registry !! _); [|done].
    rewrite st_bind_eq. cbn. apply calls_manifests.
  - unfold device_request. cbn zeta. destruct (_ || _); [done|].
    unfold load_identity. rewrite !st_bind_eq. cbn. apply calls_credentials.
Qed.

Lemma agent_dispatch_calls registry run target ability args timeout deps w :
  calls (agent_dispatch registry run target ability args timeout deps w).2 ≤ S (calls w).
Proof.
  unfold agent_dispatch. rewrite st_bind_eq.
  pose proof (target_request_calls registry run target ability args w) as Ht.
  destruct (target_request registry run target ability args w) as [[[r t]|e] w1]; cbn [fst snd] in *.
  - rewrite st_bind_eq. cbn [mret st_ret snd].
    match goal with |- context [gateway_invoke ?q w1] => pose proof (calls_gateway q w1) end. lia.
  - cbn. lia.
Qed.

Definition gateway_meter registry : Meter W (StepDispatcher0 := AgentAwareDispatcher registry).
Proof using GatewayMeter0.
  exists calls.
  - apply calls_instant.
  - apply calls_epoch.
  - apply calls_sleep.
  - done.
  - apply agent_dispatch_calls.
  - intros w d [= <-]. apply agent_dispatch_calls.
Defined.

(** A mission run on the production dispatcher returns a report
    and invokes the gateway at most once per attempt of its calls. *)
Theorem mission_gateway_calls `{!SerdeJson, !Sha256, !Rayon W, !HashOrder} registry p ir tenant id timeout (w : W) :
  compile p = Ok ir →
  ∃ rep w', execute_mission (StepDispatcher0 := AgentAwareDispatcher registry) tenant ir id timeout w = Some (rep, w') ∧
    calls w' ≤ calls w + dispatch_budget ir.
Proof.
  intros Hp.
  destruct (execute_mission_report (StepDispatcher0 := AgentAwareDispatcher registry)
    (Meter0 := gateway_meter registry) _ _ tenant id timeout Hp w) as (rep & w' & E & Hc & _).
  by exists rep, w'.
Qed.
End metered.

(** ** Answers of a stable environment *)

(** Credentials, manifests and gateway answer the same at any time. *)
Class StableDaemon (W : Type) {AgentEntry : Type} `{!ChildLibs, !Daemon W AgentEntry}
    (credentials : result string (option string)) (manifests : string → AgentEntry → list AbilityManifest)
    (gateway : MissionInvocationRequest → result string StepDispatchOutcome) : Prop := {
  stable_credentials w : (load_credentials_optional w).1 = credentials;
  stable_manifests agent entry w : (manifests_for agent entry w).1 = manifests agent entry;
  stable_gateway r w : (gateway_invoke r w).1 = gateway r;
}.

Section stable.
Context {W AgentEntry : Type} `{!UraLib, !ChildLibs, !Daemon W AgentEntry}.
Context (credentials : result string (option string)) (manifests : string → AgentEntry → list AbilityManifest).
Context (gateway : MissionInvocationRequest → result string StepDispatchOutcome).

(** The environment without a state. *)
Definition constant_daemon : Daemon unit AgentEntry := {|
  load_credentials_optional := mret credentials;
  manifests_for agent entry := mret (manifests agent entry);
  gateway_invoke r := mret (gateway r);
|}.

(** The answers of the dispatcher in it. *)
Definition constant_dispatch (registry : gmap string AgentEntry) : PureDispatch :=
  λ run target ability args timeout deps,
    (agent_dispatch (Daemon0 := constant_daemon) registry run target ability args timeout deps tt).1.

Lemma target_request_stable `{!StableDaemon W credentials manifests gateway} registry run target ability args w :
  (target_request registry run target ability args w).1 =
  (target_request (Daemon0 := constant_daemon) registry run target ability args tt).1.
Proof.
  destruct target as [a|node_id]; cbn [target_request]; rewrite !st_bind_eq; cbn [mret st_ret fst].
  - unfold validate_agent_target. cbn zeta. destruct (registry !! _); [|done].
    rewrite !st_bind_eq. cbn. by rewrite stable_manifests.
  - unfold device_request. cbn zeta. destruct (_ || _); [done|].
    unfold load_identity. rewrite !st_bind_eq. cbn. by rewrite stable_credentials.
Qed.

(** On a stable environment the production dispatcher is pure, so that runs on
    it do not depend on clocks and schedules. *)
Lemma agent_aware_pure `{!StableDaemon W credentials manifests gateway} registry :
  PureDispatcher W (StepDispatcher0 := AgentAwareDispatcher registry) (constant_dispatch registry).
Proof.
  assert (Hc : computes (agent_dispatch (W := W) registry) (constant_dispatch registry)).
  { intros run target ability args timeout deps w. unfold constant_dispatch, agent_dispatch.
    rewrite !st_bind_eq, target_request_stable.
    destruct (target_request (Daemon0 := constant_daemon) registry run target ability args tt) as [[[r t]|e] u]; [|done].
    cbn [fst snd]. rewrite !st_bind_eq. cbn [mret st_ret fst]. by rewrite stable_gateway. }
  constructor; [exact Hc|]. intros w. by exists (agent_dispatch registry).
Qed.
End stable.
