(* ===== verification/UsageQuota.v ===== *)
(** * Usage quotas (src/src/daemon/invocation/admission/usage_quota.rs, with
    [QuotaConfig] of src/src/daemon/persistence/daemon_config.rs)

    Tumbling windows per consumer and ability, with reservations that callers
    commit or drop.  The store is behind a mutex and the policy behind a lock of
    its own, so the gate is a machine whose events are the critical sections:
    reading the policy, reserving, finishing a reservation, replacing the policy
    and clearing the store.  Any interleaving of callers is a list of events. *)

From Stdlib Require Import String Ascii.
From stdpp Require Import fin_maps gmap.
From S2P Require Import Prelude RustStd World.

Open Scope Z_scope.

(** ** Integers *)

(** [i64::saturating_add] and [..sub], [i32::saturating_add],
    [i32::try_from(_).unwrap_or(i32::MAX)] of a value that is not negative. *)
Definition sat_i64 (z : Z) : Z := Z.max i64_min (Z.min z i64_max).
Definition sat_i32 (z : Z) : Z := Z.max (- 2 ^ 31) (Z.min z i32_max).
Definition to_i32 (z : Z) : Z := if z <=? i32_max then z else i32_max.

(** [u64::to_le_bytes]. *)
Fixpoint le_bytes (width : nat) (n : Z) : string :=
  match width with
  | O => EmptyString
  | S width => String (ascii_of_N (Z.to_N (n mod 256))) (le_bytes width (Z.shiftr n 8))
  end.
Definition u64_le_bytes (n : Z) : string := le_bytes 8 n.

(** ** Policy *)

Record QuotaConfig := mk_QuotaConfig {
  default_cap_per_window : Z;
  config_window_ms : Z;
  per_consumer : gmap string Z;
}.

Definition DEFAULT_WINDOW_MS : Z := 60000.

(** [QuotaConfig::new]. *)
Definition QuotaConfig_new (cap window : Z) (overrides : gmap string Z) : QuotaConfig :=
  mk_QuotaConfig cap (if 0 <? window then window else DEFAULT_WINDOW_MS) overrides.

Definition cap_for (p : QuotaConfig) (consumer_ura : string) : Z :=
  default (default_cap_per_window p) (per_consumer p !! consumer_ura).

(** ** Data *)

Definition MAX_QUOTA_TRACKED_KEYS : Z := 16 * 1024.
Definition MAX_QUOTA_CONSUMER_URA_BYTES : Z := 512.
Definition MAX_QUOTA_ABILITY_NAME_BYTES : Z := 256.

Inductive QuotaDenyReason := BudgetExhausted | StoreSaturated | KeyTooLarge.

Record QuotaDecision := mk_QuotaDecision {
  allowed : bool;
  quota_remaining : Z;
  quota_limit : Z;
  reset_at_unix_ms : Z;
  retry_after_ms : Z;
  deny_reason : option QuotaDenyReason;
}.

Definition unmetered : QuotaDecision := mk_QuotaDecision true 0 0 0 0 None.

Record WindowState := mk_WindowState {
  window_start_ms : Z;
  committed_count : Z;
  pending : gset Z;
}.

(** [SharedUsageQuotaStore]: the map and the id counter. *)
Record QuotaStore := mk_QuotaStore {
  windows : gmap string WindowState;
  next_reservation_id : Z;
}.

Definition store_new : QuotaStore := mk_QuotaStore ∅ 1.

(** [QuotaReservation]; [rsv_active] says whether it holds the store. *)
Record QuotaReservation := mk_Reservation {
  rsv_active : bool;
  rsv_key : string;
  rsv_window_start : Z;
  rsv_id : Z;
  rsv_decision : QuotaDecision;
}.

(** 32 zero bytes. *)
Definition zero_key : string :=
  String.concat EmptyString (replicate 32 (String zero EmptyString)).

Definition inactive (d : QuotaDecision) : QuotaReservation := mk_Reservation false zero_key 0 0 d.

(** ** Operations on the store *)

Section store.
Context `{Sha256}.

(** The bytes the hasher is fed: both parts with their lengths first. *)
Definition key_material (consumer_ura ability : string) : string :=
  u64_le_bytes (Z.of_nat (String.length consumer_ura)) +:+ consumer_ura +:+
  u64_le_bytes (Z.of_nat (String.length ability)) +:+ ability.

(** [QuotaKey::new]. *)
Definition QuotaKey_new (consumer_ura ability : string) : result QuotaDenyReason string :=
  if (MAX_QUOTA_CONSUMER_URA_BYTES <? Z.of_nat (String.length consumer_ura))
     || (MAX_QUOTA_ABILITY_NAME_BYTES <? Z.of_nat (String.length ability))
  then Err KeyTooLarge
  else Ok (sha256 (key_material consumer_ura ability)).

Definition prune_expired_windows (now_ms window_ms : Z) (m : gmap string WindowState)
  : gmap string WindowState :=
  filter (λ kv, sat_i64 (now_ms - window_start_ms kv.2) < window_ms) m.

(** A denial. *)
Definition denied (cap reset retry : Z) (reason : QuotaDenyReason) : QuotaReservation :=
  inactive (mk_QuotaDecision false 0 cap reset retry (Some reason)).

(** The window of a key, opened or reset when it is time. *)
Definition current_window (now_ms window_ms : Z) (o : option WindowState) : WindowState :=
  let state := default (mk_WindowState now_ms 0 ∅) o in
  if window_ms <=? sat_i64 (now_ms - window_start_ms state) then mk_WindowState now_ms 0 ∅ else state.

Definition used (state : WindowState) : Z :=
  sat_i32 (committed_count state + to_i32 (Z.of_nat (size (pending state)))).

(** The part of [reserve] on a key that has or gets a window. *)
Definition reserve_in_window (key : string) (cap window_ms now_ms : Z) (s : QuotaStore)
  : QuotaReservation * QuotaStore :=
  let state := current_window now_ms window_ms (windows s !! key) in
  let reset := sat_i64 (window_start_ms state + window_ms) in
  let u := used state in
  if cap <=? u then
    let retry := Z.max (sat_i64 (reset - now_ms)) 0 in
    (denied cap reset (to_i32 retry) BudgetExhausted,
     mk_QuotaStore (<[key := state]> (windows s)) (next_reservation_id s))
  else
    let id := next_reservation_id s in
    (mk_Reservation true key (window_start_ms state) id
       (mk_QuotaDecision true (cap - u - 1) cap reset 0 None),
     mk_QuotaStore
       (<[key := mk_WindowState (window_start_ms state) (committed_count state) ({[id]} ∪ pending state)]>
          (windows s))
       (u64_wrap (id + 1))).

(** [SharedUsageQuotaStore::reserve]. *)
Definition store_reserve (consumer_ura ability : string) (cap window_ms now_ms : Z) (s : QuotaStore)
  : QuotaReservation * QuotaStore :=
  if cap <=? 0 then (inactive unmetered, s)
  else
    let window_ms := Z.max window_ms 1 in
    match QuotaKey_new consumer_ura ability with
    | Err reason => (denied cap (sat_i64 (now_ms + window_ms)) 0 reason, s)
    | Ok key =>
        if bool_decide (windows s !! key = None) && (MAX_QUOTA_TRACKED_KEYS <=? Z.of_nat (size (windows s)))
        then
          let pruned := mk_QuotaStore (prune_expired_windows now_ms window_ms (windows s)) (next_reservation_id s) in
          if MAX_QUOTA_TRACKED_KEYS <=? Z.of_nat (size (windows pruned))
          then (denied cap (sat_i64 (now_ms + window_ms)) (to_i32 window_ms) StoreSaturated, pruned)
          else reserve_in_window key cap window_ms now_ms pruned
        else reserve_in_window key cap window_ms now_ms s
    end.

(** [SharedUsageQuotaStore::finish_reservation]. *)
Definition finish_reservation (key : string) (start id : Z) (commit : bool) (s : QuotaStore) : QuotaStore :=
  match windows s !! key with
  | None => s
  | Some state =>
      if negb (window_start_ms state =? start) || negb (bool_decide (id ∈ pending state)) then s
      else
        let left := pending state ∖ {[id]} in
        let windows' :=
          if commit then <[key := mk_WindowState start (sat_i32 (committed_count state + 1)) left]> (windows s)
          else if (committed_count state =? 0) && bool_decide (left = ∅) then delete key (windows s)
          else <[key := mk_WindowState start (committed_count state) left]> (windows s) in
        mk_QuotaStore windows' (next_reservation_id s)
  end.

(** [QuotaReservation::commit] and its [Drop]. *)
Definition finish (r : QuotaReservation) (commit : bool) (s : QuotaStore) : QuotaStore :=
  if rsv_active r then finish_reservation (rsv_key r) (rsv_window_start r) (rsv_id r) commit s else s.

(** [SharedUsageQuotaStore::clear]. *)
Definition store_clear (s : QuotaStore) : QuotaStore := mk_QuotaStore ∅ (next_reservation_id s).

(** [SharedUsageQuotaStore::check_and_record]. *)
Definition check_and_record (consumer_ura ability : string) (cap window_ms now_ms : Z) (s : QuotaStore)
  : QuotaDecision * QuotaStore :=
  let '(r, s) := store_reserve consumer_ura ability cap window_ms now_ms s in
  (rsv_decision r, finish r true s).

(** ** The gate *)

(** [SharedUsageQuotaGate::check_and_record] with no other caller in between:
    [reserve] and [commit]. *)
Definition gate_check_and_record (policy : option QuotaConfig) (consumer_ura ability : string) (now_ms : Z)
    (s : QuotaStore) : option QuotaDecision * QuotaStore :=
  match policy with
  | None => (None, s)
  | Some p =>
      let cap := cap_for p consumer_ura in
      if cap <=? 0 then (None, s)
      else
        let '(r, s) := store_reserve consumer_ura ability cap (config_window_ms p) now_ms s in
        (Some (rsv_decision r), finish r true s)
  end.

(** A caller that has read the policy and not yet reserved. *)
Record Request := mk_QuotaRequest {
  rq_consumer : string;
  rq_ability : string;
  rq_cap : Z;
  rq_window_ms : Z;
  rq_now_ms : Z;
}.

(** [SharedUsageQuotaGate] with the calls in progress: requests past the policy
    lock, reservations their owners hold, and replacements by [None] whose
    [clear] is still to come. *)
Record Gate := mk_Gate {
  policy : option QuotaConfig;
  store : QuotaStore;
  requests : list Request;
  live : list QuotaReservation;
  clears : nat;
}.

Definition gate_new (p : option QuotaConfig) : Gate := mk_Gate p store_new [] [] 0.

(** The critical sections: the policy lock and the store lock of
    [SharedUsageQuotaGate::reserve], the end of a reservation (commit or drop),
    and the two sections of [replace_policy]. *)
Inductive Event :=
| EReadPolicy (consumer_ura ability : string) (now_ms : Z)
| EReserve (i : nat)
| EFinish (i : nat) (commit : bool)
| EReplacePolicy (next : option QuotaConfig)
| EClear.

Definition remove_at {A} (i : nat) (l : list A) : list A := take i l ++ drop (S i) l.

(** One event; [None] when it is not possible. *)
Definition gate_step (e : Event) (g : Gate) : option Gate :=
  match e with
  | EReadPolicy consumer ability now =>
      Some (match policy g with
            | None => g
            | Some p =>
                let cap := cap_for p consumer in
                if cap <=? 0 then g
                else mk_Gate (policy g) (store g)
                       (requests g ++ [mk_QuotaRequest consumer ability cap (config_window_ms p) now])
                       (live g) (clears g)
            end)
  | EReserve i =>
      q ← requests g !! i;
      let '(r, s) := store_reserve (rq_consumer q) (rq_ability q) (rq_cap q) (rq_window_ms q) (rq_now_ms q) (store g) in
      Some (mk_Gate (policy g) s (remove_at i (requests g))
              (if rsv_active r then live g ++ [r] else live g) (clears g))
  | EFinish i commit =>
      r ← live g !! i;
      Some (mk_Gate (policy g) (finish r commit (store g)) (requests g) (remove_at i (live g)) (clears g))
  | EReplacePolicy next =>
      Some (mk_Gate next (store g) (requests g) (live g)
              (match next with None => S (clears g) | Some _ => clears g end))
  | EClear =>
      match clears g with
      | O => None
      | S n => Some (mk_Gate (policy g) (store_clear (store g)) (requests g) (live g) n)
      end
  end.

Fixpoint gate_run (es : list Event) (g : Gate) : option Gate :=
  match es with
  | [] => Some g
  | e :: es => g ← gate_step e g; gate_run es g
  end.
End store.
