(* ===== verification/UsageQuotaProps.v ===== *)
(** * Properties of the usage quotas

    Every interleaving of callers keeps the counters within the caps, the table
    within its bound and the pending slots held by live reservations; calls one
    after the other are counted as tumbling windows count them.  At the end a
    policy and runs of the gate on concrete calls: the properties applied, and the
    race between disabling the gate and a reservation in progress. *)

From Stdlib Require Import String Ascii.
From stdpp Require Import fin_maps gmap.
From S2P Require Import Prelude RustStd World UsageQuota.

Open Scope Z_scope.

(** A set made of a list is no larger. *)
Lemma size_list_to_set_le (l : list string) : (size (list_to_set (C := gset string) l) ≤ length l)%nat.
Proof.
  induction l as [|x l IH]; cbn; [by rewrite size_empty|]. rewrite size_union_alt, size_singleton.
  assert (size (list_to_set (C := gset string) l ∖ {[x]}) ≤ size (list_to_set (C := gset string) l))%nat
    by (apply subseteq_size; set_solver). lia.
Qed.

Ltac quota_lia := unfold sat_i64, sat_i32, to_i32, i32_max, i64_max, i64_min in *; repeat case_match; lia.

(** ** Windows *)

(** What a window counts: calls admitted or being admitted. *)
Definition held (w : WindowState) : Z := committed_count w + Z.of_nat (size (pending w)).

(** A window that is retained counts something, and at most [C]. *)
Definition window_ok (C : Z) (w : WindowState) : Prop := 0 ≤ committed_count w ∧ 1 ≤ held w ≤ C.

Definition table_ok (C : Z) (m : gmap string WindowState) : Prop :=
  Z.of_nat (size m) ≤ MAX_QUOTA_TRACKED_KEYS ∧ map_Forall (λ _, window_ok C) m.

Lemma used_held w : 0 ≤ committed_count w → held w ≤ i32_max → used w = held w.
Proof. unfold used, held. intros. quota_lia. Qed.

Lemma current_window_cases now win o :
  current_window now win o = mk_WindowState now 0 ∅ ∨
  ∃ w, o = Some w ∧ current_window now win o = w ∧ sat_i64 (now - window_start_ms w) < win.
Proof.
  unfold current_window. destruct o as [w|]; cbn [default from_option id]; case_match; auto.
  right. exists w. apply Z.leb_gt in H. done.
Qed.

Lemma current_window_held C now win o w :
  (∀ w, o = Some w → window_ok C w) → current_window now win o = w →
  (w = mk_WindowState now 0 ∅ ∧ held w = 0) ∨ window_ok C w.
Proof.
  intros Ho <-. destruct (current_window_cases now win o) as [->|(w & -> & -> & _)]; [left|right; auto].
  split; [done|]. unfold held. cbn. rewrite size_empty. done.
Qed.

Lemma held_insert C w id :
  0 ≤ committed_count w → 0 ≤ held w < C → window_ok C (mk_WindowState (window_start_ms w) (committed_count w) ({[id]} ∪ pending w)).
Proof.
  unfold window_ok, held. cbn [committed_count pending]. intros ? ?. split; [done|].
  destruct (decide (id ∈ pending w)) as [Hin|Hout].
  - replace ({[id]} ∪ pending w) with (pending w) by set_solver.
    assert (size (pending w) ≠ 0%nat) by (intros Hz%size_empty_inv; set_solver). lia.
  - rewrite size_union, size_singleton by set_solver. lia.
Qed.

Lemma size_remove (X : gset Z) id : id ∈ X → Z.of_nat (size X) = Z.of_nat (size (X ∖ {[id]})) + 1.
Proof.
  intros. rewrite size_difference by set_solver. rewrite size_singleton.
  assert (size X ≠ 0%nat) by (intros Hz%size_empty_inv; set_solver). lia.
Qed.

(** ** The table *)

Lemma table_insert C m k w :
  table_ok C m → window_ok C w →
  is_Some (m !! k) ∨ Z.of_nat (size m) < MAX_QUOTA_TRACKED_KEYS → table_ok C (<[k := w]> m).
Proof.
  intros [Hs Hm] Hw Hk. split; [|by apply map_Forall_insert_2].
  rewrite map_size_insert. destruct Hk as [[? ->]|?]; [done|]. case_match; unfold id; lia.
Qed.

Lemma prune_lookup now win m k w : prune_expired_windows now win m !! k = Some w → m !! k = Some w.
Proof. intros [? _]%map_lookup_filter_Some. done. Qed.

Lemma prune_size now win m : (size (prune_expired_windows now win m) ≤ size m)%nat.
Proof. apply map_size_filter. Qed.

Lemma table_prune C m now win : table_ok C m → table_ok C (prune_expired_windows now win m).
Proof.
  intros [Hs Hm]. split; [pose proof (prune_size now win m); lia|].
  intros k w Hk%prune_lookup. by apply Hm in Hk.
Qed.

Lemma reserve_in_window_ok C key cap win now s :
  0 < cap ≤ C → C ≤ i32_max → table_ok C (windows s) →
  is_Some (windows s !! key) ∨ Z.of_nat (size (windows s)) < MAX_QUOTA_TRACKED_KEYS →
  table_ok C (windows (reserve_in_window key cap win now s).2).
Proof.
  intros Hcap HC Hs Hk. unfold reserve_in_window.
  set (w := current_window now win (windows s !! key)).
  assert (Hw : (w = mk_WindowState now 0 ∅ ∧ held w = 0) ∨ window_ok C w).
  { eapply current_window_held; [|done]. intros ? Hl. destruct Hs as [_ Hs]. by apply Hs in Hl. }
  assert (0 ≤ committed_count w ∧ 0 ≤ held w ≤ C) as [H1 H2].
  { destruct Hw as [[-> Hw]|[??]]; [cbn [committed_count]|]; lia. }
  rewrite used_held by lia. destruct (cap <=? held w) eqn:E; cbn [snd windows].
  - destruct Hw as [[_ Hw]|Hw]; [lia|]. by apply table_insert.
  - apply table_insert; [done| |done]. apply held_insert; lia.
Qed.

Section store.
Context `{Sha256}.

(** A reservation takes one of four ways: unmetered, refused for its key,
    refused for a full table, or decided in the window of its key. *)
Lemma store_reserve_cases c a cap win now s :
  (cap ≤ 0 ∧ store_reserve c a cap win now s = (inactive unmetered, s)) ∨
  (∃ d s', store_reserve c a cap win now s = (inactive d, s') ∧ allowed d = false ∧
     deny_reason d ≠ Some BudgetExhausted ∧
     (s' = s ∨ s' = mk_QuotaStore (prune_expired_windows now (Z.max win 1) (windows s)) (next_reservation_id s))) ∨
  (∃ key s1, 0 < cap ∧ QuotaKey_new c a = Ok key ∧
     store_reserve c a cap win now s = reserve_in_window key cap (Z.max win 1) now s1 ∧
     (is_Some (windows s1 !! key) ∨ Z.of_nat (size (windows s1)) < MAX_QUOTA_TRACKED_KEYS) ∧
     (s1 = s ∨ s1 = mk_QuotaStore (prune_expired_windows now (Z.max win 1) (windows s)) (next_reservation_id s))).
Proof.
  unfold store_reserve. destruct (cap <=? 0) eqn:Ecap; [left; split; [lia|done]|right].
  assert (0 < cap) by lia.
  destruct (QuotaKey_new c a) as [key|reason] eqn:Ekey.
  - destruct (bool_decide_reflect (windows s !! key = None)) as [E1|E1]; cbn [andb].
    + destruct (MAX_QUOTA_TRACKED_KEYS <=? Z.of_nat (size (windows s))) eqn:E2; [case_match eqn:E3|].
      * left. eexists _, _. split; [done|]. cbn. auto.
      * right. eexists _, _. split_and!; [done..|right|auto]. cbn [windows] in *. lia.
      * right. eexists _, _. split_and!; [done..|right; lia|auto].
    + right. eexists _, _. split_and!; [done..|left; by destruct (windows s !! key); eauto|auto].
  - left. eexists _, _. split; [done|]. cbn. split; [done|]. split; [|auto].
    unfold QuotaKey_new in Ekey. case_match; naive_solver.
Qed.

Lemma store_reserve_ok C c a cap win now s :
  cap ≤ C → C ≤ i32_max → table_ok C (windows s) → table_ok C (windows (store_reserve c a cap win now s).2).
Proof.
  intros Hcap HC Hs.
  destruct (store_reserve_cases c a cap win now s)
    as [(_ & ->)|[(d & s' & -> & _ & _ & [-> | ->])|(key & s1 & ? & _ & -> & Hk & Hs1)]];
    cbn [snd windows]; auto using table_prune.
  apply reserve_in_window_ok; [lia|done| |done]. destruct Hs1 as [-> | ->]; [done|]. by apply table_prune.
Qed.

Lemma finish_ok C r b s : C ≤ i32_max → table_ok C (windows s) → table_ok C (windows (finish r b s)).
Proof.
  intros HC Hs. unfold finish, finish_reservation. destruct (rsv_active r); [|done].
  destruct (windows s !! rsv_key r) as [w|] eqn:Ew; [|done].
  destruct (negb (window_start_ms w =? rsv_window_start r)) eqn:E1; [done|]. cbn [orb].
  destruct (bool_decide_reflect (rsv_id r ∈ pending w)) as [Hin|]; [|done]. cbn [negb windows].
  pose proof (size_remove _ _ Hin) as Hsz.
  destruct (proj2 Hs _ _ Ew) as [H1 H2]. unfold held in H2.
  destruct b.
  - apply table_insert; [done| |rewrite Ew; eauto]. unfold window_ok, held. cbn [committed_count pending].
    assert (sat_i32 (committed_count w + 1) = committed_count w + 1) as -> by quota_lia. lia.
  - destruct (committed_count w =? 0) eqn:E0; cbn [andb]; [case_bool_decide as Hl|].
    + destruct Hs as [Hs Hm]. split; [rewrite map_size_delete_Some by eauto; lia|by apply map_Forall_delete].
    + apply table_insert; [done| |rewrite Ew; eauto]. unfold window_ok, held. cbn [committed_count pending].
      assert (size (pending w ∖ {[rsv_id r]}) ≠ 0%nat) by (by intros Hz%size_empty_inv%leibniz_equiv). lia.
    + apply table_insert; [done| |rewrite Ew; eauto]. unfold window_ok, held. cbn [committed_count pending]. lia.
Qed.

(** ** Every interleaving *)

(** The policies that are live at some time. *)
Definition published (p : option QuotaConfig) (es : list Event) : list QuotaConfig :=
  option_list p ++ omap (λ e, match e with EReplacePolicy next => next | _ => None end) es.

(** The invariant on counters, with [C] a bound on every cap. *)
Definition bounded (C : Z) (g : Gate) : Prop :=
  table_ok C (windows (store g)) ∧ Forall (λ q, rq_cap q ≤ C) (requests g) ∧
  (∀ p, policy g = Some p → ∀ c, cap_for p c ≤ C).

Lemma remove_at_elem {A} i (l : list A) x : x ∈ remove_at i l → x ∈ l.
Proof.
  unfold remove_at. rewrite elem_of_app. intros [Hx|Hx].
  - rewrite <-(take_drop i l). apply elem_of_app. by left.
  - rewrite <-(take_drop (S i) l). apply elem_of_app. by right.
Qed.

Lemma bounded_step C e g g' :
  C ≤ i32_max → (∀ p, e = EReplacePolicy (Some p) → ∀ c, cap_for p c ≤ C) →
  bounded C g → gate_step e g = Some g' → bounded C g'.
Proof.
  intros HC He Hg Hstep. pose proof Hg as (Ht & Hq & Hp). destruct e as [c a now|i|i b|next|]; cbn [gate_step] in Hstep.
  - injection Hstep as <-. destruct (policy g) as [p|] eqn:Ep; [|exact Hg]. case_match; [exact Hg|].
    split_and!; cbn [store requests policy]; [done| |naive_solver].
    apply Forall_app. split; [done|]. constructor; [|done]. by apply Hp.
  - destruct (requests g !! i) as [q|] eqn:Eq; [|done]. cbn in Hstep.
    pose proof (store_reserve_ok C (rq_consumer q) (rq_ability q) (rq_cap q) (rq_window_ms q) (rq_now_ms q) (store g)
                  (Forall_lookup_1 _ _ _ _ Hq Eq) HC Ht) as Hs.
    destruct (store_reserve _ _ _ _ _ _) as [r s]. injection Hstep as <-.
    split_and!; cbn [store requests policy]; [done| |done].
    apply Forall_forall. intros x Hx%remove_at_elem. by apply (proj1 (Forall_forall _ _) Hq).
  - destruct (live g !! i) as [r|]; [|done]. injection Hstep as <-.
    split_and!; cbn [store requests policy]; [by apply finish_ok|done|done].
  - injection Hstep as <-. split_and!; cbn [store requests policy]; [done|done|]. naive_solver.
  - destruct (clears g); [done|]. injection Hstep as <-.
    split_and!; cbn [store requests policy]; [|done|done]. split; [|apply map_Forall_empty].
    cbn [store_clear windows]. rewrite map_size_empty. unfold MAX_QUOTA_TRACKED_KEYS. lia.
Qed.

Lemma gate_run_app es es' g : gate_run (es ++ es') g = gate_run es g ≫= gate_run es'.
Proof.
  revert g. induction es as [|e es IH]; intros g; cbn; [done|]. destruct (gate_step e g); cbn; [apply IH|done].
Qed.

(** Invariants of runs, by induction from the end. *)
Lemma gate_run_ind (P : list Event → Gate → Prop) g0 :
  P [] g0 →
  (∀ es e g g', P es g → gate_step e g = Some g' → P (es ++ [e]) g') →
  ∀ es g, gate_run es g0 = Some g → P es g.
Proof.
  intros H0 Hstep es. induction es as [|e es IH] using rev_ind; intros g Hg.
  - cbn in Hg. by injection Hg as <-.
  - rewrite gate_run_app in Hg. destruct (gate_run es g0) as [g1|] eqn:E1; [|done]. cbn in Hg.
    destruct (gate_step e g1) as [g2|] eqn:E2; [|done]. cbn in Hg. injection Hg as <-. eauto.
Qed.

(** Whatever the interleaving of reservations, commits, drops
    and policy changes, with every cap ever published at most [C]: the table has
    at most [MAX_QUOTA_TRACKED_KEYS] windows, and each counts between one and
    [C] calls, committed or pending; a window that counts nothing is not kept. *)
Theorem quota_bounded C p es g :
  C ≤ i32_max → (∀ q, q ∈ published p es → ∀ c, cap_for q c ≤ C) →
  gate_run es (gate_new p) = Some g →
  Z.of_nat (size (windows (store g))) ≤ MAX_QUOTA_TRACKED_KEYS ∧
  ∀ k w, windows (store g) !! k = Some w →
    0 ≤ committed_count w ∧ 1 ≤ committed_count w + Z.of_nat (size (pending w)) ≤ C.
Proof.
  intros HC Hp Hrun.
  cut ((∀ q, q ∈ published p es → ∀ c, cap_for q c ≤ C) → bounded C g).
  { intros Hb. destruct (Hb Hp) as ([Hs Hm] & _ & _). split; [done|]. intros k w Hk. by apply Hm in Hk. }
  clear Hp. revert es g Hrun.
  refine (gate_run_ind (λ es g, (∀ q, q ∈ published p es → ∀ c, cap_for q c ≤ C) → bounded C g) _ _ _).
  - intros Hp. split_and!; cbn [gate_new store requests policy store_new windows]; [|done|].
    + split; [rewrite map_size_empty; unfold MAX_QUOTA_TRACKED_KEYS; lia|apply map_Forall_empty].
    + intros q ->. apply Hp. by left.
  - intros es e g g' IH Hstep Hp. eapply bounded_step; [done| | |done].
    + intros q ->. apply Hp. unfold published. rewrite omap_app, !elem_of_app. right. right. by left.
    + apply IH. intros q Hq. apply Hp. revert Hq. unfold published. rewrite omap_app, !elem_of_app. tauto.
Qed.

(** ** Pending slots *)

(** [id] is pending in the window of [k] that opened at [start]. *)
Definition pending_in (s : QuotaStore) (k : string) (start id : Z) : Prop :=
  ∃ w, windows s !! k = Some w ∧ window_start_ms w = start ∧ id ∈ pending w.

(** The slot a reservation holds. *)
Definition holds (r : QuotaReservation) (k : string) (start id : Z) : Prop :=
  rsv_active r = true ∧ rsv_key r = k ∧ rsv_window_start r = start ∧ rsv_id r = id.

Lemma pending_in_insert k w m n k' start id :
  pending_in (mk_QuotaStore (<[k := w]> m) n) k' start id ↔
  (k' = k ∧ window_start_ms w = start ∧ id ∈ pending w) ∨ (k' ≠ k ∧ pending_in (mk_QuotaStore m n) k' start id).
Proof.
  unfold pending_in. cbn [windows]. destruct (decide (k' = k)) as [->|Hk].
  - rewrite lookup_insert_eq. naive_solver.
  - rewrite lookup_insert_ne by done. naive_solver.
Qed.

Lemma pending_in_windows s n k start id : pending_in (mk_QuotaStore (windows s) n) k start id ↔ pending_in s k start id.
Proof. done. Qed.

Lemma pending_in_prune now win s n k start id :
  pending_in (mk_QuotaStore (prune_expired_windows now win (windows s)) n) k start id → pending_in s k start id.
Proof. intros (w & Hw%prune_lookup & ?). by exists w. Qed.

Lemma pending_in_current now win s k start id :
  let w := current_window now win (windows s !! k) in
  window_start_ms w = start → id ∈ pending w → pending_in s k start id.
Proof.
  cbn. destruct (current_window_cases now win (windows s !! k)) as [->|(w & E & -> & _)].
  - cbn. intros _ ?%elem_of_empty. done.
  - intros. by exists w.
Qed.

Lemma reserve_in_window_pending key cap win now s k start id :
  let '(r, s') := reserve_in_window key cap win now s in
  pending_in s' k start id → pending_in s k start id ∨ holds r k start id.
Proof.
  unfold reserve_in_window. pose proof (pending_in_current now win s key start id) as Hc. cbn zeta in Hc.
  set (w := current_window now win (windows s !! key)) in *.
  destruct (cap <=? used w); rewrite pending_in_insert, pending_in_windows; intros [(-> & <- & Hid)|[_ ?]]; auto.
  apply elem_of_union in Hid as [->%elem_of_singleton|?]; [|auto]. by right.
Qed.

Lemma reserve_in_window_id key cap win now s :
  let '(r, s') := reserve_in_window key cap win now s in
  (rsv_active r = false ∧ next_reservation_id s' = next_reservation_id s) ∨
  (rsv_active r = true ∧ rsv_id r = next_reservation_id s ∧
   next_reservation_id s' = u64_wrap (next_reservation_id s + 1)).
Proof. unfold reserve_in_window. destruct (_ <=? _); cbn; auto. Qed.

Lemma store_reserve_pending c a cap win now s k start id :
  let '(r, s') := store_reserve c a cap win now s in
  pending_in s' k start id → pending_in s k start id ∨ holds r k start id.
Proof.
  destruct (store_reserve_cases c a cap win now s)
    as [(_ & ->)|[(d & s' & -> & _ & _ & [-> | ->])|(key & s1 & _ & _ & -> & _ & Hs1)]];
    [auto..|by intros ?%pending_in_prune; left|].
  pose proof (reserve_in_window_pending key cap (Z.max win 1) now s1 k start id) as Hr.
  destruct (reserve_in_window _ _ _ _ _) as [r s']. intros [Hp|?]%Hr; [left|by right].
  destruct Hs1 as [->| ->]; [done|by apply pending_in_prune in Hp].
Qed.

Lemma store_reserve_id c a cap win now s :
  let '(r, s') := store_reserve c a cap win now s in
  (rsv_active r = false ∧ next_reservation_id s' = next_reservation_id s) ∨
  (rsv_active r = true ∧ rsv_id r = next_reservation_id s ∧
   next_reservation_id s' = u64_wrap (next_reservation_id s + 1)).
Proof.
  destruct (store_reserve_cases c a cap win now s)
    as [(_ & ->)|[(d & s' & -> & _ & _ & [-> | ->])|(key & s1 & _ & _ & -> & _ & Hs1)]]; [auto..|].
  pose proof (reserve_in_window_id key cap (Z.max win 1) now s1) as Hr.
  destruct Hs1 as [->| ->]; exact Hr.
Qed.

Lemma finish_next r b s : next_reservation_id (finish r b s) = next_reservation_id s.
Proof. unfold finish, finish_reservation. by repeat case_match. Qed.

(** Finishing a reservation frees its slot and takes no other. *)
Lemma finish_pending r b s k start id :
  pending_in (finish r b s) k start id → pending_in s k start id ∧ ¬ holds r k start id.
Proof.
  unfold finish, holds. destruct (rsv_active r); [|naive_solver]. unfold finish_reservation.
  destruct (windows s !! rsv_key r) as [w|] eqn:Ew.
  2:{ intros Hp. split; [done|]. intros (_ & <- & _ & _). destruct Hp as (? & ? & _). congruence. }
  destruct (window_start_ms w =? rsv_window_start r) eqn:E1; cbn [negb orb].
  2:{ intros Hp. split; [done|]. intros (_ & <- & <- & _). destruct Hp as (w' & ? & Hs & _).
      simplify_eq. lia. }
  destruct (bool_decide_reflect (rsv_id r ∈ pending w)) as [Hin|Hout]; cbn [negb].
  2:{ intros Hp. split; [done|]. intros (_ & <- & <- & <-). destruct Hp as (w' & Hw & _ & ?).
      rewrite Ew in Hw. by injection Hw as <-. }
  assert (Hins : ∀ n, pending_in (mk_QuotaStore (<[rsv_key r := mk_WindowState (rsv_window_start r) n
     (pending w ∖ {[rsv_id r]})]> (windows s)) (next_reservation_id s)) k start id →
     pending_in s k start id ∧ ¬ (true = true ∧ rsv_key r = k ∧ rsv_window_start r = start ∧ rsv_id r = id)).
  { intros n. rewrite pending_in_insert. cbn [window_start_ms pending]. intros [(-> & <- & Hid)|[Hk Hp]].
    - split; [exists w; split_and!; [done|lia|set_solver]|set_solver].
    - split; [done|]. naive_solver. }
  destruct b; [apply Hins|]. case_match; [|apply Hins].
  intros (w' & Hw & Hr). cbn [windows] in Hw. apply lookup_delete_Some in Hw as [Hk Hw]. split; [by exists w'|naive_solver].
Qed.

(** Slots are held by live reservations, whose ids differ. *)
Definition owned (n : Z) (g : Gate) : Prop :=
  (∀ k start id, pending_in (store g) k start id → ∃ r, r ∈ live g ∧ holds r k start id) ∧
  NoDup (rsv_id <$> live g) ∧
  Forall (λ r, rsv_id r < next_reservation_id (store g)) (live g) ∧
  1 ≤ next_reservation_id (store g) ≤ n + 1.

Lemma remove_at_split {A} i (l : list A) x : l !! i = Some x → l ≡ₚ x :: remove_at i l.
Proof.
  intros Hx. unfold remove_at. rewrite <-(take_drop_middle l i x Hx) at 1.
  by rewrite Permutation_middle.
Qed.

Lemma owned_mono n n' g : n ≤ n' → owned n g → owned n' g.
Proof. unfold owned. intros ? (? & ? & ? & ?). split_and!; auto; lia. Qed.

Lemma owned_same n p s q l c g :
  windows s = windows (store g) → next_reservation_id s = next_reservation_id (store g) → l = live g →
  owned n g → owned n (mk_Gate p s q l c).
Proof. unfold owned, pending_in. cbn [store live]. by intros -> -> ->. Qed.

Lemma owned_reserve n g c a cap win now q :
  n + 2 < 2 ^ 64 → owned n g →
  let '(r, s) := store_reserve c a cap win now (store g) in
  owned (n + 1) (mk_Gate (policy g) s q (if rsv_active r then live g ++ [r] else live g) (clears g)).
Proof.
  intros Hn (Hown & Hnd & Hlt & Hnext).
  pose proof (store_reserve_pending c a cap win now (store g)) as Hp.
  pose proof (store_reserve_id c a cap win now (store g)) as Hid.
  destruct (store_reserve _ _ _ _ _ _) as [r s].
  assert (Hown' : ∀ l, live g ⊆ l → (rsv_active r = true → r ∈ l) →
    ∀ k start id, pending_in s k start id → ∃ r0, r0 ∈ l ∧ holds r0 k start id).
  { intros l Hl Hr k start id [(r0 & ? & ?)%Hown|Hh]%Hp; [by exists r0; auto|].
    exists r. split; [apply Hr, Hh|done]. }
  unfold owned. cbn [store live].
  destruct Hid as [[Ha ->]|(Ha & Hid & ->)]; rewrite Ha.
  - split_and!; [apply Hown'; congruence|done|done|lia|lia].
  - unfold u64_wrap. rewrite Z.mod_small by lia.
    split_and!; [| | |lia|lia].
    + apply Hown'; [set_solver|]. intros _. set_solver.
    + rewrite fmap_app, NoDup_app. split_and!; [done| |apply NoDup_singleton].
      intros x (r0 & -> & Hr0)%list_elem_of_fmap. cbn. rewrite list_elem_of_singleton.
      apply (proj1 (Forall_forall _ _) Hlt) in Hr0. lia.
    + apply Forall_app. split; [eapply Forall_impl; [done|]; cbn; lia|]. constructor; [lia|done].
Qed.

Lemma owned_finish n g i r b q c :
  live g !! i = Some r → owned n g →
  owned n (mk_Gate (policy g) (finish r b (store g)) q (remove_at i (live g)) c).
Proof.
  intros Hi (Hown & Hnd & Hlt & Hnext). pose proof (remove_at_split _ _ _ Hi) as Hperm.
  unfold owned. cbn [store live]. rewrite finish_next.
  rewrite Hperm in Hnd, Hlt. rewrite fmap_cons in Hnd. apply NoDup_cons in Hnd as [_ Hnd]. apply Forall_cons in Hlt as [_ Hlt].
  split_and!; [|done|done|lia|lia].
  intros k start id [(r0 & Hr0 & Hh)%Hown Hnot]%finish_pending.
  rewrite Hperm in Hr0. apply elem_of_cons in Hr0 as [->|?]; [done|by exists r0].
Qed.

Lemma owned_step n e g g' :
  n + 2 < 2 ^ 64 → owned n g → gate_step e g = Some g' → owned (n + 1) g'.
Proof.
  intros Hn Hg Hstep. destruct e as [c a now|i|i b|next|]; cbn [gate_step] in Hstep.
  - injection Hstep as <-. apply (owned_mono n); [lia|]. repeat case_match; by try apply (owned_same _ _ _ _ _ _ g).
  - destruct (requests g !! i) as [q|]; [|done]. cbn in Hstep.
    pose proof (owned_reserve n g (rq_consumer q) (rq_ability q) (rq_cap q) (rq_window_ms q) (rq_now_ms q)
                  (remove_at i (requests g)) Hn Hg) as Hr.
    destruct (store_reserve _ _ _ _ _ _). by injection Hstep as <-.
  - destruct (live g !! i) as [r|] eqn:Hi; [|done]. injection Hstep as <-.
    apply (owned_mono n); [lia|]. by apply owned_finish.
  - injection Hstep as <-. apply (owned_mono n); [lia|]. by apply (owned_same _ _ _ _ _ _ g).
  - destruct (clears g); [done|]. injection Hstep as <-. apply (owned_mono n); [lia|].
    destruct Hg as (Hown & Hnd & Hlt & Hnext). split_and!; [|done|done|cbn; lia|cbn; lia].
    intros k start id (w & Hw & _). cbn in Hw. by rewrite lookup_empty in Hw.
Qed.

(** A slot is pending only while its reservation is live: in every
    interleaving (of fewer than [2^64 - 2] events) each pending id is the id of a
    reservation that its owner still holds, for that key and that window, the ids
    of live reservations differ, and when none is live nothing is pending. *)
Theorem quota_no_leak p es g :
  Z.of_nat (length es) < 2 ^ 64 - 2 →
  gate_run es (gate_new p) = Some g →
  (∀ k w id, windows (store g) !! k = Some w → id ∈ pending w →
     ∃ r, r ∈ live g ∧ rsv_key r = k ∧ rsv_window_start r = window_start_ms w ∧ rsv_id r = id) ∧
  NoDup (rsv_id <$> live g) ∧
  (live g = [] → ∀ k w, windows (store g) !! k = Some w → pending w = ∅).
Proof.
  intros Hlen Hrun. cut (Z.of_nat (length es) < 2 ^ 64 - 2 → owned (Z.of_nat (length es)) g).
  { intros Hb. destruct (Hb Hlen) as (Hown & Hnd & _ & _).
    assert (Hheld : ∀ k w id, windows (store g) !! k = Some w → id ∈ pending w →
      ∃ r, r ∈ live g ∧ rsv_key r = k ∧ rsv_window_start r = window_start_ms w ∧ rsv_id r = id).
    { intros k w id Hw Hid. destruct (Hown k (window_start_ms w) id) as (r & ? & _ & ?); [by exists w|by exists r]. }
    split_and!; [done..|]. intros Hl k w Hw. apply set_eq. intros id. split; [|by intros ?%elem_of_empty].
    intros Hid. destruct (Hheld _ _ _ Hw Hid) as (r & Hr & _). rewrite Hl in Hr. by apply elem_of_nil in Hr. }
  clear Hlen. revert es g Hrun.
  refine (gate_run_ind (λ es g, Z.of_nat (length es) < 2 ^ 64 - 2 → owned (Z.of_nat (length es)) g) _ _ _).
  - intros _. split_and!; cbn; [|constructor|constructor|lia|lia].
    intros k start id (w & Hw & _). cbn in Hw. by rewrite lookup_empty in Hw.
  - intros es e g g' IH Hstep Hlen. rewrite length_app in *. cbn [length] in *. rewrite Nat2Z.inj_add.
    eapply owned_step; [|apply IH|done]; lia.
Qed.

(** ** When to retry *)

Lemma used_fresh now : used (mk_WindowState now 0 ∅) = 0.
Proof. unfold used. cbn [committed_count pending]. by rewrite size_empty. Qed.

(** The decision in a window that is there: by age, then by count. *)
Lemma reserve_in_window_allowed key cap win now s w :
  windows s !! key = Some w → 0 < cap →
  allowed (rsv_decision (reserve_in_window key cap win now s).1) =
  (win <=? sat_i64 (now - window_start_ms w)) || (used w <? cap).
Proof.
  intros Hw Hcap. unfold reserve_in_window. rewrite Hw. unfold current_window. cbn [default from_option id].
  destruct (win <=? sat_i64 (now - window_start_ms w)); cbn [orb].
  - rewrite used_fresh. destruct (Z.leb_spec cap 0); [lia|done].
  - destruct (Z.leb_spec cap (used w)), (Z.ltb_spec (used w) cap); cbn; lia || done.
Qed.

Lemma reserve_in_window_denied key cap win now s r s' :
  0 < cap → reserve_in_window key cap win now s = (r, s') →
  deny_reason (rsv_decision r) = Some BudgetExhausted →
  ∃ w, windows s !! key = Some w ∧ windows s' !! key = Some w ∧ cap ≤ used w ∧
    sat_i64 (now - window_start_ms w) < win ∧
    reset_at_unix_ms (rsv_decision r) = sat_i64 (window_start_ms w + win) ∧
    retry_after_ms (rsv_decision r) =
      to_i32 (Z.max (sat_i64 (reset_at_unix_ms (rsv_decision r) - now)) 0).
Proof.
  unfold reserve_in_window. intros Hcap Hr Hd.
  destruct (current_window_cases now win (windows s !! key)) as [Hc|(w & E & Hc & Hage)]; rewrite Hc in Hr.
  - rewrite used_fresh in Hr. destruct (Z.leb_spec cap 0); [lia|]. by simplify_eq.
  - exists w. destruct (Z.leb_spec cap (used w)); injection Hr as <- <-; [|done]. cbn.
    rewrite lookup_insert_eq. done.
Qed.

(** When a call is refused because its budget is spent, the
    reset time it is told is exact: the same call repeated at a time [t], with
    nothing in between, is admitted if and only if [t] has reached it, and the
    retry delay, where it fits its width, ends there. *)
Theorem quota_reset_exact c a cap win now s r s' t :
  (∀ k w, windows s !! k = Some w → 0 ≤ window_start_ms w ≤ i64_max) →
  0 ≤ now ≤ i64_max → 0 ≤ t ≤ i64_max → 0 ≤ win ≤ i64_max →
  store_reserve c a cap win now s = (r, s') →
  deny_reason (rsv_decision r) = Some BudgetExhausted →
  reset_at_unix_ms (rsv_decision r) < i64_max →
  (allowed (rsv_decision (store_reserve c a cap win t s').1) = true ↔ reset_at_unix_ms (rsv_decision r) ≤ t) ∧
  (retry_after_ms (rsv_decision r) < i32_max → now + retry_after_ms (rsv_decision r) = reset_at_unix_ms (rsv_decision r)).
Proof.
  intros Hstart Hnow Ht Hwin Hr Hd Hreset.
  destruct (store_reserve_cases c a cap win now s)
    as [(_ & E)|[(d & ? & E & _ & Hd' & _)|(key & s1 & Hcap & Ekey & E & _ & Hs1)]]; rewrite E in Hr.
  1: by simplify_eq. 1: by simplify_eq.
  destruct (reserve_in_window_denied _ _ _ _ _ _ _ Hcap Hr Hd) as (w & Hw1 & Hw' & Hused & Hage & Er & Eretry).
  assert (0 ≤ window_start_ms w ≤ i64_max) as Hw.
  { apply (Hstart key). destruct Hs1 as [->| ->]; [done|]. by apply prune_lookup in Hw1. }
  split; [|rewrite Er in *; rewrite Eretry; quota_lia].
  assert (store_reserve c a cap win t s' = reserve_in_window key cap (Z.max win 1) t s') as ->.
  { unfold store_reserve. rewrite Ekey, Hw', (proj2 (Z.leb_gt cap 0)) by done. done. }
  rewrite (reserve_in_window_allowed _ _ _ _ _ w), orb_true_iff, Z.leb_le, Z.ltb_lt by done.
  rewrite Er in *. quota_lia.
Qed.

(** ** Keys *)

Lemma le_bytes_length w n : String.length (le_bytes w n) = w.
Proof. revert n. induction w as [|w IH]; intros n; cbn; [done|]. by rewrite IH. Qed.

Lemma le_bytes_inj w n m :
  0 ≤ n < 2 ^ (8 * Z.of_nat w) → 0 ≤ m < 2 ^ (8 * Z.of_nat w) → le_bytes w n = le_bytes w m → n = m.
Proof.
  revert n m. induction w as [|w IH]; cbn [le_bytes]; intros n m Hn Hm E; [cbn in *; lia|].
  injection E as Ehd Etl.
  rewrite Nat2Z.inj_succ in *. replace (8 * Z.succ (Z.of_nat w)) with (8 + 8 * Z.of_nat w) in * by lia.
  rewrite Z.pow_add_r in * by lia. change (2 ^ 8) with 256 in *.
  apply IH in Etl; [|rewrite Z.shiftr_div_pow2 by lia; change (2 ^ 8) with 256; split;
    [apply Z.div_pos; lia|apply Z.div_lt_upper_bound; lia]..].
  rewrite !Z.shiftr_div_pow2 in Etl by lia. change (2 ^ 8) with 256 in Etl.
  apply (f_equal N_of_ascii) in Ehd.
  pose proof (Z.mod_pos_bound n 256). pose proof (Z.mod_pos_bound m 256).
  rewrite !N_ascii_embedding in Ehd by lia.
  pose proof (Z.div_mod n 256). pose proof (Z.div_mod m 256). lia.
Qed.

Lemma append_inj (s1 s2 t1 t2 : string) :
  String.length s1 = String.length s2 → s1 +:+ t1 = s2 +:+ t2 → s1 = s2 ∧ t1 = t2.
Proof.
  revert s2. induction s1 as [|x s1 IH]; intros [|y s2] Hl E; try done.
  injection Hl as Hl. injection E as -> E. by destruct (IH s2 Hl E) as [-> ->].
Qed.

Definition fits_key (call : string * string) : Prop :=
  Z.of_nat (String.length call.1) ≤ MAX_QUOTA_CONSUMER_URA_BYTES ∧
  Z.of_nat (String.length call.2) ≤ MAX_QUOTA_ABILITY_NAME_BYTES.

(** The lengths in front make the hashed bytes unambiguous. *)
Lemma key_material_inj x y :
  fits_key x → fits_key y → key_material x.1 x.2 = key_material y.1 y.2 → x = y.
Proof.
  destruct x as [c a], y as [c' a']. unfold fits_key, MAX_QUOTA_CONSUMER_URA_BYTES, MAX_QUOTA_ABILITY_NAME_BYTES.
  unfold key_material, u64_le_bytes. cbn [fst snd]. intros [? ?] [? ?] E.
  apply append_inj in E as [Ec E]; [|by rewrite !le_bytes_length].
  apply le_bytes_inj in Ec; [|lia..]. apply append_inj in E as [-> E]; [|lia].
  apply append_inj in E as [_ ->]; [|by rewrite !le_bytes_length]. done.
Qed.

(** ** The contract: tumbling windows *)

(** One caller after the other, what the gate promises: per consumer and
    ability a window [(start, n)] that opens with the first call after the
    previous one is over, and admits [cap] calls. *)
Notation meter := (gmap (string * string) (Z * Z)).

(** A call and what it is told: admitted, remaining, reset time. *)
Record metered_call := mk_call { call_key : string * string; call_now : Z }.
Definition quota_answer : Type := option (bool * Z * Z).

Definition tumble (win now : Z) (o : option (Z * Z)) : Z * Z :=
  match o with
  | Some (start, n) => if now - start <? win then (start, n) else (now, 0)
  | None => (now, 0)
  end.

Definition meter_step (p : QuotaConfig) (σ : meter) (k : metered_call) : quota_answer * meter :=
  let cap := cap_for p (call_key k).1 in
  let win := config_window_ms p in
  if cap <=? 0 then (None, σ)
  else
    let '(start, n) := tumble win (call_now k) (σ !! call_key k) in
    let reset := Z.min (start + win) i64_max in
    if n <? cap then (Some (true, cap - n - 1, reset), <[call_key k := (start, n + 1)]> σ)
    else (Some (false, 0, reset), <[call_key k := (start, n)]> σ).

Definition observe (d : QuotaDecision) : bool * Z * Z := (allowed d, quota_remaining d, reset_at_unix_ms d).

Definition quota_call (p : QuotaConfig) (s : QuotaStore) (k : metered_call) : quota_answer * QuotaStore :=
  let '(d, s) := gate_check_and_record (Some p) (call_key k).1 (call_key k).2 (call_now k) s in
  (observe <$> d, s).

(** Calls in order, with their answers. *)
Fixpoint run_calls {S} (f : S → metered_call → quota_answer * S) (s : S) (l : list metered_call) : list quota_answer * S :=
  match l with
  | [] => ([], s)
  | k :: l => let '(x, s) := f s k in let '(xs, s) := run_calls f s l in (x :: xs, s)
  end.

(** The window of the store for a window of the meter. *)
Definition repr (o : Z * Z) : WindowState := mk_WindowState o.1 o.2 ∅.

Definition in_range (o : Z * Z) : Prop := 0 ≤ o.1 ≤ i64_max ∧ 0 ≤ o.2 ≤ i32_max.

Definition quota_key (x : string * string) : string := sha256 (key_material x.1 x.2).

Lemma QuotaKey_new_fits x : fits_key x → QuotaKey_new x.1 x.2 = Ok (quota_key x).
Proof. unfold fits_key, QuotaKey_new. intros [? ?]. by rewrite !(proj2 (Z.ltb_ge _ _)) by done. Qed.

Lemma used_repr o : in_range o → used (repr o) = o.2.
Proof. intros [? ?]. rewrite used_held; unfold held; cbn; rewrite ?size_empty; lia. Qed.

Lemma current_window_repr win now o :
  (∀ x, o = Some x → in_range x) → 0 ≤ now ≤ i64_max →
  current_window now win (repr <$> o) = repr (tumble win now o) ∧ in_range (tumble win now o).
Proof.
  intros Ho Hnow. assert (in_range (now, 0)) by (unfold in_range, i32_max; cbn; lia).
  destruct o as [[start n]|]; unfold current_window; cbn -[Z.sub sat_i64].
  - specialize (Ho _ eq_refl). destruct Ho as [Ho1 Ho2]. cbn in Ho1, Ho2.
    assert (sat_i64 (now - start) = now - start) as -> by quota_lia.
    destruct (Z.leb_spec win (now - start)), (Z.ltb_spec (now - start) win); try lia; split; by try done.
  - split; [|done]. by case_match.
Qed.

(** Reserving and committing in a window with nothing pending. *)
Lemma check_in_window key cap win now s start n :
  current_window now win (windows s !! key) = repr (start, n) → in_range (start, n) → 0 ≤ win → cap ≤ i32_max →
  let '(r, s') := reserve_in_window key cap win now s in
  observe (rsv_decision r) =
    (if n <? cap then (true, cap - n - 1, Z.min (start + win) i64_max)
     else (false, 0, Z.min (start + win) i64_max)) ∧
  windows (finish r true s') = <[key := repr (start, if n <? cap then n + 1 else n)]> (windows s).
Proof.
  intros Hc Hr Hwin Hcap. unfold reserve_in_window. rewrite Hc, (used_repr _ Hr). destruct Hr as [Hr1 Hr2].
  cbn [fst snd] in *.
  assert (Hreset : sat_i64 (window_start_ms (repr (start, n)) + win) = Z.min (start + win) i64_max).
  { cbn. quota_lia. }
  destruct (Z.leb_spec cap n), (Z.ltb_spec n cap); try lia; unfold observe; cbn -[Z.add Z.min sat_i64]; cbn in Hreset;
    rewrite Hreset; split; try done.
  unfold finish_reservation. cbn [windows]. rewrite lookup_insert_eq. cbn [window_start_ms repr fst].
  rewrite Z.eqb_refl. cbn [negb orb]. rewrite bool_decide_eq_true_2 by (cbn; set_solver).
  cbn [negb windows committed_count snd pending]. rewrite insert_insert_eq. f_equal. unfold repr. f_equal; cbn.
  - quota_lia.
  - set_solver.
Qed.

(** SHA-256 maps the keys of these calls to different digests. *)
Definition collision_free (l : list (string * string)) : Prop :=
  ∀ x y, x ∈ l → y ∈ l → quota_key x = quota_key y → key_material x.1 x.2 = key_material y.1 y.2.

Section refinement.
Context (p : QuotaConfig) (keys : list (string * string)).
Context (Hwin : 0 < config_window_ms p ≤ i64_max) (Hcaps : ∀ c, cap_for p c ≤ i32_max).
Context (Hfits : Forall fits_key keys) (Hfree : collision_free keys).
Context (Hmany : Z.of_nat (length keys) ≤ MAX_QUOTA_TRACKED_KEYS).

(** The store holds the meter's windows, and no others. *)
Definition simulates (s : QuotaStore) (σ : meter) : Prop :=
  (∀ x, x ∈ keys → windows s !! quota_key x = repr <$> σ !! x) ∧
  map_Forall (λ _, in_range) σ ∧
  dom (windows s) ⊆ list_to_set (C := gset string) (quota_key <$> keys).

(** There is room for the window of a key that has none. *)
Lemma room_for_key s σ x : x ∈ keys → simulates s σ → windows s !! quota_key x = None →
  Z.of_nat (size (windows s)) < MAX_QUOTA_TRACKED_KEYS.
Proof using Hwin Hcaps Hfits Hfree Hmany.
  intros Hx (_ & _ & Hd) Hnone%not_elem_of_dom. rewrite <- size_dom.
  assert (size ({[quota_key x]} ∪ dom (windows s)) ≤ length keys)%nat as Hle.
  { rewrite <- (length_fmap quota_key keys). etrans; [|apply size_list_to_set_le]. apply subseteq_size.
    apply union_subseteq. split; [|done]. apply singleton_subseteq_l, elem_of_list_to_set. by apply list_elem_of_fmap_2. }
  rewrite size_union, size_singleton in Hle by set_solver. lia.
Qed.

Lemma quota_key_inj x y : x ∈ keys → y ∈ keys → quota_key x = quota_key y → x = y.
Proof using Hfits Hfree.
  intros Hx Hy E. apply key_material_inj; [by apply (proj1 (Forall_forall _ _) Hfits)..|]. by apply Hfree.
Qed.

Lemma simulates_insert s s' σ x o :
  x ∈ keys → in_range o → simulates s σ → windows s' = <[quota_key x := repr o]> (windows s) →
  simulates s' (<[x := o]> σ).
Proof using Hfits Hfree.
  intros Hx Ho (Hw & Hr & Hs) E. unfold simulates. rewrite E. split_and!.
  - intros y Hy. destruct (decide (y = x)) as [->|Hne]; [by rewrite !lookup_insert_eq|].
    assert (quota_key x ≠ quota_key y) by (intros Eq; apply Hne; by apply quota_key_inj).
    rewrite !lookup_insert_ne by done. by apply Hw.
  - by apply map_Forall_insert_2.
  - rewrite dom_insert. apply union_subseteq. split; [|done]. apply singleton_subseteq_l, elem_of_list_to_set.
    by apply list_elem_of_fmap_2.
Qed.

Lemma quota_call_simulates s σ k :
  call_key k ∈ keys → 0 ≤ call_now k ≤ i64_max → simulates s σ →
  (quota_call p s k).1 = (meter_step p σ k).1 ∧
  simulates (quota_call p s k).2 (meter_step p σ k).2.
Proof using Hwin Hcaps Hfits Hfree Hmany.
  intros Hk Hnow Hsim. pose proof Hsim as (Hw & Hr & Hs).
  unfold quota_call, gate_check_and_record, meter_step.
  destruct (Z.leb_spec (cap_for p (call_key k).1) 0) as [|Hcap].
  { split; [done|]. by split_and!. }
  unfold store_reserve. rewrite (proj2 (Z.leb_gt _ 0)) by done.
  rewrite QuotaKey_new_fits by (by apply (proj1 (Forall_forall _ _) Hfits)).
  assert (bool_decide (windows s !! quota_key (call_key k) = None) &&
          (MAX_QUOTA_TRACKED_KEYS <=? Z.of_nat (size (windows s))) = false) as ->.
  { destruct (bool_decide_reflect (windows s !! quota_key (call_key k) = None)) as [Hnone|]; [|done].
    apply Z.leb_gt. by eapply room_for_key. }
  rewrite Z.max_l by lia.
  destruct (current_window_repr (config_window_ms p) (call_now k) (σ !! call_key k)) as [Hc Hin]; [|done|].
  { intros o Ho. by apply Hr in Ho. }
  rewrite <-Hw in Hc by done. destruct (tumble _ _ _) as [start m].
  pose proof (check_in_window _ (cap_for p (call_key k).1) _ _ _ _ _ Hc Hin ltac:(lia) ltac:(done)) as Hcheck.
  destruct (reserve_in_window _ _ _ _ _) as [r s']. destruct Hcheck as [Ho Hws].
  cbn [fmap option_fmap option_map]. rewrite Ho.
  destruct (Z.ltb_spec m (cap_for p (call_key k).1)); split; try done;
    (eapply simulates_insert; [done| |done|done]); [|done].
  destruct Hin. cbn in *. specialize (Hcaps (call_key k).1). split; cbn; lia.
Qed.

Lemma run_calls_simulates l s σ :
  Forall (λ k, call_key k ∈ keys ∧ 0 ≤ call_now k ≤ i64_max) l → simulates s σ →
  (run_calls (quota_call p) s l).1 = (run_calls (meter_step p) σ l).1.
Proof using Hwin Hcaps Hfits Hfree Hmany.
  revert s σ. induction l as [|k l IH]; cbn [run_calls length]; intros s σ Hl Hsim; [done|].
  apply Forall_cons in Hl as [[Hk Hnow] Hl].
  destruct (quota_call_simulates s σ k) as [Ha Hsim']; [done..|].
  destruct (quota_call p s k) as [x s1], (meter_step p σ k) as [y σ1]. cbn [fst snd] in *. subst y.
  specialize (IH s1 σ1 Hl Hsim').
  destruct (run_calls _ s1 l), (run_calls _ σ1 l). cbn in *. by rewrite IH.
Qed.
End refinement.

(** C30 (refinement): any number of calls made one after the other through the
    gate, from an empty store and under one policy with a positive window and
    caps within [i32], are told what tumbling windows per consumer and ability
    tell them: admitted or not, the calls remaining and the reset time of every
    call; for calls on at most [MAX_QUOTA_TRACKED_KEYS] (16384) pairs of consumer
    and ability, each within the length limits and with different SHA-256
    digests, at times that are not negative. *)
Theorem quota_refines_meter p keys l :
  0 < config_window_ms p ≤ i64_max → (∀ c, cap_for p c ≤ i32_max) →
  Z.of_nat (length keys) ≤ MAX_QUOTA_TRACKED_KEYS → Forall fits_key keys → collision_free keys →
  Forall (λ k, call_key k ∈ keys ∧ 0 ≤ call_now k ≤ i64_max) l →
  (run_calls (quota_call p) store_new l).1 = (run_calls (meter_step p) ∅ l).1.
Proof.
  intros Hwin Hcaps Hmany Hfits Hfree Hl. apply (run_calls_simulates p keys); [done..|].
  split_and!; cbn [store_new windows]; [|apply map_Forall_empty|rewrite dom_empty_L; set_solver].
  intros x _. by rewrite !lookup_empty.
Qed.
End store.

(** ** Concrete calls *)

Open Scope string_scope.
Open Scope Z_scope.

(** The first 32 bytes, padded with zeros. *)
Fixpoint pad (n : nat) (s : string) : string :=
  match n with
  | O => EmptyString
  | S n => match s with EmptyString => String zero (pad n EmptyString) | String c s => String c (pad n s) end
  end.

Lemma pad_length n s : String.length (pad n s) = n.
Proof. revert s. induction n as [|n IH]; intros [|c s]; cbn; by rewrite ?IH. Qed.

Definition pad_sha256 : Sha256 := {| sha256 := pad 32; sha256_length := pad_length 32 |}.
#[local] Existing Instance pad_sha256.

(** Two calls a second. *)
Definition two_a_second : QuotaConfig := QuotaConfig_new 2 1000 ∅.

Lemma two_a_second_cap c : cap_for two_a_second c ≤ 2.
Proof. unfold cap_for. cbn. by rewrite lookup_empty. Qed.

(** A committed call, two calls racing for the second slot, and a call for
    another ability that is dropped. *)
Definition racing : list Event :=
  [EReadPolicy "alice" "run" 5; EReserve 0; EFinish 0 true;
   EReadPolicy "alice" "run" 6; EReadPolicy "alice" "run" 7; EReserve 1; EReserve 0;
   EReadPolicy "alice" "stop" 8; EReserve 0; EFinish 1 false].

Lemma quota_bounded_witness : ∃ g,
  gate_run racing (gate_new (Some two_a_second)) = Some g ∧ size (windows (store g)) = 1%nat ∧
  (λ r, rsv_id r) <$> live g = [2] ∧
  Z.of_nat (size (windows (store g))) ≤ MAX_QUOTA_TRACKED_KEYS ∧
  ∀ k w, windows (store g) !! k = Some w →
    0 ≤ committed_count w ∧ 1 ≤ committed_count w + Z.of_nat (size (pending w)) ≤ 2.
Proof.
  eexists. split; [vm_compute; reflexivity|]. split; [vm_compute; reflexivity|].
  split; [vm_compute; reflexivity|].
  apply (quota_bounded 2 (Some two_a_second) racing).
  - vm_compute. discriminate.
  - cbn. intros q ->%list_elem_of_singleton. apply two_a_second_cap.
  - vm_compute. reflexivity.
Defined.

Lemma quota_no_leak_witness : ∃ g,
  gate_run racing (gate_new (Some two_a_second)) = Some g ∧
  (∀ k w id, windows (store g) !! k = Some w → id ∈ pending w →
     ∃ r, r ∈ live g ∧ rsv_key r = k ∧ rsv_window_start r = window_start_ms w ∧ rsv_id r = id) ∧
  NoDup (rsv_id <$> live g) ∧
  (live g = [] → ∀ k w, windows (store g) !! k = Some w → pending w = ∅).
Proof.
  eexists. split; [vm_compute; reflexivity|].
  apply (quota_no_leak (Some two_a_second) racing); [cbn; lia|]. vm_compute. reflexivity.
Defined.

(** The store after two calls. *)
Definition spent : QuotaStore :=
  (check_and_record "alice" "run" 2 1000 6 (check_and_record "alice" "run" 2 1000 5 store_new).2).2.

Lemma spent_windows : windows spent = {[ sha256 (key_material "alice" "run") := mk_WindowState 5 2 ∅ ]}.
Proof. vm_compute. reflexivity. Qed.

Lemma quota_reset_exact_witness :
  let '(r, s') := store_reserve "alice" "run" 2 1000 7 spent in
  rsv_decision r = mk_QuotaDecision false 0 2 1005 998 (Some BudgetExhausted) ∧
  (allowed (rsv_decision (store_reserve "alice" "run" 2 1000 1005 s').1) = true ↔ 1005 ≤ 1005) ∧
  (998 < i32_max → 7 + 998 = 1005).
Proof.
  destruct (store_reserve "alice" "run" 2 1000 7 spent) as [r s'] eqn:E.
  assert (Ed : rsv_decision r = mk_QuotaDecision false 0 2 1005 998 (Some BudgetExhausted)).
  { apply (f_equal (λ x, rsv_decision x.1)) in E. cbn [fst] in E. rewrite <-E. vm_compute. reflexivity. }
  split; [exact Ed|].
  pose proof (quota_reset_exact "alice" "run" 2 1000 7 spent r s' 1005) as H.
  rewrite Ed in H. cbn [reset_at_unix_ms retry_after_ms deny_reason] in H.
  apply H; [|unfold i64_max; lia..|exact E|reflexivity|reflexivity].
  intros k w. rewrite spent_windows. intros [_ <-]%lookup_singleton_Some. cbn. unfold i64_max. lia.
Defined.

(** Two consumers; the window of the first tumbles. *)
Definition sample_calls : list metered_call :=
  [mk_call ("alice", "run") 5; mk_call ("bob", "run") 6; mk_call ("alice", "run") 7;
   mk_call ("alice", "run") 1004; mk_call ("alice", "run") 1005].

Lemma quota_refines_meter_witness :
  (run_calls (quota_call two_a_second) store_new sample_calls).1 =
    (run_calls (meter_step two_a_second) ∅ sample_calls).1 ∧
  (run_calls (meter_step two_a_second) ∅ sample_calls).1 =
    [Some (true, 1, 1005); Some (true, 1, 1006); Some (true, 0, 1005); Some (false, 0, 1005); Some (true, 1, 2005)].
Proof.
  split; [|vm_compute; reflexivity].
  apply (quota_refines_meter two_a_second [("alice", "run"); ("bob", "run")] sample_calls).
  - cbn. unfold i64_max. lia.
  - intros c. pose proof (two_a_second_cap c). unfold i32_max. lia.
  - cbn. unfold MAX_QUOTA_TRACKED_KEYS. lia.
  - repeat constructor; vm_compute; discriminate.
  - intros x y Hx Hy E. cbn in Hx, Hy. rewrite !elem_of_cons in Hx, Hy.
    destruct_or?; subst; first [reflexivity | exfalso; revert E; vm_compute; discriminate | by apply elem_of_nil in Hx | by apply elem_of_nil in Hy].
  - repeat constructor; cbn; try set_solver; vm_compute; discriminate.
Defined.

(** Disabling the gate does not stop a reservation that has read
    the policy: its window is allocated after the store is cleared, and stays,
    with the policy off and nothing in progress.  The comment on the gate says
    that no new counters are allocated when the policy is [None]. *)
Theorem disabled_gate_allocates : ∃ es g,
  gate_run es (gate_new (Some two_a_second)) = Some g ∧
  policy g = None ∧ clears g = 0%nat ∧ requests g = [] ∧ live g = [] ∧ size (windows (store g)) = 1%nat.
Proof.
  exists [EReadPolicy "alice" "run" 5; EReplacePolicy None; EClear; EReserve 0; EFinish 0 true].
  eexists. split; [vm_compute; reflexivity|]. vm_compute. by split_and!.
Qed.
