(* ===== verification/Identity.v ===== *)
(** * Runtime identities (src/src/core/identity/mod.rs)

    Which addresses and ids are admissible as runtime identities, and the
    subjects of governed reads. *)

From Stdlib Require Import String Ascii.
From S2P Require Import Prelude RustStd Text Ura.

Open Scope Z_scope.

(** ** The all-zero placeholder *)

Definition ALL_ZERO_PRINCIPAL_ID : string := "00000000-0000-0000-0000-000000000000".

Definition is_all_zero_principal_id (value : string) : bool :=
  eq_ignore_ascii_case (trim value) ALL_ZERO_PRINCIPAL_ID.

Definition contains_all_zero_principal_placeholder (value : string) : bool :=
  str_contains_str ALL_ZERO_PRINCIPAL_ID (lowercase (trim value)).

Definition is_canonical_session_authority_id (value : string) : bool :=
  let value := trim value in
  negb (is_empty value)
  && forallb (λ ch, is_ascii_alphanumeric ch || (ch =? 45) || (ch =? 46)) (chars value).

(** ** Identities *)

Inductive RuntimeIdentityUraError :=
| IdentityEmpty
| IdentityAllZero
| IdentityInvalidSyntax (error : string).

Record RuntimeIdentityUra := mk_RuntimeIdentityUra {
  ri_ura : string;
  ri_kind : URAKind;
  ri_realm : string;
}.

Inductive RuntimeStateReadSubjectError :=
| ReadEmpty
| ReadEmptyRealm
| ReadEmptyUserId
| ReadAllZero
| ReadInvalidSyntax (error : string)
| ReadNotResource
| ReadNotUserOwned.

Record RuntimeStateReadSubject := mk_RuntimeStateReadSubject {
  rs_subject_ura : string;
  rs_realm : string;
  rs_user_id : string;
}.

Inductive RuntimeGovernanceReadSubject :=
| UserRuntimeState (subject : RuntimeStateReadSubject)
| RuntimeOwner (subject_ura realm : string).

Inductive RuntimeGovernanceReadSubjectError :=
| GovEmpty
| GovAllZero
| GovInvalidSyntax (error : string)
| GovInvalidCallee (error : string)
| GovNotGovernanceRead.

Definition RESOURCE_PATH : string := "runtime-state/read".

Section identity.
Context `{!UraLib}.

(** [RuntimeIdentityUra::parse]. *)
Definition RuntimeIdentityUra_parse (value : string) : result RuntimeIdentityUraError RuntimeIdentityUra :=
  let value := trim value in
  if is_empty value then Err IdentityEmpty
  else if contains_all_zero_principal_placeholder value then Err IdentityAllZero
  else
    p ← map_err IdentityInvalidSyntax (parse_ura value);
    Ok (mk_RuntimeIdentityUra value (ura_kind p) (ura_realm p)).

(** [Display] of the error. *)
Definition identity_error_display (e : RuntimeIdentityUraError) : string :=
  match e with
  | IdentityEmpty => "must not be empty"
  | IdentityAllZero => "must not contain the all-zero principal placeholder"
  | IdentityInvalidSyntax error => "is not a valid URA: " +:+ error
  end.

Definition session_resource_subject_has_noncanonical_session_id (value : string) : bool :=
  match parsed (trim value) with
  | None => false
  | Some p =>
      if negb (bool_decide (ura_kind p = KResource)) then false
      else match (path ← ura_resource_path p; strip_prefix "session/" (trim path)) with
           | Some session_id => negb (is_canonical_session_authority_id session_id)
           | None => false
           end
  end.

(** [RuntimeStateReadSubject::parse]. *)
Definition RuntimeStateReadSubject_parse (value : string)
  : result RuntimeStateReadSubjectError RuntimeStateReadSubject :=
  let subject_ura := trim value in
  if is_empty subject_ura then Err ReadEmpty
  else if contains_all_zero_principal_placeholder subject_ura then Err ReadAllZero
  else
    p ← map_err ReadInvalidSyntax (parse_ura subject_ura);
    _ ← ensure (bool_decide (ura_kind p = KResource)) ReadNotResource;
    owner ← ok_or (ura_resource_owner_id p) ReadNotUserOwned;
    user_id ← ok_or (strip_prefix "user." owner) ReadNotUserOwned;
    if blank user_id || str_contains 46 user_id || contains_all_zero_principal_placeholder user_id
    then Err ReadNotUserOwned
    else if negb (bool_decide (ura_resource_path p = Some RESOURCE_PATH)) then Err ReadNotUserOwned
    else Ok (mk_RuntimeStateReadSubject subject_ura (ura_realm p) user_id).

(** [RuntimeStateReadSubject::new]. *)
Definition RuntimeStateReadSubject_new (realm user_id : string)
  : result RuntimeStateReadSubjectError RuntimeStateReadSubject :=
  let realm := trim realm in
  if is_empty realm then Err ReadEmptyRealm
  else
    let user_id := trim user_id in
    if is_empty user_id then Err ReadEmptyUserId
    else if contains_all_zero_principal_placeholder user_id then Err ReadAllZero
    else RuntimeStateReadSubject_parse (resource_dot_ura realm ("user." +:+ user_id) RESOURCE_PATH).

(** [RuntimeGovernanceReadSubject::parse_for_callee]. *)
Definition parse_for_callee (subject_ura callee_ura : string)
  : result RuntimeGovernanceReadSubjectError RuntimeGovernanceReadSubject :=
  let subject_ura := trim subject_ura in
  if is_empty subject_ura then Err GovEmpty
  else if contains_all_zero_principal_placeholder subject_ura then Err GovAllZero
  else match RuntimeStateReadSubject_parse subject_ura with
  | Ok subject => Ok (UserRuntimeState subject)
  | Err _ =>
      subject ← map_err GovInvalidSyntax (parse_ura subject_ura);
      let callee_ura := trim callee_ura in
      callee ← map_err GovInvalidCallee (parse_ura callee_ura);
      if (bool_decide (ura_kind subject = KAuthority) || bool_decide (ura_kind subject = KDevice))
         && bool_decide (ura_kind subject = ura_kind callee)
         && bool_decide (ura_realm subject = ura_realm callee)
         && bool_decide (subject_ura = callee_ura)
      then Ok (RuntimeOwner subject_ura (ura_realm subject))
      else if bool_decide (ura_kind subject = KDevice) && bool_decide (ura_kind callee = KAgent)
           && bool_decide (ura_realm subject = ura_realm callee)
           && match ura_device_agent_ids callee with
              | Some (device_id, _) => bool_decide (ura_device_id subject = Some device_id)
              | None => false
              end
      then Ok (RuntimeOwner subject_ura (ura_realm subject))
      else Err GovNotGovernanceRead
  end.

(** [as_str] of a governance subject. *)
Definition governance_subject_str (s : RuntimeGovernanceReadSubject) : string :=
  match s with
  | UserRuntimeState subject => rs_subject_ura subject
  | RuntimeOwner subject_ura _ => subject_ura
  end.

(** ** Validation in the policy code *)

(** [validate_runtime_identity_ura] of access_control.rs. *)
Definition validate_runtime_identity_ura (value field : string) : result string unit :=
  identity ← map_err (λ e, field +:+ " is not admissible: " +:+ identity_error_display e)
               (RuntimeIdentityUra_parse value);
  ensure (bool_decide (ri_ura identity = value)) (field +:+ " must not contain surrounding whitespace").

(** [validate_nonzero_user_id] of access_control.rs. *)
Definition validate_nonzero_user_id (value field : string) : result string unit :=
  ensure (negb (is_all_zero_principal_id value || contains_all_zero_principal_placeholder value))
    (field +:+ " must not contain the all-zero principal placeholder").

(** [validate_user_principal_ura] of access_control.rs. *)
Definition validate_user_principal_ura (value field : string) : result string unit :=
  _ ← validate_nonzero_user_id value field;
  _ ← validate_runtime_identity_ura value field;
  p ← map_err (λ e, field +:+ " must be a canonical User URA: " +:+ e) (parse_ura value);
  ensure (bool_decide (ura_kind p = KUser) && bool_decide (is_Some (ura_user_id p)))
    (field +:+ " must be a canonical User URA").

(** What validation of an address gives. *)
Definition admissible_ura (value : string) : Prop :=
  value ≠ EmptyString ∧ trim value = value ∧ contains_all_zero_principal_placeholder value = false ∧
  is_Some (parsed value).

Lemma validate_runtime_identity_ura_Ok value field :
  validate_runtime_identity_ura value field = Ok tt ↔ admissible_ura value.
Proof.
  unfold validate_runtime_identity_ura, admissible_ura, RuntimeIdentityUra_parse, is_empty, parsed. split.
  - case_bool_decide as He; [done|]. destruct (contains_all_zero_principal_placeholder (trim value)) eqn:Ez; [done|].
    destruct (parse_ura (trim value)) as [p|e] eqn:Ep; [|done]. cbn.
    case_bool_decide as Ht; [|done]. intros _. rewrite Ht in *. rewrite Ep. split_and!; eauto.
  - intros (He & Ht & Hz & [p Hp]). rewrite Ht, Hz. rewrite bool_decide_eq_false_2 by done.
    destruct (parse_ura value); [|done]. cbn. by rewrite bool_decide_eq_true_2.
Qed.

(** A user address that validates. *)
Definition user_principal (value : string) : Prop :=
  admissible_ura value ∧ is_all_zero_principal_id value = false ∧
  ∃ p, parsed value = Some p ∧ ura_kind p = KUser ∧ is_Some (ura_user_id p).

Lemma validate_user_principal_ura_Ok value field :
  validate_user_principal_ura value field = Ok tt ↔ user_principal value.
Proof.
  unfold validate_user_principal_ura, user_principal, validate_nonzero_user_id.
  rewrite bind_Ok. setoid_rewrite ensure_Ok. setoid_rewrite bind_Ok. split.
  - intros (? & [H1 H2]%negb_true_iff%orb_false_iff & [] & Hv%validate_runtime_identity_ura_Ok & H3).
    destruct (parse_ura value) as [p|e] eqn:Ep; [|done]. cbn in H3.
    apply ensure_Ok, andb_true_iff in H3 as [?%bool_decide_eq_true ?%bool_decide_eq_true].
    split_and!; [done|done|]. exists p. unfold parsed. by rewrite Ep.
  - intros (Ha & Hz & p & Hp & Hk & Hu). exists tt. pose proof Ha as (_ & _ & Hc & _).
    rewrite Hz, Hc. split; [done|]. exists tt. rewrite validate_runtime_identity_ura_Ok. split; [done|].
    unfold parsed in Hp. destruct (parse_ura value); simplify_eq. cbn.
    by rewrite !bool_decide_eq_true_2.
Qed.
End identity.
