(* ===== verification/Decision.v ===== *)
(** * The vocabulary of admission (src/src/daemon/invocation/admission/decision.rs,
    device_caller_types.rs)

    Principals, actions, owners, decisions and permission requests, and time as
    chrono gives it. *)

From Stdlib Require Import String Ascii.
From S2P Require Import Prelude RustStd Text.

Open Scope Z_scope.

(** ** Time *)

(** chrono: [DateTime::parse_from_rfc3339] as an instant of UTC in nanoseconds,
    and the renderings with seconds and milliseconds. *)
Class Chrono := {
  parse_from_rfc3339 : string → option Z;
  to_rfc3339_secs : Z → string;
  to_rfc3339_millis : Z → string;
}.

(** What is rendered can be read, to the precision of the rendering. *)
Class ChronoLaws `{Chrono} : Prop := {
  parse_rfc3339_secs t : parse_from_rfc3339 (to_rfc3339_secs t) = Some (t / 1000000000 * 1000000000);
  parse_rfc3339_millis t : parse_from_rfc3339 (to_rfc3339_millis t) = Some (t / 1000000 * 1000000);
}.

(** [Duration::days]. *)
Definition days (n : Z) : Z := n * 86400 * 1000000000.

(** ** Principals and actions *)

Inductive PrincipalKind :=
| PUser | PAgent | PToken | PHub | PDeviceCustody | PService | PAutomation.

Inductive TokenClass :=
| THubLink | TBrowserSession | TDevicePairing | TAutomation | TThirdParty | TService.

Inductive AccessAction := ARead | AInvoke | AStream | AManage | AGrant.

#[global] Instance PrincipalKind_eq_dec : EqDecision PrincipalKind.
Proof. solve_decision. Defined.
#[global] Instance TokenClass_eq_dec : EqDecision TokenClass.
Proof. solve_decision. Defined.
#[global] Instance AccessAction_eq_dec : EqDecision AccessAction.
Proof. solve_decision. Defined.

Definition action_str (a : AccessAction) : string :=
  match a with
  | ARead => "read" | AInvoke => "invoke" | AStream => "stream" | AManage => "manage" | AGrant => "grant"
  end.

(** ** Devices *)

Inductive DeviceCallerPurpose :=
| Bootstrap | Pairing | PublicationCustody | DeviceSelfSession | LifecycleSelfRevoke
| HostedAgentRetraction | AbilityCatalogDiff.

#[global] Instance DeviceCallerPurpose_eq_dec : EqDecision DeviceCallerPurpose.
Proof. solve_decision. Defined.

(** The binding is 32 bytes. *)
Record VerifiedDeviceInvocationPurpose := mk_VerifiedPurpose {
  vp_purpose : DeviceCallerPurpose;
  vp_invocation_binding : string;
}.

#[global] Instance VerifiedDeviceInvocationPurpose_eq_dec : EqDecision VerifiedDeviceInvocationPurpose.
Proof. solve_decision. Defined.

(** [VerifiedDeviceInvocationPurpose::is]. *)
Definition purpose_is (p : VerifiedDeviceInvocationPurpose) (expected : DeviceCallerPurpose) : bool :=
  bool_decide (vp_purpose p = expected).

Definition carries_pairing_token_scope (p : VerifiedDeviceInvocationPurpose) : bool :=
  match vp_purpose p with Bootstrap | Pairing => true | _ => false end.

(** ** Owners *)

Inductive OwnerSource := SrcSubject | SrcCallee | SrcDevice | SrcSession | SrcUnresolved.

#[global] Instance OwnerSource_eq_dec : EqDecision OwnerSource.
Proof. solve_decision. Defined.

Definition owner_source_str (s : OwnerSource) : string :=
  match s with
  | SrcSubject => "subject" | SrcCallee => "callee" | SrcDevice => "device"
  | SrcSession => "session" | SrcUnresolved => "unresolved"
  end.

Record OwnerResolution := mk_OwnerResolution {
  or_owner_user_ura : option string;
  or_owner_ura : option string;
  or_owner_source : OwnerSource;
  or_audit_warnings : list string;
}.

(** [OwnerResolution::unresolved]. *)
Definition owner_unresolved (reason : string) : OwnerResolution :=
  mk_OwnerResolution None None SrcUnresolved [reason].

(** ** Decisions *)

Inductive PolicyDecisionOutcome := Allow | Deny | Prompt.

Inductive PolicyDecisionReason :=
| OwnerAllow
| ExplicitGrantAllow
| SystemRuleAllow
| AuthorityProofAllow
| InvocationLifecycleControlAllow
| FederationForwardAllow
| ExplicitDeny
| HubTokenReadAllow
| MissingGrant
| GrantReconfirmationRequired
| TokenScopeDenied
| CallerNotOwner
| OwnerUnresolved
| InteractiveApprovalRequired
| NonInteractiveDeny
| AuthorityProofExpired
| AuthorityProofMismatch.

#[global] Instance PolicyDecisionOutcome_eq_dec : EqDecision PolicyDecisionOutcome.
Proof. solve_decision. Defined.
#[global] Instance PolicyDecisionReason_eq_dec : EqDecision PolicyDecisionReason.
Proof. solve_decision. Defined.

Record PolicyDecision := mk_PolicyDecision {
  pd_decision : PolicyDecisionOutcome;
  pd_reason : PolicyDecisionReason;
  pd_owner_user_ura : option string;
  pd_owner_source : OwnerSource;
  pd_caller_ura : string;
  pd_principal_kind : PrincipalKind;
  pd_principal_id : string;
  pd_token_id : option string;
  pd_token_class : option TokenClass;
  pd_callee_ura : string;
  pd_subject_ura : string;
  pd_ability_ura : string;
  pd_action : AccessAction;
  pd_rejector_ura : option string;
  pd_policy_rule_id : option string;
  pd_grant_id : option string;
  pd_prompt_request_id : option string;
  pd_canonical_hash : option string;
  pd_signature_key_id : option string;
  pd_authority_proof_id : option string;
}.

(** ** Signature decisions *)

Inductive SignatureDecisionReason :=
| SignatureValid
| CallerSignatureMissing
| CallerKeyNotFound
| CallerKeyRevoked
| CallerSignatureVerifyFailed
| CanonicalHashMismatch
| SignedDescriptorRefMissing
| SignedDescriptorRefMismatch
| SignedEnvelopeRouteMutation
| FederatedKeyResolveFailed.

Definition signature_reason_str (r : SignatureDecisionReason) : string :=
  match r with
  | SignatureValid => "SIGNATURE_VALID"
  | CallerSignatureMissing => "CALLER_SIGNATURE_MISSING"
  | CallerKeyNotFound => "CALLER_KEY_NOT_FOUND"
  | CallerKeyRevoked => "CALLER_KEY_REVOKED"
  | CallerSignatureVerifyFailed => "CALLER_SIGNATURE_VERIFY_FAILED"
  | CanonicalHashMismatch => "CANONICAL_HASH_MISMATCH"
  | SignedDescriptorRefMissing => "SIGNED_DESCRIPTOR_REF_MISSING"
  | SignedDescriptorRefMismatch => "SIGNED_DESCRIPTOR_REF_MISMATCH"
  | SignedEnvelopeRouteMutation => "SIGNED_ENVELOPE_ROUTE_MUTATION"
  | FederatedKeyResolveFailed => "FEDERATED_KEY_RESOLVE_FAILED"
  end.

(** [from_canonical_token]. *)
Definition from_canonical_token (token : string) : option SignatureDecisionReason :=
  if bool_decide (token = "SIGNATURE_VALID") then Some SignatureValid
  else if bool_decide (token = "CALLER_SIGNATURE_MISSING") then Some CallerSignatureMissing
  else if bool_decide (token = "CALLER_KEY_NOT_FOUND") then Some CallerKeyNotFound
  else if bool_decide (token = "CALLER_KEY_REVOKED") then Some CallerKeyRevoked
  else if bool_decide (token = "CALLER_SIGNATURE_VERIFY_FAILED") then Some CallerSignatureVerifyFailed
  else if bool_decide (token = "CANONICAL_HASH_MISMATCH") then Some CanonicalHashMismatch
  else if bool_decide (token = "SIGNED_DESCRIPTOR_REF_MISSING") then Some SignedDescriptorRefMissing
  else if bool_decide (token = "SIGNED_DESCRIPTOR_REF_MISMATCH") then Some SignedDescriptorRefMismatch
  else if bool_decide (token = "SIGNED_ENVELOPE_ROUTE_MUTATION") then Some SignedEnvelopeRouteMutation
  else if bool_decide (token = "FEDERATED_KEY_RESOLVE_FAILED") then Some FederatedKeyResolveFailed
  else None.

(** [from_admission_detail]: the first token between colons that is known. *)
Fixpoint first_known_token (tokens : list string) : option SignatureDecisionReason :=
  match tokens with
  | [] => None
  | t :: tokens =>
      match from_canonical_token t with Some r => Some r | None => first_known_token tokens end
  end.
Definition from_admission_detail (detail : string) : SignatureDecisionReason :=
  default CallerSignatureVerifyFailed
    (first_known_token (base.filter (λ t, t ≠ EmptyString) (trim <$> str_split 58 detail))).

Lemma canonical_token_roundtrip r : from_canonical_token (signature_reason_str r) = Some r.
Proof. by destruct r. Qed.

(** ** Permission requests *)

Inductive PermissionRequestStatus := Pending | Approved | Denied | Expired | Cancelled.

#[global] Instance PermissionRequestStatus_eq_dec : EqDecision PermissionRequestStatus.
Proof. solve_decision. Defined.

Definition is_terminal (s : PermissionRequestStatus) : bool :=
  match s with Approved | Denied | Expired | Cancelled => true | Pending => false end.

(** [Debug] of the status. *)
Definition status_debug (s : PermissionRequestStatus) : string :=
  match s with
  | Pending => "Pending" | Approved => "Approved" | Denied => "Denied"
  | Expired => "Expired" | Cancelled => "Cancelled"
  end.

(** [PermissionLifetime] and [PermissionGrantLifetime]. *)
Inductive PermissionLifetime := Once | Session | Ttl | Permanent.

#[global] Instance PermissionLifetime_eq_dec : EqDecision PermissionLifetime.
Proof. solve_decision. Defined.

Record PermissionRequest := mk_PermissionRequest {
  pr_request_id : string;
  pr_owner_user_ura : string;
  pr_caller_ura : string;
  pr_principal_kind : PrincipalKind;
  pr_principal_id : string;
  pr_token_id : option string;
  pr_token_class : option TokenClass;
  pr_callee_ura : string;
  pr_subject_ura : string;
  pr_ability_ura : string;
  pr_action : AccessAction;
  pr_nonce : option string;
  pr_canonical_hash : option string;
  pr_requested_lifetimes : list PermissionLifetime;
  pr_status : PermissionRequestStatus;
  pr_created_at : string;
  pr_expires_at : string;
  pr_resolver_ura : option string;
  pr_resolved_lifetime : option PermissionLifetime;
  pr_created_grant_id : option string;
  pr_authority_proof_id : option string;
  pr_resolved_at : option string;
  pr_decision_reason : option string;
}.

#[global] Instance PermissionRequest_eq_dec : EqDecision PermissionRequest.
Proof. solve_decision. Defined.

(** Updates of a request. *)
Definition with_sources (r : PermissionRequest) (grant proof : option string) : PermissionRequest :=
  mk_PermissionRequest (pr_request_id r) (pr_owner_user_ura r) (pr_caller_ura r) (pr_principal_kind r)
    (pr_principal_id r) (pr_token_id r) (pr_token_class r) (pr_callee_ura r) (pr_subject_ura r)
    (pr_ability_ura r) (pr_action r) (pr_nonce r) (pr_canonical_hash r) (pr_requested_lifetimes r)
    (pr_status r) (pr_created_at r) (pr_expires_at r) (pr_resolver_ura r) (pr_resolved_lifetime r)
    grant proof (pr_resolved_at r) (pr_decision_reason r).
Definition with_resolution (r : PermissionRequest) (resolver resolved_at : option string) : PermissionRequest :=
  mk_PermissionRequest (pr_request_id r) (pr_owner_user_ura r) (pr_caller_ura r) (pr_principal_kind r)
    (pr_principal_id r) (pr_token_id r) (pr_token_class r) (pr_callee_ura r) (pr_subject_ura r)
    (pr_ability_ura r) (pr_action r) (pr_nonce r) (pr_canonical_hash r) (pr_requested_lifetimes r)
    (pr_status r) (pr_created_at r) (pr_expires_at r) resolver (pr_resolved_lifetime r)
    (pr_created_grant_id r) (pr_authority_proof_id r) resolved_at (pr_decision_reason r).
