(* ===== verification/Grants.v ===== *)
(** * Permission grants (src/src/daemon/invocation/admission/grant_matcher.rs)

    Which grants are active, which need to be confirmed again, and the choice of
    one grant for an invocation: the most specific one, ties broken by id. *)

From Stdlib Require Import String Ascii.
From S2P Require Import Prelude RustStd Text Json Decision.

Open Scope Z_scope.

(** ** Data *)

Inductive NetworkScope := NetLocal | NetPaired | NetFederated.

Record PermissionConstraints := mk_PermissionConstraints {
  pc_args_schema_filter : option Value;
  pc_resource_types : list string;
  pc_network_scope : option NetworkScope;
  pc_max_duration_ms : option Z;
  pc_max_invocations : option Z;
  pc_requires_user_present : option bool;
}.

Inductive PermissionEffect := EffAllow | EffDeny.
Inductive PermissionGrantState := GActive | GExpired | GRevoked.

#[global] Instance PermissionEffect_eq_dec : EqDecision PermissionEffect.
Proof. solve_decision. Defined.
#[global] Instance PermissionGrantState_eq_dec : EqDecision PermissionGrantState.
Proof. solve_decision. Defined.

(** [PermissionGrantLifetime] has the constructors of [PermissionLifetime]. *)
Record PermissionGrant := mk_PermissionGrant {
  g_grant_id : string;
  g_owner_user_ura : string;
  g_principal_kind : PrincipalKind;
  g_principal_id : string;
  g_token_id : option string;
  g_token_class : option TokenClass;
  g_session_id : option string;
  g_session_expires_at : option string;
  g_callee_ura : option string;
  g_subject_ura_pattern : option string;
  g_ability_ura_pattern : option string;
  g_actions : list AccessAction;
  g_constraints : option PermissionConstraints;
  g_effect : PermissionEffect;
  g_lifetime : PermissionLifetime;
  g_state : PermissionGrantState;
  g_expires_at : option string;
  g_review_required_after : option string;
  g_last_reviewed_at : option string;
  g_last_used_at : option string;
  g_created_by : string;
  g_created_at : string;
  g_updated_at : option string;
  g_revoked_at : option string;
  g_reason : option string;
}.

Record GrantMatchInput := mk_GrantMatchInput {
  gi_owner_user_ura : string;
  gi_principal_kind : PrincipalKind;
  gi_principal_id : string;
  gi_token_id : option string;
  gi_token_class : option TokenClass;
  gi_session_id : option string;
  gi_callee_ura : string;
  gi_subject_ura : string;
  gi_ability_ura : string;
  gi_action : AccessAction;
  gi_now : Z;
}.

(** ** Selectors *)

Inductive GrantSelector :=
| SelExact (expected : string)
| SelSegmentPrefix (prefix : string)
| SelClassScope.

Inductive GrantSelectorMatch := MExact | MSegmentPrefix | MClassScope.

(** [GrantSelector::parse]. *)
Definition selector_parse (raw : option string) : option GrantSelector :=
  match raw with
  | None => Some SelClassScope
  | Some raw =>
      if is_empty raw then Some SelClassScope
      else if negb (bool_decide (trim raw = raw)) then None
      else match strip_suffix "/*" raw with
      | Some prefix => if is_empty prefix then None else Some (SelSegmentPrefix prefix)
      | None =>
          match strip_suffix ".*" raw with
          | Some prefix => if is_empty prefix then None else Some (SelSegmentPrefix prefix)
          | None => if ends_with 42 raw then None else Some (SelExact raw)
          end
      end
  end.

(** [GrantSelector::matches]. *)
Definition selector_matches (s : GrantSelector) (value : string) : option GrantSelectorMatch :=
  match s with
  | SelExact expected => if bool_decide (expected = value) then Some MExact else None
  | SelSegmentPrefix prefix =>
      suffix ← get_from (String.length prefix) value;
      rest ← match strip_prefix "/" suffix with Some r => Some r | None => strip_prefix "." suffix end;
      if is_empty rest then None else Some MSegmentPrefix
  | SelClassScope => Some MClassScope
  end.

(** [GrantSpecificity] with its discriminants. *)
Definition specificity_rank (subject ability : GrantSelectorMatch) : Z :=
  match subject, ability with
  | MExact, MExact => 5
  | MExact, MSegmentPrefix => 4
  | MSegmentPrefix, MExact => 3
  | MSegmentPrefix, MSegmentPrefix => 2
  | MClassScope, _ | _, MClassScope => 1
  end.

Definition specificity (g : PermissionGrant) (i : GrantMatchInput) : option Z :=
  s ← selector_parse (g_subject_ura_pattern g);
  subject ← selector_matches s (gi_subject_ura i);
  a ← selector_parse (g_ability_ura_pattern g);
  ability ← selector_matches a (gi_ability_ura i);
  Some (specificity_rank subject ability).

(** ** Selectors of segments *)

Lemma str_drop_split n v : (n ≤ String.length v)%nat →
  ∃ q, String.length q = n ∧ v = q +:+ str_drop n v.
Proof.
  revert v. induction n as [|n IH]; intros v Hn; [by exists EmptyString; destruct v|].
  destruct v as [|c v]; cbn in *; [lia|]. destruct (IH v ltac:(lia)) as (q & Hq & E).
  exists (String c q). cbn [String.length]. rewrite str_app_cons. split; [by f_equal|by f_equal].
Qed.

Lemma get_from_app q c v : is_continuation (byte_val c) = false →
  get_from (String.length q) (q +:+ String c v) = Some (String c v).
Proof.
  intros Hc. unfold get_from. rewrite str_drop_app, Hc, str_length_app.
  by destruct (Nat.ltb_spec (String.length q + String.length (String c v)) (String.length q)); [lia|].
Qed.

(** A segment selector compares the length of its prefix and
    nothing else of it: it matches exactly the values that have a separator at
    that place with something after it. *)
Theorem segment_prefix_matches prefix value :
  selector_matches (SelSegmentPrefix prefix) value = Some MSegmentPrefix ↔
  ∃ q rest, String.length q = String.length prefix ∧ rest ≠ EmptyString ∧
    (value = q +:+ "/" +:+ rest ∨ value = q +:+ "." +:+ rest).
Proof.
  cbn [selector_matches]. split.
  - destruct (get_from _ value) as [suffix|] eqn:Eg; [|done]. cbn [mbind option_bind].
    unfold get_from in Eg. destruct (Nat.ltb_spec (String.length value) (String.length prefix)); [done|].
    destruct (str_drop_split (String.length prefix) value) as (q & Hq & Ev); [done|].
    assert (Es : str_drop (String.length prefix) value = suffix).
    { repeat case_match; by simplify_eq. }
    rewrite Es in Ev. clear Eg Es. subst value.
    destruct (strip_prefix "/" suffix) as [r|] eqn:E1.
    + apply strip_prefix_Some in E1 as ->. cbn. unfold is_empty. case_bool_decide; [done|]. intros _.
      exists q, r. auto.
    + destruct (strip_prefix "." suffix) as [r|] eqn:E2; [|done].
      apply strip_prefix_Some in E2 as ->. cbn. unfold is_empty. case_bool_decide; [done|]. intros _.
      exists q, r. auto.
  - assert (He : ∀ rest, rest ≠ EmptyString → is_empty rest = false).
    { intros rest ?. by apply bool_decide_eq_false_2. }
    intros (q & rest & <- & Hr & [-> | ->]).
    + change ("/" +:+ rest) with (String "/" rest). rewrite get_from_app by done. cbn [mbind option_bind].
      replace (strip_prefix "/" (String "/" rest)) with (Some rest) by (symmetry; by apply strip_prefix_Some).
      cbn. by rewrite (He rest).
    + change ("." +:+ rest) with (String "." rest). rewrite get_from_app by done. cbn [mbind option_bind].
      replace (strip_prefix "." (String "." rest)) with (Some rest) by (symmetry; by apply strip_prefix_Some).
      change (strip_prefix "/" (String "." rest)) with (@None string). cbn. by rewrite (He rest).
Qed.

(** ** Activity *)

Section grants.
Context `{Chrono}.

Definition session_active_at (g : PermissionGrant) (now : Z) : bool :=
  match (raw ← g_session_expires_at g; parse_from_rfc3339 raw) with
  | Some expiry => now <? expiry
  | None => false
  end.

Definition active_at (g : PermissionGrant) (now : Z) : bool :=
  if negb (bool_decide (g_state g = GActive)) then false
  else if bool_decide (g_lifetime g = Once) && bool_decide (is_Some (g_last_used_at g)) then false
  else if bool_decide (g_lifetime g = Session) && negb (session_active_at g now) then false
  else match g_expires_at g with
       | Some raw => match parse_from_rfc3339 raw with Some expiry => now <? expiry | None => false end
       | None => true
       end.

Definition session_matches (g : PermissionGrant) (session_id : option string) (now : Z) : bool :=
  if negb (bool_decide (g_lifetime g = Session)) then true
  else active_at g now && bool_decide (g_session_id g = session_id).

(** [review_interval_for_actions]. *)
Definition review_interval_for_actions (actions : list AccessAction) : option Z :=
  if existsb (λ a, match a with AManage | AGrant => true | _ => false end) actions then Some (days 30)
  else if bool_decide (AStream ∈ actions) then Some (days 90)
  else None.

Definition default_reconfirmation_deadline (g : PermissionGrant) : option Z :=
  if negb (bool_decide (g_effect g = EffAllow)) || negb (bool_decide (g_lifetime g = Permanent)) then None
  else
    interval ← review_interval_for_actions (g_actions g);
    let anchor := default (g_created_at g) (raw ← g_last_reviewed_at g; if blank raw then None else Some raw) in
    timestamp ← parse_from_rfc3339 anchor;
    Some (timestamp + interval).

Definition requires_periodic_reconfirmation_for (g : PermissionGrant) (a : AccessAction) : bool :=
  bool_decide (g_lifetime g = Permanent)
  && match a with AStream | AManage | AGrant => true | _ => false end.

Definition reconfirmation_deadline_for (g : PermissionGrant) (a : AccessAction) : option Z :=
  if negb (requires_periodic_reconfirmation_for g a) then None
  else match g_review_required_after g with
       | Some raw => if negb (blank raw) then parse_from_rfc3339 raw else default_reconfirmation_deadline g
       | None => default_reconfirmation_deadline g
       end.

Definition reconfirmation_required_for (g : PermissionGrant) (a : AccessAction) (now : Z) : bool :=
  if negb (active_at g now) || negb (bool_decide (g_effect g = EffAllow))
     || negb (bool_decide (a ∈ g_actions g)) || negb (requires_periodic_reconfirmation_for g a)
  then false
  else match reconfirmation_deadline_for g a with
       | Some deadline => deadline <=? now
       | None => true
       end.

Definition admissible_for (g : PermissionGrant) (a : AccessAction) (now : Z) : bool :=
  active_at g now && negb (reconfirmation_required_for g a now).

(** ** Matching *)

(** [token_matches], [token_class_matches]. *)
Definition token_matches (grant_token input_token : option string) : bool :=
  match grant_token with Some e => bool_decide (input_token = Some e) | None => true end.
Definition token_class_matches (grant_class input_class : option TokenClass) : bool :=
  match grant_class with Some e => bool_decide (input_class = Some e) | None => true end.

(** The filters of [matching_grants], in their order. *)
Definition grant_applies (i : GrantMatchInput) (effect : PermissionEffect) (g : PermissionGrant) : bool :=
  bool_decide (g_effect g = effect)
  && active_at g (gi_now i)
  && bool_decide (g_owner_user_ura g = gi_owner_user_ura i)
  && bool_decide (g_principal_kind g = gi_principal_kind i)
  && bool_decide (g_principal_id g = gi_principal_id i)
  && token_matches (g_token_id g) (gi_token_id i)
  && token_class_matches (g_token_class g) (gi_token_class i)
  && session_matches g (gi_session_id i) (gi_now i)
  && bool_decide (gi_action i ∈ g_actions g)
  && match g_callee_ura g with Some callee => bool_decide (callee = gi_callee_ura i) | None => true end.

(** The comparison of [sort_by]: higher specificity first, then the smaller id. *)
Definition match_leb (x y : Z * PermissionGrant) : bool :=
  match y.1 ?= x.1 with
  | Lt => true
  | Eq => match String.compare (g_grant_id x.2) (g_grant_id y.2) with Gt => false | _ => true end
  | Gt => false
  end.

(** The pairs of specificity and grant before and after sorting. *)
Definition scored (grants : list PermissionGrant) (i : GrantMatchInput) (effect : PermissionEffect)
  : list (Z * PermissionGrant) :=
  omap (λ g, (λ s, (s, g)) <$> specificity g i) (base.filter (λ g, grant_applies i effect g = true) grants).
Definition matching_grants (grants : list PermissionGrant) (i : GrantMatchInput) (effect : PermissionEffect)
  : list PermissionGrant :=
  (sort_by match_leb (scored grants i effect)).*2.

(** [find_active], which [find] calls. *)
Definition find_grant (grants : list PermissionGrant) (i : GrantMatchInput) (effect : PermissionEffect)
  : option PermissionGrant :=
  List.find (λ g, admissible_for g (gi_action i) (gi_now i)) (matching_grants grants i effect).

Definition find_reconfirmation_required (grants : list PermissionGrant) (i : GrantMatchInput)
  : option PermissionGrant :=
  List.find (λ g, reconfirmation_required_for g (gi_action i) (gi_now i)) (matching_grants grants i EffAllow).

(** ** What is found *)

Lemma match_leb_spec x y : match_leb x y = true ↔
  y.1 < x.1 ∨ (y.1 = x.1 ∧ String.compare (g_grant_id x.2) (g_grant_id y.2) ≠ Gt).
Proof.
  unfold match_leb. destruct (Z.compare_spec y.1 x.1) as [E|E|E]; [|naive_solver lia..].
  destruct (String.compare _ _); naive_solver lia.
Qed.

Lemma match_leb_total x y : match_leb x y = true ∨ match_leb y x = true.
Proof.
  rewrite !match_leb_spec. destruct (Z.lt_trichotomy x.1 y.1) as [?|[?|?]]; [tauto| |tauto].
  destruct (String.compare (g_grant_id x.2) (g_grant_id y.2)) eqn:E; [naive_solver..|].
  apply string_compare_gt in E. right. right. split; [done|]. congruence.
Qed.

Lemma match_leb_trans x y z : match_leb x y = true → match_leb y z = true → match_leb x z = true.
Proof.
  rewrite !match_leb_spec. intros [?|[? Hxy]] [?|[? Hyz]]; try (left; lia). right. split; [lia|].
  destruct (String.compare (g_grant_id x.2) (g_grant_id y.2)) eqn:E1; [apply string_compare_eq in E1; congruence| |done].
  destruct (String.compare (g_grant_id y.2) (g_grant_id z.2)) eqn:E2; [|by erewrite string_compare_trans|done].
  apply string_compare_eq in E2. congruence.
Qed.

Lemma find_fmap {A B} (f : A → B) (p : B → bool) l : List.find p (f <$> l) = f <$> List.find (λ x, p (f x)) l.
Proof. induction l as [|x l IH]; cbn; [done|]. by destruct (p (f x)). Qed.

Lemma elem_of_scored grants i effect s g :
  (s, g) ∈ scored grants i effect ↔ g ∈ grants ∧ grant_applies i effect g = true ∧ specificity g i = Some s.
Proof.
  unfold scored. rewrite list_elem_of_omap. setoid_rewrite list_elem_of_filter. split.
  - intros (g' & [? ?] & (s' & ? & [= <- <-])%fmap_Some). done.
  - intros (? & ? & E). exists g. rewrite E. done.
Qed.

(** A grant that covers the invocation, with its rank. *)
Definition covers (i : GrantMatchInput) (effect : PermissionEffect) (p : PermissionGrant → bool)
    (grants : list PermissionGrant) (s : Z) (g : PermissionGrant) : Prop :=
  g ∈ grants ∧ grant_applies i effect g = true ∧ specificity g i = Some s ∧ p g = true.

(** Searching the sorted matches finds the best one. *)
Lemma find_matching_Some grants i effect p g :
  List.find p (matching_grants grants i effect) = Some g →
  ∃ s, covers i effect p grants s g ∧
    ∀ s' g', covers i effect p grants s' g' →
      s' < s ∨ (s' = s ∧ String.compare (g_grant_id g) (g_grant_id g') ≠ Gt).
Proof.
  unfold matching_grants. rewrite find_fmap. intros ([s g'] & Hf & ->)%fmap_Some.
  apply find_sort_by_Some in Hf as (Hin & Hp & Hmin); [|apply match_leb_total|apply match_leb_trans].
  apply elem_of_scored in Hin as (? & ? & ?). exists s. split; [by split_and!|].
  intros s' g'' (? & ? & ? & ?). specialize (Hmin (s', g'')). rewrite match_leb_spec in Hmin.
  cbn in *. destruct Hmin as [?|[? ?]]; [by rewrite elem_of_scored|done|by left|by right].
Qed.

Lemma find_matching_None grants i effect p :
  List.find p (matching_grants grants i effect) = None ↔ ∀ s g, ¬ covers i effect p grants s g.
Proof.
  unfold matching_grants. rewrite find_fmap, fmap_None, find_sort_by_None. split.
  - intros Hf s g (? & ? & ? & Hp). specialize (Hf (s, g)). rewrite elem_of_scored in Hf. cbn in Hf.
    rewrite Hf in Hp; done.
  - intros Hn [s g] (? & ? & ?)%elem_of_scored. cbn. destruct (p g) eqn:E; [|done].
    destruct (Hn s g). by split_and!.
Qed.

Lemma grant_applies_active i effect g : grant_applies i effect g = true → active_at g (gi_now i) = true.
Proof. unfold grant_applies. rewrite !andb_true_iff. tauto. Qed.

(** The matcher answers with a grant exactly when one of that
    effect covers the invocation and is admissible at the time, and with the best
    one: no admissible covering grant is more specific, nor equally specific with
    a smaller id. *)
Theorem find_grant_best grants i effect :
  match find_grant grants i effect with
  | Some g => ∃ s, covers i effect (λ g, admissible_for g (gi_action i) (gi_now i)) grants s g ∧
      ∀ s' g', covers i effect (λ g, admissible_for g (gi_action i) (gi_now i)) grants s' g' →
        s' < s ∨ (s' = s ∧ String.compare (g_grant_id g) (g_grant_id g') ≠ Gt)
  | None => ∀ s g, ¬ covers i effect (λ g, admissible_for g (gi_action i) (gi_now i)) grants s g
  end.
Proof.
  unfold find_grant. destruct (List.find _ _) as [g|] eqn:E.
  - by apply find_matching_Some.
  - by apply find_matching_None.
Qed.

Lemma scored_perm grants grants' i effect : grants ≡ₚ grants' → scored grants i effect ≡ₚ scored grants' i effect.
Proof. unfold scored. by intros ->. Qed.

(** The choice does not depend on the order in which grants
    are stored, for grants with different ids. *)
Theorem find_grant_order_independent grants grants' i effect :
  grants ≡ₚ grants' → NoDup (g_grant_id <$> grants) → find_grant grants i effect = find_grant grants' i effect.
Proof.
  intros Hp Hnd. unfold find_grant, matching_grants. rewrite !find_fmap. f_equal.
  apply find_sort_by_unique; [apply match_leb_total|apply match_leb_trans|by apply scored_perm|].
  intros [s g] [s' g'] (Hg & _ & Hs)%elem_of_scored (Hg' & _ & Hs')%elem_of_scored _ _.
  rewrite !match_leb_spec. cbn. intros [?|[? H1]] [?|[? H2]]; try lia. subst s'.
  assert (Hid : g_grant_id g = g_grant_id g').
  { destruct (String.compare (g_grant_id g) (g_grant_id g')) eqn:E; [by apply string_compare_eq| |done].
    rewrite String.compare_antisym, E in H2. done. }
  f_equal. apply list_elem_of_lookup in Hg as [n Hn], Hg' as [n' Hn'].
  assert (n = n') as <-; [|congruence].
  eapply NoDup_lookup; [exact Hnd|rewrite list_lookup_fmap, Hn; done|]. by rewrite list_lookup_fmap, Hn', Hid.
Qed.
End grants.
