(* ===== verification/PolicyEngine.v ===== *)
(** * Owners and the policy engine (src/src/daemon/invocation/admission/owner_resolution.rs,
    policy_engine.rs)

    The accountable owner of an invocation, and the decision on it: explicit
    denials first, then the system's own rules, proofs of authority, the owner
    and the grants. *)

From Stdlib Require Import String Ascii.
From S2P Require Import Prelude RustStd Text Ura Json Decision Grants.

Open Scope Z_scope.

(** ** Owner resolution *)

Record OwnerFact := mk_OwnerFact {
  of_owner_user_ura : option string;
  of_owner_ura : option string;
  of_authoritative : bool;
}.

(** [OwnerFact::user_ura]. *)
Definition OwnerFact_user_ura (owner_user_ura owner_ura : string) : OwnerFact :=
  mk_OwnerFact (Some owner_user_ura) (Some owner_ura) true.

Record OwnerResolutionInput := mk_OwnerResolutionInput {
  oi_subject : option OwnerFact;
  oi_callee : option OwnerFact;
  oi_device : option OwnerFact;
  oi_session : option OwnerFact;
}.

Section owner.
Context `{!UraLib}.

(** The sources in order, and the authoritative facts among them. *)
Definition ordered_facts (i : OwnerResolutionInput) : list (OwnerSource * option OwnerFact) :=
  [(SrcSubject, oi_subject i); (SrcCallee, oi_callee i); (SrcDevice, oi_device i); (SrcSession, oi_session i)].
Definition authoritative_facts (i : OwnerResolutionInput) : list (OwnerSource * OwnerFact) :=
  omap (λ '(source, fact), f ← fact; if of_authoritative f then Some (source, f) else None) (ordered_facts i).

(** [Debug] of [Option<String>]. *)
Definition debug_option (o : option string) : string :=
  match o with Some s => "Some(" +:+ debug_str s +:+ ")" | None => "None" end.

(** One comparison of [conflict_warnings]. *)
Definition conflict_warning (l r : OwnerSource * OwnerFact) : option string :=
  if bool_decide (is_Some (of_owner_user_ura l.2)) && bool_decide (is_Some (of_owner_user_ura r.2))
     && negb (bool_decide (of_owner_user_ura l.2 = of_owner_user_ura r.2))
  then Some ("owner conflict before precedence: " +:+ owner_source_str l.1 +:+ "=" +:+
             debug_option (of_owner_user_ura l.2) +:+ " " +:+ owner_source_str r.1 +:+ "=" +:+
             debug_option (of_owner_user_ura r.2))
  else None.

(** [conflict_warnings]: all pairs in order. *)
Fixpoint conflict_warnings (facts : list (OwnerSource * OwnerFact)) : list string :=
  match facts with
  | [] => []
  | l :: facts => omap (conflict_warning l) facts ++ conflict_warnings facts
  end.

(** [OwnerResolver::resolve]. *)
Definition resolve (i : OwnerResolutionInput) : OwnerResolution :=
  let warnings := conflict_warnings (authoritative_facts i) in
  match authoritative_facts i with
  | [] => owner_unresolved "no authoritative owner source was present"
  | (source, fact) :: _ =>
      match (v ← of_owner_user_ura fact; if blank v then None else Some v) with
      | None =>
          mk_OwnerResolution None (of_owner_ura fact) SrcUnresolved
            (warnings ++ [owner_source_str source +:+
                          " owner fact did not project to an accountable user principal"])
      | Some owner_user_ura =>
          mk_OwnerResolution (Some owner_user_ura) (of_owner_ura fact) source warnings
      end
  end.
End owner.

(** ** The engine *)

Inductive SystemPolicyRuleMatch :=
| AuthoritySelfRead
| AuthoritySelfManage
| AuthoritySelfStream
| AuthorityPeerDirectoryStream
| RealmAuthorityPublicRead
| DevicePublicationCustodyManage
| DeviceSelfSessionStream
| DeviceLifecycleSelfRevokeManage
| DeviceHostedAgentRetractionManage
| RemoteOwnerForward.

#[global] Instance SystemPolicyRuleMatch_eq_dec : EqDecision SystemPolicyRuleMatch.
Proof. solve_decision. Defined.

Definition policy_rule_id (r : SystemPolicyRuleMatch) : string :=
  match r with
  | AuthoritySelfRead => "system.authority.self_read"
  | AuthoritySelfManage => "system.authority.self_manage"
  | AuthoritySelfStream => "system.authority.self_stream"
  | AuthorityPeerDirectoryStream => "system.authority.peer_directory_stream"
  | RealmAuthorityPublicRead => "system.realm_authority.public_read"
  | DevicePublicationCustodyManage => "system.device.publication_custody_manage"
  | DeviceSelfSessionStream => "system.device.self_session_stream"
  | DeviceLifecycleSelfRevokeManage => "system.device.lifecycle_self_revoke_manage"
  | DeviceHostedAgentRetractionManage => "system.device.hosted_agent_retraction_manage"
  | RemoteOwnerForward => "system.federation.remote_owner_forward"
  end.

Record PolicyInput := mk_PolicyInput {
  pi_owner : OwnerResolution;
  pi_caller_user_ura : option string;
  pi_caller_ura : string;
  pi_principal_kind : PrincipalKind;
  pi_principal_id : string;
  pi_token_id : option string;
  pi_token_class : option TokenClass;
  pi_device_invocation_purpose : option VerifiedDeviceInvocationPurpose;
  pi_callee_ura : string;
  pi_subject_ura : string;
  pi_ability_ura : string;
  pi_action : AccessAction;
  pi_safe_read : bool;
  pi_system_rule_matches : list SystemPolicyRuleMatch;
  pi_invocation_lifecycle_control : bool;
  pi_interactive_context_available : bool;
  pi_canonical_hash : option string;
  pi_signature_key_id : option string;
  pi_verified_authority_id : option string;
  pi_verified_session_id : option string;
  pi_rejector_ura : option string;
  pi_now : Z;
  pi_grants : list PermissionGrant;
}.

(** [input.grants = ...]. *)
Definition with_grants (i : PolicyInput) (grants : list PermissionGrant) : PolicyInput :=
  mk_PolicyInput (pi_owner i) (pi_caller_user_ura i) (pi_caller_ura i) (pi_principal_kind i)
    (pi_principal_id i) (pi_token_id i) (pi_token_class i) (pi_device_invocation_purpose i)
    (pi_callee_ura i) (pi_subject_ura i) (pi_ability_ura i) (pi_action i) (pi_safe_read i)
    (pi_system_rule_matches i) (pi_invocation_lifecycle_control i) (pi_interactive_context_available i)
    (pi_canonical_hash i) (pi_signature_key_id i) (pi_verified_authority_id i) (pi_verified_session_id i)
    (pi_rejector_ura i) (pi_now i) grants.

(** The purpose check of the device rules. *)
Definition has_purpose (i : PolicyInput) (p : DeviceCallerPurpose) : bool :=
  match pi_device_invocation_purpose i with Some v => purpose_is v p | None => false end.

Definition allow_reason (r : SystemPolicyRuleMatch) (i : PolicyInput) : option PolicyDecisionReason :=
  let then_some (b : bool) (reason : PolicyDecisionReason) := if b then Some reason else None in
  match r with
  | AuthoritySelfRead | RealmAuthorityPublicRead =>
      then_some (bool_decide (pi_action i = ARead) && pi_safe_read i) HubTokenReadAllow
  | AuthoritySelfManage => then_some (bool_decide (pi_action i = AManage)) SystemRuleAllow
  | DevicePublicationCustodyManage =>
      then_some (bool_decide (pi_action i = AManage) && has_purpose i PublicationCustody) SystemRuleAllow
  | DeviceLifecycleSelfRevokeManage =>
      then_some (bool_decide (pi_action i = AManage) && has_purpose i LifecycleSelfRevoke) SystemRuleAllow
  | DeviceHostedAgentRetractionManage =>
      then_some (bool_decide (pi_action i = AManage) && has_purpose i HostedAgentRetraction) SystemRuleAllow
  | AuthoritySelfStream | AuthorityPeerDirectoryStream =>
      then_some (bool_decide (pi_action i = AStream)) SystemRuleAllow
  | DeviceSelfSessionStream =>
      then_some (bool_decide (pi_action i = AStream) && has_purpose i DeviceSelfSession) SystemRuleAllow
  | RemoteOwnerForward => Some FederationForwardAllow
  end.

(** [decision]. *)
Definition decision (i : PolicyInput) (outcome : PolicyDecisionOutcome) (reason : PolicyDecisionReason)
    (grant_id : option string) : PolicyDecision :=
  mk_PolicyDecision outcome reason (or_owner_user_ura (pi_owner i)) (or_owner_source (pi_owner i))
    (pi_caller_ura i) (pi_principal_kind i) (pi_principal_id i) (pi_token_id i) (pi_token_class i)
    (pi_callee_ura i) (pi_subject_ura i) (pi_ability_ura i) (pi_action i) (pi_rejector_ura i)
    grant_id grant_id None (pi_canonical_hash i) (pi_signature_key_id i) (pi_verified_authority_id i).

(** [explicit_grant_decision], which sets both ids to what [decision] would. *)
Definition explicit_grant_decision (i : PolicyInput) (grant_id : string) : PolicyDecision :=
  decision i Allow ExplicitGrantAllow (Some grant_id).

(** [system_rule_decision]. *)
Definition system_rule_decision (i : PolicyInput) (reason : PolicyDecisionReason) (r : SystemPolicyRuleMatch)
  : PolicyDecision :=
  mk_PolicyDecision Allow reason (or_owner_user_ura (pi_owner i)) (or_owner_source (pi_owner i))
    (pi_caller_ura i) (pi_principal_kind i) (pi_principal_id i) (pi_token_id i) (pi_token_class i)
    (pi_callee_ura i) (pi_subject_ura i) (pi_ability_ura i) (pi_action i) (pi_rejector_ura i)
    (Some (policy_rule_id r)) None None (pi_canonical_hash i) (pi_signature_key_id i) (pi_verified_authority_id i).

(** The accountable owner, when it is not blank. *)
Definition accountable_owner (i : PolicyInput) : option string :=
  owner ← or_owner_user_ura (pi_owner i); if blank owner then None else Some owner.

Definition grant_input (i : PolicyInput) (owner_user_ura : string) : GrantMatchInput :=
  mk_GrantMatchInput owner_user_ura (pi_principal_kind i) (pi_principal_id i) (pi_token_id i)
    (pi_token_class i) (pi_verified_session_id i) (pi_callee_ura i) (pi_subject_ura i) (pi_ability_ura i)
    (pi_action i) (pi_now i).

(** The first system rule with a reason to allow. *)
Fixpoint first_rule (rules : list SystemPolicyRuleMatch) (i : PolicyInput)
  : option (SystemPolicyRuleMatch * PolicyDecisionReason) :=
  match rules with
  | [] => None
  | r :: rules =>
      match allow_reason r i with Some reason => Some (r, reason) | None => first_rule rules i end
  end.

Section engine.
Context `{Chrono}.

(** The denial an owner made explicit, if there is one. *)
Definition explicit_deny (i : PolicyInput) : option PermissionGrant :=
  owner ← accountable_owner i; find_grant (pi_grants i) (grant_input i owner) EffDeny.

(** The tests of the owner and of the hub link. *)
Definition caller_is_owner (i : PolicyInput) : bool :=
  match or_owner_ura (pi_owner i) with
  | Some owner_ura => bool_decide (pi_caller_user_ura i = Some owner_ura)
  | None => false
  end.
Definition hub_read (i : PolicyInput) : bool :=
  bool_decide (pi_token_class i = Some THubLink) && bool_decide (pi_action i = ARead) && pi_safe_read i.

(** The part of [check] for an owner that is known. *)
Definition check_owner (i : PolicyInput) (owner_user_ura : string) : PolicyDecision :=
  if caller_is_owner i then decision i Allow OwnerAllow None
  else if hub_read i then decision i Allow HubTokenReadAllow None
  else match find_grant (pi_grants i) (grant_input i owner_user_ura) EffAllow with
  | Some g => explicit_grant_decision i (g_grant_id g)
  | None =>
      match find_reconfirmation_required (pi_grants i) (grant_input i owner_user_ura) with
      | Some g => decision i Deny GrantReconfirmationRequired (Some (g_grant_id g))
      | None =>
          if pi_interactive_context_available i then decision i Prompt InteractiveApprovalRequired None
          else if bool_decide (pi_principal_kind i = PToken) && negb (bool_decide (pi_action i = ARead))
          then decision i Deny TokenScopeDenied None
          else decision i Deny NonInteractiveDeny None
      end
  end.

(** [PolicyEngine::check]. *)
Definition check (i : PolicyInput) : PolicyDecision :=
  match explicit_deny i with
  | Some g => decision i Deny ExplicitDeny (Some (g_grant_id g))
  | None =>
      if pi_invocation_lifecycle_control i && bool_decide (pi_action i = AManage)
      then decision i Allow InvocationLifecycleControlAllow None
      else match first_rule (pi_system_rule_matches i) i with
      | Some (r, reason) => system_rule_decision i reason r
      | None =>
          if bool_decide (is_Some (pi_verified_authority_id i)) then decision i Allow AuthorityProofAllow None
          else match accountable_owner i with
          | None => decision i Deny OwnerUnresolved None
          | Some owner_user_ura => check_owner i owner_user_ura
          end
      end
  end.

(** ** What is allowed *)

(** The grounds of an admission. *)
Inductive justified (i : PolicyInput) : PolicyDecisionReason → Prop :=
| J_lifecycle :
    pi_invocation_lifecycle_control i = true → pi_action i = AManage →
    justified i InvocationLifecycleControlAllow
| J_system r reason :
    r ∈ pi_system_rule_matches i → allow_reason r i = Some reason → justified i reason
| J_authority : is_Some (pi_verified_authority_id i) → justified i AuthorityProofAllow
| J_owner owner ura :
    accountable_owner i = Some owner → or_owner_ura (pi_owner i) = Some ura →
    pi_caller_user_ura i = Some ura → justified i OwnerAllow
| J_hub owner :
    accountable_owner i = Some owner → pi_token_class i = Some THubLink → pi_action i = ARead →
    pi_safe_read i = true → justified i HubTokenReadAllow
| J_grant owner s g :
    accountable_owner i = Some owner →
    covers (grant_input i owner) EffAllow (λ g, admissible_for g (pi_action i) (pi_now i)) (pi_grants i) s g →
    justified i ExplicitGrantAllow.

(** No denial of the owner covers the invocation. *)
Definition not_denied (i : PolicyInput) : Prop :=
  ∀ owner s g, accountable_owner i = Some owner →
    ¬ covers (grant_input i owner) EffDeny (λ g, admissible_for g (pi_action i) (pi_now i)) (pi_grants i) s g.

Lemma explicit_deny_None i : explicit_deny i = None ↔ not_denied i.
Proof.
  unfold explicit_deny, not_denied. destruct (accountable_owner i) as [owner|]; cbn; [|naive_solver].
  unfold find_grant. rewrite find_matching_None. cbn. naive_solver.
Qed.

Lemma first_rule_Some rules i r reason : first_rule rules i = Some (r, reason) →
  r ∈ rules ∧ allow_reason r i = Some reason.
Proof.
  induction rules as [|r' rules IH]; cbn; [done|]. destruct (allow_reason r' i) eqn:E.
  - intros [= <- <-]. split; [left|done].
  - intros [? ?]%IH. split; [by right|done].
Qed.

Lemma first_rule_None rules i : first_rule rules i = None ↔ ∀ r, r ∈ rules → allow_reason r i = None.
Proof.
  induction rules as [|r rules IH]; cbn; [split; [intros _ r Hr; by apply elem_of_nil in Hr|done]|].
  destruct (allow_reason r i) eqn:E.
  - split; [done|]. intros Hr. specialize (Hr r). rewrite E in Hr. by discriminate Hr; left.
  - rewrite IH. split; intros Hr r' Hr'; [apply elem_of_cons in Hr' as [->|?]; auto|]. apply Hr. by right.
Qed.

Lemma check_owner_allow i owner : accountable_owner i = Some owner →
  pd_decision (check_owner i owner) = Allow → justified i (pd_reason (check_owner i owner)).
Proof.
  intros Ho. unfold check_owner. destruct (caller_is_owner i) eqn:E1.
  { intros _. cbn. unfold caller_is_owner in E1. destruct (or_owner_ura (pi_owner i)) as [u|] eqn:Eu; [|done].
    apply bool_decide_eq_true in E1. by eapply J_owner. }
  destruct (hub_read i) eqn:E2.
  { intros _. cbn. unfold hub_read in E2. rewrite !andb_true_iff, !bool_decide_eq_true in E2.
    eapply J_hub; [done|tauto..]. }
  destruct (find_grant _ _ _) as [g|] eqn:E3; [|by repeat case_match].
  intros _. cbn. apply find_matching_Some in E3 as (s & Hc & _). by eapply J_grant.
Qed.

Lemma check_owner_complete i owner reason : accountable_owner i = Some owner →
  justified i reason →
  pd_decision (check_owner i owner) = Allow ∨
  (pi_invocation_lifecycle_control i = true ∧ pi_action i = AManage) ∨
  is_Some (first_rule (pi_system_rule_matches i) i) ∨ is_Some (pi_verified_authority_id i).
Proof.
  intros Ho [? ?|r reason' Hr Ha|?|owner' u Ho' Hu Hc|owner' Ho' ? ? ?|owner' s g Ho' Hc]; [auto| |auto| | |].
  - right. right. left. destruct (first_rule _ i) as [x|] eqn:E; [by exists x|].
    rewrite first_rule_None in E. rewrite E in Ha by done. done.
  - left. unfold check_owner, caller_is_owner. by rewrite Hu, bool_decide_eq_true_2.
  - left. unfold check_owner. destruct (caller_is_owner i); [done|]. unfold hub_read.
    by rewrite !bool_decide_eq_true_2 by done; cbn [andb]; case_match.
  - simplify_eq. left. unfold check_owner. destruct (caller_is_owner i); [done|]. destruct (hub_read i); [done|].
    destruct (find_grant _ _ _) as [g'|] eqn:E; [done|]. exfalso.
    by eapply (proj1 (find_matching_None _ _ _ _) E).
Qed.

Lemma check_sound i : pd_decision (check i) = Allow → not_denied i ∧ justified i (pd_reason (check i)).
Proof.
  unfold check. rewrite <-explicit_deny_None. destruct (explicit_deny i) as [g|]; [done|]. intros Ha. split; [done|].
  revert Ha. case_match eqn:E1.
  { intros _. rewrite andb_true_iff, bool_decide_eq_true in E1. apply J_lifecycle; tauto. }
  destruct (first_rule _ i) as [[r reason]|] eqn:E2.
  { intros _. apply first_rule_Some in E2 as [? ?]. cbn. by eapply J_system. }
  destruct (bool_decide_reflect (is_Some (pi_verified_authority_id i))) as [E3|E3]; [intros _; by apply J_authority|].
  destruct (accountable_owner i) as [owner|] eqn:E4; [|done]. by apply check_owner_allow.
Qed.

Lemma check_complete i reason : not_denied i → justified i reason → pd_decision (check i) = Allow.
Proof.
  intros Hd Hj. unfold check. rewrite (proj2 (explicit_deny_None i)) by done.
  case_match eqn:E1; [done|]. destruct (first_rule _ i) as [[r reason']|] eqn:E2; [done|].
  destruct (bool_decide_reflect (is_Some (pi_verified_authority_id i))) as [E3|E3]; [done|].
  destruct (accountable_owner i) as [owner|] eqn:E4.
  - destruct (check_owner_complete i owner reason E4 Hj) as [?|[[H1 H2]|[?|?]]];
      [done| |rewrite E2 in *; by apply is_Some_None in H0|done].
    by rewrite H1, bool_decide_eq_true_2 in E1.
  - destruct Hj as [H1 H2|r reason Hr Ha|?| | |]; try congruence.
    + by rewrite H1, bool_decide_eq_true_2 in E1.
    + rewrite first_rule_None in E2. by rewrite E2 in Ha.
Qed.

(** C16 (safety): the engine allows an invocation exactly when no active denial
    of the owner covers it and there is a ground to allow it: the control of its
    own lifecycle, a system rule for that action, a verified proof of authority,
    the owner as caller, a safe read over a hub link, or an admissible grant that
    covers it; the reason it reports is such a ground. *)
Theorem check_allow_iff i :
  (pd_decision (check i) = Allow ↔ not_denied i ∧ ∃ reason, justified i reason) ∧
  (pd_decision (check i) = Allow → justified i (pd_reason (check i))).
Proof.
  split; [split|].
  - intros [? ?]%check_sound. eauto.
  - intros [? [reason ?]]. by eapply check_complete.
  - by intros [_ ?]%check_sound.
Qed.

Lemma covers_cons i effect p g0 grants s g :
  covers i effect p (g0 :: grants) s g ↔
  covers i effect p [g0] s g ∨ covers i effect p grants s g.
Proof. unfold covers. rewrite elem_of_cons, list_elem_of_singleton. tauto. Qed.

Lemma covers_effect i effect p g0 s g : g_effect g0 ≠ effect → ¬ covers i effect p [g0] s g.
Proof.
  intros He (->%list_elem_of_singleton & Ha & _). unfold grant_applies in Ha.
  by rewrite bool_decide_eq_false_2 in Ha.
Qed.

Lemma not_denied_cons i g grants :
  not_denied (with_grants i (g :: grants)) → not_denied (with_grants i grants).
Proof.
  intros Hn owner s g' Ho Hc. apply (Hn owner s g' Ho). cbn in *. apply covers_cons. by right.
Qed.

Lemma not_denied_allow i g grants : g_effect g = EffAllow →
  not_denied (with_grants i grants) → not_denied (with_grants i (g :: grants)).
Proof.
  intros He Hn owner s g' Ho. cbn. rewrite covers_cons. intros [Hc|Hc]; [|by apply (Hn owner s g' Ho)].
  revert Hc. apply covers_effect. congruence.
Qed.

Lemma justified_cons i g grants reason :
  justified (with_grants i grants) reason → justified (with_grants i (g :: grants)) reason.
Proof.
  intros [? ?|r reason' Hr Ha|?|owner' u Ho' Hu Hc|owner' Ho' ? ? ?|owner' s g' Ho' Hc].
  - by apply J_lifecycle.
  - by eapply J_system.
  - by apply J_authority.
  - by eapply J_owner.
  - by eapply J_hub.
  - eapply (J_grant _ owner' s g'); [done|]. cbn in *. apply covers_cons. by right.
Qed.

Lemma justified_deny i g grants reason : g_effect g = EffDeny →
  justified (with_grants i (g :: grants)) reason → justified (with_grants i grants) reason.
Proof.
  intros He [? ?|r reason' Hr Ha|?|owner' u Ho' Hu Hc|owner' Ho' ? ? ?|owner' s g' Ho' Hc].
  - by apply J_lifecycle.
  - by eapply J_system.
  - by apply J_authority.
  - by eapply J_owner.
  - by eapply J_hub.
  - eapply (J_grant _ owner' s g'); [done|]. cbn in *. apply covers_cons in Hc as [Hc|?]; [|done].
    destruct (covers_effect _ EffAllow _ g s g' ltac:(congruence) Hc).
Qed.

(** An additional allow grant never takes an admission away, and an
    additional deny grant never gives one. *)
Theorem check_grants_monotone i g grants :
  (g_effect g = EffAllow → pd_decision (check (with_grants i grants)) = Allow →
     pd_decision (check (with_grants i (g :: grants))) = Allow) ∧
  (g_effect g = EffDeny → pd_decision (check (with_grants i (g :: grants))) = Allow →
     pd_decision (check (with_grants i grants)) = Allow).
Proof.
  split; intros He [Hn Hj]%check_sound.
  - eapply check_complete; [by apply not_denied_allow|by apply justified_cons].
  - eapply check_complete; [by eapply not_denied_cons|by eapply justified_deny].
Qed.
End engine.
