(* ===== verification/AuthorityProof.v ===== *)
(** * Proofs of authority (src/src/daemon/invocation/admission/authority_proof.rs,
    [canonical_json_bytes] of src/src/daemon/ability/descriptors/mod.rs)

    Signed statements that a principal may make an invocation, and their
    verification against the invocation. *)

From Stdlib Require Import String Ascii.
From S2P Require Import Prelude RustStd Text Ura Identity Json World Decision.

Open Scope Z_scope.

(** ** Canonical JSON *)

(** [sort_json_value]: the keys of every object in order. *)
Fixpoint sort_json_value (v : Value) : Value :=
  match v with
  | VObject m =>
      VObject (foldr (λ kv acc, btree_insert kv.1 kv.2 acc) [] (map (λ kv, (kv.1, sort_json_value kv.2)) m))
  | VArray l => VArray (map sort_json_value l)
  | v => v
  end.

(** [canonical_json_bytes]; writing a value does not fail. *)
Definition canonical_json_bytes `{SerdeJson} (v : Value) : string :=
  match to_vec (sort_json_value v) with Ok b => b | Err _ => EmptyString end.

(** The serde names of the enumerations. *)
Definition principal_kind_name (k : PrincipalKind) : string :=
  match k with
  | PUser => "user" | PAgent => "agent" | PToken => "token" | PHub => "hub"
  | PDeviceCustody => "device" | PService => "service" | PAutomation => "automation"
  end.
Definition token_class_name (c : TokenClass) : string :=
  match c with
  | THubLink => "hub_link" | TBrowserSession => "browser_session" | TDevicePairing => "device_pairing"
  | TAutomation => "automation" | TThirdParty => "third_party" | TService => "service"
  end.

(** ** Data *)

Record AuthorityProof := mk_AuthorityProof {
  ap_proof_id : string;
  ap_grant_id : option string;
  ap_permission_request_id : option string;
  ap_owner_user_ura : string;
  ap_principal_kind : PrincipalKind;
  ap_principal_id : string;
  ap_token_id : option string;
  ap_token_class : option TokenClass;
  ap_callee_ura : string;
  ap_subject_ura : string;
  ap_ability_ura : string;
  ap_action : AccessAction;
  ap_nonce : option string;
  ap_canonical_hash : option string;
  ap_session_id : option string;
  ap_session_owner_user_ura : option string;
  ap_allowed_followup_abilities : list string;
  ap_session_expires_at : option string;
  ap_issued_at : string;
  ap_expires_at : string;
  ap_issuer_ura : string;
  ap_audience_ura : string;
  ap_signature : string;
}.

Record AuthorityProofVerificationContext := mk_ProofContext {
  ac_owner_user_ura : string;
  ac_principal_kind : PrincipalKind;
  ac_principal_id : string;
  ac_token_id : option string;
  ac_token_class : option TokenClass;
  ac_callee_ura : string;
  ac_subject_ura : string;
  ac_ability_ura : string;
  ac_action : AccessAction;
  ac_nonce : option string;
  ac_canonical_hash : option string;
  ac_audience_ura : string;
  ac_session_id : option string;
  ac_session_owner_user_ura : option string;
  ac_now : Z;
}.

Inductive AuthorityProofDenyReason :=
| ProofMissing
| ProofExpired
| ProofSignatureInvalid
| ProofIssuerDenied
| ProofAudienceMismatch
| ProofMismatch
| ProofRevoked.

(** The signature scheme and base64 of the libraries. *)
Class Ed25519 := {
  VerifyingKey : Type;
  key_verify : VerifyingKey → string → string → bool;
  base64_decode : string → option string;
}.

(** [AuthorityProofIssuerResolver]. *)
Class IssuerResolver `{Ed25519} := {
  verifying_key_for_issuer : string → option VerifyingKey;
  issuer_authorized_for_owner_ura : string → string → bool;
  referenced_authority_active : AuthorityProof → bool;
}.

(** ** Contents *)

(** [normalized_followup_abilities]. *)
Definition normalized_followup_abilities (abilities : list string) : list string :=
  sort_dedup (base.filter (λ a, a ≠ EmptyString) (trim <$> abilities)).

(** [insert_optional]. *)
Definition insert_optional (m : list (string * Value)) (key : string) (candidate : option string)
  : list (string * Value) :=
  match candidate with
  | Some raw => if blank raw then m else index_insert key (VString raw) m
  | None => m
  end.

Definition canonical_material (p : AuthorityProof) : Value :=
  let abilities := normalized_followup_abilities (ap_allowed_followup_abilities p) in
  let m := [("profile", VString "easynet-authority-proof-v0"); ("proof_id", VString (ap_proof_id p));
            ("owner_user_id", VString (ap_owner_user_ura p));
            ("principal_kind", VString (principal_kind_name (ap_principal_kind p)));
            ("principal_id", VString (ap_principal_id p)); ("callee_ura", VString (ap_callee_ura p));
            ("subject_ura", VString (ap_subject_ura p)); ("ability_ura", VString (ap_ability_ura p));
            ("action", VString (action_str (ap_action p))); ("issued_at", VString (ap_issued_at p));
            ("expires_at", VString (ap_expires_at p)); ("issuer_ura", VString (ap_issuer_ura p));
            ("audience_ura", VString (ap_audience_ura p))] in
  let m := insert_optional m "grant_id" (ap_grant_id p) in
  let m := insert_optional m "permission_request_id" (ap_permission_request_id p) in
  let m := insert_optional m "token_id" (ap_token_id p) in
  let m := match ap_token_class p with
           | Some c => index_insert "token_class" (VString (token_class_name c)) m
           | None => m
           end in
  let m := insert_optional m "nonce" (ap_nonce p) in
  let m := insert_optional m "canonical_hash" (ap_canonical_hash p) in
  let m := insert_optional m "session_id" (ap_session_id p) in
  let m := insert_optional m "session_owner_user_id" (ap_session_owner_user_ura p) in
  let m := if bool_decide (abilities = []) then m
           else index_insert "allowed_followup_abilities" (VArray (VString <$> abilities)) m in
  VObject (insert_optional m "session_expires_at" (ap_session_expires_at p)).

(** [request_scoped_one_time_authority_proof], the same as
    [is_one_time_authority_proof] of access_control.rs. *)
Definition request_scoped_one_time (p : AuthorityProof) : bool :=
  bool_decide (is_Some (ap_permission_request_id p)) && bool_decide (ap_grant_id p = None)
  && bool_decide (ap_session_id p = None).

Definition proof_binds_invocation_identity (p : AuthorityProof) : bool :=
  bool_decide (is_Some (nonblank (ap_nonce p))) || bool_decide (is_Some (nonblank (ap_canonical_hash p))).

(** ** Verification *)

Section verify.
Context `{!UraLib, !Chrono, !SerdeJson, !Ed25519, !IssuerResolver}.

(** [validate_nonzero_user_id] and [validate_user_principal_ura] of this file. *)
Definition proof_user_ura (value field : string) : result string unit :=
  _ ← ensure (negb (blank value || is_all_zero_principal_id value)) field;
  p ← map_err (λ _, field) (parse_ura value);
  ensure (bool_decide (ura_kind p = KUser) && bool_decide (is_Some (ura_user_id p))) field.

(** A runtime identity written without surrounding space. *)
Definition proof_identity (value field : string) : result string unit :=
  identity ← map_err (λ _, field) (RuntimeIdentityUra_parse value);
  ensure (bool_decide (ri_ura identity = value)) field.

(** [validate_identity_contract]. *)
Definition validate_identity_contract (p : AuthorityProof) : result string unit :=
  _ ← proof_user_ura (ap_owner_user_ura p) "owner_user_id";
  _ ← (if bool_decide (ap_principal_kind p = PUser) then proof_user_ura (ap_principal_id p) "principal_id" else Ok tt);
  _ ← match ap_session_owner_user_ura p with
      | Some owner => proof_user_ura owner "session_owner_user_id"
      | None => Ok tt
      end;
  _ ← proof_identity (ap_callee_ura p) "callee_ura";
  _ ← proof_identity (ap_subject_ura p) "subject_ura";
  _ ← proof_identity (ap_issuer_ura p) "issuer_ura";
  proof_identity (ap_audience_ura p) "audience_ura".

(** [validate_verification_context_identity]. *)
Definition validate_verification_context_identity (c : AuthorityProofVerificationContext)
  : result AuthorityProofDenyReason unit :=
  map_err (λ _, ProofMismatch)
    (_ ← proof_user_ura (ac_owner_user_ura c) "owner_user_ura";
     _ ← (if bool_decide (ac_principal_kind c = PUser) then proof_user_ura (ac_principal_id c) "principal_id" else Ok tt);
     _ ← match ac_session_owner_user_ura c with
         | Some owner => proof_user_ura owner "session_owner_user_id"
         | None => Ok tt
         end;
     _ ← proof_identity (ac_callee_ura c) EmptyString;
     _ ← proof_identity (ac_subject_ura c) EmptyString;
     proof_identity (ac_audience_ura c) EmptyString).

(** [verify_not_expired]. *)
Definition verify_not_expired (p : AuthorityProof) (now : Z) : result AuthorityProofDenyReason unit :=
  expires_at ← ok_or (parse_from_rfc3339 (ap_expires_at p)) ProofMismatch;
  _ ← ensure (now <? expires_at) ProofExpired;
  match ap_session_expires_at p with
  | None => Ok tt
  | Some raw =>
      session_expires_at ← ok_or (parse_from_rfc3339 raw) ProofMismatch;
      ensure (now <? session_expires_at) ProofExpired
  end.

(** A field the proof may leave open. *)
Definition open_or_equal (stated actual : option string) : bool :=
  bool_decide (stated = None) || bool_decide (stated = actual).

(** [verify_session_binding_facts]. *)
Definition verify_session_binding_facts (p : AuthorityProof) (c : AuthorityProofVerificationContext)
  : result AuthorityProofDenyReason unit :=
  if bool_decide (is_Some (ap_session_id p)) then
    proof_owner ← ok_or (nonblank (ap_session_owner_user_ura p)) ProofMismatch;
    context_owner ← ok_or (nonblank (ac_session_owner_user_ura c)) ProofMismatch;
    ensure (bool_decide (proof_owner = context_owner)) ProofMismatch
  else ensure (open_or_equal (ap_session_owner_user_ura p) (ac_session_owner_user_ura c)) ProofMismatch.

(** The comparison of the tuple, with [matches_route_binding]. *)
Definition tuple_matches (p : AuthorityProof) (c : AuthorityProofVerificationContext) : bool :=
  bool_decide (ap_owner_user_ura p = ac_owner_user_ura c)
  && bool_decide (ap_principal_kind p = ac_principal_kind c)
  && bool_decide (ap_principal_id p = ac_principal_id c)
  && bool_decide (ap_token_id p = ac_token_id c)
  && bool_decide (ap_token_class p = ac_token_class c)
  && (bool_decide (ap_callee_ura p = ac_callee_ura c) && bool_decide (ap_subject_ura p = ac_subject_ura c)
      && bool_decide (ap_ability_ura p = ac_ability_ura c) && bool_decide (ap_audience_ura p = ac_audience_ura c))
  && bool_decide (ap_action p = ac_action c).

(** [verify_invocation_binding]. *)
Definition verify_invocation_binding (p : AuthorityProof) (c : AuthorityProofVerificationContext)
  : result AuthorityProofDenyReason unit :=
  _ ← ensure (bool_decide (ap_audience_ura p = ac_audience_ura c)) ProofAudienceMismatch;
  _ ← ensure (tuple_matches p c) ProofMismatch;
  _ ← ensure (open_or_equal (ap_nonce p) (ac_nonce c)) ProofMismatch;
  _ ← ensure (open_or_equal (ap_canonical_hash p) (ac_canonical_hash c)) ProofMismatch;
  _ ← ensure (open_or_equal (ap_session_id p) (ac_session_id c)) ProofMismatch;
  _ ← verify_session_binding_facts p c;
  _ ← (if bool_decide (is_Some (ap_session_id p)) then
         let allowed := normalized_followup_abilities (ap_allowed_followup_abilities p) in
         _ ← ensure (negb (bool_decide (allowed = []))) ProofMismatch;
         ensure (bool_decide (ac_ability_ura c ∈ allowed)) ProofMismatch
       else Ok tt);
  ensure (negb (request_scoped_one_time p && negb (proof_binds_invocation_identity p))) ProofMismatch.

(** [decode_signature]: 64 bytes. *)
Definition decode_signature (raw : string) : result AuthorityProofDenyReason string :=
  let raw := trim raw in
  let encoded := default raw (strip_prefix "ed25519:" raw) in
  bytes ← ok_or (base64_decode encoded) ProofSignatureInvalid;
  _ ← ensure (bool_decide (String.length bytes = 64%nat)) ProofSignatureInvalid;
  Ok bytes.

(** [verify_signature]. *)
Definition verify_signature (p : AuthorityProof) : result AuthorityProofDenyReason unit :=
  key ← ok_or (verifying_key_for_issuer (ap_issuer_ura p)) ProofIssuerDenied;
  signature ← decode_signature (ap_signature p);
  ensure (key_verify key (canonical_json_bytes (canonical_material p)) signature) ProofSignatureInvalid.

(** [AuthorityProofVerifier::verify]. *)
Definition verify_proof (proof : option AuthorityProof) (c : AuthorityProofVerificationContext)
  : result AuthorityProofDenyReason unit :=
  p ← ok_or proof ProofMissing;
  _ ← map_err (λ _, ProofMismatch) (validate_identity_contract p);
  _ ← validate_verification_context_identity c;
  _ ← verify_not_expired p (ac_now c);
  _ ← verify_invocation_binding p c;
  _ ← verify_signature p;
  _ ← ensure (issuer_authorized_for_owner_ura (ap_issuer_ura p) (ap_owner_user_ura p)) ProofIssuerDenied;
  ensure (referenced_authority_active p) ProofRevoked.

(** ** What a verified proof says *)

(** The deadline of the proof, and of its session if it states one. *)
Definition unexpired (p : AuthorityProof) (now : Z) : Prop :=
  (∃ t, parse_from_rfc3339 (ap_expires_at p) = Some t ∧ now < t) ∧
  ∀ raw, ap_session_expires_at p = Some raw → ∃ t, parse_from_rfc3339 raw = Some t ∧ now < t.

(** The invocation is the one the proof is about. *)
Definition bound_to (p : AuthorityProof) (c : AuthorityProofVerificationContext) : Prop :=
  ap_owner_user_ura p = ac_owner_user_ura c ∧ ap_principal_kind p = ac_principal_kind c ∧
  ap_principal_id p = ac_principal_id c ∧ ap_token_id p = ac_token_id c ∧
  ap_token_class p = ac_token_class c ∧ ap_callee_ura p = ac_callee_ura c ∧
  ap_subject_ura p = ac_subject_ura c ∧ ap_ability_ura p = ac_ability_ura c ∧
  ap_audience_ura p = ac_audience_ura c ∧ ap_action p = ac_action c ∧
  (is_Some (ap_nonce p) → ap_nonce p = ac_nonce c) ∧
  (is_Some (ap_canonical_hash p) → ap_canonical_hash p = ac_canonical_hash c).

(** A session proof is used in its session, by the session's owner, for an
    ability it lists. *)
Definition session_bound (p : AuthorityProof) (c : AuthorityProofVerificationContext) : Prop :=
  is_Some (ap_session_id p) →
  ap_session_id p = ac_session_id c ∧
  (∃ owner, nonblank (ap_session_owner_user_ura p) = Some owner ∧
            nonblank (ac_session_owner_user_ura c) = Some owner) ∧
  ∃ ability, ability ∈ ap_allowed_followup_abilities p ∧ trim ability = ac_ability_ura c.

(** A one-time proof names the invocation by nonce or hash. *)
Definition one_time_bound (p : AuthorityProof) (c : AuthorityProofVerificationContext) : Prop :=
  request_scoped_one_time p = true →
  (∃ n, ap_nonce p = Some n ∧ blank n = false ∧ ac_nonce c = Some n) ∨
  (∃ h, ap_canonical_hash p = Some h ∧ blank h = false ∧ ac_canonical_hash c = Some h).

(** The issuer's key signed the contents. *)
Definition signed_by_issuer (p : AuthorityProof) : Prop :=
  ∃ key signature, verifying_key_for_issuer (ap_issuer_ura p) = Some key ∧
    decode_signature (ap_signature p) = Ok signature ∧
    key_verify key (canonical_json_bytes (canonical_material p)) signature = true.

Lemma open_or_equal_Ok stated actual : open_or_equal stated actual = true → is_Some stated → stated = actual.
Proof.
  unfold open_or_equal. rewrite orb_true_iff, !bool_decide_eq_true.
  intros [->|?] Hs; [by apply is_Some_None in Hs|done].
Qed.

Lemma verify_not_expired_Ok p now : verify_not_expired p now = Ok tt → unexpired p now.
Proof.
  unfold verify_not_expired. intros. inv_ok. split.
  - exists x. split; [done|]. lia.
  - intros raw Hraw. rewrite Hraw in *. inv_ok. eexists. split; [done|lia].
Qed.

Lemma tuple_matches_bound p c :
  tuple_matches p c = true → open_or_equal (ap_nonce p) (ac_nonce c) = true →
  open_or_equal (ap_canonical_hash p) (ac_canonical_hash c) = true → bound_to p c.
Proof.
  unfold tuple_matches, bound_to. rewrite !andb_true_iff, !bool_decide_eq_true.
  intros. destruct_and!. split_and!; auto using open_or_equal_Ok.
Qed.

Lemma nonblank_Some o s : nonblank o = Some s → ∃ raw, o = Some raw ∧ blank raw = false ∧ trim raw = s.
Proof.
  unfold nonblank, blank. destruct o as [raw|]; [|done]. cbn. destruct (is_empty (trim raw)) eqn:E; [done|].
  intros [= <-]. by exists raw.
Qed.

Lemma sort_dedup_elem l x : x ∈ sort_dedup l → x ∈ l.
Proof.
  unfold sort_dedup. cut (∀ acc : list (string * unit),
    x ∈ (foldl (λ m s, btree_insert s tt m) acc l).*1 → x ∈ acc.*1 ∨ x ∈ l).
  { intros Hgen [Hx|?]%Hgen; [by apply elem_of_nil in Hx|done]. }
  induction l as [|y l IH]; intros acc; cbn; [by left|].
  intros [([k u] & -> & Hk)%list_elem_of_fmap|?]%IH; [|right; by right].
  apply elem_of_btree_insert in Hk as [[= -> _]|Hk]; [right; left|left]. by apply (list_elem_of_fmap_2 fst) in Hk.
Qed.

Lemma verify_session_Ok p c :
  open_or_equal (ap_session_id p) (ac_session_id c) = true → verify_session_binding_facts p c = Ok tt →
  (is_Some (ap_session_id p) → ac_ability_ura c ∈ normalized_followup_abilities (ap_allowed_followup_abilities p)) →
  session_bound p c.
Proof.
  intros Hid Hs Ha Hsome. split; [by apply open_or_equal_Ok|]. unfold verify_session_binding_facts in Hs.
  rewrite bool_decide_eq_true_2 in Hs by done. inv_ok. apply bool_decide_eq_true in Hs as ->. split; [eauto|].
  specialize (Ha Hsome). unfold normalized_followup_abilities in Ha.
  apply sort_dedup_elem, list_elem_of_filter in Ha as [_ (a & -> & ?)%list_elem_of_fmap]. eauto.
Qed.

Lemma one_time_bound_Ok p c :
  bound_to p c → negb (request_scoped_one_time p && negb (proof_binds_invocation_identity p)) = true →
  one_time_bound p c.
Proof.
  intros (_ & _ & _ & _ & _ & _ & _ & _ & _ & _ & Hn & Hh) Hb Hone. rewrite Hone in Hb. cbn in Hb.
  rewrite negb_involutive in Hb. unfold proof_binds_invocation_identity in Hb.
  apply orb_true_iff in Hb as [[s (raw & Er & Hr & _)%nonblank_Some]%bool_decide_eq_true|
                               [s (raw & Er & Hr & _)%nonblank_Some]%bool_decide_eq_true]; [left|right]; exists raw.
  - rewrite <-Hn; eauto.
  - rewrite <-Hh; eauto.
Qed.

Lemma verify_binding_Ok p c : verify_invocation_binding p c = Ok tt →
  bound_to p c ∧ session_bound p c ∧ one_time_bound p c.
Proof.
  unfold verify_invocation_binding. intros. inv_ok.
  assert (Hb : bound_to p c) by (by apply tuple_matches_bound). split; [done|]. split; [|by apply one_time_bound_Ok].
  apply verify_session_Ok; [done..|]. intros Hs. rewrite bool_decide_eq_true_2 in * by done. inv_ok.
  by eapply bool_decide_eq_true_1.
Qed.

Lemma verify_signature_Ok p : verify_signature p = Ok tt → signed_by_issuer p.
Proof. unfold verify_signature. intros. inv_ok. by exists x, x0. Qed.

(** A proof that verifies is present, unexpired, about exactly this
    invocation (owner, principal, token, callee, subject, ability, audience and
    action, and the nonce and hash it states), used in its session for an ability
    it lists if it is a session proof, bound to the invocation by nonce or hash if
    it is for one use, signed by a key of its issuer, who may speak for the owner,
    and backed by an authority that is still active. *)
Theorem verify_proof_sound o c : verify_proof o c = Ok tt →
  ∃ p, o = Some p ∧ unexpired p (ac_now c) ∧ bound_to p c ∧ session_bound p c ∧ one_time_bound p c ∧
    signed_by_issuer p ∧ issuer_authorized_for_owner_ura (ap_issuer_ura p) (ap_owner_user_ura p) = true ∧
    referenced_authority_active p = true.
Proof.
  unfold verify_proof. intros. inv_ok. exists x.
  match goal with Hb : verify_invocation_binding _ _ = _ |- _ => apply verify_binding_Ok in Hb as (? & ? & ?) end.
  split_and!; auto using verify_not_expired_Ok, verify_signature_Ok.
Qed.
End verify.
