(* ===== verification/AccessControl.v ===== *)
(** * The access-control store (src/src/daemon/persistence/access_control.rs)

    Grants, permission requests, proofs of authority and audit records of one
    owner: maps in memory over a journal on disk whose records are chained by
    hashes and from which the maps are rebuilt.  Operations run in a monad with
    the store and the world as its state; what was changed before an error stays
    changed, as with [&mut self] and [?].  Clock, files, serde and TOML are
    interfaces. *)

From Stdlib Require Import String Ascii.
From S2P Require Import Prelude RustStd Text Ura Identity Json World Decision Grants AuthorityProof.
From S2P Require Retry.

Open Scope Z_scope.

(** ** Data *)

Definition STORE_DIR : string := "access-control".
Definition GRANTS_FILE : string := "grants.jsonl".
Definition REQUESTS_FILE : string := "permission_requests.jsonl".
Definition PROOFS_FILE : string := "authority_proofs.jsonl".
Definition AUDIT_FILE : string := "audit.jsonl".
Definition MANIFEST_FILE : string := "policy_store.toml".
Definition RECORD_PROFILE : string := "canonical-json-v0".
Definition STORE_FORMAT : string := "easynet-rfc014-policy-store-v0".
Definition SCHEMA_VERSION : Z := 1.
Definition ZERO_HASH : string :=
  "sha256:0000000000000000000000000000000000000000000000000000000000000000".

Record PolicyStoreSection := mk_PolicyStoreSection {
  ps_format : string;
  ps_schema_version : Z;
  ps_owner_user_ura : string;
  ps_created_at : string;
  ps_last_compacted_at : string;
  ps_head_hash : string;
}.
Record CanonicalizationSection := mk_CanonicalizationSection {
  cs_record_profile : string;
  cs_hash_algorithm : string;
}.
Record PolicyStoreFiles := mk_PolicyStoreFiles {
  pf_grants : string;
  pf_permission_requests : string;
  pf_authority_proofs : string;
  pf_audit : string;
}.
Record AccessControlStoreManifest := mk_Manifest {
  mf_policy_store : PolicyStoreSection;
  mf_canonicalization : CanonicalizationSection;
  mf_files : PolicyStoreFiles;
}.

Inductive GrantMutation := MutCreated | MutRevoked | MutExpired | MutConsumed | MutEdited.

Record GrantAuditRecord := mk_GrantAuditRecord {
  ga_audit_record_id : string;
  ga_grant_id : string;
  ga_mutation : GrantMutation;
  ga_owner_user_ura : string;
  ga_principal_id : string;
  ga_token_id : option string;
  ga_actions : list AccessAction;
  ga_ability_ura_pattern : option string;
  ga_subject_ura_pattern : option string;
  ga_effect : PermissionEffect;
  ga_actor_ura : string;
  ga_timestamp : string;
  ga_reason : option string;
  ga_previous_grant_hash : string;
  ga_new_grant_hash : string;
}.

Record AuthorityBindingGrantResult := mk_GrantResult {
  gr_grant : PermissionGrant;
  gr_idempotent_replay : bool;
  gr_audit_record_id : string;
}.

Record PermissionRequestResolutionResult := mk_ResolutionResult {
  rr_request : PermissionRequest;
  rr_created_grant : option PermissionGrant;
  rr_authority_proof : option AuthorityProof;
  rr_idempotent_replay : bool;
}.

Record AccessControlCompactionPolicy := mk_CompactionPolicy {
  cp_grant_mutation_audit_retention_days : Z;
  cp_prompt_audit_retention_days : Z;
  cp_denied_admission_retention_days : Z;
  cp_complete_nested_trace_retention_days : Z;
  cp_redacted_projection_retention_days : Z;
}.

(** [AccessControlCompactionPolicy::default]. *)
Definition default_compaction_policy : AccessControlCompactionPolicy := mk_CompactionPolicy 365 180 90 30 180.

Record CompactionCheckpoint := mk_Checkpoint {
  ck_checkpoint_id : string;
  ck_compacted_at : string;
  ck_last_source_sequence : Z;
  ck_last_source_record_hash : string;
  ck_retained_active_grant_hashes : list string;
  ck_retained_pending_request_ids : list string;
  ck_retained_unexpired_proof_ids : list string;
  ck_retained_audit_record_ids : list string;
  ck_retention_floor : AccessControlCompactionPolicy;
}.

(** [AccessControlCompactionResult]: the head after it and what is retained. *)
Record AccessControlCompactionResult := mk_CompactionResult {
  cr_checkpoint : CompactionCheckpoint;
  cr_new_segment_head_hash : string;
}.

Inductive RecordKind := RKGrant | RKRequest | RKProof | RKAudit | RKCheckpoint.
Inductive RecordOperation :=
| OpCreated | OpRevoked | OpExpired | OpEdited | OpApproved | OpDenied | OpCancelled | OpConsumed | OpCompacted.

#[global] Instance RecordKind_eq_dec : EqDecision RecordKind.
Proof. solve_decision. Defined.

Record JournalRecord := mk_JournalRecord {
  jr_record_kind : RecordKind;
  jr_schema_version : Z;
  jr_sequence : Z;
  jr_owner_user_ura : string;
  jr_record_id : string;
  jr_operation : RecordOperation;
  jr_payload : Value;
  jr_previous_record_hash : string;
  jr_record_hash : string;
  jr_created_at : string;
  jr_actor_ura : string;
}.

(** [BTreeMap]s are association lists in key order. *)
Record AccessControlStore := mk_Store {
  ac_root : string;
  ac_manifest : AccessControlStoreManifest;
  ac_grants : list (string * PermissionGrant);
  ac_requests : list (string * PermissionRequest);
  ac_proofs : list (string * AuthorityProof);
  ac_consumed_proof_ids : gset string;
  ac_audit : list (string * GrantAuditRecord);
  ac_last_sequence : Z;
  ac_head_hash : string;
}.

(** ** Interfaces *)

(** The derived conversions to and from JSON values, and the line of a record:
    its canonical JSON, read back by [from_str]. *)
Class PolicyCodec := {
  grant_value : PermissionGrant → Value;
  grant_from_value : Value → result string PermissionGrant;
  request_value : PermissionRequest → Value;
  request_from_value : Value → result string PermissionRequest;
  proof_value : AuthorityProof → Value;
  proof_from_value : Value → result string AuthorityProof;
  audit_value : GrantAuditRecord → Value;
  audit_from_value : Value → result string GrantAuditRecord;
  checkpoint_value : CompactionCheckpoint → Value;
  checkpoint_from_value : Value → result string CompactionCheckpoint;
  constraints_value : option PermissionConstraints → Value;
  record_line : JournalRecord → string;
  record_from_line : string → result string JournalRecord;
}.

(** What serde promises of derived conversions: they round-trip. *)
Class PolicyCodecLaws `{PolicyCodec} : Prop := {
  grant_codec g : grant_from_value (grant_value g) = Ok g;
  request_codec r : request_from_value (request_value r) = Ok r;
  proof_codec p : proof_from_value (proof_value p) = Ok p;
  audit_codec a : audit_from_value (audit_value a) = Ok a;
  checkpoint_codec c : checkpoint_from_value (checkpoint_value c) = Ok c;
  record_codec r : record_from_line (record_line r) = Ok r;
  record_line_not_blank r : blank (record_line r) = false;
}.

(** The clock and the files of a directory; a file that does not exist has no
    lines, and a manifest that does not exist is [None]. *)
Class PolicyWorld (W : Type) := {
  utc_now : st W Z;
  append_line : string → string → st W (result string unit);
  read_lines : string → W → result string (list string);
  write_manifest_file : string → AccessControlStoreManifest → st W (result string unit);
  read_manifest_file : string → W → result string (option AccessControlStoreManifest);
}.

(** ** The monad *)

Definition acm (W A : Type) : Type := AccessControlStore * W → result string A * (AccessControlStore * W).

#[global] Instance acm_ret W : MRet (acm W) := λ A a s, (Ok a, s).
#[global] Instance acm_bind W : MBind (acm W) := λ A B f m s,
  match m s with
  | (Ok a, s') => f a s'
  | (Err e, s') => (Err e, s')
  end.

Definition lift_result {W A} (r : result string A) : acm W A := λ s, (r, s).
Definition get_store {W} : acm W AccessControlStore := λ s, (Ok s.1, s).
Definition modify {W} (f : AccessControlStore → AccessControlStore) : acm W unit := λ s, (Ok tt, (f s.1, s.2)).
Definition io {W A} (m : st W A) : acm W A := λ s, let '(a, w) := m s.2 in (Ok a, (s.1, w)).
Definition io_result {W A} (m : st W (result string A)) : acm W A := λ s, let '(a, w) := m s.2 in (a, (s.1, w)).

(** Updates of the store. *)
Definition set_grants (f : list (string * PermissionGrant) → list (string * PermissionGrant))
    (s : AccessControlStore) : AccessControlStore :=
  mk_Store (ac_root s) (ac_manifest s) (f (ac_grants s)) (ac_requests s) (ac_proofs s)
    (ac_consumed_proof_ids s) (ac_audit s) (ac_last_sequence s) (ac_head_hash s).
Definition set_requests (f : list (string * PermissionRequest) → list (string * PermissionRequest))
    (s : AccessControlStore) : AccessControlStore :=
  mk_Store (ac_root s) (ac_manifest s) (ac_grants s) (f (ac_requests s)) (ac_proofs s)
    (ac_consumed_proof_ids s) (ac_audit s) (ac_last_sequence s) (ac_head_hash s).
Definition set_proofs (f : list (string * AuthorityProof) → list (string * AuthorityProof))
    (s : AccessControlStore) : AccessControlStore :=
  mk_Store (ac_root s) (ac_manifest s) (ac_grants s) (ac_requests s) (f (ac_proofs s))
    (ac_consumed_proof_ids s) (ac_audit s) (ac_last_sequence s) (ac_head_hash s).
Definition set_consumed (f : gset string → gset string) (s : AccessControlStore) : AccessControlStore :=
  mk_Store (ac_root s) (ac_manifest s) (ac_grants s) (ac_requests s) (ac_proofs s)
    (f (ac_consumed_proof_ids s)) (ac_audit s) (ac_last_sequence s) (ac_head_hash s).
Definition set_audit (f : list (string * GrantAuditRecord) → list (string * GrantAuditRecord))
    (s : AccessControlStore) : AccessControlStore :=
  mk_Store (ac_root s) (ac_manifest s) (ac_grants s) (ac_requests s) (ac_proofs s)
    (ac_consumed_proof_ids s) (f (ac_audit s)) (ac_last_sequence s) (ac_head_hash s).
Definition set_sequence (n : Z) (s : AccessControlStore) : AccessControlStore :=
  mk_Store (ac_root s) (ac_manifest s) (ac_grants s) (ac_requests s) (ac_proofs s)
    (ac_consumed_proof_ids s) (ac_audit s) n (ac_head_hash s).
Definition set_head (h : string) (s : AccessControlStore) : AccessControlStore :=
  mk_Store (ac_root s) (ac_manifest s) (ac_grants s) (ac_requests s) (ac_proofs s)
    (ac_consumed_proof_ids s) (ac_audit s) (ac_last_sequence s) h.
Definition set_manifest (m : AccessControlStoreManifest) (s : AccessControlStore) : AccessControlStore :=
  mk_Store (ac_root s) m (ac_grants s) (ac_requests s) (ac_proofs s)
    (ac_consumed_proof_ids s) (ac_audit s) (ac_last_sequence s) (ac_head_hash s).

Definition manifest_with_head (h : string) (m : AccessControlStoreManifest) : AccessControlStoreManifest :=
  let p := mf_policy_store m in
  mk_Manifest (mk_PolicyStoreSection (ps_format p) (ps_schema_version p) (ps_owner_user_ura p)
                 (ps_created_at p) (ps_last_compacted_at p) h) (mf_canonicalization m) (mf_files m).
Definition manifest_with_compacted (t : string) (m : AccessControlStoreManifest) : AccessControlStoreManifest :=
  let p := mf_policy_store m in
  mk_Manifest (mk_PolicyStoreSection (ps_format p) (ps_schema_version p) (ps_owner_user_ura p)
                 (ps_created_at p) t (ps_head_hash p)) (mf_canonicalization m) (mf_files m).
Definition store_owner (s : AccessControlStore) : string := ps_owner_user_ura (mf_policy_store (ac_manifest s)).

(** Updates of a grant. *)
Definition grant_with_state (g : PermissionGrant) (state : PermissionGrantState)
    (review last_used updated revoked reason : option string) : PermissionGrant :=
  mk_PermissionGrant (g_grant_id g) (g_owner_user_ura g) (g_principal_kind g) (g_principal_id g)
    (g_token_id g) (g_token_class g) (g_session_id g) (g_session_expires_at g) (g_callee_ura g)
    (g_subject_ura_pattern g) (g_ability_ura_pattern g) (g_actions g) (g_constraints g) (g_effect g)
    (g_lifetime g) state (g_expires_at g) review (g_last_reviewed_at g) last_used
    (g_created_by g) (g_created_at g) updated revoked reason.

(** ** Names and files *)

Definition record_kind_name (k : RecordKind) : string :=
  match k with
  | RKGrant => "permission_grant" | RKRequest => "permission_request" | RKProof => "authority_proof"
  | RKAudit => "audit" | RKCheckpoint => "checkpoint"
  end.
Definition record_operation_name (o : RecordOperation) : string :=
  match o with
  | OpCreated => "created" | OpRevoked => "revoked" | OpExpired => "expired" | OpEdited => "edited"
  | OpApproved => "approved" | OpDenied => "denied" | OpCancelled => "cancelled"
  | OpConsumed => "consumed" | OpCompacted => "compacted"
  end.
Definition mutation_name (m : GrantMutation) : string :=
  match m with
  | MutCreated => "created" | MutRevoked => "revoked" | MutExpired => "expired"
  | MutConsumed => "consumed" | MutEdited => "edited"
  end.
Definition effect_name (e : PermissionEffect) : string := match e with EffAllow => "allow" | EffDeny => "deny" end.
Definition lifetime_name (l : PermissionLifetime) : string :=
  match l with Once => "once" | Session => "session" | Ttl => "ttl" | Permanent => "permanent" end.
Definition option_value (o : option string) : Value := match o with Some s => VString s | None => VNull end.
Definition actions_value (l : list AccessAction) : Value := VArray ((λ a, VString (action_str a)) <$> l).

Definition file_for_kind (k : RecordKind) : string :=
  match k with
  | RKGrant => GRANTS_FILE
  | RKRequest => REQUESTS_FILE
  | RKProof => PROOFS_FILE
  | RKAudit | RKCheckpoint => AUDIT_FILE
  end.

(** [root.join(file)]. *)
Definition join (root file : string) : string := root +:+ "/" +:+ file.

Section store.
Context {W : Type} `{!UraLib, !Chrono, !SerdeJson, !Sha256, !PolicyCodec, !PolicyWorld W}.

(** ** Hashes *)

(** [sha256_value]. *)
Definition sha256_value (v : Value) : string := "sha256:" +:+ Retry.hex_encode (sha256 (canonical_json_bytes v)).

Definition grant_hash (g : PermissionGrant) : string := sha256_value (grant_value g).

(** The value of a record without its hash, and [compute_record_hash]. *)
Definition record_material (r : JournalRecord) : Value :=
  VObject [("record_kind", VString (record_kind_name (jr_record_kind r)));
           ("schema_version", VInt (jr_schema_version r)); ("sequence", VInt (jr_sequence r));
           ("owner_user_ura", VString (jr_owner_user_ura r)); ("record_id", VString (jr_record_id r));
           ("operation", VString (record_operation_name (jr_operation r))); ("payload", jr_payload r);
           ("previous_record_hash", VString (jr_previous_record_hash r));
           ("created_at", VString (jr_created_at r)); ("actor_ura", VString (jr_actor_ura r))].
Definition compute_record_hash (r : JournalRecord) : string := sha256_value (record_material r).

Definition verify_record_hash (r : JournalRecord) : result string unit :=
  ensure (bool_decide (compute_record_hash r = jr_record_hash r)) "policy journal record hash mismatch".

Definition grant_idempotency_key (g : PermissionGrant) : string :=
  sha256_value (VObject
    [("owner_user_id", VString (g_owner_user_ura g));
     ("principal_kind", VString (principal_kind_name (g_principal_kind g)));
     ("principal_id", VString (g_principal_id g)); ("token_id", option_value (g_token_id g));
     ("callee_ura", option_value (g_callee_ura g));
     ("subject_ura_pattern", option_value (g_subject_ura_pattern g));
     ("ability_ura_pattern", option_value (g_ability_ura_pattern g));
     ("actions", actions_value (g_actions g)); ("constraints", constraints_value (g_constraints g));
     ("effect", VString (effect_name (g_effect g))); ("lifetime", VString (lifetime_name (g_lifetime g)));
     ("expires_at", option_value (g_expires_at g)); ("created_by", VString (g_created_by g))]).

Definition permission_request_idempotency_key (r : PermissionRequest) : string :=
  sha256_value (VObject
    [("owner_user_id", VString (pr_owner_user_ura r)); ("principal_id", VString (pr_principal_id r));
     ("token_id", option_value (pr_token_id r)); ("callee_ura", VString (pr_callee_ura r));
     ("subject_ura", VString (pr_subject_ura r)); ("ability_ura", VString (pr_ability_ura r));
     ("action", VString (action_str (pr_action r))); ("canonical_hash", option_value (pr_canonical_hash r));
     ("nonce", option_value (pr_nonce r))]).

(** ** Validation *)

Definition validate_principal_id_for_kind (kind : PrincipalKind) (value field : string) : result string unit :=
  match kind with
  | PUser => validate_user_principal_ura value field
  | PAgent =>
      p ← map_err (λ e, field +:+ " must be a canonical Agent URA: " +:+ e) (parse_ura value);
      ensure (bool_decide (ura_kind p = KAgent)) (field +:+ " must be a canonical Agent URA")
  | _ => Ok tt
  end.

Definition reject_broad_pattern (pattern : option string) : result string unit :=
  match trim <$> pattern with
  | None => Ok tt
  | Some pattern =>
      ensure (negb (bool_decide (pattern ∈ ["*"; "device.*"; "manage.*"; "identity.*"; "authority.*"; "policy.*"])))
        ("broad ability pattern `" +:+ pattern +:+ "` requires a later administrative RFC")
  end.

Definition reject_unenforceable_constraints (c : option PermissionConstraints) : result string unit :=
  match c with
  | None => Ok tt
  | Some c =>
      ensure (negb (bool_decide (is_Some (pc_args_schema_filter c)) || bool_decide (is_Some (pc_max_duration_ms c))
                    || bool_decide (is_Some (pc_max_invocations c)) || bool_decide (is_Some (pc_requires_user_present c))
                    || negb (bool_decide (pc_resource_types c = []))))
        "grant constraints are not yet enforceable by this daemon admission profile"
  end.

(** An optional timestamp that must read. *)
Definition readable_time (o : option string) : bool :=
  match o with Some raw => bool_decide (is_Some (parse_from_rfc3339 raw)) | None => true end.

(** The session part of [validate_grant]. *)
Definition validate_grant_session (g : PermissionGrant) (created_at : Z) : result string unit :=
  if bool_decide (g_lifetime g = Session) then
    session_id ← ok_or (nonblank (g_session_id g)) "PermissionGrant lifetime=session requires session_id";
    _ ← ensure (is_canonical_session_authority_id session_id) "PermissionGrant session_id must be canonical";
    raw ← ok_or (nonblank (g_session_expires_at g)) "PermissionGrant lifetime=session requires session_expires_at";
    session_expires_at ← ok_or (parse_from_rfc3339 raw) "PermissionGrant session_expires_at must be RFC3339";
    ensure (created_at <? session_expires_at) "PermissionGrant session_expires_at must be after created_at"
  else ensure (negb (bool_decide (is_Some (g_session_id g)) || bool_decide (is_Some (g_session_expires_at g))))
         "PermissionGrant session_id/session_expires_at require lifetime=session".

(** A field that may be absent and holds no placeholder. *)
Definition no_placeholder (o : option string) : bool :=
  match o with Some v => negb (contains_all_zero_principal_placeholder v) | None => true end.

Definition validate_grant (g : PermissionGrant) : result string unit :=
  _ ← ensure (negb (blank (g_grant_id g) || blank (g_owner_user_ura g) || blank (g_principal_id g)
                    || bool_decide (g_actions g = []) || blank (g_created_by g) || blank (g_created_at g)))
        "PermissionGrant requires grant_id, owner_user_id, principal_id, actions, created_by, and created_at";
  _ ← validate_user_principal_ura (g_owner_user_ura g) "PermissionGrant owner_user_id";
  _ ← validate_principal_id_for_kind (g_principal_kind g) (g_principal_id g) "PermissionGrant principal_id";
  _ ← validate_runtime_identity_ura (g_created_by g) "PermissionGrant created_by";
  _ ← ensure (no_placeholder (g_callee_ura g))
        "PermissionGrant callee_ura must not contain the all-zero principal placeholder";
  _ ← ensure (no_placeholder (g_subject_ura_pattern g))
        "PermissionGrant subject_ura_pattern must not contain the all-zero principal placeholder";
  _ ← reject_broad_pattern (g_ability_ura_pattern g);
  _ ← reject_unenforceable_constraints (g_constraints g);
  created_at ← ok_or (parse_from_rfc3339 (g_created_at g)) "PermissionGrant created_at must be RFC3339";
  _ ← ensure (readable_time (g_expires_at g)) "PermissionGrant expires_at must be RFC3339";
  _ ← ensure (negb (bool_decide (g_lifetime g = Ttl) && bool_decide (g_expires_at g = None)))
        "PermissionGrant lifetime=ttl requires expires_at";
  _ ← validate_grant_session g created_at;
  _ ← ensure (negb (bool_decide (g_lifetime g = Once) && bool_decide (is_Some (g_last_used_at g))
                    && bool_decide (g_state g = GActive)))
        "PermissionGrant lifetime=once cannot be active after last_used_at is set";
  _ ← ensure (readable_time (g_review_required_after g)) "PermissionGrant review_required_after must be RFC3339";
  _ ← ensure (readable_time (g_last_reviewed_at g)) "PermissionGrant last_reviewed_at must be RFC3339";
  ensure (readable_time (g_last_used_at g)) "PermissionGrant last_used_at must be RFC3339".

Definition validate_compaction_policy (p : AccessControlCompactionPolicy) : result string unit :=
  _ ← ensure (365 <=? cp_grant_mutation_audit_retention_days p) "grant mutation audit retention must be at least 365 days";
  _ ← ensure (180 <=? cp_prompt_audit_retention_days p) "prompt audit retention must be at least 180 days";
  _ ← ensure (90 <=? cp_denied_admission_retention_days p) "denied admission diagnostics retention must be at least 90 days";
  _ ← ensure (30 <=? cp_complete_nested_trace_retention_days p) "complete nested trace retention must be at least 30 days";
  ensure (180 <=? cp_redacted_projection_retention_days p) "redacted projection retention must be at least 180 days".

Definition validate_manifest (m : AccessControlStoreManifest) (owner_user_ura : string) : result string unit :=
  _ ← validate_user_principal_ura owner_user_ura "requested policy store owner_user_id";
  _ ← validate_user_principal_ura (ps_owner_user_ura (mf_policy_store m)) "manifest policy store owner_user_id";
  _ ← ensure (bool_decide (ps_format (mf_policy_store m) = STORE_FORMAT)
              && bool_decide (ps_schema_version (mf_policy_store m) = SCHEMA_VERSION)
              && bool_decide (cs_record_profile (mf_canonicalization m) = RECORD_PROFILE)
              && bool_decide (cs_hash_algorithm (mf_canonicalization m) = "sha256"))
        "unsupported RFC-014 policy store manifest";
  ensure (bool_decide (ps_owner_user_ura (mf_policy_store m) = owner_user_ura))
    ("policy store owner mismatch: manifest=" +:+ ps_owner_user_ura (mf_policy_store m) +:+
     " requested=" +:+ owner_user_ura).

(** [normalize_grant_for_create]. *)
Definition normalize_grant_for_create (g : PermissionGrant) : result string PermissionGrant :=
  let active review :=
    grant_with_state g GActive review (g_last_used_at g) (g_updated_at g) (g_revoked_at g) (g_reason g) in
  if bool_decide (g_effect g = EffAllow) && bool_decide (g_lifetime g = Permanent)
     && bool_decide (g_review_required_after g = None)
     && existsb (λ a, match a with AStream | AManage | AGrant => true | _ => false end) (g_actions g)
  then
    deadline ← ok_or (default_reconfirmation_deadline (active (g_review_required_after g)))
                 "PermissionGrant created_at must be RFC3339";
    Ok (active (Some (to_rfc3339_secs deadline)))
  else Ok (active (g_review_required_after g)).

(** [request_transition_operation]. *)
Definition request_transition_operation (previous : option PermissionRequest) (r : PermissionRequest)
  : result string RecordOperation :=
  match previous with
  | None =>
      if bool_decide (pr_status r = Pending) then Ok OpCreated
      else Err ("initial PermissionRequest record must be pending, got `" +:+ status_debug (pr_status r) +:+ "`")
  | Some previous =>
      if bool_decide (pr_status previous = Pending) then
        match pr_status r with
        | Approved => Ok OpApproved
        | Denied => Ok OpDenied
        | Expired => Ok OpExpired
        | Cancelled => Ok OpCancelled
        | Pending => Err "PermissionRequest cannot remain pending after initial creation"
        end
      else Err ("terminal PermissionRequest cannot transition from `" +:+ status_debug (pr_status previous) +:+
                "` to `" +:+ status_debug (pr_status r) +:+ "`")
  end.

Definition validate_request_timestamps (r : PermissionRequest) : result string unit :=
  created_at ← ok_or (parse_from_rfc3339 (pr_created_at r)) "PermissionRequest created_at must be RFC3339";
  expires_at ← ok_or (parse_from_rfc3339 (pr_expires_at r)) "PermissionRequest expires_at must be RFC3339";
  _ ← ensure (created_at <? expires_at) "PermissionRequest expires_at must be after created_at";
  ensure (readable_time (pr_resolved_at r)) "PermissionRequest resolved_at must be RFC3339".

(** [validate_request_transition]. *)
Definition validate_request_transition (previous : option PermissionRequest) (next : PermissionRequest)
  : result string unit :=
  _ ← ensure (negb (blank (pr_request_id next) || blank (pr_owner_user_ura next) || blank (pr_principal_id next)
                    || blank (pr_caller_ura next) || blank (pr_callee_ura next) || blank (pr_subject_ura next)
                    || blank (pr_ability_ura next)))
        "PermissionRequest identity fields must not be empty";
  _ ← validate_user_principal_ura (pr_owner_user_ura next) "PermissionRequest owner_user_id";
  _ ← validate_principal_id_for_kind (pr_principal_kind next) (pr_principal_id next) "PermissionRequest principal_id";
  _ ← validate_runtime_identity_ura (pr_caller_ura next) "PermissionRequest caller_ura";
  _ ← validate_runtime_identity_ura (pr_callee_ura next) "PermissionRequest callee_ura";
  _ ← validate_runtime_identity_ura (pr_subject_ura next) "PermissionRequest subject_ura";
  _ ← ensure (negb (bool_decide (pr_requested_lifetimes next = [])))
        "PermissionRequest requested_lifetimes must not be empty";
  _ ← ensure (bool_decide (is_Some (nonblank (pr_nonce next))) || bool_decide (is_Some (nonblank (pr_canonical_hash next))))
        "PermissionRequest must bind nonce or canonical_hash";
  _ ← validate_request_timestamps next;
  _ ← request_transition_operation previous next;
  _ ← ensure (negb (bool_decide (pr_status next = Approved) && bool_decide (pr_created_grant_id next = None)
                    && bool_decide (pr_authority_proof_id next = None)))
        "approved PermissionRequest must create a grant or authority proof";
  _ ← ensure (negb (bool_decide (is_Some (pr_created_grant_id next)) && bool_decide (is_Some (pr_authority_proof_id next))))
        "approved PermissionRequest must be backed by exactly one authority source";
  _ ← ensure (bool_decide (pr_status next = Approved)
              || negb (bool_decide (is_Some (pr_created_grant_id next)) || bool_decide (is_Some (pr_authority_proof_id next))))
        "only approved PermissionRequest records may reference authority source ids";
  ensure (negb (is_terminal (pr_status next))
          || bool_decide (is_Some (nonblank (pr_resolver_ura next)))
             && bool_decide (is_Some (nonblank (pr_resolved_at next))))
    "terminal PermissionRequest requires resolver_ura and resolved_at".

Definition validate_authority_proof_identity (p : AuthorityProof) : result string unit :=
  map_err (λ field, "AuthorityProof contains inadmissible " +:+ field) (validate_identity_contract p).

Definition validate_grant_resolves_request (g : PermissionGrant) (r : PermissionRequest) : result string unit :=
  _ ← ensure (bool_decide (g_owner_user_ura g = pr_owner_user_ura r)) "grant owner does not match PermissionRequest owner";
  _ ← ensure (bool_decide (g_principal_kind g = pr_principal_kind r) && bool_decide (g_principal_id g = pr_principal_id r)
              && bool_decide (g_token_id g = pr_token_id r))
        "grant principal does not match PermissionRequest principal";
  _ ← ensure (bool_decide (g_effect g = EffAllow) && bool_decide (g_state g = GActive))
        "PermissionRequest approval grant must be active allow";
  _ ← ensure (bool_decide (pr_action r ∈ g_actions g)) "grant actions do not include PermissionRequest action";
  ensure (bool_decide (g_callee_ura g = Some (pr_callee_ura r))
          && bool_decide (g_subject_ura_pattern g = Some (pr_subject_ura r))
          && bool_decide (g_ability_ura_pattern g = Some (pr_ability_ura r)))
    "grant scope does not exactly match PermissionRequest scope".

(** [proof_binds_permission_request_invocation]. *)
Definition proof_binds_request (p : AuthorityProof) (r : PermissionRequest) : bool :=
  match nonblank (ap_nonce p) with Some n => bool_decide (Some n = pr_nonce r) | None => false end
  || match nonblank (ap_canonical_hash p) with Some h => bool_decide (Some h = pr_canonical_hash r) | None => false end.

Definition validate_proof_resolves_request (p : AuthorityProof) (r : PermissionRequest) : result string unit :=
  _ ← ensure (bool_decide (ap_permission_request_id p = Some (pr_request_id r)))
        "authority proof does not reference PermissionRequest";
  _ ← ensure (bool_decide (ap_owner_user_ura p = pr_owner_user_ura r)
              && bool_decide (ap_principal_kind p = pr_principal_kind r)
              && bool_decide (ap_principal_id p = pr_principal_id r) && bool_decide (ap_token_id p = pr_token_id r)
              && bool_decide (ap_callee_ura p = pr_callee_ura r) && bool_decide (ap_subject_ura p = pr_subject_ura r)
              && bool_decide (ap_ability_ura p = pr_ability_ura r) && bool_decide (ap_action p = pr_action r))
        "authority proof binding does not match PermissionRequest";
  _ ← ensure (open_or_equal (ap_nonce p) (pr_nonce r)) "authority proof nonce does not match PermissionRequest";
  _ ← ensure (open_or_equal (ap_canonical_hash p) (pr_canonical_hash r))
        "authority proof canonical hash does not match PermissionRequest";
  _ ← ensure (proof_binds_request p r) "authority proof must bind PermissionRequest nonce or canonical_hash";
  ensure (bool_decide (is_Some (parse_from_rfc3339 (ap_expires_at p)))) "authority proof expires_at must be RFC3339".

(** [validate_resolution_authority]. *)
Definition validate_resolution_authority (s : AccessControlStore) (r : PermissionRequest) : result string unit :=
  if negb (bool_decide (pr_status r = Approved)) then Ok tt
  else match pr_created_grant_id r, pr_authority_proof_id r with
  | Some grant_id, None =>
      g ← ok_or (assoc grant_id (ac_grants s))
            ("approved PermissionRequest references missing grant `" +:+ grant_id +:+ "`");
      validate_grant_resolves_request g r
  | None, Some proof_id =>
      p ← ok_or (assoc proof_id (ac_proofs s))
            ("approved PermissionRequest references missing authority proof `" +:+ proof_id +:+ "`");
      validate_proof_resolves_request p r
  | None, None => Err "approved PermissionRequest must create a grant or authority proof"
  | Some _, Some _ => Err "approved PermissionRequest must be backed by exactly one authority source"
  end.

(** [validate_all_resolution_authorities]. *)
Definition validate_all_resolution_authorities (s : AccessControlStore) : result string unit :=
  try_fold (λ _ kv, validate_resolution_authority s kv.2) tt (ac_requests s).

Definition pending_request_unexpired_at (r : PermissionRequest) (now : Z) : bool :=
  bool_decide (pr_status r = Pending)
  && match parse_from_rfc3339 (pr_expires_at r) with Some t => now <? t | None => false end.
Definition authority_proof_unexpired_at (p : AuthorityProof) (now : Z) : bool :=
  match parse_from_rfc3339 (ap_expires_at p) with Some t => now <? t | None => false end.
End store.

(** ** The journal *)

Section operations.
Context {W : Type} `{!UraLib, !Chrono, !SerdeJson, !Sha256, !PolicyCodec, !PolicyWorld W}.

(** [now_rfc3339]. *)
Definition now_rfc3339 : acm W string := t ← io utc_now; mret (to_rfc3339_millis t).

(** [write_manifest]. *)
Definition write_manifest : acm W unit :=
  s ← get_store; io_result (write_manifest_file (join (ac_root s) MANIFEST_FILE) (ac_manifest s)).

(** The record [append] makes. *)
Definition next_record (s : AccessControlStore) (kind : RecordKind) (id : string) (operation : RecordOperation)
    (payload : Value) (actor_ura created_at : string) : JournalRecord :=
  let unhashed := mk_JournalRecord kind SCHEMA_VERSION (ac_last_sequence s) (store_owner s) id operation payload
                    (ac_head_hash s) EmptyString created_at actor_ura in
  mk_JournalRecord kind SCHEMA_VERSION (ac_last_sequence s) (store_owner s) id operation payload
    (ac_head_hash s) (compute_record_hash unhashed) created_at actor_ura.

(** [append]; the sequence number is a [u64] and wraps. *)
Definition append (kind : RecordKind) (id : string) (operation : RecordOperation) (payload : Value)
    (actor_ura : string) : acm W unit :=
  _ ← lift_result (validate_runtime_identity_ura actor_ura "policy journal actor_ura");
  _ ← modify (λ s, set_sequence (u64_wrap (ac_last_sequence s + 1)) s);
  created_at ← now_rfc3339;
  s ← get_store;
  let record := next_record s kind id operation payload actor_ura created_at in
  _ ← io_result (append_line (join (ac_root s) (file_for_kind kind)) (record_line record));
  _ ← modify (λ s, set_manifest (manifest_with_head (jr_record_hash record) (ac_manifest s))
                     (set_head (jr_record_hash record) s));
  write_manifest.

(** [audit_record]. *)
Definition audit_record (g : PermissionGrant) (mutation : GrantMutation) (actor_ura previous_hash new_hash : string)
  : acm W GrantAuditRecord :=
  let id := sha256_value (VObject
    [("grant_id", VString (g_grant_id g)); ("mutation", VString (mutation_name mutation));
     ("owner_user_id", VString (g_owner_user_ura g)); ("principal_id", VString (g_principal_id g));
     ("token_id", option_value (g_token_id g)); ("actions", actions_value (g_actions g));
     ("ability_ura_pattern", option_value (g_ability_ura_pattern g));
     ("subject_ura_pattern", option_value (g_subject_ura_pattern g));
     ("effect", VString (effect_name (g_effect g))); ("actor_ura", VString actor_ura);
     ("previous_grant_hash", VString previous_hash); ("new_grant_hash", VString new_hash)]) in
  timestamp ← now_rfc3339;
  mret (mk_GrantAuditRecord id (g_grant_id g) mutation (g_owner_user_ura g) (g_principal_id g) (g_token_id g)
          (g_actions g) (g_ability_ura_pattern g) (g_subject_ura_pattern g) (g_effect g) actor_ura timestamp
          (g_reason g) previous_hash new_hash).

(** The end of the grant mutations: the grant and its audit record go to the
    journal, then into the maps. *)
Definition record_grant (g : PermissionGrant) (operation : RecordOperation) (audit : GrantAuditRecord)
    (actor_ura : string) : acm W unit :=
  _ ← append RKGrant (g_grant_id g) operation (grant_value g) actor_ura;
  _ ← append RKAudit (ga_audit_record_id audit) operation (audit_value audit) actor_ura;
  _ ← modify (set_grants (btree_insert (g_grant_id g) g));
  modify (set_audit (btree_insert (ga_audit_record_id audit) audit)).

(** An active grant with the idempotency key. *)
Definition existing_grant (s : AccessControlStore) (key : string) : option PermissionGrant :=
  List.find (λ g, bool_decide (g_state g = GActive) && bool_decide (grant_idempotency_key g = key)) ((ac_grants s).*2).

(** ** Operations on grants *)

Definition create_grant (grant : PermissionGrant) (actor_ura : string) : acm W AuthorityBindingGrantResult :=
  grant ← lift_result (normalize_grant_for_create grant);
  _ ← lift_result (validate_grant grant);
  s ← get_store;
  match existing_grant s (grant_idempotency_key grant) with
  | Some existing => mret (mk_GrantResult existing true ("audit-idempotent-" +:+ g_grant_id existing))
  | None =>
      _ ← lift_result (ensure (bool_decide (assoc (g_grant_id grant) (ac_grants s) = None))
                         ("grant_id `" +:+ g_grant_id grant +:+ "` already exists"));
      audit ← audit_record grant MutCreated actor_ura ZERO_HASH (grant_hash grant);
      _ ← record_grant grant OpCreated audit actor_ura;
      mret (mk_GrantResult grant false (ga_audit_record_id audit))
  end.

Definition revoke_grant (grant_id owner_user_ura actor_ura : string) (reason : option string) : acm W PermissionGrant :=
  s ← get_store;
  existing ← lift_result (ok_or (assoc grant_id (ac_grants s)) ("grant_id `" +:+ grant_id +:+ "` not found"));
  _ ← lift_result (ensure (bool_decide (g_owner_user_ura existing = owner_user_ura))
                     ("grant `" +:+ grant_id +:+ "` does not belong to owner `" +:+ owner_user_ura +:+ "`"));
  if bool_decide (g_state existing = GRevoked) then mret existing
  else
    now ← now_rfc3339;
    let revoked := grant_with_state existing GRevoked (g_review_required_after existing) (g_last_used_at existing)
                     (Some now) (Some now) reason in
    audit ← audit_record revoked MutRevoked actor_ura (grant_hash existing) (grant_hash revoked);
    _ ← record_grant revoked OpRevoked audit actor_ura;
    mret revoked.

Definition consume_once_grant_if_applicable (grant_id actor_ura : string) : acm W (option PermissionGrant) :=
  s ← get_store;
  existing ← lift_result (ok_or (assoc grant_id (ac_grants s)) ("grant_id `" +:+ grant_id +:+ "` not found"));
  if negb (bool_decide (g_lifetime existing = Once)) then mret None
  else
    _ ← lift_result (ensure (bool_decide (g_state existing = GActive) && bool_decide (g_last_used_at existing = None))
                       ("once grant `" +:+ grant_id +:+ "` is no longer active"));
    now ← now_rfc3339;
    let consumed := grant_with_state existing GExpired (g_review_required_after existing) (Some now) (Some now)
                      (g_revoked_at existing) (g_reason existing) in
    audit ← audit_record consumed MutConsumed actor_ura (grant_hash existing) (grant_hash consumed);
    _ ← record_grant consumed OpConsumed audit actor_ura;
    mret (Some consumed).

(** ** Operations on requests *)

(** A request goes to the journal; the caller puts it into the map. *)
Definition append_request (r : PermissionRequest) (operation : RecordOperation) (actor_ura : string) : acm W unit :=
  append RKRequest (pr_request_id r) operation (request_value r) actor_ura.
Definition insert_request (r : PermissionRequest) : acm W unit :=
  modify (set_requests (btree_insert (pr_request_id r) r)).

Definition upsert_permission_request (r : PermissionRequest) (actor_ura : string) : acm W PermissionRequest :=
  _ ← lift_result (ensure (bool_decide (pr_status r = Pending))
                     "policy.request.create requires a pending PermissionRequest");
  _ ← lift_result (validate_request_transition None r);
  s ← get_store;
  match List.find (λ e, bool_decide (pr_status e = Pending)
                        && bool_decide (permission_request_idempotency_key e = permission_request_idempotency_key r))
          ((ac_requests s).*2) with
  | Some existing => mret existing
  | None =>
      _ ← append_request r OpCreated actor_ura;
      _ ← insert_request r;
      mret r
  end.

(** [o.as_deref().is_none_or(str::is_empty)]. *)
Definition none_or_empty (o : option string) : bool := match o with Some s => is_empty s | None => true end.

Definition normalize_terminal_resolution_fields (r : PermissionRequest) (actor_ura : string) : acm W PermissionRequest :=
  let resolver := if none_or_empty (pr_resolver_ura r) then Some actor_ura else pr_resolver_ura r in
  if none_or_empty (pr_resolved_at r) then now ← now_rfc3339; mret (with_resolution r resolver (Some now))
  else mret (with_resolution r resolver (pr_resolved_at r)).

Definition resolve_permission_request (r : PermissionRequest) (actor_ura : string) : acm W PermissionRequest :=
  r ← (if is_terminal (pr_status r) then normalize_terminal_resolution_fields r actor_ura else mret r);
  s ← get_store;
  let previous := assoc (pr_request_id r) (ac_requests s) in
  _ ← lift_result (validate_request_transition previous r);
  _ ← lift_result (validate_resolution_authority s r);
  operation ← lift_result (request_transition_operation previous r);
  _ ← append_request r operation actor_ura;
  _ ← insert_request r;
  mret r.

Definition resolve_permission_request_with_grant (r : PermissionRequest) (grant : PermissionGrant)
    (actor_ura : string) : acm W PermissionRequestResolutionResult :=
  _ ← lift_result (ensure (bool_decide (pr_status r = Approved))
                     "grant-backed PermissionRequest resolution requires approved status");
  grant ← lift_result (normalize_grant_for_create grant);
  _ ← lift_result (validate_grant_resolves_request grant r);
  _ ← lift_result (ensure (bool_decide (pr_authority_proof_id r = None))
                     "grant-backed PermissionRequest resolution cannot include authority_proof_id");
  _ ← lift_result (ensure (open_or_equal (pr_created_grant_id r) (Some (g_grant_id grant)))
                     "PermissionRequest created_grant_id does not match created grant");
  r ← normalize_terminal_resolution_fields (with_sources r (Some (g_grant_id grant)) None) actor_ura;
  s ← get_store;
  let previous := assoc (pr_request_id r) (ac_requests s) in
  _ ← lift_result (validate_request_transition previous r);
  _ ← lift_result (validate_grant grant);
  match existing_grant s (grant_idempotency_key grant) with
  | Some existing =>
      _ ← lift_result (ensure (bool_decide (pr_created_grant_id r = Some (g_grant_id existing)))
                         "idempotent approval request must reference the existing grant id");
      operation ← lift_result (request_transition_operation previous r);
      _ ← append_request r operation actor_ura;
      _ ← insert_request r;
      mret (mk_ResolutionResult r (Some existing) None true)
  | None =>
      _ ← lift_result (ensure (bool_decide (assoc (g_grant_id grant) (ac_grants s) = None))
                         ("grant_id `" +:+ g_grant_id grant +:+ "` already exists"));
      audit ← audit_record grant MutCreated actor_ura ZERO_HASH (grant_hash grant);
      operation ← lift_result (request_transition_operation previous r);
      _ ← append_request r operation actor_ura;
      _ ← append RKGrant (g_grant_id grant) OpCreated (grant_value grant) actor_ura;
      _ ← append RKAudit (ga_audit_record_id audit) OpCreated (audit_value audit) actor_ura;
      _ ← insert_request r;
      _ ← modify (set_grants (btree_insert (g_grant_id grant) grant));
      _ ← modify (set_audit (btree_insert (ga_audit_record_id audit) audit));
      mret (mk_ResolutionResult r (Some grant) None false)
  end.

(** ** Operations on proofs *)

(** A proof that is neither stored nor spent. *)
Definition ensure_new_proof (s : AccessControlStore) (p : AuthorityProof) : result string unit :=
  _ ← ensure (bool_decide (assoc (ap_proof_id p) (ac_proofs s) = None))
        ("authority proof `" +:+ ap_proof_id p +:+ "` already exists");
  ensure (negb (bool_decide (ap_proof_id p ∈ ac_consumed_proof_ids s)))
    ("authority proof `" +:+ ap_proof_id p +:+ "` was already consumed").

Definition resolve_permission_request_with_authority_proof (r : PermissionRequest) (proof : AuthorityProof)
    (actor_ura : string) : acm W PermissionRequestResolutionResult :=
  _ ← lift_result (ensure (bool_decide (pr_status r = Approved))
                     "proof-backed PermissionRequest resolution requires approved status");
  _ ← lift_result (validate_authority_proof_identity proof);
  _ ← lift_result (validate_proof_resolves_request proof r);
  _ ← lift_result (ensure (bool_decide (pr_created_grant_id r = None))
                     "proof-backed PermissionRequest resolution cannot include created_grant_id");
  _ ← lift_result (ensure (open_or_equal (pr_authority_proof_id r) (Some (ap_proof_id proof)))
                     "PermissionRequest authority_proof_id does not match authority proof");
  r ← normalize_terminal_resolution_fields (with_sources r None (Some (ap_proof_id proof))) actor_ura;
  s ← get_store;
  let previous := assoc (pr_request_id r) (ac_requests s) in
  _ ← lift_result (validate_request_transition previous r);
  _ ← lift_result (ensure_new_proof s proof);
  operation ← lift_result (request_transition_operation previous r);
  _ ← append_request r operation actor_ura;
  _ ← append RKProof (ap_proof_id proof) OpCreated (proof_value proof) actor_ura;
  _ ← insert_request r;
  _ ← modify (set_proofs (btree_insert (ap_proof_id proof) proof));
  mret (mk_ResolutionResult r None (Some proof) false).

Definition put_authority_proof (proof : AuthorityProof) (actor_ura : string) : acm W AuthorityProof :=
  _ ← lift_result (validate_authority_proof_identity proof);
  s ← get_store;
  _ ← lift_result (ensure_new_proof s proof);
  _ ← append RKProof (ap_proof_id proof) OpCreated (proof_value proof) actor_ura;
  _ ← modify (set_proofs (btree_insert (ap_proof_id proof) proof));
  mret proof.

Definition consume_authority_proof_once (proof_id actor_ura : string) : acm W AuthorityProof :=
  s ← get_store;
  proof ← lift_result (ok_or (assoc proof_id (ac_proofs s)) ("authority proof `" +:+ proof_id +:+ "` not found"));
  _ ← lift_result (ensure (request_scoped_one_time proof)
                     ("authority proof `" +:+ proof_id +:+ "` is not a one-time proof"));
  _ ← lift_result (ensure (negb (bool_decide (proof_id ∈ ac_consumed_proof_ids s)))
                     ("authority proof `" +:+ proof_id +:+ "` was already consumed"));
  _ ← append RKProof proof_id OpConsumed (proof_value proof) actor_ura;
  _ ← modify (set_consumed (λ c, {[proof_id]} ∪ c));
  mret proof.

(** ** Compaction *)

Definition compact (policy : AccessControlCompactionPolicy) (actor_ura : string) : acm W AccessControlCompactionResult :=
  _ ← lift_result (validate_compaction_policy policy);
  now ← io utc_now;
  let compacted_at := to_rfc3339_millis now in
  s ← get_store;
  let checkpoint_id := sha256_value (VObject
    [("owner_user_id", VString (store_owner s)); ("last_source_sequence", VInt (ac_last_sequence s));
     ("last_source_record_hash", VString (ac_head_hash s)); ("compacted_at", VString compacted_at)]) in
  let checkpoint := mk_Checkpoint checkpoint_id compacted_at (ac_last_sequence s) (ac_head_hash s)
    (grant_hash <$> base.filter (λ g, active_at g now = true) ((ac_grants s).*2))
    (pr_request_id <$> base.filter (λ r, pending_request_unexpired_at r now = true) ((ac_requests s).*2))
    (ap_proof_id <$> base.filter (λ p, authority_proof_unexpired_at p now = true) ((ac_proofs s).*2))
    ((ac_audit s).*1) policy in
  _ ← append RKCheckpoint checkpoint_id OpCompacted (checkpoint_value checkpoint) actor_ura;
  _ ← modify (λ s, set_manifest (manifest_with_compacted compacted_at (ac_manifest s)) s);
  _ ← write_manifest;
  s ← get_store;
  mret (mk_CompactionResult checkpoint (ac_head_hash s)).

(** ** Replay *)

(** [apply_record]. *)
Definition apply_record (r : JournalRecord) (s : AccessControlStore) : result string AccessControlStore :=
  match jr_record_kind r with
  | RKGrant =>
      g ← grant_from_value (jr_payload r);
      _ ← validate_grant g;
      _ ← ensure (match assoc (g_grant_id g) (ac_grants s) with
                  | Some existing => negb (bool_decide (g_state existing = GRevoked) && bool_decide (g_state g = GActive))
                  | None => true
                  end) ("revoked grant `" +:+ g_grant_id g +:+ "` cannot become active");
      Ok (set_grants (btree_insert (g_grant_id g) g) s)
  | RKRequest =>
      q ← request_from_value (jr_payload r);
      _ ← validate_request_transition (assoc (pr_request_id q) (ac_requests s)) q;
      Ok (set_requests (btree_insert (pr_request_id q) q) s)
  | RKProof =>
      p ← proof_from_value (jr_payload r);
      _ ← validate_authority_proof_identity p;
      match jr_operation r with
      | OpConsumed =>
          _ ← ensure (bool_decide (is_Some (assoc (ap_proof_id p) (ac_proofs s))))
                ("authority proof `" +:+ ap_proof_id p +:+ "` consumed before creation");
          Ok (set_consumed (λ c, {[ap_proof_id p]} ∪ c) s)
      | OpCreated =>
          _ ← ensure (negb (bool_decide (ap_proof_id p ∈ ac_consumed_proof_ids s)))
                ("authority proof `" +:+ ap_proof_id p +:+ "` recreated after consumption");
          Ok (set_proofs (btree_insert (ap_proof_id p) p) s)
      | _ => Err "unsupported authority proof journal operation"
      end
  | RKAudit =>
      a ← audit_from_value (jr_payload r);
      _ ← validate_user_principal_ura (ga_owner_user_ura a) "policy audit owner_user_id";
      _ ← ensure (negb (is_all_zero_principal_id (ga_principal_id a)))
            "policy audit principal_id must not be the all-zero principal placeholder";
      _ ← validate_runtime_identity_ura (ga_actor_ura a) "policy audit actor_ura";
      Ok (set_audit (btree_insert (ga_audit_record_id a) a) s)
  | RKCheckpoint =>
      c ← checkpoint_from_value (jr_payload r);
      _ ← ensure (ck_last_source_sequence c <? jr_sequence r) "compaction checkpoint references a later sequence";
      _ ← validate_compaction_policy (ck_retention_floor c);
      Ok s
  end.

(** The body of the loop of [replay]; the sequences seen so far go along. *)
Definition replay_record (st : gset Z * AccessControlStore) (r : JournalRecord)
  : result string (gset Z * AccessControlStore) :=
  let '(seen, s) := st in
  _ ← ensure (negb (bool_decide (jr_sequence r ∈ seen))) "duplicate policy journal sequence";
  _ ← validate_user_principal_ura (jr_owner_user_ura r) "policy journal owner_user_id";
  _ ← ensure (bool_decide (jr_owner_user_ura r = store_owner s)) "policy journal owner does not match store manifest";
  _ ← validate_runtime_identity_ura (jr_actor_ura r) "policy journal actor_ura";
  _ ← verify_record_hash r;
  _ ← ensure (bool_decide (jr_previous_record_hash r = ac_head_hash s)) "policy journal hash chain mismatch";
  s' ← apply_record r (set_head (jr_record_hash r) (set_sequence (Z.max (ac_last_sequence s) (jr_sequence r)) s));
  Ok ({[jr_sequence r]} ∪ seen, s').

Definition replay_records (rs : list JournalRecord) (s : AccessControlStore) : result string AccessControlStore :=
  st ← try_fold replay_record (∅, s) rs; Ok st.2.

(** [collect_records]. *)
Definition collect_records (root file : string) (w : W) : result string (list JournalRecord) :=
  lines ← read_lines (join root file) w;
  collect record_from_line (base.filter (λ l, blank l = false) lines).

(** The records of the four files in the order of their sequences. *)
Definition journal (root : string) (w : W) : result string (list JournalRecord) :=
  gs ← collect_records root GRANTS_FILE w;
  qs ← collect_records root REQUESTS_FILE w;
  ps ← collect_records root PROOFS_FILE w;
  au ← collect_records root AUDIT_FILE w;
  Ok (sort_by_key (λ r, Z.to_nat (jr_sequence r)) (gs ++ qs ++ ps ++ au)).

(** [replay]. *)
Definition replay : acm W unit :=
  s ← get_store;
  records ← (λ x, (journal (ac_root s) x.2, x));
  rebuilt ← lift_result (replay_records records s);
  _ ← modify (λ _, rebuilt);
  _ ← lift_result (validate_all_resolution_authorities rebuilt);
  _ ← modify (λ s, set_manifest (manifest_with_head (ac_head_hash s) (ac_manifest s)) s);
  write_manifest.

(** A manifest made now for an owner. *)
Definition new_manifest (owner_user_ura now : string) : AccessControlStoreManifest :=
  mk_Manifest (mk_PolicyStoreSection STORE_FORMAT SCHEMA_VERSION owner_user_ura now now ZERO_HASH)
    (mk_CanonicalizationSection RECORD_PROFILE "sha256")
    (mk_PolicyStoreFiles GRANTS_FILE REQUESTS_FILE PROOFS_FILE AUDIT_FILE).

Definition empty_store (root : string) (m : AccessControlStoreManifest) : AccessControlStore :=
  mk_Store root m [] [] [] ∅ [] 0 ZERO_HASH.

(** [open_or_create_at], after the directory is made. *)
Definition open_or_create_at (root owner_user_ura : string) : st W (result string AccessControlStore) := λ w,
  match validate_user_principal_ura owner_user_ura "policy store owner_user_id" with
  | Err e => (Err e, w)
  | Ok _ =>
      match read_manifest_file (join root MANIFEST_FILE) w with
      | Err e => (Err e, w)
      | Ok found =>
          let '(manifest, w) :=
            match found with
            | Some m => (Ok m, w)
            | None =>
                let '(now, w) := utc_now w in
                let m := new_manifest owner_user_ura (to_rfc3339_millis now) in
                let '(written, w) := write_manifest_file (join root MANIFEST_FILE) m w in
                (_ ← written; Ok m, w)
            end in
          match (m ← manifest; _ ← validate_manifest m owner_user_ura; Ok m) with
          | Err e => (Err e, w)
          | Ok m =>
              match replay (empty_store root m, w) with
              | (Ok _, (s, w)) => (Ok s, w)
              | (Err e, (_, w)) => (Err e, w)
              end
          end
      end
  end.
End operations.
