(* ===== verification/StoreJournal.v ===== *)
(** * The journal of the access-control store

    What the files hold after a sequence of [append]s of access_control.rs, on a
    disk whose writes may fail: a chain of records, each naming the hash of the
    one before it, in the order of their sequence numbers, whichever of the four
    files each went to.  Replaying such a chain never fails on the chain itself:
    it comes down to applying its records. *)

From Stdlib Require Import String Ascii Sorted.
From S2P Require Import Prelude RustStd Text Ura Identity Json World Decision Grants AuthorityProof AccessControl.

Open Scope Z_scope.

(** ** Reasoning about operations *)

(** [wp m Q x]: the outcome of [m] from [x] satisfies [Q]. *)
Definition wp {W A} (m : acm W A) (Q : result string A → AccessControlStore * W → Prop)
    (x : AccessControlStore * W) : Prop := Q (m x).1 (m x).2.

Section wp.
Context {W : Type}.
Implicit Types (x : AccessControlStore * W).

Lemma wp_bind {A B} (m : acm W A) (f : A → acm W B) Q x :
  wp m (λ r x', match r with Ok a => wp (f a) Q x' | Err e => Q (Err e) x' end) x → wp (m ≫= f) Q x.
Proof. unfold wp, mbind, acm_bind. by destruct (m x) as [[a|e] x']. Qed.

Lemma wp_ret {A} (a : A) Q x : Q (Ok a) x → wp (mret a) Q x.
Proof. done. Qed.

Lemma wp_lift {A} (r : result string A) Q x : Q r x → wp (lift_result r) Q x.
Proof. done. Qed.

Lemma wp_get (Q : _ → _ → Prop) x : Q (Ok x.1) x → wp get_store Q x.
Proof. done. Qed.

Lemma wp_modify f (Q : _ → _ → Prop) x : Q (Ok tt) (f x.1, x.2) → wp (modify f) Q x.
Proof. done. Qed.

Lemma wp_mono {A} (m : acm W A) (P Q : _ → _ → Prop) x : (∀ r x', P r x' → Q r x') → wp m P x → wp m Q x.
Proof. unfold wp. auto. Qed.
End wp.

(** [wp_step] runs the next primitive of an operation. *)
Ltac wp_step :=
  lazymatch goal with
  | |- wp (mbind _ _) _ _ => apply wp_bind
  | |- wp (mret _) _ _ => apply wp_ret
  | |- wp (lift_result _) _ _ => apply wp_lift
  | |- wp get_store _ _ => apply wp_get
  | |- wp (modify _) _ _ => apply wp_modify
  end; cbn beta.

(** ** Disks *)

Section disk.
Context {W : Type} `{!PolicyWorld W}.

(** Two worlds with the same journal files. *)
Definition same_journal (w w' : W) : Prop := ∀ p, read_lines p w' = read_lines p w.

(** A disk whose writes may fail: reading the clock and writing the manifest
    leave the journal alone, an append adds its line to its file or fails and
    adds nothing. *)
Class LossyDisk : Prop := {
  utc_now_journal w : same_journal w (utc_now w).2;
  write_manifest_journal p m w : same_journal w (write_manifest_file p m w).2;
  append_line_ok p l w u w' : append_line p l w = (Ok u, w') →
    (∃ ls, read_lines p w = Ok ls ∧ read_lines p w' = Ok (ls ++ [l])) ∧ ∀ q, q ≠ p → read_lines q w' = read_lines q w;
  append_line_err p l w e w' : append_line p l w = (Err e, w') → same_journal w w';
}.

(** A disk that works: appends to readable files and writes of the manifest
    succeed, and the manifest reads back. *)
Class ReliableDisk : Prop := {
  reliable_lossy :: LossyDisk;
  append_line_succeeds p l w : is_Ok (read_lines p w) → is_Ok (append_line p l w).1;
  write_manifest_succeeds p m w : (write_manifest_file p m w).1 = Ok tt;
  read_manifest_written p m w : read_manifest_file p (write_manifest_file p m w).2 = Ok (Some m);
  utc_now_manifest p w : read_manifest_file p (utc_now w).2 = read_manifest_file p w;
  append_line_manifest p q l w : read_manifest_file p (append_line q l w).2 = read_manifest_file p w;
}.
End disk.
Arguments LossyDisk W {_}.
Arguments ReliableDisk W {_}.

(** ** Chains *)

(** The part of the store the journal does not determine, replaced. *)
Definition store_with (t s : AccessControlStore) : AccessControlStore :=
  mk_Store (ac_root s) (ac_manifest s) (ac_grants t) (ac_requests t) (ac_proofs t)
    (ac_consumed_proof_ids t) (ac_audit t) (ac_last_sequence s) (ac_head_hash s).

Section chain.
Context {W : Type} `{!UraLib, !Chrono, !SerdeJson, !Sha256, !PolicyCodec, !PolicyWorld W}.

(** What [append] makes.  [chain owner q h rs q' h']: [rs] are records of [owner]
    whose sequences rise from above [q] to [q'] and whose hashes link [h] to
    [h'].  Replay accepts more, as it looks at links, hashes and repeated
    sequences only. *)
Inductive chain (owner : string) (q : Z) (h : string) : list JournalRecord → Z → string → Prop :=
| chain_nil : chain owner q h [] q h
| chain_snoc rs r q1 :
    chain owner q h rs q1 (jr_previous_record_hash r) → q1 < jr_sequence r →
    jr_owner_user_ura r = owner → admissible_ura (jr_actor_ura r) →
    verify_record_hash r = Ok tt → chain owner q h (rs ++ [r]) (jr_sequence r) (jr_record_hash r).

Lemma chain_sequences owner q h rs q' h' : chain owner q h rs q' h' →
  q ≤ q' ∧ Forall (λ r, q < jr_sequence r ≤ q') rs ∧ StronglySorted (λ a b, jr_sequence a < jr_sequence b) rs.
Proof.
  induction 1 as [|rs r q1 Hc (Hq & Hall & Hs) Hlo Ho Ha Hv]; [repeat constructor; lia|].
  split_and!; [lia| |].
  - apply Forall_app; split; [|repeat constructor; lia].
    eapply Forall_impl; [exact Hall|]. cbn. lia.
  - clear -Hs Hall Hlo. induction Hs as [|a l Hl IH Ha]; cbn; [repeat constructor|].
    inversion Hall; subst. constructor; [by apply IH|].
    apply Forall_app; split; [done|]. repeat constructor. lia.
Qed.

(** ** Replaying a chain *)

(** The records of a journal applied in order. *)
Definition apply_all (t : AccessControlStore) (rs : list JournalRecord) : result string AccessControlStore :=
  try_fold (λ t r, apply_record r t) t rs.

(** Applying a record touches the maps only and looks at nothing else. *)
Lemma apply_record_store_with r t s :
  apply_record r (store_with t s) = (t' ← apply_record r t; Ok (store_with t' s)).
Proof.
  unfold apply_record. destruct t, s. cbn.
  destruct (jr_record_kind r); cbn;
    repeat (lazymatch goal with
            | |- mbind _ ?m = mbind _ (mbind _ ?m) => destruct m; cbn; [|done]
            | |- context [match jr_operation r with _ => _ end] => destruct (jr_operation r); cbn
            end); done.
Qed.

Definition at_head (q : Z) (h : string) (s : AccessControlStore) : AccessControlStore := set_head h (set_sequence q s).

(** One step of the loop of [replay] on the next record of a chain. *)
Lemma replay_record_step seen t s q r :
  user_principal (store_owner s) → jr_owner_user_ura r = store_owner s → jr_sequence r ∉ seen → q < jr_sequence r →
  admissible_ura (jr_actor_ura r) → verify_record_hash r = Ok tt →
  replay_record (seen, store_with t (at_head q (jr_previous_record_hash r) s)) r =
    (t' ← apply_record r t;
     Ok ({[jr_sequence r]} ∪ seen, store_with t' (at_head (jr_sequence r) (jr_record_hash r) s))).
Proof.
  intros Hu Ho Hseen Hq Ha Hv. unfold replay_record. rewrite (bool_decide_false (jr_sequence r ∈ seen)) by done.
  cbn [negb ensure mbind result_bind].
  rewrite Ho, (proj2 (validate_user_principal_ura_Ok _ _) Hu). cbn [mbind result_bind].
  rewrite (bool_decide_true (store_owner s = _)) by (by destruct s). cbn [ensure mbind result_bind].
  rewrite (proj2 (validate_runtime_identity_ura_Ok _ _) Ha). cbn [mbind result_bind].
  rewrite Hv. cbn [mbind result_bind]. rewrite (bool_decide_true (jr_previous_record_hash r = _)) by (by destruct s).
  cbn [ensure mbind result_bind].
  replace (set_head _ (set_sequence _ (store_with _ _)))
    with (store_with t (at_head (jr_sequence r) (jr_record_hash r) s)).
  - rewrite apply_record_store_with. by destruct (apply_record r t).
  - destruct s, t. unfold at_head, set_head, set_sequence, store_with. cbn. by rewrite Z.max_r by lia.
Qed.

(** Replaying a chain is applying its records. *)
Lemma replay_chain t s q h rs q' h' :
  user_principal (store_owner s) → chain (store_owner s) q h rs q' h' →
  try_fold replay_record (∅, store_with t (at_head q h s)) rs =
    (t' ← apply_all t rs; Ok (list_to_set (jr_sequence <$> rs), store_with t' (at_head q' h' s))).
Proof.
  intros Hu. induction 1 as [|rs r q1 Hc IH Hlo Ho Ha Hv]; [done|].
  rewrite try_fold_snoc, IH. unfold apply_all. rewrite try_fold_snoc. fold (apply_all t rs).
  destruct (apply_all t rs) as [t1|]; cbn [mbind result_bind]; [|done].
  rewrite replay_record_step; try done.
  - destruct (apply_record r t1); cbn; [|done]. do 2 f_equal. rewrite fmap_app, list_to_set_app_L. set_solver.
  - apply chain_sequences in Hc as (_ & Hall & _). rewrite elem_of_list_to_set, list_elem_of_fmap.
    intros (r' & Heq & Hin). rewrite Forall_forall in Hall. specialize (Hall r' Hin). lia.
Qed.

(** ** The files *)

(** The files under [root] hold the records [rs], each in the file of its kind. *)
Definition files_hold (root : string) (rs : list JournalRecord) (w : W) : Prop :=
  ∀ f, f ∈ [GRANTS_FILE; REQUESTS_FILE; PROOFS_FILE; AUDIT_FILE] →
    read_lines (join root f) w = Ok (record_line <$> base.filter (λ r, file_for_kind (jr_record_kind r) = f) rs).

Lemma files_hold_same root rs w w' : same_journal w w' → files_hold root rs w → files_hold root rs w'.
Proof. intros Hs Hf f Hin. rewrite Hs. by apply Hf. Qed.

Lemma join_inj root f f' : join root f = join root f' → f = f'.
Proof.
  unfold join. intros Heq%(inj (String.append root)). by injection Heq.
Qed.

Lemma file_for_kind_listed k : file_for_kind k ∈ [GRANTS_FILE; REQUESTS_FILE; PROOFS_FILE; AUDIT_FILE].
Proof. destruct k; cbn; set_solver. Qed.

Lemma files_hold_append `{!LossyDisk W} root rs r w u w' : files_hold root rs w →
  append_line (join root (file_for_kind (jr_record_kind r))) (record_line r) w = (Ok u, w') →
  files_hold root (rs ++ [r]) w'.
Proof.
  intros Hf Ha. apply append_line_ok in Ha as ((ls & Hls & Hls') & Hother). intros f Hin.
  rewrite filter_app, fmap_app. destruct (decide (file_for_kind (jr_record_kind r) = f)) as [<-|Hne].
  - rewrite Hls'. rewrite (Hf _ Hin) in Hls. injection Hls as <-.
    rewrite (filter_cons_True _ r []) by done. done.
  - rewrite (filter_cons_False _ r []) by done. cbn. rewrite app_nil_r.
    rewrite Hother; [by apply Hf|]. intros ->%join_inj. done.
Qed.

Lemma collect_map {E A B} (f : A → result E B) (g : B → A) l : (∀ b, f (g b) = Ok b) → collect f (g <$> l) = Ok l.
Proof. intros Hfg. induction l as [|b l IH]; cbn; [done|]. rewrite Hfg. cbn. by rewrite IH. Qed.

Lemma collect_records_hold `{!PolicyCodecLaws} root rs w f : files_hold root rs w →
  f ∈ [GRANTS_FILE; REQUESTS_FILE; PROOFS_FILE; AUDIT_FILE] →
  collect_records root f w = Ok (base.filter (λ r, file_for_kind (jr_record_kind r) = f) rs).
Proof.
  intros Hf Hin. unfold collect_records. rewrite (Hf f Hin). cbn [mbind result_bind].
  rewrite filter_all; [apply collect_map, record_codec|].
  intros l (r & -> & _)%list_elem_of_fmap. apply record_line_not_blank.
Qed.

(** The records of the files, put together, are the records. *)
Lemma partition_perm rs :
  base.filter (λ r, file_for_kind (jr_record_kind r) = GRANTS_FILE) rs ++
  base.filter (λ r, file_for_kind (jr_record_kind r) = REQUESTS_FILE) rs ++
  base.filter (λ r, file_for_kind (jr_record_kind r) = PROOFS_FILE) rs ++
  base.filter (λ r, file_for_kind (jr_record_kind r) = AUDIT_FILE) rs ≡ₚ rs.
Proof.
  induction rs as [|r rs IH]; [done|]. rewrite !filter_cons.
  destruct (jr_record_kind r); cbn; (etrans; [|apply perm_skip, IH]); solve_Permutation.
Qed.

(** Reading the journal gives the records in the order they were appended. *)
Lemma journal_hold `{!PolicyCodecLaws} root rs w owner q' h' : 
  files_hold root rs w → chain owner 0 ZERO_HASH rs q' h' → journal root w = Ok rs.
Proof.
  intros Hf Hc. unfold journal. rewrite !(collect_records_hold root rs w) by (done || set_solver).
  cbn [mbind result_bind]. f_equal. apply chain_sequences in Hc as (_ & Hpos & Hs).
  assert (StronglySorted (λ a b, Z.to_nat (jr_sequence a) < Z.to_nat (jr_sequence b))%nat rs) as Hlt.
  { clear Hf. induction Hs as [|r l Hl IH Hr]; constructor; inversion Hpos; subst; [by apply IH|].
    rewrite Forall_forall in Hr |- *. intros r' Hr'. specialize (Hr r' Hr'). lia. }
  rewrite (sort_by_key_unique _ _ _ (partition_perm rs)).
  - apply sort_by_key_id. clear -Hlt. induction Hlt as [|r l Hl IH Hr]; constructor; [done|].
    eapply Forall_impl; [exact Hr|]. cbn. lia.
  - rewrite partition_perm. clear -Hlt. induction Hlt as [|r l Hl IH Hr]; cbn; constructor; [|done].
    intros (r' & Heq & Hin)%list_elem_of_fmap. rewrite Forall_forall in Hr. specialize (Hr r' Hin). lia.
Qed.
End chain.

(** ** Appending *)

Section append.
Context {W : Type} `{!UraLib, !Chrono, !SerdeJson, !Sha256, !PolicyCodec, !PolicyWorld W}.
Implicit Types (x : AccessControlStore * W).

(** The files hold the chain [rs], which ends at the head of the store. *)
Definition logged (rs : list JournalRecord) x : Prop :=
  user_principal (store_owner x.1) ∧ files_hold (ac_root x.1) rs x.2 ∧
  ∃ q, q ≤ ac_last_sequence x.1 ∧ chain (store_owner x.1) 0 ZERO_HASH rs q (ac_head_hash x.1).

(** The manifest of the store is on disk, names the head and is valid; the last
    record has the last sequence. *)
Definition synced (rs : list JournalRecord) x : Prop :=
  logged rs x ∧ chain (store_owner x.1) 0 ZERO_HASH rs (ac_last_sequence x.1) (ac_head_hash x.1) ∧
  read_manifest_file (join (ac_root x.1) MANIFEST_FILE) x.2 = Ok (Some (ac_manifest x.1)) ∧
  ps_head_hash (mf_policy_store (ac_manifest x.1)) = ac_head_hash x.1 ∧
  validate_manifest (ac_manifest x.1) (store_owner x.1) = Ok tt.

(** The directory, the owner and the maps stay as they are. *)
Definition keeps_maps (s s' : AccessControlStore) : Prop :=
  ac_root s' = ac_root s ∧ store_owner s' = store_owner s ∧ store_with s s' = s'.

#[global] Instance keeps_maps_refl : Reflexive keeps_maps.
Proof. by intros []. Qed.
#[global] Instance keeps_maps_trans : Transitive keeps_maps.
Proof.
  intros [] [] []. unfold keeps_maps, store_with, store_owner. cbn.
  intros (-> & Ho1 & [= -> -> -> -> ->]) (-> & Ho2 & [= -> -> -> -> ->]). rewrite Ho2, Ho1. done.
Qed.

(** A record of [append]. *)
Definition is_record (kind : RecordKind) (operation : RecordOperation) (payload : Value) (sequence : Z)
    (r : JournalRecord) : Prop :=
  jr_record_kind r = kind ∧ jr_operation r = operation ∧ jr_payload r = payload ∧ jr_sequence r = sequence.

Lemma next_record_verifies s kind id operation payload actor created_at :
  verify_record_hash (next_record s kind id operation payload actor created_at) = Ok tt.
Proof. unfold verify_record_hash. by rewrite bool_decide_true. Qed.

Lemma chain_next owner q rs s kind id operation payload actor created_at :
  chain owner 0 ZERO_HASH rs q (ac_head_hash s) → q < ac_last_sequence s → store_owner s = owner →
  admissible_ura actor →
  let r := next_record s kind id operation payload actor created_at in
  chain owner 0 ZERO_HASH (rs ++ [r]) (ac_last_sequence s) (jr_record_hash r).
Proof.
  intros Hc Hq Ho Ha r. eapply (chain_snoc _ _ _ rs r); [exact Hc|done..|]. apply next_record_verifies.
Qed.

(** Reading the clock changes no file. *)
Lemma logged_clock `{!LossyDisk W} rs x : logged rs x → logged rs (x.1, (utc_now x.2).2).
Proof. intros (? & Hf & ?). split_and!; try done. by eapply files_hold_same, Hf; apply utc_now_journal. Qed.

Lemma synced_clock `{!ReliableDisk W} rs x : synced rs x → synced rs (x.1, (utc_now x.2).2).
Proof.
  intros (Hl & Hc & Hm & Hh & Hv).
  refine (conj (logged_clock rs x Hl) (conj Hc (conj _ (conj Hh Hv)))). cbn. by rewrite utc_now_manifest.
Qed.

Lemma wp_now_rfc3339 (Q : _ → _ → Prop) x :
  Q (Ok (to_rfc3339_millis (utc_now x.2).1)) (x.1, (utc_now x.2).2) → wp now_rfc3339 Q x.
Proof.
  unfold now_rfc3339, wp, mbind, mret, acm_bind, acm_ret, io. by destruct (utc_now x.2) as [t w].
Qed.

(** [append] as a function: the actor is refused, the line is not written, or it
    is, and then the manifest may not be. *)
Lemma append_eq kind id operation payload actor s w :
  append kind id operation payload actor (s, w) =
    match validate_runtime_identity_ura actor "policy journal actor_ura" with
    | Err e => (Err e, (s, w))
    | Ok _ =>
        let s1 := set_sequence (u64_wrap (ac_last_sequence s + 1)) s in
        let r := next_record s1 kind id operation payload actor (to_rfc3339_millis (utc_now w).1) in
        match append_line (join (ac_root s) (file_for_kind kind)) (record_line r) (utc_now w).2 with
        | (Err e, w1) => (Err e, (s1, w1))
        | (Ok _, w1) =>
            let s2 := set_manifest (manifest_with_head (jr_record_hash r) (ac_manifest s)) (set_head (jr_record_hash r) s1) in
            let '(written, w2) := write_manifest_file (join (ac_root s) MANIFEST_FILE) (ac_manifest s2) w1 in
            (written, (s2, w2))
        end
    end.
Proof.
  unfold append, lift_result, modify, now_rfc3339, get_store, io, io_result, mbind, mret, acm_bind, acm_ret. cbn.
  destruct (validate_runtime_identity_ura actor _); [|done]. destruct (utc_now w) as [t w0]. cbn.
  by destruct (append_line _ _ w0) as [[]].
Qed.

(** The next sequence number, while they last. *)
Lemma logged_next rs x : logged rs x → ac_last_sequence x.1 < u64_max →
  u64_wrap (ac_last_sequence x.1 + 1) = ac_last_sequence x.1 + 1.
Proof.
  intros (_ & _ & q & Hq & (Hpos & _)%chain_sequences) Hroom. unfold u64_max in Hroom. apply Z.mod_small. lia.
Qed.

(** On any disk, [append] extends the chain by its record or leaves it. *)
Lemma wp_append `{!LossyDisk W} rs kind id operation payload actor (Q : _ → _ → Prop) x :
  logged rs x → ac_last_sequence x.1 < u64_max →
  (∀ e x', logged rs x' → keeps_maps x.1 x'.1 → ac_last_sequence x'.1 ≤ ac_last_sequence x.1 + 1 → Q (Err e) x') →
  (∀ r x' rec, is_record kind operation payload (ac_last_sequence x.1 + 1) rec → logged (rs ++ [rec]) x' →
     keeps_maps x.1 x'.1 → ac_last_sequence x'.1 = ac_last_sequence x.1 + 1 → Q r x') →
  wp (append kind id operation payload actor) Q x.
Proof.
  destruct x as [s w]. intros Hl Hroom Herr Hok. unfold wp. pose proof (logged_next _ _ Hl Hroom) as Hn. cbn [fst] in Hn, Hroom. rewrite append_eq, Hn.
  destruct (validate_runtime_identity_ura actor _) as [[]|e] eqn:Ea; [|apply Herr; [done..|cbn; lia]].
  cbn zeta. set (r := next_record _ _ _ _ _ _ _). destruct (logged_clock _ _ Hl) as (Hu & Hf & q & Hq & Hc).
  cbn [fst snd] in *. destruct (append_line _ _ _) as [[u|e] w1] eqn:El.
  - apply validate_runtime_identity_ura_Ok in Ea.
    cbn [ac_manifest set_manifest]. set (m := manifest_with_head (jr_record_hash r) (ac_manifest s)).
    pose proof (write_manifest_journal (join (ac_root s) MANIFEST_FILE) m w1) as Hj.
    destruct (write_manifest_file _ m w1) as [written w2]. cbn [fst snd] in *.
    apply (Hok _ _ r); [done| |by destruct s|by destruct s]. split_and!; [by destruct s| |].
    + eapply files_hold_same; [exact Hj|]. exact (files_hold_append _ _ r _ _ _ Hf El).
    + exists (ac_last_sequence s + 1). split; [by destruct s|].
      apply (chain_next (store_owner s) q rs (set_sequence (ac_last_sequence s + 1) s)); [done|cbn; lia|done..].
  - cbn [fst snd]. apply Herr; [|by destruct s|by destruct s]. split_and!; [done| |].
    + eapply files_hold_same; [by eapply append_line_err|done].
    + exists q. cbn. split; [lia|done].
Qed.

(** On a disk that works, [append] with an admissible actor succeeds. *)
Lemma wp_append_reliable `{!ReliableDisk W} rs kind id operation payload actor (Q : _ → _ → Prop) x :
  synced rs x → ac_last_sequence x.1 < u64_max →
  (∀ e, ¬ admissible_ura actor → Q (Err e) x) →
  (∀ x' rec, admissible_ura actor → is_record kind operation payload (ac_last_sequence x.1 + 1) rec →
     synced (rs ++ [rec]) x' → keeps_maps x.1 x'.1 → ac_last_sequence x'.1 = ac_last_sequence x.1 + 1 → Q (Ok tt) x') →
  wp (append kind id operation payload actor) Q x.
Proof.
  destruct x as [s w]. intros (Hl & Hc & Hm & Hh & Hv) Hroom Herr Hok. unfold wp. pose proof (logged_next _ _ Hl Hroom) as Hn. cbn [fst] in Hn, Hroom. rewrite append_eq, Hn.
  destruct (validate_runtime_identity_ura actor _) as [[]|e] eqn:Ea.
  2: { apply Herr. by intros Ha%(validate_runtime_identity_ura_Ok _ "policy journal actor_ura"); rewrite Ha in Ea. }
  cbn zeta. set (r := next_record _ _ _ _ _ _ _). destruct (logged_clock _ _ Hl) as (Hu & Hf & _).
  cbn [fst snd] in *. apply validate_runtime_identity_ura_Ok in Ea.
  destruct (append_line_succeeds (join (ac_root s) (file_for_kind kind)) (record_line r) (utc_now w).2) as [[] Hsucc].
  { rewrite (Hf _ (file_for_kind_listed kind)). by eexists. }
  destruct (append_line _ _ _) as [u w1] eqn:El. cbn in Hsucc. subst u. cbn [ac_manifest set_manifest].
  set (m := manifest_with_head (jr_record_hash r) (ac_manifest s)).
  pose proof (write_manifest_succeeds (join (ac_root s) MANIFEST_FILE) m w1) as Hw.
  pose proof (write_manifest_journal (join (ac_root s) MANIFEST_FILE) m w1) as Hj.
  pose proof (read_manifest_written (join (ac_root s) MANIFEST_FILE) m w1) as Hrd.
  destruct (write_manifest_file _ m w1) as [written w2]. cbn in Hw. subst written. cbn [fst snd] in *.
  assert (chain (store_owner s) 0 ZERO_HASH (rs ++ [r]) (ac_last_sequence s + 1) (jr_record_hash r)) as Hc'.
  { apply (chain_next (store_owner s) (ac_last_sequence s) rs (set_sequence (ac_last_sequence s + 1) s));
      [done|cbn; lia|done..]. }
  apply (Hok _ r); [done..| |by destruct s|by destruct s].
  refine (conj (conj Hu (conj _ _)) (conj Hc' (conj Hrd (conj eq_refl Hv)))).
  - eapply files_hold_same; [exact Hj|]. exact (files_hold_append _ _ r _ _ _ Hf El).
  - exists (ac_last_sequence s + 1). split; [done|exact Hc'].
Qed.
End append.
