(* ===== verification/StoreProps.v ===== *)
(** * The access-control store and its journal

    On a disk that works, what the journal replays to is the store in memory,
    after any operations; so reopening gives the store back, when the authority
    behind its approved requests still stands.  Grants only ever leave the active
    state, and a one-time grant or proof is consumed at most once. *)

From Stdlib Require Import String Ascii.
From S2P Require Import Prelude RustStd Text Ura Identity Json World Decision Grants AuthorityProof AccessControl.
From S2P Require Import StoreJournal.

Open Scope Z_scope.

(** ** Operations *)

(** The operations that change a store, with their arguments. *)
Inductive StoreOp :=
| CreateGrant (g : PermissionGrant) (actor : string)
| RevokeGrant (grant_id owner actor : string) (reason : option string)
| ConsumeOnceGrant (grant_id actor : string)
| UpsertRequest (r : PermissionRequest) (actor : string)
| ResolveRequest (r : PermissionRequest) (actor : string)
| ResolveWithGrant (r : PermissionRequest) (g : PermissionGrant) (actor : string)
| ResolveWithProof (r : PermissionRequest) (p : AuthorityProof) (actor : string)
| PutProof (p : AuthorityProof) (actor : string)
| ConsumeProof (proof_id actor : string)
| Compact (policy : AccessControlCompactionPolicy) (actor : string).

Section ops.
Context {W : Type} `{!UraLib, !Chrono, !SerdeJson, !Sha256, !PolicyCodec, !PolicyWorld W}.

(** An operation, whatever it returns. *)
Definition run_op (o : StoreOp) : acm W unit :=
  match o with
  | CreateGrant g a => _ ← create_grant g a; mret tt
  | RevokeGrant id owner a reason => _ ← revoke_grant id owner a reason; mret tt
  | ConsumeOnceGrant id a => _ ← consume_once_grant_if_applicable id a; mret tt
  | UpsertRequest r a => _ ← upsert_permission_request r a; mret tt
  | ResolveRequest r a => _ ← resolve_permission_request r a; mret tt
  | ResolveWithGrant r g a => _ ← resolve_permission_request_with_grant r g a; mret tt
  | ResolveWithProof r p a => _ ← resolve_permission_request_with_authority_proof r p a; mret tt
  | PutProof p a => _ ← put_authority_proof p a; mret tt
  | ConsumeProof id a => _ ← consume_authority_proof_once id a; mret tt
  | Compact policy a => _ ← compact policy a; mret tt
  end.

(** Operations one after the other; one that fails does not stop the next. *)
Fixpoint run_ops (os : list StoreOp) (x : AccessControlStore * W) : AccessControlStore * W :=
  match os with
  | [] => x
  | o :: os => run_ops os (run_op o x).2
  end.

(** ** What a journal replays to *)

Definition clear_maps (s : AccessControlStore) : AccessControlStore :=
  mk_Store (ac_root s) (ac_manifest s) [] [] [] ∅ [] (ac_last_sequence s) (ac_head_hash s).

(** The records of the journal, applied, make the maps of [t]. *)
Definition rebuilt (rs : list JournalRecord) (s t : AccessControlStore) : Prop :=
  apply_all (clear_maps s) rs = Ok (store_with t s).

Lemma apply_all_store_with t s rs :
  apply_all (store_with t s) rs = (t' ← apply_all t rs; Ok (store_with t' s)).
Proof.
  unfold apply_all. revert t. induction rs as [|r rs IH]; intros t; [done|]. cbn [try_fold].
  rewrite apply_record_store_with. destruct (apply_record r t); cbn; [apply IH|done].
Qed.

Lemma store_with_idemp t s s' : store_with (store_with t s) s' = store_with t s'.
Proof. done. Qed.

Lemma rebuilt_any s' rs s t : rebuilt rs s t → rebuilt rs s' t.
Proof.
  unfold rebuilt. intros Hr. change (clear_maps s') with (store_with (clear_maps s) s').
  rewrite apply_all_store_with, Hr. cbn. by rewrite store_with_idemp.
Qed.

(** The journal is in order and replays to the maps of [t]. *)
Definition replays_to (t : AccessControlStore) (x : AccessControlStore * W) : Prop :=
  ∃ rs, synced rs x ∧ rebuilt rs x.1 t.

Lemma replays_to_maps t t' x : store_with t t' = t' → replays_to t x → replays_to t' x.
Proof.
  intros Ht (rs & Hs & Hr). exists rs. split; [done|]. unfold rebuilt in *. rewrite Hr.
  rewrite <- Ht at 1. by destruct t, t', x as [[] ?].
Qed.

Lemma replays_to_clock `{!ReliableDisk W} t x : replays_to t x → replays_to t (x.1, (utc_now x.2).2).
Proof. intros (rs & Hs & Hr). exists rs. split; [by apply synced_clock|done]. Qed.

(** What a record does to the maps. *)
Definition applies (kind : RecordKind) (operation : RecordOperation) (payload : Value) (sequence : Z)
    (t t' : AccessControlStore) : Prop :=
  ∀ r, is_record kind operation payload sequence r → apply_record r t = Ok t'.

(** The sequence numbers of [n] more records are there. *)
Definition room (n : Z) (s : AccessControlStore) : Prop := ac_last_sequence s + n ≤ u64_max.

(** [append] takes a journal that replays to [t] to one that replays to what its
    record makes of [t]. *)
Lemma wp_append_replays `{!ReliableDisk W} t kind id operation payload actor (Q : _ → _ → Prop) x :
  replays_to t x → room 1 x.1 →
  (∀ e, ¬ admissible_ura actor → Q (Err e) x) →
  (∀ x', admissible_ura actor → keeps_maps x.1 x'.1 → ac_last_sequence x'.1 = ac_last_sequence x.1 + 1 →
     (∀ t', applies kind operation payload (ac_last_sequence x.1 + 1) t t' → replays_to t' x') → Q (Ok tt) x') →
  wp (append kind id operation payload actor) Q x.
Proof.
  intros (rs & Hs & Hr) Hroom Herr Hok. eapply wp_append_reliable; [exact Hs|unfold room in Hroom; lia|done|].
  intros x' rec Ha Hrec Hs' Hk Hseq. apply Hok; [done..|]. intros t' Happ.
  exists (rs ++ [rec]). split; [done|]. apply (rebuilt_any _ _ x.1). unfold rebuilt, apply_all in *.
  rewrite try_fold_snoc, Hr. cbn. rewrite apply_record_store_with, (Happ rec Hrec). done.
Qed.

(** ** What the records of the operations apply to *)

Lemma applies_grant `{!PolicyCodecLaws} operation g n t :
  validate_grant g = Ok tt → (∀ g0, assoc (g_grant_id g) (ac_grants t) = Some g0 → g_state g = GActive → g_state g0 ≠ GRevoked) →
  applies RKGrant operation (grant_value g) n t (set_grants (btree_insert (g_grant_id g) g) t).
Proof.
  intros Hv Hstate r (Hk & _ & Hp & _). unfold apply_record. rewrite Hk, Hp, grant_codec. cbn [mbind result_bind].
  rewrite Hv. cbn [mbind result_bind]. destruct (assoc _ _) as [g0|] eqn:E; [|done].
  destruct (bool_decide_reflect (g_state g = GActive)) as [Ha|]; [|by rewrite andb_false_r].
  by rewrite bool_decide_false by (eapply Hstate; eauto).
Qed.

Lemma applies_audit `{!PolicyCodecLaws} operation a n t :
  user_principal (ga_owner_user_ura a) → is_all_zero_principal_id (ga_principal_id a) = false →
  admissible_ura (ga_actor_ura a) →
  applies RKAudit operation (audit_value a) n t (set_audit (btree_insert (ga_audit_record_id a) a) t).
Proof.
  intros Ho Hz Ha r (Hk & _ & Hp & _). unfold apply_record. rewrite Hk, Hp, audit_codec. cbn [mbind result_bind].
  rewrite (proj2 (validate_user_principal_ura_Ok _ _) Ho). cbn [mbind result_bind]. rewrite Hz. cbn [mbind result_bind negb ensure].
  by rewrite (proj2 (validate_runtime_identity_ura_Ok _ _) Ha).
Qed.

Lemma applies_request `{!PolicyCodecLaws} operation q n t :
  validate_request_transition (assoc (pr_request_id q) (ac_requests t)) q = Ok tt →
  applies RKRequest operation (request_value q) n t (set_requests (btree_insert (pr_request_id q) q) t).
Proof.
  intros Hv r (Hk & _ & Hp & _). unfold apply_record. rewrite Hk, Hp, request_codec. cbn [mbind result_bind].
  by rewrite Hv.
Qed.

Lemma applies_proof `{!PolicyCodecLaws} p n t :
  validate_authority_proof_identity p = Ok tt → ap_proof_id p ∉ ac_consumed_proof_ids t →
  applies RKProof OpCreated (proof_value p) n t (set_proofs (btree_insert (ap_proof_id p) p) t).
Proof.
  intros Hv Hc r (Hk & Ho & Hp & _). unfold apply_record. rewrite Hk, Hp, Ho, proof_codec. cbn [mbind result_bind].
  rewrite Hv. cbn [mbind result_bind]. by rewrite bool_decide_false by done.
Qed.

Lemma applies_consumed `{!PolicyCodecLaws} p n t :
  validate_authority_proof_identity p = Ok tt → is_Some (assoc (ap_proof_id p) (ac_proofs t)) →
  applies RKProof OpConsumed (proof_value p) n t (set_consumed (λ c, {[ap_proof_id p]} ∪ c) t).
Proof.
  intros Hv Hc r (Hk & Ho & Hp & _). unfold apply_record. rewrite Hk, Hp, Ho, proof_codec. cbn [mbind result_bind].
  rewrite Hv. cbn [mbind result_bind]. by rewrite bool_decide_true by done.
Qed.

Lemma applies_checkpoint `{!PolicyCodecLaws} operation c n t :
  ck_last_source_sequence c < n → validate_compaction_policy (ck_retention_floor c) = Ok tt →
  applies RKCheckpoint operation (checkpoint_value c) n t t.
Proof.
  intros Hn Hv r (Hk & _ & Hp & Hs). unfold apply_record. rewrite Hk, Hp, Hs, checkpoint_codec. cbn [mbind result_bind].
  rewrite (proj2 (Z.ltb_lt _ _) Hn). cbn [ensure mbind result_bind]. by rewrite Hv.
Qed.

(** ** The invariant *)

(** Grants and proofs are stored under their ids and validate. *)
Definition store_ok (s : AccessControlStore) : Prop :=
  (∀ k g, assoc k (ac_grants s) = Some g →
     g_grant_id g = k ∧ validate_grant g = Ok tt ∧ is_all_zero_principal_id (g_principal_id g) = false) ∧
  (∀ k p, assoc k (ac_proofs s) = Some p → ap_proof_id p = k ∧ validate_authority_proof_identity p = Ok tt).

(** The journal replays to the store, and the store is in order. *)
Definition consistent (x : AccessControlStore * W) : Prop := replays_to x.1 x ∧ store_ok x.1.

Lemma consistent_clock `{!ReliableDisk W} x : consistent x → consistent (x.1, (utc_now x.2).2).
Proof. intros [Hr Hs]. split; [by apply replays_to_clock|done]. Qed.

(** The fields of an audit record that replay looks at. *)
Definition audits (g : PermissionGrant) (actor : string) (a : GrantAuditRecord) : Prop :=
  ga_owner_user_ura a = g_owner_user_ura g ∧ ga_principal_id a = g_principal_id g ∧ ga_actor_ura a = actor.

Lemma wp_audit_record g mutation actor h h' (Q : _ → _ → Prop) x :
  (∀ a, audits g actor a → Q (Ok a) (x.1, (utc_now x.2).2)) → wp (audit_record g mutation actor h h') Q x.
Proof. intros HQ. unfold audit_record. apply wp_bind, wp_now_rfc3339, wp_ret, HQ. done. Qed.

Lemma validate_grant_owner g : validate_grant g = Ok tt → user_principal (g_owner_user_ura g).
Proof. unfold validate_grant. intros Hv. inv_ok. by eapply validate_user_principal_ura_Ok. Qed.

Lemma store_ok_grant g s : store_ok s → validate_grant g = Ok tt →
  is_all_zero_principal_id (g_principal_id g) = false → store_ok (set_grants (btree_insert (g_grant_id g) g) s).
Proof.
  intros [Hg Hp] Hv Hz. split; [|exact Hp]. intros k g'. cbn. rewrite assoc_btree_insert.
  destruct (String.eqb_spec k (g_grant_id g)) as [->|]; [intros [= <-]; done|apply Hg].
Qed.

Lemma store_ok_proof p s : store_ok s → validate_authority_proof_identity p = Ok tt →
  store_ok (set_proofs (btree_insert (ap_proof_id p) p) s).
Proof.
  intros [Hg Hp] Hv. split; [exact Hg|]. intros k p'. cbn. rewrite assoc_btree_insert.
  destruct (String.eqb_spec k (ap_proof_id p)) as [->|]; [intros [= <-]; done|apply Hp].
Qed.

(** ** The operations keep the invariant *)

(** From [x] to [x']: the same store of the same owner, in order, now with the
    maps of [t]. *)
Definition becomes (x : AccessControlStore * W) (t : AccessControlStore) (x' : AccessControlStore * W) : Prop :=
  consistent x' ∧ ac_root x'.1 = ac_root x.1 ∧ store_owner x'.1 = store_owner x.1 ∧ store_with t x'.1 = x'.1.

Lemma becomes_refl x : consistent x → becomes x x.1 x.
Proof. intros Hc. split_and!; [done..|]. by destruct x as [[] ?]. Qed.

Lemma becomes_clock `{!ReliableDisk W} x : consistent x → becomes x x.1 (x.1, (utc_now x.2).2).
Proof. intros Hc. split; [by apply consistent_clock|]. split_and!; [done..|]. by destruct x as [[] ?]. Qed.

Lemma becomes_trans x x1 t x' : becomes x x.1 x1 → becomes x1 t x' → becomes x t x'.
Proof. intros (_ & Hr1 & Ho1 & _) (Hc & Hr & Ho & Ht). split_and!; [done|congruence..|done]. Qed.

(** Some operations end by changing the maps after the journal. *)
Lemma becomes_intro t x x1 s' :
  replays_to t x1 → ac_root x1.1 = ac_root x.1 → store_owner x1.1 = store_owner x.1 →
  s' = store_with t x1.1 → store_ok t → becomes x t (s', x1.2).
Proof.
  intros (rs & Hs & Hr) Hroot Ho -> Hok. destruct x1 as [s1 w]. split_and!; try done.
  split; [|exact Hok]. exists rs. split; [exact Hs|]. by apply (rebuilt_any _ _ s1).
Qed.

Lemma keeps_maps_projections s s' : keeps_maps s s' →
  ac_root s' = ac_root s ∧ store_owner s' = store_owner s ∧ ac_grants s' = ac_grants s ∧ ac_requests s' = ac_requests s ∧
  ac_proofs s' = ac_proofs s ∧ ac_consumed_proof_ids s' = ac_consumed_proof_ids s ∧ ac_audit s' = ac_audit s.
Proof. intros (Hr & Ho & Hm). rewrite <- Hm. cbn. by rewrite <- Ho, Hm. Qed.

(** A grant mutation: the grant and its audit record are journaled and stored. *)
Lemma wp_record_grant `{!ReliableDisk W, !PolicyCodecLaws} g operation a actor (Q : _ → _ → Prop) x :
  consistent x → room 2 x.1 → validate_grant g = Ok tt → is_all_zero_principal_id (g_principal_id g) = false → audits g actor a →
  (∀ g0, assoc (g_grant_id g) (ac_grants x.1) = Some g0 → g_state g = GActive → g_state g0 ≠ GRevoked) →
  (∀ e, ¬ admissible_ura actor → Q (Err e) x) →
  (∀ x', becomes x (set_audit (btree_insert (ga_audit_record_id a) a) (set_grants (btree_insert (g_grant_id g) g) x.1)) x' →
     Q (Ok tt) x') →
  wp (record_grant g operation a actor) Q x.
Proof.
  intros [Hr Hs] Hroom Hv Hz (Hao & Hap & Haa) Hstate Herr Hok. unfold record_grant, room in *. wp_step.
  apply (wp_append_replays x.1); [done|unfold room; lia|done|]. intros x1 Ha Hk1 Hseq1 Hrep1.
  specialize (Hrep1 _ (applies_grant _ _ _ _ Hv Hstate)). wp_step.
  apply (wp_append_replays _ _ _ _ _ _ _ x1 Hrep1); [unfold room; lia|by intros|]. intros x2 _ Hk2 _ Hrep2.
  pose proof (keeps_maps_trans _ _ _ Hk1 Hk2) as Hk. apply keeps_maps_projections in Hk as (? & ? & Eg & Er & Ep & Ec & Ea).
  refine ((λ Happ, _) (Hrep2 _ (applies_audit _ a _ _ _ _ _))).
  - do 3 wp_step. apply Hok. eapply becomes_intro; [exact Happ|done..| |by apply store_ok_grant].
    destruct x2 as [[] ?]. cbn in *. unfold set_audit, set_grants, store_with. cbn. by subst.
  - rewrite Hao. by apply validate_grant_owner.
  - by rewrite Hap.
  - by rewrite Haa.
Qed.

(** [run_ok] runs a chain of checks known to pass. *)
Ltac run_ok :=
  repeat match goal with
  | H : ?m = Ok _ |- context [?m ≫= _] => rewrite H; cbn [mbind result_bind]
  | H : ?m = Some _ |- context [ok_or ?m _ ≫= _] => rewrite H; cbn [ok_or mbind result_bind]
  | H : ?b = true |- context [ensure ?b _ ≫= _] => rewrite H; cbn [ensure mbind result_bind]
  | H : ?b = true |- context [ensure ?b _] => rewrite H; cbn [ensure]
  end.

(** A valid grant stays valid when it leaves the active state. *)
Lemma validate_grant_inactive g state last_used updated revoked reason :
  validate_grant g = Ok tt → state ≠ GActive → readable_time last_used = true →
  validate_grant (grant_with_state g state (g_review_required_after g) last_used updated revoked reason) = Ok tt.
Proof.
  unfold validate_grant. intros Hv Hs Hl. inv_ok. unfold grant_with_state. cbn -[validate_grant_session]. run_ok.
  change (validate_grant_session _ x7) with (validate_grant_session g x7). run_ok.
  rewrite (bool_decide_false (state = GActive)) by done. rewrite andb_false_r. cbn [negb ensure mbind result_bind].
  run_ok. done.
Qed.

(** [normalize_grant_for_create] keeps everything but the state and the review date. *)
Lemma normalize_grant_fields g g' : normalize_grant_for_create g = Ok g' →
  g_principal_id g' = g_principal_id g ∧ g_grant_id g' = g_grant_id g ∧ g_state g' = GActive.
Proof. unfold normalize_grant_for_create. case_match; intros; inv_ok; by subst. Qed.

(** [g'] is [g] in another state. *)
Definition restated (g : PermissionGrant) (state : PermissionGrantState) (g' : PermissionGrant) : Prop :=
  ∃ last_used updated revoked reason,
    g' = grant_with_state g state (g_review_required_after g) last_used updated revoked reason.

(** A store with a grant put in. *)
Definition put_grant (g : PermissionGrant) (a : GrantAuditRecord) (s : AccessControlStore) : AccessControlStore :=
  set_audit (btree_insert (ga_audit_record_id a) a) (set_grants (btree_insert (g_grant_id g) g) s).

Lemma find_values {V} (p : V → bool) (m : list (string * V)) v : List.find p (m.*2) = Some v →
  p v = true ∧ ∃ k, (k, v) ∈ m.
Proof.
  intros [Hin Hp]%find_some. split; [done|]. apply list_elem_of_In, list_elem_of_fmap in Hin as ([k ?] & -> & Hin). eauto.
Qed.

(** [create_grant]: an active grant with the key of the new one is returned and
    nothing changes, otherwise the new one is stored under an unused id. *)
Lemma wp_create_grant `{!ReliableDisk W, !PolicyCodecLaws} grant actor x :
  consistent x → room 3 x.1 → is_all_zero_principal_id (g_principal_id grant) = false →
  wp (create_grant grant actor) (λ r x', match r with
    | Err _ => becomes x x.1 x'
    | Ok res =>
        if gr_idempotent_replay res
        then becomes x x.1 x' ∧ gr_grant res ∈ (ac_grants x.1).*2 ∧ g_state (gr_grant res) = GActive
        else normalize_grant_for_create grant = Ok (gr_grant res) ∧
             assoc (g_grant_id grant) (ac_grants x.1) = None ∧ ∃ a, becomes x (put_grant (gr_grant res) a x.1) x'
    end) x.
Proof.
  intros Hc Hroom Hz. unfold create_grant. do 2 wp_step. destruct (normalize_grant_for_create grant) as [g|] eqn:En; [|by apply becomes_refl].
  pose proof (normalize_grant_fields _ _ En) as (Hpid & Hid & Hst).
  do 2 wp_step. destruct (validate_grant g) as [[]|] eqn:Ev; [|by apply becomes_refl]. do 2 wp_step.
  destruct (existing_grant _ _) as [g0|] eqn:Ex.
  - wp_step. split; [by apply becomes_refl|]. unfold existing_grant in Ex.
    apply find_some in Ex as [Hin%list_elem_of_In [Ha _]%andb_true_iff]. by apply bool_decide_eq_true in Ha.
  - do 2 wp_step. destruct (bool_decide_reflect (assoc (g_grant_id g) (ac_grants x.1) = None)) as [Hnew|];
      cbn [ensure]; [|by apply becomes_refl].
    wp_step. apply wp_audit_record. intros a Ha. wp_step. pose proof (becomes_clock x Hc) as Hb.
    apply wp_record_grant; [by apply consistent_clock|unfold room in *; cbn; lia|done|by rewrite Hpid|done|cbn; by rewrite Hnew|done|].
    intros x' Hx'. wp_step. cbn. rewrite <- Hid. split; [done|]. split; [done|]. exists a. by eapply becomes_trans.
Qed.

Lemma wp_revoke_grant `{!ReliableDisk W, !PolicyCodecLaws} grant_id owner actor reason x :
  consistent x → room 3 x.1 →
  wp (revoke_grant grant_id owner actor reason) (λ r x', match r with
    | Err _ => becomes x x.1 x'
    | Ok g => ∃ g0, assoc grant_id (ac_grants x.1) = Some g0 ∧ g_owner_user_ura g0 = owner ∧
        if bool_decide (g_state g0 = GRevoked) then g = g0 ∧ becomes x x.1 x'
        else restated g0 GRevoked g ∧ ∃ a, becomes x (put_grant g a x.1) x'
    end) x.
Proof.
  intros Hc Hroom. unfold revoke_grant. do 4 wp_step. destruct (assoc grant_id (ac_grants x.1)) as [g0|] eqn:Eg;
    cbn [ok_or]; [|by apply becomes_refl].
  destruct (proj1 (proj2 Hc) _ _ Eg) as (Hid & Hv & Hz).
  do 2 wp_step. destruct (bool_decide_reflect (g_owner_user_ura g0 = owner)); cbn [ensure]; [|by apply becomes_refl].
  destruct (bool_decide_reflect (g_state g0 = GRevoked)) as [Hrev|Hrev].
  - wp_step. exists g0. split_and!; [done..|]. rewrite bool_decide_true by done. split; [done|by apply becomes_refl].
  - wp_step. apply wp_now_rfc3339. wp_step. apply wp_audit_record. intros a Ha. wp_step.
    set (g := grant_with_state _ _ _ _ _ _ _) in *. cbn [fst snd] in *.
    pose proof (becomes_clock x Hc) as Hb. pose proof (becomes_clock _ (proj1 Hb)) as Hb2.
    apply wp_record_grant; [by apply (proj1 Hb2)|unfold room in *; cbn; lia| |done|done|done| |].
    + apply validate_grant_inactive; [done..|]. unfold validate_grant in Hv. by inv_ok.
    + intros ? _. by eapply becomes_trans.
    + intros x' Hx'. wp_step. exists g0. split_and!; [done..|]. rewrite bool_decide_false by done.
      split; [by repeat eexists|]. exists a. eapply becomes_trans; [exact Hb|]. by eapply becomes_trans.
Qed.

Lemma wp_consume_once_grant `{!ReliableDisk W, !PolicyCodecLaws, !ChronoLaws} grant_id actor x :
  consistent x → room 3 x.1 →
  wp (consume_once_grant_if_applicable grant_id actor) (λ r x', match r with
    | Err _ => becomes x x.1 x'
    | Ok None => becomes x x.1 x'
    | Ok (Some g) => ∃ g0 a, assoc grant_id (ac_grants x.1) = Some g0 ∧ g_lifetime g0 = Once ∧ g_state g0 = GActive ∧
        restated g0 GExpired g ∧ becomes x (put_grant g a x.1) x'
    end) x.
Proof.
  intros Hc Hroom. unfold consume_once_grant_if_applicable. do 4 wp_step.
  destruct (assoc grant_id (ac_grants x.1)) as [g0|] eqn:Eg; cbn [ok_or]; [|by apply becomes_refl].
  destruct (proj1 (proj2 Hc) _ _ Eg) as (Hid & Hv & Hz).
  destruct (bool_decide_reflect (g_lifetime g0 = Once)) as [Hl|]; cbn [negb]; [|wp_step; by apply becomes_refl].
  do 2 wp_step. destruct (bool_decide_reflect (g_state g0 = GActive)) as [Hact|]; cbn [andb ensure]; [|by apply becomes_refl].
  destruct (bool_decide_reflect (g_last_used_at g0 = None)); cbn [ensure]; [|by apply becomes_refl].
  wp_step. apply wp_now_rfc3339. wp_step. apply wp_audit_record. intros a Ha. wp_step.
  set (g := grant_with_state _ _ _ _ _ _ _) in *. cbn [fst snd] in *.
  pose proof (becomes_clock x Hc) as Hb. pose proof (becomes_clock _ (proj1 Hb)) as Hb2.
  apply wp_record_grant; [by apply (proj1 Hb2)|unfold room in *; cbn; lia| |done|done|done| |].
  - apply validate_grant_inactive; [done..|]. cbn. rewrite parse_rfc3339_millis. by rewrite bool_decide_true by done.
  - intros ? _. by eapply becomes_trans.
  - intros x' Hx'. wp_step. exists g0, a. split_and!; [done..|by repeat eexists|].
    eapply becomes_trans; [exact Hb|]. by eapply becomes_trans.
Qed.

(** On a working disk the consumption of a grant that is not spent succeeds for
    an actor that may be recorded. *)
Lemma wp_consume_succeeds `{!ReliableDisk W, !PolicyCodecLaws, !ChronoLaws} grant_id actor g0 x :
  consistent x → room 3 x.1 → admissible_ura actor → assoc grant_id (ac_grants x.1) = Some g0 →
  g_state g0 = GActive → (g_lifetime g0 = Once → g_last_used_at g0 = None) →
  wp (consume_once_grant_if_applicable grant_id actor) (λ r _, is_Ok r) x.
Proof.
  intros Hc Hroom Ha Hg0 Hact Hunused. unfold consume_once_grant_if_applicable. do 4 wp_step. rewrite Hg0. cbn [ok_or].
  destruct (proj1 (proj2 Hc) _ _ Hg0) as (Hid & Hv & Hz).
  destruct (bool_decide_reflect (g_lifetime g0 = Once)) as [Hl|]; cbn [negb]; [|wp_step; by eexists].
  do 2 wp_step. rewrite (bool_decide_true (g_state g0 = GActive)), (bool_decide_true (g_last_used_at g0 = None)) by auto.
  cbn [andb ensure]. wp_step. apply wp_now_rfc3339. wp_step. apply wp_audit_record. intros a Haud. wp_step.
  set (g := grant_with_state _ _ _ _ _ _ _) in *. cbn [fst snd] in *.
  apply wp_record_grant; [exact (consistent_clock _ (consistent_clock x Hc))|unfold room in *; cbn; lia| |done|done|done|done|].
  - apply validate_grant_inactive; [done..|]. cbn. rewrite parse_rfc3339_millis. by rewrite bool_decide_true by done.
  - intros x' Hx'. wp_step. by eexists.
Qed.

(** ** Requests *)

(** A request is journaled and stored. *)
Lemma wp_put_request {A} `{!ReliableDisk W, !PolicyCodecLaws} r operation actor (res : A) (Q : _ → _ → Prop) x :
  consistent x → room 1 x.1 → validate_request_transition (assoc (pr_request_id r) (ac_requests x.1)) r = Ok tt →
  (∀ e, Q (Err e) x) →
  (∀ x', becomes x (set_requests (btree_insert (pr_request_id r) r) x.1) x' → Q (Ok res) x') →
  wp (_ ← append_request r operation actor; _ ← insert_request r; mret res) Q x.
Proof.
  intros [Hr Hs] Hroom Hv Herr Hok. wp_step. unfold append_request.
  apply (wp_append_replays x.1); [done|done|by intros|]. intros x1 _ Hk1 _ Hrep1.
  apply keeps_maps_projections in Hk1 as (? & ? & Eg & Er & Ep & Ec & Ea).
  specialize (Hrep1 _ (applies_request _ _ _ _ Hv)). wp_step. unfold insert_request. do 2 wp_step. apply Hok.
  eapply becomes_intro; [exact Hrep1|done..| |done].
  destruct x1 as [[] ?]. cbn in *. unfold set_requests, store_with. cbn. by subst.
Qed.

Lemma wp_upsert_request `{!ReliableDisk W, !PolicyCodecLaws} r actor x :
  consistent x → room 3 x.1 → assoc (pr_request_id r) (ac_requests x.1) = None →
  wp (upsert_permission_request r actor) (λ res x', match res with
    | Err _ => becomes x x.1 x'
    | Ok r' => (r' ∈ (ac_requests x.1).*2 ∧ pr_status r' = Pending ∧ becomes x x.1 x') ∨
               (r' = r ∧ pr_status r = Pending ∧ becomes x (set_requests (btree_insert (pr_request_id r) r) x.1) x')
    end) x.
Proof.
  intros Hc Hroom Hnew. unfold upsert_permission_request. do 2 wp_step.
  destruct (bool_decide_reflect (pr_status r = Pending)) as [Hp|]; cbn [ensure]; [|by apply becomes_refl].
  do 2 wp_step. destruct (validate_request_transition None r) as [[]|] eqn:Ev; [|by apply becomes_refl]. do 2 wp_step.
  destruct (List.find _ _) as [r0|] eqn:Ef.
  - wp_step. left. apply find_some in Ef as [Hin%list_elem_of_In [Hs _]%andb_true_iff].
    apply bool_decide_eq_true in Hs. split_and!; [done..|by apply becomes_refl].
  - apply wp_put_request; [done|unfold room in *; lia|by rewrite Hnew|by intros; apply becomes_refl|]. intros x' Hx'. right. done.
Qed.

(** Filling in the resolver and the time of the resolution may read the clock. *)
Lemma wp_normalize_terminal `{!ReliableDisk W} r actor (Q : _ → _ → Prop) x :
  consistent x →
  (∀ x' resolver at_, becomes x x.1 x' → x'.1 = x.1 → Q (Ok (with_resolution r resolver at_)) x') →
  wp (normalize_terminal_resolution_fields r actor) Q x.
Proof.
  intros Hc HQ. unfold normalize_terminal_resolution_fields. cbn zeta. destruct (none_or_empty (pr_resolved_at r)).
  - wp_step. apply wp_now_rfc3339. wp_step. apply HQ; [by apply becomes_clock|done].
  - wp_step. apply HQ; [by apply becomes_refl|done].
Qed.

Lemma becomes_maps x x' : becomes x x.1 x' →
  ac_grants x'.1 = ac_grants x.1 ∧ ac_requests x'.1 = ac_requests x.1 ∧ ac_proofs x'.1 = ac_proofs x.1 ∧
  ac_consumed_proof_ids x'.1 = ac_consumed_proof_ids x.1 ∧ ac_audit x'.1 = ac_audit x.1.
Proof. intros (_ & _ & _ & <-). done. Qed.

(** The maps of the start of an operation and of a state with the same maps. *)
Lemma becomes_via x x1 t t1 x' : becomes x x.1 x1 → becomes x1 t1 x' →
  store_with t1 x'.1 = store_with t x'.1 → becomes x t x'.
Proof.
  intros Hb1 Hb2 Heq. destruct (becomes_trans _ _ _ _ Hb1 Hb2) as (? & ? & ? & Ht). split_and!; [done..|]. by rewrite <- Heq.
Qed.

Lemma becomes_quiet x x1 x' : becomes x x.1 x1 → becomes x1 x1.1 x' → becomes x x.1 x'.
Proof.
  intros Hb1 Hb2. eapply becomes_via; [done..|]. destruct (becomes_maps _ _ Hb1) as (Eg & Er & Ep & Ec & Ea).
  unfold store_with. by rewrite Eg, Er, Ep, Ec, Ea.
Qed.

Lemma wp_resolve_request `{!ReliableDisk W, !PolicyCodecLaws} r actor x :
  consistent x → room 3 x.1 →
  wp (resolve_permission_request r actor) (λ res x', match res with
    | Err _ => becomes x x.1 x'
    | Ok r' => pr_request_id r' = pr_request_id r ∧ pr_status r' = pr_status r ∧
        validate_request_transition (assoc (pr_request_id r) (ac_requests x.1)) r' = Ok tt ∧
        validate_resolution_authority x.1 r' = Ok tt ∧
        becomes x (set_requests (btree_insert (pr_request_id r) r') x.1) x'
    end) x.
Proof.
  intros Hc Hroom. unfold resolve_permission_request. wp_step.
  set (P := λ (res : result string PermissionRequest) x1, becomes x x.1 x1 ∧ x1.1 = x.1 ∧
              ∃ r', res = Ok r' ∧ pr_request_id r' = pr_request_id r ∧ pr_status r' = pr_status r).
  assert (wp (if is_terminal (pr_status r) then normalize_terminal_resolution_fields r actor else mret r) P x) as HP.
  { destruct (is_terminal (pr_status r)).
    - apply wp_normalize_terminal; [done|]. intros x1 rs at_ Hb Hsame. split_and!; [done..|]. by eexists.
    - wp_step. split_and!; [by apply becomes_refl|done|]. by eexists. }
  eapply wp_mono, HP. intros ? x1 (Hb & Hsame & r' & -> & Hid & Hst). clear HP P. cbn match.
  destruct (becomes_maps _ _ Hb) as (Eg & Er & Ep & Ec & Ea). pose proof (proj1 Hb) as Hc1.
  do 4 wp_step. destruct (validate_request_transition _ r') as [[]|] eqn:Ev; [|done].
  do 2 wp_step. destruct (validate_resolution_authority _ r') as [[]|] eqn:Ea1; [|done].
  do 2 wp_step. destruct (request_transition_operation _ r') as [operation|]; [|done].
  apply wp_put_request; [done|rewrite Hsame; unfold room in *; lia|done..|]. intros x' Hx'.
  rewrite Hid, Er in Ev. split_and!; [done..| |].
  - unfold validate_resolution_authority in *. by rewrite Eg, Ep in Ea1.
  - eapply becomes_via; [exact Hb|exact Hx'|]. unfold store_with. cbn. by rewrite Hid, Eg, Er, Ep, Ec, Ea.
Qed.

(** ** Proofs *)

Lemma ensure_new_proof_Ok s p : ensure_new_proof s p = Ok tt →
  assoc (ap_proof_id p) (ac_proofs s) = None ∧ ap_proof_id p ∉ ac_consumed_proof_ids s.
Proof. unfold ensure_new_proof. intros Hn. inv_ok. by rewrite negb_true_iff, bool_decide_eq_false, bool_decide_eq_true in *. Qed.

Lemma wp_put_proof `{!ReliableDisk W, !PolicyCodecLaws} p actor x :
  consistent x → room 3 x.1 →
  wp (put_authority_proof p actor) (λ res x', match res with
    | Err _ => becomes x x.1 x'
    | Ok p' => p' = p ∧ assoc (ap_proof_id p) (ac_proofs x.1) = None ∧ (ap_proof_id p ∉ ac_consumed_proof_ids x.1) ∧
        becomes x (set_proofs (btree_insert (ap_proof_id p) p) x.1) x'
    end) x.
Proof.
  intros Hc Hroom. unfold put_authority_proof. do 2 wp_step.
  destruct (validate_authority_proof_identity p) as [[]|] eqn:Ev; [|by apply becomes_refl].
  do 4 wp_step. destruct (ensure_new_proof x.1 p) as [[]|] eqn:En; [|by apply becomes_refl].
  apply ensure_new_proof_Ok in En as [Hnew Hcons]. wp_step.
  apply (wp_append_replays x.1); [apply Hc|unfold room in *; lia|by intros; apply becomes_refl|]. intros x1 _ Hk1 _ Hrep1.
  apply keeps_maps_projections in Hk1 as (? & ? & Eg & Er & Ep & Ec & Ea).
  specialize (Hrep1 _ (applies_proof _ _ _ Ev Hcons)). do 3 wp_step. split_and!; [done..|].
  eapply becomes_intro; [exact Hrep1|done..| |apply store_ok_proof; [apply Hc|done]].
  destruct x1 as [[] ?]. cbn in *. unfold set_proofs, store_with. cbn. by subst.
Qed.

Lemma wp_consume_proof `{!ReliableDisk W, !PolicyCodecLaws} proof_id actor x :
  consistent x → room 3 x.1 →
  wp (consume_authority_proof_once proof_id actor) (λ res x', match res with
    | Err _ => becomes x x.1 x'
    | Ok p => assoc proof_id (ac_proofs x.1) = Some p ∧ request_scoped_one_time p = true ∧
        (proof_id ∉ ac_consumed_proof_ids x.1) ∧ becomes x (set_consumed (λ c, {[proof_id]} ∪ c) x.1) x'
    end) x.
Proof.
  intros Hc Hroom. unfold consume_authority_proof_once. do 4 wp_step.
  destruct (assoc proof_id (ac_proofs x.1)) as [p|] eqn:Ep0; cbn [ok_or]; [|by apply becomes_refl].
  destruct (proj2 (proj2 Hc) _ _ Ep0) as (Hid & Hv). subst proof_id.
  do 2 wp_step. destruct (request_scoped_one_time p) eqn:Hone; cbn [ensure]; [|by apply becomes_refl].
  do 2 wp_step. destruct (bool_decide_reflect (ap_proof_id p ∈ ac_consumed_proof_ids x.1)) as [|Hnc];
    cbn [negb ensure]; [by apply becomes_refl|]. wp_step.
  apply (wp_append_replays x.1); [apply Hc|unfold room in *; lia|by intros; apply becomes_refl|]. intros x1 _ Hk1 _ Hrep1.
  apply keeps_maps_projections in Hk1 as (? & ? & Eg & Er & Ep & Ec & Ea).
  specialize (Hrep1 _ (applies_consumed _ _ _ Hv (mk_is_Some _ _ Ep0))). do 3 wp_step.
  refine (conj eq_refl (conj Hone (conj Hnc _))).
  eapply becomes_intro; [exact Hrep1|done..| |apply Hc].
  destruct x1 as [[] ?]. cbn in *. unfold set_consumed, store_with. cbn. by subst.
Qed.

(** ** Approvals *)

(** What an approval leaves of the request it is given. *)
Definition approves (r : PermissionRequest) (grant_id proof_id : option string) (r' : PermissionRequest) : Prop :=
  ∃ resolver at_, r' = with_resolution (with_sources r grant_id proof_id) resolver at_.

Lemma approves_id r grant_id proof_id r' : approves r grant_id proof_id r' → pr_request_id r' = pr_request_id r.
Proof. by intros (? & ? & ->). Qed.

(** The journal and the maps take an approved request and its new grant. *)
Lemma wp_put_request_and_grant `{!ReliableDisk W, !PolicyCodecLaws} r g actor (Q : _ → _ → Prop) x :
  consistent x → room 3 x.1 → validate_request_transition (assoc (pr_request_id r) (ac_requests x.1)) r = Ok tt →
  validate_grant g = Ok tt → is_all_zero_principal_id (g_principal_id g) = false →
  assoc (g_grant_id g) (ac_grants x.1) = None →
  (∀ e x', becomes x x.1 x' → Q (Err e) x') →
  (∀ a x', becomes x (put_grant g a (set_requests (btree_insert (pr_request_id r) r) x.1)) x' →
     Q (Ok (mk_ResolutionResult r (Some g) None false)) x') →
  wp (audit ← audit_record g MutCreated actor ZERO_HASH (grant_hash g);
      operation ← lift_result (request_transition_operation (assoc (pr_request_id r) (ac_requests x.1)) r);
      _ ← append_request r operation actor;
      _ ← append RKGrant (g_grant_id g) OpCreated (grant_value g) actor;
      _ ← append RKAudit (ga_audit_record_id audit) OpCreated (audit_value audit) actor;
      _ ← insert_request r;
      _ ← modify (set_grants (btree_insert (g_grant_id g) g));
      _ ← modify (set_audit (btree_insert (ga_audit_record_id audit) audit));
      mret (mk_ResolutionResult r (Some g) None false)) Q x.
Proof.
  intros Hc Hroom Ev Evg Hz Hnew Herr Hok. unfold room in Hroom. wp_step. apply wp_audit_record. intros a (Hao & Hap & Haa). do 2 wp_step.
  pose proof (becomes_clock _ Hc) as Hb. destruct (request_transition_operation _ r) as [operation|]; [|by apply Herr].
  set (x2 := (x.1, _)) in *. wp_step. unfold append_request.
  apply (wp_append_replays x.1 _ _ _ _ _ _ x2); [apply Hb|unfold room, x2; cbn; lia|by intros; apply Herr|]. intros x3 Hact Hk3 Hseq3 Hrep3.
  specialize (Hrep3 _ (applies_request _ _ _ _ Ev)). cbn in Hseq3. wp_step.
  apply (wp_append_replays _ _ _ _ _ _ _ x3 Hrep3); [unfold room; lia|by intros|]. intros x4 _ Hk4 Hseq4 Hrep4.
  refine ((λ Happ, _) (Hrep4 _ (applies_grant _ g _ _ Evg _))); [|cbn; by rewrite Hnew]. wp_step.
  apply (wp_append_replays _ _ _ _ _ _ _ x4 Happ); [unfold room; lia|by intros|]. intros x5 _ Hk5 _ Hrep5.
  pose proof (keeps_maps_trans _ _ _ Hk3 (keeps_maps_trans _ _ _ Hk4 Hk5)) as Hk.
  apply keeps_maps_projections in Hk as (Ero & Eow & Eg5 & Er5 & Ep5 & Ec5 & Ea5).
  refine ((λ Happ5, _) (Hrep5 _ (applies_audit _ a _ _ _ _ _)));
    [|rewrite Hao; by apply validate_grant_owner|by rewrite Hap|by rewrite Haa].
  unfold insert_request. do 7 wp_step. apply (Hok a).
  eapply becomes_intro; [exact Happ5|done..| |apply store_ok_grant; [apply Hc|done..]].
  destruct x5 as [[] ?]. cbn in *. unfold set_audit, set_grants, set_requests, store_with. cbn. by subst.
Qed.

(** [resolve_permission_request_with_grant]: the approved request and its grant
    are stored together, or the request with a grant that was there. *)
Lemma wp_resolve_with_grant `{!ReliableDisk W, !PolicyCodecLaws} r grant actor x :
  consistent x → room 3 x.1 → is_all_zero_principal_id (g_principal_id grant) = false →
  wp (resolve_permission_request_with_grant r grant actor) (λ res x', match res with
    | Err _ => becomes x x.1 x'
    | Ok res =>
        approves r (Some (g_grant_id grant)) None (rr_request res) ∧
        validate_request_transition (assoc (pr_request_id r) (ac_requests x.1)) (rr_request res) = Ok tt ∧
        ∃ g, rr_created_grant res = Some g ∧
        if rr_idempotent_replay res
        then g ∈ (ac_grants x.1).*2 ∧ g_state g = GActive ∧
             becomes x (set_requests (btree_insert (pr_request_id r) (rr_request res)) x.1) x'
        else normalize_grant_for_create grant = Ok g ∧ assoc (g_grant_id g) (ac_grants x.1) = None ∧
             validate_grant_resolves_request g r = Ok tt ∧
             ∃ a, becomes x (put_grant g a (set_requests (btree_insert (pr_request_id r) (rr_request res)) x.1)) x'
    end) x.
Proof.
  intros Hc Hroom Hz. unfold resolve_permission_request_with_grant. do 2 wp_step.
  destruct (ensure _ _) as [[]|]; [|by apply becomes_refl]. do 2 wp_step.
  destruct (normalize_grant_for_create grant) as [g|] eqn:En; [|by apply becomes_refl].
  pose proof (normalize_grant_fields _ _ En) as (Hpid & Hid & Hst). do 2 wp_step.
  destruct (validate_grant_resolves_request g r) as [[]|] eqn:Evr; [|by apply becomes_refl].
  do 2 (do 2 wp_step; destruct (ensure _ _) as [[]|]; [|by apply becomes_refl]).
  wp_step. apply wp_normalize_terminal; [done|]. intros x1 resolver at_ Hb Hsame. cbn match.
  set (r' := with_resolution _ _ _). assert (approves r (Some (g_grant_id grant)) None r') as Happr.
  { exists resolver, at_. unfold r'. by rewrite Hid. }
  destruct (becomes_maps _ _ Hb) as (Eg & Er & Ep & Ec & Ea). pose proof (proj1 Hb) as Hc1.
  do 4 wp_step. destruct (validate_request_transition _ r') as [[]|] eqn:Ev; [|done].
  do 2 wp_step. destruct (validate_grant g) as [[]|] eqn:Evg; [|done].
  destruct (existing_grant _ _) as [g0|] eqn:Ex.
  - do 2 wp_step. destruct (ensure _ _) as [[]|]; [|done]. do 2 wp_step.
    destruct (request_transition_operation _ r'); [|done].
    apply wp_put_request; [done|rewrite Hsame; unfold room in *; lia|done..|]. intros x' Hx'. cbn. rewrite Er in Ev. split; [done|]. split; [done|].
    exists g0. split; [done|]. apply find_some in Ex as [Hin%list_elem_of_In [Hs _]%andb_true_iff].
    apply bool_decide_eq_true in Hs. rewrite Eg in Hin. split; [done|]. split; [done|].
    eapply becomes_via; [exact Hb|exact Hx'|]. unfold store_with. cbn. by rewrite Eg, Er, Ep, Ec, Ea.
  - do 2 wp_step. destruct (bool_decide_reflect (assoc (g_grant_id g) (ac_grants x1.1) = None)) as [Hnew|];
      cbn [ensure]; [|done].
    apply (wp_put_request_and_grant r'); [done|by rewrite Hsame|done..|by rewrite Hpid|done|by intros; eapply becomes_quiet|].
    intros a x' Hx'. cbn. rewrite Er in Ev. rewrite Eg in Hnew. split; [done|]. split; [done|].
    exists g. split_and!; [done..|]. exists a.
    eapply becomes_via; [exact Hb|exact Hx'|]. unfold store_with. cbn. by rewrite Eg, Er, Ep, Ec, Ea.
Qed.

(** [resolve_permission_request_with_authority_proof]: the approved request and
    its proof are stored together. *)
Lemma wp_resolve_with_proof `{!ReliableDisk W, !PolicyCodecLaws} r p actor x :
  consistent x → room 3 x.1 →
  wp (resolve_permission_request_with_authority_proof r p actor) (λ res x', match res with
    | Err _ => becomes x x.1 x'
    | Ok res =>
        approves r None (Some (ap_proof_id p)) (rr_request res) ∧
        validate_request_transition (assoc (pr_request_id r) (ac_requests x.1)) (rr_request res) = Ok tt ∧
        validate_proof_resolves_request p r = Ok tt ∧ assoc (ap_proof_id p) (ac_proofs x.1) = None ∧
        becomes x (set_proofs (btree_insert (ap_proof_id p) p)
                     (set_requests (btree_insert (pr_request_id r) (rr_request res)) x.1)) x'
    end) x.
Proof.
  intros Hc Hroom. unfold resolve_permission_request_with_authority_proof, room in *. do 2 wp_step.
  destruct (ensure _ _) as [[]|]; [|by apply becomes_refl]. do 2 wp_step.
  destruct (validate_authority_proof_identity p) as [[]|] eqn:Evp; [|by apply becomes_refl]. do 2 wp_step.
  destruct (validate_proof_resolves_request p r) as [[]|] eqn:Evr; [|by apply becomes_refl].
  do 2 (do 2 wp_step; destruct (ensure _ _) as [[]|]; [|by apply becomes_refl]).
  wp_step. apply wp_normalize_terminal; [done|]. intros x1 resolver at_ Hb Hsame. cbn match.
  set (r' := with_resolution _ _ _). assert (approves r None (Some (ap_proof_id p)) r') as Happr by (by exists resolver, at_).
  destruct (becomes_maps _ _ Hb) as (Eg & Er & Ep & Ec & Ea). pose proof (proj1 Hb) as Hc1.
  do 4 wp_step. destruct (validate_request_transition _ r') as [[]|] eqn:Ev; [|done].
  do 2 wp_step. destruct (ensure_new_proof x1.1 p) as [[]|] eqn:En; [|done].
  apply ensure_new_proof_Ok in En as [Hnew Hcons]. do 2 wp_step.
  destruct (request_transition_operation _ r') as [operation|]; [|done]. wp_step. unfold append_request.
  apply (wp_append_replays x1.1); [apply Hc1|unfold room; rewrite Hsame; lia|done|]. intros x3 Hact Hk3 Hseq3 Hrep3. rewrite Hsame in Hseq3.
  specialize (Hrep3 _ (applies_request _ _ _ _ Ev)). wp_step.
  apply (wp_append_replays _ _ _ _ _ _ _ x3 Hrep3); [unfold room; lia|by intros|]. intros x4 _ Hk4 _ Hrep4.
  specialize (Hrep4 _ (applies_proof p _ (set_requests _ x1.1) Evp Hcons)).
  pose proof (keeps_maps_trans _ _ _ Hk3 Hk4) as Hk.
  apply keeps_maps_projections in Hk as (Ero & Eow & Eg4 & Er4 & Ep4 & Ec4 & Ea4).
  unfold insert_request. do 5 wp_step. cbn [rr_request]. rewrite Er in Ev. rewrite Ep in Hnew. split_and!; [done..|].
  eapply becomes_via; [exact Hb| |].
  - eapply becomes_intro; [exact Hrep4|done..| |apply store_ok_proof; [apply Hc1|done]].
    destruct x4 as [[] ?]. cbn in *. unfold set_proofs, set_requests, store_with. cbn. by subst.
  - unfold store_with. cbn. by rewrite Eg, Er, Ep, Ec, Ea.
Qed.

(** ** Compaction *)

Lemma synced_manifest `{!ReliableDisk W} rs m x : synced rs x →
  ps_owner_user_ura (mf_policy_store m) = store_owner x.1 → ps_head_hash (mf_policy_store m) = ac_head_hash x.1 →
  validate_manifest m (store_owner x.1) = Ok tt →
  synced rs (set_manifest m x.1, (write_manifest_file (join (ac_root x.1) MANIFEST_FILE) m x.2).2).
Proof.
  intros ((Hu & Hf & q & Hq & Hc) & Hc' & Hm & Hh & Hv) Ho Hhead Hval. unfold synced, logged. cbn [fst snd].
  change (store_owner (set_manifest m x.1)) with (ps_owner_user_ura (mf_policy_store m)). rewrite Ho.
  refine (conj (conj Hu (conj _ _)) (conj Hc' (conj (read_manifest_written _ _ _) (conj Hhead Hval)))).
  - eapply files_hold_same; [apply write_manifest_journal|exact Hf].
  - by exists q.
Qed.

Lemma wp_write_manifest `{!ReliableDisk W} (Q : _ → _ → Prop) x :
  Q (Ok tt) (x.1, (write_manifest_file (join (ac_root x.1) MANIFEST_FILE) (ac_manifest x.1) x.2).2) → wp write_manifest Q x.
Proof.
  intros HQ. unfold write_manifest. do 2 wp_step. unfold wp, io_result.
  pose proof (write_manifest_succeeds (join (ac_root x.1) MANIFEST_FILE) (ac_manifest x.1) x.2) as Hw.
  destruct (write_manifest_file _ _ _) as [res w]. cbn in *. by subst.
Qed.

Lemma wp_compact `{!ReliableDisk W, !PolicyCodecLaws} policy actor x :
  consistent x → room 3 x.1 → wp (compact policy actor) (λ _ x', becomes x x.1 x') x.
Proof.
  intros Hc Hroom. unfold compact. do 2 wp_step. destruct (validate_compaction_policy policy) as [[]|] eqn:Ev; [|by apply becomes_refl].
  wp_step. unfold wp at 1, io. destruct (utc_now x.2) as [now w1] eqn:Ew. cbn [fst snd].
  pose proof (becomes_clock x Hc) as Hb. rewrite Ew in Hb. cbn [snd] in Hb. do 2 wp_step. cbn [fst]. wp_step.
  apply (wp_append_replays x.1); [apply Hb|unfold room in *; cbn; lia|by intros|]. intros x2 _ Hk2 _ Hrep2. cbn [fst] in *.
  specialize (Hrep2 _ (applies_checkpoint _ (mk_Checkpoint _ _ _ _ _ _ _ _ policy) _ _ (Z.lt_succ_diag_r _) Ev)).
  apply keeps_maps_projections in Hk2 as (Ero & Eow & Eg & Er & Ep & Ec & Ea).
  do 3 wp_step. apply wp_write_manifest. do 3 wp_step. destruct Hrep2 as (rs & Hs & Hr).
  assert (synced rs x2) as (_ & _ & _ & Hh & Hv) by done. destruct x2 as [s2 w2]. cbn [fst snd] in *.
  apply (becomes_intro x.1 x (set_manifest (manifest_with_compacted (to_rfc3339_millis now) (ac_manifest s2)) s2, _));
    [|done|done| |apply Hc].
  - exists rs. split; [|by apply (rebuilt_any _ _ s2)].
    by apply (synced_manifest rs _ (s2, w2)).
  - destruct s2. cbn in *. unfold set_manifest, store_with. cbn. by subst.
Qed.

(** ** Runs *)

(** The operation is one the store can be rebuilt after: the sequence numbers of
    its records (three at most) are there, a new request has a new id, and the
    principal of a new grant is not the all-zero id.  The code asks for none of
    these; [AdmissionSamples] shows what happens without. *)
Definition fit (o : StoreOp) (s : AccessControlStore) : bool :=
  (ac_last_sequence s + 3 <=? u64_max) &&
  match o with
  | CreateGrant g _ | ResolveWithGrant _ g _ => negb (is_all_zero_principal_id (g_principal_id g))
  | UpsertRequest r _ => bool_decide (assoc (pr_request_id r) (ac_requests s) = None)
  | _ => true
  end.

Lemma fit_room o s : fit o s = true → room 3 s.
Proof. intros [Hroom%Z.leb_le _]%andb_true_iff. exact Hroom. Qed.

Fixpoint all_fit (os : list StoreOp) (x : AccessControlStore * W) : bool :=
  match os with
  | [] => true
  | o :: os => fit o x.1 && all_fit os (run_op o x).2
  end.

Lemma wp_discard {A} (m : acm W A) (Q : AccessControlStore * W → Prop) x :
  wp m (λ _ x', Q x') x → wp (_ ← m; mret tt) (λ _ x', Q x') x.
Proof. intros Hm. wp_step. eapply wp_mono, Hm. by intros [] x'. Qed.

Lemma run_op_becomes `{!ReliableDisk W, !PolicyCodecLaws, !ChronoLaws} o x :
  consistent x → fit o x.1 = true → ∃ t, becomes x t (run_op o x).2.
Proof.
  intros Hc Hf. pose proof (fit_room _ _ Hf) as Hroom. apply andb_true_iff in Hf as [_ Hf].
  change (wp (run_op o) (λ _ x', ∃ t, becomes x t x') x). destruct o; cbn [run_op] in *; apply wp_discard;
    try apply negb_true_iff in Hf; try apply bool_decide_eq_true in Hf;
    (eapply wp_mono; [|first
      [ by apply wp_create_grant | by apply wp_revoke_grant | by apply wp_consume_once_grant
      | by apply wp_upsert_request | by apply wp_resolve_request | by apply wp_resolve_with_grant
      | by apply wp_resolve_with_proof | by apply wp_put_proof | by apply wp_consume_proof | by apply wp_compact ]]);
    cbn beta; intros res x' Hpost;
    repeat match goal with
    | H : ∃ _, _ |- _ => destruct H
    | H : _ ∧ _ |- _ => destruct H
    | H : _ ∨ _ |- _ => destruct H
    | H : match ?b with _ => _ end |- _ => destruct b
    end; by eexists.
Qed.

Lemma run_ops_consistent `{!ReliableDisk W, !PolicyCodecLaws, !ChronoLaws} os x :
  consistent x → all_fit os x = true →
  consistent (run_ops os x) ∧ ac_root (run_ops os x).1 = ac_root x.1 ∧ store_owner (run_ops os x).1 = store_owner x.1.
Proof.
  revert x. induction os as [|o os IH]; intros x Hc Hf; cbn [run_ops all_fit] in *; [done|].
  apply andb_true_iff in Hf as [Hf Hfs]. destruct (run_op_becomes o x Hc Hf) as (t & Hc' & Hr & Ho & _).
  destruct (IH _ Hc' Hfs) as (? & -> & ->). done.
Qed.

(** ** Opening *)

Lemma set_manifest_head s : ps_head_hash (mf_policy_store (ac_manifest s)) = ac_head_hash s →
  set_manifest (manifest_with_head (ac_head_hash s) (ac_manifest s)) s = s.
Proof. destruct s as [? [[] ? ?]]. cbn. by intros <-. Qed.

(** Replay of the journal of a store from the empty maps. *)
Lemma replay_records_rebuilds rs x : synced rs x → rebuilt rs x.1 x.1 →
  replay_records rs (empty_store (ac_root x.1) (ac_manifest x.1)) = Ok x.1.
Proof.
  intros ((Hu & _) & Hc & _) Hr. destruct x as [s w]. unfold replay_records. cbn [fst snd] in *.
  change (empty_store _ _) with (store_with (clear_maps s) (at_head 0 ZERO_HASH s)).
  rewrite (replay_chain _ _ _ _ _ _ _ Hu Hc), Hr. cbn. by destruct s.
Qed.

Lemma wp_journal `{!PolicyCodecLaws} rs root (Q : _ → _ → Prop) x owner q h :
  files_hold root rs x.2 → chain owner 0 ZERO_HASH rs q h → Q (Ok rs) x → wp (λ x, (journal root x.2, x)) Q x.
Proof. intros Hf Hc HQ. unfold wp. cbn. by rewrite (journal_hold _ _ _ _ _ _ Hf Hc). Qed.

(** Opening the directory of a store gives the store, unless an approved request
    has lost its authority. *)
Lemma wp_replay `{!ReliableDisk W, !PolicyCodecLaws} x :
  consistent x →
  wp replay (λ r x', r = validate_all_resolution_authorities x.1 ∧ x'.1 = x.1 ∧ (is_Ok r → consistent x'))
    (empty_store (ac_root x.1) (ac_manifest x.1), x.2).
Proof.
  intros [(rs & Hs & Hr) Hok]. pose proof (replay_records_rebuilds rs x Hs Hr) as Hrr.
  assert (synced rs x) as ((Hu & Hf & _) & Hc & Hm & Hh & Hv) by done.
  unfold replay. do 3 wp_step. cbn [fst snd]. eapply wp_journal; [exact Hf|exact Hc|]. do 2 wp_step. rewrite Hrr.
  do 4 wp_step. cbn [fst snd]. destruct (validate_all_resolution_authorities x.1) as [[]|e].
  2: { split_and!; [done..|]. by intros []. }
  do 2 wp_step. cbn [fst snd]. rewrite set_manifest_head by done. apply wp_write_manifest. cbn [fst snd].
  split; [done|]. split; [done|]. intros _. split; [|done]. exists rs. split; [|done].
  pose proof (synced_manifest rs (ac_manifest x.1) x Hs eq_refl Hh Hv) as Hsy.
  by replace (set_manifest (ac_manifest x.1) x.1) with x.1 in Hsy by (by destruct x as [[] ?]).
Qed.

Lemma reopen_eq `{!ReliableDisk W, !PolicyCodecLaws} x :
  consistent x →
  (open_or_create_at (ac_root x.1) (store_owner x.1) x.2).1 = (_ ← validate_all_resolution_authorities x.1; Ok x.1).
Proof.
  intros Hc. assert (consistent x) as [(rs & ((Hu & _) & _ & Hm & _ & Hv) & _) _] by done.
  unfold open_or_create_at. rewrite (proj2 (validate_user_principal_ura_Ok _ _) Hu), Hm. cbn [mbind result_bind].
  rewrite Hv. cbn [mbind result_bind]. pose proof (wp_replay x Hc) as Hw. unfold wp in Hw.
  destruct (replay _) as [r [s' w']]. cbn [fst snd] in Hw. destruct Hw as (-> & -> & _).
  by destruct (validate_all_resolution_authorities x.1) as [[]|].
Qed.

(** A directory without a store. *)
Definition fresh (root : string) (w : W) : Prop :=
  files_hold root [] w ∧ read_manifest_file (join root MANIFEST_FILE) w = Ok None.

(** Stores that opening, operating and restarting lead to. *)
Inductive reachable (root owner : string) : AccessControlStore * W → Prop :=
| reach_open w0 s w : fresh root w0 → open_or_create_at root owner w0 = (Ok s, w) → reachable root owner (s, w)
| reach_op x o : reachable root owner x → fit o x.1 = true → reachable root owner (run_op o x).2
| reach_reopen x s w : reachable root owner x → open_or_create_at root owner x.2 = (Ok s, w) → reachable root owner (s, w).

(** A new store. *)
Lemma consistent_empty `{!ReliableDisk W} root owner now w :
  user_principal owner → files_hold root [] w →
  let m := new_manifest owner now in
  consistent (empty_store root m, (write_manifest_file (join root MANIFEST_FILE) m w).2).
Proof.
  intros Hu Hf m. split; [|done]. exists []. split; [|done].
  pose proof (chain_nil owner 0 ZERO_HASH) as Hc.
  refine (conj (conj Hu (conj _ _)) (conj Hc (conj (read_manifest_written _ _ _) (conj eq_refl _)))).
  - eapply files_hold_same; [apply write_manifest_journal|exact Hf].
  - by exists 0.
  - unfold validate_manifest, m. cbn. change (store_owner _) with owner.
    by rewrite !(proj2 (validate_user_principal_ura_Ok _ _) Hu), bool_decide_true.
Qed.

(** Opening, of a fresh directory or of one with a store, gives a store in order. *)
Lemma open_consistent `{!ReliableDisk W, !PolicyCodecLaws} x s w :
  consistent x → open_or_create_at (ac_root x.1) (store_owner x.1) x.2 = (Ok s, w) → s = x.1 ∧ consistent (s, w).
Proof.
  intros Hc Ho. assert (consistent x) as [(rs & ((Hu & _) & _ & Hm & _ & Hv) & _) _] by done.
  unfold open_or_create_at in Ho. rewrite (proj2 (validate_user_principal_ura_Ok _ _) Hu), Hm in Ho. cbn [mbind result_bind] in Ho.
  rewrite Hv in Ho. cbn [mbind result_bind] in Ho. pose proof (wp_replay x Hc) as Hw. unfold wp in Hw.
  destruct (replay _) as [[[]|] [s' w']]; simplify_eq. cbn [fst snd] in Hw. destruct Hw as (_ & -> & Hcons).
  split; [done|]. apply Hcons. by eexists.
Qed.

Lemma open_fresh `{!ReliableDisk W, !PolicyCodecLaws} root owner w0 s w :
  fresh root w0 → open_or_create_at root owner w0 = (Ok s, w) →
  consistent (s, w) ∧ ac_root s = root ∧ store_owner s = owner.
Proof.
  intros [Hf Hm] Ho. unfold open_or_create_at in Ho. rewrite Hm in Ho.
  destruct (validate_user_principal_ura owner _) as [[]|] eqn:Hu; [|done]. apply validate_user_principal_ura_Ok in Hu.
  pose proof (utc_now_journal w0) as Hj. destruct (utc_now w0) as [now w1]. cbn [snd] in Hj.
  pose proof (consistent_empty root owner (to_rfc3339_millis now) w1 Hu (files_hold_same _ _ _ _ Hj Hf)) as Hc.
  pose proof (write_manifest_succeeds (join root MANIFEST_FILE) (new_manifest owner (to_rfc3339_millis now)) w1) as Hw.
  cbn zeta in Ho, Hc. destruct (write_manifest_file _ _ w1) as [written w2]. cbn [fst snd] in Hw, Hc. subst written.
  assert (consistent (empty_store root (new_manifest owner (to_rfc3339_millis now)), w2)) as [(rs & (_ & _ & _ & _ & Hv) & _) _] by done.
  change (store_owner _) with owner in Hv. cbn [fst ac_manifest empty_store] in Hv.
  cbn [mbind result_bind] in Ho. rewrite Hv in Ho. cbn [mbind result_bind] in Ho.
  pose proof (wp_replay _ Hc) as Hr. unfold wp in Hr. cbn [fst snd ac_root ac_manifest empty_store] in Hr.
  change (mk_Store root _ [] [] [] ∅ [] 0 ZERO_HASH) with (empty_store root (new_manifest owner (to_rfc3339_millis now))) in Hr.
  destruct (replay _) as [[[]|] [s' w']]; simplify_eq. cbn [fst snd] in Hr. destruct Hr as (_ & -> & Hcons).
  split; [apply Hcons; by eexists|done].
Qed.

Lemma reachable_consistent `{!ReliableDisk W, !PolicyCodecLaws, !ChronoLaws} root owner x :
  reachable root owner x → consistent x ∧ ac_root x.1 = root ∧ store_owner x.1 = owner.
Proof.
  induction 1 as [w0 s w Hf Ho|x o _ (Hc & Hr & Ho) Hfit|x s w _ (Hc & <- & <-) Hop].
  - by eapply open_fresh.
  - destruct (run_op_becomes o x Hc Hfit) as (t & Hc' & -> & -> & _). done.
  - destruct (open_consistent x s w Hc Hop) as [-> ?]. done.
Qed.
End ops.
