(* ===== verification/StoreTheorems.v ===== *)
(** * What the access-control store guarantees

    Reopening rebuilds the store; grants, requests and proofs only move forward;
    on any disk one-time grants and proofs are used once, the journal only grows,
    and its head fixes its contents. *)

From Stdlib Require Import String Ascii.
From stdpp Require Import relations.
From S2P Require Import Prelude RustStd Text Ura Identity Json World Decision Grants AuthorityProof AccessControl.
From S2P Require Import StoreJournal StoreProps.
From S2P Require Retry.

Open Scope Z_scope.

(** ** Moving forward *)

(** A grant moves on: an active one expires, one not revoked is revoked. *)
Definition grant_moves (g g' : PermissionGrant) : Prop :=
  (g_state g = GActive ∧ restated g GExpired g') ∨ (g_state g ≠ GRevoked ∧ restated g GRevoked g').

(** A request moves on: a pending one is resolved. *)
Definition request_moves (r r' : PermissionRequest) : Prop :=
  pr_status r = Pending ∧ is_terminal (pr_status r') = true.

(** From [s] to [s']: what is stored stays, moved on or as it was; proofs do not
    change and consumed ones stay consumed. *)
Record evolves (s s' : AccessControlStore) : Prop := mk_evolves {
  ev_grants id g : assoc id (ac_grants s) = Some g → ∃ g', assoc id (ac_grants s') = Some g' ∧ rtc grant_moves g g';
  ev_requests id r : assoc id (ac_requests s) = Some r → ∃ r', assoc id (ac_requests s') = Some r' ∧ rtc request_moves r r';
  ev_proofs id p : assoc id (ac_proofs s) = Some p → assoc id (ac_proofs s') = Some p;
  ev_consumed : ac_consumed_proof_ids s ⊆ ac_consumed_proof_ids s';
}.

#[global] Instance evolves_preorder : PreOrder evolves.
Proof.
  split.
  - intros s. by split; eauto using rtc_refl.
  - intros s1 s2 s3 [G1 R1 P1 C1] [G2 R2 P2 C2]. split; [| |by eauto|by etrans].
    + intros id g (g' & (g2 & ? & ?)%G2 & ?)%G1. exists g2. split; [done|by etrans].
    + intros id r (r' & (r2 & ? & ?)%R2 & ?)%R1. exists r2. split; [done|by etrans].
Qed.

Lemma evolves_same s s' : ac_grants s' = ac_grants s → ac_requests s' = ac_requests s → ac_proofs s' = ac_proofs s →
  ac_consumed_proof_ids s' = ac_consumed_proof_ids s → evolves s s'.
Proof. intros E1 E2 E3 E4. split; rewrite ?E1, ?E2, ?E3, ?E4; eauto using rtc_refl. Qed.

(** Putting in what moves on from what was there. *)
Lemma evolves_put_grant g a s :
  (∀ g0, assoc (g_grant_id g) (ac_grants s) = Some g0 → grant_moves g0 g) → evolves s (put_grant g a s).
Proof.
  intros Hm. split; cbn; eauto using rtc_refl. intros id g0 Hg0. rewrite assoc_btree_insert.
  destruct (String.eqb_spec id (g_grant_id g)) as [->|]; [|by eauto using rtc_refl]. eauto using rtc_once.
Qed.

Lemma evolves_put_request id r s :
  (∀ r0, assoc id (ac_requests s) = Some r0 → request_moves r0 r) → evolves s (set_requests (btree_insert id r) s).
Proof.
  intros Hm. split; cbn; eauto using rtc_refl. intros id' r0 Hr0. rewrite assoc_btree_insert.
  destruct (String.eqb_spec id' id) as [->|]; [|by eauto using rtc_refl]. eauto using rtc_once.
Qed.

Lemma evolves_put_proof id p s :
  assoc id (ac_proofs s) = None → evolves s (set_proofs (btree_insert id p) s).
Proof.
  intros Hm. split; cbn; eauto using rtc_refl. intros id' p0 Hp0. rewrite assoc_btree_insert.
  destruct (String.eqb_spec id' id) as [->|]; [congruence|done].
Qed.

Lemma evolves_consumed id s : evolves s (set_consumed (λ c, {[id]} ∪ c) s).
Proof. split; cbn; eauto using rtc_refl. set_solver. Qed.

Lemma validate_request_transition_moves `{!UraLib, !Chrono} r0 r :
  validate_request_transition (Some r0) r = Ok tt → request_moves r0 r.
Proof.
  unfold validate_request_transition, request_transition_operation. intros Hv. inv_ok.
  destruct (bool_decide_reflect (pr_status r0 = Pending)) as [Hp|]; [|done]. split; [done|].
  by destruct (pr_status r).
Qed.

Section evolution.
Context {W : Type} `{!UraLib, !Chrono, !SerdeJson, !Sha256, !PolicyCodec, !PolicyWorld W}.
Context `{!ReliableDisk W, !PolicyCodecLaws, !ChronoLaws}.

Lemma becomes_evolves x t x' : becomes x t x' → evolves x.1 t → evolves x.1 x'.1.
Proof. intros (_ & _ & _ & <-) He. etrans; [exact He|]. by apply evolves_same. Qed.

Lemma becomes_quiet_evolves x x' : becomes x x.1 x' → evolves x.1 x'.1.
Proof. intros Hb. by apply (becomes_evolves _ _ _ Hb). Qed.
#[local] Hint Resolve becomes_quiet_evolves : core.

(** Putting in a restated grant. *)
Lemma evolves_restated x id g0 state g a :
  consistent x → assoc id (ac_grants x.1) = Some g0 → restated g0 state g →
  (restated g0 state g → grant_moves g0 g) → evolves x.1 (put_grant g a x.1).
Proof.
  intros Hc Hg0 Hre Hm. apply evolves_put_grant. destruct (proj1 (proj2 Hc) _ _ Hg0) as (<- & _).
  assert (g_grant_id g = g_grant_id g0) as -> by (by destruct Hre as (? & ? & ? & ? & ->)).
  rewrite Hg0. intros ? [= <-]. by apply Hm.
Qed.

(** Putting in a request that may follow the one there. *)
Lemma evolves_request id r s : validate_request_transition (assoc id (ac_requests s)) r = Ok tt →
  evolves s (set_requests (btree_insert id r) s).
Proof.
  intros Hv. apply evolves_put_request. intros r0 Hr0. rewrite Hr0 in Hv. by apply validate_request_transition_moves.
Qed.

Lemma run_op_evolves o x : consistent x → fit o x.1 = true → evolves x.1 (run_op o x).2.1.
Proof using Type*.
  intros Hc Hf. pose proof (fit_room _ _ Hf) as Hroom. apply andb_true_iff in Hf as [_ Hf].
  change (wp (run_op o) (λ _ x', evolves x.1 x'.1) x). destruct o; cbn [run_op] in *; apply wp_discard;
    try apply negb_true_iff in Hf; try apply bool_decide_eq_true in Hf.
  - eapply wp_mono; [|by apply wp_create_grant]. intros [res|] x'; [|by auto].
    destruct (gr_idempotent_replay res); [by intros (? & _); auto|].
    intros ((_ & Hid & _)%normalize_grant_fields & Hnew & a & Hb). eapply becomes_evolves; [done|].
    apply evolves_put_grant. by rewrite Hid, Hnew.
  - eapply wp_mono; [|by apply wp_revoke_grant]. intros [res|] x'; [|by auto]. intros (g0 & Hg0 & _ & Hres).
    destruct (bool_decide_reflect (g_state g0 = GRevoked)); [by apply becomes_quiet_evolves, Hres|].
    destruct Hres as (Hre & a & Hb). eapply becomes_evolves; [done|].
    eapply evolves_restated; [done..|]. by right.
  - eapply wp_mono; [|by apply wp_consume_once_grant]. intros [[res|]|] x'; [|by auto..].
    intros (g0 & a & Hg0 & _ & Hact & Hre & Hb). eapply becomes_evolves; [done|].
    eapply evolves_restated; [done..|]. by left.
  - eapply wp_mono; [|by apply wp_upsert_request]. intros [res|] x'; [|by auto].
    intros [(_ & _ & ?)|(-> & _ & Hb)]; [by auto|]. eapply becomes_evolves; [done|]. apply evolves_put_request. by rewrite Hf.
  - eapply wp_mono; [|by apply wp_resolve_request]. intros [res|] x'; [|by auto]. intros (_ & _ & Hv & _ & Hb).
    eapply becomes_evolves; [done|]. by apply evolves_request.
  - eapply wp_mono; [|by apply wp_resolve_with_grant]. intros [res|] x'; [|by auto].
    intros (_ & Hv%evolves_request & g' & _ & Hres). destruct (rr_idempotent_replay res).
    + destruct Hres as (_ & _ & Hb). by eapply becomes_evolves.
    + destruct Hres as (_ & Hnew & _ & a & Hb). eapply becomes_evolves; [done|]. etrans; [exact Hv|].
      apply evolves_put_grant. cbn. by rewrite Hnew.
  - eapply wp_mono; [|by apply wp_resolve_with_proof]. intros [res|] x'; [|by auto]. intros (_ & Hv & _ & Hnew & Hb).
    eapply becomes_evolves; [done|]. etrans; [by apply evolves_request|by apply evolves_put_proof].
  - eapply wp_mono; [|by apply wp_put_proof]. intros [res|] x'; [|by auto]. intros (_ & Hnew & _ & Hb).
    eapply becomes_evolves; [done|]. by apply evolves_put_proof.
  - eapply wp_mono; [|by apply wp_consume_proof]. intros [res|] x'; [|by auto]. intros (_ & _ & _ & Hb).
    eapply becomes_evolves; [done|]. apply evolves_consumed.
  - eapply wp_mono; [|by apply wp_compact]. auto.
Qed.

Lemma run_ops_evolves os x : consistent x → all_fit os x = true → evolves x.1 (run_ops os x).1.
Proof using Type*.
  revert x. induction os as [|o os IH]; intros x Hc Hf; cbn [run_ops all_fit] in *; [done|].
  apply andb_true_iff in Hf as [Hf Hfs]. destruct (run_op_becomes o x Hc Hf) as (t & Hc' & _).
  etrans; [by apply run_op_evolves|by apply IH].
Qed.

(** ** Guarantees *)

(** C22 (roundtrip): on a disk whose writes succeed, for a store made in an empty
    directory and then used by operations and restarts in any order - requests
    created under ids the store does not have, no grant to the all-zero
    principal, and fewer than 2^64 records - opening the directory again gives
    exactly the store that is in memory - maps, sequence, head and manifest -
    provided every approved request still has the authority it was approved with;
    otherwise opening fails with the error of that check.  The code accepts the
    operations left out here, and the store then cannot be opened again. *)
Theorem store_reopens root owner x :
  reachable root owner x →
  (open_or_create_at root owner x.2).1 = (_ ← validate_all_resolution_authorities x.1; Ok x.1).
Proof using Type*. intros (Hc & <- & <-)%reachable_consistent. by apply reopen_eq. Qed.

Lemma reachable_run root owner x os : reachable root owner x → all_fit os x = true → reachable root owner (run_ops os x).
Proof.
  revert x. induction os as [|o os IH]; intros x Hr Hf; cbn [run_ops all_fit] in *; [done|].
  apply andb_true_iff in Hf as [Hf Hfs]. apply IH; [by constructor|done].
Qed.

(** Nothing stored is lost or rewritten by later operations: a
    grant keeps its principal, scope, actions, effect and lifetime and only moves
    from active to expired and to revoked, never back; a resolved request does
    not change; proofs stay as they are, and consumed ones stay consumed. *)
Theorem store_moves_forward root owner x os :
  reachable root owner x → all_fit os x = true → evolves x.1 (run_ops os x).1.
Proof using Type*. intros (Hc & _)%reachable_consistent. by apply run_ops_evolves. Qed.

Lemma rtc_moves_state g g' : rtc grant_moves g g' → g_lifetime g' = g_lifetime g ∧ (g_state g ≠ GActive → g_state g' ≠ GActive).
Proof.
  induction 1 as [|g g1 g' Hm _ (Hl & Hs)]; [done|].
  assert (g_lifetime g1 = g_lifetime g ∧ g_state g1 ≠ GActive) as [Hl1 Hs1].
  { destruct Hm as [[_ (? & ? & ? & ? & ->)]|[_ (? & ? & ? & ? & ->)]]; done. }
  split; [congruence|auto].
Qed.

(** A one-time grant that is not active cannot be consumed. *)
Lemma consume_inactive id actor x g : assoc id (ac_grants x.1) = Some g → g_lifetime g = Once → g_state g ≠ GActive →
  (consume_once_grant_if_applicable id actor x).1 = Err ("once grant `" +:+ id +:+ "` is no longer active").
Proof.
  intros Hg Hl Hs. unfold consume_once_grant_if_applicable, get_store, lift_result, mbind, acm_bind. cbn. rewrite Hg. cbn.
  rewrite (bool_decide_true (g_lifetime g = Once)) by done. cbn. by rewrite bool_decide_false by done.
Qed.

End evolution.

(** ** On any disk *)

Section memory.
Context {W : Type} `{!UraLib, !Chrono, !SerdeJson, !Sha256, !PolicyCodec, !PolicyWorld W}.
Implicit Types (x : AccessControlStore * W).

(** Grants and proofs are stored under their ids, grants under one each. *)
Definition keyed (s : AccessControlStore) : Prop :=
  btree_wf (ac_grants s) ∧ (∀ k g, assoc k (ac_grants s) = Some g → g_grant_id g = k) ∧
  (∀ k p, assoc k (ac_proofs s) = Some p → ap_proof_id p = k).

(** From [s] to [s']: grants move on only, proofs stay and stay consumed. *)
Record lasts (s s' : AccessControlStore) : Prop := mk_lasts {
  la_keyed : keyed s';
  la_grants id g : assoc id (ac_grants s) = Some g → ∃ g', assoc id (ac_grants s') = Some g' ∧ rtc grant_moves g g';
  la_proofs id p : assoc id (ac_proofs s) = Some p → assoc id (ac_proofs s') = Some p;
  la_consumed : ac_consumed_proof_ids s ⊆ ac_consumed_proof_ids s';
}.

Lemma lasts_trans s1 s2 s3 : lasts s1 s2 → lasts s2 s3 → lasts s1 s3.
Proof.
  intros [_ G1 P1 C1] [K G2 P2 C2]. split; [done| |by eauto|by etrans].
  intros id g (g' & (g2 & ? & ?)%G2 & ?)%G1. exists g2. split; [done|by etrans].
Qed.

Lemma lasts_consumed s s' : keyed s → ac_grants s' = ac_grants s → ac_proofs s' = ac_proofs s →
  ac_consumed_proof_ids s ⊆ ac_consumed_proof_ids s' → lasts s s'.
Proof. unfold keyed. intros Hk E1 E2 E3. split; unfold keyed; rewrite ?E1, ?E2; eauto using rtc_refl. Qed.

Lemma lasts_same s s' : keyed s → ac_grants s' = ac_grants s → ac_proofs s' = ac_proofs s →
  ac_consumed_proof_ids s' = ac_consumed_proof_ids s → lasts s s'.
Proof. intros Hk E1 E2 E3. apply lasts_consumed; [done..|by rewrite E3]. Qed.

Lemma lasts_grant g s s' : keyed s → ac_grants s' = btree_insert (g_grant_id g) g (ac_grants s) →
  ac_proofs s' = ac_proofs s → ac_consumed_proof_ids s' = ac_consumed_proof_ids s →
  (∀ g0, assoc (g_grant_id g) (ac_grants s) = Some g0 → grant_moves g0 g) → lasts s s'.
Proof.
  intros (Hwf & Hg & Hp) E1 E2 E3 Hm. split; unfold keyed; rewrite ?E1, ?E2, ?E3; [|intros id g0 Hg0|done..].
  - split_and!; [by apply btree_insert_wf| |done]. intros k g0. rewrite assoc_btree_insert.
    destruct (String.eqb_spec k (g_grant_id g)) as [->|]; [by intros [= <-]|apply Hg].
  - rewrite assoc_btree_insert. destruct (String.eqb_spec id (g_grant_id g)) as [->|]; eauto using rtc_once, rtc_refl.
Qed.

Lemma lasts_proof p s s' : keyed s → ac_grants s' = ac_grants s → ac_proofs s' = btree_insert (ap_proof_id p) p (ac_proofs s) →
  ac_consumed_proof_ids s' = ac_consumed_proof_ids s → assoc (ap_proof_id p) (ac_proofs s) = None → lasts s s'.
Proof.
  intros (Hwf & Hg & Hp) E1 E2 E3 Hnew. split; unfold keyed; rewrite ?E1, ?E2, ?E3; [|eauto using rtc_refl|intros id p0 Hp0|done].
  - split_and!; [done..|]. intros k p0. rewrite assoc_btree_insert.
    destruct (String.eqb_spec k (ap_proof_id p)) as [->|]; [by intros [= <-]|apply Hp].
  - rewrite assoc_btree_insert. destruct (String.eqb_spec id (ap_proof_id p)) as [->|]; [congruence|done].
Qed.

(** What runs before the maps change leaves them, whether it fails or not. *)
Lemma wp_append_any kind id operation payload actor (Q : _ → _ → Prop) x :
  (∀ r x', keeps_maps x.1 x'.1 → Q r x') → wp (append kind id operation payload actor) Q x.
Proof.
  destruct x as [s w]. intros HQ. unfold wp. rewrite append_eq. cbn zeta.
  destruct (validate_runtime_identity_ura actor _); [|by apply HQ].
  destruct (append_line _ _ _) as [[u|e] w1]; [|by apply HQ; destruct s].
  destruct (write_manifest_file _ _ _). by apply HQ; destruct s.
Qed.

Lemma wp_now_any (Q : _ → _ → Prop) x : (∀ r x', x'.1 = x.1 → Q (Ok r) x') → wp now_rfc3339 Q x.
Proof. intros HQ. apply wp_now_rfc3339. by apply HQ. Qed.

Lemma wp_io_now_any (Q : _ → _ → Prop) x : (∀ r x', x'.1 = x.1 → Q (Ok r) x') → wp (io utc_now) Q x.
Proof. intros HQ. unfold wp, io. destruct (utc_now x.2). by apply HQ. Qed.

Lemma wp_write_manifest_any (Q : _ → _ → Prop) x : (∀ r x', x'.1 = x.1 → Q r x') → wp write_manifest Q x.
Proof. intros HQ. unfold write_manifest. do 2 wp_step. unfold wp, io_result. destruct (write_manifest_file _ _ _). by apply HQ. Qed.

(** Ends that leave grants and proofs alone. *)
Ltac same_maps := cbn; repeat (match goal with H : ?y.1 = _ |- context [?y.1] => rewrite H; cbn end); congruence.
Ltac end_same := solve [apply lasts_same; [done|same_maps..]].


(** Ends that put in a grant, a proof. *)
Ltac end_grant :=
  lazymatch goal with |- context [set_grants (btree_insert _ ?g)] => apply (lasts_grant g); [done|same_maps..|] end.
Ltac end_proof :=
  lazymatch goal with |- context [set_proofs (btree_insert _ ?p)] => apply (lasts_proof p); [done|same_maps..|] end.

(** [run_any] runs an operation up to each of its ends, with the maps of every
    state on the way. *)
Ltac run_any :=
  repeat first
    [ wp_step
    | apply wp_append_any; intros [] ? (? & ? & ? & ? & ? & ? & ?)%keeps_maps_projections
    | apply wp_now_any; intros ? ? ?
    | apply wp_io_now_any; intros ? ? ?
    | apply wp_write_manifest_any; intros [] ? ?
    | match goal with
      | |- wp (match ?b with _ => _ end) _ _ => let E := fresh "E" in destruct b eqn:E
      | |- match lift_result ?r _ with _ => _ end => unfold lift_result
      | |- match ?b with Ok _ => _ | Err _ => _ end => let E := fresh "E" in destruct b eqn:E
      end ]; cbn [fst snd ac_grants ac_proofs ac_consumed_proof_ids set_grants set_proofs set_requests set_audit set_consumed set_manifest] in *.

Lemma lasts_op o x : keyed x.1 → lasts x.1 (run_op o x).2.1.
Proof.
  intros Hk. change (wp (run_op o) (λ _ x', lasts x.1 x'.1) x).
  destruct o; cbn [run_op]; apply wp_discard;
    unfold create_grant, revoke_grant, consume_once_grant_if_applicable, upsert_permission_request,
      resolve_permission_request, resolve_permission_request_with_grant, resolve_permission_request_with_authority_proof,
      put_authority_proof, consume_authority_proof_once, compact, record_grant, audit_record, append_request,
      insert_request, normalize_terminal_resolution_fields;
    run_any; try end_same; inv_ok;
    repeat match goal with
    | H : bool_decide _ = true |- _ => apply bool_decide_eq_true in H
    | H : bool_decide _ = false |- _ => apply bool_decide_eq_false in H
    | H : ensure_new_proof _ _ = Ok ?u |- _ => destruct u; apply ensure_new_proof_Ok in H as [? _]
    end.
  - end_grant. intros ? ?. congruence.
  - end_grant. intros g0 Hg0. cbn in Hg0. rewrite (proj1 (proj2 Hk) _ _ E), E in Hg0. injection Hg0 as <-.
    right. split; [done|by repeat eexists].
  - end_grant. intros g0 Hg0. cbn in Hg0. rewrite (proj1 (proj2 Hk) _ _ E), E in Hg0. injection Hg0 as <-.
    apply andb_true_iff in E1 as [Hact%bool_decide_eq_true _]. left. split; [done|by repeat eexists].
  - end_grant. intros ? ?. congruence.
  - end_grant. intros ? ?. congruence.
  - end_proof. congruence.
  - end_proof. congruence.
  - end_proof. congruence.
  - apply lasts_consumed; [done|same_maps..|]. cbn. set_solver.
Qed.

Lemma lasts_ops os x : keyed x.1 → lasts x.1 (run_ops os x).1.
Proof.
  revert x. induction os as [|o os IH]; intros x Hk; cbn [run_ops]; [by apply lasts_same|].
  pose proof (lasts_op o x Hk) as Ho. eapply lasts_trans; [exact Ho|]. apply IH, Ho.
Qed.

(** Replay stores grants and proofs under their ids. *)
Lemma apply_record_keyed r s s' : apply_record r s = Ok s' → keyed s → keyed s'.
Proof.
  unfold apply_record. intros Ha (Hwf & Hg & Hp).
  destruct (jr_record_kind r); [| |destruct (jr_operation r)|..]; inv_ok; unfold keyed; cbn;
    (split_and!; [by auto using btree_insert_wf|intros k v|intros k v]);
    rewrite ?assoc_btree_insert; repeat case_match; intros; simplify_eq; try (symmetry; by apply String.eqb_eq); eauto.
Qed.

Lemma replay_record_keyed seen s r st : replay_record (seen, s) r = Ok st → keyed s → keyed st.2.
Proof. unfold replay_record. intros Hr Hk. inv_ok. cbn. by eapply apply_record_keyed. Qed.

Lemma replay_records_keyed rs s s' : replay_records rs s = Ok s' → keyed s → keyed s'.
Proof.
  unfold replay_records. generalize (∅ : gset Z). revert s. induction rs as [|r rs IH]; intros s seen Hr Hk; cbn [try_fold] in Hr.
  - cbn in Hr. by simplify_eq.
  - destruct (replay_record (seen, s) r) as [[seen1 s1]|] eqn:E; cbn in Hr; [|done].
    apply (IH s1 seen1); [exact Hr|]. exact (replay_record_keyed _ _ _ _ E Hk).
Qed.

Lemma open_keyed root owner w0 s w : open_or_create_at root owner w0 = (Ok s, w) → keyed s.
Proof.
  unfold open_or_create_at. destruct (validate_user_principal_ura owner _); [|done].
  destruct (read_manifest_file _ w0) as [found|]; [|done].
  destruct (match found with Some m => _ | None => _ end) as [manifest w1].
  destruct (mbind _ manifest) as [m|]; [|done]. intros Ho.
  assert (wp replay (λ r x', is_Ok r → keyed x'.1) (empty_store root m, w1)) as Hw.
  { unfold replay. do 3 wp_step. cbn [fst snd]. unfold wp at 1. cbn [fst snd]. destruct (journal _ _) as [rs|]; [|by intros []].
    do 2 wp_step. destruct (replay_records rs _) as [s1|] eqn:E; [|by intros []].
    apply replay_records_keyed in E; [|by split_and!; [constructor|..]]. do 4 wp_step.
    destruct (validate_all_resolution_authorities s1); [|by intros []]. do 2 wp_step.
    apply wp_write_manifest_any. by intros r x' ->. }
  unfold wp in Hw. destruct (replay _) as [[u|] [s2 w2]]; simplify_eq. cbn in Hw. apply Hw. by eexists.
Qed.

(** Stores that are open, whatever the directory held and whatever writes failed:
    what opening one gave, and what operations make of it. *)
Inductive in_use : AccessControlStore * W → Prop :=
| use_open root owner w0 s w : open_or_create_at root owner w0 = (Ok s, w) → in_use (s, w)
| use_op x o : in_use x → in_use (run_op o x).2.

Lemma in_use_keyed x : in_use x → keyed x.1.
Proof. induction 1 as [root owner w0 s w Ho|x o _ IH]; [by eapply open_keyed|]. apply lasts_op, IH. Qed.

(** What a consumption leaves behind. *)
Lemma consumed_state id actor x g x1 : keyed x.1 → consume_once_grant_if_applicable id actor x = (Ok (Some g), x1) →
  keyed x1.1 ∧ assoc id (ac_grants x1.1) = Some g ∧ g_lifetime g = Once ∧ g_state g ≠ GActive.
Proof.
  intros Hk Hcons. split.
  - pose proof (lasts_op (ConsumeOnceGrant id actor) x Hk) as [Hk1 _ _ _]. cbn [run_op] in Hk1.
    unfold mbind, acm_bind in Hk1. by rewrite Hcons in Hk1.
  - assert (wp (consume_once_grant_if_applicable id actor) (λ r x', r = Ok (Some g) →
      assoc id (ac_grants x'.1) = Some g ∧ g_lifetime g = Once ∧ g_state g ≠ GActive) x) as Hw.
    { unfold consume_once_grant_if_applicable, record_grant, audit_record. run_any; intros Hr; simplify_eq; inv_ok.
      rewrite negb_false_iff, bool_decide_eq_true in *. split_and!; [|done..].
      rewrite assoc_btree_insert. cbn. rewrite (proj1 (proj2 Hk) _ _ E). by rewrite String.eqb_refl. }
    unfold wp in Hw. rewrite Hcons in Hw. by apply Hw.
Qed.

(** A one-time grant is consumed at most once: after a consumption
    that succeeded, and any further operations, consuming it again is refused. *)
Theorem once_grant_single_use x id actor g x1 os actor' :
  in_use x → consume_once_grant_if_applicable id actor x = (Ok (Some g), x1) →
  (consume_once_grant_if_applicable id actor' (run_ops os x1)).1 =
    Err ("once grant `" +:+ id +:+ "` is no longer active").
Proof.
  intros Hk%in_use_keyed Hcons. destruct (consumed_state _ _ _ _ _ Hk Hcons) as (Hk1 & Hg1 & Hl1 & Hs1).
  destruct (la_grants _ _ (lasts_ops os x1 Hk1) _ _ Hg1) as (g' & Hg' & [Hl' Hs']%rtc_moves_state).
  apply (consume_inactive _ _ _ g'); [done|congruence|auto].
Qed.

(** A one-time proof of authority is consumed at most once: after
    a consumption that succeeded, and any further operations, consuming it again
    is refused. *)
Theorem proof_single_use x id actor p x1 os actor' :
  in_use x → consume_authority_proof_once id actor x = (Ok p, x1) →
  (consume_authority_proof_once id actor' (run_ops os x1)).1 =
    Err ("authority proof `" +:+ id +:+ "` was already consumed").
Proof.
  intros Hk%in_use_keyed Hcons.
  assert (wp (consume_authority_proof_once id actor) (λ r x', r = Ok p → keyed x'.1 ∧
    assoc id (ac_proofs x'.1) = Some p ∧ request_scoped_one_time p = true ∧ id ∈ ac_consumed_proof_ids x'.1) x) as Hw.
  { unfold consume_authority_proof_once. run_any; intros Hr; simplify_eq; inv_ok.
    split_and!; [|cbn; congruence|done|cbn; set_solver]. apply (lasts_consumed x.1); [done|same_maps..|cbn; set_solver]. }
  unfold wp in Hw. rewrite Hcons in Hw. destruct (Hw eq_refl) as (Hk1 & Hp1 & Hone & Hc1).
  pose proof (lasts_ops os x1 Hk1) as He. apply (la_proofs _ _ He) in Hp1. apply (la_consumed _ _ He) in Hc1.
  unfold consume_authority_proof_once, get_store, lift_result, mbind, acm_bind. cbn. rewrite Hp1. cbn. rewrite Hone. cbn.
  by rewrite bool_decide_true by done.
Qed.
End memory.

(** ** Disks that fail *)

Section lossy.
Context {W : Type} `{!UraLib, !Chrono, !SerdeJson, !Sha256, !PolicyCodec, !PolicyWorld W}.
Context (rs : list JournalRecord) (root owner : string).

(** The journal of this owner in this directory has grown out of [rs], and no
    sequence number above [n] is spent. *)
Definition grown (n : Z) (x : AccessControlStore * W) : Prop :=
  ac_root x.1 = root ∧ store_owner x.1 = owner ∧ ac_last_sequence x.1 ≤ n ∧ ∃ more, logged (rs ++ more) x.

(** [m] makes it grow, with [k] records at most. *)
Definition grows {A} (k : nat) (m : acm W A) : Prop :=
  ∀ n x, n + Z.of_nat k ≤ u64_max → grown n x → wp m (λ _ x', grown (n + Z.of_nat k) x') x.

Lemma grown_mono n n' x : n ≤ n' → grown n x → grown n' x.
Proof. intros Hn (? & ? & ? & ?). split_and!; [done..|lia|done]. Qed.

(** A step without a record. *)
Definition quiet {A} (m : acm W A) : Prop := ∀ n x, grown n x → wp m (λ _ x', grown n x') x.

Lemma grows_quiet {A} k (m : acm W A) : quiet m → grows k m.
Proof. intros Hm n x _ Hx. eapply wp_mono, Hm, Hx. intros ? x'. apply grown_mono. lia. Qed.

Lemma grows_bind {A B} k (m : acm W A) (f : A → acm W B) : quiet m → (∀ a, grows k (f a)) → grows k (m ≫= f).
Proof.
  intros Hm Hf n x Hn Hx. apply wp_bind. eapply wp_mono, Hm, Hx.
  intros [a|e] x' Hx'; [by apply Hf|]. apply (grown_mono n); [lia|done].
Qed.

Lemma grows_assoc {A B C} k (m : acm W A) (f : A → acm W B) (g : B → acm W C) :
  grows k (m ≫= λ a, f a ≫= g) → grows k ((m ≫= f) ≫= g).
Proof.
  intros Hm n x Hn Hx. specialize (Hm n x Hn Hx). unfold wp, mbind, acm_bind in *. by destruct (m x) as [[] ?].
Qed.

Lemma quiet_ret {A} (a : A) : quiet (mret a).
Proof. by intros n x Hx. Qed.

Lemma quiet_lift {A} (r : result string A) : quiet (lift_result r).
Proof. by intros n x Hx. Qed.

Lemma quiet_get : quiet get_store.
Proof. by intros n x Hx. Qed.

(** Changes outside the journal's part of the store. *)
Lemma quiet_modify f :
  (∀ s, ac_root (f s) = ac_root s ∧ store_owner (f s) = store_owner s ∧ ac_last_sequence (f s) = ac_last_sequence s ∧
        ac_head_hash (f s) = ac_head_hash s) → quiet (modify f).
Proof.
  intros Hf n [s w] (Hr & Ho & Hn & more & Hu & Hfiles & q & Hq & Hc). destruct (Hf s) as (Er & Eo & Es & Eh).
  unfold wp, grown, logged. cbn [fst snd modify] in *. rewrite Er, Eo, Es, Eh. split_and!; [done..|]. exists more.
  split_and!; [done..|]. by exists q.
Qed.

Lemma quiet_same {A} (m : acm W A) :
  (∀ s w, (m (s, w)).2.1 = s ∧ same_journal w (m (s, w)).2.2) → quiet m.
Proof.
  intros Hm n [s w] (Hr & Ho & Hn & more & Hu & Hfiles & Hc). destruct (Hm s w) as [Es Ew].
  unfold wp. destruct (m (s, w)) as [a [s' w']]. cbn [fst snd] in *. subst s'. split_and!; [done..|]. exists more.
  split_and!; [done| |done]. by eapply files_hold_same.
Qed.

Context `{!LossyDisk W}.

Lemma quiet_clock : quiet (io utc_now).
Proof using Type*.
  apply quiet_same. intros s w. unfold io. cbn. pose proof (utc_now_journal w). by destruct (utc_now w).
Qed.

Lemma quiet_write_manifest : quiet write_manifest.
Proof using Type*.
  apply quiet_same. intros s w. unfold write_manifest, get_store, io_result, mbind, acm_bind. cbn.
  pose proof (write_manifest_journal (join (ac_root s) MANIFEST_FILE) (ac_manifest s) w).
  by destruct (write_manifest_file _ _ w).
Qed.

(** A record: its sequence number is spent, whether it was written or not. *)
Lemma grows_append {B} k kind id operation payload actor (f : unit → acm W B) :
  (∀ a, grows k (f a)) → grows (S k) (append kind id operation payload actor ≫= f).
Proof using Type*.
  intros Hf n x Hn (Hr & Ho & Hs & more & Hl). apply wp_bind. eapply wp_append; [exact Hl|lia|..].
  - intros e x' Hl' (Hr' & Ho' & _) Hs'. unfold grown. rewrite Hr', Ho'. split_and!; [done..|lia|eauto].
  - intros res x' rec _ Hl' (Hr' & Ho' & _) Hs'. assert (grown (n + 1) x') as Hx'.
    { unfold grown. rewrite Hr', Ho'. split_and!; [done..|lia|]. exists (more ++ [rec]). by rewrite app_assoc. }
    destruct res as [a|]; [|by apply (grown_mono (n + 1)); [lia|]].
    replace (n + Z.of_nat (S k)) with (n + 1 + Z.of_nat k) by lia. apply Hf; [lia|done].
Qed.

Ltac quiet_step :=
  lazymatch goal with
  | |- quiet (mret _) => apply quiet_ret
  | |- quiet (lift_result _) => apply quiet_lift
  | |- quiet get_store => apply quiet_get
  | |- quiet (modify _) => by apply quiet_modify
  | |- quiet (io utc_now) => apply quiet_clock
  | |- quiet write_manifest => apply quiet_write_manifest
  end.

(** Every operation is made of these, with three records at most. *)
Ltac grows_step :=
  lazymatch goal with
  | |- grows _ (match ?b with _ => _ end ≫= _) => destruct b
  | |- grows _ ((_ ≫= _) ≫= _) => apply grows_assoc
  | |- grows _ (append _ _ _ _ _ ≫= _) => apply grows_append; intros ?
  | |- grows _ (_ ≫= _) => apply grows_bind; [quiet_step|intros ?]
  | |- grows _ (match ?b with _ => _ end) => destruct b
  | |- grows _ _ => apply grows_quiet; quiet_step
  end; cbn beta zeta.

Lemma grows_op o : grows 3 (run_op o).
Proof using Type*.
  destruct o; cbn [run_op];
    unfold create_grant, revoke_grant, consume_once_grant_if_applicable, upsert_permission_request,
      resolve_permission_request, resolve_permission_request_with_grant, resolve_permission_request_with_authority_proof,
      put_authority_proof, consume_authority_proof_once, compact, record_grant, audit_record, append_request,
      insert_request, normalize_terminal_resolution_fields, now_rfc3339;
    cbn beta zeta; repeat grows_step.
Qed.

Lemma grows_ops os n x : n + 3 * Z.of_nat (length os) ≤ u64_max → grown n x → grown (n + 3 * Z.of_nat (length os)) (run_ops os x).
Proof using Type*.
  revert n x. induction os as [|o os IH]; intros n x Hn Hx; cbn [length run_ops] in *; [by rewrite Z.add_0_r|].
  replace (n + 3 * Z.of_nat (S (length os))) with (n + 3 + 3 * Z.of_nat (length os)) by lia.
  apply IH; [lia|]. apply (grows_op o n x); [lia|done].
Qed.
End lossy.

Lemma hex_digit_inj a b : 0 ≤ a < 16 → 0 ≤ b < 16 → Retry.hex_digit a = Retry.hex_digit b → a = b.
Proof.
  intros Ha Hb Heq%(f_equal N_of_ascii). unfold Retry.hex_digit in Heq.
  rewrite !N_ascii_embedding in Heq; repeat case_match; lia.
Qed.

Lemma hex_encode_inj s t : Retry.hex_encode s = Retry.hex_encode t → s = t.
Proof.
  revert t. induction s as [|c s IH]; intros [|d t]; cbn; try done. intros Heq. injection Heq as Hhi Hlo Hst.
  destruct (byte_val_bound c), (byte_val_bound d).
  apply hex_digit_inj in Hhi; [|split; [by apply Z.div_pos|by apply Z.div_lt_upper_bound]..]. apply hex_digit_inj in Hlo; [|by apply Z.mod_pos_bound..].
  f_equal; [|by apply IH]. apply byte_val_inj.
  rewrite (Z.div_mod (byte_val c) 16), (Z.div_mod (byte_val d) 16) by done. congruence.
Qed.

Section integrity.
Context {W : Type} `{!UraLib, !Chrono, !SerdeJson, !Sha256, !PolicyCodec, !PolicyWorld W}.

(** On a disk whose writes may fail, and whatever the
    operations are and return, the journal only grows: reading it back gives the
    records it had followed by new ones, in the order they were appended, and
    they form one chain of verified hashes that ends at the head in memory - as
    long as the 64-bit sequence numbers last. *)
Theorem journal_append_only `{!LossyDisk W, !PolicyCodecLaws} rs x os :
  logged rs x → ac_last_sequence x.1 + 3 * Z.of_nat (length os) ≤ u64_max →
  let x' := run_ops os x in
  ∃ more q, journal (ac_root x.1) x'.2 = Ok (rs ++ more) ∧ q ≤ ac_last_sequence x'.1 ∧
    chain (store_owner x.1) 0 ZERO_HASH (rs ++ more) q (ac_head_hash x'.1).
Proof.
  intros Hl Hroom x'.
  assert (grown rs (ac_root x.1) (store_owner x.1) (ac_last_sequence x.1 + 3 * Z.of_nat (length os)) x')
    as (Hr & Ho & _ & more & Hu & Hf & q & Hq & Hc).
  { apply (grows_ops rs _ _ os); [done|]. split_and!; [done..|]. exists []. by rewrite app_nil_r. }
  rewrite Hr in Hf. rewrite Ho in Hc. exists more, q. split_and!; [by eapply journal_hold|done..].
Qed.

(** ** Tampering *)

(** The text a record is hashed as. *)
Definition record_text (r : JournalRecord) : string := canonical_json_bytes (record_material r).

(** A collision between the texts of a record of [rs] and one of [rs'], or a
    record of theirs whose hash is the one the chain starts from. *)
Definition forged (rs rs' : list JournalRecord) : Prop :=
  (∃ r r', r ∈ rs ∧ r' ∈ rs' ∧ record_text r ≠ record_text r' ∧ sha256 (record_text r) = sha256 (record_text r')) ∨
  (∃ r, r ∈ rs ++ rs' ∧ compute_record_hash r = ZERO_HASH).

Lemma forged_app rs rs' more more' : forged rs rs' → forged (rs ++ more) (rs' ++ more').
Proof. unfold forged. set_solver. Qed.

(** Two records with the same contents, payloads up to the order of keys. *)
Definition same_record (r r' : JournalRecord) : Prop :=
  jr_record_kind r = jr_record_kind r' ∧ jr_schema_version r = jr_schema_version r' ∧ jr_sequence r = jr_sequence r' ∧
  jr_owner_user_ura r = jr_owner_user_ura r' ∧ jr_record_id r = jr_record_id r' ∧ jr_operation r = jr_operation r' ∧
  sort_json_value (jr_payload r) = sort_json_value (jr_payload r') ∧
  jr_previous_record_hash r = jr_previous_record_hash r' ∧ jr_record_hash r = jr_record_hash r' ∧
  jr_created_at r = jr_created_at r' ∧ jr_actor_ura r = jr_actor_ura r'.

(** A record whose JSON text determines it: no float, no key twice, and not
    nested beyond the reader's limit. *)
Definition exact_record (r : JournalRecord) : Prop := json_exact 127 (sort_json_value (record_material r)) = true.

Lemma canonical_json_inj `{!SerdeJsonLaws} v v' :
  json_exact 127 (sort_json_value v) = true → json_exact 127 (sort_json_value v') = true →
  canonical_json_bytes v = canonical_json_bytes v' → sort_json_value v = sort_json_value v'.
Proof.
  unfold canonical_json_bytes. intros (b & -> & Hb)%serde_roundtrip (b' & -> & Hb')%serde_roundtrip ->. congruence.
Qed.

#[local] Instance record_kind_name_inj : Inj (=) (=) record_kind_name.
Proof. by intros [] []. Qed.
#[local] Instance record_operation_name_inj : Inj (=) (=) record_operation_name.
Proof. by intros [] []. Qed.

(** Records with the same hash have the same contents, or their texts collide. *)
Lemma record_hash_determines `{!SerdeJsonLaws} r r' :
  exact_record r → exact_record r' → verify_record_hash r = Ok tt → verify_record_hash r' = Ok tt →
  jr_record_hash r = jr_record_hash r' → same_record r r' ∨ forged [r] [r'].
Proof.
  unfold verify_record_hash. intros Hx Hx' Hv Hv' Hh. inv_ok. apply bool_decide_eq_true in Hv, Hv'.
  assert (sha256 (record_text r) = sha256 (record_text r')) as Hcomp.
  { apply hex_encode_inj, (inj (String.append "sha256:")). change (compute_record_hash r = compute_record_hash r'). congruence. }
  destruct (decide (record_text r = record_text r')) as [Hc|Hne]; [left|right; left; set_solver].
  apply canonical_json_inj in Hc; [|done..]. cbn in Hc.
  injection Hc as Ha Hca Hop%(inj record_operation_name) Ho Hp Hpv Hid Hk%(inj record_kind_name) Hsv Hsq.
  by unfold same_record.
Qed.

(** A verified record that ends a chain at its start. *)
Lemma zero_hash_forged rs rs' r : r ∈ rs ++ rs' → verify_record_hash r = Ok tt → jr_record_hash r = ZERO_HASH → forged rs rs'.
Proof.
  unfold verify_record_hash. intros Hr Hv Hh. inv_ok. apply bool_decide_eq_true in Hv. right. exists r. split; [done|congruence].
Qed.

(** Records whose hashes verify and link [h] to [h']. *)
Inductive linked (h : string) : list JournalRecord → string → Prop :=
| linked_nil : linked h [] h
| linked_snoc rs r : linked h rs (jr_previous_record_hash r) → verify_record_hash r = Ok tt →
    linked h (rs ++ [r]) (jr_record_hash r).

Lemma apply_record_head r s s' : apply_record r s = Ok s' → ac_head_hash s' = ac_head_hash s.
Proof.
  unfold apply_record. intros Ha. destruct (jr_record_kind r); [| |destruct (jr_operation r)|..]; by inv_ok.
Qed.

Lemma replay_record_head seen s r st : replay_record (seen, s) r = Ok st →
  jr_previous_record_hash r = ac_head_hash s ∧ verify_record_hash r = Ok tt ∧ ac_head_hash st.2 = jr_record_hash r.
Proof.
  unfold replay_record. intros Hr. inv_ok. rewrite bool_decide_eq_true in *. split_and!; [done..|].
  cbn. by match goal with H : apply_record _ _ = Ok _ |- _ => rewrite (apply_record_head _ _ _ H) end.
Qed.

(** What replay accepts is linked, from the start to the head it finds. *)
Lemma replay_linked rs s s' : replay_records rs s = Ok s' → linked (ac_head_hash s) rs (ac_head_hash s').
Proof.
  unfold replay_records. intros Hr. inv_ok. revert x E. induction rs as [|r rs IH] using rev_ind; intros x E.
  - injection E as <-. constructor.
  - rewrite try_fold_snoc in E. inv_ok. match goal with H : replay_record ?y r = _ |- _ => destruct y as [seen s1] end.
    match goal with H : replay_record _ r = _ |- _ => apply replay_record_head in H as (Hp & Hv & ->) end.
    constructor; [rewrite Hp; exact (IH _ E0)|done].
Qed.

(** Linked records with one head have the same contents, or are forged. *)
Lemma linked_determines `{!SerdeJsonLaws} rs rs' h :
  linked ZERO_HASH rs h → linked ZERO_HASH rs' h → Forall exact_record rs → Forall exact_record rs' →
  Forall2 same_record rs rs' ∨ forged rs rs'.
Proof.
  intros Hc. revert rs'. induction Hc as [|rs r Hc IH Hv]; intros rs' Hc' Hx Hx'.
  - inversion Hc' as [|rs1 r' ? Hv']; subst; [by left|]. right. eapply (zero_hash_forged _ _ r'); [set_solver|done..].
  - apply Forall_app in Hx as [Hx [Hxr _]%Forall_cons]. inversion Hc' as [Heq|rs1 r' Hc1 Hv']; subst.
    + right. eapply (zero_hash_forged _ _ r); [set_solver|done..].
    + apply Forall_app in Hx' as [Hx' [Hxr' _]%Forall_cons].
      destruct (record_hash_determines r r') as [Hsame|Hf]; [done..| |right].
      * assert (jr_previous_record_hash r = jr_previous_record_hash r') as Hprev by apply Hsame. rewrite <- Hprev in Hc1.
        destruct (IH _ Hc1 Hx Hx') as [Hall|]; [left|right; by apply forged_app]. apply Forall2_app; [done|by constructor].
      * destruct Hf as [(? & ? & ->%list_elem_of_singleton & ->%list_elem_of_singleton & ?)|(r0 & Hr0 & ?)]; [left|right; exists r0]; set_solver.
Qed.

(** C28 (safety): the head of the journal fixes its contents: two journals that
    replay accepts and that do not hold the same records in the same order
    (payloads up to the order of keys) end at different heads - unless the texts
    of a record of one and a record of the other are a collision of SHA-256, or
    one of their records hashes to the value the chain starts from.  The records
    are ones whose JSON text determines them: no floats, no key twice in an
    object, nested no deeper than serde_json reads. *)
Theorem journal_tamper_evident `{!SerdeJsonLaws} root root' m m' rs rs' s s' :
  replay_records rs (empty_store root m) = Ok s → replay_records rs' (empty_store root' m') = Ok s' →
  Forall exact_record rs → Forall exact_record rs' → ¬ Forall2 same_record rs rs' →
  ac_head_hash s ≠ ac_head_hash s' ∨ forged rs rs'.
Proof.
  intros Hl%replay_linked Hl'%replay_linked Hx Hx' Hne.
  destruct (decide (ac_head_hash s = ac_head_hash s')) as [Heq|]; [right|by left]. rewrite <- Heq in Hl'.
  by destruct (linked_determines rs rs' _ Hl Hl' Hx Hx').
Qed.
End integrity.
