(* ===== verification/TrustAnchor.v ===== *)
(** * The realm trust anchor (src/src/daemon/trust/anchor.rs)

    The set of keys a daemon trusts: one entry for each hub, backend or device,
    several keys for each user, the tombstones of revoked user keys, and the
    owners of principals.  [HashMap]s are [gmap]s. *)

From Stdlib Require Import String Ascii.
From S2P Require Import Prelude RustStd Text Ura Identity.

Open Scope Z_scope.

(** ** Data *)

Inductive TrustAnchorRole := RoleBackend | RoleDevice | RoleHub | RoleUser.

#[global] Instance TrustAnchorRole_eq_dec : EqDecision TrustAnchorRole.
Proof. solve_decision. Defined.

Record TrustedAgent := mk_TrustedAgent {
  ta_agent_ura : string;
  ta_public_key_b64 : string;
  ta_role : TrustAnchorRole;
  ta_added_at_unix_ms : Z;
  ta_origin_realm : option string;
  ta_hub_endpoint : option string;
  ta_tls_ca_pem_path : option string;
}.

Record TrustedPrincipalOwner := mk_TrustedPrincipalOwner {
  po_principal_ura : string;
  po_owner_user_id : string;
  po_owner_ura : string;
  po_added_at_unix_ms : Z;
}.

Record RevokedUserPubkey := mk_RevokedUserPubkey {
  rk_agent_ura : string;
  rk_public_key_b64 : string;
  rk_revoked_at_unix_ms : Z;
  rk_rotation_epoch : Z;
}.

#[global] Instance TrustedAgent_eq_dec : EqDecision TrustedAgent.
Proof. solve_decision. Defined.

(** The tables of realm-trust.toml. *)
Record RawTrustAnchor := mk_RawTrustAnchor {
  raw_trusted_agent : list TrustedAgent;
  raw_trusted_principal_owner : list TrustedPrincipalOwner;
  raw_revoked_user_pubkey : list RevokedUserPubkey;
}.

Record RealmTrustAnchor := mk_RealmTrustAnchor {
  by_ura : gmap string TrustedAgent;
  users : gmap string (list TrustedAgent);
  revoked_users : gmap string (list RevokedUserPubkey);
  principal_owners : gmap string TrustedPrincipalOwner;
}.

(** [RealmTrustAnchor::default]. *)
Definition empty_anchor : RealmTrustAnchor := mk_RealmTrustAnchor ∅ ∅ ∅ ∅.

(** The errors of the in-memory operations. *)
Inductive RealmTrustError :=
| DuplicateUra (agent_ura : string)
| DuplicateUserPubkey (agent_ura : string)
| DuplicateRevokedUserPubkey (agent_ura : string)
| RevokedUserPubkeyError (agent_ura : string)
| InvalidUraForRole (agent_ura role detail : string)
| InvalidPrincipalOwner (principal_ura detail : string)
| PrincipalOwnerConflict (principal_ura : string)
| ParseFailed (source : string).

(** ** Interfaces *)

(** [Debug] of the SDK's kinds, and TOML with the tables of the anchor. *)
Class TrustLib := {
  kind_debug : URAKind → string;
  anchor_from_toml : string → result string RawTrustAnchor;
  anchor_to_toml : RawTrustAnchor → result string string;
}.

(** What is written reads back. *)
Class TrustLibLaws `{TrustLib} : Prop := {
  toml_roundtrip raw body : anchor_to_toml raw = Ok body → anchor_from_toml body = Ok raw;
}.

(** ** Canonical addresses *)

Definition role_label (role : TrustAnchorRole) : string :=
  match role with
  | RoleBackend => "backend" | RoleDevice => "device" | RoleHub => "hub" | RoleUser => "user"
  end.

Definition canonical_ura_expectation (role : TrustAnchorRole) : string :=
  match role with
  | RoleBackend => "expected the realm hub URA"
  | RoleDevice => "expected a canonical device URA"
  | RoleHub => "expected the peer hub URA"
  | RoleUser => "expected a canonical user URA"
  end.

(** The kind of address a role has. *)
Definition kind_for_role (role : TrustAnchorRole) : URAKind :=
  match role with
  | RoleDevice => KDevice
  | RoleBackend | RoleHub => KAuthority
  | RoleUser => KUser
  end.

Section anchor.
Context `{!UraLib, !TrustLib}.

Definition canonical_ura_for_role (ura : string) (role : TrustAnchorRole) : result RealmTrustError string :=
  identity ← map_err (λ e, InvalidUraForRole ura (role_label role)
                             (canonical_ura_expectation role +:+ "; parse failed: " +:+ identity_error_display e))
               (RuntimeIdentityUra_parse ura);
  if bool_decide (ri_kind identity = kind_for_role role) then Ok (ri_ura identity)
  else Err (InvalidUraForRole ura (role_label role)
              (canonical_ura_expectation role +:+ "; got " +:+ kind_debug (ri_kind identity))).

Definition with_agent_ura (e : TrustedAgent) (ura : string) : TrustedAgent :=
  mk_TrustedAgent ura (ta_public_key_b64 e) (ta_role e) (ta_added_at_unix_ms e) (ta_origin_realm e)
    (ta_hub_endpoint e) (ta_tls_ca_pem_path e).

Definition canonicalize_entry (e : TrustedAgent) : result RealmTrustError TrustedAgent :=
  ura ← canonical_ura_for_role (ta_agent_ura e) (ta_role e);
  Ok (with_agent_ura e ura).

Definition canonical_ura_for_runtime_principal (ura : string) : result RealmTrustError string :=
  identity ← map_err (λ e, InvalidPrincipalOwner ura (identity_error_display e)) (RuntimeIdentityUra_parse ura);
  match ri_kind identity with
  | KAgent | KDevice | KAuthority | KUser => Ok (ri_ura identity)
  | kind => Err (InvalidPrincipalOwner ura ("expected agent, device, hub, or user URA, got " +:+ kind_debug kind))
  end.

Definition canonicalize_principal_owner (o : TrustedPrincipalOwner) : result RealmTrustError TrustedPrincipalOwner :=
  principal ← canonical_ura_for_runtime_principal (po_principal_ura o);
  owner ← canonical_ura_for_role (po_owner_ura o) RoleUser;
  _ ← ensure (negb (blank (po_owner_user_id o))) (InvalidPrincipalOwner principal "owner_user_id is required");
  let user_id := trim (po_owner_user_id o) in
  parsed ← map_err (λ e, InvalidPrincipalOwner principal ("owner_ura parse failed after canonicalization: " +:+ e))
             (parse_ura owner);
  _ ← ensure (bool_decide (ura_user_id parsed = Some user_id))
        (InvalidPrincipalOwner principal "owner_ura user id must equal owner_user_id");
  Ok (mk_TrustedPrincipalOwner principal user_id owner (po_added_at_unix_ms o)).

Definition canonicalize_revoked_user_key (e : RevokedUserPubkey) : result RealmTrustError RevokedUserPubkey :=
  ura ← canonical_ura_for_role (rk_agent_ura e) RoleUser;
  Ok (mk_RevokedUserPubkey ura (rk_public_key_b64 e) (rk_revoked_at_unix_ms e) (rk_rotation_epoch e)).

(** ** Lookups *)

Definition lookup_agent (a : RealmTrustAnchor) (ura : string) : option TrustedAgent := by_ura a !! ura.

Definition lookup_principal_owner (a : RealmTrustAnchor) (ura : string) : option TrustedPrincipalOwner :=
  principal_owners a !! ura.

Definition has_key (key : string) (e : TrustedAgent) : bool := bool_decide (ta_public_key_b64 e = key).
Definition revokes_key (key : string) (e : RevokedUserPubkey) : bool := bool_decide (rk_public_key_b64 e = key).

Definition lookup_user_all (a : RealmTrustAnchor) (user_ura : string) : list TrustedAgent := default [] (users a !! user_ura).

Definition lookup_user_by_pubkey (a : RealmTrustAnchor) (user_ura key : string) : option TrustedAgent :=
  bucket ← users a !! user_ura;
  List.find (has_key key) bucket.

Definition user_rotation_epoch (a : RealmTrustAnchor) (user_ura : string) : Z :=
  match revoked_users a !! user_ura with
  | Some (e :: bucket) => foldl (λ m e, Z.max m (rk_rotation_epoch e)) (rk_rotation_epoch e) bucket
  | _ => 0
  end.

Definition revoked_user_pubkey_count (a : RealmTrustAnchor) (user_ura : string) : nat :=
  length (default [] (revoked_users a !! user_ura)).

Definition is_user_pubkey_revoked (a : RealmTrustAnchor) (user_ura key : string) : bool :=
  existsb (revokes_key key) (default [] (revoked_users a !! user_ura)).

(** The values of a [HashMap] come in some order. *)
Definition values {V} (m : gmap string V) : list V := (map_to_list m).*2.

Definition lookup_peer_hub (a : RealmTrustAnchor) (endpoint : string) : option TrustedAgent :=
  List.find (λ e, bool_decide (ta_role e = RoleHub) && bool_decide (is_Some (ta_origin_realm e))
                  && bool_decide (ta_hub_endpoint e = Some endpoint)) (values (by_ura a)).

Definition has_federation_peer_for_realm (a : RealmTrustAnchor) (origin_realm : string) : bool :=
  let origin_realm := trim origin_realm in
  negb (is_empty origin_realm)
  && existsb (λ e, bool_decide (ta_role e = RoleHub) && bool_decide (ta_origin_realm e = Some origin_realm)
                   && match ta_hub_endpoint e with Some endpoint => negb (blank endpoint) | None => false end
                   && bool_decide (is_Some (ta_tls_ca_pem_path e))) (values (by_ura a)).

(** [len] and [is_empty]. *)
Definition anchor_len (a : RealmTrustAnchor) : nat :=
  (size (by_ura a) + sum_list (length <$> values (users a)))%nat.
Definition anchor_is_empty (a : RealmTrustAnchor) : bool :=
  bool_decide (by_ura a = ∅) && bool_decide (users a = ∅).

(** ** Updates *)

Definition set_by_ura (f : gmap string TrustedAgent → gmap string TrustedAgent) (a : RealmTrustAnchor) : RealmTrustAnchor :=
  mk_RealmTrustAnchor (f (by_ura a)) (users a) (revoked_users a) (principal_owners a).
Definition set_users (f : gmap string (list TrustedAgent) → gmap string (list TrustedAgent)) (a : RealmTrustAnchor)
  : RealmTrustAnchor :=
  mk_RealmTrustAnchor (by_ura a) (f (users a)) (revoked_users a) (principal_owners a).
Definition set_revoked (f : gmap string (list RevokedUserPubkey) → gmap string (list RevokedUserPubkey))
    (a : RealmTrustAnchor) : RealmTrustAnchor :=
  mk_RealmTrustAnchor (by_ura a) (users a) (f (revoked_users a)) (principal_owners a).
Definition set_owners (f : gmap string TrustedPrincipalOwner → gmap string TrustedPrincipalOwner) (a : RealmTrustAnchor)
  : RealmTrustAnchor :=
  mk_RealmTrustAnchor (by_ura a) (users a) (revoked_users a) (f (principal_owners a)).

(** [entry(k).or_default().push(v)]. *)
Definition push_bucket {V} (k : string) (v : V) (m : gmap string (list V)) : gmap string (list V) :=
  <[k := default [] (m !! k) ++ [v]]> m.

(** Operations return the anchor they leave; on an error it is the one they were
    given (a bucket that [or_default] makes stays only if something is pushed). *)
Definition insert_canonicalized (e : TrustedAgent) (a : RealmTrustAnchor) : result RealmTrustError RealmTrustAnchor :=
  match ta_role e with
  | RoleUser =>
      _ ← ensure (negb (is_user_pubkey_revoked a (ta_agent_ura e) (ta_public_key_b64 e)))
            (RevokedUserPubkeyError (ta_agent_ura e));
      _ ← ensure (negb (existsb (has_key (ta_public_key_b64 e)) (default [] (users a !! ta_agent_ura e))))
            (DuplicateUserPubkey (ta_agent_ura e));
      Ok (set_users (push_bucket (ta_agent_ura e) e) a)
  | RoleBackend | RoleDevice | RoleHub =>
      _ ← ensure (bool_decide (by_ura a !! ta_agent_ura e = None)) (DuplicateUra (ta_agent_ura e));
      Ok (set_by_ura (insert (ta_agent_ura e) e) a)
  end.

Definition insert_revoked_canonicalized (e : RevokedUserPubkey) (a : RealmTrustAnchor)
  : result RealmTrustError RealmTrustAnchor :=
  _ ← ensure (negb (existsb (revokes_key (rk_public_key_b64 e)) (default [] (revoked_users a !! rk_agent_ura e))))
        (DuplicateRevokedUserPubkey (rk_agent_ura e));
  Ok (set_revoked (push_bucket (rk_agent_ura e) e) a).

Definition upsert_principal_owner_canonicalized (o : TrustedPrincipalOwner) (a : RealmTrustAnchor)
  : result RealmTrustError RealmTrustAnchor :=
  match principal_owners a !! po_principal_ura o with
  | Some existing =>
      _ ← ensure (bool_decide (po_owner_user_id existing = po_owner_user_id o)
                  && bool_decide (po_owner_ura existing = po_owner_ura o))
            (PrincipalOwnerConflict (po_principal_ura o));
      Ok (set_owners (insert (po_principal_ura o)
            (mk_TrustedPrincipalOwner (po_principal_ura o) (po_owner_user_id o) (po_owner_ura o)
               (po_added_at_unix_ms existing))) a)
  | None => Ok (set_owners (insert (po_principal_ura o) o) a)
  end.

Definition append_agent (e : TrustedAgent) (a : RealmTrustAnchor) : result RealmTrustError RealmTrustAnchor :=
  e ← canonicalize_entry e; insert_canonicalized e a.

Definition upsert_principal_owner (o : TrustedPrincipalOwner) (a : RealmTrustAnchor)
  : result RealmTrustError RealmTrustAnchor :=
  o ← canonicalize_principal_owner o; upsert_principal_owner_canonicalized o a.

(** [a.is_none()] then [b.clone()]. *)
Definition or_else {A} (a b : option A) : option A := match a with Some _ => a | None => b end.

(** What [upsert_singleton_agent] keeps of the entry it replaces; entries by
    address never have the role of a user. *)
Definition merge_singleton (e existing : TrustedAgent) : TrustedAgent :=
  if bool_decide (ta_role existing = RoleUser) then e
  else mk_TrustedAgent (ta_agent_ura e) (ta_public_key_b64 e)
         (if bool_decide (ta_role existing = RoleHub) then RoleHub else ta_role e) (ta_added_at_unix_ms e)
         (or_else (ta_origin_realm e) (ta_origin_realm existing)) (or_else (ta_hub_endpoint e) (ta_hub_endpoint existing))
         (or_else (ta_tls_ca_pem_path e) (ta_tls_ca_pem_path existing)).

Definition upsert_singleton_agent (e : TrustedAgent) (a : RealmTrustAnchor) : result RealmTrustError RealmTrustAnchor :=
  e ← canonicalize_entry e;
  match ta_role e with
  | RoleBackend | RoleHub | RoleDevice =>
      let e := match by_ura a !! ta_agent_ura e with Some existing => merge_singleton e existing | None => e end in
      Ok (set_by_ura (insert (ta_agent_ura e) e) a)
  | RoleUser => insert_canonicalized e a
  end.

(** [revoke_user_pubkey]: the active key goes before the tombstone comes, and a
    failure of the second leaves the first done. *)
Definition revoke_user_pubkey (user_ura key : string) (revoked_at : Z) (a : RealmTrustAnchor)
  : result RealmTrustError (option RevokedUserPubkey) * RealmTrustAnchor :=
  match canonical_ura_for_role user_ura RoleUser with
  | Err e => (Err e, a)
  | Ok canonical =>
      let next_epoch := u64_saturating (user_rotation_epoch a canonical + 1) in
      match users a !! canonical with
      | None => (Ok None, a)
      | Some bucket =>
          let kept := base.filter (λ e, ta_public_key_b64 e ≠ key) bucket in
          let a' := set_users (if bool_decide (kept = []) then delete canonical else insert canonical kept) a in
          if bool_decide (length kept = length bucket) then (Ok None, a')
          else
            let tombstone := mk_RevokedUserPubkey canonical key revoked_at next_epoch in
            match insert_revoked_canonicalized tombstone a' with
            | Ok a'' => (Ok (Some tombstone), a'')
            | Err e => (Err e, a')
            end
      end
  end.

(** ** Snapshots and loading *)

(** [a.cmp(b).then_with(...)] as [<=]. *)
Definition lex_leb (c : comparison) (rest : bool) : bool := match c with Lt => true | Eq => rest | Gt => false end.
Definition str_leb (a b : string) : bool := lex_leb (String.compare a b) true.

Definition agent_leb (a b : TrustedAgent) : bool :=
  lex_leb (String.compare (ta_agent_ura a) (ta_agent_ura b)) (str_leb (ta_public_key_b64 a) (ta_public_key_b64 b)).
Definition owner_leb (a b : TrustedPrincipalOwner) : bool :=
  lex_leb (String.compare (po_principal_ura a) (po_principal_ura b)) (str_leb (po_owner_ura a) (po_owner_ura b)).
Definition revoked_leb (a b : RevokedUserPubkey) : bool :=
  lex_leb (String.compare (rk_agent_ura a) (rk_agent_ura b))
    (lex_leb (Z.compare (rk_rotation_epoch a) (rk_rotation_epoch b)) (str_leb (rk_public_key_b64 a) (rk_public_key_b64 b))).

Definition entries_sorted (a : RealmTrustAnchor) : list TrustedAgent :=
  sort_by agent_leb (values (by_ura a) ++ concat (values (users a))).
Definition principal_owners_sorted (a : RealmTrustAnchor) : list TrustedPrincipalOwner :=
  sort_by owner_leb (values (principal_owners a)).
Definition revoked_user_pubkeys_sorted (a : RealmTrustAnchor) : list RevokedUserPubkey :=
  sort_by revoked_leb (concat (values (revoked_users a))).

Definition from_parts_with_principal_owners (entries : list TrustedAgent) (owners : list TrustedPrincipalOwner)
    (revoked : list RevokedUserPubkey) : result RealmTrustError RealmTrustAnchor :=
  a ← try_fold (λ a r, r ← canonicalize_revoked_user_key r; insert_revoked_canonicalized r a) empty_anchor revoked;
  a ← try_fold (λ a e, e ← canonicalize_entry e; insert_canonicalized e a) a entries;
  try_fold (λ a o, o ← canonicalize_principal_owner o; upsert_principal_owner_canonicalized o a) a owners.

(** [parse]. *)
Definition parse_anchor (raw : string) : result RealmTrustError RealmTrustAnchor :=
  raw ← map_err ParseFailed (anchor_from_toml raw);
  from_parts_with_principal_owners (raw_trusted_agent raw) (raw_trusted_principal_owner raw) (raw_revoked_user_pubkey raw).

(** The text [save] writes. *)
Definition save_body (a : RealmTrustAnchor) : result string string :=
  anchor_to_toml (mk_RawTrustAnchor (entries_sorted a) (principal_owners_sorted a) (revoked_user_pubkeys_sorted a)).
End anchor.
