(* ===== verification/TrustLoad.v ===== *)
(** * What the trust anchor guarantees

    The invariants of anchor.rs - one entry for each address, distinct keys for a
    user, no key both trusted and revoked - hold after every operation; a revoked
    key never comes back; loading what [save] writes gives the anchor back, up to
    the order of keys within a user's entry, and equal anchors save to equal
    text. *)

From Stdlib Require Import String Ascii Sorting.Sorted.
From S2P Require Import Prelude RustStd Text Ura Identity TrustAnchor.

Open Scope Z_scope.

#[global] Instance concat_Permutation {A} : Proper (Permutation ==> Permutation) (@concat A).
Proof.
  induction 1 as [|l k1 k2 _ IH|l1 l2 k|k1 k2 k3 _ IH1 _ IH2]; cbn; [done|by rewrite IH| |by rewrite IH1].
  rewrite !(assoc_L (++)). by rewrite (Permutation_app_comm l2 l1).
Qed.

(** ** Buckets *)

Section buckets.
Context {V : Type} (key : V → string).

(** The values of an address among a list. *)
Definition bucket (k : string) (l : list V) : list V := base.filter (λ v, key v = k) l.

#[global] Instance bucket_Permutation k : Proper (Permutation ==> Permutation) (bucket k).
Proof. intros l1 l2 Hl. unfold bucket. by rewrite Hl. Qed.

(** The buckets of a map hold the values of the list. *)
Definition holds (m : gmap string (list V)) (l : list V) : Prop :=
  ∀ k, m !! k = if bool_decide (bucket k l = []) then None else Some (bucket k l).

Lemma bucket_app k l1 l2 : bucket k (l1 ++ l2) = bucket k l1 ++ bucket k l2.
Proof. apply filter_app. Qed.

Lemma bucket_snoc k l v : bucket k (l ++ [v]) = if decide (key v = k) then bucket k l ++ [v] else bucket k l.
Proof.
  unfold bucket. rewrite filter_app. case_decide.
  - by rewrite (filter_cons_True _ v []).
  - by rewrite (filter_cons_False _ v []), app_nil_r.
Qed.

Lemma holds_default m l k : holds m l → default [] (m !! k) = bucket k l.
Proof. intros ->. by destruct (bool_decide_reflect (bucket k l = [])) as [->|]. Qed.

Lemma holds_push m l v : holds m l → holds (push_bucket (key v) v m) (l ++ [v]).
Proof.
  intros Hm k. unfold push_bucket. rewrite bucket_snoc, (holds_default m l) by done.
  destruct (decide (key v = k)) as [<-|]; [|by rewrite lookup_insert_ne].
  rewrite lookup_insert, decide_True by done. by rewrite bool_decide_false by (by destruct (bucket _ _)).
Qed.

(** A map from addresses to what has them holds the concatenation of its buckets. *)
Definition keyed (m : gmap string (list V)) : Prop := ∀ k b, m !! k = Some b → b ≠ [] ∧ Forall (λ v, key v = k) b.

Lemma bucket_all k b : Forall (λ v, key v = k) b → bucket k b = b.
Proof. induction 1 as [|v b Hv _ IH]; [done|]. unfold bucket in *. by rewrite filter_cons_True, IH. Qed.

Lemma bucket_none k k' b : k ≠ k' → Forall (λ v, key v = k) b → bucket k' b = [].
Proof. induction 2 as [|v b Hv _ IH]; [done|]. unfold bucket in *. by rewrite filter_cons_False, IH by congruence. Qed.

Lemma bucket_concat m k : keyed m → bucket k (concat (values m)) ≡ₚ default [] (m !! k).
Proof.
  unfold values. induction m as [|i b m Hi IH] using map_ind; intros Hk.
  { by rewrite map_to_list_empty, lookup_empty. }
  rewrite map_to_list_insert by done. cbn [fmap list_fmap concat snd].
  rewrite bucket_app.
  destruct (Hk i b) as [Hb Hall]; [by rewrite lookup_insert, decide_True|].
  rewrite IH by (intros k' b' Hb'; apply Hk; rewrite lookup_insert_ne; [done|congruence]).
  destruct (decide (i = k)) as [->|Hne].
  - rewrite lookup_insert, decide_True, Hi by done. cbn. by rewrite app_nil_r, (bucket_all k b Hall).
  - rewrite lookup_insert_ne by done. by rewrite (bucket_none i k b Hne Hall).
Qed.

(** What a list with the values of [m] holds is [m] with its buckets rearranged. *)
Lemma holds_perm m m' l : keyed m → l ≡ₚ concat (values m) → holds m' l →
  ∀ k, option_Forall2 Permutation (m' !! k) (m !! k).
Proof.
  intros Hk Hl Hm' k. rewrite Hm'. assert (bucket k l ≡ₚ default [] (m !! k)) as Hb.
  { rewrite <- (bucket_concat m k Hk). unfold bucket. by rewrite Hl. }
  destruct (m !! k) as [b|] eqn:E; cbn in Hb.
  - destruct (Hk _ _ E) as [Hne _]. rewrite bool_decide_false; [by constructor|]. intros Heq. rewrite Heq in Hb.
    by apply Permutation_nil_l in Hb.
  - apply Permutation_nil_r in Hb. rewrite bool_decide_true by done. constructor.
Qed.

Lemma existsb_bucket (p : V → bool) k l : existsb p (bucket k l) = existsb (λ v, bool_decide (key v = k) && p v) l.
Proof.
  unfold bucket. induction l as [|v l IH]; [done|]. rewrite filter_cons. cbn [existsb]. rewrite <- IH.
  case_decide; [by rewrite bool_decide_true|by rewrite bool_decide_false].
Qed.
End buckets.

(** ** Sorting *)

(** A total order that tells the elements apart has one sorted arrangement. *)
Lemma sort_by_unique {A} (leb : A → A → bool) l k :
  (∀ x y, leb x y = true ∨ leb y x = true) → (∀ x y z, leb x y = true → leb y z = true → leb x z = true) →
  l ≡ₚ k → (∀ x y, x ∈ l → y ∈ l → leb x y = true → leb y x = true → x = y) → sort_by leb l = sort_by leb k.
Proof.
  intros Htot Htr Hlk Hanti.
  assert (∀ l1 l2, StronglySorted leb l1 → StronglySorted leb l2 → l1 ≡ₚ l2 →
    (∀ x y, x ∈ l1 → y ∈ l1 → leb x y = true → leb y x = true → x = y) → l1 = l2) as Huniq.
  { clear. induction l1 as [|x l1 IH]; intros l2 H1 H2 Hp Ha.
    { symmetry in Hp. by apply Permutation_nil_r in Hp. }
    destruct l2 as [|y l2]; [by apply Permutation_nil_r in Hp|].
    inversion H1 as [|?? H1' Hx]; inversion H2 as [|?? H2' Hy]; subst.
    assert (x = y) as ->.
    { assert (y ∈ x :: l1) as Hyin by (rewrite Hp; left). assert (x ∈ y :: l2) as Hxin by (rewrite <- Hp; left).
      apply elem_of_cons in Hyin as [->|Hyin]; [done|]. apply elem_of_cons in Hxin as [->|Hxin]; [done|].
      apply Ha; [left|by right|..]; apply Is_true_true; [rewrite List.Forall_forall in Hx; apply Hx|rewrite List.Forall_forall in Hy; apply Hy];
        by apply list_elem_of_In. }
    f_equal. apply IH; [done..|by apply (inj (cons y))|]. intros. apply Ha; [by right|by right|done..]. }
  apply Huniq; [by apply sort_by_sorted|by apply sort_by_sorted|by rewrite !sort_by_perm|].
  intros x y. rewrite !sort_by_perm. apply Hanti.
Qed.

(** The orders of the snapshots. *)
Lemma str_leb_total a b : str_leb a b = true ∨ str_leb b a = true.
Proof. unfold str_leb. rewrite (String.compare_antisym b a). destruct (String.compare a b); cbn; auto. Qed.

Lemma str_leb_antisym a b : str_leb a b = true → str_leb b a = true → a = b.
Proof.
  unfold str_leb. rewrite (String.compare_antisym b a). destruct (String.compare a b) eqn:E; cbn; try done.
  intros _ _. by apply string_compare_eq.
Qed.

Lemma str_leb_trans a b c : str_leb a b = true → str_leb b c = true → str_leb a c = true.
Proof.
  unfold str_leb. destruct (String.compare a b) eqn:E1; cbn; [|destruct (String.compare b c) eqn:E2; cbn|done]; try done.
  - by apply string_compare_eq in E1 as ->.
  - apply string_compare_eq in E2 as ->. by rewrite E1.
  - by rewrite (string_compare_trans _ _ _ E1 E2).
Qed.

(** Lexicographic composition of a comparison with an order. *)
Lemma lex_total {A} (cmp : A → A → comparison) (leb : A → A → bool) x y :
  cmp y x = CompOpp (cmp x y) → (leb x y = true ∨ leb y x = true) →
  lex_leb (cmp x y) (leb x y) = true ∨ lex_leb (cmp y x) (leb y x) = true.
Proof. intros ->. destruct (cmp x y); cbn; auto. Qed.

Lemma str_compare_lex a b c (r1 r2 r3 : bool) : (r1 = true → r2 = true → r3 = true) →
  lex_leb (String.compare a b) r1 = true → lex_leb (String.compare b c) r2 = true → lex_leb (String.compare a c) r3 = true.
Proof.
  intros Hr. destruct (String.compare a b) eqn:E1; cbn; [|destruct (String.compare b c) eqn:E2; cbn|done]; try done.
  - apply string_compare_eq in E1 as ->. destruct (String.compare b c); cbn; auto.
  - apply string_compare_eq in E2 as ->. by rewrite E1.
  - by rewrite (string_compare_trans _ _ _ E1 E2).
Qed.

Lemma z_compare_lex a b c (r1 r2 r3 : bool) : (r1 = true → r2 = true → r3 = true) →
  lex_leb (Z.compare a b) r1 = true → lex_leb (Z.compare b c) r2 = true → lex_leb (Z.compare a c) r3 = true.
Proof.
  intros Hr. destruct (Z.compare_spec a b); cbn; [|destruct (Z.compare_spec b c); cbn|done]; try done; subst.
  - destruct (Z.compare_spec b c); cbn; auto.
  - destruct (Z.compare_spec a c); cbn; [lia|done|lia].
  - destruct (Z.compare_spec a c); cbn; [lia|done|lia].
Qed.

Lemma lex_both a b (r1 r2 : bool) : lex_leb (String.compare a b) r1 = true → lex_leb (String.compare b a) r2 = true →
  a = b ∧ r1 = true ∧ r2 = true.
Proof.
  rewrite (String.compare_antisym b a). destruct (String.compare a b) eqn:E; cbn; try done.
  intros -> ->. by apply string_compare_eq in E.
Qed.

Lemma agent_leb_total x y : agent_leb x y = true ∨ agent_leb y x = true.
Proof.
  apply (lex_total (λ x y, String.compare (ta_agent_ura x) (ta_agent_ura y))
           (λ x y, str_leb (ta_public_key_b64 x) (ta_public_key_b64 y)));
    [apply String.compare_antisym|apply str_leb_total].
Qed.
Lemma agent_leb_trans x y z : agent_leb x y = true → agent_leb y z = true → agent_leb x z = true.
Proof. apply str_compare_lex, str_leb_trans. Qed.
Lemma agent_leb_antisym x y : agent_leb x y = true → agent_leb y x = true →
  ta_agent_ura x = ta_agent_ura y ∧ ta_public_key_b64 x = ta_public_key_b64 y.
Proof. intros H1 H2. destruct (lex_both _ _ _ _ H1 H2) as (? & ? & ?). auto using str_leb_antisym. Qed.

Lemma owner_leb_total x y : owner_leb x y = true ∨ owner_leb y x = true.
Proof.
  apply (lex_total (λ x y, String.compare (po_principal_ura x) (po_principal_ura y))
           (λ x y, str_leb (po_owner_ura x) (po_owner_ura y)));
    [apply String.compare_antisym|apply str_leb_total].
Qed.
Lemma owner_leb_trans x y z : owner_leb x y = true → owner_leb y z = true → owner_leb x z = true.
Proof. apply str_compare_lex, str_leb_trans. Qed.

Lemma revoked_leb_total x y : revoked_leb x y = true ∨ revoked_leb y x = true.
Proof.
  set (rest := λ x y, lex_leb (Z.compare (rk_rotation_epoch x) (rk_rotation_epoch y))
                        (str_leb (rk_public_key_b64 x) (rk_public_key_b64 y))).
  apply (lex_total (λ x y, String.compare (rk_agent_ura x) (rk_agent_ura y)) rest); [apply String.compare_antisym|].
  apply (lex_total (λ x y, Z.compare (rk_rotation_epoch x) (rk_rotation_epoch y))
           (λ x y, str_leb (rk_public_key_b64 x) (rk_public_key_b64 y))); [apply Z.compare_antisym|apply str_leb_total].
Qed.
Lemma revoked_leb_trans x y z : revoked_leb x y = true → revoked_leb y z = true → revoked_leb x z = true.
Proof. apply str_compare_lex, z_compare_lex, str_leb_trans. Qed.
Lemma revoked_leb_antisym x y : revoked_leb x y = true → revoked_leb y x = true →
  rk_agent_ura x = rk_agent_ura y ∧ rk_public_key_b64 x = rk_public_key_b64 y.
Proof.
  intros H1 H2. destruct (lex_both _ _ _ _ H1 H2) as (? & He1 & He2). split; [done|].
  rewrite (Z.compare_antisym (rk_rotation_epoch x)) in He2.
  destruct (Z.compare_spec (rk_rotation_epoch x) (rk_rotation_epoch y)); cbn in *; [|done|done]. by apply str_leb_antisym.
Qed.

(** ** The invariant *)

Section invariant.
Context `{!UraLib, !TrustLib}.
Implicit Types (a : RealmTrustAnchor).

(** An address in the form it is stored under. *)
Definition canonical (role : TrustAnchorRole) (ura : string) : Prop := canonical_ura_for_role ura role = Ok ura.

Record anchor_ok a : Prop := mk_anchor_ok {
  ok_by_ura k e : by_ura a !! k = Some e → ta_agent_ura e = k ∧ ta_role e ≠ RoleUser ∧ canonical (ta_role e) k;
  ok_users k b : users a !! k = Some b →
    b ≠ [] ∧ NoDup (ta_public_key_b64 <$> b) ∧ canonical RoleUser k ∧
    Forall (λ e, ta_agent_ura e = k ∧ ta_role e = RoleUser ∧ is_user_pubkey_revoked a k (ta_public_key_b64 e) = false) b;
  ok_revoked k b : revoked_users a !! k = Some b →
    b ≠ [] ∧ NoDup (rk_public_key_b64 <$> b) ∧ canonical RoleUser k ∧ Forall (λ e, rk_agent_ura e = k) b;
  ok_owners k o : principal_owners a !! k = Some o → po_principal_ura o = k ∧ canonicalize_principal_owner o = Ok o;
}.

(** Parsing an identity trims it; a parsed identity parses to itself. *)
Lemma RuntimeIdentityUra_parse_idemp ura i : RuntimeIdentityUra_parse ura = Ok i →
  RuntimeIdentityUra_parse (ri_ura i) = Ok i.
Proof.
  unfold RuntimeIdentityUra_parse. destruct (is_empty (trim ura)) eqn:E1; [done|].
  destruct (contains_all_zero_principal_placeholder (trim ura)) eqn:E2; [done|].
  destruct (parse_ura (trim ura)) as [p|] eqn:E3; [|done]. intros [= <-]. cbn [ri_ura]. by rewrite trim_idemp, E1, E2, E3.
Qed.

Lemma canonical_idemp ura role c : canonical_ura_for_role ura role = Ok c → canonical role c.
Proof.
  unfold canonical, canonical_ura_for_role. destruct (RuntimeIdentityUra_parse ura) as [i|] eqn:E; [|done]. cbn.
  destruct (bool_decide_reflect (ri_kind i = kind_for_role role)); [|done]. intros [= <-].
  rewrite (RuntimeIdentityUra_parse_idemp _ _ E). cbn. by rewrite bool_decide_true.
Qed.

(** The role decides the kind, so no address has two kinds. *)
Lemma canonical_kind role role' ura : canonical role ura → canonical role' ura → kind_for_role role = kind_for_role role'.
Proof.
  unfold canonical, canonical_ura_for_role. destruct (RuntimeIdentityUra_parse ura); [|done]. cbn.
  repeat case_bool_decide; congruence.
Qed.

Lemma canonical_same_kind role role' ura : kind_for_role role = kind_for_role role' → canonical role ura → canonical role' ura.
Proof.
  unfold canonical, canonical_ura_for_role. intros Hk. destruct (RuntimeIdentityUra_parse ura); [|done]. cbn.
  rewrite <- Hk. by case_bool_decide.
Qed.

Lemma canonicalize_entry_Ok e e' : canonicalize_entry e = Ok e' → canonical (ta_role e') (ta_agent_ura e').
Proof. unfold canonicalize_entry. intros He. inv_ok. cbn. by eapply canonical_idemp. Qed.

Lemma canonicalize_entry_id e : canonical (ta_role e) (ta_agent_ura e) → canonicalize_entry e = Ok e.
Proof. unfold canonical, canonicalize_entry. intros ->. cbn. by destruct e. Qed.

Lemma canonicalize_principal_owner_idemp o o' :
  canonicalize_principal_owner o = Ok o' → canonicalize_principal_owner o' = Ok o'.
Proof.
  unfold canonicalize_principal_owner. intros Ho. inv_ok. cbn [po_principal_ura po_owner_user_id po_owner_ura po_added_at_unix_ms].
  assert (canonical_ura_for_runtime_principal x = Ok x) as ->.
  { unfold canonical_ura_for_runtime_principal in *. destruct (RuntimeIdentityUra_parse (po_principal_ura o)) as [i|] eqn:Ei; [|done].
    cbn in E. assert (x = ri_ura i) as -> by (by destruct (ri_kind i); simplify_eq).
    rewrite (RuntimeIdentityUra_parse_idemp _ _ Ei). cbn. by destruct (ri_kind i). }
  cbn [mbind result_bind]. rewrite (canonical_idemp _ _ _ E0). cbn [mbind result_bind]. unfold blank in *.
  rewrite trim_idemp, E1. cbn [ensure mbind result_bind]. rewrite E2. cbn [map_err mbind result_bind]. by rewrite E3.
Qed.

(** ** Operations keep it *)

Lemma revoked_push_other a e k key : k ≠ rk_agent_ura e →
  is_user_pubkey_revoked (set_revoked (push_bucket (rk_agent_ura e) e) a) k key = is_user_pubkey_revoked a k key.
Proof. intros Hk. unfold is_user_pubkey_revoked, push_bucket. cbn. by rewrite lookup_insert_ne. Qed.

Lemma revoked_push a e key :
  is_user_pubkey_revoked (set_revoked (push_bucket (rk_agent_ura e) e) a) (rk_agent_ura e) key =
    is_user_pubkey_revoked a (rk_agent_ura e) key || revokes_key key e.
Proof.
  unfold is_user_pubkey_revoked, push_bucket. cbn. rewrite lookup_insert, decide_True by done. cbn.
  by rewrite existsb_app; cbn; rewrite orb_false_r.
Qed.

Lemma existsb_has_key key b : existsb (has_key key) b = false → key ∉ ta_public_key_b64 <$> b.
Proof.
  intros He Hin. apply list_elem_of_fmap in Hin as (e & -> & Hin). apply not_true_iff_false in He. apply He.
  apply existsb_exists. exists e. split; [by apply list_elem_of_In|]. by apply bool_decide_eq_true.
Qed.

Lemma existsb_revokes_key key b : existsb (revokes_key key) b = false → key ∉ rk_public_key_b64 <$> b.
Proof.
  intros He Hin. apply list_elem_of_fmap in Hin as (e & -> & Hin). apply not_true_iff_false in He. apply He.
  apply existsb_exists. exists e. split; [by apply list_elem_of_In|]. by apply bool_decide_eq_true.
Qed.

Lemma NoDup_snoc {A} (x : A) l : x ∉ l → NoDup l → NoDup (l ++ [x]).
Proof.
  intros Hx Hl. apply NoDup_app. split_and!; [done| |apply NoDup_singleton]. intros y Hy ->%list_elem_of_singleton. done.
Qed.

Lemma insert_canonicalized_ok e a a' : anchor_ok a → canonical (ta_role e) (ta_agent_ura e) →
  insert_canonicalized e a = Ok a' → anchor_ok a'.
Proof.
  intros [Hb Hu Hr Ho] Hc. unfold insert_canonicalized. destruct (ta_role e) eqn:Er; intros Hi; inv_ok.
  1-3: split; cbn; try done; intros k e'; rewrite lookup_insert_Some; intros [[<- <-]|[_ ?]]; [by rewrite Er|by apply Hb].
  split; cbn; try done. intros k b. unfold push_bucket. rewrite lookup_insert_Some. intros [[<- <-]|[_ ?]]; [|by apply Hu].
  apply negb_true_iff in E, E0.
  assert (NoDup (ta_public_key_b64 <$> default [] (users a !! ta_agent_ura e)) ∧
    Forall (λ e0, ta_agent_ura e0 = ta_agent_ura e ∧ ta_role e0 = RoleUser ∧
      is_user_pubkey_revoked a (ta_agent_ura e) (ta_public_key_b64 e0) = false) (default [] (users a !! ta_agent_ura e))) as [Hnd Hall].
  { destruct (users a !! ta_agent_ura e) as [b|] eqn:Eb; cbn; [|by repeat constructor].
    destruct (Hu _ _ Eb) as (_ & ? & _ & ?). done. }
  split_and!; [by destruct (default [] _)| |done|].
  - rewrite fmap_app. apply NoDup_snoc; [by apply existsb_has_key|done].
  - apply Forall_app; split; [done|]. by repeat constructor.
Qed.

Lemma insert_revoked_ok e a a' : anchor_ok a → canonical RoleUser (rk_agent_ura e) →
  lookup_user_by_pubkey a (rk_agent_ura e) (rk_public_key_b64 e) = None →
  insert_revoked_canonicalized e a = Ok a' → anchor_ok a'.
Proof.
  intros [Hb Hu Hr Ho] Hc Hn. unfold insert_revoked_canonicalized. intros Hi. inv_ok. apply negb_true_iff in E.
  split; cbn; try done.
  - intros k b Hk. destruct (Hu k b Hk) as (Hne & Hnd & Hcan & Hall). split_and!; [done..|].
    apply Forall_forall. intros e' Hin. rewrite Forall_forall in Hall. destruct (Hall e' Hin) as (? & ? & Hrv).
    split_and!; [done..|]. destruct (decide (k = rk_agent_ura e)) as [->|]; [|by rewrite revoked_push_other].
    rewrite revoked_push, Hrv. cbn. unfold revokes_key. apply bool_decide_eq_false. intros Heq.
    unfold lookup_user_by_pubkey in Hn. rewrite Hk in Hn. cbn in Hn.
    apply list_elem_of_In, (find_none _ _ Hn) in Hin as Hf. unfold has_key in Hf.
    apply bool_decide_eq_false in Hf. congruence.
  - intros k b. unfold push_bucket. rewrite lookup_insert_Some. intros [[<- <-]|[_ ?]]; [|by apply Hr].
    assert (NoDup (rk_public_key_b64 <$> default [] (revoked_users a !! rk_agent_ura e)) ∧
      Forall (λ e0, rk_agent_ura e0 = rk_agent_ura e) (default [] (revoked_users a !! rk_agent_ura e))) as [Hnd Hall].
    { destruct (revoked_users a !! rk_agent_ura e) as [b|] eqn:Eb; cbn; [|by repeat constructor].
      destruct (Hr _ _ Eb) as (_ & ? & _ & ?). done. }
    split_and!; [by destruct (default [] _)| |done|].
    + rewrite fmap_app. apply NoDup_snoc; [by apply existsb_revokes_key|done].
    + apply Forall_app; split; [done|]. by repeat constructor.
Qed.

Lemma merge_singleton_ok e existing a :
  anchor_ok a → by_ura a !! ta_agent_ura e = Some existing → canonical (ta_role e) (ta_agent_ura e) → ta_role e ≠ RoleUser →
  let e' := merge_singleton e existing in
  ta_agent_ura e' = ta_agent_ura e ∧ ta_role e' ≠ RoleUser ∧ canonical (ta_role e') (ta_agent_ura e).
Proof.
  intros Hok Hex Hc Hnu. destruct (ok_by_ura _ Hok _ _ Hex) as (_ & Hexu & Hexc). unfold merge_singleton.
  rewrite bool_decide_false by done. cbn. split; [done|].
  destruct (bool_decide_reflect (ta_role existing = RoleHub)) as [Hh|]; [by rewrite <- Hh|done].
Qed.

Lemma upsert_singleton_ok e a a' : anchor_ok a → upsert_singleton_agent e a = Ok a' → anchor_ok a'.
Proof.
  intros Hok. unfold upsert_singleton_agent. destruct (canonicalize_entry e) as [e1|] eqn:Ec; [|done]. cbn [mbind result_bind].
  apply canonicalize_entry_Ok in Ec. destruct (decide (ta_role e1 = RoleUser)) as [Hu|Hnu].
  { rewrite Hu. by apply insert_canonicalized_ok. }
  assert (∀ e2, ta_agent_ura e2 = ta_agent_ura e1 → ta_role e2 ≠ RoleUser → canonical (ta_role e2) (ta_agent_ura e1) →
    anchor_ok (set_by_ura (insert (ta_agent_ura e2) e2) a)) as Hins.
  { intros e2 Hur Hr2 Hc2. destruct Hok as [Hb Hus Hr Ho]. split; cbn; try done.
    intros k e'. rewrite lookup_insert_Some. intros [[<- <-]|[_ ?]]; [by rewrite Hur|by apply Hb]. }
  intros Hi. assert (a' = set_by_ura (insert (ta_agent_ura e1)
    (match by_ura a !! ta_agent_ura e1 with Some existing => merge_singleton e1 existing | None => e1 end)) a) as ->.
  { destruct (by_ura a !! ta_agent_ura e1) as [existing|] eqn:Eb; [|by destruct (ta_role e1); simplify_eq].
    destruct (merge_singleton_ok e1 existing a Hok Eb Ec Hnu) as (Hur & _). rewrite Hur in Hi.
    by destruct (ta_role e1); simplify_eq. }
  destruct (by_ura a !! ta_agent_ura e1) as [existing|] eqn:Eb.
  - destruct (merge_singleton_ok e1 existing a Hok Eb Ec Hnu) as (Hur & Hr2 & Hc2). rewrite <- Hur at 1. by apply Hins.
  - by apply Hins.
Qed.

(** The time of an owner fact does not matter to its form. *)
Lemma canonicalize_owner_at t o o' : canonicalize_principal_owner o = Ok o' →
  canonicalize_principal_owner (mk_TrustedPrincipalOwner (po_principal_ura o) (po_owner_user_id o) (po_owner_ura o) t) =
    Ok (mk_TrustedPrincipalOwner (po_principal_ura o') (po_owner_user_id o') (po_owner_ura o') t).
Proof.
  unfold canonicalize_principal_owner. intros Hc. inv_ok.
  cbn [po_principal_ura po_owner_user_id po_owner_ura po_added_at_unix_ms].
  rewrite E. cbn [mbind result_bind]. rewrite E0. cbn [mbind result_bind]. rewrite E1. cbn [ensure mbind result_bind].
  rewrite E2. cbn [map_err mbind result_bind]. by rewrite E3.
Qed.

Lemma upsert_owner_ok o a a' : anchor_ok a → upsert_principal_owner o a = Ok a' → anchor_ok a'.
Proof.
  intros [Hb Hu Hr Ho]. unfold upsert_principal_owner, upsert_principal_owner_canonicalized.
  destruct (canonicalize_principal_owner o) as [o1|] eqn:Ec; [|done]. apply canonicalize_principal_owner_idemp in Ec.
  cbn [mbind result_bind]. destruct (principal_owners a !! po_principal_ura o1) as [ex|] eqn:Ex; intros Hi; inv_ok.
  - split; cbn; try done. intros k o'. rewrite lookup_insert_Some. intros [[<- <-]|[_ ?]]; [|by apply Ho].
    split; [done|]. by apply (canonicalize_owner_at (po_added_at_unix_ms ex)) in Ec.
  - split; cbn; try done. intros k o'. rewrite lookup_insert_Some. intros [[<- <-]|[_ ?]]; [done|by apply Ho].
Qed.

(** ** Revocation *)

Lemma filter_length_all {A} (P : A → Prop) `{∀ x, Decision (P x)} l :
  length (base.filter P l) = length l → base.filter P l = l.
Proof.
  induction l as [|x l IH]; [done|]. rewrite filter_cons. case_decide; cbn.
  - intros [= Hl]. by rewrite IH.
  - intros Hl. pose proof (length_filter P l). lia.
Qed.

Lemma lookup_user_not_revoked a u key : anchor_ok a → is_user_pubkey_revoked a u key = true →
  lookup_user_by_pubkey a u key = None.
Proof.
  intros Hok Hr. unfold lookup_user_by_pubkey. destruct (users a !! u) as [b|] eqn:Eb; [|done]. cbn.
  destruct (List.find (has_key key) b) as [e|] eqn:Ef; [|done]. apply find_some in Ef as [Hin%list_elem_of_In Hk%bool_decide_eq_true].
  destruct (ok_users _ Hok _ _ Eb) as (_ & _ & _ & Hall). rewrite Forall_forall in Hall. destruct (Hall e Hin) as (_ & _ & Hf).
  congruence.
Qed.

(** Dropping a key from a bucket. *)
Definition without_key (c key : string) (b : list TrustedAgent) (a : RealmTrustAnchor) : RealmTrustAnchor :=
  let kept := base.filter (λ e, ta_public_key_b64 e ≠ key) b in
  set_users (if bool_decide (kept = []) then delete c else insert c kept) a.

Lemma without_key_lookup c key b a k : users a !! c = Some b →
  users (without_key c key b a) !! k =
    if decide (k = c) then (let kept := base.filter (λ e, ta_public_key_b64 e ≠ key) b in if bool_decide (kept = []) then None else Some kept)
    else users a !! k.
Proof.
  intros Hb. unfold without_key. cbn. case_decide as Hk; [subst k|]; case_bool_decide.
  - by rewrite lookup_delete_eq.
  - by rewrite lookup_insert_eq.
  - by rewrite lookup_delete_ne by done.
  - by rewrite lookup_insert_ne by done.
Qed.

Lemma without_key_ok c key b a : anchor_ok a → users a !! c = Some b →
  anchor_ok (without_key c key b a) ∧ lookup_user_by_pubkey (without_key c key b a) c key = None.
Proof.
  intros [Hb Hu Hr Ho] Eb. split; [split; [exact Hb| |exact Hr|exact Ho]|].
  - intros k b'. rewrite (without_key_lookup c key b a k Eb). case_decide as Hk; [subst k|by apply Hu].
    cbn zeta. case_bool_decide as Hne; [done|]. intros [= <-]. destruct (Hu c b Eb) as (_ & Hnd & Hcan & Hall).
    split_and!; [done| |done|].
    + eapply sublist_NoDup; [exact Hnd|]. apply fmap_sublist, sublist_filter.
    + apply Forall_forall. intros e [_ Hin]%list_elem_of_filter. rewrite Forall_forall in Hall. by apply Hall.
  - unfold lookup_user_by_pubkey. rewrite (without_key_lookup c key b a c Eb), decide_True by done. cbn zeta.
    case_bool_decide; [done|]. cbn. destruct (List.find _ _) as [e|] eqn:Ef; [|done].
    apply find_some in Ef as [Hin%list_elem_of_In Hk%bool_decide_eq_true]. by apply list_elem_of_filter in Hin as [? _].
Qed.

(** A key that is trusted is not revoked, so its tombstone can be put down. *)
Lemma tombstone_inserts c key b a t : anchor_ok a → users a !! c = Some b → key ∈ ta_public_key_b64 <$> b →
  rk_agent_ura t = c → rk_public_key_b64 t = key →
  insert_revoked_canonicalized t (without_key c key b a) = Ok (set_revoked (push_bucket c t) (without_key c key b a)).
Proof.
  intros Hok Eb Hin <- <-. unfold insert_revoked_canonicalized.
  change (revoked_users (without_key _ _ b a)) with (revoked_users a).
  change (existsb _ _) with (is_user_pubkey_revoked a (rk_agent_ura t) (rk_public_key_b64 t)).
  apply list_elem_of_fmap in Hin as (e & Hk & Hin). destruct (ok_users _ Hok _ _ Eb) as (_ & _ & _ & Hall).
  rewrite Forall_forall in Hall. destruct (Hall e Hin) as (_ & _ & Hf). rewrite <- Hk in Hf. by rewrite Hf.
Qed.

(** The outcomes of [revoke_user_pubkey]. *)
Definition revoked_outcome (user_ura key : string) (revoked_at : Z) (a : RealmTrustAnchor)
    (res : result RealmTrustError (option RevokedUserPubkey)) (a' : RealmTrustAnchor) : Prop :=
  match res with
  | Err e => a' = a ∧ canonical_ura_for_role user_ura RoleUser = Err e
  | Ok None => a' = a ∧ ∃ c, canonical_ura_for_role user_ura RoleUser = Ok c ∧ lookup_user_by_pubkey a c key = None
  | Ok (Some t) => ∃ c b e, canonical_ura_for_role user_ura RoleUser = Ok c ∧ lookup_user_by_pubkey a c key = Some e ∧
      t = mk_RevokedUserPubkey c key revoked_at (u64_saturating (user_rotation_epoch a c + 1)) ∧
      users a !! c = Some b ∧ a' = set_revoked (push_bucket c t) (without_key c key b a)
  end.

Lemma revoke_user_pubkey_spec user_ura key revoked_at a : anchor_ok a →
  revoked_outcome user_ura key revoked_at a (revoke_user_pubkey user_ura key revoked_at a).1
    (revoke_user_pubkey user_ura key revoked_at a).2.
Proof.
  intros Hok. unfold revoke_user_pubkey. destruct (canonical_ura_for_role user_ura RoleUser) as [c|err] eqn:Ec; [|done].
  destruct (users a !! c) as [b|] eqn:Eb.
  2: { cbn. split; [done|]. exists c. split; [done|]. unfold lookup_user_by_pubkey. by rewrite Eb. }
  cbn zeta. fold (without_key c key b a). case_bool_decide as Hlen.
  - cbn. apply filter_length_all in Hlen. destruct (ok_users _ Hok _ _ Eb) as (Hne & _). split.
    + unfold without_key. cbn zeta. rewrite Hlen, bool_decide_false by done. unfold set_users. rewrite insert_id by done. by destruct a.
    + exists c. split; [done|]. unfold lookup_user_by_pubkey. rewrite Eb. cbn.
      destruct (List.find _ b) as [e|] eqn:Ef; [|done]. apply find_some in Ef as [Hin%list_elem_of_In Hk%bool_decide_eq_true].
      rewrite <- Hlen in Hin. by apply list_elem_of_filter in Hin as [? _].
  - destruct (List.find (has_key key) b) as [e|] eqn:Ef.
    + assert (key ∈ ta_public_key_b64 <$> b) as Hin.
      { apply find_some in Ef as [Hin%list_elem_of_In Hk%bool_decide_eq_true]. rewrite <- Hk. by apply list_elem_of_fmap_2. }
      rewrite (tombstone_inserts c key b a) by done. cbn. exists c, b, e. split_and!; try done.
      unfold lookup_user_by_pubkey. by rewrite Eb.
    + exfalso. apply Hlen. f_equal. apply filter_all. intros e Hin Hk.
      apply list_elem_of_In, (find_none _ _ Ef) in Hin. by apply bool_decide_eq_false in Hin.
Qed.

Lemma revoke_user_pubkey_ok user_ura key revoked_at a : anchor_ok a →
  anchor_ok (revoke_user_pubkey user_ura key revoked_at a).2.
Proof.
  intros Hok. pose proof (revoke_user_pubkey_spec user_ura key revoked_at a Hok) as Hs.
  destruct (revoke_user_pubkey user_ura key revoked_at a) as [[[t|]|err] a']; cbn in Hs; [|by destruct Hs as [-> _]..].
  destruct Hs as (c & b & e & Hc & He & -> & Hb & ->). destruct (without_key_ok c key b a Hok Hb) as [Hok' Hnone].
  assert (key ∈ ta_public_key_b64 <$> b) as Hin.
  { unfold lookup_user_by_pubkey in He. rewrite Hb in He. cbn in He.
    apply find_some in He as [Hin%list_elem_of_In Hk%bool_decide_eq_true]. rewrite <- Hk. by apply list_elem_of_fmap_2. }
  set (t := mk_RevokedUserPubkey _ _ _ _).
  apply (insert_revoked_ok t _ _ Hok'); [by eapply canonical_idemp|exact Hnone|by apply (tombstone_inserts c key b a)].
Qed.

(** ** Runs *)

Inductive TrustOp :=
| AppendAgent (e : TrustedAgent)
| UpsertSingleton (e : TrustedAgent)
| UpsertOwner (o : TrustedPrincipalOwner)
| RevokeKey (user_ura key : string) (revoked_at : Z).

(** The anchor an operation leaves. *)
Definition trust_op (o : TrustOp) (a : RealmTrustAnchor) : RealmTrustAnchor :=
  let or_same r := match r with Ok a' => a' | Err _ => a end in
  match o with
  | AppendAgent e => or_same (append_agent e a)
  | UpsertSingleton e => or_same (upsert_singleton_agent e a)
  | UpsertOwner o => or_same (upsert_principal_owner o a)
  | RevokeKey u k t => (revoke_user_pubkey u k t a).2
  end.

Definition trust_run (os : list TrustOp) (a : RealmTrustAnchor) : RealmTrustAnchor := foldl (λ a o, trust_op o a) a os.

Lemma trust_op_ok o a : anchor_ok a → anchor_ok (trust_op o a).
Proof.
  intros Hok. destruct o as [e|e|o|u k t]; cbn; [| | |by apply revoke_user_pubkey_ok].
  - unfold append_agent. destruct (canonicalize_entry e) as [e1|] eqn:Ec; [|done]. cbn [mbind result_bind].
    destruct (insert_canonicalized e1 a) eqn:Ei; [|done]. eapply insert_canonicalized_ok, Ei; [done|]. by eapply canonicalize_entry_Ok.
  - destruct (upsert_singleton_agent e a) eqn:Eu; [|done]. by eapply upsert_singleton_ok.
  - destruct (upsert_principal_owner o a) eqn:Eu; [|done]. by eapply upsert_owner_ok.
Qed.

Lemma trust_run_ok os a : anchor_ok a → anchor_ok (trust_run os a).
Proof. unfold trust_run. revert a. induction os as [|o os IH]; intros a Hok; cbn; [done|]. by apply IH, trust_op_ok. Qed.

(** ** Tombstones *)

Lemma trust_op_revoked o a : anchor_ok a →
  revoked_users (trust_op o a) = revoked_users a ∨
  ∃ t, revoked_users (trust_op o a) = push_bucket (rk_agent_ura t) t (revoked_users a).
Proof.
  intros Hok. destruct o as [e|e|o|u k t]; cbn.
  - unfold append_agent, insert_canonicalized. destruct (canonicalize_entry e) as [e1|]; [|by left]. cbn.
    left. by destruct (ta_role e1); repeat case_match; inv_ok.
  - unfold upsert_singleton_agent, insert_canonicalized. destruct (canonicalize_entry e) as [e1|]; [|by left]. cbn.
    left. by destruct (ta_role e1); repeat case_match; inv_ok.
  - unfold upsert_principal_owner, upsert_principal_owner_canonicalized.
    destruct (canonicalize_principal_owner o) as [o1|]; [|by left]. cbn. left. by repeat case_match; inv_ok.
  - pose proof (revoke_user_pubkey_spec u k t a Hok) as Hs. destruct (revoke_user_pubkey u k t a) as [[[tb|]|] a']; cbn in *.
    + destruct Hs as (c & b & e & _ & _ & -> & _ & ->). right. by eexists (mk_RevokedUserPubkey c k t _).
    + left. by destruct Hs as [-> _].
    + left. by destruct Hs as [-> _].
Qed.

(** Tombstones stay. *)
Lemma trust_op_revoked_mono o a u key : anchor_ok a →
  is_user_pubkey_revoked a u key = true → is_user_pubkey_revoked (trust_op o a) u key = true.
Proof.
  intros Hok Hr. unfold is_user_pubkey_revoked in *. destruct (trust_op_revoked o a Hok) as [->|(t & ->)]; [done|].
  unfold push_bucket. destruct (decide (u = rk_agent_ura t)) as [->|]; [|by rewrite lookup_insert_ne].
  rewrite lookup_insert_eq. cbn. by rewrite existsb_app, Hr.
Qed.

Lemma trust_run_revoked_mono os a u key : anchor_ok a →
  is_user_pubkey_revoked a u key = true → is_user_pubkey_revoked (trust_run os a) u key = true.
Proof.
  unfold trust_run. revert a. induction os as [|o os IH]; intros a Hok Hr; cbn; [done|].
  apply IH; [by apply trust_op_ok|by apply trust_op_revoked_mono].
Qed.
End invariant.

(** ** Saving and loading *)

(** ** Values of a map of buckets *)

Lemma elem_of_values {V} (m : gmap string V) v : v ∈ values m ↔ ∃ k, m !! k = Some v.
Proof.
  unfold values. rewrite list_elem_of_fmap. split.
  - intros ([k v0] & -> & Hin%elem_of_map_to_list). eauto.
  - intros (k & Hk). exists (k, v). split; [done|by apply elem_of_map_to_list].
Qed.

Section values.
Context {V : Type} (key : V → string).

Lemma elem_of_concat_values (m : gmap string (list V)) v :
  v ∈ concat (values m) ↔ ∃ k b, m !! k = Some b ∧ v ∈ b.
Proof.
  rewrite list_elem_of_In, in_concat. split.
  - intros (b & Hb%list_elem_of_In & Hv%list_elem_of_In). apply elem_of_values in Hb as (k & Hk). eauto.
  - intros (k & b & Hk & Hv). exists b. split; apply list_elem_of_In; [|done]. apply elem_of_values. eauto.
Qed.

Lemma NoDup_concat_values (m : gmap string (list V)) : keyed key m → (∀ k b, m !! k = Some b → NoDup b) →
  NoDup (concat (values m)).
Proof.
  unfold values. induction m as [|i b m Hi IH] using map_ind; intros Hk Hnd.
  { rewrite map_to_list_empty. apply NoDup_nil_2. }
  rewrite map_to_list_insert by done. cbn [fmap list_fmap concat snd].
  assert (∀ k b', m !! k = Some b' → <[i:=b]> m !! k = Some b') as Hsub.
  { intros k b' Hb'. rewrite lookup_insert_ne; [done|congruence]. }
  apply NoDup_app. split_and!; [eapply Hnd, lookup_insert_eq| |apply IH; intros k b' Hb'; [apply Hk|eapply Hnd]; eauto].
  intros v Hv Hin. fold (values m) in Hin. apply elem_of_concat_values in Hin as (k & b' & Hb' & Hv').
  destruct (Hk i b) as [_ Hall]; [apply lookup_insert_eq|]. destruct (Hk k b' (Hsub _ _ Hb')) as [_ Hall'].
  rewrite Forall_forall in Hall, Hall'. rewrite <- (Hall v Hv), (Hall' v Hv'), Hb' in Hi. done.
Qed.

Lemma NoDup_values (m : gmap string V) : (∀ k v, m !! k = Some v → key v = k) → NoDup (values m).
Proof.
  intros Hk. apply (NoDup_fmap_1 key). unfold values.
  rewrite <- list_fmap_compose. replace ((key ∘ snd) <$> map_to_list m) with ((map_to_list m).*1); [apply NoDup_fst_map_to_list|].
  apply list_fmap_ext. intros i [k v] Hi. cbn. symmetry. apply Hk. apply elem_of_map_to_list.
  by apply list_elem_of_lookup_2 in Hi.
Qed.
End values.

(** ** Loading lists *)

Section load.
Context `{!UraLib, !TrustLib}.
Implicit Types (a : RealmTrustAnchor).

(** Lists that [from_parts] takes in: canonical, no key twice for an address, no
    address twice for the roles that have one key. *)
Record loadable_revoked (l : list RevokedUserPubkey) : Prop := mk_loadable_revoked {
  lr_nodup : NoDup l;
  lr_canonical e : e ∈ l → canonical RoleUser (rk_agent_ura e);
  lr_distinct e e' : e ∈ l → e' ∈ l → rk_agent_ura e = rk_agent_ura e' → rk_public_key_b64 e = rk_public_key_b64 e' → e = e';
}.

Record loadable_entries (l : list TrustedAgent) : Prop := mk_loadable_entries {
  le_nodup : NoDup l;
  le_canonical e : e ∈ l → canonical (ta_role e) (ta_agent_ura e);
  le_users e e' : e ∈ l → e' ∈ l → ta_role e = RoleUser → ta_agent_ura e = ta_agent_ura e' →
    ta_public_key_b64 e = ta_public_key_b64 e' → e = e';
  le_singles e e' : e ∈ l → e' ∈ l → ta_role e ≠ RoleUser → ta_agent_ura e = ta_agent_ura e' → e = e';
}.

Lemma loadable_revoked_app l k : loadable_revoked (l ++ k) → loadable_revoked l.
Proof. intros [Hn Hc Hd]. split; [by apply NoDup_app in Hn as [? _]|..]; intros; [apply Hc|apply Hd]; set_solver. Qed.

Lemma loadable_entries_app l k : loadable_entries (l ++ k) → loadable_entries l.
Proof.
  intros [Hn Hc Hu Hs]. split; [by apply NoDup_app in Hn as [? _]|..]; intros; [apply Hc|apply Hu|apply Hs]; set_solver.
Qed.

Lemma load_revoked l : loadable_revoked l →
  ∃ a, try_fold (λ a r, r ← canonicalize_revoked_user_key r; insert_revoked_canonicalized r a) empty_anchor l = Ok a ∧
    by_ura a = ∅ ∧ users a = ∅ ∧ principal_owners a = ∅ ∧ holds rk_agent_ura (revoked_users a) l.
Proof.
  induction l as [|e l IH] using rev_ind; intros Hl; [by exists empty_anchor|].
  destruct IH as (a & Ha & Hb & Hu & Ho & Hh); [by eapply loadable_revoked_app|].
  rewrite try_fold_snoc, Ha. cbn [mbind result_bind].
  assert (canonicalize_revoked_user_key e = Ok e) as ->.
  { unfold canonicalize_revoked_user_key. rewrite (lr_canonical _ Hl e) by set_solver. by destruct e. }
  cbn [mbind result_bind]. unfold insert_revoked_canonicalized. rewrite (holds_default _ _ _ _ Hh).
  assert (existsb (revokes_key (rk_public_key_b64 e)) (bucket rk_agent_ura (rk_agent_ura e) l) = false) as ->.
  { apply not_true_iff_false. rewrite existsb_exists. intros (e' & Hin%list_elem_of_In & Hk%bool_decide_eq_true).
    apply list_elem_of_filter in Hin as [Hur Hin]. assert (e' = e) as -> by (apply (lr_distinct _ Hl); set_solver).
    apply lr_nodup, NoDup_app in Hl as (_ & Hd & _). apply (Hd e Hin). set_solver. }
  eexists. split; [done|]. split_and!; try done. by apply (holds_push rk_agent_ura).
Qed.

(** The user entries of a list. *)
Definition user_entries (l : list TrustedAgent) : list TrustedAgent := base.filter (λ e, ta_role e = RoleUser) l.

Lemma load_entries l a0 : loadable_entries l → by_ura a0 = ∅ → users a0 = ∅ →
  (∀ e, e ∈ l → ta_role e = RoleUser → is_user_pubkey_revoked a0 (ta_agent_ura e) (ta_public_key_b64 e) = false) →
  ∃ a, try_fold (λ a e, e ← canonicalize_entry e; insert_canonicalized e a) a0 l = Ok a ∧
    revoked_users a = revoked_users a0 ∧ principal_owners a = principal_owners a0 ∧
    holds ta_agent_ura (users a) (user_entries l) ∧
    ∀ k e, by_ura a !! k = Some e ↔ e ∈ l ∧ ta_role e ≠ RoleUser ∧ ta_agent_ura e = k.
Proof.
  intros Hl Hb0 Hu0. induction l as [|e l IH] using rev_ind; intros Hrev.
  { exists a0. split_and!; try done; [by rewrite Hu0|]. intros k e. rewrite Hb0, lookup_empty. set_solver. }
  destruct IH as (a & Ha & Hr & Ho & Hh & Hb); [by eapply loadable_entries_app|set_solver|].
  rewrite try_fold_snoc, Ha. cbn [mbind result_bind].
  rewrite canonicalize_entry_id by (apply (le_canonical _ Hl); set_solver). cbn [mbind result_bind].
  assert (e ∉ l) as Hnin. { apply le_nodup, NoDup_app in Hl as (_ & Hd & _). intros Hin. apply (Hd e Hin). set_solver. }
  unfold insert_canonicalized. destruct (decide (ta_role e = RoleUser)) as [Hru|Hnu].
  - rewrite Hru. assert (is_user_pubkey_revoked a (ta_agent_ura e) (ta_public_key_b64 e) = false) as ->.
    { unfold is_user_pubkey_revoked. rewrite Hr. apply (Hrev e); [set_solver|done]. }
    cbn [negb ensure mbind result_bind]. rewrite (holds_default _ _ _ _ Hh).
    assert (existsb (has_key (ta_public_key_b64 e)) (bucket ta_agent_ura (ta_agent_ura e) (user_entries l)) = false) as ->.
    { apply not_true_iff_false. rewrite existsb_exists. intros (e' & Hin%list_elem_of_In & Hk%bool_decide_eq_true).
      apply list_elem_of_filter in Hin as [Hur [Hre Hin]%list_elem_of_filter].
      assert (e' = e) as -> by (apply (le_users _ Hl); set_solver). done. }
    eexists. split; [done|]. split_and!; [done|done| |].
    + unfold user_entries. rewrite filter_app, (filter_cons_True _ e []) by done. by apply (holds_push ta_agent_ura).
    + intros k e'. cbn. rewrite Hb. set_solver.
  - assert (by_ura a !! ta_agent_ura e = None) as Hnone.
    { apply eq_None_not_Some. intros [e' (Hin & Hre & Hur)%Hb]. assert (e' = e) as -> by (apply (le_singles _ Hl); set_solver). done. }
    exists (set_by_ura (insert (ta_agent_ura e) e) a). rewrite Hnone, bool_decide_true by done.
    split; [by destruct (ta_role e)|]. split_and!; [done|done| |].
    + unfold user_entries. by rewrite filter_app, (filter_cons_False _ e []), app_nil_r by done.
    + intros k e'. cbn. rewrite lookup_insert_Some, Hb. set_solver.
Qed.

Lemma load_owners l a0 : (∀ o, o ∈ l → canonicalize_principal_owner o = Ok o) → NoDup (po_principal_ura <$> l) →
  principal_owners a0 = ∅ →
  ∃ a, try_fold (λ a o, o ← canonicalize_principal_owner o; upsert_principal_owner_canonicalized o a) a0 l = Ok a ∧
    by_ura a = by_ura a0 ∧ users a = users a0 ∧ revoked_users a = revoked_users a0 ∧
    ∀ k o, principal_owners a !! k = Some o ↔ o ∈ l ∧ po_principal_ura o = k.
Proof.
  intros Hc Hn Ho0. induction l as [|o l IH] using rev_ind.
  { exists a0. split_and!; try done. intros k o. rewrite Ho0, lookup_empty. set_solver. }
  rewrite fmap_app in Hn. apply NoDup_app in Hn as (Hn & Hd & _).
  destruct IH as (a & Ha & Hb & Hu & Hr & Ho); [set_solver|done|]. rewrite try_fold_snoc, Ha. cbn [mbind result_bind].
  rewrite Hc by set_solver. cbn [mbind result_bind]. unfold upsert_principal_owner_canonicalized.
  destruct (principal_owners a !! po_principal_ura o) as [o'|] eqn:Eo.
  { apply Ho in Eo as [Hin Hur]. exfalso. apply (Hd (po_principal_ura o)); [|set_solver]. rewrite <- Hur. by apply list_elem_of_fmap_2. }
  eexists. split; [done|]. split_and!; try done. intros k o'. cbn. rewrite lookup_insert_Some, Ho. split; [set_solver|].
  intros [[Hin|Hin]%elem_of_app <-]; [|set_solver]. right. split; [|done]. intros Heq. apply (Hd (po_principal_ura o)); [|set_solver].
  rewrite Heq. by apply list_elem_of_fmap_2.
Qed.
End load.

(** ** Anchors up to the order of keys *)

#[global] Instance anchor_equiv : Equiv RealmTrustAnchor := λ a b,
  by_ura a = by_ura b ∧ principal_owners a = principal_owners b ∧
  (∀ k, option_Forall2 Permutation (users a !! k) (users b !! k)) ∧
  (∀ k, option_Forall2 Permutation (revoked_users a !! k) (revoked_users b !! k)).

#[global] Instance anchor_equivalence : Equivalence (≡@{RealmTrustAnchor}).
Proof.
  split.
  - intros a. by split_and!.
  - intros a b (Hb & Ho & Hu & Hr). split_and!; [done|done|intros k; symmetry; apply Hu|intros k; symmetry; apply Hr].
  - intros a b c (Hb & Ho & Hu & Hr) (Hb' & Ho' & Hu' & Hr'). split_and!; [congruence|congruence| |]; intros k.
    + etrans; [apply Hu|apply Hu'].
    + etrans; [apply Hr|apply Hr'].
Qed.

#[global] Instance is_user_pubkey_revoked_proper : Proper ((≡) ==> (=) ==> (=) ==> (=)) is_user_pubkey_revoked.
Proof.
  intros a b (_ & _ & _ & Hr) u ? <- key ? <-. unfold is_user_pubkey_revoked. apply eq_true_iff_eq.
  rewrite !existsb_exists. setoid_rewrite <- list_elem_of_In. destruct (Hr u) as [l l' Hl|]; cbn; [by setoid_rewrite Hl|done].
Qed.

Lemma foldl_max_perm {A} (f : A → Z) x y l k : x :: l ≡ₚ y :: k →
  foldl (λ m e, Z.max m (f e)) (f x) l = foldl (λ m e, Z.max m (f e)) (f y) k.
Proof.
  assert (∀ l1 l2 m, l1 ≡ₚ l2 → foldl (λ m e, Z.max m (f e)) m l1 = foldl (λ m e, Z.max m (f e)) m l2) as Hp.
  { clear. intros l1 l2 m Hl. revert m. induction Hl as [| | |l1 l2 l3 _ IH1 _ IH2]; intros m; cbn; [done|done|f_equal; lia|].
    etrans; [apply IH1|apply IH2]. }
  intros Hl. pose proof (Hp _ _ (Z.min (f x) (f y)) Hl) as H1. cbn in H1. revert H1.
  rewrite (Z.max_r _ (f x)), (Z.max_r _ (f y)) by lia. done.
Qed.

#[global] Instance user_rotation_epoch_proper : Proper ((≡) ==> (=) ==> (=)) user_rotation_epoch.
Proof.
  intros a b (_ & _ & _ & Hr) u ? <-. unfold user_rotation_epoch. destruct (Hr u) as [l l' Hl|]; [|done].
  destruct l as [|x l], l' as [|y l']; [done|by apply Permutation_nil_cons in Hl|symmetry in Hl; by apply Permutation_nil_cons in Hl|].
  by apply foldl_max_perm.
Qed.

Lemma NoDup_key_distinct {A B} (f : A → B) l x y : NoDup (f <$> l) → x ∈ l → y ∈ l → f x = f y → x = y.
Proof.
  intros Hnd Hx Hy Heq. induction l as [|z l IH]; [by apply not_elem_of_nil in Hx|].
  cbn in Hnd. apply NoDup_cons in Hnd as [Hz Hnd].
  apply elem_of_cons in Hx as [->|Hx], Hy as [->|Hy]; [done| | |by apply IH];
    exfalso; apply Hz; [rewrite Heq|rewrite <- Heq]; by apply list_elem_of_fmap_2.
Qed.

Section roundtrip.
Context `{!UraLib, !TrustLib}.
Implicit Types (a : RealmTrustAnchor).

(** Keys are looked up alike in equivalent anchors. *)
Lemma lookup_user_by_pubkey_equiv a b u key : anchor_ok a → a ≡ b → lookup_user_by_pubkey a u key = lookup_user_by_pubkey b u key.
Proof.
  intros Hok (_ & _ & Hu & _). unfold lookup_user_by_pubkey. pose proof (Hu u) as Huu.
  destruct (users a !! u) as [l|] eqn:El; inversion Huu as [? l' Hl|]; subst; [cbn|done].
  destruct (ok_users _ Hok _ _ El) as (_ & Hnd & _).
  destruct (List.find (has_key key) l) as [x|] eqn:Ex.
  - apply find_some in Ex as [Hx%list_elem_of_In Hkx%bool_decide_eq_true].
    destruct (List.find (has_key key) l') as [y|] eqn:Ey.
    + apply find_some in Ey as [Hy%list_elem_of_In Hky%bool_decide_eq_true]. f_equal.
      apply (NoDup_key_distinct ta_public_key_b64 l); [done|done|by rewrite Hl|congruence].
    + rewrite Hl in Hx. apply list_elem_of_In, (find_none _ _ Ey) in Hx. by apply bool_decide_eq_false in Hx.
  - destruct (List.find (has_key key) l') as [y|] eqn:Ey; [|done]. apply find_some in Ey as [Hy%list_elem_of_In Hky%bool_decide_eq_true].
    rewrite <- Hl in Hy. apply list_elem_of_In, (find_none _ _ Ex) in Hy. by apply bool_decide_eq_false in Hy.
Qed.

(** ** The lists of an anchor can be loaded *)

Lemma users_keyed a : anchor_ok a → keyed ta_agent_ura (users a).
Proof.
  intros Hok k b Hb. destruct (ok_users _ Hok _ _ Hb) as (Hne & _ & _ & Hall). split; [done|].
  eapply Forall_impl; [exact Hall|]. by intros e (? & _).
Qed.

Lemma revoked_keyed a : anchor_ok a → keyed rk_agent_ura (revoked_users a).
Proof. intros Hok k b Hb. by destruct (ok_revoked _ Hok _ _ Hb) as (Hne & _ & _ & Hall). Qed.

(** What the entries of an anchor are. *)
Lemma elem_of_entries a e : anchor_ok a →
  e ∈ values (by_ura a) ++ concat (values (users a)) ↔
    (ta_role e ≠ RoleUser ∧ by_ura a !! ta_agent_ura e = Some e) ∨
    (ta_role e = RoleUser ∧ ∃ b, users a !! ta_agent_ura e = Some b ∧ e ∈ b).
Proof.
  intros Hok. rewrite elem_of_app, elem_of_values, elem_of_concat_values. split.
  - intros [(k & Hk)|(k & b & Hb & He)].
    + destruct (ok_by_ura _ Hok _ _ Hk) as (<- & ? & _). by left.
    + destruct (ok_users _ Hok _ _ Hb) as (_ & _ & _ & Hall). rewrite Forall_forall in Hall.
      destruct (Hall e He) as (<- & ? & _). right. eauto.
  - intros [(_ & ?)|(_ & b & ? & ?)]; eauto.
Qed.

Lemma entries_loadable a : anchor_ok a → loadable_entries (values (by_ura a) ++ concat (values (users a))).
Proof.
  intros Hok. split.
  - apply NoDup_app. split_and!.
    + apply (NoDup_values ta_agent_ura). intros k e Hk. by destruct (ok_by_ura _ Hok _ _ Hk).
    + intros e (k & Hk)%elem_of_values (k' & b & Hb & He)%elem_of_concat_values.
      destruct (ok_by_ura _ Hok _ _ Hk) as (_ & Hr & _). destruct (ok_users _ Hok _ _ Hb) as (_ & _ & _ & Hall).
      rewrite Forall_forall in Hall. by destruct (Hall e He) as (_ & ? & _).
    + apply (NoDup_concat_values ta_agent_ura); [by apply users_keyed|]. intros k b Hb.
      destruct (ok_users _ Hok _ _ Hb) as (_ & Hnd & _). by apply NoDup_fmap_1 in Hnd.
  - intros e [(_ & Hk)|(Hr & b & Hb & _)]%(elem_of_entries a e Hok).
    + by destruct (ok_by_ura _ Hok _ _ Hk) as (_ & _ & ?).
    + rewrite Hr. by destruct (ok_users _ Hok _ _ Hb) as (_ & _ & ? & _).
  - intros e e' [(Hr & _)|(_ & b & Hb & He)]%(elem_of_entries a e Hok) He' Hu Hur Hkey; [done|].
    apply (elem_of_entries a e' Hok) in He' as [(Hr' & Hk')|(_ & b' & Hb' & He')].
    + destruct (ok_by_ura _ Hok _ _ Hk') as (_ & _ & Hc'). destruct (ok_users _ Hok _ _ Hb) as (_ & _ & Hc & _).
      rewrite Hur in Hc. pose proof (canonical_kind _ _ _ Hc Hc') as Hkind. by destruct (ta_role e').
    + rewrite Hur, Hb' in Hb. injection Hb as ->. destruct (ok_users _ Hok _ _ Hb') as (_ & Hnd & _).
      by eapply (NoDup_key_distinct ta_public_key_b64).
  - intros e e' [(_ & Hk)|(Hr & _)]%(elem_of_entries a e Hok) He' Hnu Hur; [|done].
    apply (elem_of_entries a e' Hok) in He' as [(Hr' & Hk')|(Hr' & b' & Hb' & He')]; [congruence|].
    destruct (ok_by_ura _ Hok _ _ Hk) as (_ & _ & Hc). destruct (ok_users _ Hok _ _ Hb') as (_ & _ & Hc' & _).
    rewrite <- Hur in Hc'. pose proof (canonical_kind _ _ _ Hc Hc') as Hkind. by destruct (ta_role e).
Qed.

Lemma revoked_loadable a : anchor_ok a → loadable_revoked (concat (values (revoked_users a))).
Proof.
  intros Hok. split.
  - apply (NoDup_concat_values rk_agent_ura); [by apply revoked_keyed|]. intros k b Hb.
    destruct (ok_revoked _ Hok _ _ Hb) as (_ & Hnd & _). by apply NoDup_fmap_1 in Hnd.
  - intros e (k & b & Hb & He)%elem_of_concat_values. destruct (ok_revoked _ Hok _ _ Hb) as (_ & _ & Hc & Hall).
    rewrite Forall_forall in Hall. by rewrite (Hall e He).
  - intros e e' (k & b & Hb & He)%elem_of_concat_values (k' & b' & Hb' & He')%elem_of_concat_values Hur Hkey.
    destruct (ok_revoked _ Hok _ _ Hb) as (_ & Hnd & _ & Hall), (ok_revoked _ Hok _ _ Hb') as (_ & _ & _ & Hall').
    rewrite Forall_forall in Hall, Hall'. assert (k = k') as <- by (rewrite <- (Hall e He), <- (Hall' e' He'); done).
    rewrite Hb in Hb'. injection Hb' as <-. by eapply (NoDup_key_distinct rk_public_key_b64).
Qed.

(** ** Loading keeps the invariant *)

Lemma from_parts_ok entries owners revoked a :
  from_parts_with_principal_owners entries owners revoked = Ok a → anchor_ok a.
Proof.
  unfold from_parts_with_principal_owners. intros Hf. inv_ok.
  assert (anchor_ok x ∧ users x = ∅) as [Hx _].
  { refine (try_fold_inv (λ a, anchor_ok a ∧ users a = ∅) _ _ _ _ _ _ E); [|split; [by split|done]].
    intros st r st' _ [Hok Hu] Hs. inv_ok. unfold canonicalize_revoked_user_key in E1. inv_ok. split.
    - eapply insert_revoked_ok, Hs; [done|by eapply canonical_idemp|]. unfold lookup_user_by_pubkey. by rewrite Hu, lookup_empty.
    - unfold insert_revoked_canonicalized in Hs. by inv_ok. }
  assert (anchor_ok x0) as Hx0.
  { refine (try_fold_inv anchor_ok _ _ _ _ _ Hx E0). intros st e st' _ Hok Hs. inv_ok.
    eapply insert_canonicalized_ok, Hs; [done|]. by eapply canonicalize_entry_Ok. }
  refine (try_fold_inv anchor_ok _ _ _ _ _ Hx0 Hf). intros st o st' _ Hok Hs. by eapply upsert_owner_ok.
Qed.

Lemma loadable_entries_perm l k : l ≡ₚ k → loadable_entries l → loadable_entries k.
Proof. intros Hl [Hn Hc Hu Hs]. split; [by rewrite <- Hl|..]; intros; [apply Hc|apply Hu|apply Hs]; rewrite ?Hl; done. Qed.

Lemma loadable_revoked_perm l k : l ≡ₚ k → loadable_revoked l → loadable_revoked k.
Proof. intros Hl [Hn Hc Hd]. split; [by rewrite <- Hl|..]; intros; [apply Hc|apply Hd]; rewrite ?Hl; done. Qed.

Lemma owners_loadable a : anchor_ok a →
  (∀ o, o ∈ principal_owners_sorted a → canonicalize_principal_owner o = Ok o) ∧
  NoDup (po_principal_ura <$> principal_owners_sorted a).
Proof.
  intros Hok. unfold principal_owners_sorted. split.
  - intros o Ho. rewrite sort_by_perm in Ho. apply elem_of_values in Ho as (k & Hk). by destruct (ok_owners _ Hok _ _ Hk).
  - rewrite (sort_by_perm owner_leb). unfold values. rewrite <- list_fmap_compose.
    replace ((po_principal_ura ∘ snd) <$> map_to_list (principal_owners a)) with ((map_to_list (principal_owners a)).*1);
      [apply NoDup_fst_map_to_list|].
    apply list_fmap_ext. intros i [k o] Hi. cbn. symmetry. apply list_elem_of_lookup_2, elem_of_map_to_list in Hi.
    by destruct (ok_owners _ Hok _ _ Hi).
Qed.

Lemma user_entries_eq a : anchor_ok a →
  base.filter (λ e, ta_role e = RoleUser) (values (by_ura a) ++ concat (values (users a))) = concat (values (users a)).
Proof.
  intros Hok. rewrite filter_app, filter_none, filter_all; [done| |].
  - intros e (k & b & Hb & He)%elem_of_concat_values. destruct (ok_users _ Hok _ _ Hb) as (_ & _ & _ & Hall).
    rewrite Forall_forall in Hall. by destruct (Hall e He) as (_ & ? & _).
  - intros e (k & Hk)%elem_of_values. by destruct (ok_by_ura _ Hok _ _ Hk) as (_ & ? & _).
Qed.

(** Loading the snapshots of an anchor gives an equivalent one. *)
Lemma load_snapshot a : anchor_ok a →
  ∃ a', from_parts_with_principal_owners (entries_sorted a) (principal_owners_sorted a) (revoked_user_pubkeys_sorted a) = Ok a' ∧
    a' ≡ a.
Proof.
  intros Hok. unfold from_parts_with_principal_owners.
  destruct (load_revoked (revoked_user_pubkeys_sorted a)) as (a1 & -> & Hb1 & Hu1 & Ho1 & Hr1).
  { eapply loadable_revoked_perm; [symmetry; apply sort_by_perm|by apply revoked_loadable]. }
  assert (∀ k, option_Forall2 Permutation (revoked_users a1 !! k) (revoked_users a !! k)) as Hrev.
  { eapply holds_perm; [by apply revoked_keyed|apply sort_by_perm|exact Hr1]. }
  cbn [mbind result_bind]. destruct (load_entries (entries_sorted a) a1) as (a2 & -> & Hr2 & Ho2 & Hu2 & Hb2); [|done|done| |].
  { eapply loadable_entries_perm; [symmetry; apply sort_by_perm|by apply entries_loadable]. }
  { intros e He Hr. unfold entries_sorted in He. rewrite sort_by_perm in He.
    apply (elem_of_entries a e Hok) in He as [(? & _)|(_ & b & Hb & He)]; [done|].
    destruct (ok_users _ Hok _ _ Hb) as (_ & _ & _ & Hall). rewrite Forall_forall in Hall. destruct (Hall e He) as (_ & _ & Hf).
    rewrite <- Hf. unfold is_user_pubkey_revoked. apply eq_true_iff_eq. rewrite !existsb_exists.
    setoid_rewrite <- list_elem_of_In. destruct (Hrev (ta_agent_ura e)) as [? ? Hl|]; cbn; [by setoid_rewrite Hl|done]. }
  cbn [mbind result_bind]. destruct (load_owners (principal_owners_sorted a) a2) as (a3 & -> & Hb3 & Hu3 & Hr3 & Ho3);
    [| |by rewrite Ho2|].
  { apply (owners_loadable a Hok). }
  { apply (owners_loadable a Hok). }
  exists a3. split; [done|]. split_and!.
  - rewrite Hb3. apply map_eq. intros k. apply option_eq. intros e. rewrite Hb2. unfold entries_sorted.
    rewrite sort_by_perm, elem_of_entries by done. split.
    + intros ([(_ & Hk)|(? & _)] & Hr & <-); [done|done].
    + intros Hk. destruct (ok_by_ura _ Hok _ _ Hk) as (<- & ? & _). auto.
  - apply map_eq. intros k. apply option_eq. intros o. rewrite Ho3. unfold principal_owners_sorted.
    rewrite sort_by_perm, elem_of_values. split.
    + intros ((k' & Hk') & <-). by destruct (ok_owners _ Hok _ _ Hk') as (-> & _).
    + intros Hk. destruct (ok_owners _ Hok _ _ Hk). eauto.
  - rewrite Hu3. eapply holds_perm; [by apply users_keyed| |exact Hu2]. unfold user_entries, entries_sorted.
    rewrite sort_by_perm. by rewrite user_entries_eq.
  - by rewrite Hr3, Hr2.
Qed.

(** ** Equivalent anchors save to the same text *)

Lemma concat_values_equiv {V} (key : V → string) (m m' : gmap string (list V)) :
  keyed key m → keyed key m' → (∀ k b, m !! k = Some b → NoDup b) → (∀ k b, m' !! k = Some b → NoDup b) →
  (∀ k, option_Forall2 Permutation (m !! k) (m' !! k)) → concat (values m) ≡ₚ concat (values m').
Proof.
  intros Hk Hk' Hn Hn' Heq. apply NoDup_Permutation; [by apply (NoDup_concat_values key)..|].
  intros v. rewrite !elem_of_concat_values. split; intros (k & b & Hb & Hv); specialize (Heq k); rewrite Hb in Heq.
  - inversion Heq as [? b' Hp Hb0 Hb'|]; subst. exists k, b'. split; [done|by rewrite <- Hp].
  - inversion Heq as [b' ? Hp Hb' Hb0|]; subst. exists k, b'. split; [done|by rewrite Hp].
Qed.

Lemma snapshots_equiv a a' : anchor_ok a → anchor_ok a' → a ≡ a' →
  entries_sorted a = entries_sorted a' ∧ principal_owners_sorted a = principal_owners_sorted a' ∧
  revoked_user_pubkeys_sorted a = revoked_user_pubkeys_sorted a'.
Proof.
  intros Hok Hok' (Hb & Ho & Hu & Hr).
  assert (∀ a k b, anchor_ok a → users a !! k = Some b → NoDup b) as Hnu.
  { intros a0 k b Ha0 Hk. destruct (ok_users _ Ha0 _ _ Hk) as (_ & Hnd & _). by apply NoDup_fmap_1 in Hnd. }
  assert (∀ a k b, anchor_ok a → revoked_users a !! k = Some b → NoDup b) as Hnr.
  { intros a0 k b Ha0 Hk. destruct (ok_revoked _ Ha0 _ _ Hk) as (_ & Hnd & _). by apply NoDup_fmap_1 in Hnd. }
  split_and!.
  - unfold entries_sorted. apply sort_by_unique; [apply agent_leb_total|apply agent_leb_trans| |].
    + rewrite Hb. apply Permutation_app_head, (concat_values_equiv ta_agent_ura); eauto using users_keyed.
    + intros x y Hx Hy Hxy Hyx. destruct (agent_leb_antisym x y Hxy Hyx) as [Hur Hkey].
      pose proof (entries_loadable a Hok) as Hl. destruct (decide (ta_role x = RoleUser)).
      * by apply (le_users _ Hl).
      * by apply (le_singles _ Hl).
  - unfold principal_owners_sorted. by rewrite Ho.
  - unfold revoked_user_pubkeys_sorted. apply sort_by_unique; [apply revoked_leb_total|apply revoked_leb_trans| |].
    + apply (concat_values_equiv rk_agent_ura); eauto using revoked_keyed.
    + intros x y Hx Hy Hxy Hyx. destruct (revoked_leb_antisym x y Hxy Hyx) as [Hur Hkey].
      by apply (lr_distinct _ (revoked_loadable a Hok)).
Qed.

Lemma parse_anchor_ok raw a : parse_anchor raw = Ok a → anchor_ok a.
Proof. unfold parse_anchor. intros Hp. inv_ok. by eapply from_parts_ok. Qed.

(** ** Guarantees *)

(** Every anchor that loads, after any operations, has one
    entry for each hub, backend or device address and none of them for a user;
    the keys of a user are distinct, carry that user's address and are not
    revoked; tombstones are distinct; owner facts are canonical; and every
    address is stored in its canonical form. *)
Theorem trust_anchor_invariant raw a os : parse_anchor raw = Ok a → anchor_ok (trust_run os a).
Proof. intros Hp. eapply trust_run_ok, parse_anchor_ok, Hp. Qed.

(** C32 (safety): a user key that is revoked is out at once and never comes
    back: after a revocation that took effect and any later operations - attempts
    to register the key again among them - it is not trusted, and registering it
    is refused. *)
Theorem revoked_key_never_returns raw a0 before user_ura key at_ t a os e :
  parse_anchor raw = Ok a0 → revoke_user_pubkey user_ura key at_ (trust_run before a0) = (Ok (Some t), a) →
  ta_role e = RoleUser → canonical_ura_for_role (ta_agent_ura e) RoleUser = Ok (rk_agent_ura t) → ta_public_key_b64 e = key →
  let a' := trust_run os a in
  lookup_user_by_pubkey a' (rk_agent_ura t) key = None ∧
  append_agent e a' = Err (RevokedUserPubkeyError (rk_agent_ura t)).
Proof.
  intros Hp Hrev Hrole Hcan Hkey a'. assert (anchor_ok (trust_run before a0)) as Hok by (eapply trust_run_ok, parse_anchor_ok, Hp).
  pose proof (revoke_user_pubkey_spec user_ura key at_ _ Hok) as Hs. pose proof (revoke_user_pubkey_ok user_ura key at_ _ Hok) as Hoka.
  rewrite Hrev in Hs, Hoka. cbn [fst snd] in Hs, Hoka. destruct Hs as (c & b & e0 & _ & _ & -> & _ & ->). cbn [rk_agent_ura] in *.
  set (t := mk_RevokedUserPubkey _ _ _ _) in *.
  assert (is_user_pubkey_revoked a' c key = true) as Hr.
  { apply trust_run_revoked_mono; [done|]. rewrite (revoked_push _ t key). unfold revokes_key. by rewrite bool_decide_true, orb_true_r. }
  split; [apply lookup_user_not_revoked; [by apply trust_run_ok|done]|].
  unfold append_agent, canonicalize_entry. rewrite Hrole, Hcan. cbn [mbind result_bind].
  unfold insert_canonicalized. cbn [ta_role with_agent_ura ta_agent_ura ta_public_key_b64]. by rewrite Hrole, Hkey, Hr.
Qed.

(** The text [save] writes for an anchor loads; the anchor it
    loads to is the same up to the order in which a user's keys are kept, so that
    lookups, revocations and rotation epochs agree; and saving that one writes
    the same text. *)
Theorem trust_anchor_roundtrip `{!TrustLibLaws} raw a0 os body :
  parse_anchor raw = Ok a0 → let a := trust_run os a0 in save_body a = Ok body →
  ∃ a', parse_anchor body = Ok a' ∧ a' ≡ a ∧ save_body a' = Ok body ∧
    (∀ u key, lookup_user_by_pubkey a' u key = lookup_user_by_pubkey a u key) ∧
    (∀ u key, is_user_pubkey_revoked a' u key = is_user_pubkey_revoked a u key) ∧
    (∀ u, user_rotation_epoch a' u = user_rotation_epoch a u).
Proof.
  intros Hp a Hs. assert (anchor_ok a) as Hok by (eapply trust_run_ok, parse_anchor_ok, Hp).
  destruct (load_snapshot a Hok) as (a' & Hl & Heq). exists a'.
  assert (parse_anchor body = Ok a') as Hpa. { unfold parse_anchor. rewrite (toml_roundtrip _ _ Hs). done. }
  pose proof (parse_anchor_ok _ _ Hpa) as Hok'. split_and!; [done|done| |..].
  - destruct (snapshots_equiv a' a Hok' Hok Heq) as (He & Ho & Hr). unfold save_body. by rewrite He, Ho, Hr.
  - intros u key. by apply lookup_user_by_pubkey_equiv.
  - intros u key. by rewrite Heq.
  - intros u. by rewrite Heq.
Qed.
End roundtrip.
