(* ===== verification/DeviceCaller.v ===== *)
(** * Devices as callers (src/src/daemon/invocation/admission/device_caller.rs)

    The few purposes for which a device may call, the geometry each of them
    needs, and the binding of a verified purpose to one invocation. *)

From Stdlib Require Import String Ascii.
From S2P Require Import Prelude RustStd Text Ura World Decision.

Open Scope Z_scope.

(** ** The rules *)

(** The abilities of daemon/ability/conformance.rs that the rules name. *)
Definition ABILITY_FEDERATION_ADVERTISE_AGENT : string := "federation.advertise_agent".
Definition ABILITY_FEDERATION_ADVERTISE_ABILITIES : string := "federation.advertise_abilities".
Definition ABILITY_FEDERATION_HEARTBEAT : string := "federation.heartbeat".
Definition ABILITY_FEDERATION_RESOLVE_KEY : string := "federation.resolve_key".
Definition ABILITY_FEDERATION_SUBSCRIBE_DIRECTORY_V2 : string := "federation.subscribe_directory_v2".
Definition ABILITY_FEDERATION_REVOKE : string := "federation.revoke".
Definition ABILITY_IDENTITY_REGISTER_PUBKEY : string := "identity.register_pubkey".
Definition ABILITY_RUNTIME_BOOTSTRAP_SELF_IDENTITY : string := "runtime.bootstrap_self_identity".
Definition ABILITY_SESSION_OPEN : string := "session.open".

Inductive DeviceCallerPolicyAdmission :=
| AdmitNone
| AdmitAuthoritySelf (action : AccessAction)
| AdmitAuthorityOwnerProjection (action : AccessAction)
| AdmitAuthorityHostedAgentRetraction (action : AccessAction).

Inductive DeviceCallerCalleeGeometry := SelectedAuthority | DeviceSelfOrSelectedAuthority.
Inductive DeviceCallerSubjectGeometry := SameRealm | DeviceSelf | OwnerProjection | HostedAgent.

Record DeviceCallerRule := mk_DeviceCallerRule {
  dr_public_ability : string;
  dr_purpose : DeviceCallerPurpose;
  dr_action : AccessAction;
  dr_callee_geometry : DeviceCallerCalleeGeometry;
  dr_subject_geometry : DeviceCallerSubjectGeometry;
  dr_policy_admission : DeviceCallerPolicyAdmission;
}.

Definition DEVICE_CALLER_RULES : list DeviceCallerRule :=
  [mk_DeviceCallerRule ABILITY_RUNTIME_BOOTSTRAP_SELF_IDENTITY Bootstrap AManage SelectedAuthority DeviceSelf AdmitNone;
   mk_DeviceCallerRule ABILITY_IDENTITY_REGISTER_PUBKEY Pairing AManage SelectedAuthority SameRealm AdmitNone;
   mk_DeviceCallerRule ABILITY_FEDERATION_RESOLVE_KEY Pairing ARead SelectedAuthority SameRealm AdmitNone;
   mk_DeviceCallerRule ABILITY_FEDERATION_ADVERTISE_AGENT PublicationCustody AManage SelectedAuthority HostedAgent AdmitNone;
   mk_DeviceCallerRule ABILITY_FEDERATION_ADVERTISE_ABILITIES PublicationCustody AManage SelectedAuthority OwnerProjection
     (AdmitAuthorityOwnerProjection AManage);
   mk_DeviceCallerRule ABILITY_FEDERATION_HEARTBEAT AbilityCatalogDiff AManage SelectedAuthority DeviceSelf AdmitNone;
   mk_DeviceCallerRule ABILITY_SESSION_OPEN DeviceSelfSession AStream DeviceSelfOrSelectedAuthority DeviceSelf
     (AdmitAuthoritySelf AStream);
   mk_DeviceCallerRule ABILITY_FEDERATION_REVOKE LifecycleSelfRevoke AManage SelectedAuthority DeviceSelf
     (AdmitAuthoritySelf AManage);
   mk_DeviceCallerRule ABILITY_FEDERATION_REVOKE HostedAgentRetraction AManage SelectedAuthority HostedAgent
     (AdmitAuthorityHostedAgentRetraction AManage)].

Inductive CallerKindAdmission := NonDevice | DeviceKind.

Inductive DeviceCallerAdmissionError :=
| InvalidCallerUra (message : string)
| NonActorCaller (kind : URAKind)
| DeviceCallerNotAllowed (public_ability : string).

Inductive DeviceInvocationPurposeVerificationError :=
| CallerError (e : DeviceCallerAdmissionError)
| GeometryDenied (public_ability reason : string).

Record DeviceInvocationPurposeScope := mk_PurposeScope {
  sc_caller_ura : string;
  sc_callee_ura : string;
  sc_subject_ura : string;
  sc_public_ability : string;
  sc_daemon_ura : option string;
  sc_action : AccessAction;
}.

Record DeviceCallerPolicyScope := mk_PolicyScope {
  ps_caller_ura : string;
  ps_callee_ura : string;
  ps_subject_ura : string;
  ps_ability_ura : string;
  ps_daemon_ura : option string;
  ps_action : AccessAction;
}.

(** ** Classification *)

Definition device_caller_ability_allowed (public_ability : string) : bool :=
  existsb (λ r, bool_decide (dr_public_ability r = trim public_ability)) DEVICE_CALLER_RULES.

Definition classify_public_invocation_caller_kind (kind : URAKind) (public_ability : string)
  : result DeviceCallerAdmissionError CallerKindAdmission :=
  match kind with
  | KUser | KService | KAgent | KAuthority => Ok NonDevice
  | KDevice =>
      if device_caller_ability_allowed public_ability then Ok DeviceKind else Err (DeviceCallerNotAllowed public_ability)
  | KAbility | KResource | KUnknown => Err (NonActorCaller kind)
  end.

Definition device_caller_rule_for_purpose (public_ability : string) (purpose : DeviceCallerPurpose) : option DeviceCallerRule :=
  List.find (λ r, bool_decide (dr_public_ability r = trim public_ability) && bool_decide (dr_purpose r = purpose))
    DEVICE_CALLER_RULES.

Definition supports_public_ability (p : VerifiedDeviceInvocationPurpose) (public_ability : string) : bool :=
  bool_decide (is_Some (device_caller_rule_for_purpose public_ability (vp_purpose p))).

(** ** Bindings *)

(** [to_be_bytes] of a [u64]: its eight bytes, the high one first. *)
Fixpoint be_bytes (n : nat) (z : Z) : string :=
  match n with
  | O => EmptyString
  | S n => be_bytes n (z / 256) +:+ String (ascii_of_N (Z.to_N (z mod 256))) EmptyString
  end.
Definition u64_to_be_bytes (z : Z) : string := be_bytes 8 (u64_wrap z).

(** A value with its length before it. *)
Definition framed (value : string) : string := u64_to_be_bytes (Z.of_nat (String.length value)) +:+ value.

(** The bytes of b"easynet.device.invocation-purpose\0". *)
Definition binding_domain : string := "easynet.device.invocation-purpose" +:+ String (ascii_of_N 0) EmptyString.

Definition binding_values (s : DeviceInvocationPurposeScope) : list string :=
  [sc_caller_ura s; sc_callee_ura s; sc_subject_ura s; sc_public_ability s; default EmptyString (sc_daemon_ura s);
   action_str (sc_action s)].

Definition binding_bytes (s : DeviceInvocationPurposeScope) : string :=
  binding_domain +:+ foldr (λ v rest, framed v +:+ rest) EmptyString (binding_values s).

Section device_caller.
Context `{!UraLib, !Sha256}.

Definition device_invocation_binding (s : DeviceInvocationPurposeScope) : string := sha256 (binding_bytes s).

(** [matches_scope]. *)
Definition matches_scope (p : VerifiedDeviceInvocationPurpose) (s : DeviceInvocationPurposeScope) : bool :=
  bool_decide (is_Some (device_caller_rule_for_purpose (sc_public_ability s) (vp_purpose p)))
  && bool_decide (vp_invocation_binding p = device_invocation_binding s).

Definition classify_public_invocation_caller (caller_ura public_ability : string)
  : result DeviceCallerAdmissionError CallerKindAdmission :=
  p ← map_err (λ e, InvalidCallerUra ("caller_ura `" +:+ caller_ura +:+ "` is invalid: " +:+ e)) (parse_ura caller_ura);
  classify_public_invocation_caller_kind (ura_kind p) public_ability.

(** ** Geometry *)

Definition device_rule_geometry_matches (r : DeviceCallerRule) (s : DeviceInvocationPurposeScope)
    (caller callee subject : ParsedURA) : bool :=
  let selected_authority :=
    bool_decide (ura_kind callee = KAuthority) && bool_decide (ura_realm callee = ura_realm caller)
    && negb (match sc_daemon_ura s with Some daemon => negb (bool_decide (daemon = sc_callee_ura s)) | None => false end) in
  let device_self :=
    bool_decide (ura_kind callee = KDevice) && bool_decide (sc_callee_ura s = sc_caller_ura s)
    && bool_decide (ura_realm callee = ura_realm caller) in
  let callee_matches :=
    match dr_callee_geometry r with
    | SelectedAuthority => selected_authority
    | DeviceSelfOrSelectedAuthority => device_self || selected_authority
    end in
  let subject_matches :=
    bool_decide (ura_realm subject = ura_realm caller)
    && match dr_subject_geometry r with
       | SameRealm => true
       | DeviceSelf => bool_decide (sc_subject_ura s = sc_caller_ura s)
       | OwnerProjection => match ura_kind subject with KDevice | KAgent | KService => true | _ => false end
       | HostedAgent => bool_decide (ura_kind subject = KAgent)
       end in
  callee_matches && subject_matches.

(** [verify_device_invocation_purpose]. *)
Definition verify_device_invocation_purpose (s : DeviceInvocationPurposeScope)
  : result DeviceInvocationPurposeVerificationError VerifiedDeviceInvocationPurpose :=
  let denied reason := GeometryDenied (sc_public_ability s) reason in
  caller ← map_err (λ e, CallerError (InvalidCallerUra
             ("caller_ura `" +:+ sc_caller_ura s +:+ "` is invalid: " +:+ e))) (parse_ura (sc_caller_ura s));
  _ ← ensure (bool_decide (ura_kind caller = KDevice) && bool_decide (is_Some (ura_device_id caller)))
        (CallerError (NonActorCaller (ura_kind caller)));
  _ ← ensure (device_caller_ability_allowed (sc_public_ability s))
        (CallerError (DeviceCallerNotAllowed (sc_public_ability s)));
  let rules := base.filter (λ r, dr_public_ability r = trim (sc_public_ability s) ∧ dr_action r = sc_action s) DEVICE_CALLER_RULES in
  callee ← map_err (λ _, denied "callee is not canonical") (parse_ura (sc_callee_ura s));
  subject ← map_err (λ _, denied "subject is not canonical") (parse_ura (sc_subject_ura s));
  rule ← ok_or (List.find (λ r, device_rule_geometry_matches r s caller callee subject) rules)
           (denied (if bool_decide (rules = []) then "admission action does not match the Device purpose"
                    else "invocation geometry does not match an admitted Device purpose"));
  Ok (mk_VerifiedPurpose (dr_purpose rule) (device_invocation_binding s)).

(** ** Policy *)

Definition owner_projection_publication_host_geometry (caller_ura callee_ura owner_ura : string) (daemon_ura : option string) : bool :=
  match daemon_ura, parsed caller_ura, parsed callee_ura, parsed owner_ura with
  | Some daemon, Some caller, Some callee, Some owner =>
      bool_decide (callee_ura = daemon) && bool_decide (ura_kind caller = KDevice)
      && bool_decide (ura_kind callee = KAuthority) && bool_decide (ura_realm callee = ura_realm caller)
      && bool_decide (ura_realm owner = ura_realm caller)
      && match ura_kind owner with
         | KDevice => bool_decide (owner_ura = caller_ura)
         | KAgent | KService => true
         | _ => false
         end
  | _, _, _, _ => false
  end.

Definition hosted_agent_retraction_geometry (caller_ura subject_ura : string) : bool :=
  match parsed caller_ura, parsed subject_ura with
  | Some caller, Some subject =>
      bool_decide (ura_kind caller = KDevice) && bool_decide (ura_kind subject = KAgent)
      && bool_decide (ura_realm subject = ura_realm caller)
  | _, _ => false
  end.

(** The action a rule admits in a scope, if it admits it. *)
Definition admitted_action (r : DeviceCallerRule) (s : DeviceCallerPolicyScope) (daemon : string) : option AccessAction :=
  match dr_policy_admission r with
  | AdmitNone => None
  | AdmitAuthoritySelf a => if bool_decide (ps_subject_ura s = ps_caller_ura s) then Some a else None
  | AdmitAuthorityOwnerProjection a =>
      if owner_projection_publication_host_geometry (ps_caller_ura s) (ps_callee_ura s) (ps_subject_ura s) (Some daemon)
      then Some a else None
  | AdmitAuthorityHostedAgentRetraction a =>
      if hosted_agent_retraction_geometry (ps_caller_ura s) (ps_subject_ura s) then Some a else None
  end.

(** The body of the [find_map] of [admitted_device_policy_purpose]. *)
Definition admitted_by (s : DeviceCallerPolicyScope) (daemon : string) (r : DeviceCallerRule)
  : option VerifiedDeviceInvocationPurpose :=
  a ← admitted_action r s daemon;
  if negb (bool_decide (ps_action s = a)) then None
  else
    expected ← owner_ability_ura (ps_callee_ura s) (dr_public_ability r);
    if bool_decide (ps_ability_ura s = expected)
    then Some (mk_VerifiedPurpose (dr_purpose r)
                (device_invocation_binding (mk_PurposeScope (ps_caller_ura s) (ps_callee_ura s) (ps_subject_ura s)
                   (dr_public_ability r) (ps_daemon_ura s) (ps_action s))))
    else None.

Fixpoint find_map {A B} (f : A → option B) (l : list A) : option B :=
  match l with
  | [] => None
  | x :: l => match f x with Some y => Some y | None => find_map f l end
  end.

Definition admitted_device_policy_purpose (s : DeviceCallerPolicyScope) : option VerifiedDeviceInvocationPurpose :=
  daemon ← ps_daemon_ura s;
  if negb (bool_decide (ps_callee_ura s = daemon)) then None
  else
    caller ← parsed (ps_caller_ura s);
    if negb (bool_decide (ura_kind caller = KDevice)) then None
    else
      callee ← parsed (ps_callee_ura s);
      if negb (bool_decide (ura_kind callee = KAuthority)) || negb (bool_decide (ura_realm callee = ura_realm caller)) then None
      else find_map (admitted_by s daemon) DEVICE_CALLER_RULES.

(** ** What a purpose is bound to *)

Lemma be_bytes_length n z : String.length (be_bytes n z) = n.
Proof. revert z. induction n as [|n IH]; intros z; cbn; [done|]. rewrite str_length_app, IH. cbn. lia. Qed.

Lemma str_app_inj_length (s s' t t' : string) : String.length s = String.length s' →
  s +:+ t = s' +:+ t' → s = s' ∧ t = t'.
Proof.
  revert s'. induction s as [|c s IH]; intros [|c' s']; cbn; try done.
  intros [= Hl] Heq. rewrite !str_app_cons in Heq. injection Heq as -> Heq. destruct (IH s' Hl Heq) as [-> ->]. done.
Qed.

Lemma be_bytes_inj n z z' : 0 ≤ z < 256 ^ Z.of_nat n → 0 ≤ z' < 256 ^ Z.of_nat n → be_bytes n z = be_bytes n z' → z = z'.
Proof.
  revert z z'. induction n as [|n IH]; intros z z' Hz Hz' Heq; [cbn in *; lia|]. cbn [be_bytes] in Heq.
  rewrite Nat2Z.inj_succ, Z.pow_succ_r in Hz, Hz' by lia.
  apply str_app_inj_length in Heq as [Hhi Hlo]; [|by rewrite !be_bytes_length]. injection Hlo as Hlo.
  apply (f_equal N_of_ascii) in Hlo. pose proof (Z.mod_pos_bound z 256). pose proof (Z.mod_pos_bound z' 256).
  rewrite !N_ascii_embedding in Hlo by lia.
  apply IH in Hhi; [|split; [apply Z.div_pos; lia|apply Z.div_lt_upper_bound; lia]..].
  rewrite (Z.div_mod z 256), (Z.div_mod z' 256) by lia. lia.
Qed.

(** A value fits a frame when its length is a [u64]. *)
Definition fits_frame (v : string) : Prop := Z.of_nat (String.length v) < 2 ^ 64.

Lemma framed_inj v v' rest rest' : fits_frame v → fits_frame v' →
  framed v +:+ rest = framed v' +:+ rest' → v = v' ∧ rest = rest'.
Proof.
  unfold fits_frame, framed, u64_to_be_bytes, u64_wrap. intros Hv Hv' Heq. rewrite !str_app_assoc in Heq.
  apply str_app_inj_length in Heq as [Hlen Heq]; [|by rewrite !be_bytes_length].
  rewrite !Z.mod_small in Hlen by lia. apply be_bytes_inj in Hlen; [|cbn; lia..].
  apply str_app_inj_length in Heq; [done|lia].
Qed.

Lemma frames_inj l l' : length l = length l' → Forall fits_frame l → Forall fits_frame l' →
  foldr (λ v rest, framed v +:+ rest) EmptyString l = foldr (λ v rest, framed v +:+ rest) EmptyString l' → l = l'.
Proof.
  revert l'. induction l as [|v l IH]; intros [|v' l']; cbn; try done.
  intros [= Hl] [Hv Hall]%Forall_cons [Hv' Hall']%Forall_cons Heq. apply framed_inj in Heq as [-> Heq]; [|done..].
  f_equal. by apply IH.
Qed.

Lemma verify_purpose_supported s p : verify_device_invocation_purpose s = Ok p →
  vp_invocation_binding p = device_invocation_binding s ∧
  is_Some (device_caller_rule_for_purpose (sc_public_ability s) (vp_purpose p)).
Proof.
  unfold verify_device_invocation_purpose. intros Hv. inv_ok. split; [done|]. cbn [vp_purpose].
  apply find_some in E4 as [Hin%list_elem_of_In _]. apply list_elem_of_filter in Hin as [[Hab _] Hin].
  unfold device_caller_rule_for_purpose. destruct (List.find _ _) as [r|] eqn:Ef; [by eexists|].
  apply list_elem_of_In, (find_none _ _ Ef) in Hin. by rewrite !bool_decide_true in Hin.
Qed.

(** A verified device purpose is good for the invocation it was
    verified for and for no other: it matches that scope, and any scope it
    matches has the same caller, callee, subject, ability, daemon and action -
    unless the bytes of the two scopes are a collision of SHA-256. *)
Theorem purpose_binds_invocation s p s' :
  verify_device_invocation_purpose s = Ok p →
  Forall fits_frame (binding_values s) → Forall fits_frame (binding_values s') →
  matches_scope p s = true ∧
  (matches_scope p s' = true → binding_values s' = binding_values s ∨
     (binding_bytes s' ≠ binding_bytes s ∧ sha256 (binding_bytes s') = sha256 (binding_bytes s))).
Proof.
  intros [Hb Hs]%verify_purpose_supported Hf Hf'. unfold matches_scope. split.
  - by rewrite Hb, !bool_decide_true.
  - rewrite andb_true_iff, !bool_decide_eq_true. intros [_ Hb']. rewrite Hb in Hb'.
    destruct (decide (binding_bytes s' = binding_bytes s)) as [Heq|Hne]; [left|right; done].
    apply (inj (String.append _)) in Heq. by apply frames_inj.
Qed.

(** ** The policy's purposes are verified ones *)

Lemma find_map_Some {A B} (f : A → option B) l y : find_map f l = Some y → ∃ x, x ∈ l ∧ f x = Some y.
Proof.
  induction l as [|x l IH]; cbn; [done|]. destruct (f x) eqn:E.
  - intros [= <-]. exists x. split; [left|done].
  - intros (x' & ? & ?)%IH. exists x'. split; [by right|done].
Qed.

(** The scope a policy decision and a rule are about. *)
Definition purpose_scope (s : DeviceCallerPolicyScope) (r : DeviceCallerRule) : DeviceInvocationPurposeScope :=
  mk_PurposeScope (ps_caller_ura s) (ps_callee_ura s) (ps_subject_ura s) (dr_public_ability r) (ps_daemon_ura s) (ps_action s).

Lemma verify_with_rule s r caller callee subject :
  let sc := purpose_scope s r in
  parse_ura (ps_caller_ura s) = Ok caller → ura_kind caller = KDevice → is_Some (ura_device_id caller) →
  parse_ura (ps_callee_ura s) = Ok callee → parse_ura (ps_subject_ura s) = Ok subject →
  device_caller_ability_allowed (dr_public_ability r) = true →
  List.find (λ r', device_rule_geometry_matches r' sc caller callee subject)
    (base.filter (λ r', dr_public_ability r' = trim (dr_public_ability r) ∧ dr_action r' = ps_action s) DEVICE_CALLER_RULES) = Some r →
  verify_device_invocation_purpose sc = Ok (mk_VerifiedPurpose (dr_purpose r) (device_invocation_binding sc)).
Proof.
  intros sc Hc Hk Hd Hce Hsu Hal Hf. unfold verify_device_invocation_purpose, sc, purpose_scope.
  cbn [sc_caller_ura sc_callee_ura sc_subject_ura sc_public_ability sc_action].
  rewrite Hc. cbn [map_err mbind result_bind]. rewrite (bool_decide_true (ura_kind caller = KDevice)), (bool_decide_true (is_Some (ura_device_id caller))) by done.
  cbn [andb ensure mbind result_bind]. rewrite Hal. cbn [ensure mbind result_bind]. rewrite Hce. cbn [map_err mbind result_bind]. rewrite Hsu.
  cbn [map_err mbind result_bind]. unfold sc, purpose_scope in Hf. by rewrite Hf.
Qed.

(** A rule of the table, one case for each. *)
Ltac each_rule Hin :=
  unfold DEVICE_CALLER_RULES in Hin;
  repeat (apply elem_of_cons in Hin as [->|Hin]); [..|by apply elem_of_nil in Hin].

(** The rules the policy admits. *)
Lemma admitted_rule s daemon r p : r ∈ DEVICE_CALLER_RULES → admitted_by s daemon r = Some p →
  p = mk_VerifiedPurpose (dr_purpose r) (device_invocation_binding (purpose_scope s r)) ∧
  owner_ability_ura (ps_callee_ura s) (dr_public_ability r) = Some (ps_ability_ura s) ∧
  admitted_action r s daemon = Some (ps_action s).
Proof.
  intros _. unfold admitted_by. destruct (admitted_action r s daemon) as [a|]; cbn; [|done].
  destruct (bool_decide_reflect (ps_action s = a)) as [<-|]; cbn; [|done].
  destruct (owner_ability_ura _ _) as [u|] eqn:Eu; cbn; [|done].
  destruct (bool_decide_reflect (ps_ability_ura s = u)) as [<-|]; [|done]. by intros [= <-].
Qed.

Lemma geometry_matches s r caller callee subject :
  ura_kind callee = KAuthority → ura_realm callee = ura_realm caller → ura_realm subject = ura_realm caller →
  ps_daemon_ura s = Some (ps_callee_ura s) →
  match dr_subject_geometry r with
  | SameRealm => True
  | DeviceSelf => ps_subject_ura s = ps_caller_ura s
  | OwnerProjection => ura_kind subject = KDevice ∨ ura_kind subject = KAgent ∨ ura_kind subject = KService
  | HostedAgent => ura_kind subject = KAgent
  end → device_rule_geometry_matches r (purpose_scope s r) caller callee subject = true.
Proof.
  intros Hk Hr Hs Hd Hg. unfold device_rule_geometry_matches, purpose_scope.
  cbn [sc_caller_ura sc_callee_ura sc_subject_ura sc_daemon_ura]. rewrite Hd, Hr, Hs.
  rewrite !(bool_decide_true (ura_kind callee = KAuthority)), !(bool_decide_true (_ = ura_realm caller)) by done.
  rewrite !(bool_decide_true (ps_callee_ura s = ps_callee_ura s)) by done. cbn [andb negb].
  destruct (dr_callee_geometry r); rewrite ?orb_true_r; cbn [andb];
    destruct (dr_subject_geometry r); try done; rewrite ?bool_decide_true by done; try done;
    by destruct Hg as [-> |[-> | ->]].
Qed.

Lemma parsed_Some ura p : parsed ura = Some p ↔ parse_ura ura = Ok p.
Proof. unfold parsed. destruct (parse_ura ura); naive_solver. Qed.

(** The subject of an invocation the policy admits has the rule's geometry. *)
Lemma admitted_subject s r caller callee :
  parsed (ps_caller_ura s) = Some caller → ura_kind caller = KDevice → parsed (ps_callee_ura s) = Some callee →
  admitted_action r s (ps_callee_ura s) = Some (ps_action s) → r ∈ DEVICE_CALLER_RULES →
  ∃ subject, parsed (ps_subject_ura s) = Some subject ∧ ura_realm subject = ura_realm caller ∧
    match dr_subject_geometry r with
    | SameRealm => True
    | DeviceSelf => ps_subject_ura s = ps_caller_ura s
    | OwnerProjection => ura_kind subject = KDevice ∨ ura_kind subject = KAgent ∨ ura_kind subject = KService
    | HostedAgent => ura_kind subject = KAgent
    end.
Proof.
  intros Hc Hk Hce Ha Hin. assert (dr_subject_geometry r = match dr_policy_admission r with
    | AdmitAuthoritySelf _ => DeviceSelf | AdmitAuthorityOwnerProjection _ => OwnerProjection
    | AdmitAuthorityHostedAgentRetraction _ => HostedAgent | AdmitNone => dr_subject_geometry r end) as ->.
  { by each_rule Hin. }
  unfold admitted_action in Ha. destruct (dr_policy_admission r); [done|..].
  - destruct (bool_decide_reflect (ps_subject_ura s = ps_caller_ura s)) as [->|]; [|done]. by exists caller.
  - unfold owner_projection_publication_host_geometry in Ha. rewrite Hc, Hce in Ha.
    destruct (parsed (ps_subject_ura s)) as [subject|]; [|done]. exists subject. split; [done|].
    destruct (bool_decide (ps_callee_ura s = ps_callee_ura s)), (bool_decide (ura_kind caller = KDevice)),
      (bool_decide (ura_kind callee = KAuthority)), (bool_decide (ura_realm callee = ura_realm caller)); try done.
    destruct (bool_decide_reflect (ura_realm subject = ura_realm caller)); [|done]. split; [done|].
    destruct (ura_kind subject); auto; done.
  - unfold hosted_agent_retraction_geometry in Ha. rewrite Hc in Ha.
    destruct (parsed (ps_subject_ura s)) as [subject|]; [|done]. exists subject. split; [done|].
    destruct (bool_decide (ura_kind caller = KDevice)), (bool_decide_reflect (ura_kind subject = KAgent)),
      (bool_decide_reflect (ura_realm subject = ura_realm caller)); done.
Qed.

(** The rule of an admission is the first of its ability and action to match. *)
Lemma rule_found s r caller callee subject :
  r ∈ DEVICE_CALLER_RULES → admitted_action r s (ps_callee_ura s) = Some (ps_action s) →
  parse_ura (ps_caller_ura s) = Ok caller → ura_kind caller = KDevice →
  parse_ura (ps_subject_ura s) = Ok subject →
  match dr_subject_geometry r with HostedAgent => ura_kind subject = KAgent | _ => True end →
  device_rule_geometry_matches r (purpose_scope s r) caller callee subject = true →
  List.find (λ r', device_rule_geometry_matches r' (purpose_scope s r) caller callee subject)
    (base.filter (λ r', dr_public_ability r' = trim (dr_public_ability r) ∧ dr_action r' = ps_action s) DEVICE_CALLER_RULES) = Some r.
Proof.
  intros Hin Ha Hc Hk Hs Hg Hgeo.
  assert (dr_policy_admission r ≠ AdmitNone ∧ dr_action r = ps_action s) as [Hadm Hact].
  { unfold admitted_action in Ha. each_rule Hin; cbn in *; try done; by repeat case_match; simplify_eq. }
  rewrite <- Hact. each_rule Hin; try done;
    lazymatch goal with
    | |- List.find _ ?l = Some ?r =>
        first [ assert (l = [r]) as -> by (vm_compute; reflexivity); cbn [List.find]; by rewrite Hgeo
              | assert (∃ rest, l = r :: rest) as [rest ->] by (eexists; vm_compute; reflexivity); cbn [List.find]; by rewrite Hgeo
              | assert (∃ r0, l = [r0; r] ∧ dr_subject_geometry r0 = DeviceSelf) as (r0 & -> & Hr0)
                  by (eexists; split; [vm_compute; reflexivity|reflexivity]) ]
    end.
  cbn [List.find]. rewrite Hgeo. assert (ps_subject_ura s ≠ ps_caller_ura s) as Hne.
  { intros Heq. rewrite Heq, Hc in Hs. injection Hs as ->. cbn in Hg. congruence. }
  assert (∀ sc, sc_subject_ura sc ≠ sc_caller_ura sc → device_rule_geometry_matches r0 sc caller callee subject = false) as ->; [|done..].
  intros sc Hsc. unfold device_rule_geometry_matches. rewrite Hr0, (bool_decide_false (sc_subject_ura sc = _)) by done.
  by rewrite !andb_false_r.
Qed.

(** What the policy admits, the verifier mints: a purpose the
    policy gate accepts for a device caller is the purpose, with the same
    binding, that verification of the complete invocation gives for an ability
    whose address is the one invoked. *)
Theorem policy_purpose_verified s p :
  (∀ caller, parsed (ps_caller_ura s) = Some caller → ura_kind caller = KDevice → is_Some (ura_device_id caller)) →
  admitted_device_policy_purpose s = Some p →
  ∃ r, r ∈ DEVICE_CALLER_RULES ∧ owner_ability_ura (ps_callee_ura s) (dr_public_ability r) = Some (ps_ability_ura s) ∧
    verify_device_invocation_purpose (purpose_scope s r) = Ok p.
Proof.
  intros Hdev. unfold admitted_device_policy_purpose. destruct (ps_daemon_ura s) as [daemon|] eqn:Ed; [|done]. cbn [mbind option_bind].
  destruct (bool_decide_reflect (ps_callee_ura s = daemon)) as [<-|]; cbn [negb]; [|done].
  destruct (parsed (ps_caller_ura s)) as [caller|] eqn:Ec; [|done]. cbn [mbind option_bind].
  destruct (bool_decide_reflect (ura_kind caller = KDevice)) as [Hk|]; cbn [negb]; [|done].
  destruct (parsed (ps_callee_ura s)) as [callee|] eqn:Ee; [|done]. cbn [mbind option_bind].
  destruct (bool_decide_reflect (ura_kind callee = KAuthority)) as [Hck|]; cbn [negb orb]; [|done].
  destruct (bool_decide_reflect (ura_realm callee = ura_realm caller)) as [Hr|]; cbn [negb orb]; [|done].
  intros (r & Hin & Hadm)%find_map_Some. destruct (admitted_rule s _ r p Hin Hadm) as (-> & Hown & Hact).
  exists r. split; [done|]. split; [done|]. specialize (Hdev caller eq_refl Hk).
  destruct (admitted_subject s r caller callee Ec Hk Ee Hact) as (subject & Es & Hsr & Hsg); [done|].
  apply parsed_Some in Ec, Ee, Es. eapply verify_with_rule; try done.
  - by each_rule Hin.
  - apply rule_found; try done; [by destruct (dr_subject_geometry r)|by apply geometry_matches].
Qed.
End device_caller.
