(* ===== verification/PolicyGate.v ===== *)
(** * The policy gate (src/src/daemon/invocation/admission/policy_gate.rs, with
    ability_ura_for_wire of src/src/daemon/axon_bridge/descriptor_ref.rs and the
    store registry of src/src/daemon/persistence/access_control.rs)

    From a signed envelope to a decision: the principal of the caller, the owner
    of the subject, the system rules that match, the grants of the owner's store,
    and the consumption of a one-time grant that allowed. *)

From Stdlib Require Import String Ascii.
From S2P Require Import Prelude RustStd Text Ura Json World Decision Grants PolicyEngine AuthorityProof AccessControl.
From S2P Require Import TrustAnchor DeviceCaller.
From S2P Require Retry.

Open Scope Z_scope.

(** ** Interfaces *)

(** [tonic::Status] with the codes used here. *)
Inductive Code := InvalidArgument | PermissionDenied | Internal.
Record Status := mk_Status { st_code : Code; st_message : string }.
Definition invalid_argument (m : string) : Status := mk_Status InvalidArgument m.
Definition permission_denied (m : string) : Status := mk_Status PermissionDenied m.
Definition internal (m : string) : Status := mk_Status Internal m.

(** The addresses of an envelope of the SDK, absent or as they came. *)
Record Envelope := mk_Envelope {
  env_caller : option string;
  env_callee : option string;
  env_subject : option string;
}.

(** Descriptor references of the SDK; the SystemAgent that the daemon's catalogue
    of descriptors says owns a public ability; the JSON of a decision. *)
Class GateLib := {
  canonical_ability_descriptor_ref : string → result string string;
  axon_ability_ura_from_descriptor_ref : string → result string string;
  device_sponsored_system_agent_owner : string → option string;
  decision_json : PolicyDecision → string;
  purpose_debug : DeviceCallerPurpose → string;
}.

(** Directories. *)
Class PolicyDirs (W : Type) := {
  dir_exists : string → W → bool;
  create_dir_all : string → st W (result string unit);
  rename_dir : string → string → st W (result string unit);
}.

(** ** Trusted callers *)

Inductive TrustedCallerPath :=
| PathUser | PathHub | PathBackend
| PathDeviceCustody (purpose : VerifiedDeviceInvocationPurpose)
| PathAgentDeviceCustody.

#[global] Instance TrustedCallerPath_eq_dec : EqDecision TrustedCallerPath.
Proof. solve_decision. Defined.

Inductive VerifiedCallerEvidence :=
| EvTrustAnchorRole (role : TrustAnchorRole)
| EvPrincipalLifecycleRole (role : TrustAnchorRole)
| EvLocalHostedAgentKey
| EvFederated.

Section paths.
Context `{!UraLib, !GateLib}.

Definition from_derived_child_caller (caller_ura : string) : result Status TrustedCallerPath :=
  caller ← map_err (λ e, invalid_argument ("DERIVED_CHILD_CALLER_URA_INVALID: caller `" +:+ caller_ura +:+
             "` is not canonical: " +:+ e)) (parse_ura caller_ura);
  match ura_kind caller with
  | KAgent | KService => Ok PathAgentDeviceCustody
  | KAuthority => Ok PathHub
  | _ => Err (invalid_argument ("DERIVED_CHILD_CALLER_KIND_MISMATCH: derived child caller `" +:+ caller_ura +:+
                "` must be the parent callable Agent, Service, or Authority"))
  end.

Definition require_device_caller_purpose (caller_ura public_ability : string)
    (device_purpose : option VerifiedDeviceInvocationPurpose) : result Status VerifiedDeviceInvocationPurpose :=
  purpose ← ok_or device_purpose (permission_denied ("DEVICE_CALLER_PURPOSE_UNVERIFIED: Device caller `" +:+ caller_ura +:+
              "` has no verified invocation purpose for `" +:+ public_ability +:+ "`"));
  _ ← ensure (supports_public_ability purpose public_ability)
        (permission_denied ("DEVICE_CALLER_PURPOSE_MISMATCH: Device caller `" +:+ caller_ura +:+ "` presented " +:+
           purpose_debug (vp_purpose purpose) +:+ " for `" +:+ public_ability +:+ "`"));
  Ok purpose.

Definition from_local_hosted_agent_custody (caller_ura : string) : result Status TrustedCallerPath :=
  caller ← map_err (λ e, invalid_argument ("LOCAL_HOSTED_AGENT_CALLER_URA_INVALID: caller `" +:+ caller_ura +:+
             "` is not canonical: " +:+ e)) (parse_ura caller_ura);
  _ ← ensure (bool_decide (ura_kind caller = KAgent))
        (invalid_argument ("LOCAL_HOSTED_AGENT_CALLER_KIND_MISMATCH: local hosted-Agent key custody requires an Agent caller URA, got `"
           +:+ caller_ura +:+ "`"));
  Ok PathAgentDeviceCustody.

Definition from_federated_invocation_caller (caller_ura public_ability : string)
    (device_purpose : option VerifiedDeviceInvocationPurpose) : result Status TrustedCallerPath :=
  caller ← map_err (λ e, invalid_argument ("FEDERATED_CALLER_URA_INVALID: caller `" +:+ caller_ura +:+
             "` is not canonical: " +:+ e)) (parse_ura caller_ura);
  match ura_kind caller with
  | KAgent => Ok PathAgentDeviceCustody
  | KDevice =>
      purpose ← require_device_caller_purpose caller_ura public_ability device_purpose;
      Ok (PathDeviceCustody purpose)
  | KUser => Ok PathUser
  | KAuthority => Ok PathHub
  | _ => Err (invalid_argument ("FEDERATED_CALLER_KIND_MISMATCH: federated caller `" +:+ caller_ura +:+
                "` must be a User, Agent, Device, or Authority URA"))
  end.

Definition from_trust_anchor_role_and_caller (role : TrustAnchorRole) (caller_ura public_ability : string)
    (device_purpose : option VerifiedDeviceInvocationPurpose) : result Status TrustedCallerPath :=
  match role with
  | RoleUser => Ok PathUser
  | RoleHub => Ok PathHub
  | RoleBackend => Ok PathBackend
  | RoleDevice =>
      caller ← map_err (λ e, invalid_argument ("TRUST_PATH_CALLER_URA_INVALID: device-custody caller `" +:+ caller_ura +:+
                 "` is not canonical: " +:+ e)) (parse_ura caller_ura);
      match ura_kind caller with
      | KAgent => Ok PathAgentDeviceCustody
      | KDevice =>
          purpose ← require_device_caller_purpose caller_ura public_ability device_purpose;
          Ok (PathDeviceCustody purpose)
      | _ => Err (invalid_argument ("TRUST_PATH_KIND_MISMATCH: device-custody caller `" +:+ caller_ura +:+
                    "` must be a Device or Agent URA"))
      end
  end.

Definition from_verified_invocation_caller (caller_ura : string) (evidence : VerifiedCallerEvidence) (public_ability : string)
    (device_purpose : option VerifiedDeviceInvocationPurpose) : result Status TrustedCallerPath :=
  match evidence with
  | EvTrustAnchorRole role | EvPrincipalLifecycleRole role =>
      from_trust_anchor_role_and_caller role caller_ura public_ability device_purpose
  | EvLocalHostedAgentKey => from_local_hosted_agent_custody caller_ura
  | EvFederated => from_federated_invocation_caller caller_ura public_ability device_purpose
  end.

(** ** Principals *)

Record PrincipalProjection := mk_PrincipalProjection {
  pp_kind : PrincipalKind;
  pp_id : string;
  pp_token_id : option string;
  pp_token_class : option TokenClass;
  pp_caller_user_ura : option string;
  pp_device_invocation_purpose : option VerifiedDeviceInvocationPurpose;
}.

Definition canonical_user_principal_ura (ura : string) : result string string :=
  p ← parse_ura ura;
  _ ← ensure (bool_decide (ura_kind p = KUser) && bool_decide (is_Some (ura_user_id p))) "not a User URA";
  Ok ura.

Definition accountable_user (user_ura : string) : result Status PrincipalProjection :=
  user_ura ← map_err (λ e, invalid_argument ("DERIVED_PRINCIPAL_KIND_MISMATCH: parent authority principal `" +:+ user_ura +:+
               "` must be a canonical User URA: " +:+ e)) (canonical_user_principal_ura user_ura);
  Ok (mk_PrincipalProjection PUser user_ura None None (Some user_ura) None).

Definition principal_for (path : TrustedCallerPath) (caller_ura : string) : result Status PrincipalProjection :=
  match path with
  | PathUser =>
      user_ura ← map_err (λ e, invalid_argument ("PRINCIPAL_KIND_MISMATCH: user-trusted caller `" +:+ caller_ura +:+
                   "` must be a canonical User URA: " +:+ e)) (canonical_user_principal_ura caller_ura);
      Ok (mk_PrincipalProjection PUser user_ura None None (Some user_ura) None)
  | PathHub => Ok (mk_PrincipalProjection PToken caller_ura (Some caller_ura) (Some THubLink) None None)
  | PathAgentDeviceCustody => Ok (mk_PrincipalProjection PAgent caller_ura None None None None)
  | PathDeviceCustody purpose =>
      Ok (mk_PrincipalProjection PDeviceCustody caller_ura (Some caller_ura)
            (if carries_pairing_token_scope purpose then Some TDevicePairing else None) None (Some purpose))
  | PathBackend => Ok (mk_PrincipalProjection PService caller_ura None None None None)
  end.

(** ** Owners *)

Definition owner_fact_from_trust_anchor (ura : string) (a : RealmTrustAnchor) : option OwnerFact :=
  owner ← lookup_principal_owner a ura; Some (OwnerFact_user_ura (po_owner_ura owner) (po_owner_ura owner)).

Definition resource_owner_user_ura (p : ParsedURA) : option string :=
  owner_id ← ura_resource_owner_id p;
  match strip_prefix "agent." owner_id with
  | Some rest =>
      '(user_id, _) ← split_once 46 rest;
      if is_empty user_id then None else Some (user_ura (ura_realm p) user_id)
  | None =>
      user_id ← strip_prefix "user." owner_id;
      if is_empty user_id then None else Some (user_ura (ura_realm p) user_id)
  end.

(** The fact that a user of the realm is the owner. *)
Definition user_fact (p : ParsedURA) (user_id : string) : OwnerFact :=
  let owner_ura := user_ura (ura_realm p) user_id in OwnerFact_user_ura owner_ura owner_ura.

Definition owner_fact_from_ura (ura : string) (a : RealmTrustAnchor) : result Status (option OwnerFact) :=
  match owner_fact_from_trust_anchor ura a with
  | Some owner => Ok (Some owner)
  | None =>
      p ← map_err (λ e, invalid_argument ("OWNER_FACT_URA_INVALID: " +:+ ura +:+ ": " +:+ e)) (parse_ura ura);
      Ok match ura_kind p with
         | KUser => _ ← ura_user_id p; Some (OwnerFact_user_ura ura ura)
         | KAgent =>
             match ura_agent_ids p, ura_device_agent_ids p with
             | Some (user_id, _), _ => Some (user_fact p user_id)
             | None, Some (device_id, _) => owner_fact_from_trust_anchor (device_ura (ura_realm p) device_id) a
             | None, None => None
             end
         | KService => '(principal_id, _) ← ura_service_ids p; Some (user_fact p principal_id)
         | KAbility =>
             match ura_ability_owner p with
             | Some (OwnerAgent user_id agent_id) =>
                 match owner_fact_from_trust_anchor (agent_ura (ura_realm p) user_id agent_id) a with
                 | Some fact => Some fact
                 | None => Some (user_fact p user_id)
                 end
             | Some (OwnerService principal_id _) => Some (user_fact p principal_id)
             | Some (OwnerSystemAgent device_id _) => owner_fact_from_trust_anchor (device_ura (ura_realm p) device_id) a
             | Some (OwnerDevice _) | Some OwnerAuthority | None => None
             end
         | KDevice | KAuthority => owner_fact_from_trust_anchor ura a
         | KResource => owner_ura ← resource_owner_user_ura p; Some (OwnerFact_user_ura owner_ura owner_ura)
         | KUnknown => None
         end
  end.

Definition resolve_owner (subject_ura callee_ura : string) (a : RealmTrustAnchor) : result Status OwnerResolution :=
  subject ← owner_fact_from_ura subject_ura a;
  callee ← owner_fact_from_ura callee_ura a;
  Ok (resolve (mk_OwnerResolutionInput subject callee (owner_fact_from_trust_anchor callee_ura a) None)).
End paths.

(** ** Ability addresses *)

Section wire.
Context `{!UraLib, !GateLib}.

(** [ability_ura_from_descriptor_ref] of descriptor_ref.rs. *)
Definition ability_ura_from_descriptor_ref (descriptor_ref : string) : result string string :=
  canonical ← canonical_ability_descriptor_ref descriptor_ref;
  axon_ability_ura_from_descriptor_ref canonical.

Definition ensure_ability_owner_matches_callee (callee_ura : string) (s : AbilitySelector) : result string unit :=
  ensure (bool_decide (sel_owner_ura s = callee_ura))
    ("descriptor-bound ability owner `" +:+ sel_owner_ura s +:+ "` does not match callee `" +:+ callee_ura +:+ "`").

Definition ability_ura_for_wire (callee_ura ability : string) : result string string :=
  let callee_ura := trim callee_ura in
  let ability := trim ability in
  _ ← ensure (negb (is_empty callee_ura)) "descriptor-bound ability callee URA is empty";
  _ ← ensure (negb (is_empty ability)) "descriptor-bound ability name is empty";
  match canonical_ability_descriptor_ref ability with
  | Ok descriptor_ref =>
      ability_ura ← ability_ura_from_descriptor_ref descriptor_ref;
      selector ← map_err (λ e, "descriptor-bound ability ref carries invalid ability URA `" +:+ ability_ura +:+ "`: " +:+ e)
                   (AbilitySelector_parse ability_ura);
      _ ← ensure_ability_owner_matches_callee callee_ura selector;
      Ok (sel_ability_ura selector)
  | Err _ =>
      match AbilitySelector_parse ability with
      | Ok selector =>
          _ ← ensure_ability_owner_matches_callee callee_ura selector;
          Ok (sel_ability_ura selector)
      | Err _ =>
          callee ← map_err (λ e, "descriptor-bound ability callee URA is invalid: " +:+ e) (parse_ura callee_ura);
          _ ← ensure (negb (bool_decide (ura_kind callee = KAuthority) && String.prefix "hub." ability))
                "Authority descriptor-bound ability must not use retired hub.* ability aliases";
          _ ← ensure (negb (bool_decide (ura_kind callee = KDevice)))
                "Device is execution substrate, not an Ability owner; use a device-sponsored SystemAgent callee";
          ok_or (owner_ability_ura callee_ura (descriptor_public_ability_name callee_ura ability))
            ("derive descriptor-bound ability URA for callee `" +:+ callee_ura +:+ "` ability `" +:+ ability +:+ "`")
      end
  end.

Definition ability_ura_for (callee_ura ability : string) : result Status string :=
  map_err (λ e, invalid_argument ("ABILITY_URA_PROJECTION_FAILED: callee=" +:+ callee_ura +:+ " ability=" +:+ ability +:+
                  ": " +:+ e)) (ability_ura_for_wire callee_ura ability).

(** [agent_ura] and [subject_ura] of the gate: an address of the envelope. *)
Definition envelope_ura (o : option string) (missing : string) : result Status string :=
  ok_or (nonblank o) (invalid_argument missing).

(** ** The system rules *)

Definition is_authority_owned_ura_in_realm (ura realm : string) : bool :=
  match parsed ura with
  | Some p => bool_decide (ura_realm p = realm) && bool_decide (ura_kind p = KAbility)
              && bool_decide (ura_ability_owner p = Some OwnerAuthority)
  | None => false
  end.

Definition is_authority_resource_subject_in_realm (ura realm : string) : bool :=
  match parsed ura with
  | Some p => bool_decide (ura_realm p = realm) && bool_decide (ura_kind p = KResource)
              && bool_decide (ura_resource_owner_id p = Some "authority")
  | None => false
  end.

Definition ura_is_in_realm (ura realm : string) : bool :=
  match parsed ura with Some p => bool_decide (ura_realm p = realm) | None => false end.

(** What the rules look at. *)
Record RuleScope := mk_RuleScope {
  rs_caller : string;
  rs_callee : string;
  rs_subject : string;
  rs_ability_ura : string;
  rs_daemon : option string;
  rs_path : TrustedCallerPath;
  rs_action : AccessAction;
}.

(** The guards that the rules of an authority on itself share: the callee of the
    hub path is this daemon and the caller, and the ability is its own; gives the
    realm. *)
Definition authority_self (s : RuleScope) : option string :=
  if negb (bool_decide (rs_path s = PathHub)) then None
  else if negb (bool_decide (Some (rs_callee s) = rs_daemon s)) || negb (bool_decide (rs_caller s = rs_callee s)) then None
  else
    callee ← parsed (rs_callee s);
    if negb (bool_decide (ura_kind callee = KAuthority)) then None
    else if negb (is_authority_owned_ura_in_realm (rs_ability_ura s) (ura_realm callee)) then None
    else Some (ura_realm callee).

Definition authority_self_read_scope (s : RuleScope) : bool :=
  match authority_self s with
  | Some realm => bool_decide (rs_subject s = rs_callee s) || is_authority_owned_ura_in_realm (rs_subject s) realm
  | None => false
  end.

Definition authority_self_manage_scope (s : RuleScope) : bool :=
  bool_decide (rs_action s = AManage)
  && match authority_self s with Some realm => ura_is_in_realm (rs_subject s) realm | None => false end.

Definition authority_self_stream_scope (s : RuleScope) : bool :=
  bool_decide (rs_action s = AStream)
  && match authority_self s with
     | Some realm => bool_decide (rs_subject s = rs_callee s) || is_authority_resource_subject_in_realm (rs_subject s) realm
     | None => false
     end.

Record VerifiedAuthorityPeerDirectoryStream := mk_PeerDirectoryStream {
  vs_authority_id : string;
  vs_policy_ura : string;
}.
Inductive AuthorityPeerDirectoryStreamMatch :=
| StreamNotApplicable
| StreamVerified (v : VerifiedAuthorityPeerDirectoryStream)
| StreamDenied (reason : string).

(** [VerifiedAuthorityPeerDirectoryStream::classify]. *)
Definition classify_peer_directory_stream (s : RuleScope) (a : RealmTrustAnchor) : AuthorityPeerDirectoryStreamMatch :=
  match parsed (rs_caller s), parsed (rs_callee s) with
  | Some caller, Some callee =>
      let expected := default EmptyString (owner_ability_ura (rs_callee s) ABILITY_FEDERATION_SUBSCRIBE_DIRECTORY_V2) in
      if negb (bool_decide (rs_path s = PathHub)) || negb (bool_decide (ura_kind caller = KAuthority))
         || negb (bool_decide (ura_kind callee = KAuthority)) || bool_decide (rs_caller s = rs_callee s)
         || negb (bool_decide (rs_ability_ura s = expected))
      then StreamNotApplicable
      else if negb (bool_decide (rs_action s = AStream)) then StreamDenied "directory subscription requires stream action"
      else if negb (bool_decide (Some (rs_callee s) = rs_daemon s)) then StreamDenied "callee must be the selected local Authority"
      else if bool_decide (ura_realm caller = ura_realm callee) then StreamDenied "peer and local Authority realms must differ"
      else if negb (has_federation_peer_for_realm a (ura_realm caller))
      then StreamDenied "caller realm is not a trusted federation peer"
      else match parsed (rs_subject s) with
      | None => StreamDenied "directory subject is not canonical"
      | Some subject =>
          if bool_decide (ura_kind subject = KResource) && bool_decide (ura_realm subject = ura_realm caller)
             && bool_decide (ura_resource_owner_id subject = Some "hub.federation")
             && bool_decide (ura_resource_path subject = Some ("directory/" +:+ ura_realm callee))
          then StreamVerified (mk_PeerDirectoryStream
                 ("peer-directory-stream:" +:+ rs_caller s +:+ ":" +:+ rs_callee s)
                 (resource_dot_ura (ura_realm callee) "hub.federation" "policy/system.authority.peer_directory_stream"))
          else StreamDenied "directory subject does not exactly bind caller and callee realms"
      end
  | _, _ => StreamNotApplicable
  end.

Definition authority_peer_directory_stream_scope (s : RuleScope) (a : RealmTrustAnchor) : bool :=
  match classify_peer_directory_stream s a with StreamVerified _ => true | _ => false end.

(** [into_result]. *)
Definition stream_into_result (m : AuthorityPeerDirectoryStreamMatch)
  : result string (option VerifiedAuthorityPeerDirectoryStream) :=
  match m with
  | StreamNotApplicable => Ok None
  | StreamVerified v => Ok (Some v)
  | StreamDenied reason => Err reason
  end.

(** [execution_target_owner_ura_for_public_ability] of catalog/ownership.rs. *)
Definition execution_target_owner_ura (target_ura public_ability : string) : option string :=
  target ← parsed target_ura;
  match ura_kind target with
  | KAuthority => Some target_ura
  | KDevice =>
      device_id ← ura_device_id target;
      agent_id ← (let name := trim public_ability in if is_empty name then None else device_sponsored_system_agent_owner name);
      Some (device_agent_ura (ura_realm target) device_id agent_id)
  | _ => None
  end.

Definition realm_authority_public_read_scope (s : RuleScope) (public_ability : string) (safe_read : bool) : bool :=
  if negb (bool_decide (rs_path s = PathHub)) || negb (bool_decide (rs_action s = ARead)) || negb safe_read then false
  else match parsed (rs_caller s), rs_daemon s with
  | Some caller, Some daemon_ura =>
      match parsed daemon_ura with
      | Some daemon =>
          bool_decide (ura_kind caller = KAuthority) && bool_decide (ura_kind daemon = KDevice)
          && bool_decide (ura_realm daemon = ura_realm caller) && bool_decide (rs_subject s = daemon_ura)
          && bool_decide (execution_target_owner_ura daemon_ura public_ability = Some (rs_callee s))
      | None => false
      end
  | _, _ => false
  end.

Definition remote_owner_forward_allowed (s : RuleScope) (a : RealmTrustAnchor) : bool :=
  match rs_path s, rs_daemon s with
  | PathDeviceCustody _, _ => false
  | _, None => false
  | _, Some daemon_ura =>
      match parsed daemon_ura, parsed (rs_caller s), parsed (rs_callee s) with
      | Some local, Some caller, Some callee =>
          bool_decide (ura_kind local = KAuthority) && bool_decide (ura_realm caller = ura_realm local)
          && negb (bool_decide (ura_realm callee = ura_realm local))
          && has_federation_peer_for_realm a (ura_realm callee)
      | _, _, _ => false
      end
  end.

Context `{!Sha256}.

(** The four rules for devices, one for each purpose. *)
Definition device_purpose_scope (s : RuleScope) (expected : DeviceCallerPurpose) : bool :=
  match rs_path s with
  | PathDeviceCustody purpose =>
      bool_decide (admitted_device_policy_purpose
                     (mk_PolicyScope (rs_caller s) (rs_callee s) (rs_subject s) (rs_ability_ura s) (rs_daemon s) (rs_action s))
                   = Some purpose)
      && purpose_is purpose expected
  | _ => false
  end.
Definition device_publication_custody_manage_scope (s : RuleScope) : bool := device_purpose_scope s PublicationCustody.
Definition device_self_session_stream_scope (s : RuleScope) : bool := device_purpose_scope s DeviceSelfSession.
Definition device_lifecycle_self_revoke_manage_scope (s : RuleScope) : bool := device_purpose_scope s LifecycleSelfRevoke.
Definition device_hosted_agent_retraction_manage_scope (s : RuleScope) : bool := device_purpose_scope s HostedAgentRetraction.

(** [push_system_rule]. *)
Definition push_system_rule (matched : bool) (r : SystemPolicyRuleMatch) (rules : list SystemPolicyRuleMatch)
  : list SystemPolicyRuleMatch := if matched then rules ++ [r] else rules.

Definition system_rule_matches (s : RuleScope) (ability : string) (safe_read : bool) (a : RealmTrustAnchor)
  : list SystemPolicyRuleMatch :=
  push_system_rule (remote_owner_forward_allowed s a) RemoteOwnerForward
  (push_system_rule (device_hosted_agent_retraction_manage_scope s) DeviceHostedAgentRetractionManage
  (push_system_rule (device_lifecycle_self_revoke_manage_scope s) DeviceLifecycleSelfRevokeManage
  (push_system_rule (device_self_session_stream_scope s) DeviceSelfSessionStream
  (push_system_rule (device_publication_custody_manage_scope s) DevicePublicationCustodyManage
  (push_system_rule (realm_authority_public_read_scope s ability safe_read) RealmAuthorityPublicRead
  (push_system_rule (authority_peer_directory_stream_scope s a) AuthorityPeerDirectoryStream
  (push_system_rule (authority_self_stream_scope s) AuthoritySelfStream
  (push_system_rule (authority_self_manage_scope s) AuthoritySelfManage
  (push_system_rule (authority_self_read_scope s) AuthoritySelfRead []))))))))).
End wire.

(** ** The gate *)

Definition INVOCATION_CANCEL : string := "invocation.cancel".

Definition invocation_lifecycle_control_scope (ability : string) (action : AccessAction) : bool :=
  bool_decide (action = AManage) && bool_decide (trim ability = INVOCATION_CANCEL).

Record AdmissionPolicyContext := mk_PolicyContext {
  cx_envelope : Envelope;
  cx_ability : string;
  cx_action : AccessAction;
  cx_safe_read : bool;
  cx_trusted_path : TrustedCallerPath;
  cx_daemon_ura : option string;
  cx_trust_anchor : RealmTrustAnchor;
  cx_canonical_hash : option string;
  cx_signature_key_id : option string;
  cx_verified_authority_id : option string;
  cx_verified_session_id : option string;
  cx_accountable_principal : option PrincipalProjection;
  cx_rejector_ura : option string;
}.

(** [AccessControlStoreRegistry]: the stores open so far, by owner. *)
Record AccessControlStoreRegistry := mk_Registry {
  rg_root : string;
  rg_stores : list (string * AccessControlStore);
}.

Section gate.
Context {W : Type} `{!UraLib, !Chrono, !SerdeJson, !Sha256, !PolicyCodec, !PolicyWorld W, !PolicyDirs W, !GateLib}.

(** The input of the engine, before the grants of the owner's store. *)
Definition policy_input (c : AdmissionPolicyContext) (now : Z) : result Status PolicyInput :=
  caller_ura ← envelope_ura (env_caller (cx_envelope c)) "Invoke envelope missing caller URA";
  callee_ura ← envelope_ura (env_callee (cx_envelope c)) "Invoke envelope missing callee URA";
  subject_ura ← envelope_ura (env_subject (cx_envelope c)) "Invoke envelope missing subject URA";
  ability_ura ← ability_ura_for callee_ura (cx_ability c);
  owner ← resolve_owner subject_ura callee_ura (cx_trust_anchor c);
  principal ← principal_for (cx_trusted_path c) caller_ura;
  let scope := mk_RuleScope caller_ura callee_ura subject_ura ability_ura (cx_daemon_ura c) (cx_trusted_path c) (cx_action c) in
  let rules := system_rule_matches scope (cx_ability c) (cx_safe_read c) (cx_trust_anchor c) in
  let accountable := default principal (cx_accountable_principal c) in
  Ok (mk_PolicyInput owner (pp_caller_user_ura accountable) caller_ura (pp_kind accountable) (pp_id accountable)
        (pp_token_id accountable) (pp_token_class accountable) (pp_device_invocation_purpose principal)
        callee_ura subject_ura ability_ura (cx_action c) (cx_safe_read c) rules
        (invocation_lifecycle_control_scope (cx_ability c) (cx_action c)) false
        (cx_canonical_hash c) (cx_signature_key_id c) (cx_verified_authority_id c) (cx_verified_session_id c)
        (cx_rejector_ura c) now []).

(** The transaction on the owner's store: check against its grants, and consume
    the grant that allowed. *)
Definition gate_transaction (i : PolicyInput) (x : AccessControlStore * W) : result Status PolicyDecision * (AccessControlStore * W) :=
  let d := check (with_grants i ((ac_grants x.1).*2)) in
  match pd_decision d, pd_reason d, pd_grant_id d with
  | Allow, ExplicitGrantAllow, Some grant_id =>
      match consume_once_grant_if_applicable grant_id (pd_caller_ura d) x with
      | (Ok _, x') => (Ok d, x')
      | (Err e, x') => (Err (permission_denied ("GRANT_CONSUME_FAILED: grant_id=" +:+ grant_id +:+ " error=" +:+ e)), x')
      end
  | _, _, _ => (Ok d, x)
  end.

(** [policy_store_owner_dir_name], the directory of an owner, and the one of the
    older layout. *)
Definition policy_store_owner_dir_name (owner : string) : string := "owner-sha256-" +:+ Retry.hex_encode (sha256 owner).
Definition policy_store_dir_for_owner_at (root owner : string) : string := join root (policy_store_owner_dir_name owner).

(** A character that is not ASCII, whatever its bytes, becomes one underscore. *)
Fixpoint legacy_safe_owner (cs : list Z) : string :=
  match cs with
  | [] => EmptyString
  | c :: cs =>
      String (if is_ascii_alphanumeric c || (c =? 45) || (c =? 95) || (c =? 46) then ascii_of_N (Z.to_N c) else "_"%char)
        (legacy_safe_owner cs)
  end.
Definition legacy_policy_store_dir_for_owner_at (root owner : string) : string := join root (legacy_safe_owner (chars owner)).

Definition legacy_policy_store_matches_owner (dir owner : string) (w : W) : result string bool :=
  found ← read_manifest_file (join dir MANIFEST_FILE) w;
  Ok match found with Some m => match validate_manifest m owner with Ok _ => true | Err _ => false end | None => false end.

Definition prepare_policy_store_dir_for_owner_at (root owner : string) : st W (result string string) := λ w,
  let hashed := policy_store_dir_for_owner_at root owner in
  if dir_exists hashed w then (Ok hashed, w)
  else
    let legacy := legacy_policy_store_dir_for_owner_at root owner in
    if negb (bool_decide (legacy = hashed)) && dir_exists legacy w then
      match legacy_policy_store_matches_owner legacy owner w with
      | Err e => (Err e, w)
      | Ok false => (Ok hashed, w)
      | Ok true =>
          match create_dir_all root w with
          | (Err e, w) => (Err e, w)
          | (Ok _, w) =>
              match rename_dir legacy hashed w with
              | (Err e, w) => (Err ("migrate legacy policy store directory " +:+ legacy +:+ " -> " +:+ hashed +:+ ": " +:+ e), w)
              | (Ok _, w) => (Ok hashed, w)
              end
          end
      end
    else (Ok hashed, w).

(** [with_store]: the store of an owner, opened on first use, and a transaction
    on it. *)
Definition with_store {A} (owner : string) (tx : AccessControlStore * W → A * (AccessControlStore * W))
  : st (AccessControlStoreRegistry * W) (result string A) := λ '(reg, w),
  let run s w := let '(a, (s', w')) := tx (s, w) in
                 (Ok a, (mk_Registry (rg_root reg) (btree_insert owner s' (rg_stores reg)), w')) in
  match assoc owner (rg_stores reg) with
  | Some s => run s w
  | None =>
      match prepare_policy_store_dir_for_owner_at (rg_root reg) owner w with
      | (Err e, w) => (Err e, (reg, w))
      | (Ok dir, w) =>
          match open_or_create_at dir owner w with
          | (Err e, w) => (Err e, (reg, w))
          | (Ok s, w) => run s w
          end
      end
  end.

(** [AdmissionPolicyGate::verify]. *)
Definition verify_policy (c : AdmissionPolicyContext) : st (AccessControlStoreRegistry * W) (result Status PolicyDecision) := λ x,
  let '(now, w) := utc_now x.2 in
  match policy_input c now with
  | Err e => (Err e, x)
  | Ok i =>
      let '(decided, x) :=
        match or_owner_user_ura (pi_owner i) with
        | Some owner =>
            let '(r, x) := with_store owner (gate_transaction i) (x.1, w) in
            (match r with
             | Ok r => r
             | Err e => Err (internal ("POLICY_STORE_UNAVAILABLE: owner_user_ura=" +:+ owner +:+ " error=" +:+ e))
             end, x)
        | None => (Ok (check i), (x.1, w))
        end in
      (d ← decided;
       match pd_decision d with
       | Allow => Ok d
       | Prompt | Deny => Err (permission_denied ("POLICY_DENIED: " +:+ decision_json d))
       end, x)
  end.
End gate.
