(* ===== verification/PolicyGateProps.v ===== *)
(** * What the policy gate guarantees

    An invocation passes the gate only on a ground the engine accepts, taken from
    the store of the accountable owner; a device passes by rule only with the
    purpose verified for that very invocation; a one-time grant lets one
    invocation pass. *)

From Stdlib Require Import String Ascii Sorted.
From stdpp Require Import relations.
From S2P Require Import Prelude RustStd Text Ura Identity Json World Decision Grants PolicyEngine AuthorityProof AccessControl.
From S2P Require Import StoreJournal StoreProps StoreTheorems TrustAnchor DeviceCaller PolicyGate.

Open Scope Z_scope.

(** ** Decisions with a grant *)

Section decisions.
Context `{!Chrono}.

(** An admission that names a grant is one by that grant. *)
Lemma check_allow_grant i id :
  pd_decision (check i) = Allow → pd_grant_id (check i) = Some id →
  pd_reason (check i) = ExplicitGrantAllow ∧
  ∃ g, g ∈ pi_grants i ∧ g_grant_id g = id ∧ active_at g (pi_now i) = true.
Proof.
  unfold check. destruct (explicit_deny i); [done|]. case_match; [done|].
  destruct (first_rule _ i) as [[r reason]|]; [done|]. case_match; [done|].
  destruct (accountable_owner i) as [owner|]; [|done]. unfold check_owner.
  destruct (caller_is_owner i); [done|]. destruct (hub_read i); [done|].
  destruct (find_grant _ _ _) as [g|] eqn:Ef; [|by repeat case_match]. intros _ [= <-]. split; [done|].
  apply find_matching_Some in Ef as (s & (Hin & _ & _ & Hadm) & _). exists g. split; [done|]. split; [done|].
  unfold admissible_for in Hadm. by apply andb_true_iff in Hadm as [? _].
Qed.

Lemma active_at_state g now : active_at g now = true → g_state g = GActive.
Proof. unfold active_at. by destruct (bool_decide_reflect (g_state g = GActive)). Qed.

Lemma active_at_unused g now : active_at g now = true → g_lifetime g = Once → g_last_used_at g = None.
Proof.
  unfold active_at. intros Ha Hl. rewrite (bool_decide_true (g_lifetime g = Once)) in Ha by done.
  destruct (g_last_used_at g); [|done]. by destruct (bool_decide (g_state g = GActive)).
Qed.

(** What a decision says of the invocation. *)
Lemma check_fields i : let d := check i in
  pd_caller_ura d = pi_caller_ura i ∧ pd_callee_ura d = pi_callee_ura i ∧ pd_subject_ura d = pi_subject_ura i ∧
  pd_ability_ura d = pi_ability_ura i ∧ pd_action d = pi_action i.
Proof. unfold check, check_owner. by repeat case_match. Qed.
End decisions.

(** ** The grants of a store *)

Lemma btree_wf_assoc {V} (m : list (string * V)) k v : btree_wf m → (k, v) ∈ m → assoc k m = Some v.
Proof.
  induction 1 as [|[k1 v1] m _ IH Hall]; intros Hin; [by apply elem_of_nil in Hin|]. cbn.
  apply elem_of_cons in Hin as [[= -> ->]|Hin]; [by rewrite String.eqb_refl|].
  destruct (String.eqb_spec k k1) as [->|]; [|by apply IH]. rewrite Forall_forall in Hall.
  specialize (Hall _ Hin). cbn in Hall. by rewrite string_compare_refl in Hall.
Qed.

Section stores.
Context {W : Type} `{!UraLib, !Chrono, !SerdeJson, !Sha256, !PolicyCodec, !PolicyWorld W}.

(** A grant of the store is the one under its id. *)
Lemma keyed_grant_of s g : keyed s → g ∈ (ac_grants s).*2 → assoc (g_grant_id g) (ac_grants s) = Some g.
Proof.
  intros (Hwf & Hg & _) ([k g'] & -> & Hin)%list_elem_of_fmap. apply btree_wf_assoc in Hin; [|done].
  cbn [snd]. by rewrite (Hg _ _ Hin).
Qed.

Lemma apply_all_keyed rs s s' : apply_all s rs = Ok s' → keyed s → keyed s'.
Proof.
  unfold apply_all. revert s. induction rs as [|r rs IH]; intros s; cbn [try_fold]; [by intros [= ->]|].
  intros Ha Hk. inv_ok. by eapply IH, apply_record_keyed.
Qed.

Lemma consistent_keyed (x : AccessControlStore * W) : consistent x → keyed x.1.
Proof. intros [(rs & _ & Hr) _]. apply (apply_all_keyed _ _ _ Hr). by split_and!; [constructor|..]. Qed.

(** A created grant is in the store, the new one or the one that was there. *)
Lemma created_in_store `{!ReliableDisk W, !PolicyCodecLaws} grant actor (x : AccessControlStore * W) res x1 :
  consistent x → room 3 x.1 → is_all_zero_principal_id (g_principal_id grant) = false →
  create_grant grant actor x = (Ok res, x1) →
  consistent x1 ∧ gr_grant res ∈ (ac_grants x1.1).*2.
Proof.
  intros Hc Hroom Hz Hcr. pose proof (wp_create_grant grant actor x Hc Hroom Hz) as Hw. unfold wp in Hw. rewrite Hcr in Hw.
  cbn [fst snd] in Hw. destruct (gr_idempotent_replay res).
  - destruct Hw as ((Hc1 & _ & _ & <-) & Hin & _). split; [done|]. exact Hin.
  - destruct Hw as (_ & _ & a & Hc1 & _ & _ & <-). split; [done|]. cbn.
    apply (list_elem_of_fmap_2' _ _ (g_grant_id (gr_grant res), gr_grant res)); [|done]. apply elem_of_btree_insert_new.
Qed.
End stores.

(** ** One admission for a one-time grant *)

Section transaction.
Context {W : Type} `{!UraLib, !Chrono, !SerdeJson, !Sha256, !PolicyCodec, !PolicyWorld W}.

Lemma gate_transaction_Ok i x d x' : gate_transaction i x = (Ok d, x') →
  d = check (with_grants i ((ac_grants x.1).*2)) ∧
  ∀ id, pd_decision d = Allow → pd_grant_id d = Some id →
    ∃ o, consume_once_grant_if_applicable id (pd_caller_ura d) x = (Ok o, x').
Proof.
  unfold gate_transaction. set (d0 := check _). intros Hg.
  assert (d = d0) as -> by (by repeat case_match; simplify_eq). split; [done|]. intros id Ha Hid.
  destruct (check_allow_grant _ _ Ha Hid) as (Hr & _). fold d0 in Hr. rewrite Ha, Hr, Hid in Hg.
  destruct (consume_once_grant_if_applicable _ _ x) as [[o|] x1]; simplify_eq. eauto.
Qed.

(** An admission by a grant finds it active in the store. *)
Lemma gate_grant_active i x d x' id : keyed x.1 → gate_transaction i x = (Ok d, x') →
  pd_decision d = Allow → pd_grant_id d = Some id → ∃ g, assoc id (ac_grants x.1) = Some g ∧ g_state g = GActive.
Proof.
  intros Hk [-> _]%gate_transaction_Ok Ha Hid.
  destruct (check_allow_grant _ _ Ha Hid) as (_ & g & Hin & <- & Hact%active_at_state).
  exists g. split; [|done]. by apply keyed_grant_of.
Qed.

(** A one-time grant is not passed over by its consumption. *)
Lemma consume_once_some id actor x x' g : assoc id (ac_grants x.1) = Some g → g_lifetime g = Once →
  consume_once_grant_if_applicable id actor x ≠ (Ok None, x').
Proof.
  intros Hg Hl. unfold consume_once_grant_if_applicable, get_store, lift_result, mbind, acm_bind. cbn. rewrite Hg. cbn.
  rewrite (bool_decide_true (g_lifetime g = Once)) by done. cbn. by repeat case_match.
Qed.

(** C10 (safety): a one-time grant lets one invocation pass: once the gate has
    admitted an invocation by it, no later transaction of the gate on that open
    store admits one by the same grant - whatever the directory held when the
    store was opened, whatever operations ran before and in between, whichever of
    their writes failed, and whatever the invocation. *)
Theorem once_grant_admits_once x i d x1 id g os i' d' x2 :
  in_use x →
  gate_transaction i x = (Ok d, x1) → pd_decision d = Allow → pd_grant_id d = Some id →
  assoc id (ac_grants x.1) = Some g → g_lifetime g = Once →
  gate_transaction i' (run_ops os x1) = (Ok d', x2) → pd_decision d' = Allow → pd_grant_id d' ≠ Some id.
Proof.
  intros Hk%in_use_keyed Hg Ha Hid Hgr Hl Hg' Ha' Hid'.
  destruct (gate_transaction_Ok _ _ _ _ Hg) as [_ Hcons]. destruct (Hcons id Ha Hid) as [o Ho].
  destruct o as [g1|]; [|by eapply consume_once_some].
  destruct (consumed_state _ _ _ _ _ Hk Ho) as (Hk1 & Hg1 & Hl1 & Hs1).
  pose proof (lasts_ops os x1 Hk1) as He.
  destruct (gate_grant_active _ _ _ _ _ (la_keyed _ _ He) Hg' Ha' Hid') as (g3 & Hg3 & Hact).
  destruct (la_grants _ _ He _ _ Hg1) as (g2 & Hg2 & [_ Hs2]%rtc_moves_state). simplify_eq. by apply Hs2.
Qed.

Context `{!ReliableDisk W, !PolicyCodecLaws, !ChronoLaws}.

(** What the policy allows passes the gate, on a working disk and for a caller
    that may be recorded. *)
Lemma gate_transaction_admits i x reason :
  consistent x → room 3 x.1 → admissible_ura (pi_caller_ura i) → not_denied (with_grants i ((ac_grants x.1).*2)) →
  justified (with_grants i ((ac_grants x.1).*2)) reason →
  ∃ d x', gate_transaction i x = (Ok d, x') ∧ pd_decision d = Allow.
Proof using Type*.
  intros Hc Hroom Ha Hn Hj. pose proof (check_complete _ _ Hn Hj) as Hallow. unfold gate_transaction.
  destruct (check_fields (with_grants i ((ac_grants x.1).*2))) as (Hcaller & _). set (d := check _) in *.
  rewrite Hallow. destruct (pd_grant_id d) as [id|] eqn:Eid; [|by destruct (pd_reason d); eauto].
  destruct (check_allow_grant _ _ Hallow Eid) as (Hr & g & Hin & <- & Hact). fold d in Hr. rewrite Hr, Hcaller.
  pose proof (wp_consume_succeeds (g_grant_id g) (pi_caller_ura i) g x Hc Hroom Ha
    (keyed_grant_of _ g (consistent_keyed x Hc) Hin)
    (active_at_state _ _ Hact) (active_at_unused _ _ Hact)) as [o Ho]. cbn [pi_caller_ura with_grants] in *.
  destruct (consume_once_grant_if_applicable _ _ x) as [r x']. cbn [fst] in Ho. subst r. eauto.
Qed.

(** A grant takes effect: once it has been created, an invocation
    that it covers and that no denial of the owner covers passes the gate. *)
Theorem granted_invocation_passes root owner x grant actor res x1 i s :
  reachable root owner x → room 3 x.1 → is_all_zero_principal_id (g_principal_id grant) = false →
  create_grant grant actor x = (Ok res, x1) → room 3 x1.1 →
  admissible_ura (pi_caller_ura i) → accountable_owner i = Some owner →
  covers (grant_input i owner) EffAllow (λ g, admissible_for g (pi_action i) (pi_now i)) [gr_grant res] s (gr_grant res) →
  not_denied (with_grants i ((ac_grants x1.1).*2)) →
  ∃ d x2, gate_transaction i x1 = (Ok d, x2) ∧ pd_decision d = Allow.
Proof using Type*.
  intros (Hc & _)%reachable_consistent Hroom Hz Hcr Hroom1 Ha Ho (_ & Happ & Hs & Hadm) Hn.
  destruct (created_in_store _ _ _ _ _ Hc Hroom Hz Hcr) as [Hc1 Hin].
  apply (gate_transaction_admits _ _ ExplicitGrantAllow); [done..|].
  eapply (J_grant _ owner s (gr_grant res)); [exact Ho|]. split; [exact Hin|]. split; [exact Happ|]. by split.
Qed.
End transaction.

(** ** The gate *)

Section gate.
Context {W : Type} `{!UraLib, !Chrono, !SerdeJson, !Sha256, !PolicyCodec, !PolicyWorld W, !PolicyDirs W, !GateLib}.

(** The store the registry has, or opens, for an owner. *)
Definition store_for (owner : string) (x : AccessControlStoreRegistry * W) : result string AccessControlStore :=
  (with_store owner (λ y, (y.1, y)) x).1.

Lemma with_store_Ok {A} owner (tx : AccessControlStore * W → A * (AccessControlStore * W)) x a x' :
  with_store owner tx x = (Ok a, x') → ∃ s w y, store_for owner x = Ok s ∧ tx (s, w) = (a, y).
Proof.
  destruct x as [reg w]. unfold store_for, with_store.
  destruct (assoc owner (rg_stores reg)) as [s|].
  { cbn. destruct (tx (s, w)) as [a' [s' w']] eqn:E. intros [= <- <-]. eauto 10. }
  destruct (prepare_policy_store_dir_for_owner_at _ _ w) as [[dir|] w1]; [|done].
  destruct (open_or_create_at dir owner w1) as [[s|] w2]; [|done].
  cbn. destruct (tx (s, w2)) as [a' [s' w']] eqn:E. intros [= <- <-]. eauto 10.
Qed.

(** The grants a decision for [i] is made with. *)
Definition decided_with (i : PolicyInput) (x : AccessControlStoreRegistry * W) (grants : list PermissionGrant) : Prop :=
  match or_owner_user_ura (pi_owner i) with
  | Some owner => ∃ s, store_for owner x = Ok s ∧ grants = (ac_grants s).*2
  | None => grants = []
  end.

Lemma policy_input_grants c now i : policy_input c now = Ok i → with_grants i [] = i.
Proof. unfold policy_input. intros Hi. by inv_ok. Qed.

Lemma verify_policy_Ok c x d x' : verify_policy c x = (Ok d, x') →
  ∃ i grants, policy_input c (utc_now x.2).1 = Ok i ∧ decided_with i (x.1, (utc_now x.2).2) grants ∧
    d = check (with_grants i grants) ∧ pd_decision d = Allow.
Proof.
  unfold verify_policy. destruct (utc_now x.2) as [now w]. cbn [fst snd]. destruct (policy_input c now) as [i|] eqn:Ei; [|done].
  assert (∀ r x2, (r ← (r : result Status PolicyDecision); match pd_decision r with Allow => Ok r
            | _ => Err (permission_denied ("POLICY_DENIED: " +:+ decision_json r)) end,
            x2 : AccessControlStoreRegistry * W) = (Ok d, x') → r = Ok d ∧ pd_decision d = Allow) as Hout.
  { intros [r|] x2 Heq; cbn in Heq; [|done]. by destruct (pd_decision r) eqn:Ed; simplify_eq. }
  unfold decided_with. destruct (or_owner_user_ura (pi_owner i)) as [owner|] eqn:Eo.
  - destruct (with_store owner _ (x.1, w)) as [[r|] x2] eqn:Ew; intros [Hr Ha]%Hout; [|done]. subst r.
    apply with_store_Ok in Ew as (s & w' & y & Hs & [-> _]%gate_transaction_Ok).
    exists i, ((ac_grants s).*2). rewrite Eo. eauto 10.
  - intros [Hr Ha]%Hout. simplify_eq. exists i, []. rewrite Eo. split_and!; [done..| |done].
    by rewrite (policy_input_grants _ _ _ Ei).
Qed.

(** C4 (safety): what passes the gate passes on a ground: the decision is that
    of the engine for the invocation of the envelope with the grants of the store
    of its accountable owner, no active denial in that store covers it, and the
    reason given is a ground to allow it. *)
Theorem verify_policy_sound c x d x' :
  verify_policy c x = (Ok d, x') →
  ∃ i grants, policy_input c (utc_now x.2).1 = Ok i ∧ decided_with i (x.1, (utc_now x.2).2) grants ∧
    d = check (with_grants i grants) ∧ pd_decision d = Allow ∧
    not_denied (with_grants i grants) ∧ justified (with_grants i grants) (pd_reason d).
Proof.
  intros Hv%verify_policy_Ok. destruct Hv as (i & grants & Hi & Hg & -> & Ha).
  exists i, grants. by pose proof (check_sound _ Ha) as [? ?].
Qed.

(** ** Devices *)

(** The rules of devices. *)
Definition device_rules : list SystemPolicyRuleMatch :=
  [DevicePublicationCustodyManage; DeviceSelfSessionStream; DeviceLifecycleSelfRevokeManage;
   DeviceHostedAgentRetractionManage].

Definition policy_scope (s : RuleScope) : DeviceCallerPolicyScope :=
  mk_PolicyScope (rs_caller s) (rs_callee s) (rs_subject s) (rs_ability_ura s) (rs_daemon s) (rs_action s).

Lemma elem_of_push_system_rule b r0 rules r : r ∈ push_system_rule b r0 rules ↔ (b = true ∧ r = r0) ∨ r ∈ rules.
Proof.
  unfold push_system_rule. destruct b; [|naive_solver]. rewrite elem_of_app, list_elem_of_singleton. naive_solver.
Qed.

Lemma device_purpose_scope_true s e p : rs_path s = PathDeviceCustody p → device_purpose_scope s e = true →
  admitted_device_policy_purpose (policy_scope s) = Some p.
Proof. unfold device_purpose_scope. intros ->. by rewrite andb_true_iff, bool_decide_eq_true; intros [? _]. Qed.

(** On the path of a device only the rules of devices match, and only with the
    purpose of this invocation. *)
Lemma device_path_rules s ability safe a r p :
  rs_path s = PathDeviceCustody p → r ∈ system_rule_matches s ability safe a →
  r ∈ device_rules ∧ admitted_device_policy_purpose (policy_scope s) = Some p.
Proof.
  intros Hp. unfold system_rule_matches. rewrite !elem_of_push_system_rule.
  assert (authority_self s = None) as Hself by (unfold authority_self; by rewrite Hp).
  assert (remote_owner_forward_allowed s a = false) as -> by (unfold remote_owner_forward_allowed; by rewrite Hp).
  assert (realm_authority_public_read_scope s ability safe = false) as ->
    by (unfold realm_authority_public_read_scope; by rewrite Hp).
  assert (authority_peer_directory_stream_scope s a = false) as ->.
  { unfold authority_peer_directory_stream_scope, classify_peer_directory_stream. rewrite Hp. by repeat case_match. }
  unfold authority_self_stream_scope, authority_self_manage_scope, authority_self_read_scope. rewrite Hself, !andb_false_r.
  unfold device_publication_custody_manage_scope, device_self_session_stream_scope,
    device_lifecycle_self_revoke_manage_scope, device_hosted_agent_retraction_manage_scope.
  rewrite elem_of_nil. unfold device_rules. intros Hr.
  repeat match goal with H : _ ∨ _ |- _ => destruct H | H : _ ∧ _ |- _ => destruct H end; subst; try done;
    (split; [set_solver|by eapply device_purpose_scope_true]).
Qed.

(** The scope the rules of an input were matched for. *)
Definition input_scope (c : AdmissionPolicyContext) (i : PolicyInput) : RuleScope :=
  mk_RuleScope (pi_caller_ura i) (pi_callee_ura i) (pi_subject_ura i) (pi_ability_ura i) (cx_daemon_ura c)
    (cx_trusted_path c) (pi_action i).

Lemma policy_input_rules c now i : policy_input c now = Ok i →
  pi_system_rule_matches i = system_rule_matches (input_scope c i) (cx_ability c) (cx_safe_read c) (cx_trust_anchor c).
Proof. unfold policy_input. intros Hi. by inv_ok. Qed.

(** A reason that only a system rule gives. *)
Lemma justified_by_rule i reason : justified i reason → reason = SystemRuleAllow ∨ reason = FederationForwardAllow →
  ∃ r, r ∈ pi_system_rule_matches i ∧ allow_reason r i = Some reason.
Proof. intros [| r | | | |] [?|?]; try done; by exists r. Qed.

(** A device passes the gate by a system rule only with the purpose
    the policy admits for this caller, callee, subject, ability and action, with
    its binding; and never by forwarding to another realm. *)
Theorem device_needs_bound_purpose c x d x' p :
  verify_policy c x = (Ok d, x') → cx_trusted_path c = PathDeviceCustody p →
  pd_reason d ≠ FederationForwardAllow ∧
  (pd_reason d = SystemRuleAllow →
   admitted_device_policy_purpose
     (mk_PolicyScope (pd_caller_ura d) (pd_callee_ura d) (pd_subject_ura d) (pd_ability_ura d) (cx_daemon_ura c) (pd_action d))
   = Some p).
Proof.
  intros Hv%verify_policy_Ok Hpath. destruct Hv as (i & grants & Hi & _ & -> & Ha).
  pose proof (check_sound _ Ha) as [_ Hj]. destruct (check_fields (with_grants i grants)) as (-> & -> & -> & -> & ->).
  assert (∀ reason, justified (with_grants i grants) reason → reason = SystemRuleAllow ∨ reason = FederationForwardAllow →
    ∃ r, r ∈ device_rules ∧ allow_reason r (with_grants i grants) = Some reason ∧
      admitted_device_policy_purpose (policy_scope (input_scope c i)) = Some p) as Hrule.
  { intros reason Hjr Hor. destruct (justified_by_rule _ _ Hjr Hor) as (r & Hr & Hallow). cbn in Hr.
    rewrite (policy_input_rules _ _ _ Hi) in Hr. destruct (device_path_rules (input_scope c i) _ _ _ _ p Hpath Hr). eauto. }
  split.
  - intros E. rewrite E in Hj. destruct (Hrule _ Hj (or_intror eq_refl)) as (r & Hr & Hallow & _).
    unfold device_rules in Hr. rewrite !elem_of_cons, elem_of_nil in Hr. destruct Hr as [->|[->|[->|[->|[]]]]]; cbn in Hallow; by case_match.
  - intros E. rewrite E in Hj. by destruct (Hrule _ Hj (or_introl eq_refl)) as (r & _ & _ & ?).
Qed.
End gate.
