(* ===== verification/SampleCodec.v ===== *)
(** * A concrete text of JSON values, and codecs

    A textual form of JSON values that satisfies the law asked of serde_json; and
    a class of types with a conversion to JSON values and back, closed under
    products, lists and options: with these the interfaces that stand for serde
    and TOML, of the access-control store and of the trust anchor, are
    instantiated, so that the properties that assume them are seen to apply. *)

From Stdlib Require Import String Ascii SpecFloat.
From stdpp Require Import countable.
From Stdlib Require Import String Ascii.
From S2P Require Import Prelude RustStd Json Text Ura World Decision Grants AuthorityProof AccessControl TrustAnchor.

Open Scope Z_scope.

(** ** Trees *)

#[global] Instance spec_float_eq_dec : EqDecision spec_float.
Proof. solve_decision. Defined.

#[global] Program Instance spec_float_countable : Countable spec_float :=
  inj_countable'
    (λ f, match f with
          | S754_zero s => inl (inl s)
          | S754_infinity s => inl (inr s)
          | S754_nan => inr None
          | S754_finite s m e => inr (Some (s, m, e))
          end)
    (λ x, match x with
          | inl (inl s) => S754_zero s
          | inl (inr s) => S754_infinity s
          | inr None => S754_nan
          | inr (Some (s, m, e)) => S754_finite s m e
          end) _.
Next Obligation. by intros []. Qed.

Definition leaf : Type := unit + bool + Z + string + spec_float.

Fixpoint tree_of (v : Value) : gen_tree leaf :=
  match v with
  | VNull => GenLeaf (inl (inl (inl (inl tt))))
  | VBool b => GenLeaf (inl (inl (inl (inr b))))
  | VInt n => GenLeaf (inl (inl (inr n)))
  | VString s => GenLeaf (inl (inr s))
  | VFloat f => GenLeaf (inr f)
  | VArray l => GenNode 0 (map tree_of l)
  | VObject m => GenNode 1 (map (λ kv, GenNode 2 [GenLeaf (inl (inr kv.1)); tree_of kv.2]) m)
  end.

Fixpoint value_of (t : gen_tree leaf) : Value :=
  match t with
  | GenLeaf (inl (inl (inl (inl _)))) => VNull
  | GenLeaf (inl (inl (inl (inr b)))) => VBool b
  | GenLeaf (inl (inl (inr n))) => VInt n
  | GenLeaf (inl (inr s)) => VString s
  | GenLeaf (inr f) => VFloat f
  | GenNode 0 l => VArray (map value_of l)
  | GenNode _ l =>
      VObject (map (λ t, match t with
                         | GenNode _ [GenLeaf (inl (inr k)); t] => (k, value_of t)
                         | _ => (EmptyString, VNull)
                         end) l)
  end.

Lemma value_of_tree v : value_of (tree_of v) = v.
Proof.
  induction v as [| | | | |l IH|m IH] using Value_ind'; cbn; try done; f_equal.
  - induction IH as [|v l Hv _ IH]; [done|]. cbn. by rewrite Hv, IH.
  - induction IH as [|[k v] l Hv _ IH]; [done|]. cbn in *. by rewrite Hv, IH.
Qed.

(** Positive numbers as strings of bits. *)
Fixpoint bits (p : positive) : string :=
  match p with
  | xH => EmptyString
  | xO p => String "0"%char (bits p)
  | xI p => String "1"%char (bits p)
  end.
Fixpoint of_bits (s : string) : positive :=
  match s with
  | EmptyString => xH
  | String c s => if Ascii.eqb c "0" then xO (of_bits s) else xI (of_bits s)
  end.

Lemma of_bits_bits p : of_bits (bits p) = p.
Proof. induction p as [p IH|p IH|]; cbn; by rewrite ?IH. Qed.

(** The nodes and leaves of a tree, one after the other: a letter, characters
    each after a dot, and the end. *)
Definition token : Type := nat * nat + leaf.

Fixpoint quoted (x rest : string) : string :=
  match x with
  | EmptyString => String ";" rest
  | String c x => String "." (String c (quoted x rest))
  end.

Fixpoint tokens_text (ts : list token) : string :=
  match ts with
  | [] => EmptyString
  | inr (inl (inr s)) :: ts => String "s" (quoted s (tokens_text ts))
  | t :: ts => String "b" (quoted (bits (encode t)) (tokens_text ts))
  end.

(** The characters up to the end of the token at hand, and the tokens after it. *)
Fixpoint lex (s : string) : string * list token :=
  match s with
  | EmptyString => (EmptyString, [])
  | String k s =>
      if Ascii.eqb k "." then
        match s with
        | String c s => let '(x, ts) := lex s in (String c x, ts)
        | EmptyString => (EmptyString, [])
        end
      else
        let '(x, ts) := lex s in
        (EmptyString,
         if Ascii.eqb k "s" then inr (inl (inr x)) :: ts
         else if Ascii.eqb k "b" then
           match decode (A := token) (of_bits x) with Some t => t :: ts | None => ts end
         else ts)
  end.

Lemma lex_quoted x rest : lex (quoted x rest) = (x, (lex rest).2).
Proof. induction x as [|c x IH]; cbn; [by destruct (lex rest)|by rewrite IH]. Qed.

Lemma lex_tokens ts : (lex (tokens_text ts)).2 = ts.
Proof.
  assert (∀ t ts, (lex (String "b" (quoted (bits (encode t)) (tokens_text ts)))).2 = t :: (lex (tokens_text ts)).2) as Hb.
  { intros t ts'. cbn. by rewrite lex_quoted, of_bits_bits, decode_encode. }
  induction ts as [|t ts IH]; [done|].
  destruct t as [|[[|s]|]]; [by rewrite <- IH at 2; apply Hb..| |by rewrite <- IH at 2; apply Hb].
  cbn. by rewrite lex_quoted, IH.
Qed.

Definition text (v : Value) : string := String "v"%char (tokens_text (gen_tree_to_list (tree_of v))).
Definition of_text (s : string) : option Value :=
  match s with
  | String _ s => value_of <$> gen_tree_of_list [] (lex s).2
  | EmptyString => None
  end.

Lemma of_text_text v : of_text (text v) = Some v.
Proof.
  unfold of_text, text. rewrite lex_tokens, <- (app_nil_r (gen_tree_to_list _)), gen_tree_of_to_list. cbn.
  by rewrite value_of_tree.
Qed.

Definition sample_serde : SerdeJson := {|
  to_vec v := Ok (text v);
  from_slice s := ok_or (of_text s) "syntax";
|}.

Lemma sample_serde_laws : SerdeJsonLaws (H := sample_serde).
Proof. constructor. intros v _. exists (text v). split; [done|]. unfold from_slice, sample_serde. by rewrite of_text_text. Qed.

(** ** Conversions *)

(** A type with a conversion to values and back. *)
Class Codec (A : Type) := {
  enc : A → Value;
  dec : Value → option A;
  dec_enc a : dec (enc a) = Some a;
}.

(** The variant of a value. *)
Definition value_int (v : Value) : option Z := match v with VInt n => Some n | _ => None end.
Definition value_bool (v : Value) : option bool := match v with VBool b => Some b | _ => None end.
Definition value_array (v : Value) : option (list Value) := match v with VArray l => Some l | _ => None end.

#[global] Instance value_codec : Codec Value := {| enc := id; dec := Some; dec_enc _ := eq_refl |}.
#[global] Instance string_codec : Codec string := {| enc := VString; dec := as_str; dec_enc _ := eq_refl |}.
#[global] Instance int_codec : Codec Z := {| enc := VInt; dec := value_int; dec_enc _ := eq_refl |}.
#[global] Instance bool_codec : Codec bool := {| enc := VBool; dec := value_bool; dec_enc _ := eq_refl |}.

#[global] Instance list_codec {A} `{Codec A} : Codec (list A).
Proof.
  refine {| enc l := VArray (enc <$> l); dec v := l ← value_array v; mapM dec l |}.
  intros l. cbn. apply mapM_Some_2, Forall2_fmap_l, Forall_Forall2_diag, Forall_forall. intros a _. apply dec_enc.
Defined.

#[global] Instance option_codec {A} `{Codec A} : Codec (option A).
Proof.
  refine {| enc o := enc (option_list o); dec v := l ← dec (A := list A) v; Some (head l) |}.
  intros o. rewrite dec_enc. by destruct o.
Defined.

#[global] Instance prod_codec {A B} `{Codec A, Codec B} : Codec (A * B).
Proof.
  refine {| enc p := VArray [enc p.1; enc p.2];
            dec v := l ← value_array v; match l with [a; b] => a ← dec a; b ← dec b; Some (a, b) | _ => None end |}.
  intros [a b]. cbn. by rewrite !dec_enc.
Defined.

(** Through another type, and by name. *)
Definition codec_via {A B} `{Codec B} (to : A → B) (back : B → A) (back_to : ∀ a, back (to a) = a) : Codec A.
Proof.
  refine {| enc a := enc (to a); dec v := back <$> dec v |}. intros a. rewrite dec_enc. cbn. by rewrite back_to.
Defined.

Definition codec_names {A} (name : A → string) (all : list A)
    (found : ∀ a, List.find (λ b, bool_decide (name b = name a)) all = Some a) : Codec A.
Proof.
  refine {| enc a := VString (name a);
            dec v := s ← as_str v; List.find (λ b, bool_decide (name b = s)) all |}. intros a. apply found.
Defined.

Ltac by_name := intros []; reflexivity.

(** Reading with an error. *)
Definition from_value {A} `{Codec A} (v : Value) : result string A := ok_or (dec v) "invalid value".

Lemma from_value_enc {A} `{Codec A} (a : A) : from_value (enc a) = Ok a.
Proof. unfold from_value. by rewrite dec_enc. Qed.

Definition read_text {A} `{Codec A} (s : string) : result string A := v ← ok_or (of_text s) "syntax"; from_value v.

Lemma read_text_enc {A} `{Codec A} (a : A) : read_text (text (enc a)) = Ok a.
Proof. unfold read_text. rewrite of_text_text. apply from_value_enc. Qed.

(** A text that says where it ends. *)
Fixpoint unquote (s : string) : option string :=
  match s with
  | String ";" EmptyString => Some EmptyString
  | String "." (String c s) => String c <$> unquote s
  | _ => None
  end.

Lemma unquote_quoted x : unquote (quoted x EmptyString) = Some x.
Proof. induction x as [|c x IH]; [done|]. cbn. by rewrite IH. Qed.

Lemma unquote_cut x n : (n < String.length (quoted x EmptyString))%nat →
  unquote (String.substring 0 n (quoted x EmptyString)) = None.
Proof.
  revert n. induction x as [|c x IH]; intros n Hn.
  - destruct n as [|n]; [done|]. cbn in Hn. lia.
  - destruct n as [|[|n]]; [done..|]. cbn in *. by rewrite IH by lia.
Qed.

(** ** The records of the admission components *)

(** ** Names *)

#[global] Instance PrincipalKind_codec : Codec PrincipalKind.
Proof. refine (codec_names principal_kind_name [PUser; PAgent; PToken; PHub; PDeviceCustody; PService; PAutomation] _). by_name. Defined.
#[global] Instance TokenClass_codec : Codec TokenClass.
Proof. refine (codec_names token_class_name [THubLink; TBrowserSession; TDevicePairing; TAutomation; TThirdParty; TService] _). by_name. Defined.
#[global] Instance AccessAction_codec : Codec AccessAction.
Proof. refine (codec_names action_str [ARead; AInvoke; AStream; AManage; AGrant] _). by_name. Defined.
#[global] Instance PermissionEffect_codec : Codec PermissionEffect.
Proof. refine (codec_names effect_name [EffAllow; EffDeny] _). by_name. Defined.
#[global] Instance PermissionLifetime_codec : Codec PermissionLifetime.
Proof. refine (codec_names lifetime_name [Once; Session; Ttl; Permanent] _). by_name. Defined.
#[global] Instance PermissionGrantState_codec : Codec PermissionGrantState.
Proof. refine (codec_names (λ s, match s with GActive => "active" | GExpired => "expired" | GRevoked => "revoked" end) [GActive; GExpired; GRevoked] _). by_name. Defined.
#[global] Instance NetworkScope_codec : Codec NetworkScope.
Proof. refine (codec_names (λ s, match s with NetLocal => "local" | NetPaired => "paired" | NetFederated => "federated" end) [NetLocal; NetPaired; NetFederated] _). by_name. Defined.
#[global] Instance PermissionRequestStatus_codec : Codec PermissionRequestStatus.
Proof. refine (codec_names status_debug [Pending; Approved; Denied; Expired; Cancelled] _). by_name. Defined.
#[global] Instance GrantMutation_codec : Codec GrantMutation.
Proof. refine (codec_names mutation_name [MutCreated; MutRevoked; MutExpired; MutConsumed; MutEdited] _). by_name. Defined.
#[global] Instance RecordKind_codec : Codec RecordKind.
Proof. refine (codec_names record_kind_name [RKGrant; RKRequest; RKProof; RKAudit; RKCheckpoint] _). by_name. Defined.
#[global] Instance RecordOperation_codec : Codec RecordOperation.
Proof. refine (codec_names record_operation_name [OpCreated; OpRevoked; OpExpired; OpEdited; OpApproved; OpDenied; OpCancelled; OpConsumed; OpCompacted] _). by_name. Defined.
#[global] Instance TrustAnchorRole_codec : Codec TrustAnchorRole.
Proof. refine (codec_names role_label [RoleBackend; RoleDevice; RoleHub; RoleUser] _). by_name. Defined.

(** ** Records *)

#[global] Instance PermissionConstraints_codec : Codec PermissionConstraints.
Proof.
  refine (codec_via (λ r, (pc_args_schema_filter r, pc_resource_types r, pc_network_scope r,
    pc_max_duration_ms r, pc_max_invocations r, pc_requires_user_present r)) (λ '(x1, x2, x3, x4, x5, x6),
    mk_PermissionConstraints x1 x2 x3 x4 x5 x6) _).
  by intros [].
Defined.
#[global] Instance PermissionGrant_codec : Codec PermissionGrant.
Proof.
  refine (codec_via (λ r, (g_grant_id r, g_owner_user_ura r, g_principal_kind r, g_principal_id r, g_token_id
    r, g_token_class r, g_session_id r, g_session_expires_at r, g_callee_ura r, g_subject_ura_pattern r,
    g_ability_ura_pattern r, g_actions r, g_constraints r, g_effect r, g_lifetime r, g_state r, g_expires_at
    r, g_review_required_after r, g_last_reviewed_at r, g_last_used_at r, g_created_by r, g_created_at r,
    g_updated_at r, g_revoked_at r, g_reason r)) (λ '(x1, x2, x3, x4, x5, x6, x7, x8, x9, x10, x11, x12, x13,
    x14, x15, x16, x17, x18, x19, x20, x21, x22, x23, x24, x25), mk_PermissionGrant x1 x2 x3 x4 x5 x6 x7 x8 x9
    x10 x11 x12 x13 x14 x15 x16 x17 x18 x19 x20 x21 x22 x23 x24 x25) _).
  by intros [].
Defined.
#[global] Instance PermissionRequest_codec : Codec PermissionRequest.
Proof.
  refine (codec_via (λ r, (pr_request_id r, pr_owner_user_ura r, pr_caller_ura r, pr_principal_kind r,
    pr_principal_id r, pr_token_id r, pr_token_class r, pr_callee_ura r, pr_subject_ura r, pr_ability_ura r,
    pr_action r, pr_nonce r, pr_canonical_hash r, pr_requested_lifetimes r, pr_status r, pr_created_at r,
    pr_expires_at r, pr_resolver_ura r, pr_resolved_lifetime r, pr_created_grant_id r, pr_authority_proof_id
    r, pr_resolved_at r, pr_decision_reason r)) (λ '(x1, x2, x3, x4, x5, x6, x7, x8, x9, x10, x11, x12, x13,
    x14, x15, x16, x17, x18, x19, x20, x21, x22, x23), mk_PermissionRequest x1 x2 x3 x4 x5 x6 x7 x8 x9 x10 x11
    x12 x13 x14 x15 x16 x17 x18 x19 x20 x21 x22 x23) _).
  by intros [].
Defined.
#[global] Instance AuthorityProof_codec : Codec AuthorityProof.
Proof.
  refine (codec_via (λ r, (ap_proof_id r, ap_grant_id r, ap_permission_request_id r, ap_owner_user_ura r,
    ap_principal_kind r, ap_principal_id r, ap_token_id r, ap_token_class r, ap_callee_ura r, ap_subject_ura
    r, ap_ability_ura r, ap_action r, ap_nonce r, ap_canonical_hash r, ap_session_id r,
    ap_session_owner_user_ura r, ap_allowed_followup_abilities r, ap_session_expires_at r, ap_issued_at r,
    ap_expires_at r, ap_issuer_ura r, ap_audience_ura r, ap_signature r)) (λ '(x1, x2, x3, x4, x5, x6, x7, x8,
    x9, x10, x11, x12, x13, x14, x15, x16, x17, x18, x19, x20, x21, x22, x23), mk_AuthorityProof x1 x2 x3 x4
    x5 x6 x7 x8 x9 x10 x11 x12 x13 x14 x15 x16 x17 x18 x19 x20 x21 x22 x23) _).
  by intros [].
Defined.
#[global] Instance GrantAuditRecord_codec : Codec GrantAuditRecord.
Proof.
  refine (codec_via (λ r, (ga_audit_record_id r, ga_grant_id r, ga_mutation r, ga_owner_user_ura r,
    ga_principal_id r, ga_token_id r, ga_actions r, ga_ability_ura_pattern r, ga_subject_ura_pattern r,
    ga_effect r, ga_actor_ura r, ga_timestamp r, ga_reason r, ga_previous_grant_hash r, ga_new_grant_hash r))
    (λ '(x1, x2, x3, x4, x5, x6, x7, x8, x9, x10, x11, x12, x13, x14, x15), mk_GrantAuditRecord x1 x2 x3 x4 x5
    x6 x7 x8 x9 x10 x11 x12 x13 x14 x15) _).
  by intros [].
Defined.
#[global] Instance AccessControlCompactionPolicy_codec : Codec AccessControlCompactionPolicy.
Proof.
  refine (codec_via (λ r, (cp_grant_mutation_audit_retention_days r, cp_prompt_audit_retention_days r,
    cp_denied_admission_retention_days r, cp_complete_nested_trace_retention_days r,
    cp_redacted_projection_retention_days r)) (λ '(x1, x2, x3, x4, x5), mk_CompactionPolicy x1 x2 x3 x4 x5)
    _).
  by intros [].
Defined.
#[global] Instance CompactionCheckpoint_codec : Codec CompactionCheckpoint.
Proof.
  refine (codec_via (λ r, (ck_checkpoint_id r, ck_compacted_at r, ck_last_source_sequence r,
    ck_last_source_record_hash r, ck_retained_active_grant_hashes r, ck_retained_pending_request_ids r,
    ck_retained_unexpired_proof_ids r, ck_retained_audit_record_ids r, ck_retention_floor r)) (λ '(x1, x2, x3,
    x4, x5, x6, x7, x8, x9), mk_Checkpoint x1 x2 x3 x4 x5 x6 x7 x8 x9) _).
  by intros [].
Defined.
#[global] Instance JournalRecord_codec : Codec JournalRecord.
Proof.
  refine (codec_via (λ r, (jr_record_kind r, jr_schema_version r, jr_sequence r, jr_owner_user_ura r,
    jr_record_id r, jr_operation r, jr_payload r, jr_previous_record_hash r, jr_record_hash r, jr_created_at
    r, jr_actor_ura r)) (λ '(x1, x2, x3, x4, x5, x6, x7, x8, x9, x10, x11), mk_JournalRecord x1 x2 x3 x4 x5 x6
    x7 x8 x9 x10 x11) _).
  by intros [].
Defined.
#[global] Instance TrustedAgent_codec : Codec TrustedAgent.
Proof.
  refine (codec_via (λ r, (ta_agent_ura r, ta_public_key_b64 r, ta_role r, ta_added_at_unix_ms r,
    ta_origin_realm r, ta_hub_endpoint r, ta_tls_ca_pem_path r)) (λ '(x1, x2, x3, x4, x5, x6, x7),
    mk_TrustedAgent x1 x2 x3 x4 x5 x6 x7) _).
  by intros [].
Defined.
#[global] Instance TrustedPrincipalOwner_codec : Codec TrustedPrincipalOwner.
Proof.
  refine (codec_via (λ r, (po_principal_ura r, po_owner_user_id r, po_owner_ura r, po_added_at_unix_ms r)) (λ
    '(x1, x2, x3, x4), mk_TrustedPrincipalOwner x1 x2 x3 x4) _).
  by intros [].
Defined.
#[global] Instance RevokedUserPubkey_codec : Codec RevokedUserPubkey.
Proof.
  refine (codec_via (λ r, (rk_agent_ura r, rk_public_key_b64 r, rk_revoked_at_unix_ms r, rk_rotation_epoch r))
    (λ '(x1, x2, x3, x4), mk_RevokedUserPubkey x1 x2 x3 x4) _).
  by intros [].
Defined.
#[global] Instance RawTrustAnchor_codec : Codec RawTrustAnchor.
Proof.
  refine (codec_via (λ r, (raw_trusted_agent r, raw_trusted_principal_owner r, raw_revoked_user_pubkey r)) (λ
    '(x1, x2, x3), mk_RawTrustAnchor x1 x2 x3) _).
  by intros [].
Defined.

(** ** The interfaces *)

Definition sample_policy_codec : PolicyCodec := {|
  grant_value := enc; grant_from_value := from_value;
  request_value := enc; request_from_value := from_value;
  proof_value := enc; proof_from_value := from_value;
  audit_value := enc; audit_from_value := from_value;
  checkpoint_value := enc; checkpoint_from_value := from_value;
  constraints_value := enc;
  record_line r := text (enc r);
  record_from_line := read_text;
|}.

(** A line starts with a letter. *)
Lemma trim_start_letter a s : between 33 126 (byte_val a) = true → trim_start (String a s) = String a s.
Proof.
  intros Ha. assert (ws1 a = false) as H1 by (unfold ws1, between in *; lia).
  assert (∀ b, ws2 a b = false) as H2 by (intros b; unfold ws2, between in *; lia).
  assert (∀ b c, ws3 a b c = false) as H3 by (intros b c; unfold ws3, between in *; lia).
  rewrite trim_start_eq, H1. destruct s as [|b [|c s]]; by rewrite ?H2, ?H3.
Qed.

Lemma text_not_blank v : blank (text v) = false.
Proof.
  unfold blank, is_empty. apply bool_decide_eq_false_2. unfold trim, text. rewrite trim_start_letter by done. intros Ht.
  destruct (trim_end_app (String "v" (tokens_text (gen_tree_to_list (tree_of v))))) as (rest & Happ & Hr). rewrite Ht in Happ.
  change (EmptyString +:+ rest) with rest in Happ. by rewrite <- Happ, trim_start_letter in Hr.
Qed.

Lemma sample_policy_codec_laws : PolicyCodecLaws (H := sample_policy_codec).
Proof.
  constructor; intros; [apply from_value_enc..| |].
  - apply read_text_enc.
  - apply text_not_blank.
Qed.

Definition sample_trust_lib : TrustLib := {|
  kind_debug _ := "Kind";
  anchor_from_toml := read_text;
  anchor_to_toml r := Ok (text (enc r));
|}.

Lemma sample_trust_lib_laws : TrustLibLaws (H := sample_trust_lib).
Proof.
  constructor. intros raw body [= <-]. exact (read_text_enc raw).
Qed.
