(* ===== verification/AdmissionSamples.v ===== *)
(** * A concrete world for the admission components

    Addresses in the form of the Axon SDK, a clock, a checksum in place of
    SHA-256 and a disk in memory: the interfaces of grants, proofs, the store,
    the trust anchor and the gate instantiated, so that their properties are seen
    to apply, and the code is run on concrete inputs. *)

From Stdlib Require Import String Ascii.
From stdpp Require Import countable relations.
From S2P Require Import Prelude RustStd Text Ura Identity Json World Decision Grants PolicyEngine AuthorityProof AccessControl.
From S2P Require Import StoreJournal StoreProps StoreTheorems TrustAnchor TrustLoad DeviceCaller PolicyGate PolicyGateProps.
From S2P Require Import SampleCodec.

Open Scope Z_scope.

(** ** Addresses *)

Definition easynet (realm kind rest : string) : string := "easynet:///r/" +:+ realm +:+ "/" +:+ kind +:+ rest.

Definition no_parts (kind : URAKind) (realm : string) : ParsedURA :=
  mk_ParsedURA kind realm None None None None None None None None None.

(** The parts of an address after its realm. *)
Definition parse_rest (realm kind rest : string) : option ParsedURA :=
  if bool_decide (kind = "user") then
    Some (mk_ParsedURA KUser realm (Some rest) None None None None None None None None)
  else if bool_decide (kind = "device") then
    Some (mk_ParsedURA KDevice realm None (Some rest) None None None None None None None)
  else if bool_decide (kind = "agent") then
    '(user, agent) ← split_once 46 rest;
    Some (mk_ParsedURA KAgent realm None None (Some (user, agent)) None None None None None None)
  else if bool_decide (kind = "ability") then
    '(owner, name) ← split_once 46 rest;
    Some (mk_ParsedURA KAbility realm None None None None None
            (if bool_decide (owner = "authority") then Some OwnerAuthority else None) (Some name) None None)
  else if bool_decide (kind = "resource") then
    '(owner, path) ← split_once 47 rest;
    Some (mk_ParsedURA KResource realm None None None None None None None (Some owner) (Some path))
  else None.

Definition sample_parse (s : string) : result string ParsedURA :=
  ok_or (rest ← strip_prefix "easynet:///r/" s;
         '(realm, rest) ← split_once 47 rest;
         if bool_decide (rest = "authority") then Some (no_parts KAuthority realm)
         else '(kind, rest) ← split_once 47 rest; parse_rest realm kind rest) "not a URA".

Definition sample_ura : UraLib := {|
  parse_ura := sample_parse;
  user_ura realm user := easynet realm "user/" user;
  device_ura realm device := easynet realm "device/" device;
  agent_ura realm user agent := easynet realm "agent/" (user +:+ "." +:+ agent);
  device_agent_ura realm device agent := easynet realm "agent/device." (device +:+ "." +:+ agent);
  service_ura realm user service := easynet realm "service/" (user +:+ "." +:+ service);
  authority_ura realm := easynet realm "authority" EmptyString;
  authority_ability_ura realm ability := easynet realm "ability/authority." ability;
  resource_dot_ura realm owner path := easynet realm "resource/" (owner +:+ "/" +:+ path);
  owner_ability_ura owner ability :=
    match sample_parse owner with
    | Ok p => match ura_kind p, ura_agent_ids p with
              | KAuthority, _ => Some (easynet (ura_realm p) "ability/authority." ability)
              | KAgent, Some (user, agent) => Some (easynet (ura_realm p) "ability/" (user +:+ "." +:+ agent +:+ "." +:+ ability))
              | _, _ => None
              end
    | Err _ => None
    end;
  ability_owner_identity_ura _ := None;
  kind_display _ := "kind";
  debug_str s := s;
|}.
#[local] Existing Instances sample_ura sample_serde sample_serde_laws sample_policy_codec sample_policy_codec_laws
  sample_trust_lib sample_trust_lib_laws.

(** ** Time and hashes *)

Definition sample_chrono : Chrono := {|
  parse_from_rfc3339 s := match s with String "t" s => decode (A := Z) (of_bits s) | _ => None end;
  to_rfc3339_secs t := String "t" (bits (encode (t / 1000000000 * 1000000000)));
  to_rfc3339_millis t := String "t" (bits (encode (t / 1000000 * 1000000)));
|}.

Lemma sample_chrono_laws : ChronoLaws (H := sample_chrono).
Proof. split; intros t; cbn [parse_from_rfc3339 to_rfc3339_secs to_rfc3339_millis sample_chrono]; by rewrite of_bits_bits, decode_encode. Qed.

(** The bytes as a number to the base 257, modulo 2^64. *)
Fixpoint checksum (s : string) (h : N) : N :=
  match s with
  | EmptyString => h
  | String c s => checksum s (N.land (N.shiftl h 8 + h + N_of_ascii c + 1) 18446744073709551615)
  end.

Definition sample_sha256 : Sha256 := {| sha256 s := be_bytes 32 (Z.of_N (checksum s 0)); sha256_length s := be_bytes_length 32 _ |}.
#[local] Existing Instances sample_chrono sample_chrono_laws sample_sha256.

(** ** A disk *)

(** The time, the lines of the files, the manifests, and whether writes fail. *)
Record Disk := mk_Disk {
  dk_clock : Z;
  dk_files : gmap string (list string);
  dk_manifests : gmap string AccessControlStoreManifest;
}.

Definition second : Z := 1000000000.

Definition sample_world : PolicyWorld Disk := {|
  utc_now w := (dk_clock w, mk_Disk (dk_clock w + second) (dk_files w) (dk_manifests w));
  append_line p l w := (Ok tt, mk_Disk (dk_clock w) (<[p := default [] (dk_files w !! p) ++ [l]]> (dk_files w)) (dk_manifests w));
  read_lines p w := Ok (default [] (dk_files w !! p));
  write_manifest_file p m w := (Ok tt, mk_Disk (dk_clock w) (dk_files w) (<[p := m]> (dk_manifests w)));
  read_manifest_file p w := Ok (dk_manifests w !! p);
|}.
#[local] Existing Instance sample_world.

Lemma sample_reliable : ReliableDisk Disk.
Proof.
  constructor; try by intros. constructor; try by intros.
  - intros p l w u w' [= <- <-]. cbn. split; [|intros q Hq; by rewrite lookup_insert_ne].
    eexists. split; [done|]. by rewrite lookup_insert_eq.
  - intros p l w _. by eexists.
  - intros p m w. cbn. by rewrite lookup_insert_eq.
Qed.
#[local] Existing Instance sample_reliable.

(** A disk that is full: appends fail. *)
Definition full_world : PolicyWorld Disk := {|
  utc_now := utc_now;
  append_line p l w := (Err "no space left", w);
  read_lines := read_lines;
  write_manifest_file := write_manifest_file;
  read_manifest_file := read_manifest_file;
|}.

Lemma full_lossy : LossyDisk Disk (PolicyWorld0 := full_world).
Proof. constructor; try done. by intros p l w e w' [= <- <-]. Qed.

Definition empty_disk : Disk := mk_Disk (second * 1000) ∅ ∅.

(** ** A store *)

Definition alice : string := "easynet:///r/home/user/alice".
Definition bot : string := "easynet:///r/home/agent/bob.bot".
Definition files : string := "easynet:///r/home/agent/alice.files".
Definition docs : string := "easynet:///r/home/resource/user.alice/docs".
Definition read_docs : string := "easynet:///r/home/ability/alice.files.read".
Definition at_time (n : Z) : string := to_rfc3339_millis (n * second).

(** Alice lets the agent read her documents. *)
Definition sample_grant (id : string) (effect : PermissionEffect) (lifetime : PermissionLifetime) : PermissionGrant :=
  mk_PermissionGrant id alice PAgent bot None None None None (Some files) (Some docs) (Some read_docs) [ARead; AInvoke] None
    effect lifetime GActive None None None None alice (at_time 10) None None None.

(** The agent asks for it. *)
Definition sample_request (id nonce : string) (status : PermissionRequestStatus) (lifetime : PermissionLifetime)
  : PermissionRequest :=
  mk_PermissionRequest id alice bot PAgent bot None None files docs read_docs AInvoke (Some nonce) None [lifetime] status
    (at_time 10) (at_time 5000) None None None None None None.

Definition sample_proof : AuthorityProof :=
  mk_AuthorityProof "proof-1" None (Some "request-2") alice PAgent bot None None files docs read_docs AInvoke (Some "nonce-2")
    None None None [] None (at_time 10) (at_time 5000) alice files "signature".

Definition root : string := "policy".

(** The store of Alice, opened in an empty directory. *)
Definition opened : AccessControlStore * Disk :=
  match open_or_create_at root alice empty_disk with
  | (Ok s, w) => (s, w)
  | (Err _, w) => (empty_store root (new_manifest alice EmptyString), w)
  end.

Lemma opened_reachable : reachable root alice opened.
Proof.
  assert (open_or_create_at root alice empty_disk = (Ok opened.1, opened.2)) as Hopen by (vm_compute; reflexivity).
  rewrite (surjective_pairing opened). apply (reach_open root alice empty_disk); [|exact Hopen]. by split.
Qed.

(** A grant for one use, a request approved with another grant, a request
    approved with a proof, and a request denied. *)
Definition first_ops : list StoreOp :=
  [CreateGrant (sample_grant "grant-1" EffAllow Once) alice;
   UpsertRequest (sample_request "request-1" "nonce-1" Pending Ttl) alice;
   ResolveRequest (sample_request "request-1" "nonce-1" Denied Ttl) alice;
   UpsertRequest (sample_request "request-2" "nonce-2" Pending Once) alice;
   ResolveWithProof (sample_request "request-2" "nonce-2" Approved Once) sample_proof alice;
   Compact default_compaction_policy alice].

Definition filled : AccessControlStore * Disk := run_ops first_ops opened.

(** The numbers of the records are 64-bit and wrap. *)
Example sequence_wraps :
  let x := (run_op (CreateGrant (sample_grant "grant-1" EffAllow Once) alice) (set_sequence u64_max opened.1, opened.2)).2 in
  ac_last_sequence x.1 = 1.
Proof. vm_compute. reflexivity. Qed.

Lemma opened_in_use : in_use opened.
Proof.
  assert (open_or_create_at root alice empty_disk = (Ok opened.1, opened.2)) as Hopen by (vm_compute; reflexivity).
  rewrite (surjective_pairing opened). by eapply use_open.
Qed.

Lemma run_ops_in_use os x : in_use x → in_use (run_ops os x).
Proof. revert x. induction os as [|o os IH]; intros x Hx; [done|]. by apply IH, use_op. Qed.

Lemma filled_in_use : in_use filled.
Proof. apply run_ops_in_use, opened_in_use. Qed.

Lemma filled_reachable : reachable root alice filled.
Proof. apply reachable_run; [apply opened_reachable|]. vm_compute. reflexivity. Qed.

(** The grant is consumed; then it is revoked, another is made, and the proof is
    consumed. *)
Definition later_ops : list StoreOp :=
  [RevokeGrant "grant-1" alice alice (Some "done"); CreateGrant (sample_grant "grant-2" EffAllow Permanent) alice;
   ConsumeProof "proof-1" bot; ConsumeOnceGrant "grant-2" bot].

(** The result and the state after an operation of the store. *)
Definition consumed_grant : PermissionGrant :=
  match consume_once_grant_if_applicable "grant-1" bot filled with
  | (Ok (Some g), _) => g
  | _ => sample_grant EmptyString EffDeny Once
  end.
Definition after_grant : AccessControlStore * Disk := (consume_once_grant_if_applicable "grant-1" bot filled).2.
Definition after_proof : AccessControlStore * Disk := (consume_authority_proof_once "proof-1" bot filled).2.

Lemma store_reopens_witness : (open_or_create_at root alice filled.2).1 = Ok filled.1.
Proof. rewrite (store_reopens root alice filled filled_reachable). vm_compute. reflexivity. Defined.

Lemma store_moves_forward_witness :
  evolves filled.1 (run_ops later_ops filled).1 ∧
  (λ g, g_state g.2) <$> ac_grants (run_ops later_ops filled).1 = [GRevoked; GActive].
Proof.
  split; [|vm_compute; reflexivity].
  apply (store_moves_forward root alice filled later_ops filled_reachable). vm_compute. reflexivity.
Defined.

Lemma once_grant_single_use_witness :
  (consume_once_grant_if_applicable "grant-1" alice (run_ops later_ops after_grant)).1 =
    Err ("once grant `" +:+ "grant-1" +:+ "` is no longer active").
Proof.
  apply (once_grant_single_use filled "grant-1" bot consumed_grant after_grant later_ops alice filled_in_use);
    vm_compute; reflexivity.
Defined.

Lemma proof_single_use_witness :
  (consume_authority_proof_once "proof-1" alice (run_ops later_ops after_proof)).1 =
    Err ("authority proof `" +:+ "proof-1" +:+ "` was already consumed").
Proof.
  apply (proof_single_use filled "proof-1" bot sample_proof after_proof later_ops alice filled_in_use);
    vm_compute; reflexivity.
Defined.

(** ** Journals *)

Lemma opened_logged : logged [] opened.
Proof.
  destruct (reachable_consistent root alice opened opened_reachable) as (((rs & (Hl & _) & _) & _) & _ & _).
  destruct Hl as (Hu & _). split; [exact Hu|]. split; [intros f Hf; set_unfold in Hf; destruct_or! Hf; subst f; vm_compute; reflexivity|].
  exists 0. split; [vm_compute; congruence|]. constructor.
Qed.

Lemma journal_append_only_witness :
  let x' := run_ops (first_ops ++ later_ops) opened in
  ∃ more q, journal root x'.2 = Ok ([] ++ more) ∧ q ≤ ac_last_sequence x'.1 ∧
    chain alice 0 ZERO_HASH ([] ++ more) q (ac_head_hash x'.1).
Proof. apply (journal_append_only [] opened (first_ops ++ later_ops)); [exact opened_logged|vm_compute; congruence]. Defined.

(** On a full disk no append succeeds: the numbers of the records that could not
    be written are spent, and nothing else changes. *)
Example full_disk :
  let x' := run_ops (PolicyWorld0 := full_world) first_ops opened in
  journal (PolicyWorld0 := full_world) root x'.2 = Ok [] ∧ ac_grants x'.1 = [] ∧ ac_head_hash x'.1 = ZERO_HASH ∧
  ac_last_sequence x'.1 = 4.
Proof. vm_compute. by split_and!. Qed.

(** The records of the store. *)
Definition filled_records : list JournalRecord := match journal root filled.2 with Ok rs => rs | Err _ => [] end.

(** The records of a store with another grant. *)
Definition other_ops : list StoreOp := CreateGrant (sample_grant "grant-9" EffAllow Permanent) alice :: tail first_ops.
Definition other : AccessControlStore * Disk := run_ops other_ops opened.
Definition other_records : list JournalRecord := match journal root other.2 with Ok rs => rs | Err _ => [] end.

Lemma exact_records rs : forallb (λ r, json_exact 127 (sort_json_value (record_material r))) rs = true → Forall exact_record rs.
Proof.
  intros Hx. apply Forall_forall. intros r Hr%list_elem_of_In. unfold exact_record. rewrite forallb_forall in Hx. exact (Hx r Hr).
Qed.

Lemma journal_tamper_evident_witness : length filled_records = 8%nat ∧ length other_records = 8%nat ∧
  (ac_head_hash filled.1 ≠ ac_head_hash other.1 ∨ forged filled_records other_records).
Proof.
  split; [vm_compute; reflexivity|]. split; [vm_compute; reflexivity|].
  apply (journal_tamper_evident root root (ac_manifest filled.1) (ac_manifest other.1) filled_records other_records).
  - vm_compute. reflexivity.
  - vm_compute. reflexivity.
  - apply exact_records. vm_compute. reflexivity.
  - apply exact_records. vm_compute. reflexivity.
  - intros Hall. assert (jr_record_id <$> filled_records = jr_record_id <$> other_records) as Hids; [|by vm_compute in Hids].
    clear -Hall. induction Hall as [|r r' rs rs' Hr _ IH]; cbn; [done|]. f_equal; [apply Hr|exact IH].
Defined.

(** ** Stores that cannot be opened again *)

(** Approved with a grant for one use, and that grant used: the store works on in
    memory and cannot be opened again. *)
Definition approve_once : list StoreOp :=
  [UpsertRequest (sample_request "request-1" "nonce-1" Pending Once) alice;
   ResolveWithGrant (sample_request "request-1" "nonce-1" Approved Once) (sample_grant "grant-1" EffAllow Once) alice].

Example approved_once_reopens :
  let x := run_ops approve_once opened in (open_or_create_at root alice x.2).1 = Ok x.1.
Proof. vm_compute. reflexivity. Qed.

Example used_grant_locks_store :
  let x := run_ops (approve_once ++ [ConsumeOnceGrant "grant-1" bot]) opened in
  (open_or_create_at root alice x.2).1 = Err "PermissionRequest approval grant must be active allow".
Proof. vm_compute. reflexivity. Qed.

Example revoked_grant_locks_store :
  let x := run_ops (approve_once ++ [RevokeGrant "grant-1" alice alice None]) opened in
  (open_or_create_at root alice x.2).1 = Err "PermissionRequest approval grant must be active allow".
Proof. vm_compute. reflexivity. Qed.

(** A second request with the id of the first: accepted, and journaled as a
    record that replay refuses. *)
Example reused_request_id_locks_store :
  let x := run_ops [UpsertRequest (sample_request "request-1" "nonce-1" Pending Once) alice;
                    UpsertRequest (sample_request "request-1" "nonce-2" Pending Once) alice] opened in
  (λ r, pr_nonce r.2) <$> ac_requests x.1 = [Some "nonce-2"] ∧
  (open_or_create_at root alice x.2).1 = Err "PermissionRequest cannot remain pending after initial creation".
Proof. vm_compute. by split. Qed.

(** Stopped between the two appends of an approval: the request names a grant
    that the journal does not have. *)
Example interrupted_approval_locks_store :
  let x := run_ops [UpsertRequest (sample_request "request-1" "nonce-1" Pending Once) alice] opened in
  let r := with_resolution (with_sources (sample_request "request-1" "nonce-1" Approved Once) (Some "grant-1") None)
             (Some alice) (Some (at_time 20)) in
  let x' := (append_request r OpApproved alice x).2 in
  (open_or_create_at root alice x'.2).1 = Err "approved PermissionRequest references missing grant `grant-1`".
Proof. vm_compute. reflexivity. Qed.

(** A grant to a service with the all-zero id: accepted, and its audit record is
    one that replay refuses. *)
Example all_zero_principal_locks_store :
  let g := mk_PermissionGrant "grant-1" alice PService ALL_ZERO_PRINCIPAL_ID None None None None None None None [ARead] None
             EffAllow Permanent GActive None None None None alice (at_time 10) None None None in
  let x := run_ops [CreateGrant g alice] opened in
  ac_grants x.1 = [("grant-1", g)] ∧
  (open_or_create_at root alice x.2).1 =
    Err "policy audit principal_id must not be the all-zero principal placeholder".
Proof. vm_compute. by split. Qed.
