(* ===== verification/GateSamples.v ===== *)
(** * The admission components on concrete inputs

    Grants matched, proofs verified, keys trusted and revoked, devices classified
    and invocations admitted by the gate, in the world of AdmissionSamples. *)

From Stdlib Require Import String Ascii.
From stdpp Require Import relations.
From S2P Require Import Prelude RustStd Text Ura Identity Json World Decision Grants PolicyEngine AuthorityProof AccessControl.
From S2P Require Import StoreJournal StoreProps StoreTheorems TrustAnchor TrustLoad DeviceCaller PolicyGate PolicyGateProps.
From S2P Require Import SampleCodec AdmissionSamples.

Open Scope Z_scope.

#[local] Existing Instances sample_ura sample_serde sample_serde_laws sample_policy_codec sample_policy_codec_laws
  sample_trust_lib sample_trust_lib_laws sample_chrono sample_chrono_laws sample_sha256 sample_world sample_reliable.

(** ** Grants *)

(** The agent invokes the ability at a time. *)
Definition sample_match (now : Z) : GrantMatchInput :=
  mk_GrantMatchInput alice PAgent bot None None None files docs read_docs AInvoke now.

Definition two_grants : list PermissionGrant := [sample_grant "b" EffAllow Permanent; sample_grant "a" EffAllow Once].

Lemma find_grant_order_independent_witness :
  find_grant two_grants (sample_match second) EffAllow = find_grant (reverse two_grants) (sample_match second) EffAllow ∧
  g_grant_id <$> find_grant two_grants (sample_match second) EffAllow = Some "a".
Proof.
  split; [|vm_compute; reflexivity].
  apply (find_grant_order_independent two_grants (reverse two_grants) (sample_match second) EffAllow).
  - symmetry. apply reverse_Permutation.
  - apply (bool_decide_unpack (NoDup _)). vm_compute. exact I.
Defined.

(** A grant for the subjects under one address lets the agent at a subject under
    another address of the same length. *)
Example prefix_is_not_compared :
  let g := mk_PermissionGrant "grant-1" alice PAgent bot None None None None None
             (Some "easynet:///r/home/resource/user.alice/docs/*") None [ARead] None EffAllow Permanent GActive
             None None None None alice (at_time 10) None None None in
  let keys := "easynet:///r/home/resource/user.alice/keys/private" in
  (g_grant_id <$> find_grant [g] (mk_GrantMatchInput alice PAgent bot None None None files keys read_docs ARead second) EffAllow)
    = Some "grant-1".
Proof. vm_compute. reflexivity. Qed.

(** ** Proofs of authority *)

(** A key verifies a signature of 64 bytes that starts with its name. *)
Definition sample_ed25519 : Ed25519 := {|
  VerifyingKey := string;
  key_verify k _ s := String.prefix k s;
  base64_decode := Some;
|}.
#[local] Existing Instance sample_ed25519.

Definition sample_resolver : IssuerResolver := {|
  verifying_key_for_issuer issuer := if bool_decide (issuer = alice) then Some ("alice" : VerifyingKey) else None;
  issuer_authorized_for_owner_ura issuer owner := bool_decide (issuer = owner);
  referenced_authority_active _ := true;
|}.
#[local] Existing Instance sample_resolver.

(** 64 bytes. *)
Definition sample_signature : string := "alice-----------------------------------------------------------".

Definition signed_proof : AuthorityProof :=
  mk_AuthorityProof "proof-1" None (Some "request-2") alice PAgent bot None None files docs read_docs AInvoke (Some "nonce-2")
    None None None [] None (at_time 10) (at_time 5000) alice files sample_signature.

Definition sample_context (now : Z) : AuthorityProofVerificationContext :=
  mk_ProofContext alice PAgent bot None None files docs read_docs AInvoke (Some "nonce-2") None files None None now.

Lemma verify_proof_sound_witness :
  ∃ p, Some signed_proof = Some p ∧ unexpired p second ∧ bound_to p (sample_context second) ∧
    session_bound p (sample_context second) ∧ one_time_bound p (sample_context second) ∧ signed_by_issuer p ∧
    issuer_authorized_for_owner_ura (ap_issuer_ura p) (ap_owner_user_ura p) = true ∧ referenced_authority_active p = true.
Proof. apply (verify_proof_sound (Some signed_proof) (sample_context second)). vm_compute. reflexivity. Defined.

Example expired_proof : verify_proof (Some signed_proof) (sample_context (6000 * second)) = Err ProofExpired.
Proof. vm_compute. reflexivity. Qed.

(** ** The trust anchor *)

Definition user_key (key : string) (at_ : Z) : TrustedAgent := mk_TrustedAgent alice key RoleUser at_ None None None.
Definition hub : string := "easynet:///r/home/authority".

(** A file with the hub of the realm and two keys of Alice. *)
Definition sample_anchor_text : string :=
  text (enc (mk_RawTrustAnchor
    [mk_TrustedAgent hub "hub-key" RoleBackend 1 None None None; user_key "key-1" 2; user_key "key-2" 3] [] [])).
Definition loaded : RealmTrustAnchor :=
  match parse_anchor sample_anchor_text with Ok a => a | Err _ => empty_anchor end.

Lemma loaded_eq : parse_anchor sample_anchor_text = Ok loaded.
Proof. vm_compute. reflexivity. Qed.

Definition trust_ops : list TrustOp :=
  [AppendAgent (user_key "key-3" 5); AppendAgent (user_key "key-1" 6); RevokeKey alice "key-2" 7;
   AppendAgent (mk_TrustedAgent "easynet:///r/home/device/laptop" "device-key" RoleDevice 8 None None None)].

Lemma trust_anchor_invariant_witness : anchor_ok (trust_run trust_ops loaded).
Proof. apply (trust_anchor_invariant sample_anchor_text loaded trust_ops loaded_eq). Defined.

Definition revoked : RevokedUserPubkey :=
  match revoke_user_pubkey alice "key-1" 9 (trust_run trust_ops loaded) with
  | (Ok (Some t), _) => t
  | _ => mk_RevokedUserPubkey EmptyString EmptyString 0 0
  end.

Lemma revoked_key_never_returns_witness :
  let a := trust_run [AppendAgent (user_key "key-1" 10)] (revoke_user_pubkey alice "key-1" 9 (trust_run trust_ops loaded)).2 in
  lookup_user_by_pubkey a (rk_agent_ura revoked) "key-1" = None ∧
  append_agent (user_key "key-1" 11) a = Err (RevokedUserPubkeyError (rk_agent_ura revoked)).
Proof.
  apply (revoked_key_never_returns sample_anchor_text loaded trust_ops alice "key-1" 9 revoked
    (revoke_user_pubkey alice "key-1" 9 (trust_run trust_ops loaded)).2 [AppendAgent (user_key "key-1" 10)]
    (user_key "key-1" 11) loaded_eq); vm_compute; reflexivity.
Defined.

Definition saved : string := match save_body (trust_run trust_ops loaded) with Ok b => b | Err _ => EmptyString end.

Lemma trust_anchor_roundtrip_witness : ∃ a', parse_anchor saved = Ok a' ∧ a' ≡ trust_run trust_ops loaded ∧ save_body a' = Ok saved.
Proof.
  destruct (trust_anchor_roundtrip sample_anchor_text loaded trust_ops saved loaded_eq) as (a' & Hp & He & Hs & _);
    [vm_compute; reflexivity|]. exists a'. exact (conj Hp (conj He Hs)).
Defined.

(** ** Devices *)

Definition laptop : string := "easynet:///r/home/device/laptop".

(** The laptop opens its own session at the hub. *)
Definition session_scope (subject : string) : DeviceInvocationPurposeScope :=
  mk_PurposeScope laptop hub subject ABILITY_SESSION_OPEN (Some hub) AStream.
Definition session_purpose : VerifiedDeviceInvocationPurpose :=
  mk_VerifiedPurpose DeviceSelfSession (device_invocation_binding (session_scope laptop)).

Lemma session_fits : Forall fits_frame (binding_values (session_scope laptop)).
Proof. repeat constructor; vm_compute; congruence. Qed.

Lemma purpose_binds_invocation_witness :
  matches_scope session_purpose (session_scope laptop) = true ∧
  (matches_scope session_purpose (session_scope laptop) = true →
   binding_values (session_scope laptop) = binding_values (session_scope laptop) ∨
   (binding_bytes (session_scope laptop) ≠ binding_bytes (session_scope laptop) ∧
    sha256 (binding_bytes (session_scope laptop)) = sha256 (binding_bytes (session_scope laptop)))).
Proof.
  apply (purpose_binds_invocation (session_scope laptop) session_purpose (session_scope laptop));
    [vm_compute; reflexivity|apply session_fits..].
Defined.

(** The purpose is not good for another subject. *)
Example other_subject : matches_scope session_purpose (session_scope "easynet:///r/home/device/phone") = false.
Proof. vm_compute. reflexivity. Qed.

Definition session_ability : string := default EmptyString (owner_ability_ura hub ABILITY_SESSION_OPEN).
Definition session_policy : DeviceCallerPolicyScope := mk_PolicyScope laptop hub laptop session_ability (Some hub) AStream.

Lemma policy_purpose_verified_witness :
  ∃ r, r ∈ DEVICE_CALLER_RULES ∧ owner_ability_ura hub (dr_public_ability r) = Some session_ability ∧
    verify_device_invocation_purpose (purpose_scope session_policy r) = Ok session_purpose.
Proof.
  apply (policy_purpose_verified session_policy session_purpose); [|vm_compute; reflexivity].
  intros caller Hc _. vm_compute in Hc. injection Hc as <-. by eexists.
Defined.

(** ** The gate *)

Definition sample_gate : GateLib := {|
  canonical_ability_descriptor_ref s := Err "not a descriptor";
  axon_ability_ura_from_descriptor_ref s := Err "not a descriptor";
  device_sponsored_system_agent_owner _ := None;
  decision_json _ := "{}";
  purpose_debug _ := "purpose";
|}.
Definition sample_dirs : PolicyDirs Disk := {|
  dir_exists _ _ := true;
  create_dir_all _ w := (Ok tt, w);
  rename_dir _ _ w := (Ok tt, w);
|}.
#[local] Existing Instances sample_gate sample_dirs.

(** The agent invokes [read] on the documents; the laptop opens its session. *)
Definition agent_context : AdmissionPolicyContext :=
  mk_PolicyContext (mk_Envelope (Some bot) (Some files) (Some docs)) "read" AInvoke false PathAgentDeviceCustody (Some hub)
    loaded None None None None None None.
Definition device_context : AdmissionPolicyContext :=
  mk_PolicyContext (mk_Envelope (Some laptop) (Some hub) (Some laptop)) ABILITY_SESSION_OPEN AStream false
    (PathDeviceCustody session_purpose) (Some hub) loaded None None None None None None.

Definition sample_input : PolicyInput :=
  match policy_input agent_context (second * 2000) with Ok i => i | Err _ => mk_PolicyInput (owner_unresolved EmptyString) None
    EmptyString PUser EmptyString None None None EmptyString EmptyString EmptyString ARead false [] false false None None None None None 0 [] end.

(** The registry with the store of Alice. *)
Definition registry : AccessControlStoreRegistry * Disk := (mk_Registry root [(alice, filled.1)], filled.2).

Definition decided (r : result Status PolicyDecision) : PolicyDecision :=
  match r with Ok d => d | Err _ => check sample_input end.

Definition admitted : PolicyDecision := decided (gate_transaction sample_input filled).1.
Definition admitted_agent : PolicyDecision := decided (verify_policy agent_context registry).1.
Definition admitted_device : PolicyDecision := decided (verify_policy device_context registry).1.

(** The grant lets the agent pass once; the second time, and after Alice has made
    a permanent grant the third time, another grant or none decides. *)
Example agent_passes_once :
  let '(r1, x1) := verify_policy agent_context registry in
  let '(r2, x2) := verify_policy agent_context x1 in
  (pd_reason (decided r1), pd_grant_id (decided r1)) = (ExplicitGrantAllow, Some "grant-1") ∧
  r2 = Err (permission_denied "POLICY_DENIED: {}").
Proof. vm_compute. by split. Qed.

(** After the first admission Alice makes a permanent grant, and the next
    admission is by that one. *)
Definition after_admission : AccessControlStore * Disk := (gate_transaction sample_input filled).2.
Definition next_admission : result Status PolicyDecision * (AccessControlStore * Disk) :=
  gate_transaction sample_input (run_ops later_ops after_admission).

Lemma once_grant_admits_once_witness :
  pd_decision (decided next_admission.1) = Allow ∧ pd_grant_id (decided next_admission.1) ≠ Some "grant-1".
Proof.
  split; [vm_compute; reflexivity|].
  apply (once_grant_admits_once filled sample_input admitted after_admission "grant-1"
    (sample_grant "grant-1" EffAllow Once) later_ops sample_input (decided next_admission.1) next_admission.2 filled_in_use);
    vm_compute; reflexivity.
Defined.

Lemma verify_policy_sound_witness : ∃ i grants,
  policy_input agent_context (utc_now registry.2).1 = Ok i ∧
  decided_with i (registry.1, (utc_now registry.2).2) grants ∧
  admitted_agent = check (with_grants i grants) ∧ pd_decision admitted_agent = Allow ∧
  not_denied (with_grants i grants) ∧ justified (with_grants i grants) (pd_reason admitted_agent).
Proof.
  apply (verify_policy_sound agent_context registry admitted_agent (verify_policy agent_context registry).2).
  vm_compute. reflexivity.
Defined.

Lemma device_needs_bound_purpose_witness :
  pd_reason admitted_device = SystemRuleAllow ∧
  (pd_reason admitted_device ≠ FederationForwardAllow ∧
   (pd_reason admitted_device = SystemRuleAllow →
    admitted_device_policy_purpose (mk_PolicyScope (pd_caller_ura admitted_device) (pd_callee_ura admitted_device)
      (pd_subject_ura admitted_device) (pd_ability_ura admitted_device) (cx_daemon_ura device_context) (pd_action admitted_device))
    = Some session_purpose)).
Proof.
  split; [vm_compute; reflexivity|].
  apply (device_needs_bound_purpose device_context registry admitted_device (verify_policy device_context registry).2
    session_purpose); vm_compute; reflexivity.
Defined.

(** Alice makes a permanent grant in a new store, and the agent passes. *)
Definition created : result string AuthorityBindingGrantResult * (AccessControlStore * Disk) :=
  create_grant (sample_grant "grant-1" EffAllow Permanent) alice opened.
Definition created_result : AuthorityBindingGrantResult :=
  match created.1 with Ok r => r | Err _ => mk_GrantResult (sample_grant EmptyString EffDeny Once) false EmptyString end.

Lemma granted_invocation_passes_witness :
  ∃ d x2, gate_transaction sample_input created.2 = (Ok d, x2) ∧ pd_decision d = Allow.
Proof.
  apply (granted_invocation_passes root alice opened (sample_grant "grant-1" EffAllow Permanent) alice created_result created.2
    sample_input 5 opened_reachable).
  - vm_compute. congruence.
  - vm_compute. reflexivity.
  - vm_compute. reflexivity.
  - vm_compute. congruence.
  - apply (validate_runtime_identity_ura_Ok _ EmptyString). vm_compute. reflexivity.
  - vm_compute. reflexivity.
  - split; [by apply list_elem_of_singleton|]. split; [vm_compute; reflexivity|]. split; vm_compute; reflexivity.
  - apply explicit_deny_None. vm_compute. reflexivity.
Defined.
