(* ===== verification/Programs.v ===== *)
(** * Programs of the daemon's services

    Errors as anyhow has them, and programs whose actions are atomic: one per lock
    a service takes or file operation it makes.  The services of loops and
    schedules are written in them; their runs interleave programs. *)

From Stdlib Require Import String Ascii.
From S2P Require Import Prelude RustStd.

Open Scope Z_scope.

(** ** Errors *)

(** [anyhow::Error]: the message and, behind it, the contexts and causes. *)
Definition error : Type := list string.

(** [format!("{e}")] shows the outermost message, [format!("{e:#}")] all. *)
Definition display_head (e : error) : string := default EmptyString (head e).
Fixpoint display_alt (e : error) : string :=
  match e with
  | [] => EmptyString
  | [m] => m
  | m :: e => m +:+ ": " +:+ display_alt e
  end.

Definition bail {A} (m : string) : result error A := Err [m].

(** [with_context] on an error that is a rendered text. *)
Definition with_context {A} (c : string) (r : result string A) : result error A := map_err (λ e, [c; e]) r.

(** ** Programs *)

(** How a file operation fails: its message and the bytes written before. *)
Definition io_failure : Type := string * nat.

(** A program over worlds [W]: a value, a panic, an atomic action (which may be a
    file operation that fails), or the start of a task by its name, which answers
    whether it was started. *)
Inductive Prog (W A : Type) : Type :=
| Ret (a : A)
| Panic
| Act {X : Type} (act : option io_failure → W → W * X) (k : X → Prog W A)
| Spawn (id : string) (k : bool → Prog W A).
Arguments Ret {W A} a.
Arguments Panic {W A}.
Arguments Act {W A X} act k.
Arguments Spawn {W A} id k.

Fixpoint prog_bind {W A B} (p : Prog W A) (f : A → Prog W B) : Prog W B :=
  match p with
  | Ret a => f a
  | Panic => Panic
  | Act act k => Act act (λ x, prog_bind (k x) f)
  | Spawn id k => Spawn id (λ b, prog_bind (k b) f)
  end.

(** Programs with [?]. *)
Definition prog (W A : Type) : Type := Prog W (result error A).
#[global] Instance prog_mret {W} : MRet (prog W) := λ A a, Ret (Ok a).
#[global] Instance prog_mbind {W} : MBind (prog W) := λ A B f m,
  prog_bind m (λ r, match r with Ok a => f a | Err e => Ret (Err e) end).

Definition lift {W A} (r : result error A) : prog W A := Ret r.
(** [let _ = m]: the result, whatever it is. *)
Definition attempt {W A} (m : prog W A) : prog W (result error A) := prog_bind m (λ r, Ret (Ok r)).
(** An action that takes a lock. *)
Definition locked {W A} (f : W → W * result error A) : prog W A := Act (λ _ w, f w) Ret.
(** An action that panics on [None]. *)
Definition locked_panic {W A} (f : W → W * option (result error A)) : prog W A :=
  Act (λ _ w, f w) (λ o, match o with Some r => Ret r | None => Panic end).
(** ** Files *)

(** Worlds that have a directory of files. *)
Class Files (W : Type) := {
  get_files : W → gmap string string;
  map_files : (gmap string string → gmap string string) → W → W;
}.

Definition final_path (id : string) : string := id +:+ ".json".
Definition tmp_path (id : string) : string := id +:+ ".json.tmp".

(** [Path::extension] of a file name. *)
Fixpoint after_last_dot (s : string) : option string :=
  match s with
  | EmptyString => None
  | String c s =>
      match after_last_dot s with
      | Some e => Some e
      | None => if byte_val c =? 46 then Some s else None
      end
  end.
Definition extension (name : string) : option string :=
  match name with EmptyString => None | String _ s => after_last_dot s end.

(** [fs::write] as one action, which when it fails may leave a part of the text.
    Opening truncates the file and writing follows; two tasks that write one file
    at once, and may leave a mixture of their texts, are not modelled. *)
Definition fs_write {W} `{Files W} (path body : string) : prog W unit :=
  Act (λ io w,
    match io with
    | None => (map_files <[path := body]> w, Ok tt)
    | Some (e, n) =>
        (if (n <? String.length body)%nat then map_files <[path := String.substring 0 n body]> w else w, Err [e])
    end) Ret.

Definition fs_rename {W} `{Files W} (from to : string) : prog W unit :=
  Act (λ io w,
    match io, get_files w !! from with
    | None, Some body => (map_files (λ m, <[to := body]> (delete from m)) w, Ok tt)
    | None, None => (w, Err ["No such file or directory (os error 2)"])
    | Some (e, _), _ => (w, Err [e])
    end) Ret.

(** [Path::exists] and [fs::remove_file]. *)
Definition fs_exists {W} `{Files W} (path : string) : prog W bool :=
  locked (λ w, (w, Ok (bool_decide (is_Some (get_files w !! path))))).
Definition fs_remove_file {W} `{Files W} (path : string) : prog W unit :=
  Act (λ io w,
    match io, get_files w !! path with
    | None, Some _ => (map_files (delete path) w, Ok tt)
    | None, None => (w, Err ["No such file or directory (os error 2)"])
    | Some (e, _), _ => (w, Err [e])
    end) Ret.

(** ** Running *)

(** The first actions of a program, one for each outcome of a file operation; a
    task is never started here. *)
Fixpoint run_prog {W A} (ios : list (option io_failure)) (p : Prog W A) (w : W) : W * Prog W A :=
  match ios, p with
  | io :: ios, Act act k => let '(w', x) := act io w in run_prog ios (k x) w'
  | _, _ => (w, p)
  end.

(** The values of a map in the order of its keys. *)
Definition btree_values {A} (m : gmap string A) : list A :=
  (foldr (λ p l, btree_insert p.1 p.2 l) [] (map_to_list m)).*2.

(** ** Programs that do nothing *)

(** A program that only reads while [P] holds, and ends in an error, whatever
    others do between its actions. *)
Fixpoint inert {W A} (P : W → Prop) (p : prog W A) : Prop :=
  match p with
  | Ret r => ∃ e, r = Err e
  | Act act k => ∀ io w, P w → (act io w).1 = w ∧ inert P (k (act io w).2)
  | Panic | Spawn _ _ => False
  end.

Lemma inert_lift {W A B} (P : W → Prop) (r : result error A) (f : A → prog W B) :
  (∀ a, r = Ok a → inert P (f a)) → inert P (lift r ≫= f).
Proof. intros Hf. destruct r as [a|e]; [by apply Hf|by exists e]. Qed.

Lemma inert_bind {W A B} (P : W → Prop) (p : prog W A) (f : A → prog W B) : inert P p → inert P (p ≫= f).
Proof.
  induction p as [r| |X act k IH|id k IH]; cbn; try done; [by intros (e & ->); exists e|].
  intros Hp io w Hw. destruct (Hp io w Hw) as [? Hk]. split; [done|]. by apply IH.
Qed.
