(* ===== verification/LoopLedger.v ===== *)
(** * Loop instances and their ledgers (src/src/daemon/execution/loop_instance)

    A loop runs a worker agent for at most [max_iters] iterations of a body and a
    verify invocation.  This file has its data (core/domain/mod.rs), the
    validation of its authority and of its ledger of invocations, and the pure
    functions its controller uses: the causal context of the next invocation,
    the prompt and the answer of a verification, the frames of a snapshot. *)

From stdpp Require Import pretty.
From Stdlib Require Import String Ascii.
From S2P Require Import Prelude RustStd Text Ura Json Programs.
From S2P Require Retry.

Open Scope Z_scope.

(** [Display] of a [u32]; its sum with one wraps. *)
Definition u32_display (n : Z) : string := pretty (Z.to_N n).
Definition u32_next (n : Z) : Z := (n + 1) mod 2 ^ 32.

(** ** Data *)

Inductive LoopInvocationKind := Body | Verify.
Inductive LoopInvocationState := Reserved | Completed | RecFailed.
Inductive LoopState := Pending | Running | Done | Exhausted | VerifyMalformed | Failed | Cancelled.

#[global] Instance LoopInvocationKind_eq_dec : EqDecision LoopInvocationKind.
Proof. solve_decision. Defined.
#[global] Instance LoopInvocationState_eq_dec : EqDecision LoopInvocationState.
Proof. solve_decision. Defined.
#[global] Instance LoopState_eq_dec : EqDecision LoopState.
Proof. solve_decision. Defined.

Record LoopInvocationRecord := mk_Record {
  lr_iter : Z;
  lr_kind : LoopInvocationKind;
  lr_state : LoopInvocationState;
  lr_invocation_id : option string;
  lr_receipt_ura : option string;
  lr_receipt_hash : option string;
  lr_causal_parent_receipt_ura : option string;
  lr_output : option string;
  lr_error : option string;
}.

Record DeferredInvocationAuthority := mk_Authority {
  da_accountable_user_ura : string;
  da_creator_invocation_id : string;
  da_controller_callee_ura : string;
  da_target_callee_ura : string;
  da_execution_host_ura : string;
}.

Record LoopInstance := mk_Instance {
  li_id : string;
  li_tenant : string;
  li_worker_agent : string;
  li_authority : DeferredInvocationAuthority;
  li_verify_expr : string;
  li_body_prompt : string;
  li_max_iters : Z;
  li_current_iter : Z;
  li_state : LoopState;
  li_invocation_ledger : list LoopInvocationRecord;
  li_last_body_output : option string;
  li_last_verify_output : option string;
}.

#[global] Instance LoopInvocationRecord_eq_dec : EqDecision LoopInvocationRecord.
Proof. solve_decision. Defined.
#[global] Instance DeferredInvocationAuthority_eq_dec : EqDecision DeferredInvocationAuthority.
Proof. solve_decision. Defined.
#[global] Instance LoopInstance_eq_dec : EqDecision LoopInstance.
Proof. solve_decision. Defined.

Record LoopInvocationOutcome := mk_Outcome {
  lo_output : string;
  lo_invocation_id : string;
  lo_receipt_ura : string;
  lo_receipt_hash : string;
}.

(** Assignments to fields. *)
Definition set_state (s : LoopState) (i : LoopInstance) : LoopInstance :=
  mk_Instance (li_id i) (li_tenant i) (li_worker_agent i) (li_authority i) (li_verify_expr i) (li_body_prompt i)
    (li_max_iters i) (li_current_iter i) s (li_invocation_ledger i) (li_last_body_output i) (li_last_verify_output i).
Definition set_iter (n : Z) (i : LoopInstance) : LoopInstance :=
  mk_Instance (li_id i) (li_tenant i) (li_worker_agent i) (li_authority i) (li_verify_expr i) (li_body_prompt i)
    (li_max_iters i) n (li_state i) (li_invocation_ledger i) (li_last_body_output i) (li_last_verify_output i).
Definition set_ledger (l : list LoopInvocationRecord) (i : LoopInstance) : LoopInstance :=
  mk_Instance (li_id i) (li_tenant i) (li_worker_agent i) (li_authority i) (li_verify_expr i) (li_body_prompt i)
    (li_max_iters i) (li_current_iter i) (li_state i) l (li_last_body_output i) (li_last_verify_output i).
Definition set_output (k : LoopInvocationKind) (s : string) (i : LoopInstance) : LoopInstance :=
  mk_Instance (li_id i) (li_tenant i) (li_worker_agent i) (li_authority i) (li_verify_expr i) (li_body_prompt i)
    (li_max_iters i) (li_current_iter i) (li_state i) (li_invocation_ledger i)
    (match k with Body => Some s | Verify => li_last_body_output i end)
    (match k with Body => li_last_verify_output i | Verify => Some s end).

(** [LoopInvocationKind::as_str] and the [Debug] forms. *)
Definition kind_str (k : LoopInvocationKind) : string := match k with Body => "body" | Verify => "verify" end.
Definition kind_debug (k : LoopInvocationKind) : string := match k with Body => "Body" | Verify => "Verify" end.
Definition record_state_debug (s : LoopInvocationState) : string :=
  match s with Reserved => "Reserved" | Completed => "Completed" | RecFailed => "Failed" end.

Definition is_terminal (s : LoopState) : bool :=
  match s with
  | Done | Exhausted | VerifyMalformed | Failed | Cancelled => true
  | Pending | Running => false
  end.

(** [LoopState] as JSON: an object tagged with its kind. *)
Definition loop_state_value (s : LoopState) : Value :=
  VObject [("kind", VString match s with
                            | Pending => "pending" | Running => "running" | Done => "done"
                            | Exhausted => "exhausted" | VerifyMalformed => "verify_malformed"
                            | Failed => "failed" | Cancelled => "cancelled"
                            end)].

(** ** The ledger *)

Section find.
Context {A : Type} (p : A → bool).

(** [iter().rev().find(p)], and the update of what [iter_mut().rev().find(p)]
    finds. *)
Fixpoint rfind (l : list A) : option A :=
  match l with
  | [] => None
  | x :: l => match rfind l with Some y => Some y | None => if p x then Some x else None end
  end.

Fixpoint rfind_update (f : A → A) (l : list A) : option (list A) :=
  match l with
  | [] => None
  | x :: l =>
      match rfind_update f l with
      | Some l' => Some (x :: l')
      | None => if p x then Some (f x :: l) else None
      end
  end.
End find.

(** The record of an invocation: its iteration and kind. *)
Definition record_key (r : LoopInvocationRecord) : Z * LoopInvocationKind := (lr_iter r, lr_kind r).
Definition has_key (iter : Z) (kind : LoopInvocationKind) (r : LoopInvocationRecord) : bool :=
  (lr_iter r =? iter) && bool_decide (lr_kind r = kind).

Definition reserved_record (iter : Z) (kind : LoopInvocationKind) (parent : option LoopInvocationRecord) : LoopInvocationRecord :=
  mk_Record iter kind Reserved None None None (parent ≫= lr_receipt_ura) None None.

Definition completed_record (o : LoopInvocationOutcome) (r : LoopInvocationRecord) : LoopInvocationRecord :=
  mk_Record (lr_iter r) (lr_kind r) Completed (Some (lo_invocation_id o)) (Some (lo_receipt_ura o))
    (Some (Retry.hex_encode (lo_receipt_hash o))) (lr_causal_parent_receipt_ura r) (Some (lo_output o)) (lr_error r).

Definition failed_record (error : string) (r : LoopInvocationRecord) : LoopInvocationRecord :=
  mk_Record (lr_iter r) (lr_kind r) RecFailed (lr_invocation_id r) (lr_receipt_ura r) (lr_receipt_hash r)
    (lr_causal_parent_receipt_ura r) (lr_output r) (Some error).

Definition none_or_empty (o : option string) : bool := match o with Some s => is_empty s | None => true end.

(** [hex::decode]; what [hex::encode] writes, it reads. *)
Class Hex := { hex_decode : string → result string string }.
Class HexLaws `{Hex} : Prop := { hex_roundtrip s : hex_decode (Retry.hex_encode s) = Ok s }.

Section ledger.
Context `{!Hex}.

(** The kind and iteration the next record must have. *)
Definition expected_kind (previous : option LoopInvocationRecord) : LoopInvocationKind :=
  match previous with
  | None => Body
  | Some p => if bool_decide (lr_kind p = Body) then Verify else Body
  end.
Definition expected_iter (previous : option LoopInvocationRecord) : Z :=
  match previous with
  | None => 1
  | Some p => if bool_decide (expected_kind previous = Verify) then lr_iter p else u32_next (lr_iter p)
  end.

Definition hash_is_32_bytes (h : string) : bool :=
  match hex_decode h with Ok b => (String.length b =? 32)%nat | Err _ => false end.

(** What a record must and must not carry in its state. *)
Definition record_facts (id : string) (r : LoopInvocationRecord) : result error unit :=
  match lr_state r with
  | Reserved =>
      if bool_decide (is_Some (lr_invocation_id r)) || bool_decide (is_Some (lr_receipt_ura r))
         || bool_decide (is_Some (lr_receipt_hash r)) || bool_decide (is_Some (lr_output r))
         || bool_decide (is_Some (lr_error r))
      then bail ("loop " +:+ id +:+ " reserved invocation carries terminal facts") else Ok tt
  | Completed =>
      if none_or_empty (lr_invocation_id r) || none_or_empty (lr_receipt_ura r)
         || bool_decide (lr_output r = None) || negb (hash_is_32_bytes (default EmptyString (lr_receipt_hash r)))
         || bool_decide (is_Some (lr_error r))
      then bail ("loop " +:+ id +:+ " completed invocation has invalid receipt facts") else Ok tt
  | RecFailed =>
      if none_or_empty (lr_error r)
      then bail ("loop " +:+ id +:+ " failed invocation is missing its error") else Ok tt
  end.

(** The loop over the records: [rest] is what follows the record at hand, so it
    is empty exactly when [index + 1 = len]. *)
Fixpoint validate_records (id : string) (previous : option LoopInvocationRecord) (l : list LoopInvocationRecord)
    : result error (option LoopInvocationRecord) :=
  match l with
  | [] => Ok previous
  | record :: rest =>
      _ ← ensure (bool_decide (lr_kind record = expected_kind previous) && (lr_iter record =? expected_iter previous))
            ["loop " +:+ id +:+ " invocation ledger expected " +:+ kind_debug (expected_kind previous) +:+ " iter "
             +:+ u32_display (expected_iter previous) +:+ ", got " +:+ kind_debug (lr_kind record) +:+ " iter "
             +:+ u32_display (lr_iter record)];
      _ ← ensure (bool_decide (lr_causal_parent_receipt_ura record = previous ≫= lr_receipt_ura))
            ["loop " +:+ id +:+ " invocation ledger has a broken causal parent link"];
      _ ← record_facts id record;
      _ ← ensure (bool_decide (lr_state record = Completed) || bool_decide (rest = []))
            ["loop " +:+ id +:+ " has records after a non-completed invocation"];
      validate_records id (Some record) rest
  end.

Definition validate_loop_invocation_ledger (inst : LoopInstance) : result error unit :=
  previous ← validate_records (li_id inst) None (li_invocation_ledger inst);
  match previous with
  | Some r => ensure (li_current_iter inst =? lr_iter r)
                ["loop " +:+ li_id inst +:+ " current_iter does not match its invocation ledger"]
  | None => ensure (li_current_iter inst =? 0)
              ["loop " +:+ li_id inst +:+ " has current_iter without invocation records"]
  end.

(** ** Causality *)

(** [ReceiptRef] and [LoopCausalContext] of the SDK, as far as loops use them. *)
Inductive LoopCausalContext :=
| CausalNone
| CausalScalar (receipt_hash receipt_ura : string).

Definition loop_causal_context (parent : option LoopInvocationRecord) : result error LoopCausalContext :=
  match parent with
  | None => Ok CausalNone
  | Some p =>
      _ ← ensure (bool_decide (lr_state p = Completed)) ["loop causal parent must be a completed invocation record"];
      receipt_ura ← ok_or (lr_receipt_ura p) ["loop causal parent is missing receipt URA"];
      receipt_hash ← ok_or (lr_receipt_hash p) ["loop causal parent is missing receipt hash"];
      bytes ← with_context "decode loop causal parent receipt hash" (hex_decode receipt_hash);
      _ ← ensure (String.length bytes =? 32)%nat
            ["loop causal parent receipt hash must be 32 bytes, got " +:+ pretty (N.of_nat (String.length bytes))];
      Ok (CausalScalar bytes receipt_ura)
  end.
End ledger.

(** ** Authority *)

Definition AUTOMATION_SYSTEM_AGENT_ID : string := "automation".

Section authority.
Context `{!UraLib}.

Definition validate_accountable_user_scope (accountable_user_ura : string) : result error unit :=
  user ← map_err (λ e, ["loop accountable User is invalid: " +:+ e]) (parse_ura accountable_user_ura);
  match bool_decide (ura_kind user = KUser), ura_user_id user with
  | true, Some user_id =>
      ensure (bool_decide (user_ura (ura_realm user) user_id = accountable_user_ura))
        ["loop accountable User URA must be canonical"]
  | _, _ => bail "loop accountable principal must be a canonical User URA"
  end.

Definition validate_loop_authority (worker_agent : string) (a : DeferredInvocationAuthority) : result error unit :=
  _ ← validate_accountable_user_scope (da_accountable_user_ura a);
  accountable_user ← map_err (λ _, ["validated accountable User URA must parse"]) (parse_ura (da_accountable_user_ura a));
  controller ← map_err (λ e, ["loop controller is invalid: " +:+ e]) (parse_ura (da_controller_callee_ura a));
  '(controller_device, controller_agent) ← ok_or (ura_device_agent_ids controller)
    ["loop controller must be a device-sponsored SystemAgent"];
  _ ← ensure (bool_decide (controller_agent = AUTOMATION_SYSTEM_AGENT_ID))
        ["loop controller must be the automation SystemAgent"];
  host ← map_err (λ e, ["loop execution host is invalid: " +:+ e]) (parse_ura (da_execution_host_ura a));
  _ ← ensure (bool_decide (ura_kind host = KDevice) && bool_decide (ura_device_id host = Some controller_device)
              && bool_decide (ura_realm host = ura_realm controller))
        ["loop controller sponsor and execution host must match"];
  target ← map_err (λ e, ["loop target callee is invalid: " +:+ e]) (parse_ura (da_target_callee_ura a));
  '(owner_user, target_agent) ← ok_or (ura_agent_ids target) ["loop target callee must be a hosted User Agent"];
  _ ← ensure (bool_decide (ura_realm target = ura_realm controller)
              && bool_decide (ura_realm target = ura_realm accountable_user)
              && bool_decide (Some owner_user = ura_user_id accountable_user)
              && bool_decide (target_agent = worker_agent))
        ["loop worker identity does not match deferred target callee"];
  ensure (negb (blank (da_creator_invocation_id a))) ["loop authority requires its creator invocation id"].
End authority.

(** ** Verification and snapshots *)

Definition nl : string := String "010" EmptyString.
Definition quote : string := String "034" EmptyString.

Definition render_verify_prompt (expr : string) (iter : Z) (body_output : string) : string :=
  "Loop verify iteration " +:+ u32_display iter +:+ "." +:+ nl +:+ nl
  +:+ "Verify expression:" +:+ nl +:+ expr +:+ nl +:+ nl
  +:+ "Body output:" +:+ nl +:+ body_output +:+ nl +:+ nl
  +:+ "Return ONLY valid JSON with a top-level boolean field named `done`, for example "
  +:+ "{" +:+ quote +:+ "done" +:+ quote +:+ ": true} or {" +:+ quote +:+ "done" +:+ quote +:+ ": false}.".


Section verify.
Context `{!UraLib, !SerdeJson}.

Definition parse_verify_done (output : string) : result error bool :=
  value ← with_context
    ("verify output must be valid JSON object with top-level done bool, got " +:+ debug_str output) (from_slice output);
  ok_or (value_get "done" value ≫= as_bool)
    ["verify output missing top-level `done: bool`: " +:+ output].
End verify.

(** The frames of a stream. *)
Definition iter_started_frame (id : string) (iter : Z) : Value :=
  VObject [("kind", VString "iter_started"); ("loop_id", VString id); ("iter", VInt iter)].
Definition iter_finished_frame (id : string) (iter : Z) (passed : bool) : Value :=
  VObject [("kind", VString "iter_finished"); ("loop_id", VString id); ("iter", VInt iter); ("verify_passed", VBool passed)].
Definition chunk_frame (kind : LoopInvocationKind) (id : string) (iter : Z) (text : string) : Value :=
  VObject [("kind", VString (kind_str kind +:+ "_chunk")); ("loop_id", VString id); ("iter", VInt iter); ("text", VString text)].
Definition outcome_frame (kind : LoopInvocationKind) (id : string) (iter : Z) (o : LoopInvocationOutcome) : Value :=
  VObject [("kind", VString (kind_str kind +:+ "_chunk")); ("loop_id", VString id); ("iter", VInt iter);
           ("text", VString (lo_output o)); ("invocation_id", VString (lo_invocation_id o));
           ("receipt_hash", VString (Retry.hex_encode (lo_receipt_hash o)))].
Definition terminal_frame (id : string) (s : LoopState) : Value :=
  VObject [("kind", VString "terminal"); ("loop_id", VString id); ("state", loop_state_value s)].

Definition synthesize_snapshot (inst : LoopInstance) : list Value :=
  (if bool_decide (li_state inst = Running) && (0 <? li_current_iter inst)
   then [iter_started_frame (li_id inst) (li_current_iter inst)] else [])
  ++ (match li_last_body_output inst with
      | Some body => [chunk_frame Body (li_id inst) (li_current_iter inst) body] | None => [] end)
  ++ (match li_last_verify_output inst with
      | Some verify => [chunk_frame Verify (li_id inst) (li_current_iter inst) verify] | None => [] end)
  ++ (if is_terminal (li_state inst) then [terminal_frame (li_id inst) (li_state inst)] else []).
