(* ===== verification/LoopService.v ===== *)
(** * The loop service (src/src/daemon/execution/loop_instance/mod.rs, store.rs)

    Requests and controllers run as concurrent tasks over one service.  A task is
    a program of atomic actions, one per lock the code takes or file operation it
    makes: between any two of them every other task may run.  The scheduler picks
    the task to advance, decides which file operations fail, submits requests and
    restarts the daemon at any point; files and the invocations already made
    survive a restart, memory does not. *)

From stdpp Require Import pretty.
From Stdlib Require Import String Ascii.
From S2P Require Import Prelude RustStd Text Ura Json Programs LoopLedger.

Open Scope Z_scope.

(** ** State *)

(** The service; [ls_store] says whether the store is bound, a stream is its
    history, a subscription only reads. *)
Record LoopService := mk_LoopService {
  ls_cache : gmap string LoopInstance;
  ls_cache_poisoned : bool;
  ls_tenant : option string;
  ls_store : bool;
  ls_streams : gmap string (list Value);
  ls_running : gset string;
  ls_driver : bool;
}.

Definition new_service : LoopService := mk_LoopService ∅ false None false ∅ ∅ false.

(** The arguments of [LoopInvocationDriver::invoke]. *)
Record Call := mk_Call {
  call_loop : string;
  call_iter : Z;
  call_worker_agent : string;
  call_authority : DeferredInvocationAuthority;
  call_prompt : string;
  call_kind : LoopInvocationKind;
  call_causal : LoopCausalContext;
}.

(** The process with its service, the files of the store's directory, the
    invocations made so far, and what the daemon said about failed bindings. *)
Record World := mk_World {
  w_svc : LoopService;
  w_files : gmap string string;
  w_calls : list Call;
  w_bind_failures : list error;
}.

Definition on_svc (f : LoopService → LoopService) (w : World) : World :=
  mk_World (f (w_svc w)) (w_files w) (w_calls w) (w_bind_failures w).
Definition on_files (f : gmap string string → gmap string string) (w : World) : World :=
  mk_World (w_svc w) (f (w_files w)) (w_calls w) (w_bind_failures w).
Definition add_call (c : Call) (w : World) : World :=
  mk_World (w_svc w) (w_files w) (w_calls w ++ [c]) (w_bind_failures w).
Definition add_bind_failure (e : error) (w : World) : World :=
  mk_World (w_svc w) (w_files w) (w_calls w) (w_bind_failures w ++ [e]).

Definition w_cache (w : World) : gmap string LoopInstance := ls_cache (w_svc w).

Definition set_cache (c : gmap string LoopInstance) (s : LoopService) : LoopService :=
  mk_LoopService c (ls_cache_poisoned s) (ls_tenant s) (ls_store s) (ls_streams s) (ls_running s) (ls_driver s).
Definition poison (s : LoopService) : LoopService :=
  mk_LoopService (ls_cache s) true (ls_tenant s) (ls_store s) (ls_streams s) (ls_running s) (ls_driver s).
Definition set_bound (t : string) (s : LoopService) : LoopService :=
  mk_LoopService (ls_cache s) (ls_cache_poisoned s) (Some t) true (ls_streams s) (ls_running s) (ls_driver s).
Definition set_streams (m : gmap string (list Value)) (s : LoopService) : LoopService :=
  mk_LoopService (ls_cache s) (ls_cache_poisoned s) (ls_tenant s) (ls_store s) m (ls_running s) (ls_driver s).
Definition set_running (r : gset string) (s : LoopService) : LoopService :=
  mk_LoopService (ls_cache s) (ls_cache_poisoned s) (ls_tenant s) (ls_store s) (ls_streams s) r (ls_driver s).
Definition set_driver (s : LoopService) : LoopService :=
  mk_LoopService (ls_cache s) (ls_cache_poisoned s) (ls_tenant s) (ls_store s) (ls_streams s) (ls_running s) true.

(** ** Programs *)

Notation Prog := (Programs.Prog World).
Notation prog := (Programs.prog World).

#[global] Instance World_files : Files World := {| get_files := w_files; map_files := on_files |}.

Definition modify_svc (f : LoopService → LoopService) : prog unit := locked (λ w, (on_svc f w, Ok tt)).

(** ** Files *)

Definition SCHEMA_VERSION : Z := 1.

(** serde of [OnDisk]: the schema version and the instance. *)
Class LoopCodec := {
  on_disk_text : Z → LoopInstance → result string string;
  on_disk_parse : string → result string (Z * LoopInstance);
}.
(** What is written reads back, and a text that is cut off does not parse. *)
Class LoopCodecLaws `{LoopCodec} : Prop := {
  on_disk_roundtrip v i s : on_disk_text v i = Ok s → on_disk_parse s = Ok (v, i);
  on_disk_truncated v i s n : on_disk_text v i = Ok s → (n < String.length s)%nat →
    ∃ e, on_disk_parse (String.substring 0 n s) = Err e;
}.

Section service.
Context `{!UraLib, !SerdeJson, !Hex, !LoopCodec}.
Context (answer : Call → result error LoopInvocationOutcome).

(** [LoopStore::save] and [LoopStore::load_all]. *)
Definition save (i : LoopInstance) : prog unit :=
  body ← lift (map_err (λ e, [e]) (on_disk_text SCHEMA_VERSION i));
  _ ← fs_write (tmp_path (li_id i)) body;
  fs_rename (tmp_path (li_id i)) (final_path (li_id i)).

Definition load_file (out : list LoopInstance) (f : string * string) : result error (list LoopInstance) :=
  let '(path, body) := f in
  if bool_decide (extension path = Some "json") then
    '(version, i) ← with_context ("parse loop record " +:+ path) (on_disk_parse body);
    _ ← ensure (version =? SCHEMA_VERSION)
          ["loop record " +:+ path +:+ " schema_version " +:+ u32_display version +:+ " is not supported by this runtime"];
    Ok (out ++ [i])
  else Ok out.
Definition load_all (files : gmap string string) : result error (list LoopInstance) :=
  try_fold load_file [] (map_to_list files).

(** ** The service *)

Definition CACHE_POISONED : string := "LoopService cache lock poisoned".
Definition not_found (id : string) : error := ["loop " +:+ id +:+ " not found"].

(** A read of the cache. *)
Definition read_cache {A} (f : gmap string LoopInstance → A) : prog A :=
  locked (λ w, (w, if ls_cache_poisoned (w_svc w) then bail CACHE_POISONED else Ok (f (w_cache w)))).

Definition status (id : string) : prog (option LoopInstance) := read_cache (lookup id).

(** [list]: the values in the order of their keys. *)
Definition instances (c : gmap string LoopInstance) : list LoopInstance := btree_values c.
Definition list_loops : prog (list LoopInstance) := read_cache instances.

Definition ensure_stream_entry (id : string) : prog unit :=
  modify_svc (λ s, set_streams (match ls_streams s !! id with Some _ => ls_streams s | None => <[id := []]> (ls_streams s) end) s).

Definition persist_instance (i : LoopInstance) : prog unit :=
  bound ← locked (λ w, (w, Ok (ls_store (w_svc w))));
  if bound : bool then save i else mret tt.

(** [mutate] with an [update] that may panic, and so poison the cache. *)
Definition try_mutate (id : string) (update : LoopInstance → option LoopInstance) : prog LoopInstance :=
  updated ← locked_panic (λ w,
    if ls_cache_poisoned (w_svc w) then (w, Some (bail "cache lock poisoned")) else
    match w_cache w !! id with
    | None => (w, Some (Err (not_found id)))
    | Some i =>
        match update i with
        | Some i' => (on_svc (set_cache (<[id := i']> (w_cache w))) w, Some (Ok i'))
        | None => (on_svc poison w, None)
        end
    end);
  _ ← persist_instance updated;
  mret updated.
Definition mutate (id : string) (update : LoopInstance → LoopInstance) : prog LoopInstance :=
  try_mutate id (λ i, Some (update i)).

Definition record_frame (id : string) (frame : Value) : prog unit :=
  _ ← ensure_stream_entry id;
  locked (λ w,
    match ls_streams (w_svc w) !! id with
    | None => (w, bail ("loop stream " +:+ id +:+ " not found"))
    | Some history => (on_svc (set_streams (<[id := history ++ [frame]]> (ls_streams (w_svc w)))) w, Ok tt)
    end).

Definition record_terminal (id : string) (state : LoopState) : prog unit :=
  i ← mutate id (set_state state);
  record_frame id (terminal_frame id (li_state i)).

Definition is_cancelled (id : string) : prog bool :=
  o ← status id;
  mret (match o with Some i => bool_decide (li_state i = Cancelled) | None => false end).

Definition update (id : string) (new_state : LoopState) (new_iter : Z) : prog unit :=
  _ ← mutate id (λ i, set_iter new_iter (set_state new_state i)); mret tt.

(** ** The ledger *)

Definition reserve_loop_invocation (id : string) (iter : Z) (kind : LoopInvocationKind)
    (parent : option LoopInvocationRecord) : prog unit :=
  o ← status id;
  i ← lift (ok_or o (not_found id));
  _ ← lift (ensure (negb (existsb (has_key iter kind) (li_invocation_ledger i)))
        ["loop " +:+ id +:+ " already has a " +:+ kind_str kind +:+ " record for iter " +:+ u32_display iter]);
  _ ← mutate id (λ s, set_ledger (li_invocation_ledger s ++ [reserved_record iter kind parent]) s);
  mret tt.

Definition update_reserved_loop_invocation (id : string) (iter : Z) (kind : LoopInvocationKind)
    (upd : LoopInvocationRecord → LoopInvocationRecord) : prog unit :=
  o ← status id;
  i ← lift (ok_or o (not_found id));
  record ← lift (ok_or (rfind (has_key iter kind) (li_invocation_ledger i))
    ["loop " +:+ id +:+ " has no " +:+ kind_str kind +:+ " reservation for iter " +:+ u32_display iter]);
  _ ← lift (ensure (bool_decide (lr_state record = Reserved))
        ["loop " +:+ id +:+ " " +:+ kind_str kind +:+ " iter " +:+ u32_display iter +:+ " cannot transition from "
         +:+ record_state_debug (lr_state record)]);
  _ ← try_mutate id (λ s,
        l ← rfind_update (has_key iter kind) upd (li_invocation_ledger s); Some (set_ledger l s));
  mret tt.

Definition complete_loop_invocation (id : string) (iter : Z) (kind : LoopInvocationKind) (o : LoopInvocationOutcome) : prog unit :=
  update_reserved_loop_invocation id iter kind (completed_record o).
Definition fail_loop_invocation (id : string) (iter : Z) (kind : LoopInvocationKind) (error : string) : prog unit :=
  update_reserved_loop_invocation id iter kind (failed_record error).

(** ** The controller *)

(** What one round of the [loop] of [drive_loop] ends with. *)
Inductive Flow := Continue | Return.

(** [invoke_blocking]: the invocation is made, and some time later it answers,
    or its task could not be joined. *)
Definition invoke_blocking (c : Call) : prog LoopInvocationOutcome :=
  _ ← locked (λ w, (add_call c w, Ok tt));
  Act (λ io w,
    (w, match io with
        | None => answer c
        | Some (e, _) => bail ("loop " +:+ call_loop c +:+ " " +:+ kind_str (call_kind c) +:+ " iter "
                               +:+ u32_display (call_iter c) +:+ " join error: " +:+ e)
        end)) Ret.

(** The invocation the ledger calls for: iteration, kind and prompt; or the end
    of the loop. *)
Definition next_invocation (id : string) (inst : LoopInstance) : prog (option (Z * LoopInvocationKind * string)) :=
  match last (li_invocation_ledger inst) with
  | None => mret (Some (1, Body, li_body_prompt inst))
  | Some record =>
      match lr_kind record with
      | Body =>
          body_output ← lift (ok_or (lr_output record) ["completed loop body record is missing output"]);
          mret (Some (lr_iter record, Verify, render_verify_prompt (li_verify_expr inst) (lr_iter record) body_output))
      | Verify =>
          verify_output ← lift (ok_or (lr_output record) ["completed loop verify record is missing output"]);
          match parse_verify_done verify_output with
          | Err error =>
              _ ← mutate id (set_output Verify (verify_output +:+ " | parse error: " +:+ display_head error));
              _ ← record_terminal id VerifyMalformed;
              mret None
          | Ok passed =>
              _ ← record_frame id (iter_finished_frame id (lr_iter record) passed);
              if passed then _ ← record_terminal id Done; mret None
              else if li_max_iters inst <=? lr_iter record then _ ← record_terminal id Exhausted; mret None
              else mret (Some (u32_next (lr_iter record), Body, li_body_prompt inst))
          end
      end
  end.

(** The invocation, from the check for a cancellation to its outcome. *)
Definition run_invocation (id : string) (inst : LoopInstance) (iter : Z) (kind : LoopInvocationKind) (prompt : string) : prog Flow :=
  let parent := last (li_invocation_ledger inst) in
  cancelled ← is_cancelled id;
  if cancelled : bool then mret Return else
  _ ← (if bool_decide (kind = Body) then
         _ ← mutate id (λ s, set_iter iter (set_state Running s));
         record_frame id (iter_started_frame id iter)
       else mret tt);
  causal_context ← lift (loop_causal_context parent);
  _ ← reserve_loop_invocation id iter kind parent;
  r ← attempt (invoke_blocking
        (mk_Call id iter (li_worker_agent inst) (li_authority inst) prompt kind causal_context));
  match r with
  | Ok outcome =>
      _ ← complete_loop_invocation id iter kind outcome;
      _ ← mutate id (set_output kind (lo_output outcome));
      _ ← record_frame id (outcome_frame kind id iter outcome);
      mret Continue
  | Err error =>
      let detail := "[" +:+ kind_str kind +:+ "_error] " +:+ display_alt error in
      _ ← fail_loop_invocation id iter kind detail;
      _ ← mutate id (set_output kind detail);
      _ ← record_frame id (chunk_frame kind id iter detail);
      _ ← record_terminal id Failed;
      mret Return
  end.

Definition ambiguous (record : LoopInvocationRecord) : string :=
  "loop restart found ambiguous reserved " +:+ kind_str (lr_kind record) +:+ " invocation at iter "
  +:+ u32_display (lr_iter record) +:+ "; refusing duplicate dispatch".

(** One round of [drive_loop]. *)
Definition drive_round (id : string) : prog Flow :=
  o ← status id;
  inst ← lift (ok_or o ["loop " +:+ id +:+ " vanished"]);
  if is_terminal (li_state inst) then mret Return else
  match last (li_invocation_ledger inst) with
  | Some record =>
      match lr_state record with
      | Reserved =>
          let error := ambiguous record in
          _ ← fail_loop_invocation id (lr_iter record) (lr_kind record) error;
          _ ← mutate id (set_output Verify error);
          _ ← record_terminal id Failed;
          mret Return
      | RecFailed => _ ← record_terminal id Failed; mret Return
      | Completed =>
          n ← next_invocation id inst;
          match n with
          | None => mret Return
          | Some (iter, kind, prompt) => run_invocation id inst iter kind prompt
          end
      end
  | None =>
      n ← next_invocation id inst;
      match n with
      | None => mret Return
      | Some (iter, kind, prompt) => run_invocation id inst iter kind prompt
      end
  end.

(** What the spawned task does after [drive_loop]. *)
Definition after_drive (id : string) (r : result error Flow) : prog unit :=
  _ ← match r with
      | Ok _ => mret tt
      | Err e =>
          let detail := display_alt e in
          s ← attempt (status id);
          match s with
          | Ok (Some inst) =>
              if is_terminal (li_state inst) then mret tt
              else
                let iter := li_current_iter inst in
                _ ← attempt (mutate id (λ i, set_output Verify detail (set_state Failed i)));
                _ ← attempt (record_frame id (chunk_frame Verify id iter detail));
                _ ← attempt (record_terminal id Failed);
                mret tt
          | _ => mret tt
          end
      end;
  modify_svc (λ s, set_running (ls_running s ∖ {[id]}) s).

(** The insertion into the running set and the task itself are [Spawn]; the callers are
    tasks of the daemon's runtime, so the handle of the runtime is always there. *)
Definition start_controller (id : string) : prog unit :=
  driver ← locked (λ w, (w, Ok (ls_driver (w_svc w))));
  if negb driver then mret tt else
  o ← status id;
  inst ← lift (ok_or o (not_found id));
  if is_terminal (li_state inst) then mret tt
  else Spawn id (λ _, Ret (Ok tt)).

(** ** Operations *)

Definition install_driver : prog unit := modify_svc set_driver.

(** [bind] of the service, after [LoopStore::open]: the locks on the cache and
    the streams are held to the end, and what is inserted before a record is
    refused stays. *)
Definition bind_one (s : LoopService) (i : LoopInstance) : LoopService * result error unit :=
  match validate_loop_authority (li_worker_agent i) (li_authority i) with
  | Err e => (s, Err e)
  | Ok _ =>
      match validate_loop_invocation_ledger i with
      | Err e => (s, Err e)
      | Ok _ =>
          let streams := match ls_streams s !! li_id i with
                         | Some _ => ls_streams s | None => <[li_id i := []]> (ls_streams s) end in
          (set_cache (<[li_id i := i]> (ls_cache s)) (set_streams streams s), Ok tt)
      end
  end.
Fixpoint bind_loaded (s : LoopService) (l : list LoopInstance) : LoopService * result error unit :=
  match l with
  | [] => (s, Ok tt)
  | i :: l => match bind_one s i with (s', Ok _) => bind_loaded s' l | (s', Err e) => (s', Err e) end
  end.
Definition bind (tenant : string) : prog unit :=
  loaded ← Act (λ io w, (w, match io with None => load_all (w_files w) | Some (e, _) => Err [e] end)) Ret;
  locked (λ w,
    if ls_cache_poisoned (w_svc w) then (w, bail CACHE_POISONED) else
    match bind_loaded (w_svc w) loaded with
    | (s, Ok _) => (on_svc (λ _, set_bound tenant s) w, Ok tt)
    | (s, Err e) => (on_svc (λ _, s) w, Err e)
    end).

(** [create]; [uuid] is the fresh identifier. *)
Definition new_instance (uuid tenant worker_agent : string) (authority : DeferredInvocationAuthority)
    (verify_expr : string) (max_iters : Z) (body_prompt : string) : LoopInstance :=
  mk_Instance ("loop-" +:+ uuid) tenant worker_agent authority verify_expr body_prompt max_iters 0 Pending [] None None.
Definition create (uuid worker_agent : string) (authority : DeferredInvocationAuthority) (verify_expr : string)
    (max_iters : Z) (body_prompt : string) : prog string :=
  _ ← lift (ensure (negb (max_iters =? 0)) ["loop.create: max_iters must be ≥ 1"]);
  _ ← lift (validate_loop_authority worker_agent authority);
  tenant ← locked (λ w, (w, ok_or (ls_tenant (w_svc w)) ["LoopService is not bound to a runtime tenant"]));
  let i := new_instance uuid tenant worker_agent authority verify_expr max_iters body_prompt in
  _ ← ensure_stream_entry (li_id i);
  _ ← persist_instance i;
  _ ← locked (λ w,
        if ls_cache_poisoned (w_svc w) then (w, bail "cache lock poisoned")
        else (on_svc (set_cache (<[li_id i := i]> (w_cache w))) w, Ok tt));
  _ ← start_controller (li_id i);
  mret (li_id i).

Definition start_all (ids : list string) : prog unit := foldr (λ id p, _ ← start_controller id; p) (mret tt) ids.

Definition resume_inflight : prog unit :=
  l ← list_loops;
  start_all (li_id <$> filter (λ i, li_state i = Pending ∨ li_state i = Running) l).

Definition status_for_accountable_user (id user : string) : prog (option LoopInstance) :=
  _ ← lift (validate_accountable_user_scope user);
  o ← status id;
  match o with
  | None => mret None
  | Some i =>
      if bool_decide (da_accountable_user_ura (li_authority i) = user) then mret (Some i)
      else lift (bail ("loop " +:+ id +:+ " is not owned by accountable User " +:+ user))
  end.

(** [cancel]: a loop that is not over becomes cancelled. *)
Definition cancelled_instance (i : LoopInstance) : LoopInstance * bool :=
  match li_state i with Pending | Running => (set_state Cancelled i, true) | _ => (i, false) end.
Definition cancel (id : string) : prog unit :=
  '(updated, emit_terminal) ← locked (λ w,
    if ls_cache_poisoned (w_svc w) then (w, bail "cache lock poisoned") else
    match w_cache w !! id with
    | None => (w, Err (not_found id))
    | Some i =>
        let u := cancelled_instance i in (on_svc (set_cache (<[id := u.1]> (w_cache w))) w, Ok u)
    end);
  _ ← persist_instance updated;
  if emit_terminal : bool then record_frame id (terminal_frame id Cancelled) else mret tt.

Definition cancel_for_accountable_user (id user : string) : prog unit :=
  o ← status_for_accountable_user id user;
  _ ← lift (ok_or o (not_found id));
  cancel id.

(** [subscribe]: the frames so far and whether more will come. *)
Definition subscribe (id : string) : prog (list Value * bool) :=
  o ← status id;
  inst ← lift (ok_or o (not_found id));
  _ ← ensure_stream_entry id;
  history ← locked (λ w, (w, ok_or (ls_streams (w_svc w) !! id) ["loop stream " +:+ id +:+ " not found"]));
  let snapshot := match history with [] => synthesize_snapshot inst | _ => history end in
  mret (snapshot, negb (is_terminal (li_state inst))).

Definition subscribe_for_accountable_user (id user : string) : prog (list Value * bool) :=
  o ← status_for_accountable_user id user;
  _ ← lift (ok_or o (not_found id));
  subscribe id.

(** The part of the daemon's start that concerns loops (bin/easynet-daemon.rs):
    failures are reported and the start goes on. *)
Definition boot (tenant : string) (has_identity : bool) : prog unit :=
  r ← attempt (bind tenant);
  _ ← (match r with
       | Ok _ => mret tt
       | Err e => locked (λ w, (add_bind_failure e w, Ok tt))
       end);
  if has_identity then
    _ ← attempt install_driver;
    _ ← attempt resume_inflight;
    mret tt
  else mret tt.

(** ** Tasks *)

Inductive LoopRequest :=
| ReqCreate (uuid worker_agent : string) (authority : DeferredInvocationAuthority) (verify_expr : string)
    (max_iters : Z) (body_prompt : string)
| ReqStatus (id user : string)
| ReqSubscribe (id user : string)
| ReqCancel (id user : string)
| ReqKernelCancel (id : string).

Definition discard {A} (m : prog A) : prog unit := _ ← m; mret tt.

Definition serve (r : LoopRequest) : prog unit :=
  match r with
  | ReqCreate uuid worker a expr n prompt => discard (create uuid worker a expr n prompt)
  | ReqStatus id user => discard (status_for_accountable_user id user)
  | ReqSubscribe id user => discard (subscribe_for_accountable_user id user)
  | ReqCancel id user => cancel_for_accountable_user id user
  | ReqKernelCancel id => cancel id
  end.

(** A controller drives its loop, then cleans up. *)
Inductive Task :=
| Driving (id : string) (p : prog Flow)
| Ending (id : string) (p : prog unit)
| Serving (p : prog unit).

Record Config := mk_Config {
  cf_world : World;
  cf_tasks : list Task;
}.

(** One action of a program: the world, what is left, and the controller it
    started. *)
Definition step_prog {A} (io : option io_failure) (p : Prog A) (w : World) : World * Prog A * list Task :=
  match p with
  | Act act k => let '(w', x) := act io w in (w', k x, [])
  | Spawn id k =>
      if bool_decide (id ∈ ls_running (w_svc w)) then (w, k false, [])
      else (on_svc (λ s, set_running ({[id]} ∪ ls_running s) s) w, k true, [Driving id (drive_round id)])
  | p => (w, p, [])
  end.

Definition step_task (io : option io_failure) (t : Task) (w : World) : World * Task * list Task :=
  match t with
  | Driving id (Ret (Ok Continue)) => (w, Driving id (drive_round id), [])
  | Driving id (Ret r) => (w, Ending id (after_drive id r), [])
  | Driving id p => let '(w', p', ts) := step_prog io p w in (w', Driving id p', ts)
  | Ending id p => let '(w', p', ts) := step_prog io p w in (w', Ending id p', ts)
  | Serving p => let '(w', p', ts) := step_prog io p w in (w', Serving p', ts)
  end.

(** What the scheduler chooses. *)
Inductive Choice :=
| Advance (n : nat) (io : option io_failure)
| Submit (r : LoopRequest)
| Restart (tenant : string) (has_identity : bool).

Definition step (c : Config) (ch : Choice) : Config :=
  let w := cf_world c in
  match ch with
  | Advance n io =>
      match cf_tasks c !! n with
      | None => c
      | Some t => let '(w', t', ts) := step_task io t w in mk_Config w' (<[n := t']> (cf_tasks c) ++ ts)
      end
  | Submit r => mk_Config w (cf_tasks c ++ [Serving (serve r)])
  | Restart tenant has_identity =>
      mk_Config (on_svc (λ _, new_service) w) [Serving (boot tenant has_identity)]
  end.

Definition run (c : Config) (l : list Choice) : Config := foldl step c l.

(** No process has run yet and the directory is empty. *)
Definition initial : Config := mk_Config (mk_World new_service ∅ [] []) [].
End service.
