(* ===== verification/LoopSafe.v ===== *)
(** * Loops: the invariant and rely-guarantee reasoning

    What every task may assume of the others and promises them, and a predicate
    on programs, by recursion on their actions, that says each action keeps the
    invariant of the service and the promises of its task. *)

From Stdlib Require Import String Ascii.
From S2P Require Import Prelude RustStd Text Ura Json Programs LoopLedger LoopService.

Open Scope Z_scope.

(** ** Ledgers that validate *)

Section chain.
Context `{!Hex}.

(** What the validation asks of a record after [previous]. *)
Definition next_ok (id : string) (previous : option LoopInvocationRecord) (r : LoopInvocationRecord) : Prop :=
  lr_kind r = expected_kind previous ∧ lr_iter r = expected_iter previous ∧
  lr_causal_parent_receipt_ura r = previous ≫= lr_receipt_ura ∧ record_facts id r = Ok tt.

Definition completed (l : list LoopInvocationRecord) : Prop := Forall (λ r, lr_state r = Completed) l.

Definition last_from (p : option LoopInvocationRecord) (l : list LoopInvocationRecord) : option LoopInvocationRecord :=
  match last l with Some r => Some r | None => p end.

Lemma last_from_cons p r l : last_from p (r :: l) = last_from (Some r) l.
Proof. unfold last_from. rewrite last_cons. by destruct (last l). Qed.

Lemma validate_records_cons id p r l q :
  validate_records id p (r :: l) = Ok q ↔
    next_ok id p r ∧ (lr_state r = Completed ∨ l = []) ∧ validate_records id (Some r) l = Ok q.
Proof.
  unfold next_ok. cbn [validate_records]. split.
  - intros Hv. inv_ok. rewrite andb_true_iff, bool_decide_eq_true, Z.eqb_eq in *.
    rewrite orb_true_iff, !bool_decide_eq_true in *. naive_solver.
  - intros ((Hk & Hi & Hc & Hf) & Hs & Hv).
    rewrite (bool_decide_true (lr_kind r = _)), (proj2 (Z.eqb_eq _ _) Hi), (bool_decide_true (lr_causal_parent_receipt_ura r = _)) by done.
    cbn. rewrite Hf. cbn.
    assert (bool_decide (lr_state r = Completed) || bool_decide (l = []) = true) as ->
      by (rewrite orb_true_iff, !bool_decide_eq_true; done).
    done.
Qed.

(** A ledger validates with one more record exactly when the others are complete
    and the record fits the last of them. *)
Lemma validate_records_snoc id p l r q :
  validate_records id p (l ++ [r]) = Ok q ↔
    q = Some r ∧ completed l ∧ validate_records id p l = Ok (last_from p l) ∧ next_ok id (last_from p l) r.
Proof.
  revert p. induction l as [|x l IH]; intros p.
  - cbn [app]. rewrite validate_records_cons. cbn. unfold completed. rewrite Forall_nil. naive_solver.
  - cbn [app]. rewrite !validate_records_cons, IH, last_from_cons. unfold completed. rewrite Forall_cons.
    split; [|naive_solver]. intros (? & [?|Hnil] & ?); [naive_solver|].
    by destruct l.
Qed.

Lemma validate_records_last id p l q : validate_records id p l = Ok q → q = last_from p l.
Proof.
  destruct l as [|r l _] using rev_ind; cbn; [by intros [= ->]|].
  rewrite validate_records_snoc. unfold last_from. rewrite last_snoc. naive_solver.
Qed.
End chain.

Lemma has_key_spec iter kind r : has_key iter kind r = true ↔ record_key r = (iter, kind).
Proof.
  unfold has_key, record_key. rewrite andb_true_iff, Z.eqb_eq, bool_decide_eq_true. split; [naive_solver|].
  intros [= -> ->]. done.
Qed.

Lemma rfind_last {A} (p : A → bool) l x : p x = true → rfind p (l ++ [x]) = Some x.
Proof. intros Hx. induction l as [|y l IH]; cbn; [by rewrite Hx|by rewrite IH]. Qed.
Lemma rfind_update_last {A} (p : A → bool) f l x :
  p x = true → rfind_update p f (l ++ [x]) = Some (l ++ [f x]).
Proof. intros Hx. induction l as [|y l IH]; cbn; [by rewrite Hx|by rewrite IH]. Qed.

(** ** Calls and instances *)

Definition call_key (c : Call) : Z * LoopInvocationKind := (call_iter c, call_kind c).
Definition calls_of (id : string) (w : World) : list Call := filter (λ c, call_loop c = id) (w_calls w).
Definition keys (i : LoopInstance) : list (Z * LoopInvocationKind) := record_key <$> li_invocation_ledger i.

(** What [create] fixes of an instance. *)
Definition base (i : LoopInstance) :=
  (li_id i, li_tenant i, li_worker_agent i, li_authority i, li_verify_expr i, li_body_prompt i, li_max_iters i).

Section inv.
Context `{!UraLib, !SerdeJson, !Hex, !LoopCodec}.
Context (answer : Call → result error LoopInvocationOutcome) (choices : list Choice).

(** The instance was asked for by a request of the run that passed the checks of
    [create]. *)
Definition requested (i : LoopInstance) : Prop :=
  ∃ uuid tenant worker a expr n prompt,
    Submit (ReqCreate uuid worker a expr n prompt) ∈ choices ∧ n ≠ 0 ∧ validate_loop_authority worker a = Ok tt ∧
    base i = base (new_instance uuid tenant worker a expr n prompt).

(** The invocation that precedes a call, and what it must have answered. *)
Definition follows (i : LoopInstance) (C : list Call) (c : Call) : Prop :=
  match call_kind c with
  | Body =>
      call_prompt c = li_body_prompt i ∧
      ((call_iter c = 1 ∧ call_causal c = CausalNone) ∨
       ∃ c' o, c' ∈ C ∧ call_key c' = (call_iter c - 1, Verify) ∧ answer c' = Ok o ∧
         parse_verify_done (lo_output o) = Ok false ∧ call_causal c = CausalScalar (lo_receipt_hash o) (lo_receipt_ura o))
  | Verify =>
      ∃ c' o, c' ∈ C ∧ call_key c' = (call_iter c, Body) ∧ answer c' = Ok o ∧
        call_prompt c = render_verify_prompt (li_verify_expr i) (call_iter c) (lo_output o) ∧
        call_causal c = CausalScalar (lo_receipt_hash o) (lo_receipt_ura o)
  end.

(** A call to a loop that was asked for, to its worker, on its authority, within
    its iterations and after the invocation it depends on. *)
Definition justified (C : list Call) (c : Call) : Prop :=
  ∃ i, requested i ∧ call_loop c = li_id i ∧ call_worker_agent c = li_worker_agent i ∧
    call_authority c = li_authority i ∧ 1 ≤ call_iter c ≤ li_max_iters i ∧ follows i C c.

(** Iterations of the ledger stay within the limit, and the current one is the
    last of the ledger or, between its announcement and its reservation, the
    next. *)
Definition last_iter (i : LoopInstance) : Z :=
  match last (li_invocation_ledger i) with Some r => lr_iter r | None => 0 end.
Definition announced (i : LoopInstance) : Prop :=
  li_current_iter i = last_iter i + 1 ∧ last_iter i < li_max_iters i ∧
  expected_kind (last (li_invocation_ledger i)) = Body ∧ completed (li_invocation_ledger i).
Definition well_formed (i : LoopInstance) : Prop :=
  validate_records (li_id i) None (li_invocation_ledger i) = Ok (last (li_invocation_ledger i)) ∧
  Forall (λ r, 1 ≤ lr_iter r ≤ li_max_iters i) (li_invocation_ledger i) ∧
  (li_current_iter i = last_iter i ∨ announced i).

(** Completed records are what calls answered. *)
Definition truthful (C : list Call) (i : LoopInstance) : Prop :=
  Forall (λ r, lr_state r = Completed →
    ∃ c o r0, c ∈ C ∧ call_key c = record_key r ∧ answer c = Ok o ∧ r = completed_record o r0)
    (li_invocation_ledger i).

(** All calls are on the ledger. *)
Definition recorded (C : list Call) (i : LoopInstance) : Prop := Forall (λ c, call_key c ∈ keys i) C.

(** An instance in memory or on disk, where [C] are the calls made for it: one
    that is over need not have them all. *)
Definition instance_ok (C : list Call) (i : LoopInstance) : Prop :=
  requested i ∧ well_formed i ∧ truthful C i ∧ (is_terminal (li_state i) = true ∨ recorded C i).

Definition file_ok (w : World) (path body : string) : Prop :=
  ∀ v i, on_disk_parse body = Ok (v, i) →
    (path = final_path (li_id i) ∨ path = tmp_path (li_id i)) ∧ instance_ok (calls_of (li_id i) w) i.

Record Inv (w : World) : Prop := {
  inv_once : NoDup ((λ c, (call_loop c, call_key c)) <$> w_calls w);
  inv_calls : Forall (λ c, justified (calls_of (call_loop c) w) c) (w_calls w);
  inv_cache : ∀ id i, w_cache w !! id = Some i → li_id i = id ∧ instance_ok (calls_of id w) i;
  inv_files : ∀ path body, w_files w !! path = Some body → file_ok w path body;
  inv_store : ls_driver (w_svc w) = true → ls_store (w_svc w) = true;
}.

(** ** Rely and guarantee *)

(** The calls of a loop in memory are all on its ledger. *)
Definition full (w : World) (id : string) : Prop :=
  ∃ i, w_cache w !! id = Some i ∧ recorded (calls_of id w) i.

(** Nothing of a loop exists. *)
Definition fresh (w : World) (id : string) : Prop :=
  w_cache w !! id = None ∧ w_files w !! tmp_path id = None ∧ w_files w !! final_path id = None ∧ calls_of id w = [].

Definition unbound (w : World) : Prop := ls_tenant (w_svc w) = None ∧ w_cache w = ∅.

(** A text that no restart resumes. *)
Definition harmless (o : option string) : Prop :=
  ∀ body, o = Some body → ∀ v i, on_disk_parse body = Ok (v, i) → is_terminal (li_state i) = true.

(** What other tasks do to a loop: nothing while it does not exist, nothing
    while it is being created, and to one in memory no more than to change its
    state and to put terminal texts in its files. *)
Record weak (id : string) (w w' : World) : Prop := {
  weak_fresh : fresh w id → fresh w' id;
  weak_creating : is_Some (ls_tenant (w_svc w)) → w_cache w !! id = None → calls_of id w = [] →
    w_cache w' !! id = None ∧ calls_of id w' = [];
  weak_state i : w_cache w !! id = Some i → ∃ s, w_cache w' !! id = Some (set_state s i);
  weak_calls i : w_cache w !! id = Some i → calls_of id w' = calls_of id w;
  weak_tmp i : w_cache w !! id = Some i →
    w_files w' !! tmp_path id = w_files w !! tmp_path id ∨ harmless (w_files w' !! tmp_path id);
  weak_final i : w_cache w !! id = Some i →
    w_files w' !! final_path id = w_files w !! final_path id ∨ w_files w' !! final_path id = w_files w !! tmp_path id ∨
    harmless (w_files w' !! final_path id);
  weak_running : id ∈ ls_running (w_svc w) → id ∈ ls_running (w_svc w');
}.

(** What all tasks keep. *)
Record common (w w' : World) : Prop := {
  common_store : ls_store (w_svc w) = true → ls_store (w_svc w') = true;
  common_tenant : is_Some (ls_tenant (w_svc w)) → is_Some (ls_tenant (w_svc w'));
  common_driver : ls_driver (w_svc w) = true → ls_driver (w_svc w') = true;
  common_full id : full w id → full w' id;
  common_cached id : is_Some (w_cache w !! id) → is_Some (w_cache w' !! id);
  common_calls : w_calls w ⊆ w_calls w';
}.

(** Who a task is: the controller of a loop, its creator, the start of the
    daemon, or none of them. *)
Inductive Role := Control (id : string) | Creator (id : string) | Boot | Client.

#[global] Instance Role_eq_dec : EqDecision Role.
Proof. solve_decision. Defined.

Definition owned (o : Role) : option string := match o with Control id | Creator id => Some id | _ => None end.

Definition role_ok (o : Role) (w : World) : Prop :=
  match o with
  | Control id => id ∈ ls_running (w_svc w) ∧ ls_store (w_svc w) = true ∧ full w id
  | Creator id => fresh w id ∨ (is_Some (ls_tenant (w_svc w)) ∧ w_cache w !! id = None ∧ calls_of id w = [])
  | Boot => unbound w
  | Client => True
  end.

Definition guar (o : Role) (w w' : World) : Prop :=
  common w w' ∧ (∀ id, owned o ≠ Some id → weak id w w') ∧
  (o ≠ Boot → unbound w → unbound w' ∧ w_files w' = w_files w ∧ w_calls w' = w_calls w).

Definition rely (o : Role) (w w' : World) : Prop :=
  common w w' ∧ (∀ id, owned o = Some id → weak id w w') ∧
  (o = Boot → unbound w → unbound w' ∧ w_files w' = w_files w ∧ w_calls w' = w_calls w).

(** The world a task finds when it runs again. *)
Definition env (o : Role) (w w1 : World) : Prop :=
  rely o w w1 ∧ Inv w1 ∧ role_ok o w1 ∧ w_bind_failures w1 = [].

(** The world an action leaves: the task keeps its role or becomes a client. *)
Definition leaves (o o' : Role) (w1 w2 : World) : Prop :=
  Inv w2 ∧ guar o w1 w2 ∧ (o' = o ∨ o' = Client) ∧ role_ok o' w2.

Fixpoint safe {A} (p : Prog A) (Q : Role → A → World → Prop) (o : Role) (w : World) : Prop :=
  match p with
  | Ret a => ∀ w1, env o w w1 → Q o a w1
  | Panic => True
  | Act act k => ∀ io w1, env o w w1 → w_bind_failures (act io w1).1 = [] →
      ∃ o', leaves o o' w1 (act io w1).1 ∧ safe (k (act io w1).2) Q o' (act io w1).1
  | Spawn id k => ∀ w1, env o w w1 → full w1 id ∧ ls_store (w_svc w1) = true ∧ ∀ b, safe (k b) Q o w1
  end.

(** ** Laws *)

Lemma common_refl w : common w w.
Proof. by constructor. Qed.
Lemma common_trans w1 w2 w3 : common w1 w2 → common w2 w3 → common w1 w3.
Proof. intros [] []. constructor; eauto. by etrans. Qed.

Lemma weak_refl id w : weak id w w.
Proof. constructor; eauto. intros i Hi. exists (li_state i). rewrite Hi. by destruct i. Qed.

Lemma weak_trans id w1 w2 w3 : common w1 w2 → weak id w1 w2 → weak id w2 w3 → weak id w1 w3.
Proof.
  intros Hc A B. constructor.
  - intros. by apply B, A.
  - intros Ht Hn Hcs. destruct (weak_creating _ _ _ A Ht Hn Hcs). apply B; [by apply Hc|done..].
  - intros i Hi. destruct (weak_state _ _ _ A i Hi) as (s & Hs). destruct (weak_state _ _ _ B _ Hs) as (s' & Hs').
    by exists s'.
  - intros i Hi. destruct (weak_state _ _ _ A i Hi) as (s & Hs).
    by rewrite (weak_calls _ _ _ B _ Hs), (weak_calls _ _ _ A _ Hi).
  - intros i Hi. destruct (weak_state _ _ _ A i Hi) as (s & Hs).
    destruct (weak_tmp _ _ _ B _ Hs) as [->|?]; [|by right]. by eapply weak_tmp.
  - intros i Hi. destruct (weak_state _ _ _ A i Hi) as (s & Hs).
    destruct (weak_final _ _ _ B _ Hs) as [->|[->|?]]; [by eapply weak_final| |by right; right].
    destruct (weak_tmp _ _ _ A _ Hi) as [->|?]; [by right; left|by right; right].
  - intros. by apply B, A.
Qed.

Lemma rely_refl o w : rely o w w.
Proof. split_and!; [apply common_refl|intros; apply weak_refl|done]. Qed.
Lemma rely_trans o w1 w2 w3 : rely o w1 w2 → rely o w2 w3 → rely o w1 w3.
Proof.
  intros (C1 & W1 & U1) (C2 & W2 & U2). split_and!.
  - by eapply common_trans.
  - intros id Hid. eapply weak_trans; eauto.
  - intros Ho Hu. destruct (U1 Ho Hu) as (Hu1 & <- & <-). eauto.
Qed.

(** Two tasks may run together: they do not own the same loop, and one start is
    enough. *)
Definition compatible (o o' : Role) : Prop :=
  (∀ id, owned o = Some id → owned o' ≠ Some id) ∧ ¬ (o = Boot ∧ o' = Boot).

Lemma guar_rely o o' w w' : compatible o o' → guar o w w' → rely o' w w'.
Proof.
  intros [Hid Hb] (C & W & U). split_and!; [done| |].
  - intros id Hid'. apply W. intros Ho. by eapply Hid.
  - intros ->. apply U. naive_solver.
Qed.

Lemma role_ok_rely o w w' : rely o w w' → role_ok o w → role_ok o w'.
Proof.
  intros (C & W & U). destruct o as [id|id| |]; cbn.
  - intros (Hr & Hs & Hf). split_and!; [by eapply weak_running; [apply W|]|by apply C|by apply C].
  - specialize (W id eq_refl). intros [Hf|(Ht & Hn & Hc)]; [left; by apply W|right].
    destruct (weak_creating _ _ _ W Ht Hn Hc). split_and!; [by apply C|done..].
  - intros Hu. by apply U.
  - done.
Qed.

Lemma env_rely o w w1 w2 : rely o w w1 → env o w1 w2 → env o w w2.
Proof. intros R (R' & ? & ? & ?). split_and!; [by eapply rely_trans|done..]. Qed.

Lemma safe_rely {A} (p : Prog A) Q o w w' : rely o w w' → safe p Q o w → safe p Q o w'.
Proof.
  intros R. destruct p; cbn; [intros Hs w1 E; by apply Hs; eapply env_rely|done| |].
  - intros Hs io w1 E Hb. apply Hs; [by eapply env_rely|done].
  - intros Hs w1 E. apply Hs. by eapply env_rely.
Qed.

(** [P] in every world the task may find. *)
Definition holds (o : Role) (w : World) (P : World → Prop) : Prop := ∀ w1, env o w w1 → P w1.

Lemma env_holds o w w1 : env o w w1 → env o w1 w1.
Proof. intros (_ & ? & ? & ?). split_and!; [apply rely_refl|done..]. Qed.

Lemma safe_bind {A B} (p : Prog A) (f : A → Prog B) Q R o w :
  safe p Q o w → (∀ o' a w', holds o' w' (Q o' a) → safe (f a) R o' w') → safe (prog_bind p f) R o w.
Proof.
  intros Hp Hf. revert o w Hp. induction p as [a| |X act k IH|id k IH]; intros o w Hp; cbn in *; [by apply Hf|done| |].
  - intros io w1 E Hb. destruct (Hp io w1 E Hb) as (o' & L & Hk). exists o'. split; [done|]. by apply IH.
  - intros w1 E. destruct (Hp w1 E) as (? & ? & Hk). split_and!; [done..|]. intros b. by apply IH.
Qed.

(** To reason about a program is to reason about it in the worlds its task may
    find. *)
Lemma safe_env {A} (p : Prog A) Q o w : (∀ w1, env o w w1 → safe p Q o w1) → safe p Q o w.
Proof.
  intros Hs. destruct p as [a| |X act k|id k]; cbn in *; [|done| |].
  - intros w1 E. apply (Hs w1 E). by eapply env_holds.
  - intros io w1 E. apply (Hs w1 E). by eapply env_holds.
  - intros w1 E. apply (Hs w1 E). by eapply env_holds.
Qed.

Lemma safe_mono {A} (p : Prog A) (Q R : Role → A → World → Prop) o w :
  safe p Q o w → (∀ o' a w', Q o' a w' → R o' a w') → safe p R o w.
Proof.
  intros Hp HQ. revert o w Hp. induction p as [a| |X act k IH|id k IH]; intros o w Hp; cbn in *; [|done| |].
  - intros w1 E. by apply HQ, Hp.
  - intros io w1 E Hb. destruct (Hp io w1 E Hb) as (o' & L & Hk). exists o'. split; [done|]. by apply IH.
  - intros w1 E. destruct (Hp w1 E) as (? & ? & Hk). split_and!; [done..|]. intros b. by apply IH.
Qed.

(** A client stays one. *)
Lemma safe_client {A} (p : Prog A) Q w : safe p Q Client w → safe p (λ o a w', o = Client ∧ Q o a w') Client w.
Proof.
  revert w. induction p as [a| |X act k IH|id k IH]; intros w Hp; cbn in *; [|done| |].
  - intros w1 E. split; [done|by apply Hp].
  - intros io w1 E Hb. destruct (Hp io w1 E Hb) as (o' & L & Hk). exists o'. split; [done|].
    destruct L as (_ & _ & [-> | ->] & _); by apply IH.
  - intros w1 E. destruct (Hp w1 E) as (? & ? & Hk). split_and!; [done..|]. intros b. by apply IH.
Qed.

(** Programs with [?]: the next step runs after an [Ok]. *)
Lemma safe_try {A B} (p : prog A) (f : A → prog B) Q R o w :
  safe p Q o w →
  (∀ o' a w', env o' w' w' → Q o' (Ok a) w' → safe (f a) R o' w') →
  (∀ o' e w', Q o' (Err e) w' → R o' (Err e) w') →
  safe (p ≫= f) R o w.
Proof.
  intros Hp Hok Herr. eapply safe_bind; [exact Hp|]. intros o' [a|e] w' HQ.
  - apply safe_env. intros w1 E. apply Hok; [by eapply env_holds|by apply HQ].
  - intros w1 E1. by apply Herr, HQ.
Qed.
End inv.
