(* ===== verification/LoopActions.v ===== *)
(** * Loops: the actions of the service under interference, and the controller

    Each action of the programs of LoopService.v keeps the invariant and the
    promises of the task that makes it; from the actions follow specifications of
    the operations on one loop, of which a controller knows everything but the
    state.  The controller of a loop is the only task that changes its ledger:
    each step of a round leads from one sound instance to the next. *)

From Stdlib Require Import String Ascii.
From S2P Require Import Prelude RustStd Text Ura Json Programs LoopLedger LoopService LoopSafe.

Open Scope Z_scope.

(** ** Paths *)

Lemma str_app_inj_r s t u : s +:+ u = t +:+ u → s = t.
Proof.
  revert t. induction s as [|c s IH]; intros [|d t] Heq; [done|..].
  - exfalso. apply (f_equal String.length) in Heq. rewrite !str_length_app in Heq. cbn in Heq. lia.
  - exfalso. apply (f_equal String.length) in Heq. rewrite !str_length_app in Heq. cbn in Heq. lia.
  - injection Heq as -> Heq. by rewrite (IH t).
Qed.

Lemma str_app_inj_l s t u : u +:+ s = u +:+ t → s = t.
Proof. induction u as [|c u IH]; [done|]. intros Heq. injection Heq as Heq. by apply IH. Qed.

Lemma final_path_inj id id' : final_path id = final_path id' → id = id'.
Proof. apply str_app_inj_r. Qed.
Lemma tmp_path_inj id id' : tmp_path id = tmp_path id' → id = id'.
Proof. apply str_app_inj_r. Qed.

(** The last character of a text. *)
Fixpoint last_char (s : string) : option ascii :=
  match s with EmptyString => None | String c EmptyString => Some c | String _ s => last_char s end.
Lemma last_char_app s c t : last_char (s +:+ String c t) = last_char (String c t).
Proof.
  induction s as [|d s IH]; [done|]. rewrite str_app_cons. rewrite <- IH. by destruct s.
Qed.
Lemma tmp_final_path id id' : tmp_path id ≠ final_path id'.
Proof. intros Heq. apply (f_equal last_char) in Heq. unfold tmp_path, final_path in Heq. by rewrite !last_char_app in Heq. Qed.

Lemma sub_app {A} (l k : list A) : l ⊆ l ++ k.
Proof. intros x Hx. apply elem_of_app. by left. Qed.

Section actions.
Context `{!UraLib, !SerdeJson, !Hex, !LoopCodec, !LoopCodecLaws}.
Context (answer : Call → result error LoopInvocationOutcome) (choices : list Choice).
Notation Inv := (Inv answer choices).
Notation instance_ok := (instance_ok answer choices).
Notation file_ok := (file_ok answer choices).
Notation env := (env answer choices).
Notation holds := (holds answer choices).
Notation leaves := (leaves answer choices).
Notation safe := (safe answer choices).

(** ** Frames *)

(** Two worlds with the same data of a loop. *)
Definition same_at (id : string) (w w' : World) : Prop :=
  w_cache w' !! id = w_cache w !! id ∧ w_files w' !! tmp_path id = w_files w !! tmp_path id ∧
  w_files w' !! final_path id = w_files w !! final_path id ∧ calls_of id w' = calls_of id w ∧
  (id ∈ ls_running (w_svc w) → id ∈ ls_running (w_svc w')).

Lemma same_at_weak id w w' : same_at id w w' → weak id w w'.
Proof.
  intros (Hc & Ht & Hf & Hcs & Hr). constructor; [|intros; by rewrite Hc, Hcs| |done|intros; by left|intros; by left|done].
  - unfold fresh. by rewrite Hc, Ht, Hf, Hcs.
  - intros i Hi. exists (li_state i). rewrite Hc, Hi. by destruct i.
Qed.

Lemma same_at_full id w w' : same_at id w w' → full w id → full w' id.
Proof. unfold full. by intros (-> & _ & _ & -> & _). Qed.

(** The settings of the service only grow. *)
Definition settled (w w' : World) : Prop :=
  (ls_store (w_svc w) = true → ls_store (w_svc w') = true) ∧
  (is_Some (ls_tenant (w_svc w)) → is_Some (ls_tenant (w_svc w'))) ∧
  (ls_driver (w_svc w) = true → ls_driver (w_svc w') = true) ∧ w_calls w ⊆ w_calls w'.

Lemma common_at id w w' :
  settled w w' → (∀ id', id' ≠ id → same_at id' w w') → (full w id → full w' id) →
  (is_Some (w_cache w !! id) → is_Some (w_cache w' !! id)) → common w w'.
Proof.
  intros (? & ? & ? & ?) Hs Hf Hc. constructor; [done..| | |done].
  - intros id'. destruct (decide (id' = id)) as [->|Hne]; [done|]. by apply same_at_full, Hs.
  - intros id'. destruct (decide (id' = id)) as [->|Hne]; [done|]. by destruct (Hs _ Hne) as (-> & _).
Qed.

(** A change to one loop. *)
Lemma guar_at id o w w' :
  settled w w' → (∀ id', id' ≠ id → same_at id' w w') → (full w id → full w' id) →
  (is_Some (w_cache w !! id) → is_Some (w_cache w' !! id)) →
  owned o = Some id ∨ weak id w w' → ¬ unbound w → guar o w w'.
Proof.
  intros Hset Hs Hf Hc Hown Hu. split_and!; [by eapply common_at| |done].
  intros id' Hid'. destruct (decide (id' = id)) as [->|Hne]; [naive_solver|]. by apply same_at_weak, Hs.
Qed.

(** ** Actions that change no loop *)

Lemma guar_same o w w' : settled w w' → (∀ id, same_at id w w') →
  ls_tenant (w_svc w') = ls_tenant (w_svc w) → w_cache w' = w_cache w → w_files w' = w_files w →
  w_calls w' = w_calls w → guar o w w'.
Proof.
  intros Hset Hs Ht Hc Hf Hcs. split_and!.
  - eapply (common_at EmptyString); [done|done|by apply same_at_full|]. by rewrite Hc.
  - intros. by apply same_at_weak.
  - intros _ [Hn He]. split_and!; [split; congruence|done..].
Qed.

Lemma leaves_same o w : env o w w → leaves o o w w.
Proof.
  intros (_ & HI & Hr & _). split_and!; [done| |by left|done].
  apply guar_same; done.
Qed.

(** [quiet f]: only streams, or the flag of the driver, change. *)
Definition quiet (f : LoopService → LoopService) : Prop :=
  ∀ s, ls_cache (f s) = ls_cache s ∧ ls_tenant (f s) = ls_tenant s ∧ ls_store (f s) = ls_store s ∧
       ls_running (f s) = ls_running s ∧ (ls_driver s = true → ls_driver (f s) = true).

Lemma quiet_streams g : quiet (λ s, set_streams (g s) s).
Proof. intros s. by split_and!. Qed.

Lemma leaves_quiet o f w : env o w w → quiet f →
  (ls_driver (f (w_svc w)) = true → ls_store (w_svc w) = true) → leaves o o w (on_svc f w).
Proof.
  intros (_ & HI & Hr & _) Hq Hd. destruct (Hq (w_svc w)) as (Hc & Ht & Hs & Hrun & Hdr).
  assert (w_cache (on_svc f w) = w_cache w) as Hcache by done.
  split_and!; [|apply guar_same; try done| by left|].
  - destruct HI. constructor; try done; [by rewrite Hcache|]. cbn. rewrite Hs. exact Hd.
  - split_and!; cbn; [by rewrite Hs|by rewrite Ht|done|done].
  - intros id. split_and!; try done; [by rewrite Hcache|]. cbn. by rewrite Hrun.
  - destruct o; cbn in *; unfold full, fresh, unbound in *; cbn; rewrite ?Hcache, ?Ht, ?Hs, ?Hrun; done.
Qed.

(** A controller that ends gives up its loop. *)
Lemma leaves_finish id w : env (Control id) w w →
  leaves (Control id) Client w (on_svc (λ s, set_running (ls_running s ∖ {[id]}) s) w).
Proof.
  intros (_ & HI & Hr & _). split_and!; [by destruct HI| |by right|done].
  split_and!; [by constructor| |done]. intros id' Hid'. apply same_at_weak. split_and!; try done.
  cbn. intros ?. apply elem_of_difference. split; [done|]. intros ->%elem_of_singleton. by apply Hid'.
Qed.

(** ** Changes to the cache *)

Definition put (id : string) (i : LoopInstance) (w : World) : World := on_svc (set_cache (<[id := i]> (w_cache w))) w.

Lemma put_cache id i w : w_cache (put id i w) = <[id := i]> (w_cache w).
Proof. done. Qed.
Lemma put_same_at id i w id' : id' ≠ id → same_at id' w (put id i w).
Proof. intros Hne. split_and!; try done. by rewrite put_cache, lookup_insert_ne. Qed.

Lemma Inv_put id i w : Inv w → li_id i = id → instance_ok (calls_of id w) i → Inv (put id i w).
Proof.
  intros [] Hid Hi. constructor; try done. intros id' i'. rewrite put_cache.
  destruct (decide (id' = id)) as [->|Hne].
  - rewrite lookup_insert_eq. by intros [= <-].
  - rewrite lookup_insert_ne by done. apply inv_cache.
Qed.

(** What is known of a loop in memory, up to its state. *)
Lemma unbound_cached w id i : w_cache w !! id = Some i → ¬ unbound w.
Proof. intros Hi [_ Hu]. by rewrite Hu, lookup_empty in Hi. Qed.

Lemma leaves_put o id i i' w :
  env o w w → w_cache w !! id = Some i → li_id i' = id → instance_ok (calls_of id w) i' →
  (recorded (calls_of id w) i → recorded (calls_of id w) i') →
  owned o = Some id ∨ (∃ s, i' = set_state s i) → leaves o o w (put id i' w).
Proof.
  intros (_ & HI & Hr & _) Hi Hid Hok Hrec Hown.
  assert (full w id → full (put id i' w) id) as Hfull.
  { intros (i0 & Hi0 & Hf). exists i'. rewrite put_cache, lookup_insert_eq. split; [done|]. apply Hrec. congruence. }
  assert (∀ id', is_Some (w_cache w !! id') → is_Some (w_cache (put id i' w) !! id')) as Hsome.
  { intros id'. rewrite put_cache, lookup_insert_is_Some'. by right. }
  split_and!; [by apply Inv_put| |by left|].
  - apply (guar_at id); [done|by apply put_same_at|exact Hfull|exact (Hsome id)| |by eapply unbound_cached].
    destruct Hown as [?|(s & ->)]; [by left|right]. constructor; try done.
    + intros (Hn & _). congruence.
    + intros. congruence.
    + intros i0 Hi0. exists s. rewrite put_cache, lookup_insert_eq. congruence.
    + intros. by left.
    + intros. by left.
  - destruct o as [id'|id'| |]; cbn in *; [| | |done].
    + destruct Hr as (? & ? & Hf). split_and!; [done..|]. destruct (decide (id' = id)) as [->|Hne]; [by apply Hfull|].
      by eapply same_at_full; [apply put_same_at|].
    + assert (id' ≠ id) as Hne by (intros ->; destruct Hr as [[? _]|(_ & ? & _)]; congruence).
      unfold fresh in *. rewrite put_cache, lookup_insert_ne by done. done.
    + by destruct (unbound_cached _ _ _ Hi).
Qed.

(** ** Changes to files *)

Lemma calls_of_files f id w : calls_of id (on_files f w) = calls_of id w.
Proof. done. Qed.

(** Who may write the files of a loop: its owner, and others on one in memory. *)
Definition may_write (o : Role) (id : string) (w : World) : Prop :=
  ¬ unbound w ∧ (o = Creator id → is_Some (ls_tenant (w_svc w))) ∧ (owned o = Some id ∨ is_Some (w_cache w !! id)).

(** A change to the files of one loop. *)
Lemma leaves_files o id f w :
  env o w w → may_write o id w →
  (∀ path, path ≠ tmp_path id → path ≠ final_path id → f (w_files w) !! path = w_files w !! path) →
  (∀ path body, f (w_files w) !! path = Some body → file_ok w path body) →
  owned o = Some id ∨
    ((f (w_files w) !! tmp_path id = w_files w !! tmp_path id ∨ harmless (f (w_files w) !! tmp_path id)) ∧
     (f (w_files w) !! final_path id = w_files w !! final_path id ∨
      f (w_files w) !! final_path id = w_files w !! tmp_path id)) →
  leaves o o w (on_files f w).
Proof.
  intros (_ & HI & Hr & _) (Hu & Ht & Hid) Hout Hok Hown.
  assert (∀ id', id' ≠ id → same_at id' w (on_files f w)) as Hsame.
  { intros id' Hne. split_and!; try done; cbn; apply Hout.
    - by intros ?%tmp_path_inj.
    - apply tmp_final_path.
    - intros Heq. by destruct (tmp_final_path id id').
    - by intros ?%final_path_inj. }
  split_and!; [| |by left|].
  - destruct HI. by constructor.
  - apply (guar_at id); try done. destruct Hown as [?|[Htmp Hfin]]; [by left|]. destruct Hid as [?|[i Hi]]; [by left|right].
    constructor; try done; [intros (Hn & _); congruence|intros i0 Hi0; exists (li_state i0)|].
    + change (w_cache w !! id = Some (set_state (li_state i0) i0)). rewrite Hi0. by destruct i0.
    + intros _ _. cbn. tauto.
  - destruct o as [id'|id'| |]; cbn in *; [done| |done..].
    destruct (decide (id' = id)) as [->|Hne].
    + right. split; [by apply Ht|]. destruct Hr as [(? & _ & _ & ?)|(_ & ? & ?)]; done.
    + destruct (Hsame id' Hne) as (_ & Hs1 & Hs2 & _). cbn in Hs1, Hs2. unfold fresh in *. cbn. by rewrite Hs1, Hs2.
Qed.

Lemma leaves_write o id body w :
  env o w w → may_write o id w → file_ok w (tmp_path id) body → owned o = Some id ∨ harmless (Some body) →
  leaves o o w (on_files <[tmp_path id := body]> w).
Proof.
  intros E Hw Hok Hown. apply (leaves_files o id); [done..| | |].
  - intros path Hne _. by rewrite lookup_insert_ne.
  - intros path body'. destruct (decide (path = tmp_path id)) as [->|Hne].
    + rewrite lookup_insert_eq. by intros [= <-].
    + rewrite lookup_insert_ne by done. apply E.
  - destruct Hown as [?|Hh]; [by left|right]. rewrite lookup_insert_eq, lookup_insert_ne by apply tmp_final_path.
    split; [by right|by left].
Qed.

Lemma leaves_rename o id body w :
  env o w w → may_write o id w → w_files w !! tmp_path id = Some body →
  leaves o o w (on_files (λ m, <[final_path id := body]> (delete (tmp_path id) m)) w).
Proof.
  intros E Hw Hb. apply (leaves_files o id); [done..| | |].
  - intros path Hne Hne'. by rewrite lookup_insert_ne, lookup_delete_ne.
  - intros path body'. destruct (decide (path = final_path id)) as [->|Hne].
    + rewrite lookup_insert_eq. intros [= <-] v i Hp. destruct E as (_ & HI & _).
      destruct (inv_files _ _ _ HI _ _ Hb v i Hp) as [[Heq|Heq] Hi]; [by destruct (tmp_final_path _ _ Heq)|].
      split; [|done]. left. by apply tmp_path_inj in Heq as ->.
    + rewrite lookup_insert_ne by done. intros [Hne' Hb']%lookup_delete_Some. by apply E.
  - right. rewrite lookup_insert_eq, lookup_insert_ne, lookup_delete_eq by (intros Heq; by destruct (tmp_final_path id id)).
    split; [by right|]. by right.
Qed.

(** ** Calls *)

Lemma calls_of_add id c w : calls_of id (add_call c w) = calls_of id w ++ (if bool_decide (call_loop c = id) then [c] else []).
Proof. unfold calls_of. cbn. rewrite filter_app. cbn. f_equal. unfold filter, list_filter. by repeat case_decide. Qed.

Lemma follows_mono i C C' c : C ⊆ C' → follows answer i C c → follows answer i C' c.
Proof. unfold follows. intros Hs. destruct (call_kind c); naive_solver. Qed.
Lemma justified_mono C C' c : C ⊆ C' → justified answer choices C c → justified answer choices C' c.
Proof. intros Hs (i & ? & ? & ? & ? & ? & Hf). exists i. do 5 (split; [done|]). by eapply follows_mono. Qed.
Lemma truthful_mono C C' i : C ⊆ C' → truthful answer C i → truthful answer C' i.
Proof. intros Hs Ht. eapply Forall_impl; [exact Ht|]. naive_solver. Qed.

Lemma instance_ok_add C c i : instance_ok C i → is_terminal (li_state i) = true ∨ call_key c ∈ keys i → instance_ok (C ++ [c]) i.
Proof.
  intros (Hr & Hw & Ht & Hrec) Hc. split_and!; [done..| |].
  - eapply truthful_mono; [apply sub_app|done].
  - destruct Hc as [?|Hc]; [by left|]. destruct Hrec as [?|Hrec]; [by left|right].
    apply Forall_app; split; [done|by repeat constructor].
Qed.

(** Every file of the loop is over or has the key. *)
Definition durable (k : Z * LoopInvocationKind) (o : option string) : Prop :=
  ∀ body, o = Some body → ∀ v i, on_disk_parse body = Ok (v, i) →
    is_terminal (li_state i) = true ∨ k ∈ keys i.

Lemma leaves_call id c i w :
  env (Control id) w w → call_loop c = id → call_key c ∉ (call_key <$> calls_of id w) →
  justified answer choices (calls_of id w) c → w_cache w !! id = Some i → call_key c ∈ keys i →
  durable (call_key c) (w_files w !! tmp_path id) → durable (call_key c) (w_files w !! final_path id) →
  leaves (Control id) (Control id) w (add_call c w).
Proof.
  intros (_ & HI & Hr & _) Hid Hnew Hj Hi Hk Dt Df.
  assert (calls_of id (add_call c w) = calls_of id w ++ [c]) as Hcs by (by rewrite calls_of_add, bool_decide_true).
  assert (∀ id', id' ≠ id → calls_of id' (add_call c w) = calls_of id' w) as Hcs'.
  { intros id' Hne. rewrite calls_of_add, bool_decide_false by congruence. apply app_nil_r. }
  assert (full w id → full (add_call c w) id) as Hfull.
  { intros (i0 & Hi0 & Hrec). exists i0. rewrite Hcs. split; [done|]. apply Forall_app; split; [done|].
    repeat constructor. change (w_cache w !! id = Some i0) in Hi0. congruence. }
  split_and!; [| |by left|].
  - constructor; [| | | |by destruct HI].
    + change (w_calls (add_call c w)) with (w_calls w ++ [c]). rewrite fmap_app. apply NoDup_app. split_and!; [by apply HI| |by apply NoDup_singleton].
      intros x Hx Hx'. apply list_elem_of_singleton in Hx' as ->. apply list_elem_of_fmap in Hx as (c' & Heq & Hc').
      apply pair_equal_spec in Heq as [Hl Hkey]. apply Hnew. apply list_elem_of_fmap. exists c'.
      split; [done|]. apply list_elem_of_filter. split; [congruence|done].
    + change (w_calls (add_call c w)) with (w_calls w ++ [c]). apply Forall_app; split.
      * eapply Forall_impl; [by apply HI|]. intros c' Hc'. eapply justified_mono; [|exact Hc']. rewrite calls_of_add. apply sub_app.
      * repeat constructor. rewrite Hid, Hcs. eapply justified_mono; [apply sub_app|done].
    + intros id' i' Hi'. destruct (inv_cache _ _ _ HI _ _ Hi') as [Hid' Hok']. split; [done|].
      destruct (decide (id' = id)) as [->|Hne]; [|by rewrite Hcs'].
      rewrite Hcs. apply instance_ok_add; [done|]. right. change (w_cache w !! id = Some i') in Hi'. congruence.
    + intros path body Hb v i' Hp. destruct (inv_files _ _ _ HI _ _ Hb v i' Hp) as [Hpath Hok']. split; [done|].
      destruct (decide (li_id i' = id)) as [Heq|Hne]; [|by rewrite Hcs'].
      rewrite Heq, Hcs in *. apply instance_ok_add; [done|]. cbn in Hb.
      destruct Hpath as [->| ->]; [by eapply Df|by eapply Dt].
  - apply (guar_at id); [split_and!; try done; apply sub_app| |exact Hfull|done|by left|by eapply unbound_cached].
    intros id' Hne. split_and!; try done. by apply Hcs'.
  - destruct Hr as (? & ? & ?). split_and!; [done..|]. by apply Hfull.
Qed.

(** ** Creation *)

Lemma leaves_create id i w :
  env (Creator id) w w → is_Some (ls_tenant (w_svc w)) → li_id i = id → instance_ok [] i →
  leaves (Creator id) Client w (put id i w).
Proof.
  intros (_ & HI & Hr & _) Ht Hid Hok.
  assert (w_cache w !! id = None ∧ calls_of id w = []) as [Hn Hc] by (destruct Hr as [(? & _ & _ & ?)|(_ & ? & ?)]; done).
  split_and!; [|apply (guar_at id)|by right|done].
  - apply Inv_put; [done..|by rewrite Hc].
  - done.
  - by apply put_same_at.
  - intros (i0 & Hi0 & _). congruence.
  - rewrite Hn. by intros [].
  - by left.
  - intros [Hnone _]. rewrite Hnone in Ht. by destruct Ht.
Qed.

(** ** Binding *)

Lemma bind_loaded_spec s l s' r : bind_loaded s l = (s', r) →
  (∀ id i, ls_cache s' !! id = Some i → ls_cache s !! id = Some i ∨ (i ∈ l ∧ li_id i = id)) ∧
  ls_tenant s' = ls_tenant s ∧ ls_store s' = ls_store s ∧ ls_running s' = ls_running s ∧ ls_driver s' = ls_driver s.
Proof.
  revert s. induction l as [|i l IH]; cbn [bind_loaded]; intros s; [intros [= <- <-]; naive_solver|].
  unfold bind_one. destruct (validate_loop_authority _ _) as [u|e]; [|intros [= <- <-]; naive_solver].
  destruct (validate_loop_invocation_ledger i) as [u'|e]; [|intros [= <- <-]; naive_solver].
  intros Hb. apply IH in Hb as (Hc & ? & ? & ? & ?). split_and!; [|done..].
  intros id i0 Hi0. destruct (Hc id i0 Hi0) as [Hs|[? ?]]; [|right; split; [by right|done]].
  cbn in Hs. apply lookup_insert_Some in Hs as [[<- <-]|[_ Hs]]; [right; split; [left|done]|by left].
Qed.

Lemma load_all_spec files l i : load_all files = Ok l → i ∈ l →
  ∃ path body v, files !! path = Some body ∧ on_disk_parse body = Ok (v, i).
Proof.
  unfold load_all. intros Hl. revert i.
  refine (try_fold_inv (λ out, ∀ i, i ∈ out → ∃ path body v, files !! path = Some body ∧ on_disk_parse body = Ok (v, i))
            _ _ _ _ _ _ Hl); [|by intros i ?%not_elem_of_nil].
  intros out [path body] out' Hin%elem_of_map_to_list Hout Hf i Hi. unfold load_file in Hf.
  destruct (bool_decide _); [|injection Hf as <-; by apply Hout].
  apply bind_Ok in Hf as ([v i'] & Hp & Hf). inv_ok. unfold with_context in Hp. inv_ok.
  apply elem_of_app in Hi as [Hi|Hi%list_elem_of_singleton]; [by apply Hout|]. subst. by exists path, body, v.
Qed.

Lemma leaves_bind w s' :
  env Boot w w →
  (∀ id i, ls_cache s' !! id = Some i → li_id i = id ∧ ∃ path body v, w_files w !! path = Some body ∧ on_disk_parse body = Ok (v, i)) →
  ls_running s' = ls_running (w_svc w) →
  (ls_driver (w_svc w) = true → ls_driver s' = true) → (ls_driver s' = true → ls_store s' = true) →
  (ls_store (w_svc w) = true → ls_store s' = true) →
  leaves Boot Client w (on_svc (λ _, s') w).
Proof.
  intros (_ & HI & [Hn He] & _) Hs Hrun Hd1 Hd2 Hst.
  assert (∀ id, w_cache w !! id = None) as Hnone by (intros id; by rewrite He, lookup_empty).
  split_and!; [| |by right|done].
  - destruct HI. constructor; try done. intros id i Hi. destruct (Hs id i Hi) as (Hid & path & body & v & Hb & Hp).
    split; [done|]. destruct (inv_files _ _ Hb v i Hp) as [_ Hok]. by rewrite Hid in Hok.
  - split_and!; [constructor; try done| |done].
    + cbn. rewrite Hn. by intros [].
    + intros id (i & Hi & _). by rewrite Hnone in Hi.
    + intros id. rewrite Hnone. by intros [].
    + intros id _. constructor; try (intros; by rewrite Hnone in * ).
      * intros (_ & Ht & Hf & Hc). split_and!; try done. change (ls_cache s' !! id = None).
        destruct (ls_cache s' !! id) as [i|] eqn:Hi; [|done]. destruct (Hs id i Hi) as (Hid & path & body & v & Hb & Hp).
        destruct (inv_files _ _ _ HI _ _ Hb v i Hp) as [[->| ->] _]; congruence.
      * rewrite Hn. by intros [].
      * cbn. by rewrite Hrun.
Qed.
End actions.

(** ** The controller *)

(** What the contract of a driver says of an outcome. *)
Definition outcome_wf (o : LoopInvocationOutcome) : Prop :=
  lo_invocation_id o ≠ EmptyString ∧ lo_receipt_ura o ≠ EmptyString ∧ String.length (lo_receipt_hash o) = 32%nat.

(** Requests whose counts are [u32]s. *)
Definition u32_requests (choices : list Choice) : Prop :=
  ∀ uuid worker a expr n prompt, Submit (ReqCreate uuid worker a expr n prompt) ∈ choices → 0 ≤ n ≤ u32_max.

#[local] Set Default Proof Using "All".

Section control.
Context `{!UraLib, !SerdeJson, !Hex, !LoopCodec, !LoopCodecLaws}.
Context (answer : Call → result error LoopInvocationOutcome) (choices : list Choice).
Notation env := (env answer choices).
Notation holds := (holds answer choices).
Notation leaves := (leaves answer choices).
Notation safe := (safe answer choices).
Notation requested := (requested choices).
Notation truthful := (truthful answer).

(** ** What the controller knows *)

(** The facts on an instance that do not depend on its state. *)
Definition sound (C : list Call) (i : LoopInstance) : Prop := requested i ∧ well_formed i ∧ truthful C i ∧ recorded C i.

Definition tracks (id : string) (j : LoopInstance) (C : list Call) (w : World) : Prop :=
  (∃ s, w_cache w !! id = Some (set_state s j)) ∧ calls_of id w = C ∧ li_id j = id ∧ sound C j.

Definition tracks_some (id : string) (w : World) : Prop := ∃ j C, tracks id j C w.

Lemma tracks_rely id j C w w' : tracks id j C w → rely (Control id) w w' → tracks id j C w'.
Proof.
  intros ([s Hs] & Hc & ? & ?) (_ & W & _). specialize (W id eq_refl). split_and!; [|by rewrite (weak_calls _ _ _ W _ Hs)|done..].
  destruct (weak_state _ _ _ W _ Hs) as [s' Hs']. by exists s'.
Qed.

Lemma tracks_holds id j C w : tracks id j C w → holds (Control id) w (tracks id j C).
Proof. intros Ht w1 (R & _). by eapply tracks_rely. Qed.

(** A controller tracks its loop. *)
Lemma control_tracks id w : env (Control id) w w → tracks_some id w.
Proof.
  intros (_ & HI & (_ & _ & i & Hi & Hrec) & _). destruct (inv_cache _ _ _ HI _ _ Hi) as (Hid & Hr & Hw & Ht & _).
  exists i, (calls_of id w). split_and!; try done. exists (li_state i). rewrite Hi. by destruct i.
Qed.

(** Specifications of the steps of a controller: on an error it still tracks its
    loop. *)
Definition ctl {A} (id : string) (P : A → World → Prop) : Role → result error A → World → Prop := λ o r w,
  o = Control id ∧ match r with Ok a => P a w | Err _ => tracks_some id w end.

Lemma ctl_ret {A} id (P : A → World → Prop) a w :
  holds (Control id) w (P a) → safe (mret a : prog A) (ctl id P) (Control id) w.
Proof. intros HP w1 E. split; [done|]. by apply HP. Qed.

Lemma ctl_lift {A} id (P : A → World → Prop) (r : result error A) w :
  (∀ a, r = Ok a → holds (Control id) w (P a)) → safe (lift r) (ctl id P) (Control id) w.
Proof.
  intros HP w1 E. split; [done|]. destruct r as [a|e]; [by eapply HP|]. eapply control_tracks, env_holds, E.
Qed.

Lemma ctl_try {A B} id (p : prog A) (f : A → prog B) (P : A → World → Prop) (R : B → World → Prop) w :
  safe p (ctl id P) (Control id) w →
  (∀ a w', env (Control id) w' w' → P a w' → safe (f a) (ctl id R) (Control id) w') →
  safe (p ≫= f) (ctl id R) (Control id) w.
Proof.
  intros Hp Hf. eapply safe_try; [exact Hp| |].
  - intros o a w' E [-> HP]. by apply Hf.
  - intros o e w' [-> Ht]. done.
Qed.

(** A step that computes. *)
Lemma ctl_lift_try {A B} id (r : result error A) (f : A → prog B) (R : B → World → Prop) w :
  (∀ a, r = Ok a → safe (f a) (ctl id R) (Control id) w) → safe (lift r ≫= f) (ctl id R) (Control id) w.
Proof.
  intros Hr. destruct r as [a|e]; [by apply Hr|]. intros w1 E. split; [done|]. eapply control_tracks, env_holds, E.
Qed.

Lemma ctl_mono {A} id (p : prog A) (P R : A → World → Prop) w :
  safe p (ctl id P) (Control id) w → (∀ a w', P a w' → R a w') → safe p (ctl id R) (Control id) w.
Proof. intros Hp HP. eapply safe_mono; [exact Hp|]. intros o [a|e] w' [-> ?]; (split; [done|]); [by apply HP|done]. Qed.

(** ** Reads and frames *)

Lemma safe_read {A} (f : World → result error A) Q o w :
  (∀ w1, env o w w1 → holds o w1 (Q o (f w1))) → safe (locked (λ w, (w, f w))) Q o w.
Proof. intros Hf io w1 E _. exists o. split; [by eapply leaves_same, env_holds|]. by apply Hf. Qed.

Lemma safe_quiet f Q o w : quiet f →
  (∀ w1, env o w w1 → ls_driver (f (w_svc w1)) = true → ls_store (w_svc w1) = true) →
  (∀ w1, env o w w1 → holds o (on_svc f w1) (Q o (Ok tt))) → safe (modify_svc f) Q o w.
Proof.
  intros Hf Hd HQ io w1 E _. exists o. split; [|by apply HQ].
  apply leaves_quiet; [by eapply env_holds|done|by apply Hd].
Qed.

Lemma env_driver o w w1 : env o w w1 → ls_driver (w_svc w1) = true → ls_store (w_svc w1) = true.
Proof. intros (_ & HI & _). apply HI. Qed.

Lemma tracks_svc id j C f w : (∀ s, ls_cache (f s) = ls_cache s) → tracks id j C w → tracks id j C (on_svc f w).
Proof. intros Hf ([s Hs] & ? & ? & ?). split_and!; try done. exists s. unfold w_cache. cbn. by rewrite Hf. Qed.

Lemma ctl_status id j C w : tracks id j C w →
  safe (status id) (ctl id (λ o w', tracks id j C w' ∧ ∃ s, o = Some (set_state s j))) (Control id) w.
Proof.
  intros Ht. apply safe_read. intros w1 E. assert (tracks id j C w1) as Ht1 by (by eapply tracks_holds).
  intros w2 E2. assert (tracks id j C w2) as Ht2 by (by eapply tracks_holds). split; [done|].
  destruct (ls_cache_poisoned _); [by exists j, C|]. split; [done|]. apply Ht1.
Qed.

Lemma ctl_ensure_stream id j C w : tracks id j C w →
  safe (ensure_stream_entry id) (ctl id (λ _, tracks id j C)) (Control id) w.
Proof.
  intros Ht. apply safe_quiet; [apply quiet_streams|intros w1 E; by eapply env_driver|].
  intros w1 E w2 E2. split; [done|]. eapply tracks_holds; [|exact E2].
  apply tracks_svc; [done|]. by eapply tracks_holds.
Qed.

Lemma ctl_frame id j C frame w : tracks id j C w →
  safe (record_frame id frame) (ctl id (λ _, tracks id j C)) (Control id) w.
Proof.
  intros Ht. eapply ctl_try; [by apply ctl_ensure_stream|]. cbn beta. intros _ w' E' Ht' io w1 E _. exists (Control id).
  assert (tracks id j C w1) as Ht1 by (by eapply tracks_holds). destruct (ls_streams (w_svc w1) !! id) as [h|]; cbn [fst snd].
  - split; [|intros w2 E2; split; [done|]; eapply tracks_holds; [|exact E2]; by apply tracks_svc].
    apply leaves_quiet; [by eapply env_holds|apply (quiet_streams (λ _, _))|by eapply env_driver].
  - split; [by eapply leaves_same, env_holds|]. intros w2 E2. split; [done|]. exists j, C. eapply tracks_holds; [exact Ht1|exact E2].
Qed.

(** ** Writing *)

(** The keys are in the files of the loop, unless these are over. *)
Definition saved (id : string) (ks : list (Z * LoopInvocationKind)) (w : World) : Prop :=
  ∀ k, k ∈ ks → durable k (w_files w !! tmp_path id) ∧ durable k (w_files w !! final_path id).

Lemma harmless_durable k o : harmless o → durable k o.
Proof. intros Hh body Hb v i Hp. left. by eapply Hh. Qed.

Lemma saved_rely id j C ks w w' : tracks id j C w → saved id ks w → rely (Control id) w w' → saved id ks w'.
Proof.
  intros ([s Hs] & _) Hk (_ & W & _) k Hin. specialize (W id eq_refl). destruct (Hk k Hin) as [Ht Hf].
  split.
  - destruct (weak_tmp _ _ _ W _ Hs) as [->|?]; [done|by apply harmless_durable].
  - destruct (weak_final _ _ _ W _ Hs) as [->|[->|?]]; [done..|by apply harmless_durable].
Qed.

Lemma tmp_rely id j C k w w' : tracks id j C w → durable k (w_files w !! tmp_path id) → rely (Control id) w w' →
  durable k (w_files w' !! tmp_path id).
Proof.
  intros ([s Hs] & _) Hk (_ & W & _). specialize (W id eq_refl).
  destruct (weak_tmp _ _ _ W _ Hs) as [->|?]; [done|by apply harmless_durable].
Qed.

Lemma control_writes id j C w : tracks id j C w → may_write (Control id) id w.
Proof. intros ([s Hs] & _). split_and!; [by eapply unbound_cached|done|by left]. Qed.

Lemma sound_instance_ok C i : sound C i → instance_ok answer choices C i.
Proof. intros (? & ? & ? & ?). split_and!; try done. by right. Qed.

Lemma sound_state C s i : sound C i → sound C (set_state s i).
Proof. done. Qed.

Lemma ctl_write id j C s body w : tracks id j C w → on_disk_text SCHEMA_VERSION (set_state s j) = Ok body →
  safe (fs_write (tmp_path id) body)
    (ctl id (λ _ w', tracks id j C w' ∧ ∀ k, k ∈ keys j → durable k (w_files w' !! tmp_path id))) (Control id) w.
Proof.
  intros Ht Htext io w1 E _. exists (Control id). assert (tracks id j C w1) as Ht1 by (by eapply tracks_holds).
  pose proof (control_writes _ _ _ _ Ht1) as Hw.
  destruct io as [[e n]|]; cbn [fst snd].
  - assert (∀ w2, tracks id j C w2 → holds (Control id) w2 (λ w3, ctl id (λ (_ : unit) w',
      tracks id j C w' ∧ ∀ k, k ∈ keys j → durable k (w_files w' !! tmp_path id)) (Control id) (Err [e]) w3)) as Herr.
    { intros w2 Ht2 w3 E3. split; [done|]. exists j, C. by eapply tracks_holds. }
    destruct (n <? String.length body)%nat eqn:Hn; [|split; [by eapply leaves_same, env_holds|by apply Herr]].
    apply Nat.ltb_lt in Hn. split; [|by apply Herr].
    apply leaves_write; [by eapply env_holds|done| |by left].
    intros v i Hp. destruct (on_disk_truncated _ _ _ _ Htext Hn) as [e' He']. congruence.
  - split.
    + apply leaves_write; [by eapply env_holds|done| |by left].
      intros v i Hp. rewrite (on_disk_roundtrip _ _ _ Htext) in Hp. injection Hp as <- <-.
      destruct Ht1 as (_ & Hc & Hid & Hs). cbn. rewrite Hid, Hc. split; [by right|]. by apply sound_instance_ok.
    + intros w2 E2. split; [done|]. split; [eapply tracks_holds; [|exact E2]; done|].
      intros k Hk. eapply (tmp_rely _ j C); [| |apply E2]; [done|]. cbn. rewrite lookup_insert_eq.
      intros b [= <-] v i Hp. rewrite (on_disk_roundtrip _ _ _ Htext) in Hp. injection Hp as <- <-. by right.
Qed.

Lemma ctl_rename id j C w :
  tracks id j C w → (∀ k, k ∈ keys j → durable k (w_files w !! tmp_path id)) →
  safe (fs_rename (tmp_path id) (final_path id)) (ctl id (λ _ w', tracks id j C w' ∧ saved id (keys j) w')) (Control id) w.
Proof.
  intros Ht Hd io w1 E _. exists (Control id). assert (tracks id j C w1) as Ht1 by (by eapply tracks_holds).
  assert (∀ e, holds (Control id) w1 (λ w', ctl id (λ (_ : unit) w'', tracks id j C w'' ∧ saved id (keys j) w'') (Control id) (Err e) w')) as Herr.
  { intros e w2 E2. split; [done|]. exists j, C. eapply tracks_holds; [exact Ht1|exact E2]. }
  destruct io as [[e n]|]; cbn [fst snd]; [split; [by eapply leaves_same, env_holds|by apply Herr]|].
  cbn [get_files map_files World_files].
  destruct (w_files w1 !! tmp_path id) as [body|] eqn:Hb; cbn [fst snd]; [|split; [by eapply leaves_same, env_holds|by apply Herr]].
  split; [apply leaves_rename; [by eapply env_holds|by eapply control_writes|done]|].
  intros w2 E2. split; [done|]. split; [eapply tracks_holds; [|exact E2]; done|].
  eapply (saved_rely _ j C); [| |apply E2]; [done|]. intros k Hk. cbn.
  rewrite lookup_insert_eq, lookup_insert_ne, lookup_delete_eq by (intros Heq; by destruct (tmp_final_path id id)).
  split; [done|]. rewrite <- Hb. eapply (tmp_rely id j C k w); [exact Ht|by apply Hd|apply E].
Qed.

Lemma ctl_persist id j C s w : tracks id j C w →
  safe (persist_instance (set_state s j)) (ctl id (λ _ w', tracks id j C w' ∧ saved id (keys j) w')) (Control id) w.
Proof.
  intros Ht. assert (li_id j = id) as Hid by apply Ht.
  eapply (ctl_try _ _ _ (λ b w', b = true ∧ tracks id j C w')).
  - apply safe_read. intros w1 E w2 E2. split; [done|]. split; [apply E|].
    eapply tracks_holds; [|exact E2]. by eapply tracks_holds.
  - intros b w1 _ [-> Ht1]. unfold save. cbn [li_id set_state]. rewrite Hid.
    apply ctl_lift_try. intros body Hb. inv_ok.
    eapply ctl_try; [by apply (ctl_write id j C s)|]. intros _ w2 _ [Ht2 Hd]. by apply ctl_rename.
Qed.

(** ** Updates *)

Lemma ctl_mutate id j j' C upd w :
  tracks id j C w → li_id j' = id → sound C j' →
  (∀ s, ∃ s', upd (set_state s j) = Some (set_state s' j')) →
  safe (try_mutate id upd) (ctl id (λ _ w', tracks id j' C w' ∧ saved id (keys j') w')) (Control id) w.
Proof.
  intros Ht Hid Hs Hupd.
  eapply (ctl_try _ _ _ (λ i w', tracks id j' C w' ∧ ∃ s, i = set_state s j')).
  - intros io w1 E _. exists (Control id). assert (tracks id j C w1) as Ht1 by (by eapply tracks_holds).
    destruct (ls_cache_poisoned (w_svc w1)); cbn [fst snd].
    + split; [by eapply leaves_same, env_holds|]. intros w2 E2. split; [done|]. exists j, C.
      eapply tracks_holds; [exact Ht1|exact E2].
    + pose proof Ht1 as ([s Hi] & Hc & _ & Hold). rewrite Hi. destruct (Hupd s) as [s' ->]. cbn [fst snd]. split.
      * eapply leaves_put; [by eapply env_holds|exact Hi|done| |intros _; rewrite Hc; apply Hs|by left].
        rewrite Hc. by apply sound_instance_ok.
      * intros w2 E2. split; [done|]. split; [|by exists s'].
        eapply tracks_holds; [|exact E2]. split_and!; try done. exists s'. change (w_cache (put id (set_state s' j') w1) !! id = Some (set_state s' j')).
        by rewrite put_cache, lookup_insert_eq.
  - intros i w1 _ [Ht1 [s ->]]. eapply ctl_try; [by apply ctl_persist|]. intros ? w2 _ [Ht2 Hsv].
    apply ctl_ret. intros w3 E3. split; [by eapply tracks_holds|].
    eapply saved_rely; [done|done|apply E3].
Qed.
End control.
