(* ===== verification/LoopRounds.v ===== *)
(** * Loops: the rounds of a controller, requests and the start of the daemon

    How the ledger grows: a reservation fits the ledger, the call is made only
    once it is saved, and its outcome completes it.  Every program of a controller
    is safe, and so are those of the other tasks: cancellations and readings are
    clients, a creation owns its loop until the loop is in memory, the start of
    the daemon binds the store while nothing else can. *)

From Stdlib Require Import String Ascii.
From S2P Require Import Prelude RustStd Text Ura Json Programs LoopLedger LoopService LoopSafe LoopActions.

Open Scope Z_scope.

#[local] Set Default Proof Using "All".

Section rounds.
Context `{!UraLib, !SerdeJson, !Hex, !HexLaws, !LoopCodec, !LoopCodecLaws}.
Context (answer : Call → result error LoopInvocationOutcome) (choices : list Choice).
Hypothesis answer_wf : ∀ c o, answer c = Ok o → outcome_wf o.
Hypothesis choices_u32 : u32_requests choices.
Notation env := (env answer choices).
Notation holds := (holds answer choices).
Notation safe := (safe answer choices).
Notation sound := (sound answer choices).
Notation tracks := (tracks answer choices).
Notation tracks_some := (tracks_some answer choices).
Notation ctl := (ctl answer choices).

(** ** Sound instances *)

Lemma requested_max i : requested choices i → 1 ≤ li_max_iters i ≤ u32_max.
Proof.
  intros (uuid & t & worker & a & e & n & p & Hin & Hn & _ & Hb). apply choices_u32 in Hin.
  assert (li_max_iters i = n) as -> by (by injection Hb). lia.
Qed.

Lemma u32_succ_small n : 0 ≤ n < u32_max → u32_next n = n + 1.
Proof. unfold u32_next, u32_max. intros. apply Z.mod_small. lia. Qed.

(** The next record the ledger allows. *)
Definition next_slot (i : LoopInstance) (iter : Z) (kind : LoopInvocationKind) : Prop :=
  completed (li_invocation_ledger i) ∧ kind = expected_kind (last (li_invocation_ledger i)) ∧
  iter = expected_iter (last (li_invocation_ledger i)) ∧ 1 ≤ iter ≤ li_max_iters i.

Lemma next_slot_body i iter : requested choices i → next_slot i iter Body → last_iter i ≤ li_max_iters i → 0 ≤ last_iter i →
  iter = last_iter i + 1 ∧ last_iter i < li_max_iters i.
Proof.
  intros Hr%requested_max (_ & Hk & Hi & Hb) Hl H0'. unfold expected_iter, last_iter in *. rewrite <- Hk in Hi.
  destruct (last (li_invocation_ledger i)) as [r|]; [|lia].
  rewrite bool_decide_false in Hi by done.
  destruct (decide (lr_iter r = u32_max)) as [Heq|Hne].
  - rewrite Heq in Hi. assert (u32_next u32_max = 0) by reflexivity. lia.
  - rewrite u32_succ_small in Hi by lia. lia.
Qed.

Lemma last_iter_bounds i : well_formed i → 1 ≤ li_max_iters i → 0 ≤ last_iter i ≤ li_max_iters i.
Proof.
  intros (_ & Hf & _) Hm. unfold last_iter. destruct (last _) as [r|] eqn:Hl; [|lia].
  apply last_Some in Hl as [l Hl]. rewrite Hl, Forall_app, Forall_singleton in Hf. lia.
Qed.

Lemma sound_announce C i iter : sound C i → next_slot i iter Body → sound C (set_iter iter i).
Proof.
  intros (Hr & Hw & Ht & Hrec) Hs. pose proof (last_iter_bounds i Hw (proj1 (requested_max i Hr))) as Hl.
  destruct (next_slot_body i iter) as [Hi Hlt]; [done..|lia|lia|].
  destruct Hs as (Hc & Hk & _). destruct Hw as (Hv & Hf & _). split; [done|]. split; [|done].
  split; [done|]. split; [done|]. right. split_and!; [exact Hi|exact Hlt|symmetry; exact Hk|exact Hc].
Qed.

Lemma sound_reserve C i iter kind : sound C i → next_slot i iter kind → li_current_iter i = iter →
  sound C (set_ledger (li_invocation_ledger i ++ [reserved_record iter kind (last (li_invocation_ledger i))]) i).
Proof.
  intros (Hr & (Hv & Hf & _) & Ht & Hrec) (Hc & Hk & Hi & Hb) Hcur. split_and!; [done| | |].
  - split_and!; cbn.
    + rewrite last_snoc. apply validate_records_snoc. unfold last_from. split_and!; try done; [by destruct (last _)|].
      replace (match last (li_invocation_ledger i) with Some r => Some r | None => None end)
        with (last (li_invocation_ledger i)) by (by destruct (last _)).
      split_and!; try done.
    + apply Forall_app; split; [done|by apply Forall_singleton].
    + left. unfold last_iter. cbn. by rewrite last_snoc.
  - apply Forall_app; split; [done|by apply Forall_singleton].
  - unfold recorded, keys. cbn. rewrite fmap_app. eapply Forall_impl; [exact Hrec|]. intros c ?. by apply elem_of_app; left.
Qed.

(** The last record, reserved, replaced by one with the same key. *)
Lemma sound_update C i l r r' : sound C i → li_invocation_ledger i = l ++ [r] → lr_state r = Reserved →
  lr_iter r' = lr_iter r → lr_kind r' = lr_kind r →
  lr_causal_parent_receipt_ura r' = lr_causal_parent_receipt_ura r → record_facts (li_id i) r' = Ok tt →
  (lr_state r' = Completed → ∃ c o r0, c ∈ C ∧ call_key c = record_key r' ∧ answer c = Ok o ∧ r' = completed_record o r0) →
  sound C (set_ledger (l ++ [r']) i).
Proof.
  intros (Hr & (Hv & Hf & Hcur) & Ht & Hrec) Hl Hs Hi Hk Hp Hfacts Htruth.
  rewrite Hl, ?last_snoc in *. apply validate_records_snoc in Hv as (_ & Hc & Hv & Hn1 & Hn2 & Hn3 & Hn4).
  split_and!; [done| | |].
  - split_and!; cbn.
    + rewrite last_snoc. apply validate_records_snoc. split_and!; try done. split_and!; congruence.
    + apply Forall_app in Hf as [Hf Hlast]. apply Forall_app; split; [done|]. rewrite Forall_singleton in Hlast |- *. by rewrite Hi.
    + left. unfold last_iter. cbn. rewrite last_snoc, Hi. destruct Hcur as [Hcur|(_ & _ & _ & Hall)].
      * unfold last_iter in Hcur. by rewrite Hl, last_snoc in Hcur.
      * rewrite Hl in Hall. apply Forall_app in Hall as [_ Hall]. rewrite Forall_singleton in Hall. congruence.
  - unfold truthful in *. rewrite Hl in Ht. apply Forall_app in Ht as [Ht _]. apply Forall_app; split; [done|]. by apply Forall_singleton.
  - unfold recorded, keys in *. rewrite Hl in Hrec. cbn. rewrite fmap_app in *. cbn in *.
    assert (record_key r' = record_key r) as -> by (unfold record_key; by rewrite Hi, Hk). done.
Qed.

Lemma sound_complete C i l r c o : sound C i → li_invocation_ledger i = l ++ [r] → lr_state r = Reserved → lr_error r = None →
  c ∈ C → call_key c = record_key r → answer c = Ok o → sound C (set_ledger (l ++ [completed_record o r]) i).
Proof.
  intros Hs Hl Hr He Hc Hk Ha. eapply sound_update; try done.
  - destruct (answer_wf _ _ Ha) as (H1' & H2' & H3'). unfold record_facts. cbn. unfold is_empty, hash_is_32_bytes.
    rewrite !bool_decide_false, hex_roundtrip, H3', He by done. done.
  - intros _. by exists c, o, r.
Qed.

Lemma sound_fail C i l r e : sound C i → li_invocation_ledger i = l ++ [r] → lr_state r = Reserved → e ≠ EmptyString →
  sound C (set_ledger (l ++ [failed_record e r]) i).
Proof.
  intros Hs Hl Hr He. eapply sound_update; try done. unfold record_facts. cbn. unfold is_empty. by rewrite bool_decide_false.
Qed.

(** ** The ledger operations *)

Lemma not_recorded C i iter kind : existsb (has_key iter kind) (li_invocation_ledger i) = false → recorded C i →
  (iter, kind) ∉ (call_key <$> C).
Proof.
  intros Hex Hrec (c & Heq & Hc)%list_elem_of_fmap. unfold recorded in Hrec. rewrite Forall_forall in Hrec.
  apply Hrec in Hc. unfold keys in Hc. apply list_elem_of_fmap in Hc as (r & Hk & Hr).
  assert (existsb (has_key iter kind) (li_invocation_ledger i) = true); [|congruence].
  apply existsb_exists. exists r. split; [by apply list_elem_of_In|]. apply has_key_spec. congruence.
Qed.

Definition reserve (iter : Z) (kind : LoopInvocationKind) (j : LoopInstance) : LoopInstance :=
  set_ledger (li_invocation_ledger j ++ [reserved_record iter kind (last (li_invocation_ledger j))]) j.

Lemma ctl_reserve id j C iter kind w :
  tracks id j C w → next_slot j iter kind → li_current_iter j = iter →
  safe (reserve_loop_invocation id iter kind (last (li_invocation_ledger j)))
    (ctl id (λ _ w', tracks id (reserve iter kind j) C w' ∧ saved id (keys (reserve iter kind j)) w' ∧
                     (iter, kind) ∉ (call_key <$> C))) (Control id) w.
Proof.
  intros Ht Hslot Hcur. eapply ctl_try; [by apply (ctl_status answer choices id j C)|].
  intros o w1 E1 [Ht1 [s ->]]. apply ctl_lift_try. intros i [= <-].
  apply ctl_lift_try. intros ? Hfree. inv_ok. apply negb_true_iff in Hfree. cbn in Hfree.
  assert (sound C j) as Hsj by apply Ht1.
  eapply ctl_try; [apply (ctl_mutate answer choices id j (reserve iter kind j) C)|]; [done|apply Ht1| | |].
  - by apply sound_reserve.
  - intros s'. by exists s'.
  - intros ? w2 _ [Ht2 Hsv]. apply ctl_ret. intros w3 E3. split_and!.
    + eapply tracks_holds; [exact Ht2|exact E3].
    + eapply saved_rely; [exact Ht2|exact Hsv|apply E3].
    + eapply not_recorded; [exact Hfree|apply Hsj].
Qed.

Lemma ctl_update_reserved id j C l r upd w :
  tracks id j C w → li_invocation_ledger j = l ++ [r] → lr_state r = Reserved → sound C (set_ledger (l ++ [upd r]) j) →
  safe (update_reserved_loop_invocation id (lr_iter r) (lr_kind r) upd)
    (ctl id (λ _, tracks id (set_ledger (l ++ [upd r]) j) C)) (Control id) w.
Proof.
  intros Ht Hl Hr Hs. assert (has_key (lr_iter r) (lr_kind r) r = true) as Hk by (by apply has_key_spec).
  eapply ctl_try; [by apply (ctl_status answer choices id j C)|].
  intros o w1 E1 [Ht1 [s ->]]. apply ctl_lift_try. intros i [= <-].
  cbn [li_invocation_ledger set_state]. rewrite Hl, rfind_last by done.
  apply ctl_lift_try. intros ? [= <-]. apply ctl_lift_try. intros ? _.
  eapply ctl_try; [apply (ctl_mutate answer choices id j (set_ledger (l ++ [upd r]) j) C)|]; [done|apply Ht1|done| |].
  - intros s'. exists s'. cbn [li_invocation_ledger set_state]. by rewrite Hl, rfind_update_last.
  - intros ? w2 _ [Ht2 _]. apply ctl_ret. intros w3 E3.
    eapply tracks_holds; [exact Ht2|exact E3].
Qed.

(** ** The call *)

Lemma ctl_invoke id j C c w :
  tracks id j C w → saved id (keys j) w → call_loop c = id → call_key c ∈ keys j → call_key c ∉ (call_key <$> C) →
  justified answer choices C c →
  safe (attempt (invoke_blocking answer c))
    (ctl id (λ r w', tracks id j (C ++ [c]) w' ∧ ∀ o, r = Ok o → answer c = Ok o)) (Control id) w.
Proof.
  intros Ht Hsv Hid Hk Hnew Hj io w1 E _. exists (Control id). cbn [fst snd].
  assert (tracks id j C w1) as Ht1 by (eapply tracks_holds; [exact Ht|exact E]).
  assert (saved id (keys j) w1) as Hs1 by (eapply saved_rely; [exact Ht|exact Hsv|apply E]).
  pose proof Ht1 as ([s Hi] & Hc & Hjid & Hsound).
  assert (tracks id j (C ++ [c]) (add_call c w1)) as Ht2.
  { split_and!; [by exists s|by rewrite calls_of_add, bool_decide_true, Hc by done|done|].
    destruct Hsound as (? & ? & ? & ?). split_and!; try done.
    - eapply truthful_mono; [apply sub_app|done].
    - apply Forall_app; split; [done|by apply Forall_singleton]. }
  split.
  - eapply leaves_call; [by eapply env_holds|done|by rewrite Hc|by rewrite Hc|exact Hi|done|by apply Hs1|by apply Hs1].
  - intros io2 w2 E2 _. exists (Control id). cbn [fst snd]. split; [by eapply leaves_same, env_holds|].
    intros w3 E3. split; [done|]. split.
    + eapply tracks_holds; [ |exact E3].
      eapply tracks_holds; [exact Ht2|exact E2].
    + intros o. by destruct io2 as [[e n]|].
Qed.

(** ** The next invocation *)

(** The answer of [next_invocation] is the next slot of the ledger, and a call
    in it with the causal context of the last record follows its predecessor. *)
Definition fits (j : LoopInstance) (C : list Call) (x : Z * LoopInvocationKind * string) : Prop :=
  next_slot j x.1.1 x.1.2 ∧
  ∀ causal c, loop_causal_context (last (li_invocation_ledger j)) = Ok causal →
    call_iter c = x.1.1 → call_kind c = x.1.2 → call_prompt c = x.2 → call_causal c = causal → follows answer j C c.

(** A completed record is what a call answered, and its context is that answer's
    receipt. *)
Lemma completed_last C j r : sound C j → last (li_invocation_ledger j) = Some r → lr_state r = Completed →
  ∃ c o, c ∈ C ∧ call_key c = record_key r ∧ answer c = Ok o ∧ lr_output r = Some (lo_output o) ∧
    loop_causal_context (Some r) = Ok (CausalScalar (lo_receipt_hash o) (lo_receipt_ura o)).
Proof.
  intros (_ & _ & Ht & _) Hl Hr. unfold truthful in Ht. rewrite Forall_forall in Ht.
  destruct (Ht r) as (c & o & r0 & Hc & Hk & Ha & ->); [by eapply last_Some_elem_of|done|].
  exists c, o. split_and!; try done. destruct (answer_wf _ _ Ha) as (_ & _ & Hlen).
  unfold loop_causal_context, with_context. cbn. rewrite hex_roundtrip. cbn. by rewrite Hlen.
Qed.

Lemma completed_all C j r : sound C j → last (li_invocation_ledger j) = Some r → lr_state r = Completed →
  completed (li_invocation_ledger j).
Proof.
  intros (_ & (Hv & _) & _) Hl Hr. apply last_Some in Hl as [l Hl]. rewrite Hl in *.
  apply validate_records_snoc in Hv as (_ & Hc & _). apply Forall_app; split; [done|by apply Forall_singleton].
Qed.

Lemma fits_first C j : sound C j → last (li_invocation_ledger j) = None → fits j C (1, Body, li_body_prompt j).
Proof.
  intros (Hr & _) Hl. apply requested_max in Hr. split.
  - unfold next_slot. cbn. rewrite Hl. apply last_None in Hl. rewrite Hl. split_and!; try done; [by constructor|lia].
  - intros causal c. rewrite Hl. intros [= <-]. cbn. unfold follows. intros ? -> ? ?. split; [done|by left].
Qed.

Lemma fits_verify C j r out : sound C j → last (li_invocation_ledger j) = Some r → lr_state r = Completed → lr_kind r = Body →
  lr_output r = Some out → fits j C (lr_iter r, Verify, render_verify_prompt (li_verify_expr j) (lr_iter r) out).
Proof.
  intros Hs Hl Hr Hk Hout. destruct (completed_last C j r Hs Hl Hr) as (c' & o & Hc & Hkey & Ha & Ho & Hcausal). split.
  - split; [by eapply completed_all|]. unfold expected_iter, expected_kind. rewrite Hl, Hk. cbn. split_and!; try done.
    + destruct Hs as (_ & (_ & Hf & _) & _). rewrite Forall_forall in Hf. apply (Hf r). by eapply last_Some_elem_of.
    + destruct Hs as (_ & (_ & Hf & _) & _). rewrite Forall_forall in Hf. apply (Hf r). by eapply last_Some_elem_of.
  - intros causal c. rewrite Hl, Hcausal. intros [= <-]. cbn. unfold follows. intros Hi -> Hp Hcc. exists c', o.
    rewrite Hi, Hp. split_and!; try done; [|congruence]. rewrite Hkey. unfold record_key. by rewrite Hk.
Qed.

Lemma fits_body C j r out : sound C j → last (li_invocation_ledger j) = Some r → lr_state r = Completed → lr_kind r = Verify →
  lr_output r = Some out → parse_verify_done out = Ok false → lr_iter r < li_max_iters j →
  fits j C (u32_next (lr_iter r), Body, li_body_prompt j).
Proof.
  intros Hs Hl Hr Hk Hout Hdone Hlt. destruct (completed_last C j r Hs Hl Hr) as (c' & o & Hc & Hkey & Ha & Ho & Hcausal).
  pose proof (requested_max j (proj1 Hs)) as Hmax.
  assert (1 ≤ lr_iter r ≤ li_max_iters j) as Hb.
  { destruct Hs as (_ & (_ & Hf & _) & _). rewrite Forall_forall in Hf. apply (Hf r). by eapply last_Some_elem_of. }
  assert (u32_next (lr_iter r) = lr_iter r + 1) as Hsucc by (apply u32_succ_small; lia).
  split.
  - split; [by eapply completed_all|]. unfold expected_iter, expected_kind. cbn [fst snd]. rewrite Hl, Hk. cbn.
    split_and!; try done; lia.
  - intros causal c. rewrite Hl, Hcausal. intros [= <-]. cbn. unfold follows. intros Hi -> Hp Hcc. split; [done|]. right.
    exists c', o. split_and!; try done; [|congruence]. rewrite Hkey, Hi, Hsucc. unfold record_key. rewrite Hk. f_equal. lia.
Qed.

(** ** Rounds *)

Lemma tracks_some_holds id w : tracks_some id w → holds (Control id) w (tracks_some id).
Proof. intros (j & C & Ht) w1 E. exists j, C. by eapply tracks_holds. Qed.

(** [mutate] with an update of the fields that the state does not matter to. *)
Lemma ctl_mutate_fields id j C f j' w : tracks id j C w → sound C j' → li_id j' = id →
  (∀ s, ∃ s', f (set_state s j) = set_state s' j') →
  safe (mutate id f) (ctl id (λ _, tracks id j' C)) (Control id) w.
Proof.
  intros Ht Hs Hid Hf. eapply ctl_mono; [eapply (ctl_mutate answer choices id j j' C)|]; [done..| |by intros a w' [? _]].
  intros s. destruct (Hf s) as [s' ->]. by exists s'.
Qed.

Lemma ctl_terminal id j C st w : tracks id j C w →
  safe (record_terminal id st) (ctl id (λ _, tracks id j C)) (Control id) w.
Proof.
  intros Ht. eapply ctl_try; [apply (ctl_mutate_fields id j C _ j)|]; [done|apply Ht|apply Ht|by intros s; exists st|].
  intros i w1 _ Ht1. by apply ctl_frame.
Qed.

Lemma ctl_output id j C k t w : tracks id j C w →
  safe (mutate id (set_output k t)) (ctl id (λ _, tracks id (set_output k t j) C)) (Control id) w.
Proof. intros Ht. apply (ctl_mutate_fields id j); [done|apply Ht|apply Ht|]. intros s. by exists s. Qed.

(** The end of a round that ends the loop. *)
Lemma ctl_end {A} id j C st (a : A) (P : A → World → Prop) w : tracks id j C w → (∀ w', tracks_some id w' → P a w') →
  safe (record_terminal id st ≫= λ _, mret a) (ctl id P) (Control id) w.
Proof.
  intros Ht HP. eapply ctl_try; [by apply ctl_terminal|]. intros ? w1 _ Ht1. apply ctl_ret. intros w2 E.
  apply HP. eapply tracks_some_holds; [|exact E]. by exists j, C.
Qed.

Lemma ctl_next_invocation id j C s w :
  tracks id j C w → completed (li_invocation_ledger j) →
  safe (next_invocation id (set_state s j))
    (ctl id (λ x w', match x with Some y => tracks id j C w' ∧ fits j C y | None => tracks_some id w' end)) (Control id) w.
Proof.
  intros Ht Hc. assert (sound C j) as Hs by apply Ht. unfold next_invocation. cbn [li_invocation_ledger set_state].
  destruct (last (li_invocation_ledger j)) as [r|] eqn:Hl.
  - assert (lr_state r = Completed) as Hr.
    { unfold completed in Hc. rewrite Forall_forall in Hc. apply (Hc r). by eapply last_Some_elem_of. }
    destruct (lr_kind r) eqn:Hk.
    + apply ctl_lift_try. intros out Hout. inv_ok. apply ctl_ret. intros w1 E.
      split; [by eapply tracks_holds|exact (fits_verify C j r out Hs Hl Hr Hk Hout)].
    + apply ctl_lift_try. intros out Hout. inv_ok. destruct (parse_verify_done out) as [passed|e] eqn:Hp.
      * eapply ctl_try; [by apply (ctl_frame answer choices id j C)|]. intros ? w1 _ Ht1.
        destruct passed; [eapply (ctl_end id j C); [exact Ht1|done]|]. cbn [li_max_iters set_state].
        destruct (li_max_iters j <=? lr_iter r) eqn:Hle; [eapply (ctl_end id j C); [exact Ht1|done]|]. apply Z.leb_gt in Hle.
        apply ctl_ret. intros w2 E. split; [eapply tracks_holds; [exact Ht1|exact E]|]. exact (fits_body C j r out Hs Hl Hr Hk Hout Hp Hle).
      * eapply ctl_try; [by apply (ctl_output id j C)|]. intros ? w1 _ Ht1. eapply ctl_end; [exact Ht1|done].
  - apply ctl_ret. intros w1 E. split; [by eapply tracks_holds|]. exact (fits_first C j Hs Hl).
Qed.

Lemma ctl_cancelled id j C w : tracks id j C w → safe (is_cancelled id) (ctl id (λ _, tracks id j C)) (Control id) w.
Proof.
  intros Ht. eapply ctl_try; [by apply (ctl_status answer choices id j C)|]. intros o w1 _ [Ht1 _].
  apply ctl_ret. by apply tracks_holds.
Qed.

(** The current iteration of a loop about to verify. *)
Lemma verify_current C j iter : sound C j → next_slot j iter Verify → li_current_iter j = iter.
Proof.
  intros (_ & (_ & _ & Hcur) & _) (_ & Hk & Hi & _). unfold expected_iter in Hi. rewrite <- Hk in Hi.
  destruct Hcur as [Hcur|(_ & _ & Hb & _)]; [|congruence]. rewrite Hcur, Hi. unfold last_iter.
  destruct (last (li_invocation_ledger j)); [by rewrite bool_decide_true|done].
Qed.

(** The announcement of an iteration. *)
Lemma ctl_announce id j C iter kind w : tracks id j C w → next_slot j iter kind →
  safe ((if bool_decide (kind = Body) then
           _ ← mutate id (λ s, set_iter iter (set_state Running s)); record_frame id (iter_started_frame id iter)
         else mret tt) : prog unit) (ctl id (λ _, tracks id (set_iter iter j) C)) (Control id) w.
Proof.
  intros Ht Hslot. assert (sound C j) as Hs by apply Ht. destruct kind.
  - rewrite bool_decide_true by done.
    eapply ctl_try; [apply (ctl_mutate_fields id j C _ (set_iter iter j))|].
    + done.
    + by apply sound_announce.
    + apply Ht.
    + intros s. by exists Running.
    + intros ? w1 _ Ht1. by apply ctl_frame.
  - rewrite bool_decide_false by done. apply ctl_ret.
    assert (set_iter iter j = j) as -> by (rewrite <- (verify_current C j iter Hs Hslot); by destruct j).
    by apply tracks_holds.
Qed.

Lemma ctl_run_invocation id j C s iter kind prompt w :
  tracks id j C w → fits j C (iter, kind, prompt) →
  safe (run_invocation answer id (set_state s j) iter kind prompt) (ctl id (λ _, tracks_some id)) (Control id) w.
Proof.
  intros Ht [Hslot Hfol]. unfold run_invocation. cbn [li_invocation_ledger li_worker_agent li_authority set_state fst snd] in *.
  eapply ctl_try; [by apply ctl_cancelled|]. intros cancelled w1 _ Ht1.
  destruct cancelled; [apply ctl_ret; intros w2 E; exists j, C; eapply tracks_holds; [exact Ht1|exact E]|].
  eapply ctl_try; [by apply (ctl_announce id j C)|]. intros ? w2 _ Ht2.
  apply ctl_lift_try. intros causal Hcausal.
  eapply ctl_try; [by apply (ctl_reserve id (set_iter iter j) C)|]. intros ? w3 _ (Ht3 & Hsv & Hnew).
  set (c := mk_Call id iter (li_worker_agent j) (li_authority j) prompt kind causal) in *.
  set (j3 := reserve iter kind (set_iter iter j)) in *.
  assert (justified answer choices C c) as Hj.
  { destruct Ht as (_ & _ & Hid & Hs). exists j. split; [apply Hs|]. split; [done|]. split; [done|]. split; [done|].
    split; [apply Hslot|]. by eapply Hfol. }
  eapply ctl_try; [apply (ctl_invoke id j3 C c)|]; [done|done|done| |done|done|].
  { unfold keys, j3, reserve. cbn. rewrite fmap_app. apply elem_of_app. right. by apply list_elem_of_singleton. }
  intros r w4 _ [Ht4 Hans]. assert (sound (C ++ [c]) j3) as Hs4 by apply Ht4.
  set (r0 := reserved_record iter kind (last (li_invocation_ledger j))) in *.
  destruct r as [o|e].
  - eapply ctl_try; [apply (ctl_update_reserved id j3 (C ++ [c]) (li_invocation_ledger j) r0 (completed_record o))|]; [done..| |].
    + eapply (sound_complete _ _ _ _ c); try done; [apply elem_of_app; right; by apply list_elem_of_singleton|by apply Hans].
    + intros ? w5 _ Ht5. eapply ctl_try; [apply ctl_output; exact Ht5|]. intros ? w6 _ Ht6.
      eapply ctl_try; [apply ctl_frame; exact Ht6|]. intros ? w7 _ Ht7. apply ctl_ret. intros w8 E.
      eapply tracks_some_holds; [|exact E]. eexists _, _. exact Ht7.
  - cbn zeta.
    eapply ctl_try; [apply (ctl_update_reserved id j3 (C ++ [c]) (li_invocation_ledger j) r0 (failed_record _))|]; [done..| |].
    + by eapply sound_fail.
    + intros ? w5 _ Ht5. eapply ctl_try; [apply ctl_output; exact Ht5|]. intros ? w6 _ Ht6.
      eapply ctl_try; [apply ctl_frame; exact Ht6|]. intros ? w7 _ Ht7. eapply ctl_end; [exact Ht7|done].
Qed.

Lemma ctl_continue id j C s w : tracks id j C w → completed (li_invocation_ledger j) →
  safe (n ← next_invocation id (set_state s j);
        match n with
        | None => mret Return
        | Some (iter, kind, prompt) => run_invocation answer id (set_state s j) iter kind prompt
        end) (ctl id (λ _, tracks_some id)) (Control id) w.
Proof.
  intros Ht Hc. eapply ctl_try; [by apply (ctl_next_invocation id j C)|].
  intros [[[iter kind] prompt]|] w1 _ HP; cbn beta match in HP.
  - destruct HP. by eapply ctl_run_invocation.
  - apply ctl_ret. by apply tracks_some_holds.
Qed.

(** A round of [drive_loop] is safe and leaves the controller with its loop. *)
Lemma ctl_drive_round id w : tracks_some id w →
  safe (drive_round answer id) (ctl id (λ _, tracks_some id)) (Control id) w.
Proof.
  intros (j & C & Ht). eapply ctl_try; [by apply (ctl_status answer choices id j C)|].
  intros o w1 _ [Ht1 [s ->]]. apply ctl_lift_try. intros i [= <-]. assert (sound C j) as Hs by apply Ht1.
  assert (holds (Control id) w1 (tracks_some id)) as Hsome by (apply tracks_some_holds; by exists j, C).
  destruct (is_terminal _); [by apply ctl_ret|]. cbn [li_invocation_ledger set_state].
  destruct (last (li_invocation_ledger j)) as [r|] eqn:Hl.
  - destruct (lr_state r) eqn:Hr.
    + cbn zeta. pose proof Hl as [l Hled]%last_Some.
      eapply ctl_try; [eapply (ctl_update_reserved id j C l r (failed_record _))|]; [done..|by eapply sound_fail|].
      intros ? w2 _ Ht2. eapply ctl_try; [apply ctl_output; exact Ht2|]. intros ? w3 _ Ht3.
      eapply ctl_end; [exact Ht3|done].
    + apply (ctl_continue id j C); [exact Ht1|]. by eapply completed_all.
    + eapply ctl_end; [exact Ht1|done].
  - apply (ctl_continue id j C); [exact Ht1|]. apply last_None in Hl. rewrite Hl. by constructor.
Qed.

(** ** The end of a controller *)

Lemma ctl_attempt {A} id (p : prog A) (P : A → World → Prop) w : tracks_some id w → safe p (ctl id P) (Control id) w →
  safe (attempt p) (ctl id (λ r w', match r with Ok a => P a w' | Err _ => tracks_some id w' end)) (Control id) w.
Proof.
  intros _ Hp. eapply safe_bind; [exact Hp|]. intros o r w' Hh w1 E. destruct (Hh w1 E) as [-> HP]. split; [done|]. exact HP.
Qed.

(** The state and the last output of an instance may be anything. *)
Lemma ctl_mutate_some id f w : tracks_some id w →
  (∀ j, ∃ j', li_id j' = li_id j ∧ (∀ C, sound C j → sound C j') ∧ ∀ s, ∃ s', f (set_state s j) = set_state s' j') →
  safe (mutate id f) (ctl id (λ _, tracks_some id)) (Control id) w.
Proof.
  intros (j & C & Ht) Hf. destruct (Hf j) as (j' & Hid & Hs & Hupd).
  eapply ctl_mono; [apply (ctl_mutate_fields id j C f j')|]; [done|apply Hs, Ht|by rewrite Hid; apply Ht|done|].
  intros a w' Ht'. by exists j', C.
Qed.

Lemma ctl_after_error id detail w : tracks_some id w →
  safe (s ← attempt (status id);
        match s with
        | Ok (Some inst) =>
            if is_terminal (li_state inst) then mret tt
            else
              let iter := li_current_iter inst in
              _ ← attempt (mutate id (λ i, set_output Verify detail (set_state Failed i)));
              _ ← attempt (record_frame id (chunk_frame Verify id iter detail));
              _ ← attempt (record_terminal id Failed);
              mret tt
        | _ => mret tt
        end) (ctl id (λ _, tracks_some id)) (Control id) w.
Proof.
  assert (∀ w, tracks_some id w → safe (mret tt : prog unit) (ctl id (λ _, tracks_some id)) (Control id) w) as Hret.
  { intros w0 Hw. apply ctl_ret. by apply tracks_some_holds. }
  assert (∀ (A : Type) (r : result error A) w, (match r with Ok _ => tracks_some id w | Err _ => tracks_some id w end) → tracks_some id w) as Hm.
  { by intros A [] ?. }
  intros Hw. pose proof Hw as (j & C & Ht).
  eapply ctl_try; [apply ctl_attempt; [done|by apply (ctl_status answer choices id j C)]|].
  intros [[inst|]|e] w1 _ HP; cbn beta match in HP; [|destruct HP as [HP _]; apply Hret; by exists j, C|by apply Hret].
  destruct HP as [Ht1 _]. assert (tracks_some id w1) as Hw1 by (by exists j, C).
  destruct (is_terminal _); [by apply Hret|]. cbn zeta.
  eapply ctl_try; [apply ctl_attempt; [done|apply ctl_mutate_some; [done|]]|].
  { intros j0. exists (set_output Verify detail j0). split_and!; try done. intros s. by exists Failed. }
  intros r1 w2 _ Hw2%Hm. pose proof Hw2 as (j2 & C2 & Ht2).
  eapply ctl_try; [apply ctl_attempt; [done|by apply (ctl_frame answer choices id j2 C2)]|].
  intros r2 w3 _ HP3. assert (tracks_some id w3) as Hw3 by (destruct r2; [by exists j2, C2|done]).
  pose proof Hw3 as (j3 & C3 & Ht3).
  eapply ctl_try; [apply ctl_attempt; [done|by apply (ctl_terminal id j3 C3)]|].
  intros r3 w4 _ HP4. apply Hret. destruct r3; [by exists j3, C3|done].
Qed.

Lemma ctl_after_drive id r w : tracks_some id w → safe (after_drive id r) (λ _ _ _, True) (Control id) w.
Proof.
  intros Hw. eapply (safe_try _ _ _ _ (ctl id (λ _, tracks_some id))); [|intros o ? w1 E [-> _]|done].
  - destruct r as [f|e]; [apply ctl_ret; by apply tracks_some_holds|]. by apply ctl_after_error.
  - intros io w2 E2 _. exists Client. split; [|done]. apply leaves_finish. by eapply env_holds.
Qed.
End rounds.

(** ** Requests and the start *)

#[local] Set Default Proof Using "All".

Section requests.
Context `{!UraLib, !SerdeJson, !Hex, !LoopCodec, !LoopCodecLaws}.
Context (answer : Call → result error LoopInvocationOutcome) (choices : list Choice).
Notation env := (env answer choices).
Notation holds := (holds answer choices).
Notation leaves := (leaves answer choices).
Notation safe := (safe answer choices).

(** A step that keeps the role of its task; nothing is said of errors. *)
Definition role {A} (o0 : Role) (P : A → World → Prop) : Role → result error A → World → Prop := λ o r w,
  o = o0 ∧ match r with Ok a => P a w | Err _ => True end.
Definition anything {A} : Role → A → World → Prop := λ _ _ _, True.

Lemma role_try {A B} o (p : prog A) (f : A → prog B) (P : A → World → Prop) Q w :
  safe p (role o P) o w → (∀ e w', Q o (Err e) w') →
  (∀ a w', env o w' w' → P a w' → safe (f a) Q o w') → safe (p ≫= f) Q o w.
Proof.
  intros Hp He Hf. eapply safe_try; [exact Hp| |].
  - intros o' a w' E [-> HP]. by apply Hf.
  - intros o' e w' [-> _]. apply He.
Qed.

Lemma role_lift_try {A B} o (r : result error A) (f : A → prog B) Q w :
  (∀ e w', Q o (Err e) w') → (∀ a, r = Ok a → safe (f a) Q o w) → safe (lift r ≫= f) Q o w.
Proof. intros He Hf. destruct r as [a|e]; [by apply Hf|]. intros w1 _. apply He. Qed.

Lemma safe_anything {A} (a : A) o w : safe (Ret a) anything o w.
Proof. done. Qed.
Lemma role_any {A} o (p : prog A) (P : A → World → Prop) w : safe p (role o P) o w → safe p anything o w.
Proof. intros Hp. eapply safe_mono; [exact Hp|done]. Qed.

(** A fact that other tasks keep. *)
Definition stable (o : Role) (P : World → Prop) : Prop := ∀ w w', rely o w w' → P w → P w'.

Lemma stable_cached o id : stable o (λ w, is_Some (w_cache w !! id)).
Proof. intros w w' (C & _) ?. by apply C. Qed.
Lemma stable_full o id : stable o (λ w, full w id).
Proof. intros w w' (C & _) ?. by apply C. Qed.
Lemma stable_store o : stable o (λ w, ls_store (w_svc w) = true).
Proof. intros w w' (C & _) ?. by apply C. Qed.
Lemma stable_tenant o : stable o (λ w, is_Some (ls_tenant (w_svc w))).
Proof. intros w w' (C & _) ?. by apply C. Qed.

(** What a read finds out and no other task undoes. *)
Lemma role_read {A} o (f : World → result error A) (P : A → World → Prop) w :
  (∀ a, stable o (P a)) → (∀ w1 a, env o w w1 → f w1 = Ok a → P a w1) →
  safe (locked (λ w, (w, f w))) (role o P) o w.
Proof.
  intros Hs Hf. apply safe_read. intros w1 E w2 E2. split; [done|]. destruct (f w1) as [a|e] eqn:Hr; [|done].
  eapply Hs; [apply E2|]. by apply Hf.
Qed.

Lemma role_ensure_stream o P id w : stable o P → P w → (∀ f w, P w → quiet f → P (on_svc f w)) →
  safe (ensure_stream_entry id) (role o (λ _, P)) o w.
Proof.
  intros Hs HP Hq. apply safe_quiet; [apply quiet_streams|intros w1 E; by eapply env_driver|].
  intros w1 E w2 E2. split; [done|]. eapply Hs; [apply E2|]. apply Hq; [|apply quiet_streams]. by eapply Hs; [apply E|].
Qed.

Lemma any_frame o id frame w : safe (record_frame id frame) anything o w.
Proof.
  eapply (role_try _ _ _ (λ _ _, True)); [by apply role_ensure_stream|done|]. intros ? w1 E1 _ io w2 E2 _. exists o.
  destruct (ls_streams (w_svc w2) !! id); cbn [fst snd]; (split; [|done]).
  - apply leaves_quiet; [by eapply env_holds|apply (quiet_streams (λ _, _))|by eapply env_driver].
  - by eapply leaves_same, env_holds.
Qed.

(** ** Starting controllers *)

Lemma any_status o id w : safe (status id) (role o (λ i w', ∀ j, i = Some j → is_terminal (li_state j) = false → full w' id)) o w.
Proof.
  apply role_read.
  - intros i w1 w2 R HP j Hj Ht. eapply stable_full; [exact R|]. by eapply HP.
  - intros w1 i E Hi j -> Ht. destruct (ls_cache_poisoned (w_svc w1)); [done|]. injection Hi as Hi.
    destruct E as (_ & HI & _). destruct (inv_cache _ _ _ HI _ _ Hi) as (_ & _ & _ & _ & [Hterm|Hrec]); [congruence|].
    by exists j.
Qed.

Lemma client_start id w : safe (start_controller id) anything Client w.
Proof.
  eapply (role_try _ _ _ (λ b w', b = true → ls_store (w_svc w') = true)); [|done|].
  - apply role_read; [intros b w1 w2 R HP Hb; eapply stable_store; [exact R|by apply HP]|].
    intros w1 b E [= <-] Hd. eapply env_driver; [exact E|done].
  - intros driver w1 _ Hst. destruct driver; [|done]. specialize (Hst eq_refl). cbn [negb].
    eapply (role_try _ _ _ (λ i w', (∀ j, i = Some j → is_terminal (li_state j) = false → full w' id) ∧ ls_store (w_svc w') = true)).
    + apply role_read.
      * intros i w2 w3 R [HP Hs]. split; [|by eapply stable_store]. intros j Hj Ht. eapply stable_full; [exact R|]. by eapply HP.
      * intros w2 i E Hi. split; [|by eapply stable_store; [apply E|]]. intros j -> Ht.
        destruct (ls_cache_poisoned (w_svc w2)); [done|]. injection Hi as Hi.
        destruct E as (_ & HI & _). destruct (inv_cache _ _ _ HI _ _ Hi) as (_ & _ & _ & _ & [Hterm|Hrec]); [congruence|].
        by exists j.
    + done.
    + intros i w2 _ [Hfull Hst2]. apply role_lift_try; [done|]. intros inst Hinst. inv_ok.
      destruct (is_terminal (li_state inst)) eqn:Ht; [done|]. intros w3 E3. split_and!.
      * eapply stable_full; [apply E3|]. by eapply Hfull.
      * by eapply stable_store; [apply E3|].
      * done.
Qed.

(** A client's step followed by another. *)
Lemma client_try {A B} (p : prog A) (f : A → prog B) w :
  safe p anything Client w → (∀ a w', safe (f a) anything Client w') → safe (p ≫= f) anything Client w.
Proof.
  intros Hp Hf. eapply safe_try; [apply safe_client; exact Hp| |done]. intros o a w' _ [-> _]. apply Hf.
Qed.

Lemma client_attempt {A} (p : prog A) w : safe p anything Client w → safe (attempt p) anything Client w.
Proof. intros Hp. by eapply safe_bind; [exact Hp|]. Qed.

Lemma client_start_all ids w : safe (start_all ids) anything Client w.
Proof.
  revert w. induction ids as [|id ids IH]; intros w; [done|]. apply client_try; [apply client_start|]. intros ? w'. apply IH.
Qed.

(** ** Cancellations *)

Lemma cancelled_instance_spec i : ∃ s, (cancelled_instance i).1 = set_state s i ∧ is_terminal s = true.
Proof.
  unfold cancelled_instance. destruct i as [? ? ? ? ? ? ? ? s ? ? ?], s; eexists; by split.
Qed.

(** A client writes only instances that are over, of loops in memory. *)
Definition over (id : string) (i : LoopInstance) (w : World) : Prop :=
  is_Some (w_cache w !! id) ∧ li_id i = id ∧ is_terminal (li_state i) = true ∧ requested choices i ∧ well_formed i ∧
  truthful answer (calls_of id w) i.

Lemma calls_of_sub id w w' : w_calls w ⊆ w_calls w' → calls_of id w ⊆ calls_of id w'.
Proof. intros Hs c [? Hc]%list_elem_of_filter. apply list_elem_of_filter. split; [done|by apply Hs]. Qed.

Lemma stable_over o id i : stable o (over id i).
Proof.
  intros w w' (C & _) (? & ? & ? & ? & ? & ?). split_and!; try done; [by apply C|].
  eapply truthful_mono; [|done]. apply calls_of_sub, C.
Qed.

Lemma over_writes id i w : over id i w → may_write Client id w.
Proof. intros ([j Hj] & _). split_and!; [by eapply unbound_cached|done|by right; rewrite Hj]. Qed.

Lemma client_save id i w : over id i w → safe (save i) anything Client w.
Proof.
  intros Hov. assert (li_id i = id) as Hid by apply Hov. unfold save. rewrite Hid. apply role_lift_try; [done|].
  intros body Hb. inv_ok. eapply (role_try _ _ _ (λ _, over id i)); [|done|].
  - intros io w1 E _. exists Client. assert (over id i w1) as Hov1 by (by eapply stable_over; [apply E|]).
    destruct io as [[e n]|]; cbn [fst snd].
    + split; [|done]. destruct (n <? String.length body)%nat eqn:Hn; [|by eapply leaves_same, env_holds].
      apply Nat.ltb_lt in Hn. destruct (on_disk_truncated _ _ _ _ Hb Hn) as [e' He'].
      apply leaves_write; [by eapply env_holds|by eapply over_writes|intros v i' Hp; congruence|].
      right. intros b [= <-] v i' Hp. congruence.
    + split; [|intros w2 E2; split; [done|]; by eapply stable_over; [apply E2|]].
      apply leaves_write; [by eapply env_holds|by eapply over_writes| |].
      * intros v i' Hp. rewrite (on_disk_roundtrip _ _ _ Hb) in Hp. injection Hp as <- <-. rewrite Hid. split; [by right|].
        destruct Hov1 as (_ & _ & ? & ? & ? & ?). split_and!; try done. by left.
      * right. intros b [= <-] v i' Hp. rewrite (on_disk_roundtrip _ _ _ Hb) in Hp. injection Hp as <- <-. apply Hov.
  - intros ? w1 _ Hov1 io w2 E _. exists Client. assert (over id i w2) as Hov2 by (by eapply stable_over; [apply E|]).
    destruct io as [[e n]|]; cbn [fst snd]; [split; [by eapply leaves_same, env_holds|done]|].
    cbn [get_files map_files World_files]. destruct (w_files w2 !! tmp_path id) as [b|] eqn:Hf; cbn [fst snd]; (split; [|done]).
    + apply leaves_rename; [by eapply env_holds|by eapply over_writes|done].
    + by eapply leaves_same, env_holds.
Qed.

Lemma client_persist id i w : over id i w → safe (persist_instance i) anything Client w.
Proof.
  intros Hov. eapply (role_try _ _ _ (λ _, over id i)); [|done|].
  - apply role_read; [intros; apply stable_over|]. intros w1 b E _. by eapply stable_over; [apply E|].
  - intros b w1 _ Hov1. destruct b; [|done]. by eapply client_save.
Qed.

Lemma client_cancel id w : safe (cancel id) anything Client w.
Proof.
  eapply (role_try _ _ _ (λ u, over id u.1)); [|done|].
  - intros io w1 E _. exists Client. destruct (ls_cache_poisoned (w_svc w1)); cbn [fst snd];
      [split; [by eapply leaves_same, env_holds|done]|].
    destruct (w_cache w1 !! id) as [i|] eqn:Hi; cbn [fst snd]; [|split; [by eapply leaves_same, env_holds|done]].
    pose proof E as (_ & HI & _). destruct (inv_cache _ _ _ HI _ _ Hi) as (Hid & Hr & Hw & Ht & _).
    destruct (cancelled_instance_spec i) as (s & Hu & Hterm). rewrite Hu. split.
    + eapply leaves_put; [by eapply env_holds|exact Hi|done| |done|by right; exists s].
      split_and!; try done. by left.
    + intros w2 E2. split; [done|]. eapply stable_over; [apply E2|]. rewrite Hu. split_and!; try done.
      change (is_Some (w_cache (put id (set_state s i) w1) !! id)). rewrite put_cache, lookup_insert_eq. by eexists.
  - intros [u b] w1 _ Hov. apply client_try; [by eapply client_persist|]. intros ? w2. destruct b; [apply any_frame|done].
Qed.

Lemma any_read {A} o (f : World → result error A) w : safe (locked (λ w, (w, f w))) (role o (λ _ _, True)) o w.
Proof. apply role_read; done. Qed.

Lemma client_status_for id user w : safe (status_for_accountable_user id user) anything Client w.
Proof.
  apply role_lift_try; [done|]. intros ? _. eapply role_try; [apply any_read|done|]. intros [i|] w1 _ _; [|done].
  by destruct (bool_decide _).
Qed.

Lemma client_subscribe id w : safe (subscribe id) anything Client w.
Proof.
  eapply role_try; [apply any_read|done|]. intros o w1 _ _. apply role_lift_try; [done|]. intros inst _.
  eapply (role_try _ _ _ (λ _ _, True)); [by apply role_ensure_stream|done|]. intros ? w2 _ _.
  eapply role_try; [apply any_read|done|]. done.
Qed.

(** ** Creation *)

Lemma new_instance_ok uuid tenant worker a expr n prompt :
  Submit (ReqCreate uuid worker a expr n prompt) ∈ choices → n ≠ 0 → validate_loop_authority worker a = Ok tt →
  instance_ok answer choices [] (new_instance uuid tenant worker a expr n prompt).
Proof.
  intros Hin Hn Ha. split_and!.
  - by exists uuid, tenant, worker, a, expr, n, prompt.
  - split_and!; [done|by constructor|by left].
  - by constructor.
  - right. by constructor.
Qed.

(** The creator writes its instance, which has no calls. *)
Lemma creator_save id i w : li_id i = id → instance_ok answer choices [] i → is_Some (ls_tenant (w_svc w)) →
  safe (save i) (role (Creator id) (λ _ w', is_Some (ls_tenant (w_svc w')))) (Creator id) w.
Proof.
  intros Hid Hok Hten. unfold save. rewrite Hid. apply role_lift_try; [done|]. intros body Hb. inv_ok.
  assert (∀ w1, is_Some (ls_tenant (w_svc w1)) → may_write (Creator id) id w1) as Hmay.
  { intros w1 Ht. split_and!; [intros [Hn _]; rewrite Hn in Ht; by destruct Ht|done|by left]. }
  eapply (role_try _ _ _ (λ _ w', is_Some (ls_tenant (w_svc w')))); [|done|].
  - intros io w1 E _. exists (Creator id). assert (is_Some (ls_tenant (w_svc w1))) as Ht1 by (by eapply stable_tenant; [apply E|]).
    destruct io as [[e n]|]; cbn [fst snd].
    + split; [|done]. destruct (n <? String.length body)%nat eqn:Hn; [|by eapply leaves_same, env_holds].
      apply Nat.ltb_lt in Hn. destruct (on_disk_truncated _ _ _ _ Hb Hn) as [e' He'].
      apply leaves_write; [by eapply env_holds|by apply Hmay|intros v i' Hp; congruence|by left].
    + split; [|intros w2 E2; split; [done|]; by eapply stable_tenant; [apply E2|]].
      apply leaves_write; [by eapply env_holds|by apply Hmay| |by left].
      intros v i' Hp. rewrite (on_disk_roundtrip _ _ _ Hb) in Hp. injection Hp as <- <-. rewrite Hid. split; [by right|].
      assert (calls_of id w1 = []) as ->; [|done]. destruct E as (_ & _ & [(_ & _ & _ & ?)|(_ & _ & ?)] & _); done.
  - intros ? w1 _ Ht1 io w2 E _. exists (Creator id). assert (is_Some (ls_tenant (w_svc w2))) as Ht2 by (by eapply stable_tenant; [apply E|]).
    assert (∀ r : result error unit, holds (Creator id) w2 (role (Creator id) (λ _ w', is_Some (ls_tenant (w_svc w'))) (Creator id) r)) as Hpost.
    { intros r w3 E3. split; [done|]. destruct r; [|done]. by eapply stable_tenant; [apply E3|]. }
    destruct io as [[e n]|]; cbn [fst snd]; [split; [by eapply leaves_same, env_holds|by apply Hpost]|].
    cbn [get_files map_files World_files]. destruct (w_files w2 !! tmp_path id) as [b|] eqn:Hf; cbn [fst snd].
    + split; [apply leaves_rename; [by eapply env_holds|by apply Hmay|done]|].
      intros w3 E3. split; [done|]. by eapply stable_tenant; [apply E3|].
    + split; [by eapply leaves_same, env_holds|by apply Hpost].
Qed.

Lemma creator_create uuid worker a expr n prompt w :
  Submit (ReqCreate uuid worker a expr n prompt) ∈ choices →
  safe (create uuid worker a expr n prompt) anything (Creator ("loop-" +:+ uuid)) w.
Proof.
  intros Hin. apply role_lift_try; [done|]. intros ? Hn. inv_ok. apply negb_true_iff, Z.eqb_neq in Hn.
  apply role_lift_try; [done|]. intros [] Ha. set (id := "loop-" +:+ uuid).
  eapply (role_try _ _ _ (λ _ w', is_Some (ls_tenant (w_svc w')))); [|done|].
  - apply role_read; [intros; apply stable_tenant|]. intros w1 t _ Ht. inv_ok. rewrite Ht. by eexists.
  - intros tenant w1 _ Ht1. set (i := new_instance uuid tenant worker a expr n prompt).
    assert (li_id i = id) as Hid by done.
    assert (instance_ok answer choices [] i) as Hok by (by apply new_instance_ok).
    eapply (role_try _ _ _ (λ _ w', is_Some (ls_tenant (w_svc w')))); [|done|].
    + apply role_ensure_stream; [apply stable_tenant|done|]. intros f w2 Hw2 Hq. destruct (Hq (w_svc w2)) as (_ & Hte & _). cbn. by rewrite Hte.
    + intros ? w2 _ Ht2. eapply (role_try _ _ _ (λ _ w', is_Some (ls_tenant (w_svc w')))); [|done|].
      * eapply (role_try _ _ _ (λ _ w', is_Some (ls_tenant (w_svc w')))); [|done|].
        -- apply role_read; [intros; apply stable_tenant|]. intros w3 b E3 _. by eapply stable_tenant; [apply E3|].
        -- intros b w3 _ Ht3. destruct b; [by apply creator_save|]. intros w4 E4. split; [done|]. by eapply stable_tenant; [apply E4|].
      * intros ? w3 _ Ht3. eapply (safe_try _ _ _ _ (λ o r _, match r with Ok _ => o = Client | Err _ => True end)); [| |done].
        -- intros io w4 E4 _. assert (is_Some (ls_tenant (w_svc w4))) as Ht4 by (by eapply stable_tenant; [apply E4|]).
           destruct (ls_cache_poisoned (w_svc w4)); cbn [fst snd].
           ++ exists (Creator id). split; [by eapply leaves_same, env_holds|done].
           ++ exists Client. split; [|done]. apply leaves_create; [by eapply env_holds|done..].
        -- intros o ? w4 _ ->. apply client_try; [apply client_start|done].
Qed.

(** ** The start *)

Lemma boot_bind tenant w :
  safe (bind tenant) (λ o r w', match r with Ok _ => o = Client ∧ ls_store (w_svc w') = true | Err _ => True end) Boot w.
Proof.
  eapply (role_try _ _ _ (λ loaded w', load_all (w_files w') = Ok loaded ∧ unbound w')); [|done|].
  - intros io w1 E _. exists Boot. cbn [fst snd]. split; [by eapply leaves_same, env_holds|]. intros w2 E2. split; [done|].
    destruct io as [[e n]|]; [done|]. destruct (load_all (w_files w1)) as [l|e] eqn:Hl; [|done].
    pose proof E as (_ & _ & Hu & _). destruct E2 as ((_ & _ & U) & _). destruct (U eq_refl Hu) as (Hu2 & -> & _). done.
  - intros loaded w1 _ [Hl1 Hu1] io w2 E _.
    assert (load_all (w_files w2) = Ok loaded) as Hl.
    { destruct E as ((_ & _ & U) & _). by destruct (U eq_refl Hu1) as (_ & -> & _). }
    pose proof E as (_ & HI & [Hn He] & _).
    destruct (ls_cache_poisoned (w_svc w2)) eqn:Hp; rewrite ?Hp;
      [exists Boot; cbn [fst snd]; split; [by eapply leaves_same, env_holds|done]|].
    destruct (bind_loaded (w_svc w2) loaded) as [s r] eqn:Hb. apply bind_loaded_spec in Hb as (Hc & Ht & Hs & Hr & Hd).
    assert (∀ id i, ls_cache s !! id = Some i → li_id i = id ∧
      ∃ path body v, w_files w2 !! path = Some body ∧ on_disk_parse body = Ok (v, i)) as Hfrom.
    { intros id i Hi. destruct (Hc id i Hi) as [Hi'|[Hi' Hid]]; [|split; [done|by eapply load_all_spec]].
      change (w_cache w2 !! id = Some i) in Hi'. by rewrite He, lookup_empty in Hi'. }
    exists Client. destruct r; cbn [fst snd]; (split; [|intros w3 E3]).
    + apply leaves_bind; [by eapply env_holds|exact Hfrom|exact Hr|cbn; by rewrite Hd|done|done].
    + split; [done|]. by eapply stable_store; [apply E3|].
    + apply leaves_bind; [by eapply env_holds|exact Hfrom|exact Hr|by rewrite Hd|rewrite Hd, Hs; apply HI|by rewrite Hs].
    + done.
Qed.

Lemma boot_safe tenant has_identity w : safe (boot tenant has_identity) anything Boot w.
Proof.
  eapply safe_bind; [eapply safe_bind; [apply boot_bind|]|].
  - intros o r w' Hh. instantiate (1 := λ o r w', match r with
      | Ok (Ok _) => o = Client ∧ ls_store (w_svc w') = true | Ok (Err _) => True | Err _ => False end).
    intros w1 E. specialize (Hh w1 E). by destruct r.
  - intros o [[u|e]|e] w' Hh; [| |intros w1 E; by destruct (Hh w1 E)].
    + apply safe_env. intros w1 E. destruct (Hh w1 E) as [-> Hst]. destruct has_identity; [|done].
      enough (safe (_ ← attempt install_driver; _ ← attempt resume_inflight; mret tt) anything Client w1) as Hs by exact Hs.
      apply client_try; [apply client_attempt|].
      * apply safe_quiet; [by intros s; split_and!|intros w2 E2 _; by eapply stable_store; [apply E2|]|done].
      * intros ? w2. apply client_try; [apply client_attempt|done].
        eapply role_try; [apply any_read|done|]. intros l w4 _ _. apply client_start_all.
    + intros io w1 E Hbad. exfalso. cbn in Hbad. by destruct (w_bind_failures w1).
Qed.

(** ** Requests *)

(** The role a request starts with. *)
Definition request_role (r : LoopRequest) : Role :=
  match r with ReqCreate uuid _ _ _ _ _ => Creator ("loop-" +:+ uuid) | _ => Client end.

Lemma serve_safe r w : Submit r ∈ choices → safe (serve r) anything (request_role r) w.
Proof.
  destruct r as [uuid worker a expr n prompt|id user|id user|id user|id]; intros Hin; cbn [serve request_role].
  - eapply (safe_bind _ _ _ _ _ anything); [by apply creator_create|]. by intros o [] w' _.
  - apply client_try; [apply client_status_for|done].
  - apply client_try; [|done]. apply client_try; [apply client_status_for|]. intros o w1.
    apply role_lift_try; [done|]. intros ? _. apply client_subscribe.
  - apply client_try; [apply client_status_for|]. intros o w1. apply role_lift_try; [done|]. intros ? _. apply client_cancel.
  - apply client_cancel.
Qed.
End requests.
