(* ===== verification/LoopTheorems.v ===== *)
(** * Loops: what every run guarantees

    The invariant of LoopSafe.v holds in every configuration a run reaches,
    whatever the scheduler chooses, as long as every start of the daemon bound
    the store: each task has a role, no two tasks own the same loop, and the rest
    of every program is safe.  So, over all schedules, failures of the disk and
    such restarts, a controller makes each invocation at most once, makes
    only those a request asked for, each after the one it depends on, and no more
    than two per iteration; the ledgers in memory and on disk say what was
    invoked and what it answered. *)

From Stdlib Require Import String Ascii.
From S2P Require Import Prelude RustStd Text Ura Json Programs LoopLedger LoopService LoopSafe LoopActions LoopRounds.

Open Scope Z_scope.

(** The identifiers of the loops a list of choices asks for. *)
Definition created (choices : list Choice) : list string :=
  omap (λ ch, match ch with Submit (ReqCreate uuid _ _ _ _ _) => Some uuid | _ => None end) choices.

(** No start of the daemon has failed to bind the store, at any point of a run. *)
Fixpoint bound_throughout `{UraLib, SerdeJson, Hex, LoopCodec} (answer : Call → result error LoopInvocationOutcome)
    (c : Config) (l : list Choice) : bool :=
  bool_decide (w_bind_failures (cf_world c) = []) &&
  match l with [] => true | ch :: l => bound_throughout answer (step answer c ch) l end.

#[local] Set Default Proof Using "All".

Section run.
Context `{!UraLib, !SerdeJson, !Hex, !HexLaws, !LoopCodec, !LoopCodecLaws}.
Context (answer : Call → result error LoopInvocationOutcome) (choices : list Choice).
Hypothesis answer_wf : ∀ c o, answer c = Ok o → outcome_wf o.
Hypothesis choices_u32 : u32_requests choices.
Notation Inv := (Inv answer choices).
Notation env := (env answer choices).
Notation safe := (safe answer choices).
Notation tracks_some := (tracks_some answer choices).
Notation ctl := (ctl answer choices).
Notation run := (run answer).
Notation step := (step answer).

(** What is left of a task, in the role it has. *)
Definition task_ok (w : World) (o : Role) (t : Task) : Prop :=
  role_ok o w ∧
  match t with
  | Driving id p => safe p (ctl id (λ _, tracks_some id)) o w
  | Ending _ p | Serving p => safe p anything o w
  end.

(** The roles of the tasks of a configuration. *)
Definition roles_ok (w : World) (roles : list Role) (tasks : list Task) : Prop :=
  Forall2 (task_ok w) roles tasks ∧
  ∀ n m o o', n ≠ m → roles !! n = Some o → roles !! m = Some o' → compatible o o'.

(** No loop exists that was not asked for. *)
Definition unused (used : list string) (w : World) (roles : list Role) : Prop :=
  ∀ uuid, uuid ∉ used → fresh w ("loop-" +:+ uuid) ∧ Forall (λ o, owned o ≠ Some ("loop-" +:+ uuid)) roles.

Definition good (used : list string) (c : Config) : Prop :=
  Inv (cf_world c) ∧ ∃ roles, roles_ok (cf_world c) roles (cf_tasks c) ∧ unused used (cf_world c) roles.

(** ** One action *)

(** A controller started for a loop that had none. *)
Lemma spawn_world o id w : env o w w →
  let w' := on_svc (λ s, set_running ({[id]} ∪ ls_running s) s) w in (Inv w' ∧ guar o w w' ∧ rely o w w').
Proof.
  intros (_ & HI & Hr & Hf) w'.
  assert (∀ id', same_at id' w w') as Hsame.
  { intros id'. split_and!; try done. cbn. intros ?. apply elem_of_union. by right. }
  assert (∀ o', guar o' w w') as Hg by (intros o'; by apply guar_same).
  split_and!; [by destruct HI|apply Hg|]. split_and!; [apply (Hg o)| |].
  - intros id' _. apply same_at_weak, Hsame.
  - intros -> Hu. done.
Qed.

(** The tasks an action starts. *)
Definition started (w w' : World) (ts : list Task) : Prop :=
  ts = [] ∨ (∃ id, ts = [Driving id (drive_round answer id)] ∧ (id ∉ ls_running (w_svc w)) ∧ role_ok (Control id) w').

Lemma step_prog_safe {A} io (p : Prog A) Q o w w' p' ts :
  env o w w → safe p Q o w → step_prog answer io p w = (w', p', ts) → w_bind_failures w' = [] →
  Inv w' ∧ guar o w w' ∧ started w w' ts ∧ ∃ o', (o' = o ∨ o' = Client) ∧ role_ok o' w' ∧ safe p' Q o' w'.
Proof.
  intros E Hs Hstep Hb. assert (Inv w ∧ guar o w w ∧ role_ok o w) as (HI & Hg & Hr).
  { destruct (leaves_same answer choices o w E) as (? & ? & _ & ?). done. }
  destruct p as [a| |X act k|id k]; cbn in Hstep.
  - injection Hstep as <- <- <-. split_and!; [done..|by left|]. exists o. split_and!; [by left|done|done].
  - injection Hstep as <- <- <-. split_and!; [done..|by left|]. exists o. split_and!; [by left|done|done].
  - destruct (act io w) as [w2 x] eqn:Ha. injection Hstep as <- <- <-.
    destruct (Hs io w E) as (o' & (? & ? & ? & ?) & Hk); [by rewrite Ha|]. rewrite Ha in *. cbn [fst snd] in *.
    split_and!; [done..|by left|]. by exists o'.
  - destruct (Hs w E) as (Hfull & Hst & Hk). case_bool_decide as Hrun.
    + injection Hstep as <- <- <-. split_and!; [done..|by left|]. exists o. split_and!; [by left|done|apply Hk].
    + injection Hstep as <- <- <-. destruct (spawn_world o id w E) as (HI' & Hg' & Hrely).
      split_and!; [done..| |].
      * right. exists id. split_and!; [done..|]. split_and!; [cbn; apply elem_of_union; left; by apply elem_of_singleton|done|done].
      * exists o. split_and!; [by left|by eapply role_ok_rely|]. eapply safe_rely; [exact Hrely|apply Hk].
Qed.

Lemma step_task_ok io t o w w' t' ts :
  Inv w → w_bind_failures w = [] → task_ok w o t → step_task answer io t w = (w', t', ts) → w_bind_failures w' = [] →
  Inv w' ∧ guar o w w' ∧ started w w' ts ∧ ∃ o', (o' = o ∨ o' = Client) ∧ task_ok w' o' t'.
Proof.
  intros HI Hf [Hr Ht] Hstep Hb. assert (env o w w) as E by (split_and!; [apply rely_refl|done..]).
  assert (guar o w w ∧ started w w []) as [Hg Hno] by (split; [by apply (leaves_same answer choices o w E)|by left]).
  assert (∀ A (p : Prog A) Q p', safe p Q o w → step_prog answer io p w = (w', p', ts) →
    Inv w' ∧ guar o w w' ∧ started w w' ts ∧ ∃ o', (o' = o ∨ o' = Client) ∧ role_ok o' w' ∧ safe p' Q o' w') as Hprog.
  { intros A p Q p' Hp Hs. by eapply step_prog_safe. }
  destruct t as [id p|id p|p]; cbn [step_task] in Hstep.
  - assert ((let '(w0, p', ts0) := step_prog answer io p w in (w0, Driving id p', ts0)) = (w', t', ts) →
      Inv w' ∧ guar o w w' ∧ started w w' ts ∧ ∃ o', (o' = o ∨ o' = Client) ∧ task_ok w' o' t') as Hact.
    { destruct (step_prog answer io p w) as [[w0 p'] ts0] eqn:Hs. intros [= <- <- <-].
      eapply Hprog in Ht as (? & ? & ? & o' & Ho' & Hr' & Hs'); [|exact Hs]. split_and!; [done..|]. exists o'. by split_and!. }
    destruct p as [r| | |]; [|by apply Hact..]. destruct (Ht w E) as [-> Hret].
    assert (tracks_some id w) as Htr by (by eapply control_tracks).
    assert (safe (drive_round answer id) (ctl id (λ _, tracks_some id)) (Control id) w) as Hround by (by apply ctl_drive_round).
    assert (∀ r, safe (after_drive id r) anything (Control id) w) as Hafter by (intros r0; by apply ctl_after_drive).
    destruct r as [[]|e]; injection Hstep as <- <- <-; (split_and!; [done..|]); exists (Control id); (split; [by left|]); by split.
  - destruct (step_prog answer io p w) as [[w0 p'] ts0] eqn:Hs. injection Hstep as <- <- <-.
    eapply Hprog in Ht as (? & ? & ? & o' & Ho' & Hr' & Hs'); [|exact Hs]. split_and!; [done..|]. exists o'. by split_and!.
  - destruct (step_prog answer io p w) as [[w0 p'] ts0] eqn:Hs. injection Hstep as <- <- <-.
    eapply Hprog in Ht as (? & ? & ? & o' & Ho' & Hr' & Hs'); [|exact Hs]. split_and!; [done..|]. exists o'. by split_and!.
Qed.

(** ** Configurations *)

Lemma compatible_sym o o' : compatible o o' → compatible o' o.
Proof. unfold compatible. naive_solver. Qed.
Lemma compatible_client o : compatible Client o.
Proof. split; [done|]. by intros [? _]. Qed.

Lemma task_ok_rely w w' o t : rely o w w' → task_ok w o t → task_ok w' o t.
Proof.
  intros R [Hr Ht]. split; [by eapply role_ok_rely|]. destruct t; by eapply safe_rely.
Qed.

(** A controller that starts shares its loop with no task. *)
Lemma spawned_compatible w w' id o : id ∉ ls_running (w_svc w) → role_ok (Control id) w' → role_ok o w → role_ok o w' →
  compatible (Control id) o.
Proof.
  intros Hrun (_ & _ & i & Hi & _) Ho Ho'. split; [|by intros [? _]]. intros id' [= <-] Hid.
  destruct o as [id'|id'| |]; try done; injection Hid as ->; [by destruct Ho|].
  destruct Ho' as [[Hn _]|(_ & Hn & _)]; congruence.
Qed.

(** The roles after a task has moved, and those of the tasks it started. *)
Lemma roles_advance w w' roles tasks n o o' t t' ts :
  roles_ok w roles tasks → roles !! n = Some o → tasks !! n = Some t → Inv w' → w_bind_failures w' = [] →
  guar o w w' → o' = o ∨ o' = Client → task_ok w' o' t' → started w w' ts →
  ∃ news, roles_ok w' (<[n := o']> roles ++ news) (<[n := t']> tasks ++ ts) ∧
    ∀ o0, o0 ∈ news → ∃ id, o0 = Control id ∧ full w' id.
Proof.
  intros [HF Hcomp] Ho Ht HI' Hf' Hg Ho' Hok Hst.
  assert (∀ m om, m ≠ n → roles !! m = Some om → rely om w w') as Hrely.
  { intros m om Hne Hm. eapply guar_rely; [|exact Hg]. by eapply (Hcomp n m). }
  assert (Forall2 (task_ok w') (<[n := o']> roles) (<[n := t']> tasks)) as HF'.
  { apply Forall2_same_length_lookup_2; [rewrite !length_insert; by eapply Forall2_length|].
    intros m om tm Hom Htm. destruct (decide (m = n)) as [->|Hne].
    - rewrite list_lookup_insert_eq in Hom by (by eapply lookup_lt_Some).
      rewrite list_lookup_insert_eq in Htm by (by eapply lookup_lt_Some). by injection Hom as <-; injection Htm as <-.
    - rewrite list_lookup_insert_ne in Hom by done. rewrite list_lookup_insert_ne in Htm by done. eapply task_ok_rely; [by eapply Hrely|].
      by eapply Forall2_lookup_lr. }
  assert (∀ m k om ok, m ≠ k → <[n := o']> roles !! m = Some om → <[n := o']> roles !! k = Some ok → compatible om ok) as Hcomp'.
  { assert (∀ k ok, k ≠ n → roles !! k = Some ok → compatible o' ok) as Hn.
    { intros k ok Hne Hk. destruct Ho' as [->| ->]; [by eapply (Hcomp n k)|apply compatible_client]. }
    intros m k om ok Hne Hm Hk. destruct (decide (m = n)) as [->|Hmn], (decide (k = n)) as [->|Hkn]; [done| | |].
    - rewrite list_lookup_insert_eq in Hm by (by eapply lookup_lt_Some). rewrite list_lookup_insert_ne in Hk by done.
      injection Hm as <-. by eapply Hn.
    - rewrite list_lookup_insert_eq in Hk by (by eapply lookup_lt_Some). rewrite list_lookup_insert_ne in Hm by done.
      injection Hk as <-. apply compatible_sym. by eapply Hn.
    - rewrite list_lookup_insert_ne in Hm by done. rewrite list_lookup_insert_ne in Hk by done. by eapply (Hcomp m k). }
  destruct Hst as [->|(id & -> & Hrun & Hctl)]; [exists []; rewrite !app_nil_r; split; [done|by intros ? ?%not_elem_of_nil]|].
  exists [Control id]. split; [|intros o0 ->%list_elem_of_singleton; exists id; split; [done|apply Hctl]].
  assert (∀ m om, <[n := o']> roles !! m = Some om → compatible (Control id) om) as Hnew.
  { intros m om Hom. destruct (decide (m = n)) as [->|Hne].
    - rewrite list_lookup_insert_eq in Hom by (by eapply lookup_lt_Some). injection Hom as <-.
      destruct Ho' as [->| ->]; [|apply compatible_sym, compatible_client].
      eapply spawned_compatible; [done|done| |apply Hok]. eapply Forall2_lookup_lr in HF as [? _]; done.
    - rewrite list_lookup_insert_ne in Hom by done.
      assert (role_ok om w) as Hrom.
      { destruct (Forall2_lookup_l _ _ _ _ _ HF Hom) as (tm & _ & [? _]). done. }
      eapply spawned_compatible; [done..|]. eapply role_ok_rely; [by eapply Hrely|done]. }
  split.
  - apply Forall2_app; [done|]. constructor; [|done]. split; [done|]. apply ctl_drive_round; [done..|].
    eapply control_tracks. split_and!; [apply rely_refl|done..].
  - intros m k om ok Hne [Hm|[Hm1 Hm2]]%lookup_app_Some [Hk|[Hk1 Hk2]]%lookup_app_Some; [by eapply (Hcomp' m k)| | |].
    + apply list_lookup_singleton_Some in Hk2 as [? <-]. apply compatible_sym. by eapply Hnew.
    + apply list_lookup_singleton_Some in Hm2 as [? <-]. by eapply Hnew.
    + apply list_lookup_singleton_Some in Hm2 as [? <-]. apply list_lookup_singleton_Some in Hk2 as [? <-]. lia.
Qed.

Lemma fresh_not_full w id : fresh w id → ¬ full w id.
Proof. intros (Hn & _) (i & Hi & _). congruence. Qed.

Lemma good_advance used c n io :
  good used c → w_bind_failures (cf_world c) = [] → w_bind_failures (cf_world (step c (Advance n io))) = [] →
  good used (step c (Advance n io)).
Proof.
  intros (HI & roles & Hroles & Hun) Hf. cbn [step]. destruct (cf_tasks c !! n) as [t|] eqn:Ht; [|by intros _; split; [|exists roles]].
  destruct (step_task answer io t (cf_world c)) as [[w' t'] ts] eqn:Hstep. cbn [cf_world]. intros Hf'.
  destruct (Forall2_lookup_r _ _ _ _ _ (proj1 Hroles) Ht) as (o & Ho & Hok).
  destruct (step_task_ok io t o (cf_world c) w' t' ts) as (HI' & Hg & Hst & o' & Ho' & Hok'); [done..|].
  destruct (roles_advance (cf_world c) w' roles (cf_tasks c) n o o' t t' ts) as (news & Hroles' & Hnews); [done..|].
  split; [done|]. exists (<[n := o']> roles ++ news). split; [done|]. intros uuid Hu. destruct (Hun uuid Hu) as [Hfr Hown].
  assert (owned o ≠ Some ("loop-" +:+ uuid)) as Hoo by (rewrite Forall_lookup in Hown; by eapply Hown).
  assert (fresh w' ("loop-" +:+ uuid)) as Hfr'.
  { destruct Hg as (_ & W & _). by eapply weak_fresh; [apply W|]. }
  split; [done|]. apply Forall_app. split.
  - apply Forall_insert; [done|]. by destruct Ho' as [->| ->].
  - apply Forall_forall. intros o0 (id & -> & Hfull)%Hnews [= ->]. by eapply fresh_not_full.
Qed.

Lemma unused_more used used' w roles : used ⊆ used' → unused used w roles → unused used' w roles.
Proof. intros Hs Hu uuid Hn. apply Hu. naive_solver. Qed.

Lemma roles_submit w roles tasks o t :
  roles_ok w roles tasks → task_ok w o t → (∀ o', o' ∈ roles → compatible o o') → roles_ok w (roles ++ [o]) (tasks ++ [t]).
Proof.
  intros [HF Hcomp] Hok Ho. split; [apply Forall2_app; [done|by constructor]|].
  intros m k om ok Hne [Hm|[Hm1 Hm2]]%lookup_app_Some [Hk|[Hk1 Hk2]]%lookup_app_Some; [by eapply (Hcomp m k)| | |].
  - apply list_lookup_singleton_Some in Hk2 as [? <-]. apply compatible_sym, Ho. by eapply list_elem_of_lookup_2.
  - apply list_lookup_singleton_Some in Hm2 as [? <-]. apply Ho. by eapply list_elem_of_lookup_2.
  - apply list_lookup_singleton_Some in Hm2 as [? <-]. apply list_lookup_singleton_Some in Hk2 as [? <-]. lia.
Qed.

Lemma good_submit used c r :
  good used c → Submit r ∈ choices → (∀ uuid, created [Submit r] = [uuid] → uuid ∉ used) →
  good (used ++ created [Submit r]) (step c (Submit r)).
Proof.
  intros (HI & roles & Hroles & Hun) Hin Hnew. split; [done|]. exists (roles ++ [request_role r]). cbn [step cf_world cf_tasks].
  assert (safe (serve r) anything (request_role r) (cf_world c)) as Hs by (by apply serve_safe).
  assert (∀ t, task_ok (cf_world c) Client t → roles_ok (cf_world c) (roles ++ [Client]) (cf_tasks c ++ [t]) ∧
    unused (used ++ []) (cf_world c) (roles ++ [Client])) as Hclient.
  { intros t Hok. rewrite app_nil_r. split; [apply roles_submit; [done|done|intros; apply compatible_client]|].
    intros uuid Hu. destruct (Hun uuid Hu). split; [done|]. apply Forall_app. split; [done|by apply Forall_singleton]. }
  destruct r as [uuid worker a expr n prompt|id user|id user|id user|id]; cbn [request_role created omap list_omap] in *.
  - destruct (Hun uuid (Hnew uuid eq_refl)) as [Hfr Hown]. split.
    + apply roles_submit; [done|split; [by left|done]|]. intros o' Ho'. rewrite Forall_forall in Hown. apply Hown in Ho'.
      split; [|by intros [? _]]. by intros id [= <-].
    + intros uuid' [Hu Hne]%not_elem_of_app. rewrite list_elem_of_singleton in Hne. destruct (Hun uuid' Hu) as [Hfr' Hown']. split; [done|].
      apply Forall_app. split; [done|]. apply Forall_singleton. cbn. intros [= Heq]. by apply str_app_inj_l in Heq.
  - by apply Hclient.
  - by apply Hclient.
  - by apply Hclient.
  - by apply Hclient.
Qed.

Lemma good_restart used c tenant has_identity : good used c → good used (step c (Restart tenant has_identity)).
Proof.
  intros (HI & roles & Hroles & Hun). cbn [step]. split.
  - destruct HI. by constructor.
  - exists [Boot]. split; [split|].
    + repeat constructor. by apply boot_safe.
    + intros n m o o' Hne [? <-]%list_lookup_singleton_Some [? <-]%list_lookup_singleton_Some. lia.
    + intros uuid Hu. destruct (Hun uuid Hu) as [(_ & ? & ? & ?) _]. split; [by split_and!|]. by repeat constructor.
Qed.

(** Every configuration of a run is good. *)
Lemma good_run l c used :
  good used c → l ⊆ choices → NoDup (used ++ created l) → bound_throughout answer c l = true →
  good (used ++ created l) (run c l) ∧ w_bind_failures (cf_world (run c l)) = [].
Proof.
  revert c used. induction l as [|ch l IH]; intros c used Hg Hsub Hnd Hb; cbn [bound_throughout] in Hb;
    apply andb_true_iff in Hb as [Hf%bool_decide_eq_true Hb].
  - by rewrite app_nil_r.
  - assert (w_bind_failures (cf_world (step c ch)) = []) as Hf'.
    { destruct l; cbn [bound_throughout] in Hb; by apply andb_true_iff in Hb as [?%bool_decide_eq_true _]. }
    assert (created (ch :: l) = created [ch] ++ created l) as Hcr by (unfold created; by rewrite <- omap_app).
    rewrite Hcr, (assoc_L (++)) in *. cbn [LoopService.run foldl].
    apply IH; [|intros x ?; apply Hsub; by right|done|done].
    destruct ch as [n io|r|tenant has]; [|apply good_submit|].
    + rewrite app_nil_r. by apply good_advance.
    + done.
    + apply Hsub. by left.
    + intros uuid Huuid. rewrite Huuid in Hnd. apply NoDup_app in Hnd as (Hnd & _ & _).
      apply NoDup_app in Hnd as (_ & Hd & _). intros Hin. apply (Hd uuid Hin). by left.
    + rewrite app_nil_r. by apply good_restart.
Qed.

Lemma good_initial : good [] initial.
Proof.
  split; [constructor; try done; by constructor|]. exists []. split; [split; [constructor|done]|].
  intros uuid _. split; [by split_and!|constructor].
Qed.
End run.

(** ** Guarantees *)

(** What is asked of a run: answers are well formed, requests are of their type, and the
    identifiers drawn for new loops are distinct. *)
Definition runs_ok `{UraLib, SerdeJson, Hex, LoopCodec} (answer : Call → result error LoopInvocationOutcome)
    (choices : list Choice) : Prop :=
  (∀ c o, answer c = Ok o → outcome_wf o) ∧ u32_requests choices ∧ NoDup (created choices).

(** The slots of a loop: body and verification of each iteration. *)
Definition slots (n : Z) : list (Z * LoopInvocationKind) := ((., Body) <$> seqZ 1 n) ++ ((., Verify) <$> seqZ 1 n).

Lemma elem_of_slots n k : 1 ≤ k.1 ≤ n → k ∈ slots n.
Proof.
  destruct k as [i []]; cbn; intros Hb; apply elem_of_app; [left|right];
    (apply list_elem_of_fmap; exists i; split; [done|apply elem_of_seqZ; lia]).
Qed.
Lemma length_slots n : 0 ≤ n → Z.of_nat (length (slots n)) = 2 * n.
Proof. intros Hn. unfold slots. rewrite length_app, !length_fmap, !length_seqZ. lia. Qed.

(** With distinct keys there is one element for each. *)
Lemma omap_unique {A B} (f : A → option B) (l : list A) x y b :
  NoDup (omap f l) → x ∈ l → y ∈ l → f x = Some b → f y = Some b → x = y.
Proof.
  assert (∀ z (l : list A), z ∈ l → f z = Some b → b ∈ omap f l) as Hin.
  { intros z l' Hz Hf. apply list_elem_of_omap. by exists z. }
  induction l as [|z l IH]; intros Hnd Hx Hy Hfx Hfy; [by apply not_elem_of_nil in Hx|].
  cbn in Hnd. apply elem_of_cons in Hx as [->|Hx], Hy as [->|Hy]; [done| | |].
  - rewrite Hfx in Hnd. apply NoDup_cons in Hnd as [Hn _]. by destruct Hn; eapply Hin.
  - rewrite Hfy in Hnd. apply NoDup_cons in Hnd as [Hn _]. by destruct Hn; eapply Hin.
  - apply IH; try done. destruct (f z); [by apply NoDup_cons in Hnd as [_ ?]|done].
Qed.

Lemma NoDup_calls_of w id :
  NoDup ((λ c, (call_loop c, call_key c)) <$> w_calls w) → NoDup (call_key <$> calls_of id w).
Proof.
  intros Hnd. unfold calls_of. induction (w_calls w) as [|c l IH]; [constructor|].
  cbn in Hnd. apply NoDup_cons in Hnd as [Hn Hnd]. rewrite filter_cons. case_decide as Hc; [|by apply IH].
  cbn. apply NoDup_cons. split; [|by apply IH]. intros (c' & Hk & [Hc' Hin]%list_elem_of_filter)%list_elem_of_fmap.
  apply Hn. apply list_elem_of_fmap. exists c'. split; [by rewrite Hk, Hc', Hc|done].
Qed.

Section refused.
Context `{!UraLib, !Hex}.

Lemma announced_invalid i : announced i → ∃ e, validate_loop_invocation_ledger i = Err e.
Proof.
  intros (Hc & _). unfold validate_loop_invocation_ledger. destruct (validate_records _ _ _) as [q|e] eqn:Hv; [|by eexists].
  apply validate_records_last in Hv as ->. cbn. unfold last_iter in Hc. unfold last_from.
  destruct (last (li_invocation_ledger i)) as [r|]; rewrite Hc; (rewrite (proj2 (Z.eqb_neq _ _)) by lia); by eexists.
Qed.

(** C27 (error): a start on an announcement fails: when the daemon stops after it
    stored that an iteration begins and before it stored the reservation, what is
    on disk is refused, and every later start fails to bind its store. *)
Theorem announced_unbinds s l i : announced i → i ∈ l → ∃ s' e, bind_loaded s l = (s', Err e).
Proof.
  intros Ha. revert s. induction l as [|j l IH]; intros s Hi; [by apply not_elem_of_nil in Hi|].
  cbn. unfold bind_one. destruct (validate_loop_authority _ _) as [u|e]; [|by eexists _, _].
  apply elem_of_cons in Hi as [<-|Hi].
  - destruct (announced_invalid i Ha) as [e ->]. by eexists _, _.
  - destruct (validate_loop_invocation_ledger j); [by apply IH|by eexists _, _].
Qed.
End refused.

Section theorems.
Context `{!UraLib, !SerdeJson, !Hex, !HexLaws, !LoopCodec, !LoopCodecLaws}.
Context (answer : Call → result error LoopInvocationOutcome) (choices : list Choice).
Notation final := (cf_world (run answer initial choices)).

Lemma run_Inv : runs_ok answer choices → bound_throughout answer initial choices = true → Inv answer choices final.
Proof using All.
  intros (Hwf & Hu & Hnd) Hb. destruct (good_run answer choices Hwf Hu choices initial []) as [[HI _] _]; try done.
  by apply good_initial.
Qed.

(** C3 (safety): no invocation is made twice as long as every start of the daemon binds
    its store.  From an empty directory, across restarts and whatever the scheduler and
    the disk do between them, a loop's controller invokes the body and the verification
    of each iteration at most once, up to the first start that fails to bind. *)
Theorem dispatch_at_most_once :
  runs_ok answer choices → bound_throughout answer initial choices = true →
  NoDup ((λ c, (call_loop c, call_iter c, call_kind c)) <$> w_calls final).
Proof using All.
  intros Hok Hb. pose proof (inv_once _ _ _ (run_Inv Hok Hb)) as Hnd.
  assert ((λ c, (call_loop c, call_iter c, call_kind c)) <$> w_calls final =
          (λ x : string * (Z * LoopInvocationKind), (x.1, x.2.1, x.2.2)) <$> ((λ c, (call_loop c, call_key c)) <$> w_calls final)) as ->.
  { rewrite <- list_fmap_compose. by apply list_fmap_ext. }
  apply NoDup_fmap_2_strong; [|done]. by intros [a [b c]] [a' [b' c']] _ _ [= -> -> ->].
Qed.

(** C15 (safety): as long as every start of the daemon binds its store, every invocation
    is one a request asked for: to the worker and on the authority of a creation that
    passed validation, in an iteration within its limit, with the prompt of that loop,
    and as the causal successor of the answered invocation it depends on - a
    verification after its body, the next body after a verification that answered
    "not done". *)
Theorem dispatch_justified :
  runs_ok answer choices → bound_throughout answer initial choices = true →
  Forall (λ c, justified answer choices (calls_of (call_loop c) final) c) (w_calls final).
Proof using All. intros Hok Hb. by apply inv_calls, run_Inv. Qed.

(** A loop makes at most two invocations per iteration it was
    granted, however often the daemon restarts with its store bound. *)
Theorem dispatch_bound uuid worker a expr n prompt :
  runs_ok answer choices → bound_throughout answer initial choices = true → Submit (ReqCreate uuid worker a expr n prompt) ∈ choices →
  Z.of_nat (length (calls_of ("loop-" +:+ uuid) final)) ≤ 2 * n.
Proof using All.
  intros Hok Hb Hin. pose proof (run_Inv Hok Hb) as HI. destruct Hok as (_ & Hu & Hnd). pose proof (Hu _ _ _ _ _ _ Hin) as Hn.
  rewrite <- length_slots, <- (length_fmap call_key) by lia. apply inj_le, submseteq_length, NoDup_submseteq.
  - apply NoDup_calls_of, HI.
  - intros k (c & -> & [Hc Hcin]%list_elem_of_filter)%list_elem_of_fmap. apply elem_of_slots. cbn.
    pose proof (inv_calls _ _ _ HI) as Hj. rewrite Forall_forall in Hj.
    destruct (Hj c Hcin) as (i & (uuid' & t & worker' & a' & e' & n' & p' & Hin' & _ & _ & Hb') & Hl & _ & _ & Hit & _).
    injection Hb' as Hid _ _ _ _ _ Hmax. rewrite Hc, Hid in Hl. apply str_app_inj_l in Hl as <-.
    assert (Submit (ReqCreate uuid worker a expr n prompt) = Submit (ReqCreate uuid worker' a' e' n' p')) as [= _ _ _ <- _]
      by (by eapply omap_unique). by rewrite <- Hmax.
Qed.

(** C21 (invariant): as long as every start of the daemon binds its store, the ledgers are
    true and fit to resume from: of every instance in memory and every record on disk
    the completed entries are what calls answered, and it passes the validation of the
    ledger, except between the announcement of an iteration and its reservation. *)
Theorem ledger_invariant i :
  runs_ok answer choices → bound_throughout answer initial choices = true →
  (w_cache final !! li_id i = Some i ∨ ∃ path body v, w_files final !! path = Some body ∧ on_disk_parse body = Ok (v, i)) →
  truthful answer (calls_of (li_id i) final) i ∧ validate_loop_authority (li_worker_agent i) (li_authority i) = Ok tt ∧
  (validate_loop_invocation_ledger i = Ok tt ∨ announced i).
Proof using All.
  intros Hok Hb Hi. pose proof (run_Inv Hok Hb) as HI. assert (instance_ok answer choices (calls_of (li_id i) final) i) as (Hr & Hw & Ht & _).
  { destruct Hi as [Hi|(path & body & v & Hf & Hp)]; [by apply (inv_cache _ _ _ HI)|].
    by apply (inv_files _ _ _ HI path body Hf v i Hp). }
  split; [done|]. split.
  - destruct Hr as (uuid & t & worker & a & e & n & p & _ & _ & Ha & Hb'). injection Hb' as ? ? -> -> ? ? ?. done.
  - destruct Hw as (Hv & _ & [Hc|Ha]); [left|by right]. unfold validate_loop_invocation_ledger. rewrite Hv. cbn.
    unfold last_iter in Hc. destruct (last (li_invocation_ledger i)); by rewrite Hc, Z.eqb_refl.
Qed.
End theorems.
