(* ===== verification/LoopOutcome.v ===== *)
(** * Loops: what an undisturbed loop does

    A controller that is left alone on a disk that works ends, and ends as the
    plain description of a loop says: the body, its verification, and again until
    the verification passes, cannot be read, an invocation fails, or the
    iterations are used up. *)

From Stdlib Require Import String Ascii.
From S2P Require Import Prelude RustStd Text Ura Json Programs LoopLedger LoopService LoopSafe LoopActions.

Open Scope Z_scope.

Section outcome.
Context `{!UraLib, !SerdeJson, !Hex, !HexLaws, !LoopCodec}.
Context (answer : Call → result error LoopInvocationOutcome).

(** ** The reference *)

(** The state a loop with [n + 1] iterations left ends in and the calls it makes,
    from the body of iteration [iter] with causal context [causal]. *)
Fixpoint outcome (i : LoopInstance) (n : nat) (iter : Z) (causal : LoopCausalContext) : LoopState * list Call :=
  let call kind prompt causal := mk_Call (li_id i) iter (li_worker_agent i) (li_authority i) prompt kind causal in
  let receipt o := CausalScalar (lo_receipt_hash o) (lo_receipt_ura o) in
  let b := call Body (li_body_prompt i) causal in
  match answer b with
  | Err _ => (Failed, [b])
  | Ok ob =>
      let v := call Verify (render_verify_prompt (li_verify_expr i) iter (lo_output ob)) (receipt ob) in
      match answer v with
      | Err _ => (Failed, [b; v])
      | Ok ov =>
          match parse_verify_done (lo_output ov), n with
          | Err _, _ => (VerifyMalformed, [b; v])
          | Ok true, _ => (Done, [b; v])
          | Ok false, O => (Exhausted, [b; v])
          | Ok false, S n =>
              let '(s, cs) := outcome i n (iter + 1) (receipt ov) in (s, b :: v :: cs)
          end
      end
  end.

(** ** Running alone *)

(** A program run to its end without interruption, on a disk that works. *)
Fixpoint exec {A} (p : Prog A) (w : World) : option A * World :=
  match p with
  | Ret a => (Some a, w)
  | Panic => (None, w)
  | Act act k => let '(w', x) := act None w in exec (k x) w'
  | Spawn id k =>
      if bool_decide (id ∈ ls_running (w_svc w)) then exec (k false) w
      else exec (k true) (on_svc (λ s, set_running ({[id]} ∪ ls_running s) s) w)
  end.

(** [p] ends from [w] with a value and in a world that satisfy [Q]. *)
Definition ends {A} (p : Prog A) (w : World) (Q : A → World → Prop) : Prop :=
  ∃ a w', exec p w = (Some a, w') ∧ Q a w'.

Lemma ends_bind {A B} (p : Prog A) (f : A → Prog B) w Q :
  ends p w (λ a w', ends (f a) w' Q) → ends (prog_bind p f) w Q.
Proof.
  intros (a & w1 & Hp & b & w2 & Hf & HQ). exists b, w2. split; [|done]. clear HQ.
  revert w Hp. induction p as [x| |X act k IH|id k IH]; intros w Hp; cbn in *.
  - by injection Hp as -> ->.
  - done.
  - destruct (act None w) as [w' x]. by apply IH.
  - destruct (bool_decide _); by apply IH.
Qed.

(** A step of a program with [?] that returns. *)
Lemma ends_try {A B} (p : prog A) (f : A → prog B) w Q :
  ends p w (λ r w', ∃ a, r = Ok a ∧ ends (f a) w' Q) → ends (p ≫= f) w Q.
Proof.
  intros (r & w1 & Hp & a & -> & Hf). apply ends_bind. exists (Ok a), w1. done.
Qed.

Lemma ends_lift {A B} (r : result error A) a (f : A → prog B) w Q : r = Ok a → ends (f a) w Q → ends (lift r ≫= f) w Q.
Proof. by intros ->. Qed.

Lemma ends_ret {A} (a : A) w (Q : A → World → Prop) : Q a w → ends (Ret a) w Q.
Proof. intros HQ. by exists a, w. Qed.

Lemma ends_mono {A} (p : Prog A) w (Q R : A → World → Prop) : (∀ a w', Q a w' → R a w') → ends p w Q → ends p w R.
Proof. intros HQ (a & w' & ? & ?). exists a, w'. auto. Qed.

(** ** Operations *)

(** The loop as it is in memory, and the calls made. *)
Definition at_loop (id : string) (j : LoopInstance) (C : list Call) (w : World) : Prop :=
  w_cache w !! id = Some j ∧ ls_cache_poisoned (w_svc w) = false ∧ w_calls w = C.

(** Every instance has a text. *)
Hypothesis text_total : ∀ i, ∃ body, on_disk_text SCHEMA_VERSION i = Ok body.

Lemma ends_status id j C w Q : at_loop id j C w → Q (Ok (Some j)) w → ends (status id) w Q.
Proof. intros (Hj & Hp & _) HQ. exists (Ok (Some j)), w. cbn. by rewrite Hp, Hj. Qed.

Lemma ends_persist id j C i w Q : at_loop id j C w → (∀ w', at_loop id j C w' → Q (Ok tt) w') →
  ends (persist_instance i) w Q.
Proof using text_total.
  intros Hat HQ. apply ends_try. exists (Ok (ls_store (w_svc w))), w. split; [done|]. exists (ls_store (w_svc w)). split; [done|].
  destruct (ls_store (w_svc w)); [|by apply ends_ret, HQ].
  unfold save. destruct (text_total i) as [body Hb]. eapply ends_lift; [by rewrite Hb|]. apply ends_try. exists (Ok tt), (on_files <[tmp_path (li_id i) := body]> w).
  split; [done|]. exists tt. split; [done|]. eexists _, _. cbn. rewrite lookup_insert_eq. split; [done|]. by apply HQ.
Qed.

Lemma ends_mutate id j C f j' w Q : at_loop id j C w → f j = Some j' → (∀ w', at_loop id j' C w' → Q (Ok j') w') →
  ends (try_mutate id f) w Q.
Proof using text_total.
  intros (Hj & Hp & Hc) Hf HQ. apply ends_try. exists (Ok j'), (put id j' w). cbn. rewrite Hp, Hj, Hf. split; [done|].
  exists j'. split; [done|]. apply ends_try.
  assert (at_loop id j' C (put id j' w)) as Hat by (split_and!; [by rewrite put_cache, lookup_insert_eq|done|done]).
  eapply ends_persist; [exact Hat|]. intros w' Hw'. exists tt. split; [done|]. apply ends_ret. by apply HQ.
Qed.

Lemma ends_frame id id' j C frame w Q : at_loop id j C w → (∀ w', at_loop id j C w' → Q (Ok tt) w') →
  ends (record_frame id' frame) w Q.
Proof.
  intros Hat HQ. apply ends_try. eexists (Ok tt), _. split; [done|]. exists tt. split; [done|].
  set (w1 := on_svc _ w). assert (∃ h, ls_streams (w_svc w1) !! id' = Some h) as [h Hh].
  { subst w1. cbn. destruct (ls_streams (w_svc w) !! id') as [h|] eqn:Hs; cbn; [by exists h; rewrite Hs|].
    exists []. by rewrite lookup_insert_eq. }
  assert (at_loop id j C w1) as Hat1 by done. clearbody w1.
  eexists (Ok tt), _. cbn. rewrite Hh. split; [done|]. by apply HQ.
Qed.

Lemma ends_terminal id j C s w Q : at_loop id j C w → (∀ w', at_loop id (set_state s j) C w' → Q (Ok tt) w') →
  ends (record_terminal id s) w Q.
Proof using text_total.
  intros Hat HQ. apply ends_try. eapply ends_mutate; [exact Hat|done|]. intros w1 H1'. eexists. split; [done|].
  by eapply ends_frame.
Qed.

Lemma ends_stop {A} id j C s (a : A) w Q : at_loop id j C w → (∀ w', at_loop id (set_state s j) C w' → Q (Ok a) w') →
  ends (record_terminal id s ≫= λ _, mret a) w Q.
Proof using text_total.
  intros Hat HQ. apply ends_try. eapply ends_terminal; [exact Hat|]. intros w1 Hat1. eexists. split; [done|]. by apply ends_ret, HQ.
Qed.

(** ** Rounds *)

Definition ongoing (j : LoopInstance) : Prop := is_terminal (li_state j) = false.

(** A round up to the choice of the next invocation. *)
Lemma ends_round_next id j C w Q :
  at_loop id j C w → ongoing j → completed (li_invocation_ledger j) →
  ends (next_invocation id j) w (λ r w', match r with
    | Ok None => Q (Ok Return) w'
    | Ok (Some (iter, kind, prompt)) => ends (run_invocation answer id j iter kind prompt) w' Q
    | Err _ => False end) →
  ends (drive_round answer id) w Q.
Proof.
  intros Hat Hon Hc Hn. apply ends_try. eapply ends_status; [exact Hat|]. eexists. split; [done|]. eapply ends_lift; [done|].
  unfold ongoing in Hon. rewrite Hon.
  assert (ends (n ← next_invocation id j;
    match n with
    | None => mret Return
    | Some (iter, kind, prompt) => run_invocation answer id j iter kind prompt
    end) w Q) as Hgo.
  { apply ends_try. eapply ends_mono; [|exact Hn]. intros [[[[iter kind] prompt]|]|e] w' HQ; [| |done].
    - by eexists.
    - eexists. split; [done|]. by apply ends_ret. }
  destruct (last (li_invocation_ledger j)) as [r|] eqn:Hl; [|done].
  unfold completed in Hc. rewrite Forall_forall in Hc. rewrite (Hc r) by (by eapply last_Some_elem_of). done.
Qed.

(** The outcome of an invocation, in the instance. *)
Definition answered (j j' : LoopInstance) (iter : Z) (kind : LoopInvocationKind) (o : LoopInvocationOutcome) : Prop :=
  base j' = base j ∧ ongoing j' ∧
  li_invocation_ledger j' =
    li_invocation_ledger j ++ [completed_record o (reserved_record iter kind (last (li_invocation_ledger j)))].

Lemma ends_announce id j C iter kind w : at_loop id j C w → ongoing j →
  ends ((if bool_decide (kind = Body) then
           _ ← mutate id (λ s, set_iter iter (set_state Running s)); record_frame id (iter_started_frame id iter)
         else mret tt) : prog unit) w
    (λ r w', r = Ok tt ∧ ∃ j1, at_loop id j1 C w' ∧ base j1 = base j ∧ ongoing j1 ∧ li_invocation_ledger j1 = li_invocation_ledger j).
Proof using text_total.
  intros Hat Hon. destruct kind.
  - rewrite bool_decide_true by done. apply ends_try. eapply ends_mutate; [exact Hat|done|]. intros w1 Hat1.
    eexists. split; [done|]. eapply ends_frame; [exact Hat1|]. intros w2 Hat2. split; [done|]. by eexists.
  - rewrite bool_decide_false by done. apply ends_ret. split; [done|]. by exists j.
Qed.

Lemma ends_reserve id j C iter kind parent w Q :
  at_loop id j C w → existsb (has_key iter kind) (li_invocation_ledger j) = false →
  (∀ w', at_loop id (set_ledger (li_invocation_ledger j ++ [reserved_record iter kind parent]) j) C w' → Q (Ok tt) w') →
  ends (reserve_loop_invocation id iter kind parent) w Q.
Proof using text_total.
  intros Hat Hkey HQ. apply ends_try. eapply ends_status; [exact Hat|]. eexists. split; [done|]. eapply ends_lift; [done|].
  eapply ends_lift; [by rewrite Hkey|]. apply ends_try. eapply ends_mutate; [exact Hat|done|]. intros w1 Hat1.
  eexists. split; [done|]. apply ends_ret. by apply HQ.
Qed.

Lemma ends_update_reserved id j C l r upd w Q :
  at_loop id j C w → li_invocation_ledger j = l ++ [r] → lr_state r = Reserved →
  (∀ w', at_loop id (set_ledger (l ++ [upd r]) j) C w' → Q (Ok tt) w') →
  ends (update_reserved_loop_invocation id (lr_iter r) (lr_kind r) upd) w Q.
Proof using text_total.
  intros Hat Hl Hr HQ. assert (has_key (lr_iter r) (lr_kind r) r = true) as Hk by (by apply has_key_spec).
  apply ends_try. eapply ends_status; [exact Hat|]. eexists. split; [done|]. eapply ends_lift; [done|].
  eapply ends_lift; [by rewrite Hl, rfind_last|]. eapply ends_lift; [by rewrite Hr|].
  apply ends_try. eapply ends_mutate; [exact Hat|by rewrite Hl, rfind_update_last|].
  intros w' Hw'. eexists. split; [done|]. apply ends_ret. by apply HQ.
Qed.

Lemma ends_invocation id j C iter kind prompt causal w Q :
  let c := mk_Call id iter (li_worker_agent j) (li_authority j) prompt kind causal in
  at_loop id j C w → ongoing j → loop_causal_context (last (li_invocation_ledger j)) = Ok causal →
  existsb (has_key iter kind) (li_invocation_ledger j) = false →
  (∀ o j' w', answer c = Ok o → answered j j' iter kind o → at_loop id j' (C ++ [c]) w' → Q (Ok Continue) w') →
  (∀ e j' w', answer c = Err e → li_state j' = Failed → at_loop id j' (C ++ [c]) w' → Q (Ok Return) w') →
  ends (run_invocation answer id j iter kind prompt) w Q.
Proof using text_total.
  intros c Hat Hon Hcausal Hkey HOk HErr. unfold run_invocation.
  apply ends_try. apply ends_try. eapply ends_status; [exact Hat|]. eexists. split; [done|]. apply ends_ret. eexists. split; [done|].
  rewrite bool_decide_false by (intros Hs; unfold ongoing in Hon; by rewrite Hs in Hon).
  apply ends_try. eapply ends_mono; [|by apply (ends_announce id j C iter kind)].
  intros r w1 [-> (j1 & Hat1 & Hb1 & Hon1 & Hl1)]. eexists. split; [done|]. eapply ends_lift; [exact Hcausal|].
  set (r0 := reserved_record iter kind (last (li_invocation_ledger j))).
  apply ends_try. eapply ends_reserve; [exact Hat1|by rewrite Hl1|]. fold r0. rewrite Hl1. intros w2 Hat2. eexists. split; [done|].
  apply ends_try. apply ends_bind. eexists _, (add_call c w2). split; [done|]. apply ends_ret. eexists. split; [done|].
  assert (at_loop id (set_ledger (li_invocation_ledger j ++ [r0]) j1) (C ++ [c]) (add_call c w2)) as Hat3.
  { destruct Hat2 as (? & ? & Hcs). split_and!; [done..|]. cbn. by rewrite Hcs. }
  fold c. destruct (answer c) as [o|e] eqn:Ha.
  - apply ends_try. eapply (ends_update_reserved id _ _ _ r0); [exact Hat3|done|done|]. intros w3 Hat4. eexists. split; [done|].
    apply ends_try. eapply ends_mutate; [exact Hat4|done|]. intros w4 Hat5. eexists. split; [done|].
    apply ends_try. eapply ends_frame; [exact Hat5|]. intros w5 Hat6. eexists. split; [done|]. apply ends_ret.
    eapply HOk; [done| |exact Hat6]. split_and!; [exact Hb1|exact Hon1|done].
  - apply ends_try. eapply (ends_update_reserved id _ _ _ r0); [exact Hat3|done|done|]. intros w3 Hat4. eexists. split; [done|].
    apply ends_try. eapply ends_mutate; [exact Hat4|done|]. intros w4 Hat5. eexists. split; [done|].
    apply ends_try. eapply ends_frame; [exact Hat5|]. intros w5 Hat6. eexists. split; [done|].
    apply ends_try. eapply ends_terminal; [exact Hat6|]. intros w6 Hat7. eexists. split; [done|]. apply ends_ret.
    eapply HErr; [done| |exact Hat7]. done.
Qed.

(** ** Loops *)

(** The rounds of [drive_loop] until it returns. *)
Inductive drives (id : string) : World → World → Prop :=
| drives_return w w' : exec (drive_round answer id) w = (Some (Ok Return), w') → drives id w w'
| drives_continue w w1 w' : exec (drive_round answer id) w = (Some (Ok Continue), w1) → drives id w1 w' → drives id w w'.

Definition drives_to (id : string) (w : World) (Q : World → Prop) : Prop := ∃ w', drives id w w' ∧ Q w'.

Lemma drives_round id w Q :
  ends (drive_round answer id) w (λ r w', match r with
    | Ok Return => Q w' | Ok Continue => drives_to id w' Q | Err _ => False end) → drives_to id w Q.
Proof.
  intros ([[]|e] & w1 & He & HQ); [|by exists w1; split; [apply drives_return|]|done].
  destruct HQ as (w' & Hd & HQ). exists w'. split; [by eapply drives_continue|done].
Qed.

Hypothesis answer_wf : ∀ c o, answer c = Ok o → outcome_wf o.

Lemma causal_completed c o r : answer c = Ok o →
  loop_causal_context (Some (completed_record o r)) = Ok (CausalScalar (lo_receipt_hash o) (lo_receipt_ura o)).
Proof using All.
  intros (_ & _ & Hlen)%answer_wf. unfold loop_causal_context, with_context. cbn. rewrite hex_roundtrip. cbn. by rewrite Hlen.
Qed.

Lemma no_key iter kind l : Forall (λ r, lr_iter r = iter → lr_kind r ≠ kind) l → existsb (has_key iter kind) l = false.
Proof.
  intros Hl. apply not_true_iff_false. rewrite existsb_exists. intros (r & Hr%list_elem_of_In & Hk).
  apply has_key_spec in Hk. injection Hk as <- <-. rewrite Forall_forall in Hl. by apply (Hl r Hr).
Qed.

Lemma base_fields i j : base j = base i →
  li_worker_agent j = li_worker_agent i ∧ li_authority j = li_authority i ∧ li_verify_expr j = li_verify_expr i ∧
  li_body_prompt j = li_body_prompt i ∧ li_max_iters j = li_max_iters i.
Proof. unfold base. intros [= ? ? ? ? ? ? ?]. done. Qed.

(** From the choice of the body of an iteration to the end of the loop. *)
Definition outcome_spec (i : LoopInstance) (n : nat) : Prop := ∀ iter causal j C w,
  base j = base i → ongoing j → completed (li_invocation_ledger j) → li_max_iters i = iter + Z.of_nat n → 1 ≤ iter →
  Forall (λ r, lr_iter r < iter) (li_invocation_ledger j) →
  loop_causal_context (last (li_invocation_ledger j)) = Ok causal → at_loop (li_id i) j C w →
  (∀ Q : result error (option (Z * LoopInvocationKind * string)) → World → Prop,
     (∀ w', at_loop (li_id i) j C w' → Q (Ok (Some (iter, Body, li_body_prompt i))) w') → ends (next_invocation (li_id i) j) w Q) →
  drives_to (li_id i) w (λ w', ∃ j', at_loop (li_id i) j' (C ++ (outcome i n iter causal).2) w' ∧
    li_state j' = (outcome i n iter causal).1).

(** A verification that answered, and what the next round makes of it. *)
Definition verified (j : LoopInstance) (iter : Z) (ov : LoopInvocationOutcome) : Prop :=
  ∃ r, last (li_invocation_ledger j) = Some (completed_record ov r) ∧ lr_kind r = Verify ∧ lr_iter r = iter.

Lemma ends_next_body id j C iter ov w Q :
  at_loop id j C w → verified j iter ov → parse_verify_done (lo_output ov) = Ok false → 0 ≤ iter < li_max_iters j →
  li_max_iters j ≤ u32_max → (∀ w', at_loop id j C w' → Q (Ok (Some (iter + 1, Body, li_body_prompt j))) w') →
  ends (next_invocation id j) w Q.
Proof.
  intros Hat (r & Hl & Hk & Hi) Hp Hlt Hu HQ. unfold next_invocation. rewrite Hl. cbn [lr_kind completed_record]. rewrite Hk.
  eapply ends_lift; [done|]. cbn [lr_iter completed_record]. rewrite Hi, Hp, (proj2 (Z.leb_gt _ _)) by lia.
  unfold u32_next. rewrite Z.mod_small by (unfold u32_max in Hu; lia).
  apply ends_try. eapply ends_frame; [exact Hat|]. intros w1 Hat1. eexists. split; [done|]. by apply ends_ret, HQ.
Qed.

(** The state a verification ends the loop in. *)
Definition verdict (r : result error bool) : LoopState :=
  match r with Err _ => VerifyMalformed | Ok true => Done | Ok false => Exhausted end.

Lemma ends_next_stop id j C iter ov w Q :
  at_loop id j C w → verified j iter ov →
  (parse_verify_done (lo_output ov) = Ok false → li_max_iters j ≤ iter) →
  (∀ j' w', at_loop id j' C w' → li_state j' = verdict (parse_verify_done (lo_output ov)) → Q (Ok None) w') →
  ends (next_invocation id j) w Q.
Proof using text_total.
  intros Hat (r & Hl & Hk & Hi) Hle HQ. unfold next_invocation. rewrite Hl. cbn [lr_kind completed_record]. rewrite Hk.
  eapply ends_lift; [done|]. cbn [lr_iter completed_record]. rewrite Hi.
  destruct (parse_verify_done (lo_output ov)) as [passed|e].
  - apply ends_try. eapply ends_frame; [exact Hat|]. intros w1 Hat1. eexists. split; [done|]. destruct passed.
    + eapply ends_stop; [exact Hat1|]. intros w2 Hat2. by eapply HQ.
    + rewrite (proj2 (Z.leb_le _ _)) by (by apply Hle). eapply ends_stop; [exact Hat1|]. intros w2 Hat2. by eapply HQ.
  - apply ends_try. eapply ends_mutate; [exact Hat|done|]. intros w1 Hat1. eexists. split; [done|].
    eapply ends_stop; [exact Hat1|]. intros w2 Hat2. by eapply HQ.
Qed.

(** The rounds after a verification answered. *)
Definition after_verify (i : LoopInstance) (n : nat) (iter : Z) (ov : LoopInvocationOutcome) : LoopState * list Call :=
  match parse_verify_done (lo_output ov), n with
  | Ok false, S n => outcome i n (iter + 1) (CausalScalar (lo_receipt_hash ov) (lo_receipt_ura ov))
  | r, _ => (verdict r, [])
  end.

Lemma outcome_eq i n iter causal :
  let b := mk_Call (li_id i) iter (li_worker_agent i) (li_authority i) (li_body_prompt i) Body causal in
  outcome i n iter causal =
    match answer b with
    | Err _ => (Failed, [b])
    | Ok ob =>
        let v := mk_Call (li_id i) iter (li_worker_agent i) (li_authority i)
                   (render_verify_prompt (li_verify_expr i) iter (lo_output ob)) Verify
                   (CausalScalar (lo_receipt_hash ob) (lo_receipt_ura ob)) in
        let rest := match answer v with Err _ => (Failed, []) | Ok ov => after_verify i n iter ov end in
        (rest.1, b :: v :: rest.2)
    end.
Proof.
  intros b. unfold after_verify. destruct n; cbn [outcome]; fold b; (destruct (answer b) as [ob|]; [|done]); cbn zeta;
    (destruct (answer _) as [ov|]; [|done]); destruct (parse_verify_done _) as [[]|]; try done.
  by destruct (outcome i n _ _).
Qed.

Lemma drives_verified i n iter ov c j C w :
  (∀ m, n = S m → outcome_spec i m) → li_max_iters i ≤ u32_max →
  answer c = Ok ov → base j = base i → ongoing j → completed (li_invocation_ledger j) → li_max_iters i = iter + Z.of_nat n →
  1 ≤ iter → Forall (λ r, lr_iter r ≤ iter) (li_invocation_ledger j) → verified j iter ov → at_loop (li_id i) j C w →
  drives_to (li_id i) w (λ w', ∃ j', at_loop (li_id i) j' (C ++ (after_verify i n iter ov).2) w' ∧
    li_state j' = (after_verify i n iter ov).1).
Proof using All.
  intros IH Hu Ha Hb Hon Hc Hmax H1' Hle Hv Hat. destruct (base_fields _ _ Hb) as (_ & _ & _ & Hbp & Hm).
  assert ((parse_verify_done (lo_output ov) = Ok false → li_max_iters j ≤ iter) →
    after_verify i n iter ov = (verdict (parse_verify_done (lo_output ov)), []) →
    drives_to (li_id i) w (λ w', ∃ j', at_loop (li_id i) j' (C ++ (after_verify i n iter ov).2) w' ∧
      li_state j' = (after_verify i n iter ov).1)) as Hstop.
  { intros Hlast ->. apply drives_round. eapply ends_round_next; [exact Hat|done|done|].
    eapply ends_next_stop; [exact Hat|exact Hv|done|]. intros j' w1 Hat1 Hs. exists j'. by rewrite app_nil_r. }
  unfold after_verify in *. destruct (parse_verify_done (lo_output ov)) as [[]|e] eqn:Hp; [by apply Hstop| |by apply Hstop].
  destruct n as [|m]; [apply Hstop; [intros _; lia|done]|].
  eapply (IH m eq_refl _ _ j); try done; [lia|lia| | |].
  - eapply Forall_impl; [exact Hle|]. cbn. lia.
  - destruct Hv as (r & -> & _). by eapply causal_completed.
  - intros Q HQ. rewrite <- Hbp in HQ. eapply ends_next_body; [exact Hat|exact Hv|done|lia|lia|exact HQ].
Qed.

(** The ledger after an answered invocation. *)
Lemma answered_completed j j' iter kind o : answered j j' iter kind o → completed (li_invocation_ledger j) →
  completed (li_invocation_ledger j').
Proof. intros (_ & _ & ->) Hc. apply Forall_app. split; [done|by apply Forall_singleton]. Qed.
Lemma answered_le j j' iter kind o : answered j j' iter kind o → Forall (λ r, lr_iter r ≤ iter) (li_invocation_ledger j) →
  Forall (λ r, lr_iter r ≤ iter) (li_invocation_ledger j').
Proof. intros (_ & _ & ->) Hc. apply Forall_app. split; [done|]. apply Forall_singleton. cbn. lia. Qed.
Lemma answered_last j j' iter kind o : answered j j' iter kind o →
  last (li_invocation_ledger j') = Some (completed_record o (reserved_record iter kind (last (li_invocation_ledger j)))).
Proof. intros (_ & _ & ->). apply last_snoc. Qed.

(** The rounds after a body answered. *)
Lemma drives_body_done i n iter ob j0 j C w c :
  (∀ m, n = S m → outcome_spec i m) → li_max_iters i ≤ u32_max → answer c = Ok ob →
  base j0 = base i → completed (li_invocation_ledger j0) → li_max_iters i = iter + Z.of_nat n → 1 ≤ iter →
  Forall (λ r, lr_iter r < iter) (li_invocation_ledger j0) → answered j0 j iter Body ob → at_loop (li_id i) j C w →
  let v := mk_Call (li_id i) iter (li_worker_agent i) (li_authority i)
             (render_verify_prompt (li_verify_expr i) iter (lo_output ob)) Verify
             (CausalScalar (lo_receipt_hash ob) (lo_receipt_ura ob)) in
  let rest := match answer v with Err _ => (Failed, []) | Ok ov => after_verify i n iter ov end in
  drives_to (li_id i) w (λ w', ∃ j', at_loop (li_id i) j' (C ++ v :: rest.2) w' ∧ li_state j' = rest.1).
Proof using All.
  intros IH Hu Ha Hb0 Hc0 Hmax H1' Hlt Hans Hat v rest. pose proof Hans as (Hb & Hon & Hl). rewrite Hb0 in Hb.
  destruct (base_fields _ _ Hb) as (Hw & Hau & Hve & Hbp & Hm).
  apply drives_round. eapply ends_round_next; [exact Hat|done|by eapply answered_completed|].
  unfold next_invocation. rewrite (answered_last _ _ _ _ _ Hans). cbn [lr_kind completed_record reserved_record].
  eapply ends_lift; [done|]. apply ends_ret. cbn [lr_iter completed_record reserved_record]. rewrite Hve.
  eapply ends_invocation; [exact Hat|done|rewrite (answered_last _ _ _ _ _ Hans); by eapply causal_completed| | |].
  - apply no_key. rewrite Hl. apply Forall_app. split; [|by apply Forall_singleton].
    eapply Forall_impl; [exact Hlt|]. cbn. lia.
  - rewrite Hw, Hau. fold v. intros ov j' w' Hv Hans' Hat'. subst rest. rewrite Hv.
    pose proof Hans' as (Hb' & Hon' & _). rewrite Hb in Hb'.
    assert (C ++ v :: (after_verify i n iter ov).2 = (C ++ [v]) ++ (after_verify i n iter ov).2) as -> by (by rewrite <- app_assoc).
    eapply (drives_verified i n iter ov v j'); try done.
    + by eapply answered_completed, answered_completed.
    + eapply answered_le; [exact Hans'|]. eapply answered_le; [exact Hans|]. eapply Forall_impl; [exact Hlt|]. cbn. lia.
    + eexists. by rewrite (answered_last _ _ _ _ _ Hans').
  - rewrite Hw, Hau. fold v. intros e j' w' Hv Hs Hat'. subst rest. rewrite Hv. by exists j'.
Qed.

Lemma outcome_holds i n : li_max_iters i ≤ u32_max → outcome_spec i n.
Proof using All.
  intros Hu. induction n as [n IHn] using lt_wf_ind. intros iter causal j C w Hb Hon Hc Hmax H1' Hlt Hca Hat Hnext.
  assert (∀ m, n = S m → outcome_spec i m) as IH by (intros m ->; apply IHn; lia).
  destruct (base_fields _ _ Hb) as (Hw & Hau & Hve & Hbp & Hm).
  apply drives_round. eapply ends_round_next; [exact Hat|done|done|]. apply Hnext. intros w1 Hat1.
  rewrite outcome_eq. set (b := mk_Call (li_id i) iter (li_worker_agent i) (li_authority i) (li_body_prompt i) Body causal).
  eapply ends_invocation; [exact Hat1|done|exact Hca| | |].
  - apply no_key. eapply Forall_impl; [exact Hlt|]. cbn. lia.
  - rewrite Hw, Hau. fold b. intros ob j' w' Ha Hans Hat'. rewrite Ha. cbn [fst snd].
    pose proof (drives_body_done i n iter ob j j' (C ++ [b]) w' b IH Hu Ha Hb Hc Hmax H1' Hlt Hans Hat') as Hd.
    cbn zeta in Hd. by rewrite <- app_assoc in Hd.
  - rewrite Hw, Hau. fold b. intros e j' w' Ha Hs Hat'. exists j'. by rewrite Ha.
Qed.

(** ** Runs *)

Lemma run_cons c ch l : run answer c (ch :: l) = run answer (step answer c ch) l.
Proof. done. Qed.

(** A controller that is advanced alone runs its program. *)
Lemma exec_run {A} (wrap : Prog A → Task) n p w a w' ts :
  (∀ p w, match p with Ret _ => True | _ => step_task answer None (wrap p) w =
     let '(w', p', ts) := step_prog answer None p w in (w', wrap p', ts) end) →
  exec p w = (Some a, w') → ts !! n = Some (wrap p) →
  ∃ k ts', run answer (mk_Config w ts) (replicate k (Advance n None)) = mk_Config w' ts' ∧ ts' !! n = Some (wrap (Ret a)).
Proof.
  intros Hwrap. revert w ts. induction p as [x| |X act k IH|id k IH]; intros w ts He Hn; cbn [exec] in He.
  - injection He as -> ->. exists O, ts. done.
  - done.
  - destruct (act None w) as [w1 x] eqn:Ha.
    destruct (IH x w1 (<[n := wrap (k x)]> ts ++ [])) as (m & ts' & Hr & Hn'); [done| |].
    { rewrite app_nil_r. apply list_lookup_insert_eq. by eapply lookup_lt_Some. }
    exists (S m), ts'. split; [|done]. cbn [replicate]. rewrite run_cons. cbn [step cf_world cf_tasks]. rewrite Hn.
    rewrite (Hwrap (Act act k)). cbn [step_prog]. rewrite Ha. exact Hr.
  - pose proof (Hwrap (Spawn id k) w) as Hst. cbn [step_prog] in Hst.
    case_bool_decide as Hrun.
    + destruct (IH false w (<[n := wrap (k false)]> ts ++ [])) as (m & ts' & Hr & Hn'); [done| |].
      { rewrite app_nil_r. apply list_lookup_insert_eq. by eapply lookup_lt_Some. }
      exists (S m), ts'. split; [|done]. cbn [replicate]. rewrite run_cons. cbn [step cf_world cf_tasks]. by rewrite Hn, Hst.
    + set (w1 := on_svc _ w) in *.
      destruct (IH true w1 (<[n := wrap (k true)]> ts ++ [Driving id (drive_round answer id)])) as (m & ts' & Hr & Hn'); [done| |].
      { apply lookup_app_l_Some, list_lookup_insert_eq. by eapply lookup_lt_Some. }
      exists (S m), ts'. split; [|done]. cbn [replicate]. rewrite run_cons. cbn [step cf_world cf_tasks]. by rewrite Hn, Hst.
Qed.

Lemma run_replicate c k k' ch : run answer c (replicate (k + k') ch) = run answer (run answer c (replicate k ch)) (replicate k' ch).
Proof. rewrite replicate_add. unfold run. by rewrite foldl_app. Qed.

(** The rounds of a controller advanced alone, up to its end. *)
Lemma drives_run id w w' : drives id w w' → ∀ ts n, ts !! n = Some (Driving id (drive_round answer id)) →
  ∃ k ts', run answer (mk_Config w ts) (replicate k (Advance n None)) = mk_Config w' ts' ∧
    ts' !! n = Some (Ending id (after_drive id (Ok Return))).
Proof.
  assert (∀ w w' r ts n, exec (drive_round answer id) w = (Some r, w') → ts !! n = Some (Driving id (drive_round answer id)) →
    ∃ k ts', run answer (mk_Config w ts) (replicate k (Advance n None)) = mk_Config w' ts' ∧ ts' !! n = Some (Driving id (Ret r))) as Hex.
  { intros w0 w0' r ts n. apply (exec_run (Driving id)). by intros []. }
  assert (∀ w t t' ts n, ts !! n = Some t → step_task answer None t w = (w, t', []) →
    run answer (mk_Config w ts) (replicate 1 (Advance n None)) = mk_Config w (<[n := t']> ts) ∧ <[n := t']> ts !! n = Some t') as Hone.
  { intros w0 t t' ts n Hn Hst. cbn. rewrite Hn, Hst, app_nil_r. split; [done|]. apply list_lookup_insert_eq. by eapply lookup_lt_Some. }
  induction 1 as [w w' He|w w1 w' He _ IH]; intros ts n Hn; destruct (Hex _ _ _ _ _ He Hn) as (k & ts1 & Hr & Hn1).
  - destruct (Hone w' _ (Ending id (after_drive id (Ok Return))) ts1 n Hn1 eq_refl) as [Hr2 Hn2].
    exists (k + 1)%nat. eexists. rewrite run_replicate, Hr, Hr2. done.
  - destruct (Hone w1 _ (Driving id (drive_round answer id)) ts1 n Hn1 eq_refl) as [Hr2 Hn2].
    destruct (IH _ _ Hn2) as (k' & ts' & Hr3 & Hn3). exists (k + (1 + k'))%nat, ts'.
    by rewrite run_replicate, Hr, run_replicate, Hr2.
Qed.
End outcome.

(** C9 (refinement): a loop that is left alone ends, and ends as described: the
    task of its controller, advanced alone on a disk that works, finishes after
    finitely many actions, with the state in memory and the calls the reference
    [outcome] gives for the loop. *)
Theorem loop_reaches_outcome `{!UraLib, !SerdeJson, !Hex, !HexLaws, !LoopCodec} answer i w tasks n :
  (∀ i, ∃ body, on_disk_text SCHEMA_VERSION i = Ok body) → (∀ c o, answer c = Ok o → outcome_wf o) →
  li_state i = Pending → li_invocation_ledger i = [] → 1 ≤ li_max_iters i ≤ u32_max →
  w_cache w !! li_id i = Some i → ls_cache_poisoned (w_svc w) = false →
  tasks !! n = Some (Driving (li_id i) (drive_round answer (li_id i))) →
  ∃ k, let c := run answer (mk_Config w tasks) (replicate k (Advance n None)) in
       let o := outcome answer i (Z.to_nat (li_max_iters i - 1)) 1 CausalNone in
    (li_state <$> w_cache (cf_world c) !! li_id i) = Some o.1 ∧ w_calls (cf_world c) = w_calls w ++ o.2 ∧
    (li_id i ∉ ls_running (w_svc (cf_world c))) ∧ cf_tasks c !! n = Some (Ending (li_id i) (Ret (Ok tt))).
Proof.
  intros Htext Hwf Hst Hl Hmax Hi Hp Hn. set (m := Z.to_nat (li_max_iters i - 1)).
  destruct (outcome_holds answer Htext Hwf i m (proj2 Hmax) 1 CausalNone i (w_calls w) w)
    as (w' & Hd & j & (Hj & Hpois & Hc) & Hs); try done.
  - unfold ongoing. by rewrite Hst.
  - rewrite Hl. by constructor.
  - lia.
  - rewrite Hl. by constructor.
  - by rewrite Hl.
  - intros Q HQ. unfold next_invocation. rewrite Hl. cbn. exists (Ok (Some (1, Body, li_body_prompt i))), w.
    split; [done|]. by apply HQ.
  - destruct (drives_run answer (li_id i) w w' Hd tasks n Hn) as (k & ts & Hr & Hend).
    exists (k + 1)%nat. cbn zeta. rewrite run_replicate, Hr. cbn. rewrite Hend. cbn.
    split_and!; [|done| |].
    + change (li_state <$> w_cache w' !! li_id i = Some (outcome answer i m 1 CausalNone).1). by rewrite Hj, <- Hs.
    + intros [_ Hin]%elem_of_difference. by apply Hin, elem_of_singleton.
    + rewrite app_nil_r. apply list_lookup_insert_eq. by eapply lookup_lt_Some.
Qed.
