(* ===== verification/LoopAbility.v ===== *)
(** * The abilities of loops (src/src/daemon/ability/builtins/automation/loop_ability.rs)

    The four handlers of the service with the checks of their arguments, the
    identity a deferred invocation is prepared with
    (src/src/daemon/execution/runtime_identity.rs) and the driver that makes it
    through the kernel (loop_instance/mod.rs).  The file of hosted agents and the
    kernel are interfaces.  Of the handlers: what reaches the service is within
    the ranges it relies on, and nobody but the accountable user gets anything of
    a loop, whatever the other tasks do meanwhile. *)

From stdpp Require Import pretty.
From Stdlib Require Import String Ascii.
From S2P Require Import Prelude RustStd Text Ura Json Programs LoopLedger LoopService.
From S2P Require Retry.

Open Scope Z_scope.

(** ** Hosted agents *)

Record HostedAgentEntry := mk_Hosted {
  ha_profile : string;
  ha_name : string;
  ha_agent_ura : string;
  ha_signing_authority : string;
}.

(** [AgentAggregateRepository::load_snapshot], its hosted agents. *)
Class HostedAgents := { hosted_agents : result string (list HostedAgentEntry) }.

(** ** The kernel *)

(** [InvocationState] of the SDK; states that are not terminal by name. *)
Inductive InvocationState := ICompleted | ICancelled | ITimedOut | IFailed | IOther (name : string).

(** [FinalizedInvocation] of the SDK. *)
Record FinalizedInvocation := mk_Finalized {
  fi_terminal_state : InvocationState;
  fi_failure : option string;
  fi_reason : string;
  fi_output : string;
  fi_invocation_id : string;
  fi_receipt_index : Z;
  fi_self_hash : string;
}.

(** The part of [KernelApi] the driver uses. *)
Class Kernel := {
  kernel_request : Type;
  prepare_accountable_user_rpc : string → string → string → string → string → LoopCausalContext → result error kernel_request;
  kernel_invoke : kernel_request → result error FinalizedInvocation;
}.

Section ability.
Context `{!UraLib, !SerdeJson, !Hex, !LoopCodec, !HostedAgents, !Kernel}.

(** ** The identity of the runtime *)

Record LocalRuntimeInvocationIdentity := mk_Identity { rt_realm : string; rt_local_node : string }.

Record LocalRuntimeSessionProjection := mk_Projection { sp_tenant : string; sp_node : string }.

Definition from_execution_host_ura (execution_host_ura : string) : result error LocalRuntimeSessionProjection :=
  parsed ← map_err (λ e, ["project runtime session execution-host URA: " +:+ e]) (parse_ura execution_host_ura);
  _ ← ensure (bool_decide (ura_kind parsed = KDevice))
        ["runtime session read-model projection requires Device execution-host URA, got " +:+ kind_display (ura_kind parsed)];
  device_id ← ok_or (ura_device_id parsed) ["runtime session execution host omitted device id"];
  Ok (mk_Projection (ura_realm parsed) device_id).

Definition identity_new (realm local_node : string) : result error LocalRuntimeInvocationIdentity :=
  let realm := trim realm in
  _ ← ensure (negb (is_empty realm)) ["local runtime invocation identity requires a non-empty realm"];
  _ ← ensure (negb (blank local_node)) ["local runtime invocation identity requires a non-empty local node"];
  Ok (mk_Identity realm local_node).

Definition from_system_agent_callee (callee_ura : string) : result error LocalRuntimeInvocationIdentity :=
  callee ← map_err (λ e, ["parse automation SystemAgent callee: " +:+ e]) (parse_ura callee_ura);
  '(device_id, _) ← ok_or (ura_device_agent_ids callee)
    ["deferred automation creation requires a device-sponsored SystemAgent callee"];
  identity_new (ura_realm callee) device_id.

Definition device_ura_for_node (i : LocalRuntimeInvocationIdentity) (node_id : string) : string := device_ura (rt_realm i) node_id.
Definition local_device_ura (i : LocalRuntimeInvocationIdentity) : string := device_ura_for_node i (rt_local_node i).
Definition resource_subject_ura (i : LocalRuntimeInvocationIdentity) (resource_name resource_path : string) : string :=
  resource_dot_ura (rt_realm i) resource_name resource_path.

(** [AgentAggregateSnapshot::hosted_agent_identity_by_name]. *)
Definition validate_hosted_agent_name_identity (name : string) (entry : HostedAgentEntry) : result string unit :=
  parsed ← map_err (λ reason, "hosted Agent " +:+ debug_str name +:+ " has invalid URA " +:+ debug_str (ha_agent_ura entry)
                              +:+ ": " +:+ reason) (parse_ura (ha_agent_ura entry));
  ensure (bool_decide (ura_kind parsed = KAgent))
    ("hosted Agent " +:+ debug_str name +:+ " resolved to non-Agent URA " +:+ debug_str (ha_agent_ura entry)).
Definition hosted_agent_identity_by_name (agents : list HostedAgentEntry) (name : string)
    : result string (option HostedAgentEntry) :=
  match filter (λ e, ha_name e = name) agents with
  | [] => Ok None
  | [entry] => _ ← validate_hosted_agent_name_identity name entry; Ok (Some entry)
  | entry :: other :: _ =>
      Err ("hosted Agent name " +:+ debug_str name +:+ " is ambiguous across profiles " +:+ debug_str (ha_profile entry)
           +:+ " and " +:+ debug_str (ha_profile other))
  end.

Definition local_hosted_agent_ura (i : LocalRuntimeInvocationIdentity) (agent_name : string) : result error string :=
  let agent := "hosted Agent " +:+ debug_str agent_name in
  agents ← map_err (λ e, ["load hosted Agent placement: " +:+ e]) hosted_agents;
  found ← map_err (λ e, ["resolve " +:+ agent +:+ ": " +:+ e]) (hosted_agent_identity_by_name agents agent_name);
  identity ← ok_or found [agent +:+ " is not registered on this runtime"];
  _ ← ensure (bool_decide (ha_signing_authority identity = "hosted_by:" +:+ local_device_ura i))
        [agent +:+ " placement authority " +:+ debug_str (ha_signing_authority identity)
         +:+ " does not match local execution host " +:+ debug_str (local_device_ura i)];
  parsed ← map_err (λ e, ["parse " +:+ agent +:+ " URA: " +:+ e]) (parse_ura (ha_agent_ura identity));
  _ ← ensure (bool_decide (ura_kind parsed = KAgent) && bool_decide (is_Some (ura_agent_ids parsed)))
        [agent +:+ " does not project a User Agent callee"];
  _ ← ensure (bool_decide (ura_realm parsed = rt_realm i))
        [agent +:+ " realm " +:+ debug_str (ura_realm parsed) +:+ " does not match runtime realm " +:+ debug_str (rt_realm i)];
  Ok (ha_agent_ura identity).

Definition deferred_user_authority (i : LocalRuntimeInvocationIdentity) (accountable_user_ura creator_invocation_id
    controller_callee_ura target_agent_name requested_target_node : string) : result error DeferredInvocationAuthority :=
  caller ← map_err (λ e, ["parse deferred accountable User: " +:+ e]) (parse_ura accountable_user_ura);
  _ ← ensure (bool_decide (ura_kind caller = KUser) && bool_decide (is_Some (ura_user_id caller)))
        ["deferred automation requires a canonical User Principal caller, got " +:+ debug_str accountable_user_ura];
  _ ← ensure (bool_decide (ura_realm caller = rt_realm i))
        ["deferred accountable User realm " +:+ debug_str (ura_realm caller) +:+ " does not match runtime realm "
         +:+ debug_str (rt_realm i)];
  _ ← ensure (bool_decide (requested_target_node = rt_local_node i))
        ["deferred local automation target node NodeId(" +:+ debug_str requested_target_node
         +:+ ") does not match controller host NodeId(" +:+ debug_str (rt_local_node i)
         +:+ "); remote deferred dispatch is not implemented"];
  let creator_invocation_id := trim creator_invocation_id in
  _ ← ensure (negb (is_empty creator_invocation_id)) ["deferred automation requires its admitted creator invocation id"];
  controller ← map_err (λ e, ["parse deferred controller callee: " +:+ e]) (parse_ura controller_callee_ura);
  '(controller_device_id, _) ← ok_or (ura_device_agent_ids controller)
    ["deferred controller must be a device-sponsored SystemAgent"];
  _ ← ensure (bool_decide (ura_realm controller = rt_realm i) && bool_decide (controller_device_id = rt_local_node i))
        ["deferred controller SystemAgent is not sponsored by this runtime host"];
  target ← local_hosted_agent_ura i target_agent_name;
  Ok (mk_Authority accountable_user_ura creator_invocation_id controller_callee_ura target (local_device_ura i)).

(** ** The driver *)

Definition invocation_uras (i : LocalRuntimeInvocationIdentity) (loop_id : string) (iter : Z) (worker_agent_ura : string)
    (kind : LoopInvocationKind) : string * string :=
  (worker_agent_ura, resource_subject_ura i ("loop." +:+ loop_id) (kind_str kind +:+ "/" +:+ u32_display iter)).

Definition kernel_driver (i : LocalRuntimeInvocationIdentity) (c : Call) : result error LoopInvocationOutcome :=
  let name := "loop " +:+ call_loop c +:+ " " +:+ kind_str (call_kind c) +:+ " iter " +:+ u32_display (call_iter c) in
  _ ← ensure (bool_decide (da_execution_host_ura (call_authority c) = local_device_ura i))
        ["loop authority execution host does not match this runtime"];
  let '(worker_agent_ura, loop_subject_ura) :=
    invocation_uras i (call_loop c) (call_iter c) (da_target_callee_ura (call_authority c)) (call_kind c) in
  payload ← with_context "encode loop chat invocation payload" (to_vec (VObject [("prompt", VString (call_prompt c))]));
  request ← prepare_accountable_user_rpc (da_accountable_user_ura (call_authority c)) worker_agent_ura
              (call_worker_agent c +:+ ".chat") loop_subject_ura payload (call_causal c);
  finalized ← kernel_invoke request;
  let terminal_reason :=
    match fi_failure finalized with
    | Some reason => if is_empty reason then fi_reason finalized else reason
    | None => fi_reason finalized
    end in
  _ ← match fi_terminal_state finalized with
      | ICompleted => Ok tt
      | ICancelled => bail (name +:+ " cancelled")
      | ITimedOut => bail (name +:+ " timed out: " +:+ terminal_reason)
      | IFailed => bail (name +:+ " failed: " +:+ terminal_reason)
      | IOther state => bail (name +:+ " returned non-terminal canonical state " +:+ state)
      end;
  response ← with_context (name +:+ ": decode canonical chat response") (from_slice (fi_output finalized));
  output ← ok_or (value_get "reply" response ≫= as_str) [name +:+ ": canonical chat response is missing reply"];
  Ok (mk_Outcome output (fi_invocation_id finalized)
        (loop_subject_ura +:+ "/invocation/" +:+ fi_invocation_id finalized +:+ "/receipt/"
         +:+ u32_display (fi_receipt_index finalized))
        (fi_self_hash finalized)).

(** ** Arguments *)

(** Rendering the unknown fields of an object. *)
Fixpoint join_ticked (fields : list string) : string :=
  match fields with
  | [] => EmptyString
  | [f] => "`" +:+ f +:+ "`"
  | f :: fields => "`" +:+ f +:+ "`, " +:+ join_ticked fields
  end.

Definition loop_args_object (ability : string) (args : Value) (allowed_fields : list string)
    : result error (list (string * Value)) :=
  object ← ok_or (as_object args) [ability +:+ ": args must be a JSON object"];
  let unknown := filter (λ f, f ∉ allowed_fields) object.*1 in
  _ ← ensure (bool_decide (unknown = [])) [ability +:+ ": unsupported field(s): " +:+ join_ticked (sort_dedup unknown)];
  Ok object.

Definition loop_required_string_arg (ability : string) (args : list (string * Value)) (field : string) : result error string :=
  match assoc field args with
  | Some (VString value) =>
      if blank value then bail (ability +:+ ": `" +:+ field +:+ "` must be a non-empty string") else Ok value
  | None => bail (ability +:+ ": `" +:+ field +:+ "` must be a non-empty string")
  | Some _ => bail (ability +:+ ": `" +:+ field +:+ "` must be a string")
  end.

Definition loop_optional_string_arg (ability : string) (args : list (string * Value)) (field : string)
    : result error (option string) :=
  match assoc field args with
  | None => Ok None
  | Some (VString value) => Ok (Some value)
  | Some _ => bail (ability +:+ ": `" +:+ field +:+ "` must be a string")
  end.

(** [Number::as_u64]: an integer in the range of [u64]. *)
Definition loop_required_positive_u32_arg (ability : string) (args : list (string * Value)) (field : string) : result error Z :=
  let positive := [ability +:+ ": `" +:+ field +:+ "` must be a positive integer"] in
  value ← match assoc field args with
          | Some (VInt n) => if between 0 u64_max n then Ok n else Err positive
          | _ => Err positive
          end;
  _ ← ensure (negb (value =? 0)) [ability +:+ ": `" +:+ field +:+ "` must be ≥ 1"];
  _ ← ensure (negb (u32_max <? value)) [ability +:+ ": `" +:+ field +:+ "` too large (≤ u32::MAX)"];
  Ok value.

(** ** Handlers *)

(** The facts of the envelope of an admitted invocation. *)
Record EnvelopeContext := mk_Envelope { env_caller : string; env_callee : string; env_invocation_id : string }.

(** The arguments of [create] in a request. *)
Definition create_args (args : Value) : result error (string * string * Z * string) :=
  args ← loop_args_object "loop.create" args ["worker_agent"; "verify_expr"; "max_iters"; "body_prompt"];
  worker_agent ← loop_required_string_arg "loop.create" args "worker_agent";
  verify_expr ← loop_optional_string_arg "loop.create" args "verify_expr";
  max_iters ← loop_required_positive_u32_arg "loop.create" args "max_iters";
  body_prompt ← loop_optional_string_arg "loop.create" args "body_prompt";
  Ok (worker_agent, default "true" verify_expr, max_iters,
      default "Continue the loop task and return the current result." body_prompt).

Definition create_handler_with_authority (uuid : string) (args : Value) (authority : DeferredInvocationAuthority) : prog Value :=
  '(worker_agent, verify_expr, max_iters, body_prompt) ← lift (create_args args);
  id ← create uuid worker_agent authority verify_expr max_iters body_prompt;
  mret (VObject [("loop_id", VString id)]).

Definition create_authority (envelope : EnvelopeContext) (args : Value) : result error DeferredInvocationAuthority :=
  worker_agent ← ok_or (value_get "worker_agent" args ≫= as_str) ["loop.create: missing required string `worker_agent`"];
  identity ← from_system_agent_callee (env_callee envelope);
  deferred_user_authority identity (env_caller envelope) (env_invocation_id envelope) (env_callee envelope) worker_agent
    (rt_local_node identity).

Definition create_handler_with_envelope (uuid : string) (envelope : EnvelopeContext) (args : Value) : prog Value :=
  authority ← lift (create_authority envelope args);
  create_handler_with_authority uuid args authority.

Definition accountable_user_from_envelope (ability : string) (envelope : EnvelopeContext) : result error string :=
  let caller := env_caller envelope in
  parsed ← map_err (λ e, [ability +:+ ": caller must be a canonical User URA: " +:+ e]) (parse_ura caller);
  match bool_decide (ura_kind parsed = KUser), ura_user_id parsed with
  | true, Some user_id =>
      _ ← ensure (bool_decide (user_ura (ura_realm parsed) user_id = caller)) [ability +:+ ": caller User URA must be canonical"];
      Ok caller
  | _, _ => bail (ability +:+ ": caller must be the accountable User Principal")
  end.

(** An instance as JSON. *)
Definition opt_value (o : option string) : Value := match o with Some s => VString s | None => VNull end.
Definition record_value (r : LoopInvocationRecord) : Value :=
  VObject [("iter", VInt (lr_iter r)); ("kind", VString (kind_str (lr_kind r)));
           ("state", VString match lr_state r with
                             | Reserved => "reserved" | Completed => "completed" | RecFailed => "failed" end);
           ("invocation_id", opt_value (lr_invocation_id r)); ("receipt_ura", opt_value (lr_receipt_ura r));
           ("receipt_hash", opt_value (lr_receipt_hash r));
           ("causal_parent_receipt_ura", opt_value (lr_causal_parent_receipt_ura r));
           ("output", opt_value (lr_output r)); ("error", opt_value (lr_error r))].
Definition authority_value (a : DeferredInvocationAuthority) : Value :=
  VObject [("accountable_user_ura", VString (da_accountable_user_ura a));
           ("creator_invocation_id", VString (da_creator_invocation_id a));
           ("controller_callee_ura", VString (da_controller_callee_ura a));
           ("target_callee_ura", VString (da_target_callee_ura a));
           ("execution_host_ura", VString (da_execution_host_ura a))].
Definition instance_value (i : LoopInstance) : Value :=
  VObject ([("id", VString (li_id i)); ("tenant", VString (li_tenant i)); ("worker_agent", VString (li_worker_agent i));
            ("authority", authority_value (li_authority i)); ("verify_expr", VString (li_verify_expr i));
            ("body_prompt", VString (li_body_prompt i)); ("max_iters", VInt (li_max_iters i));
            ("current_iter", VInt (li_current_iter i)); ("state", loop_state_value (li_state i));
            ("invocation_ledger", VArray (record_value <$> li_invocation_ledger i))]
           ++ (match li_last_body_output i with Some s => [("last_body_output", VString s)] | None => [] end)
           ++ (match li_last_verify_output i with Some s => [("last_verify_output", VString s)] | None => [] end)).

Definition status_handler_with_envelope (envelope : EnvelopeContext) (args : Value) : prog Value :=
  args ← lift (loop_args_object "loop.status" args ["loop_id"]);
  id ← lift (loop_required_string_arg "loop.status" args "loop_id");
  owner ← lift (accountable_user_from_envelope "loop.status" envelope);
  o ← status_for_accountable_user id owner;
  match o with
  | Some inst => mret (instance_value inst)
  | None => lift (bail ("loop.status: loop " +:+ id +:+ " not found"))
  end.

(** The frames of the stream, and whether it goes on. *)
Definition subscribe_handler_with_envelope (envelope : EnvelopeContext) (args : Value) : prog (list Value * bool) :=
  args ← lift (loop_args_object "loop.subscribe" args ["loop_id"]);
  id ← lift (loop_required_string_arg "loop.subscribe" args "loop_id");
  owner ← lift (accountable_user_from_envelope "loop.subscribe" envelope);
  subscribe_for_accountable_user id owner.

Definition cancel_handler_with_envelope (envelope : EnvelopeContext) (args : Value) : prog Value :=
  args ← lift (loop_args_object "loop.cancel" args ["loop_id"]);
  id ← lift (loop_required_string_arg "loop.cancel" args "loop_id");
  owner ← lift (accountable_user_from_envelope "loop.cancel" envelope);
  _ ← cancel_for_accountable_user id owner;
  mret (VObject [("ok", VBool true)]).

(** ** What the handlers guarantee *)

(** The counts that reach the service are [u32]s of at least one. *)
Lemma create_args_range args worker expr n prompt :
  create_args args = Ok (worker, expr, n, prompt) → 1 ≤ n ≤ u32_max ∧ blank worker = false.
Proof.
  unfold create_args. intros Hc. inv_ok.
  unfold loop_required_string_arg in *. unfold loop_required_positive_u32_arg in *. inv_ok. split.
  - assert (0 ≤ n) as Hn.
    { destruct (assoc "max_iters" x) as [[]|]; try done. destruct (between 0 u64_max n0) eqn:Hb; [|done].
      apply between_spec in Hb. inv_ok. lia. }
    apply negb_true_iff, Z.eqb_neq in E5. apply negb_true_iff, Z.ltb_ge in E6. lia.
  - destruct (assoc "worker_agent" x) as [[]|]; try done. destruct (blank s) eqn:Hb; [done|]. by inv_ok.
Qed.

(** The loop exists and answers to somebody else. *)
Definition foreign (id user : string) (w : World) : Prop :=
  ∃ i, w_cache w !! id = Some i ∧ da_accountable_user_ura (li_authority i) ≠ user.

Lemma foreign_status id user : inert (foreign id user) (status_for_accountable_user id user).
Proof.
  apply inert_lift. intros _ _ io w (i & Hi & Hu). split; [done|]. cbn [fst snd].
  destruct (ls_cache_poisoned (w_svc w)); [by eexists|]. rewrite Hi. cbn. rewrite bool_decide_false by done. by eexists.
Qed.

(** The handlers read the loop's id from the arguments and the user from the
    envelope. *)
Lemma inert_request {A} P ability allowed envelope args id (g : string → string → prog A) :
  value_get "loop_id" args = Some (VString id) → inert P (g id (env_caller envelope)) →
  inert P (args0 ← lift (loop_args_object ability args allowed); id0 ← lift (loop_required_string_arg ability args0 "loop_id");
           owner ← lift (accountable_user_from_envelope ability envelope); g id0 owner).
Proof.
  intros Hid Hg. apply inert_lift. intros object Ho. apply inert_lift. intros id0 Hid0. apply inert_lift. intros owner Hown.
  assert (id0 = id) as ->.
  { unfold loop_args_object in Ho. inv_ok. unfold value_get in Hid. rewrite E in Hid. cbn in Hid.
    unfold loop_required_string_arg in Hid0. rewrite Hid in Hid0. destruct (blank id); [done|]. by inv_ok. }
  assert (owner = env_caller envelope) as ->; [|done].
  unfold accountable_user_from_envelope in Hown. inv_ok. destruct (bool_decide _), (ura_user_id x); try done. by inv_ok.
Qed.

(** A loop is its accountable user's: on behalf of another caller
    the status, subscribe and cancel handlers only read and end in an error,
    under every interleaving with the tasks of the service. *)
Theorem foreign_user_refused envelope args id :
  value_get "loop_id" args = Some (VString id) →
  inert (foreign id (env_caller envelope)) (status_handler_with_envelope envelope args) ∧
  inert (foreign id (env_caller envelope)) (subscribe_handler_with_envelope envelope args) ∧
  inert (foreign id (env_caller envelope)) (cancel_handler_with_envelope envelope args).
Proof.
  intros Hid. split_and!.
  - eapply (inert_request _ _ _ _ _ id (λ id owner, o ← status_for_accountable_user id owner; match o with
      | Some inst => mret (instance_value inst)
      | None => lift (bail ("loop.status: loop " +:+ id +:+ " not found")) end)); [done|].
    apply inert_bind, foreign_status.
  - eapply (inert_request _ _ _ _ _ id subscribe_for_accountable_user); [done|]. apply inert_bind, foreign_status.
  - eapply (inert_request _ _ _ _ _ id (λ id owner, _ ← cancel_for_accountable_user id owner; mret (VObject [("ok", VBool true)]))); [done|].
    do 2 apply inert_bind. apply foreign_status.
Qed.

Lemma local_hosted_agent_ura_Ok i name t : local_hosted_agent_ura i name = Ok t →
  ∃ agents entry, hosted_agents = Ok agents ∧ entry ∈ agents ∧
    ha_signing_authority entry = "hosted_by:" +:+ local_device_ura i ∧ t = ha_agent_ura entry.
Proof.
  unfold local_hosted_agent_ura. intros Hl. inv_ok. rewrite bool_decide_eq_true in *.
  exists x, x1. split_and!; try done. unfold hosted_agent_identity_by_name in *.
  destruct (filter _ x) as [|e [|e' l]] eqn:Hf; [done| |done]. inv_ok.
  assert (x1 ∈ filter (λ e, ha_name e = name) x) as [_ ?]%list_elem_of_filter; [|done]. rewrite Hf. by left.
Qed.

Lemma deferred_user_authority_Ok i user invocation callee name node a :
  deferred_user_authority i user invocation callee name node = Ok a →
  ∃ target controller device agent, parse_ura callee = Ok controller ∧ ura_device_agent_ids controller = Some (device, agent) ∧
    ura_realm controller = rt_realm i ∧ device = rt_local_node i ∧ local_hosted_agent_ura i name = Ok target ∧
    a = mk_Authority user (trim invocation) callee target (local_device_ura i).
Proof.
  unfold deferred_user_authority. intros Hd. inv_pairs. rewrite andb_true_iff, !bool_decide_eq_true in *.
  naive_solver.
Qed.

(** A loop runs its creator's own agent, here: the authority the
    create handler builds and the service accepts names the caller of the
    invocation as accountable user, the automation agent that was called as
    controller, as target an agent of that very user with the requested name
    which is hosted by this device, and this device as host - all of one realm. *)
Theorem loop_created_for_caller envelope args worker a :
  create_authority envelope args = Ok a → validate_loop_authority worker a = Ok tt →
  ∃ user uid controller device target entry agents,
    parse_ura (env_caller envelope) = Ok user ∧ ura_kind user = KUser ∧ ura_user_id user = Some uid ∧
    parse_ura (env_callee envelope) = Ok controller ∧ ura_device_agent_ids controller = Some (device, AUTOMATION_SYSTEM_AGENT_ID) ∧
    hosted_agents = Ok agents ∧ entry ∈ agents ∧ ha_signing_authority entry = "hosted_by:" +:+ da_execution_host_ura a ∧
    parse_ura (ha_agent_ura entry) = Ok target ∧ ura_agent_ids target = Some (uid, worker) ∧
    ura_realm user = ura_realm controller ∧ ura_realm target = ura_realm controller ∧
    a = mk_Authority (env_caller envelope) (trim (env_invocation_id envelope)) (env_callee envelope) (ha_agent_ura entry)
          (device_ura (ura_realm controller) device).
Proof.
  intros Ha Hv. unfold create_authority in Ha. apply bind_Ok in Ha as (name & _ & Ha). apply bind_Ok in Ha as (i & Hi & Ha).
  apply deferred_user_authority_Ok in Ha as (t & controller & device & agent & Hc & Hdev & Hrealm & Hnode & Ht & ->).
  apply local_hosted_agent_ura_Ok in Ht as (agents & entry & Hag & Hin & Hsig & ->).
  unfold validate_loop_authority, validate_accountable_user_scope in Hv.
  cbn [da_accountable_user_ura da_controller_callee_ura da_target_callee_ura da_execution_host_ura da_creator_invocation_id] in Hv.
  destruct (parse_ura (env_caller envelope)) as [user|e] eqn:Hu; [|done]. cbn [map_err mbind result_bind] in Hv.
  destruct (bool_decide (ura_kind user = KUser)) eqn:Hk, (ura_user_id user) as [uid|] eqn:Hid; try done.
  apply bool_decide_eq_true in Hk. inv_ok. rewrite Hc in *. inv_pairs. rewrite Hdev in *. inv_ok.
  rewrite !andb_true_iff, !bool_decide_eq_true in *. destruct E6 as (((Hr1 & Hr2) & Hs1) & <-). injection Hs1 as ->.
  assert (s = rt_local_node i ∧ s0 = agent) as [-> ->] by (by injection E1).
  exists user, uid, x0, (rt_local_node i), x3, entry, agents. split_and!; try done; [congruence|congruence|].
  unfold local_device_ura, device_ura_for_node. by rewrite Hrealm.
Qed.
End ability.
