(* ===== verification/LoopSamples.v ===== *)
(** * A concrete world for loops

    Addresses, hexadecimal, a text of the records on disk and a worker that
    answers: the interfaces of the loop service instantiated, so that its
    properties are seen to apply, and runs of the daemon are evaluated. *)

From Stdlib Require Import String Ascii.
From S2P Require Import Prelude RustStd Text Ura Json SampleCodec Programs LoopLedger LoopService LoopSafe LoopActions.
From S2P Require Import LoopTheorems LoopOutcome LoopAbility.
From S2P Require AdmissionSamples Retry.

Open Scope Z_scope.

(** ** Addresses *)

(** Agents of devices besides those of users. *)
Definition loop_parse (s : string) : result string ParsedURA :=
  match AdmissionSamples.sample_parse s with
  | Ok (mk_ParsedURA KAgent realm _ _ (Some ("device", rest)) _ _ _ _ _ _) =>
      Ok (mk_ParsedURA KAgent realm None None None (split_once 46 rest) None None None None None)
  | r => r
  end.

Definition loop_ura : UraLib := {|
  parse_ura := loop_parse;
  user_ura := user_ura (UraLib := AdmissionSamples.sample_ura);
  device_ura := device_ura (UraLib := AdmissionSamples.sample_ura);
  agent_ura := agent_ura (UraLib := AdmissionSamples.sample_ura);
  device_agent_ura := device_agent_ura (UraLib := AdmissionSamples.sample_ura);
  service_ura := service_ura (UraLib := AdmissionSamples.sample_ura);
  authority_ura := authority_ura (UraLib := AdmissionSamples.sample_ura);
  authority_ability_ura := authority_ability_ura (UraLib := AdmissionSamples.sample_ura);
  resource_dot_ura := resource_dot_ura (UraLib := AdmissionSamples.sample_ura);
  owner_ability_ura := owner_ability_ura (UraLib := AdmissionSamples.sample_ura);
  ability_owner_identity_ura := ability_owner_identity_ura (UraLib := AdmissionSamples.sample_ura);
  kind_display := kind_display (UraLib := AdmissionSamples.sample_ura);
  debug_str s := s;
|}.
#[local] Existing Instances loop_ura sample_serde sample_serde_laws.

(** ** Hexadecimal *)

Definition hex_value (c : ascii) : option Z :=
  let n := byte_val c in
  if between 48 57 n then Some (n - 48) else if between 97 102 n then Some (n - 87) else None.

Fixpoint hex_read (s : string) : option string :=
  match s with
  | EmptyString => Some EmptyString
  | String _ EmptyString => None
  | String h (String l s) =>
      h ← hex_value h; l ← hex_value l; s ← hex_read s;
      Some (String (ascii_of_N (Z.to_N (h * 16 + l))) s)
  end.

Lemma hex_value_digit n : 0 ≤ n < 16 → hex_value (Retry.hex_digit n) = Some n.
Proof.
  intros Hn. assert (n ∈ seqZ 0 16) as Hin by (apply elem_of_seqZ; lia).
  assert (Forall (λ n, hex_value (Retry.hex_digit n) = Some n) (seqZ 0 16)) as Hall.
  { apply (bool_decide_unpack _). vm_compute. done. }
  rewrite Forall_forall in Hall. by apply Hall.
Qed.

Lemma hex_read_encode s : hex_read (Retry.hex_encode s) = Some s.
Proof.
  induction s as [|c s IH]; [done|]. cbn. pose proof (byte_val_bound c) as Hc.
  rewrite !hex_value_digit by (try apply Z.mod_pos_bound; try split; try apply Z.div_pos; try apply Z.div_lt_upper_bound; lia).
  cbn. rewrite IH. cbn. rewrite (Z.mul_comm (byte_val c / 16)), <- Z.div_mod by lia. unfold byte_val.
  by rewrite N2Z.id, ascii_N_embedding.
Qed.

Definition sample_hex : Hex := {| hex_decode s := ok_or (hex_read s) "invalid hex" |}.
Lemma sample_hex_laws : HexLaws (H := sample_hex).
Proof. constructor. intros s. unfold hex_decode, sample_hex. by rewrite hex_read_encode. Qed.
#[local] Existing Instances sample_hex sample_hex_laws.

(** ** Records on disk *)

#[local] Instance LoopInvocationKind_codec : Codec LoopInvocationKind.
Proof. refine (codec_names kind_str [Body; Verify] _). by_name. Defined.
#[local] Instance LoopInvocationState_codec : Codec LoopInvocationState.
Proof. refine (codec_names record_state_debug [Reserved; Completed; RecFailed] _). by_name. Defined.
#[local] Instance LoopState_codec : Codec LoopState.
Proof.
  refine (codec_names (λ s, match s with
    | Pending => "pending" | Running => "running" | Done => "done" | Exhausted => "exhausted"
    | VerifyMalformed => "verify_malformed" | Failed => "failed" | Cancelled => "cancelled" end)
    [Pending; Running; Done; Exhausted; VerifyMalformed; Failed; Cancelled] _). by_name.
Defined.
#[local] Instance LoopInvocationRecord_codec : Codec LoopInvocationRecord.
Proof.
  refine (codec_via (λ r, (lr_iter r, lr_kind r, lr_state r, lr_invocation_id r, lr_receipt_ura r, lr_receipt_hash r,
    lr_causal_parent_receipt_ura r, lr_output r, lr_error r))
    (λ '(x1, x2, x3, x4, x5, x6, x7, x8, x9), mk_Record x1 x2 x3 x4 x5 x6 x7 x8 x9) _).
  by intros [].
Defined.
#[local] Instance DeferredInvocationAuthority_codec : Codec DeferredInvocationAuthority.
Proof.
  refine (codec_via (λ a, (da_accountable_user_ura a, da_creator_invocation_id a, da_controller_callee_ura a,
    da_target_callee_ura a, da_execution_host_ura a)) (λ '(x1, x2, x3, x4, x5), mk_Authority x1 x2 x3 x4 x5) _).
  by intros [].
Defined.
#[local] Instance LoopInstance_codec : Codec LoopInstance.
Proof.
  refine (codec_via (λ i, (li_id i, li_tenant i, li_worker_agent i, li_authority i, li_verify_expr i, li_body_prompt i,
    li_max_iters i, li_current_iter i, li_state i, li_invocation_ledger i, li_last_body_output i, li_last_verify_output i))
    (λ '(x1, x2, x3, x4, x5, x6, x7, x8, x9, x10, x11, x12), mk_Instance x1 x2 x3 x4 x5 x6 x7 x8 x9 x10 x11 x12) _).
  by intros [].
Defined.

Definition parse_quoted (s : string) : result string (Z * LoopInstance) := t ← ok_or (unquote s) "EOF"; read_text t.

Definition sample_loop_codec : LoopCodec := {|
  on_disk_text v i := Ok (quoted (text (enc (v, i))) EmptyString);
  on_disk_parse := parse_quoted;
|}.
Lemma on_disk_text_quoted v i s : on_disk_text (LoopCodec := sample_loop_codec) v i = Ok s →
  s = quoted (text (enc (v, i))) EmptyString.
Proof. intros Hs. symmetry. exact (f_equal (λ r, match r with Ok x => x | Err _ => s end) Hs). Qed.
Lemma sample_loop_codec_laws : LoopCodecLaws (H := sample_loop_codec).
Proof.
  constructor; intros v i s.
  - intros ->%on_disk_text_quoted. unfold on_disk_parse, sample_loop_codec, parse_quoted. rewrite unquote_quoted.
    exact (read_text_enc (v, i)).
  - intros n ->%on_disk_text_quoted Hn. unfold on_disk_parse, sample_loop_codec, parse_quoted. rewrite unquote_cut by done.
    by eexists.
Qed.
#[local] Existing Instances sample_loop_codec sample_loop_codec_laws.

(** ** A worker *)

Definition hash32 : string := "0123456789abcdef0123456789abcdef".
Definition done_text (b : bool) : string := text (VObject [("done", VBool b)]).

(** It reports each body and finds the second one done. *)
Definition worker_output (c : Call) : string :=
  match call_kind c with
  | Body => "report " +:+ u32_display (call_iter c)
  | Verify => done_text (2 <=? call_iter c)
  end.
Definition sample_answer (c : Call) : result error LoopInvocationOutcome :=
  Ok (mk_Outcome (worker_output c) ("inv-" +:+ kind_str (call_kind c)) ("receipt-" +:+ u32_display (call_iter c)) hash32).

Lemma sample_answer_wf c o : sample_answer c = Ok o → outcome_wf o.
Proof. intros [= <-]. by split_and!. Qed.

Definition alice : string := "easynet:///r/home/user/alice".
Definition mallory : string := "easynet:///r/home/user/mallory".
Definition automation : string := "easynet:///r/home/agent/device.laptop.automation".
Definition laptop : string := "easynet:///r/home/device/laptop".
Definition writer : string := "easynet:///r/home/agent/alice.writer".
Definition sample_authority : DeferredInvocationAuthority := mk_Authority alice "inv-0" automation writer laptop.

Example sample_authority_valid : validate_loop_authority "writer" sample_authority = Ok tt.
Proof. vm_compute. reflexivity. Qed.

Definition create_one : LoopRequest := ReqCreate "1" "writer" sample_authority "good" 3 "write".
Definition advances (n k : nat) : list Choice := replicate k (Advance n None).
Definition create_two : LoopRequest := ReqCreate "2" "writer" sample_authority "good" 3 "write".

(** ** Runs *)

(** What came of a run: the calls, and the loops in memory. *)
Definition calls_made (l : list Choice) : list (string * Z * LoopInvocationKind) :=
  (λ c, (call_loop c, call_iter c, call_kind c)) <$> w_calls (cf_world (run sample_answer initial l)).
Definition states (l : list Choice) : list (string * LoopState) :=
  (λ i, (li_id i, li_state i)) <$> instances (w_cache (cf_world (run sample_answer initial l))).

Definition u32_request (ch : Choice) : bool :=
  match ch with Submit (ReqCreate _ _ _ _ n _) => between 0 u32_max n | _ => true end.
Lemma u32_requests_check l : forallb u32_request l = true → u32_requests l.
Proof.
  intros Hl uuid worker a expr n prompt Hin. rewrite forallb_forall in Hl. apply between_spec.
  apply (Hl (Submit (ReqCreate uuid worker a expr n prompt))). by apply list_elem_of_In.
Qed.

(** A loop whose daemon stops after the first body: its successor goes on with
    the verification, and alice looks at it meanwhile. *)
Definition sample_run : list Choice :=
  [Restart "home" true] ++ advances 0 20 ++ [Submit create_one] ++ advances 1 20 ++ advances 2 25
  ++ [Restart "home" true] ++ advances 0 20 ++ advances 1 30 ++ [Submit (ReqStatus "loop-1" alice)] ++ advances 2 5 ++ advances 1 200.

Lemma sample_run_ok : runs_ok sample_answer sample_run.
Proof.
  split; [exact sample_answer_wf|]. split; [by apply u32_requests_check|]. apply (bool_decide_unpack _). by vm_compute.
Qed.
Lemma sample_run_bound : bound_throughout sample_answer initial sample_run = true.
Proof. by vm_compute. Qed.

Example sample_run_calls : calls_made sample_run =
  [("loop-1", 1, Body); ("loop-1", 1, Verify); ("loop-1", 2, Body); ("loop-1", 2, Verify)] ∧ states sample_run = [("loop-1", Done)].
Proof. by vm_compute. Qed.

Lemma dispatch_at_most_once_witness : runs_ok sample_answer sample_run ∧ NoDup (calls_made sample_run).
Proof. split; [exact sample_run_ok|]. exact (dispatch_at_most_once sample_answer sample_run sample_run_ok sample_run_bound). Defined.

Lemma dispatch_justified_witness : let w := cf_world (run sample_answer initial sample_run) in
  Forall (λ c, justified sample_answer sample_run (calls_of (call_loop c) w) c) (w_calls w).
Proof. exact (dispatch_justified sample_answer sample_run sample_run_ok sample_run_bound). Defined.

Lemma dispatch_bound_witness :
  Z.of_nat (length (calls_of "loop-1" (cf_world (run sample_answer initial sample_run)))) ≤ 6.
Proof.
  apply (dispatch_bound sample_answer sample_run "1" "writer" sample_authority "good" 3 "write"); [exact sample_run_ok|exact sample_run_bound|].
  apply list_elem_of_In. apply (nth_error_In _ 21). by vm_compute.
Defined.

(** The instance as the run leaves it. *)
Definition sample_instance : LoopInstance :=
  default (new_instance EmptyString EmptyString EmptyString sample_authority EmptyString 0 EmptyString)
    (w_cache (cf_world (run sample_answer initial sample_run)) !! "loop-1").

Lemma ledger_invariant_witness :
  truthful sample_answer (calls_of "loop-1" (cf_world (run sample_answer initial sample_run))) sample_instance ∧
  validate_loop_authority "writer" sample_authority = Ok tt ∧
  (validate_loop_invocation_ledger sample_instance = Ok tt ∨ announced sample_instance).
Proof.
  destruct (ledger_invariant sample_answer sample_run sample_instance sample_run_ok sample_run_bound) as (Ht & Ha & Hv).
  - left. by vm_compute.
  - split; [exact Ht|]. split; [exact Ha|exact Hv].
Defined.

(** The controller of a loop that was just created, alone. *)
Definition fresh_loop : LoopInstance := new_instance "1" "home" "writer" sample_authority "good" 3 "write".
Definition fresh_world : World :=
  on_svc (λ s, set_running {["loop-1"]} (set_cache {["loop-1" := fresh_loop]} s)) (cf_world initial).
Definition fresh_tasks : list Task := [Driving "loop-1" (drive_round sample_answer "loop-1")].

Lemma loop_reaches_outcome_witness :
  ∃ k, let c := run sample_answer (mk_Config fresh_world fresh_tasks) (replicate k (Advance 0 None)) in
    (li_state <$> w_cache (cf_world c) !! "loop-1") = Some Done ∧ length (w_calls (cf_world c)) = 4%nat.
Proof.
  destruct (loop_reaches_outcome sample_answer fresh_loop fresh_world fresh_tasks 0%nat) as (k & Hs & Hc & _).
  - intros i. by eexists.
  - exact sample_answer_wf.
  - done.
  - done.
  - by vm_compute.
  - by vm_compute.
  - done.
  - done.
  - exists k. cbn beta zeta. split; [exact Hs|]. rewrite Hc. by vm_compute.
Defined.

(** ** Requests *)

Definition loop_id_args : Value := VObject [("loop_id", VString "loop-1")].

Lemma foreign_user_refused_witness :
  inert (foreign "loop-1" mallory) (cancel_handler_with_envelope (mk_Envelope mallory automation "inv-9") loop_id_args) ∧
  foreign "loop-1" mallory fresh_world.
Proof.
  split.
  - apply (foreign_user_refused (mk_Envelope mallory automation "inv-9") loop_id_args "loop-1"). done.
  - exists fresh_loop. split; [done|]. by vm_compute.
Defined.

Definition sample_hosted : HostedAgents :=
  {| hosted_agents := Ok [mk_Hosted "work" "writer" writer ("hosted_by:" +:+ laptop); mk_Hosted "work" "reader" mallory EmptyString] |}.
#[local] Existing Instance sample_hosted.

Definition sample_envelope : EnvelopeContext := mk_Envelope alice automation "inv-0".
Definition sample_create_args : Value := VObject [("worker_agent", VString "writer"); ("max_iters", VInt 3)].

Lemma loop_created_for_caller_witness :
  create_authority sample_envelope sample_create_args = Ok sample_authority ∧
  ∃ entry agents, hosted_agents = Ok agents ∧ entry ∈ agents ∧ da_target_callee_ura sample_authority = ha_agent_ura entry.
Proof.
  split; [by vm_compute|].
  destruct (loop_created_for_caller sample_envelope sample_create_args "writer" sample_authority)
    as (user & uid & controller & device & target & entry & agents & _ & _ & _ & _ & _ & Hag & Hin & _ & _ & _ & _ & _ & Ha).
  - by vm_compute.
  - by vm_compute.
  - exists entry, agents. split; [exact Hag|]. split; [exact Hin|]. by rewrite Ha.
Defined.

(** ** Where the guarantees end *)

(** The daemon stops while one loop begins its first iteration and another
    waits, and is started twice. *)
Definition stopped_between : list Choice :=
  [Restart "home" true] ++ advances 0 20 ++ [Submit create_two; Submit create_one] ++ advances 1 20 ++ advances 2 20 ++ advances 3 6.
Definition started_twice : list Choice :=
  [Restart "home" true] ++ advances 0 20 ++ advances 1 20 ++ [Restart "home" true] ++ advances 0 20 ++ advances 1 20.

Definition announced_instance : LoopInstance := set_iter 1 (set_state Running fresh_loop).
Lemma announced_unbinds_witness : ∃ s' e, bind_loaded new_service [fresh_loop; announced_instance] = (s', Err e).
Proof.
  apply (announced_unbinds new_service [fresh_loop; announced_instance] announced_instance).
  - split; [done|]. split; [done|]. split; [done|]. by constructor.
  - right. left.
Defined.

(** The binding of the store is needed for [dispatch_at_most_once]:
    a start that fails to bind goes on, with what it had loaded and without a
    store, so that the next start makes the same invocation again. *)
Theorem unbound_start_repeats_dispatch :
  ∃ choices, u32_requests choices ∧ NoDup (created choices) ∧ bound_throughout sample_answer initial choices = false ∧
    calls_made choices = [("loop-1", 1, Body); ("loop-1", 1, Body)].
Proof.
  exists (stopped_between ++ started_twice). split; [by apply u32_requests_check|].
  split; [|by vm_compute]. apply (bool_decide_unpack _). by vm_compute.
Qed.

(** A cancellation that comes between the controller's check for it and the
    announcement of the iteration is overwritten: the loop runs to its end. *)
Definition cancelled_between : list Choice :=
  [Restart "home" true] ++ advances 0 20 ++ [Submit create_one] ++ advances 1 20 ++ advances 2 2
  ++ [Submit (ReqCancel "loop-1" alice)] ++ advances 3 20.
Example cancellation_lost :
  states cancelled_between = [("loop-1", Cancelled)] ∧
  states (cancelled_between ++ advances 2 200) = [("loop-1", Done)] ∧
  length (calls_made (cancelled_between ++ advances 2 200)) = 4%nat.
Proof. by vm_compute. Qed.
