(* ===== verification/Schedule.v ===== *)
(** * Schedules (src/src/daemon/execution/schedule/mod.rs, store.rs)

    A schedule invokes an agent at the instants of a cron expression.  This file
    has its data (core/domain/mod.rs), its validation, the text of its record on
    disk, and the selection of the fires that are due under its misfire policy.
    Instants are nanoseconds since the epoch. *)

From stdpp Require Import pretty sorting.
From Stdlib Require Import String Ascii.
From S2P Require Import Prelude RustStd Text Ura Json Programs LoopLedger LoopAbility.
From S2P Require Retry.

Open Scope Z_scope.

(** ** Libraries *)

Definition second : Z := 1000000000.
Definition millisecond : Z := 1000000.

(** The cron crate: expressions and the first instant after a given one, from
    which its iterator [after] goes on. *)
Class CronLib := {
  cron : Type;
  cron_from_str : string → result string cron;
  cron_next : cron → Z → option Z;
}.
(** Instants are whole seconds, and [cron_next] is the first after its
    argument. *)
Class CronLaws `{CronLib} : Prop := {
  cron_next_after c t u : cron_next c t = Some u → t < u ∧ u mod second = 0;
  cron_next_first c t u v : cron_next c t = Some u → t ≤ v < u → cron_next c v = Some u;
  cron_next_never c t v : cron_next c t = None → t ≤ v → cron_next c v = None;
}.

(** chrono: [Duration::seconds] and the difference of an instant and a duration,
    which panic out of range ([None]), [timestamp_millis_opt], [to_rfc3339]. *)
Class Calendar := {
  duration_seconds : Z → option Z;
  sub_duration : Z → Z → option Z;
  timestamp_millis_opt : Z → option Z;
  to_rfc3339 : Z → string;
}.
Class CalendarLaws `{Calendar} : Prop := {
  duration_seconds_value s d : duration_seconds s = Some d → d = s * second;
  duration_seconds_range s : is_Some (duration_seconds s) ↔ - (i64_max / 1000) ≤ s ≤ i64_max / 1000;
  sub_duration_value t d u : sub_duration t d = Some u → u = t - d;
  timestamp_millis_value ms t : timestamp_millis_opt ms = Some t → t = ms * millisecond;
}.

(** [DateTime::timestamp_millis]. *)
Definition timestamp_millis (t : Z) : Z := t / millisecond.

(** ** Data *)

Inductive MisfirePolicy := Skip | FireOnce | CatchUpWindowed.
Inductive ScheduleFireState := FireReserved | FireCompleted | FireFailed.

#[global] Instance MisfirePolicy_eq_dec : EqDecision MisfirePolicy.
Proof. solve_decision. Defined.
#[global] Instance ScheduleFireState_eq_dec : EqDecision ScheduleFireState.
Proof. solve_decision. Defined.

Record ScheduleFireRecord := mk_FireRecord {
  fr_fire_at_unix_ms : Z;
  fr_state : ScheduleFireState;
  fr_invocation_id : option string;
  fr_receipt_hash : option string;
  fr_error : option string;
}.

Record ScheduleEntry := mk_Schedule {
  se_id : string;
  se_tenant : string;
  se_target_node : string;
  se_target_agent : string;
  se_authority : DeferredInvocationAuthority;
  se_cron_expr : string;
  se_misfire_policy : MisfirePolicy;
  se_catch_up_window_secs : option Z;
  se_enabled : bool;
  se_prompt : string;
  se_fire_ledger : gmap Z ScheduleFireRecord;
}.

Record ScheduleCreateSpec := mk_Spec {
  sp_target_node : string;
  sp_target_agent : string;
  sp_cron_expr : string;
  sp_misfire_policy : MisfirePolicy;
  sp_catch_up_window_secs : option Z;
  sp_enabled : bool;
  sp_prompt : string;
  sp_authority : DeferredInvocationAuthority;
}.

Record DueFire := mk_Due { df_schedule_id : string; df_fire_at : Z; df_catch_up : bool }.

#[global] Instance ScheduleFireRecord_eq_dec : EqDecision ScheduleFireRecord.
Proof. solve_decision. Defined.
#[global] Instance DueFire_eq_dec : EqDecision DueFire.
Proof. solve_decision. Defined.

Definition into_entry (s : ScheduleCreateSpec) (tenant : string) : ScheduleEntry :=
  mk_Schedule EmptyString tenant (sp_target_node s) (sp_target_agent s) (sp_authority s) (sp_cron_expr s)
    (sp_misfire_policy s) (sp_catch_up_window_secs s) (sp_enabled s) (sp_prompt s) ∅.

Definition set_tenant_id (tenant id : string) (e : ScheduleEntry) : ScheduleEntry :=
  mk_Schedule id tenant (se_target_node e) (se_target_agent e) (se_authority e) (se_cron_expr e) (se_misfire_policy e)
    (se_catch_up_window_secs e) (se_enabled e) (se_prompt e) (se_fire_ledger e).
Definition set_enabled (b : bool) (e : ScheduleEntry) : ScheduleEntry :=
  mk_Schedule (se_id e) (se_tenant e) (se_target_node e) (se_target_agent e) (se_authority e) (se_cron_expr e)
    (se_misfire_policy e) (se_catch_up_window_secs e) b (se_prompt e) (se_fire_ledger e).
Definition set_fire_ledger (l : gmap Z ScheduleFireRecord) (e : ScheduleEntry) : ScheduleEntry :=
  mk_Schedule (se_id e) (se_tenant e) (se_target_node e) (se_target_agent e) (se_authority e) (se_cron_expr e)
    (se_misfire_policy e) (se_catch_up_window_secs e) (se_enabled e) (se_prompt e) l.

(** The ledger in the order of its keys, and [last_key_value]. *)
Definition fire_key_le (a b : Z * ScheduleFireRecord) : Prop := a.1 ≤ b.1.
#[global] Instance fire_key_le_dec : RelDecision fire_key_le.
Proof. intros a b. unfold fire_key_le. apply _. Defined.
Definition ledger_list (m : gmap Z ScheduleFireRecord) : list (Z * ScheduleFireRecord) :=
  merge_sort fire_key_le (map_to_list m).
Definition last_key_value (m : gmap Z ScheduleFireRecord) : option (Z * ScheduleFireRecord) := last (ledger_list m).

(** The [Debug] form of a state. *)
Definition fire_state_debug (s : ScheduleFireState) : string :=
  match s with FireReserved => "Reserved" | FireCompleted => "Completed" | FireFailed => "Failed" end.

(** [Display] of an [i64]. *)
Definition i64_display (z : Z) : string := pretty z.

(** ** Cron expressions *)

(** [str::split_whitespace().count()]: [inside] a word or not. *)
Fixpoint count_words (inside : bool) (s : string) : nat :=
  let word n := if inside then n else S n in
  match s with
  | EmptyString => 0
  | String a s1 =>
      if ws1 a then count_words false s1
      else match s1 with
      | EmptyString => word 0%nat
      | String b s2 =>
          if ws2 a b then count_words false s2
          else match s2 with
          | EmptyString => word (count_words true s1)
          | String c s3 => if ws3 a b c then count_words false s3 else word (count_words true s1)
          end
      end
  end.

Section schedule.
Context `{!UraLib, !SerdeJson, !Hex, !CronLib, !Calendar}.

Definition parse_cron (expr : string) : result error cron :=
  let trimmed := trim expr in
  _ ← ensure (negb (is_empty trimmed)) ["cron expression is empty"];
  let canonical := if (count_words false trimmed =? 5)%nat then "0 " +:+ trimmed else trimmed in
  map_err (λ e, ["invalid cron expression " +:+ debug_str expr +:+ ": " +:+ e]) (cron_from_str canonical).
Definition validate_cron (expr : string) : result error unit := _ ← parse_cron expr; Ok tt.
Definition parse_entry_cron (e : ScheduleEntry) : result error cron :=
  map_err (λ err, ["schedule " +:+ se_id e +:+ " has invalid cron: " +:+ display_alt err]) (parse_cron (se_cron_expr e)).

Definition validate_schedule_prompt (prompt : string) : result error unit :=
  ensure (negb (blank prompt)) ["schedule prompt must be non-empty"].

(** ** Authority and ledger *)

Definition validate_schedule_user_scope (accountable_user_ura : string) : result error unit :=
  user ← map_err (λ e, ["schedule accountable User is invalid: " +:+ e]) (parse_ura accountable_user_ura);
  match bool_decide (ura_kind user = KUser), ura_user_id user with
  | true, Some user_id =>
      ensure (bool_decide (user_ura (ura_realm user) user_id = accountable_user_ura))
        ["schedule accountable User URA must be canonical"]
  | _, _ => bail "schedule accountable principal must be a canonical User URA"
  end.

Definition validate_deferred_schedule_authority (e : ScheduleEntry) : result error unit :=
  let a := se_authority e in
  _ ← validate_schedule_user_scope (da_accountable_user_ura a);
  accountable_user ← map_err (λ _, ["validated accountable User URA must parse"]) (parse_ura (da_accountable_user_ura a));
  controller ← map_err (λ e, ["schedule controller callee is invalid: " +:+ e]) (parse_ura (da_controller_callee_ura a));
  '(controller_device, controller_agent) ← ok_or (ura_device_agent_ids controller)
    ["schedule controller must be a device-sponsored SystemAgent"];
  _ ← ensure (bool_decide (controller_agent = AUTOMATION_SYSTEM_AGENT_ID))
        ["schedule controller must be the automation SystemAgent"];
  host ← map_err (λ e, ["schedule execution host is invalid: " +:+ e]) (parse_ura (da_execution_host_ura a));
  _ ← ensure (bool_decide (ura_kind host = KDevice) && bool_decide (ura_device_id host = Some controller_device)
              && bool_decide (ura_realm host = ura_realm controller) && bool_decide (se_target_node e = controller_device))
        ["schedule target node, controller sponsor, and execution host must match"];
  target ← map_err (λ e, ["schedule target callee is invalid: " +:+ e]) (parse_ura (da_target_callee_ura a));
  '(owner_user, target_agent) ← ok_or (ura_agent_ids target) ["schedule target callee must be a hosted User Agent"];
  _ ← ensure (bool_decide (ura_realm target = ura_realm controller)
              && bool_decide (ura_realm target = ura_realm accountable_user)
              && bool_decide (Some owner_user = ura_user_id accountable_user)
              && bool_decide (target_agent = se_target_agent e))
        ["schedule target Agent identity does not match the persisted target"];
  ensure (negb (blank (da_creator_invocation_id a))) ["schedule authority requires its creator invocation id"].

(** One record of the ledger under its key. *)
Definition validate_fire_record (id : string) (k : Z) (r : ScheduleFireRecord) : result error unit :=
  let fire what := ["schedule " +:+ id +:+ " " +:+ what] in
  _ ← ensure (k =? fr_fire_at_unix_ms r)
        (fire ("fire ledger key " +:+ i64_display k +:+ " does not match record " +:+ i64_display (fr_fire_at_unix_ms r)));
  match fr_state r with
  | FireReserved =>
      ensure (negb (bool_decide (is_Some (fr_invocation_id r)) || bool_decide (is_Some (fr_receipt_hash r))
                    || bool_decide (is_Some (fr_error r))))
        (fire ("reserved fire " +:+ i64_display k +:+ " has terminal facts"))
  | FireCompleted =>
      ensure (negb (none_or_empty (fr_invocation_id r) || negb (hash_is_32_bytes (default EmptyString (fr_receipt_hash r)))
                    || bool_decide (is_Some (fr_error r))))
        (fire ("completed fire " +:+ i64_display k +:+ " has invalid receipt facts"))
  | FireFailed =>
      ensure (negb (none_or_empty (fr_error r) || bool_decide (is_Some (fr_invocation_id r))
                    || bool_decide (is_Some (fr_receipt_hash r))))
        (fire ("failed fire " +:+ i64_display k +:+ " has invalid failure facts"))
  end.

Definition validate_schedule_fire_ledger (e : ScheduleEntry) : result error unit :=
  try_fold (λ _ p, validate_fire_record (se_id e) p.1 p.2) tt (ledger_list (se_fire_ledger e)).

(** What [bind] asks of a record it loads. *)
Definition validate_loaded (e : ScheduleEntry) : result error unit :=
  _ ← validate_cron (se_cron_expr e);
  _ ← validate_schedule_prompt (se_prompt e);
  _ ← validate_deferred_schedule_authority e;
  validate_schedule_fire_ledger e.

(** ** Due fires *)

(** A value, an error, or a panic. *)
Definition panicky (A : Type) : Type := option (result error A).
Definition or_panic {A} (o : option A) : panicky A := Ok <$> o.
Definition panicky_bind {A B} (m : panicky A) (f : A → panicky B) : panicky B :=
  match m with Some (Ok a) => f a | Some (Err e) => Some (Err e) | None => None end.

(** [catch_up_seconds_for]: the cast from [u64] to [i64] wraps. *)
Definition catch_up_seconds_for (e : ScheduleEntry) : Z :=
  let n := default 86400 (se_catch_up_window_secs e) in if n <=? i64_max then n else n - 2 ^ 64.

(** [cron.after(t).take_while(≤ now)]: there is at most one instant a second. *)
Fixpoint fires_from (c : cron) (fuel : nat) (t now : Z) : list Z :=
  match fuel with
  | O => []
  | S fuel =>
      match cron_next c t with
      | Some u => if u <=? now then u :: fires_from c fuel u now else []
      | None => []
      end
  end.
Definition fires_between (c : cron) (t now : Z) : list Z :=
  fires_from c (Z.to_nat ((now - t) / second + 1)) t now.

(** The instant after which fires count as missed: the last on the ledger, or the
    start of the window. *)
Definition anchor_of (now : Z) (e : ScheduleEntry) : panicky Z :=
  match last_key_value (se_fire_ledger e) ≫= (λ p, timestamp_millis_opt p.1) with
  | Some last_fire => Some (Ok last_fire)
  | None => panicky_bind (or_panic (duration_seconds (catch_up_seconds_for e))) (λ d, or_panic (sub_duration now d))
  end.

(** The choice of the misfire policy among the fires. *)
Definition select_fires (now : Z) (e : ScheduleEntry) (fires : list Z) : panicky (list DueFire) :=
  let due t := mk_Due (se_id e) t (1 <? length fires)%nat in
  match se_misfire_policy e with
  | Skip => Some (Ok (due <$> option_list (last fires)))
  | FireOnce => Some (Ok (due <$> option_list (head fires)))
  | CatchUpWindowed =>
      panicky_bind (or_panic (duration_seconds (catch_up_seconds_for e)))
        (λ window, Some (Ok (due <$> filter (λ t, now - t ≤ window) fires)))
  end.

Definition due_entry (now : Z) (e : ScheduleEntry) : panicky (list DueFire) :=
  panicky_bind (Some (parse_entry_cron e)) (λ c,
  panicky_bind (anchor_of now e) (λ anchor,
    let fires := fires_between c anchor now in
    if bool_decide (fires = []) then Some (Ok []) else select_fires now e fires)).

(** [due] of the enabled schedules, in their order. *)
Fixpoint due_entries (now : Z) (l : list ScheduleEntry) : panicky (list DueFire) :=
  match l with
  | [] => Some (Ok [])
  | e :: l =>
      if se_enabled e then
        panicky_bind (due_entry now e) (λ out, panicky_bind (due_entries now l) (λ rest, Some (Ok (out ++ rest))))
      else due_entries now l
  end.

Definition next_fire_for_entry (e : ScheduleEntry) (now : Z) : result error (option Z) :=
  c ← parse_entry_cron e; Ok (cron_next c now).

(** ** Prompts *)

(** [str::replace] of a non-empty pattern: [skip] bytes are part of a match. *)
Fixpoint replace_skip (p r : string) (skip : nat) (s : string) : string :=
  match s with
  | EmptyString => EmptyString
  | String c s' =>
      match skip with
      | S k => replace_skip p r k s'
      | O => if String.prefix p s then r +:+ replace_skip p r (String.length p - 1) s' else String c (replace_skip p r 0 s')
      end
  end.
Definition str_replace (p r s : string) : string := replace_skip p r 0 s.

Definition render_prompt (template schedule_id : string) (fire_at : Z) (catch_up : bool) (target_agent : string) : string :=
  str_replace "{{target_agent}}" target_agent
    (str_replace "{{catch_up}}" (if catch_up then "true" else "false")
      (str_replace "{{fire_at_iso}}" (to_rfc3339 fire_at)
        (str_replace "{{schedule_id}}" schedule_id template))).

(** ** Records on disk *)

Definition SCHEDULE_SCHEMA_VERSION : Z := 1.

Definition fire_record_value (r : ScheduleFireRecord) : Value :=
  VObject [("fire_at_unix_ms", VInt (fr_fire_at_unix_ms r));
           ("state", VString match fr_state r with
                             | FireReserved => "reserved" | FireCompleted => "completed" | FireFailed => "failed" end);
           ("invocation_id", opt_value (fr_invocation_id r)); ("receipt_hash", opt_value (fr_receipt_hash r));
           ("error", opt_value (fr_error r))].
Definition policy_str (p : MisfirePolicy) : string :=
  match p with Skip => "skip" | FireOnce => "fire_once" | CatchUpWindowed => "catch_up_windowed" end.

(** [serde_json::to_value] of a schedule: its fields in their order. *)
Definition entry_fields (e : ScheduleEntry) : list (string * Value) :=
  [("id", VString (se_id e)); ("tenant", VString (se_tenant e)); ("target_node", VString (se_target_node e));
   ("target_agent", VString (se_target_agent e)); ("authority", authority_value (se_authority e));
   ("cron_expr", VString (se_cron_expr e)); ("misfire_policy", VString (policy_str (se_misfire_policy e)))]
  ++ (match se_catch_up_window_secs e with Some n => [("catch_up_window_secs", VInt n)] | None => [] end)
  ++ [("enabled", VBool (se_enabled e)); ("prompt", VString (se_prompt e));
      ("fire_ledger", VObject ((λ p, (i64_display p.1, fire_record_value p.2)) <$> ledger_list (se_fire_ledger e)))].
Definition entry_value (e : ScheduleEntry) : Value := VObject (entry_fields e).
(** The same of [OnDisk], into which the schedule is flattened. *)
Definition on_disk_value (e : ScheduleEntry) : Value :=
  VObject (("schema_version", VInt SCHEDULE_SCHEMA_VERSION) :: entry_fields e).

(** [to_string_pretty], and [from_value] of [OnDisk]. *)
Class ScheduleCodec := {
  to_string_pretty : Value → result string string;
  entry_from_value : Value → result string ScheduleEntry;
}.
(** What is written reads back as JSON, and a text that is cut off does not
    parse.  [OnDisk] flattens the schedule ([#[serde(flatten)]]), so serde buffers
    its fields before it reads them, and the buffer gives the keys of the map
    [fire_ledger] as the strings they are in JSON, which an [i64] key does not
    take: a schedule reads back while its ledger is empty, and one with a fire on
    its ledger is refused. *)
Class ScheduleCodecLaws `{ScheduleCodec} : Prop := {
  schedule_text_roundtrip e s : to_string_pretty (on_disk_value e) = Ok s → from_slice s = Ok (on_disk_value e);
  schedule_text_truncated e s n : to_string_pretty (on_disk_value e) = Ok s → (n < String.length s)%nat →
    ∃ err, from_slice (String.substring 0 n s) = Err err;
  entry_value_roundtrip e : se_fire_ledger e = ∅ → entry_from_value (on_disk_value e) = Ok e;
  fired_entry_refused e : se_fire_ledger e ≠ ∅ → ∃ err, entry_from_value (on_disk_value e) = Err err;
}.

Context `{!ScheduleCodec}.

Definition parse_on_disk_schedule (input : string) : result error ScheduleEntry :=
  value ← map_err (λ e, [e]) (from_slice input);
  object ← ok_or (as_object value) ["schedule record must be a JSON object"];
  schema_version ← ok_or (assoc "schema_version" object ≫= as_u64) ["schedule record missing explicit schema_version"];
  _ ← ensure (schema_version =? SCHEDULE_SCHEMA_VERSION)
        ["schedule record schema_version " +:+ i64_display schema_version +:+ " is not supported by this runtime"];
  prompt ← ok_or (assoc "prompt" object ≫= as_str) ["schedule record missing explicit prompt string"];
  _ ← ensure (negb (blank prompt)) ["schedule record prompt must be non-empty"];
  map_err (λ e, [e]) (entry_from_value value).

Definition serialize_on_disk_schedule (e : ScheduleEntry) : result error string :=
  map_err (λ e, [e]) (to_string_pretty (on_disk_value e)).

(** [ScheduleStore::load_all] on the files. *)
Definition load_schedule (out : list ScheduleEntry) (f : string * string) : result error (list ScheduleEntry) :=
  let '(path, body) := f in
  if bool_decide (extension path = Some "json") then
    e ← map_err (λ err, ("parse schedule record " +:+ path) :: err) (parse_on_disk_schedule body);
    Ok (out ++ [e])
  else Ok out.
Definition load_schedules (files : gmap string string) : result error (list ScheduleEntry) :=
  try_fold load_schedule [] (map_to_list files).
End schedule.
