(* ===== verification/ScheduleService.v ===== *)
(** * The schedule service (src/src/daemon/execution/schedule/mod.rs, store.rs)

    The operations of the service as programs of atomic actions, the tick runner
    of bin/easynet-daemon.rs that fires what is due, and the daemon: requests,
    ticks and the invocations handed to the blocking pool interleave, file
    operations may fail, and a restart keeps only files and calls.  No lock of
    this service is ever poisoned: nothing panics while it writes. *)

From stdpp Require Import pretty.
From Stdlib Require Import String Ascii.
From S2P Require Import Prelude RustStd Text Ura Json Programs LoopLedger LoopAbility Schedule.

Open Scope Z_scope.

(** ** State *)

(** An invocation of the tick runner: for which fire, and the request. *)
Record FireCall `{Kernel} := mk_Fire {
  fc_schedule_id : string;
  fc_fire_at_unix_ms : Z;
  fc_request : kernel_request;
}.

(** The service ([sw_store] says whether the store is bound), the files of the
    store's directory, the invocations handed to the blocking pool, and those
    made. *)
Record ScheduleWorld `{Kernel} := mk_SWorld {
  sw_cache : gmap string ScheduleEntry;
  sw_tenant : option string;
  sw_store : bool;
  sw_files : gmap string string;
  sw_jobs : list FireCall;
  sw_calls : list FireCall;
}.

Section service.
Context `{!UraLib, !SerdeJson, !Hex, !CronLib, !Calendar, !ScheduleCodec, !HostedAgents, !Kernel}.
Context (answer : FireCall → result error FinalizedInvocation).

Notation prog := (Programs.prog ScheduleWorld).

Definition set_sw_cache (c : gmap string ScheduleEntry) (w : ScheduleWorld) : ScheduleWorld :=
  mk_SWorld _ c (sw_tenant w) (sw_store w) (sw_files w) (sw_jobs w) (sw_calls w).
Definition on_sw_files (f : gmap string string → gmap string string) (w : ScheduleWorld) : ScheduleWorld :=
  mk_SWorld _ (sw_cache w) (sw_tenant w) (sw_store w) (f (sw_files w)) (sw_jobs w) (sw_calls w).
Definition set_sw_jobs (l : list FireCall) (w : ScheduleWorld) : ScheduleWorld :=
  mk_SWorld _ (sw_cache w) (sw_tenant w) (sw_store w) (sw_files w) l (sw_calls w).
Definition add_fire_call (c : FireCall) (w : ScheduleWorld) : ScheduleWorld :=
  mk_SWorld _ (sw_cache w) (sw_tenant w) (sw_store w) (sw_files w) (sw_jobs w) (sw_calls w ++ [c]).
Definition set_sw_bound (tenant : string) (w : ScheduleWorld) : ScheduleWorld :=
  mk_SWorld _ (sw_cache w) (Some tenant) true (sw_files w) (sw_jobs w) (sw_calls w).

#[global] Instance ScheduleWorld_files : Files ScheduleWorld := {| get_files := sw_files; map_files := on_sw_files |}.

(** ** The store *)

Definition save_schedule (e : ScheduleEntry) : prog unit :=
  body ← lift (serialize_on_disk_schedule e);
  _ ← fs_write (tmp_path (se_id e)) body;
  fs_rename (tmp_path (se_id e)) (final_path (se_id e)).

Definition delete_schedule (id : string) : prog unit :=
  exists_ ← fs_exists (final_path id);
  if exists_ : bool then fs_remove_file (final_path id) else mret tt.

(** An operation of the store, if it is bound. *)
Definition with_bound_store (m : prog unit) : prog unit :=
  bound ← locked (λ w, (w, Ok (sw_store w)));
  if bound : bool then m else mret tt.

(** ** Operations *)

Definition schedule_not_found (id : string) : error := ["schedule " +:+ id +:+ " not found"].

(** [bind], after [ScheduleStore::open]: what is inserted before a record is
    refused stays. *)
Fixpoint bind_schedules (c : gmap string ScheduleEntry) (l : list ScheduleEntry)
    : gmap string ScheduleEntry * result error unit :=
  match l with
  | [] => (c, Ok tt)
  | e :: l =>
      match validate_loaded e with
      | Ok _ => bind_schedules (<[se_id e := e]> c) l
      | Err err => (c, Err err)
      end
  end.
Definition schedule_bind (tenant : string) : prog unit :=
  loaded ← Act (λ io w, (w, match io with None => load_schedules (sw_files w) | Some (e, _) => Err [e] end)) Ret;
  locked (λ w,
    match bind_schedules (sw_cache w) loaded with
    | (c, Ok _) => (set_sw_bound tenant (set_sw_cache c w), Ok tt)
    | (c, Err err) => (set_sw_cache c w, Err err)
    end).

Definition bound_tenant : prog string :=
  locked (λ w, (w, ok_or (sw_tenant w) ["ScheduleService is not bound to a runtime tenant"])).

(** [uuid] is the fresh identifier. *)
Definition add_with_bound_tenant (uuid : string) (entry : ScheduleEntry) (tenant : string) : prog string :=
  _ ← lift (validate_cron (se_cron_expr entry));
  _ ← lift (validate_schedule_prompt (se_prompt entry));
  _ ← lift (validate_deferred_schedule_authority entry);
  let id := if is_empty (se_id entry) then "sched-" +:+ uuid else se_id entry in
  let e := set_tenant_id tenant id entry in
  _ ← with_bound_store (save_schedule e);
  _ ← locked (λ w, (set_sw_cache (<[id := e]> (sw_cache w)) w, Ok tt));
  mret id.
Definition schedule_add (uuid : string) (entry : ScheduleEntry) : prog string :=
  tenant ← bound_tenant; add_with_bound_tenant uuid entry tenant.
Definition add_spec (uuid : string) (spec : ScheduleCreateSpec) : prog string :=
  tenant ← bound_tenant; add_with_bound_tenant uuid (into_entry spec tenant) tenant.

Definition schedule_remove (id : string) : prog unit :=
  removed ← locked (λ w, (set_sw_cache (delete id (sw_cache w)) w, Ok (bool_decide (is_Some (sw_cache w !! id)))));
  _ ← lift (ensure removed (schedule_not_found id));
  with_bound_store (delete_schedule id).

Definition ensure_accountable_user_owns (id user : string) : prog unit :=
  _ ← lift (validate_schedule_user_scope user);
  locked (λ w,
    (w, e ← ok_or (sw_cache w !! id) (schedule_not_found id);
        ensure (bool_decide (da_accountable_user_ura (se_authority e) = user))
          ["schedule " +:+ id +:+ " is not owned by accountable User " +:+ user])).
Definition remove_for_accountable_user (id user : string) : prog unit :=
  _ ← ensure_accountable_user_owns id user; schedule_remove id.

(** A change of an entry of the cache, and its save. *)
Definition update_entry (id : string) (f : ScheduleEntry → result error ScheduleEntry) : prog unit :=
  e ← locked (λ w,
    match (e ← ok_or (sw_cache w !! id) (schedule_not_found id); f e) with
    | Ok e => (set_sw_cache (<[id := e]> (sw_cache w)) w, Ok e)
    | Err err => (w, Err err)
    end);
  with_bound_store (save_schedule e).

Definition schedule_enable (id : string) (enabled : bool) : prog unit :=
  update_entry id (λ e, Ok (set_enabled enabled e)).
Definition enable_for_accountable_user (id : string) (enabled : bool) (user : string) : prog unit :=
  _ ← ensure_accountable_user_owns id user; schedule_enable id enabled.

Definition schedule_list : prog (list ScheduleEntry) := locked (λ w, (w, Ok (btree_values (sw_cache w)))).
Definition list_for_accountable_user (user : string) : prog (list ScheduleEntry) :=
  _ ← lift (validate_schedule_user_scope user);
  locked (λ w,
    (w, Ok (filter (λ e, da_accountable_user_ura (se_authority e) = user) (btree_values (sw_cache w))))).

Definition next_fire_after (id : string) (now : Z) : prog (option Z) :=
  locked (λ w, (w, e ← ok_or (sw_cache w !! id) (schedule_not_found id); next_fire_for_entry e now)).

Definition schedule_due (now : Z) : prog (list DueFire) :=
  locked_panic (λ w, (w, due_entries now (btree_values (sw_cache w)))).

(** ** The ledger of fires *)

Definition insert_fire (id : string) (r : ScheduleFireRecord) (e : ScheduleEntry) : result error ScheduleEntry :=
  let k := fr_fire_at_unix_ms r in
  let fire := "schedule " +:+ id +:+ " fire " +:+ i64_display k in
  _ ← match se_fire_ledger e !! k with
      | Some previous =>
          ensure (bool_decide (fr_state previous = FireReserved) && negb (bool_decide (fr_state r = FireReserved)))
            [fire +:+ " cannot transition " +:+ fire_state_debug (fr_state previous) +:+ " -> " +:+ fire_state_debug (fr_state r)]
      | None =>
          ensure (bool_decide (fr_state r = FireReserved)) [fire +:+ " must be reserved before terminal update"]
      end;
  Ok (set_fire_ledger (<[k := r]> (se_fire_ledger e)) e).
Definition update_fire_record (id : string) (r : ScheduleFireRecord) : prog unit := update_entry id (insert_fire id r).

Definition reserve_fire (f : DueFire) : prog unit :=
  update_fire_record (df_schedule_id f) (mk_FireRecord (timestamp_millis (df_fire_at f)) FireReserved None None None).
Definition complete_fire (id : string) (ms : Z) (invocation_id receipt_hash : string) : prog unit :=
  update_fire_record id (mk_FireRecord ms FireCompleted (Some invocation_id) (Some (Retry.hex_encode receipt_hash)) None).
Definition fail_fire (id : string) (ms : Z) (error : string) : prog unit :=
  update_fire_record id (mk_FireRecord ms FireFailed None None (Some error)).

(** ** The tick runner *)

Definition schedule_tick_invocation_uras (i : LocalRuntimeInvocationIdentity) (target_agent_ura schedule_id : string) : string * string :=
  (target_agent_ura, resource_subject_ura i ("schedule." +:+ schedule_id) EmptyString).

(** The request of a fire, or why there is none. *)
Definition fire_request (i : LocalRuntimeInvocationIdentity) (entry : ScheduleEntry) (fire : DueFire) : result string kernel_request :=
  let agent := se_target_agent entry in
  let prompt := render_prompt (se_prompt entry) (df_schedule_id fire) (df_fire_at fire) (df_catch_up fire) agent in
  let '(target, subject) := schedule_tick_invocation_uras i (da_target_callee_ura (se_authority entry)) (df_schedule_id fire) in
  payload ← map_err (λ e, "encode invocation payload: " +:+ e) (to_vec (VObject [("prompt", VString prompt)]));
  map_err (λ e, "prepare canonical invocation: " +:+ display_alt e)
    (prepare_accountable_user_rpc (da_accountable_user_ura (se_authority entry)) target (agent +:+ ".chat") subject payload CausalNone).

(** The body of the loop over the due fires. *)
Definition fire_one (i : LocalRuntimeInvocationIdentity) (fire : DueFire) : prog unit :=
  let ms := timestamp_millis (df_fire_at fire) in
  schedules ← attempt schedule_list;
  match schedules with
  | Err _ => mret tt
  | Ok schedules =>
      match List.find (λ e, bool_decide (se_id e = df_schedule_id fire)) schedules with
      | None => mret tt
      | Some entry =>
          if negb (bool_decide (se_target_node entry = rt_local_node i)) then mret tt
          else if negb (bool_decide (da_execution_host_ura (se_authority entry) = local_device_ura i)) then mret tt
          else
            reserved ← attempt (reserve_fire fire);
            match reserved with
            | Err _ => mret tt
            | Ok _ =>
                match fire_request i entry fire with
                | Err e => _ ← attempt (fail_fire (df_schedule_id fire) ms e); mret tt
                | Ok request =>
                    locked (λ w, (set_sw_jobs (sw_jobs w ++ [mk_Fire _ (df_schedule_id fire) ms request]) w, Ok tt))
                end
            end
      end
  end.

Definition tick (i : LocalRuntimeInvocationIdentity) (now : Z) : prog unit :=
  due ← attempt (schedule_due now);
  match due with
  | Err _ => mret tt
  | Ok fires => foldr (λ f p, _ ← fire_one i f; p) (mret tt) fires
  end.

(** The task of the blocking pool: the invocation, and its record. *)
Definition run_fire (c : FireCall) : prog unit :=
  _ ← locked (λ w, (add_fire_call c w, Ok tt));
  r ← Act (λ _ w, (w, Ok (answer c))) Ret;
  match r with
  | Ok finalized =>
      _ ← attempt (complete_fire (fc_schedule_id c) (fc_fire_at_unix_ms c) (fi_invocation_id finalized) (fi_self_hash finalized));
      mret tt
  | Err e => _ ← attempt (fail_fire (fc_schedule_id c) (fc_fire_at_unix_ms c) (display_alt e)); mret tt
  end.

(** ** The daemon *)

Inductive ScheduleRequest :=
| ReqAddSchedule (uuid : string) (spec : ScheduleCreateSpec)
| ReqListSchedules (user : string)
| ReqRemoveSchedule (id user : string)
| ReqEnableSchedule (id : string) (enabled : bool) (user : string)
| ReqKernelRemove (id : string)
| ReqKernelEnable (id : string) (enabled : bool).

Definition serve_schedule (r : ScheduleRequest) : prog unit :=
  match r with
  | ReqAddSchedule uuid spec => _ ← add_spec uuid spec; mret tt
  | ReqListSchedules user => _ ← list_for_accountable_user user; mret tt
  | ReqRemoveSchedule id user => remove_for_accountable_user id user
  | ReqEnableSchedule id enabled user => enable_for_accountable_user id enabled user
  | ReqKernelRemove id => schedule_remove id
  | ReqKernelEnable id enabled => schedule_enable id enabled
  end.

(** The tick runner: never started, between two ticks, within one, or gone with a
    panic. *)
Inductive Ticker := NoTicker | Waiting | Ticking (p : prog unit) | Stopped.

Record DaemonState := mk_DaemonState {
  dm_world : ScheduleWorld;
  dm_identity : option LocalRuntimeInvocationIdentity;
  dm_ticker : Ticker;
  dm_tasks : list (prog unit);
}.

Inductive DaemonEvent :=
| Tick (now : Z)
| AdvanceTick (io : option io_failure)
| Begin (n : nat)
| AdvanceTask (n : nat) (io : option io_failure)
| SubmitSchedule (r : ScheduleRequest)
| Reboot (tenant : string) (identity : option LocalRuntimeInvocationIdentity) (io : option io_failure).

(** The start of the daemon: the store is bound, failures are reported and the
    start goes on; the tick runner needs an identity. *)
Definition boot_schedules (tenant : string) (identity : option LocalRuntimeInvocationIdentity) (io : option io_failure)
    (w : ScheduleWorld) : DaemonState :=
  let w0 := mk_SWorld _ ∅ None false (sw_files w) [] (sw_calls w) in
  mk_DaemonState (run_prog [io; None] (schedule_bind tenant) w0).1 identity
    (match identity with Some _ => Waiting | None => NoTicker end) [].

Definition daemon_step (d : DaemonState) (ev : DaemonEvent) : DaemonState :=
  let w := dm_world d in
  match ev with
  | Tick now =>
      match dm_ticker d, dm_identity d with
      | Waiting, Some i => mk_DaemonState w (dm_identity d) (Ticking (tick i now)) (dm_tasks d)
      | _, _ => d
      end
  | AdvanceTick io =>
      match dm_ticker d with
      | Ticking (Ret _) => mk_DaemonState w (dm_identity d) Waiting (dm_tasks d)
      | Ticking Panic => mk_DaemonState w (dm_identity d) Stopped (dm_tasks d)
      | Ticking p => let '(w', p') := run_prog [io] p w in mk_DaemonState w' (dm_identity d) (Ticking p') (dm_tasks d)
      | _ => d
      end
  | Begin n =>
      match sw_jobs w !! n with
      | Some c => mk_DaemonState (set_sw_jobs (delete n (sw_jobs w)) w) (dm_identity d) (dm_ticker d) (dm_tasks d ++ [run_fire c])
      | None => d
      end
  | AdvanceTask n io =>
      match dm_tasks d !! n with
      | Some p => let '(w', p') := run_prog [io] p w in mk_DaemonState w' (dm_identity d) (dm_ticker d) (<[n := p']> (dm_tasks d))
      | None => d
      end
  | SubmitSchedule r => mk_DaemonState w (dm_identity d) (dm_ticker d) (dm_tasks d ++ [serve_schedule r])
  | Reboot tenant identity io => boot_schedules tenant identity io w
  end.

Definition daemon_run (d : DaemonState) (l : list DaemonEvent) : DaemonState := foldl daemon_step d l.
End service.
