(* ===== verification/ScheduleDue.v ===== *)
(** * Schedules: what is due

    The fires a tick selects are the instants of the cron expression that came
    since the last fire on the ledger, as the misfire policy wants them; and what
    the policies do over several ticks. *)

From stdpp Require Import pretty sorting.
From Stdlib Require Import String Ascii.
From S2P Require Import Prelude RustStd Text Ura Json Programs LoopLedger Schedule LoopAbility ScheduleService.

Open Scope Z_scope.

(** The instants of a cron expression are dates. *)
Class CronDates `{CronLib, Calendar} : Prop := {
  cron_date c t u : cron_next c t = Some u → timestamp_millis_opt (timestamp_millis u) = Some u;
}.

(** ** The ledger in order *)

Lemma sorted_last_max (l : list (Z * ScheduleFireRecord)) p q :
  StronglySorted fire_key_le l → last l = Some p → q ∈ l → q.1 ≤ p.1.
Proof.
  induction l as [|x l IH]; intros Hs Hl Hq; [done|]. apply StronglySorted_inv in Hs as [Hs Hx].
  destruct l as [|y l].
  - injection Hl as <-. apply elem_of_cons in Hq as [->|Hq]; [lia|by apply not_elem_of_nil in Hq].
  - rewrite last_cons_cons in Hl. apply elem_of_cons in Hq as [->|Hq]; [|by apply IH].
    rewrite Forall_forall in Hx. apply Hx. by eapply last_Some_elem_of.
Qed.

#[global] Instance fire_key_le_total : Total fire_key_le.
Proof. intros a b. unfold fire_key_le. lia. Qed.
#[global] Instance fire_key_le_trans : Transitive fire_key_le.
Proof. intros a b c. unfold fire_key_le. lia. Qed.

Lemma elem_of_ledger_list m k r : (k, r) ∈ ledger_list m ↔ m !! k = Some r.
Proof. unfold ledger_list. by rewrite merge_sort_Permutation, elem_of_map_to_list. Qed.

(** The last key is on the ledger and none is later. *)
Lemma last_key_value_Some m k r : last_key_value m = Some (k, r) →
  m !! k = Some r ∧ ∀ k', is_Some (m !! k') → k' ≤ k.
Proof.
  unfold last_key_value. intros Hl. split; [by apply elem_of_ledger_list, last_Some_elem_of|].
  intros k' [r' Hr']. apply (sorted_last_max (ledger_list m) (k, r) (k', r')); [|done|by apply elem_of_ledger_list].
  apply StronglySorted_merge_sort; apply _.
Qed.
Lemma last_key_value_None m : last_key_value m = None → m = ∅.
Proof.
  unfold last_key_value. intros Hl%last_None. apply map_empty. intros k. destruct (m !! k) as [r|] eqn:Hk; [|done].
  apply elem_of_ledger_list in Hk. rewrite Hl in Hk. by apply not_elem_of_nil in Hk.
Qed.

Lemma last_key_value_insert m k r : (∀ k', is_Some (m !! k') → k' < k) → last_key_value (<[k := r]> m) = Some (k, r).
Proof.
  intros Hm. destruct (last_key_value (<[k := r]> m)) as [[k' r']|] eqn:Hl.
  - apply last_key_value_Some in Hl as [Hk' Hmax]. assert (k ≤ k') by (apply Hmax; by rewrite lookup_insert_eq).
    apply lookup_insert_Some in Hk' as [[<- <-]|[? Hk']]; [done|]. specialize (Hm k' (mk_is_Some _ _ Hk')). lia.
  - apply last_key_value_None in Hl. by apply insert_non_empty in Hl.
Qed.

#[local] Set Default Proof Using "Type*".

Section due.
Context `{!UraLib, !Hex, !CronLib, !Calendar, !CronLaws, !CalendarLaws, !CronDates}.

(** ** Instants *)

(** An instant of the expression, and one that came after [t] and by [now]. *)
Definition is_fire (c : cron) (u : Z) : Prop := cron_next c (u - 1) = Some u.
Definition missed (c : cron) (t now u : Z) : Prop := is_fire c u ∧ t < u ≤ now.

Lemma cron_next_is_fire c t u : cron_next c t = Some u → is_fire c u ∧ t < u ∧ u mod second = 0.
Proof. intros Hn. destruct (cron_next_after _ _ _ Hn). split; [|done]. eapply cron_next_first; [done|lia]. Qed.

Lemma is_fire_next c t u : is_fire c u → t < u → ∃ v, cron_next c t = Some v ∧ t < v ≤ u.
Proof.
  intros Hu Ht. destruct (cron_next c t) as [v|] eqn:Hn.
  - exists v. split; [done|]. destruct (cron_next_after _ _ _ Hn) as [? _]. split; [done|].
    destruct (decide (v ≤ u)); [done|]. pose proof (cron_next_first _ _ _ (u - 1) Hn) as Hf.
    unfold is_fire in Hu. rewrite Hf in Hu by lia. injection Hu as ->. lia.
  - unfold is_fire in Hu. rewrite (cron_next_never _ _ (u - 1) Hn) in Hu by lia. done.
Qed.

Lemma second_lt t u : t < u → u mod second = 0 → t / second < u / second.
Proof. unfold second. intros Ht Hm. pose proof (Z.div_mod u 1000000000). apply Z.div_lt_upper_bound; lia. Qed.

Lemma whole_millis u : u mod second = 0 → timestamp_millis u * millisecond = u.
Proof. unfold timestamp_millis, second, millisecond. Z.to_euclidean_division_equations. lia. Qed.

(** With one unit for each whole second the iteration does not stop early. *)
Lemma fires_from_spec c n t now u : (Z.to_nat (now / second - t / second) ≤ n)%nat →
  u ∈ fires_from c n t now ↔ missed c t now u.
Proof.
  revert t. induction n as [|n IH]; intros t Hn; cbn.
  - split; [by intros ?%not_elem_of_nil|]. intros [Hu Hb]. destruct (cron_next_is_fire _ _ _ Hu) as (_ & _ & Hm).
    assert (u / second ≤ now / second) by (apply Z.div_le_mono; [done|lia]).
    assert (t / second < u / second) by (apply second_lt; [lia|done]). lia.
  - destruct (cron_next c t) as [v|] eqn:Hv.
    + destruct (cron_next_is_fire _ _ _ Hv) as (Hf & Ht & Hm). destruct (v <=? now) eqn:Hle.
      * apply Z.leb_le in Hle. rewrite elem_of_cons, IH.
        2: { assert (t / second < v / second) by (by apply second_lt). lia. }
        split.
        -- intros [->|[Hu Hb]]; split; try done; lia.
        -- intros [Hu Hb]. destruct (is_fire_next c t u Hu) as (v' & Hv' & Hb'); [lia|]. rewrite Hv in Hv'. injection Hv' as <-.
           destruct (decide (u = v)) as [->|]; [by left|]. right. split; [done|]. lia.
      * apply Z.leb_gt in Hle. split; [by intros ?%not_elem_of_nil|]. intros [Hu Hb].
        destruct (is_fire_next c t u Hu) as (v' & Hv' & Hb'); [lia|]. rewrite Hv in Hv'. injection Hv' as <-. lia.
    + split; [by intros ?%not_elem_of_nil|]. intros [Hu Hb]. destruct (is_fire_next c t u Hu) as (v' & Hv' & _); [lia|]. congruence.
Qed.

Lemma fires_between_spec c t now u : u ∈ fires_between c t now ↔ missed c t now u.
Proof.
  apply fires_from_spec. assert (now / second - t / second ≤ (now - t) / second + 1); [|lia].
  unfold second. Z.to_euclidean_division_equations. lia.
Qed.

Lemma fires_from_sorted c n t now : StronglySorted Z.lt (fires_from c n t now) ∧ Forall (λ u, t < u) (fires_from c n t now).
Proof.
  revert t. induction n as [|n IH]; intros t; cbn; [split; constructor|].
  destruct (cron_next c t) as [v|] eqn:Hv; [|split; constructor]. destruct (cron_next_after _ _ _ Hv) as [Ht _].
  destruct (v <=? now); [|split; constructor]. destruct (IH v) as [Hs Hf]. split; constructor; try done.
  eapply Forall_impl; [exact Hf|]. cbn. lia.
Qed.
Lemma fires_between_sorted c t now : StronglySorted Z.lt (fires_between c t now).
Proof. apply fires_from_sorted. Qed.

(** The missed instants in order are the only such list. *)
Lemma fires_between_unique c t now l :
  StronglySorted Z.lt l → (∀ u, u ∈ l ↔ missed c t now u) → fires_between c t now = l.
Proof.
  intros Hs Hl. assert (∀ l, StronglySorted Z.lt l → NoDup l) as Hnd.
  { clear. induction 1 as [|x l _ IH Hx]; constructor; [|done]. intros Hin. rewrite Forall_forall in Hx. specialize (Hx x Hin). lia. }
  apply (StronglySorted_unique_strong Z.lt); [lia|apply fires_between_sorted|done|].
  apply NoDup_Permutation; [by apply Hnd, fires_between_sorted|by apply Hnd|].
  intros u. by rewrite fires_between_spec, Hl.
Qed.

(** After a fire only the later ones are left. *)
Lemma fires_after_fire c t now u l1 l2 : fires_between c t now = l1 ++ u :: l2 → fires_between c u now = l2.
Proof.
  intros Hf. pose proof (fires_between_sorted c t now) as Hs. rewrite Hf in Hs.
  apply StronglySorted_app in Hs as (Hc & _ & Hs). apply StronglySorted_inv in Hs as [Hs Hu]. rewrite Forall_forall in Hu.
  apply fires_between_unique; [done|]. intros v. split.
  - intros Hv. assert (missed c t now v) as [Hfire Hb] by (apply fires_between_spec; rewrite Hf; set_solver).
    split; [done|]. specialize (Hu v Hv). lia.
  - intros [Hfire Hb]. assert (missed c t now u) as [_ Hub] by (apply fires_between_spec; rewrite Hf; set_solver).
    assert (v ∈ fires_between c t now) as Hv by (apply fires_between_spec; split; [done|lia]). rewrite Hf in Hv.
    apply elem_of_app in Hv as [Hv|[->|Hv]%elem_of_cons]; [|lia|done]. specialize (Hc v u Hv). set_unfold in Hc. lia.
Qed.

(** ** Selection *)

(** The keys of the ledger are dates. *)
Definition well_dated (e : ScheduleEntry) : Prop :=
  ∀ k, is_Some (se_fire_ledger e !! k) → is_Some (timestamp_millis_opt k).

(** Nothing on the ledger is later than the anchor. *)
Lemma anchor_after_ledger now e anchor k :
  well_dated e → anchor_of now e = Some (Ok anchor) → is_Some (se_fire_ledger e !! k) → k * millisecond ≤ anchor.
Proof.
  intros Hd Ha Hk. unfold anchor_of in Ha. destruct (last_key_value (se_fire_ledger e)) as [[k' r]|] eqn:Hl.
  - apply last_key_value_Some in Hl as [Hk' Hmax]. destruct (Hd k' (mk_is_Some _ _ Hk')) as [t Ht].
    cbn in Ha. rewrite Ht in Ha. injection Ha as <-. apply timestamp_millis_value in Ht as ->. specialize (Hmax k Hk).
    unfold millisecond. lia.
  - apply last_key_value_None in Hl. rewrite Hl, lookup_empty in Hk. by destruct Hk.
Qed.

Lemma sorted_last_missed c t now u :
  last (fires_between c t now) = Some u ↔ missed c t now u ∧ ∀ v, missed c t now v → v ≤ u.
Proof.
  setoid_rewrite <- fires_between_spec. pose proof (fires_between_sorted c t now) as Hs.
  destruct (fires_between c t now) as [|x l _] using rev_ind.
  - split; [done|]. by intros [?%not_elem_of_nil _].
  - rewrite last_snoc. apply StronglySorted_app in Hs as (Hlt & _). split.
    + intros [= <-]. split; [set_solver|]. intros v [Hv|Hv]%elem_of_app; [|set_solver by lia].
      specialize (Hlt v x Hv). set_unfold. lia.
    + intros [Hu Hmax]. f_equal. specialize (Hmax x). apply elem_of_app in Hu as [Hu|Hu]; [|set_solver].
      specialize (Hlt u x Hu). set_unfold. lia.
Qed.

Lemma sorted_head_missed c t now u :
  head (fires_between c t now) = Some u ↔ missed c t now u ∧ ∀ v, missed c t now v → u ≤ v.
Proof.
  setoid_rewrite <- fires_between_spec. pose proof (fires_between_sorted c t now) as Hs.
  destruct (fires_between c t now) as [|x l].
  - split; [done|]. by intros [?%not_elem_of_nil _].
  - cbn. apply StronglySorted_inv in Hs as [_ Hx]. rewrite Forall_forall in Hx. split.
    + intros [= <-]. split; [set_solver|]. intros v [->|Hv]%elem_of_cons; [lia|]. specialize (Hx v Hv). lia.
    + intros [Hu Hmin]. f_equal. specialize (Hmin x). apply elem_of_cons in Hu as [->|Hu]; [done|].
      specialize (Hx u Hu). set_unfold. lia.
Qed.

(** What a policy selects of the missed instants. *)
Definition selected (now : Z) (e : ScheduleEntry) (c : cron) (anchor u : Z) : Prop :=
  missed c anchor now u ∧
  match se_misfire_policy e with
  | Skip => ∀ v, missed c anchor now v → v ≤ u
  | FireOnce => ∀ v, missed c anchor now v → u ≤ v
  | CatchUpWindowed => now - u ≤ catch_up_seconds_for e * second
  end.

Lemma select_fires_spec now e c anchor l u :
  select_fires now e (fires_between c anchor now) = Some (Ok l) → u ∈ df_fire_at <$> l ↔ selected now e c anchor u.
Proof.
  unfold select_fires, selected. destruct (se_misfire_policy e).
  - intros [= <-]. rewrite <- sorted_last_missed. destruct (last _); cbn; set_solver.
  - intros [= <-]. rewrite <- sorted_head_missed. destruct (head _); cbn; set_solver.
  - destruct (duration_seconds _) as [d|] eqn:Hd; [|done]. cbn. intros [= <-]. apply duration_seconds_value in Hd as ->.
    rewrite <- list_fmap_compose. cbn. rewrite list_fmap_id, list_elem_of_filter, fires_between_spec. tauto.
Qed.

Lemma due_entry_Ok now e l : due_entry now e = Some (Ok l) →
  ∃ c anchor, parse_entry_cron e = Ok c ∧ anchor_of now e = Some (Ok anchor) ∧
    (fires_between c anchor now = [] ∧ l = [] ∨ select_fires now e (fires_between c anchor now) = Some (Ok l)).
Proof.
  unfold due_entry. destruct (parse_entry_cron e) as [c|err]; [|done]. cbn.
  destruct (anchor_of now e) as [[anchor|err]|]; [|done..]. cbn. intros Hs. exists c, anchor. split; [done|]. split; [done|].
  case_bool_decide; [left|by right]. by injection Hs as <-.
Qed.

Lemma due_entry_selected now e l : due_entry now e = Some (Ok l) →
  ∃ c anchor, parse_entry_cron e = Ok c ∧ anchor_of now e = Some (Ok anchor) ∧
    ∀ u, u ∈ df_fire_at <$> l ↔ selected now e c anchor u.
Proof.
  intros (c & anchor & Hc & Ha & [[Hf ->]|Hs])%due_entry_Ok; exists c, anchor; (split; [done|]); (split; [done|]); intros u.
  - split; [by intros ?%not_elem_of_nil|]. intros [Hm%fires_between_spec _]. rewrite Hf in Hm. by apply not_elem_of_nil in Hm.
  - by apply select_fires_spec.
Qed.

Lemma due_entry_ids now e l : due_entry now e = Some (Ok l) → Forall (λ f, df_schedule_id f = se_id e) l.
Proof.
  intros (c & anchor & _ & _ & [[_ ->]|Hs])%due_entry_Ok; [done|]. unfold select_fires in Hs.
  destruct (se_misfire_policy e); [by injection Hs as <-; apply Forall_fmap, Forall_true..|].
  destruct (duration_seconds _); [|done]. injection Hs as <-. by apply Forall_fmap, Forall_true.
Qed.

(** What is due is what was missed, as the policy wants it: a
    tick selects, of the instants of the cron expression since the last fire on
    the ledger (or within the window), the last, the first, or those within the
    window - and never one that is already on the ledger. *)
Theorem due_fires now e l :
  well_dated e → due_entry now e = Some (Ok l) →
  ∃ c anchor, parse_entry_cron e = Ok c ∧ anchor_of now e = Some (Ok anchor) ∧
    (∀ u, u ∈ df_fire_at <$> l ↔ selected now e c anchor u) ∧
    Forall (λ f, df_schedule_id f = se_id e ∧ ∀ k, is_Some (se_fire_ledger e !! k) → k < timestamp_millis (df_fire_at f)) l.
Proof.
  intros Hd Hl. pose proof (due_entry_ids _ _ _ Hl) as Hid.
  destruct (due_entry_selected now e l Hl) as (c & anchor & Hc & Ha & Hsel). exists c, anchor. split_and!; try done.
  rewrite Forall_forall in Hid |- *. intros f Hf. split; [by apply Hid|]. intros k Hk.
  destruct (proj1 (Hsel (df_fire_at f))) as [[Hfire Hb] _]; [by apply list_elem_of_fmap; exists f|].
  pose proof (anchor_after_ledger now e anchor k Hd Ha Hk) as Hka.
  destruct (cron_next_is_fire _ _ _ Hfire) as (_ & _ & Hm%whole_millis). unfold millisecond in *. lia.
Qed.

(** ** Ticks *)

(** An entry after fires are reserved, and the instants fired in [k] ticks at
    one time. *)
Definition reserved_at (t : Z) : ScheduleFireRecord := mk_FireRecord (timestamp_millis t) FireReserved None None None.
Definition reserve_due (e : ScheduleEntry) (l : list DueFire) : ScheduleEntry :=
  foldl (λ e f, match insert_fire (se_id e) (reserved_at (df_fire_at f)) e with Ok e' => e' | Err _ => e end) e l.
Fixpoint ticks (k : nat) (now : Z) (e : ScheduleEntry) : list Z :=
  match k with
  | O => []
  | S k => match due_entry now e with
           | Some (Ok l) => (df_fire_at <$> l) ++ ticks k now (reserve_due e l)
           | _ => []
           end
  end.

(** What does not change, and the new last fire. *)
Definition same_schedule (e e' : ScheduleEntry) : Prop :=
  se_id e' = se_id e ∧ se_cron_expr e' = se_cron_expr e ∧ se_misfire_policy e' = se_misfire_policy e ∧
  se_catch_up_window_secs e' = se_catch_up_window_secs e.

#[local] Instance same_schedule_trans : Transitive same_schedule.
Proof. intros e1 e2 e3 (? & ? & ? & ?) (? & ? & ? & ?). split_and!; by etrans. Qed.

Lemma reserve_one e u : is_Some (timestamp_millis_opt (timestamp_millis u)) → well_dated e →
  (∀ k, is_Some (se_fire_ledger e !! k) → k < timestamp_millis u) →
  ∃ e', insert_fire (se_id e) (reserved_at u) e = Ok e' ∧ same_schedule e e' ∧ well_dated e' ∧
    fst <$> last_key_value (se_fire_ledger e') = Some (timestamp_millis u) ∧
    ∀ k, is_Some (se_fire_ledger e' !! k) → k ≤ timestamp_millis u.
Proof.
  intros Hu Hd Hk. eexists. unfold insert_fire. cbn.
  destruct (se_fire_ledger e !! timestamp_millis u) as [r|] eqn:Hr; [specialize (Hk _ (mk_is_Some _ _ Hr)); lia|].
  split; [done|]. split; [done|]. unfold well_dated. cbn [se_fire_ledger set_fire_ledger]. split_and!.
  - intros k [r [[<- _]|[_ Hk']]%lookup_insert_Some]; [done|]. apply Hd. by eexists.
  - by rewrite last_key_value_insert.
  - intros k [r [[<- _]|[_ Hk']]%lookup_insert_Some]; [lia|]. specialize (Hk k (mk_is_Some _ _ Hk')). lia.
Qed.

Lemma reserve_due_last e l f :
  StronglySorted Z.lt (timestamp_millis ∘ df_fire_at <$> l ++ [f]) → well_dated e →
  Forall (λ f, is_Some (timestamp_millis_opt (timestamp_millis (df_fire_at f)))) (l ++ [f]) →
  Forall (λ f, ∀ k, is_Some (se_fire_ledger e !! k) → k < timestamp_millis (df_fire_at f)) (l ++ [f]) →
  same_schedule e (reserve_due e (l ++ [f])) ∧ well_dated (reserve_due e (l ++ [f])) ∧
  fst <$> last_key_value (se_fire_ledger (reserve_due e (l ++ [f]))) = Some (timestamp_millis (df_fire_at f)).
Proof.
  revert e. induction l as [|g l IH]; intros e Hs Hd Hdates Hk; cbn in *.
  - rewrite Forall_singleton in Hdates, Hk. destruct (reserve_one e (df_fire_at f) Hdates Hd Hk) as (e' & -> & Hsame & Hd' & Hl & _).
    split_and!; [apply Hsame..|done|done].
  - apply StronglySorted_inv in Hs as [Hs Hg]. apply Forall_cons in Hdates as [Hg1 Hdates], Hk as [Hg2 Hk].
    destruct (reserve_one e (df_fire_at g) Hg1 Hd Hg2) as (e' & -> & Hsame & Hd' & _ & Hle).
    destruct (IH e' Hs Hd' Hdates) as (Hsame' & Hd'' & Hl).
    + rewrite Forall_forall in Hg. rewrite Forall_forall. intros f' Hf' k Hk'. specialize (Hle k Hk').
      specialize (Hg (timestamp_millis (df_fire_at f'))). apply Z.le_lt_trans with (timestamp_millis (df_fire_at g)); [done|].
      apply Hg. apply list_elem_of_fmap. by exists f'.
    + split; [|by split]. by transitivity e'.
Qed.

(** The anchor after a reservation is the instant reserved last. *)
Lemma anchor_reserved now e' c u :
  is_fire c u → fst <$> last_key_value (se_fire_ledger e') = Some (timestamp_millis u) → anchor_of now e' = Some (Ok u).
Proof.
  intros Hu Hl. unfold anchor_of. destruct (last_key_value (se_fire_ledger e')) as [[k r]|]; [|done].
  injection Hl as ->. cbn. by rewrite (cron_date _ _ _ Hu).
Qed.

Lemma parse_entry_cron_same e e' : same_schedule e e' → parse_entry_cron e' = parse_entry_cron e.
Proof. intros (Hid & Hc & _). unfold parse_entry_cron. by rewrite Hid, Hc. Qed.

Lemma ticks_idle k now e c anchor :
  parse_entry_cron e = Ok c → anchor_of now e = Some (Ok anchor) → fires_between c anchor now = [] → ticks k now e = [].
Proof.
  intros Hc Ha Hf. assert (due_entry now e = Some (Ok [])) as Hdue.
  { unfold due_entry. rewrite Hc. cbn. rewrite Ha. cbn. by rewrite Hf. }
  induction k as [|k IH]; [done|]. cbn [ticks]. by rewrite Hdue.
Qed.

(** What is due is dated, in order and new. *)
Lemma due_reservable now e c anchor l :
  well_dated e → anchor_of now e = Some (Ok anchor) → StronglySorted Z.lt (df_fire_at <$> l) →
  Forall (λ f, missed c anchor now (df_fire_at f)) l →
  StronglySorted Z.lt (timestamp_millis ∘ df_fire_at <$> l) ∧
  Forall (λ f, is_Some (timestamp_millis_opt (timestamp_millis (df_fire_at f)))) l ∧
  Forall (λ f, ∀ k, is_Some (se_fire_ledger e !! k) → k < timestamp_millis (df_fire_at f)) l.
Proof.
  intros Hd Ha Hs Hm. split_and!.
  - induction l as [|f l IH]; cbn in *; [constructor|]. apply StronglySorted_inv in Hs as [Hs Hf]. apply Forall_cons in Hm as [Hmf Hm].
    constructor; [by apply IH|]. rewrite Forall_forall in Hf. rewrite Forall_forall in Hm. apply Forall_fmap, Forall_forall.
    intros g Hg. specialize (Hf (df_fire_at g)). cbn in *. ospecialize (Hf _); [apply list_elem_of_fmap; by exists g|].
    destruct (cron_next_is_fire _ _ _ (proj1 Hmf)) as (_ & _ & Hw1%whole_millis).
    destruct (cron_next_is_fire _ _ _ (proj1 (Hm g Hg))) as (_ & _ & Hw2%whole_millis). unfold millisecond in *. lia.
  - eapply Forall_impl; [exact Hm|]. intros f [Hf _]. eexists. by eapply cron_date.
  - eapply Forall_impl; [exact Hm|]. intros f [Hf Hb] k Hk. pose proof (anchor_after_ledger now e anchor k Hd Ha Hk).
    destruct (cron_next_is_fire _ _ _ Hf) as (_ & _ & Hw%whole_millis). unfold millisecond in *. lia.
Qed.

(** A tick that fires [l] and then [f]: from there on the instants after that of
    [f] are missed. *)
Lemma ticks_step k now e c anchor l f :
  well_dated e → parse_entry_cron e = Ok c → anchor_of now e = Some (Ok anchor) →
  due_entry now e = Some (Ok (l ++ [f])) → StronglySorted Z.lt (df_fire_at <$> l ++ [f]) →
  Forall (λ f, missed c anchor now (df_fire_at f)) (l ++ [f]) →
  ∃ e', ticks (S k) now e = (df_fire_at <$> l ++ [f]) ++ ticks k now e' ∧ same_schedule e e' ∧ well_dated e' ∧
    parse_entry_cron e' = Ok c ∧ anchor_of now e' = Some (Ok (df_fire_at f)).
Proof.
  intros Hd Hc Ha Hdue Hs Hm. destruct (due_reservable now e c anchor _ Hd Ha Hs Hm) as (Hs' & Hdates & Hnew).
  destruct (reserve_due_last e l f Hs' Hd Hdates Hnew) as (Hsame & Hd' & Hl). exists (reserve_due e (l ++ [f])).
  cbn [ticks]. rewrite Hdue. split_and!; try done; [apply Hsame..| |].
  - by rewrite (parse_entry_cron_same e).
  - eapply anchor_reserved; [|exact Hl]. apply Forall_app in Hm as [_ Hm]. rewrite Forall_singleton in Hm. apply Hm.
Qed.

(** One instant at a time, as [Skip] and [FireOnce] select them. *)
Lemma ticks_single k now e c anchor l1 u l2 :
  well_dated e → parse_entry_cron e = Ok c → anchor_of now e = Some (Ok anchor) →
  fires_between c anchor now = l1 ++ u :: l2 →
  due_entry now e = Some (Ok [mk_Due (se_id e) u (1 <? length (fires_between c anchor now))%nat]) →
  ∃ e', ticks (S k) now e = u :: ticks k now e' ∧ same_schedule e e' ∧ well_dated e' ∧
    parse_entry_cron e' = Ok c ∧ anchor_of now e' = Some (Ok u) ∧ fires_between c u now = l2.
Proof.
  intros Hd Hc Ha Hf Hdue. assert (missed c anchor now u) as Hu by (apply fires_between_spec; rewrite Hf; set_solver).
  destruct (ticks_step k now e c anchor [] (mk_Due (se_id e) u (1 <? length (fires_between c anchor now))%nat)
    Hd Hc Ha Hdue) as (e' & Ht & Hs & Hd' & Hc' & Ha').
  - cbn. constructor; constructor.
  - by apply Forall_singleton.
  - exists e'. split_and!; try done; [apply Hs..|]. by eapply fires_after_fire.
Qed.

Lemma due_entry_fires now e c anchor :
  parse_entry_cron e = Ok c → anchor_of now e = Some (Ok anchor) → fires_between c anchor now ≠ [] →
  due_entry now e = select_fires now e (fires_between c anchor now).
Proof.
  intros Hc Ha Hf. unfold due_entry. rewrite Hc. cbn. rewrite Ha. cbn. by rewrite bool_decide_false.
Qed.

Lemma ticks_fire_once k now e c anchor :
  well_dated e → parse_entry_cron e = Ok c → anchor_of now e = Some (Ok anchor) → se_misfire_policy e = FireOnce →
  ticks k now e = take k (fires_between c anchor now).
Proof.
  revert e anchor. induction k as [|k IH]; intros e anchor Hd Hc Ha Hp; [done|].
  destruct (fires_between c anchor now) as [|u l] eqn:Hf; [by rewrite (ticks_idle _ _ _ c anchor)|].
  destruct (ticks_single k now e c anchor [] u l Hd Hc Ha Hf) as (e' & -> & (_ & _ & Hp' & _) & Hd' & Hc' & Ha' & Hl).
  - rewrite (due_entry_fires now e c anchor) by (try done; by rewrite Hf). unfold select_fires. by rewrite Hp, Hf.
  - cbn. f_equal. rewrite <- Hl. apply IH; try done. by rewrite Hp'.
Qed.

Lemma ticks_skip k now e c anchor :
  well_dated e → parse_entry_cron e = Ok c → anchor_of now e = Some (Ok anchor) → se_misfire_policy e = Skip →
  ticks (S k) now e = option_list (last (fires_between c anchor now)).
Proof.
  intros Hd Hc Ha Hp. destruct (fires_between c anchor now) as [|u l _] eqn:Hf using rev_ind; [by rewrite (ticks_idle _ _ _ c anchor)|].
  destruct (ticks_single k now e c anchor l u [] Hd Hc Ha Hf) as (e' & -> & _ & Hd' & Hc' & Ha' & Hl).
  - rewrite (due_entry_fires now e c anchor) by (try done; rewrite Hf; by destruct l). unfold select_fires.
    rewrite Hp, Hf, last_snoc. done.
  - rewrite last_snoc. cbn. f_equal. by eapply ticks_idle.
Qed.

Lemma ticks_catch_up k now e c anchor :
  well_dated e → parse_entry_cron e = Ok c → anchor_of now e = Some (Ok anchor) → se_misfire_policy e = CatchUpWindowed →
  is_Some (duration_seconds (catch_up_seconds_for e)) →
  ticks (S k) now e = filter (λ t, now - t ≤ catch_up_seconds_for e * second) (fires_between c anchor now).
Proof.
  intros Hd Hc Ha Hp [d Hdur]. pose proof (duration_seconds_value _ _ Hdur) as ->. set (window := catch_up_seconds_for e * second) in *.
  destruct (fires_between c anchor now) as [|x l _] eqn:Hf using rev_ind; [by rewrite (ticks_idle _ _ _ c anchor)|].
  pose proof (fires_between_sorted c anchor now) as Hs. rewrite Hf in Hs. apply StronglySorted_app in Hs as (Hlt & Hs & _).
  assert (due_entry now e = Some (Ok ((λ t, mk_Due (se_id e) t (1 <? length (fires_between c anchor now))%nat) <$>
    filter (λ t, now - t ≤ window) (l ++ [x])))) as Hdue.
  { rewrite (due_entry_fires now e c anchor) by (try done; rewrite Hf; by destruct l). unfold select_fires. by rewrite Hp, Hdur, Hf. }
  rewrite filter_app, filter_cons, filter_nil in *. case_decide as Hx.
  - rewrite fmap_app in Hdue. set (due := λ t, mk_Due (se_id e) t _) in Hdue.
    destruct (ticks_step k now e c anchor _ (due x) Hd Hc Ha Hdue) as (e' & -> & _ & _ & Hc' & Ha').
    + rewrite fmap_app, <- list_fmap_compose, list_fmap_id. apply StronglySorted_app. split_and!.
      * intros u v [_ Hu]%list_elem_of_filter Hv. by apply Hlt.
      * clear -Hs. induction Hs as [|y l Hs IH Hy]; [constructor|]. rewrite filter_cons. case_decide; [|done].
        constructor; [done|]. rewrite Forall_forall in Hy |- *. intros z [_ Hz]%list_elem_of_filter. by apply Hy.
      * constructor; constructor.
    + apply Forall_forall. intros f Hin. apply fires_between_spec. rewrite Hf.
      apply elem_of_app in Hin as [(u & -> & [_ Hu]%list_elem_of_filter)%list_elem_of_fmap|Hin]; set_solver.
    + rewrite (ticks_idle k now e' c x); [by rewrite app_nil_r, fmap_app, <- list_fmap_compose, list_fmap_id|done|done|].
      by eapply (fires_after_fire c anchor now x l []).
  - assert (filter (λ t, now - t ≤ window) l = []) as Hnil.
    { apply filter_none. intros u Hu Hw. specialize (Hlt u x Hu). set_unfold. lia. }
    rewrite Hnil in *. cbn [app fmap list_fmap] in Hdue |- *. generalize (S k) as j. clear k. intros k. induction k as [|k IH]; [done|]. cbn [ticks].
    by rewrite Hdue.
Qed.

(** C18 (functional): what the misfire policies come to in the code, over any
    number of ticks at one time: [CatchUpWindowed] fires every missed instant
    within its window, once each, as documented; [Skip] fires the last missed
    instant, once - the code and its test want that one fire, while the
    documentation of the policy says that every missed fire is skipped; and
    [FireOnce], documented as one fire on resume regardless of the count, fires
    every missed instant, one per tick, because the ledger moves on only to the
    instant that was fired. *)
Theorem misfire_policies k now e c anchor :
  well_dated e → parse_entry_cron e = Ok c → anchor_of now e = Some (Ok anchor) →
  is_Some (duration_seconds (catch_up_seconds_for e)) →
  ticks (S k) now e =
    let missed := fires_between c anchor now in
    match se_misfire_policy e with
    | Skip => option_list (last missed)
    | FireOnce => take (S k) missed
    | CatchUpWindowed => filter (λ t, now - t ≤ catch_up_seconds_for e * second) missed
    end.
Proof.
  intros Hd Hc Ha Hw. cbn zeta. destruct (se_misfire_policy e) eqn:Hp.
  - by apply ticks_skip.
  - by apply ticks_fire_once.
  - by apply ticks_catch_up.
Qed.

(** ** Panics *)

Lemma due_entry_wide now e c :
  parse_entry_cron e = Ok c → se_fire_ledger e = ∅ → i64_max / 1000 < catch_up_seconds_for e → due_entry now e = None.
Proof.
  intros Hc Hl Hw. unfold due_entry. rewrite Hc. cbn. unfold anchor_of. rewrite Hl. cbn.
  destruct (duration_seconds (catch_up_seconds_for e)) as [d|] eqn:Hd; [|done].
  pose proof (proj1 (duration_seconds_range _) (mk_is_Some _ _ Hd)). lia.
Qed.

Definition no_error {A} (m : panicky A) : Prop := ∀ err, m ≠ Some (Err err).
Lemma no_error_bind {A B} (m : panicky A) (f : A → panicky B) : no_error m → (∀ a, no_error (f a)) → no_error (panicky_bind m f).
Proof. intros Hm Hf err. destruct m as [[a|e]|]; cbn; [apply Hf|by destruct (Hm e)|done]. Qed.
Lemma no_error_or_panic {A} (o : option A) : no_error (or_panic o).
Proof. by destruct o. Qed.

Lemma due_entry_no_error now e c : parse_entry_cron e = Ok c → no_error (due_entry now e).
Proof.
  intros Hc. apply no_error_bind; [by rewrite Hc|]. intros c'. apply no_error_bind.
  - unfold anchor_of. case_match; [done|]. apply no_error_bind; intros; apply no_error_or_panic.
  - intros anchor. cbn zeta. case_bool_decide; [done|]. unfold select_fires. case_match; [done..|].
    apply no_error_bind; [apply no_error_or_panic|done].
Qed.

(** C24 (error): one schedule stops all: with a new schedule whose window is out
    of the range of durations among those that are enabled - it is accepted when
    it is created - the selection of due fires panics at every time. *)
Theorem wide_window_panics now l e :
  e ∈ l → se_enabled e = true → se_fire_ledger e = ∅ → i64_max / 1000 < catch_up_seconds_for e →
  Forall (λ e, ∃ c, parse_entry_cron e = Ok c) l → due_entries now l = None.
Proof.
  intros He Hen Hl Hw Hall. induction Hall as [|e' l [c Hc] _ IH]; [by apply not_elem_of_nil in He|]. cbn [due_entries].
  apply elem_of_cons in He as [<-|He].
  - by rewrite Hen, (due_entry_wide now e c).
  - specialize (IH He). destruct (se_enabled e'); [|done]. destruct (due_entry now e') as [[out|err]|] eqn:Hdue; [| |done].
    + cbn. by rewrite IH.
    + by destruct (due_entry_no_error now e' c Hc err).
Qed.
End due.
