(* ===== verification/ScheduleFires.v ===== *)
(** * Schedules: each fire once

    Within one run of the daemon no fire of a schedule is invoked twice, however
    requests, ticks and invocations interleave and whatever the disk does.  The
    argument is linear: a reservation that succeeds gives the right to invoke that
    fire, which is handed to the blocking pool with the invocation and spent by
    it; an addition holds the right to create its schedule.  No right exists
    twice. *)

From stdpp Require Import pretty.
From Stdlib Require Import String Ascii.
From S2P Require Import Prelude RustStd Text Ura Json Programs LoopLedger LoopAbility Schedule ScheduleService.

Open Scope Z_scope.

(** ** Rights *)

Inductive right := MayCreate (id : string) | MayFire (id : string) (ms : Z).

Section rights.
Context `{!UraLib, !SerdeJson, !Hex, !CronLib, !Calendar, !ScheduleCodec, !HostedAgents, !Kernel}.
Notation World := ScheduleWorld.

Definition fire_right (c : FireCall) : right := MayFire (fc_schedule_id c) (fc_fire_at_unix_ms c).

(** A change of the cache that forgets no fire and makes no schedule. *)
Definition keeps (c c' : gmap string ScheduleEntry) : Prop :=
  ∀ id e', c' !! id = Some e' → ∃ e, c !! id = Some e ∧ ∀ ms, is_Some (se_fire_ledger e !! ms) → is_Some (se_fire_ledger e' !! ms).

(** What a task that holds the rights [h] may do, and the rights it then holds. *)
Inductive moves (h : list right) (w : World) : list right → World → Prop :=
| move_quiet w' : keeps (sw_cache w) (sw_cache w') → sw_jobs w' = sw_jobs w → sw_calls w' = sw_calls w → moves h w h w'
| move_create w' h' id e : h ≡ₚ MayCreate id :: h' → sw_cache w' = <[id := e]> (sw_cache w) →
    sw_jobs w' = sw_jobs w → sw_calls w' = sw_calls w → moves h w h' w'
| move_reserve w' h' id ms e r : h' ≡ₚ MayFire id ms :: h → sw_cache w !! id = Some e → se_fire_ledger e !! ms = None →
    sw_cache w' = <[id := set_fire_ledger (<[ms := r]> (se_fire_ledger e)) e]> (sw_cache w) →
    sw_jobs w' = sw_jobs w → sw_calls w' = sw_calls w → moves h w h' w'
| move_queue w' h' c : h ≡ₚ fire_right c :: h' → sw_cache w' = sw_cache w →
    sw_jobs w' = sw_jobs w ++ [c] → sw_calls w' = sw_calls w → moves h w h' w'
| move_call w' h' c : h ≡ₚ fire_right c :: h' → sw_cache w' = sw_cache w →
    sw_jobs w' = sw_jobs w → sw_calls w' = sw_calls w ++ [c] → moves h w h' w'.

(** Every action of the program is such a move; it ends with rights and a value
    that satisfy [Q]. *)
Fixpoint linear {A} (h : list right) (p : Prog World A) (Q : list right → A → Prop) : Prop :=
  match p with
  | Ret a => Q h a
  | Panic => True
  | Act act k => ∀ io w, ∃ h', moves h w h' (act io w).1 ∧ linear h' (k (act io w).2) Q
  | Spawn _ _ => False
  end.

Lemma keeps_refl c : keeps c c.
Proof. intros id e He. by exists e. Qed.

Lemma linear_bind {A B} h (p : Prog World A) (f : A → Prog World B) Q R :
  linear h p Q → (∀ h a, Q h a → linear h (f a) R) → linear h (prog_bind p f) R.
Proof.
  intros Hp Hf. revert h Hp. induction p as [a| |X act k IH|id k IH]; intros h Hp; cbn in *; try done; [by apply Hf|].
  intros io w. destruct (Hp io w) as (h' & Hm & Hl). exists h'. split; [done|]. by apply IH.
Qed.

Lemma linear_mono {A} h (p : Prog World A) (Q R : list right → A → Prop) :
  (∀ h a, Q h a → R h a) → linear h p Q → linear h p R.
Proof.
  intros HQ. revert h. induction p as [a| |X act k IH|id k IH]; intros h Hp; cbn in *; try done; [by apply HQ|].
  intros io w. destruct (Hp io w) as (h' & Hm & Hl). exists h'. split; [done|]. by apply IH.
Qed.

(** Ends with the rights it has, whatever the value. *)
Definition still {A} (h : list right) (h' : list right) (_ : A) : Prop := h' = h.

Lemma linear_try {A B} h (p : prog World A) (f : A → prog World B) (R : list right → result error B → Prop) :
  linear h p (still h) → (∀ a, linear h (f a) R) → (∀ e, R h (Err e)) → linear h (p ≫= f) R.
Proof. intros Hp Hf He. eapply linear_bind; [exact Hp|]. intros h' [a|e] ->; [apply Hf|apply He]. Qed.

Lemma linear_lift {A B} h (r : result error A) (f : A → prog World B) R :
  (∀ a, r = Ok a → linear h (f a) R) → (∀ e, R h (Err e)) → linear h (lift r ≫= f) R.
Proof. intros Hf He. destruct r; [by apply Hf|apply He]. Qed.

Lemma linear_attempt {A} h (p : prog World A) : linear h p (still h) → linear h (attempt p) (still h).
Proof. intros Hp. eapply linear_bind; [exact Hp|]. by intros h' r ->. Qed.

(** Actions that leave cache, jobs and calls alone. *)
Lemma linear_quiet {A} h (act : option io_failure → World → World * A) Q :
  (∀ io w, sw_cache (act io w).1 = sw_cache w ∧ sw_jobs (act io w).1 = sw_jobs w ∧ sw_calls (act io w).1 = sw_calls w) →
  (∀ a, Q h a) → linear h (Act act Ret) Q.
Proof.
  intros Hact HQ io w. exists h. destruct (Hact io w) as (Hc & Hj & Hcl). split; [|apply HQ].
  apply move_quiet; [|done..]. rewrite Hc. apply keeps_refl.
Qed.

Lemma linear_read {A} h (f : World → result error A) : linear h (locked (λ w, (w, f w))) (still h).
Proof. by apply linear_quiet. Qed.

(** ** The store *)

Lemma linear_fs_write h path body : linear h (fs_write path body) (still h).
Proof. apply linear_quiet; [|done]. intros [[e n]|] w; [|done]. cbn [fst]. by destruct (n <? String.length body)%nat. Qed.
Lemma linear_fs_rename h from to : linear h (fs_rename from to) (still h).
Proof. apply linear_quiet; [|done]. intros [[e n]|] w; cbn; [done|]. by destruct (sw_files w !! from). Qed.
Lemma linear_fs_remove h path : linear h (fs_remove_file path) (still h).
Proof. apply linear_quiet; [|done]. intros [[e n]|] w; cbn; [done|]. by destruct (sw_files w !! path). Qed.

Lemma linear_save h e : linear h (save_schedule e) (still h).
Proof.
  apply linear_lift; [|done]. intros body _. apply linear_try; [apply linear_fs_write| |done]. intros _. apply linear_fs_rename.
Qed.
Lemma linear_delete h id : linear h (delete_schedule id) (still h).
Proof. apply linear_try; [apply linear_read| |done]. intros []; [apply linear_fs_remove|done]. Qed.
Lemma linear_with_store h m : linear h m (still h) → linear h (with_bound_store m) (still h).
Proof. intros Hm. apply linear_try; [apply linear_read| |done]. by intros []. Qed.

(** ** Operations *)

Lemma linear_update_entry h id f :
  (∀ e e' ms, f e = Ok e' → is_Some (se_fire_ledger e !! ms) → is_Some (se_fire_ledger e' !! ms)) →
  linear h (update_entry id f) (still h).
Proof.
  intros Hf. apply linear_try; [|intros e; apply linear_with_store, linear_save|done].
  intros io w. exists h. split; [|done]. apply move_quiet; cbn.
  - destruct (sw_cache w !! id) as [e|] eqn:He; cbn; [|apply keeps_refl].
    destruct (f e) as [e'|err] eqn:Hfe; [|apply keeps_refl]. cbn. intros id' e1 [[<- <-]|[_ He1]]%lookup_insert_Some; [|by exists e1].
    exists e. split; [done|]. intros ms. by apply Hf.
  - destruct (sw_cache w !! id) as [e|]; cbn; [|done]. by destruct (f e).
  - destruct (sw_cache w !! id) as [e|]; cbn; [|done]. by destruct (f e).
Qed.

Lemma insert_fire_keeps id r e e' ms :
  insert_fire id r e = Ok e' → is_Some (se_fire_ledger e !! ms) → is_Some (se_fire_ledger e' !! ms).
Proof. unfold insert_fire. intros Hi. inv_ok. cbn. intros ?. by apply lookup_insert_is_Some'; right. Qed.

Lemma linear_terminal h id r : linear h (update_fire_record id r) (still h).
Proof. apply linear_update_entry. intros e e' ms. apply insert_fire_keeps. Qed.

(** A reservation gives the right to fire. *)
Lemma linear_reserve f :
  let r := MayFire (df_schedule_id f) (timestamp_millis (df_fire_at f)) in
  linear [] (reserve_fire f) (λ h' o, match o with Ok _ => h' = [r] | Err _ => h' = [] ∨ h' = [r] end).
Proof.
  intros r. unfold reserve_fire, update_fire_record, update_entry. set (id := df_schedule_id f) in *.
  set (rec := mk_FireRecord _ _ _ _ _).
  eapply (linear_bind _ _ _ (λ h' o, match o with Ok _ => h' = [r] | Err _ => h' = [] end)).
  - intros io w. cbn. destruct (sw_cache w !! id) as [e|] eqn:He; cbn.
    2: { exists []. split; [apply move_quiet; [apply keeps_refl|done..]|done]. }
    destruct (insert_fire id rec e) as [e'|err] eqn:Hi; cbn.
    2: { exists []. split; [apply move_quiet; [apply keeps_refl|done..]|done]. }
    exists [r]. split; [|done]. unfold insert_fire in Hi. cbn in Hi.
    destruct (se_fire_ledger e !! timestamp_millis (df_fire_at f)) as [p|] eqn:Hl.
    + rewrite andb_false_r in Hi. done.
    + cbn in Hi. injection Hi as <-. by eapply (move_reserve [] w _ [r] id (timestamp_millis (df_fire_at f)) e rec).
  - intros h [e|err] Hh; [|by left]. subst h. eapply linear_mono; [|apply linear_with_store, linear_save].
    intros h' [u|err] ->; [done|by right].
Qed.

(** The right that a request holds. *)
Definition request_rights (q : ScheduleRequest) : list right :=
  match q with ReqAddSchedule uuid _ => [MayCreate ("sched-" +:+ uuid)] | _ => [] end.

Lemma linear_remove h id : linear h (schedule_remove id) (still h).
Proof.
  apply linear_try; [| |done].
  - intros io w. exists h. split; [|done]. apply move_quiet; [|done..]. cbn. intros id' e' [_ He]%lookup_delete_Some. by exists e'.
  - intros removed. apply linear_lift; [|done]. intros _ _. apply linear_with_store, linear_delete.
Qed.

Lemma linear_enable h id b : linear h (schedule_enable id b) (still h).
Proof. apply linear_update_entry. by intros e e' ms [= <-]. Qed.

Lemma linear_owns {A} h id user (p : prog World A) R :
  linear h p R → (∀ e, R h (Err e)) → linear h (ensure_accountable_user_owns id user ≫= λ _, p) R.
Proof.
  intros Hp He. apply linear_try; [|by intros _|done]. apply linear_lift; [|done]. intros _ _. apply linear_read.
Qed.

Lemma linear_add uuid entry tenant : is_empty (se_id entry) = true →
  linear [MayCreate ("sched-" +:+ uuid)] (add_with_bound_tenant uuid entry tenant) (λ _ _, True).
Proof.
  intros Hid. do 3 (apply linear_lift; [intros _ _|done]). rewrite Hid.
  apply linear_try; [apply linear_with_store, linear_save| |done]. intros _. cbn. intros io w. exists []. split; [|done].
  by eapply (move_create _ _ _ []).
Qed.

Lemma linear_serve q : linear (request_rights q) (serve_schedule q) (λ _ _, True).
Proof.
  destruct q as [uuid spec|user|id user|id enabled user|id|id enabled]; cbn [serve_schedule request_rights].
  - eapply (linear_bind _ _ _ (λ _ _, True)); [|by intros h [] _]. apply linear_try; [apply linear_read| |done]. intros tenant. by apply linear_add.
  - eapply (linear_bind _ _ _ (λ _ _, True)); [|by intros h [] _]. apply linear_lift; [|done]. intros _ _.
    eapply linear_mono; [|apply linear_read]. done.
  - apply linear_owns; [|done]. eapply linear_mono; [|apply linear_remove]. done.
  - apply linear_owns; [|done]. eapply linear_mono; [|apply linear_enable]. done.
  - eapply linear_mono; [|apply linear_remove]. done.
  - eapply linear_mono; [|apply linear_enable]. done.
Qed.

(** ** Ticks and invocations *)

Lemma linear_fail h id ms e : linear h (attempt (fail_fire id ms e) ≫= λ _, mret tt) (λ _ _, True).
Proof. apply linear_try; [apply linear_attempt, linear_terminal|done|done]. Qed.

Lemma linear_fire_one i f : linear [] (fire_one i f) (λ _ _, True).
Proof.
  apply linear_try; [apply linear_attempt, linear_read| |done]. intros [schedules|]; [|done].
  destruct (List.find _ schedules) as [entry|]; [|done]. destruct (negb _); [done|]. destruct (negb _); [done|].
  eapply linear_bind; [eapply linear_bind; [apply linear_reserve|]|].
  - instantiate (1 := λ h r, match r with
      | Ok (Ok _) => h = [MayFire (df_schedule_id f) (timestamp_millis (df_fire_at f))] | _ => True end).
    by intros h [] Hh.
  - intros h [[u|e]|e] Hh; [|done..]. subst h. destruct (fire_request i entry f) as [request|e]; [|apply linear_fail].
    intros io w. exists []. split; [|done].
    by eapply (move_queue _ _ _ [] (mk_Fire _ (df_schedule_id f) (timestamp_millis (df_fire_at f)) request)).
Qed.

(** More rights do no harm. *)
Lemma moves_frame h1 h w h' w' : moves h w h' w' → moves (h1 ++ h) w (h1 ++ h') w'.
Proof.
  destruct 1 as [w' Hk Hj Hc|w' h' id e Hh Hk Hj Hc|w' h' id ms e r Hh He Hl Hk Hj Hc|w' h' c Hh Hk Hj Hc|w' h' c Hh Hk Hj Hc].
  - by apply move_quiet.
  - eapply move_create; [|done..]. by rewrite Hh, Permutation_middle.
  - eapply move_reserve; [|done..]. by rewrite Hh, Permutation_middle.
  - eapply move_queue; [|done..]. by rewrite Hh, Permutation_middle.
  - eapply move_call; [|done..]. by rewrite Hh, Permutation_middle.
Qed.

Lemma linear_frame {A} h1 h (p : Prog World A) : linear h p (λ _ _, True) → linear (h1 ++ h) p (λ _ _, True).
Proof.
  revert h. induction p as [a| |X act k IH|id k IH]; intros h Hp; cbn in *; try done.
  intros io w. destruct (Hp io w) as (h' & Hm & Hl). exists (h1 ++ h'). split; [by apply moves_frame|by apply IH].
Qed.

Lemma linear_tick i now : linear [] (tick i now) (λ _ _, True).
Proof.
  eapply (linear_bind _ _ _ (still [])); [eapply linear_bind; [|by intros h' r Hh; exact Hh]|].
  - intros io w. exists []. split; [apply move_quiet; [apply keeps_refl|done..]|]. by destruct (due_entries _ _).
  - intros h [[fires|e]|e] ->; [|done..]. induction fires as [|f fires IH]; [done|]. cbn [foldr].
    eapply linear_bind; [apply linear_fire_one|]. intros h' [u|e] _; [|done].
    rewrite <- (app_nil_r h'). by apply linear_frame.
Qed.

Lemma linear_run_fire answer c : linear [fire_right c] (run_fire answer c) (λ _ _, True).
Proof.
  intros io w. exists []. split; [by eapply (move_call _ _ _ [] c)|]. cbn [snd].
  intros io' w'. exists []. split; [apply move_quiet; [apply keeps_refl|done..]|]. cbn [snd].
  destruct (answer c) as [finalized|e]; [|apply linear_fail].
  apply linear_try; [apply linear_attempt, linear_terminal|done|done].
Qed.

(** ** All rights *)

(** The rights [L] are consistent with the cache: none exists twice, what may
    fire is on the ledger of its schedule if there is one, and what may be
    created is not there yet. *)
Record valid (L : list right) (c : gmap string ScheduleEntry) : Prop := {
  valid_once : NoDup L;
  valid_fire id ms : MayFire id ms ∈ L → MayCreate id ∉ L;
  valid_ledger id ms e : MayFire id ms ∈ L → c !! id = Some e → is_Some (se_fire_ledger e !! ms);
  valid_create id : MayCreate id ∈ L → c !! id = None;
}.

Lemma valid_submseteq L L' c : L' ⊆+ L → valid L c → valid L' c.
Proof.
  intros [k Hk]%submseteq_Permutation [Ho Hf Hl Hc]. assert (∀ x, x ∈ L' → x ∈ L) as Hin by (intros x; rewrite Hk; set_solver).
  split.
  - rewrite Hk in Ho. by apply NoDup_app in Ho as (? & _).
  - intros id ms Hm Hm'. by apply (Hf id ms); apply Hin.
  - intros id ms e Hm. apply (Hl id ms). by apply Hin.
  - intros id Hm. by apply Hc, Hin.
Qed.
Lemma valid_perm L L' c : L' ≡ₚ L → valid L c → valid L' c.
Proof. intros Hp. apply valid_submseteq. by rewrite Hp. Qed.

Lemma valid_keeps L c c' : keeps c c' → valid L c → valid L c'.
Proof.
  intros Hk [Ho Hf Hl Hc]. split; [done|done| |].
  - intros id ms e' Hm He'. destruct (Hk id e' He') as (e & He & Hms). by apply Hms, (Hl id ms e).
  - intros id Hm. destruct (c' !! id) as [e'|] eqn:He'; [|done]. destruct (Hk id e' He') as (e & He & _). by rewrite Hc in He.
Qed.

Lemma valid_created L c id e : valid (MayCreate id :: L) c → valid L (<[id := e]> c).
Proof.
  intros [Ho Hf Hl Hc]. apply NoDup_cons in Ho as [Hn Ho]. split.
  - done.
  - intros id' ms Hm Hm'. apply (Hf id' ms); by right.
  - intros id' ms e' Hm [[<- <-]|[Hne He]]%lookup_insert_Some; [|apply (Hl id' ms e'); [by right|done]].
    destruct (Hf id ms); [by right|by left].
  - intros id' Hm. rewrite lookup_insert_ne by (by intros ->). apply Hc. by right.
Qed.

Lemma valid_reserved L c id ms e r :
  c !! id = Some e → se_fire_ledger e !! ms = None → valid L c →
  valid (MayFire id ms :: L) (<[id := set_fire_ledger (<[ms := r]> (se_fire_ledger e)) e]> c).
Proof.
  intros He Hms [Ho Hf Hl Hc]. split.
  - apply NoDup_cons. split; [|done]. intros Hin. destruct (Hl id ms e Hin He) as [? ?]. congruence.
  - intros id' ms' [[= -> ->]|Hm]%elem_of_cons [?|Hm']%elem_of_cons; try done; [|by apply (Hf id' ms')].
    by rewrite (Hc id) in He.
  - intros id' ms' e' Hm [[<- <-]|[Hne He']]%lookup_insert_Some; cbn.
    + apply lookup_insert_is_Some'. apply elem_of_cons in Hm as [[= ->]|Hm]; [by left|right]. by apply (Hl id ms').
    + apply elem_of_cons in Hm as [[= -> ->]|Hm]; [done|]. by apply (Hl id' ms').
  - intros id' [?|Hm]%elem_of_cons; [done|]. rewrite lookup_insert_ne; [by apply Hc|]. intros <-. by rewrite Hc in He.
Qed.

(** The rights that are spent or queued since the calls [C]. *)
Definition spent (C : list FireCall) (w : World) : list right := fire_right <$> drop (length C) (sw_calls w) ++ sw_jobs w.

(** A move keeps them consistent, with those of all others. *)
Lemma moves_valid C h w h' w' L :
  moves h w h' w' → C `prefix_of` sw_calls w → valid (spent C w ++ h ++ L) (sw_cache w) →
  valid (spent C w' ++ h' ++ L) (sw_cache w') ∧ C `prefix_of` sw_calls w'.
Proof.
  unfold spent.
  destruct 1 as [w' Hk Hj Hc|w' h' id e Hh Hk Hj Hc|w' h' id ms e r Hh He Hl Hk Hj Hc|w' h' c Hh Hk Hj Hc|w' h' c Hh Hk Hj Hc];
    intros Hn Hv; rewrite Hj, Hc.
  - split; [|done]. by eapply valid_keeps.
  - split; [|done]. rewrite Hk. apply valid_created. eapply valid_perm; [|exact Hv]. rewrite Hh. solve_Permutation.
  - split; [|done]. rewrite Hk. eapply valid_perm; [|by eapply valid_reserved]. rewrite Hh. solve_Permutation.
  - split; [|done]. rewrite Hk. eapply valid_perm; [|exact Hv]. rewrite Hh, !fmap_app. cbn. solve_Permutation.
  - rewrite Hk. split; [|by apply prefix_app_r]. eapply valid_perm; [|exact Hv].
    rewrite Hh, drop_app_le, !fmap_app by (by apply prefix_length). cbn. solve_Permutation.
Qed.

(** ** Runs *)

Context (answer : FireCall → result error FinalizedInvocation).

Definition any {A} (_ : list right) (_ : A) : Prop := True.

Lemma linear_step {A} h io (p : Prog World A) w w' p' :
  linear h p any → run_prog [io] p w = (w', p') → ∃ h', moves h w h' w' ∧ linear h' p' any.
Proof.
  destruct p as [a| |X act k|id k]; cbn; intros Hl Hr; [| | |done].
  1,2: injection Hr as <- <-; exists h; split; [apply move_quiet; [apply keeps_refl|done..]|done].
  destruct (Hl io w) as (h' & Hm & Hk). destruct (act io w) as [w1 x]. cbn in *. injection Hr as <- <-. by exists h'.
Qed.

(** The identifiers of the schedules that requests are going to create. *)
Definition created_ids (l : list DaemonEvent) : list string :=
  omap (λ ev, match ev with SubmitSchedule (ReqAddSchedule uuid _) => Some ("sched-" +:+ uuid) | _ => None end) l.
Definition is_reboot (ev : DaemonEvent) : bool := match ev with Reboot _ _ _ => true | _ => false end.

Definition ticker_holds (h : list right) (t : Ticker) : Prop := match t with Ticking p => linear h p any | _ => True end.

(** The rights of the daemon: spent and queued, of the tick runner, of the tasks,
    of the requests to come, and [F], which nobody holds. *)
Definition balanced (C : list FireCall) (F : list right) (future : list string) (d : DaemonState) : Prop :=
  ∃ ht hs, ticker_holds ht (dm_ticker d) ∧ Forall2 (λ h p, linear h p any) hs (dm_tasks d) ∧
    C `prefix_of` sw_calls (dm_world d) ∧
    valid (spent C (dm_world d) ++ ht ++ concat hs ++ (MayCreate <$> future) ++ F) (sw_cache (dm_world d)).

Lemma balanced_drop_ticker C F future d t : (∀ p, t ≠ Ticking p) → balanced C F future d →
  balanced C F future (mk_DaemonState (dm_world d) (dm_identity d) t (dm_tasks d)).
Proof.
  intros Ht (ht & hs & _ & Hs & Hn & Hv). exists [], hs. split_and!; [by destruct t; try done; destruct (Ht p)|done..|]. eapply valid_submseteq; [|exact Hv].
  apply submseteq_app; [done|]. by apply submseteq_inserts_l.
Qed.

Lemma balanced_ticker C F future d io p w' p' : dm_ticker d = Ticking p → run_prog [io] p (dm_world d) = (w', p') →
  balanced C F future d → balanced C F future (mk_DaemonState w' (dm_identity d) (Ticking p') (dm_tasks d)).
Proof.
  intros Ht Hr (ht & hs & Hh & Hs & Hn & Hv). rewrite Ht in Hh. destruct (linear_step _ _ _ _ _ _ Hh Hr) as (h' & Hm & Hl).
  destruct (moves_valid C _ _ _ _ _ Hm Hn Hv). by exists h', hs.
Qed.

Lemma balanced_task C F future d io k p w' p' : dm_tasks d !! k = Some p → run_prog [io] p (dm_world d) = (w', p') →
  balanced C F future d → balanced C F future (mk_DaemonState w' (dm_identity d) (dm_ticker d) (<[k := p']> (dm_tasks d))).
Proof.
  intros Hk Hr (ht & hs & Hh & Hs & Hn & Hv). destruct (Forall2_lookup_r _ _ _ _ _ Hs Hk) as (h & Hkh & Hp).
  destruct (linear_step _ _ _ _ _ _ Hp Hr) as (h' & Hm & Hl). exists ht, (<[k := h']> hs).
  assert (∃ L, concat hs ≡ₚ h ++ L ∧ concat (<[k := h']> hs) ≡ₚ h' ++ L) as (L & HL & HL').
  { exists (concat (take k hs) ++ concat (drop (S k) hs)). pose proof (lookup_lt_Some _ _ _ Hkh) as Hlt. split.
    - rewrite <- (take_drop_middle hs k h Hkh) at 1. rewrite concat_app. cbn. solve_Permutation.
    - rewrite insert_take_drop by done. rewrite concat_app. cbn. solve_Permutation. }
  destruct (moves_valid C h (dm_world d) h' w' (ht ++ L ++ (MayCreate <$> future) ++ F) Hm Hn) as [Hv' Hn'].
  { eapply valid_perm; [|exact Hv]. rewrite HL. solve_Permutation. }
  split_and!; [done|by apply Forall2_insert|done|]. eapply valid_perm; [|exact Hv']. cbn. rewrite HL'. solve_Permutation.
Qed.

Lemma balanced_spawn C F future future' d w' h p :
  sw_cache w' = sw_cache (dm_world d) → sw_calls w' = sw_calls (dm_world d) → linear h p any →
  spent C w' ++ h ++ (MayCreate <$> future') ≡ₚ spent C (dm_world d) ++ (MayCreate <$> future) →
  balanced C F future d → balanced C F future' (mk_DaemonState w' (dm_identity d) (dm_ticker d) (dm_tasks d ++ [p])).
Proof.
  intros Hc Hcl Hp Hperm (ht & hs & Hh & Hs & Hn & Hv). exists ht, (hs ++ [h]). cbn. rewrite Hc, Hcl.
  split_and!; [done| |done|].
  - apply Forall2_app; [done|]. by constructor.
  - eapply valid_perm; [|exact Hv]. rewrite concat_app. cbn. rewrite app_nil_r.
    trans ((spent C w' ++ h ++ (MayCreate <$> future')) ++ ht ++ concat hs ++ F); [solve_Permutation|]. rewrite Hperm. solve_Permutation.
Qed.

Lemma balanced_step C F ev l d : is_reboot ev = false → balanced C F (created_ids (ev :: l)) d →
  balanced C F (created_ids l) (daemon_step answer d ev).
Proof.
  destruct ev as [now|io|k|k io|q|]; cbn [is_reboot daemon_step]; intros Hb Hd; [| | | | |done].
  - change (created_ids (Tick now :: l)) with (created_ids l) in Hd.
    destruct (dm_ticker d) eqn:Ht, (dm_identity d) as [i|] eqn:Hi; try done.
    destruct Hd as (ht & hs & _ & Hs & Hn & Hv). exists [], hs. split_and!; [apply linear_tick|done..|].
    eapply valid_submseteq; [|exact Hv]. apply submseteq_app; [done|]. by apply submseteq_inserts_l.
  - change (created_ids (AdvanceTick io :: l)) with (created_ids l) in Hd.
    destruct (dm_ticker d) as [| |p|] eqn:Ht; try done.
    assert (∀ p', p = p' → balanced C F (created_ids l) (let '(w', p'') := run_prog [io] p' (dm_world d) in
      mk_DaemonState w' (dm_identity d) (Ticking p'') (dm_tasks d))) as Hrun.
    { intros p' <-. destruct (run_prog [io] p (dm_world d)) as [w' p''] eqn:Hr. by eapply balanced_ticker. }
    destruct p; [by apply balanced_drop_ticker..|by apply Hrun|by apply Hrun].
  - change (created_ids (Begin k :: l)) with (created_ids l) in Hd. destruct (sw_jobs (dm_world d) !! k) as [c|] eqn:Hk; [|done].
    eapply balanced_spawn; [done|done|apply linear_run_fire| |done]. unfold spent. cbn.
    assert (fire_right <$> sw_jobs (dm_world d) ≡ₚ fire_right c :: (fire_right <$> delete k (sw_jobs (dm_world d)))) as Hj.
    { rewrite <- fmap_cons. by apply fmap_Permutation, delete_Permutation. }
    rewrite !fmap_app, Hj. solve_Permutation.
  - change (created_ids (AdvanceTask k io :: l)) with (created_ids l) in Hd. destruct (dm_tasks d !! k) as [p|] eqn:Hk; [|done].
    destruct (run_prog [io] p (dm_world d)) as [w' p'] eqn:Hr. by eapply balanced_task.
  - eapply (balanced_spawn _ _ (created_ids (SubmitSchedule q :: l)) _ _ _ (request_rights q)); [done|done|apply linear_serve| |done].
    by destruct q.
Qed.

Lemma balanced_run C F l d : Forall (λ ev, is_reboot ev = false) l → balanced C F (created_ids l) d →
  balanced C F [] (daemon_run answer d l).
Proof.
  revert d. induction l as [|ev l IH]; intros d Hr Hd; [done|]. apply Forall_cons in Hr as [Hev Hr]. cbn.
  apply IH; [done|]. by apply balanced_step.
Qed.

Lemma balanced_boot tenant identity io w F future :
  let d := boot_schedules tenant identity io w in
  valid ((MayCreate <$> future) ++ F) (sw_cache (dm_world d)) → balanced (sw_calls w) F future d.
Proof.
  intros d Hv. assert (sw_calls (dm_world d) = sw_calls w ∧ sw_jobs (dm_world d) = []) as [Hc Hj].
  { subst d. unfold boot_schedules. cbn. destruct (match io with None => _ | Some _ => _ end) as [loaded|err]; [|done]. cbn.
    by destruct (bind_schedules ∅ loaded) as [c [u|err]]. }
  exists [], []. split_and!; [by subst d; destruct identity|constructor|by rewrite Hc|]. unfold spent. by rewrite Hc, Hj, drop_all.
Qed.

Lemma valid_future future c : NoDup future → Forall (λ id, c !! id = None) future → valid (MayCreate <$> future) c.
Proof.
  intros Hnd Hnew. split.
  - by apply NoDup_fmap_2; [intros ?? [=]|].
  - by intros id ms (? & ? & _)%list_elem_of_fmap.
  - by intros id ms e (? & ? & _)%list_elem_of_fmap.
  - intros id (id' & [= ->] & Hin)%list_elem_of_fmap. rewrite Forall_forall in Hnew. by apply Hnew.
Qed.

Lemma valid_remembered L c id ms e :
  c !! id = Some e → is_Some (se_fire_ledger e !! ms) → (∀ id' ms', MayFire id' ms' ∉ L) → valid L c → valid (L ++ [MayFire id ms]) c.
Proof.
  intros He Hms HL [Ho Hf Hl Hc]. split.
  - apply NoDup_app. split; [done|]. split; [|apply NoDup_singleton]. intros x Hx ->%list_elem_of_singleton. by apply (HL id ms).
  - intros id' ms' [Hm|[= -> ->]%list_elem_of_singleton]%elem_of_app [Hm'|?%list_elem_of_singleton]%elem_of_app; try done;
      [by apply (HL id' ms')|]. by rewrite (Hc id) in He.
  - intros id' ms' e' [Hm|[= -> ->]%list_elem_of_singleton]%elem_of_app He'; [by apply (HL id' ms') in Hm|]. by rewrite He in He'; injection He' as <-.
  - intros id' [Hm|?%list_elem_of_singleton]%elem_of_app; [by apply Hc|done].
Qed.

(** C6 (safety): a run of the daemon invokes each fire of a schedule at most
    once, and none that its ledger on disk remembered at the start: in every
    interleaving of ticks, requests and invocations, whatever the clock says and
    whichever file operations fail, the calls since the start are for pairwise
    different fires that were not on the ledgers that were loaded. *)
Theorem fires_once tenant identity io w events :
  let d := boot_schedules tenant identity io w in
  Forall (λ ev, is_reboot ev = false) events → NoDup (created_ids events) →
  Forall (λ id, sw_cache (dm_world d) !! id = None) (created_ids events) →
  ∃ calls, sw_calls (dm_world (daemon_run answer d events)) = sw_calls w ++ calls ∧
    NoDup ((λ c, (fc_schedule_id c, fc_fire_at_unix_ms c)) <$> calls) ∧
    Forall (λ c, ∀ e, sw_cache (dm_world d) !! fc_schedule_id c = Some e → se_fire_ledger e !! fc_fire_at_unix_ms c = None) calls.
Proof.
  intros d Hr Hnd Hnew. pose proof (valid_future _ _ Hnd Hnew) as Hv0.
  assert (balanced (sw_calls w) [] (created_ids events) d) as Hd by (apply balanced_boot; by rewrite app_nil_r).
  apply balanced_run in Hd as (ht & hs & _ & _ & [calls Hcalls] & Hv); [|done]. exists calls. split; [done|]. split.
  - apply valid_once in Hv. unfold spent in Hv. rewrite Hcalls, drop_app_length, fmap_app in Hv.
    apply NoDup_app in Hv as (Hv & _). apply NoDup_app in Hv as (Hv & _).
    apply (NoDup_fmap_1 (λ x, MayFire x.1 x.2)). rewrite <- list_fmap_compose. exact Hv.
  - apply Forall_forall. intros c Hc e He. destruct (se_fire_ledger e !! _) as [r|] eqn:Hms; [|done]. exfalso.
    assert (balanced (sw_calls w) [fire_right c] (created_ids events) d) as Hd.
    { apply balanced_boot. eapply valid_remembered; [done|by eexists| |done]. by intros id' ms' (? & ? & _)%list_elem_of_fmap. }
    apply balanced_run in Hd as (ht' & hs' & _ & _ & _ & Hv'); [|done]. apply valid_once in Hv'. unfold spent in Hv'.
    rewrite Hcalls, drop_app_length, fmap_app in Hv'. apply NoDup_app in Hv' as (_ & Hdis & _). apply (Hdis (fire_right c)).
    + apply elem_of_app. left. apply list_elem_of_fmap. by exists c.
    + rewrite !elem_of_app. do 3 right. by left.
Qed.
End rights.
