(* ===== verification/ScheduleStore.v ===== *)
(** * Schedules: the store

    A schedule that has not fired reads back from the disk; one that has is
    refused, and then no start of the daemon binds the store.  On a disk that
    works every record that can be read passes the validation, whatever
    interleaving of requests, ticks and invocations came before. *)

From stdpp Require Import pretty sorting.
From Stdlib Require Import String Ascii.
From S2P Require Import Prelude RustStd Text Ura Json Programs LoopLedger LoopAbility Schedule ScheduleService ScheduleDue.

Open Scope Z_scope.

#[local] Set Default Proof Using "Type*".

Section store.
Context `{!UraLib, !SerdeJson, !Hex, !HexLaws, !CronLib, !Calendar, !ScheduleCodec, !ScheduleCodecLaws, !HostedAgents, !Kernel}.
Notation World := ScheduleWorld.

(** ** Records *)

Lemma on_disk_fields e :
  let fields := ("schema_version", VInt SCHEDULE_SCHEMA_VERSION) :: entry_fields e in
  assoc "schema_version" fields = Some (VInt 1) ∧ assoc "prompt" fields = Some (VString (se_prompt e)).
Proof. unfold entry_fields. by destruct (se_catch_up_window_secs e). Qed.

(** Parsing what was written comes down to reading the schedule. *)
Lemma parse_written e s : serialize_on_disk_schedule e = Ok s →
  parse_on_disk_schedule s =
    (_ ← ensure (negb (blank (se_prompt e))) ["schedule record prompt must be non-empty"];
     map_err (λ err, [err]) (entry_from_value (on_disk_value e))).
Proof.
  intros Hs. unfold serialize_on_disk_schedule in Hs. destruct (to_string_pretty (on_disk_value e)) as [t|err] eqn:Ht; [|done].
  injection Hs as ->. unfold parse_on_disk_schedule. rewrite (schedule_text_roundtrip e s Ht).
  destruct (on_disk_fields e) as [Hv Hq]. cbn [mbind result_bind map_err ok_or as_object on_disk_value]. rewrite Hv, Hq. done.
Qed.

(** A schedule that was accepted and stored, and has not fired, reads back as it
    was. *)
Theorem schedule_roundtrip e s :
  validate_loaded e = Ok tt → se_fire_ledger e = ∅ → serialize_on_disk_schedule e = Ok s → parse_on_disk_schedule s = Ok e.
Proof.
  intros Hv Hl Hs. rewrite (parse_written e s Hs). unfold validate_loaded, validate_schedule_prompt in Hv. inv_ok.
  apply negb_true_iff in E0. by rewrite E0, entry_value_roundtrip.
Qed.

(** One that has fired does not. *)
Lemma fired_refused e s : se_fire_ledger e ≠ ∅ → serialize_on_disk_schedule e = Ok s → ∃ err, parse_on_disk_schedule s = Err err.
Proof.
  intros Hl Hs. rewrite (parse_written e s Hs). destruct (fired_entry_refused e Hl) as [err ->].
  destruct (ensure _ _); cbn; by eexists.
Qed.

(** ** A fire that was recorded *)

Lemma after_last_dot_app s t : after_last_dot t ≠ None → after_last_dot (s +:+ t) = after_last_dot t.
Proof.
  intros Ht. induction s as [|c s IH]; [done|].
  change (after_last_dot (String c s +:+ t)) with
    (match after_last_dot (s +:+ t) with Some e => Some e | None => if byte_val c =? 46 then Some (s +:+ t) else None end).
  rewrite IH. by destruct (after_last_dot t).
Qed.
Lemma extension_final id : id ≠ EmptyString → extension (final_path id) = Some "json".
Proof. destruct id as [|c id]; [done|]. intros _. exact (after_last_dot_app id ".json" ltac:(done)). Qed.

(** A file that does not parse, and the store does not load. *)
Lemma load_refused files path body err :
  files !! path = Some body → extension path = Some "json" → parse_on_disk_schedule body = Err err →
  ∃ err', load_schedules files = Err err'.
Proof.
  intros Hf%elem_of_map_to_list Hext Hp. unfold load_schedules. generalize (@nil ScheduleEntry).
  induction (map_to_list files) as [|[path' body'] fs IH]; intros out; [by apply not_elem_of_nil in Hf|].
  cbn [try_fold]. apply elem_of_cons in Hf as [[= <- <-]|Hf].
  - unfold load_schedule. rewrite (bool_decide_true (extension path = _)) by done. rewrite Hp. by eexists.
  - destruct (load_schedule out (path', body')) as [out'|err']; [by apply IH|]. by eexists.
Qed.

Lemma unloaded_unbound tenant identity io w err : load_schedules (sw_files w) = Err err →
  let d := boot_schedules tenant identity io w in
  sw_store (dm_world d) = false ∧ sw_cache (dm_world d) = ∅ ∧ sw_tenant (dm_world d) = None.
Proof. intros Hl. unfold boot_schedules. destruct io as [[e n]|]; cbn; [done|]. by rewrite Hl. Qed.

(** What a record of a fire that was saved leaves on the disk. *)
Lemma recorded_file id r w ios w' :
  sw_store w = true → (∀ e, sw_cache w !! id = Some e → se_id e = id) →
  run_prog ios (update_fire_record id r) w = (w', Ret (Ok tt)) →
  ∃ e body, se_fire_ledger e ≠ ∅ ∧ serialize_on_disk_schedule e = Ok body ∧ sw_files w' !! final_path id = Some body.
Proof.
  intros Hb Hid Hrun. destruct ios as [|io1 ios]; [done|]. cbn in Hrun.
  destruct (sw_cache w !! id) as [e|] eqn:He; cbn in Hrun; [|by destruct ios].
  destruct (insert_fire id r e) as [e'|err] eqn:Hins; cbn in Hrun; [|by destruct ios].
  apply bind_Ok in Hins as (u & _ & [= <-]). set (e' := set_fire_ledger _ e) in *.
  destruct ios as [|io2 ios]; [done|]. cbn in Hrun. rewrite Hb in Hrun. unfold save_schedule in Hrun.
  destruct (serialize_on_disk_schedule e') as [body|err] eqn:Hs; cbn in Hrun; [|by destruct ios].
  destruct ios as [|io3 ios]; [done|]. cbn in Hrun. destruct io3 as [[x n]|]; cbn in Hrun; [by destruct ios|].
  destruct ios as [|io4 ios]; [done|]. cbn in Hrun. rewrite lookup_insert_eq in Hrun.
  destruct io4 as [[x n]|]; cbn in Hrun; [by destruct ios|]. destruct ios; injection Hrun as <-; exists e', body;
    (split; [apply insert_non_empty|]); (split; [done|]); cbn; rewrite (Hid e eq_refl), lookup_insert_eq; done.
Qed.

(** C12 (error): a schedule that has fired keeps the daemon from coming back with
    any: once a fire of it has been recorded on disk - a tick reserves every fire
    before it is invoked - no later start binds the store while that file stays:
    whatever else is on the disk, the start has no schedule in memory and no
    tenant, so that nothing fires and nothing can be added. *)
Theorem fired_schedule_unbinds id r w ios w' w'' tenant identity io :
  id ≠ EmptyString → sw_store w = true → (∀ e, sw_cache w !! id = Some e → se_id e = id) →
  run_prog ios (update_fire_record id r) w = (w', Ret (Ok tt)) →
  sw_files w'' !! final_path id = sw_files w' !! final_path id →
  let d := boot_schedules tenant identity io w'' in
  sw_store (dm_world d) = false ∧ sw_cache (dm_world d) = ∅ ∧ sw_tenant (dm_world d) = None.
Proof.
  intros Hid Hb Hc Hrun Hsame. destruct (recorded_file id r w ios w' Hb Hc Hrun) as (e & body & Hl & Hs & Hf).
  destruct (fired_refused e body Hl Hs) as [err Hp].
  destruct (load_refused (sw_files w'') (final_path id) body err) as [err' Hload]; [congruence|by apply extension_final|done|].
  by eapply unloaded_unbound.
Qed.

(** ** What is acceptable *)

Definition good (e : ScheduleEntry) : Prop := validate_loaded e = Ok tt.

Lemma try_fold_unit {A} (f : A → result error unit) l : try_fold (λ _, f) tt l = Ok tt ↔ Forall (λ a, f a = Ok tt) l.
Proof.
  induction l as [|a l IH]; cbn [try_fold]; [split; [constructor|done]|]. rewrite Forall_cons, <- IH.
  destruct (f a) as [[]|err]; cbn; [naive_solver|]. split; [done|]. by intros [? _].
Qed.

Lemma validate_ledger_Ok e : validate_schedule_fire_ledger e = Ok tt ↔
  ∀ k r, se_fire_ledger e !! k = Some r → validate_fire_record (se_id e) k r = Ok tt.
Proof.
  unfold validate_schedule_fire_ledger. rewrite (try_fold_unit (λ p, validate_fire_record (se_id e) p.1 p.2)), Forall_forall. split.
  - intros Hall k r Hk. by apply (Hall (k, r)), elem_of_ledger_list.
  - intros Hall [k r] Hk%elem_of_ledger_list. by apply Hall.
Qed.

(** An acceptable record is so whatever the id of its schedule. *)
Definition good_record (r : ScheduleFireRecord) : Prop := ∀ id, validate_fire_record id (fr_fire_at_unix_ms r) r = Ok tt.

Lemma good_insert_fire id r e e' : good_record r → good e → insert_fire id r e = Ok e' → good e' ∧ se_id e' = se_id e.
Proof.
  intros Hr Hg Hi. unfold insert_fire in Hi. apply bind_Ok in Hi as (u & _ & Hi). injection Hi as <-. split; [|done].
  unfold good, validate_loaded in *. inv_ok. cbn [se_cron_expr se_prompt set_fire_ledger]. rewrite E, E0. cbn.
  change (validate_deferred_schedule_authority (set_fire_ledger _ e)) with (validate_deferred_schedule_authority e). rewrite E1. cbn.
  apply validate_ledger_Ok. cbn. intros k r' [[<- <-]|[_ Hk]]%lookup_insert_Some; [apply Hr|].
  by apply (proj1 (validate_ledger_Ok e)).
Qed.

Lemma good_set_enabled b e : good e → good (set_enabled b e).
Proof. done. Qed.

Lemma good_new uuid spec tenant :
  validate_cron (sp_cron_expr spec) = Ok tt → validate_schedule_prompt (sp_prompt spec) = Ok tt →
  validate_deferred_schedule_authority (into_entry spec tenant) = Ok tt →
  good (set_tenant_id tenant ("sched-" +:+ uuid) (into_entry spec tenant)).
Proof.
  intros Hc Hp Ha. unfold good, validate_loaded. cbn [se_cron_expr se_prompt set_tenant_id into_entry]. rewrite Hc, Hp. cbn.
  change (validate_deferred_schedule_authority (set_tenant_id _ _ _)) with (validate_deferred_schedule_authority (into_entry spec tenant)).
  rewrite Ha. cbn. apply validate_ledger_Ok. done.
Qed.

Lemma good_reserved ms : good_record (mk_FireRecord ms FireReserved None None None).
Proof. intros id. unfold validate_fire_record. cbn. by rewrite Z.eqb_refl. Qed.
Lemma good_completed ms id hash : id ≠ EmptyString → String.length hash = 32%nat →
  good_record (mk_FireRecord ms FireCompleted (Some id) (Some (Retry.hex_encode hash)) None).
Proof.
  intros Hid Hh id'. unfold validate_fire_record. cbn. rewrite Z.eqb_refl. cbn. unfold is_empty. rewrite bool_decide_false by done.
  unfold hash_is_32_bytes. by rewrite hex_roundtrip, Hh.
Qed.
Lemma good_failed ms e : e ≠ EmptyString → good_record (mk_FireRecord ms FireFailed None None (Some e)).
Proof.
  intros He id. unfold validate_fire_record. cbn. rewrite Z.eqb_refl. cbn. unfold is_empty. by rewrite bool_decide_false.
Qed.

(** ** Programs *)

(** The schedules in memory are acceptable, and every file has the text of one
    that is. *)
Definition stored (w : World) : Prop :=
  (∀ id e, sw_cache w !! id = Some e → se_id e = id ∧ good e) ∧
  (∀ path body, sw_files w !! path = Some body → ∃ e, good e ∧ serialize_on_disk_schedule e = Ok body).

(** On a disk that works every action keeps it so; the value satisfies [Q]. *)
Fixpoint stores {A} (p : Prog World A) (Q : A → Prop) : Prop :=
  match p with
  | Ret a => Q a
  | Panic => True
  | Act act k => ∀ w, stored w → stored (act None w).1 ∧ stores (k (act None w).2) Q
  | Spawn _ _ => False
  end.

Lemma stores_bind {A B} (p : Prog World A) (f : A → Prog World B) Q R :
  stores p Q → (∀ a, Q a → stores (f a) R) → stores (prog_bind p f) R.
Proof.
  intros Hp Hf. induction p as [a| |X act k IH|id k IH]; cbn in *; try done; [by apply Hf|].
  intros w Hw. destruct (Hp w Hw) as [? ?]. split; [done|]. by apply IH.
Qed.

Definition anything {A} (_ : A) : Prop := True.
(** On success. *)
Definition if_ok {A} (P : A → Prop) (r : result error A) : Prop := match r with Ok a => P a | Err _ => True end.

Lemma stores_try {A B} (p : prog World A) (f : A → prog World B) P R :
  stores p (if_ok P) → (∀ a, P a → stores (f a) (if_ok R)) → stores (p ≫= f) (if_ok R).
Proof. intros Hp Hf. eapply stores_bind; [exact Hp|]. intros [a|e] Ha; [by apply Hf|done]. Qed.

Lemma stores_lift {A B} (r : result error A) (f : A → prog World B) R :
  (∀ a, r = Ok a → stores (f a) (if_ok R)) → stores (lift r ≫= f) (if_ok R).
Proof. intros Hf. destruct r; [by apply Hf|done]. Qed.

Lemma stores_locked {A} (f : World → World * result error A) P :
  (∀ w, stored w → stored (f w).1 ∧ if_ok P (f w).2) → stores (locked f) (if_ok P).
Proof. done. Qed.

Lemma stores_read {A} (f : World → result error A) : stores (locked (λ w, (w, f w))) (if_ok anything).
Proof. apply stores_locked. intros w Hw. split; [done|]. by destruct (f w). Qed.

Lemma stores_attempt {A} (p : prog World A) P : stores p (if_ok P) → stores (attempt p) (if_ok (if_ok P)).
Proof. intros Hp. eapply stores_bind; [exact Hp|]. by intros r Hr. Qed.

Lemma stored_files w f : stored w →
  (∀ path body, f (sw_files w) !! path = Some body → ∃ e, good e ∧ serialize_on_disk_schedule e = Ok body) → stored (on_sw_files f w).
Proof. intros [Hc _] Hf. by split. Qed.

Lemma stores_save e : good e → stores (save_schedule e) (if_ok anything).
Proof.
  intros Hg. apply stores_lift. intros body Hb. eapply (stores_try _ _ anything).
  - intros w Hw. split; [|done]. apply stored_files; [done|].
    intros path b [[<- <-]|[_ Hp]]%lookup_insert_Some; [by exists e|by apply (proj2 Hw path)].
  - intros _ _ w Hw. cbn. destruct (sw_files w !! tmp_path (se_id e)) as [b|] eqn:Hb'; [|done]. split; [|done].
    apply stored_files; [done|]. intros path b' [[<- <-]|[_ [_ Hp]%lookup_delete_Some]]%lookup_insert_Some; by eapply (proj2 Hw).
Qed.

Lemma stores_delete id : stores (delete_schedule id) (if_ok anything).
Proof.
  eapply (stores_try _ _ anything); [by apply stores_read|]. intros [] _; [|done]. intros w Hw. cbn.
  destruct (sw_files w !! final_path id) as [b|] eqn:Hb; [|done]. split; [|done]. apply stored_files; [done|].
  intros path b' [_ Hp]%lookup_delete_Some. by eapply (proj2 Hw).
Qed.

Lemma stores_with_store m : stores m (if_ok anything) → stores (with_bound_store m) (if_ok anything).
Proof. intros Hm. eapply (stores_try _ _ anything); [apply stores_read|]. by intros [] _. Qed.

Lemma stored_cache w c : stored w → (∀ id e, c !! id = Some e → se_id e = id ∧ good e) → stored (set_sw_cache c w).
Proof. intros [_ Hf] Hc. by split. Qed.

Lemma stores_update_entry id f :
  (∀ e e', good e → f e = Ok e' → good e' ∧ se_id e' = se_id e) → stores (update_entry id f) (if_ok anything).
Proof.
  intros Hf. eapply (stores_try _ _ good).
  - apply stores_locked. intros w Hw. destruct (sw_cache w !! id) as [e|] eqn:He; [|done]. cbn.
    destruct (f e) as [e'|err] eqn:Hfe; [|done]. destruct (proj1 Hw id e He) as [Hid Hg]. destruct (Hf e e' Hg Hfe) as [Hg' Hid'].
    split; [|done]. apply stored_cache; [done|].
    intros id' e1 [[<- <-]|[_ He1]]%lookup_insert_Some; [by rewrite Hid'|by apply (proj1 Hw)].
  - intros e Hg. by apply stores_with_store, stores_save.
Qed.

Lemma stores_record id r : good_record r → stores (update_fire_record id r) (if_ok anything).
Proof. intros Hr. apply stores_update_entry. intros e e' Hg. by apply good_insert_fire. Qed.

Lemma stores_remove id : stores (schedule_remove id) (if_ok anything).
Proof.
  eapply (stores_try _ _ anything).
  - apply stores_locked. intros w Hw. split; [|done]. apply stored_cache; [done|].
    intros id' e [_ He]%lookup_delete_Some. by apply (proj1 Hw).
  - intros removed _. apply stores_lift. intros _ _. apply stores_with_store, stores_delete.
Qed.

Lemma stores_enable id b : stores (schedule_enable id b) (if_ok anything).
Proof. apply stores_update_entry. by intros e e' Hg [= <-]. Qed.

Lemma stores_owned id user (p : prog World unit) :
  stores p (if_ok anything) → stores (ensure_accountable_user_owns id user ≫= λ _, p) (if_ok anything).
Proof. intros Hp. eapply (stores_try _ _ anything); [|by intros _ _]. apply stores_lift. intros _ _. apply stores_read. Qed.

Lemma stores_add uuid spec : stores (add_spec uuid spec) (if_ok anything).
Proof.
  eapply (stores_try _ _ anything); [apply stores_read|]. intros tenant _.
  apply stores_lift. intros [] Hc. apply stores_lift. intros [] Hp. apply stores_lift. intros [] Ha.
  pose proof (good_new uuid spec tenant Hc Hp Ha) as Hg. cbn [into_entry se_id]. change (is_empty EmptyString) with true. cbn iota.
  eapply (stores_try _ _ anything); [by apply stores_with_store, stores_save|]. intros _ _.
  eapply (stores_try _ _ anything); [|done]. apply stores_locked. intros w Hw. split; [|done]. apply stored_cache; [done|].
  intros id e [[<- <-]|[_ He]]%lookup_insert_Some; [done|by apply (proj1 Hw)].
Qed.

Lemma stores_serve q : stores (serve_schedule q) (if_ok anything).
Proof.
  destruct q as [uuid spec|user|id user|id enabled user|id|id enabled]; cbn [serve_schedule].
  - eapply (stores_try _ _ anything); [apply stores_add|done].
  - eapply (stores_try _ _ anything); [|done]. apply stores_lift. intros _ _. apply stores_read.
  - apply stores_owned, stores_remove.
  - apply stores_owned, stores_enable.
  - apply stores_remove.
  - apply stores_enable.
Qed.

(** ** Ticks and invocations *)

Lemma fire_request_error i entry f e : fire_request i entry f = Err e → e ≠ EmptyString.
Proof.
  unfold fire_request. cbn zeta. destruct (schedule_tick_invocation_uras _ _ _) as [target subject].
  destruct (to_vec _) as [payload|err]; cbn; [|by intros [= <-]].
  destruct (prepare_accountable_user_rpc _ _ _ _ _ _); cbn; [done|]. by intros [= <-].
Qed.

Lemma stores_fire_one i f : stores (fire_one i f) (if_ok anything).
Proof.
  eapply (stores_try _ _ (if_ok anything)); [apply stores_attempt, stores_read|]. intros [schedules|] _; [|done].
  destruct (List.find _ schedules) as [entry|]; [|done]. destruct (negb _); [done|]. destruct (negb _); [done|].
  eapply (stores_try _ _ (if_ok anything)); [apply stores_attempt, stores_record, good_reserved|]. intros [u|] _; [|done].
  destruct (fire_request i entry f) as [request|e] eqn:Hreq; [by apply stores_locked|].
  eapply (stores_try _ _ (if_ok anything)); [|done]. apply stores_attempt, stores_record, good_failed. by eapply fire_request_error.
Qed.

Lemma stores_tick i now : stores (tick i now) (if_ok anything).
Proof.
  eapply (stores_try _ _ (if_ok anything)).
  - apply stores_attempt. intros w Hw. cbn. split; [done|]. by destruct (due_entries _ _) as [[]|].
  - intros [fires|] _; [|done]. induction fires as [|f fires IH]; [done|]. eapply (stores_try _ _ anything); [apply stores_fire_one|].
    by intros _ _.
Qed.

Context (answer : FireCall → result error FinalizedInvocation).

(** Invocations end with an identifier and a hash, or a reason. *)
Definition answers_ok : Prop := ∀ c, match answer c with
  | Ok f => fi_invocation_id f ≠ EmptyString ∧ String.length (fi_self_hash f) = 32%nat
  | Err e => display_alt e ≠ EmptyString
  end.

Lemma stores_run_fire c : answers_ok → stores (run_fire answer c) (if_ok anything).
Proof.
  intros Hans. specialize (Hans c). eapply (stores_try _ _ anything); [by apply stores_locked|]. intros _ _ w Hw. split; [done|].
  cbn [snd]. destruct (answer c) as [f|e].
  - eapply (stores_try _ _ (if_ok anything)); [|done]. apply stores_attempt, stores_record. destruct Hans. by apply good_completed.
  - eapply (stores_try _ _ (if_ok anything)); [|done]. apply stores_attempt, stores_record. by apply good_failed.
Qed.

(** ** Starts *)

(** No schedule on the disk has fired. *)
Definition unfired (files : gmap string string) : Prop :=
  ∀ path body e, files !! path = Some body → extension path = Some "json" → serialize_on_disk_schedule e = Ok body →
    se_fire_ledger e = ∅.

Lemma load_good files : (∀ path body, files !! path = Some body → ∃ e, good e ∧ serialize_on_disk_schedule e = Ok body) →
  unfired files →
  ∃ l, load_schedules files = Ok l ∧ Forall good l ∧
    ∀ path body, files !! path = Some body → extension path = Some "json" → ∃ e, parse_on_disk_schedule body = Ok e ∧ e ∈ l.
Proof.
  intros Hf Hun. unfold load_schedules, unfired in *. assert (∀ path body, files !! path = Some body ↔ (path, body) ∈ map_to_list files) as Hin
    by (intros; by rewrite elem_of_map_to_list). setoid_rewrite Hin. setoid_rewrite Hin in Hf. setoid_rewrite Hin in Hun. clear Hin.
  induction (map_to_list files) as [|[path body] fs IH] using rev_ind.
  - exists []. split_and!; [done|constructor|]. by intros path body ?%not_elem_of_nil.
  - destruct IH as (l & Hl & Hg & Hall); [intros p b Hp; apply (Hf p b); set_solver|intros p b e Hp; apply (Hun p b e); set_solver|].
    rewrite try_fold_snoc, Hl. cbn [mbind result_bind load_schedule]. destruct (Hf path body) as (e & He & Hb); [set_solver|].
    case_bool_decide as Hext.
    + assert (parse_on_disk_schedule body = Ok e) as Hparse
        by (apply (schedule_roundtrip e body); [done| |done]; by apply (Hun path body); [set_solver|..]).
      rewrite Hparse. exists (l ++ [e]). split_and!; [done|by apply Forall_app; split; [|constructor]|].
      intros p b [Hp|[= -> ->]%list_elem_of_singleton]%elem_of_app Hpe; [|exists e; split; [done|set_solver]].
      destruct (Hall p b Hp Hpe) as (e' & He' & Hin). exists e'. split; [done|set_solver].
    + exists l. split_and!; [done..|]. intros p b [Hp|[= -> ->]%list_elem_of_singleton]%elem_of_app Hpe; [|done]. by apply (Hall p).
Qed.

Lemma bind_good c l : (∀ id e, c !! id = Some e → se_id e = id ∧ good e) → Forall good l →
  ∃ c', bind_schedules c l = (c', Ok tt) ∧ (∀ id e, c' !! id = Some e → se_id e = id ∧ good e) ∧
    (∀ id, is_Some (c !! id) → is_Some (c' !! id)) ∧ ∀ e, e ∈ l → is_Some (c' !! se_id e).
Proof.
  intros Hc Hl. revert c Hc. induction Hl as [|e l He _ IH]; intros c Hc; cbn.
  - exists c. split_and!; [done..|]. by intros e ?%not_elem_of_nil.
  - unfold good in He. rewrite He. destruct (IH (<[se_id e := e]> c)) as (c' & Hb & Hc' & Hk & Hin).
    + intros id e' [[<- <-]|[_ He']]%lookup_insert_Some; [done|by apply Hc].
    + exists c'. split_and!; [done..| |].
      * intros id Hid. apply Hk. by apply lookup_insert_is_Some'; right.
      * intros e' [->|He']%elem_of_cons; [|by apply Hin]. apply Hk. by rewrite lookup_insert_eq.
Qed.

Definition readable (body : string) : bool := match parse_on_disk_schedule body with Ok _ => true | Err _ => false end.

(** Fires are on the disk or not. *)
Lemma unfired_or_refused w : stored w → unfired (sw_files w) ∨
  ∃ path body e, sw_files w !! path = Some body ∧ extension path = Some "json" ∧ serialize_on_disk_schedule e = Ok body ∧
    se_fire_ledger e ≠ ∅.
Proof.
  intros [_ Hf].
  destruct (decide (Exists (λ f, extension f.1 = Some "json" ∧ readable f.2 = false) (map_to_list (sw_files w)))) as [Hex|Hnot].
  - right. apply Exists_exists in Hex as ([path body] & Hp%elem_of_map_to_list & Hext & Hr). destruct (Hf path body Hp) as (e & He & Hs).
    exists path, body, e. split_and!; try done. intros Hl. unfold readable in Hr. cbn in Hr. by rewrite (schedule_roundtrip e body) in Hr.
  - left. intros path body e Hp Hext Hs. destruct (decide (se_fire_ledger e = ∅)) as [|Hne]; [done|].
    destruct (fired_refused e body Hne Hs) as [err Herr]. destruct Hnot. apply Exists_exists. exists (path, body).
    split; [by apply elem_of_map_to_list|]. split; [done|]. unfold readable. cbn. by rewrite Herr.
Qed.

(** What a start makes of files that are all acceptable. *)
Lemma boot_stored tenant identity w : stored w →
  let d := boot_schedules tenant identity None w in
  stored (dm_world d) ∧ (sw_store (dm_world d) = true ↔ unfired (sw_files w)) ∧
  (unfired (sw_files w) → ∀ path body, sw_files w !! path = Some body → extension path = Some "json" →
    ∃ e, parse_on_disk_schedule body = Ok e ∧ is_Some (sw_cache (dm_world d) !! se_id e)).
Proof.
  intros Hw. pose proof Hw as [_ Hf]. destruct (unfired_or_refused w Hw) as [Hun|(path & body & e & Hp & Hext & Hs & Hl)].
  - destruct (load_good (sw_files w) Hf Hun) as (l & Hl & Hg & Hall).
    destruct (bind_good ∅ l) as (c & Hb & Hc & _ & Hin); [done|done|]. unfold boot_schedules. cbn. rewrite Hl. cbn. rewrite Hb. cbn.
    split; [by split|]. split; [done|]. intros _ path body Hp Hext. destruct (Hall path body Hp Hext) as (e & He & Hel).
    exists e. split; [done|]. by apply Hin.
  - assert (¬ unfired (sw_files w)) as Hnot by (intros Hun; by apply Hl, (Hun path body e)).
    destruct (fired_refused e body Hl Hs) as [err Herr]. destruct (load_refused _ _ _ _ Hp Hext Herr) as [err' Hload].
    destruct (unloaded_unbound tenant identity None w err' Hload) as (Hst & Hca & _).
    split; [|by rewrite Hst]. unfold stored. rewrite Hca. split; [done|].
    unfold boot_schedules. cbn. by rewrite Hload.
Qed.

(** ** Runs *)

(** An event in which the disk works. *)
Definition disk_works (ev : DaemonEvent) : Prop :=
  match ev with AdvanceTick io | AdvanceTask _ io | Reboot _ _ io => io = None | _ => True end.

Definition ticker_stores (t : Ticker) : Prop := match t with Ticking p => stores p (if_ok anything) | _ => True end.

(** The daemon's files are acceptable and its tasks keep them so. *)
Definition keeps_store (d : DaemonState) : Prop :=
  stored (dm_world d) ∧ ticker_stores (dm_ticker d) ∧ Forall (λ p, stores p (if_ok anything)) (dm_tasks d).

Lemma stores_step {A} (p : Prog World A) Q w : stores p Q → stored w →
  stored (run_prog [None] p w).1 ∧ stores (run_prog [None] p w).2 Q.
Proof.
  intros Hp Hw. destruct p as [a| |X act k|id k]; cbn in *; [done..| |done]. destruct (Hp w Hw) as [Hw' Hk].
  by destruct (act None w).
Qed.

Lemma keeps_store_step d ev : answers_ok → disk_works ev → keeps_store d → keeps_store (daemon_step answer d ev).
Proof.
  intros Hans Hev Hd. pose proof Hd as (Hw & Ht & Hts). destruct ev as [now|io|k|k io|q|tenant identity io]; cbn [daemon_step disk_works] in *; subst.
  - destruct (dm_ticker d), (dm_identity d); try exact Hd. split_and!; [done|apply stores_tick|done].
  - destruct (dm_ticker d) as [| |p|]; try exact Hd.
    assert (keeps_store (let '(w', p') := run_prog [None] p (dm_world d) in
      mk_DaemonState w' (dm_identity d) (Ticking p') (dm_tasks d))) as Hrun.
    { destruct (stores_step p _ _ Ht Hw) as [? ?]. destruct (run_prog [None] p (dm_world d)). done. }
    destruct p; done.
  - destruct (sw_jobs (dm_world d) !! k) as [c|]; [|done]. split_and!; [done|done|].
    apply Forall_app. split; [done|]. constructor; [by apply stores_run_fire|constructor].
  - destruct (dm_tasks d !! k) as [p|] eqn:Hk; [|done]. pose proof (Forall_lookup_1 _ _ _ _ Hts Hk) as Hp.
    destruct (stores_step p _ _ Hp Hw) as [? ?]. destruct (run_prog [None] p (dm_world d)). split_and!; [done|done|].
    by apply Forall_insert.
  - split_and!; [done|done|]. apply Forall_app. split; [done|]. constructor; [apply stores_serve|constructor].
  - destruct (boot_stored tenant identity (dm_world d) Hw) as [Hb _]. split_and!; [done|by destruct identity|constructor].
Qed.

Lemma keeps_store_run d l : answers_ok → Forall disk_works l → keeps_store d → keeps_store (daemon_run answer d l).
Proof.
  intros Hans Hl. revert d. induction Hl as [|ev l Hev _ IH]; intros d Hd; [done|]. cbn. apply IH. by apply keeps_store_step.
Qed.

(** Before the first start. *)
Definition no_daemon : DaemonState := mk_DaemonState (mk_SWorld _ ∅ None false ∅ [] []) None NoTicker [].

(** On a disk that works, whatever requests, ticks, invocations and restarts came
    before, in any interleaving, the next start binds its store exactly when no
    schedule on the disk has fired, and then it accepts every record and has its
    schedule in memory. *)
Theorem schedule_store_binds events tenant identity :
  answers_ok → Forall disk_works events →
  let w := dm_world (daemon_run answer no_daemon events) in
  let d := boot_schedules tenant identity None w in
  (sw_store (dm_world d) = true ↔ unfired (sw_files w)) ∧
  (unfired (sw_files w) → ∀ path body, sw_files w !! path = Some body → extension path = Some "json" →
    ∃ e, parse_on_disk_schedule body = Ok e ∧ is_Some (sw_cache (dm_world d) !! se_id e)).
Proof.
  intros Hans Hev w d. assert (keeps_store no_daemon) as Hno by (split; [by split|split; constructor]).
  destruct (keeps_store_run no_daemon events Hans Hev Hno) as (Hw & _). by destruct (boot_stored tenant identity w Hw) as (_ & ? & ?).
Qed.
End store.
