(* ===== verification/ScheduleAbility.v ===== *)
(** * The abilities of schedules (src/src/daemon/ability/builtins/automation/schedule.rs)

    The four handlers with the checks of their arguments.  A schedule is created
    for the caller of the invocation and its own agent on this device, and nobody
    else gets at it. *)

From stdpp Require Import pretty.
From Stdlib Require Import String Ascii.
From S2P Require Import Prelude RustStd Text Ura Json Programs LoopLedger LoopAbility Schedule ScheduleService.

Open Scope Z_scope.

Section ability.
Context `{!UraLib, !SerdeJson, !Hex, !CronLib, !Calendar, !ScheduleCodec, !HostedAgents, !Kernel}.
Notation prog := (Programs.prog ScheduleWorld).

(** ** Arguments *)

Fixpoint join_comma (fields : list string) : string :=
  match fields with
  | [] => EmptyString
  | [f] => f
  | f :: fields => f +:+ ", " +:+ join_comma fields
  end.

Definition schedule_args_object (ability : string) (args : Value) (allowed_fields : list string)
    : result error (list (string * Value)) :=
  object ← ok_or (as_object args) [ability +:+ ": args must be a JSON object"];
  let unknown := filter (λ f, f ∉ allowed_fields) object.*1 in
  _ ← ensure (bool_decide (unknown = [])) [ability +:+ ": unsupported field(s): " +:+ join_comma (sort_dedup unknown)];
  Ok object.

Definition schedule_required_string_arg (ability : string) (args : list (string * Value)) (field : string) : result error string :=
  value ← ok_or (trim <$> (assoc field args ≫= as_str)) [ability +:+ ": required field `" +:+ field +:+ "` (string) missing"];
  _ ← ensure (negb (is_empty value)) [ability +:+ ": " +:+ field +:+ " must be non-empty"];
  Ok value.

Definition schedule_optional_u64_arg (ability : string) (args : list (string * Value)) (field : string) : result error (option Z) :=
  match assoc field args with
  | None => Ok None
  | Some value => n ← ok_or (as_u64 value) [ability +:+ ": `" +:+ field +:+ "` must be an unsigned integer"]; Ok (Some n)
  end.

Definition schedule_optional_bool_arg (ability : string) (args : list (string * Value)) (field : string) : result error (option bool) :=
  match assoc field args with
  | None => Ok None
  | Some value => b ← ok_or (as_bool value) [ability +:+ ": `" +:+ field +:+ "` must be a boolean"]; Ok (Some b)
  end.

Definition schedule_required_bool_arg (ability : string) (args : list (string * Value)) (field : string) : result error bool :=
  ok_or (assoc field args ≫= as_bool) [ability +:+ ": `" +:+ field +:+ "` (bool) required"].

Record ScheduleAddInput := mk_AddInput {
  ai_target_node : string;
  ai_target_agent : string;
  ai_cron_expr : string;
  ai_misfire_policy : MisfirePolicy;
  ai_catch_up_window_secs : option Z;
  ai_enabled : bool;
  ai_prompt : string;
}.

Definition parse_add_input (args : Value) : result error ScheduleAddInput :=
  let add := "schedule.add" in
  args ← schedule_args_object add args
    ["target_node"; "target_agent"; "cron_expr"; "misfire_policy"; "catch_up_window_secs"; "enabled"; "prompt"];
  target_node ← schedule_required_string_arg add args "target_node";
  target_agent ← schedule_required_string_arg add args "target_agent";
  cron_expr ← schedule_required_string_arg add args "cron_expr";
  misfire_str ← schedule_required_string_arg add args "misfire_policy";
  misfire_policy ← (if String.eqb misfire_str "skip" then Ok Skip
                    else if String.eqb misfire_str "fire_once" then Ok FireOnce
                    else if String.eqb misfire_str "catch_up_windowed" then Ok CatchUpWindowed
                    else bail ("schedule.add: misfire_policy must be skip|fire_once|catch_up_windowed, got " +:+ debug_str misfire_str));
  catch_up_window_secs ← schedule_optional_u64_arg add args "catch_up_window_secs";
  enabled ← schedule_optional_bool_arg add args "enabled";
  prompt ← schedule_required_string_arg add args "prompt";
  Ok (mk_AddInput target_node target_agent cron_expr misfire_policy catch_up_window_secs (default true enabled) prompt).

(** ** Handlers *)

(** [ScheduleCreateSpec::new] with its setters. *)
Definition input_spec (input : ScheduleAddInput) (authority : DeferredInvocationAuthority) : ScheduleCreateSpec :=
  mk_Spec (ai_target_node input) (ai_target_agent input) (ai_cron_expr input) (ai_misfire_policy input)
    (ai_catch_up_window_secs input) (ai_enabled input) (ai_prompt input) authority.

Definition add_handler_with_authority (uuid : string) (input : ScheduleAddInput) (authority : DeferredInvocationAuthority) : prog Value :=
  id ← add_spec uuid (input_spec input authority);
  mret (VObject [("schedule_id", VString id)]).

(** The input of an invocation with its authority. *)
Definition add_authority (envelope : EnvelopeContext) (args : Value) : result error (ScheduleAddInput * DeferredInvocationAuthority) :=
  input ← parse_add_input args;
  identity ← from_system_agent_callee (env_callee envelope);
  authority ← deferred_user_authority identity (env_caller envelope) (env_invocation_id envelope) (env_callee envelope)
                (ai_target_agent input) (ai_target_node input);
  Ok (input, authority).

Definition add_handler_with_envelope (uuid : string) (envelope : EnvelopeContext) (args : Value) : prog Value :=
  '(input, authority) ← lift (add_authority envelope args);
  add_handler_with_authority uuid input authority.

Definition schedule_caller (ability : string) (envelope : EnvelopeContext) : result error string :=
  let caller := env_caller envelope in
  parsed ← map_err (λ e, [ability +:+ ": caller must be a canonical User URA: " +:+ e]) (parse_ura caller);
  match bool_decide (ura_kind parsed = KUser), ura_user_id parsed with
  | true, Some user_id =>
      _ ← ensure (bool_decide (user_ura (ura_realm parsed) user_id = caller)) [ability +:+ ": caller User URA must be canonical"];
      Ok caller
  | _, _ => bail (ability +:+ ": caller must be the accountable User Principal")
  end.

Definition list_handler_with_envelope (envelope : EnvelopeContext) (args : Value) : prog Value :=
  _ ← lift (schedule_args_object "schedule.list" args []);
  owner ← lift (schedule_caller "schedule.list" envelope);
  entries ← list_for_accountable_user owner;
  mret (VObject [("schedules", VArray (entry_value <$> entries))]).

Definition remove_handler_with_envelope (envelope : EnvelopeContext) (args : Value) : prog Value :=
  args ← lift (schedule_args_object "schedule.remove" args ["schedule_id"]);
  id ← lift (schedule_required_string_arg "schedule.remove" args "schedule_id");
  owner ← lift (schedule_caller "schedule.remove" envelope);
  _ ← remove_for_accountable_user id owner;
  mret (VObject [("ok", VBool true)]).

Definition enable_handler_with_envelope (envelope : EnvelopeContext) (args : Value) : prog Value :=
  args ← lift (schedule_args_object "schedule.enable" args ["schedule_id"; "enabled"]);
  id ← lift (schedule_required_string_arg "schedule.enable" args "schedule_id");
  enabled ← lift (schedule_required_bool_arg "schedule.enable" args "enabled");
  owner ← lift (schedule_caller "schedule.enable" envelope);
  _ ← enable_for_accountable_user id enabled owner;
  mret (VObject [("ok", VBool true)]).

(** ** What the handlers guarantee *)

(** The schedule exists and answers to somebody else. *)
Definition foreign_schedule (id user : string) (w : ScheduleWorld) : Prop :=
  ∃ e, sw_cache w !! id = Some e ∧ da_accountable_user_ura (se_authority e) ≠ user.

Lemma foreign_owns id user : inert (foreign_schedule id user) (ensure_accountable_user_owns id user).
Proof.
  apply inert_lift. intros _ _ io w (e & He & Hu). split; [done|]. cbn [fst snd]. rewrite He. cbn.
  rewrite bool_decide_false by done. by eexists.
Qed.

Lemma schedule_caller_Ok ability envelope owner : schedule_caller ability envelope = Ok owner → owner = env_caller envelope.
Proof. unfold schedule_caller. intros Hs. inv_ok. destruct (bool_decide _), (ura_user_id x); try done. by inv_ok. Qed.

(** The id in the arguments of a request is the one trimmed. *)
Lemma schedule_id_arg ability args allowed object id id' :
  value_get "schedule_id" args = Some (VString id) → schedule_args_object ability args allowed = Ok object →
  schedule_required_string_arg ability object "schedule_id" = Ok id' → id' = trim id.
Proof.
  unfold value_get, schedule_args_object, schedule_required_string_arg. intros Hid Ho Hs.
  destruct (as_object args) as [fields|]; [|done]. cbn in Hid, Ho. apply bind_Ok in Ho as (_ & _ & [= ->]).
  rewrite Hid in Hs. cbn in Hs. by inv_ok.
Qed.

Lemma elem_of_btree_values {A} (m : gmap string A) a : a ∈ btree_values m → ∃ k, m !! k = Some a.
Proof.
  unfold btree_values. intros ([k a'] & -> & Hin)%list_elem_of_fmap. setoid_rewrite <- elem_of_map_to_list. cbn. exists k.
  induction (map_to_list m) as [|[k' b] l IH]; cbn in *; [by apply not_elem_of_nil in Hin|].
  apply elem_of_btree_insert in Hin as [[= -> ->]|Hin]; [left|right; by apply IH].
Qed.

(** A schedule is its accountable user's: on behalf of another
    caller the handlers that remove and enable only read and end in an error
    under every interleaving, and the list shows none but the caller's. *)
Theorem foreign_schedule_refused envelope args id user :
  value_get "schedule_id" args = Some (VString id) →
  inert (foreign_schedule (trim id) (env_caller envelope)) (remove_handler_with_envelope envelope args) ∧
  inert (foreign_schedule (trim id) (env_caller envelope)) (enable_handler_with_envelope envelope args) ∧
  ∀ io w w' entries p, run_prog [io] (list_for_accountable_user user) w = (w', p) → p = Ret (Ok entries) →
    Forall (λ e, da_accountable_user_ura (se_authority e) = user ∧ ∃ k, sw_cache w !! k = Some e) entries.
Proof.
  intros Hid. split_and!.
  - apply inert_lift. intros object Ho. apply inert_lift. intros id' Hid'. rewrite (schedule_id_arg _ _ _ _ _ _ Hid Ho Hid').
    apply inert_lift. intros owner ->%schedule_caller_Ok. do 2 apply inert_bind. apply foreign_owns.
  - apply inert_lift. intros object Ho. apply inert_lift. intros id' Hid'. rewrite (schedule_id_arg _ _ _ _ _ _ Hid Ho Hid').
    apply inert_lift. intros enabled _. apply inert_lift. intros owner ->%schedule_caller_Ok. do 2 apply inert_bind. apply foreign_owns.
  - intros io w w' entries p Hrun ->. unfold list_for_accountable_user in Hrun.
    destruct (validate_schedule_user_scope user) as [u|e]; cbn in Hrun; [|done]. injection Hrun as _ <-.
    apply Forall_forall. intros e [Hu Hin]%list_elem_of_filter. split; [done|]. by apply elem_of_btree_values.
Qed.

(** A schedule runs its creator's own agent, here: what the add
    handler stores names the caller of the invocation as accountable user, the
    called automation agent as controller, an agent of that user with the
    requested name that this device hosts as target, and this device as host. *)
Theorem schedule_created_for_caller envelope args input a tenant :
  add_authority envelope args = Ok (input, a) →
  validate_deferred_schedule_authority (into_entry (input_spec input a) tenant) = Ok tt →
  ∃ user uid controller device target entry agents,
    parse_ura (env_caller envelope) = Ok user ∧ ura_kind user = KUser ∧ ura_user_id user = Some uid ∧
    parse_ura (env_callee envelope) = Ok controller ∧ ura_device_agent_ids controller = Some (device, AUTOMATION_SYSTEM_AGENT_ID) ∧
    ai_target_node input = device ∧
    hosted_agents = Ok agents ∧ entry ∈ agents ∧ ha_signing_authority entry = "hosted_by:" +:+ da_execution_host_ura a ∧
    parse_ura (ha_agent_ura entry) = Ok target ∧ ura_agent_ids target = Some (uid, ai_target_agent input) ∧
    ura_realm user = ura_realm controller ∧ ura_realm target = ura_realm controller ∧
    a = mk_Authority (env_caller envelope) (trim (env_invocation_id envelope)) (env_callee envelope) (ha_agent_ura entry)
          (device_ura (ura_realm controller) device).
Proof.
  intros Ha Hv. unfold add_authority in Ha. apply bind_Ok in Ha as (input' & _ & Ha). apply bind_Ok in Ha as (i & Hi & Ha).
  apply bind_Ok in Ha as (a' & Ha & [= -> ->]).
  apply deferred_user_authority_Ok in Ha as (t & controller & device & agent & Hc & Hdev & Hrealm & Hnode & Ht & ->).
  apply local_hosted_agent_ura_Ok in Ht as (agents & entry & Hag & Hin & Hsig & ->).
  unfold validate_deferred_schedule_authority, validate_schedule_user_scope in Hv.
  cbn [into_entry input_spec se_authority sp_authority se_target_node se_target_agent sp_target_node sp_target_agent
    da_accountable_user_ura da_controller_callee_ura da_target_callee_ura da_execution_host_ura da_creator_invocation_id] in Hv.
  destruct (parse_ura (env_caller envelope)) as [user|e] eqn:Hu; [|done]. cbn [map_err mbind result_bind] in Hv.
  destruct (bool_decide (ura_kind user = KUser)) eqn:Hk, (ura_user_id user) as [uid|] eqn:Hid; try done.
  apply bool_decide_eq_true in Hk. inv_ok. rewrite Hc in *. inv_pairs. rewrite Hdev in *. inv_ok.
  rewrite !andb_true_iff, !bool_decide_eq_true in *. destruct E6 as (((Hr1 & Hr2) & Hs1) & <-). injection Hs1 as ->.
  destruct E3 as (_ & Hnode'). assert (s = rt_local_node i ∧ s0 = agent) as [-> ->] by (by injection E1).
  exists user, uid, x0, (rt_local_node i), x3, entry, agents. split_and!; try done; [congruence|congruence|].
  unfold local_device_ura, device_ura_for_node. by rewrite Hrealm.
Qed.
End ability.
