(* ===== verification/ScheduleSamples.v ===== *)
(** * A concrete world for schedules

    Cron expressions, a calendar, a text of the records on disk and a kernel: the
    interfaces of the schedule service instantiated, so that its properties are
    seen to apply, and runs of the daemon are evaluated. *)

From stdpp Require Import pretty sorting.
From Stdlib Require Import String Ascii.
From S2P Require Import Prelude RustStd Text Ura Json SampleCodec Programs LoopLedger LoopAbility.
From S2P Require Import Schedule ScheduleService ScheduleDue ScheduleFires ScheduleStore ScheduleAbility LoopSamples.

Open Scope Z_scope.

(** ** Records on disk *)

Definition unquoted (s : string) : result string Value := t ← ok_or (unquote s) "EOF"; ok_or (of_text t) "syntax".
#[local] Instance schedule_serde : SerdeJson := {| to_vec v := Ok (quoted (text v) EmptyString); from_slice := unquoted |}.

Definition field_str (k : string) (o : list (string * Value)) : option string := assoc k o ≫= as_str.

Definition authority_of_value (v : Value) : option DeferredInvocationAuthority :=
  o ← as_object v;
  user ← field_str "accountable_user_ura" o; creator ← field_str "creator_invocation_id" o;
  controller ← field_str "controller_callee_ura" o; target ← field_str "target_callee_ura" o;
  host ← field_str "execution_host_ura" o;
  Some (mk_Authority user creator controller target host).

Definition policy_of (s : string) : option MisfirePolicy :=
  if String.eqb s "skip" then Some Skip else if String.eqb s "fire_once" then Some FireOnce
  else if String.eqb s "catch_up_windowed" then Some CatchUpWindowed else None.

(** The keys of the ledger come as strings, and no number is read from one. *)
Definition ledger_of_value (v : Value) : option (gmap Z ScheduleFireRecord) :=
  o ← as_object v;
  match o with [] => Some ∅ | _ :: _ => None end.

Definition entry_of_value (v : Value) : option ScheduleEntry :=
  o ← as_object v;
  id ← field_str "id" o; tenant ← field_str "tenant" o; node ← field_str "target_node" o; agent ← field_str "target_agent" o;
  authority ← assoc "authority" o ≫= authority_of_value; expr ← field_str "cron_expr" o;
  policy ← field_str "misfire_policy" o ≫= policy_of; enabled ← assoc "enabled" o ≫= value_bool; prompt ← field_str "prompt" o;
  ledger ← assoc "fire_ledger" o ≫= ledger_of_value;
  Some (mk_Schedule id tenant node agent authority expr policy (assoc "catch_up_window_secs" o ≫= value_int) enabled prompt ledger).

#[local] Instance schedule_codec : ScheduleCodec := {|
  to_string_pretty v := Ok (quoted (text v) EmptyString);
  entry_from_value v := ok_or (entry_of_value v) "invalid value";
|}.

Lemma ledger_list_nil m : ledger_list m = [] ↔ m = ∅.
Proof.
  split; [|by intros ->]. intros Hl. apply map_empty. intros k. destruct (m !! k) as [r|] eqn:Hk; [|done].
  apply elem_of_ledger_list in Hk. rewrite Hl in Hk. by apply not_elem_of_nil in Hk.
Qed.

Lemma ledger_of_enc m :
  ledger_of_value (VObject ((λ p, (i64_display p.1, fire_record_value p.2)) <$> ledger_list m)) =
    if decide (m = ∅) then Some ∅ else None.
Proof.
  destruct (decide (m = ∅)) as [->|Hne]; [done|]. rewrite <- ledger_list_nil in Hne. by destruct (ledger_list m).
Qed.

(** Reading what was written comes down to reading the ledger. *)
Lemma entry_of_enc e : entry_of_value (on_disk_value e) = if decide (se_fire_ledger e = ∅) then Some e else None.
Proof.
  destruct e as [id tenant node agent [] expr policy window enabled prompt ledger].
  pose proof (ledger_of_enc ledger) as Hl. unfold entry_of_value, on_disk_value, entry_fields. cbn [se_fire_ledger].
  revert Hl. generalize (VObject ((λ p, (i64_display p.1, fire_record_value p.2)) <$> ledger_list ledger)). intros v Hl.
  destruct (decide (ledger = ∅)) as [->|]; destruct window, policy; cbn; by rewrite Hl.
Qed.

#[local] Instance schedule_codec_laws : ScheduleCodecLaws.
Proof.
  assert (∀ e s, to_string_pretty (on_disk_value e) = Ok s → s = quoted (text (on_disk_value e)) EmptyString) as Hq.
  { intros e s Hs. symmetry. exact (f_equal (λ r, match r with Ok x => x | Err _ => s end) Hs). }
  constructor.
  - intros e s ->%Hq. unfold from_slice, schedule_serde, unquoted. rewrite unquote_quoted. cbn [mbind result_bind ok_or].
    by rewrite of_text_text.
  - intros e s n ->%Hq Hn. unfold from_slice, schedule_serde, unquoted. rewrite unquote_cut by done. by eexists.
  - intros e He. unfold entry_from_value, schedule_codec. by rewrite entry_of_enc, decide_True.
  - intros e He. unfold entry_from_value, schedule_codec. rewrite entry_of_enc, decide_False by done. by eexists.
Qed.

(** ** Cron expressions and dates *)

(** An expression for every second, or one for every minute. *)
Inductive sample_cron := EverySecond | EveryMinute.
Definition period (c : sample_cron) : Z := match c with EverySecond => second | EveryMinute => 60 * second end.
Definition next_multiple (p t : Z) : Z := (t / p + 1) * p.

#[local] Instance sample_cron_lib : CronLib := {|
  cron := sample_cron;
  cron_from_str s :=
    if String.eqb s "* * * * * *" then Ok EverySecond else if String.eqb s "0 * * * * *" then Ok EveryMinute else Err "unexpected";
  cron_next c t := Some (next_multiple (period c) t);
|}.

Lemma next_multiple_first p t v : 0 < p → t ≤ v < next_multiple p t → next_multiple p v = next_multiple p t.
Proof.
  unfold next_multiple. intros Hp [Ht Hv]. assert (v / p = t / p) as ->; [|done].
  apply Z.le_antisymm; [|by apply Z.div_le_mono]. assert (v / p < t / p + 1) by (apply Z.div_lt_upper_bound; lia). lia.
Qed.
Lemma next_multiple_after p t : 0 < p → t < next_multiple p t.
Proof. unfold next_multiple. intros Hp. pose proof (Z.mod_pos_bound t p Hp). pose proof (Z.div_mod t p). lia. Qed.

#[local] Instance sample_cron_laws : CronLaws.
Proof.
  constructor.
  - intros c t u [= <-]. split; [apply next_multiple_after; by destruct c|]. unfold next_multiple. destruct c; cbn [period].
    + apply Z_mod_mult.
    + rewrite Z.mul_assoc. apply Z_mod_mult.
  - intros c t u v [= <-] Hv. change (Some (next_multiple (period c) v) = Some (next_multiple (period c) t)). f_equal.
    apply next_multiple_first; [by destruct c|done].
  - done.
Qed.

#[local] Instance sample_calendar : Calendar := {|
  duration_seconds s := if between (- (i64_max / 1000)) (i64_max / 1000) s then Some (s * second) else None;
  sub_duration t d := Some (t - d);
  timestamp_millis_opt ms := Some (ms * millisecond);
  to_rfc3339 t := pretty t;
|}.
#[local] Instance sample_calendar_laws : CalendarLaws.
Proof.
  constructor; unfold duration_seconds, sub_duration, timestamp_millis_opt, sample_calendar.
  - intros s d. destruct (between _ _ s); [|done]. by intros [= <-].
  - intros s. rewrite <- between_spec. destruct (between _ _ s); [split; [done|by eexists]|]. split; [by intros []|done].
  - by intros t d u [= <-].
  - by intros ms t [= <-].
Qed.
#[local] Instance sample_cron_dates : CronDates.
Proof.
  constructor. intros c t u [= <-]. unfold timestamp_millis_opt, sample_calendar, timestamp_millis. f_equal.
  assert (∃ q, next_multiple (period c) t = q * millisecond) as [q ->].
  { unfold next_multiple. destruct c; [exists ((t / period EverySecond + 1) * 1000)|exists ((t / period EveryMinute + 1) * 60000)];
      cbn [period]; unfold second, millisecond; lia. }
  by rewrite Z.div_mul.
Qed.

(** ** A kernel *)

#[local] Existing Instances loop_ura sample_hex sample_hex_laws sample_hosted.

(** Its requests are the subjects of the invocations. *)
#[local] Instance sample_kernel : Kernel := {|
  kernel_request := string;
  prepare_accountable_user_rpc user target ability subject payload causal := Ok subject;
  kernel_invoke r := Err ["no driver"];
|}.
Definition fire_answer (c : FireCall) : result error FinalizedInvocation :=
  Ok (mk_Finalized ICompleted None EmptyString EmptyString ("inv." +:+ fc_schedule_id c) 0 hash32).

Lemma fire_answer_ok : answers_ok fire_answer.
Proof. by intros c. Qed.

(** ** Schedules *)

Definition each_minute : cron := EveryMinute.
Definition schedule_with (expr : string) (p : MisfirePolicy) (window : option Z) : ScheduleCreateSpec :=
  mk_Spec "laptop" "writer" expr p window true "report {{schedule_id}}" sample_authority.
Definition every_minute (p : MisfirePolicy) : ScheduleCreateSpec := schedule_with "* * * * *" p (Some 180).
Definition stored_entry (p : MisfirePolicy) : ScheduleEntry := set_tenant_id "home" "sched-1" (into_entry (every_minute p) "home").
Definition minute (n : Z) : Z := n * 60 * second.

Example stored_entry_valid : validate_loaded (stored_entry Skip) = Ok tt.
Proof. by vm_compute. Qed.

Lemma schedule_roundtrip_witness :
  ∃ s, serialize_on_disk_schedule (stored_entry FireOnce) = Ok s ∧ parse_on_disk_schedule s = Ok (stored_entry FireOnce).
Proof. eexists. split; [reflexivity|]. apply schedule_roundtrip; [by vm_compute|reflexivity|reflexivity]. Defined.

(** A ledger with one completed fire. *)
Definition fired_entry (p : MisfirePolicy) : ScheduleEntry :=
  set_fire_ledger {[60000 := mk_FireRecord 60000 FireCompleted (Some "inv") (Some (Retry.hex_encode hash32)) None]} (stored_entry p).

Lemma fired_entry_dated p : well_dated (fired_entry p).
Proof. intros k _. by eexists. Qed.

(** Three instants were missed: the minutes 2, 3 and 4. *)
Lemma due_fires_witness :
  due_entry (minute 4) (fired_entry FireOnce) = Some (Ok [mk_Due "sched-1" (minute 2) true]) ∧
  ∃ c anchor, ∀ u, u ∈ [minute 2] ↔ selected (minute 4) (fired_entry FireOnce) c anchor u.
Proof.
  split; [by vm_compute|].
  destruct (due_fires (minute 4) (fired_entry FireOnce) [mk_Due "sched-1" (minute 2) true]) as (c & anchor & _ & _ & Hsel & _).
  - apply fired_entry_dated.
  - by vm_compute.
  - exists c, anchor. exact Hsel.
Defined.

Lemma misfire_policies_witness :
  ticks 5 (minute 4) (fired_entry FireOnce) = [minute 2; minute 3; minute 4] ∧
  ticks 5 (minute 4) (fired_entry Skip) = [minute 4].
Proof.
  split.
  - rewrite (misfire_policies 4 (minute 4) (fired_entry FireOnce) each_minute (minute 1)); [by vm_compute|apply fired_entry_dated|done|by vm_compute|by eexists].
  - rewrite (misfire_policies 4 (minute 4) (fired_entry Skip) each_minute (minute 1)); [by vm_compute|apply fired_entry_dated|done|by vm_compute|by eexists].
Defined.

Definition wide_spec : ScheduleCreateSpec := schedule_with "* * * * *" CatchUpWindowed (Some i64_max).
Definition wide_entry : ScheduleEntry := set_tenant_id "home" "sched-2" (into_entry wide_spec "home").
Lemma wide_window_panics_witness : validate_loaded wide_entry = Ok tt ∧ due_entries (minute 4) [stored_entry Skip; wide_entry] = None.
Proof.
  split; [by vm_compute|]. apply (wide_window_panics (minute 4) [stored_entry Skip; wide_entry] wide_entry).
  - right. left.
  - done.
  - done.
  - by vm_compute.
  - repeat constructor; by exists each_minute.
Defined.

(** ** Runs *)

Definition here : option LocalRuntimeInvocationIdentity := Some (mk_Identity "home" "laptop").
Definition start : DaemonEvent := Reboot "home" here None.
Definition ticking (k : nat) : list DaemonEvent := replicate k (AdvanceTick None).
Definition working (n k : nat) : list DaemonEvent := replicate k (AdvanceTask n None).
Definition add_one (p : MisfirePolicy) : DaemonEvent := SubmitSchedule (ReqAddSchedule "1" (every_minute p)).

Definition fires_made (l : list DaemonEvent) : list (string * Z) :=
  (λ c, (fc_schedule_id c, fc_fire_at_unix_ms c)) <$> sw_calls (dm_world (daemon_run fire_answer no_daemon l)).

(** A schedule is created, fires at the minute 4 and is removed by a stranger,
    in vain, while the invocation runs. *)
Definition fire_events : list DaemonEvent :=
  [add_one Skip] ++ working 0 20 ++ [Tick (minute 4)] ++ ticking 20 ++ [Begin 0; SubmitSchedule (ReqRemoveSchedule "sched-1" mallory)]
  ++ working 1 3 ++ working 2 20 ++ working 1 20 ++ [Tick (minute 4)] ++ ticking 20.
Example fire_events_fires : fires_made (start :: fire_events) = [("sched-1", 240000)].
Proof. by vm_compute. Qed.

(** The world of a daemon that was never started. *)
Definition empty_disk : ScheduleWorld := dm_world no_daemon.

Lemma fires_once_witness :
  ∃ calls, sw_calls (dm_world (daemon_run fire_answer (boot_schedules "home" here None empty_disk) fire_events)) = calls ∧
    length calls = 1%nat ∧ NoDup ((λ c, (fc_schedule_id c, fc_fire_at_unix_ms c)) <$> calls).
Proof.
  destruct (fires_once fire_answer "home" here None empty_disk fire_events) as (calls & Hc & Hnd & _).
  - apply (bool_decide_unpack _). by vm_compute.
  - apply (bool_decide_unpack _). by vm_compute.
  - apply (bool_decide_unpack _). by vm_compute.
  - exists calls. split; [exact Hc|]. split; [|exact Hnd].
    change calls with (sw_calls empty_disk ++ calls). rewrite <- Hc. by vm_compute.
Defined.

(** A schedule is created, and the daemon is started again. *)
Definition add_events : list DaemonEvent := [start; add_one Skip] ++ working 0 20.
Definition restarted (l : list DaemonEvent) : ScheduleWorld :=
  dm_world (boot_schedules "home" here None (dm_world (daemon_run fire_answer no_daemon l))).

Lemma schedule_store_binds_witness :
  sw_store (restarted add_events) = true ∧ unfired (sw_files (dm_world (daemon_run fire_answer no_daemon add_events))).
Proof.
  assert (sw_store (restarted add_events) = true) as Hb by (by vm_compute). split; [exact Hb|].
  apply (schedule_store_binds fire_answer add_events "home" here); [exact fire_answer_ok|by repeat constructor|exact Hb].
Defined.

(** After it has fired the next start has no schedule, and does not fire it. *)
Example fired_schedule_lost :
  sw_store (restarted (start :: fire_events)) = false ∧ sw_cache (restarted (start :: fire_events)) = ∅ ∧
  fires_made (start :: fire_events ++ [start; Tick (minute 5)] ++ ticking 20) = [("sched-1", 240000)].
Proof. by vm_compute. Qed.

(** The daemon after the creation, and after a fire was reserved. *)
Definition bound_world : ScheduleWorld := dm_world (daemon_run fire_answer no_daemon add_events).
Definition reservation : ScheduleFireRecord := mk_FireRecord 240000 FireReserved None None None.
Definition reserved_world : ScheduleWorld := (run_prog (replicate 4 None) (update_fire_record "sched-1" reservation) bound_world).1.

Lemma fired_schedule_unbinds_witness :
  sw_store bound_world = true ∧
  let d := boot_schedules "home" here None reserved_world in
  sw_store (dm_world d) = false ∧ sw_cache (dm_world d) = ∅ ∧ sw_tenant (dm_world d) = None.
Proof.
  split; [by vm_compute|].
  apply (fired_schedule_unbinds "sched-1" reservation bound_world (replicate 4 None) reserved_world reserved_world "home" here None).
  - done.
  - by vm_compute.
  - intros e. vm_compute. by intros [= <-].
  - by vm_compute.
  - done.
Defined.

(** ** Requests *)

Definition schedule_id_args : Value := VObject [("schedule_id", VString " sched-1 ")].
Definition one_schedule : ScheduleWorld := set_sw_cache {["sched-1" := stored_entry Skip]} empty_disk.

Lemma foreign_schedule_refused_witness :
  inert (foreign_schedule "sched-1" mallory) (remove_handler_with_envelope (mk_Envelope mallory automation "inv-9") schedule_id_args) ∧
  foreign_schedule "sched-1" mallory one_schedule.
Proof.
  split.
  - destruct (foreign_schedule_refused (mk_Envelope mallory automation "inv-9") schedule_id_args " sched-1 " mallory) as (Hremove & _).
    + done.
    + replace (trim " sched-1 ") with "sched-1" in Hremove by (by vm_compute). exact Hremove.
  - exists (stored_entry Skip). split; [done|]. by vm_compute.
Defined.

Definition sample_add_args : Value :=
  VObject [("target_node", VString "laptop"); ("target_agent", VString "writer"); ("cron_expr", VString "* * * * *");
           ("misfire_policy", VString "skip"); ("prompt", VString "report")].
Definition sample_input : ScheduleAddInput := mk_AddInput "laptop" "writer" "* * * * *" Skip None true "report".

Lemma schedule_created_for_caller_witness :
  add_authority sample_envelope sample_add_args = Ok (sample_input, sample_authority) ∧
  ∃ entry agents, hosted_agents = Ok agents ∧ entry ∈ agents ∧ da_target_callee_ura sample_authority = ha_agent_ura entry.
Proof.
  split; [by vm_compute|].
  destruct (schedule_created_for_caller sample_envelope sample_add_args sample_input sample_authority "home")
    as (user & uid & controller & device & target & entry & agents & _ & _ & _ & _ & _ & _ & Hag & Hin & _ & _ & _ & _ & _ & Ha).
  - by vm_compute.
  - by vm_compute.
  - exists entry, agents. split; [exact Hag|]. split; [exact Hin|]. by rewrite Ha.
Defined.

(** ** Where the guarantees end *)

(** The record of a fire is written after the lock on the ledger is given back:
    an older state of the ledger may be written last.  Here the end of the fire
    of minute 4 is recorded in memory, the fire of minute 5 is reserved, saved
    and invoked, and then the record of the first is saved: the file has no trace
    of the second. *)
Definition fire_of (n : Z) (k : nat) : list DaemonEvent := [Tick (minute n)] ++ ticking 20 ++ [Begin 0] ++ working k 2.
Definition stale_save : list DaemonEvent :=
  [start; add_one Skip] ++ working 0 20 ++ fire_of 4 1 ++ working 1 1 ++ fire_of 5 2 ++ working 1 20.
Example stale_save_loses_fire :
  let w := dm_world (daemon_run fire_answer no_daemon stale_save) in
  (λ e, (ledger_list (se_fire_ledger e)).*1) <$> sw_cache w !! "sched-1" = Some [240000; 300000] ∧
  sw_files w !! final_path "sched-1" =
    match serialize_on_disk_schedule (set_fire_ledger {[240000 := mk_FireRecord 240000 FireCompleted (Some "inv.sched-1")
            (Some (Retry.hex_encode hash32)) None]} (stored_entry Skip)) with Ok body => Some body | Err _ => None end.
Proof. by vm_compute. Qed.

(** For the same reason a schedule that was removed may come back: its owner
    enables it and removes it, and the save of the first request comes last. *)
Definition removed_again : list DaemonEvent :=
  [start; add_one Skip] ++ working 0 20
  ++ [SubmitSchedule (ReqEnableSchedule "sched-1" true alice); SubmitSchedule (ReqRemoveSchedule "sched-1" alice)]
  ++ working 1 2 ++ working 2 20 ++ working 1 20.
Example removed_schedule_fires :
  sw_cache (dm_world (daemon_run fire_answer no_daemon removed_again)) = ∅ ∧
  fires_made (removed_again ++ [start] ++ fire_of 4 0) = [("sched-1", 240000)].
Proof. by vm_compute. Qed.

(** A window out of the range of durations is accepted; from then on no tick
    comes to its end, and a restart does not help. *)
Definition wide_events : list DaemonEvent :=
  [start; add_one Skip; SubmitSchedule (ReqAddSchedule "2" wide_spec)] ++ working 0 20 ++ working 1 20 ++ fire_of 4 2.
Definition ticker_stopped (l : list DaemonEvent) : bool :=
  match dm_ticker (daemon_run fire_answer no_daemon l) with Stopped => true | _ => false end.
Example wide_window_stops_runner :
  ticker_stopped wide_events = true ∧ ticker_stopped (wide_events ++ [start]) = false ∧
  ticker_stopped (wide_events ++ [start] ++ fire_of 5 0) = true ∧ fires_made (wide_events ++ [start] ++ fire_of 5 0) = [].
Proof. by vm_compute. Qed.
