(* ===== verification/ShellAst.v ===== *)
(** * Shell commands: the syntax tree (src/src/support/shellguard/ast)

    The first three stages of the guard of shell.run: checks on the text, and the
    walk over the tree of tree-sitter that extracts the simple commands of a
    text or refuses it.  The parser is an interface; a tree has for each node its
    kind, whether it is named, its text and its children. *)

From Stdlib Require Import String Ascii.
From S2P Require Import Prelude RustStd Text.

Open Scope Z_scope.

(** ** Trees *)

Inductive Node := mk_Node (kind : string) (named : bool) (text : string) (children : list Node).

Definition node_kind (n : Node) : string := let 'mk_Node k _ _ _ := n in k.
Definition is_named (n : Node) : bool := let 'mk_Node _ b _ _ := n in b.
Definition node_text (n : Node) : string := let 'mk_Node _ _ t _ := n in t.
Definition node_children (n : Node) : list Node := let 'mk_Node _ _ _ l := n in l.

Inductive RootError := LanguageLoad (e : string) | ParseFailed.

(** [parse_root] of ast/parser.rs, which asks tree-sitter, and [has_error]. *)
Class TreeSitter := {
  parse_root : string → result RootError Node;
  has_error : Node → bool;
}.

(** ** Commands *)

Record Redirect := mk_Redirect { rd_op : string; rd_target : string; rd_fd : option Z }.
Record EnvAssignment := mk_Assign { ea_name : string; ea_value : string }.
Record SimpleCommand := mk_Command {
  sc_argv : list string;
  sc_env_vars : list EnvAssignment;
  sc_redirects : list Redirect;
  sc_text : string;
}.

Inductive ParseForSecurityResult :=
| Simple (commands : list SimpleCommand)
| TooComplex (reason : string) (node_type : option string)
| ParseUnavailable.

Definition too_complex_pre (reason : string) : ParseForSecurityResult := TooComplex reason None.
Definition too_complex_node (reason node_type : string) : ParseForSecurityResult := TooComplex reason (Some node_type).

(** [matches!] against literals. *)
Definition one_of (l : list string) (s : string) : bool := existsb (String.eqb s) l.

(** ** Checks on the text *)

Definition byte_is (z : Z) (a : ascii) : bool := byte_val a =? z.

Definition has_control_char (cmd : string) : bool :=
  existsb (λ n, (n <=? 8) || between 11 31 n || (n =? 127)) (chars cmd).

Definition unicode_whitespace (c : Z) : bool :=
  existsb (Z.eqb c) [160; 5760; 8232; 8233; 8239; 8287; 12288; 65279] || between 8192 8203 c.
Definition has_unicode_whitespace (cmd : string) : bool := existsb unicode_whitespace (chars cmd).

(** [\ ] or [\TAB], or [\NL] after a byte that is neither white space nor [\]. *)
Fixpoint has_backslash_whitespace (cmd : string) : bool :=
  match cmd with
  | EmptyString => false
  | String a s1 =>
      match s1 with
      | EmptyString => false
      | String b s2 =>
          (byte_is 92 a && (byte_is 32 b || byte_is 9 b))
          || (match s2 with
              | EmptyString => false
              | String c _ =>
                  byte_is 92 b && byte_is 10 c && negb (byte_is 32 a || byte_is 9 a || byte_is 10 a || byte_is 92 a)
              end)
      end || has_backslash_whitespace s1
  end.

Definition has_zsh_tilde_bracket (cmd : string) : bool := str_contains_str "~[" cmd.

(** [word_initial]: the byte before ends a word, or there is none. *)
Fixpoint equals_expansion_from (word_initial : bool) (cmd : string) : bool :=
  match cmd with
  | EmptyString => false
  | String a s =>
      (byte_is 61 a && word_initial
       && match s with
          | EmptyString => false
          | String b _ => is_ascii_alphabetic (byte_val b) || byte_is 95 b
          end)
      || equals_expansion_from (existsb (λ z, byte_is z a) [32; 9; 10; 59; 38; 124]) s
  end.
Definition has_zsh_equals_expansion (cmd : string) : bool := equals_expansion_from true cmd.

(** [b as char] pushed to a [String]. *)
Definition push_byte_as_char (a : ascii) (rest : string) : string :=
  if byte_val a <? 128 then String a rest
  else String (ascii_of_N (Z.to_N (192 + byte_val a / 64))) (String (ascii_of_N (Z.to_N (128 + byte_val a mod 64))) rest).

Inductive Quotes := Unquoted | InSingle | InDouble.

Definition mask_brace (a : ascii) (rest : string) : string :=
  if byte_is 123 a then String " " rest else push_byte_as_char a rest.
Fixpoint mask_from (q : Quotes) (cmd : string) : string :=
  match cmd with
  | EmptyString => EmptyString
  | String a s1 =>
      match q with
      | InSingle => mask_brace a (mask_from (if byte_is 39 a then Unquoted else InSingle) s1)
      | InDouble =>
          let next := mask_brace a (mask_from (if byte_is 34 a then Unquoted else InDouble) s1) in
          match s1 with
          | String b s2 =>
              if byte_is 92 a && (byte_is 34 b || byte_is 92 b)
              then push_byte_as_char a (push_byte_as_char b (mask_from InDouble s2)) else next
          | EmptyString => next
          end
      | Unquoted =>
          let next := push_byte_as_char a
            (mask_from (if byte_is 39 a then InSingle else if byte_is 34 a then InDouble else Unquoted) s1) in
          match s1 with
          | String b s2 =>
              if byte_is 92 a then push_byte_as_char a (push_byte_as_char b (mask_from Unquoted s2)) else next
          | EmptyString => next
          end
      end
  end.
Definition mask_braces_in_quoted_contexts (cmd : string) : string :=
  if str_contains 123 cmd then mask_from Unquoted cmd else cmd.

(** A quote between [{] and the next [}]. *)
Fixpoint brace_then_quote (inside : bool) (s : string) : bool :=
  match s with
  | EmptyString => false
  | String a s =>
      if inside then
        if byte_is 125 a then brace_then_quote false s
        else byte_is 39 a || byte_is 34 a || brace_then_quote true s
      else brace_then_quote (byte_is 123 a) s
  end.
Definition has_brace_with_quote (cmd : string) : bool :=
  str_contains 123 cmd && brace_then_quote false (mask_braces_in_quoted_contexts cmd).

Definition pre_check (cmd : string) : option string :=
  if has_control_char cmd then Some "Contains control characters"
  else if has_unicode_whitespace cmd then Some "Contains Unicode whitespace"
  else if has_backslash_whitespace cmd then Some "Contains backslash-escaped whitespace"
  else if has_zsh_tilde_bracket cmd then Some "Contains zsh ~[ dynamic directory syntax"
  else if has_zsh_equals_expansion cmd then Some "Contains zsh =cmd equals expansion"
  else if has_brace_with_quote cmd then Some "Contains brace with quote character (expansion obfuscation)"
  else None.

(** ** Variables *)

Definition VarScope : Type := gmap string string.

Definition CMDSUB_PLACEHOLDER : string := "__CMDSUB_OUTPUT__".
Definition VAR_PLACEHOLDER : string := "__TRACKED_VAR__".

Definition contains_any_placeholder (value : string) : bool :=
  str_contains_str CMDSUB_PLACEHOLDER value || str_contains_str VAR_PLACEHOLDER value.

Definition SAFE_ENV_VARS : list string :=
  ["HOME"; "PWD"; "OLDPWD"; "USER"; "LOGNAME"; "SHELL"; "PATH"; "HOSTNAME"; "UID"; "EUID"; "PPID"; "RANDOM"; "SECONDS";
   "LINENO"; "TMPDIR"; "BASH_VERSION"; "BASHPID"; "SHLVL"; "HISTFILE"; "IFS"].
Definition SPECIAL_VAR_NAMES : list string := ["?"; "$"; "!"; "#"; "0"; "-"].

Definition bare_var_unsafe (value : string) : bool :=
  negb (str_forall (λ z, negb (existsb (Z.eqb z) [32; 9; 10; 42; 63; 91])) value).

Definition is_valid_var_name (s : string) : bool :=
  match s with
  | EmptyString => false
  | String a s =>
      (is_ascii_alphabetic (byte_val a) || byte_is 95 a)
      && str_forall (λ z, is_ascii_alphanumeric z || (z =? 95)) s
  end.

Definition apply_assignment_to_scope (scope : VarScope) (a : EnvAssignment) : VarScope :=
  <[ea_name a := if contains_any_placeholder (ea_value a) then VAR_PLACEHOLDER else ea_value a]> scope.

(** The first child that names a variable, and whether it is a special one. *)
Fixpoint expansion_name (l : list Node) : option (string * bool) :=
  match l with
  | [] => None
  | c :: l =>
      if String.eqb (node_kind c) "variable_name" then Some (node_text c, false)
      else if String.eqb (node_kind c) "special_variable_name" then Some (node_text c, true)
      else expansion_name l
  end.

Definition resolve_simple_expansion (node : Node) (scope : VarScope) (inside_string : bool)
    : result ParseForSecurityResult string :=
  let refuse reason := Err (too_complex_node reason "simple_expansion") in
  '(name, is_special) ← ok_or (expansion_name (node_children node))
    (too_complex_node "simple_expansion with no variable name" "simple_expansion");
  match scope !! name with
  | Some value =>
      if String.eqb value VAR_PLACEHOLDER || contains_any_placeholder value then
        if inside_string then Ok VAR_PLACEHOLDER
        else refuse ("Bare $" +:+ name +:+ " resolves to a runtime-unknown value")
      else if negb inside_string && is_empty value then
        refuse ("Bare $" +:+ name +:+ " resolves to empty (would shift positional args)")
      else if negb inside_string && bare_var_unsafe value then
        refuse ("Bare $" +:+ name +:+ " resolves to value containing IFS or glob char")
      else Ok value
  | None =>
      if inside_string
         && (one_of SAFE_ENV_VARS name || (is_special && (one_of SPECIAL_VAR_NAMES name || str_forall is_ascii_digit name)))
      then Ok VAR_PLACEHOLDER
      else refuse ("Untracked variable $" +:+ name)
  end.

(** ** Redirects *)

(** [str::parse::<u32>]. *)
Fixpoint u32_digits (acc : Z) (s : string) : option Z :=
  match s with
  | EmptyString => if acc <=? u32_max then Some acc else None
  | String a s => if is_ascii_digit (byte_val a) then u32_digits (10 * acc + (byte_val a - 48)) s else None
  end.
Definition parse_u32 (s : string) : option Z :=
  match match s with String "+" s => s | _ => s end with
  | EmptyString => None
  | s => u32_digits 0 s
  end.

Fixpoint last_byte (s : string) : option ascii :=
  match s with EmptyString => None | String a EmptyString => Some a | String _ s => last_byte s end.

(** One layer of quotes, when both ends match. *)
Definition unquote_redirect_target (node : Node) : string :=
  let raw := node_text node in
  match raw, last_byte raw with
  | String a _, Some z =>
      if (2 <=? String.length raw)%nat && ((byte_is 34 a && byte_is 34 z) || (byte_is 39 a && byte_is 39 z))
      then String.substring 1 (String.length raw - 2) raw else raw
  | _, _ => raw
  end.

Definition REDIRECT_OPS : list string := [">"; ">>"; "<"; "<<"; ">&"; "<&"; ">|"; "&>"; "&>>"; "<<<"].
Definition WORDS : list string := ["word"; "string"; "raw_string"; "concatenation"; "number"].

(** A child of a [file_redirect], with the operator, target and descriptor so
    far; the text of a target is taken as it stands. *)
Definition redirect_child (st : option string * option string * option Z) (c : Node)
    : result ParseForSecurityResult (option string * option string * option Z) :=
  let '(op, target, fd) := st in
  let kind := node_kind c in
  if one_of REDIRECT_OPS kind then Ok (Some kind, target, fd)
  else if String.eqb kind "file_descriptor" then
    Ok (op, target, match parse_u32 (node_text c) with Some n => Some n | None => fd end)
  else if one_of WORDS kind then Ok (op, Some (unquote_redirect_target c), fd)
  else if one_of ["command_substitution"; "simple_expansion"; "expansion"] kind then
    Err (too_complex_node ("Redirect target uses disallowed expansion `" +:+ kind +:+ "`") kind)
  else Ok st.

Definition parse_file_redirect (node : Node) : result ParseForSecurityResult Redirect :=
  '(op, target, fd) ← try_fold redirect_child (None, None, None) (node_children node);
  op ← ok_or op (too_complex_node "file_redirect with no operator token" "file_redirect");
  target ← ok_or target (too_complex_node "file_redirect with no target word" "file_redirect");
  Ok (mk_Redirect op target fd).

(** Dollar, backquote, double quote and backslash may be escaped within double
    quotes. *)
Fixpoint unescape_double_quoted (s : string) : string :=
  match s with
  | EmptyString => EmptyString
  | String a s1 =>
      let next := push_byte_as_char a (unescape_double_quoted s1) in
      match s1 with
      | String b s2 =>
          if byte_is 92 a && existsb (λ z, byte_is z b) [36; 96; 34; 92]
          then push_byte_as_char b (unescape_double_quoted s2) else next
      | EmptyString => next
      end
  end.

(** ** The walk *)

(** A walk gives a value and appends commands, or refuses. *)
Definition W (A : Type) : Type := result ParseForSecurityResult (A * list SimpleCommand).
#[global] Instance W_mret : MRet W := λ A a, Ok (a, []).
#[global] Instance W_mbind : MBind W := λ A B f m,
  match m with
  | Ok (a, l) => match f a with Ok (b, l') => Ok (b, l ++ l') | Err e => Err e end
  | Err e => Err e
  end.
Definition emit (c : SimpleCommand) : W unit := Ok (tt, [c]).
Definition pure_walk {A} (r : result ParseForSecurityResult A) : W A := a ← r; Ok (a, []).
Definition refuse {A} (reason node_type : string) : W A := Err (too_complex_node reason node_type).

Fixpoint fold_walk {S X} (f : S → X → W S) (s : S) (l : list X) : W S :=
  match l with
  | [] => mret s
  | x :: l => s ← f s x; fold_walk f s l
  end.

(** What the functions of the walker do on a node: as they call each other on the
    node itself and on its children, those of the children are at hand. *)
Record Walk := mk_Walk {
  wk_node : Node;
  wk_command : VarScope → W SimpleCommand;
  wk_declaration : VarScope → W (SimpleCommand * VarScope);
  wk_assignment : VarScope → W EnvAssignment;
  wk_argument : VarScope → W string;
  wk_name : VarScope → W (list string);
  wk_substitution : VarScope → W unit;
  wk_collect : VarScope → W VarScope;
}.
Definition wk_kind (c : Walk) : string := node_kind (wk_node c).
Definition named_children (cs : list Walk) : list Walk := filter (λ c, is_named (wk_node c) = true) cs.

Definition SEPARATORS : list string := ["&&"; "||"; "|"; ";"; "&"; "|&"; String "010" EmptyString].

Section node.
Context (node : Node) (cs : list Walk).

Definition collect_command_substitution (scope : VarScope) : W unit :=
  _ ← fold_walk (λ inner_scope c,
        if one_of ["$("; "`"; ")"] (wk_kind c) then mret inner_scope else wk_collect c inner_scope) scope cs;
  mret tt.

(** A child of a string, with the text and what was seen so far. *)
Definition string_child (scope : VarScope) (st : string * bool * bool) (c : Walk) : W (string * bool * bool) :=
  let '(out, dynamic, literal) := st in
  let kind := wk_kind c in
  let text := node_text (wk_node c) in
  if String.eqb kind (String "034" EmptyString) then mret st
  else if String.eqb kind "string_content" then mret (out +:+ unescape_double_quoted text, dynamic, true)
  else if String.eqb kind "command_substitution" then
    _ ← wk_substitution c scope; mret (out +:+ CMDSUB_PLACEHOLDER, true, literal)
  else if String.eqb kind "simple_expansion" then
    v ← pure_walk (resolve_simple_expansion (wk_node c) scope true);
    if String.eqb v VAR_PLACEHOLDER then mret (out +:+ v, true, literal) else mret (out +:+ v, dynamic, true)
  else if one_of ["expansion"; "process_substitution"; "arithmetic_expansion"] kind then
    refuse ("Double-quoted string uses `" +:+ kind +:+ "`") kind
  else if is_empty text then mret st
  else mret (out +:+ text, dynamic, true).

Definition walk_double_string (scope : VarScope) : W string :=
  '(out, dynamic, literal) ← fold_walk (string_child scope) (EmptyString, false, false) cs;
  if dynamic && negb literal then refuse "Double-quoted string contains only a $() placeholder" "string"
  else mret out.

(** Single quotes are stripped. *)
Definition raw_string_text (raw : string) : string :=
  match raw, last_byte raw with
  | String a _, Some z =>
      if (2 <=? String.length raw)%nat && byte_is 39 a && byte_is 39 z
      then String.substring 1 (String.length raw - 2) raw else raw
  | _, _ => raw
  end.

Definition walk_argument (scope : VarScope) : W string :=
  let kind := node_kind node in
  if one_of ["word"; "number"] kind then mret (node_text node)
  else if String.eqb kind "raw_string" then mret (raw_string_text (node_text node))
  else if String.eqb kind "string" then walk_double_string scope
  else if String.eqb kind "simple_expansion" then pure_walk (resolve_simple_expansion node scope false)
  else if String.eqb kind "concatenation" then
    fold_walk (λ out c, s ← wk_argument c scope; mret (out +:+ s)) EmptyString (named_children cs)
  else if one_of ["command_substitution"; "expansion"; "process_substitution"; "arithmetic_expansion"; "subshell";
                  "brace_expression"; "ansi_c_string"; "translated_string"] kind then
    refuse ("Argument uses `" +:+ kind +:+ "`") kind
  else refuse ("Argument uses unsupported node `" +:+ kind +:+ "`") kind.

(** A child of an assignment, with the name and value so far.  The kinds of
    tree-sitter-bash are ASCII. *)
Definition assignment_child (scope : VarScope) (st : option string * option string) (c : Walk)
    : W (option string * option string) :=
  let '(name, value) := st in
  let kind := wk_kind c in
  if String.eqb kind "variable_name" then mret (Some (node_text (wk_node c)), value)
  else if String.eqb kind "=" then mret st
  else if one_of WORDS kind then v ← wk_argument c scope; mret (name, Some v)
  else if String.eqb kind "command_substitution" then
    _ ← wk_substitution c scope; mret (name, Some CMDSUB_PLACEHOLDER)
  else if String.eqb kind "simple_expansion" then
    v ← pure_walk (resolve_simple_expansion (wk_node c) scope true); mret (name, Some v)
  else if one_of ["expansion"; "process_substitution"; "arithmetic_expansion"] kind then
    refuse ("Variable assignment value uses `" +:+ kind +:+ "`") kind
  else if negb (blank kind) && negb (str_forall (λ z, negb (is_ascii_alphanumeric z)) kind) then
    refuse ("Variable assignment uses unsupported child `" +:+ kind +:+ "`") kind
  else mret st.

Definition walk_variable_assignment (scope : VarScope) : W EnvAssignment :=
  '(name, value) ← fold_walk (assignment_child scope) (None, None) cs;
  name ← pure_walk (ok_or name (too_complex_node "variable_assignment with no name" "variable_assignment"));
  if negb (is_valid_var_name name) then
    refuse ("Invalid variable name (bash treats as command): " +:+ name) "variable_assignment"
  else if String.eqb name "IFS" then
    refuse "IFS assignment changes word-splitting — cannot model statically" "variable_assignment"
  else mret (mk_Assign name (default EmptyString value)).

(** The named children of a [command_name]. *)
Definition walk_command_name (scope : VarScope) : W (list string) :=
  if bool_decide (named_children cs = []) then refuse "command_name with no inner word" "command_name"
  else fold_walk (λ argv c, s ← wk_argument c scope; mret (argv ++ [s])) [] (named_children cs).

(** A child of a command, with its arguments, assignments and scope so far. *)
Definition command_child (st : list string * list EnvAssignment * VarScope) (c : Walk)
    : W (list string * list EnvAssignment * VarScope) :=
  let '(argv, env_vars, local_scope) := st in
  let kind := wk_kind c in
  if String.eqb kind "variable_assignment" then
    a ← wk_assignment c local_scope; mret (argv, env_vars ++ [a], apply_assignment_to_scope local_scope a)
  else if String.eqb kind "command_name" then args ← wk_name c local_scope; mret (argv ++ args, env_vars, local_scope)
  else if one_of ["word"; "string"; "raw_string"; "number"; "concatenation"; "simple_expansion"] kind then
    s ← wk_argument c local_scope; mret (argv ++ [s], env_vars, local_scope)
  else if String.eqb kind "comment" then mret st
  else refuse ("Disallowed child of command `" +:+ kind +:+ "`") kind.

Definition walk_command (scope : VarScope) : W SimpleCommand :=
  '(argv, env_vars, _) ← fold_walk command_child ([], [], scope) (named_children cs);
  if bool_decide (argv = []) then refuse "command with no argv" "command"
  else mret (mk_Command argv env_vars [] (node_text node)).

Definition DECLARATIONS : list string := ["export"; "local"; "readonly"; "declare"; "typeset"].
Definition is_skip_unnamed (kind : string) : bool :=
  one_of [EmptyString; " "; String "009" EmptyString; String "010" EmptyString] kind.

Definition declaration_child (st : list string * list EnvAssignment * VarScope) (c : Walk)
    : W (list string * list EnvAssignment * VarScope) :=
  let '(argv, env_vars, scope) := st in
  let kind := wk_kind c in
  if one_of DECLARATIONS kind then mret (argv ++ [kind], env_vars, scope)
  else if one_of WORDS kind then s ← wk_argument c scope; mret (argv ++ [s], env_vars, scope)
  else if String.eqb kind "variable_assignment" then
    a ← wk_assignment c scope;
    mret (argv ++ [ea_name a +:+ "=" +:+ ea_value a], env_vars ++ [a], apply_assignment_to_scope scope a)
  else if String.eqb kind "comment" || is_skip_unnamed kind then mret st
  else refuse ("Disallowed child of declaration_command `" +:+ kind +:+ "`") kind.

Definition walk_declaration_command (scope : VarScope) : W (SimpleCommand * VarScope) :=
  '(argv, env_vars, scope) ← fold_walk declaration_child ([], [], scope) cs;
  if bool_decide (argv = []) then refuse "declaration_command with no argv" "declaration_command"
  else mret (mk_Command argv env_vars [] (node_text node), scope).

(** A child of a redirected statement, with its command, redirects and scope so
    far. *)
Definition redirected_child (st : option SimpleCommand * list Redirect * VarScope) (c : Walk)
    : W (option SimpleCommand * list Redirect * VarScope) :=
  let '(inner_cmd, redirects, scope) := st in
  let kind := wk_kind c in
  let again := bool_decide (is_Some inner_cmd) in
  if String.eqb kind "command" then
    if again then refuse "redirected_statement with multiple inner commands" "redirected_statement"
    else cmd ← wk_command c scope; mret (Some cmd, redirects, scope)
  else if String.eqb kind "declaration_command" then
    if again then refuse "redirected_statement with multiple inner commands" "redirected_statement"
    else '(cmd, scope) ← wk_declaration c scope; mret (Some cmd, redirects, scope)
  else if String.eqb kind "file_redirect" then
    r ← pure_walk (parse_file_redirect (wk_node c)); mret (inner_cmd, redirects ++ [r], scope)
  else if one_of ["heredoc_redirect"; "herestring_redirect"] kind then
    refuse ("Disallowed redirect type `" +:+ kind +:+ "`") kind
  else if String.eqb kind "comment" then mret st
  else refuse ("Disallowed child of redirected_statement `" +:+ kind +:+ "`") kind.

Definition walk_redirected_statement (scope : VarScope) : W (SimpleCommand * VarScope) :=
  '(inner_cmd, redirects, scope) ← fold_walk redirected_child (None, [], scope) (named_children cs);
  cmd ← pure_walk (ok_or inner_cmd (too_complex_node "redirected_statement with no inner command" "redirected_statement"));
  mret (mk_Command (sc_argv cmd) (sc_env_vars cmd) redirects (node_text node), scope).

(** The stages of a pipeline start from the scope at its entry and leave it. *)
Definition collect_pipeline (entry : VarScope) : W VarScope :=
  _ ← fold_walk (λ local c,
        if one_of SEPARATORS (wk_kind c) then
          mret (if one_of ["||"; "|"; "|&"; "&"] (wk_kind c) then entry else local)
        else wk_collect c local) entry cs;
  mret entry.

(** Commands of a list go on from each other's scope, except after [||] and [&]. *)
Definition collect_list (entry : VarScope) : W VarScope :=
  let needs_snapshot := existsb (λ c, one_of ["||"; "&"] (wk_kind c)) cs in
  let snapshot := if needs_snapshot then entry else ∅ in
  fold_walk (λ scope c,
    if one_of SEPARATORS (wk_kind c) then
      mret (if one_of ["||"; "|"; "|&"; "&"] (wk_kind c) then snapshot else scope)
    else wk_collect c scope) entry cs.

Definition collect_commands (scope : VarScope) : W VarScope :=
  let kind := node_kind node in
  if String.eqb kind "pipeline" then collect_pipeline scope
  else if one_of ["program"; "list"] kind then collect_list scope
  else if String.eqb kind "redirected_statement" then
    '(cmd, scope) ← walk_redirected_statement scope; _ ← emit cmd; mret scope
  else if String.eqb kind "command" then cmd ← walk_command scope; _ ← emit cmd; mret scope
  else if String.eqb kind "declaration_command" then
    '(cmd, scope) ← walk_declaration_command scope; _ ← emit cmd; mret scope
  else if String.eqb kind "negated_command" then
    fold_walk (λ scope c, if String.eqb (wk_kind c) "!" then mret scope else wk_collect c scope) scope cs
  else if String.eqb kind "variable_assignment" then
    a ← walk_variable_assignment scope; mret (apply_assignment_to_scope scope a)
  else if String.eqb kind "comment" then mret scope
  else refuse ("Disallowed node type `" +:+ kind +:+ "`") kind.
End node.

Fixpoint walk (node : Node) : Walk :=
  let 'mk_Node _ _ _ l := node in
  let cs := map walk l in
  mk_Walk node (walk_command node cs) (walk_declaration_command node cs) (walk_variable_assignment cs)
    (walk_argument node cs) (walk_command_name cs) (collect_command_substitution cs) (collect_commands node cs).

Definition parse_for_security `{TreeSitter} (cmd : string) : ParseForSecurityResult :=
  if is_empty cmd then Simple []
  else match pre_check cmd with
  | Some reason => too_complex_pre reason
  | None =>
      if blank cmd then Simple []
      else match parse_root cmd with
      | Err _ => ParseUnavailable
      | Ok root =>
          if has_error root then too_complex_node "tree-sitter reported a parse error in the command" "ERROR"
          else match wk_collect (walk root) ∅ with
          | Ok (_, commands) => Simple commands
          | Err err => err
          end
      end
  end.
