(* ===== verification/ShellStages.v ===== *)
(** * Shell commands: the stages (src/src/support/shellguard)

    The stages that judge the simple commands of a text: the catalogue of
    dangerous shapes (security), the caller's rules (permissions.rs), the roots
    that may be written (pathconstraints.rs), the read-only classifier
    (readonly.rs) and the destructive commands (destructive.rs).  Slicing a
    string inside a character panics: [None]. *)

From Stdlib Require Import String Ascii.
From S2P Require Import Prelude RustStd Text ShellAst.

Open Scope Z_scope.

(** ** Slices *)

(** [&s[..n]] and [String::truncate] for an [n] within the string. *)
Definition slice_to (n : nat) (s : string) : option string := _ ← get_from n s; Some (str_take n s).

Definition ellipsis : string := "…".

(** The first command a check objects to, with its index; [None] is a panic. *)
Fixpoint first_hit {A} (check : SimpleCommand → option (option A)) (i : nat) (l : list SimpleCommand) : option (option (nat * A)) :=
  match l with
  | [] => Some None
  | c :: l =>
      match check c with
      | None => None
      | Some (Some a) => Some (Some (i, a))
      | Some None => first_hit check (S i) l
      end
  end.

(** ** Security *)

Inductive SecurityCategory := CatBuiltin | CatFlag | CatPattern.
Record DetectorHit := mk_Hit { dh_name : string; dh_detail : string }.
Record SecurityViolation := mk_Violation {
  sv_category : SecurityCategory;
  sv_name : string;
  sv_argv_index : nat;
  sv_detail : string;
}.
Inductive SecurityVerdict := SecurityOk | SecurityReject (violation : SecurityViolation).

Definition EVAL_LIKE_BUILTINS : list string :=
  ["eval"; "source"; "."; "exec"; "command"; "builtin"; "fc"; "coproc"; "noglob"; "nocorrect"; "trap"; "enable"; "mapfile";
   "readarray"; "hash"; "bind"; "complete"; "compgen"; "alias"; "let"].
Definition ZSH_DANGEROUS_BUILTINS : list string :=
  ["zmodload"; "emulate"; "sysopen"; "sysread"; "syswrite"; "sysseek"; "zpty"; "ztcp"; "zsocket"; "zf_rm"; "zf_mv"; "zf_ln";
   "zf_chmod"; "zf_chown"; "zf_mkdir"; "zf_rmdir"; "zf_chgrp"].

(** [joined] so far, and whether an argument came before. *)
Fixpoint summary_from (joined : string) (later : bool) (args : list string) : option string :=
  match args with
  | [] => Some joined
  | arg :: args =>
      let joined := (if later then joined +:+ " " else joined) +:+ arg in
      if (60 <? String.length joined)%nat then s ← slice_to 60 joined; Some (s +:+ ellipsis)
      else summary_from joined true args
  end.
Definition truncate_argv_summary (argv : list string) : option string := summary_from EmptyString false (drop 1 argv).

Definition check_builtins (cmd : SimpleCommand) : option (option DetectorHit) :=
  match sc_argv cmd with
  | [] => Some None
  | head :: _ =>
      if one_of EVAL_LIKE_BUILTINS head then
        s ← truncate_argv_summary (sc_argv cmd);
        Some (Some (mk_Hit head ("eval-like builtin (argv tail is inline code: " +:+ s +:+ ")")))
      else if one_of ZSH_DANGEROUS_BUILTINS head then
        Some (Some (mk_Hit head "zsh-module builtin (argv[0] is a shell internal)"))
      else Some None
  end.

(** Interpreters with the flag that takes inline code. *)
Definition INTERPRETER_FLAGS : list (string * string) :=
  [("bash", "-c"); ("sh", "-c"); ("zsh", "-c"); ("ksh", "-c"); ("dash", "-c"); ("fish", "-c"); ("ash", "-c"); ("busybox", "sh");
   ("python", "-c"); ("python2", "-c"); ("python3", "-c"); ("perl", "-e"); ("perl", "-E"); ("ruby", "-e"); ("node", "-e");
   ("node", "--eval"); ("node", "-p"); ("node", "--print"); ("deno", "eval"); ("lua", "-e"); ("luajit", "-e"); ("tcl", "-c");
   ("tclsh", "-c"); ("php", "-r"); ("Rscript", "-e"); ("R", "-e"); ("ghc", "-e"); ("runghc", "-e"); ("stack", "exec");
   ("pwsh", "-Command"); ("pwsh", "-c"); ("powershell", "-Command"); ("powershell", "-c"); ("sed", "-e"); ("awk", "-v");
   ("gawk", "-v"); ("mawk", "-v"); ("env", "-S")].

(** The argument after the first occurrence of a flag that has one. *)
Fixpoint flag_body (flag : string) (args : list string) : option string :=
  match args with
  | tok :: (body :: _) as rest => if String.eqb tok flag then Some body else flag_body flag rest
  | _ => None
  end.
Fixpoint first_flag (head : string) (args : list string) (l : list (string * string)) : option (string * string * string) :=
  match l with
  | [] => None
  | (interpreter, flag) :: l =>
      match (if String.eqb interpreter head then flag_body flag args else None) with
      | Some body => Some (interpreter, flag, body)
      | None => first_flag head args l
      end
  end.
Definition check_flags (cmd : SimpleCommand) : option (option DetectorHit) :=
  match sc_argv cmd with
  | [] => Some None
  | head :: args =>
      match first_flag head args INTERPRETER_FLAGS with
      | None => Some None
      | Some (interpreter, flag, body) =>
          detail ← (if (80 <? String.length body)%nat then s ← slice_to 80 body; Some (s +:+ ellipsis) else Some body);
          Some (Some (mk_Hit (interpreter +:+ " " +:+ flag) detail))
      end
  end.

(** [/proc/self/environ], or [/proc/<pid>/...] with [/environ] in it. *)
Definition proc_pid_environ (arg : string) : bool :=
  match strip_prefix "/proc/" arg with
  | Some after_proc =>
      str_contains_str "/environ" arg
      && match split_once 47 after_proc with
         | Some (pid, _) => negb (is_empty pid) && str_forall is_ascii_digit pid
         | None => false
         end
  | None => false
  end.
Fixpoint check_proc_environ (argv : list string) : option DetectorHit :=
  match argv with
  | [] => None
  | arg :: argv =>
      if str_contains_str "/proc/self/environ" arg then Some (mk_Hit "proc-self-environ" arg)
      else if proc_pid_environ arg then Some (mk_Hit "proc-pid-environ" arg)
      else check_proc_environ argv
  end.

(** The characters that are not white space. *)
Fixpoint without_whitespace (s : string) : string :=
  match s with
  | EmptyString => EmptyString
  | String a s1 =>
      if ws1 a then without_whitespace s1
      else match s1 with
      | EmptyString => String a EmptyString
      | String b s2 =>
          if ws2 a b then without_whitespace s2
          else match s2 with
          | EmptyString => String a (without_whitespace s1)
          | String c s3 => if ws3 a b c then without_whitespace s3 else String a (without_whitespace s1)
          end
      end
  end.
Definition check_jq_system (argv : list string) : option DetectorHit :=
  match argv with
  | head :: args =>
      if String.eqb head "jq" then
        mk_Hit "jq-system" <$> List.find (λ arg, str_contains_str "system(" (without_whitespace arg)) args
      else None
  | [] => None
  end.

Definition BLOCK_DEV_PREFIXES : list string := ["sd"; "hd"; "vd"; "nvme"; "mmcblk"].
Definition of_blockdev (arg : string) : bool :=
  match strip_prefix "of=/dev/" arg with
  | Some dev =>
      let path_head := default dev (head (str_split 47 dev)) in
      existsb (λ prefix,
        match strip_prefix prefix path_head with
        | Some (String c _) => is_ascii_alphanumeric (byte_val c)
        | _ => false
        end) BLOCK_DEV_PREFIXES
  | None => false
  end.
Definition check_dd_of_blockdev (argv : list string) : option DetectorHit :=
  match argv with
  | head :: args => if String.eqb head "dd" then mk_Hit "dd-of-blockdev" <$> List.find of_blockdev args else None
  | [] => None
  end.

Definition check_patterns (cmd : SimpleCommand) : option DetectorHit :=
  let argv := sc_argv cmd in
  match check_proc_environ argv with
  | Some h => Some h
  | None => match check_jq_system argv with Some h => Some h | None => check_dd_of_blockdev argv end
  end.

Definition check_security (cmd : SimpleCommand) : option (option (SecurityCategory * DetectorHit)) :=
  b ← check_builtins cmd;
  match b with
  | Some h => Some (Some (CatBuiltin, h))
  | None =>
      f ← check_flags cmd;
      match f with
      | Some h => Some (Some (CatFlag, h))
      | None => Some (pair CatPattern <$> check_patterns cmd)
      end
  end.

Definition security_evaluate (commands : list SimpleCommand) : option SecurityVerdict :=
  hit ← first_hit check_security 0 commands;
  Some match hit with
       | Some (i, (category, h)) => SecurityReject (mk_Violation category (dh_name h) i (dh_detail h))
       | None => SecurityOk
       end.

(** ** Permissions *)

Inductive MatchMode := MatchPrefix | MatchExact.
Record Rule := mk_Rule { ru_argv0_prefix : string; ru_match_mode : MatchMode; ru_allowed_flags : option (list string) }.
Record RuleSet := mk_RuleSet { rs_allow : list Rule; rs_deny : list Rule }.

Inductive PermissionRejection :=
| DeniedByRule (matched_prefix : string)
| NotAllowed
| FlagNotAllowed (matched_prefix offending_flag : string).
Inductive PermissionVerdict := PermAllowed | PermRejected (argv_index : nat) (reason : PermissionRejection).

(** Both modes compare the whole word. *)
Definition head_matches (r : Rule) (cmd : SimpleCommand) : bool :=
  match sc_argv cmd with
  | [] => false
  | head :: _ =>
      match ru_match_mode r with MatchExact | MatchPrefix => String.eqb head (ru_argv0_prefix r) end
  end.
Definition starts_with_dash (arg : string) : bool := String.prefix "-" arg.
(** A flag the rule does not list. *)
Definition flag_outside (r : Rule) (arg : string) : bool :=
  starts_with_dash arg && match ru_allowed_flags r with Some fs => negb (one_of fs arg) | None => false end.
Definition rule_matches (r : Rule) (cmd : SimpleCommand) : bool :=
  head_matches r cmd && negb (existsb (flag_outside r) (drop 1 (sc_argv cmd))).

Definition check_permission (rules : RuleSet) (cmd : SimpleCommand) : option PermissionRejection :=
  match List.find (λ d, rule_matches d cmd) (rs_deny rules) with
  | Some d => Some (DeniedByRule (ru_argv0_prefix d))
  | None =>
      if existsb (λ a, rule_matches a cmd) (rs_allow rules) then None
      else match List.find (λ a, head_matches a cmd) (rs_allow rules) with
      | Some rule =>
          Some (FlagNotAllowed (ru_argv0_prefix rule)
                 (default EmptyString (List.find (flag_outside rule) (drop 1 (sc_argv cmd)))))
      | None => Some NotAllowed
      end
  end.

Definition permissions_evaluate (commands : list SimpleCommand) (rules : RuleSet) : PermissionVerdict :=
  match first_hit (λ c, Some (check_permission rules c)) 0 commands with
  | Some (Some (i, reason)) => PermRejected i reason
  | _ => PermAllowed
  end.

(** ** Paths *)

(** [Path::components] on Unix. *)
Inductive Component := RootDir | CurDir | ParentDir | Normal (name : string).
#[global] Instance Component_eq_dec : EqDecision Component.
Proof. solve_decision. Defined.

Definition is_absolute (path : string) : bool := match path with String a _ => byte_is 47 a | EmptyString => false end.
(** A segment; a [.] counts only at the start of a relative path. *)
Definition segment_component (seg : string) : option Component :=
  if is_empty seg || String.eqb seg "." then None
  else Some (if String.eqb seg ".." then ParentDir else Normal seg).
Definition components (path : string) : list Component :=
  let segments := str_split 47 path in
  let rest := omap segment_component segments in
  if is_absolute path then RootDir :: rest
  else match segments with "." :: _ => CurDir :: rest | _ => rest end.

(** [PathBuf::push] of a text, and [Path::join]. *)
Definition path_push (buf path : string) : string :=
  if is_absolute path then path
  else if is_empty buf || ends_with 47 buf then buf +:+ path
  else buf +:+ "/" +:+ path.
Definition component_text (c : Component) : string :=
  match c with RootDir => "/" | CurDir => "." | ParentDir => ".." | Normal s => s end.

(** [out] is the stack, its top first. *)
Definition fold_component (out : list Component) (c : Component) : list Component :=
  match c with
  | CurDir => out
  | ParentDir =>
      match out with
      | [] => [ParentDir]
      | RootDir :: _ => out
      | ParentDir :: _ => ParentDir :: out
      | _ :: out => out
      end
  | _ => c :: out
  end.
Definition fold_dot_dots (p : string) : result string string :=
  let out := reverse (foldl fold_component [] (components p)) in
  let buf := foldl (λ buf c, path_push buf (component_text c)) EmptyString out in
  if is_empty buf then Err "normalized redirect target is empty" else Ok buf.

Definition normalise_target (target cwd : string) : result string string :=
  fold_dot_dots (if is_absolute target then target else path_push cwd target).

(** [Path::starts_with]. *)
Definition path_starts_with_components (target root : string) : bool :=
  bool_decide (components root `prefix_of` components target).
Definition is_under_any_root (target : string) (roots : list string) : bool :=
  existsb (path_starts_with_components target) roots.

Record Constraints := mk_Constraints { cn_write_allowed_roots : list string; cn_cwd : string }.
Inductive PathVerdict :=
| PathOk
| PathRejected (argv_index : nat) (target op : string)
| PathInvalidTarget (argv_index : nat) (target op reason : string).

Definition WRITE_OPS : list string := [">"; ">>"; ">|"; "&>"; "&>>"].
Definition is_write_op (op : string) : bool := one_of WRITE_OPS op.

(** What is wrong with a redirect: its target outside, or why it is none. *)
Definition check_redirect (c : Constraints) (r : Redirect) : option (string * option string * string) :=
  if is_write_op (rd_op r) then
    match normalise_target (rd_target r) (cn_cwd c) with
    | Err reason => Some (rd_target r, Some reason, rd_op r)
    | Ok target_abs =>
        if is_under_any_root target_abs (cn_write_allowed_roots c) then None else Some (target_abs, None, rd_op r)
    end
  else None.
Fixpoint first_some {A B} (f : A → option B) (l : list A) : option B :=
  match l with
  | [] => None
  | a :: l => match f a with Some b => Some b | None => first_some f l end
  end.
Definition paths_evaluate (commands : list SimpleCommand) (c : Constraints) : PathVerdict :=
  match first_hit (λ cmd, Some (first_some (check_redirect c) (sc_redirects cmd))) 0 commands with
  | Some (Some (i, (target, None, op))) => PathRejected i target op
  | Some (Some (i, (target, Some reason, op))) => PathInvalidTarget i target op reason
  | _ => PathOk
  end.

(** ** Read-only commands *)

Definition READ_ONLY_BUILTINS : list string :=
  ["ls"; "ll"; "la"; "cat"; "tac"; "zcat"; "bzcat"; "xzcat"; "zstdcat"; "head"; "tail"; "less"; "more"; "grep"; "egrep"; "fgrep";
   "rg"; "ripgrep"; "ack"; "ag"; "wc"; "du"; "df"; "stat"; "file"; "tr"; "cut"; "sort"; "uniq"; "rev"; "fold"; "expand";
   "unexpand"; "comm"; "diff"; "cmp"; "join"; "paste"; "od"; "xxd"; "hexdump"; "strings"; "base64"; "uuencode"; "uudecode";
   "md5sum"; "sha1sum"; "sha256sum"; "sha512sum"; "cksum"; "shasum"; "b2sum"; "tar"; "zip"; "unzip"; "ps"; "top"; "htop"; "free";
   "uptime"; "uname"; "id"; "whoami"; "pwd"; "hostname"; "date"; "find"; "locate"; "which"; "type"; "command"; "printf"; "echo";
   "yes"; "true"; "false"; "test"; "jq"; "yq"; "sed"; "awk"; "gawk"; "mawk"; "git"].
Definition GIT_READ_ONLY_SUBCOMMANDS : list string :=
  ["status"; "log"; "diff"; "show"; "blame"; "branch"; "rev-parse"; "ls-files"; "ls-tree"; "describe"; "config"; "stash";
   "worktree"; "remote"; "tag"; "shortlog"; "reflog"].
Definition GIT_CONFIG_WRITE_FLAGS : list string :=
  ["--add"; "--unset"; "--unset-all"; "--replace-all"; "--rename-section"; "--remove-section"; "--edit"].
Definition FIND_WRITE_FLAGS : list string :=
  ["-delete"; "-exec"; "-execdir"; "-ok"; "-okdir"; "-fprint"; "-fprintf"; "-fls"; "-fprint0"].
Definition is_in_place_edit_flag (arg : string) : bool :=
  String.eqb arg "-i" || String.prefix "-i." arg || String.eqb arg "--in-place".
(** A flag of tar that writes: whole, or a letter of combined short flags. *)
Definition is_tar_write_flag (arg : string) : bool :=
  one_of ["-c"; "--create"; "-x"; "--extract"; "-u"; "--update"] arg
  || (starts_with_dash arg && (1 <? String.length arg)%nat && negb (String.prefix "--" arg)
      && (str_contains 99 arg || str_contains 120 arg || str_contains 117 arg)).

Inductive ReadOnlyRejection :=
| UnknownCommand (argv0 : string)
| GitNotReadOnly (subcommand : string)
| WriteFlag (argv0 flag : string)
| WriteRedirect (op target : string).
Inductive ReadOnlyVerdict := ReadOnlyOk | ReadOnlyRejected (argv_index : nat) (reason : ReadOnlyRejection).

(** The flags of a command that write. *)
Definition write_flag (head : string) (args : list string) : option string :=
  if String.eqb head "git" then
    if bool_decide (args !! 0%nat = Some "config") then List.find (one_of GIT_CONFIG_WRITE_FLAGS) (drop 1 args) else None
  else if String.eqb head "find" then List.find (one_of FIND_WRITE_FLAGS) args
  else if one_of ["awk"; "gawk"; "mawk"; "sed"] head then List.find is_in_place_edit_flag args
  else if String.eqb head "tar" then List.find is_tar_write_flag args
  else None.

Definition check_readonly (cmd : SimpleCommand) : option ReadOnlyRejection :=
  match List.find (λ r, is_write_op (rd_op r)) (sc_redirects cmd) with
  | Some r => Some (WriteRedirect (rd_op r) (rd_target r))
  | None =>
      match sc_argv cmd with
      | [] => Some (UnknownCommand EmptyString)
      | head :: args =>
          let sub := default EmptyString (args !! 0%nat) in
          if negb (one_of READ_ONLY_BUILTINS head) then Some (UnknownCommand head)
          else if String.eqb head "git" && negb (one_of GIT_READ_ONLY_SUBCOMMANDS sub) then Some (GitNotReadOnly sub)
          else WriteFlag head <$> write_flag head args
      end
  end.

Definition readonly_evaluate (commands : list SimpleCommand) : ReadOnlyVerdict :=
  match first_hit (λ c, Some (check_readonly c)) 0 commands with
  | Some (Some (i, reason)) => ReadOnlyRejected i reason
  | _ => ReadOnlyOk
  end.
Definition readonly_evaluate_or_skip (commands : list SimpleCommand) (enabled : bool) : ReadOnlyVerdict :=
  if enabled then readonly_evaluate commands else ReadOnlyOk.

(** ** Destructive commands *)

Definition DESTRUCTIVE : list string :=
  ["rm"; "rmdir"; "shred"; "srm"; "trash"; "dd"; "cfdisk"; "fdisk"; "gdisk"; "parted"; "sfdisk"].
Definition DESTRUCTIVE_PREFIXES : list string := ["mkfs"; "wipefs"].

(** What follows the last [/] or [\]. *)
Fixpoint after_last_separator (s : string) : option string :=
  match s with
  | EmptyString => None
  | String a s =>
      match after_last_separator s with
      | Some t => Some t
      | None => if byte_is 47 a || byte_is 92 a then Some s else None
      end
  end.
Definition basename (command : string) : option string :=
  let trimmed := trim command in
  if is_empty trimmed then Some EmptyString
  else
    let raw := default trimmed (after_last_separator trimmed) in
    if (4 <? String.length raw)%nat then
      tail ← get_from (String.length raw - 4) raw;
      Some (if eq_ignore_ascii_case tail ".exe" then str_take (String.length raw - 4) raw else raw)
    else Some raw.

Definition in_family (base prefix : string) : bool :=
  String.eqb base prefix
  || match strip_prefix prefix base with Some (String a _) => byte_is 46 a | _ => false end.
Definition is_destructive (command : string) : option bool :=
  base ← basename command;
  Some (if is_empty base then false else one_of DESTRUCTIVE base || existsb (in_family base) DESTRUCTIVE_PREFIXES).
