(* ===== verification/ShellRun.v ===== *)
(** * shell.run and process.exec (src/src/daemon/ability/builtins/device_control)

    The handlers of the two abilities that start processes: the arguments, the
    pipeline of stages (shell.rs), the runner with its caps and environment
    (support/shellguard/runner.rs) and the answers.  The operating system is an
    interface: what comes of a process that is started. *)

From stdpp Require Import pretty.
From Stdlib Require Import String Ascii.
From S2P Require Import Prelude RustStd Text Ura Json World Programs ShellAst ShellStages.
From S2P Require Retry DeviceCaller.

Open Scope Z_scope.

(** ** The runner *)

Definition OUTPUT_DEFAULT_CAP : Z := 1024 * 1024.
Definition OUTPUT_HARD_CAP : Z := 100 * 1024 * 1024.
Definition TIMEOUT_DEFAULT_MS : Z := 30000.
Definition TIMEOUT_HARD_CAP_MS : Z := 60 * 60 * 1000.

Inductive Sandbox := SandboxNone | SandboxBest.
#[global] Instance Sandbox_eq_dec : EqDecision Sandbox.
Proof. solve_decision. Defined.

Record RunRequest := mk_RunRequest {
  rq_program : string;
  rq_args : list string;
  rq_cwd : option string;
  rq_env : option (gmap string string);
  rq_stdin : option string;
  rq_output_max_bytes : option Z;
  rq_timeout_ms : option Z;
  rq_sandbox : Sandbox;
}.
Record RunOutcome := mk_RunOutcome {
  ro_exit_code : Z;
  ro_stdout : string;
  ro_stderr : string;
  ro_timed_out : bool;
  ro_duration_ms : Z;
  ro_output_truncated : bool;
  ro_last_line_truncated : bool;
  ro_sandbox_applied : bool;
}.
Inductive RunError :=
| OutputCapTooLarge (requested hard : Z)
| TimeoutTooLarge (requested hard : Z)
| SandboxUnavailable
| SpawnFailed (e : string)
| RunIo (e : string).

Definition u64_display (z : Z) : string := pretty z.
Definition run_error_display (e : RunError) : string :=
  match e with
  | OutputCapTooLarge requested hard => "output_max_bytes " +:+ u64_display requested +:+ " exceeds hard cap " +:+ u64_display hard
  | TimeoutTooLarge requested hard => "timeout_ms " +:+ u64_display requested +:+ " exceeds hard cap " +:+ u64_display hard
  | SandboxUnavailable => "sandbox=Best requested but no platform sandbox is wired in this build (v1 limitation)"
  | SpawnFailed e => "spawn failed: " +:+ e
  | RunIo e => "internal IO error: " +:+ e
  end.

(** The environment of the child: the receiver's or the caller's, and defaults
    for what is missing. *)
Definition DEFAULTS : gmap string string := {["GIT_EDITOR" := "true"; "PAGER" := "cat"; "LESS" := "-FRX"]}.
Definition apply_env (receiver : gmap string string) (env : option (gmap string string)) : gmap string string :=
  match env with None => receiver ∪ DEFAULTS | Some m => m ∪ DEFAULTS end.

(** [read_capped]: what the reads of a pipe give, an error or the end of the
    file ends it. *)
Fixpoint read_capped (buf : string) (cap : nat) (reads : list (result string string)) : string :=
  if (cap <=? String.length buf)%nat then buf
  else match reads with
  | Ok chunk :: reads =>
      if is_empty chunk then buf
      else
        let room := (cap - String.length buf)%nat in
        let buf := buf +:+ str_take room chunk in
        if (room <? String.length chunk)%nat then buf else read_capped buf cap reads
  | _ => buf
  end.
Definition ends_with_newline (bytes : string) : bool := ends_with 10 bytes.

(** What comes of a process: it ends in time, with the reads of its pipes and its
    status; or its time is up and it is killed, after the readers have read some of its
    pipes, with the reads of what is left then, unless that takes too long. *)
Record Waited := mk_Waited {
  wt_stdout : list (result string string);
  wt_stderr : list (result string string);
  wt_status : result string (option Z);
}.
Inductive ProcessEnd := InTime (w : Waited) | Killed (out err : list (result string string)) (drained : option Waited).
Record Launch := mk_Launch {
  la_program : string;
  la_args : list string;
  la_cwd : option string;
  la_env : gmap string string;
  la_stdin : option string;
  la_timeout_ms : Z;
}.
Class Os := {
  receiver_env : gmap string string;
  launch : Launch → result string (ProcessEnd * Z);
  path_exists : string → bool;
}.

Section runner.
Context `{!Os}.

(** The streams and status, and whether the time was up.  The buffers of the readers are
    part of the future that the timeout drops: what they hold then is lost. *)
Definition collect_output (cap : nat) (p : ProcessEnd) : string * string * result string (option Z) * bool :=
  let drain w := (read_capped EmptyString cap (wt_stdout w), read_capped EmptyString cap (wt_stderr w), wt_status w) in
  match p with
  | InTime w => (drain w, false)
  | Killed _ _ (Some w) => (drain w, true)
  | Killed _ _ None => (EmptyString, EmptyString, Ok (Some 0), true)
  end.

Definition runner_run (req : RunRequest) : result RunError RunOutcome :=
  let output_cap := default OUTPUT_DEFAULT_CAP (rq_output_max_bytes req) in
  let timeout_ms := default TIMEOUT_DEFAULT_MS (rq_timeout_ms req) in
  if OUTPUT_HARD_CAP <? output_cap then Err (OutputCapTooLarge output_cap OUTPUT_HARD_CAP)
  else if TIMEOUT_HARD_CAP_MS <? timeout_ms then Err (TimeoutTooLarge timeout_ms TIMEOUT_HARD_CAP_MS)
  else if bool_decide (rq_sandbox req = SandboxBest) then Err SandboxUnavailable
  else
    '(ended, duration_ms) ← map_err SpawnFailed (launch (mk_Launch (rq_program req) (rq_args req) (rq_cwd req)
        (apply_env receiver_env (rq_env req)) (rq_stdin req) timeout_ms));
    let cap := Z.to_nat output_cap in
    let '(stdout, stderr, status, timed_out) := collect_output cap ended in
    code ← map_err RunIo status;
    let full s := (cap <=? String.length s)%nat in
    let torn s := full s && negb (ends_with_newline s) in
    Ok (mk_RunOutcome (default (-1) code) stdout stderr timed_out duration_ms (full stdout || full stderr)
          (torn stdout || torn stderr) false).
End runner.

Section hashes.
Context `{!Sha256}.
(** Each argument with its length before it. *)
Definition argv_sha256 (argv : list string) : string :=
  Retry.hex_encode (sha256 (foldr (λ arg rest, DeviceCaller.framed arg +:+ rest) EmptyString argv)).
Definition command_sha256 (command : string) : string := Retry.hex_encode (sha256 command).
End hashes.

(** ** Arguments *)

Class Base64 := { base64_std_decode : string → result string string; base64_std_encode : string → string }.

Section arguments.
Context `{!UraLib, !Base64}.

(** [ability] is shell.run or process.exec. *)
Definition arg_error {A} (ability m : string) : result error A := bail (ability +:+ ": " +:+ m).
Definition require_string (ability : string) (args : Value) (field : string) : result error string :=
  ok_or (value_get field args ≫= as_str) [ability +:+ ": missing required string field `" +:+ field +:+ "`"].
Definition opt_str (args : Value) (field : string) : option string := value_get field args ≫= as_str.
Definition opt_bool (args : Value) (field : string) : bool := default false (value_get field args ≫= as_bool).
Definition index_display (i : nat) : string := pretty i.

(** The strings of an array, in the order of their indices. *)
Fixpoint strings_from (what : nat → string) (i : nat) (items : list Value) : result error (list string) :=
  match items with
  | [] => Ok []
  | v :: items =>
      s ← ok_or (as_str v) [what i +:+ " must be a string"];
      rest ← strings_from what (S i) items;
      Ok (s :: rest)
  end.

Fixpoint env_entries (ability : string) (m : list (string * Value)) : result error (gmap string string) :=
  match m with
  | [] => Ok ∅
  | (k, v) :: m =>
      s ← ok_or (as_str v) [ability +:+ ": env[" +:+ k +:+ "] must be a string value"];
      rest ← env_entries ability m;
      Ok (<[k := s]> rest)
  end.
Definition parse_env (ability : string) (args : Value) : result error (option (gmap string string)) :=
  match value_get "env" args with
  | Some (VObject m) => out ← env_entries ability m; Ok (Some out)
  | Some VNull | None => Ok None
  | Some _ => arg_error ability "env must be an object"
  end.

Fixpoint stdin_bytes (ability : string) (i : nat) (items : list Value) : result error string :=
  match items with
  | [] => Ok EmptyString
  | v :: items =>
      let at_ := ability +:+ ": stdin[" +:+ index_display i +:+ "]" in
      n ← ok_or (as_u64 v) [at_ +:+ " must be an integer in 0..256"];
      _ ← ensure (n <=? 255) [at_ +:+ " = " +:+ u64_display n +:+ " out of range"];
      rest ← stdin_bytes ability (S i) items;
      Ok (String (ascii_of_N (Z.to_N n)) rest)
  end.
(** The two abilities word two of the errors differently. *)
Definition decode_stdin (ability expected forms : string) (args : Value) : result error (option string) :=
  match value_get "stdin" args with
  | None | Some VNull => Ok None
  | Some (VString s) =>
      let encoding := default "base64" (opt_str args "stdin_encoding") in
      if String.eqb encoding "base64" then
        bytes ← map_err (λ e, [ability +:+ ": invalid stdin base64: " +:+ e]) (base64_std_decode s); Ok (Some bytes)
      else if String.eqb encoding "utf8" then Ok (Some s)
      else arg_error ability ("stdin_encoding " +:+ debug_str encoding +:+ " unknown; expected " +:+ expected)
  | Some (VArray items) => bytes ← stdin_bytes ability 0 items; Ok (Some bytes)
  | Some _ => arg_error ability ("stdin must be " +:+ forms)
  end.

(** The caps on time and output. *)
Definition parse_cap (ability field : string) (default_ hard : Z) (args : Value) : result error Z :=
  let n := default default_ (value_get field args ≫= as_u64) in
  _ ← ensure (n <=? hard)
        [ability +:+ ": " +:+ field +:+ " " +:+ u64_display n +:+ " exceeds hard cap " +:+ u64_display hard];
  Ok n.
Definition parse_sandbox (args : Value) : Sandbox := if opt_bool args "sandbox" then SandboxBest else SandboxNone.
End arguments.

(** ** shell.run *)

Record ShellRunRequest := mk_ShellRun {
  sr_command : string;
  sr_cwd : option string;
  sr_env : option (gmap string string);
  sr_timeout_ms : Z;
  sr_stdin : option string;
  sr_output_max_bytes : Z;
  sr_sandbox : Sandbox;
  sr_destructive_acknowledged : bool;
  sr_permission_rules : option RuleSet;
  sr_write_allowed_roots : option (list string);
  sr_read_only_only : bool;
}.

Inductive PipelineRejection :=
| RejParse (reason : string) (node_type : option string)
| RejSecurity (violation : SecurityViolation)
| RejPermission (argv_index : nat) (reason : PermissionRejection)
| RejPath (argv_index : nat) (target op : string)
| RejReadOnly (argv_index : nat) (reason : ReadOnlyRejection)
| RejDestructive (argv_index : nat) (argv0 : string).

Definition BASH_PATHS : list string := ["/bin/bash"; "/usr/bin/bash"; "/usr/local/bin/bash"].
Definition PROFILE_VERSION : string := "baseline-locomotion-v1".

Section shell.
Context `{!UraLib, !Base64, !Sha256, !TreeSitter, !Os}.

Definition shell : string := "shell.run".

Definition parse_rule (field : string) (i : nat) (v : Value) : result error Rule :=
  let at_ := field +:+ "[" +:+ index_display i +:+ "]" in
  obj ← ok_or (as_object v) [shell +:+ ": " +:+ at_ +:+ " must be an object"];
  argv0_prefix ← ok_or (assoc "argv0" obj ≫= as_str) [shell +:+ ": " +:+ at_ +:+ ".argv0 missing"];
  let mode := default "exact" (assoc "match" obj ≫= as_str) in
  match_mode ← (if String.eqb mode "exact" then Ok MatchExact
                else if String.eqb mode "prefix" then Ok MatchPrefix
                else arg_error shell (at_ +:+ ".match " +:+ debug_str mode +:+ " unknown; expected exact|prefix"));
  allowed_flags ← (match assoc "flags" obj with
                   | Some (VArray items) =>
                       flags ← strings_from (λ j, shell +:+ ": " +:+ at_ +:+ ".flags[" +:+ index_display j +:+ "]") 0 items;
                       Ok (Some flags)
                   | Some VNull | None => Ok None
                   | Some _ => arg_error shell (at_ +:+ ".flags must be an array of strings")
                   end);
  Ok (mk_Rule argv0_prefix match_mode allowed_flags).
Fixpoint parse_rule_array (field : string) (i : nat) (arr : list Value) : result error (list Rule) :=
  match arr with
  | [] => Ok []
  | v :: arr => r ← parse_rule field i v; rest ← parse_rule_array field (S i) arr; Ok (r :: rest)
  end.
Definition opt_rules (field : string) (args : Value) : result error (option (list Rule)) :=
  match value_get field args with
  | Some (VArray arr) => rules ← parse_rule_array field 0 arr; Ok (Some rules)
  | _ => Ok None
  end.
Definition parse_permission_rules (args : Value) : result error (option RuleSet) :=
  allow ← opt_rules "allow_rules" args;
  deny ← opt_rules "deny_rules" args;
  Ok match allow, deny with
     | None, None => None
     | _, _ => Some (mk_RuleSet (default [] allow) (default [] deny))
     end.

Definition parse_write_roots (args : Value) : result error (option (list string)) :=
  match value_get "write_allowed_roots" args with
  | Some (VArray items) =>
      roots ← strings_from (λ i, shell +:+ ": write_allowed_roots[" +:+ index_display i +:+ "]") 0 items; Ok (Some roots)
  | Some VNull | None => Ok None
  | Some _ => arg_error shell "write_allowed_roots must be an array of strings"
  end.

Definition parse_shell_request (args : Value) : result error ShellRunRequest :=
  raw ← require_string shell args "command";
  let command := trim raw in
  _ ← ensure (negb (is_empty command)) [shell +:+ ": command must not be empty"];
  env ← parse_env shell args;
  timeout_ms ← parse_cap shell "timeout_ms" TIMEOUT_DEFAULT_MS TIMEOUT_HARD_CAP_MS args;
  stdin ← decode_stdin shell "base64|utf8" "a string, an array of bytes, or null" args;
  output_max_bytes ← parse_cap shell "output_max_bytes" OUTPUT_DEFAULT_CAP OUTPUT_HARD_CAP args;
  permission_rules ← parse_permission_rules args;
  write_allowed_roots ← parse_write_roots args;
  Ok (mk_ShellRun command (opt_str args "cwd") env timeout_ms stdin output_max_bytes (parse_sandbox args)
        (opt_bool args "destructive_acknowledged") permission_rules write_allowed_roots (opt_bool args "read_only_only")).

(** A command that is destructive. *)
Definition check_destructive (cmd : SimpleCommand) : option (option string) :=
  match sc_argv cmd with
  | [] => Some None
  | argv0 :: _ => d ← is_destructive argv0; Some (if d : bool then Some argv0 else None)
  end.

(** The stages that judge the commands; [None] is a panic of one of them. *)
Definition judge_commands (req : ShellRunRequest) (commands : list SimpleCommand)
    : option (result PipelineRejection (list SimpleCommand)) :=
  verdict ← security_evaluate commands;
  match verdict with
  | SecurityReject violation => Some (Err (RejSecurity violation))
  | SecurityOk =>
  match (match sr_permission_rules req with Some rules => permissions_evaluate commands rules | None => PermAllowed end) with
  | PermRejected i reason => Some (Err (RejPermission i reason))
  | PermAllowed =>
  match (match sr_write_allowed_roots req with
         | Some roots => paths_evaluate commands (mk_Constraints roots (default "/" (sr_cwd req)))
         | None => PathOk
         end) with
  | PathRejected i target op => Some (Err (RejPath i target op))
  | PathInvalidTarget i target op reason => Some (Err (RejPath i (target +:+ " (" +:+ reason +:+ ")") op))
  | PathOk =>
  match readonly_evaluate_or_skip commands (sr_read_only_only req) with
  | ReadOnlyRejected i reason => Some (Err (RejReadOnly i reason))
  | ReadOnlyOk =>
      if sr_destructive_acknowledged req then Some (Ok commands)
      else
        hit ← first_hit check_destructive 0 commands;
        Some match hit with Some (i, argv0) => Err (RejDestructive i argv0) | None => Ok commands end
  end end end end.

Definition run_pipeline (req : ShellRunRequest) : option (result PipelineRejection (list SimpleCommand)) :=
  match parse_for_security (sr_command req) with
  | TooComplex reason node_type => Some (Err (RejParse reason node_type))
  | ParseUnavailable => Some (Err (RejParse "tree-sitter-bash unavailable" None))
  | Simple [] => Some (Ok [])
  | Simple commands => judge_commands req commands
  end.

Definition locate_bash : option string := List.find path_exists BASH_PATHS.
Definition execute_shell (req : ShellRunRequest) : result RunError RunOutcome :=
  bash ← ok_or locate_bash (RunIo "bash binary not found in any of /bin /usr/bin /usr/local/bin");
  runner_run (mk_RunRequest bash ["-c"; sr_command req] (sr_cwd req) (sr_env req) (sr_stdin req)
    (Some (sr_output_max_bytes req)) (Some (sr_timeout_ms req)) (sr_sandbox req)).

Definition run_error_code (e : RunError) : string :=
  match e with
  | OutputCapTooLarge _ _ => "OUTPUT_CAP_TOO_LARGE"
  | TimeoutTooLarge _ _ => "TIMEOUT_TOO_LARGE"
  | SandboxUnavailable => "SANDBOX_UNAVAILABLE"
  | SpawnFailed _ => "SPAWN_FAILED"
  | RunIo _ => "RUNNER_IO_ERROR"
  end.
Definition usize_value (n : nat) : Value := VInt (Z.of_nat n).
Definition env_keys (env : option (gmap string string)) : Value :=
  VArray (VString <$> sort_dedup (map_to_list (default ∅ env)).*1).
(** What both abilities answer of a process. *)
Definition outcome_fields (o : RunOutcome) : list (string * Value) :=
  [("ok", VBool true); ("exit_code", VInt (ro_exit_code o)); ("stdout", VString (base64_std_encode (ro_stdout o)));
   ("stderr", VString (base64_std_encode (ro_stderr o))); ("stdout_bytes", usize_value (String.length (ro_stdout o)));
   ("stderr_bytes", usize_value (String.length (ro_stderr o))); ("timed_out", VBool (ro_timed_out o));
   ("duration_ms", VInt (ro_duration_ms o)); ("output_truncated", VBool (ro_output_truncated o));
   ("last_line_truncated", VBool (ro_last_line_truncated o)); ("sandbox_applied", VBool (ro_sandbox_applied o))].

Definition shell_response (req : ShellRunRequest) (commands : list SimpleCommand) (outcome : result RunError RunOutcome) : Value :=
  let count := ("extracted_commands_count", usize_value (length commands)) in
  let sha := ("command_sha256", VString (command_sha256 (sr_command req))) in
  let tail := [("destructive_acknowledged", VBool (sr_destructive_acknowledged req));
               ("ability_profile_version", VString PROFILE_VERSION)] in
  match outcome with
  | Err e =>
      VObject ([("ok", VBool false); ("code", VString (run_error_code e)); ("error", VString (run_error_display e)); sha; count] ++ tail)
  | Ok o =>
      VObject (outcome_fields o ++ [sha; count; ("cwd", VString (default EmptyString (sr_cwd req)));
                                    ("env_keys", env_keys (sr_env req))] ++ tail)
  end.

Definition category_display (c : SecurityCategory) : string :=
  match c with CatBuiltin => "builtin" | CatFlag => "flag" | CatPattern => "pattern" end.
Definition permission_value (r : PermissionRejection) : string * Value :=
  match r with
  | DeniedByRule p => ("DeniedByRule", VObject [("matched_prefix", VString p)])
  | NotAllowed => ("NotAllowed", VObject [])
  | FlagNotAllowed p f => ("FlagNotAllowed", VObject [("matched_prefix", VString p); ("offending_flag", VString f)])
  end.
Definition readonly_value (r : ReadOnlyRejection) : string * Value :=
  match r with
  | UnknownCommand argv0 => ("UnknownCommand", VObject [("argv0", VString argv0)])
  | GitNotReadOnly sub => ("GitNotReadOnly", VObject [("subcommand", VString sub)])
  | WriteFlag argv0 flag => ("WriteFlag", VObject [("argv0", VString argv0); ("flag", VString flag)])
  | WriteRedirect op target => ("WriteRedirect", VObject [("op", VString op); ("target", VString target)])
  end.
(** Stage, code and detail of a rejection. *)
Definition rejection_parts (r : PipelineRejection) : string * string * Value :=
  let index i := ("argv_index", usize_value i) in
  match r with
  | RejParse reason node_type =>
      ("ast", "AST_REJECTED",
       VObject [("reason", VString reason); ("node_type", match node_type with Some t => VString t | None => VNull end)])
  | RejSecurity v =>
      ("security", "SECURITY_REJECTED",
       VObject [("category", VString (category_display (sv_category v))); ("name", VString (sv_name v));
                index (sv_argv_index v); ("detail", VString (sv_detail v))])
  | RejPermission i reason =>
      let '(kind, payload) := permission_value reason in
      ("permissions", "PERMISSION_REJECTED", VObject [index i; ("kind", VString kind); ("payload", payload)])
  | RejPath i target op =>
      ("pathconstraints", "PATH_REJECTED", VObject [index i; ("target", VString target); ("op", VString op)])
  | RejReadOnly i reason =>
      let '(kind, payload) := readonly_value reason in
      ("readonly", "READONLY_REJECTED", VObject [index i; ("kind", VString kind); ("payload", payload)])
  | RejDestructive i argv0 =>
      ("destructive", "DESTRUCTIVE_REJECTED", VObject [index i; ("argv0", VString argv0)])
  end.
Definition rejection_response (req : ShellRunRequest) (r : PipelineRejection) : Value :=
  let '(stage, code, detail) := rejection_parts r in
  VObject [("ok", VBool false); ("code", VString code); ("pipeline_stage", VString stage); ("detail", detail);
           ("command_sha256", VString (command_sha256 (sr_command req)));
           ("destructive_acknowledged", VBool (sr_destructive_acknowledged req));
           ("ability_profile_version", VString PROFILE_VERSION)].

Definition shell_handler (args : Value) : option (result error Value) :=
  match parse_shell_request args with
  | Err e => Some (Err e)
  | Ok req =>
      p ← run_pipeline req;
      Some (Ok match p with
               | Err r => rejection_response req r
               | Ok commands => shell_response req commands (execute_shell req)
               end)
  end.
End shell.

(** ** process.exec *)

Record ExecRequest := mk_Exec {
  ex_command : string;
  ex_argv : list string;
  ex_cwd : option string;
  ex_env : option (gmap string string);
  ex_timeout_ms : Z;
  ex_stdin : option string;
  ex_output_max_bytes : Z;
  ex_sandbox : Sandbox;
  ex_destructive_acknowledged : bool;
}.

Section process.
Context `{!UraLib, !Base64, !Sha256, !Os}.

Definition exec_ability : string := "process.exec".

Definition parse_exec_args (args : Value) : result error (list string) :=
  match value_get "args" args with
  | Some (VArray items) => strings_from (λ i, exec_ability +:+ ": args[" +:+ index_display i +:+ "]") 0 items
  | Some _ => arg_error exec_ability "args must be an array of strings"
  | None => Ok []
  end.

(** Up to the check of the destructive list, which may panic. *)
Definition parse_exec_fields (args : Value) : result error ExecRequest :=
  command ← require_string exec_ability args "command";
  argv ← parse_exec_args args;
  env ← parse_env exec_ability args;
  timeout_ms ← parse_cap exec_ability "timeout_ms" TIMEOUT_DEFAULT_MS TIMEOUT_HARD_CAP_MS args;
  stdin ← decode_stdin exec_ability (debug_str "base64" +:+ " or " +:+ debug_str "utf8")
            "a string (base64/utf8), an array of bytes, or null" args;
  output_max_bytes ← parse_cap exec_ability "output_max_bytes" OUTPUT_DEFAULT_CAP OUTPUT_HARD_CAP args;
  Ok (mk_Exec command argv (opt_str args "cwd") env timeout_ms stdin output_max_bytes (parse_sandbox args)
        (opt_bool args "destructive_acknowledged")).
Definition parse_exec_request (args : Value) : option (result error ExecRequest) :=
  match parse_exec_fields args with
  | Err e => Some (Err e)
  | Ok req =>
      d ← is_destructive (ex_command req);
      Some (if (d : bool) && negb (ex_destructive_acknowledged req) then
              arg_error exec_ability ("command " +:+ debug_str (ex_command req) +:+ " is on the AXIOM Tier 2.5 destructive list; "
                              +:+ "set destructive_acknowledged=true to proceed")
            else Ok req)
  end.

Definition execute_process (req : ExecRequest) : result RunError RunOutcome :=
  runner_run (mk_RunRequest (ex_command req) (ex_argv req) (ex_cwd req) (ex_env req) (ex_stdin req)
    (Some (ex_output_max_bytes req)) (Some (ex_timeout_ms req)) (ex_sandbox req)).

Definition exec_response (req : ExecRequest) (outcome : result RunError RunOutcome) : option Value :=
  base ← basename (ex_command req);
  d ← is_destructive (ex_command req);
  let name := ("command_basename", VString base) in
  let sha := ("argv_sha256", VString (argv_sha256 (ex_argv req))) in
  let tail := [("destructive_detected", VBool d); ("destructive_acknowledged", VBool (ex_destructive_acknowledged req));
               ("ability_profile_version", VString PROFILE_VERSION)] in
  Some match outcome with
       | Err e =>
           VObject ([("ok", VBool false); ("code", VString (run_error_code e)); ("error", VString (run_error_display e)); name; sha]
                    ++ tail)
       | Ok o =>
           VObject (outcome_fields o ++ [name; sha; ("argv_count", usize_value (length (ex_argv req)));
                                         ("cwd", VString (default EmptyString (ex_cwd req))); ("env_keys", env_keys (ex_env req))]
                    ++ tail)
       end.

Definition exec_handler (args : Value) : option (result error Value) :=
  r ← parse_exec_request args;
  match r with
  | Err e => Some (Err e)
  | Ok req => v ← exec_response req (execute_process req); Some (Ok v)
  end.
End process.
