(* ===== verification/ShellProps.v ===== *)
(** * Shell commands: what the guard guarantees

    The normal form of a redirect's target: the names that are left of the
    working directory and the target when every [..] has taken the one before it
    away, without looking at the disk.  Which commands the stages let pass, stated
    without their algorithms; where writes may go; what is a destructive command;
    that panics need characters outside ASCII; and what the runner answers. *)

From Stdlib Require Import String Ascii.
From S2P Require Import Prelude RustStd Text ShellAst ShellStages Ura Json World Programs ShellRun.

Open Scope Z_scope.

(** ** Segments *)

Lemma str_split_cons z s : ∃ seg segs, str_split z s = seg :: segs.
Proof.
  induction s as [|c s (seg & segs & IH)]; cbn; [by eexists _, _|]. destruct (byte_val c =? z); [by eexists _, _|].
  rewrite IH. by eexists _, _.
Qed.

Lemma str_split_app z a c b : byte_val c = z → str_split z (a +:+ String c b) = str_split z a ++ str_split z b.
Proof.
  intros Hc. induction a as [|x a IH].
  - change (EmptyString +:+ String c b) with (String c b). cbn [str_split]. by rewrite Hc, Z.eqb_refl.
  - rewrite str_app_cons. cbn [str_split]. destruct (byte_val x =? z); [by rewrite IH|]. rewrite IH. destruct (str_split_cons z a) as (seg & segs & ->). done.
Qed.

Lemma str_split_plain z s : Forall (λ seg, str_contains z seg = false) (str_split z s).
Proof.
  induction s as [|c s IH]; cbn [str_split]; [by repeat constructor|]. destruct (byte_val c =? z) eqn:Hc; [by constructor|].
  destruct (str_split z s) as [|seg segs]; [by repeat constructor; cbn [str_contains]; rewrite Hc|].
  apply Forall_cons in IH as [Hs IH]. constructor; [|done]. cbn [str_contains]. by rewrite Hc, Hs.
Qed.

(** The name of a directory or file. *)
Definition plain_name (s : string) : Prop := s ≠ EmptyString ∧ s ≠ "." ∧ s ≠ ".." ∧ str_contains 47 s = false.

Lemma plain_component s : plain_name s → segment_component s = Some (Normal s).
Proof.
  intros (He & Hd & Hdd & _). unfold segment_component, is_empty. rewrite bool_decide_false by done. cbn.
  destruct (String.eqb_spec s "."); [done|]. by destruct (String.eqb_spec s "..").
Qed.

(** ** Resolution *)

(** One segment on a stack of names. *)
Definition enter (st : list string) (seg : string) : list string :=
  if is_empty seg || String.eqb seg "." then st else if String.eqb seg ".." then drop 1 st else seg :: st.
(** The names a list of segments leads to from the root. *)
Definition resolve_segments (segs : list string) : list string := reverse (foldl enter [] segs).

Lemma enter_plain st seg : Forall plain_name st → str_contains 47 seg = false → Forall plain_name (enter st seg).
Proof.
  intros Hst Hseg. unfold enter, is_empty. case_bool_decide as He; [done|]. cbn.
  destruct (String.eqb_spec seg "."); [done|]. destruct (String.eqb_spec seg ".."); [by apply Forall_drop|]. by constructor.
Qed.

Lemma resolve_plain segs : Forall (λ seg, str_contains 47 seg = false) segs → Forall plain_name (resolve_segments segs).
Proof.
  intros Hsegs. apply Forall_reverse. assert (Forall plain_name []) as Hnil by constructor. revert Hnil. generalize (@nil string).
  induction Hsegs as [|seg segs Hseg _ IH]; intros st Hst; cbn; [done|]. apply IH. by apply enter_plain.
Qed.

Lemma fold_rooted segs st :
  foldl fold_component ((Normal <$> st) ++ [RootDir]) (omap segment_component segs) = (Normal <$> foldl enter st segs) ++ [RootDir].
Proof.
  revert st. induction segs as [|seg segs IH]; intros st; [done|]. cbn [foldl omap list_omap]. unfold enter at 2, segment_component at 1.
  destruct (is_empty seg || String.eqb seg "."); [apply IH|]. cbn [foldl]. destruct (String.eqb seg "..").
  - rewrite <- IH. destruct st; [done|]. cbn. by rewrite drop_0.
  - rewrite <- IH. done.
Qed.

(** ** The text of a path *)

Lemma is_absolute_push buf p : is_absolute buf = true → is_absolute (path_push buf p) = true.
Proof.
  intros Hb. unfold path_push. destruct (is_absolute p) eqn:Hp; [done|].
  destruct buf as [|c buf]; [done|]. by destruct (is_empty _ || _).
Qed.

Lemma ends_with_split z s : ends_with z s = true → ∃ a c, s = a +:+ String c EmptyString ∧ byte_val c = z.
Proof.
  induction s as [|c [|d s] IH]; [done| |].
  - cbn. intros ?%Z.eqb_eq. by exists EmptyString, c.
  - intros Hs. destruct IH as (a & e & Heq & He); [exact Hs|]. exists (String c a), e. by rewrite Heq.
Qed.

Lemma components_push buf name : is_absolute buf = true → plain_name name →
  components (path_push buf name) = components buf ++ [Normal name].
Proof.
  intros Hb Hn. pose proof (plain_component name Hn) as Hc. destruct Hn as (He & _ & _ & Hs).
  assert (is_absolute name = false) as Hrel.
  { destruct name as [|c name]; [done|]. cbn [str_contains] in Hs. by apply orb_false_iff in Hs as [? _]. }
  assert (is_absolute (path_push buf name) = true) as Hp by (by apply is_absolute_push).
  unfold components. rewrite Hp, Hb. cbn [app]. f_equal. unfold path_push. rewrite Hrel.
  destruct (is_empty buf || ends_with 47 buf) eqn:Hend.
  - assert (ends_with 47 buf = true) as (a & c & -> & Hcz)%ends_with_split by (by destruct buf).
    rewrite str_app_assoc, str_app_cons. change (EmptyString +:+ name) with name. rewrite !str_split_app by done.
    rewrite (str_split_none 47 name Hs), !omap_app. cbn. by rewrite Hc, app_nil_r.
  - change ("/" +:+ name) with (String "/" name). rewrite str_split_app by done. rewrite (str_split_none 47 name Hs), omap_app. cbn. by rewrite Hc.
Qed.

Lemma components_text names : Forall plain_name names →
  let buf := foldl (λ buf c, path_push buf (component_text c)) "/" (Normal <$> names) in
  is_absolute buf = true ∧ components buf = RootDir :: (Normal <$> names).
Proof.
  cbn zeta. induction names as [|name names IH] using rev_ind; intros Hn; [done|]. apply Forall_app in Hn as [Hn [Hname _]%Forall_cons].
  destruct (IH Hn) as [Ha Hc]. rewrite fmap_app, foldl_app. cbn [fmap list_fmap foldl component_text].
  split; [by apply is_absolute_push|]. rewrite components_push by done. by rewrite Hc.
Qed.

Lemma fold_dot_dots_absolute p : is_absolute p = true →
  ∃ q, fold_dot_dots p = Ok q ∧ components q = RootDir :: (Normal <$> resolve_segments (str_split 47 p)).
Proof.
  intros Hp. destruct (components_text (resolve_segments (str_split 47 p))) as [Ha Hc]; [apply resolve_plain, str_split_plain|].
  assert (reverse (foldl fold_component [] (components p)) = RootDir :: (Normal <$> resolve_segments (str_split 47 p))) as Hout.
  { unfold components. rewrite Hp. cbn [foldl fold_component]. pose proof (fold_rooted (str_split 47 p) []) as Hf.
    cbn [fmap list_fmap app] in Hf. by rewrite Hf, reverse_app, <- fmap_reverse. }
  unfold fold_dot_dots. rewrite Hout. cbn [foldl component_text]. change (path_push EmptyString "/") with "/".
  eexists. split; [|exact Hc]. unfold is_empty. rewrite bool_decide_false; [done|]. intros He. by rewrite He in Ha.
Qed.

(** The names a target leads to from an absolute working directory. *)
Definition target_names (target cwd : string) : list string :=
  resolve_segments (if is_absolute target then str_split 47 target else str_split 47 cwd ++ str_split 47 target).

Lemma resolve_app a b : resolve_segments (a ++ b) = reverse (foldl enter (foldl enter [] a) b).
Proof. unfold resolve_segments. by rewrite foldl_app. Qed.

Lemma resolve_join cwd target : is_absolute target = false →
  resolve_segments (str_split 47 (path_push cwd target)) = resolve_segments (str_split 47 cwd ++ str_split 47 target).
Proof.
  intros Ht. unfold path_push. rewrite Ht. destruct (is_empty cwd || ends_with 47 cwd) eqn:He.
  - destruct (is_empty cwd) eqn:Hc.
    + unfold is_empty in Hc. apply bool_decide_eq_true in Hc as ->. by rewrite resolve_app.
    + destruct (ends_with_split 47 cwd He) as (a & c & -> & Hz). rewrite str_app_assoc, str_app_cons. change (EmptyString +:+ target) with target.
      rewrite !str_split_app, !resolve_app by done. cbn. by rewrite foldl_app.
  - change ("/" +:+ target) with (String "/" target). by rewrite str_split_app.
Qed.

Lemma normalise_target_names target cwd : is_absolute cwd = true →
  ∃ q, normalise_target target cwd = Ok q ∧ components q = RootDir :: (Normal <$> target_names target cwd).
Proof.
  intros Hcwd. unfold normalise_target, target_names. destruct (is_absolute target) eqn:Ht.
  - by apply fold_dot_dots_absolute.
  - rewrite <- resolve_join by done. apply fold_dot_dots_absolute. by apply is_absolute_push.
Qed.

Lemma target_names_plain target cwd : Forall plain_name (target_names target cwd).
Proof.
  unfold target_names. destruct (is_absolute target); apply resolve_plain; [|apply Forall_app; split]; apply str_split_plain.
Qed.

(** ** Searching *)

Lemma one_of_spec l s : one_of l s = true ↔ s ∈ l.
Proof.
  unfold one_of. rewrite existsb_exists. setoid_rewrite String.eqb_eq. setoid_rewrite <- list_elem_of_In. naive_solver.
Qed.
Lemma one_of_false l s : one_of l s = false ↔ s ∉ l.
Proof. rewrite <- one_of_spec. by destruct (one_of l s). Qed.

Lemma find_None {A} (p : A → bool) l : List.find p l = None ↔ Forall (λ a, p a = false) l.
Proof.
  induction l as [|a l IH]; cbn; [split; [constructor|done]|]. rewrite Forall_cons, <- IH. destruct (p a); naive_solver.
Qed.
Lemma existsb_false {A} (p : A → bool) l : existsb p l = false ↔ Forall (λ a, p a = false) l.
Proof. induction l as [|a l IH]; cbn; [split; [constructor|done]|]. rewrite Forall_cons, <- IH. by rewrite orb_false_iff. Qed.

Lemma first_hit_None {A} (check : SimpleCommand → option (option A)) i l :
  first_hit check i l = Some None ↔ Forall (λ c, check c = Some None) l.
Proof.
  revert i. induction l as [|c l IH]; intros i; cbn; [split; [constructor|done]|]. rewrite Forall_cons, <- (IH (S i)).
  destruct (check c) as [[a|]|]; naive_solver.
Qed.
Lemma first_some_None {A B} (f : A → option B) l : first_some f l = None ↔ Forall (λ a, f a = None) l.
Proof.
  induction l as [|a l IH]; cbn; [split; [constructor|done]|]. rewrite Forall_cons, <- IH. destruct (f a); naive_solver.
Qed.

(** ** What the stages are to catch *)

(** The lists and shapes the stages are about, spelled out once more and apart from
    the tables and tests of the code, so that an entry lost there is noticed. *)

(** Builtins that run their arguments or change what names mean, and those of zsh's
    modules. *)
Definition running_builtins : list string :=
  ["eval"; "source"; "."; "exec"; "command"; "builtin"; "fc"; "coproc"; "noglob"; "nocorrect"; "trap"; "enable"; "mapfile";
   "readarray"; "hash"; "bind"; "complete"; "compgen"; "alias"; "let"].
Definition module_builtins : list string :=
  ["zmodload"; "emulate"; "sysopen"; "sysread"; "syswrite"; "sysseek"; "zpty"; "ztcp"; "zsocket"; "zf_rm"; "zf_mv"; "zf_ln";
   "zf_chmod"; "zf_chown"; "zf_mkdir"; "zf_rmdir"; "zf_chgrp"].
(** The flags after which an interpreter takes code. *)
Definition inline_code : list (string * string) :=
  ((λ shell, (shell, "-c")) <$> ["bash"; "sh"; "zsh"; "ksh"; "dash"; "fish"; "ash"]) ++ [("busybox", "sh")] ++
  ((λ python, (python, "-c")) <$> ["python"; "python2"; "python3"]) ++
  [("perl", "-e"); ("perl", "-E"); ("ruby", "-e")] ++ ((λ flag, ("node", flag)) <$> ["-e"; "--eval"; "-p"; "--print"]) ++
  [("deno", "eval"); ("lua", "-e"); ("luajit", "-e"); ("tcl", "-c"); ("tclsh", "-c"); ("php", "-r"); ("Rscript", "-e"); ("R", "-e");
   ("ghc", "-e"); ("runghc", "-e"); ("stack", "exec"); ("pwsh", "-Command"); ("pwsh", "-c"); ("powershell", "-Command");
   ("powershell", "-c"); ("sed", "-e"); ("awk", "-v"); ("gawk", "-v"); ("mawk", "-v"); ("env", "-S")].
(** The redirects that are judged as writing; [>&] is none of them. *)
Definition writing_operators : list string := [">"; ">>"; ">|"; "&>"; "&>>"].
(** The commands the read-only stage lets pass, with git's subcommands, and the flags
    with which it does not. *)
Definition reading_commands : list string :=
  ["ls"; "ll"; "la"; "cat"; "tac"; "zcat"; "bzcat"; "xzcat"; "zstdcat"; "head"; "tail"; "less"; "more"; "grep"; "egrep"; "fgrep";
   "rg"; "ripgrep"; "ack"; "ag"; "wc"; "du"; "df"; "stat"; "file"; "tr"; "cut"; "sort"; "uniq"; "rev"; "fold"; "expand";
   "unexpand"; "comm"; "diff"; "cmp"; "join"; "paste"; "od"; "xxd"; "hexdump"; "strings"; "base64"; "uuencode"; "uudecode";
   "md5sum"; "sha1sum"; "sha256sum"; "sha512sum"; "cksum"; "shasum"; "b2sum"; "tar"; "zip"; "unzip"; "ps"; "top"; "htop"; "free";
   "uptime"; "uname"; "id"; "whoami"; "pwd"; "hostname"; "date"; "find"; "locate"; "which"; "type"; "command"; "printf"; "echo";
   "yes"; "true"; "false"; "test"; "jq"; "yq"; "sed"; "awk"; "gawk"; "mawk"; "git"].
Definition reading_git : list string :=
  ["status"; "log"; "diff"; "show"; "blame"; "branch"; "rev-parse"; "ls-files"; "ls-tree"; "describe"; "config"; "stash";
   "worktree"; "remote"; "tag"; "shortlog"; "reflog"].
Definition config_writes : list string :=
  ["--add"; "--unset"; "--unset-all"; "--replace-all"; "--rename-section"; "--remove-section"; "--edit"].
Definition find_writes : list string :=
  ["-delete"; "-exec"; "-execdir"; "-ok"; "-okdir"; "-fprint"; "-fprintf"; "-fls"; "-fprint0"].
(** Commands that destroy data, by name or by family. *)
Definition destroyers : list string :=
  ["rm"; "rmdir"; "shred"; "srm"; "trash"; "dd"; "cfdisk"; "fdisk"; "gdisk"; "parted"; "sfdisk"].
Definition destroys (base : string) : Prop :=
  base ∈ destroyers ∨ ∃ family, family ∈ ["mkfs"; "wipefs"] ∧ (base = family ∨ ∃ rest, base = family +:+ "." +:+ rest).

(** [p] is somewhere in [s]. *)
Definition part_of (p s : string) : Prop := ∃ a b, s = a +:+ (p +:+ b).
(** The environment of a process, of this one or by its number. *)
Definition reads_environ (arg : string) : Prop :=
  part_of "/proc/self/environ" arg ∨
  ∃ pid rest, arg = "/proc/" +:+ (pid +:+ String "/" rest) ∧ pid ≠ EmptyString ∧ str_forall is_ascii_digit pid = true ∧ part_of "/environ" arg.
(** A disk or a partition as the output of dd. *)
Definition writes_disk (arg : string) : Prop :=
  ∃ disk c rest, disk ∈ ["sd"; "hd"; "vd"; "nvme"; "mmcblk"] ∧ is_ascii_alphanumeric (byte_val c) = true ∧ arg = "of=/dev/" +:+ (disk +:+ String c rest).
(** Flags that edit a file in place, and those with which tar writes. *)
Definition edits_in_place (arg : string) : Prop := arg = "-i" ∨ arg = "--in-place" ∨ ∃ suffix, arg = "-i." +:+ suffix.
Definition tar_writes (arg : string) : Prop :=
  arg ∈ ["-c"; "--create"; "-x"; "--extract"; "-u"; "--update"] ∨
  ∃ letters, arg = "-" +:+ letters ∧ letters ≠ EmptyString ∧ (∀ long, letters ≠ "-" +:+ long) ∧
    (str_contains 99 letters || str_contains 120 letters || str_contains 117 letters) = true.

Lemma prefix_spec p s : String.prefix p s = true ↔ ∃ rest, s = p +:+ rest.
Proof.
  revert s. induction p as [|a p IH]; intros s; cbn [String.prefix].
  - split; [intros _; by exists s|by destruct s].
  - destruct s as [|b s]; [split; [done|by intros [? ?]]|]. cbn. destruct (ascii_dec a b) as [<-|Hne].
    + rewrite IH. split; intros [rest Hr]; exists rest; [by rewrite Hr|]. rewrite str_app_cons in Hr. by injection Hr.
    + split; [done|]. intros [rest Hr]. rewrite str_app_cons in Hr. by injection Hr.
Qed.
Lemma str_contains_str_spec p s : str_contains_str p s = true ↔ part_of p s.
Proof.
  unfold part_of. induction s as [|c s IH]; cbn [str_contains_str]; rewrite orb_true_iff, prefix_spec.
  - split; [intros [[rest Hr]|]; [by exists EmptyString, rest|done]|]. intros ([|] & b & Hb); [left; by exists b|done].
  - rewrite IH. split.
    + intros [[rest Hr]|(a & b & ->)]; [by exists EmptyString, rest|]. by exists (String c a), b.
    + intros ([|c' a] & b & Hb); [left; by exists b|]. rewrite str_app_cons in Hb. injection Hb as -> ->. right. by exists a, b.
Qed.
Lemma strip_prefix_app p s : strip_prefix p (p +:+ s) = Some s.
Proof. by apply strip_prefix_Some. Qed.
Lemma split_once_app z a c b : byte_val c = z → str_contains z a = false → split_once z (a +:+ String c b) = Some (a, b).
Proof.
  intros Hc. induction a as [|x a IH]; intros Ha.
  - change (EmptyString +:+ String c b) with (String c b). cbn [split_once]. by rewrite Hc, Z.eqb_refl.
  - rewrite str_app_cons. cbn [str_contains split_once] in *. apply orb_false_iff in Ha as [-> Ha]. by rewrite IH.
Qed.
Lemma digits_no_slash s : str_forall is_ascii_digit s = true → str_contains 47 s = false.
Proof.
  induction s as [|c s IH]; [done|]. cbn [str_forall str_contains]. rewrite andb_true_iff. intros [Hc Hs]. rewrite (IH Hs), orb_false_r.
  apply Z.eqb_neq. intros E. by rewrite E in Hc.
Qed.
Lemma app_inj_l u s t : u +:+ s = u +:+ t → s = t.
Proof. induction u as [|c u IH]; [done|]. rewrite !str_app_cons. intros [= ?]. auto. Qed.
Lemma contains_app z a b : str_contains z (a +:+ b) = str_contains z a || str_contains z b.
Proof. induction a as [|c a IH]; [done|]. rewrite str_app_cons. cbn [str_contains]. by rewrite IH, orb_assoc. Qed.
Lemma str_split_head z a b : str_contains z a = false →
  head (str_split z (a +:+ b)) = Some (a +:+ default EmptyString (head (str_split z b))).
Proof.
  induction a as [|c a IH]; intros Ha.
  - change (EmptyString +:+ b) with b. destruct (str_split_cons z b) as (seg & segs & ->). done.
  - rewrite str_app_cons. cbn [str_contains str_split] in *. apply orb_false_iff in Ha as [-> Ha]. specialize (IH Ha).
    destruct (str_split_cons z (a +:+ b)) as (seg & segs & Hs). rewrite Hs in *. cbn in IH |- *. injection IH as ->. by rewrite str_app_cons.
Qed.
Lemma str_split_first z s : ∃ rest, s = default EmptyString (head (str_split z s)) +:+ rest.
Proof.
  induction s as [|c s [rest IH]]; [by exists EmptyString|]. cbn [str_split]. destruct (byte_val c =? z); [by exists (String c s)|].
  destruct (str_split_cons z s) as (seg & segs & Hs). rewrite Hs in *. cbn in IH |- *. exists rest. by rewrite str_app_cons, <- IH.
Qed.

(** ** What passes the catalogue *)

(** [flag] stands before another argument. *)
Definition carries_code (args : list string) (flag : string) : Prop := ∃ before body after, args = before ++ (flag :: body :: after).

Lemma flag_body_None flag args : flag_body flag args = None ↔ ¬ carries_code args flag.
Proof.
  induction args as [|tok [|body args] IH]; cbn.
  - split; [|done]. by intros _ ([] & ? & ? & ?).
  - split; [|done]. by intros _ ([|? []] & ? & ? & ?).
  - destruct (String.eqb_spec tok flag) as [->|Hne].
    + split; [done|]. intros []. by exists [], body, args.
    + rewrite IH. unfold carries_code. split; intros Hno (before & b & after & Heq); apply Hno.
      * destruct before as [|? before]; injection Heq as ->; [done|]. by exists before, b, after.
      * exists (tok :: before), b, after. by rewrite Heq.
Qed.

Lemma first_flag_None head args l :
  first_flag head args l = None ↔ ∀ flag, (head, flag) ∈ l → ¬ carries_code args flag.
Proof.
  induction l as [|[interpreter flag] l IH]; cbn.
  - split; [|done]. intros _ flag Hin. by apply not_elem_of_nil in Hin.
  - destruct (String.eqb_spec interpreter head) as [->|Hne].
    + destruct (flag_body flag args) as [body|] eqn:Hb.
      * split; [done|]. intros Hall. assert (flag_body flag args = None) as Hn by (apply flag_body_None, Hall; left). by rewrite Hn in Hb.
      * rewrite IH. apply flag_body_None in Hb. split.
        -- intros Hall f [[= ->]|Hf]%elem_of_cons; [done|by apply Hall].
        -- intros Hall f Hf. apply Hall. by right.
    + rewrite IH. split.
      * intros Hall f [[= -> ->]|Hf]%elem_of_cons; [done|by apply Hall].
      * intros Hall f Hf. apply Hall. by right.
Qed.

(** The tests of the code are these shapes. *)
Definition names_environ (arg : string) : bool := str_contains_str "/proc/self/environ" arg || proc_pid_environ arg.
Lemma names_environ_spec arg : names_environ arg = true ↔ reads_environ arg.
Proof.
  unfold names_environ, reads_environ. rewrite orb_true_iff, str_contains_str_spec. apply or_iff_compat_l. unfold proc_pid_environ. split.
  - destruct (strip_prefix "/proc/" arg) as [after|] eqn:Hp; [|done]. apply strip_prefix_Some in Hp as ->. rewrite andb_true_iff, str_contains_str_spec.
    destruct (split_once 47 after) as [[pid rest]|] eqn:Hs; [|by intros [_ ?]]. destruct (split_once_Some _ _ _ _ Hs) as (c & Hc & -> & _).
    assert (c = "/"%char) as -> by (by apply byte_val_inj). rewrite andb_true_iff, negb_true_iff. unfold is_empty. rewrite bool_decide_eq_false.
    intros (He & Hne & Hd). by exists pid, rest.
  - intros (pid & rest & -> & Hne & Hd & He). rewrite strip_prefix_app, andb_true_iff, str_contains_str_spec. split; [done|].
    rewrite split_once_app by (done || by apply digits_no_slash). unfold is_empty. by rewrite bool_decide_false, Hd.
Qed.

Lemma check_proc_environ_None argv : check_proc_environ argv = None ↔ Forall (λ arg, ¬ reads_environ arg) argv.
Proof.
  induction argv as [|arg argv IH]; cbn; [split; [constructor|done]|]. rewrite Forall_cons, <- IH, <- names_environ_spec. unfold names_environ.
  destruct (str_contains_str _ arg), (proc_pid_environ arg); naive_solver.
Qed.

Lemma of_blockdev_spec arg : of_blockdev arg = true ↔ writes_disk arg.
Proof.
  unfold of_blockdev, writes_disk. destruct (strip_prefix "of=/dev/" arg) as [dev|] eqn:Hp.
  2:{ split; [done|]. intros (disk & c & rest & _ & _ & ->). exfalso. by rewrite strip_prefix_app in Hp. }
  apply strip_prefix_Some in Hp as ->. destruct (str_split_first 47 dev) as [rest Hr]. destruct (str_split_cons 47 dev) as (seg & segs & Hs).
  rewrite Hs in *. cbn [head default] in *. change (id seg) with seg in *. rewrite existsb_exists. split.
  - intros (disk & Hin & Hd). destruct (strip_prefix disk seg) as [[|c t]|] eqn:Hseg; [done| |done]. apply strip_prefix_Some in Hseg as ->.
    exists disk, c, (t +:+ rest). split_and!; [by apply list_elem_of_In|done|]. rewrite Hr, str_app_assoc. by rewrite str_app_cons.
  - intros (disk & c & t & Hin & Hc & Heq%app_inj_l). exists disk. split; [by apply list_elem_of_In|].
    assert (str_contains 47 (disk +:+ String c EmptyString) = false) as Hn.
    { rewrite contains_app. assert (str_contains 47 disk = false) as ->.
      { repeat (apply elem_of_cons in Hin as [-> | Hin]; [done|]). by apply elem_of_nil in Hin. }
      cbn. rewrite orb_false_r. destruct (Z.eqb_spec (byte_val c) 47) as [E|]; [by rewrite E in Hc|done]. }
    pose proof (str_split_head 47 (disk +:+ String c EmptyString) t Hn) as Hh. rewrite str_app_assoc, str_app_cons in Hh. change (EmptyString +:+ t) with t in Hh.
    rewrite <- Heq, Hs in Hh. cbn [head] in Hh. injection Hh as ->. rewrite str_app_assoc, str_app_cons.
    by rewrite strip_prefix_app.
Qed.
Lemma jq_system_spec arg : str_contains_str "system(" (without_whitespace arg) = true ↔ part_of "system(" (without_whitespace arg).
Proof. apply str_contains_str_spec. Qed.

(** None of the dangerous shapes: not a builtin that runs its arguments, no
    interpreter with inline code, no environment of a process, no call of jq to
    the system, no writing of a disk. *)
Record harmless (argv : list string) : Prop := {
  hl_builtin : ∀ name, head argv = Some name → (name ∉ running_builtins) ∧ (name ∉ module_builtins);
  hl_code : ∀ name flag, head argv = Some name → (name, flag) ∈ inline_code → ¬ carries_code (drop 1 argv) flag;
  hl_environ : Forall (λ arg, ¬ reads_environ arg) argv;
  hl_jq : head argv = Some "jq" → Forall (λ arg, ¬ part_of "system(" (without_whitespace arg)) (drop 1 argv);
  hl_dd : head argv = Some "dd" → Forall (λ arg, ¬ writes_disk arg) (drop 1 argv);
}.

(** A test finds nothing exactly when no argument has the shape. *)
Lemma find_shape (p : string → bool) (P : string → Prop) l : (∀ arg, p arg = true ↔ P arg) → List.find p l = None ↔ Forall (λ arg, ¬ P arg) l.
Proof. intros Hp. rewrite find_None. apply Forall_iff. intros arg. rewrite <- Hp. by destruct (p arg). Qed.

Lemma check_patterns_None cmd :
  check_patterns cmd = None ↔
  Forall (λ arg, ¬ reads_environ arg) (sc_argv cmd) ∧
  (head (sc_argv cmd) = Some "jq" → Forall (λ arg, ¬ part_of "system(" (without_whitespace arg)) (drop 1 (sc_argv cmd))) ∧
  (head (sc_argv cmd) = Some "dd" → Forall (λ arg, ¬ writes_disk arg) (drop 1 (sc_argv cmd))).
Proof.
  unfold check_patterns. rewrite <- check_proc_environ_None. destruct (check_proc_environ _); [naive_solver|].
  unfold check_jq_system, check_dd_of_blockdev. destruct (sc_argv cmd) as [|x args]; [cbn; naive_solver|]. cbn. rewrite drop_0.
  rewrite <- (find_shape _ _ _ jq_system_spec), <- (find_shape _ _ _ of_blockdev_spec). destruct (String.eqb_spec x "jq") as [Hj|Hj], (String.eqb_spec x "dd") as [Hd|Hd]; try congruence.
  - destruct (List.find _ args); cbn; naive_solver.
  - destruct (List.find _ args); cbn; naive_solver.
  - naive_solver.
Qed.

Lemma check_security_None cmd : check_security cmd = Some None ↔ harmless (sc_argv cmd).
Proof.
  assert (check_security cmd = Some None ↔ check_builtins cmd = Some None ∧ check_flags cmd = Some None ∧ check_patterns cmd = None) as ->.
  { unfold check_security. destruct (check_builtins cmd) as [[]|]; cbn; try naive_solver.
    destruct (check_flags cmd) as [[]|]; cbn; try naive_solver. destruct (check_patterns cmd); naive_solver. }
  rewrite check_patterns_None. unfold check_builtins, check_flags. destruct (sc_argv cmd) as [|x args] eqn:Ha.
  - split; [|naive_solver]. intros (_ & _ & ? & ? & ?). constructor; naive_solver.
  - destruct (one_of EVAL_LIKE_BUILTINS x) eqn:He; [|destruct (one_of ZSH_DANGEROUS_BUILTINS x) eqn:Hz].
    + split; [destruct (truncate_argv_summary _); cbn; naive_solver|]. intros [Hb _ _ _ _].
      destruct (Hb x eq_refl) as [Hn _]. by apply one_of_spec in He.
    + split; [naive_solver|]. intros [Hb _ _ _ _]. destruct (Hb x eq_refl) as [_ Hn]. by apply one_of_spec in Hz.
    + apply one_of_false in He, Hz. destruct (first_flag x args INTERPRETER_FLAGS) as [[[interp flag] body]|] eqn:Hf.
      * split; [destruct (80 <? String.length body)%nat, (slice_to 80 body); cbn; naive_solver|]. intros [_ Hc _ _ _].
        assert (first_flag x args INTERPRETER_FLAGS = None) as Hn; [|by rewrite Hn in Hf].
        apply first_flag_None. intros f Hin. by apply (Hc x f).
      * rewrite first_flag_None in Hf. split.
        -- intros (_ & _ & ? & ? & ?). constructor; try done; cbn; rewrite ?drop_0; naive_solver.
        -- intros [_ _ ? ? ?]. naive_solver.
Qed.

(** ** What passes the other stages *)

(** A rule covers a command: its name, and all its flags when the rule lists
    flags. *)
Definition covers_command (argv : list string) (r : Rule) : Prop :=
  head argv = Some (ru_argv0_prefix r) ∧
  ∀ flags, ru_allowed_flags r = Some flags → Forall (λ arg, starts_with_dash arg = true → arg ∈ flags) (drop 1 argv).
Definition permitted (rules : RuleSet) (argv : list string) : Prop :=
  (∀ r, r ∈ rs_deny rules → ¬ covers_command argv r) ∧ ∃ r, r ∈ rs_allow rules ∧ covers_command argv r.

Lemma rule_matches_spec r cmd : rule_matches r cmd = true ↔ covers_command (sc_argv cmd) r.
Proof.
  unfold rule_matches, covers_command, head_matches. destruct (sc_argv cmd) as [|x args]; [naive_solver|]. cbn. rewrite drop_0.
  assert (negb (existsb (flag_outside r) args) = true ↔
    ∀ flags, ru_allowed_flags r = Some flags → Forall (λ arg, starts_with_dash arg = true → arg ∈ flags) args) as Hf.
  { rewrite negb_true_iff, existsb_false. unfold flag_outside. destruct (ru_allowed_flags r) as [fs|].
    - split; [intros Hall ? [= <-]|intros Hall; specialize (Hall fs eq_refl)];
        (eapply Forall_impl; [exact Hall|]; intros arg Harg; cbn beta in * ).
      + intros Hd. rewrite Hd in Harg. cbn in Harg. apply one_of_spec. by apply negb_false_iff.
      + destruct (starts_with_dash arg); [|done]. cbn. by apply negb_false_iff, one_of_spec, Harg.
    - split; [done|]. intros _. apply Forall_forall. intros arg _. by destruct (starts_with_dash arg). }
  destruct (ru_match_mode r); rewrite andb_true_iff, Hf, String.eqb_eq; naive_solver.
Qed.

Lemma find_matching l cmd : List.find (λ r, rule_matches r cmd) l = None ↔ ∀ r, r ∈ l → ¬ covers_command (sc_argv cmd) r.
Proof.
  rewrite find_None, Forall_forall. split; intros Hall r Hr; specialize (Hall r Hr); rewrite <- rule_matches_spec in *.
  - by rewrite Hall.
  - by destruct (rule_matches r cmd).
Qed.

Lemma check_permission_None rules cmd : check_permission rules cmd = None ↔ permitted rules (sc_argv cmd).
Proof.
  unfold check_permission, permitted. rewrite <- find_matching. destruct (List.find _ (rs_deny rules)); [naive_solver|].
  destruct (existsb _ (rs_allow rules)) eqn:Ha.
  - split; [|done]. intros _. split; [done|]. apply existsb_exists in Ha as (r & Hr & Hm). exists r.
    split; [by apply list_elem_of_In|]. by apply rule_matches_spec.
  - split; [by destruct (List.find _ (rs_allow rules))|]. intros (_ & r & Hr & Hm). exfalso.
    apply existsb_false in Ha. rewrite Forall_forall in Ha. specialize (Ha r Hr). cbn in Ha. apply rule_matches_spec in Hm. congruence.
Qed.

(** A target is under one of the roots. *)
Definition inside (roots : list string) (cwd target : string) : Prop :=
  ∃ path root, normalise_target target cwd = Ok path ∧ root ∈ roots ∧ components root `prefix_of` components path.
Definition confined (roots : list string) (cwd : string) (redirects : list Redirect) : Prop :=
  Forall (λ r, rd_op r ∈ writing_operators → inside roots cwd (rd_target r)) redirects.
Lemma is_write_op_spec op : is_write_op op = true ↔ op ∈ writing_operators.
Proof. apply one_of_spec. Qed.

Lemma check_redirect_None c r : check_redirect c r = None ↔
  (rd_op r ∈ writing_operators → inside (cn_write_allowed_roots c) (cn_cwd c) (rd_target r)).
Proof.
  rewrite <- is_write_op_spec. unfold check_redirect, inside. destruct (is_write_op (rd_op r)); [|naive_solver].
  destruct (normalise_target (rd_target r) (cn_cwd c)) as [path|e]; [|naive_solver].
  destruct (is_under_any_root path (cn_write_allowed_roots c)) eqn:Hu.
  - split; [|done]. intros _ _. apply existsb_exists in Hu as (root & Hr & Hp). exists path, root.
    split; [done|]. split; [by apply list_elem_of_In|]. by apply bool_decide_eq_true in Hp.
  - split; [done|]. intros Hin. destruct (Hin eq_refl) as (path' & root & [= <-] & Hr & Hp). exfalso.
    apply existsb_false in Hu. rewrite Forall_forall in Hu. specialize (Hu root Hr). by apply bool_decide_eq_false in Hu.
Qed.

(** A command the read-only stage takes for one that reads: a name of the list, for git
    with a subcommand of the list, without the flags that write, and without redirects
    that write.  Of the subcommands of git only config's flags are looked at. *)
Record reads_only (cmd : SimpleCommand) : Prop := {
  ro_redirects : Forall (λ r, rd_op r ∉ writing_operators) (sc_redirects cmd);
  ro_name : ∃ name, head (sc_argv cmd) = Some name ∧ name ∈ reading_commands;
  ro_git : head (sc_argv cmd) = Some "git" → ∃ sub args, drop 1 (sc_argv cmd) = sub :: args ∧ sub ∈ reading_git ∧
    (sub = "config" → Forall (λ arg, arg ∉ config_writes) args);
  ro_find : head (sc_argv cmd) = Some "find" → Forall (λ arg, arg ∉ find_writes) (drop 1 (sc_argv cmd));
  ro_edit : ∀ name, head (sc_argv cmd) = Some name → name ∈ ["awk"; "gawk"; "mawk"; "sed"] →
    Forall (λ arg, ¬ edits_in_place arg) (drop 1 (sc_argv cmd));
  ro_tar : head (sc_argv cmd) = Some "tar" → Forall (λ arg, ¬ tar_writes arg) (drop 1 (sc_argv cmd));
}.

Lemma edit_flag_spec arg : is_in_place_edit_flag arg = true ↔ edits_in_place arg.
Proof. unfold is_in_place_edit_flag, edits_in_place. rewrite !orb_true_iff, !String.eqb_eq, prefix_spec. tauto. Qed.
Lemma tar_flag_spec arg : is_tar_write_flag arg = true ↔ tar_writes arg.
Proof.
  unfold is_tar_write_flag, tar_writes. rewrite orb_true_iff, one_of_spec. apply or_iff_compat_l.
  rewrite !andb_true_iff, negb_true_iff. unfold starts_with_dash. rewrite prefix_spec, Nat.ltb_lt. split.
  - intros [[[[letters ->] Hl] Hd] Hc]. exists letters. split_and!; [done| | |].
    + intros ->. exact (Nat.lt_irrefl 1 Hl).
    + intros long ->. change ("-" +:+ ("-" +:+ long)) with ("--" +:+ long) in Hd. by rewrite (proj2 (prefix_spec "--" _) (ex_intro _ long eq_refl)) in Hd.
    + revert Hc. by rewrite !contains_app.
  - intros (letters & -> & Hne & Hd & Hc). split; [split; [split; [by exists letters|destruct letters as [|a letters]; [done|]; change (1 < S (S (String.length letters)))%nat; lia]|]|by rewrite !contains_app].
    destruct (String.prefix "--" ("-" +:+ letters)) eqn:Hp; [|done]. apply prefix_spec in Hp as [long Hp]. exfalso. apply (Hd long).
    change ("--" +:+ long) with ("-" +:+ ("-" +:+ long)) in Hp. by apply app_inj_l in Hp.
Qed.

Lemma find_one_of_None l args : List.find (one_of l) args = None ↔ Forall (λ arg, arg ∉ l) args.
Proof. rewrite find_None. by setoid_rewrite one_of_false. Qed.

Lemma write_flag_None name args : write_flag name args = None ↔
  (name = "git" → head args = Some "config" → Forall (λ arg, arg ∉ config_writes) (drop 1 args)) ∧
  (name = "find" → Forall (λ arg, arg ∉ find_writes) args) ∧
  (name ∈ ["awk"; "gawk"; "mawk"; "sed"] → Forall (λ arg, ¬ edits_in_place arg) args) ∧
  (name = "tar" → Forall (λ arg, ¬ tar_writes arg) args).
Proof.
  unfold write_flag. rewrite <- !find_one_of_None, <- (find_shape _ _ _ edit_flag_spec), <- (find_shape _ _ _ tar_flag_spec), <- one_of_spec.
  assert (args !! 0%nat = head args) as -> by (by destruct args).
  destruct (String.eqb_spec name "git") as [->|Hg].
  { case_bool_decide as Hc; [|naive_solver]. cbn. naive_solver. }
  destruct (String.eqb_spec name "find") as [->|Hf]; [cbn; naive_solver|].
  destruct (one_of ["awk"; "gawk"; "mawk"; "sed"] name) eqn:He.
  { split; [|naive_solver]. intros Hn. split_and!; [done|done|done|]. intros ->. done. }
  destruct (String.eqb_spec name "tar") as [->|Ht]; naive_solver.
Qed.

Lemma check_readonly_None cmd : check_readonly cmd = None ↔ reads_only cmd.
Proof.
  unfold check_readonly. destruct (List.find _ (sc_redirects cmd)) as [r|] eqn:Hr.
  { split; [done|]. intros [Hro _ _ _ _ _]. apply List.find_some in Hr as [Hin Hw]. rewrite Forall_forall in Hro.
    destruct (Hro r); [by apply list_elem_of_In|by apply is_write_op_spec]. }
  apply find_None in Hr. assert (Forall (λ r, rd_op r ∉ writing_operators) (sc_redirects cmd)) as Hr'.
  { eapply Forall_impl; [exact Hr|]. intros r Hw. cbn beta in Hw. rewrite <- is_write_op_spec. congruence. }
  destruct (sc_argv cmd) as [|x args] eqn:Ha.
  { split; [done|]. intros [_ (? & ? & _) _ _ _ _]. by rewrite Ha in *. }
  destruct (one_of READ_ONLY_BUILTINS x) eqn:Hx; cbn [negb].
  2: { split; [done|]. intros [_ (name & Hn & Hin) _ _ _ _]. rewrite Ha in Hn. injection Hn as <-.
       apply (one_of_spec READ_ONLY_BUILTINS) in Hin. congruence. }
  apply one_of_spec in Hx. destruct (String.eqb x "git" && negb (one_of GIT_READ_ONLY_SUBCOMMANDS (default "" (args !! 0%nat)))) eqn:Hg.
  { split; [done|]. intros [_ _ Hgit _ _ _]. rewrite Ha in Hgit. cbn in Hgit. rewrite drop_0 in Hgit.
    apply andb_true_iff in Hg as [->%String.eqb_eq Hs]. destruct (Hgit eq_refl) as (sub & rest & -> & Hin & _).
    apply (one_of_spec GIT_READ_ONLY_SUBCOMMANDS) in Hin. change (default "" ((sub :: rest) !! 0%nat)) with sub in Hs. by rewrite Hin in Hs. }
  assert (∀ o : option string, WriteFlag x <$> o = None ↔ o = None) as -> by (by intros []).
  rewrite write_flag_None. split.
  - intros (H1 & H2 & H3 & H4). constructor; rewrite ?Ha; cbn; rewrite ?drop_0; try naive_solver.
    intros [= ->]. cbn in Hg. apply negb_false_iff in Hg. destruct args as [|sub args]; [done|]. exists sub, args.
    split; [done|]. split; [by apply one_of_spec|]. intros ->. specialize (H1 eq_refl eq_refl). cbn in H1. by rewrite drop_0 in H1.
  - intros [_ _ Hgit Hfind Hedit Htar]. rewrite Ha in *. cbn in *. rewrite drop_0 in *. split_and!; try naive_solver.
Qed.

(** ** The pipeline *)

(** Not a command that destroys data, by the last part of its path and without [.exe]; a
    name that makes the check panic does not pass. *)
Definition spares_data (argv : list string) : Prop := ∀ name, head argv = Some name → ∃ base, basename name = Some base ∧ ¬ destroys base.

Lemma in_family_spec base family : in_family base family = true ↔ base = family ∨ ∃ rest, base = family +:+ "." +:+ rest.
Proof.
  unfold in_family. rewrite orb_true_iff, String.eqb_eq. apply or_iff_compat_l. split.
  - destruct (strip_prefix family base) as [[|a rest]|] eqn:Hp; [done| |done]. apply strip_prefix_Some in Hp as ->.
    unfold byte_is. intros Ha%Z.eqb_eq. assert (a = "."%char) as -> by (by apply byte_val_inj). by exists rest.
  - intros [rest ->]. by rewrite strip_prefix_app.
Qed.
Lemma is_destructive_spec name : is_destructive name = Some false ↔ ∃ base, basename name = Some base ∧ ¬ destroys base.
Proof.
  unfold is_destructive. destruct (basename name) as [base|]; [|naive_solver]. cbn [mbind option_bind].
  assert ((if is_empty base then false else one_of DESTRUCTIVE base || existsb (in_family base) DESTRUCTIVE_PREFIXES) = true ↔ destroys base) as Hd.
  { unfold destroys. rewrite <- one_of_spec. unfold is_empty. case_bool_decide as He.
    - subst base. split; [done|]. intros [?|(family & Hf & [Heq|[rest Heq]])]; [done|..];
        (repeat (apply elem_of_cons in Hf as [-> | Hf]; [done|])); by apply elem_of_nil in Hf.
    - rewrite orb_true_iff, existsb_exists. apply or_iff_compat_l. setoid_rewrite in_family_spec. by setoid_rewrite <- list_elem_of_In. }
  split.
  - intros Hf. exists base. split; [done|]. rewrite <- Hd. intros Ht. by rewrite Ht in Hf.
  - intros (? & [= <-] & Hn). f_equal. apply not_true_is_false. by rewrite Hd.
Qed.

(** What a request lets pass. *)
Record accepted (req : ShellRunRequest) (cmd : SimpleCommand) : Prop := {
  ac_harmless : harmless (sc_argv cmd);
  ac_permitted : ∀ rules, sr_permission_rules req = Some rules → permitted rules (sc_argv cmd);
  ac_confined : ∀ roots, sr_write_allowed_roots req = Some roots → confined roots (default "/" (sr_cwd req)) (sc_redirects cmd);
  ac_read_only : sr_read_only_only req = true → reads_only cmd;
  ac_destructive : sr_destructive_acknowledged req = false → spares_data (sc_argv cmd);
}.

Lemma security_evaluate_ok l : security_evaluate l = Some SecurityOk ↔ Forall (λ c, harmless (sc_argv c)) l.
Proof.
  setoid_rewrite <- check_security_None. rewrite <- (first_hit_None _ 0). unfold security_evaluate.
  destruct (first_hit _ 0 l) as [[(? & ? & ?)|]|]; cbn; naive_solver.
Qed.
(** Checks that cannot panic. *)
Lemma first_hit_total {A} (check : SimpleCommand → option A) i l :
  is_Some (first_hit (λ c, Some (check c)) i l) ∧
  (first_hit (λ c, Some (check c)) i l = Some None ↔ Forall (λ c, check c = None) l).
Proof.
  split.
  - revert i. induction l as [|c l IH]; intros i; cbn; [done|]. by destruct (check c).
  - rewrite first_hit_None. apply Forall_iff. intros c. split; congruence.
Qed.
Lemma permissions_evaluate_ok rules l :
  permissions_evaluate l rules = PermAllowed ↔ Forall (λ c, permitted rules (sc_argv c)) l.
Proof.
  setoid_rewrite <- check_permission_None. unfold permissions_evaluate.
  destruct (first_hit_total (check_permission rules) 0 l) as [[[[]|] Hh] <-]; rewrite Hh; naive_solver.
Qed.
Lemma paths_evaluate_ok c l :
  paths_evaluate l c = PathOk ↔ Forall (λ cmd, confined (cn_write_allowed_roots c) (cn_cwd c) (sc_redirects cmd)) l.
Proof.
  unfold confined. setoid_rewrite <- check_redirect_None. setoid_rewrite <- first_some_None. unfold paths_evaluate.
  destruct (first_hit_total (λ cmd, first_some (check_redirect c) (sc_redirects cmd)) 0 l) as [[[[? [[? []] ?]]|] Hh] <-];
    rewrite Hh; naive_solver.
Qed.
Lemma readonly_evaluate_ok l : readonly_evaluate l = ReadOnlyOk ↔ Forall reads_only l.
Proof.
  transitivity (Forall (λ c, check_readonly c = None) l); [|apply Forall_iff, check_readonly_None]. unfold readonly_evaluate.
  destruct (first_hit_total check_readonly 0 l) as [[[[]|] Hh] <-]; rewrite Hh; naive_solver.
Qed.
Lemma check_destructive_None cmd : check_destructive cmd = Some None ↔ spares_data (sc_argv cmd).
Proof.
  unfold check_destructive, spares_data. destruct (sc_argv cmd) as [|x args]; [naive_solver|]. cbn.
  trans (is_destructive x = Some false); [destruct (is_destructive x) as [[]|]; naive_solver|]. rewrite is_destructive_spec. naive_solver.
Qed.

Lemma Forall_accepted req l : Forall (accepted req) l ↔
  Forall (λ c, harmless (sc_argv c)) l ∧
  (∀ rules, sr_permission_rules req = Some rules → Forall (λ c, permitted rules (sc_argv c)) l) ∧
  (∀ roots, sr_write_allowed_roots req = Some roots →
     Forall (λ c, confined roots (default "/" (sr_cwd req)) (sc_redirects c)) l) ∧
  (sr_read_only_only req = true → Forall reads_only l) ∧
  (sr_destructive_acknowledged req = false → Forall (λ c, spares_data (sc_argv c)) l).
Proof.
  split.
  - intros Hall. split_and!; intros; (eapply Forall_impl; [exact Hall|]; intros c [? ? ? ? ?]; eauto).
  - intros (H1 & H2 & H3 & H4 & H5). apply Forall_forall. intros c Hc.
    assert (∀ P : SimpleCommand → Prop, Forall P l → P c) as Hin by (intros P HP; by apply (proj1 (Forall_forall P l) HP)).
    constructor; [by apply (Hin _ H1)|intros ? H; exact (Hin _ (H2 _ H))|intros ? H; exact (Hin _ (H3 _ H))|..].
    + intros H. exact (Hin _ (H4 H)).
    + intros H. exact (Hin _ (H5 H)).
Qed.

(** A stage that a request asks for, or skips. *)
Lemma stage_ok {A V} (o : option A) (stage : A → V) (ok : V) (P : A → Prop) : (∀ a, stage a = ok ↔ P a) →
  match o with Some a => stage a | None => ok end = ok ↔ ∀ a, o = Some a → P a.
Proof. intros Hs. destruct o as [a|]; [|naive_solver]. rewrite Hs. naive_solver. Qed.

Lemma judge_commands_ok req l c : judge_commands req l = Some (Ok c) ↔ c = l ∧ Forall (accepted req) l.
Proof.
  rewrite Forall_accepted, <- security_evaluate_ok.
  rewrite <- (stage_ok (sr_permission_rules req) (permissions_evaluate l) PermAllowed) by (intros; apply permissions_evaluate_ok).
  rewrite <- (stage_ok (sr_write_allowed_roots req) (λ roots, paths_evaluate l (mk_Constraints roots (default "/" (sr_cwd req)))) PathOk)
    by (intros; apply (paths_evaluate_ok (mk_Constraints _ _))).
  assert ((sr_read_only_only req = true → Forall reads_only l) ↔ readonly_evaluate_or_skip l (sr_read_only_only req) = ReadOnlyOk) as ->.
  { unfold readonly_evaluate_or_skip. rewrite <- readonly_evaluate_ok. destruct (sr_read_only_only req); naive_solver. }
  assert ((sr_destructive_acknowledged req = false → Forall (λ c, spares_data (sc_argv c)) l) ↔
    sr_destructive_acknowledged req = true ∨ first_hit check_destructive 0 l = Some None) as ->.
  { rewrite first_hit_None. setoid_rewrite check_destructive_None. destruct (sr_destructive_acknowledged req); naive_solver. }
  unfold judge_commands. destruct (security_evaluate l) as [[|v]|]; cbn; [|naive_solver..].
  destruct (match sr_permission_rules req with Some rules => _ | None => _ end); [|naive_solver].
  destruct (match sr_write_allowed_roots req with Some roots => _ | None => _ end); [|naive_solver..].
  destruct (readonly_evaluate_or_skip _ _); [|naive_solver].
  destruct (sr_destructive_acknowledged req); [naive_solver|].
  destruct (first_hit check_destructive 0 l) as [[[]|]|]; cbn; naive_solver.
Qed.


(** ** Where writes go *)

(** C17 (safety): when a request names the roots that may be written, and its
    working directory is absolute, every redirect with one of the operators [>], [>>],
    [>|], [&>] and [&>>], of every command that is handed to bash, leads below one of
    the roots once each [..] of the target has been taken away: the names the target
    leads to as it is written, none of them [.] or [..], start with those of the root.
    A tilde at the start of the target is a name like any other here, links are not
    followed, and [>&] is not judged. *)
Theorem write_targets_confined `{!TreeSitter} (req : ShellRunRequest) roots cwd commands cmd r :
  sr_write_allowed_roots req = Some roots → sr_cwd req = Some cwd → is_absolute cwd = true →
  run_pipeline req = Some (Ok commands) → cmd ∈ commands → r ∈ sc_redirects cmd → rd_op r ∈ [">"; ">>"; ">|"; "&>"; "&>>"] →
  Forall plain_name (target_names (rd_target r) cwd) ∧
  ∃ root, root ∈ roots ∧ components root `prefix_of` (RootDir :: (Normal <$> target_names (rd_target r) cwd)).
Proof.
  intros Hroots Hcwd Habs Hrun Hcmd Hr Hw. split; [apply target_names_plain|].
  assert (Forall (accepted req) commands) as Hacc.
  { unfold run_pipeline in Hrun. destruct (parse_for_security (sr_command req)) as [[|c l]| |]; try done.
    - by injection Hrun as <-.
    - by apply judge_commands_ok in Hrun as [-> ?]. }
  rewrite Forall_forall in Hacc. destruct (Hacc cmd Hcmd) as [_ _ Hconf _ _]. specialize (Hconf roots Hroots).
  unfold confined in Hconf. rewrite Hcwd, Forall_forall in Hconf. destruct (Hconf r Hr Hw) as (path & root & Hn & Hin & Hp).
  destruct (normalise_target_names (rd_target r) cwd Habs) as (q & Hq & Hc).
  change (default "/" (Some cwd)) with cwd in Hn. rewrite Hq in Hn. injection Hn as ->.
  exists root. by rewrite <- Hc.
Qed.

(** ** Panics *)

Definition ascii_text (s : string) : bool := str_forall (λ z, z <? 128) s.

Lemma ascii_drop n s : ascii_text s = true → ascii_text (str_drop n s) = true.
Proof.
  revert s. induction n as [|n IH]; intros [|a s]; try done. intros [_ Hs]%andb_true_iff. by apply IH.
Qed.
Lemma get_from_ascii n s : ascii_text s = true → (n ≤ String.length s)%nat → is_Some (get_from n s).
Proof.
  intros Hs Hn. unfold get_from. destruct (Nat.ltb_spec (String.length s) n); [lia|].
  pose proof (ascii_drop n s Hs) as Hd. destruct (str_drop n s) as [|a r]; [done|]. apply andb_true_iff in Hd as [Ha _].
  unfold is_continuation, between. destruct (Z.leb_spec 128 (byte_val a)); [lia|]. done.
Qed.
Lemma slice_to_ascii n s : ascii_text s = true → (n <? String.length s)%nat = true → is_Some (slice_to n s).
Proof. intros Hs Hn%Nat.ltb_lt. unfold slice_to. destruct (get_from_ascii n s) as [? ->]; [done|lia|done]. Qed.

Lemma ascii_app s t : ascii_text (s +:+ t) = ascii_text s && ascii_text t.
Proof. apply str_forall_app. Qed.

Lemma ascii_trim s : ascii_text s = true → ascii_text (trim s) = true.
Proof.
  intros Hs. unfold trim. assert (ascii_text (trim_start s) = true) as Ht.
  { revert Hs. induction s as [s IH] using trim_start_ind. intros Hs. rewrite trim_start_eq.
    destruct s as [|a s1]; [done|]. assert (ascii_text s1 = true) as H1 by (by apply andb_true_iff in Hs as [_ ?]).
    destruct (ws1 a); [apply IH; [cbn; lia|done]|]. destruct s1 as [|b s2]; [done|].
    assert (ascii_text s2 = true) as H2 by (by apply andb_true_iff in H1 as [_ ?]).
    destruct (ws2 a b); [apply IH; [cbn; lia|done]|]. destruct s2 as [|c s3]; [done|].
    destruct (ws3 a b c); [|done]. apply IH; [cbn; lia|]. by apply andb_true_iff in H2 as [_ ?]. }
  destruct (trim_end_app (trim_start s)) as (rest & Heq & _). rewrite Heq, ascii_app in Ht. by apply andb_true_iff in Ht as [? _].
Qed.

Lemma ascii_after_separator s t : ascii_text s = true → after_last_separator s = Some t → ascii_text t = true.
Proof.
  revert t. induction s as [|a s IH]; intros t Hs; [done|]. apply andb_true_iff in Hs as [_ Hs]. cbn.
  destruct (after_last_separator s) as [u|]; [intros [= <-]; by apply IH|]. destruct (_ || _); [|done]. by intros [= <-].
Qed.

Lemma is_destructive_ascii s : ascii_text s = true → is_Some (is_destructive s).
Proof.
  intros Hs%ascii_trim. assert (is_Some (basename s)) as [base Hb]; [|unfold is_destructive; rewrite Hb; done].
  unfold basename. destruct (is_empty (trim s)); [done|].
  assert (ascii_text (default (trim s) (after_last_separator (trim s))) = true) as Hr.
  { destruct (after_last_separator (trim s)) as [t|] eqn:Ha; [|done]. by eapply ascii_after_separator. }
  cbv zeta. destruct (Nat.ltb_spec 4 (String.length (default (trim s) (after_last_separator (trim s))))); [|done].
  edestruct get_from_ascii as [tail ->]; [exact Hr| |done]. lia.
Qed.

Lemma summary_ascii joined later args : ascii_text joined = true → Forall (λ arg, ascii_text arg = true) args →
  is_Some (summary_from joined later args).
Proof.
  intros Hj Ha. revert joined later Hj. induction Ha as [|arg args Harg _ IH]; intros joined later Hj; cbn [summary_from]; [done|].
  assert (ascii_text ((if later then joined +:+ " " else joined) +:+ arg) = true) as Hn.
  { rewrite ascii_app, Harg. destruct later; [rewrite ascii_app|]; by rewrite Hj. }
  cbv zeta. destruct (60 <? _)%nat eqn:Hl; [|by apply IH]. by destruct (slice_to_ascii _ _ Hn Hl) as [? ->].
Qed.

Lemma flag_body_in flag args body : flag_body flag args = Some body → body ∈ args.
Proof.
  induction args as [|tok [|b args] IH]; [done..|]. cbn. destruct (String.eqb tok flag).
  - intros [= <-]. right. left.
  - intros Hb. right. by apply IH.
Qed.
Lemma first_flag_in head args l interp flag body : first_flag head args l = Some (interp, flag, body) → body ∈ args.
Proof.
  induction l as [|[i f] l IH]; [done|]. cbn. destruct (String.eqb i head); [|done].
  destruct (flag_body f args) as [b|] eqn:Hb; [|done]. intros [= <- <- <-]. by eapply flag_body_in.
Qed.

Lemma check_security_ascii cmd : Forall (λ arg, ascii_text arg = true) (sc_argv cmd) → is_Some (check_security cmd).
Proof.
  intros Ha. unfold check_security. assert (is_Some (check_builtins cmd)) as [b ->].
  { unfold check_builtins. destruct (sc_argv cmd) as [|x args]; [done|]. destruct (one_of EVAL_LIKE_BUILTINS x).
    - destruct (summary_ascii EmptyString false (drop 1 (x :: args))) as [s Hs]; [done|by apply Forall_drop|].
      unfold truncate_argv_summary. by rewrite Hs.
    - by destruct (one_of ZSH_DANGEROUS_BUILTINS x). }
  cbn. destruct b; [done|]. assert (is_Some (check_flags cmd)) as [f ->]; [|cbn; by destruct f].
  unfold check_flags. destruct (sc_argv cmd) as [|x args]; [done|]. apply Forall_cons in Ha as [_ Ha].
  destruct (first_flag x args INTERPRETER_FLAGS) as [[[interp flag] body]|] eqn:Hf; [|done].
  apply first_flag_in in Hf. rewrite Forall_forall in Ha. destruct (80 <? String.length body)%nat eqn:Hl; [|done].
  by destruct (slice_to_ascii 80 body (Ha body Hf) Hl) as [? ->].
Qed.

Lemma first_hit_is_Some {A} (check : SimpleCommand → option (option A)) i l :
  Forall (λ c, is_Some (check c)) l → is_Some (first_hit check i l).
Proof. intros Hl. revert i. induction Hl as [|c l [[a|] Hc] _ IH]; intros i; cbn; rewrite ?Hc; done. Qed.

Lemma judge_commands_ascii req l :
  Forall (λ c, Forall (λ arg, ascii_text arg = true) (sc_argv c)) l → is_Some (judge_commands req l).
Proof.
  intros Hl. unfold judge_commands, security_evaluate.
  destruct (first_hit_is_Some check_security 0 l) as [h ->]; [eapply Forall_impl; [exact Hl|]; apply check_security_ascii|].
  assert (is_Some (first_hit check_destructive 0 l)) as [d Hd].
  { apply first_hit_is_Some. eapply Forall_impl; [exact Hl|]. intros c Hc. cbn beta in Hc. unfold check_destructive.
    destruct (sc_argv c) as [|x args]; [done|]. apply Forall_cons in Hc as [Hx _]. by destruct (is_destructive_ascii x Hx) as [d ->]. }
  cbn. destruct h as [[? [? ?]]|]; [done|]. repeat (case_match; try done); by rewrite Hd.
Qed.

(** C29 (error): the stages panic only on a command of the text that has an
    argument with characters outside ASCII: the slices that fall inside a
    character are of such arguments.  Every other request is answered. *)
Theorem pipeline_panics_only_on_non_ascii `{!TreeSitter} (req : ShellRunRequest) :
  run_pipeline req = None →
  ∃ commands cmd arg, parse_for_security (sr_command req) = Simple commands ∧ cmd ∈ commands ∧ arg ∈ sc_argv cmd ∧
    ascii_text arg = false.
Proof.
  unfold run_pipeline. destruct (parse_for_security (sr_command req)) as [commands| |]; [|done..]. intros Hrun.
  destruct (decide (Forall (λ c, Forall (λ arg, ascii_text arg = true) (sc_argv c)) commands)) as [Hall|Hno].
  { destruct commands as [|c l]; [done|]. destruct (judge_commands_ascii req (c :: l) Hall) as [? Hj]. congruence. }
  apply not_Forall_Exists, Exists_exists in Hno as (cmd & Hcmd & Hno); [|intros ?; apply _].
  apply not_Forall_Exists, Exists_exists in Hno as (arg & Harg & Hno); [|intros ?; apply _].
  exists commands, cmd, arg. split_and!; [done..|]. by apply not_true_is_false.
Qed.

(** ** Output *)

(** What the reads of a pipe give, without a cap. *)
Fixpoint bytes_read (reads : list (result string string)) : string :=
  match reads with
  | Ok chunk :: reads => if is_empty chunk then EmptyString else chunk +:+ bytes_read reads
  | _ => EmptyString
  end.

Lemma read_capped_take cap reads buf : (String.length buf ≤ cap)%nat →
  read_capped buf cap reads = buf +:+ str_take (cap - String.length buf) (bytes_read reads).
Proof.
  revert buf. induction reads as [|r reads IH]; intros buf Hb; cbn [read_capped bytes_read].
  - destruct (cap <=? _)%nat; by rewrite str_take_all, str_app_nil_r by (cbn; lia).
  - destruct (Nat.leb_spec cap (String.length buf)) as [Hc|Hc].
    { assert (cap - String.length buf = 0)%nat as -> by lia. by rewrite str_app_nil_r. }
    destruct r as [chunk|]; [|by rewrite str_take_all, str_app_nil_r by (cbn; lia)].
    destruct (is_empty chunk); [by rewrite str_take_all, str_app_nil_r by (cbn; lia)|].
    rewrite str_take_app. destruct (Nat.ltb_spec (cap - String.length buf) (String.length chunk)) as [Hr|Hr].
    + assert (cap - String.length buf - String.length chunk = 0)%nat as -> by lia. by rewrite str_take_0, str_app_nil_r.
    + rewrite (str_take_all _ chunk) by lia. rewrite IH by (rewrite str_length_app; lia). rewrite str_app_assoc, str_length_app.
      do 3 f_equal. lia.
Qed.

(** The answer for a process that ended in time is what it wrote, up to the cap; for one
    whose time was up what was left in its pipes when it was killed, without what had
    been read before. *)
Definition answered (cap : nat) (p : ProcessEnd) (stdout stderr : string) (timed_out : bool) : Prop :=
  match p with
  | InTime w => stdout = str_take cap (bytes_read (wt_stdout w)) ∧ stderr = str_take cap (bytes_read (wt_stderr w)) ∧ timed_out = false
  | Killed _ _ (Some w) => stdout = str_take cap (bytes_read (wt_stdout w)) ∧ stderr = str_take cap (bytes_read (wt_stderr w)) ∧ timed_out = true
  | Killed _ _ None => stdout = EmptyString ∧ stderr = EmptyString ∧ timed_out = true
  end.

Lemma collect_output_answered cap p :
  let '(stdout, stderr, _, timed_out) := collect_output cap p in answered cap p stdout stderr timed_out.
Proof.
  assert (∀ reads, read_capped EmptyString cap reads = str_take cap (bytes_read reads)) as Hr.
  { intros reads. rewrite read_capped_take by (cbn; lia). cbn. by rewrite Nat.sub_0_r. }
  by destruct p as [w|out err [w|]]; cbn; rewrite ?Hr.
Qed.
Lemma answered_capped cap p stdout stderr timed_out : answered cap p stdout stderr timed_out →
  (String.length stdout ≤ cap ∧ String.length stderr ≤ cap)%nat.
Proof. destruct p as [w|out err [w|]]; intros (-> & -> & _); rewrite ?str_take_length; cbn [String.length]; lia. Qed.

(** C23 (bounds): a process is started only when the limits on its time and output
    are within the hard caps.  For a process that ended in time each stream answered is
    what it wrote, up to the cap; when its time was up it is what was left in the pipes
    after the kill, up to the cap, and what was read before is lost.  No stream is
    longer than the cap; output is said to be cut exactly when an answered stream is as
    long as the cap, which includes output of exactly that length; and the time is said
    to be up exactly when the process was killed. *)
Theorem runner_output_bounded `{!Os} (req : RunRequest) (o : RunOutcome) :
  runner_run req = Ok o →
  let cap := default OUTPUT_DEFAULT_CAP (rq_output_max_bytes req) in
  let timeout_ms := default TIMEOUT_DEFAULT_MS (rq_timeout_ms req) in
  cap ≤ 100 * 1024 * 1024 ∧ timeout_ms ≤ 60 * 60 * 1000 ∧ rq_sandbox req = SandboxNone ∧
  ∃ ended ms,
    launch (mk_Launch (rq_program req) (rq_args req) (rq_cwd req) (apply_env receiver_env (rq_env req)) (rq_stdin req)
              timeout_ms) = Ok (ended, ms) ∧
    answered (Z.to_nat cap) ended (ro_stdout o) (ro_stderr o) (ro_timed_out o) ∧
    (String.length (ro_stdout o) ≤ Z.to_nat cap ∧ String.length (ro_stderr o) ≤ Z.to_nat cap)%nat ∧
    (ro_output_truncated o = true ↔ String.length (ro_stdout o) = Z.to_nat cap ∨ String.length (ro_stderr o) = Z.to_nat cap).
Proof.
  unfold runner_run. cbv zeta. destruct (Z.ltb_spec OUTPUT_HARD_CAP (default OUTPUT_DEFAULT_CAP (rq_output_max_bytes req))); [done|].
  destruct (Z.ltb_spec TIMEOUT_HARD_CAP_MS (default TIMEOUT_DEFAULT_MS (rq_timeout_ms req))); [done|].
  case_bool_decide as Hs; [done|]. destruct (launch _) as [[ended ms]|e] eqn:Hl; [|done]. cbn.
  pose proof (collect_output_answered (Z.to_nat (default OUTPUT_DEFAULT_CAP (rq_output_max_bytes req))) ended) as Ha.
  destruct (collect_output _ ended) as [[[stdout stderr] status] timed_out]. pose proof (answered_capped _ _ _ _ _ Ha) as Hc.
  destruct status as [code|e]; [|done]. intros [= <-]. split; [done|]. split; [done|].
  split; [by destruct (rq_sandbox req)|]. exists ended, ms. cbn. split_and!; [done..|apply Hc|apply Hc|].
  rewrite orb_true_iff, !Nat.leb_le. lia.
Qed.
