(* ===== verification/ShellWalk.v ===== *)
(** * Shell commands: the walk misses no command

    The stages judge the commands the walk extracts; this file shows that these
    are all the commands of the tree, however deep they sit in lists, pipelines,
    negations, substitutions, quoted arguments and assignments, in order. *)

From Stdlib Require Import String Ascii.
From S2P Require Import Prelude RustStd Text ShellAst.

Open Scope Z_scope.

(** ** Induction on trees *)

Section node_ind.
Context (P : Node → Prop) (step : ∀ k b t l, Forall P l → P (mk_Node k b t l)).
Fixpoint tree_ind (n : Node) : P n :=
  let 'mk_Node k b t l := n in
  step k b t l ((fix all (l : list Node) : Forall P l :=
    match l with [] => Forall_nil_2 P | c :: l => Forall_cons_2 P c l (tree_ind c) (all l) end) l).
End node_ind.

(** ** The commands of a tree *)

(** The nodes that are commands, and those the walker takes as text. *)
Definition COMMANDS : list string := ["command"; "declaration_command"; "redirected_statement"].
Definition UNSEEN : list string := ["file_redirect"; "number"].

(** The texts of all the commands of a tree, inner ones first, whatever nodes they are
    in; a redirected statement counts as one command with the command in it. *)
Fixpoint all_commands (counted : bool) (n : Node) : list string :=
  let 'mk_Node k _ t l := n in
  concat (map (all_commands (negb (String.eqb k "redirected_statement"))) l) ++ (if counted && one_of COMMANDS k then [t] else []).

(** Those outside of the nodes taken as text, and those inside of them. *)
Fixpoint commands_in (counted : bool) (n : Node) : list string :=
  let 'mk_Node k _ t l := n in
  if one_of UNSEEN k then []
  else concat (map (commands_in (negb (String.eqb k "redirected_statement"))) l) ++ (if counted && one_of COMMANDS k then [t] else []).
Fixpoint unseen_in (counted : bool) (n : Node) : list string :=
  let 'mk_Node k _ t l := n in
  if one_of UNSEEN k then all_commands counted n
  else concat (map (unseen_in (negb (String.eqb k "redirected_statement"))) l).

(** What the grammar of bash guarantees of a tree: tokens (nodes without a name, or with
    a kind that is no word), words, names, comments, plain text and plain variables
    hold no commands, and of the children of a string only substitutions and
    expansions do. *)
Definition LEAVES : list string :=
  ["word"; "raw_string"; "string_content"; "variable_name"; "simple_expansion"; "comment"] ++ DECLARATIONS.
Definition leaf_kind (k : string) : bool :=
  one_of LEAVES k || blank k || str_forall (λ z, negb (is_ascii_alphanumeric z)) k.
Definition holds_none (n : Node) : bool := bool_decide (all_commands true n = []).
Definition may_be_in_string (n : Node) : bool :=
  one_of ["command_substitution"; "expansion"; "process_substitution"; "arithmetic_expansion"] (node_kind n) || holds_none n.
Fixpoint grammatical (n : Node) : bool :=
  let 'mk_Node k b _ l := n in
  (negb (leaf_kind k || negb b) || holds_none n)
  && (negb (String.eqb k "string") || forallb may_be_in_string l)
  && forallb grammatical l.

Lemma concat_nil {A} (f : A → list string) l : concat (map f l) = [] ↔ ∀ c, c ∈ l → f c = [].
Proof.
  induction l as [|a l IH]; cbn; [split; [by intros _ c Hc%elem_of_nil|done]|]. rewrite app_nil, IH. split.
  - intros [Ha Hl] c [-> | Hc]%elem_of_cons; auto.
  - intros H. split; [apply H; left|]. intros c Hc. apply H. by right.
Qed.
Lemma none_in n counted : all_commands true n = [] → commands_in counted n = [].
Proof.
  revert counted. induction n as [k b t l IH] using tree_ind. intros counted. cbn [all_commands commands_in]. destruct (one_of UNSEEN k); [done|].
  rewrite Forall_forall in IH. intros [Hc Hk]%app_nil. destruct (one_of COMMANDS k) eqn:Ek; [done|]. rewrite andb_false_r, app_nil_r.
  destruct (String.eqb_spec k "redirected_statement") as [-> | Hne]; [done|]. rewrite concat_nil in *. intros c Hin. apply IH; auto.
Qed.
(** The commands of a tree are those the walker sees and those it does not. *)
Lemma all_commands_split n counted : all_commands counted n ≡ₚ commands_in counted n ++ unseen_in counted n.
Proof.
  revert counted. induction n as [k b t l IH] using tree_ind. intros counted. cbn [all_commands commands_in unseen_in]. destruct (one_of UNSEEN k); [done|].
  rewrite <- app_assoc, (Permutation_app_comm _ (concat (map (unseen_in _) l))), app_assoc. apply Permutation_app_tail.
  generalize (negb (String.eqb k "redirected_statement")). intros c. induction IH as [|n l Hn _ IHl]; cbn; [done|]. rewrite Hn, IHl, <- !app_assoc.
  apply Permutation_app_head. rewrite !app_assoc. by rewrite (Permutation_app_comm (unseen_in c n)).
Qed.

(** ** What a walk extracts *)

(** A walk gives a value, having appended commands with these texts, or refuses
    the text as too complex. *)
Definition too_complex {A} (r : result ParseForSecurityResult A) : Prop :=
  match r with Ok _ => True | Err e => ∃ reason kind, e = TooComplex reason kind end.
Definition extracts {A} (m : W A) (texts : list string) : Prop :=
  (∀ a l, m = Ok (a, l) → sc_text <$> l = texts) ∧ too_complex m.

Lemma extracts_ret {A} (a : A) : extracts (mret a) [].
Proof. split; [by intros ? ? [= <- <-]|done]. Qed.
Lemma extracts_refuse {A} reason kind texts : extracts (@refuse A reason kind) texts.
Proof. split; [by intros ? ?|]. by exists reason, (Some kind). Qed.
Lemma extracts_pure {A} (r : result ParseForSecurityResult A) : too_complex r → extracts (pure_walk r) [].
Proof. destruct r; [|done]. intros _. apply extracts_ret. Qed.
Lemma extracts_emit c : extracts (emit c) [sc_text c].
Proof. split; [by intros ? ? [= <- <-]|done]. Qed.
Lemma walk_bind_inv {A B} (m : W A) (f : A → W B) b l : m ≫= f = Ok (b, l) →
  ∃ a l1 l2, m = Ok (a, l1) ∧ f a = Ok (b, l2) ∧ l = l1 ++ l2.
Proof.
  unfold mbind, W_mbind. destruct m as [[a l1]|e]; [|done]. destruct (f a) as [[b' l2]|e] eqn:Hfa; [|done].
  intros [= <- <-]. by exists a, l1, l2.
Qed.
Lemma extracts_bind_of {A B} (m : W A) (f : A → W B) t1 t2 :
  extracts m t1 → (∀ a l, m = Ok (a, l) → extracts (f a) t2) → extracts (m ≫= f) (t1 ++ t2).
Proof.
  intros [Hm Hr] Hf. split.
  - intros b l (a & l1 & l2 & Hma & Hfa & ->)%walk_bind_inv. rewrite fmap_app. f_equal; [by eapply Hm|by eapply Hf].
  - destruct m as [[a l]|e]; [|done]. destruct (Hf a l eq_refl) as [_ Hfr]. unfold mbind, W_mbind. by destruct (f a) as [[]|].
Qed.
Lemma extracts_bind {A B} (m : W A) (f : A → W B) t1 t2 :
  extracts m t1 → (∀ a, extracts (f a) t2) → extracts (m ≫= f) (t1 ++ t2).
Proof. intros Hm Hf. apply extracts_bind_of; auto. Qed.
(** Steps that extract nothing of their own. *)
Lemma extracts_then {A B} (m : W A) (f : A → W B) texts :
  extracts m texts → (∀ a, extracts (f a) []) → extracts (m ≫= f) texts.
Proof. intros Hm Hf. rewrite <- (app_nil_r texts). by apply extracts_bind. Qed.
Lemma extracts_after {A B} (m : W A) (f : A → W B) texts :
  extracts m [] → (∀ a, extracts (f a) texts) → extracts (m ≫= f) texts.
Proof. intros Hm Hf. change texts with ([] ++ texts). by apply extracts_bind. Qed.

Lemma extracts_fold {S X} (f : S → X → W S) (texts : X → list string) s l :
  (∀ s x, x ∈ l → extracts (f s x) (texts x)) → extracts (fold_walk f s l) (concat (map texts l)).
Proof.
  revert s. induction l as [|x l IH]; intros s Hf; cbn; [apply extracts_ret|]. apply extracts_bind; [apply Hf; left|].
  intros s'. apply IH. intros s'' y Hy. apply Hf. by right.
Qed.

Lemma extracts_if {A} (b : bool) (m m' : W A) texts :
  (b = true → extracts m texts) → (b = false → extracts m' texts) → extracts (if b then m else m') texts.
Proof. destruct b; naive_solver. Qed.

Create HintDb walk.
#[export] Hint Resolve extracts_ret extracts_refuse extracts_pure extracts_emit : walk.

(** Expansions and redirects refuse the same way. *)
Lemma too_complex_bind {A B} (r : result ParseForSecurityResult A) (f : A → result ParseForSecurityResult B) :
  too_complex r → (∀ a, too_complex (f a)) → too_complex (a ← r; f a).
Proof. destruct r; cbn; auto. Qed.
Lemma too_complex_ok_or {A} (o : option A) reason kind : too_complex (ok_or o (too_complex_node reason kind)).
Proof. destruct o; [done|]. by exists reason, (Some kind). Qed.
Lemma too_complex_fold {S X} (f : S → X → result ParseForSecurityResult S) s l :
  (∀ s x, too_complex (f s x)) → too_complex (try_fold f s l).
Proof.
  intros Hf. revert s. induction l as [|x l IH]; intros s; cbn; [done|]. specialize (Hf s x). destruct (f s x); [apply IH|done].
Qed.
Lemma resolve_too_complex n scope inside : too_complex (resolve_simple_expansion n scope inside).
Proof.
  unfold resolve_simple_expansion. apply too_complex_bind; [apply too_complex_ok_or|]. intros [name special].
  repeat case_match; (done || by eexists _, _).
Qed.
Lemma redirect_too_complex n : too_complex (parse_file_redirect n).
Proof.
  unfold parse_file_redirect. apply too_complex_bind.
  - apply too_complex_fold. intros [[op target] fd] c. unfold redirect_child. repeat case_match; (done || by eexists _, _).
  - intros [[op target] fd]. apply too_complex_bind; [apply too_complex_ok_or|]. intros o.
    apply too_complex_bind; [apply too_complex_ok_or|]. done.
Qed.
#[export] Hint Resolve too_complex_ok_or resolve_too_complex redirect_too_complex : walk.

(** ** The functions of the walker *)

Lemma wk_node_walk n : wk_node (walk n) = n.
Proof. by destruct n. Qed.
Lemma wk_kind_walk n : wk_kind (walk n) = node_kind n.
Proof. unfold wk_kind. by rewrite wk_node_walk. Qed.

(** The commands below a node. *)
Definition within (n : Node) : list string := concat (map (commands_in true) (node_children n)).

(** The walk of a node extracts what is in it; leaves hold nothing. *)
Definition silent_kind (k : string) : bool := leaf_kind k || one_of UNSEEN k.
Record walks (n : Node) : Prop := {
  ws_quiet : silent_kind (node_kind n) = true ∨ is_named n = false → ∀ counted, commands_in counted n = [];
  ws_command : ∀ scope, extracts (wk_command (walk n) scope) (within n);
  ws_declaration : ∀ scope, extracts (wk_declaration (walk n) scope) (within n);
  ws_assignment : ∀ scope, extracts (wk_assignment (walk n) scope) (within n);
  ws_argument : ∀ scope, extracts (wk_argument (walk n) scope) (commands_in true n);
  ws_name : ∀ scope, extracts (wk_name (walk n) scope) (within n);
  ws_substitution : ∀ scope, extracts (wk_substitution (walk n) scope) (within n);
  ws_collect : ∀ scope, extracts (wk_collect (walk n) scope) (commands_in true n);
}.

Lemma commands_in_within n k counted : node_kind n = k → one_of UNSEEN k = false → one_of COMMANDS k && counted = false →
  k ≠ "redirected_statement" → commands_in counted n = within n.
Proof.
  destruct n as [k' b t l]. cbn. intros <- -> Hc Hr. rewrite andb_comm, Hc, app_nil_r. by destruct (String.eqb_spec k' "redirected_statement").
Qed.

Section children.
Context (l : list Node) (Hl : ∀ c, c ∈ l → walks c).

Lemma fold_children {S} (f : S → Walk → W S) counted s :
  (∀ s c, c ∈ l → walks c → extracts (f s (walk c)) (commands_in counted c)) →
  extracts (fold_walk f s (map walk l)) (concat (map (commands_in counted) l)).
Proof using Hl.
  intros Hf. replace (concat (map (commands_in counted) l)) with (concat (map (λ w, commands_in counted (wk_node w)) (map walk l))).
  - apply extracts_fold. intros s' w (c & -> & Hc)%list_elem_of_fmap. rewrite wk_node_walk. by auto.
  - rewrite map_map. f_equal. apply map_ext. intros c. by rewrite wk_node_walk.
Qed.

Lemma fold_named {S} (f : S → Walk → W S) counted s :
  (∀ s c, c ∈ l → walks c → extracts (f s (walk c)) (commands_in counted c)) →
  extracts (fold_walk f s (named_children (map walk l))) (concat (map (commands_in counted) l)).
Proof using Hl.
  intros Hf.
  replace (concat (map (commands_in counted) l))
    with (concat (map (λ w, commands_in counted (wk_node w)) (named_children (map walk l)))).
  - apply extracts_fold. intros s' w [_ (c & -> & Hc)%list_elem_of_fmap]%list_elem_of_filter. rewrite wk_node_walk. by auto.
  - clear Hf. revert Hl. unfold named_children. induction l as [|c l' IH]; intros Hw; [done|]. cbn [map]. rewrite filter_cons, wk_node_walk.
    assert (∀ c', c' ∈ l' → walks c') as Hw' by (intros c' Hc'; apply Hw; by right).
    destruct (decide (is_named c = true)) as [Hn|Hn]; cbn [map concat]; [by rewrite wk_node_walk, IH|].
    rewrite (ws_quiet c), IH; [done|done|apply Hw; left|]. right. by apply not_true_is_false.
Qed.
End children.

(** Kinds that hold no commands. *)
Definition quiet (n : Node) : Prop := silent_kind (node_kind n) = true ∨ is_named n = false → ∀ counted, commands_in counted n = [].
Lemma walks_quiet n : walks n → quiet n.
Proof. intros Hw. exact (ws_quiet n Hw). Qed.
Lemma quiet_kind counted n kind : quiet n → node_kind n = kind → silent_kind kind = true → commands_in counted n = [].
Proof. intros Hq <- Hk. apply Hq. by left. Qed.
Lemma quiet_kinds counted n kinds : quiet n → one_of kinds (node_kind n) = true → forallb silent_kind kinds = true → commands_in counted n = [].
Proof.
  intros Hq Hk Hs. apply Hq. left. unfold one_of in Hk. apply existsb_exists in Hk as (k & Hin & Heq%String.eqb_eq).
  rewrite forallb_forall in Hs. rewrite Heq. by apply Hs.
Qed.

(** The cases of a function that looks at the kind of a child, and its steps. *)
Ltac opaque := first [eapply quiet_kind; [by eauto using walks_quiet|eassumption|reflexivity] | eapply quiet_kinds; [by eauto using walks_quiet|eassumption|reflexivity]].
Ltac cases :=
  rewrite ?wk_kind_walk, ?wk_node_walk;
  repeat (apply extracts_if; intros ?H);
  rewrite ?String.eqb_eq in *;
  try apply extracts_refuse.
Ltac silent := replace (commands_in _ _) with (@nil string) by (symmetry; opaque);
  repeat first [apply extracts_ret | solve [eauto with walk] | apply extracts_then; [by eauto with walk|intros ?] | apply extracts_if; intros ?].
Ltac ret_after := apply extracts_then; [|intros ?; repeat case_match; apply extracts_ret].

Section functions.
Context (l : list Node) (Hl : ∀ c, c ∈ l → walks c).
Notation inner := (concat (map (commands_in true) l)).

Lemma substitution_walks scope : extracts (collect_command_substitution (map walk l) scope) inner.
Proof using Hl.
  unfold collect_command_substitution. ret_after. apply fold_children; [done|]. intros s c Hc Hw. cases; [silent|]. by apply ws_collect.
Qed.

Lemma string_child_walks scope st c : walks c → 
  may_be_in_string c = true →
  extracts (string_child scope st (walk c)) (commands_in true c).
Proof.
  intros Hw Hg. destruct st as [[out dynamic] literal].
  assert (String.eqb (node_kind c) "command_substitution" = false → one_of ["expansion"; "process_substitution"; "arithmetic_expansion"] (node_kind c) = false →
    commands_in true c = []) as Hother.
  { intros Hne Hne'. unfold may_be_in_string in Hg. cbn [one_of existsb] in Hg, Hne'. rewrite Hne in Hg. cbn [orb] in Hg. rewrite Hne' in Hg.
    apply none_in. by apply bool_decide_eq_true in Hg. }
  unfold string_child. cases; [silent|silent|..].
  - ret_after. erewrite commands_in_within by (done || eassumption). by apply ws_substitution.
  - silent.
  - rewrite Hother; [apply extracts_ret|done..].
  - rewrite Hother; [apply extracts_ret|done..].
Qed.

Lemma double_string_walks scope :
  (∀ c, c ∈ l → may_be_in_string c = true) →
  extracts (walk_double_string (map walk l) scope) inner.
Proof using Hl.
  intros Hg. unfold walk_double_string. apply extracts_then.
  - apply fold_children; [done|]. intros s c Hc Hw. apply string_child_walks; auto.
  - intros [[out dynamic] literal]. cases. apply extracts_ret.
Qed.

Lemma argument_walks k b t scope : let n := mk_Node k b t l in
  quiet n → (k = "string" → ∀ c, c ∈ l → may_be_in_string c = true) →
  extracts (walk_argument n (map walk l) scope) (commands_in true n).
Proof using Hl.
  intros n Hq Hg. unfold walk_argument. cases; [silent|silent|..].
  - erewrite commands_in_within by (done || eassumption). by apply double_string_walks, Hg.
  - silent.
  - erewrite commands_in_within by (done || eassumption). apply fold_named; [done..|]. intros s c Hc Hw. ret_after. by apply ws_argument.
Qed.

Lemma assignment_child_walks scope st c : walks c → extracts (assignment_child scope st (walk c)) (commands_in true c).
Proof.
  intros Hw. destruct st as [name value]. unfold assignment_child. cases; [silent|silent|..].
  - ret_after. by apply ws_argument.
  - ret_after. erewrite commands_in_within by (done || eassumption). by apply ws_substitution.
  - silent.
  - rewrite (ws_quiet c Hw); [apply extracts_ret|]. left. unfold silent_kind, leaf_kind.
    rewrite andb_false_iff, !negb_false_iff in *. destruct (blank (node_kind c)); [by rewrite !orb_true_r|]. 
    destruct H5 as [H5|H5]; [done|]. by rewrite H5, orb_true_r.
Qed.

Lemma assignment_walks scope : extracts (walk_variable_assignment (map walk l) scope) inner.
Proof using Hl.
  unfold walk_variable_assignment. apply extracts_then.
  - apply fold_children; [done|]. intros s c Hc Hw. by apply assignment_child_walks.
  - intros [name value]. apply extracts_after; [by eauto with walk|]. intros nm. cases. apply extracts_ret.
Qed.

Lemma name_walks scope : extracts (walk_command_name (map walk l) scope) inner.
Proof using Hl.
  unfold walk_command_name. cases. apply fold_named; [done..|]. intros s c Hc Hw. ret_after. by apply ws_argument.
Qed.

Lemma command_walks n scope : extracts (walk_command n (map walk l) scope) inner.
Proof using Hl.
  unfold walk_command. apply extracts_then.
  - apply fold_named; [done..|]. intros [[argv env_vars] local_scope] c Hc Hw. unfold command_child. cases.
    + ret_after. erewrite commands_in_within by (done || eassumption). by apply ws_assignment.
    + ret_after. erewrite commands_in_within by (done || eassumption). by apply ws_name.
    + ret_after. by apply ws_argument.
    + silent.
  - intros [[argv env_vars] local_scope]. cases. apply extracts_ret.
Qed.

Lemma declaration_walks n scope : extracts (walk_declaration_command n (map walk l) scope) inner.
Proof using Hl.
  unfold walk_declaration_command. apply extracts_then.
  - apply fold_children; [done..|]. intros [[argv env_vars] local_scope] c Hc Hw. unfold declaration_child. cases.
    + silent.
    + ret_after. by apply ws_argument.
    + ret_after. erewrite commands_in_within by (done || eassumption). by apply ws_assignment.
    + rewrite (quiet_kinds true c ["comment"; EmptyString; " "; String "009" EmptyString; String "010" EmptyString]);
        [apply extracts_ret|by apply walks_quiet| |done]. unfold is_skip_unnamed in *. done.
  - intros [[argv env_vars] local_scope]. cases. apply extracts_ret.
Qed.

Lemma redirected_walks n scope :
  extracts (walk_redirected_statement n (map walk l) scope) (concat (map (commands_in false) l)).
Proof using Hl.
  unfold walk_redirected_statement. apply extracts_then.
  - apply fold_named; [done..|]. intros [[inner_cmd redirects] sc] c Hc Hw. unfold redirected_child. cases.
    + ret_after. erewrite commands_in_within by (done || eassumption). by apply ws_command.
    + ret_after. erewrite commands_in_within by (done || eassumption). by apply ws_declaration.
    + silent.
    + silent.
  - intros [[inner_cmd redirects] sc]. apply extracts_then; [by eauto with walk|]. intros cmd. apply extracts_ret.
Qed.
End functions.

(** A command has the text of its node. *)
Lemma walk_command_text n cs scope cmd l : walk_command n cs scope = Ok (cmd, l) → sc_text cmd = node_text n.
Proof.
  unfold walk_command. intros ([[argv env_vars] sc] & ? & ? & _ & Hc & _)%walk_bind_inv. case_bool_decide; [done|]. by injection Hc as <- _.
Qed.
Lemma walk_declaration_text n cs scope cmd sc l : walk_declaration_command n cs scope = Ok (cmd, sc, l) → sc_text cmd = node_text n.
Proof.
  unfold walk_declaration_command. intros ([[argv env_vars] sc'] & ? & ? & _ & Hc & _)%walk_bind_inv.
  case_bool_decide; [done|]. by injection Hc as <- _ _.
Qed.
Lemma walk_redirected_text n cs scope cmd sc l : walk_redirected_statement n cs scope = Ok (cmd, sc, l) → sc_text cmd = node_text n.
Proof.
  unfold walk_redirected_statement. intros ([[inner redirects] sc'] & ? & ? & _ & Hr & _)%walk_bind_inv.
  apply walk_bind_inv in Hr as (c & ? & ? & _ & Hc & _). by injection Hc as <- _ _.
Qed.

(** A node that is a command: what is below it, then itself. *)
Lemma extracts_own {A B} (m : W A) (f : A → W B) below text :
  extracts m below → (∀ a l, m = Ok (a, l) → ∃ cmd b, f a = (_ ← emit cmd; mret b) ∧ sc_text cmd = text) →
  extracts (m ≫= f) (below ++ [text]).
Proof.
  intros Hm Hf. apply extracts_bind_of; [done|]. intros a l Ha. destruct (Hf a l Ha) as (cmd & b & -> & <-).
  apply extracts_then; [apply extracts_emit|]. intros _. apply extracts_ret.
Qed.

Section collect.
Context (l : list Node) (Hl : ∀ c, c ∈ l → walks c).

(** Nodes that pass over their tokens and collect from the other children. *)
Lemma collect_children_walks {S} (f : S → Walk → W S) s k b t :
  (∀ s c, c ∈ l → walks c → extracts (f s (walk c)) (commands_in true c)) → one_of UNSEEN k = false → one_of COMMANDS k = false →
  extracts (fold_walk f s (map walk l)) (commands_in true (mk_Node k b t l)).
Proof using Hl.
  intros Hf Hs Hc. rewrite (commands_in_within (mk_Node k b t l) k true); [by apply fold_children|done|done|by rewrite Hc|]. by intros ->.
Qed.

Lemma collect_walks k b t scope : let n := mk_Node k b t l in
  quiet n → extracts (collect_commands n (map walk l) scope) (commands_in true n).
Proof using Hl.
  intros n Hq. unfold collect_commands. subst n. cbn [node_kind node_text]. cases; try subst k.
  - unfold collect_pipeline. ret_after. apply collect_children_walks; [|done..]. intros s c Hc Hw. cases; [silent|]. by apply ws_collect.
  - unfold collect_list. assert (one_of UNSEEN k = false ∧ one_of COMMANDS k = false) as [? ?].
    { apply existsb_exists in H0 as (k' & Hin & ->%String.eqb_eq). repeat destruct Hin as [<-|Hin]; done. }
    apply collect_children_walks; [|done..]. intros s c Hc Hw. cases; [silent|]. by apply ws_collect.
  - change (commands_in true _) with (concat (map (commands_in false) l) ++ [t]). apply extracts_own; [by apply redirected_walks|].
    intros [cmd sc] l' Hm. exists cmd, sc. split; [done|]. by apply walk_redirected_text in Hm.
  - change (commands_in true _) with (concat (map (commands_in true) l) ++ [t]). apply extracts_own; [by apply command_walks|].
    intros cmd l' Hm. exists cmd, scope. split; [done|]. by apply walk_command_text in Hm.
  - change (commands_in true _) with (concat (map (commands_in true) l) ++ [t]). apply extracts_own; [by apply declaration_walks|].
    intros [cmd sc] l' Hm. exists cmd, sc. split; [done|]. by apply walk_declaration_text in Hm.
  - apply collect_children_walks; [|done..]. intros s c Hc Hw. cases; [silent|]. by apply ws_collect.
  - rewrite (commands_in_within _ "variable_assignment") by done. ret_after. by apply assignment_walks.
  - rewrite (Hq (or_introl eq_refl)). apply extracts_ret.
Qed.
End collect.

Lemma grammatical_walks n : grammatical n = true → walks n.
Proof.
  induction n as [k b t l IH] using tree_ind. cbn [grammatical]. rewrite !andb_true_iff. intros [[Hleaf Hstring] Hrec].
  rewrite forallb_forall in Hrec. rewrite Forall_forall in IH.
  assert (∀ c, c ∈ l → walks c) as Hl by (intros c Hc; apply IH; [done|]; by apply Hrec, list_elem_of_In).
  assert (quiet (mk_Node k b t l)) as Hq.
  { intros Hs counted. destruct (one_of UNSEEN k) eqn:Hu; [cbn [commands_in]; by rewrite Hu|]. apply none_in, (bool_decide_eq_true (all_commands true (mk_Node k b t l) = [])).
    fold (holds_none (mk_Node k b t l)). destruct (holds_none _); [done|]. rewrite orb_false_r, negb_true_iff, orb_false_iff, negb_false_iff in Hleaf.
    destruct Hleaf as [Hk ->]. destruct Hs as [Hs|Hs]; [|done]. unfold silent_kind in Hs. cbn [node_kind] in Hs. by rewrite Hk, Hu in Hs. }
  constructor; [done|..]; intros scope; cbn [walk wk_command wk_declaration wk_assignment wk_argument wk_name wk_substitution wk_collect];
    change (within (mk_Node k b t l)) with (concat (map (commands_in true) l)).
  - by apply command_walks.
  - by apply declaration_walks.
  - by apply assignment_walks.
  - apply argument_walks; [done..|]. intros -> c Hc%list_elem_of_In. cbn in Hstring. rewrite forallb_forall in Hstring. by apply Hstring.
  - by apply name_walks.
  - by apply substitution_walks.
  - by apply collect_walks.
Qed.

(** C5 (safety): the walk misses no command but those in nodes it takes as text.  When
    the guard understands a text, the commands it hands to the stages are all the
    commands of the tree of the text outside of redirect targets and numbers: those of
    lists, pipelines, negations and redirected statements, and those inside
    substitutions, wherever these are in quoted arguments, names and assignments; each
    once, in order, inner ones first.  With the commands in redirect targets and
    numbers, which bash runs and no stage judges, they are all the commands of the tree,
    in nodes of whatever kind.  The text has a tree without errors, unless it is
    blank. *)
Theorem every_command_extracted `{!TreeSitter} (cmd : string) (commands : list SimpleCommand) :
  (∀ root, parse_root cmd = Ok root → grammatical root = true) → parse_for_security cmd = Simple commands →
  (blank cmd = true ∧ commands = []) ∨
  ∃ root, parse_root cmd = Ok root ∧ has_error root = false ∧ sc_text <$> commands = commands_in true root ∧
    all_commands true root ≡ₚ (sc_text <$> commands) ++ unseen_in true root.
Proof.
  intros Hg. unfold parse_for_security. destruct (is_empty cmd) eqn:He.
  { intros [= <-]. left. apply bool_decide_eq_true in He as ->. done. }
  destruct (pre_check cmd); [done|]. destruct (blank cmd); [intros [= <-]; by left|].
  destruct (parse_root cmd) as [root|e]; [|done]. destruct (has_error root) eqn:Herr; [done|].
  destruct (ws_collect root (grammatical_walks root (Hg root eq_refl)) ∅) as [Hex Href].
  destruct (wk_collect (walk root) ∅) as [[scope cmds]|e].
  - intros [= <-]. right. exists root. rewrite (Hex _ _ eq_refl). split_and!; [done..|]. apply all_commands_split.
  - by destruct Href as (reason & kind & ->).
Qed.
