(* ===== verification/ShellSamples.v ===== *)
(** * Shell commands: sample texts

    Trees as tree-sitter-bash gives them for a few texts, processes that write a
    few bytes, the witnesses of the theorems on shell.run, and runs that show
    where the guard understands a text otherwise than bash. *)

From Stdlib Require Import String Ascii.
From S2P Require Import Prelude RustStd Text Ura Json World Programs ShellAst ShellStages ShellProps ShellRun ShellWalk.

Open Scope Z_scope.

(** ** Trees *)

Definition leaf (kind text : string) : Node := mk_Node kind true text [].
Definition token (text : string) : Node := mk_Node text false text [].
Definition quote_token : Node := token (String "034" EmptyString).
Definition branch (kind text : string) (l : list Node) : Node := mk_Node kind true text l.
Definition command_of (text name : string) (args : list Node) : Node :=
  branch "command" text (branch "command_name" name [leaf "word" name] :: args).
Definition substitution_of (text : string) (c : Node) : Node :=
  branch "command_substitution" text [token "$("; c; token ")"].
Definition assign_of (text name op value : string) : Node :=
  branch "variable_assignment" text [leaf "variable_name" name; token op; leaf "word" value].
Definition expand_of (name : string) : Node :=
  branch "simple_expansion" ("$" +:+ name) [token "$"; leaf "variable_name" name].
Definition redirected_of (text : string) (c : Node) (op : string) (target : Node) : Node :=
  branch "redirected_statement" text [c; branch "file_redirect" (op +:+ " " +:+ node_text target) [token op; target]].

Definition q (s : string) : string := String "034" (s +:+ String "034" EmptyString).

(** A log line written below the working directory. *)
Definition log_text : string := "echo hi >> ./log/../out.txt".
Definition log_tree : Node := branch "program" log_text
  [redirected_of log_text (command_of "echo hi" "echo" [leaf "word" "hi"]) ">>" (leaf "word" "./log/../out.txt")].

(** Commands in a pipeline, in a quoted argument and in an assignment. *)
Definition nested_text : string := "D=" +:+ q "on $(date)" +:+ "; ! ls | wc " +:+ q "x $(id)".
Definition nested_tree : Node := branch "program" nested_text
  [branch "variable_assignment" ("D=" +:+ q "on $(date)")
     [leaf "variable_name" "D"; token "=";
      branch "string" (q "on $(date)")
        [quote_token; leaf "string_content" "on "; substitution_of "$(date)" (command_of "date" "date" []); quote_token]];
   token ";";
   branch "negated_command" ("! ls | wc " +:+ q "x $(id)")
     [token "!";
      branch "pipeline" ("ls | wc " +:+ q "x $(id)")
        [command_of "ls" "ls" []; token "|";
         command_of ("wc " +:+ q "x $(id)") "wc"
           [branch "string" (q "x $(id)")
              [quote_token; leaf "string_content" "x "; substitution_of "$(id)" (command_of "id" "id" []); quote_token]]]]].

(** A name whose last four bytes start inside a character. *)
Definition euro_text : string := "€€".
Definition euro_tree : Node := branch "program" euro_text [command_of euro_text euro_text []].

(** A substitution in the target of a redirect. *)
Definition target_text : string := "echo hi > " +:+ q "/work/$(rm -rf /)".
Definition target_tree : Node := branch "program" target_text
  [redirected_of target_text (command_of "echo hi" "echo" [leaf "word" "hi"]) ">"
     (branch "string" (q "/work/$(rm -rf /)")
        [quote_token; leaf "string_content" "/work/";
         substitution_of "$(rm -rf /)" (command_of "rm -rf /" "rm" [leaf "word" "-rf"; leaf "word" "/"]); quote_token])].

(** The home directory of the user. *)
Definition tilde_text : string := "echo key >> ~/.ssh/authorized_keys".
Definition tilde_tree : Node := branch "program" tilde_text
  [redirected_of tilde_text (command_of "echo key" "echo" [leaf "word" "key"]) ">>" (leaf "word" "~/.ssh/authorized_keys")].

(** Both streams to a file. *)
Definition both_text : string := "ls >& /etc/motd".
Definition both_tree : Node := branch "program" both_text
  [redirected_of both_text (command_of "ls" "ls" []) ">&" (leaf "word" "/etc/motd")].

(** A flag in two halves. *)
Definition append_text : string := "F=-de; F+=lete; find . $F".
Definition append_tree : Node := branch "program" append_text
  [assign_of "F=-de" "F" "=" "-de"; token ";"; assign_of "F+=lete" "F" "+=" "lete"; token ";";
   command_of "find . $F" "find" [leaf "word" "."; expand_of "F"]].

(** An assignment before a command, which bash makes after the expansions. *)
Definition prefix_text : string := "F=-delete; F=-print find . $F".
Definition prefix_tree : Node := branch "program" prefix_text
  [assign_of "F=-delete" "F" "=" "-delete"; token ";";
   branch "command" "F=-print find . $F"
     [assign_of "F=-print" "F" "=" "-print"; branch "command_name" "find" [leaf "word" "find"]; leaf "word" "."; expand_of "F"]].

(** An assignment that bash does not make. *)
Definition skipped_text : string := "F=-delete; false && F=-print; find . $F".
Definition skipped_tree : Node := branch "program" skipped_text
  [assign_of "F=-delete" "F" "=" "-delete"; token ";";
   branch "list" "false && F=-print" [command_of "false" "false" []; token "&&"; assign_of "F=-print" "F" "=" "-print"]; token ";";
   command_of "find . $F" "find" [leaf "word" "."; expand_of "F"]].

(** A command whose output alone is the argument. *)
Definition padded_text : string := "X=; ls " +:+ q "$X$(cat list)".
Definition padded_tree : Node := branch "program" padded_text
  [branch "variable_assignment" "X=" [leaf "variable_name" "X"; token "="]; token ";";
   command_of ("ls " +:+ q "$X$(cat list)") "ls"
     [branch "string" (q "$X$(cat list)")
        [quote_token; expand_of "X"; substitution_of "$(cat list)" (command_of "cat list" "cat" [leaf "word" "list"]); quote_token]]].

Definition trees : list (string * Node) :=
  [(log_text, log_tree); (nested_text, nested_tree); (euro_text, euro_tree); (target_text, target_tree); (tilde_text, tilde_tree);
   (both_text, both_tree); (append_text, append_tree); (prefix_text, prefix_tree); (skipped_text, skipped_tree);
   (padded_text, padded_tree)].
#[global] Instance sample_TreeSitter : TreeSitter := {
  parse_root s := ok_or (assoc s trees) ParseFailed;
  has_error _ := false;
}.

(** A request that may write below /work. *)
Definition request (command : string) (read_only : bool) : ShellRunRequest :=
  mk_ShellRun command (Some "/work") None 1000 None 1024 SandboxNone false None (Some ["/work"]) read_only.

(** ** Witnesses *)

Definition log_command : SimpleCommand :=
  mk_Command ["echo"; "hi"] [] [mk_Redirect ">>" "./log/../out.txt" None] log_text.

Lemma write_targets_confined_witness :
  Forall plain_name ["work"; "out.txt"] ∧
  ∃ root, root ∈ ["/work"] ∧ components root `prefix_of` [RootDir; Normal "work"; Normal "out.txt"].
Proof.
  apply (write_targets_confined (request log_text false) ["/work"] "/work" [log_command] log_command
           (mk_Redirect ">>" "./log/../out.txt" None)); try reflexivity; try (vm_compute; reflexivity); [left..|right; left].
Defined.

Lemma every_command_extracted_witness :
  match parse_for_security nested_text with
  | Simple commands =>
      sc_text <$> commands = ["date"; "ls"; "id"; "wc " +:+ q "x $(id)"] ∧
      ((blank nested_text = true ∧ commands = []) ∨
       ∃ root, parse_root nested_text = Ok root ∧ has_error root = false ∧ sc_text <$> commands = commands_in true root ∧
         all_commands true root ≡ₚ (sc_text <$> commands) ++ unseen_in true root)
  | _ => False
  end.
Proof.
  destruct (parse_for_security nested_text) as [commands| |] eqn:Hp; [|vm_compute in Hp; discriminate..]. split.
  - vm_compute in Hp. injection Hp as <-. reflexivity.
  - apply (every_command_extracted nested_text commands); [|exact Hp]. intros root Hr. vm_compute in Hr. injection Hr as <-. reflexivity.
Defined.

Lemma pipeline_panics_only_on_non_ascii_witness :
  run_pipeline (request euro_text false) = None ∧
  ∃ commands cmd arg, parse_for_security euro_text = Simple commands ∧ cmd ∈ commands ∧ arg ∈ sc_argv cmd ∧ ascii_text arg = false.
Proof.
  split; [vm_compute; reflexivity|]. apply (pipeline_panics_only_on_non_ascii (request euro_text false)). vm_compute. reflexivity.
Defined.

(** A process that writes ten bytes, in two reads. *)
#[global] Instance sample_Os : Os := {
  receiver_env := ∅;
  launch la := Ok (InTime (mk_Waited [Ok "hello "; Ok "you!"; Ok EmptyString] [] (Ok (Some 0))), 3);
  path_exists p := String.eqb p "/usr/bin/bash";
}.
Definition run_request : RunRequest := mk_RunRequest "greet" [] None None None (Some 8) None SandboxNone.

Lemma runner_output_bounded_witness :
  match runner_run run_request with
  | Ok o => ro_stdout o = "hello yo" ∧ ro_output_truncated o = true ∧
      ∃ ended ms, launch (mk_Launch "greet" [] None (apply_env receiver_env None) None TIMEOUT_DEFAULT_MS) = Ok (ended, ms) ∧
        answered 8 ended (ro_stdout o) (ro_stderr o) (ro_timed_out o)
  | Err _ => False
  end.
Proof.
  destruct (runner_run run_request) as [o|e] eqn:Hr; [|vm_compute in Hr; discriminate].
  pose proof (runner_output_bounded run_request o Hr) as (_ & _ & _ & ended & ms & Hl & Hs & _).
  split; [|split]; [vm_compute in Hr; injection Hr as <-; reflexivity..|]. exists ended, ms. split; [exact Hl|exact Hs].
Defined.
(** What a process wrote before its time was up is not answered. *)
Example timeout_loses_output :
  collect_output 8 (Killed [Ok "partial"] [] (Some (mk_Waited [Ok EmptyString] [Ok EmptyString] (Ok None)))) =
    (EmptyString, EmptyString, Ok None, true).
Proof. vm_compute. reflexivity. Qed.
(** Output of exactly the length of the cap counts as cut. *)
Example exact_output_cut :
  match runner_run (mk_RunRequest "greet" [] None None None (Some 10) None SandboxNone) with
  | Ok o => ro_stdout o = "hello you!" ∧ ro_output_truncated o = true
  | Err _ => False
  end.
Proof. vm_compute. split; reflexivity. Qed.

(** ** Where bash and the guard part *)

(** A command of a request is handed to bash with these arguments. *)
Definition passes (req : ShellRunRequest) : option (list (list string)) :=
  match run_pipeline req with Some (Ok l) => Some (sc_argv <$> l) | _ => None end.

(** The command in the target of the redirect is run, and is not judged. *)
Example redirect_substitution_unseen : unseen_in true target_tree = ["rm -rf /"].
Proof. vm_compute. reflexivity. Qed.
Example redirect_substitution_unjudged : passes (request target_text false) = Some [["echo"; "hi"]].
Proof. vm_compute. reflexivity. Qed.
(** The same command is refused as an argument's substitution or on its own. *)
Example substitution_judged : is_destructive "rm" = Some true.
Proof. vm_compute. reflexivity. Qed.

(** A file of the home directory is taken for one below the working directory. *)
Example tilde_target_accepted : passes (request tilde_text false) = Some [["echo"; "key"]].
Proof. vm_compute. reflexivity. Qed.

(** A redirect of both streams passes for reading, and outside the roots. *)
Example both_streams_accepted : passes (request both_text true) = Some [["ls"]].
Proof. vm_compute. reflexivity. Qed.

(** Bash runs find with -delete each time. *)
Example append_assignment_accepted : passes (request append_text true) = Some [["find"; "."; "lete"]].
Proof. vm_compute. reflexivity. Qed.
Example prefix_assignment_accepted : passes (request prefix_text true) = Some [["find"; "."; "-print"]].
Proof. vm_compute. reflexivity. Qed.
Example skipped_assignment_accepted : passes (request skipped_text true) = Some [["false"]; ["find"; "."; "-print"]].
Proof. vm_compute. reflexivity. Qed.

(** An argument that is a substitution alone passes behind an empty variable. *)
Example padded_substitution_accepted :
  passes (request padded_text false) = Some [["cat"; "list"]; ["ls"; "__CMDSUB_OUTPUT__"]].
Proof. vm_compute. reflexivity. Qed.

(** Characters outside ASCII are torn. *)
Example unescape_tears : unescape_double_quoted "é" = "Ã©".
Proof. vm_compute. reflexivity. Qed.

(** Interpreters are known by their bare names. *)
Example interpreter_by_path : check_security (mk_Command ["/bin/sh"; "-c"; "rm x"] [] [] EmptyString) = Some None.
Proof. vm_compute. reflexivity. Qed.

(** Whatever git stash is told counts as reading. *)
Example stash_drop_reads_only : check_readonly (mk_Command ["git"; "stash"; "drop"] [] [] EmptyString) = None.
Proof. vm_compute. reflexivity. Qed.

(** Rules that are not arrays are no rules. *)
Example malformed_rules_ignored `{!UraLib} :
  parse_permission_rules (VObject [("deny_rules", VString "rm")]) = Ok None.
Proof. reflexivity. Qed.
