(* ===== verification/SessionWire.v ===== *)
(** * Sessions: the carrier of bidirectional input (src/src/daemon/invocation/bidi/session_wire.rs)

    The binary frame that carries one input of a remote bidirectional call: a
    header of sixteen bytes, the content type and the payload; the modes of
    dispatched calls; the identifiers of reverse calls in hexadecimal. *)

From stdpp Require Import pretty.
From Stdlib Require Import String Ascii.
From S2P Require Import Prelude RustStd Text Programs DeviceCaller.

Open Scope Z_scope.

(** ** Bytes *)

(** The number a text of bytes stands for, the high byte first. *)
Fixpoint be_value_from (acc : Z) (s : string) : Z :=
  match s with EmptyString => acc | String a s => be_value_from (256 * acc + byte_val a) s end.
Definition from_be_bytes (s : string) : Z := be_value_from 0 s.

(** [s[from..to]] and [s[n]], within the length. *)
Definition byte_slice (from to : nat) (s : string) : string := str_take (to - from) (str_drop from s).
Definition byte_at (n : nat) (s : string) : Z := from_be_bytes (byte_slice n (S n) s).

(** [std::str::from_utf8]: what is not changed by the lossy reading. *)
Definition str_from_utf8 (s : string) : option string := if String.eqb (from_utf8_lossy s) s then Some s else None.

(** ** Frames *)

Definition CARRIER_BIDI_INPUT_MAGIC : string := "EBI1".
Definition CARRIER_BIDI_INPUT_HEADER_BYTES : nat := 16.
Definition CARRIER_BIDI_INPUT_EOF : Z := 1.
Definition MAX_CARRIER_BIDI_CONTENT_TYPE_BYTES : nat := 1024.

Definition is_carrier_bidi_input (frame : string) : bool := bool_decide (is_Some (strip_prefix CARRIER_BIDI_INPUT_MAGIC frame)).

Record CarrierBidiInput := mk_CarrierBidiInput {
  cb_call_id : Z;
  cb_content_type : string;
  cb_payload : string;
  cb_eof : bool;
}.
Record CarrierBidiInputMetadata := mk_CarrierMetadata {
  cm_call_id : Z;
  cm_content_type : string;
  cm_payload_offset : nat;
  cm_eof : bool;
}.

Definition one_byte (z : Z) : string := be_bytes 1 z.

(** The length fits a [u16] when it is within the bound. *)
Definition encode_carrier_bidi_input (call_id : Z) (content_type payload : string) (eof : bool) : result error string :=
  _ ← ensure (String.length content_type <=? MAX_CARRIER_BIDI_CONTENT_TYPE_BYTES)%nat
        ["carrier Bidi content type exceeds 1024 bytes"];
  let content_len := Z.of_nat (String.length content_type) in
  _ ← ensure (content_len <? 65536) ["carrier Bidi content type length overflow"];
  Ok (CARRIER_BIDI_INPUT_MAGIC +:+ (one_byte (if eof then CARRIER_BIDI_INPUT_EOF else 0) +:+ (one_byte 0 +:+
     (be_bytes 2 content_len +:+ (be_bytes 8 call_id +:+ (content_type +:+ payload)))))).

Definition decode_carrier_bidi_input_metadata (frame : string) : result error (option CarrierBidiInputMetadata) :=
  if negb (is_carrier_bidi_input frame) then Ok None
  else
    _ ← ensure (CARRIER_BIDI_INPUT_HEADER_BYTES <=? String.length frame)%nat ["carrier Bidi input frame is truncated"];
    let flags := byte_at 4 frame in
    _ ← ensure ((Z.land flags (Z.lxor 255 CARRIER_BIDI_INPUT_EOF) =? 0) && (byte_at 5 frame =? 0))
          ["carrier Bidi input frame has unsupported flags"];
    let content_len := Z.to_nat (from_be_bytes (byte_slice 6 8 frame)) in
    _ ← ensure ((content_len <=? MAX_CARRIER_BIDI_CONTENT_TYPE_BYTES)%nat
                && (CARRIER_BIDI_INPUT_HEADER_BYTES + content_len <=? String.length frame)%nat)
          ["carrier Bidi input content type is invalid"];
    let call_id := from_be_bytes (byte_slice 8 16 frame) in
    let content_end := (CARRIER_BIDI_INPUT_HEADER_BYTES + content_len)%nat in
    content_type ← ok_or (str_from_utf8 (byte_slice CARRIER_BIDI_INPUT_HEADER_BYTES content_end frame))
                     ["carrier Bidi content type is not UTF-8"];
    Ok (Some (mk_CarrierMetadata call_id content_type content_end (negb (Z.land flags CARRIER_BIDI_INPUT_EOF =? 0)))).

Definition decode_carrier_bidi_input (frame : string) : result error (option CarrierBidiInput) :=
  m ← decode_carrier_bidi_input_metadata frame;
  Ok (match m with
      | Some m => Some (mk_CarrierBidiInput (cm_call_id m) (cm_content_type m) (str_drop (cm_payload_offset m) frame) (cm_eof m))
      | None => None
      end).

(** ** Modes of calls *)

Inductive CallMode := Rpc | Stream | Bidi.

(** The numbers of [InvocationCallMode] of the protocol. *)
Definition canonical_call_mode_wire (m : CallMode) : Z := match m with Rpc => 1 | Stream => 2 | Bidi => 3 end.
Definition canonical_dispatch_call_mode (raw : Z) : result error CallMode :=
  if raw =? 1 then Ok Rpc
  else if raw =? 2 then Ok Stream
  else if raw =? 3 then Ok Bidi
  else if raw =? 0 then bail "canonical DispatchCall requires an explicit call_mode"
  else bail ("canonical DispatchCall contains unknown call_mode " +:+ pretty raw).

(** ** Numbers in bytes *)

Lemma be_value_app s t acc : be_value_from acc (s +:+ t) = be_value_from (be_value_from acc s) t.
Proof. revert acc. induction s as [|a s IH]; intros acc; [done|]. rewrite str_app_cons. apply IH. Qed.


Lemma from_be_bytes_be_bytes n z : 0 ≤ z < 256 ^ Z.of_nat n → from_be_bytes (be_bytes n z) = z.
Proof.
  unfold from_be_bytes. revert z. induction n as [|n IH]; intros z Hz; [cbn in *; lia|]. cbn [be_bytes].
  rewrite Nat2Z.inj_succ, Z.pow_succ_r in Hz by lia. rewrite be_value_app, IH.
  - cbn. unfold byte_val. pose proof (Z.mod_pos_bound z 256). rewrite N_ascii_embedding by lia.
    rewrite Z2N.id by lia. rewrite <- Z.div_mod by lia. done.
  - split; [apply Z.div_pos; lia|apply Z.div_lt_upper_bound; lia].
Qed.

Lemma str_last_split s : s ≠ EmptyString → ∃ t a, s = t +:+ String a EmptyString.
Proof.
  induction s as [|a s IH]; [done|]. intros _. destruct s as [|b s]; [by exists EmptyString, a|].
  destruct IH as (t & c & ->); [done|]. by exists (String a t), c.
Qed.

Lemma from_be_bytes_bound s : 0 ≤ from_be_bytes s < 256 ^ Z.of_nat (String.length s).
Proof.
  unfold from_be_bytes. remember (String.length s) as n eqn:Hn. revert s Hn. induction n as [|n IH]; intros s Hn.
  - destruct s; [cbn; lia|done].
  - destruct (str_last_split s) as (t & a & ->); [by destruct s|]. rewrite str_length_app in Hn. cbn in Hn.
    rewrite be_value_app. cbn. specialize (IH t ltac:(lia)). pose proof (byte_val_bound a).
    rewrite Nat2Z.inj_succ, Z.pow_succ_r by lia. lia.
Qed.

Lemma be_bytes_from_be_bytes s : be_bytes (String.length s) (from_be_bytes s) = s.
Proof.
  remember (String.length s) as n eqn:Hn. revert s Hn. induction n as [|n IH]; intros s Hn.
  - by destruct s.
  - destruct (str_last_split s) as (t & a & ->); [by destruct s|]. rewrite str_length_app in Hn. cbn in Hn.
    unfold from_be_bytes. rewrite be_value_app. cbn [be_value_from be_bytes]. pose proof (byte_val_bound a).
    rewrite Z.mul_comm, Z.add_comm, Z.div_add, Z.mod_add, Z.div_small, Z.mod_small, Z.add_0_l by lia.
    f_equal; [apply IH; lia|]. unfold byte_val. by rewrite N2Z.id, ascii_N_embedding.
Qed.

(** ** Slices of frames *)

Lemma slice_app a b c s : (a ≤ b)%nat → (b ≤ c)%nat → byte_slice a b s +:+ byte_slice b c s = byte_slice a c s.
Proof.
  intros Hab Hbc. unfold byte_slice. replace (str_drop b s) with (str_drop (b - a) (str_drop a s)).
  - generalize (str_drop a s). intros t. replace (c - a)%nat with ((b - a) + (c - b))%nat by lia.
    generalize (b - a)%nat, (c - b)%nat. intros n m. revert t.
    induction n as [|n IH]; intros [|x t]; try done; [by destruct m|]. cbn [str_take str_drop Nat.add]. by rewrite str_app_cons, IH.
  - replace b with (a + (b - a))%nat at 2 by lia. generalize (b - a)%nat. intros n. revert s.
    induction a as [|a IH]; intros s; [done|]. destruct s; [by destruct n|]. apply IH; lia.
Qed.
Lemma slice_length a b s : (a ≤ b)%nat → (b ≤ String.length s)%nat → String.length (byte_slice a b s) = (b - a)%nat.
Proof. intros Hab Hb. unfold byte_slice. rewrite str_take_length, str_drop_length. lia. Qed.
Lemma slice_mid a b c : byte_slice (String.length a) (String.length a + String.length b) (a +:+ (b +:+ c)) = b.
Proof.
  unfold byte_slice. rewrite str_drop_app. replace (String.length a + String.length b - String.length a)%nat with (String.length b) by lia.
  rewrite str_take_app, str_take_all, Nat.sub_diag by lia. cbn. by rewrite str_app_nil_r.
Qed.
(** A frame is its slices. *)
Lemma frame_slices s n : (16 + n ≤ String.length s)%nat →
  s = byte_slice 0 4 s +:+ (byte_slice 4 5 s +:+ (byte_slice 5 6 s +:+ (byte_slice 6 8 s +:+ (byte_slice 8 16 s +:+ (byte_slice 16 (16 + n) s +:+ str_drop (16 + n) s))))).
Proof.
  intros Hn. rewrite <- !str_app_assoc. rewrite !slice_app by lia. unfold byte_slice. rewrite Nat.sub_0_r.
  change (str_drop 0 s) with s. by rewrite str_take_drop.
Qed.

(** ** Round trip *)

Lemma str_from_utf8_Some s t : str_from_utf8 s = Some t → t = s.
Proof. unfold str_from_utf8. destruct (String.eqb_spec (from_utf8_lossy s) s); [|done]. by intros [= <-]. Qed.

Lemma is_carrier_spec s : is_carrier_bidi_input s = true ↔ ∃ t, s = CARRIER_BIDI_INPUT_MAGIC +:+ t.
Proof. unfold is_carrier_bidi_input. rewrite bool_decide_eq_true. unfold is_Some. by setoid_rewrite strip_prefix_Some. Qed.

(** Bytes and numbers of a fixed width in a frame. *)
Lemma be_bytes_slice a b s : (a ≤ b)%nat → (b ≤ String.length s)%nat → be_bytes (b - a) (from_be_bytes (byte_slice a b s)) = byte_slice a b s.
Proof. intros Hab Hb. rewrite <- (slice_length a b s) by done. apply be_bytes_from_be_bytes. Qed.
Lemma from_be_bytes_slice_bound a b s : (a ≤ b)%nat → (b ≤ String.length s)%nat →
  0 ≤ from_be_bytes (byte_slice a b s) < 256 ^ Z.of_nat (b - a).
Proof. intros Hab Hb. rewrite <- (slice_length a b s) by done. apply from_be_bytes_bound. Qed.

Lemma flags_eof flags : 0 ≤ flags < 256 → Z.land flags (Z.lxor 255 CARRIER_BIDI_INPUT_EOF) = 0 →
  flags = if negb (Z.land flags CARRIER_BIDI_INPUT_EOF =? 0) then CARRIER_BIDI_INPUT_EOF else 0.
Proof.
  intros Hf Hl. set (ok := λ z, negb (Z.land z (Z.lxor 255 CARRIER_BIDI_INPUT_EOF) =? 0)
    || (z =? (if negb (Z.land z CARRIER_BIDI_INPUT_EOF =? 0) then CARRIER_BIDI_INPUT_EOF else 0))).
  assert (forallb ok (seqZ 0 256) = true) as Hall by (vm_compute; reflexivity). rewrite forallb_forall in Hall.
  specialize (Hall flags). rewrite <- list_elem_of_In, elem_of_seqZ in Hall. specialize (Hall ltac:(lia)). unfold ok in Hall.
  rewrite Hl in Hall. cbn in Hall. lia.
Qed.

Lemma slice_at n m a b c : String.length a = n → (n + String.length b)%nat = m → byte_slice n m (a +:+ (b +:+ c)) = b.
Proof. intros <- <-. apply slice_mid. Qed.

(** The parts of a frame that was put together. *)
Lemma frame_parts m f z len id ct payload : String.length m = 4%nat → String.length f = 1%nat → String.length z = 1%nat →
  String.length len = 2%nat → String.length id = 8%nat →
  let frame := m +:+ (f +:+ (z +:+ (len +:+ (id +:+ (ct +:+ payload))))) in
  let n := String.length ct in
  byte_slice 4 5 frame = f ∧ byte_slice 5 6 frame = z ∧ byte_slice 6 8 frame = len ∧ byte_slice 8 16 frame = id ∧
  byte_slice 16 (16 + n) frame = ct ∧ str_drop (16 + n) frame = payload ∧ String.length frame = (16 + n + String.length payload)%nat.
Proof.
  intros Hm Hf Hz Hlen Hid frame n. subst frame n. split_and!.
  - apply slice_at; lia.
  - rewrite <- (str_app_assoc m). apply slice_at; rewrite ?str_length_app; lia.
  - rewrite <- (str_app_assoc m), <- (str_app_assoc (m +:+ f)). apply slice_at; rewrite ?str_length_app; lia.
  - rewrite <- (str_app_assoc m), <- (str_app_assoc (m +:+ f)), <- (str_app_assoc ((m +:+ f) +:+ z)).
    apply slice_at; rewrite ?str_length_app; lia.
  - rewrite <- (str_app_assoc m), <- (str_app_assoc (m +:+ f)), <- (str_app_assoc ((m +:+ f) +:+ z)),
      <- (str_app_assoc (((m +:+ f) +:+ z) +:+ len)). apply slice_at; rewrite ?str_length_app; lia.
  - rewrite <- (str_app_assoc m), <- (str_app_assoc (m +:+ f)), <- (str_app_assoc ((m +:+ f) +:+ z)),
      <- (str_app_assoc (((m +:+ f) +:+ z) +:+ len)), <- (str_app_assoc ((((m +:+ f) +:+ z) +:+ len) +:+ id)).
    replace (16 + String.length ct)%nat with (String.length (((((m +:+ f) +:+ z) +:+ len) +:+ id) +:+ ct)) by (rewrite !str_length_app; lia).
    apply str_drop_app.
  - rewrite !str_length_app. lia.
Qed.

Lemma decode_encode i frame : encode_carrier_bidi_input (cb_call_id i) (cb_content_type i) (cb_payload i) (cb_eof i) = Ok frame →
  0 ≤ cb_call_id i < 2 ^ 64 → str_from_utf8 (cb_content_type i) = Some (cb_content_type i) →
  decode_carrier_bidi_input frame = Ok (Some i).
Proof.
  destruct i as [id ct payload eof]. cbn [cb_call_id cb_content_type cb_payload cb_eof]. intros He Hid Hu.
  unfold encode_carrier_bidi_input in He. apply bind_Ok in He as ([] & Hlen%ensure_Ok & He). apply bind_Ok in He as ([] & Hw%ensure_Ok & He).
  injection He as <-. apply Nat.leb_le in Hlen. unfold MAX_CARRIER_BIDI_CONTENT_TYPE_BYTES in Hlen.
  set (fl := if eof then CARRIER_BIDI_INPUT_EOF else 0).
  destruct (frame_parts CARRIER_BIDI_INPUT_MAGIC (one_byte fl) (one_byte 0) (be_bytes 2 (Z.of_nat (String.length ct))) (be_bytes 8 id) ct payload)
    as (H4 & H5 & H6 & H8 & H16 & Hd & Hn); [by rewrite ?be_bytes_length..|].
  set (frame := CARRIER_BIDI_INPUT_MAGIC +:+ _) in *.
  assert (0 ≤ fl < 256) as Hfl by (by subst fl; destruct eof).
  unfold decode_carrier_bidi_input, decode_carrier_bidi_input_metadata.
  assert (is_carrier_bidi_input frame = true) as -> by (apply is_carrier_spec; by eexists). cbn [negb].
  assert (byte_at 4 frame = fl) as -> by (unfold byte_at; rewrite H4; apply from_be_bytes_be_bytes; cbn; lia).
  assert (byte_at 5 frame = 0) as -> by (unfold byte_at; rewrite H5; apply from_be_bytes_be_bytes; cbn; lia).
  rewrite H6, H8, !from_be_bytes_be_bytes by (cbn; lia). rewrite Nat2Z.id.
  unfold CARRIER_BIDI_INPUT_HEADER_BYTES. rewrite H16, Hu.
  assert ((16 <=? String.length frame)%nat = true) as -> by (apply Nat.leb_le; lia).
  assert ((16 + String.length ct <=? String.length frame)%nat = true) as -> by (apply Nat.leb_le; lia).
  assert ((String.length ct <=? MAX_CARRIER_BIDI_CONTENT_TYPE_BYTES)%nat = true) as -> by (apply Nat.leb_le; unfold MAX_CARRIER_BIDI_CONTENT_TYPE_BYTES; lia).
  assert ((Z.land fl (Z.lxor 255 CARRIER_BIDI_INPUT_EOF) =? 0) = true) as -> by (by subst fl; destruct eof).
  assert (negb (Z.land fl CARRIER_BIDI_INPUT_EOF =? 0) = eof) as -> by (by subst fl; destruct eof).
  cbn [ensure ok_or mbind result_bind negb andb cm_payload_offset cm_call_id cm_content_type cm_eof Z.eqb]. by rewrite Hd.
Qed.

Lemma encode_decode i frame : decode_carrier_bidi_input frame = Ok (Some i) →
  encode_carrier_bidi_input (cb_call_id i) (cb_content_type i) (cb_payload i) (cb_eof i) = Ok frame ∧
  0 ≤ cb_call_id i < 2 ^ 64 ∧ str_from_utf8 (cb_content_type i) = Some (cb_content_type i).
Proof.
  unfold decode_carrier_bidi_input. intros Hd. apply bind_Ok in Hd as ([m|] & Hm & Hd); [|done]. injection Hd as <-.
  unfold decode_carrier_bidi_input_metadata in Hm. destruct (is_carrier_bidi_input frame) eqn:Hc; [|done]. cbn [negb] in Hm.
  apply bind_Ok in Hm as ([] & Hlen%ensure_Ok%Nat.leb_le & Hm).
  apply bind_Ok in Hm as ([] & [Hfl%Z.eqb_eq Hz%Z.eqb_eq]%ensure_Ok%andb_true_iff & Hm).
  apply bind_Ok in Hm as ([] & [Hmax Hn%Nat.leb_le]%ensure_Ok%andb_true_iff & Hm).
  apply bind_Ok in Hm as (ct & Hct%ok_or_Ok & Hm). injection Hm as <-. cbn [cb_call_id cb_content_type cb_payload cb_eof cm_call_id cm_content_type cm_payload_offset cm_eof].
  pose proof (str_from_utf8_Some _ _ Hct) as ->. unfold CARRIER_BIDI_INPUT_HEADER_BYTES in *.
  set (n := Z.to_nat (from_be_bytes (byte_slice 6 8 frame))) in *.
  pose proof (from_be_bytes_slice_bound 8 16 frame ltac:(lia) Hlen) as Hid. pose proof (from_be_bytes_slice_bound 6 8 frame ltac:(lia) ltac:(lia)) as H6.
  pose proof (from_be_bytes_slice_bound 4 5 frame ltac:(lia) ltac:(lia)) as H4.
  split; [|split; [exact Hid|done]]. unfold encode_carrier_bidi_input.
  rewrite slice_length by lia. replace (16 + n - 16)%nat with n by lia. rewrite Hmax. cbn [ensure].
  assert ((Z.of_nat n <? 65536) = true) as Hw by (apply Z.ltb_lt; change (256 ^ Z.of_nat (8 - 6)) with 65536 in H6; lia).
  cbn [ensure mbind result_bind]. rewrite Hw. cbn [ensure mbind result_bind]. f_equal.
  rewrite <- (flags_eof (byte_at 4 frame)) by (done || exact H4). rewrite <- Hz at 1.
  unfold one_byte, byte_at. rewrite (be_bytes_slice 4 5), (be_bytes_slice 5 6), (be_bytes_slice 8 16) by lia.
  subst n. rewrite Z2Nat.id by lia. rewrite (be_bytes_slice 6 8) by lia.
  apply is_carrier_spec in Hc as (t & Hc). assert (CARRIER_BIDI_INPUT_MAGIC = byte_slice 0 4 frame) as -> by (by rewrite Hc).
  symmetry. by apply frame_slices.
Qed.

(** C38 (roundtrip): the carrier of bidirectional input reads back, and only what
    was written: a frame decodes to an input exactly when encoding the input gives
    the frame, with a call id of 64 bits and a content type in UTF-8 of at most
    1024 bytes.  No two frames carry the same input and none carries two. *)
Theorem carrier_roundtrip (frame : string) (i : CarrierBidiInput) :
  decode_carrier_bidi_input frame = Ok (Some i) ↔
  encode_carrier_bidi_input (cb_call_id i) (cb_content_type i) (cb_payload i) (cb_eof i) = Ok frame ∧
  0 ≤ cb_call_id i < 2 ^ 64 ∧ str_from_utf8 (cb_content_type i) = Some (cb_content_type i).
Proof.
  split; [apply encode_decode|]. intros (He & Hid & Hu). by apply decode_encode.
Qed.
