(* ===== verification/Presence.v ===== *)
(** * Sessions: presence at the hub (src/src/daemon/invocation/bidi/state/presence.rs)

    The registry of live sessions by principal, and the stream of events that
    follows it.  Calls come from many tasks: the map, the counter of sessions and
    the broadcast are each atomic, a call is not. *)

From stdpp Require Import pretty.
From Stdlib Require Import String.
From S2P Require Import Prelude RustStd Text Ura Programs.

Open Scope Z_scope.

Definition DISPATCH_TARGET_OFFLINE_REASON : string := "target_offline".
Definition DISPATCH_TARGET_BUSY_REASON : string := "target_busy_retry".
Definition PRESENCE_EVENT_CHANNEL_CAPACITY : nat := 1024.
Definition DISPATCH_CHANNEL_CAPACITY : nat := 256.
Definition CANONICAL_SESSION_CARRIER_VERSION : Z := 3.

(** The channel to a session's device, by its identity. *)
Definition DispatchSender : Type := nat.

Inductive OfflineReason := StreamClosed | StreamReset | SendFailed | AdminRevoked.
Definition as_wire_str (r : OfflineReason) : string :=
  match r with
  | StreamClosed => "stream_closed" | StreamReset => "stream_reset" | SendFailed => "send_failed" | AdminRevoked => "admin_revoked"
  end.
Inductive PresenceEvent := Online (ura : string) | Offline (ura : string) (reason : OfflineReason).

Record SessionContract := mk_Contract { ct_version : Z; ct_claimant_boot_nonce : string }.
Record SessionTrustContext := mk_Trust { tc_admitted_public_key_b64 : option string }.
Definition user_pubkey (public_key_b64 : string) : SessionTrustContext :=
  let key := trim public_key_b64 in mk_Trust (if is_empty key then None else Some key).
Definition trust_matches_admitted_key (public_key_b64 : string) (t : SessionTrustContext) : bool :=
  match tc_admitted_public_key_b64 t with Some admitted => bool_decide (admitted = trim public_key_b64) | None => false end.

Inductive PresenceSlot :=
| Dispatch (session_id : Z) (sender : DispatchSender) (contract : SessionContract) (trust : SessionTrustContext)
| ResolveOnly (session_id : Z).
Definition slot_session_id (s : PresenceSlot) : Z := match s with Dispatch i _ _ _ | ResolveOnly i => i end.
Definition slot_sender (s : PresenceSlot) : option DispatchSender := match s with Dispatch _ d _ _ => Some d | ResolveOnly _ => None end.
Definition slot_claimant_boot_nonce (s : PresenceSlot) : option string :=
  match s with Dispatch _ _ c _ => Some (ct_claimant_boot_nonce c) | ResolveOnly _ => None end.
Definition slot_matches_admitted_key (key : string) (s : PresenceSlot) : bool :=
  match s with Dispatch _ _ _ t => trust_matches_admitted_key key t | ResolveOnly _ => false end.

Record PresenceDispatchSession := mk_DispatchSession { ds_session_id : Z; ds_sender : DispatchSender; ds_contract_version : Z }.
Definition dispatch_session (s : PresenceSlot) : option PresenceDispatchSession :=
  match s with Dispatch i d c _ => Some (mk_DispatchSession i d (ct_version c)) | ResolveOnly _ => None end.

Record PresenceRegistration := mk_Registration {
  pr_session_id : Z;
  pr_displaced : option DispatchSender;
  pr_displaced_claimant_nonce : option string;
}.

(** ** Calls *)

Section presence.
Context {UL : UraLib}.

Definition validate_dispatch_session_contract (c : SessionContract) : result string unit :=
  _ ← ensure (CANONICAL_SESSION_CARRIER_VERSION <=? ct_version c)
        ("session contract v" +:+ pretty (ct_version c) +:+ " is retired; v3 or newer is required");
  ensure (String.length (ct_claimant_boot_nonce c) =? 16)%nat
    ("session contract claimant_boot_nonce must be exactly 16 bytes; got " +:+ pretty (String.length (ct_claimant_boot_nonce c))).

(** The [Debug] form of kinds. *)
Definition kind_debug (k : URAKind) : string :=
  match k with
  | KAuthority => "Authority" | KDevice => "Device" | KUser => "User" | KService => "Service" | KAgent => "Agent"
  | KAbility => "Ability" | KResource => "Resource" | KUnknown => "Unknown"
  end.

Definition validate_presence_principal_ura (ura : string) : result string unit :=
  let trimmed := trim ura in
  if is_empty trimmed then Err "presence key must be a non-empty canonical principal URA"
  else if negb (bool_decide (trimmed = ura)) then
    Err ("presence key " +:+ debug_str ura +:+ " must not carry leading or trailing whitespace")
  else
    match parse_ura trimmed with
    | Err error => Err ("presence key " +:+ debug_str ura +:+ " is not a canonical URA: " +:+ error)
    | Ok parsed =>
        match ura_kind parsed with
        | KDevice | KUser | KAgent => Ok tt
        | other => Err ("presence key " +:+ debug_str ura +:+ " must be a canonical Device, User, or Agent URA; got " +:+ kind_debug other)
        end
    end.

(** The calls that change the registry. *)
Inductive PresenceCall :=
| InsertResolveOnly (ura : string)
| InsertNegotiatedWithTrust (ura : string) (sender : DispatchSender) (contract : SessionContract) (trust : SessionTrustContext)
| Remove (ura : string) (reason : OfflineReason)
| RemoveIfSession (ura : string) (session_id : Z) (reason : OfflineReason)
| ForceRevoke (ura : string)
| ForceRevokeIfAdmittedKey (ura : string) (public_key_b64 : string).

(** What is left of a call that has begun: its number is drawn and the slot is to be
    inserted, or events are to be sent; then its answer. *)
Inductive PresenceTask :=
| TaskInsert (ura : string) (slot : PresenceSlot)
| TaskEmit (events : list PresenceEvent).

Record PresenceRegistry := mk_Presence {
  by_ura : gmap string PresenceSlot;
  next_session_id : Z;
  pe_events : list PresenceEvent;
  pe_tasks : gmap nat PresenceTask;
}.
Definition new_presence : PresenceRegistry := mk_Presence ∅ 1 [] ∅.

(** An insert draws its number, which wraps around at 64 bits ([fetch_add]); the others
    change the map. *)
Definition begin_insert (t : nat) (ura : string) (slot : Z → PresenceSlot) (s : PresenceRegistry) : PresenceRegistry :=
  mk_Presence (by_ura s) (u64_wrap (next_session_id s + 1)) (pe_events s) (<[t := TaskInsert ura (slot (next_session_id s))]> (pe_tasks s)).
Definition begin_remove_if (t : nat) (ura : string) (cond : PresenceSlot → bool) (reason : OfflineReason) (s : PresenceRegistry)
    : PresenceRegistry :=
  match by_ura s !! ura with
  | Some slot =>
      if cond slot then mk_Presence (delete ura (by_ura s)) (next_session_id s) (pe_events s) (<[t := TaskEmit [Offline ura reason]]> (pe_tasks s))
      else s
  | None => s
  end.

Definition begin_call (t : nat) (c : PresenceCall) (s : PresenceRegistry) : PresenceRegistry :=
  match c with
  | InsertResolveOnly ura =>
      match validate_presence_principal_ura ura with Ok _ => begin_insert t ura ResolveOnly s | Err _ => s end
  | InsertNegotiatedWithTrust ura sender contract trust =>
      match (_ ← validate_presence_principal_ura ura; validate_dispatch_session_contract contract) with
      | Ok _ => begin_insert t ura (λ i, Dispatch i sender contract trust) s
      | Err _ => s
      end
  | Remove ura reason => begin_remove_if t ura (λ _, true) reason s
  | RemoveIfSession ura session_id reason => begin_remove_if t ura (λ slot, slot_session_id slot =? session_id) reason s
  | ForceRevoke ura => begin_remove_if t ura (λ _, true) AdminRevoked s
  | ForceRevokeIfAdmittedKey ura key => begin_remove_if t ura (slot_matches_admitted_key key) AdminRevoked s
  end.

(** The next access of a call: the slot goes into the map, or an event is sent. *)
Definition go_on (t : nat) (s : PresenceRegistry) : PresenceRegistry :=
  match pe_tasks s !! t with
  | Some (TaskInsert ura slot) =>
      mk_Presence (<[ura := slot]> (by_ura s)) (next_session_id s) (pe_events s)
        (<[t := TaskEmit (match by_ura s !! ura with Some _ => [Offline ura StreamClosed] | None => [] end ++ [Online ura])]> (pe_tasks s))
  | Some (TaskEmit (e :: evs)) => mk_Presence (by_ura s) (next_session_id s) (pe_events s ++ [e]) (<[t := TaskEmit evs]> (pe_tasks s))
  | Some (TaskEmit []) => mk_Presence (by_ura s) (next_session_id s) (pe_events s) (delete t (pe_tasks s))
  | None => s
  end.

(** What an insert answers about the session it displaced. *)
Definition registration (ura : string) (slot : PresenceSlot) (s : PresenceRegistry) : PresenceRegistration :=
  let prior := by_ura s !! ura in mk_Registration (slot_session_id slot) (prior ≫= slot_sender) (prior ≫= slot_claimant_boot_nonce).

Inductive PresenceChoice := Call (t : nat) (c : PresenceCall) | GoOn (t : nat).
Definition presence_step (s : PresenceRegistry) (c : PresenceChoice) : PresenceRegistry :=
  match c with
  | Call t c => match pe_tasks s !! t with None => begin_call t c s | Some _ => s end
  | GoOn t => go_on t s
  end.
Definition presence_run (l : list PresenceChoice) : PresenceRegistry := foldl presence_step new_presence l.

(** Lookups. *)
Definition lookup_dispatch_session (ura : string) (s : PresenceRegistry) : option PresenceDispatchSession := by_ura s !! ura ≫= dispatch_session.
Definition lookup_tracked (ura : string) (s : PresenceRegistry) : option (Z * DispatchSender) :=
  (λ d, (ds_session_id d, ds_sender d)) <$> lookup_dispatch_session ura s.
Definition is_resolve_only (ura : string) (s : PresenceRegistry) : bool :=
  match by_ura s !! ura with Some (ResolveOnly _) => true | _ => false end.
Definition presence_contains (ura : string) (s : PresenceRegistry) : bool := bool_decide (is_Some (by_ura s !! ura)).
Definition online_count (s : PresenceRegistry) : nat := size (by_ura s).
Definition snapshot (s : PresenceRegistry) : list string := sort_by String.leb (elements (dom (by_ura s))).

(** ** A number names one session *)

(** A session in the map or on its way into it. *)
Definition occurs (s : PresenceRegistry) (ura : string) (slot : PresenceSlot) : Prop :=
  by_ura s !! ura = Some slot ∨ ∃ t, pe_tasks s !! t = Some (TaskInsert ura slot).

Lemma begin_remove_if_occurs t ura cond reason s u slot : pe_tasks s !! t = None →
  occurs (begin_remove_if t ura cond reason s) u slot → occurs s u slot.
Proof.
  intros Ht. unfold begin_remove_if. destruct (by_ura s !! ura) as [p|] eqn:Hp; [|done]. destruct (cond p); [|done].
  intros [Hm|[t' Hm]]; cbn in Hm; [apply lookup_delete_Some in Hm as [_ Hm]; by left|].
  right. exists t'. destruct (decide (t = t')) as [<- | Hne]; [by rewrite lookup_insert_eq in Hm|by rewrite lookup_insert_ne in Hm].
Qed.
Lemma begin_remove_if_next t ura cond reason s : next_session_id (begin_remove_if t ura cond reason s) = next_session_id s.
Proof. unfold begin_remove_if. repeat case_match; done. Qed.

(** A step draws the next number for a new session, or moves the old ones. *)
Lemma step_occurs s c u slot : occurs (presence_step s c) u slot →
  occurs s u slot ∨ (slot_session_id slot = next_session_id s ∧ next_session_id (presence_step s c) = u64_wrap (next_session_id s + 1) ∧
                     ∀ u' slot', occurs (presence_step s c) u' slot' → slot_session_id slot' = next_session_id s →
                       occurs s u' slot' ∨ (u' = u ∧ slot' = slot)).
Proof.
  destruct c as [t c|t]; cbn [presence_step].
  - destruct (pe_tasks s !! t) eqn:Ht; [by left|].
    assert (∀ ura mk, (∀ i, slot_session_id (mk i) = i) → occurs (begin_insert t ura mk s) u slot →
      occurs s u slot ∨ (slot_session_id slot = next_session_id s ∧ next_session_id (begin_insert t ura mk s) = u64_wrap (next_session_id s + 1) ∧
        ∀ u' slot', occurs (begin_insert t ura mk s) u' slot' → slot_session_id slot' = next_session_id s → occurs s u' slot' ∨ (u' = u ∧ slot' = slot))) as Hins.
    { intros ura mk Hmk. assert (∀ u' slot', occurs (begin_insert t ura mk s) u' slot' → occurs s u' slot' ∨ (u' = ura ∧ slot' = mk (next_session_id s))) as Hocc.
      { intros u' slot' [Hm|[t' Hm]]; cbn in Hm; [left; by left|]. destruct (decide (t = t')) as [<- | Hne].
        - rewrite lookup_insert_eq in Hm. simplify_eq. by right.
        - rewrite lookup_insert_ne in Hm by done. left. right. by exists t'. }
      intros [H|[-> ->]]%Hocc; [by left|]. right. split_and!; [done|done|]. intros u' slot' H' _. destruct (Hocc _ _ H') as [?|[-> ->]]; auto. }
    destruct c; cbn [begin_call]; try (intros H; left; by eapply begin_remove_if_occurs).
    + destruct (validate_presence_principal_ura ura); [by apply Hins|by left].
    + destruct (_ ≫= _); [by apply Hins|by left].
  - intros H. left. unfold go_on in H. destruct (pe_tasks s !! t) as [[ura p|[|e evs]]|] eqn:Ht; [..|done]; destruct H as [H|[t' H]]; cbn in H.
    + destruct (decide (ura = u)) as [<- | Hne]; [rewrite lookup_insert_eq in H; simplify_eq; right; by exists t|rewrite lookup_insert_ne in H by done; by left].
    + right. exists t'. destruct (decide (t = t')) as [<- | Hne]; [by rewrite lookup_insert_eq in H|by rewrite lookup_insert_ne in H].
    + by left.
    + right. exists t'. by apply lookup_delete_Some in H as [_ H].
    + by left.
    + right. exists t'. destruct (decide (t = t')) as [<- | Hne]; [by rewrite lookup_insert_eq in H|by rewrite lookup_insert_ne in H].
Qed.

(** The sessions that calls may have opened, and the room the counter has for one more. *)
Definition opens_session (c : PresenceChoice) : bool :=
  match c with Call _ (InsertResolveOnly _) | Call _ (InsertNegotiatedWithTrust _ _ _ _) => true | _ => false end.
Definition sessions_opened (l : list PresenceChoice) : Z := Z.of_nat (length (List.filter opens_session l)).
Definition room (s : PresenceRegistry) : Prop := 0 ≤ next_session_id s ∧ next_session_id s + 1 < 2 ^ 64.

Lemma step_next s c : room s → next_session_id s ≤ next_session_id (presence_step s c) ≤ next_session_id s + sessions_opened [c].
Proof.
  intros [H0 H1]. assert (u64_wrap (next_session_id s + 1) = next_session_id s + 1) as E by (apply Z.mod_small; lia).
  assert (0 ≤ sessions_opened [c]) as Hc by (unfold sessions_opened; lia). destruct c as [t c|t]; cbn [presence_step].
  - destruct (pe_tasks s !! t); [lia|].
    destruct c; cbn [begin_call]; rewrite ?begin_remove_if_next; try lia; (case_match; [|lia]); unfold begin_insert; cbn [next_session_id]; rewrite E; change (sessions_opened [_]) with 1; lia.
  - unfold go_on. repeat case_match; cbn [next_session_id]; lia.
Qed.
Lemma opened_cons c l : sessions_opened (c :: l) = sessions_opened [c] + sessions_opened l.
Proof. unfold sessions_opened. cbn. destruct (opens_session c); cbn [length]; lia. Qed.

Record ids_inv (s : PresenceRegistry) : Prop := {
  id_old u slot : occurs s u slot → slot_session_id slot < next_session_id s;
  id_one u slot u' slot' : occurs s u slot → occurs s u' slot' → slot_session_id slot' = slot_session_id slot → u' = u ∧ slot' = slot;
}.
Lemma step_ids s c : room s → ids_inv s → ids_inv (presence_step s c).
Proof.
  intros Hroom [Ho H1]. pose proof (step_next s c Hroom) as Hn.
  assert (u64_wrap (next_session_id s + 1) = next_session_id s + 1) as Hw by (destruct Hroom; apply Z.mod_small; lia). constructor.
  - intros u slot [H|(-> & -> & _)]%step_occurs; [apply Ho in H; lia|rewrite Hw; lia].
  - intros u slot u' slot' H H' He. pose proof H as H2. pose proof H' as H2'. apply step_occurs in H2 as [H2|(E & En & Hu)].
    + apply step_occurs in H2' as [H2'|(E' & _ & _)]; [by apply H1|]. apply Ho in H2. lia.
    + destruct (Hu u' slot' H') as [Hold|?]; [lia| |done]. apply Ho in Hold. lia.
Qed.
Lemma new_ids : ids_inv new_presence.
Proof.
  assert (∀ u slot, ¬ occurs new_presence u slot) as Hno by (intros u slot [H|[t H]]; cbn in H; by rewrite lookup_empty in H).
  constructor; intros; exfalso; by eapply Hno.
Qed.
(** As long as the counter does not wrap around, the numbers keep what they promise. *)
Lemma steps_ids l s : 0 ≤ next_session_id s → next_session_id s + sessions_opened l + 1 < 2 ^ 64 → ids_inv s →
  ids_inv (foldl presence_step s l) ∧ next_session_id s ≤ next_session_id (foldl presence_step s l) ≤ next_session_id s + sessions_opened l.
Proof.
  revert s. induction l as [|c l IH]; intros s H0 Hb H; [split; [done|unfold sessions_opened; cbn [List.filter length foldl]; lia]|]. rewrite opened_cons in *.
  assert (0 ≤ sessions_opened l) by (unfold sessions_opened; lia). assert (0 ≤ sessions_opened [c]) by (unfold sessions_opened; lia).
  assert (room s) as Hr by (split; lia). pose proof (step_next s c Hr) as Hn. cbn [foldl].
  destruct (IH (presence_step s c)) as [Hi Hl]; [lia|lia|by apply step_ids|]. split; [done|lia].
Qed.
Lemma run_ids l : sessions_opened l < 2 ^ 64 - 2 → ids_inv (presence_run l) ∧ 1 ≤ next_session_id (presence_run l) ≤ 1 + sessions_opened l.
Proof. intros H. apply (steps_ids l new_presence); [done|cbn; lia|apply new_ids]. Qed.

(** A number that was drawn stays with its session. *)
Lemma run_occurs_old s k u slot : 0 ≤ next_session_id s → next_session_id s + sessions_opened k + 1 < 2 ^ 64 → ids_inv s →
  occurs (foldl presence_step s k) u slot → slot_session_id slot < next_session_id s → occurs s u slot.
Proof.
  revert s. induction k as [|c k IH]; intros s H0 Hb H Ho Hi; [done|]. cbn in Ho. rewrite opened_cons in Hb.
  assert (0 ≤ sessions_opened k) by (unfold sessions_opened; lia). assert (0 ≤ sessions_opened [c]) by (unfold sessions_opened; lia).
  assert (room s) as Hr by (split; lia). pose proof (step_next s c Hr).
  apply IH in Ho; [|lia|lia|by apply step_ids|lia]. apply step_occurs in Ho as [?|[E _]]; [done|lia].
Qed.

(** What takes a session out of the map. *)
Definition ends_session (s : PresenceRegistry) (u : string) (slot : PresenceSlot) (c : PresenceChoice) : Prop :=
  match c with
  | Call _ (Remove u' _) | Call _ (ForceRevoke u') => u' = u
  | Call _ (RemoveIfSession u' i _) => u' = u ∧ i = slot_session_id slot
  | Call _ (ForceRevokeIfAdmittedKey u' key) => u' = u ∧ slot_matches_admitted_key key slot = true
  | GoOn t => ∃ slot', pe_tasks s !! t = Some (TaskInsert u slot') ∧ slot_session_id slot' ≠ slot_session_id slot ∧
                by_ura (presence_step s c) !! u = Some slot'
  | _ => False
  end.
Lemma begin_remove_if_keeps t ura cond reason s u slot : by_ura s !! u = Some slot → ¬ (ura = u ∧ cond slot = true) →
  by_ura (begin_remove_if t ura cond reason s) !! u = Some slot.
Proof.
  intros Hu Hn. unfold begin_remove_if. destruct (by_ura s !! ura) as [p|] eqn:Hp; [|done]. destruct (cond p) eqn:Hc; [|done]. cbn.
  rewrite lookup_delete_ne; [done|]. intros ->. destruct Hn. by simplify_eq.
Qed.
Lemma session_kept s c u slot : ids_inv s → by_ura s !! u = Some slot → ¬ ends_session s u slot c → by_ura (presence_step s c) !! u = Some slot.
Proof.
  intros H Hu Hn. destruct c as [t c|t]; cbn [presence_step] in *.
  - destruct (pe_tasks s !! t); [done|]. destruct c; cbn [begin_call ends_session] in *; try (case_match; done);
      apply begin_remove_if_keeps; try done; [naive_solver|rewrite Z.eqb_eq; naive_solver|naive_solver].
  - cbn [ends_session presence_step] in Hn. unfold go_on in *. destruct (pe_tasks s !! t) as [[ura p|[|e evs]]|] eqn:Ht; try done. cbn in *.
    destruct (decide (ura = u)) as [-> | Hne]; [|by rewrite lookup_insert_ne]. rewrite lookup_insert_eq in *.
    destruct (decide (slot_session_id p = slot_session_id slot)) as [E|E]; [|by destruct Hn; exists p].
    destruct (id_one _ H u slot u p); [by left|right; by exists t|done|by subst].
Qed.

(** C26 (safety): a stale task cannot end the session that replaced its own.  In every
    interleaving of calls in which fewer than 2^64 - 2 sessions are opened, so that the
    64-bit counter does not wrap around, the number of a session that is or was in the
    registry is never another session's, under whatever address; and a session is taken
    out only by a removal of its address, a removal with its own number, a revocation of
    the key that admitted it, or a newer session under its address. *)
Theorem stale_removal_harmless (l k : list PresenceChoice) (c : PresenceChoice) (u u' : string) (slot slot' : PresenceSlot) :
  sessions_opened (l ++ k) < 2 ^ 64 - 2 →
  by_ura (presence_run l) !! u = Some slot →
  (by_ura (presence_run (l ++ k)) !! u' = Some slot' → slot_session_id slot' = slot_session_id slot → u' = u ∧ slot' = slot) ∧
  (¬ ends_session (presence_run l) u slot c → by_ura (presence_step (presence_run l) c) !! u = Some slot).
Proof.
  intros Hb Hu. assert (sessions_opened (l ++ k) = sessions_opened l + sessions_opened k) as E by (unfold sessions_opened; rewrite List.filter_app, length_app; lia).
  assert (0 ≤ sessions_opened k) as Hk by (unfold sessions_opened; lia). destruct (run_ids l) as [H Hn]; [lia|].
  split; [|by apply session_kept]. intros Hu' He. unfold presence_run in Hu'. rewrite foldl_app in Hu'.
  fold (presence_run l) in Hu'. apply (id_one _ H u slot); [by left| |done]. apply (run_occurs_old _ k); [lia|lia|done|by left|].
  rewrite He. apply (id_old _ H u). by left.
Qed.

(** ** The events follow the registry when calls do not overlap *)

Definition shown_online (evs : list PresenceEvent) : gset string :=
  foldl (λ acc e, match e with Online u => {[u]} ∪ acc | Offline u _ => acc ∖ {[u]} end) ∅ evs.
(** A call from its beginning to its end. *)
Definition whole_call (s : PresenceRegistry) (c : PresenceCall) : PresenceRegistry :=
  foldl presence_step s [Call 0 c; GoOn 0; GoOn 0; GoOn 0; GoOn 0].

Definition in_step (s : PresenceRegistry) : Prop := pe_tasks s = ∅ ∧ shown_online (pe_events s) = dom (by_ura s).
Lemma replay_app evs es : shown_online (evs ++ es) = foldl (λ acc e, match e with Online u => {[u]} ∪ acc | Offline u _ => acc ∖ {[u]} end) (shown_online evs) es.
Proof. apply foldl_app. Qed.

Lemma whole_insert ura mk s : in_step s → in_step (foldl presence_step (begin_insert 0 ura mk s) [GoOn 0; GoOn 0; GoOn 0; GoOn 0]).
Proof.
  intros [Ht Hr]. unfold in_step. destruct s as [m n evs tasks]. cbn in Ht. subst tasks. cbn [pe_events by_ura] in Hr.
  unfold begin_insert. cbn [foldl presence_step go_on by_ura next_session_id pe_events pe_tasks].
  destruct (m !! ura) as [p|] eqn:Hm; repeat (unfold go_on at 1; cbn [by_ura next_session_id pe_events pe_tasks]; rewrite ?lookup_insert_eq, ?lookup_empty, ?lookup_delete_eq; rewrite ?Hm; cbn [app]).
  all: cbn [by_ura]; split; [by rewrite ?insert_insert_eq, delete_insert_eq|]; rewrite !replay_app, Hr, dom_insert_L; cbn [foldl];
    apply set_eq; intros x; destruct (decide (x = ura)); set_solver.
Qed.
Lemma whole_remove ura cond reason s : in_step s → in_step (foldl presence_step (begin_remove_if 0 ura cond reason s) [GoOn 0; GoOn 0; GoOn 0; GoOn 0]).
Proof.
  intros [Ht Hr]. assert (in_step (foldl presence_step s [GoOn 0; GoOn 0; GoOn 0; GoOn 0])) as Hsame.
  { unfold in_step. cbn [foldl presence_step]. assert (go_on 0 s = s) as E by (unfold go_on; by rewrite Ht, lookup_empty). by rewrite !E. }
  unfold begin_remove_if. destruct (by_ura s !! ura) as [p|] eqn:Hm; [|done]. destruct (cond p); [|done].
  unfold in_step. destruct s as [m n evs tasks]. cbn in Ht, Hm. subst tasks. cbn [pe_events by_ura] in Hr.
  cbn [foldl presence_step go_on by_ura next_session_id pe_events pe_tasks].
  repeat (unfold go_on at 1; cbn [by_ura next_session_id pe_events pe_tasks]; rewrite ?lookup_insert_eq, ?lookup_empty, ?lookup_delete_eq; cbn [app]).
  cbn [by_ura]. split; [by rewrite ?insert_insert_eq, delete_insert_eq|]. rewrite !replay_app, Hr, dom_delete_L. done.
Qed.
Lemma whole_call_in_step s c : in_step s → in_step (whole_call s c).
Proof.
  intros H. unfold whole_call. change (foldl presence_step s (Call 0 c :: ?l)) with (foldl presence_step (presence_step s (Call 0 c)) l).
  cbn [foldl]. cbn [presence_step]. rewrite (proj1 H), lookup_empty. fold (foldl presence_step).
  assert (in_step (foldl presence_step s [GoOn 0; GoOn 0; GoOn 0; GoOn 0])) as Hsame.
  { unfold in_step. cbn [foldl presence_step]. assert (go_on 0 s = s) as E by (unfold go_on; by rewrite (proj1 H), lookup_empty). by rewrite !E. }
  destruct c; cbn [begin_call]; try (by apply (whole_remove _ _ _ s)); case_match; (done || by apply (whole_insert _ _ s)).
Qed.

(** Calls made one after the other keep the events in step with the
    registry: replaying them gives exactly the principals that are online, which is
    what a subscriber that follows them holds. *)
Theorem events_follow_registry (l : list PresenceCall) :
  let s := foldl whole_call new_presence l in
  shown_online (pe_events s) = dom (by_ura s).
Proof.
  intros s. assert (in_step s) as H; [|apply H]. subst s. assert (in_step new_presence) as H0 by (split; [done|]; symmetry; apply dom_empty_L).
  revert H0. generalize new_presence. induction l as [|c l IH]; intros s H; [done|]. by apply IH, whole_call_in_step.
Qed.

(** Calls that overlap may leave the events at odds with the registry for good: an
    insert whose slot was removed before its event was sent. *)
Definition overlap (u : string) : list PresenceChoice :=
  [Call 0 (InsertResolveOnly u); GoOn 0; Call 1 (Remove u SendFailed); GoOn 1; GoOn 1; GoOn 0; GoOn 0].
Lemma overlap_misleads u : validate_presence_principal_ura u = Ok tt →
  let s := presence_run (overlap u) in pe_tasks s = ∅ ∧ by_ura s = ∅ ∧ shown_online (pe_events s) = {[u]}.
Proof.
  intros Hv. unfold presence_run, overlap.
  assert (presence_step new_presence (Call 0 (InsertResolveOnly u)) = mk_Presence ∅ 2 [] (<[0%nat := TaskInsert u (ResolveOnly 1)]> ∅)) as E1
    by (cbn; by rewrite Hv).
  set (tasks1 := <[0%nat := TaskEmit [Online u]]> (<[0%nat := TaskInsert u (ResolveOnly 1)]> ∅) : gmap nat PresenceTask) in *.
  assert (presence_step (mk_Presence ∅ 2 [] (<[0%nat := TaskInsert u (ResolveOnly 1)]> ∅)) (GoOn 0) = mk_Presence (<[u := ResolveOnly 1]> ∅) 2 [] tasks1) as E2
    by (unfold presence_step, go_on; cbn [pe_tasks by_ura]; by rewrite lookup_insert_eq, lookup_empty).
  assert (presence_step (mk_Presence (<[u := ResolveOnly 1]> ∅) 2 [] tasks1) (Call 1 (Remove u SendFailed)) =
    mk_Presence (delete u (<[u := ResolveOnly 1]> ∅)) 2 [] (<[1%nat := TaskEmit [Offline u SendFailed]]> tasks1)) as E3.
  { unfold presence_step, begin_call, begin_remove_if. cbn [pe_tasks by_ura]. by rewrite lookup_insert_eq. }
  rewrite delete_insert_eq, delete_empty in E3.
  cbn [foldl]. rewrite E1, E2, E3. split; [done|]. split; [done|].
  trans (shown_online [Offline u SendFailed; Online u]); [done|]. unfold shown_online. cbn [foldl]. set_solver.
Qed.
End presence.
