(* ===== verification/FrameScheduler.v ===== *)
(** * Sessions: the scheduler of inbound frames (src/src/daemon/invocation/bidi/session_initiator/frame_scheduler.rs)

    The device's end of a session: frames of bidirectional calls are queued per
    call by one actor, under a budget for the session and one per call; other
    frames are handled as they come.  The reader of the session and the actor are
    two threads: the machine below interleaves them at every access to what they
    share, the budget and the channel between them. *)

From Stdlib Require Import String Ascii.
From S2P Require Import Prelude RustStd Text Programs SessionWire Presence.

Open Scope Z_scope.

(** Frames of the protocol: their number, the data of a binary chunk if the frame is
    one, the version of the contract if it establishes the session. *)
Class DownFrames := {
  InvokeBidiDown : Type;
  down_sequence : InvokeBidiDown → Z;
  binary_chunk : InvokeBidiDown → option string;
  session_established : InvokeBidiDown → option Z;
}.

Definition BIDI_FRAMES_PER_CALL : nat := 64.

Inductive SessionFrameScheduleError :=
| ScheduleDispatch (e : error)
| CallSaturated (call_id : Z) (limit : nat)
| SessionSaturated (call_id : Z) (limit : nat)
| ScheduleClosed (call_id : Z).

Section scheduler.
Context {DF : DownFrames}.

Definition bidi_input_call_id (frame : InvokeBidiDown) : option Z :=
  data ← binary_chunk frame;
  match decode_carrier_bidi_input data with
  | Ok (Some input) => Some (cb_call_id input)
  | _ => None
  end.

(** ** The budget *)

(** The free permits of the session and the frames held per call. *)
Record SessionBidiBudget := mk_Budget { bb_global : nat; bb_per_call : gmap Z nat }.
Definition new_budget : SessionBidiBudget := mk_Budget DISPATCH_CHANNEL_CAPACITY ∅.

(** [try_acquire_owned], and the permit given back. *)
Definition try_acquire (b : SessionBidiBudget) : option SessionBidiBudget :=
  match bb_global b with O => None | S n => Some (mk_Budget n (bb_per_call b)) end.
Definition release_global (b : SessionBidiBudget) : SessionBidiBudget := mk_Budget (S (bb_global b)) (bb_per_call b).

(** The second half of [reserve], under the lock. *)
Definition reserve_call (call_id : Z) (b : SessionBidiBudget) : option SessionBidiBudget :=
  let retained := default O (bb_per_call b !! call_id) in
  if (BIDI_FRAMES_PER_CALL <=? retained)%nat then None
  else Some (mk_Budget (bb_global b) (<[call_id := S retained]> (bb_per_call b))).

(** Subtracting from zero panics: [None]. *)
Definition release_call (call_id : Z) (b : SessionBidiBudget) : option SessionBidiBudget :=
  match bb_per_call b !! call_id with
  | None => Some b
  | Some O => None
  | Some (S n) =>
      Some (mk_Budget (bb_global b) (if bool_decide (n = O) then delete call_id (bb_per_call b) else <[call_id := n]> (bb_per_call b)))
  end.

(** ** The machine *)

Record ScheduledBidiFrame := mk_Scheduled { sf_call_id : Z; sf_frame : InvokeBidiDown }.

(** Where the reader is within [route]. *)
Inductive Router :=
| RouterIdle
| RouterInline (frame : InvokeBidiDown)
| RouterAcquired (s : ScheduledBidiFrame)
| RouterReserved (s : ScheduledBidiFrame)
| RouterGiveBack (call_id : Z)
| RouterUnwind (s : ScheduledBidiFrame) (e : SessionFrameScheduleError)
| RouterUnwind2 (e : SessionFrameScheduleError)
| RouterGone.

(** Where the actor is: in [select!], or with a frame that was handled. *)
Inductive Actor :=
| ActorSelect
| ActorHandled (s : ScheduledBidiFrame)
| ActorReleased (s : ScheduledBidiFrame)
| ActorCompleted (s : ScheduledBidiFrame)
| ActorDone
| ActorAborted
| ActorPanicked.

(** What is seen from outside. *)
Inductive SchedEvent :=
| Accepted (s : ScheduledBidiFrame)
| Refused (e : SessionFrameScheduleError)
| Inline (frame : InvokeBidiDown)
| Started (s : ScheduledBidiFrame)
| Finished (s : ScheduledBidiFrame).

Record Sched := mk_Sched {
  sc_budget : SessionBidiBudget;
  sc_channel : list ScheduledBidiFrame;
  sc_sender_alive : bool;
  sc_pending : gmap Z (list ScheduledBidiFrame);
  sc_active : gset Z;
  sc_in_flight : list ScheduledBidiFrame;
  sc_input_closed : bool;
  sc_router : Router;
  sc_actor : Actor;
  sc_trace : list SchedEvent;
}.
Definition spawn_scheduler : Sched := mk_Sched new_budget [] true ∅ ∅ [] false RouterIdle ActorSelect [].

(** The reader: a frame arrives, an inline frame was handled, or the next access
    of [route]. *)
Inductive SchedChoice :=
| Route (frame : InvokeBidiDown)
| InlineDone (result : result error unit)
| RouteStep
| DropScheduler
| TaskAborts
| Recv
| Complete (n : nat) (result : result error unit)
| ActorStep.

Definition set_router (r : Router) (b : SessionBidiBudget) (evs : list SchedEvent) (s : Sched) : Sched :=
  mk_Sched b (sc_channel s) (sc_sender_alive s) (sc_pending s) (sc_active s) (sc_in_flight s) (sc_input_closed s) r (sc_actor s)
    (sc_trace s ++ evs).
Definition set_actor (a : Actor) (b : SessionBidiBudget) (s : Sched) : Sched :=
  mk_Sched b (sc_channel s) (sc_sender_alive s) (sc_pending s) (sc_active s) (sc_in_flight s) (sc_input_closed s) (sc_router s) a
    (sc_trace s).
Definition push_channel (x : ScheduledBidiFrame) (s : Sched) : Sched :=
  mk_Sched (sc_budget s) (sc_channel s ++ [x]) (sc_sender_alive s) (sc_pending s) (sc_active s) (sc_in_flight s) (sc_input_closed s)
    RouterIdle (sc_actor s) (sc_trace s ++ [Accepted x]).

Definition route (frame : InvokeBidiDown) (s : Sched) : Sched :=
  match sc_router s with
  | RouterIdle =>
      match bidi_input_call_id frame with
      | None => set_router (RouterInline frame) (sc_budget s) [Inline frame] s
      | Some call_id =>
          match try_acquire (sc_budget s) with
          | None => set_router RouterIdle (sc_budget s) [Refused (SessionSaturated call_id DISPATCH_CHANNEL_CAPACITY)] s
          | Some b => set_router (RouterAcquired (mk_Scheduled call_id frame)) b [] s
          end
      end
  | _ => s
  end.

Definition route_step (s : Sched) : Sched :=
  match sc_router s with
  | RouterAcquired x =>
      match reserve_call (sf_call_id x) (sc_budget s) with
      | Some b => set_router (RouterReserved x) b [] s
      | None => set_router (RouterGiveBack (sf_call_id x)) (sc_budget s) [] s
      end
  | RouterGiveBack call_id =>
      set_router RouterIdle (release_global (sc_budget s)) [Refused (CallSaturated call_id BIDI_FRAMES_PER_CALL)] s
  | RouterReserved x =>
      (* [try_send]: the receiver lives as long as the actor *)
      match sc_actor s with
      | ActorDone | ActorAborted | ActorPanicked => set_router (RouterUnwind x (ScheduleClosed (sf_call_id x))) (sc_budget s) [] s
      | _ =>
          if (length (sc_channel s) <? DISPATCH_CHANNEL_CAPACITY)%nat then push_channel x s
          else set_router (RouterUnwind x (SessionSaturated (sf_call_id x) DISPATCH_CHANNEL_CAPACITY)) (sc_budget s) [] s
      end
  | RouterUnwind x e =>
      match release_call (sf_call_id x) (sc_budget s) with
      | Some b => set_router (RouterUnwind2 e) b [] s
      | None => set_router RouterGone (sc_budget s) [] s
      end
  | RouterUnwind2 e => set_router RouterIdle (release_global (sc_budget s)) [Refused e] s
  | _ => s
  end.

(** A frame taken from the channel: it is dispatched, or waits behind its call. *)
Definition recv (s : Sched) : Sched :=
  match sc_actor s, sc_input_closed s with
  | ActorSelect, false =>
      match sc_channel s with
      | x :: rest =>
          let started := negb (bool_decide (sf_call_id x ∈ sc_active s)) in
          mk_Sched (sc_budget s) rest (sc_sender_alive s)
            (if started then sc_pending s
             else <[sf_call_id x := default [] (sc_pending s !! sf_call_id x) ++ [x]]> (sc_pending s))
            ({[sf_call_id x]} ∪ sc_active s)
            (if started then sc_in_flight s ++ [x] else sc_in_flight s)
            false (sc_router s) ActorSelect (sc_trace s ++ (if started then [Started x] else []))
      | [] =>
          if sc_sender_alive s then s
          else mk_Sched (sc_budget s) [] false (sc_pending s) (sc_active s) (sc_in_flight s) true (sc_router s)
                 (if bool_decide (sc_in_flight s = []) then ActorDone else ActorSelect) (sc_trace s)
      end
  | _, _ => s
  end.

(** The dispatcher is done with a frame in flight, whatever it answered. *)
Definition complete_frame (n : nat) (s : Sched) : Sched :=
  match sc_actor s, sc_in_flight s !! n with
  | ActorSelect, Some x =>
      mk_Sched (sc_budget s) (sc_channel s) (sc_sender_alive s) (sc_pending s) (sc_active s) (delete n (sc_in_flight s))
        (sc_input_closed s) (sc_router s) (ActorHandled x) (sc_trace s ++ [Finished x])
  | _, _ => s
  end.

(** The permit is dropped, then the next frame of the call is dispatched. *)
Definition actor_step (s : Sched) : Sched :=
  match sc_actor s with
  | ActorHandled x =>
      match release_call (sf_call_id x) (sc_budget s) with
      | Some b => set_actor (ActorReleased x) b s
      | None => set_actor ActorPanicked (sc_budget s) s
      end
  | ActorReleased x => set_actor (ActorCompleted x) (release_global (sc_budget s)) s
  | ActorCompleted x =>
      let queue := default [] (sc_pending s !! sf_call_id x) in
      let next := head queue in
      let in_flight := sc_in_flight s ++ option_list next in
      mk_Sched (sc_budget s) (sc_channel s) (sc_sender_alive s)
        (match tail queue with [] => delete (sf_call_id x) (sc_pending s) | rest => <[sf_call_id x := rest]> (sc_pending s) end)
        (match next with Some _ => sc_active s | None => sc_active s ∖ {[sf_call_id x]} end)
        in_flight (sc_input_closed s) (sc_router s)
        (if sc_input_closed s && bool_decide (in_flight = []) then ActorDone else ActorSelect)
        (sc_trace s ++ (Started <$> option_list next))
  | _ => s
  end.

(** [Drop] aborts the task: it ends where it awaits, or before that is by itself.  What
    it held is dropped with it and never handled; the fields keep those frames. *)
Definition task_aborts (s : Sched) : Sched :=
  match sc_router s, sc_actor s with
  | RouterGone, ActorSelect => set_actor ActorAborted (sc_budget s) s
  | _, _ => s
  end.

Definition sched_step (s : Sched) (c : SchedChoice) : Sched :=
  match c with
  | Route frame => route frame s
  | InlineDone result =>
      match sc_router s with
      | RouterInline _ =>
          set_router RouterIdle (sc_budget s) (match result with Ok _ => [] | Err e => [Refused (ScheduleDispatch e)] end) s
      | _ => s
      end
  | RouteStep => route_step s
  | DropScheduler =>
      match sc_router s with
      | RouterIdle =>
          mk_Sched (sc_budget s) (sc_channel s) false (sc_pending s) (sc_active s) (sc_in_flight s) (sc_input_closed s) RouterGone
            (sc_actor s) (sc_trace s)
      | _ => s
      end
  | TaskAborts => task_aborts s
  | Recv => recv s
  | Complete n _ => complete_frame n s
  | ActorStep => actor_step s
  end.
Definition sched_run (s : Sched) (l : list SchedChoice) : Sched := foldl sched_step s l.

(** ** Views of a state *)

(** The frames of one call. *)
Definition of_call (c : Z) (l : list ScheduledBidiFrame) : list ScheduledBidiFrame := filter (λ x, sf_call_id x = c) l.
Definition pend (c : Z) (s : Sched) : list ScheduledBidiFrame := default [] (sc_pending s !! c).
Definition total (m : gmap Z (list ScheduledBidiFrame)) : nat := map_fold (λ _ l n, length l + n)%nat O m.

Definition accepted (s : Sched) : list ScheduledBidiFrame := omap (λ e, match e with Accepted x => Some x | _ => None end) (sc_trace s).
Definition started (s : Sched) : list ScheduledBidiFrame := omap (λ e, match e with Started x => Some x | _ => None end) (sc_trace s).
Definition finished (s : Sched) : list ScheduledBidiFrame := omap (λ e, match e with Finished x => Some x | _ => None end) (sc_trace s).

(** The frame the actor is finishing; the frames counted against their call; the
    permits of the session in use. *)
Definition finishing (a : Actor) : list ScheduledBidiFrame :=
  match a with ActorHandled x | ActorReleased x | ActorCompleted x => [x] | _ => [] end.
Definition actor_counted (a : Actor) : list ScheduledBidiFrame := match a with ActorHandled x => [x] | _ => [] end.
Definition router_counted (r : Router) : list ScheduledBidiFrame :=
  match r with RouterReserved x | RouterUnwind x _ => [x] | _ => [] end.
Definition actor_permits (a : Actor) : nat := match a with ActorHandled _ | ActorReleased _ => 1 | _ => 0 end.
Definition router_permits (r : Router) : nat :=
  match r with RouterAcquired _ | RouterReserved _ | RouterGiveBack _ | RouterUnwind _ _ | RouterUnwind2 _ => 1 | _ => 0 end.

(** The frames of a call that hold its budget. *)
Definition counted (c : Z) (s : Sched) : nat :=
  (length (of_call c (sc_in_flight s)) + length (pend c s) + length (of_call c (sc_channel s))
   + length (of_call c (actor_counted (sc_actor s))) + length (of_call c (router_counted (sc_router s))))%nat.

Record sched_inv (s : Sched) : Prop := {
  inv_order c : of_call c (accepted s) = of_call c (finished s) ++ of_call c (sc_in_flight s) ++ pend c s ++ of_call c (sc_channel s);
  inv_started c : of_call c (started s) = of_call c (finished s) ++ of_call c (sc_in_flight s);
  inv_active c : (length (of_call c (sc_in_flight s)) + length (of_call c (finishing (sc_actor s))))%nat =
                 if bool_decide (c ∈ sc_active s) then 1%nat else O;
  inv_pending c : c ∉ sc_active s → sc_pending s !! c = None;
  inv_pending_call c : of_call c (pend c s) = pend c s;
  inv_nonempty c : sc_pending s !! c ≠ Some [];
  inv_count c : default O (bb_per_call (sc_budget s) !! c) = counted c s;
  inv_count_pos c : bb_per_call (sc_budget s) !! c ≠ Some O;
  inv_count_max c : (counted c s ≤ BIDI_FRAMES_PER_CALL)%nat;
  inv_permits : (bb_global (sc_budget s) + length (sc_in_flight s) + total (sc_pending s) + length (sc_channel s)
                 + actor_permits (sc_actor s) + router_permits (sc_router s))%nat = DISPATCH_CHANNEL_CAPACITY;
  inv_panic : sc_actor s ≠ ActorPanicked;
  inv_sender : sc_sender_alive s = false ↔ sc_router s = RouterGone;
  inv_closed : sc_input_closed s = true → sc_channel s = [] ∧ sc_sender_alive s = false;
  inv_done : sc_actor s = ActorDone → sc_input_closed s = true ∧ sc_in_flight s = [];
  inv_aborted : sc_actor s = ActorAborted → sc_router s = RouterGone;
}.

(** ** Counting *)

Lemma of_call_app c l k : of_call c (l ++ k) = of_call c l ++ of_call c k.
Proof. apply filter_app. Qed.
Lemma of_call_cons c x l : of_call c (x :: l) = (if bool_decide (sf_call_id x = c) then [x] else []) ++ of_call c l.
Proof. unfold of_call. rewrite filter_cons. case_bool_decide; by case_decide. Qed.
Lemma of_call_nil c : of_call c [] = [].
Proof. done. Qed.

Lemma total_empty : total ∅ = O.
Proof. apply map_fold_empty. Qed.
Lemma total_delete m c l : m !! c = Some l → total m = (length l + total (delete c m))%nat.
Proof. intros Hm. unfold total. apply (map_fold_delete_L (λ (_ : Z) (l : list ScheduledBidiFrame) n, length l + n)%nat); [intros; lia|done]. Qed.
Lemma total_delete' m c : total m = (length (default [] (m !! c)) + total (delete c m))%nat.
Proof. destruct (m !! c) as [l|] eqn:Hm; [by apply total_delete|]. by rewrite delete_id. Qed.
Lemma total_insert m c l : total (<[c := l]> m) = (length l + total (delete c m))%nat.
Proof. rewrite (total_delete _ c l) by apply lookup_insert_eq. by rewrite delete_insert_eq. Qed.

(** The call of a frame in flight has no other one. *)
Lemma of_call_delete c n x l : l !! n = Some x →
  of_call c l = [] ∨ length (of_call c l) = 1%nat →
  of_call c l = (if bool_decide (sf_call_id x = c) then [x] else []) ++ of_call c (delete n l).
Proof.
  intros Hx Hl. rewrite delete_take_drop. rewrite <- (take_drop_middle l n x Hx) in Hl |- * at 1.
  rewrite !of_call_app, of_call_cons in *. case_bool_decide as Hc; [|done].
  rewrite !length_app in Hl. destruct (of_call c (take n l)) as [|y t]; [done|]. cbn in Hl. destruct Hl as [|Hl]; [done|].
  destruct t; cbn in Hl; lia.
Qed.
Lemma length_delete_S (l : list ScheduledBidiFrame) n x : l !! n = Some x → length l = S (length (delete n l)).
Proof. intros Hx. rewrite length_delete by done. apply lookup_lt_Some in Hx. lia. Qed.

Lemma in_flight_one s c : sched_inv s → of_call c (sc_in_flight s) = [] ∨ length (of_call c (sc_in_flight s)) = 1%nat.
Proof. intros H. pose proof (inv_active _ H c) as Ha. case_bool_decide; destruct (of_call c (sc_in_flight s)); cbn in *; auto; lia. Qed.

(** The fields of a state that was put together. *)
Ltac sproj := cbn [set_router set_actor push_channel sc_trace sc_budget sc_channel sc_in_flight sc_pending sc_active sc_actor sc_router
  sc_sender_alive sc_input_closed bb_global bb_per_call] in *.

(** ** The reader keeps the invariant *)

Lemma set_router_inv r b evs s : sched_inv s → r ≠ RouterGone → sc_router s ≠ RouterGone →
  omap (λ e, match e with Accepted x | Started x | Finished x => Some x | _ => None end) evs = [] →
  (∀ c, default O (bb_per_call b !! c) + length (of_call c (router_counted (sc_router s)))
        = default O (bb_per_call (sc_budget s) !! c) + length (of_call c (router_counted r)))%nat →
  (∀ c, bb_per_call b !! c ≠ Some O) → (∀ c, default O (bb_per_call b !! c) ≤ BIDI_FRAMES_PER_CALL)%nat →
  (bb_global b + router_permits r = bb_global (sc_budget s) + router_permits (sc_router s))%nat →
  sched_inv (set_router r b evs s).
Proof.
  intros H Hr Hs Hev Hb H0 Hmax Hg.
  assert (∀ (f : SchedEvent → option ScheduledBidiFrame), (∀ e, f e = None ∨ f e = match e with Accepted x | Started x | Finished x => Some x | _ => None end) →
    omap f (sc_trace s ++ evs) = omap f (sc_trace s)) as Ht.
  { intros f Hf. rewrite omap_app. replace (omap f evs) with (@nil ScheduledBidiFrame); [apply app_nil_r|].
    induction evs as [|e evs IH]; [done|]. cbn in Hev |- *.
    destruct (Hf e) as [-> | ->]; destruct e; cbn in *; try done; by apply IH. }
  assert (∀ c, default O (bb_per_call b !! c) = counted c (set_router r b evs s)) as Hc.
  { intros c. specialize (Hb c). rewrite (inv_count _ H) in Hb. unfold counted, pend in *. sproj. lia. }
  destruct H. constructor; unfold accepted, started, finished; sproj;
    try (intros c; rewrite !Ht by (intros []; auto)); try done.
  - intros c. rewrite <- Hc. apply Hmax.
  - lia.
  - by rewrite inv_sender0.
  - intros Hab. by apply inv_aborted0 in Hab.
Qed.

Lemma route_inv frame s : sched_inv s → sched_inv (route frame s).
Proof.
  intros H. unfold route. destruct (sc_router s) eqn:Hr; try done.
  assert (∀ c, (default O (bb_per_call (sc_budget s) !! c) ≤ BIDI_FRAMES_PER_CALL)%nat) as Hmax
    by (intros c; rewrite (inv_count _ H); apply (inv_count_max _ H)).
  destruct (bidi_input_call_id frame) as [c|].
  - unfold try_acquire. destruct (bb_global (sc_budget s)) as [|g] eqn:Hg;
      apply set_router_inv; rewrite ?Hr; try done; try apply (inv_count_pos _ H); cbn; lia.
  - apply set_router_inv; rewrite ?Hr; try done; apply (inv_count_pos _ H).
Qed.

(** A counted frame is in the table, and its release is not an underflow. *)
Lemma release_counted c b : bb_per_call b !! c ≠ Some O → (0 < default O (bb_per_call b !! c))%nat →
  ∃ b', release_call c b = Some b' ∧ bb_global b' = bb_global b ∧
    (∀ k, (default O (bb_per_call b' !! k) + (if bool_decide (c = k) then 1 else 0))%nat = default O (bb_per_call b !! k)) ∧
    (∀ k, bb_per_call b !! k ≠ Some O → bb_per_call b' !! k ≠ Some O).
Proof.
  intros H0 Hpos. unfold release_call. destruct (bb_per_call b !! c) as [[|n]|] eqn:Hc; [done| |cbn in Hpos; lia].
  eexists. split; [done|]. split; [done|]. cbn [bb_per_call]. split; intros k; case_bool_decide as Hn; subst.
  - destruct (decide (c = k)) as [<- | Hk]; [rewrite lookup_delete_eq, Hc, bool_decide_true by done; cbn; lia|].
    rewrite lookup_delete_ne, bool_decide_false by done. lia.
  - destruct (decide (c = k)) as [<- | Hk]; [rewrite lookup_insert_eq, Hc, bool_decide_true by done; cbn; lia|].
    rewrite lookup_insert_ne, bool_decide_false by done. lia.
  - destruct (decide (c = k)) as [<- | Hk]; [by rewrite lookup_delete_eq|by rewrite lookup_delete_ne].
  - destruct (decide (c = k)) as [<- | Hk]; [rewrite lookup_insert_eq; congruence|by rewrite lookup_insert_ne].
Qed.

Lemma of_call_singleton c x : length (of_call c [x]) = if bool_decide (sf_call_id x = c) then 1%nat else O.
Proof. rewrite of_call_cons, of_call_nil, app_nil_r. by case_bool_decide. Qed.

(** [try_send] never finds the channel full, nor the actor gone. *)
Lemma try_send_accepts s x : sched_inv s → sc_router s = RouterReserved x → route_step s = push_channel x s.
Proof.
  intros H Hr. unfold route_step. rewrite Hr. assert (length (sc_channel s) < DISPATCH_CHANNEL_CAPACITY)%nat as Hl.
  { pose proof (inv_permits _ H) as Hp. rewrite Hr in Hp. cbn [router_permits] in Hp. lia. }
  apply Nat.ltb_lt in Hl. rewrite Hl. destruct (sc_actor s) eqn:Ha; try done.
  - apply (inv_done _ H) in Ha as [Hc%(inv_closed _ H) _]. destruct Hc as [_ Hc%(inv_sender _ H)]. congruence.
  - apply (inv_aborted _ H) in Ha. congruence.
  - by apply (inv_panic _ H) in Ha.
Qed.

Lemma push_channel_inv s x : sched_inv s → sc_router s = RouterReserved x → sched_inv (push_channel x s).
Proof.
  intros H Hr. assert (sc_sender_alive s = true) as Hal.
  { destruct (sc_sender_alive s) eqn:Ha; [done|]. apply (inv_sender _ H) in Ha. congruence. }
  assert (∀ c, counted c (push_channel x s) = counted c s) as Hc.
  { intros c. unfold counted, pend. sproj. rewrite Hr. cbn [router_counted]. rewrite of_call_app, length_app, of_call_nil. cbn [length]. lia. }
  destruct H. constructor; try (intros c; rewrite Hc; auto); unfold accepted, started, finished, pend in *; sproj;
    rewrite ?omap_app; try done.
  - intros c. cbn. rewrite !of_call_app, inv_order0, of_call_nil, !app_nil_r, !app_assoc. done.
  - intros c. cbn. by rewrite !app_nil_r.
  - rewrite Hr in inv_permits0. rewrite length_app. cbn in *. lia.
  - rewrite Hal. split; congruence.
  - intros Hcl. destruct (inv_closed0 Hcl). congruence.
  - intros Hab. apply inv_aborted0 in Hab. congruence.
Qed.

Lemma router_counted_pos s x : sched_inv s → x ∈ router_counted (sc_router s) ++ actor_counted (sc_actor s) →
  (0 < default O (bb_per_call (sc_budget s) !! sf_call_id x))%nat.
Proof.
  intros H Hx. rewrite (inv_count _ H). unfold counted.
  assert (0 < length (of_call (sf_call_id x) (router_counted (sc_router s) ++ actor_counted (sc_actor s))))%nat as Hl.
  { destruct (of_call _ _) as [|y l] eqn:E; [|cbn; lia]. apply (filter_nil_not_elem_of _ _ x) in E; done. }
  rewrite of_call_app, length_app in Hl. lia.
Qed.

Lemma budget_max s c : sched_inv s → (default O (bb_per_call (sc_budget s) !! c) ≤ BIDI_FRAMES_PER_CALL)%nat.
Proof. intros H. rewrite (inv_count _ H). apply (inv_count_max _ H). Qed.

Lemma route_step_inv s : sched_inv s → sched_inv (route_step s).
Proof.
  intros H. destruct (sc_router s) as [| |x|x|c|x e|e|] eqn:Hr.
  4: { rewrite (try_send_accepts s x) by done. by apply push_channel_inv. }
  all: unfold route_step; rewrite Hr; try done.
  - unfold reserve_call. destruct (Nat.leb_spec BIDI_FRAMES_PER_CALL (default O (bb_per_call (sc_budget s) !! sf_call_id x))) as [Hf|Hf].
    + apply set_router_inv; rewrite ?Hr; try done; [apply (inv_count_pos _ H)|intros; by apply budget_max].
    + apply set_router_inv; rewrite ?Hr; try done; cbn [bb_per_call]; intros c.
      * cbn [router_counted]. rewrite of_call_singleton, of_call_nil. cbn [length]. case_bool_decide as Hc; [subst; rewrite lookup_insert_eq; cbn; lia|].
        rewrite lookup_insert_ne by done. lia.
      * destruct (decide (sf_call_id x = c)) as [<- | Hc]; [by rewrite lookup_insert_eq|]. rewrite lookup_insert_ne by done. apply (inv_count_pos _ H).
      * destruct (decide (sf_call_id x = c)) as [<- | Hc]; [rewrite lookup_insert_eq; cbn; lia|]. rewrite lookup_insert_ne by done. by apply budget_max.
  - apply set_router_inv; rewrite ?Hr; try done; [apply (inv_count_pos _ H)|intros; by apply budget_max|cbn; lia].
  - destruct (release_counted (sf_call_id x) (sc_budget s)) as (b & -> & Hg & Hb & H0).
    + apply (inv_count_pos _ H).
    + apply router_counted_pos; [done|]. rewrite Hr. set_solver.
    + apply set_router_inv; rewrite ?Hr; try done; [..|by rewrite Hg].
      * intros c. specialize (Hb c). cbn [router_counted]. rewrite of_call_singleton, of_call_nil. cbn [length]. lia.
      * intros c. apply H0, (inv_count_pos _ H).
      * intros c. specialize (Hb c). pose proof (budget_max s c H). lia.
  - apply set_router_inv; rewrite ?Hr; try done; [apply (inv_count_pos _ H)|intros; by apply budget_max|cbn; lia].
Qed.

(** ** The actor keeps the invariant *)

Lemma pend_inactive s c : sched_inv s → c ∉ sc_active s → pend c s = [].
Proof. intros H Hc. unfold pend. by rewrite (inv_pending _ H). Qed.

Lemma pend_insert (m : gmap Z (list ScheduledBidiFrame)) x c :
  default [] (<[sf_call_id x := default [] (m !! sf_call_id x) ++ [x]]> m !! c) = default [] (m !! c) ++ of_call c [x].
Proof.
  rewrite of_call_cons, of_call_nil, app_nil_r. case_bool_decide as Hc; [by subst; rewrite lookup_insert_eq|].
  by rewrite lookup_insert_ne, app_nil_r.
Qed.
Lemma of_call_idem c l : of_call c (of_call c l) = of_call c l.
Proof. unfold of_call. rewrite list_filter_filter_l; [done|]. naive_solver. Qed.

(** A frame that starts its call. *)
Lemma recv_start_inv x rest s : sched_inv s → sc_actor s = ActorSelect → sc_input_closed s = false → sc_channel s = x :: rest →
  sf_call_id x ∉ sc_active s → sched_inv (recv s).
Proof.
  intros H Ha Hi Hc Hact. assert (∀ c, counted c (recv s) = counted c s) as Hcnt.
  { intros c. unfold recv, counted, pend. rewrite Ha, Hi, Hc, (bool_decide_false _ Hact). sproj. cbn [negb].
    rewrite of_call_cons, of_call_app, !length_app, of_call_singleton. case_bool_decide; cbn [length]; lia. }
  destruct H. constructor; try (intros c; rewrite Hcnt); unfold recv, accepted, started, finished, pend in *;
    rewrite Ha, Hi, Hc, (bool_decide_false _ Hact) in *; sproj; cbn [negb] in *; rewrite ?omap_app; try done.
  - intros c. cbn. rewrite !app_nil_r, inv_order0, of_call_cons, of_call_app, of_call_cons, of_call_nil, app_nil_r.
    case_bool_decide as Hx; [|by rewrite app_nil_r]. subst c. rewrite (inv_pending0 _ Hact). cbn. by rewrite <- app_assoc.
  - intros c. cbn. rewrite !of_call_app, inv_started0, app_nil_r. by rewrite app_assoc.
  - intros c. rewrite of_call_app, length_app, of_call_singleton. specialize (inv_active0 c). cbn [finishing] in *. rewrite of_call_nil in *.
    destruct (decide (sf_call_id x = c)) as [<- | Hx].
    + rewrite (bool_decide_false _ Hact) in inv_active0. rewrite !bool_decide_true by set_solver. cbn in *. lia.
    + rewrite (bool_decide_false _ Hx), (bool_decide_ext (c ∈ {[sf_call_id x]} ∪ sc_active s) (c ∈ sc_active s)) by set_solver. cbn in *. lia.
  - intros c Hc'. apply inv_pending0. set_solver.
  - rewrite length_app. cbn in *. lia.
Qed.

(** A frame that waits behind its call. *)
Lemma recv_wait_inv x rest s : sched_inv s → sc_actor s = ActorSelect → sc_input_closed s = false → sc_channel s = x :: rest →
  sf_call_id x ∈ sc_active s → sched_inv (recv s).
Proof.
  intros H Ha Hi Hc Hact. assert (∀ c, counted c (recv s) = counted c s) as Hcnt.
  { intros c. unfold recv, counted, pend. rewrite Ha, Hi, Hc, (bool_decide_true _ Hact). sproj. cbn [negb].
    rewrite pend_insert, !of_call_cons, of_call_nil, app_nil_r, !length_app. lia. }
  destruct H. constructor; try (intros c; rewrite Hcnt); unfold recv, accepted, started, finished, pend in *;
    rewrite Ha, Hi, Hc, (bool_decide_true _ Hact) in *; sproj; cbn [negb] in *; rewrite ?app_nil_r; try done.
  - intros c. rewrite inv_order0, pend_insert, !of_call_cons, of_call_nil, app_nil_r. by rewrite !app_assoc.
  - intros c. rewrite inv_active0. by replace ({[sf_call_id x]} ∪ sc_active s) with (sc_active s) by set_solver.
  - intros c Hc'. rewrite lookup_insert_ne by set_solver. apply inv_pending0. set_solver.
  - intros c. rewrite pend_insert, of_call_app, of_call_idem. by rewrite inv_pending_call0.
  - intros c. destruct (decide (sf_call_id x = c)) as [<- | Hx]; [rewrite lookup_insert_eq; by destruct (default _ _)|by rewrite lookup_insert_ne].
  - rewrite total_insert, length_app. rewrite (total_delete' _ (sf_call_id x)) in inv_permits0. cbn in *. lia.
Qed.

Lemma recv_inv s : sched_inv s → sched_inv (recv s).
Proof.
  intros H. destruct (sc_actor s) eqn:Ha; [|unfold recv; by rewrite Ha..].
  destruct (sc_input_closed s) eqn:Hi; [unfold recv; by rewrite Ha, Hi|].
  destruct (sc_channel s) as [|x rest] eqn:Hc.
  - unfold recv. rewrite Ha, Hi, Hc. destruct (sc_sender_alive s) eqn:Hal; [done|].
    destruct H. constructor; unfold accepted, started, finished, pend, counted in *; sproj; rewrite Ha, Hc, Hal in *; try done;
      case_bool_decide; try done.
  - destruct (decide (sf_call_id x ∈ sc_active s)); [by eapply recv_wait_inv|by eapply recv_start_inv].
Qed.

Lemma complete_inv n s : sched_inv s → sched_inv (complete_frame n s).
Proof.
  intros H. unfold complete_frame. destruct (sc_actor s) eqn:Ha; try done. destruct (sc_in_flight s !! n) as [x|] eqn:Hx; [|done].
  pose proof (λ c, of_call_delete c n x _ Hx (in_flight_one s c H)) as Hdel. apply length_delete_S in Hx as Hlen.
  set (s' := mk_Sched _ _ _ _ _ _ _ _ _ _).
  assert (∀ c, counted c s' = counted c s) as Hcnt.
  { intros c. unfold counted, pend, s'. sproj. rewrite Ha, (Hdel c), length_app. cbn [actor_counted]. rewrite of_call_singleton, of_call_nil.
    case_bool_decide; cbn [length]; lia. }
  destruct H. constructor; try (intros c; rewrite Hcnt); unfold s', accepted, started, finished, pend in *; sproj; rewrite ?omap_app; try done.
  - intros c. cbn. rewrite app_nil_r, inv_order0, (Hdel c), of_call_app, of_call_cons, of_call_nil, app_nil_r, <- !app_assoc. done.
  - intros c. cbn. rewrite app_nil_r, inv_started0, (Hdel c), of_call_app, of_call_cons, of_call_nil, app_nil_r, <- !app_assoc. done.
  - intros c. specialize (inv_active0 c). rewrite Ha, (Hdel c), length_app in inv_active0. cbn [finishing] in *.
    rewrite of_call_singleton. rewrite of_call_nil in inv_active0. rewrite <- inv_active0. case_bool_decide; cbn [length]; lia.
  - rewrite Hlen, Ha in inv_permits0. cbn in *. lia.
Qed.

(** The frames that wait, after the first of them was taken. *)
Lemma next_pending (m : gmap Z (list ScheduledBidiFrame)) k c :
  let queue := default [] (m !! k) in
  let m' := match tail queue with [] => delete k m | rest => <[k := rest]> m end in
  default [] (m' !! c) = if bool_decide (k = c) then tail queue else default [] (m !! c).
Proof.
  intros queue m'. subst m'. case_bool_decide as Hk; [subst; destruct (tail queue); [by rewrite lookup_delete_eq|by rewrite lookup_insert_eq]|].
  destruct (tail queue); [by rewrite lookup_delete_ne|by rewrite lookup_insert_ne].
Qed.
Lemma next_pending_total (m : gmap Z (list ScheduledBidiFrame)) k :
  let queue := default [] (m !! k) in
  let m' := match tail queue with [] => delete k m | rest => <[k := rest]> m end in
  total m = (total m' + length (option_list (head queue)))%nat.
Proof.
  intros queue m'. rewrite (total_delete' m k). fold queue. subst m'. destruct queue as [|x [|y q]]; cbn; rewrite ?total_insert; cbn; lia.
Qed.

Lemma next_pending_nonempty (m : gmap Z (list ScheduledBidiFrame)) k c : (∀ c, m !! c ≠ Some []) →
  match tail (default [] (m !! k)) with [] => delete k m | rest => <[k := rest]> m end !! c ≠ Some [].
Proof. intros Hm. destruct (tail _); [rewrite lookup_delete; case_decide; [done|apply Hm]|rewrite lookup_insert; case_decide; [done|apply Hm]]. Qed.

Lemma set_actor_inv a b s : sched_inv s → a ≠ ActorPanicked → a ≠ ActorDone → a ≠ ActorAborted → finishing a = finishing (sc_actor s) →
  (∀ c, default O (bb_per_call b !! c) + length (of_call c (actor_counted (sc_actor s)))
        = default O (bb_per_call (sc_budget s) !! c) + length (of_call c (actor_counted a)))%nat →
  (∀ c, bb_per_call b !! c ≠ Some O) → (∀ c, default O (bb_per_call b !! c) ≤ BIDI_FRAMES_PER_CALL)%nat →
  (bb_global b + actor_permits a = bb_global (sc_budget s) + actor_permits (sc_actor s))%nat →
  sched_inv (set_actor a b s).
Proof.
  intros H Hp Hd Hab Hf Hb H0 Hmax Hg. assert (∀ c, default O (bb_per_call b !! c) = counted c (set_actor a b s)) as Hc.
  { intros c. specialize (Hb c). rewrite (inv_count _ H) in Hb. unfold counted, pend in *. sproj. lia. }
  destruct H. constructor; unfold accepted, started, finished; sproj; try done.
  - intros c. by rewrite Hf.
  - intros c. rewrite <- Hc. apply Hmax.
  - lia.
Qed.

Lemma of_call_head k c q : of_call k q = q → of_call c (option_list (head q)) = if bool_decide (k = c) then option_list (head q) else [].
Proof.
  intros Hq. destruct q as [|y q]; [by case_bool_decide|]. change (option_list (head (y :: q))) with [y].
  assert (sf_call_id y = k) as Hy. { assert (y ∈ of_call k (y :: q)) as Hin by (rewrite Hq; left). unfold of_call in Hin. by apply list_elem_of_filter in Hin as [? _]. }
  rewrite of_call_cons, of_call_nil, app_nil_r, Hy. done.
Qed.
Lemma head_tail (q : list ScheduledBidiFrame) : q = option_list (head q) ++ tail q.
Proof. by destruct q. Qed.
Lemma of_call_tail k q : of_call k q = q → of_call k (tail q) = tail q.
Proof.
  intros Hq. destruct q as [|y q]; [done|]. cbn [tail]. rewrite of_call_cons in Hq. revert Hq. case_bool_decide; cbn; [by intros [= ?]|].
  intros Hq. exfalso. pose proof (length_filter (λ x, sf_call_id x = k) q) as Hl. unfold of_call in Hq. rewrite Hq in Hl. cbn in Hl. lia.
Qed.

Lemma omap_Started (l : list ScheduledBidiFrame) : omap (λ e, match e with Started x => Some x | _ => None end) (Started <$> l) = l.
Proof. induction l as [|x l IH]; [done|]. cbn in *. by rewrite IH. Qed.
Lemma omap_not_Started (f : SchedEvent → option ScheduledBidiFrame) (l : list ScheduledBidiFrame) :
  (∀ x, f (Started x) = None) → omap f (Started <$> l) = [].
Proof. intros Hf. induction l as [|x l IH]; [done|]. cbn in *. by rewrite Hf, IH. Qed.

Lemma next_frame_inv x s : sched_inv s → sc_actor s = ActorCompleted x → sched_inv (actor_step s).
Proof.
  intros H Ha. set (k := sf_call_id x). set (queue := default [] (sc_pending s !! k)).
  assert (k ∈ sc_active s ∧ of_call k (sc_in_flight s) = []) as [Hk Hfl].
  { pose proof (inv_active _ H k) as Hl. rewrite Ha in Hl. cbn [finishing] in Hl. rewrite of_call_singleton, (bool_decide_true (sf_call_id x = k)) in Hl by done.
    case_bool_decide; [|lia]. split; [done|]. apply nil_length_inv. lia. }
  pose proof (inv_pending_call _ H k : of_call k queue = queue) as Hq.
  pose proof (λ c, of_call_head k c queue Hq) as Hhead.
  pose proof (λ c, next_pending (sc_pending s) k c) as Hnext. pose proof (next_pending_total (sc_pending s) k) as Htot. pose proof (λ c, next_pending_nonempty (sc_pending s) k c (inv_nonempty _ H)) as Hne. fold queue in Hnext, Htot, Hne.
  cbn zeta in Hnext, Htot.
  unfold actor_step. rewrite Ha. fold k queue. set (m' := match tail queue with [] => delete k (sc_pending s) | rest => <[k := rest]> (sc_pending s) end) in *.
  set (a' := if sc_input_closed s && bool_decide (sc_in_flight s ++ option_list (head queue) = []) then ActorDone else ActorSelect) in *.
  assert (finishing a' = [] ∧ actor_counted a' = [] ∧ actor_permits a' = O ∧ a' ≠ ActorPanicked) as (Hf' & Hc' & Hp' & Hn')
    by (by subst a'; destruct (_ && _)).
  set (s' := mk_Sched _ _ _ _ _ _ _ _ _ _).
  assert (∀ c, of_call c (option_list (head queue)) ++ default [] (m' !! c) = pend c s) as Hsplit.
  { intros c. rewrite Hhead, Hnext. case_bool_decide as Hc; [subst c; symmetry; apply head_tail|done]. }
  assert (∀ c, counted c s' = counted c s) as Hcnt.
  { intros c. unfold counted, s'. rewrite <- Hsplit. unfold pend. sproj. rewrite Ha, of_call_app, !length_app. cbn [actor_counted].
    rewrite Hc', of_call_nil. cbn [length]. lia. }
  assert (sc_active s = {[k]} ∪ sc_active s) as Hkact by set_solver.
  destruct H. constructor; try (intros c; rewrite Hcnt); unfold s', accepted, started, finished in *; sproj; rewrite ?omap_app, ?omap_Started, ?omap_not_Started by done;
    rewrite ?app_nil_r; try done.
  - intros c. rewrite inv_order0, <- Hsplit, of_call_app, <- !app_assoc. done.
  - intros c. rewrite !of_call_app, inv_started0. by rewrite app_assoc.
  - intros c. rewrite Hf', of_call_nil, of_call_app, length_app, Hhead. specialize (inv_active0 c). rewrite Ha in inv_active0. cbn [finishing] in inv_active0.
    rewrite of_call_singleton in inv_active0. fold k in inv_active0. cbn [length]. destruct (decide (k = c)) as [<- | Hc].
    + rewrite Hfl, bool_decide_true by done. destruct (head queue); cbn; [by rewrite bool_decide_true|]. rewrite bool_decide_false; [done|set_solver].
    + rewrite !(bool_decide_false _ Hc) in *. cbn [length]. rewrite Nat.add_0_r in *. rewrite inv_active0. destruct (head queue); [done|].
      by rewrite (bool_decide_ext (c ∈ sc_active s ∖ {[k]}) (c ∈ sc_active s)) by set_solver.
  - intros c Hc. assert (default [] (m' !! c) = []) as Hd.
    { rewrite Hnext. case_bool_decide as Hkc; [|rewrite inv_pending0; [done|]; by destruct (head queue); set_solver].
      subst c. destruct queue; [done|]. by destruct Hc. }
    destruct (m' !! c) as [l|] eqn:Hm; [|done]. cbn in Hd. subst l. by apply Hne in Hm.
  - intros c. unfold pend. sproj. rewrite Hnext. case_bool_decide as Hc; [subst c; by apply of_call_tail|apply inv_pending_call0].
  - rewrite Ha in inv_permits0. rewrite length_app. rewrite Hp'.
    cbn [actor_permits] in inv_permits0. lia.
  - subst a'. destruct (sc_input_closed s) eqn:Hi; [|done]. cbn [andb]. case_bool_decide; done.
  - subst a'. by destruct (_ && _).
Qed.

Lemma actor_step_inv s : sched_inv s → sched_inv (actor_step s).
Proof.
  intros H. destruct (sc_actor s) as [|x|x|x| | |] eqn:Ha; [unfold actor_step; by rewrite Ha| | |by eapply next_frame_inv|unfold actor_step; by rewrite Ha..].
  - unfold actor_step. rewrite Ha. destruct (release_counted (sf_call_id x) (sc_budget s)) as (b & -> & Hg & Hb & H0).
    + apply (inv_count_pos _ H).
    + apply router_counted_pos; [done|]. rewrite Ha. set_solver.
    + apply set_actor_inv; rewrite ?Ha; try done; [..|by rewrite Hg].
      * intros c. specialize (Hb c). cbn [actor_counted]. rewrite of_call_singleton, of_call_nil. cbn [length]. lia.
      * intros c. apply H0, (inv_count_pos _ H).
      * intros c. specialize (Hb c). pose proof (budget_max s c H). lia.
  - unfold actor_step. rewrite Ha. apply set_actor_inv; rewrite ?Ha; try done; [apply (inv_count_pos _ H)|intros; by apply budget_max|cbn; lia].
Qed.

Lemma task_aborts_inv s : sched_inv s → sched_inv (task_aborts s).
Proof.
  intros H. unfold task_aborts. destruct (sc_router s) eqn:Hr; try done. destruct (sc_actor s) eqn:Ha; try done.
  destruct H. constructor; unfold accepted, started, finished, pend, counted in *; sproj; rewrite ?Ha in *; done.
Qed.

Lemma sched_step_inv s c : sched_inv s → sched_inv (sched_step s c).
Proof.
  intros H. destruct c as [frame|result| | | | |n result|]; cbn [sched_step].
  - by apply route_inv.
  - destruct (sc_router s) eqn:Hr; try done.
    apply set_router_inv; rewrite ?Hr; try done; [by destruct result|apply (inv_count_pos _ H)|intros; by apply budget_max].
  - by apply route_step_inv.
  - destruct (sc_router s) eqn:Hr; try done. destruct H.
    constructor; unfold accepted, started, finished, pend, counted in *; sproj; rewrite Hr in *; try done. naive_solver.
  - by apply task_aborts_inv.
  - by apply recv_inv.
  - by apply complete_inv.
  - by apply actor_step_inv.
Qed.
Lemma spawn_inv : sched_inv spawn_scheduler.
Proof. constructor; try done; intros; try (cbn; lia). replace (counted c spawn_scheduler) with O by done. lia. Qed.

Lemma sched_run_keeps l s : sched_inv s → sched_inv (sched_run s l).
Proof. revert s. induction l as [|c l IH]; intros s H; [done|]. by apply IH, sched_step_inv. Qed.
Lemma sched_run_inv l : sched_inv (sched_run spawn_scheduler l).
Proof. apply sched_run_keeps, spawn_inv. Qed.

(** ** Order, bounds, progress *)

(** Whatever the interleaving of the reader and the actor, the
    frames of a call that were accepted are, in the order of their acceptance, the
    frames that were handled, then at most one that is being handled, then those that
    wait for it, then those still in the channel: none is lost, repeated or
    overtaken, and a frame starts only when the one before it is done. *)
Theorem frames_in_order (l : list SchedChoice) (c : Z) :
  let s := sched_run spawn_scheduler l in
  of_call c (accepted s) = of_call c (finished s) ++ of_call c (sc_in_flight s) ++ pend c s ++ of_call c (sc_channel s) ∧
  of_call c (started s) = of_call c (finished s) ++ of_call c (sc_in_flight s) ∧
  (length (of_call c (sc_in_flight s)) ≤ 1)%nat.
Proof.
  intros s. pose proof (sched_run_inv l) as H. fold s in H. split; [apply (inv_order _ H)|]. split; [apply (inv_started _ H)|].
  pose proof (inv_active _ H c) as Ha. case_bool_decide; lia.
Qed.

(** C37 (bounds): the scheduler never holds more than 256 frames, nor more than 64
    of one call; a frame that passed the budget is always taken by the channel; the
    count of a call is never taken below zero; and when no frame is held and no
    route is under way, every permit is back and no call is counted. *)
Theorem scheduler_bounded (l : list SchedChoice) :
  let s := sched_run spawn_scheduler l in
  (length (sc_in_flight s) + total (sc_pending s) + length (sc_channel s) ≤ DISPATCH_CHANNEL_CAPACITY)%nat ∧
  (∀ c, length (of_call c (sc_in_flight s)) + length (pend c s) + length (of_call c (sc_channel s)) ≤ BIDI_FRAMES_PER_CALL)%nat ∧
  (∀ x, sc_router s = RouterReserved x → sched_step s RouteStep = push_channel x s) ∧
  sc_actor s ≠ ActorPanicked ∧
  (sc_in_flight s = [] → sc_channel s = [] → sc_router s = RouterIdle → sc_actor s = ActorSelect → sc_budget s = new_budget).
Proof.
  intros s. pose proof (sched_run_inv l) as H. fold s in H. pose proof (inv_permits _ H) as Hp.
  split_and!; [lia| |intros x; by apply try_send_accepts|apply (inv_panic _ H)|].
  - intros c. pose proof (inv_count_max _ H c) as Hc. unfold counted in Hc. lia.
  - intros Hf Hch Hr Ha. assert (∀ c, sc_pending s !! c = None) as Hpend.
    { intros c. apply (inv_pending _ H). pose proof (inv_active _ H c) as Hact. rewrite Hf, Ha in Hact. cbn in Hact. by case_bool_decide. }
    apply map_empty in Hpend. rewrite Hf, Hch, Hr, Ha, Hpend, total_empty in Hp.
    assert (bb_per_call (sc_budget s) = ∅) as Hb.
    { apply map_empty. intros c. pose proof (inv_count _ H c) as Hc. pose proof (inv_count_pos _ H c) as Hz.
      unfold counted, pend in Hc. rewrite Hf, Hch, Hr, Ha, Hpend, lookup_empty in Hc. cbn in Hc.
      destruct (bb_per_call (sc_budget s) !! c) as [n|]; [|done]. cbn in Hc. by subst n. }
    unfold new_budget. destruct (sc_budget s) as [g m]. cbn in *. subst m. f_equal. lia.
Qed.

(** The actor alone: what it has begun, then what is in the channel. *)
Definition settle (s : Sched) : list SchedChoice := [ActorStep; ActorStep; ActorStep] ++ replicate (length (sc_channel s)) Recv.

Lemma sched_run_app s l k : sched_run s (l ++ k) = sched_run (sched_run s l) k.
Proof. apply foldl_app. Qed.

Lemma actor_step_frame s : sc_channel (actor_step s) = sc_channel s ∧ accepted (actor_step s) = accepted s ∧ finished (actor_step s) = finished s.
Proof.
  unfold actor_step, accepted, finished. destruct (sc_actor s); try done; [by destruct (release_call _ _)|].
  sproj. by rewrite !omap_app, !omap_not_Started, !app_nil_r.
Qed.
Definition at_rest (s : Sched) : Prop := finishing (sc_actor s) = [] ∧ sc_actor s ≠ ActorPanicked ∧ sc_actor s ≠ ActorAborted.

Lemma three_steps_rest s : sched_inv s → sc_actor s ≠ ActorAborted → at_rest (actor_step (actor_step (actor_step s))).
Proof.
  intros H Hab. pose proof (inv_panic _ (actor_step_inv _ (actor_step_inv _ (actor_step_inv _ H)))) as Hp.
  split; [|split; [done|]]; revert Hp.
  all: unfold actor_step at 6 3; destruct (sc_actor s) as [|x|x|x| | |] eqn:Ha; try (unfold actor_step; by rewrite ?Ha, ?Ha);
    unfold actor_step; sproj; rewrite ?Ha; sproj; repeat case_match; sproj; try done; congruence.
Qed.

Lemma recv_rest s : at_rest s → at_rest (recv s).
Proof.
  unfold at_rest, recv. destruct (sc_actor s) eqn:Ha; [|by rewrite ?Ha..]. destruct (sc_input_closed s); [by rewrite Ha|].
  destruct (sc_channel s); [|done]. destruct (sc_sender_alive s); [by rewrite Ha|]. sproj. by case_bool_decide.
Qed.
Lemma recv_frame s : sched_inv s → at_rest s → sc_channel (recv s) = tail (sc_channel s) ∧ accepted (recv s) = accepted s ∧ finished (recv s) = finished s.
Proof.
  intros H (Hf & Hp & Hab). unfold recv, accepted, finished. destruct (sc_actor s) eqn:Ha; try done.
  - destruct (sc_input_closed s) eqn:Hi; [apply (inv_closed _ H) in Hi as [-> _]; done|].
    destruct (sc_channel s) eqn:Hc; [by destruct (sc_sender_alive s); rewrite ?Hc|]. sproj. rewrite !omap_app. destruct (negb _); cbn; by rewrite !app_nil_r.
  - apply (inv_done _ H) in Ha as [Hi _]. apply (inv_closed _ H) in Hi as [-> _]. done.
Qed.
Lemma recv_drains n s : sched_inv s → at_rest s → length (sc_channel s) = n →
  let s' := sched_run s (replicate n Recv) in
  at_rest s' ∧ sc_channel s' = [] ∧ accepted s' = accepted s ∧ finished s' = finished s.
Proof.
  revert s. induction n as [|n IH]; intros s H Hr Hn.
  - apply nil_length_inv in Hn. done.
  - destruct (recv_frame s H Hr) as (Hc & <- & <-). change (sched_run s (replicate (S n) Recv)) with (sched_run (recv s) (replicate n Recv)).
    apply IH; [by apply recv_inv|by apply recv_rest|]. rewrite Hc. destruct (sc_channel s); cbn in *; lia.
Qed.

(** A task that was aborted does nothing more. *)
Lemma aborted_task_stays s : sc_actor s = ActorAborted → sched_run s (settle s) = s.
Proof.
  intros Ha. assert (actor_step s = s) as Hs by (unfold actor_step; by rewrite Ha). assert (recv s = s) as Hr by (unfold recv; by rewrite Ha).
  unfold settle. cbn [sched_run foldl app sched_step]. rewrite !Hs. induction (length (sc_channel s)) as [|n IH]; [done|]. cbn. by rewrite Hr.
Qed.

Lemma settle_frame s : sched_inv s → sc_actor s ≠ ActorAborted → let s' := sched_run s (settle s) in
  finishing (sc_actor s') = [] ∧ sc_channel s' = [] ∧ accepted s' = accepted s ∧ finished s' = finished s.
Proof.
  intros H Hab. cbn zeta. unfold settle. rewrite sched_run_app. set (s3 := sched_run s [ActorStep; ActorStep; ActorStep]).
  assert (sc_channel s3 = sc_channel s ∧ accepted s3 = accepted s ∧ finished s3 = finished s) as (Hc & <- & <-).
  { unfold s3. cbn [sched_run foldl sched_step]. split_and!; by rewrite !(proj1 (actor_step_frame _)) || rewrite !(proj1 (proj2 (actor_step_frame _)))
      || rewrite !(proj2 (proj2 (actor_step_frame _))). }
  assert (sched_inv s3) as H3 by (by apply sched_run_keeps).
  destruct (recv_drains (length (sc_channel s)) s3 H3 (three_steps_rest s H Hab) ltac:(by rewrite Hc)) as ((Hr & _) & Hc' & Ha' & Hf'). done.
Qed.

(** C40 (liveness): a call whose frame is not done holds up no other one.  From every
    state, unless the session was dropped and the task aborted, when the actor alone
    runs on, without any frame being finished, for three steps and one for every frame
    in the channel, each call has exactly its first unfinished frame in flight. *)
Theorem stalled_call_blocks_nobody (l : list SchedChoice) (c : Z) :
  let s := sched_run spawn_scheduler l in
  let s' := sched_run s (settle s) in
  accepted s' = accepted s ∧ finished s' = finished s ∧
  (sc_actor s = ActorAborted ∨ of_call c (sc_in_flight s') = option_list (head (drop (length (of_call c (finished s))) (of_call c (accepted s))))).
Proof.
  intros s s'. pose proof (sched_run_inv l) as H. fold s in H. assert (sched_inv s') as H' by (by apply sched_run_keeps).
  assert (sc_actor s = ActorAborted ∨ sc_actor s ≠ ActorAborted) as [Hab|Hab] by (destruct (sc_actor s); auto).
  { subst s'. rewrite aborted_task_stays by done. auto. }
  destruct (settle_frame s H Hab) as (Hr & Hc' & Ha & Hf). fold s' in Hr, Hc', Ha, Hf. rewrite <- Ha, <- Hf. split_and!; [done..|right].
  rewrite (inv_order _ H'), drop_app_length, Hc', of_call_nil, app_nil_r.
  pose proof (inv_active _ H' c) as Hact. rewrite Hr, of_call_nil, Nat.add_0_r in Hact.
  destruct (of_call c (sc_in_flight s')) as [|x [|y t]]; cbn in Hact |- *; [|done|case_bool_decide; lia].
  case_bool_decide; [done|]. by rewrite (pend_inactive _ _ H').
Qed.
End scheduler.
