(* ===== verification/DeviceSession.v ===== *)
(** * Sessions: the device's end (src/src/daemon/invocation/bidi/session_initiator.rs and session_initiator/supervisor.rs)

    The sender that all producers of a session share, with its gate for sequence
    numbers and its fault; the supervisor that dials, waits and dials again, with
    the phases it reports, its curve of waits and the connection state it
    projects. *)

From Stdlib Require Import String.
From S2P Require Import Prelude RustStd.

Open Scope Z_scope.

(** ** The shared sender *)

Module UpSender.

Definition SESSION_UP_CHANNEL_CAPACITY : nat := 256.
Definition SESSION_UP_SEND_TIMEOUT : Z := 5000.

Inductive SessionUpSendError := Closed | Stalled (timeout_ms : Z).

Section sender.
Context {UpPayload : Type}.

(** Where a call of [send_sequenced] is: before its first look at the fault,
    waiting for the gate, holding it before the second look, waiting for a slot,
    answered, or dropped while it waited. *)
Inductive Producer :=
| PStart (payload : UpPayload)
| PWait (payload : UpPayload)
| PHold (payload : UpPayload)
| PReserve (payload : UpPayload)
| PDone (r : result SessionUpSendError unit)
| PDropped.

(** A frame on the channel, with the call that sent it. *)
Record UpFrame := mk_UpFrame { uf_sequence : Z; uf_producer : nat; uf_payload : UpPayload }.

Record SessionUpSender := mk_Sender {
  us_sent : list UpFrame;
  us_queued : nat;
  us_closed : bool;
  us_next : Z;
  us_gate : option nat;
  us_fault : option SessionUpSendError;
  us_producers : gmap nat Producer;
}.

(** After frame 0 was put on the channel. *)
Definition new : SessionUpSender := mk_Sender [] 1 false 1 None None ∅.

Definition set_producer (p : nat) (q : Producer) (gate : option nat) (s : SessionUpSender) : SessionUpSender :=
  mk_Sender (us_sent s) (us_queued s) (us_closed s) (us_next s) gate (us_fault s) (<[p := q]> (us_producers s)).

(** [get_or_insert]: the first fault stays. *)
Definition record_fault (candidate : SessionUpSendError) (p : nat) (s : SessionUpSender) : SessionUpSender :=
  let fault := default candidate (us_fault s) in
  mk_Sender (us_sent s) (us_queued s) (us_closed s) (us_next s) None (Some fault) (<[p := PDone (Err fault)]> (us_producers s)).

(** The next access of a call of [send_sequenced] to what the calls share; the counter
    is a [u64] and wraps around. *)
Definition send_sequenced (p : nat) (s : SessionUpSender) : SessionUpSender :=
  match us_producers s !! p with
  | Some (PStart payload) =>
      match us_fault s with
      | Some fault => set_producer p (PDone (Err fault)) (us_gate s) s
      | None => set_producer p (PWait payload) (us_gate s) s
      end
  | Some (PWait payload) =>
      match us_gate s with
      | None => set_producer p (PHold payload) (Some p) s
      | Some _ => s
      end
  | Some (PHold payload) =>
      match us_fault s with
      | Some fault => set_producer p (PDone (Err fault)) None s
      | None => set_producer p (PReserve payload) (us_gate s) s
      end
  | Some (PReserve payload) =>
      if us_closed s then record_fault Closed p s
      else if (us_queued s <? SESSION_UP_CHANNEL_CAPACITY)%nat then
        mk_Sender (us_sent s ++ [mk_UpFrame (us_next s) p payload]) (S (us_queued s)) (us_closed s) (u64_wrap (us_next s + 1)) None (us_fault s)
          (<[p := PDone (Ok tt)]> (us_producers s))
      else s
  | _ => s
  end.

Inductive SenderChoice :=
| Send (p : nat) (payload : UpPayload)
| Step (p : nat)
| Timeout (p : nat)
| DropSend (p : nat)
| Drain
| CloseChannel.

(** A new call, a step of one, its timeout, its future dropped at an [await]; the
    stream takes a frame, or is gone. *)
Definition sender_step (s : SessionUpSender) (c : SenderChoice) : SessionUpSender :=
  match c with
  | Send p payload => match us_producers s !! p with None => set_producer p (PStart payload) (us_gate s) s | Some _ => s end
  | Step p => send_sequenced p s
  | Timeout p =>
      match us_producers s !! p with
      | Some (PReserve _) => record_fault (Stalled SESSION_UP_SEND_TIMEOUT) p s
      | _ => s
      end
  | DropSend p =>
      match us_producers s !! p with
      | Some (PWait _) => set_producer p PDropped (us_gate s) s
      | Some (PReserve _) => set_producer p PDropped None s
      | _ => s
      end
  | Drain => mk_Sender (us_sent s) (pred (us_queued s)) (us_closed s) (us_next s) (us_gate s) (us_fault s) (us_producers s)
  | CloseChannel => mk_Sender (us_sent s) (us_queued s) true (us_next s) (us_gate s) (us_fault s) (us_producers s)
  end.
Definition sender_run (s : SessionUpSender) (l : list SenderChoice) : SessionUpSender := foldl sender_step s l.

(** *** The invariant *)

Definition holds_gate (q : Producer) : bool := match q with PHold _ | PReserve _ => true | _ => false end.
Definition waits_slot (q : Producer) : bool := match q with PReserve _ => true | _ => false end.

Record sender_inv (s : SessionUpSender) : Prop := {
  inv_next : us_next s = u64_wrap (1 + Z.of_nat (length (us_sent s)));
  inv_sequence : uf_sequence <$> us_sent s = u64_wrap <$> seqZ 1 (Z.of_nat (length (us_sent s)));
  inv_gate p : us_gate s = Some p ↔ ∃ q, us_producers s !! p = Some q ∧ holds_gate q = true;
  inv_nofault p q : us_producers s !! p = Some q → waits_slot q = true → us_fault s = None;
  inv_sent p : p ∈ uf_producer <$> us_sent s ↔ us_producers s !! p = Some (PDone (Ok tt));
  inv_once : NoDup (uf_producer <$> us_sent s);
  inv_queued : (us_queued s ≤ SESSION_UP_CHANNEL_CAPACITY)%nat;
}.

Lemma new_inv : sender_inv new.
Proof.
  constructor; try done; cbn.
  - intros p. split; [done|]. intros (q & Hq & _). by rewrite lookup_empty in Hq.
  - intros p. rewrite lookup_empty. set_solver.
  - constructor.
  - unfold SESSION_UP_CHANNEL_CAPACITY. lia.
Qed.

(** A call moves on: what holds of it before and after decides the gate. *)
Lemma set_producer_inv p q gate s : sender_inv s → q ≠ PDone (Ok tt) → us_producers s !! p ≠ Some (PDone (Ok tt)) →
  (waits_slot q = true → us_fault s = None) →
  (∀ p', gate = Some p' ↔ if decide (p = p') then holds_gate q = true else us_gate s = Some p') →
  sender_inv (set_producer p q gate s).
Proof.
  intros H Hq Hp Hw Hg. destruct H. constructor; cbn; try done.
  - intros p'. rewrite Hg. case_decide as Hpp.
    + subst p'. rewrite lookup_insert_eq. naive_solver.
    + rewrite lookup_insert_ne by done. apply inv_gate0.
  - intros p' q' Hq' Hw'. destruct (decide (p = p')) as [<- | Hpp]; [rewrite lookup_insert_eq in Hq'; simplify_eq; auto|].
    rewrite lookup_insert_ne in Hq' by done. eauto.
  - intros p'. rewrite inv_sent0. destruct (decide (p = p')) as [<- | Hpp]; [rewrite lookup_insert_eq; naive_solver|].
    by rewrite lookup_insert_ne.
Qed.

Lemma waits_holds q : waits_slot q = true → holds_gate q = true.
Proof. by destruct q. Qed.
Lemma gate_unique s p q p' q' : sender_inv s → us_producers s !! p = Some q → holds_gate q = true →
  us_producers s !! p' = Some q' → holds_gate q' = true → p = p'.
Proof.
  intros H Hp Hq Hp' Hq'. assert (us_gate s = Some p) as E by (apply (inv_gate _ H); eauto).
  assert (us_gate s = Some p') as E' by (apply (inv_gate _ H); eauto). congruence.
Qed.

(** The holder of the gate is answered, with a fault or with its frame sent. *)
Lemma answered_inv s s' p payload r : sender_inv s → us_producers s !! p = Some (PReserve payload) →
  us_producers s' = <[p := PDone r]> (us_producers s) → us_gate s' = None → (us_queued s' ≤ SESSION_UP_CHANNEL_CAPACITY)%nat →
  us_sent s' = us_sent s ++ (match r with Ok _ => [mk_UpFrame (us_next s) p payload] | Err _ => [] end) →
  us_next s' = (match r with Ok _ => u64_wrap (us_next s + 1) | Err _ => us_next s end) → sender_inv s'.
Proof.
  intros H Hp Hps Hg Hqd Hs Hn. assert (∀ p' q', us_producers s' !! p' = Some q' → holds_gate q' = false) as Hfree.
  { intros p' q'. rewrite Hps. destruct (decide (p = p')) as [<- | Hpp]; [rewrite lookup_insert_eq; naive_solver|].
    rewrite lookup_insert_ne by done. intros Hq'. destruct (holds_gate q') eqn:Eh; [|done]. destruct Hpp. by eapply gate_unique. }
  assert (p ∉ uf_producer <$> us_sent s) as Hnew by (rewrite (inv_sent _ H); congruence).
  destruct H. constructor; rewrite ?Hs, ?Hn, ?Hg; try done.
  - destruct r; rewrite inv_next0, length_app; cbn [length]; [|f_equal; lia]. unfold u64_wrap. rewrite Zplus_mod_idemp_l. f_equal. lia.
  - destruct r; rewrite fmap_app, inv_sequence0, length_app; cbn; [|by rewrite app_nil_r, Nat.add_0_r].
    rewrite Nat2Z.inj_add, seqZ_app, fmap_app by lia. f_equal. rewrite seqZ_cons, seqZ_nil by lia. cbn. by rewrite inv_next0.
  - intros p'. split; [done|]. intros (q & Hq & Ht). apply Hfree in Hq. congruence.
  - intros p' q Hq Hw%waits_holds. apply Hfree in Hq. congruence.
  - intros p'. rewrite Hps, fmap_app. destruct (decide (p = p')) as [<- | Hpp].
    + rewrite lookup_insert_eq. destruct r as [[]|e]; cbn; set_solver.
    + rewrite lookup_insert_ne, <- inv_sent0 by done. destruct r; cbn; set_solver.
  - rewrite fmap_app. apply NoDup_app. split; [done|]. destruct r; cbn; (split; [set_solver|]); [apply NoDup_singleton|constructor].
Qed.

Lemma send_sequenced_inv p s : sender_inv s → sender_inv (send_sequenced p s).
Proof.
  intros H. unfold send_sequenced. destruct (us_producers s !! p) as [q|] eqn:Hp; [|done].
  pose proof (inv_gate _ H p) as Hgp. rewrite Hp in Hgp. destruct q as [payload|payload|payload|payload|r|]; try done.
  - destruct (us_fault s) eqn:Hf; apply set_producer_inv; rewrite ?Hp; try done; intros p'; case_decide; naive_solver.
  - destruct (us_gate s) eqn:Hg; [done|]. apply set_producer_inv; rewrite ?Hp; try done; intros p'; rewrite ?Hg; case_decide; naive_solver.
  - assert (us_gate s = Some p) as Hg by (apply Hgp; eauto).
    destruct (us_fault s) eqn:Hf; apply set_producer_inv; rewrite ?Hp; try done; intros p'; rewrite Hg; case_decide; naive_solver.
  - destruct (us_closed s); [eapply (answered_inv s _ p payload (Err _)); try done; cbn; [apply (inv_queued _ H)|by rewrite app_nil_r]|].
    destruct (Nat.ltb_spec (us_queued s) SESSION_UP_CHANNEL_CAPACITY); [|done].
    by eapply (answered_inv s _ p payload (Ok tt)).
Qed.

Lemma sender_step_inv s c : sender_inv s → sender_inv (sender_step s c).
Proof.
  intros H. destruct c as [p payload|p|p|p| |]; cbn [sender_step]; [|by apply send_sequenced_inv|..].
  - destruct (us_producers s !! p) eqn:Hp; [done|]. pose proof (inv_gate _ H p) as Hg. rewrite Hp in Hg.
    apply set_producer_inv; rewrite ?Hp; try done. intros p'. case_decide; naive_solver.
  - destruct (us_producers s !! p) as [[]|] eqn:Hp; try done.
    eapply (answered_inv s _ p _ (Err _)); try done; cbn; [apply (inv_queued _ H)|by rewrite app_nil_r].
  - pose proof (inv_gate _ H p) as Hg. destruct (us_producers s !! p) as [[]|] eqn:Hp; try done;
      apply set_producer_inv; rewrite ?Hp; try done; intros p'; case_decide; [naive_solver..|].
    assert (us_gate s = Some p) as E by (apply Hg; eauto). rewrite E. naive_solver.
  - destruct H; constructor; cbn; try done; lia.
  - destruct H; constructor; cbn; done.
Qed.
Lemma sender_run_inv l : sender_inv (sender_run new l).
Proof. unfold sender_run. generalize new new_inv. induction l as [|c l IH]; intros s H; [done|]. by apply IH, sender_step_inv. Qed.

(** A fault ends the sending. *)
Lemma fault_stops s c e : sender_inv s → us_fault s = Some e →
  us_sent (sender_step s c) = us_sent s ∧ us_fault (sender_step s c) = Some e.
Proof.
  intros H Hf. assert (∀ p payload, us_producers s !! p ≠ Some (PReserve payload)) as Hno.
  { intros p payload Hp. pose proof (inv_nofault _ H p _ Hp eq_refl). congruence. }
  destruct c as [p payload|p|p|p| |]; cbn [sender_step]; unfold send_sequenced; rewrite ?Hf; repeat case_match; try done; exfalso; by eapply Hno.
Qed.
Lemma fault_stops_run s l e : sender_inv s → us_fault s = Some e → us_sent (sender_run s l) = us_sent s ∧ us_fault (sender_run s l) = Some e.
Proof.
  revert s. induction l as [|c l IH]; intros s H Hf; [done|]. destruct (fault_stops s c e H Hf) as [<- Hf'].
  apply IH; [by apply sender_step_inv|done].
Qed.

(** C31 (safety): whatever the interleaving of the calls that send on a session, with
    calls timed out or dropped while they wait, the frames on the wire are numbered
    0, 1, 2, ... modulo 2^64 in the order they are on it; each frame is of one call, and a call was
    answered [Ok] exactly when its frame is on the wire; and once a call found the
    channel closed or stuck, no frame follows. *)
Theorem up_frames_sequenced (l k : list SenderChoice) :
  let s := sender_run new l in
  0 :: (uf_sequence <$> us_sent s) = u64_wrap <$> seqZ 0 (1 + Z.of_nat (length (us_sent s))) ∧
  NoDup (uf_producer <$> us_sent s) ∧
  (∀ p, p ∈ uf_producer <$> us_sent s ↔ us_producers s !! p = Some (PDone (Ok tt))) ∧
  (us_fault s ≠ None → us_sent (sender_run s k) = us_sent s ∧ us_fault (sender_run s k) = us_fault s).
Proof.
  intros s. pose proof (sender_run_inv l) as H. fold s in H. split_and!; [|apply (inv_once _ H)|apply (inv_sent _ H)|].
  - rewrite (inv_sequence _ H), (seqZ_cons 0) by lia. cbn [fmap list_fmap]. f_equal. do 2 f_equal; lia.
  - intros Hf. destruct (us_fault s) as [e|] eqn:E; [|done]. by apply fault_stops_run.
Qed.
End sender.
End UpSender.

(** ** The supervisor *)

Module Supervisor.

(** Times in nanoseconds. *)
Definition ms : Z := 1000000.
Definition SESSION_BACKOFF_INITIAL : Z := 250 * ms.
Definition SESSION_BACKOFF_MAX : Z := 30000 * ms.
Definition SESSION_HEALTHY_MIN_UPTIME : Z := 30000 * ms.

Record SessionCloseStats := mk_CloseStats { cs_uptime : Z; cs_frames_received : Z }.
Inductive CloseClass := Healthy | DisplacedSuspect | NoAdmissionReceipt | ContractSkew.
#[global] Instance CloseClass_eq_dec : EqDecision CloseClass.
Proof. solve_decision. Defined.
Definition close_class_str (c : CloseClass) : string :=
  match c with
  | Healthy => "healthy" | DisplacedSuspect => "displaced_suspect" | NoAdmissionReceipt => "no_admission_receipt"
  | ContractSkew => "contract_skew"
  end.
Definition classify (s : SessionCloseStats) : CloseClass :=
  if SESSION_HEALTHY_MIN_UPTIME <=? cs_uptime s then Healthy
  else if cs_frames_received s =? 0 then NoAdmissionReceipt
  else if (cs_uptime s <? 1000 * ms) && (cs_frames_received s <=? 1) then DisplacedSuspect
  else ContractSkew.

(** The doubling stays far below the width of a [Duration]. *)
Definition next_backoff (current : Z) : Z :=
  let doubled := current * 2 in if SESSION_BACKOFF_MAX <? doubled then SESSION_BACKOFF_MAX else doubled.
Definition full_jitter (random bound : Z) : Z :=
  let n := bound / ms in if n =? 0 then 0 else random `mod` (n + 1) * ms.
Definition backoff_after_clean_close (s : SessionCloseStats) (current : Z) : Z :=
  match classify s with Healthy => SESSION_BACKOFF_INITIAL | DisplacedSuspect | NoAdmissionReceipt | ContractSkew => current end.

(** *** Phases *)

Inductive PreludeStep := Join | OwnerProjection | TrustBootstrap | Advertise.
Inductive DeviceSessionPhase := Idle | Dialing | Preluding (s : PreludeStep) | Live | Backoff.
#[global] Instance PreludeStep_eq_dec : EqDecision PreludeStep.
Proof. solve_decision. Defined.
#[global] Instance DeviceSessionPhase_eq_dec : EqDecision DeviceSessionPhase.
Proof. solve_decision. Defined.

Definition may_transition_to (from to : DeviceSessionPhase) : bool :=
  match from, to with
  | _, Idle | _, Backoff => true
  | Idle, Dialing | Backoff, Dialing => true
  | Dialing, Preluding _ => true
  | Preluding _, Preluding _ | Preluding _, Live => true
  | _, _ => false
  end.

(** An event of the tracker: a change of phase, or a violation before it. *)
Inductive PhaseEvent :=
| Transition (from to : DeviceSessionPhase) (attempt : Z) (reason : string)
| Violation (from to : DeviceSessionPhase) (attempt : Z) (reason : string).
Record SessionPhaseTracker := mk_Tracker { tr_phase : DeviceSessionPhase; tr_attempt : Z; tr_events : list PhaseEvent }.
Definition new_tracker : SessionPhaseTracker := mk_Tracker Idle 0 [].
Definition transition (to : DeviceSessionPhase) (reason : string) (t : SessionPhaseTracker) : SessionPhaseTracker :=
  let from := tr_phase t in
  if decide (from = to) then t
  else mk_Tracker to (tr_attempt t)
         (tr_events t ++ (if may_transition_to from to then [] else [Violation from to (tr_attempt t) reason])
                      ++ [Transition from to (tr_attempt t) reason]).
Definition begin_attempt (t : SessionPhaseTracker) : SessionPhaseTracker :=
  transition Dialing "dial_attempt" (mk_Tracker (tr_phase t) (tr_attempt t + 1) (tr_events t)).

(** *** One attempt *)

(** The errors of an attempt, without their texts. *)
Inductive SessionError :=
| SigningIdentity | InvalidEndpoint | ConnectFailed | HubRejected | DownStreamError | UpChannelFault (e : UpSender.SessionUpSendError)
| OwnerProjectionFailed | UserTrustBootstrapFailed | HostedAgentPreludeFailed | DownStreamSequence (expected actual : Z)
| DownFrameSchedulerSaturated | LivenessTimeout | SendFailed | TlsCaRead | TlsConfig.

(** The states of the product's connection (src/src/daemon/boot/join_connection_state.rs),
    the transitions into them, and their codes. *)
Inductive JoinConnectionState :=
| PairingNone | PairingTokenPending | PairingTokenPreflighted | PairingTokenExpired | PairingTokenConsumed | DeviceValidatedJoining
| CredentialsSaved | LocalTrustWired | RuntimeStarting | HubCredentialVerified | HubSessionEndpointReachable | DaemonBooting
| SelfSessionAdmissionPending | ConnectedOnline | ConnectedSuspect | ConnectedDraining | DisconnectedRemoved | ConnectionUnknown | Failed.
#[global] Instance JoinConnectionState_eq_dec : EqDecision JoinConnectionState.
Proof. solve_decision. Defined.
Definition state_as_wire (s : JoinConnectionState) : string :=
  match s with
  | PairingNone => "PAIRING_NONE"
  | PairingTokenPending | PairingTokenPreflighted => "AUTH_TOKEN_READY"
  | PairingTokenExpired => "JOIN_REJECTED"
  | PairingTokenConsumed => "JOIN_REQUESTED"
  | DeviceValidatedJoining => "PAIRING_ACCEPTED"
  | CredentialsSaved | LocalTrustWired | HubCredentialVerified | HubSessionEndpointReachable => "HUB_PREFLIGHT"
  | RuntimeStarting | DaemonBooting => "DAEMON_BOOT"
  | SelfSessionAdmissionPending => "SESSION_CONNECTING"
  | ConnectedOnline => "FRONTEND_CONNECTED"
  | ConnectedSuspect => "DEGRADED"
  | ConnectedDraining | DisconnectedRemoved | ConnectionUnknown => "OFFLINE"
  | Failed => "FAILED"
  end.
Inductive JoinTransition :=
| CreatePairing | PreflightToken | ValidateToken | SaveCredentials | WireLocalTrust | VerifyCredential | ConnectSessionEndpoint
| BootDaemon | OpenSelfSession | AdmitPresence | RefetchReadModel | RemovePresence.

(** What an attempt shows: the phases it enters and the states it projects. *)
Inductive DialEvent :=
| EvPhase (to : DeviceSessionPhase) (reason : string)
| EvProject (state : JoinConnectionState) (t : JoinTransition) (source : string).

(** A prelude that may have nothing to publish, may fail before it publishes, or
    publishes. *)
Inductive OwnerPrelude := PreludeSkipped | PreludeRefused (e : SessionError) | PreludePublish (r : result SessionError unit).

(** What the peers of an attempt answer: the channel, the preludes, the opening of
    the stream; the frames that establish the contract and how the session ends. *)
Record SessionDialAttempt := mk_Dial {
  da_connect : result SessionError unit;
  da_owner_projection : result SessionError unit;
  da_user_trust : option (result SessionError unit);
  da_service_projection : OwnerPrelude;
  da_hosted_agents : OwnerPrelude;
  da_open : result SessionError unit;
  da_contracts : nat;
  da_close : result SessionError SessionCloseStats;
}.

(** A writer of events with errors. *)
Definition Dialed (A : Type) : Type := list DialEvent * result SessionError A.
Definition dial_then {A B} (d : Dialed A) (f : A → Dialed B) : Dialed B :=
  match d with
  | (evs, Ok a) => let '(evs', r) := f a in (evs ++ evs', r)
  | (evs, Err e) => (evs, Err e)
  end.

Definition owner_prelude (step : PreludeStep) (reason : string) (p : OwnerPrelude) : Dialed unit :=
  match p with
  | PreludeSkipped => ([], Ok tt)
  | PreludeRefused e => ([], Err e)
  | PreludePublish r => ([EvPhase (Preluding step) reason], r)
  end.

(** The join itself may fail without ending the attempt. *)
Definition run_session_preludes (d : SessionDialAttempt) : Dialed unit :=
  dial_then ([EvPhase (Preluding Join) "channel_connected"], Ok tt) (λ _,
  dial_then ([EvPhase (Preluding OwnerProjection) "join_prelude_done"], da_owner_projection d) (λ _,
  dial_then (match da_user_trust d with
             | Some r => ([EvPhase (Preluding TrustBootstrap) "owner_projection_published"], r)
             | None => ([], Ok tt)
             end) (λ _,
  dial_then (owner_prelude OwnerProjection "user_trust_bootstrap_done" (da_service_projection d)) (λ _,
  owner_prelude Advertise "projection_published" (da_hosted_agents d))))).

(** The frame loop, as the supervisor sees it. *)
Definition run_live_session (d : SessionDialAttempt) : Dialed SessionCloseStats :=
  dial_then ([], da_open d) (λ _,
    (EvPhase Live "bidi_accepted" :: replicate (da_contracts d) (EvProject ConnectedOnline RefetchReadModel "session.contract_negotiated"), da_close d)).

Definition dial_and_run_session (d : SessionDialAttempt) : Dialed SessionCloseStats :=
  dial_then ([EvPhase Dialing "dial_entered"], da_connect d) (λ _,
  dial_then (run_session_preludes d) (λ _, run_live_session d)).

(** *** The loop *)

(** An attempt is cancelled after some of its events, or ends; then the wait, which
    may be cancelled too. *)
Inductive AttemptEnd := CancelledAfter (n : nat) | Ended (random : Z) (cancelled : bool).

Record SupervisorState := mk_Supervisor {
  sv_tracker : SessionPhaseTracker;
  sv_backoff : Z;
  sv_projected : list (JoinConnectionState * bool);
  sv_waits : list (Z * Z);
  sv_running : bool;
}.
Definition new_supervisor : SupervisorState := mk_Supervisor new_tracker SESSION_BACKOFF_INITIAL [] [] true.

(** The sink is the caller's: whether the store takes the [n]-th projection of a run.
    A projection that fails is answered [false] and the session goes on. *)
Section supervised.
Context (sink : nat → bool).

Definition project_connection_state (state : JoinConnectionState) (projected : list (JoinConnectionState * bool))
    : list (JoinConnectionState * bool) * bool :=
  let recorded := sink (length projected) in (projected ++ [(state, recorded)], recorded).

Definition show_event (s : SupervisorState) (e : DialEvent) : SupervisorState :=
  match e with
  | EvPhase to reason => mk_Supervisor (transition to reason (sv_tracker s)) (sv_backoff s) (sv_projected s) (sv_waits s) (sv_running s)
  | EvProject state _ _ =>
      mk_Supervisor (sv_tracker s) (sv_backoff s) (project_connection_state state (sv_projected s)).1 (sv_waits s) (sv_running s)
  end.
Definition show_events (s : SupervisorState) (l : list DialEvent) : SupervisorState := foldl show_event s l.

Definition set_backoff (b : Z) (waits : list (Z * Z)) (running : bool) (s : SupervisorState) : SupervisorState :=
  mk_Supervisor (sv_tracker s) b (sv_projected s) waits running.

Definition start_attempt (s : SupervisorState) : SupervisorState :=
  mk_Supervisor (begin_attempt (sv_tracker s)) (sv_backoff s) (sv_projected s) (sv_waits s) (sv_running s).

(** The result of an attempt: the curve, the phase, the projected state. *)
Definition close_attempt (r : result SessionError SessionCloseStats) (s : SupervisorState) : SupervisorState :=
  match r with
  | Ok stats =>
      show_events (set_backoff (backoff_after_clean_close stats (sv_backoff s)) (sv_waits s) true s)
        [EvPhase Backoff (close_class_str (classify stats)); EvProject ConnectedSuspect OpenSelfSession "session.clean_close_reconnecting"]
  | Err _ => show_events s [EvPhase Backoff "session_error"; EvProject ConnectedSuspect OpenSelfSession "session.error_reconnecting"]
  end.

Definition supervisor_step (s : SupervisorState) (c : SessionDialAttempt * AttemptEnd) : SupervisorState :=
  if negb (sv_running s) then s
  else
    let s := start_attempt s in
    let '(evs, r) := dial_and_run_session c.1 in
    match c.2 with
    | CancelledAfter n =>
        let s := show_events (show_events s (take n evs)) [EvPhase Idle "supervisor_cancelled"] in set_backoff (sv_backoff s) (sv_waits s) false s
    | Ended random cancelled =>
        let s := close_attempt r (show_events s evs) in
        let wait := (sv_backoff s, full_jitter random (sv_backoff s)) in
        if cancelled then
          let s := show_events s [EvPhase Idle "supervisor_cancelled"] in set_backoff (sv_backoff s) (sv_waits s ++ [wait]) false s
        else set_backoff (next_backoff (sv_backoff s)) (sv_waits s ++ [wait]) true s
    end.
Definition run_session_supervisor (l : list (SessionDialAttempt * AttemptEnd)) : SupervisorState := foldl supervisor_step new_supervisor l.

(** *** Phases and the projected state *)

Definition clean (t : SessionPhaseTracker) : bool := forallb (λ e, match e with Violation _ _ _ _ => false | _ => true end) (tr_events t).

(** The events of an attempt, from a phase: legal edges, and the connected state
    shown in [Live] alone, which is not left again. *)
Fixpoint legal (p : DeviceSessionPhase) (l : list DialEvent) : bool :=
  match l with
  | [] => true
  | EvPhase to _ :: l => (bool_decide (p = to) || may_transition_to p to) && negb (bool_decide (p = Live)) && legal to l
  | EvProject s _ _ :: l => negb (bool_decide (s = ConnectedOnline)) && legal p l || bool_decide (p = Live) && legal p l
  end.
Definition phase_of (s : SupervisorState) : DeviceSessionPhase := tr_phase (sv_tracker s).

Lemma legal_take n p l : legal p l = true → legal p (take n l) = true.
Proof.
  revert n p. induction l as [|e l IH]; intros [|n] p Hl; try done. destruct e; cbn in Hl |- *.
  - rewrite !andb_true_iff in Hl |- *. destruct Hl as [[? ?] ?]. auto.
  - rewrite orb_true_iff, !andb_true_iff in Hl |- *. destruct Hl as [[? ?]|[? ?]]; [left|right]; auto.
Qed.
Lemma dial_legal d : legal Dialing (dial_and_run_session d).1 = true.
Proof.
  assert (∀ n t src, legal Live (replicate n (EvProject ConnectedOnline t src)) = true) as Hl.
  { intros n t src. induction n as [|n IH]; [done|]. cbn. by rewrite IH. }
  destruct d as [c o t s h op n r]. unfold dial_and_run_session, run_session_preludes, run_live_session, owner_prelude. cbn.
  destruct c; [|done]. destruct o; [|done].
  destruct t as [[]|]; try done; destruct s as [| |[]]; try done; destruct h as [| |[]]; try done; destruct op; try done; cbn; by rewrite Hl.
Qed.

Lemma transition_phase to reason t : tr_phase (transition to reason t) = to.
Proof. unfold transition. by case_decide. Qed.

(** What events leave behind. *)
Lemma show_events_legal s l : clean (sv_tracker s) = true → legal (phase_of s) l = true →
  (last (sv_projected s).*1 = Some ConnectedOnline → phase_of s = Live) →
  let s' := show_events s l in
  clean (sv_tracker s') = true ∧ (last (sv_projected s').*1 = Some ConnectedOnline → phase_of s' = Live).
Proof.
  revert s. induction l as [|e l IH]; intros s Hc Hl Ho; [done|]. cbn [show_events foldl]. fold (show_events (show_event s e) l).
  destruct e as [to reason|st t src]; cbn in Hl.
  - rewrite !andb_true_iff in Hl. destruct Hl as [[He Hn] Hl]. apply IH; cbn.
    + unfold transition. destruct (decide (tr_phase (sv_tracker s) = to)) as [|Hp]; [done|]. unfold clean in *. cbn. rewrite forallb_app, Hc.
      rewrite (bool_decide_false (phase_of s = to)) in He by done. cbn in He. unfold phase_of in He. by rewrite He.
    + unfold phase_of. cbn. by rewrite transition_phase.
    + intros Hlast. apply Ho in Hlast. by rewrite Hlast in Hn.
  - apply IH; cbn; [done|..].
    + rewrite orb_true_iff, !andb_true_iff in Hl. by destruct Hl as [[_ Hl]|[_ Hl]].
    + rewrite fmap_app. cbn. rewrite last_snoc. intros [= ->]. rewrite orb_true_iff, !andb_true_iff, bool_decide_eq_true in Hl. by destruct Hl as [[Hl _]|[Hl _]].
Qed.

(** Between attempts: no violation, the device not shown as connected, ready to
    dial. *)
Record between (s : SupervisorState) : Prop := {
  bt_clean : clean (sv_tracker s) = true;
  bt_shown : sv_running s = true → last (sv_projected s).*1 ≠ Some ConnectedOnline ∧ (phase_of s = Idle ∨ phase_of s = Backoff);
}.

Lemma start_legal s : between s → sv_running s = true →
  clean (sv_tracker (start_attempt s)) = true ∧ phase_of (start_attempt s) = Dialing ∧ sv_projected (start_attempt s) = sv_projected s.
Proof.
  intros [Hc Hs] Hr. destruct (Hs Hr) as [_ Hp]. unfold start_attempt, phase_of, begin_attempt, transition, clean in *. cbn in *.
  split_and!; [|by case_decide|done]. case_decide; [done|]. cbn. rewrite forallb_app, Hc. by destruct Hp as [-> | ->].
Qed.
Lemma attempt_legal s d n : between s → sv_running s = true →
  let s' := show_events (start_attempt s) (take n (dial_and_run_session d).1) in
  clean (sv_tracker s') = true ∧ (last (sv_projected s').*1 = Some ConnectedOnline → phase_of s' = Live).
Proof.
  intros Hb Hr. destruct (start_legal s Hb Hr) as (Hc & Hp & Hj). apply show_events_legal; [done|rewrite Hp; apply legal_take, dial_legal|].
  rewrite Hj. intros Hl. by destruct (bt_shown _ Hb Hr) as [Hn _].
Qed.

Lemma to_end_clean s to reason : may_transition_to (phase_of s) to = true → clean (sv_tracker s) = true →
  clean (transition to reason (sv_tracker s)) = true.
Proof.
  intros Hm Hc. unfold transition. case_decide; [done|]. unfold clean in *. cbn. rewrite forallb_app. unfold phase_of in Hm. rewrite Hc, Hm. done.
Qed.
Lemma to_any p : may_transition_to p Idle = true ∧ may_transition_to p Backoff = true.
Proof. by destruct p. Qed.

Lemma show_events_frame l s : sv_running (show_events s l) = sv_running s ∧ sv_backoff (show_events s l) = sv_backoff s ∧
  sv_waits (show_events s l) = sv_waits s.
Proof.
  revert s. induction l as [|e l IH]; intros s; [done|]. destruct (IH (show_event s e)) as (Hr & Hb & Hw).
  change (show_events s (e :: l)) with (show_events (show_event s e) l). rewrite Hr, Hb, Hw. by destruct e.
Qed.

Lemma close_attempt_between r s : clean (sv_tracker s) = true → between (close_attempt r s).
Proof.
  intros Hc. destruct r as [stats|e]; constructor; cbn;
    [apply (to_end_clean s); [apply to_any|done]| |apply (to_end_clean s); [apply to_any|done]|]; intros _;
    rewrite fmap_app; cbn; rewrite last_snoc; (split; [done|]); right; unfold phase_of; cbn; apply transition_phase.
Qed.

Lemma supervisor_step_between s c : between s → between (supervisor_step s c).
Proof.
  intros Hb. unfold supervisor_step. destruct (sv_running s) eqn:Hr; [|done]. cbn [negb]. destruct c as [d en]. cbn [fst snd].
  pose proof (λ n, attempt_legal s d n Hb Hr) as Ha. destruct (dial_and_run_session d) as [evs r]. cbn [fst] in Ha.
  destruct en as [n|random cancelled].
  - destruct (Ha n) as [Hc _]. constructor; cbn; [|done]. apply (to_end_clean (show_events _ _)); [apply to_any|done].
  - destruct (Ha (length evs)) as [Hc _]. rewrite firstn_all in Hc. apply (close_attempt_between r) in Hc. set (s1 := close_attempt _ _) in *.
    destruct cancelled; constructor; cbn; [apply (to_end_clean s1); [apply to_any|apply Hc]|done|apply Hc|].
    intros _. apply (bt_shown _ Hc). subst s1. unfold close_attempt. destruct r; [done|]. cbn.
    by rewrite (proj1 (show_events_frame _ _)).
Qed.
Lemma supervisor_between l : between (run_session_supervisor l).
Proof.
  unfold run_session_supervisor. assert (between new_supervisor) as H by (constructor; [done|]; intros _; split; [done|by left]).
  revert H. generalize new_supervisor. induction l as [|c l IH]; intros s H; [done|]. by apply IH, supervisor_step_between.
Qed.

(** What the store holds of the projections: the last one it took. *)
Definition shown (s : SupervisorState) : option JoinConnectionState := last (List.filter snd (sv_projected s)).*1.

(** What is held was the last projection, or all those after it failed. *)
Lemma shown_split s st : shown s = Some st →
  ∃ before after, sv_projected s = before ++ (st, true) :: after ∧ Forall (λ p, p.2 = false) after.
Proof.
  unfold shown. generalize (sv_projected s). intros l. induction l as [|[x b] l IH] using rev_ind; [done|].
  rewrite List.filter_app. destruct b; cbn.
  - rewrite fmap_app. cbn. rewrite last_snoc. intros [= ->]. by exists l, [].
  - rewrite app_nil_r. intros (before & after & -> & Hf)%IH. exists before, (after ++ [(x, false)]). rewrite <- app_assoc. split; [done|].
    apply Forall_app. by split; [|constructor].
Qed.
Lemma shown_live s : (last (sv_projected s).*1 = Some ConnectedOnline → phase_of s = Live) → shown s = Some ConnectedOnline →
  phase_of s = Live ∨
  ∃ before after, sv_projected s = before ++ (ConnectedOnline, true) :: after ∧ after ≠ [] ∧ Forall (λ p, p.2 = false) after.
Proof.
  intros Hl (before & after & E & Hf)%shown_split. destruct after as [|p after]; [|by right; exists before, (p :: after)].
  left. apply Hl. rewrite E, fmap_app. cbn. apply last_snoc.
Qed.


(** *** The curve *)

Definition healthy (d : SessionDialAttempt) : bool :=
  match (dial_and_run_session d).2 with Ok stats => bool_decide (classify stats = Healthy) | Err _ => false end.
(** How often the curve was doubled since its last reset. *)
Definition doublings (l : list bool) : nat := foldl (λ e h, if h : bool then 1%nat else S e) O l.
Definition curve (e : nat) : Z := Z.min SESSION_BACKOFF_MAX (SESSION_BACKOFF_INITIAL * 2 ^ Z.of_nat e).

Lemma next_curve e : next_backoff (curve e) = curve (S e).
Proof.
  unfold next_backoff, curve. rewrite Nat2Z.inj_succ, Z.pow_succ_r by lia. unfold SESSION_BACKOFF_MAX, SESSION_BACKOFF_INITIAL, ms in *.
  pose proof (Z.pow_pos_nonneg 2 (Z.of_nat e)). destruct (Z.ltb_spec (30000 * 1000000) (Z.min (30000 * 1000000) (250 * 1000000 * 2 ^ Z.of_nat e) * 2)); lia.
Qed.
Lemma full_jitter_bound random bound : 0 ≤ bound → bound `mod` ms = 0 → 0 ≤ full_jitter random bound ≤ bound.
Proof.
  intros Hb Hm. unfold full_jitter. destruct (Z.eqb_spec (bound / ms) 0); [lia|].
  pose proof (Z.mod_pos_bound random (bound / ms + 1)). pose proof (Z.div_mod bound ms). unfold ms in *.
  assert (0 ≤ bound / 1000000) by (apply Z.div_pos; lia). nia.
Qed.
Lemma curve_ms e : 0 ≤ curve e ∧ curve e `mod` ms = 0.
Proof.
  unfold curve, SESSION_BACKOFF_MAX, SESSION_BACKOFF_INITIAL. pose proof (Z.pow_pos_nonneg 2 (Z.of_nat e)).
  split; [unfold ms; lia|]. destruct (Z.min_spec (30000 * ms) (250 * ms * 2 ^ Z.of_nat e)) as [[_ ->]|[_ ->]]; [by apply Z.mod_mul|].
  replace (250 * ms * 2 ^ Z.of_nat e) with (250 * 2 ^ Z.of_nat e * ms) by lia. by apply Z.mod_mul.
Qed.

Lemma attempt_curve s d random e : sv_running s = true → sv_backoff s = curve e →
  let bound := curve (if healthy d then O else e) in
  let s' := supervisor_step s (d, Ended random false) in
  sv_running s' = true ∧ sv_backoff s' = curve (if healthy d then 1 else S e) ∧ sv_waits s' = sv_waits s ++ [(bound, full_jitter random bound)].
Proof.
  intros Hr Hb bound s'. subst s' bound. unfold supervisor_step, healthy. rewrite Hr. cbn [negb fst snd].
  destruct (dial_and_run_session d) as [evs r]. cbn [snd]. destruct (show_events_frame evs (start_attempt s)) as (Hr' & Hb' & Hw').
  cbn in Hb', Hw'. rewrite Hb in Hb'. destruct r as [stats|er]; cbn.
  - rewrite Hb', Hw'. unfold backoff_after_clean_close. destruct (classify stats) eqn:Hc;
      [rewrite bool_decide_true by done; change SESSION_BACKOFF_INITIAL with (curve 0)|rewrite bool_decide_false by done..];
      rewrite next_curve; done.
  - rewrite Hb', Hw', next_curve. done.
Qed.

Definition uncancelled (l : list (SessionDialAttempt * Z)) : list (SessionDialAttempt * AttemptEnd) := (λ x, (x.1, Ended x.2 false)) <$> l.

Lemma run_snoc l c : run_session_supervisor (l ++ [c]) = supervisor_step (run_session_supervisor l) c.
Proof. unfold run_session_supervisor. by rewrite foldl_app. Qed.
Lemma doublings_snoc l h : doublings (l ++ [h]) = if h then 1%nat else S (doublings l).
Proof. unfold doublings. by rewrite foldl_app. Qed.

Lemma run_curve l :
  let s := run_session_supervisor (uncancelled l) in
  sv_running s = true ∧ sv_backoff s = curve (doublings (healthy <$> l.*1)) ∧ length (sv_waits s) = length l ∧
  ∀ i d random, l !! i = Some (d, random) →
    let bound := curve (if healthy d then O else doublings (healthy <$> (take i l).*1)) in
    sv_waits s !! i = Some (bound, full_jitter random bound).
Proof.
  induction l as [|[d r] l IH] using rev_ind; [done|]. destruct IH as (Hr & Hb & Hl & Hw). unfold uncancelled in *.
  rewrite !fmap_app. cbn [fmap list_fmap]. rewrite run_snoc.
  destruct (attempt_curve _ d r _ Hr Hb) as (Hr' & Hb' & Hw'). cbn zeta in *. cbn [fst snd]. rewrite doublings_snoc, Hw', Hb', !length_app, Hl.
  split_and!; [done|by destruct (healthy d)|done|]. intros i d' r' Hi.
  destruct (decide (i < length l)%nat) as [Hlt|Hge].
  - rewrite lookup_app_l in Hi by lia. rewrite lookup_app_l by lia. rewrite take_app_le by lia. by apply Hw.
  - assert (i = length l) as -> by (apply lookup_lt_Some in Hi; rewrite length_app in Hi; cbn in Hi; lia).
    rewrite list_lookup_middle in Hi by done. injection Hi as <- <-. rewrite list_lookup_middle by done. by rewrite take_app_length.
Qed.

(** The waits of the supervisor.  After any attempts, the wait of each
    is between zero and the curve, which starts at 250 milliseconds, doubles with
    every attempt, is capped at 30 seconds, and starts over only after a session that
    was up for 30 seconds and closed cleanly. *)
Theorem waits_follow_curve (l : list (SessionDialAttempt * Z)) :
  let s := run_session_supervisor (uncancelled l) in
  sv_backoff s = curve (doublings (healthy <$> l.*1)) ∧ length (sv_waits s) = length l ∧
  ∀ i d random, l !! i = Some (d, random) → ∃ wait,
    let bound := curve (if healthy d then O else doublings (healthy <$> (take i l).*1)) in
    sv_waits s !! i = Some (bound, wait) ∧ 0 ≤ wait ≤ bound ∧ bound ≤ SESSION_BACKOFF_MAX.
Proof.
  intros s. destruct (run_curve l) as (_ & Hb & Hl & Hw). split_and!; [done..|]. intros i d r Hi. eexists.
  split; [by apply (Hw i d r)|]. split; [apply full_jitter_bound; apply curve_ms|unfold curve; lia].
Qed.
End supervised.
End Supervisor.
