(* ===== verification/LiveSession.v ===== *)
(** * Sessions: the loop over the hub's frames (src/src/daemon/invocation/bidi/session_initiator/frame_loop.rs)

    One live session: frames are taken in the order of their numbers, the contract
    is read off, each frame is routed by the scheduler, and what ends the session
    ends it for all calls.  The loop runs beside the scheduler's actor. *)

From Stdlib Require Import String.
From S2P Require Import Prelude RustStd Text Programs SessionWire Presence FrameScheduler DeviceSession.

Open Scope Z_scope.

Definition DEVICE_DISPATCH_CONTRACT_VERSION : Z := 3.

Section live.
Context {DF : DownFrames}.

(** The loop waits for a frame or is within [route]; the contract starts at zero. *)
Record LiveSession := mk_Live {
  lv_sched : Sched;
  lv_expected : Z;
  lv_negotiated : Z;
  lv_established : bool;
  lv_projected : nat;
  lv_routed : list InvokeBidiDown;
  lv_result : option (result Supervisor.SessionError Z);
}.
Definition start_live : LiveSession := mk_Live spawn_scheduler 0 0 false O [] None.

(** The contract that a frame establishes: the lower version of the two. *)
Definition apply_session_contract (frame : InvokeBidiDown) (v : LiveSession) : LiveSession :=
  match session_established frame with
  | Some version =>
      mk_Live (lv_sched v) (lv_expected v) (Z.min version DEVICE_DISPATCH_CONTRACT_VERSION) true (S (lv_projected v)) (lv_routed v) (lv_result v)
  | None => v
  end.
Definition canonical_carrier (v : LiveSession) : bool := DEVICE_DISPATCH_CONTRACT_VERSION <=? lv_negotiated v.

(** The session is left: the scheduler goes with it. *)
Definition end_live (r : result Supervisor.SessionError Z) (v : LiveSession) : LiveSession :=
  mk_Live (sched_step (lv_sched v) DropScheduler) (lv_expected v) (lv_negotiated v) (lv_established v) (lv_projected v) (lv_routed v) (Some r).

Definition set_sched (s : Sched) (v : LiveSession) : LiveSession :=
  mk_Live s (lv_expected v) (lv_negotiated v) (lv_established v) (lv_projected v) (lv_routed v) (lv_result v).

(** What [route] answered, once it has: an error of the dispatcher is logged, any
    other one ends the session. *)
Definition route_answered (v : LiveSession) : LiveSession :=
  match sc_router (lv_sched v) with
  | RouterIdle =>
      match last (sc_trace (lv_sched v)) with
      | Some (Refused (ScheduleDispatch _)) => v
      | Some (Refused _) => end_live (Err Supervisor.DownFrameSchedulerSaturated) v
      | _ => v
      end
  | _ => v
  end.

(** [saturating_add] on a [u64]. *)
Definition next_sequence (n : Z) : Z := Z.min (n + 1) (2 ^ 64 - 1).

Definition down_frame (frame : InvokeBidiDown) (v : LiveSession) : LiveSession :=
  if negb (down_sequence frame =? lv_expected v) then
    end_live (Err (Supervisor.DownStreamSequence (lv_expected v) (down_sequence frame))) v
  else
    let v := mk_Live (lv_sched v) (next_sequence (lv_expected v)) (lv_negotiated v) (lv_established v) (lv_projected v) (lv_routed v) (lv_result v) in
    let v := apply_session_contract frame v in
    route_answered (mk_Live (sched_step (lv_sched v) (Route frame)) (lv_expected v) (lv_negotiated v) (lv_established v) (lv_projected v)
                      (lv_routed v ++ [frame]) (lv_result v)).

Inductive LiveChoice :=
| Down (frame : InvokeBidiDown)
| DownError
| DownEof
| LivenessElapsed
| UpFault (e : UpSender.SessionUpSendError)
| ReaderStep
| ReaderInline (r : result error unit)
| ActorRecv
| ActorComplete (n : nat) (r : result error unit)
| ActorGoes
| ActorAborts.

(** The select of the loop, when no route is under way. *)
Definition reader_step (v : LiveSession) (c : LiveChoice) : LiveSession :=
  match lv_result v with
  | Some _ => v
  | None =>
      match c, sc_router (lv_sched v) with
      | Down frame, RouterIdle => down_frame frame v
      | DownError, RouterIdle => end_live (Err Supervisor.DownStreamError) v
      | DownEof, RouterIdle => end_live (Ok (lv_expected v)) v
      | LivenessElapsed, RouterIdle => end_live (Err Supervisor.LivenessTimeout) v
      | UpFault e, RouterIdle => end_live (Err (Supervisor.UpChannelFault e)) v
      | ReaderStep, (RouterAcquired _ | RouterReserved _ | RouterGiveBack _ | RouterUnwind _ _ | RouterUnwind2 _) =>
          route_answered (set_sched (sched_step (lv_sched v) RouteStep) v)
      | ReaderInline r, RouterInline _ => route_answered (set_sched (sched_step (lv_sched v) (InlineDone r)) v)
      | _, _ => v
      end
  end.

(** The actor runs beside the loop, and until its task is aborted. *)
Definition live_step (v : LiveSession) (c : LiveChoice) : LiveSession :=
  match c with
  | ActorRecv => set_sched (sched_step (lv_sched v) Recv) v
  | ActorComplete n r => set_sched (sched_step (lv_sched v) (Complete n r)) v
  | ActorGoes => set_sched (sched_step (lv_sched v) ActorStep) v
  | ActorAborts => set_sched (sched_step (lv_sched v) TaskAborts) v
  | _ => reader_step v c
  end.
Definition run_live_session (l : list LiveChoice) : LiveSession := foldl live_step start_live l.

(** ** The loop and the scheduler *)

Ltac sproj := cbn [set_router set_actor push_channel sc_trace sc_budget sc_channel sc_in_flight sc_pending sc_active sc_actor sc_router
  sc_sender_alive sc_input_closed] in *.

(** The input that a frame carries, with its call. *)
Definition as_scheduled (frame : InvokeBidiDown) : option ScheduledBidiFrame :=
  call_id ← bidi_input_call_id frame; Some (mk_Scheduled call_id frame).
Definition inputs (v : LiveSession) : list ScheduledBidiFrame := omap as_scheduled (lv_routed v).

(** The input that is on its way through [route]; [None] when it is being refused
    for its call, and where the loop never is. *)
Definition routing (r : Router) : option (list ScheduledBidiFrame) :=
  match r with
  | RouterIdle | RouterInline _ => Some []
  | RouterAcquired x | RouterReserved x => Some [x]
  | _ => None
  end.
Definition on_route (r : Router) : bool :=
  match r with RouterIdle | RouterInline _ | RouterAcquired _ | RouterReserved _ | RouterGiveBack _ => true | _ => false end.
Definition refusal (e : SchedEvent) : bool := match e with Refused (ScheduleDispatch _) => false | Refused _ => true | _ => false end.

Record live_inv (v : LiveSession) : Prop := {
  li_sched : sched_inv (lv_sched v);
  li_prefix : accepted (lv_sched v) `prefix_of` inputs v;
  li_inputs : lv_result v = None → ∀ t, routing (sc_router (lv_sched v)) = Some t → inputs v = accepted (lv_sched v) ++ t;
  li_route : lv_result v = None → on_route (sc_router (lv_sched v)) = true;
  li_refusals : lv_result v = None → Forall (λ e, refusal e = false) (sc_trace (lv_sched v));
}.

Lemma accepted_Drop s : accepted (sched_step s DropScheduler) = accepted s.
Proof. cbn. by destruct (sc_router s). Qed.

Lemma end_live_inv r v : sched_inv (lv_sched v) → accepted (lv_sched v) `prefix_of` inputs v → live_inv (end_live r v).
Proof.
  intros Hs Hp. constructor; cbn [end_live lv_sched lv_result lv_routed]; try done; [by apply sched_step_inv|].
  by rewrite accepted_Drop.
Qed.

(** The actor's steps do not concern the reader. *)
Definition actor_choice (c : SchedChoice) : bool := match c with Recv | Complete _ _ | ActorStep | TaskAborts => true | _ => false end.
Lemma actor_leaves_reader s c : actor_choice c = true →
  sc_router (sched_step s c) = sc_router s ∧ accepted (sched_step s c) = accepted s ∧
  ∃ evs, sc_trace (sched_step s c) = sc_trace s ++ evs ∧ Forall (λ e, refusal e = false) evs.
Proof.
  assert (∃ evs, sc_trace s = sc_trace s ++ evs ∧ Forall (λ e, refusal e = false) evs) as Hnil by (exists []; by rewrite app_nil_r).
  destruct c as [| | | | | |n r|]; try done; intros _; cbn [sched_step]; unfold accepted.
  - unfold task_aborts. by destruct (sc_router s) eqn:Hr, (sc_actor s); rewrite ?Hr.
  - unfold recv. destruct (sc_actor s), (sc_input_closed s); try done. destruct (sc_channel s) as [|x rest]; [by destruct (sc_sender_alive s)|].
    sproj. split; [done|]. rewrite omap_app. split; [by destruct (negb _); cbn; rewrite app_nil_r|].
    eexists. split; [done|]. destruct (negb _); repeat constructor.
  - unfold complete_frame. destruct (sc_actor s), (sc_in_flight s !! n); try done. sproj. split; [done|]. rewrite omap_app. cbn.
    split; [by rewrite app_nil_r|]. eexists. split; [done|]. repeat constructor.
  - unfold actor_step. destruct (sc_actor s); try done; [by destruct (release_call _ _)|]. sproj. split; [done|].
    rewrite omap_app, omap_not_Started, app_nil_r by done. split; [done|]. eexists. split; [done|]. by destruct (head _); repeat constructor.
Qed.
Lemma actor_inv c v : live_inv v → actor_choice c = true → live_inv (set_sched (sched_step (lv_sched v) c) v).
Proof.
  intros [] Hc. destruct (actor_leaves_reader (lv_sched v) c Hc) as (Hr & Ha & evs & Ht & He).
  constructor; cbn [set_sched lv_sched lv_result lv_routed]; rewrite ?Hr, ?Ha, ?Ht; try done; [by apply sched_step_inv|].
  intros Hn. apply Forall_app. auto.
Qed.

(** A route that was answered. *)
Lemma route_answered_id v : Forall (λ e, refusal e = false) (sc_trace (lv_sched v)) → route_answered v = v.
Proof.
  intros Hf. unfold route_answered. destruct (sc_router (lv_sched v)); try done. destruct (last (sc_trace (lv_sched v))) as [e|] eqn:Hl; [|done].
  apply last_Some in Hl as [l Hl]. rewrite Hl, Forall_app, Forall_singleton in Hf. destruct Hf as [_ He]. by destruct e as [| [] | | |].
Qed.
Lemma route_answered_refused v l e : sc_router (lv_sched v) = RouterIdle → sc_trace (lv_sched v) = l ++ [e] → refusal e = true →
  route_answered v = end_live (Err Supervisor.DownFrameSchedulerSaturated) v.
Proof. intros Hr Ht He. unfold route_answered. rewrite Hr, Ht, last_snoc. by destruct e as [| [] | | |]. Qed.

(** The reader goes on, without or with a refusal. *)
Lemma reader_goes_inv r b evs v : accepted (lv_sched v) `prefix_of` inputs v →
  Forall (λ e, refusal e = false) (sc_trace (lv_sched v)) → sched_inv (set_router r b evs (lv_sched v)) → on_route r = true → Forall (λ e, refusal e = false) evs →
  omap (λ e, match e with Accepted x => Some x | _ => None end) evs = [] →
  (∀ t, routing r = Some t → inputs v = accepted (lv_sched v) ++ t) →
  live_inv (route_answered (set_sched (set_router r b evs (lv_sched v)) v)).
Proof.
  intros Hp Hf Hs Hr He Ha Ht. assert (accepted (set_router r b evs (lv_sched v)) = accepted (lv_sched v)) as Hacc.
  { unfold accepted. sproj. by rewrite omap_app, Ha, app_nil_r. }
  assert (Forall (λ e, refusal e = false) (sc_trace (lv_sched v) ++ evs)) as Hall by (apply Forall_app; auto).
  rewrite route_answered_id by done. constructor; cbn [set_sched lv_sched lv_result lv_routed]; rewrite ?Hacc; done.
Qed.
Lemma reader_refused_inv b e v : accepted (lv_sched v) `prefix_of` inputs v → sched_inv (set_router RouterIdle b [e] (lv_sched v)) → refusal e = true →
  live_inv (route_answered (set_sched (set_router RouterIdle b [e] (lv_sched v)) v)).
Proof.
  intros Hp Hs He. erewrite route_answered_refused by done. apply end_live_inv; [done|]. cbn [set_sched lv_sched lv_routed].
  unfold accepted. sproj. rewrite omap_app. destruct e as [| | | |]; try done. cbn. by rewrite app_nil_r.
Qed.

Lemma reader_step_inv v : live_inv v → lv_result v = None → live_inv (route_answered (set_sched (route_step (lv_sched v)) v)).
Proof.
  intros H Hn. pose proof (route_step_inv _ (li_sched _ H)) as Hs. pose proof (li_route _ H Hn) as Hr. pose proof (li_inputs _ H Hn) as Hi.
  destruct (sc_router (lv_sched v)) as [|f|x|x|c| | |] eqn:Er; try done.
  - unfold route_step in *. rewrite Er in *. cbn [lv_sched] in *. replace (set_sched (lv_sched v) v) with v by (by destruct v).
    rewrite route_answered_id; [done|by apply (li_refusals _ H)].
  - unfold route_step in *. rewrite Er in *. replace (set_sched (lv_sched v) v) with v by (by destruct v).
    rewrite route_answered_id; [done|by apply (li_refusals _ H)].
  - unfold route_step in *. rewrite Er in *. destruct (reserve_call _ _); apply reader_goes_inv; try done; by apply H.
  - rewrite (try_send_accepts _ x) in * by (done || apply H).
    assert (accepted (push_channel x (lv_sched v)) = accepted (lv_sched v) ++ [x]) as Ha by (unfold accepted; sproj; by rewrite omap_app).
    assert (Forall (λ e, refusal e = false) (sc_trace (lv_sched v) ++ [Accepted x])) as Hall
      by (apply Forall_app; split; [by apply (li_refusals _ H)|by repeat constructor]).
    rewrite route_answered_id by done. constructor; cbn [set_sched lv_sched lv_result lv_routed]; try done.
    + rewrite Ha, <- (Hi [x]) by done. done.
    + intros _ t [= <-]. rewrite Ha, app_nil_r. by apply Hi.
  - unfold route_step in *. rewrite Er in *. apply reader_refused_inv; [apply H|done..].
Qed.

Lemma inline_inv r v : live_inv v → lv_result v = None → live_inv (route_answered (set_sched (sched_step (lv_sched v) (InlineDone r)) v)).
Proof.
  intros H Hn. pose proof (sched_step_inv _ (InlineDone r) (li_sched _ H)) as Hs. pose proof (li_inputs _ H Hn) as Hi. cbn [sched_step] in *.
  destruct (sc_router (lv_sched v)) as [|f| | | | | |] eqn:Er;
    try (replace (set_sched (lv_sched v) v) with v by (by destruct v); rewrite route_answered_id; [done|by apply (li_refusals _ H)]).
  apply reader_goes_inv; try done; [by apply H..|destruct r; by repeat constructor|by destruct r].
Qed.

(** A frame with the expected number: the reader starts to route it. *)
Lemma down_routes_inv frame v : live_inv v → lv_result v = None → sc_router (lv_sched v) = RouterIdle →
  let v' := mk_Live (lv_sched v) (lv_expected v) (lv_negotiated v) (lv_established v) (lv_projected v) (lv_routed v ++ [frame]) (lv_result v) in
  live_inv (route_answered (set_sched (route frame (lv_sched v)) v')).
Proof.
  intros H Hn Hr v'. pose proof (route_inv frame _ (li_sched _ H)) as Hs. pose proof (li_inputs _ H Hn [] ltac:(by rewrite Hr)) as Hi.
  rewrite app_nil_r in Hi. pose proof (li_refusals _ H Hn) as Hf.
  assert (inputs v' = accepted (lv_sched v) ++ option_list (as_scheduled frame)) as Hv'.
  { rewrite <- Hi. unfold inputs, v'. cbn [lv_routed]. rewrite omap_app. done. }
  assert (accepted (lv_sched v') `prefix_of` inputs v') as Hpre by (rewrite Hv'; by eexists).
  unfold route in *. rewrite Hr in *. unfold as_scheduled in Hv'.
  destruct (bidi_input_call_id frame) as [c|]; cbn in Hv'; [destruct (try_acquire (sc_budget (lv_sched v))) as [b|]|].
  - apply (reader_goes_inv _ _ _ v'); try done. by intros t [= <-].
  - by apply (reader_refused_inv _ _ v').
  - apply (reader_goes_inv _ _ _ v'); try done; [by repeat constructor|]. by intros t [= <-].
Qed.

Lemma down_frame_inv frame v : live_inv v → lv_result v = None → sc_router (lv_sched v) = RouterIdle → live_inv (down_frame frame v).
Proof.
  intros H Hn Hr. unfold down_frame. destruct (negb _); [by apply end_live_inv; apply H|].
  set (v1 := mk_Live (lv_sched v) _ _ _ _ _ _). set (v2 := apply_session_contract frame v1).
  assert (lv_sched v2 = lv_sched v ∧ lv_routed v2 = lv_routed v ∧ lv_result v2 = lv_result v) as (Es & Er & En)
    by (unfold v2, apply_session_contract; by destruct (session_established frame)).
  assert (live_inv v2) as H2 by (destruct H; constructor; unfold inputs in *; rewrite ?Es, ?Er, ?En; done).
  apply (down_routes_inv frame v2); [done|by rewrite En|by rewrite Es].
Qed.

Lemma reader_choice_inv v c : live_inv v → live_inv (reader_step v c).
Proof.
  intros H. unfold reader_step. destruct (lv_result v) eqn:Hn; [done|].
  destruct c; try done; destruct (sc_router (lv_sched v)) eqn:Hr; try done; try (apply end_live_inv; by apply H);
    [by apply down_frame_inv|by apply (reader_step_inv v)..|by apply (inline_inv r v)].
Qed.
Lemma live_step_inv v c : live_inv v → live_inv (live_step v c).
Proof. intros H. destruct c; cbn [live_step]; (by apply reader_choice_inv) || by apply actor_inv. Qed.
Lemma live_run_inv l : live_inv (run_live_session l).
Proof.
  unfold run_live_session. assert (live_inv start_live) as H by (constructor; try done; [apply spawn_inv|by intros _ t [= <-]]).
  revert H. generalize start_live. induction l as [|c l IH]; intros v H; [done|]. by apply IH, live_step_inv.
Qed.

(** Numbers of the frames that were taken. *)
Definition numbered (v : LiveSession) : Prop :=
  lv_expected v = Z.min (Z.of_nat (length (lv_routed v))) (2 ^ 64 - 1) ∧
  ∀ i frame, lv_routed v !! i = Some frame → down_sequence frame = Z.min (Z.of_nat i) (2 ^ 64 - 1).

Lemma numbered_frame v v' : lv_expected v' = lv_expected v → lv_routed v' = lv_routed v → numbered v → numbered v'.
Proof. unfold numbered. by intros -> ->. Qed.
Lemma route_answered_frame v : lv_expected (route_answered v) = lv_expected v ∧ lv_routed (route_answered v) = lv_routed v.
Proof. unfold route_answered. destruct (sc_router _); try done. destruct (last _) as [[| [] | | |]|]; done. Qed.

Lemma live_step_numbered v c : numbered v → numbered (live_step v c).
Proof.
  intros [He Hs]. destruct c; cbn [live_step]; try done; unfold reader_step; (destruct (lv_result v) eqn:Hn; [done|]); destruct (sc_router (lv_sched v)); try done;
    try (eapply numbered_frame; [apply route_answered_frame..|done]).
  unfold down_frame. destruct (Z.eqb_spec (down_sequence frame) (lv_expected v)) as [Heq|]; [|done]. cbn [negb].
  unfold numbered. rewrite (proj1 (route_answered_frame _)), (proj2 (route_answered_frame _)). cbn [lv_expected lv_routed].
  set (v2 := apply_session_contract _ _).
  assert (lv_expected v2 = next_sequence (lv_expected v) ∧ lv_routed v2 = lv_routed v) as [-> ->]
    by (unfold v2, apply_session_contract; by destruct (session_established frame)).
  split; [unfold next_sequence; rewrite length_app; cbn; lia|]. intros i f Hf. apply lookup_app_Some in Hf as [Hf|[Hi Hf]]; [by apply Hs|].
  apply list_lookup_singleton_Some in Hf as [Hz <-]. rewrite Heq, He. f_equal. lia.
Qed.
Lemma live_run_numbered l : numbered (run_live_session l).
Proof.
  unfold run_live_session. assert (numbered start_live) as H by (split; [done|]; by intros i f Hf).
  revert H. generalize start_live. induction l as [|c l IH]; intros v H; [done|]. by apply IH, live_step_numbered.
Qed.

(** C2 (refinement): a live session hands the hub's inputs to their calls, in the
    order of the hub's numbers.  In every state of the loop and the scheduler beside
    it, the frames that were taken are numbered from zero without a gap; the inputs
    accepted are the first of those taken; and while the session lives and no route
    is under way, the inputs of each call that were taken are those handled, at most
    one being handled, those that wait and those in the channel, in this order: a
    session that drops an input has ended. *)
Theorem inputs_reach_their_calls (l : list LiveChoice) :
  let v := run_live_session l in
  let s := lv_sched v in
  (∀ i frame, lv_routed v !! i = Some frame → down_sequence frame = Z.min (Z.of_nat i) (2 ^ 64 - 1)) ∧
  accepted s `prefix_of` inputs v ∧
  (lv_result v = None → sc_router s = RouterIdle → ∀ c,
     of_call c (inputs v) = of_call c (finished s) ++ of_call c (sc_in_flight s) ++ pend c s ++ of_call c (sc_channel s)).
Proof.
  intros v s. pose proof (live_run_inv l) as H. fold v in H. split_and!; [apply live_run_numbered|apply H|].
  intros Hn Hr c. rewrite (li_inputs _ H Hn []) by (fold s; by rewrite Hr). rewrite app_nil_r. apply (inv_order _ (li_sched _ H)).
Qed.
End live.
