(* ===== verification/Cancellation.v ===== *)
(** * Cancellation of invocations (src/src/daemon/invocation/dispatch/cancellation.rs)

    The index of running and finished invocations behind [invocation.cancel]: it is
    bounded, forgets finished invocations only, and passes a cancellation on to the
    invocation that was registered under the hash, on behalf of its caller or of its
    authority. *)

From Stdlib Require Import String Ascii.
From S2P Require Import Prelude RustStd Text World Programs Retry.

Open Scope Z_scope.

(** Envelopes and handles of the protocol: the bytes an envelope is signed over, its
    caller and its callee; the id of a handle's invocation. *)
Class Lifecycles := {
  DescriptorBoundEnvelope : Type;
  descriptor_bound_canonical_bytes : DescriptorBoundEnvelope → string;
  envelope_caller_ura : DescriptorBoundEnvelope → string;
  envelope_callee_ura : DescriptorBoundEnvelope → string;
  InvocationHandle : Type;
  invocation_id : InvocationHandle → string;
}.

Definition DEFAULT_CANCEL_REASON : string := "user_request".
Definition MAX_CANCEL_REASON_BYTES : nat := 1024.
Definition LIFECYCLE_HASH_BYTES : nat := 32.
Definition MAX_TRACKED_INVOCATIONS : nat := 4096.

Inductive InvocationCancellationError :=
| InvalidLifecycleHash
| CancelReasonTooLong
| DuplicateActive (key : string)
| CapacityExhausted
| TargetNotFound (key : string)
| TargetInvocationMismatch
| OwnershipDenied
| AuthorityMismatch
| CancelAxon (e : error).

(** ** Commands *)

Record InvocationCancelCommand := mk_CancelCommand {
  cc_target_lifecycle_hash : string;
  cc_target_invocation_id : option string;
  cc_reason : string;
}.
Record InvocationCancelResult := mk_CancelResult {
  cr_target_lifecycle_hash : string;
  cr_target_invocation_id : string;
  cr_accepted : bool;
  cr_already_terminal : bool;
}.

(** [hex::decode]: the number of bytes, if the text is hexadecimal. *)
Definition is_hex_digit (a : ascii) : bool :=
  let z := byte_val a in ((48 <=? z) && (z <=? 57)) || ((97 <=? z) && (z <=? 102)) || ((65 <=? z) && (z <=? 70)).
Fixpoint hex_decoded_len (s : string) : option nat :=
  match s with
  | EmptyString => Some O
  | String a (String b s) => if is_hex_digit a && is_hex_digit b then S <$> hex_decoded_len s else None
  | String _ EmptyString => None
  end.

Definition normalize_lifecycle_hash (value : string) : result InvocationCancellationError string :=
  let value := lowercase (trim value) in
  n ← ok_or (hex_decoded_len value) InvalidLifecycleHash;
  _ ← ensure (n =? LIFECYCLE_HASH_BYTES)%nat InvalidLifecycleHash;
  Ok value.
Definition normalize_reason (value : string) : result InvocationCancellationError string :=
  let value := trim value in
  _ ← ensure (String.length value <=? MAX_CANCEL_REASON_BYTES)%nat CancelReasonTooLong;
  Ok (if bool_decide (value = "") then DEFAULT_CANCEL_REASON else value).
Definition new_command (target_lifecycle_hash : string) (target_invocation_id : option string) (reason : string)
    : result InvocationCancellationError InvocationCancelCommand :=
  hash ← normalize_lifecycle_hash target_lifecycle_hash;
  let id := value ← target_invocation_id; let value := trim value in if bool_decide (value = "") then None else Some value in
  reason ← normalize_reason reason;
  Ok (mk_CancelCommand hash id reason).

(** ** The registry *)

Record LifecycleAuthority := mk_Authority { la_caller_ura : string; la_authority_ura : string }.

Section registry.
Context {SH : Sha256} {LF : Lifecycles}.

Inductive RegistryEntry :=
| Active (authority : LifecycleAuthority) (handle : InvocationHandle)
| Terminal (authority : LifecycleAuthority) (handle : InvocationHandle).
Definition entry_authority (e : RegistryEntry) : LifecycleAuthority := match e with Active a _ | Terminal a _ => a end.
Definition entry_handle (e : RegistryEntry) : InvocationHandle := match e with Active _ h | Terminal _ h => h end.
Definition is_terminal (e : RegistryEntry) : bool := match e with Terminal _ _ => true | Active _ _ => false end.

Record RegistryState := mk_Registry { rs_entries : gmap string RegistryEntry; rs_terminal_order : list string }.
Definition default_registry : RegistryState := mk_Registry ∅ [].

Definition retain_terminal_key (key : string) (s : RegistryState) : RegistryState :=
  if bool_decide (key ∈ rs_terminal_order s) then s else mk_Registry (rs_entries s) (rs_terminal_order s ++ [key]).

(** The loop takes a key off the order in every round. *)
Fixpoint reserve_loop (order : list string) (entries : gmap string RegistryEntry) : RegistryState * bool :=
  if (MAX_TRACKED_INVOCATIONS <=? size entries)%nat then
    match order with
    | [] => (mk_Registry entries [], false)
    | expired :: order =>
        reserve_loop order (match entries !! expired with Some (Terminal _ _) => delete expired entries | _ => entries end)
    end
  else (mk_Registry entries order, true).
Definition reserve_entry_slot (s : RegistryState) : RegistryState * bool := reserve_loop (rs_terminal_order s) (rs_entries s).

Definition invocation_lifecycle_hash (envelope : DescriptorBoundEnvelope) : string :=
  Retry.hex_encode (sha256 (descriptor_bound_canonical_bytes envelope)).

Definition register (envelope : DescriptorBoundEnvelope) (handle : InvocationHandle) (s : RegistryState)
    : RegistryState * result InvocationCancellationError string :=
  let key := invocation_lifecycle_hash envelope in
  let authority := mk_Authority (envelope_caller_ura envelope) (envelope_callee_ura envelope) in
  match rs_entries s !! key with
  | Some _ => (s, Err (DuplicateActive key))
  | None =>
      match reserve_entry_slot s with
      | (s, false) => (s, Err CapacityExhausted)
      | (s, true) => (mk_Registry (<[key := Active authority handle]> (rs_entries s)) (rs_terminal_order s), Ok key)
      end
  end.

Definition mark_terminal (key : string) (handle : InvocationHandle) (s : RegistryState) : RegistryState :=
  match rs_entries s !! key with
  | None => s
  | Some entry =>
      if negb (bool_decide (invocation_id (entry_handle entry) = invocation_id handle)) then s
      else retain_terminal_key key (mk_Registry (<[key := Terminal (entry_authority entry) handle]> (rs_entries s)) (rs_terminal_order s))
  end.

(** [RegisteredInvocationLifecycle::finalized]: only an invocation that was finalized
    is marked. *)
Definition finalized (key : string) (handle : InvocationHandle) (outcome : result error unit) (s : RegistryState) : RegistryState :=
  match outcome with Ok _ => mark_terminal key handle s | Err _ => s end.

(** What [request_cancel] reads under the lock. *)
Definition cancel_target (command : InvocationCancelCommand) (caller authority : string) (s : RegistryState)
    : result InvocationCancellationError (InvocationHandle * bool) :=
  entry ← ok_or (rs_entries s !! cc_target_lifecycle_hash command) (TargetNotFound (cc_target_lifecycle_hash command));
  let a := entry_authority entry in
  _ ← ensure (bool_decide (authority = la_authority_ura a)) AuthorityMismatch;
  _ ← ensure (bool_decide (caller = la_caller_ura a) || bool_decide (caller = la_authority_ura a)) OwnershipDenied;
  _ ← ensure (match cc_target_invocation_id command with
              | Some expected => bool_decide (expected = invocation_id (entry_handle entry))
              | None => true
              end) TargetInvocationMismatch;
  Ok (entry_handle entry, is_terminal entry).

(** The signal to the handle, if there is one, and the answer, given what the handle
    answers. *)
Definition request_cancel (command : InvocationCancelCommand) (caller authority : string) (axon : result error unit) (s : RegistryState)
    : option (InvocationHandle * string) * result InvocationCancellationError InvocationCancelResult :=
  match cancel_target command caller authority s with
  | Err e => (None, Err e)
  | Ok (handle, already_terminal) =>
      let answer := mk_CancelResult (cc_target_lifecycle_hash command) (invocation_id handle) true already_terminal in
      if already_terminal then (None, Ok answer)
      else (Some (handle, cc_reason command), match axon with Ok _ => Ok answer | Err e => Err (CancelAxon e) end)
  end.

(** ** The registry is bounded and forgets finished invocations only *)

Inductive RegistryOp :=
| OpRegister (envelope : DescriptorBoundEnvelope) (handle : InvocationHandle)
| OpFinalized (key : string) (handle : InvocationHandle) (outcome : result error unit).
Definition registry_step (s : RegistryState) (op : RegistryOp) : RegistryState :=
  match op with
  | OpRegister envelope handle => (register envelope handle s).1
  | OpFinalized key handle outcome => finalized key handle outcome s
  end.
Definition registry_run (l : list RegistryOp) : RegistryState := foldl registry_step default_registry l.

Record registry_inv (s : RegistryState) : Prop := {
  ri_size : (size (rs_entries s) ≤ MAX_TRACKED_INVOCATIONS)%nat;
  ri_nodup : NoDup (rs_terminal_order s);
  ri_order k : k ∈ rs_terminal_order s ↔ ∃ e, rs_entries s !! k = Some e ∧ is_terminal e = true;
}.

Lemma delete_smaller (m : gmap string RegistryEntry) k e n : m !! k = Some e → (size m ≤ n → size (delete k m) < n)%nat.
Proof.
  intros Hk Hn. rewrite map_size_delete_Some by (by eexists). assert (size m ≠ O) by (apply (map_size_ne_0_lookup_2 m k); by eexists). lia.
Qed.

(** A full registry gives up its oldest finished invocation, if there is one. *)
Lemma reserve_spec s : registry_inv s → reserve_entry_slot s =
  if (size (rs_entries s) <? MAX_TRACKED_INVOCATIONS)%nat then (s, true)
  else match rs_terminal_order s with
       | [] => (s, false)
       | k :: rest => (mk_Registry (delete k (rs_entries s)) rest, true)
       end.
Proof.
  intros H. unfold reserve_entry_slot. destruct s as [m o]. pose proof (ri_size _ H) as Hs. cbn [rs_entries rs_terminal_order] in *.
  destruct (Nat.ltb_spec (size m) MAX_TRACKED_INVOCATIONS) as [Hlt|Hge].
  - assert ((MAX_TRACKED_INVOCATIONS <=? size m)%nat = false) as E by (apply Nat.leb_gt; lia). destruct o; cbn [reserve_loop]; by rewrite E.
  - assert ((MAX_TRACKED_INVOCATIONS <=? size m)%nat = true) as E by (apply Nat.leb_le; lia). destruct o as [|k o]; cbn [reserve_loop]; rewrite E; [done|].
    destruct (proj1 (ri_order _ H k)) as (e & Hk & Ht); [cbn; set_solver|]. cbn in Hk. rewrite Hk. destruct e as [|a h]; [done|].
    assert (size (delete k m) < MAX_TRACKED_INVOCATIONS)%nat as Hlt.
    { by apply (delete_smaller m k (Terminal a h)). }
    assert ((MAX_TRACKED_INVOCATIONS <=? size (delete k m))%nat = false) as E' by (apply Nat.leb_gt; lia). destruct o; cbn [reserve_loop]; by rewrite E'.
Qed.

Lemma insert_active_inv s k a h : registry_inv s → rs_entries s !! k = None → (size (rs_entries s) < MAX_TRACKED_INVOCATIONS)%nat →
  registry_inv (mk_Registry (<[k := Active a h]> (rs_entries s)) (rs_terminal_order s)).
Proof.
  intros [Hs Hn Ho] Hk Hlt. constructor; cbn [rs_entries rs_terminal_order]; [rewrite map_size_insert_None by done; lia|done|].
  intros k'. rewrite Ho. destruct (decide (k = k')) as [<- | Hne]; [rewrite lookup_insert_eq, Hk; naive_solver|by rewrite lookup_insert_ne].
Qed.
Lemma evict_inv m k o : registry_inv (mk_Registry m (k :: o)) → registry_inv (mk_Registry (delete k m) o).
Proof.
  intros [Hs Hn Ho]. cbn [rs_entries rs_terminal_order] in *. apply NoDup_cons in Hn as [Hk Hn].
  constructor; cbn [rs_entries rs_terminal_order]; [|done|].
  - etrans; [|exact Hs]. rewrite map_size_delete. destruct (m !! k); cbn; lia.
  - intros k'. destruct (decide (k = k')) as [<- | Hne]; [rewrite lookup_delete_eq; naive_solver|].
    rewrite lookup_delete_ne by done. rewrite <- Ho. set_solver.
Qed.

Lemma register_registry_inv envelope h s : registry_inv s → registry_inv (register envelope h s).1.
Proof.
  intros H. unfold register. destruct (rs_entries s !! _) eqn:Hk; [done|]. rewrite (reserve_spec _ H).
  destruct (Nat.ltb_spec (size (rs_entries s)) MAX_TRACKED_INVOCATIONS); [by apply insert_active_inv|].
  destruct s as [m o]. cbn [rs_entries rs_terminal_order] in *. destruct o as [|k o]; [done|].
  pose proof (evict_inv _ _ _ H) as He. destruct (proj1 (ri_order _ H k)) as (e & Hke & _); [cbn; set_solver|]. cbn in Hke.
  apply (insert_active_inv (mk_Registry (delete k m) o)); [done|..]; cbn [rs_entries].
  - rewrite lookup_delete. by case_decide.
  - pose proof (ri_size _ H) as Hs. cbn in Hs. by apply (delete_smaller m k e).
Qed.

Lemma mark_terminal_inv key h s : registry_inv s → registry_inv (mark_terminal key h s).
Proof.
  intros H. unfold mark_terminal. destruct (rs_entries s !! key) as [entry|] eqn:Hk; [|done]. destruct (negb _); [done|].
  destruct H as [Hs Hn Ho]. unfold retain_terminal_key. cbn [rs_entries rs_terminal_order].
  assert (∀ o, NoDup o → (∀ k, k ∈ o ↔ k = key ∨ k ∈ rs_terminal_order s) →
    registry_inv (mk_Registry (<[key := Terminal (entry_authority entry) h]> (rs_entries s)) o)) as Hgo.
  { intros o Hno Hin. constructor; cbn [rs_entries rs_terminal_order]; [by rewrite map_size_insert_Some by (by eexists)|done|].
    intros k. rewrite Hin. destruct (decide (key = k)) as [<- | Hne]; [rewrite lookup_insert_eq; naive_solver|].
    rewrite lookup_insert_ne, <- Ho by done. naive_solver. }
  case_bool_decide; apply Hgo; [done|set_solver| |set_solver]. apply NoDup_app. split_and!; [done|set_solver|apply NoDup_singleton].
Qed.
Lemma registry_step_inv s op : registry_inv s → registry_inv (registry_step s op).
Proof. intros H. destruct op as [e h|k h []]; cbn; [by apply register_registry_inv|by apply mark_terminal_inv|done]. Qed.
Lemma registry_run_inv l : registry_inv (registry_run l).
Proof.
  unfold registry_run. assert (registry_inv default_registry) as H.
  { constructor; cbn; [rewrite map_size_empty; lia|constructor|]. intros k. rewrite lookup_empty. set_solver. }
  revert H. generalize default_registry. induction l as [|op l IH]; intros s H; [done|]. by apply IH, registry_step_inv.
Qed.

(** What a step does to a running invocation. *)
Lemma active_stays s op k a h : registry_inv s → rs_entries s !! k = Some (Active a h) →
  rs_entries (registry_step s op) !! k = Some (Active a h) ∨
  ∃ h', op = OpFinalized k h' (Ok tt) ∧ invocation_id h' = invocation_id h ∧ rs_entries (registry_step s op) !! k = Some (Terminal a h').
Proof.
  intros H Hk. destruct op as [env h'|k' h' [[]|]]; cbn; [left|..|by left].
  - unfold register. destruct (rs_entries s !! invocation_lifecycle_hash env) eqn:Hn; [done|]. assert (invocation_lifecycle_hash env ≠ k) as Hne by congruence.
    rewrite (reserve_spec _ H). destruct (Nat.ltb _ _); [cbn; by rewrite lookup_insert_ne|]. destruct (rs_terminal_order s) as [|k' o] eqn:Ho; [done|].
    cbn. rewrite lookup_insert_ne by done. rewrite lookup_delete_ne; [done|]. intros ->.
    destruct (proj1 (ri_order _ H k)) as (e & He & Ht); [rewrite Ho; set_solver|]. rewrite Hk in He. by simplify_eq.
  - unfold mark_terminal. destruct (rs_entries s !! k') as [entry|] eqn:Hk'; [|by left]. case_bool_decide as Hid; cbn [negb]; [|by left].
    assert (∀ s, rs_entries (retain_terminal_key k' s) = rs_entries s) as -> by (intros ?; unfold retain_terminal_key; by case_bool_decide).
    cbn [rs_entries]. destruct (decide (k' = k)) as [-> | Hne]; [|left; by rewrite lookup_insert_ne]. right. rewrite lookup_insert_eq. simplify_eq. naive_solver.
Qed.

(** A register is refused for want of room exactly when every place is taken by a
    running invocation. *)
Lemma exhausted_iff s env h : registry_inv s →
  (register env h s).2 = Err CapacityExhausted ↔
  rs_entries s !! invocation_lifecycle_hash env = None ∧ size (rs_entries s) = MAX_TRACKED_INVOCATIONS ∧
  map_Forall (λ _ e, is_terminal e = false) (rs_entries s).
Proof.
  intros H. pose proof (ri_size _ H) as Hs. unfold register. destruct (rs_entries s !! _) eqn:Hn; [split; [done|by intros [? _]]|].
  rewrite (reserve_spec _ H). destruct (Nat.ltb_spec (size (rs_entries s)) MAX_TRACKED_INVOCATIONS) as [Hlt|Hge].
  - split; [done|]. intros (_ & He & _). lia.
  - destruct (rs_terminal_order s) as [|k o] eqn:Ho.
    + split; [|done]. intros _. split_and!; [done|lia|]. intros k e He. destruct (is_terminal e) eqn:Ht; [|done].
      assert (k ∈ rs_terminal_order s) as Hin by (apply (ri_order _ H); eauto). rewrite Ho in Hin. set_solver.
    + split; [done|]. intros (_ & _ & Hall). destruct (proj1 (ri_order _ H k)) as (e & He & Ht); [rewrite Ho; set_solver|].
      apply Hall in He. congruence.
Qed.

(** The registry of cancellations holds at most 4096 invocations; its
    queue of finished ones lists each of them once; an invocation that was not
    finalized is never dropped, and a new one is refused for want of room exactly
    when 4096 invocations run. *)
Theorem registry_bounded (l : list RegistryOp) :
  let s := registry_run l in
  (size (rs_entries s) ≤ MAX_TRACKED_INVOCATIONS)%nat ∧
  NoDup (rs_terminal_order s) ∧
  (∀ k, k ∈ rs_terminal_order s ↔ ∃ e, rs_entries s !! k = Some e ∧ is_terminal e = true) ∧
  (∀ op k a h, rs_entries s !! k = Some (Active a h) →
     rs_entries (registry_step s op) !! k = Some (Active a h) ∨
     ∃ h', op = OpFinalized k h' (Ok tt) ∧ invocation_id h' = invocation_id h ∧ rs_entries (registry_step s op) !! k = Some (Terminal a h')) ∧
  (∀ env h, (register env h s).2 = Err CapacityExhausted ↔
     rs_entries s !! invocation_lifecycle_hash env = None ∧ size (rs_entries s) = MAX_TRACKED_INVOCATIONS ∧
     map_Forall (λ _ e, is_terminal e = false) (rs_entries s)).
Proof.
  intros s. pose proof (registry_run_inv l) as H. fold s in H.
  split_and!; [apply H|apply H|apply H|intros; by apply active_stays|intros; by apply exhausted_iff].
Qed.

(** ** Who may cancel *)

Lemma mark_terminal_lookup key h s k e : rs_entries (mark_terminal key h s) !! k = Some e → is_terminal e = false → rs_entries s !! k = Some e.
Proof.
  unfold mark_terminal. destruct (rs_entries s !! key) as [entry|]; [|done]. destruct (negb _); [done|].
  assert (∀ s, rs_entries (retain_terminal_key key s) = rs_entries s) as -> by (intros ?; unfold retain_terminal_key; by case_bool_decide).
  cbn [rs_entries]. destruct (decide (key = k)) as [<- | Hne]; [rewrite lookup_insert_eq; by intros [= <-]|by rewrite lookup_insert_ne].
Qed.

(** A running invocation was registered, under its hash and with its parties. *)
Lemma active_origin l k a h : rs_entries (registry_run l) !! k = Some (Active a h) →
  ∃ env, OpRegister env h ∈ l ∧ invocation_lifecycle_hash env = k ∧ a = mk_Authority (envelope_caller_ura env) (envelope_callee_ura env).
Proof.
  induction l as [|op l IH] using rev_ind; [intros Hk; cbn in Hk; by rewrite lookup_empty in Hk|].
  unfold registry_run. rewrite foldl_app. cbn [foldl]. fold (registry_run l). pose proof (registry_run_inv l) as H. set (s := registry_run l) in *.
  assert (rs_entries s !! k = Some (Active a h) → ∃ env, OpRegister env h ∈ l ++ [op] ∧ invocation_lifecycle_hash env = k ∧
    a = mk_Authority (envelope_caller_ura env) (envelope_callee_ura env)) as Hold.
  { intros (env & Hin & Hh)%IH. exists env. split; [set_solver|done]. }
  destruct op as [env h'|k' h' [[]|]]; cbn [registry_step finalized]; [|intros Hk; by apply mark_terminal_lookup in Hk; auto|done].
  unfold register. destruct (rs_entries s !! invocation_lifecycle_hash env) eqn:Hn; [done|]. rewrite (reserve_spec _ H).
  assert (∀ m : gmap string RegistryEntry, (∀ e, m !! k = Some e → rs_entries s !! k = Some e) →
    <[invocation_lifecycle_hash env := Active (mk_Authority (envelope_caller_ura env) (envelope_callee_ura env)) h']> m !! k = Some (Active a h) →
    ∃ env0, OpRegister env0 h ∈ l ++ [OpRegister env h'] ∧ invocation_lifecycle_hash env0 = k ∧
      a = mk_Authority (envelope_caller_ura env0) (envelope_callee_ura env0)) as Hnew.
  { intros m Hm. destruct (decide (invocation_lifecycle_hash env = k)) as [<- | Hne].
    - rewrite lookup_insert_eq. intros [= <- <-]. exists env. split; [set_solver|done].
    - rewrite lookup_insert_ne by done. intros Hk. apply Hold, Hm, Hk. }
  destruct (Nat.ltb _ _); [by apply Hnew|]. destruct (rs_terminal_order s); [done|]. apply Hnew. cbn [rs_entries].
  intros e. rewrite lookup_delete_Some. by intros [_ ?].
Qed.

Lemma cancel_target_active s command caller authority h :
  cancel_target command caller authority s = Ok (h, false) ↔
  ∃ c, rs_entries s !! cc_target_lifecycle_hash command = Some (Active (mk_Authority c authority) h) ∧ (caller = c ∨ caller = authority) ∧
    match cc_target_invocation_id command with Some id => id = invocation_id h | None => True end.
Proof.
  unfold cancel_target. destruct (rs_entries s !! _) as [entry|]; cbn [ok_or mbind result_bind]; [|naive_solver].
  destruct entry as [[c au] h'|[c au] h']; cbn [entry_authority entry_handle is_terminal la_authority_ura la_caller_ura];
    [|split; [intros Hx; by repeat (apply bind_Ok in Hx as (? & _ & Hx))|naive_solver]].
  destruct (decide (authority = au)) as [<- | Hne]; [rewrite (bool_decide_true (authority = authority)) by done|rewrite (bool_decide_false (authority = au)) by done];
    cbn [ensure mbind result_bind]; [|naive_solver].
  destruct (bool_decide (caller = c) || bool_decide (caller = authority)) eqn:Hc; cbn [ensure mbind result_bind].
  - rewrite orb_true_iff, !bool_decide_eq_true in Hc. destruct (cc_target_invocation_id command) as [id|]; [|naive_solver].
    case_bool_decide; cbn; naive_solver.
  - rewrite orb_false_iff, !bool_decide_eq_false in Hc. naive_solver.
Qed.

(** C36 (safety): a cancellation reaches an invocation exactly when the invocation
    runs, was registered under the hash that the command names, the command was
    routed to the invocation's callee, and comes from its caller or its callee, with
    the invocation's id if it names one. *)
Theorem cancel_by_owner (l : list RegistryOp) (command : InvocationCancelCommand) (caller authority : string) (axon : result error unit)
    (h : InvocationHandle) :
  (request_cancel command caller authority axon (registry_run l)).1 = Some (h, cc_reason command) ↔
  ∃ env, OpRegister env h ∈ l ∧ invocation_lifecycle_hash env = cc_target_lifecycle_hash command ∧
    rs_entries (registry_run l) !! cc_target_lifecycle_hash command =
      Some (Active (mk_Authority (envelope_caller_ura env) (envelope_callee_ura env)) h) ∧
    authority = envelope_callee_ura env ∧ (caller = envelope_caller_ura env ∨ caller = envelope_callee_ura env) ∧
    match cc_target_invocation_id command with Some id => id = invocation_id h | None => True end.
Proof.
  trans (cancel_target command caller authority (registry_run l) = Ok (h, false)).
  - unfold request_cancel. destruct (cancel_target _ _ _ _) as [[h' []]|e]; cbn; split; congruence.
  - rewrite cancel_target_active. split.
    + intros (c & Hk & Hc & Hid). destruct (active_origin _ _ _ _ Hk) as (env & Hin & Hh & [= -> ->]). exists env. naive_solver.
    + intros (env & Hin & Hh & Hk & -> & Hc & Hid). naive_solver.
Qed.
End registry.
