(* ===== verification/PendingDispatch.v ===== *)
(** * Sessions: calls that wait for a device (src/src/daemon/invocation/bidi/state/pending_dispatch.rs)

    The code that is read off the text of a failure and the failure that sessions
    carry (src/src/daemon/execution/mission/failure_codes.rs,
    src/src/daemon/invocation/bidi/state/session_failure.rs).  The tables that match
    results to calls: a one-shot answer per unary call, a bounded channel per
    streamed call; and the watcher of
    src/src/daemon/invocation/dispatch/daemon_invocation_service.rs that fails the
    unary calls of a target that went offline; and the dispatch of a unary call to a
    device (src/src/daemon/invocation/dispatch/unary_dispatcher.rs), over presence, the
    table and the channels of sessions.  Callers, sessions and the watcher are
    tasks: the machines interleave their accesses to the tables; a delivery of a
    streamed call looks the call up and then sends, in two steps. *)

From Stdlib Require Import String Ascii.
From S2P Require Import Prelude RustStd Text Ura Programs Presence.

Open Scope Z_scope.

Definition SPECIFIC_PREFIXES : list string :=
  ["AXON_"; "CALLER_"; "AUTHORITY_"; "NONCE_"; "ENVELOPE_"; "TARGET_"; "AGENT_"; "DEVICE_"; "PRESENCE_"; "RESOLVE_"; "ROUTE_";
   "INVOCATION_"; "POLICY_"; "DENDRITE_"; "BRIDGE_"].
Definition NON_FAILURE_TOKENS : list string := ["INVOCATION_ID"; "REQUEST_ID"; "CALL_ID"].

Inductive RuntimeErrorStage :=
| CallerAuthentication | AuthorityValidation | GlobalAdmission | AbilityResolution | StageTransport | Quota | AbilityPolicy
| RequestValidation | Execution.
Definition stage_axon_number (s : RuntimeErrorStage) : Z :=
  match s with
  | StageTransport => 1 | GlobalAdmission => 2 | CallerAuthentication => 3 | AuthorityValidation => 4 | Quota => 6
  | AbilityResolution => 7 | AbilityPolicy => 8 | RequestValidation => 9 | Execution => 10
  end.
Inductive RuntimeSecurityClass := Unspecified | Authentication | Authority | SecurityTransport | SecurityResource | Authorization | Internal.
Definition security_axon_number (c : RuntimeSecurityClass) : Z :=
  match c with
  | Unspecified => 0 | Authentication => 2 | Authority => 3 | Authorization => 5 | SecurityResource => 6 | SecurityTransport => 7 | Internal => 8
  end.
Record FailureClass := mk_FailureClass { fc_stage : RuntimeErrorStage; fc_security_class : RuntimeSecurityClass }.

(** ** Reading codes *)

Definition uppercase_ascii (a : ascii) : ascii :=
  if is_ascii_lowercase (byte_val a) then ascii_of_N (Z.to_N (byte_val a - 32)) else a.
Fixpoint uppercase (s : string) : string := match s with EmptyString => EmptyString | String a s => String (uppercase_ascii a) (uppercase s) end.
Definition underscore : ascii := ascii_of_N 95.

(** The loop of [normalize_or_default].  A character outside ASCII is an underscore,
    and so is each of its bytes: runs of them collapse. *)
Fixpoint normalize_loop (raw out : string) (prev_underscore : bool) : string :=
  match raw with
  | EmptyString => out
  | String ch raw =>
      if is_ascii_alphanumeric (byte_val ch) then normalize_loop raw (out +:+ String (uppercase_ascii ch) EmptyString) false
      else if negb prev_underscore && negb (is_empty out) then normalize_loop raw (out +:+ String underscore EmptyString) true
      else normalize_loop raw out prev_underscore
  end.
Fixpoint trim_underscores_start (s : string) : string :=
  match s with String a s' => if Ascii.eqb a underscore then trim_underscores_start s' else s | EmptyString => EmptyString end.
Fixpoint trim_underscores_end (s : string) : string :=
  match s with
  | EmptyString => EmptyString
  | String a s => let s := trim_underscores_end s in if is_empty s && Ascii.eqb a underscore then EmptyString else String a s
  end.
Definition normalize_or_default (candidate default_code : string) : string :=
  let raw := if is_empty (trim candidate) then default_code else trim candidate in
  let trimmed := trim_underscores_end (trim_underscores_start (normalize_loop raw EmptyString false)) in
  if is_empty trimmed then default_code else trimmed.

Definition is_specific (token : string) : bool :=
  str_contains 95 token && negb (bool_decide (token ∈ NON_FAILURE_TOKENS))
  && existsb (λ p, bool_decide (is_Some (strip_prefix p token))) SPECIFIC_PREFIXES.

(** The tokens of letters, digits and underscores. *)
Fixpoint tokens (s cur : string) : list string :=
  match s with
  | EmptyString => [cur]
  | String a s =>
      if is_ascii_alphanumeric (byte_val a) || (byte_val a =? 95) then tokens s (cur +:+ String a EmptyString)
      else cur :: tokens s EmptyString
  end.

Definition extract (reason : string) : option string :=
  let lowered := lowercase reason in
  if str_contains_str "not in presenceregistry" lowered then Some "TARGET_NOT_IN_PRESENCE_REGISTRY"
  else if str_contains_str "not advertised on this hub" lowered then Some "AGENT_NOT_ADVERTISED"
  else if str_contains_str "device" lowered && str_contains_str "removed" lowered then Some "DEVICE_REMOVED"
  else if str_contains_str "dendrite bridge library not found" lowered || str_contains_str "bridge library not found" lowered then
    Some "DENDRITE_BRIDGE_LIBRARY_NOT_FOUND"
  else List.find is_specific ((λ token, normalize_or_default token "") <$> tokens reason EmptyString).

Definition classify_or_default (reason default_code : string) : string :=
  default (normalize_or_default default_code default_code) (extract reason).
Definition explicit_or_reason_default (explicit : option string) (reason default_code : string) : string :=
  match (λ code, normalize_or_default code default_code) <$> explicit with
  | Some code => if is_empty code then classify_or_default reason default_code else code
  | None => classify_or_default reason default_code
  end.

Definition starts (p code : string) : bool := bool_decide (is_Some (strip_prefix p code)).
Definition classify_error_class (code : string) : FailureClass :=
  let code := uppercase (trim code) in
  if starts "CALLER_" code then mk_FailureClass CallerAuthentication Authentication
  else if starts "AUTHORITY_" code then mk_FailureClass AuthorityValidation Authority
  else if starts "NONCE_" code || starts "ENVELOPE_" code then mk_FailureClass GlobalAdmission Authentication
  else if starts "ROUTE_" code || starts "RESOLVE_" code then mk_FailureClass AbilityResolution Unspecified
  else if starts "TARGET_" code || starts "PRESENCE_" code || starts "DEVICE_" code then mk_FailureClass StageTransport SecurityTransport
  else if starts "AGENT_" code then mk_FailureClass AbilityResolution SecurityResource
  else if str_contains_str "QUOTA" code then mk_FailureClass Quota Authorization
  else if str_contains_str "POLICY" code || str_contains_str "AUTHORIZATION" code then mk_FailureClass AbilityPolicy Authorization
  else if str_contains_str "VALIDATION" code || str_contains_str "INVALID_ARGUMENT" code then mk_FailureClass RequestValidation Unspecified
  else if starts "DENDRITE_" code || starts "BRIDGE_" code then mk_FailureClass StageTransport Internal
  else mk_FailureClass Execution Unspecified.

(** ** Failures of sessions *)

Record SessionFailure := mk_SessionFailure {
  sf_code : string;
  sf_message : string;
  sf_retryable : bool;
  sf_stage : Z;
  sf_security_class : Z;
}.
Definition from_code_and_message (code message : string) (retryable : bool) : SessionFailure :=
  let c := classify_error_class code in
  mk_SessionFailure code message retryable (stage_axon_number (fc_stage c)) (security_axon_number (fc_security_class c)).
Definition from_reason (reason default_code : string) (retryable : bool) : SessionFailure :=
  from_code_and_message (classify_or_default reason default_code) reason retryable.
Definition from_explicit (code message : string) (retryable : bool) : SessionFailure :=
  from_code_and_message (normalize_or_default code "INVOCATION_FAILED") message retryable.
Definition status_detail (f : SessionFailure) : string :=
  if is_empty (trim (sf_message f)) then sf_code f else sf_code f +:+ ": " +:+ sf_message f.

(** The tests of the source. *)
Example extract_token : extract "CALLER_SIGNATURE_INVALID: rejected session.open" = Some "CALLER_SIGNATURE_INVALID".
Proof. vm_compute. reflexivity. Qed.
Example extract_phrase : extract "target device is not in PresenceRegistry" = Some "TARGET_NOT_IN_PRESENCE_REGISTRY".
Proof. vm_compute. reflexivity. Qed.
Example explicit_wins : explicit_or_reason_default (Some "disk full") "CALLER_SIGNATURE_INVALID" "INVOCATION_FAILED" = "DISK_FULL".
Proof. vm_compute. reflexivity. Qed.
Example no_specific_code : classify_or_default "Axon invocation_id=abc ended without terminal event" "INVOCATION_FAILED" = "INVOCATION_FAILED".
Proof. vm_compute. reflexivity. Qed.
(** The name of a field is taken for a code. *)
Example field_name_is_code : classify_or_default "device_ura is required" "INVOCATION_FAILED" = "DEVICE_URA".
Proof. vm_compute. reflexivity. Qed.

(** Receipts are the protocol's. *)
Class Receipts := { DispatchReceipt : Type }.

Section pending.
Context {UL : UraLib} {RC : Receipts}.

Record DispatchResult := mk_DispatchResult {
  dr_payload : string;
  dr_result_content_type : string;
  dr_admission_receipt : option DispatchReceipt;
  dr_terminal_receipt : option DispatchReceipt;
  dr_error : option string;
  dr_failure : option SessionFailure;
  dr_request_id : option string;
}.
(** The result that [cancel_for] gives. *)
Definition cancelled_result (error_reason : string) : DispatchResult :=
  mk_DispatchResult "" "" None None (Some error_reason) (Some (from_reason error_reason "TARGET_NOT_IN_PRESENCE_REGISTRY" true)) None.

(** [None]: the assertion fails. *)
Definition require_pending_target_ura (target_ura : string) : option string :=
  let target := trim target_ura in if is_empty target then None else Some target.

(** ** Unary calls *)

(** The receiver of a call's answer: waiting, answered, or dropped before. *)
Inductive Waiter := Waiting | Answered (r : DispatchResult) | DroppedWaiter.

(** The entries of the table, the calls made so far, the receivers; with each entry
    the number of presence events at its registration, for the proofs only. *)
Record PendingDispatchMap := mk_Pending {
  pd_entries : gmap Z (string * nat);
  pd_registered : Z;
  pd_waiters : gmap Z Waiter;
}.
Definition new_pending : PendingDispatchMap := mk_Pending ∅ 0 ∅.

(** The identifiers of unary calls are even. *)
Definition unary_call_id (registered : Z) : Z := u64_wrap (2 * u64_wrap registered).

Definition register_pending_for (target_ura : string) (now : nat) (s : PendingDispatchMap) : PendingDispatchMap :=
  match require_pending_target_ura target_ura with
  | None => s
  | Some target =>
      let call_id := unary_call_id (pd_registered s) in
      mk_Pending (<[call_id := (target, now)]> (pd_entries s)) (pd_registered s + 1) (<[call_id := Waiting]> (pd_waiters s))
  end.

(** The entry is taken out and its sender used: the answer reaches a receiver that
    waits. *)
Definition settle (call_id : Z) (r : DispatchResult) (s : PendingDispatchMap) : PendingDispatchMap :=
  match pd_entries s !! call_id with
  | Some _ =>
      mk_Pending (delete call_id (pd_entries s)) (pd_registered s)
        (match pd_waiters s !! call_id with Some Waiting => <[call_id := Answered r]> (pd_waiters s) | _ => pd_waiters s end)
  | None => s
  end.
(** [complete], with what it answers. *)
Definition complete (call_id : Z) (r : DispatchResult) (s : PendingDispatchMap) : PendingDispatchMap * bool :=
  (settle call_id r s,
   match pd_entries s !! call_id, pd_waiters s !! call_id with Some _, Some Waiting => true | _, _ => false end).

(** A caller that gives up: its receiver goes, then its handle takes the entry. *)
Definition drop_receiver (call_id : Z) (s : PendingDispatchMap) : PendingDispatchMap :=
  match pd_waiters s !! call_id with
  | Some Waiting => mk_Pending (pd_entries s) (pd_registered s) (<[call_id := DroppedWaiter]> (pd_waiters s))
  | _ => s
  end.
Definition drop_handle (call_id : Z) (s : PendingDispatchMap) : PendingDispatchMap :=
  match pd_waiters s !! call_id with
  | Some Waiting => s
  | _ => mk_Pending (delete call_id (pd_entries s)) (pd_registered s) (pd_waiters s)
  end.

(** The entries of a target, as [cancel_for] collects them. *)
Definition calls_for (target_ura : string) (s : PendingDispatchMap) : list Z :=
  (map_to_list (filter (λ e, e.2.1 = target_ura) (pd_entries s))).*1.

(** ** The watcher *)

Record Hub := mk_Hub {
  hb_presence : PresenceRegistry;
  hb_pending : PendingDispatchMap;
  hb_cursor : nat;
  hb_watching : bool;
  hb_cancelling : list Z;
}.
Definition new_hub : Hub := mk_Hub new_presence new_pending O true [].

(** One step of the watcher: the next call of a target that went offline is failed,
    or the next event is taken.  A receiver that is more than the channel's capacity
    behind is told so, and the watcher returns. *)
Definition watch (s : Hub) : Hub :=
  let events := pe_events (hb_presence s) in
  if negb (hb_watching s) then s
  else
    match hb_cancelling s with
    | call_id :: rest =>
        mk_Hub (hb_presence s) (settle call_id (cancelled_result "target_offline") (hb_pending s)) (hb_cursor s) true rest
    | [] =>
        if (PRESENCE_EVENT_CHANNEL_CAPACITY <? length events - hb_cursor s)%nat then
          mk_Hub (hb_presence s) (hb_pending s) (hb_cursor s) false []
        else
          match events !! hb_cursor s with
          | Some (Offline ura _) => mk_Hub (hb_presence s) (hb_pending s) (S (hb_cursor s)) true (calls_for ura (hb_pending s))
          | Some (Online _) => mk_Hub (hb_presence s) (hb_pending s) (S (hb_cursor s)) true []
          | None => s
          end
    end.

Inductive HubChoice :=
| HubPresence (c : PresenceChoice)
| HubRegister (target_ura : string)
| HubComplete (call_id : Z) (r : DispatchResult)
| HubDropReceiver (call_id : Z)
| HubDropHandle (call_id : Z)
| HubWatch.

Definition set_pending (p : PendingDispatchMap) (s : Hub) : Hub := mk_Hub (hb_presence s) p (hb_cursor s) (hb_watching s) (hb_cancelling s).
Definition hub_step (s : Hub) (c : HubChoice) : Hub :=
  match c with
  | HubPresence c => mk_Hub (presence_step (hb_presence s) c) (hb_pending s) (hb_cursor s) (hb_watching s) (hb_cancelling s)
  | HubRegister target => set_pending (register_pending_for target (length (pe_events (hb_presence s))) (hb_pending s)) s
  | HubComplete call_id r => set_pending (settle call_id r (hb_pending s)) s
  | HubDropReceiver call_id => set_pending (drop_receiver call_id (hb_pending s)) s
  | HubDropHandle call_id => set_pending (drop_handle call_id (hb_pending s)) s
  | HubWatch => watch s
  end.
Definition hub_run (l : list HubChoice) : Hub := foldl hub_step new_hub l.

(** ** Nobody waits for a target that is gone *)

(** Identifiers repeat after 2^63 calls. *)
Definition few_calls (s : Hub) : Prop := pd_registered (hb_pending s) ≤ 2 ^ 63.

Record hub_inv (s : Hub) : Prop := {
  hi_ids id w : pd_waiters (hb_pending s) !! id = Some w → ∃ n, 0 ≤ n < pd_registered (hb_pending s) ∧ id = 2 * n;
  hi_entries id e : pd_entries (hb_pending s) !! id = Some e → is_Some (pd_waiters (hb_pending s) !! id);
  hi_waiting id : pd_waiters (hb_pending s) !! id = Some Waiting → is_Some (pd_entries (hb_pending s) !! id);
  hi_since id u r : pd_entries (hb_pending s) !! id = Some (u, r) → (r ≤ length (pe_events (hb_presence s)))%nat;
  hi_offline id u r k reason : pd_entries (hb_pending s) !! id = Some (u, r) → (r ≤ k < hb_cursor s)%nat →
    pe_events (hb_presence s) !! k = Some (Offline u reason) → hb_watching s = true → id ∈ hb_cancelling s;
  hi_cursor : (hb_cursor s ≤ length (pe_events (hb_presence s)))%nat;
  hi_registered : 0 ≤ pd_registered (hb_pending s);
}.

Lemma presence_events s c : ∃ evs, pe_events (presence_step s c) = pe_events s ++ evs.
Proof.
  destruct c as [t c|t]; cbn [presence_step].
  - exists []. rewrite app_nil_r. destruct (pe_tasks s !! t); [done|]. destruct c; cbn; unfold begin_remove_if; repeat case_match; done.
  - unfold go_on. destruct (pe_tasks s !! t) as [[ura p|[|e evs]]|]; cbn; [exists []|exists []|by exists [e]|exists []]; by rewrite app_nil_r.
Qed.

Lemma presence_hub_inv c s : hub_inv s → hub_inv (hub_step s (HubPresence c)).
Proof.
  intros []. destruct (presence_events (hb_presence s) c) as [evs He]. constructor; cbn; rewrite ?He, ?length_app; try done.
  - intros id u r Hid. apply hi_since0 in Hid. lia.
  - intros id u r k reason Hid Hk. rewrite lookup_app_l by lia. by eapply hi_offline0.
  - lia.
Qed.

Lemma unary_call_id_small n : 0 ≤ n < 2 ^ 63 → unary_call_id n = 2 * n.
Proof. intros Hn. unfold unary_call_id, u64_wrap. rewrite (Z.mod_small n) by lia. apply Z.mod_small. lia. Qed.

Lemma register_inv target s : hub_inv s → few_calls (hub_step s (HubRegister target)) → hub_inv (hub_step s (HubRegister target)).
Proof.
  intros [] Hfew. unfold few_calls in Hfew. cbn [hub_step set_pending hb_pending] in *. unfold register_pending_for in *.
  destruct (require_pending_target_ura target) as [u|]; [|by constructor]. cbn in Hfew.
  rewrite unary_call_id_small by lia. set (n := pd_registered (hb_pending s)) in *.
  assert (pd_entries (hb_pending s) !! (2 * n) = None) as Hnew.
  { destruct (pd_entries (hb_pending s) !! (2 * n)) eqn:E; [|done]. apply hi_entries0 in E as [w Hw]. apply hi_ids0 in Hw as (m & Hm & Heq). lia. }
  constructor; cbn; try done; try lia.
  - intros id w. destruct (decide (2 * n = id)) as [<- | Hne]; [rewrite lookup_insert_eq; exists n; lia|].
    rewrite lookup_insert_ne by done. intros (m & Hm & ->)%hi_ids0. exists m. lia.
  - intros id e. destruct (decide (2 * n = id)) as [<- | Hne]; [rewrite !lookup_insert_eq; by eexists|]. rewrite !lookup_insert_ne by done. apply hi_entries0.
  - intros id. destruct (decide (2 * n = id)) as [<- | Hne]; [rewrite !lookup_insert_eq; by eexists|]. rewrite !lookup_insert_ne by done. apply hi_waiting0.
  - intros id v r. destruct (decide (2 * n = id)) as [<- | Hne]; [rewrite lookup_insert_eq; by intros [= _ <-]|]. rewrite lookup_insert_ne by done. apply hi_since0.
  - intros id v r k reason. destruct (decide (2 * n = id)) as [<- | Hne]; [rewrite lookup_insert_eq; intros [= _ <-]; lia|]. rewrite lookup_insert_ne by done. apply hi_offline0.
Qed.

(** What takes an entry out, or answers a receiver. *)
Lemma shrink_inv s p : hub_inv s → pd_registered p = pd_registered (hb_pending s) →
  (∀ id e, pd_entries p !! id = Some e → pd_entries (hb_pending s) !! id = Some e) →
  (∀ id, is_Some (pd_waiters p !! id) ↔ is_Some (pd_waiters (hb_pending s) !! id)) →
  (∀ id, pd_waiters p !! id = Some Waiting → pd_waiters (hb_pending s) !! id = Some Waiting ∧ pd_entries p !! id = pd_entries (hb_pending s) !! id) →
  hub_inv (set_pending p s).
Proof.
  intros [] Hr He Hw Hwait. constructor; cbn; rewrite ?Hr; try done.
  - intros id w Hid. destruct (proj1 (Hw id)) as [w' Hw']; [by eexists|]. by eapply hi_ids0.
  - intros id e Hid%He. apply Hw. by eapply hi_entries0.
  - intros id [Hid ->]%Hwait. by apply hi_waiting0.
  - intros id u r Hid%He. by eapply hi_since0.
  - intros id u r k reason Hid%He. by apply hi_offline0.
Qed.

Lemma settle_shrinks call_id r s :
  pd_registered (settle call_id r s) = pd_registered s ∧
  (∀ id, pd_entries (settle call_id r s) !! id = if decide (id = call_id) then None else pd_entries s !! id) ∧
  (∀ id, is_Some (pd_waiters (settle call_id r s) !! id) ↔ is_Some (pd_waiters s !! id)) ∧
  (∀ id, pd_waiters (settle call_id r s) !! id = Some Waiting → pd_waiters s !! id = Some Waiting ∧ (id = call_id → pd_entries s !! id = None)).
Proof.
  unfold settle. destruct (pd_entries s !! call_id) as [e|] eqn:He.
  - split; [done|]. cbn. split; [intros id; case_decide; [subst; by rewrite lookup_delete_eq|by rewrite lookup_delete_ne]|].
    assert (pd_waiters s !! call_id ≠ Some Waiting → (∀ id, is_Some (pd_waiters s !! id) ↔ is_Some (pd_waiters s !! id)) ∧
      ∀ id, pd_waiters s !! id = Some Waiting → pd_waiters s !! id = Some Waiting ∧ (id = call_id → pd_entries s !! id = None)) as Hno.
    { intros Hn. split; [done|]. intros id Hid. split; [done|]. by intros ->. }
    destruct (pd_waiters s !! call_id) as [[]|] eqn:Hw; [|by apply Hno..]. split; intros id.
    + destruct (decide (call_id = id)) as [<- | Hne]; [rewrite lookup_insert_eq, Hw; by split; eexists|by rewrite lookup_insert_ne].
    + destruct (decide (call_id = id)) as [<- | Hne]; [by rewrite lookup_insert_eq|]. rewrite lookup_insert_ne by done. intros Hid. split; [done|]. congruence.
  - split_and!; try done; [intros id; by case_decide; subst|]. intros id Hid. split; [done|]. by intros ->.
Qed.
Lemma settle_inv call_id r s : hub_inv s → hub_inv (set_pending (settle call_id r (hb_pending s)) s).
Proof.
  intros H. destruct (settle_shrinks call_id r (hb_pending s)) as (Hr & He & Hw & Hwait). apply shrink_inv; try done.
  - intros id e. rewrite He. by case_decide.
  - intros id Hid. destruct (Hwait id Hid) as [Hid' Hn]. split; [done|]. rewrite He. case_decide; [|done]. symmetry. auto.
Qed.

Lemma drop_receiver_inv call_id s : hub_inv s → hub_inv (set_pending (drop_receiver call_id (hb_pending s)) s).
Proof.
  intros H. unfold drop_receiver. destruct (pd_waiters (hb_pending s) !! call_id) as [[]|] eqn:Hw; try by destruct s.
  apply shrink_inv; try done; cbn; intros id.
  - destruct (decide (call_id = id)) as [<- | Hne]; [rewrite lookup_insert_eq, Hw; by split; eexists|by rewrite lookup_insert_ne].
  - destruct (decide (call_id = id)) as [<- | Hne]; [by rewrite lookup_insert_eq|by rewrite lookup_insert_ne].
Qed.
Lemma drop_handle_inv call_id s : hub_inv s → hub_inv (set_pending (drop_handle call_id (hb_pending s)) s).
Proof.
  intros H. unfold drop_handle. assert (hub_inv (set_pending (hb_pending s) s)) as Hsame by (by destruct s).
  assert (pd_waiters (hb_pending s) !! call_id ≠ Some Waiting →
    hub_inv (set_pending (mk_Pending (delete call_id (pd_entries (hb_pending s))) (pd_registered (hb_pending s)) (pd_waiters (hb_pending s))) s)) as Hgo.
  { intros Hn. apply shrink_inv; try done; cbn; intros id.
    - intros e. rewrite lookup_delete_Some. by intros [_ ?].
    - intros Hid. split; [done|]. rewrite lookup_delete_ne; [done|]. by intros ->. }
  destruct (pd_waiters (hb_pending s) !! call_id) as [[]|] eqn:Hw; [done|by apply Hgo..].
Qed.

Lemma calls_for_spec id u s : id ∈ calls_for u s ↔ ∃ r, pd_entries s !! id = Some (u, r).
Proof.
  unfold calls_for. rewrite list_elem_of_fmap. split.
  - intros ([id' [u' r]] & -> & Hin). apply elem_of_map_to_list, map_lookup_filter_Some in Hin as [Hin Hu]. cbn in *. subst u'. by exists r.
  - intros [r Hr]. exists (id, (u, r)). split; [done|]. by apply elem_of_map_to_list, map_lookup_filter_Some.
Qed.

Lemma watch_inv s : hub_inv s → hub_inv (watch s).
Proof.
  intros H. unfold watch. destruct (hb_watching s) eqn:Hon; [|done]. cbn [negb]. destruct (hb_cancelling s) as [|call_id rest] eqn:Hc.
  - destruct (_ <? _)%nat; [by destruct H; constructor; cbn in *|]. destruct (pe_events (hb_presence s) !! hb_cursor s) as [e|] eqn:He; [|done].
    pose proof (lookup_lt_Some _ _ _ He) as Hlt.
    assert (∀ l, (∀ u reason, e = Offline u reason → l = calls_for u (hb_pending s)) →
      hub_inv (mk_Hub (hb_presence s) (hb_pending s) (S (hb_cursor s)) true l)) as Hgo.
    { intros l Hl. destruct H. constructor; cbn; try done. intros id u r k reason Hid Hk Hoff _.
      destruct (decide (k = hb_cursor s)) as [-> | Hne].
      - rewrite He in Hoff. simplify_eq. rewrite (Hl u reason eq_refl). apply calls_for_spec. by exists r.
      - assert (id ∈ hb_cancelling s) as Hin by (eapply hi_offline0; [done| |done|done]; lia). rewrite Hc in Hin. set_solver. }
    destruct e as [u|u reason]; apply Hgo; [done|by intros ? ? [= -> _]].
  - apply (settle_inv call_id (cancelled_result "target_offline")) in H as H'. destruct H'. constructor; cbn in *; try done.
    intros id u r k reason Hid Hk Hoff _. assert (id ∈ hb_cancelling s) as Hin by (by eapply hi_offline0).
    rewrite Hc in Hin. apply elem_of_cons in Hin as [-> | Hin]; [|done].
    destruct (settle_shrinks call_id (cancelled_result "target_offline") (hb_pending s)) as (_ & Hn & _). rewrite Hn in Hid. by case_decide.
Qed.

Lemma hub_step_inv s c : hub_inv s → few_calls (hub_step s c) → hub_inv (hub_step s c).
Proof.
  intros H Hf. destruct c; [by apply presence_hub_inv|by apply register_inv|by apply settle_inv|by apply drop_receiver_inv|by apply drop_handle_inv|by apply watch_inv].
Qed.
Lemma settle_registered call_id r s : pd_registered (settle call_id r s) = pd_registered s.
Proof. apply settle_shrinks. Qed.
Lemma hub_step_registered s c : pd_registered (hb_pending s) ≤ pd_registered (hb_pending (hub_step s c)).
Proof.
  destruct c; cbn; rewrite ?settle_registered; try lia.
  - unfold register_pending_for. case_match; cbn; lia.
  - unfold drop_receiver. repeat case_match; cbn; lia.
  - unfold drop_handle. repeat case_match; cbn; lia.
  - unfold watch. repeat case_match; cbn; rewrite ?settle_registered; lia.
Qed.
Lemma hub_run_inv l : few_calls (hub_run l) → hub_inv (hub_run l).
Proof.
  induction l as [|c l IH] using rev_ind.
  - intros _. constructor; cbn; try done; try lia; intros *; by rewrite lookup_empty.
  - unfold hub_run in *. rewrite foldl_app. cbn [foldl]. intros Hf. apply hub_step_inv; [|done]. apply IH. unfold few_calls in *.
    pose proof (hub_step_registered (foldl hub_step new_hub l) c). lia.
Qed.

(** The watcher alone. *)
Definition watches (n : nat) (s : Hub) : Hub := foldl hub_step s (replicate n HubWatch).
Lemma watches_S n s : watches (S n) s = watches n (watch s).
Proof. done. Qed.
Lemma watches_add n m s : watches (n + m) s = watches m (watches n s).
Proof. unfold watches. rewrite replicate_add. apply foldl_app. Qed.

(** What the watcher leaves alone, and what it does to a call that waits. *)
Lemma watch_frame s : hb_presence (watch s) = hb_presence s ∧
  (∀ id e, pd_entries (hb_pending (watch s)) !! id = Some e → pd_entries (hb_pending s) !! id = Some e) ∧
  (∀ id, pd_waiters (hb_pending s) !! id = Some Waiting ∨ pd_waiters (hb_pending s) !! id = Some (Answered (cancelled_result "target_offline")) →
     pd_waiters (hb_pending (watch s)) !! id = Some Waiting ∨ pd_waiters (hb_pending (watch s)) !! id = Some (Answered (cancelled_result "target_offline"))).
Proof.
  unfold watch. destruct (hb_watching s); [|done]. cbn [negb]. destruct (hb_cancelling s) as [|call_id rest].
  - destruct (_ <? _)%nat; [done|]. by destruct (pe_events (hb_presence s) !! hb_cursor s) as [[]|].
  - split; [done|]. cbn. split.
    + intros id e. destruct (settle_shrinks call_id (cancelled_result "target_offline") (hb_pending s)) as (_ & -> & _). by case_decide.
    + intros id Hid. unfold settle. destruct (pd_entries (hb_pending s) !! call_id); [|done]. cbn.
      destruct (pd_waiters (hb_pending s) !! call_id) as [[]|] eqn:Hw; try done.
      destruct (decide (call_id = id)) as [<- | Hne]; [rewrite lookup_insert_eq; auto|by rewrite lookup_insert_ne].
Qed.
Lemma watches_frame n s : hb_presence (watches n s) = hb_presence s ∧
  (∀ id e, pd_entries (hb_pending (watches n s)) !! id = Some e → pd_entries (hb_pending s) !! id = Some e) ∧
  (∀ id, pd_waiters (hb_pending s) !! id = Some Waiting ∨ pd_waiters (hb_pending s) !! id = Some (Answered (cancelled_result "target_offline")) →
     pd_waiters (hb_pending (watches n s)) !! id = Some Waiting ∨ pd_waiters (hb_pending (watches n s)) !! id = Some (Answered (cancelled_result "target_offline"))) ∧
  (hub_inv s → hub_inv (watches n s)).
Proof.
  revert s. induction n as [|n IH]; intros s; [done|]. rewrite watches_S. destruct (IH (watch s)) as (Hp & He & Hw & Hi). destruct (watch_frame s) as (Hp1 & He1 & Hw1).
  split_and!; [by rewrite Hp|auto|auto|]. intros H. by apply Hi, watch_inv.
Qed.

Lemma cancels_all ids s : hb_watching s = true → hb_cancelling s = ids →
  let s' := watches (length ids) s in hb_watching s' = true ∧ hb_cancelling s' = [] ∧ hb_cursor s' = hb_cursor s.
Proof.
  revert s. induction ids as [|id ids IH]; intros s Hon Hc; [done|]. cbn [length]. rewrite watches_S.
  assert (watch s = mk_Hub (hb_presence s) (settle id (cancelled_result "target_offline") (hb_pending s)) (hb_cursor s) true ids) as ->
    by (unfold watch; by rewrite Hon, Hc).
  set (s1 := mk_Hub _ _ _ _ ids). exact (IH s1 eq_refl eq_refl).
Qed.
Lemma catches_up m s : hb_watching s = true → (hb_cursor s + m = length (pe_events (hb_presence s)))%nat → (m ≤ PRESENCE_EVENT_CHANNEL_CAPACITY)%nat →
  ∃ n, let s' := watches n s in
    hb_watching s' = true ∧ hb_cancelling s' = [] ∧ hb_cursor s' = length (pe_events (hb_presence s)).
Proof.
  revert s. induction m as [|m IH]; intros s Hon Hm Hle; destruct (cancels_all _ s Hon eq_refl) as (Hon' & Hc' & Hcur').
  - exists (length (hb_cancelling s)). split_and!; [done|done|]. rewrite Hcur'. lia.
  - set (s1 := watches (length (hb_cancelling s)) s) in *. assert (hb_presence s1 = hb_presence s) as Hp by apply watches_frame.
    destruct (lookup_lt_is_Some_2 (pe_events (hb_presence s)) (hb_cursor s)) as [e He]; [lia|].
    assert (hb_watching (watch s1) = true ∧ hb_cursor (watch s1) = S (hb_cursor s)) as [Hon1 Hcur1].
    { unfold watch. rewrite Hon', Hc', Hcur', Hp, He. cbn [negb].
      assert ((PRESENCE_EVENT_CHANNEL_CAPACITY <? length (pe_events (hb_presence s)) - hb_cursor s)%nat = false) as -> by (apply Nat.ltb_ge; lia). by destruct e. }
    assert (hb_presence (watch s1) = hb_presence s) as Hp1 by (by rewrite (proj1 (watch_frame s1))).
    destruct (IH (watch s1)) as (n & Hn); [done|rewrite Hp1, Hcur1; lia|lia|]. exists (length (hb_cancelling s) + S n)%nat.
    rewrite watches_add, watches_S. fold s1. by rewrite Hp1 in Hn.
Qed.

(** C8 (liveness): a call is not left waiting for a target that went offline.  In
    every interleaving of callers, sessions and presence, while the watcher is at
    most 1024 events behind: when an offline event of a call's target was sent after
    the call was registered, finitely many steps of the watcher alone answer the call
    with the failure, if it still waits. *)
Theorem offline_calls_fail (l : list HubChoice) (id : Z) (u : string) (r k : nat) (reason : OfflineReason) :
  few_calls (hub_run l) → hb_watching (hub_run l) = true →
  (length (pe_events (hb_presence (hub_run l))) - hb_cursor (hub_run l) ≤ PRESENCE_EVENT_CHANNEL_CAPACITY)%nat →
  pd_entries (hb_pending (hub_run l)) !! id = Some (u, r) → pd_waiters (hb_pending (hub_run l)) !! id = Some Waiting →
  (r ≤ k)%nat → pe_events (hb_presence (hub_run l)) !! k = Some (Offline u reason) →
  ∃ n, pd_waiters (hb_pending (watches n (hub_run l))) !! id = Some (Answered (cancelled_result "target_offline")).
Proof.
  intros Hf Hon Hlag Hid Hw Hk He. apply hub_run_inv in Hf. set (s := hub_run l) in *. pose proof (hi_cursor _ Hf) as Hcur.
  destruct (catches_up (length (pe_events (hb_presence s)) - hb_cursor s) s) as (n & Hon' & Hc' & Hcur'); [done|lia|done|]. exists n.
  destruct (watches_frame n s) as (Hp & Hent & Hwt & Hinv). apply Hinv in Hf as Hf'. destruct (Hwt id) as [Hwait|?]; [by left| |done].
  destruct (hi_waiting _ Hf' id Hwait) as [e Hide]. pose proof (Hent _ _ Hide) as Hold. assert (e = (u, r)) as -> by congruence.
  assert (id ∈ hb_cancelling (watches n s)) as Hin; [|rewrite Hc' in Hin; set_solver].
  apply (hi_offline _ Hf' id u r k reason); rewrite ?Hp, ?Hcur'; try done. apply lookup_lt_Some in He. lia.
Qed.

(** Nobody waits without an entry that can answer. *)
Lemma waiters_have_entries l id : few_calls (hub_run l) → pd_waiters (hb_pending (hub_run l)) !! id = Some Waiting →
  is_Some (pd_entries (hb_pending (hub_run l)) !! id).
Proof. intros Hf. apply (hi_waiting _ (hub_run_inv l Hf)). Qed.

(** An answer stays. *)
Lemma answered_stays s c id a : hub_inv s → few_calls (hub_step s c) → pd_waiters (hb_pending s) !! id = Some (Answered a) →
  pd_waiters (hb_pending (hub_step s c)) !! id = Some (Answered a).
Proof.
  intros H Hf Ha. assert (∀ i x, pd_waiters (settle i x (hb_pending s)) !! id = Some (Answered a)) as Hset.
  { intros i x. unfold settle. destruct (pd_entries (hb_pending s) !! i); [|done]. cbn. destruct (pd_waiters (hb_pending s) !! i) as [[]|] eqn:Hi; try done.
    rewrite lookup_insert_ne; [done|]. congruence. }
  destruct c; cbn in *; try done.
  - unfold register_pending_for in *. unfold few_calls in Hf. cbn in Hf. destruct (require_pending_target_ura target_ura); [|done]. cbn in *.
    rewrite unary_call_id_small by (pose proof (hi_registered _ H); lia). rewrite lookup_insert_ne; [done|]. intros <-.
    destruct (hi_ids _ H _ _ Ha) as (n & Hn & E). lia.
  - unfold drop_receiver. destruct (pd_waiters (hb_pending s) !! call_id) as [[]|] eqn:Hi; try done. cbn. rewrite lookup_insert_ne; [done|]. congruence.
  - unfold drop_handle. by destruct (pd_waiters (hb_pending s) !! call_id) as [[]|].
  - unfold watch. destruct (negb _); [done|]. destruct (hb_cancelling s); [|by apply Hset]. destruct (_ <? _)%nat; [done|].
    by destruct (pe_events (hb_presence s) !! hb_cursor s) as [[]|].
Qed.

(** ** The dispatcher (src/src/daemon/invocation/dispatch/unary_dispatcher.rs)

    One call of a remote device: its session is looked up, the call registered, the
    frame put on the session's channel, the answer awaited. *)

Inductive DispatchStatus :=
| SelfHost
| ResolveUnavailable
| CarrierRequired (version : Z)
| FrameNotBuilt (e : string)
| TargetBusy
| TargetOffline
| SessionDisconnected (call_id : Z)
| ReplyTimeout (call_id : Z).

Definition require_canonical_dispatch_session (host : string) (s : PresenceRegistry) : result DispatchStatus PresenceDispatchSession :=
  match lookup_dispatch_session host s with
  | None => Err (if is_resolve_only host s then SelfHost else ResolveUnavailable)
  | Some session =>
      if ds_contract_version session <? CANONICAL_SESSION_CARRIER_VERSION then Err (CarrierRequired (ds_contract_version session)) else Ok session
  end.

(** Where a dispatch is: before the lookup, with its session, with its call, taking
    the dead session out, waiting for the answer; dropped while it waited; failed on an
    assertion; back, with its call if it had one. *)
Inductive DispatchTask :=
| DtStart (host : string)
| DtSession (host : string) (session : PresenceDispatchSession)
| DtRegistered (host : string) (session : PresenceDispatchSession) (call_id : Z)
| DtRemoving (call_id : Z) (removal : nat)
| DtAwait (call_id version : Z)
| DtDropped (call_id : Z)
| DtPanicked
| DtReturned (call_id : option Z) (r : result DispatchStatus (Z * DispatchResult * Z)).

(** The channels of sessions hold at most 256 frames and are open while the session's
    task has the other end; the frames that were sent are kept for the proofs. *)
Record DispatchPlane := mk_Plane {
  dp_hub : Hub;
  dp_channels : gmap DispatchSender (list Z * bool);
  dp_sent : list Z;
  dp_tasks : gmap nat DispatchTask;
}.
Definition new_plane : DispatchPlane := mk_Plane new_hub ∅ [] ∅.
Definition set_task (t : nat) (x : DispatchTask) (s : DispatchPlane) : DispatchPlane :=
  mk_Plane (dp_hub s) (dp_channels s) (dp_sent s) (<[t := x]> (dp_tasks s)).
Definition on_hub (c : HubChoice) (s : DispatchPlane) : DispatchPlane :=
  mk_Plane (hub_step (dp_hub s) c) (dp_channels s) (dp_sent s) (dp_tasks s).

(** The dispatch returns: its receiver and its handle are dropped. *)
Definition end_dispatch (t : nat) (call_id : Z) (x : DispatchTask) (s : DispatchPlane) : DispatchPlane :=
  set_task t x (on_hub (HubDropHandle call_id) (on_hub (HubDropReceiver call_id) s)).

Definition reject_self_presence_host (host : string) (is_self : bool) (s : PresenceRegistry) : result DispatchStatus unit :=
  ensure (negb (is_self || is_resolve_only host s)) SelfHost.

(** [try_send], then what the dispatch does with its answer; a dead session is taken
    out by a call to the registry that runs as the task [removal] there. *)
Definition send_frame (t : nat) (host : string) (session : PresenceDispatchSession) (call_id : Z) (removal : nat) (s : DispatchPlane) : DispatchPlane :=
  match dp_channels s !! ds_sender session with
  | Some (frames, true) =>
      if (length frames <? DISPATCH_CHANNEL_CAPACITY)%nat then
        mk_Plane (dp_hub s) (<[ds_sender session := (frames ++ [call_id], true)]> (dp_channels s)) (dp_sent s ++ [call_id])
          (<[t := DtAwait call_id (ds_contract_version session)]> (dp_tasks s))
      else end_dispatch t call_id (DtReturned (Some call_id) (Err TargetBusy)) s
  | _ =>
      match pe_tasks (hb_presence (dp_hub s)) !! removal with
      | None =>
          set_task t (DtRemoving call_id removal)
            (on_hub (HubPresence (Call removal (RemoveIfSession host (ds_session_id session) StreamClosed))) s)
      | Some _ => s
      end
  end.

(** [build_frame] is the caller's. *)
Definition dispatch_frame_to_presence (t : nat) (build_frame : result string unit) (removal : nat) (s : DispatchPlane) : DispatchPlane :=
  match dp_tasks s !! t with
  | Some (DtStart host) =>
      match require_canonical_dispatch_session host (hb_presence (dp_hub s)) with
      | Err e => set_task t (DtReturned None (Err e)) s
      | Ok session => set_task t (DtSession host session) s
      end
  | Some (DtSession host session) =>
      match require_pending_target_ura host with
      | None => set_task t DtPanicked s
      | Some _ => set_task t (DtRegistered host session (unary_call_id (pd_registered (hb_pending (dp_hub s))))) (on_hub (HubRegister host) s)
      end
  | Some (DtRegistered host session call_id) =>
      match build_frame with
      | Err e => end_dispatch t call_id (DtReturned (Some call_id) (Err (FrameNotBuilt e))) s
      | Ok _ => send_frame t host session call_id removal s
      end
  | Some (DtRemoving call_id removal) =>
      match pe_tasks (hb_presence (dp_hub s)) !! removal with
      | None => end_dispatch t call_id (DtReturned (Some call_id) (Err TargetOffline)) s
      | Some _ => s
      end
  | Some (DtAwait call_id version) =>
      match pd_waiters (hb_pending (dp_hub s)) !! call_id, pd_entries (hb_pending (dp_hub s)) !! call_id with
      | Some (Answered r), _ => end_dispatch t call_id (DtReturned (Some call_id) (Ok (call_id, r, version))) s
      | Some Waiting, None => end_dispatch t call_id (DtReturned (Some call_id) (Err (SessionDisconnected call_id))) s
      | _, _ => s
      end
  | _ => s
  end.

Inductive PlaneChoice :=
| PlaneDispatch (t : nat) (host : string) (is_self : bool)
| PlaneStep (t : nat) (build_frame : result string unit) (removal : nat)
| PlaneTimeout (t : nat)
| PlaneDrop (t : nat)
| PlanePresence (c : PresenceChoice)
| PlaneComplete (call_id : Z) (r : DispatchResult)
| PlaneWatch
| PlaneOpen (sender : DispatchSender)
| PlaneTake (sender : DispatchSender)
| PlaneClose (sender : DispatchSender).

Definition set_channels (f : gmap DispatchSender (list Z * bool) → gmap DispatchSender (list Z * bool)) (s : DispatchPlane) : DispatchPlane :=
  mk_Plane (dp_hub s) (f (dp_channels s)) (dp_sent s) (dp_tasks s).
(** A dispatch begins, goes on, its time is up while it waits, or its caller drops it
    there; sessions, answers and the watcher; the channel of a session. *)
Definition plane_step (s : DispatchPlane) (c : PlaneChoice) : DispatchPlane :=
  match c with
  | PlaneDispatch t host is_self =>
      match dp_tasks s !! t with
      | Some _ => s
      | None =>
          match reject_self_presence_host host is_self (hb_presence (dp_hub s)) with
          | Err e => set_task t (DtReturned None (Err e)) s
          | Ok _ => set_task t (DtStart host) s
          end
      end
  | PlaneStep t build_frame removal => dispatch_frame_to_presence t build_frame removal s
  | PlaneTimeout t =>
      match dp_tasks s !! t with
      | Some (DtAwait call_id _) =>
          match pd_waiters (hb_pending (dp_hub s)) !! call_id with
          | Some Waiting => end_dispatch t call_id (DtReturned (Some call_id) (Err (ReplyTimeout call_id))) s
          | _ => s
          end
      | _ => s
      end
  | PlaneDrop t => match dp_tasks s !! t with Some (DtAwait call_id _) => end_dispatch t call_id (DtDropped call_id) s | _ => s end
  | PlanePresence c => on_hub (HubPresence c) s
  | PlaneComplete call_id r => on_hub (HubComplete call_id r) s
  | PlaneWatch => on_hub HubWatch s
  | PlaneOpen sender => set_channels (λ m, match m !! sender with None => <[sender := ([], true)]> m | Some _ => m end) s
  | PlaneTake sender => set_channels (alter (λ q, (tail q.1, q.2)) sender) s
  | PlaneClose sender => set_channels (alter (λ q, ([], false)) sender) s
  end.
Definition plane_run (l : list PlaneChoice) : DispatchPlane := foldl plane_step new_plane l.

(** *** What a dispatch comes to *)

Definition call_of (x : DispatchTask) : option Z :=
  match x with
  | DtRegistered _ _ i | DtRemoving i _ | DtAwait i _ | DtDropped i | DtReturned (Some i) _ => Some i
  | _ => None
  end.
(** The dispatch has its handle. *)
Definition holds (x : DispatchTask) : bool := match x with DtRegistered _ _ _ | DtRemoving _ _ | DtAwait _ _ => true | _ => false end.
Definition receives (h : Hub) (i : Z) : Prop :=
  pd_waiters (hb_pending h) !! i = Some Waiting ∨ ∃ r, pd_waiters (hb_pending h) !! i = Some (Answered r).

Definition task_ok (h : Hub) (sent : list Z) (x : DispatchTask) : Prop :=
  match x with
  | DtStart _ => True
  | DtSession host session => require_pending_target_ura host = Some host ∧ CANONICAL_SESSION_CARRIER_VERSION ≤ ds_contract_version session
  | DtRegistered _ session i => CANONICAL_SESSION_CARRIER_VERSION ≤ ds_contract_version session ∧ receives h i ∧ i ∉ sent
  | DtRemoving i _ => receives h i ∧ i ∉ sent
  | DtAwait i v => CANONICAL_SESSION_CARRIER_VERSION ≤ v ∧ receives h i ∧ i ∈ sent
  | DtDropped i => is_Some (pd_waiters (hb_pending h) !! i) ∧ i ∈ sent
  | DtPanicked => False
  | DtReturned None r => match r with Err (SelfHost | ResolveUnavailable | CarrierRequired _) => True | _ => False end
  | DtReturned (Some i) r =>
      is_Some (pd_waiters (hb_pending h) !! i) ∧
      match r with
      | Ok (i', a, v) => i' = i ∧ pd_waiters (hb_pending h) !! i = Some (Answered a) ∧ CANONICAL_SESSION_CARRIER_VERSION ≤ v ∧ i ∈ sent
      | Err (ReplyTimeout i') => i' = i ∧ i ∈ sent
      | Err (FrameNotBuilt _ | TargetBusy | TargetOffline) => i ∉ sent
      | Err _ => False
      end
  end.

Record plane_inv (s : DispatchPlane) : Prop := {
  pl_hub : hub_inv (dp_hub s);
  pl_keys u slot : occurs (hb_presence (dp_hub s)) u slot → require_pending_target_ura u = Some u;
  pl_tasks t x : dp_tasks s !! t = Some x → task_ok (dp_hub s) (dp_sent s) x;
  pl_own t t' x x' i : dp_tasks s !! t = Some x → dp_tasks s !! t' = Some x' → call_of x = Some i → call_of x' = Some i → t = t';
  pl_entries i e : pd_entries (hb_pending (dp_hub s)) !! i = Some e → ∃ t x, dp_tasks s !! t = Some x ∧ call_of x = Some i ∧ holds x = true;
  pl_sent i : i ∈ dp_sent s → ∃ t x, dp_tasks s !! t = Some x ∧ call_of x = Some i;
  pl_once : NoDup (dp_sent s);
}.

(** Keys of the registry are addresses without blanks around them. *)
Lemma presence_key u : validate_presence_principal_ura u = Ok tt → require_pending_target_ura u = Some u.
Proof.
  unfold validate_presence_principal_ura, require_pending_target_ura. cbn zeta. destruct (is_empty (trim u)); [done|].
  case_bool_decide as E; [|done]. by rewrite E.
Qed.
Lemma validated_unit u : (∃ x, validate_presence_principal_ura u = Ok x) → validate_presence_principal_ura u = Ok tt.
Proof. by intros [[] ?]. Qed.

Lemma presence_step_keys s c : (∀ u slot, occurs s u slot → require_pending_target_ura u = Some u) →
  ∀ u slot, occurs (presence_step s c) u slot → require_pending_target_ura u = Some u.
Proof.
  intros Hk u slot Ho. destruct c as [t c|t]; cbn [presence_step] in Ho.
  - destruct (pe_tasks s !! t) eqn:Ht; [by eapply Hk|].
    assert (∀ ura mk, validate_presence_principal_ura ura = Ok tt → occurs (begin_insert t ura mk s) u slot → require_pending_target_ura u = Some u) as Hins.
    { intros ura mk Hv [Hm|[t' Hm]]; cbn in Hm; [eapply Hk; by left|]. apply lookup_insert_Some in Hm as [[_ [= <- _]]|[_ Hm]]; [by apply presence_key|].
      eapply Hk. right. by exists t'. }
    destruct c; cbn [begin_call] in Ho; try (eapply Hk; by eapply begin_remove_if_occurs).
    + destruct (validate_presence_principal_ura ura) as [[]|] eqn:E; [by eapply Hins|by eapply Hk].
    + destruct (validate_presence_principal_ura ura) as [[]|] eqn:E; cbn in Ho; [|by eapply Hk]. case_match; [by eapply Hins|by eapply Hk].
  - unfold go_on in Ho. destruct (pe_tasks s !! t) as [[ura p|[|e evs]]|] eqn:Ht; [..|by eapply Hk];
      destruct Ho as [Hm|[t' Hm]]; cbn in Hm; try (eapply Hk; by left).
    + apply lookup_insert_Some in Hm as [[<- <-]|[_ Hm]]; [eapply Hk; right; by exists t|eapply Hk; by left].
    + apply lookup_insert_Some in Hm as [[_ [=]]|[_ Hm]]. eapply Hk. right. by exists t'.
    + apply lookup_delete_Some in Hm as [_ Hm]. eapply Hk. right. by exists t'.
    + apply lookup_insert_Some in Hm as [[_ [=]]|[_ Hm]]. eapply Hk. right. by exists t'.
Qed.

(** A call's receiver stays, or gets its answer. *)
Definition receiver_goes (h h' : Hub) (i : Z) : Prop :=
  pd_waiters (hb_pending h') !! i = pd_waiters (hb_pending h) !! i ∨
  (pd_waiters (hb_pending h) !! i = Some Waiting ∧ ∃ r, pd_waiters (hb_pending h') !! i = Some (Answered r)).
Lemma receives_goes h h' i : receiver_goes h h' i → receives h i → receives h' i.
Proof. unfold receives. intros [-> | [Hw [r ->]]]; eauto. Qed.
Lemma is_Some_goes h h' i : receiver_goes h h' i → is_Some (pd_waiters (hb_pending h) !! i) → is_Some (pd_waiters (hb_pending h') !! i).
Proof. intros [-> | [_ [r ->]]]; eauto. Qed.

Lemma task_ok_goes h h' sent sent' x : task_ok h sent x →
  (∀ i, call_of x = Some i → receiver_goes h h' i) → (∀ i, call_of x = Some i → (i ∈ sent' ↔ i ∈ sent)) → task_ok h' sent' x.
Proof.
  intros Hx Hg Hs. destruct x as [host|host session|host session i|i n|i v|i| |[i|] r]; cbn in *; try done;
    try specialize (Hg i eq_refl); try specialize (Hs i eq_refl);
    pose proof (receives_goes h h' i) as Hr || idtac; pose proof (is_Some_goes h h' i) as Hi || idtac; rewrite ?Hs; try naive_solver.
  destruct Hx as [Hsome Hx]. split; [auto|]. destruct r as [[[i' a] v]|[]]; rewrite ?Hs; try done.
  destruct Hx as (? & Ha & ? & ?). split_and!; try done. destruct Hg as [-> | [Hw _]]; [done|congruence].
Qed.

(** A step of the hub that makes no call and drops none. *)
Lemma settle_goes h i r p : receiver_goes h (set_pending (settle i r (hb_pending h)) h) p.
Proof.
  unfold receiver_goes. cbn. unfold settle. destruct (pd_entries (hb_pending h) !! i); [|by left]. cbn.
  destruct (pd_waiters (hb_pending h) !! i) as [[]|] eqn:Hw; try by left.
  destruct (decide (i = p)) as [<- | Hne]; [right; rewrite lookup_insert_eq; eauto|left; by rewrite lookup_insert_ne].
Qed.
Definition outside (c : HubChoice) : bool := match c with HubPresence _ | HubComplete _ _ | HubWatch => true | _ => false end.
Lemma outside_goes h c i : outside c = true → receiver_goes h (hub_step h c) i.
Proof.
  destruct c; try done; intros _; cbn [hub_step]; [by left|apply settle_goes|].
  unfold watch. destruct (negb _); [by left|]. destruct (hb_cancelling h) as [|id rest]; [|apply (settle_goes h id)].
  destruct (_ <? _)%nat; [by left|]. destruct (pe_events (hb_presence h) !! hb_cursor h) as [[]|]; by left.
Qed.
Lemma outside_entries h c i e : outside c = true → pd_entries (hb_pending (hub_step h c)) !! i = Some e → pd_entries (hb_pending h) !! i = Some e.
Proof.
  destruct c; try done; intros _; cbn [hub_step].
  - cbn. rewrite (proj1 (proj2 (settle_shrinks _ _ _))). by case_decide.
  - apply (watch_frame h).
Qed.
Lemma outside_keys h c : outside c = true → (∀ u slot, occurs (hb_presence h) u slot → require_pending_target_ura u = Some u) →
  ∀ u slot, occurs (hb_presence (hub_step h c)) u slot → require_pending_target_ura u = Some u.
Proof.
  destruct c; try done; intros _ Hk; [by apply presence_step_keys|]. cbn [hub_step]. by rewrite (proj1 (watch_frame h)).
Qed.
Lemma outside_few h c : outside c = true → few_calls h → few_calls (hub_step h c).
Proof.
  unfold few_calls. destruct c; try done; intros _; cbn [hub_step]; cbn; rewrite ?settle_registered; try done.
  unfold watch. repeat case_match; cbn; rewrite ?settle_registered; done.
Qed.
Lemma outside_inv s c : outside c = true → few_calls (dp_hub s) → plane_inv s → plane_inv (on_hub c s).
Proof.
  intros Hc Hf []. constructor; cbn; try done.
  - by apply hub_step_inv, outside_few.
  - by apply outside_keys.
  - intros t x Hx. eapply task_ok_goes; [by eapply pl_tasks0|intros i _; by apply outside_goes|done].
  - intros i e He%outside_entries; [|done]. by eapply pl_entries0.
Qed.

(** One dispatch moves. *)
Lemma move_inv s s' t x : plane_inv s → dp_tasks s' = <[t := x]> (dp_tasks s) → hub_inv (dp_hub s') →
  (∀ u slot, occurs (hb_presence (dp_hub s')) u slot → require_pending_target_ura u = Some u) →
  task_ok (dp_hub s') (dp_sent s') x →
  (∀ t' x' i, t' ≠ t → dp_tasks s !! t' = Some x' → call_of x' = Some i → receiver_goes (dp_hub s) (dp_hub s') i ∧ (i ∈ dp_sent s' ↔ i ∈ dp_sent s)) →
  (∀ i, call_of x = Some i → (∃ x0, dp_tasks s !! t = Some x0 ∧ call_of x0 = Some i) ∨ (∀ t' x', dp_tasks s !! t' = Some x' → call_of x' ≠ Some i)) →
  (∀ x0 i, dp_tasks s !! t = Some x0 → call_of x0 = Some i → call_of x = Some i) →
  (∀ i e, pd_entries (hb_pending (dp_hub s')) !! i = Some e →
     (call_of x = Some i ∧ holds x = true) ∨ (is_Some (pd_entries (hb_pending (dp_hub s)) !! i) ∧ call_of x ≠ Some i)) →
  (∀ i, i ∈ dp_sent s' → i ∈ dp_sent s ∨ call_of x = Some i) → NoDup (dp_sent s') → plane_inv s'.
Proof.
  intros H Ht Hh Hk Hx Hother Hown Hcall Hent Hsent Hnd. constructor; rewrite ?Ht; try done.
  - intros t' x' Hx'. apply lookup_insert_Some in Hx' as [[<- <-]|[Hne Hx']]; [done|].
    eapply task_ok_goes; [by eapply (pl_tasks _ H)|intros i Hi; by eapply (Hother t' x' i)|intros i Hi; by eapply (Hother t' x' i)].
  - assert (∀ t' x' i, t ≠ t' → dp_tasks s !! t' = Some x' → call_of x = Some i → call_of x' = Some i → False) as Hno.
    { intros t' x' i Hne Hx' Hi Hi'. destruct (Hown i Hi) as [(x0 & H0 & Hi0)|Hnone]; [|by eapply Hnone].
      apply Hne. by eapply (pl_own _ H t t'). }
    intros t1 t2 x1 x2 i [[<- <-]|[Hn1 H1]]%lookup_insert_Some [[<- <-]|[Hn2 H2]]%lookup_insert_Some Hi1 Hi2; [done|exfalso; eauto|exfalso; eauto|].
    by eapply (pl_own _ H).
  - intros i e [[Hi Hh']|[[e' He'] Hi]]%Hent; [exists t, x; by rewrite lookup_insert_eq|].
    destruct (pl_entries _ H i e' He') as (t' & x' & Hx' & Hi' & Hh'). exists t', x'. destruct (decide (t = t')) as [<- | Hne]; [|by rewrite lookup_insert_ne].
    exfalso. by apply Hi, (Hcall x').
  - intros i [Hi|Hi]%Hsent; [|exists t, x; by rewrite lookup_insert_eq]. destruct (pl_sent _ H i Hi) as (t' & x' & Hx' & Hi').
    destruct (decide (t = t')) as [<- | Hne]; [exists t, x; rewrite lookup_insert_eq; eauto|exists t', x'; by rewrite lookup_insert_ne].
Qed.

(** A dispatch without a call goes on without one. *)
Lemma no_call_inv s t x : plane_inv s → task_ok (dp_hub s) (dp_sent s) x → call_of x = None →
  (∀ x0, dp_tasks s !! t = Some x0 → call_of x0 = None) → plane_inv (set_task t x s).
Proof.
  intros H Hx Hc H0. apply (move_inv s _ t x); cbn; try done; try apply H.
  - intros t' x' i _ _ _. split; [by left|done].
  - intros i. by rewrite Hc.
  - intros x0 i Hx0. rewrite (H0 x0 Hx0). done.
  - intros i e He. right. rewrite Hc. split; [by eexists|done].
  - auto.
Qed.

Lemma register_inv_plane s t host session : plane_inv s → few_calls (hub_step (dp_hub s) (HubRegister host)) →
  dp_tasks s !! t = Some (DtSession host session) →
  plane_inv (set_task t (DtRegistered host session (unary_call_id (pd_registered (hb_pending (dp_hub s))))) (on_hub (HubRegister host) s)).
Proof.
  intros H Hf Ht. destruct (pl_tasks _ H t _ Ht) as [Hhost Hv]. pose proof (hub_step_inv _ _ (pl_hub _ H) Hf) as Hh.
  assert (unary_call_id (pd_registered (hb_pending (dp_hub s))) = 2 * pd_registered (hb_pending (dp_hub s))) as Hid.
  { apply unary_call_id_small. pose proof (hi_registered _ (pl_hub _ H)). unfold few_calls in Hf. cbn in Hf. unfold register_pending_for in Hf.
    rewrite Hhost in Hf. cbn in Hf. lia. }
  set (i := unary_call_id _) in *.
  assert (pd_waiters (hb_pending (dp_hub s)) !! i = None) as Hnew.
  { destruct (pd_waiters (hb_pending (dp_hub s)) !! i) eqn:E; [|done]. apply (hi_ids _ (pl_hub _ H)) in E as (n & Hn & E). lia. }
  assert (∀ t' x', dp_tasks s !! t' = Some x' → call_of x' ≠ Some i) as Hfresh.
  { intros t' x' Hx' Hi. apply (pl_tasks _ H) in Hx'.
    destruct x' as [| |? ? j|j|j|j| |[j|] r]; cbn in Hi, Hx'; try done; injection Hi as ->; unfold receives in *; rewrite Hnew in Hx'; naive_solver. }
  assert (hub_step (dp_hub s) (HubRegister host) =
    set_pending (mk_Pending (<[i := (host, length (pe_events (hb_presence (dp_hub s))))]> (pd_entries (hb_pending (dp_hub s)))) (pd_registered (hb_pending (dp_hub s)) + 1)
                   (<[i := Waiting]> (pd_waiters (hb_pending (dp_hub s))))) (dp_hub s)) as Hstep.
  { cbn [hub_step]. unfold register_pending_for. by rewrite Hhost. }
  eapply (move_inv s _ t); [done|done|done|apply (pl_keys _ H)|..]; cbn [dp_hub dp_sent set_task on_hub]; rewrite ?Hstep; cbn.
  - split; [done|]. split; [left; cbn; by rewrite lookup_insert_eq|]. intros (t' & x' & Hx' & Hi)%(pl_sent _ H). by eapply Hfresh.
  - intros t' x' p _ Hx' Hp. split; [|done]. left. cbn. rewrite lookup_insert_ne; [done|]. intros ->. by eapply Hfresh.
  - intros p [= <-]. by right.
  - intros x0 p Hx0. rewrite Ht in Hx0. by injection Hx0 as <-.
  - intros p e [[<- _]|[Hne He]]%lookup_insert_Some; [by left|]. right. split; [by eexists|congruence].
  - auto.
  - apply (pl_once _ H).
Qed.

(** What the end of a dispatch leaves of its call. *)
Lemma released_hub h i : hub_inv h → let h' := hub_step (hub_step h (HubDropReceiver i)) (HubDropHandle i) in
  hub_inv h' ∧ hb_presence h' = hb_presence h ∧ pd_registered (hb_pending h') = pd_registered (hb_pending h) ∧
  pd_entries (hb_pending h') !! i = None ∧
  (∀ p e, pd_entries (hb_pending h') !! p = Some e → pd_entries (hb_pending h) !! p = Some e) ∧
  (∀ p, p ≠ i → pd_waiters (hb_pending h') !! p = pd_waiters (hb_pending h) !! p) ∧
  (receives h i → is_Some (pd_waiters (hb_pending h') !! i)) ∧
  (∀ r, pd_waiters (hb_pending h) !! i = Some (Answered r) → pd_waiters (hb_pending h') !! i = Some (Answered r)).
Proof.
  intros H h'. assert (hub_inv h') as Hh' by (by apply drop_handle_inv, drop_receiver_inv). split; [done|].
  subst h'. cbn [hub_step set_pending hb_presence hb_pending] in *. unfold drop_handle, drop_receiver, receives in *.
  destruct (pd_waiters (hb_pending h) !! i) as [[]|] eqn:Hw; cbn in *; rewrite ?lookup_insert_eq, ?Hw in *; cbn; rewrite ?lookup_delete_eq; split_and!; try done;
    try (intros p e; rewrite lookup_delete_Some; by intros [_ ?]); try (intros p Hp; by rewrite lookup_insert_ne); rewrite ?lookup_insert_eq, ?Hw; try naive_solver.
Qed.

Lemma end_dispatch_inv s t i x0 x : plane_inv s → dp_tasks s !! t = Some x0 → call_of x0 = Some i → call_of x = Some i →
  (∀ h', (receives (dp_hub s) i → is_Some (pd_waiters (hb_pending h') !! i)) →
     (∀ r, pd_waiters (hb_pending (dp_hub s)) !! i = Some (Answered r) → pd_waiters (hb_pending h') !! i = Some (Answered r)) → task_ok h' (dp_sent s) x) →
  plane_inv (end_dispatch t i x s).
Proof.
  intros H Ht Hi0 Hi Hx. destruct (released_hub (dp_hub s) i (pl_hub _ H)) as (Hh & Hp & _ & Hgone & Hent & Hoth & Hsome & Hans).
  unfold end_dispatch. eapply (move_inv s _ t x); [done|done|done|..]; cbn [dp_hub dp_sent set_task on_hub].
  - rewrite Hp. apply (pl_keys _ H).
  - by apply Hx.
  - intros t' x' p Hne Hx' Hc. split; [|done]. left. apply Hoth. intros ->. apply Hne. by eapply (pl_own _ H).
  - intros p Hc. left. exists x0. split; [done|]. congruence.
  - intros x1 p Hx1. rewrite Ht in Hx1. injection Hx1 as <-. congruence.
  - intros p e He. right. split; [by eexists; apply Hent|]. rewrite Hi. congruence.
  - auto.
  - apply (pl_once _ H).
Qed.

Lemma send_inv s t host session i removal : plane_inv s → few_calls (dp_hub s) → dp_tasks s !! t = Some (DtRegistered host session i) →
  plane_inv (send_frame t host session i removal s).
Proof.
  intros H Hf Ht. pose proof (pl_tasks _ H t _ Ht) as (Hv & Hr & Hns). unfold send_frame.
  assert (plane_inv (match pe_tasks (hb_presence (dp_hub s)) !! removal with
    | None => set_task t (DtRemoving i removal) (on_hub (HubPresence (Call removal (RemoveIfSession host (ds_session_id session) StreamClosed))) s)
    | Some _ => s end)) as Hclosed.
  { destruct (pe_tasks _ !! removal); [done|]. set (c := HubPresence _).
    eapply (move_inv (on_hub c s) _ t); [by apply outside_inv|done|by apply outside_inv|by apply outside_inv|..]; try done.
    - intros t' x' p _ _ _. split; [by left|done].
    - intros p [= <-]. left. by exists (DtRegistered host session i).
    - intros x0 p Hx0. cbn in Hx0. rewrite Ht in Hx0. by injection Hx0 as <-.
    - intros p e He. cbn in *. destruct (decide (p = i)) as [-> | Hne]; [by left|right]. split; [by eexists|congruence].
    - intros p Hp. by left.
    - apply (pl_once _ H). }
  destruct (dp_channels s !! ds_sender session) as [[frames []]|]; [|done..]. destruct (_ <? _)%nat.
  - eapply (move_inv s _ t); [done|done|..]; cbn; try apply H.
    + split; [done|]. split; [done|]. set_solver.
    + intros t' x' p Hne Hx' Hp. split; [by left|]. assert (p ≠ i) as Hpi by (intros ->; apply Hne; by eapply (pl_own _ H)). set_solver.
    + intros p [= <-]. left. by exists (DtRegistered host session i).
    + intros x0 p Hx0. rewrite Ht in Hx0. by injection Hx0 as <-.
    + intros p e He. destruct (decide (p = i)) as [-> | Hne]; [by left|right]. split; [by eexists|congruence].
    + intros p. rewrite elem_of_app, list_elem_of_singleton. intros [Hp| ->]; auto.
    + apply NoDup_app. split; [apply (pl_once _ H)|]. split; [set_solver|apply NoDup_singleton].
  - eapply end_dispatch_inv; [done|done|done|done|]. intros h' Hs _. split; [by apply Hs|done].
Qed.

Lemma dispatch_step_inv s t build removal : plane_inv s → few_calls (dp_hub s) → few_calls (dp_hub (dispatch_frame_to_presence t build removal s)) →
  plane_inv (dispatch_frame_to_presence t build removal s).
Proof.
  intros H Hf0 Hf. unfold dispatch_frame_to_presence in *. destruct (dp_tasks s !! t) as [x|] eqn:Ht; [|done]. pose proof (pl_tasks _ H t _ Ht) as Hx.
  destruct x as [host|host session|host session i|i n|i v|i| |c r]; try done; cbn in Hx.
  - unfold require_canonical_dispatch_session in *. destruct (lookup_dispatch_session host (hb_presence (dp_hub s))) as [session|] eqn:Hl.
    + destruct (Z.ltb_spec (ds_contract_version session) CANONICAL_SESSION_CARRIER_VERSION); apply no_call_inv; try done; try (rewrite Ht; by intros ? [= <-]).
      split; [|done]. unfold lookup_dispatch_session in Hl. destruct (by_ura (hb_presence (dp_hub s)) !! host) as [slot|] eqn:Hs; [|done].
      eapply (pl_keys _ H). by left.
    + apply no_call_inv; try done; [by destruct (is_resolve_only _ _)|]. rewrite Ht. by intros ? [= <-].
  - destruct (require_pending_target_ura host) eqn:Eh; [by apply register_inv_plane|]. destruct Hx. congruence.
  - destruct build as [u|e]; [by apply send_inv|]. destruct Hx as (_ & Hr & Hn).
    eapply end_dispatch_inv; [done|done|done|done|]. intros h' Hs _. split; [by apply Hs|done].
  - destruct (pe_tasks _ !! n); [done|]. eapply end_dispatch_inv; [done|done|done|done|]. intros h' Hs _. destruct Hx as [Hr Hn]. split; [by apply Hs|done].
  - destruct Hx as (Hv & Hr & Hi). destruct (pd_waiters (hb_pending (dp_hub s)) !! i) as [[]|] eqn:Hw; try done.
    + destruct (hi_waiting _ (pl_hub _ H) i Hw) as [e He]. by rewrite He in *.
    + eapply end_dispatch_inv; [done|done|done|done|]. intros h' Hs Ha. split; [by apply Hs|]. auto.
Qed.

Lemma plane_registered s c : pd_registered (hb_pending (dp_hub s)) ≤ pd_registered (hb_pending (dp_hub (plane_step s c))).
Proof.
  assert (∀ h, pd_registered (hb_pending (dp_hub s)) ≤ pd_registered (hb_pending h) →
    ∀ c, pd_registered (hb_pending (dp_hub s)) ≤ pd_registered (hb_pending (hub_step h c))) as Hg.
  { intros h Hh c'. pose proof (hub_step_registered h c'). lia. }
  destruct c; cbn [plane_step]; unfold dispatch_frame_to_presence, send_frame; repeat case_match;
    cbn [end_dispatch set_task on_hub set_channels dp_hub]; repeat apply Hg; done.
Qed.
Lemma channels_inv f s : plane_inv s → plane_inv (set_channels f s).
Proof. by intros []. Qed.

Lemma plane_step_inv s c : plane_inv s → few_calls (dp_hub (plane_step s c)) → plane_inv (plane_step s c).
Proof.
  intros H Hf. assert (few_calls (dp_hub s)) as Hf0 by (pose proof (plane_registered s c); unfold few_calls in *; lia).
  destruct c; cbn [plane_step] in *; try (by apply channels_inv); try (by apply outside_inv).
  - destruct (dp_tasks s !! t) eqn:Ht; [done|]. unfold reject_self_presence_host. destruct (negb _); cbn; apply no_call_inv; try done; rewrite Ht; done.
  - by apply dispatch_step_inv.
  - destruct (dp_tasks s !! t) as [[| | | |i v| | |]|] eqn:Ht; try done. pose proof (pl_tasks _ H t _ Ht) as (Hv & Hr & Hi).
    destruct (pd_waiters (hb_pending (dp_hub s)) !! i) as [[]|]; try done.
    eapply end_dispatch_inv; [done|done|done|done|]. intros h' Hs _. split; [by apply Hs|done].
  - destruct (dp_tasks s !! t) as [[| | | |i v| | |]|] eqn:Ht; try done. pose proof (pl_tasks _ H t _ Ht) as (Hv & Hr & Hi).
    eapply end_dispatch_inv; [done|done|done|done|]. intros h' Hs _. split; [by apply Hs|done].
Qed.
Lemma plane_run_inv l : few_calls (dp_hub (plane_run l)) → plane_inv (plane_run l).
Proof.
  induction l as [|c l IH] using rev_ind.
  - intros Hf. constructor; cbn; try done; [intros u slot [Hm|[t Hm]]; cbn in Hm; by rewrite lookup_empty in Hm|set_solver|apply NoDup_nil_2].
  - unfold plane_run in *. rewrite foldl_app. cbn [foldl]. intros Hf. apply plane_step_inv; [|done]. apply IH. unfold few_calls in *.
    pose proof (plane_registered (foldl plane_step new_plane l) c). lia.
Qed.

(** C14 (safety): what a dispatch to a device comes to.  In every interleaving of
    dispatches, sessions, answers, timeouts, callers that leave and the watcher: the
    table holds calls of dispatches under way only; each call is sent at most once; a
    dispatch that succeeds returns the answer its own call got, over a session of a
    canonical version; one that reports the target busy or offline sent nothing, so it
    may be tried again; one whose time is up was sent; and none panics or finds its
    sender dropped. *)
Theorem dispatch_outcomes (l : list PlaneChoice) :
  few_calls (dp_hub (plane_run l)) →
  (∀ i e, pd_entries (hb_pending (dp_hub (plane_run l))) !! i = Some e →
     ∃ t x, dp_tasks (plane_run l) !! t = Some x ∧ call_of x = Some i ∧ holds x = true) ∧
  NoDup (dp_sent (plane_run l)) ∧
  (∀ t, dp_tasks (plane_run l) !! t ≠ Some DtPanicked) ∧
  (∀ t c r, dp_tasks (plane_run l) !! t = Some (DtReturned c r) →
     match r with
     | Ok (i, a, version) =>
         c = Some i ∧ i ∈ dp_sent (plane_run l) ∧ pd_waiters (hb_pending (dp_hub (plane_run l))) !! i = Some (Answered a) ∧
         CANONICAL_SESSION_CARRIER_VERSION ≤ version
     | Err (ReplyTimeout i) => c = Some i ∧ i ∈ dp_sent (plane_run l)
     | Err (SessionDisconnected _) => False
     | Err _ => ∀ i, c = Some i → i ∉ dp_sent (plane_run l)
     end).
Proof.
  intros Hf%plane_run_inv. split_and!; [apply Hf|apply Hf|intros t Ht; by apply (pl_tasks _ Hf) in Ht|].
  intros t c r Hx%(pl_tasks _ Hf). destruct c as [i|]; cbn in Hx; destruct r as [[[i' a] v]|[]]; naive_solver.
Qed.
End pending.

(** ** Streamed calls *)

Section streams.
Context {RC : Receipts}.

Record DispatchStreamChunk := mk_Chunk { ch_payload : string; ch_content_type : string }.
Inductive DispatchStreamEvent :=
| Admission (receipt : DispatchReceipt)
| Chunk (c : DispatchStreamChunk)
| Terminal (r : DispatchResult).
Definition is_terminal_event (e : DispatchStreamEvent) : bool := match e with Terminal _ => true | _ => false end.

Inductive StreamDeliver := Delivered | NoMatch | ConsumerStalled.
Inductive StreamDeliveryPolicy := BoundedNoWait | LosslessBackpressure.
Definition CHANNEL_CAPACITY : nat := 32.

(** A call: its target and policy, whether its entry is in the table, its channel, and
    whether its consumer is there; what the consumer took is kept for the proofs. *)
Record StreamCall := mk_Stream {
  st_target : string;
  st_policy : StreamDeliveryPolicy;
  st_entry : bool;
  st_queue : list DispatchStreamEvent;
  st_receiver : bool;
  st_received : list DispatchStreamEvent;
}.

(** A delivery that has the sender: does it wait for room, and which failures take the
    entry out. *)
Record Sending := mk_Sending {
  sd_call_id : Z;
  sd_event : DispatchStreamEvent;
  sd_waits : bool;
  sd_evict_full : bool;
  sd_evict_closed : bool;
}.

Record PendingStreams := mk_Streams {
  sm_calls : gmap Z StreamCall;
  sm_registered : Z;
  sm_sending : gmap nat Sending;
}.
Definition new_streams : PendingStreams := mk_Streams ∅ 0 ∅.

(** The identifiers of streamed calls are odd. *)
Definition stream_call_id (registered : Z) : Z := u64_wrap (Z.lor (u64_wrap (2 * u64_wrap registered)) 1).

Definition register_pending_for_policy (target_ura : string) (policy : StreamDeliveryPolicy) (s : PendingStreams) : PendingStreams :=
  match require_pending_target_ura target_ura with
  | None => s
  | Some target =>
      mk_Streams (<[stream_call_id (sm_registered s) := mk_Stream target policy true [] true []]> (sm_calls s)) (sm_registered s + 1) (sm_sending s)
  end.

Definition remove_entry (id : Z) (s : PendingStreams) : PendingStreams :=
  mk_Streams (alter (λ c, mk_Stream (st_target c) (st_policy c) false (st_queue c) (st_receiver c) (st_received c)) id (sm_calls s))
    (sm_registered s) (sm_sending s).
Definition set_sending (t : nat) (o : option Sending) (s : PendingStreams) : PendingStreams :=
  mk_Streams (sm_calls s) (sm_registered s) (match o with Some x => <[t := x]> (sm_sending s) | None => delete t (sm_sending s) end).
Definition push_event (id : Z) (e : DispatchStreamEvent) (s : PendingStreams) : PendingStreams :=
  mk_Streams (alter (λ c, mk_Stream (st_target c) (st_policy c) (st_entry c) (st_queue c ++ [e]) (st_receiver c) (st_received c)) id (sm_calls s))
    (sm_registered s) (sm_sending s).

(** The entry in the table, if it is there. *)
Definition entry (id : Z) (s : PendingStreams) : option StreamCall :=
  c ← sm_calls s !! id; if st_entry c then Some c else None.

(** The first half of [deliver_chunk] (with [try_push_chunk]), [deliver_admission] and
    [deliver_terminal]; a miss is [NoMatch].  A terminal result takes the entry. *)
Definition deliver_chunk (t : nat) (id : Z) (c : DispatchStreamChunk) (s : PendingStreams) : PendingStreams :=
  match entry id s with
  | None => s
  | Some call =>
      set_sending t (Some (match st_policy call with
        | BoundedNoWait => mk_Sending id (Chunk c) false true true
        | LosslessBackpressure => mk_Sending id (Chunk c) true false true
        end)) s
  end.
Definition deliver_admission (t : nat) (id : Z) (receipt : DispatchReceipt) (s : PendingStreams) : PendingStreams :=
  match entry id s with
  | None => s
  | Some call =>
      set_sending t (Some (match st_policy call with
        | BoundedNoWait => mk_Sending id (Admission receipt) false true false
        | LosslessBackpressure => mk_Sending id (Admission receipt) true false true
        end)) s
  end.
Definition deliver_terminal (t : nat) (id : Z) (r : DispatchResult) (s : PendingStreams) : PendingStreams :=
  match entry id s with
  | None => s
  | Some call =>
      set_sending t (Some (match st_policy call with
        | BoundedNoWait => mk_Sending id (Terminal r) false false false
        | LosslessBackpressure => mk_Sending id (Terminal r) true false false
        end)) (remove_entry id s)
  end.
(** One call of [cancel_for]: the entry goes, then the terminal result is tried. *)
Definition cancel_one (t : nat) (id : Z) (reason : string) (s : PendingStreams) : PendingStreams :=
  match entry id s with
  | None => s
  | Some _ => set_sending t (Some (mk_Sending id (Terminal (cancelled_result reason)) false false false)) (remove_entry id s)
  end.

(** The second half: [try_send], or [send] when there is room; with the answer of the
    delivery, none while it waits. *)
Definition send_step (t : nat) (s : PendingStreams) : PendingStreams * option StreamDeliver :=
  match sm_sending s !! t with
  | None => (s, None)
  | Some x =>
      let done evict := set_sending t None (if evict : bool then remove_entry (sd_call_id x) s else s) in
      match sm_calls s !! sd_call_id x with
      | None => (s, None)
      | Some c =>
          if negb (st_receiver c) then (done (sd_evict_closed x), Some NoMatch)
          else if (length (st_queue c) <? CHANNEL_CAPACITY)%nat then
            (set_sending t None (push_event (sd_call_id x) (sd_event x) s), Some Delivered)
          else if sd_waits x then (s, None)
          else (done (sd_evict_full x), Some ConsumerStalled)
      end
  end.

(** The consumer takes an event; it leaves, its receiver before its entry or after. *)
Definition stream_recv (id : Z) (s : PendingStreams) : PendingStreams :=
  mk_Streams (alter (λ c, match st_queue c with
      | e :: q => if st_receiver c then mk_Stream (st_target c) (st_policy c) (st_entry c) q true (st_received c ++ [e]) else c
      | [] => c
      end) id (sm_calls s)) (sm_registered s) (sm_sending s).
Definition drop_stream_receiver (id : Z) (s : PendingStreams) : PendingStreams :=
  mk_Streams (alter (λ c, mk_Stream (st_target c) (st_policy c) (st_entry c) (st_queue c) false (st_received c)) id (sm_calls s))
    (sm_registered s) (sm_sending s).

(** The task of a session's input is aborted ([SessionInputPump::drop]): a delivery that
    waits for room ends there, its event is lost and nothing is taken out. *)
Definition abort_delivery (t : nat) (s : PendingStreams) : PendingStreams :=
  match sm_sending s !! t with
  | Some x => if sd_waits x then set_sending t None s else s
  | None => s
  end.

Inductive StreamChoice :=
| StreamRegister (target_ura : string) (policy : StreamDeliveryPolicy)
| StreamChunk (t : nat) (id : Z) (c : DispatchStreamChunk)
| StreamAdmission (t : nat) (id : Z) (r : DispatchReceipt)
| StreamTerminal (t : nat) (id : Z) (r : DispatchResult)
| StreamCancel (t : nat) (id : Z) (reason : string)
| StreamSend (t : nat)
| StreamAbort (t : nat)
| StreamRecv (id : Z)
| StreamDropReceiver (id : Z)
| StreamDropEntry (id : Z).
Definition idle (t : nat) (s : PendingStreams) : bool := match sm_sending s !! t with None => true | Some _ => false end.
Definition stream_step (s : PendingStreams) (c : StreamChoice) : PendingStreams :=
  match c with
  | StreamRegister target policy => register_pending_for_policy target policy s
  | StreamChunk t id c => if idle t s then deliver_chunk t id c s else s
  | StreamAdmission t id r => if idle t s then deliver_admission t id r s else s
  | StreamTerminal t id r => if idle t s then deliver_terminal t id r s else s
  | StreamCancel t id reason => if idle t s then cancel_one t id reason s else s
  | StreamSend t => (send_step t s).1
  | StreamAbort t => abort_delivery t s
  | StreamRecv id => stream_recv id s
  | StreamDropReceiver id => drop_stream_receiver id s
  | StreamDropEntry id => remove_entry id s
  end.
Definition stream_run (l : list StreamChoice) : PendingStreams := foldl stream_step new_streams l.

(** ** One terminal result at most *)

(** What was sent to the consumer, in order. *)
Definition sent (c : StreamCall) : list DispatchStreamEvent := st_received c ++ st_queue c.
Definition terminals (c : StreamCall) : nat := length (filter (λ e, is_terminal_event e = true) (sent c)).

Record stream_inv (s : PendingStreams) : Prop := {
  si_ids id c : sm_calls s !! id = Some c → ∃ n, 0 ≤ n < sm_registered s ∧ id = 2 * n + 1;
  si_registered : 0 ≤ sm_registered s;
  si_queue id c : sm_calls s !! id = Some c → (length (st_queue c) ≤ CHANNEL_CAPACITY)%nat;
  si_task t x : sm_sending s !! t = Some x → is_Some (sm_calls s !! sd_call_id x);
  si_entry id c t x : sm_calls s !! id = Some c → st_entry c = true → sm_sending s !! t = Some x → sd_call_id x = id →
    is_terminal_event (sd_event x) = false;
  si_open id c : sm_calls s !! id = Some c → st_entry c = true → terminals c = O;
  si_pending t x c : sm_sending s !! t = Some x → is_terminal_event (sd_event x) = true → sm_calls s !! sd_call_id x = Some c → terminals c = O;
  si_unique t x t' x' : sm_sending s !! t = Some x → sm_sending s !! t' = Some x' → is_terminal_event (sd_event x) = true →
    is_terminal_event (sd_event x') = true → sd_call_id x = sd_call_id x' → t = t';
  si_once id c : sm_calls s !! id = Some c → (terminals c ≤ 1)%nat;
}.

(** A change of one call that keeps what was sent and opens no entry. *)
Lemma alter_inv (f : StreamCall → StreamCall) id s :
  (∀ c, st_entry (f c) = true → st_entry c = true) → (∀ c, terminals (f c) = terminals c) →
  (∀ c, length (st_queue c) ≤ CHANNEL_CAPACITY → length (st_queue (f c)) ≤ CHANNEL_CAPACITY)%nat →
  stream_inv s → stream_inv (mk_Streams (alter f id (sm_calls s)) (sm_registered s) (sm_sending s)).
Proof.
  intros He Ht Hq []. assert (∀ i c, alter f id (sm_calls s) !! i = Some c → ∃ c', sm_calls s !! i = Some c' ∧ terminals c = terminals c' ∧
    (st_entry c = true → st_entry c' = true) ∧ (length (st_queue c') ≤ CHANNEL_CAPACITY → length (st_queue c) ≤ CHANNEL_CAPACITY)%nat) as Ha.
  { intros i c. rewrite lookup_alter. case_decide as E; [|intros Hc; exists c; by split_and!]. subst i. intros (c' & Hc' & ->)%fmap_Some. exists c'. auto. }
  constructor; cbn; try done.
  - intros i c (c' & Hc & _)%Ha. eauto.
  - intros i c (c' & Hc & _ & _ & Hl)%Ha. eauto.
  - intros t x Hx. apply si_task0 in Hx. rewrite lookup_alter. case_decide as E; [|done]. apply fmap_is_Some. by rewrite ?E.
  - intros i c t x (c' & Hc & _ & Hi & _)%Ha Hen. eauto.
  - intros i c (c' & Hc & -> & Hi & _)%Ha Hen. eauto.
  - intros t x c Hx Hte (c' & Hc & -> & _)%Ha. eauto.
  - intros i c (c' & Hc & -> & _)%Ha. eauto.
Qed.

Lemma stream_call_id_small n : 0 ≤ n < 2 ^ 63 → stream_call_id n = 2 * n + 1.
Proof.
  intros Hn. unfold stream_call_id, u64_wrap. rewrite (Z.mod_small n) by lia. rewrite (Z.mod_small (2 * n)) by lia.
  replace (Z.lor (2 * n) 1) with (2 * n + 1); [apply Z.mod_small; lia|].
  rewrite <- Z.add_lor_land. replace (Z.land (2 * n) 1) with 0; [lia|].
  symmetry. apply Z.bits_inj'. intros k Hk. rewrite Z.land_spec, Z.bits_0. destruct (decide (k = 0)) as [-> | Hk0].
  - by rewrite Z.testbit_even_0.
  - rewrite (Z.bits_above_log2 1 k), andb_false_r by (cbn; lia). done.
Qed.

Definition few_streams (s : PendingStreams) : Prop := sm_registered s ≤ 2 ^ 63.

Lemma stream_register_inv target policy s : stream_inv s → few_streams (register_pending_for_policy target policy s) →
  stream_inv (register_pending_for_policy target policy s).
Proof.
  unfold few_streams, register_pending_for_policy. destruct (require_pending_target_ura target) as [u|]; [|done]. cbn. intros [] Hf.
  rewrite stream_call_id_small by lia. set (n := sm_registered s) in *.
  assert (sm_calls s !! (2 * n + 1) = None) as Hnew.
  { destruct (sm_calls s !! (2 * n + 1)) eqn:E; [|done]. apply si_ids0 in E as (m & Hm & Heq). lia. }
  assert (∀ i c, <[2 * n + 1 := mk_Stream u policy true [] true []]> (sm_calls s) !! i = Some c →
    (i = 2 * n + 1 ∧ c = mk_Stream u policy true [] true []) ∨ sm_calls s !! i = Some c) as Hi.
  { intros i c. rewrite lookup_insert. case_decide; naive_solver. }
  assert (∀ t x, sm_sending s !! t = Some x → sd_call_id x ≠ 2 * n + 1) as Hno.
  { intros t x Hx E. apply si_task0 in Hx as [c Hc]. rewrite E in Hc. congruence. }
  constructor; cbn; try done; try lia.
  - intros i c [[-> ->]|Hc]%Hi; [exists n; lia|]. apply si_ids0 in Hc as (m & Hm & ->). exists m. lia.
  - intros i c [[-> ->]|Hc]%Hi; [cbn; lia|eauto].
  - intros t x Hx. rewrite lookup_insert_ne by (symmetry; eauto). eauto.
  - intros i c t x [[-> ->]|Hc]%Hi Hen Hx E; [by apply Hno in Hx|eauto].
  - intros i c [[-> ->]|Hc]%Hi; [done|eauto].
  - intros t x c Hx Hte [[E ->]|Hc]%Hi; [done|eauto].
  - intros i c [[-> ->]|Hc]%Hi; [cbn; lia|eauto].
Qed.

Lemma remove_entry_inv id s : stream_inv s → stream_inv (remove_entry id s).
Proof. apply alter_inv; by intros []. Qed.
Lemma drop_receiver_stream_inv id s : stream_inv s → stream_inv (drop_stream_receiver id s).
Proof. apply alter_inv; by intros []. Qed.
Lemma stream_recv_inv id s : stream_inv s → stream_inv (stream_recv id s).
Proof.
  apply alter_inv; intros [tg p e q r got]; destruct q as [|x q], r; try done; cbn; [|lia].
  unfold terminals, sent. cbn. by rewrite <- app_assoc.
Qed.

(** A delivery begins. *)
Lemma begin_sending_inv t x s : stream_inv s → sm_sending s !! t = None → is_Some (sm_calls s !! sd_call_id x) →
  (is_terminal_event (sd_event x) = true → (∀ c, sm_calls s !! sd_call_id x = Some c → st_entry c = false ∧ terminals c = O) ∧
     ∀ t' x', sm_sending s !! t' = Some x' → sd_call_id x' = sd_call_id x → is_terminal_event (sd_event x') = false) →
  stream_inv (set_sending t (Some x) s).
Proof.
  intros [] Ht Hs Hterm. assert (∀ t' x', <[t := x]> (sm_sending s) !! t' = Some x' → (t' = t ∧ x' = x) ∨ sm_sending s !! t' = Some x') as Hi.
  { intros t' x'. rewrite lookup_insert. case_decide; naive_solver. }
  constructor; cbn; try done.
  - intros t' x' [[-> ->]|Hx]%Hi; eauto.
  - intros i c t' x' Hc Hen [[-> ->]|Hx]%Hi E; [|eauto]. destruct (is_terminal_event (sd_event x)) eqn:Et; [|done].
    destruct (Hterm eq_refl) as [Hcl _]. subst i. apply Hcl in Hc as [Hc _]. congruence.
  - intros t' x' c [[-> ->]|Hx]%Hi Et Hc; [|eauto]. by apply Hterm.
  - intros t1 x1 t2 x2 [[-> ->]|H1]%Hi [[-> ->]|H2]%Hi E1 E2 Eid; [done|..|eauto].
    + destruct (Hterm E1) as [_ Hn]. apply Hn in H2; [|done]. congruence.
    + destruct (Hterm E2) as [_ Hn]. apply Hn in H1; [|done]. congruence.
Qed.
Lemma entry_Some id c s : entry id s = Some c ↔ sm_calls s !! id = Some c ∧ st_entry c = true.
Proof.
  unfold entry. destruct (sm_calls s !! id) as [c'|]; cbn; [|by split; [|intros [? _]]].
  destruct (st_entry c') eqn:E; split; try done; [by intros [= <-]|by intros [[= ->] _]|intros [[= ->] ?]; congruence].
Qed.

Lemma take_terminal_inv t x c s : stream_inv s → sm_sending s !! t = None → entry (sd_call_id x) s = Some c →
  stream_inv (set_sending t (Some x) (remove_entry (sd_call_id x) s)).
Proof.
  intros H Ht [Hc Hen]%entry_Some. apply begin_sending_inv; [by apply remove_entry_inv|done|..]; cbn; rewrite lookup_alter_eq, Hc; [done|].
  intros _. split.
  - intros c' [= <-]. split; [done|]. apply (si_open _ H _ c Hc Hen).
  - intros t' x' Hx' E. by apply (si_entry _ H _ c t' x' Hc Hen Hx' E).
Qed.

Lemma end_sending_inv t s : stream_inv s → stream_inv (set_sending t None s).
Proof.
  intros []. assert (∀ t' x', delete t (sm_sending s) !! t' = Some x' → sm_sending s !! t' = Some x') as Hd by (intros t' x'; rewrite lookup_delete_Some; by intros [_ ?]).
  constructor; cbn; eauto.
Qed.
Lemma push_inv t x c s : stream_inv s → sm_sending s !! t = Some x → sm_calls s !! sd_call_id x = Some c →
  (length (st_queue c) < CHANNEL_CAPACITY)%nat → stream_inv (set_sending t None (push_event (sd_call_id x) (sd_event x) s)).
Proof.
  intros H Hx Hc Hlt. set (c1 := mk_Stream (st_target c) (st_policy c) (st_entry c) (st_queue c ++ [sd_event x]) (st_receiver c) (st_received c)).
  assert (terminals c1 = terminals c + if is_terminal_event (sd_event x) then 1 else 0)%nat as Hterm.
  { unfold terminals, sent, c1. cbn. rewrite app_assoc, filter_app, length_app. f_equal. rewrite filter_cons. by destruct (is_terminal_event (sd_event x)); case_decide. }
  assert (∀ i d, sm_calls (push_event (sd_call_id x) (sd_event x) s) !! i = Some d → (i = sd_call_id x ∧ d = c1) ∨ (i ≠ sd_call_id x ∧ sm_calls s !! i = Some d)) as Hi.
  { intros i d. cbn. rewrite lookup_alter. case_decide as E; [subst i; rewrite Hc; cbn; intros [= <-]; by left|intros; by right]. }
  assert (∀ t' x', delete t (sm_sending s) !! t' = Some x' → t' ≠ t ∧ sm_sending s !! t' = Some x') as Hd by (intros t' x'; rewrite lookup_delete_Some; naive_solver).
  destruct H. constructor; cbn -[push_event]; try done.
  - intros i d [[-> ->]|[_ Hid]]%Hi; eauto.
  - intros i d [[-> ->]|[_ Hid]]%Hi; [unfold c1; cbn; rewrite length_app; cbn; lia|eauto].
  - intros t' x' [_ Hx']%Hd. apply si_task0 in Hx'. cbn. rewrite lookup_alter. case_decide as E; [|done]. apply fmap_is_Some. by rewrite ?E.
  - intros i d t' x' [[-> ->]|[_ Hid]]%Hi Hen [_ Hx']%Hd E; eauto.
  - intros i d [[-> ->]|[_ Hid]]%Hi Hen; [|eauto]. rewrite Hterm, (si_open0 _ c Hc Hen), (si_entry0 _ c t x Hc Hen Hx eq_refl). done.
  - intros t' x' d [Hne Hx']%Hd Et [[E ->]|[_ Hid]]%Hi; [|eauto]. rewrite Hterm, (si_pending0 t' x' c Hx' Et) by (by rewrite E).
    destruct (is_terminal_event (sd_event x)) eqn:Ex; [|done]. destruct Hne. by eapply si_unique0.
  - intros t1 x1 t2 x2 [_ H1]%Hd [_ H2]%Hd. eauto.
  - intros i d [[-> ->]|[_ Hid]]%Hi; [|eauto]. rewrite Hterm. destruct (is_terminal_event (sd_event x)) eqn:Ex; [rewrite (si_pending0 t x c Hx Ex Hc); lia|].
    apply si_once0 in Hc. lia.
Qed.

Lemma send_step_inv t s : stream_inv s → stream_inv (send_step t s).1.
Proof.
  intros H. unfold send_step. destruct (sm_sending s !! t) as [x|] eqn:Hx; [|done]. destruct (sm_calls s !! sd_call_id x) as [c|] eqn:Hc; [|done].
  assert (∀ b : bool, stream_inv (if b then remove_entry (sd_call_id x) s else s)) as Hev by (intros []; [by apply remove_entry_inv|done]).
  destruct (negb _); [by apply end_sending_inv|]. destruct (Nat.ltb_spec (length (st_queue c)) CHANNEL_CAPACITY); [by eapply push_inv|].
  destruct (sd_waits x); [done|by apply end_sending_inv].
Qed.

Lemma abort_inv t s : stream_inv s → stream_inv (abort_delivery t s).
Proof. intros H. unfold abort_delivery. repeat case_match; [by apply end_sending_inv|done..]. Qed.

Lemma deliver_inv t id c x s : stream_inv s → idle t s = true → entry id s = Some c → sd_call_id x = id → is_terminal_event (sd_event x) = false →
  stream_inv (set_sending t (Some x) s).
Proof.
  intros H Ht [Hc _]%entry_Some E Et. apply begin_sending_inv; [done| |rewrite E, Hc; by eexists|congruence].
  unfold idle in Ht. by destruct (sm_sending s !! t).
Qed.
Lemma stream_step_inv s c : stream_inv s → few_streams (stream_step s c) → stream_inv (stream_step s c).
Proof.
  intros H Hf. destruct c; cbn [stream_step] in *; [by apply stream_register_inv|..|by apply send_step_inv|by apply abort_inv|by apply stream_recv_inv|by apply drop_receiver_stream_inv|by apply remove_entry_inv].
  - destruct (idle t s) eqn:Ht; [|done]. unfold deliver_chunk. destruct (entry id s) as [call|] eqn:He; [|done].
    destruct (st_policy call); by eapply deliver_inv.
  - destruct (idle t s) eqn:Ht; [|done]. unfold deliver_admission. destruct (entry id s) as [call|] eqn:He; [|done].
    destruct (st_policy call); by eapply deliver_inv.
  - destruct (idle t s) eqn:Ht; [|done]. unfold idle in Ht. unfold deliver_terminal. destruct (entry id s) as [call|] eqn:He; [|done].
    destruct (sm_sending s !! t) eqn:Hs; [done|]. destruct (st_policy call); by eapply (take_terminal_inv t (mk_Sending id _ _ _ _)).
  - destruct (idle t s) eqn:Ht; [|done]. unfold idle in Ht. unfold cancel_one. destruct (entry id s) as [call|] eqn:He; [|done].
    destruct (sm_sending s !! t) eqn:Hs; [done|]. by eapply (take_terminal_inv t (mk_Sending id _ _ _ _)).
Qed.
Lemma stream_step_registered s c : sm_registered s ≤ sm_registered (stream_step s c).
Proof.
  destruct c; cbn; try lia.
  - unfold register_pending_for_policy. case_match; cbn; lia.
  - unfold deliver_chunk. repeat case_match; cbn; lia.
  - unfold deliver_admission. repeat case_match; cbn; lia.
  - unfold deliver_terminal. repeat case_match; cbn; lia.
  - unfold cancel_one. repeat case_match; cbn; lia.
  - unfold send_step. destruct (sm_sending s !! t) as [x|]; [|cbn; lia]. destruct (sm_calls s !! sd_call_id x); [|cbn; lia].
    destruct (negb _); [destruct (sd_evict_closed x); cbn; lia|]. destruct (_ <? _)%nat; [cbn; lia|]. destruct (sd_waits x); [cbn; lia|].
    destruct (sd_evict_full x); cbn; lia.
  - unfold abort_delivery. repeat case_match; cbn; lia.
Qed.
Lemma stream_run_inv l : few_streams (stream_run l) → stream_inv (stream_run l).
Proof.
  induction l as [|c l IH] using rev_ind.
  - intros _. constructor; cbn; try done; try lia; intros *; by rewrite lookup_empty.
  - unfold stream_run in *. rewrite foldl_app. cbn [foldl]. intros Hf. apply stream_step_inv; [|done]. apply IH. unfold few_streams in *.
    pose proof (stream_step_registered (foldl stream_step new_streams l) c). lia.
Qed.

(** *** What is sent stays, and a delivery that waits is kept *)

(** After some steps a call whose consumer is there has been sent more, and a delivery
    of thread [t] that waits for room in its channel still waits or is among it. *)
Definition kept (id : Z) (s s' : PendingStreams) (aborted : nat → Prop) : Prop :=
  ∀ d, sm_calls s !! id = Some d → st_receiver d = true →
    ∃ d' added, sm_calls s' !! id = Some d' ∧ st_receiver d' = true ∧ sent d' = sent d ++ added ∧
      ∀ t x, sm_sending s !! t = Some x → sd_call_id x = id → sd_waits x = true → ¬ aborted t →
        sm_sending s' !! t = Some x ∨ sd_event x ∈ added.

Lemma kept_trans id s1 s2 s3 (A B : nat → Prop) : kept id s1 s2 A → kept id s2 s3 B → kept id s1 s3 (λ t, A t ∨ B t).
Proof.
  intros H1 H2 d Hd Hr. destruct (H1 d Hd Hr) as (d1 & a1 & Hd1 & Hr1 & E1 & K1). destruct (H2 d1 Hd1 Hr1) as (d2 & a2 & Hd2 & Hr2 & E2 & K2).
  exists d2, (a1 ++ a2). split_and!; [done..|by rewrite E2, E1, app_assoc|]. intros t x Hx Hi Hw Hn.
  destruct (K1 t x Hx Hi Hw) as [Hx1|?]; [tauto| |set_solver]. destruct (K2 t x Hx1 Hi Hw); [tauto|by left|set_solver].
Qed.

(** A change of calls that keeps what was sent, of the table of deliveries at a thread
    that has none, and both. *)
Lemma kept_calls id s s' : (∀ t x, sm_sending s !! t = Some x → sm_sending s' !! t = Some x) →
  (∀ d, sm_calls s !! id = Some d → st_receiver d = true → ∃ d', sm_calls s' !! id = Some d' ∧ st_receiver d' = true ∧ sent d' = sent d) →
  kept id s s' (λ _, False).
Proof.
  intros Ht Hc d Hd Hr. destruct (Hc d Hd Hr) as (d' & Hd' & Hr' & E). exists d', []. rewrite app_nil_r. split_and!; [done..|]. intros t x Hx _ _ _. left. eauto.
Qed.
Lemma alter_kept (f : StreamCall → StreamCall) i id s s' : sm_sending s' = sm_sending s → sm_calls s' = alter f i (sm_calls s) →
  (∀ d, i = id → st_receiver d = true → st_receiver (f d) = true ∧ sent (f d) = sent d) → kept id s s' (λ _, False).
Proof.
  intros Hs Hc Hf. apply kept_calls; [by rewrite Hs|]. intros d Hd Hr. rewrite Hc, lookup_alter. case_decide as E; [|by exists d].
  subst i. rewrite Hd. cbn. destruct (Hf d eq_refl Hr). by exists (f d).
Qed.
Lemma remove_entry_kept i id s : kept id s (remove_entry i s) (λ _, False).
Proof. eapply alter_kept; [done|done|]. done. Qed.
Lemma idle_kept id t x s s' : idle t s = true → kept id s s' (λ _, False) → sm_sending s' = sm_sending s → kept id s (set_sending t (Some x) s') (λ _, False).
Proof.
  intros Hi Hk Hs d Hd Hr. destruct (Hk d Hd Hr) as (d' & a & Hd' & Hr' & E & K). exists d', a. split_and!; [done..|]. intros t' x' Hx Hc Hw Hn.
  destruct (K t' x' Hx Hc Hw Hn) as [Hx'|?]; [|by right]. left. cbn. rewrite lookup_insert_ne; [done|]. intros <-. unfold idle in Hi. by rewrite Hx in Hi.
Qed.

Lemma send_kept id t s : kept id s (send_step t s).1 (λ _, False).
Proof.
  assert (kept id s s (λ _, False)) as Hsame by (apply kept_calls; eauto). unfold send_step.
  destruct (sm_sending s !! t) as [x|] eqn:Hx; [|done]. destruct (sm_calls s !! sd_call_id x) as [c|] eqn:Hc; [|done].
  assert (∀ b : bool, (sd_waits x = true → sd_call_id x = id → st_receiver c = true → False) →
    kept id s (set_sending t None (if b then remove_entry (sd_call_id x) s else s)) (λ _, False)) as Hend.
  { intros b Hno d Hd Hr. assert (kept id s (if b then remove_entry (sd_call_id x) s else s) (λ _, False)) as Hb by (destruct b; [apply remove_entry_kept|done]).
    destruct (Hb d Hd Hr) as (d' & a & Hd' & Hr' & E & K). exists d', a. split_and!; [by destruct b|done..|]. intros t' x' Hx' Hi Hw Hn.
    destruct (decide (t = t')) as [<- | Hne]; [exfalso; simplify_eq; eauto|]. destruct (K t' x' Hx' Hi Hw Hn) as [Hk|?]; [|by right]. left. cbn. by rewrite lookup_delete_ne. }
  destruct (st_receiver c) eqn:Hrc; cbn [negb]; [|apply Hend; intros ? <- ?; congruence]. destruct (_ <? _)%nat.
  - intros d Hd Hr. cbn. rewrite lookup_alter. destruct (decide (sd_call_id x = id)) as [E|E].
    + assert (d = c) as -> by congruence. exists (mk_Stream (st_target c) (st_policy c) (st_entry c) (st_queue c ++ [sd_event x]) (st_receiver c) (st_received c)), [sd_event x].
      rewrite E, Hd. cbn. split_and!; [done|done|unfold sent; cbn; by rewrite app_assoc|]. intros t' x' Hx' _ _ _.
      destruct (decide (t = t')) as [<- | Hne]; [right; simplify_eq; set_solver|left; by rewrite lookup_delete_ne].
    + exists d, []. rewrite app_nil_r. split_and!; [done..|]. intros t' x' Hx' Hi _ _. left. rewrite lookup_delete_ne; [done|congruence].
  - destruct (sd_waits x) eqn:Hw; [done|]. by apply Hend.
Qed.

Lemma step_kept id s c : stream_inv s → few_streams (stream_step s c) → c ≠ StreamDropReceiver id →
  kept id s (stream_step s c) (λ t, c = StreamAbort t).
Proof.
  intros H Hf Hn. assert (kept id s s (λ _, False)) as Hsame by (apply kept_calls; eauto).
  assert (∀ s' (A : nat → Prop), kept id s s' (λ _, False) → kept id s s' A) as Hw.
  { intros s' A Hk d Hd Hr. destruct (Hk d Hd Hr) as (d' & a & ? & ? & ? & K). exists d', a. naive_solver. }
  destruct c as [target policy|t i ch|t i rc|t i rs|t i reason|t|t|i|i|i]; cbn [stream_step] in *;
    [apply Hw..| |apply Hw|apply Hw|apply Hw].
  - unfold register_pending_for_policy in *. destruct (require_pending_target_ura target); [|done]. apply kept_calls; [done|]. intros d Hd Hr. exists d. cbn. rewrite lookup_insert_ne; [done|].
    destruct (si_ids _ H id d Hd) as (n & Hb & ->). unfold few_streams in Hf. cbn in Hf. rewrite stream_call_id_small; lia.
  - destruct (idle t s) eqn:Hi; [|done]. unfold deliver_chunk. destruct (entry i s); [|done]. by apply (idle_kept _ _ _ _ s).
  - destruct (idle t s) eqn:Hi; [|done]. unfold deliver_admission. destruct (entry i s); [|done]. by apply (idle_kept _ _ _ _ s).
  - destruct (idle t s) eqn:Hi; [|done]. unfold deliver_terminal. destruct (entry i s); [|done]. apply idle_kept; [done|apply remove_entry_kept|done].
  - destruct (idle t s) eqn:Hi; [|done]. unfold cancel_one. destruct (entry i s); [|done]. apply idle_kept; [done|apply remove_entry_kept|done].
  - apply send_kept.
  - unfold abort_delivery. destruct (sm_sending s !! t) as [x|] eqn:Hx; [|by apply Hw]. destruct (sd_waits x); [|by apply Hw].
    intros d Hd Hr. exists d, []. rewrite app_nil_r. split_and!; [done..|]. intros t' x' Hx' _ _ Hna. left. cbn. rewrite lookup_delete_ne; [done|intros <-; by apply Hna].
  - eapply alter_kept; [done|done|]. intros d -> Hr. destruct (st_queue d) as [|e q] eqn:Hq; [done|]. rewrite Hr. split; [done|]. unfold sent. cbn. rewrite Hq, <- app_assoc. done.
  - eapply alter_kept; [done|done|]. intros d ->. by destruct Hn.
  - apply remove_entry_kept.
Qed.
Lemma run_kept id k s : stream_inv s → few_streams (foldl stream_step s k) → StreamDropReceiver id ∉ k →
  kept id s (foldl stream_step s k) (λ t, StreamAbort t ∈ k).
Proof.
  revert s. induction k as [|c k IH]; intros s H Hf Hn; [intros d Hd Hr; exists d, []; rewrite app_nil_r; auto|]. cbn [foldl] in *. apply not_elem_of_cons in Hn as [Hc Hk].
  assert (few_streams (stream_step s c)) as Hf1.
  { unfold few_streams in *. assert (∀ l s0, sm_registered s0 ≤ sm_registered (foldl stream_step s0 l)) as Hm; [|specialize (Hm k (stream_step s c)); lia].
    induction l as [|c0 l IHl]; intros s0; cbn; [lia|]. pose proof (stream_step_registered s0 c0). specialize (IHl (stream_step s0 c0)). lia. }
  pose proof (kept_trans id _ _ _ _ _ (step_kept id s c H Hf1 (not_eq_sym Hc)) (IH _ (stream_step_inv s c H Hf1) Hf Hk)) as Ht.
  intros d Hd Hr. destruct (Ht d Hd Hr) as (d' & a & ? & ? & ? & K). exists d', a. split_and!; [done..|]. intros t x Hx Hi Hw Hna. apply K; [done..|]. set_solver.
Qed.

(** The consumer makes room, and with room a delivery goes through. *)
Lemma recv_room id c s : sm_calls s !! id = Some c → st_receiver c = true → (length (st_queue c) ≤ CHANNEL_CAPACITY)%nat →
  ∃ c1, sm_calls (stream_recv id s) !! id = Some c1 ∧ st_receiver c1 = true ∧ sent c1 = sent c ∧ (length (st_queue c1) < CHANNEL_CAPACITY)%nat.
Proof.
  intros Hc Hr Hq. cbn. rewrite lookup_alter_eq, Hc. cbn. eexists. split; [done|]. unfold sent. destruct (st_queue c) as [|e q] eqn:Eq.
  - rewrite Eq. split_and!; [done|done|]. unfold CHANNEL_CAPACITY. cbn. lia.
  - rewrite Hr. cbn in *. rewrite <- app_assoc. split_and!; [done|done|lia].
Qed.
Lemma send_room t x c s : sm_sending s !! t = Some x → sm_calls s !! sd_call_id x = Some c → st_receiver c = true → (length (st_queue c) < CHANNEL_CAPACITY)%nat →
  ∃ c', sm_calls (send_step t s).1 !! sd_call_id x = Some c' ∧ sent c' = sent c ++ [sd_event x].
Proof.
  intros Hx Hc Hr Hq. unfold send_step. rewrite Hx, Hc, Hr, (proj2 (Nat.ltb_lt _ _) Hq). cbn. rewrite lookup_alter_eq, Hc. cbn.
  eexists. split; [done|]. unfold sent. cbn. by rewrite app_assoc.
Qed.

(** C34 (safety): a streamed call gets at most one terminal result.  In every
    interleaving of the sessions' drains, their aborts, the consumers, callers that
    leave and cancellations, of fewer than 2^63 calls: what was sent to a call's
    consumer holds at most one terminal result, and none while the call's entry is in
    the table; at most 32 events wait in its channel; and a delivery that waits for room
    is lost only with the consumer or by an abort of its session's drain: through any
    steps without these it waits or its event was sent, after what was sent before, and
    it goes through once the consumer takes an event. *)
Theorem one_terminal_result (l k : list StreamChoice) (id : Z) (c : StreamCall) :
  few_streams (stream_run (l ++ k)) → sm_calls (stream_run l) !! id = Some c →
  (terminals c ≤ 1)%nat ∧ (st_entry c = true → terminals c = O) ∧ (length (st_queue c) ≤ CHANNEL_CAPACITY)%nat ∧
  (∀ t x, sm_sending (stream_run l) !! t = Some x → sd_call_id x = id → sd_waits x = true → st_receiver c = true →
     (StreamDropReceiver id ∉ k → StreamAbort t ∉ k →
        sm_sending (stream_run (l ++ k)) !! t = Some x ∨
        ∃ c' added, sm_calls (stream_run (l ++ k)) !! id = Some c' ∧ sent c' = sent c ++ added ∧ sd_event x ∈ added) ∧
     (∃ c', sm_calls (stream_run (l ++ [StreamRecv id; StreamSend t])) !! id = Some c' ∧ sent c' = sent c ++ [sd_event x])).
Proof.
  intros Hf Hc. assert (stream_run (l ++ k) = foldl stream_step (stream_run l) k) as E by (unfold stream_run; by rewrite foldl_app).
  assert (stream_inv (stream_run l)) as H.
  { apply stream_run_inv. rewrite E in Hf. unfold few_streams in *. revert Hf. generalize (stream_run l). clear. induction k as [|c0 k IH]; intros s Hf; [done|].
    pose proof (stream_step_registered s c0). apply IH in Hf. lia. }
  split_and!; [by eapply si_once|by eapply si_open|by eapply si_queue|]. intros t x Hx Hid Hw Hr. split.
  - intros Hd Ha. rewrite E in *. destruct (run_kept id k _ H Hf Hd c Hc Hr) as (c' & added & Hc' & _ & Es & K).
    destruct (K t x Hx Hid Hw Ha) as [?|?]; [by left|right; by exists c', added].
  - unfold stream_run. rewrite foldl_app. fold (stream_run l). cbn [foldl stream_step].
    destruct (recv_room id c (stream_run l) Hc Hr (si_queue _ H id c Hc)) as (c1 & Hc1 & Hr1 & <- & Hq1). subst id. by apply send_room.
Qed.
End streams.
