(* ===== verification/SessionSamples.v ===== *)
(** * Concrete sessions

    Frames, addresses and receipts for the components of sessions: the properties of
    presence and of the tables of calls at concrete runs, and runs that show what the
    components do when calls overlap, a channel is full, a watcher lags or a call gets
    more input than it takes. *)

From Stdlib Require Import String Ascii.
From S2P Require Import Prelude RustStd Text Ura Programs World Retry.
From S2P Require Import SessionWire Presence FrameScheduler DeviceSession LiveSession Cancellation PendingDispatch.
From S2P Require Import AdmissionSamples.

Open Scope Z_scope.

#[local] Existing Instances sample_ura.

(** ** Frames *)

(** A frame as its number and the data of its chunk. *)
Definition sample_frames : DownFrames := {|
  InvokeBidiDown := Z * option string;
  down_sequence f := f.1;
  binary_chunk f := f.2;
  session_established f := match f.2 with None => Some 3 | Some _ => None end;
|}.
#[local] Existing Instance sample_frames.

Definition input_of (call_id : Z) (payload : string) : option string :=
  match encode_carrier_bidi_input call_id "text/plain" payload false with Ok frame => Some frame | Err _ => None end.

Example input_reads_back :
  match input_of 7 "hello" with
  | Some frame => decode_carrier_bidi_input frame = Ok (Some (mk_CarrierBidiInput 7 "text/plain" "hello" false))
  | None => False
  end.
Proof. vm_compute. reflexivity. Qed.

(** The contract, then input of two calls: the second call is handled while the first
    stalls, and the first's inputs wait in order. *)
Definition two_calls : list LiveChoice :=
  [Down (0, None); ReaderInline (Ok tt);
   Down (1, input_of 7 "a"); ReaderStep; ReaderStep; Down (2, input_of 7 "b"); ReaderStep; ReaderStep;
   Down (3, input_of 8 "c"); ReaderStep; ReaderStep; ActorRecv; ActorRecv; ActorRecv; ActorComplete 1 (Ok tt); ActorGoes; ActorGoes; ActorGoes].
Example two_calls_run :
  let v := run_live_session two_calls in
  canonical_carrier v = true ∧ lv_result v = None ∧
  (sf_call_id <$> finished (lv_sched v)) = [8] ∧ (sf_call_id <$> sc_in_flight (lv_sched v)) = [7] ∧ length (pend 7 (lv_sched v)) = 1%nat.
Proof. vm_compute. split_and!; reflexivity. Qed.

(** The 65th input of a call that takes none ends the session of all calls. *)
Definition burst (n : nat) : list LiveChoice :=
  mjoin ((λ i, [Down (Z.of_nat i, input_of 7 "x"); ReaderStep; ReaderStep]) <$> seq 0 n).
Example burst_ends_session :
  lv_result (run_live_session (burst 64)) = None ∧
  lv_result (run_live_session (burst 65)) = Some (Err Supervisor.DownFrameSchedulerSaturated).
Proof. vm_compute. split; reflexivity. Qed.

(** A frame out of order ends it too. *)
Example gap_ends_session : lv_result (run_live_session [Down (1, None)]) = Some (Err (Supervisor.DownStreamSequence 0 1)).
Proof. vm_compute. reflexivity. Qed.

(** ** The supervisor *)

Definition refused_dial : Supervisor.SessionDialAttempt :=
  Supervisor.mk_Dial (Err Supervisor.ConnectFailed) (Ok tt) None Supervisor.PreludeSkipped Supervisor.PreludeSkipped (Ok tt) 0
    (Err Supervisor.DownStreamError).
Definition long_session : Supervisor.SessionDialAttempt :=
  Supervisor.mk_Dial (Ok tt) (Ok tt) None Supervisor.PreludeSkipped Supervisor.PreludeSkipped (Ok tt) 1
    (Ok (Supervisor.mk_CloseStats (60000 * Supervisor.ms) 12)).
(** Eight refusals reach the cap; a session that was up for a minute starts over. *)
Example curve_run :
  Supervisor.sv_backoff (Supervisor.run_session_supervisor (λ _, true) (Supervisor.uncancelled (replicate 8 (refused_dial, 5)))) = 30000 * Supervisor.ms ∧
  Supervisor.sv_backoff (Supervisor.run_session_supervisor (λ _, true) (Supervisor.uncancelled (replicate 8 (refused_dial, 5) ++ [(long_session, 0)]))) = 500 * Supervisor.ms.
Proof. vm_compute. split; reflexivity. Qed.
(** Cancelled while its session is live, the supervisor leaves the device shown as
    connected. *)
Example cancelled_live_shows_connected :
  let s := Supervisor.run_session_supervisor (λ _, true) [(long_session, Supervisor.CancelledAfter 5)] in
  Supervisor.sv_running s = false ∧ Supervisor.tr_phase (Supervisor.sv_tracker s) = Supervisor.Idle ∧
  Supervisor.shown s = Some Supervisor.ConnectedOnline.
Proof. vm_compute. split_and!; reflexivity. Qed.
(** When the store fails after a session was shown, the device stays shown as connected
    through the attempts that are refused. *)
Example failing_store_shows_connected :
  let s := Supervisor.run_session_supervisor (λ n, n =? 0)%nat (Supervisor.uncancelled [(long_session, 0); (refused_dial, 0)]) in
  Supervisor.sv_running s = true ∧ Supervisor.tr_phase (Supervisor.sv_tracker s) = Supervisor.Backoff ∧
  Supervisor.shown s = Some Supervisor.ConnectedOnline.
Proof. vm_compute. split_and!; reflexivity. Qed.

(** ** Presence *)

Definition phone : string := "easynet:///r/home/device/phone".
Definition contract : SessionContract := mk_Contract 3 "0123456789abcdef".
Definition opens (t : nat) (sender : DispatchSender) : list PresenceChoice :=
  [Call t (InsertNegotiatedWithTrust phone sender contract (mk_Trust None)); GoOn t; GoOn t; GoOn t; GoOn t].

(** The first session's task removes with its number after the second session has
    replaced it. *)
Definition reopened : list PresenceChoice := opens 0 10%nat ++ opens 1 11%nat.
Lemma stale_removal_witness :
  by_ura (presence_run reopened) !! phone = Some (Dispatch 2 11%nat contract (mk_Trust None)) ∧
  by_ura (presence_step (presence_run reopened) (Call 2 (RemoveIfSession phone 1 StreamReset))) !! phone =
    Some (Dispatch 2 11%nat contract (mk_Trust None)).
Proof.
  assert (by_ura (presence_run reopened) !! phone = Some (Dispatch 2 11%nat contract (mk_Trust None))) as H by (vm_compute; reflexivity).
  split; [exact H|].
  assert (sessions_opened (reopened ++ []) < 2 ^ 64 - 2) as Hb by (vm_compute; reflexivity).
  apply (proj2 (stale_removal_harmless reopened [] (Call 2 (RemoveIfSession phone 1 StreamReset)) phone phone _ (Dispatch 2 11%nat contract (mk_Trust None)) Hb H)).
  intros [_ E]. discriminate E.
Defined.

(** An insert and a removal that overlap: the events say the device is online. *)
Example overlapping_events :
  let s := presence_run (overlap phone) in
  pe_tasks s = ∅ ∧ presence_contains phone s = false ∧ pe_events s = [Offline phone SendFailed; Online phone].
Proof. vm_compute. split_and!; reflexivity. Qed.

(** ** Calls *)

Definition sample_receipts : Receipts := {| DispatchReceipt := string |}.
#[local] Existing Instance sample_receipts.

(** A call waits for the phone, whose session is reset. *)
Definition phone_lost : list HubChoice :=
  (HubPresence <$> opens 0 10%nat) ++ [HubRegister phone; HubPresence (Call 1 (Remove phone StreamReset)); HubPresence (GoOn 1)].
Lemma offline_calls_witness :
  ∃ n, pd_waiters (hb_pending (watches n (hub_run phone_lost))) !! 0 = Some (Answered (cancelled_result "target_offline")).
Proof.
  apply (offline_calls_fail phone_lost 0 phone 1 1 StreamReset).
  - unfold few_calls. vm_compute. discriminate.
  - vm_compute. reflexivity.
  - apply Nat.leb_le. vm_compute. reflexivity.
  - vm_compute. reflexivity.
  - vm_compute. reflexivity.
  - lia.
  - vm_compute. reflexivity.
Defined.

(** A watcher that is more than 1024 events behind returns, and answers nobody again. *)
Definition reconnects (n : nat) : list HubChoice := mjoin (replicate n (HubPresence <$> opens 0 10%nat ++ [GoOn 0])).
Example lagging_watcher_stops :
  let s := hub_run (reconnects 600 ++ [HubWatch; HubRegister phone; HubPresence (Call 1 (Remove phone StreamReset)); HubPresence (GoOn 1)]) in
  hb_watching s = false ∧ hub_step s HubWatch = s ∧ pd_waiters (hb_pending s) !! 0 = Some Waiting.
Proof. vm_compute. split_and!; reflexivity. Qed.

(** A call of the phone that is answered. *)
Definition answer : DispatchResult := mk_DispatchResult "pong" "text/plain" None None None None None.
Definition ping : list PlaneChoice :=
  PlaneOpen 10%nat :: (PlanePresence <$> opens 0 10%nat) ++
  [PlaneDispatch 0 phone false; PlaneStep 0 (Ok tt) 9; PlaneStep 0 (Ok tt) 9; PlaneStep 0 (Ok tt) 9; PlaneTake 10%nat; PlaneComplete 0 answer;
   PlaneStep 0 (Ok tt) 9].
Lemma dispatch_outcomes_witness :
  dp_tasks (plane_run ping) !! 0%nat = Some (DtReturned (Some 0) (Ok (0, answer, 3))) ∧
  (0 ∈ dp_sent (plane_run ping)) ∧ pd_waiters (hb_pending (dp_hub (plane_run ping))) !! 0 = Some (Answered answer).
Proof.
  destruct (dispatch_outcomes ping) as (_ & _ & _ & H); [unfold few_calls; vm_compute; discriminate|].
  assert (dp_tasks (plane_run ping) !! 0%nat = Some (DtReturned (Some 0) (Ok (0, answer, 3)))) as Ht by (vm_compute; reflexivity).
  split; [exact Ht|]. destruct (H 0%nat _ _ Ht) as (_ & Hs & Ha & _). split; [exact Hs|exact Ha].
Defined.

(** The session ends between the lookup and the registration, and its channel still
    takes the frame: the watcher has seen the event, and the call waits on. *)
Definition late_registration : list PlaneChoice :=
  PlaneOpen 10%nat :: (PlanePresence <$> opens 0 10%nat) ++
  [PlaneDispatch 0 phone false; PlaneStep 0 (Ok tt) 9; PlanePresence (Call 1 (Remove phone StreamReset)); PlanePresence (GoOn 1); PlanePresence (GoOn 1);
   PlaneWatch; PlaneWatch; PlaneStep 0 (Ok tt) 9; PlaneStep 0 (Ok tt) 9; PlaneClose 10%nat].
Example late_registration_waits :
  let s := plane_run late_registration in
  dp_tasks s !! 0%nat = Some (DtAwait 0 3) ∧ presence_contains phone (hb_presence (dp_hub s)) = false ∧
  plane_step s PlaneWatch = s ∧ plane_step s (PlaneStep 0 (Ok tt) 9) = s.
Proof. vm_compute. split_and!; reflexivity. Qed.

(** A streamed call: admission, a chunk, the result, taken in order. *)
Definition streamed : list StreamChoice :=
  [StreamRegister phone LosslessBackpressure; StreamAdmission 0 1 "admitted"; StreamSend 0; StreamChunk 0 1 (mk_Chunk "data" "text/plain"); StreamSend 0;
   StreamRecv 1; StreamTerminal 0 1 (cancelled_result "target_offline"); StreamSend 0].
Example streamed_once : (terminals <$> sm_calls (stream_run streamed) !! 1) = Some 1%nat.
Proof. vm_compute. reflexivity. Qed.
(** A delivery to a full channel waits through a step of its own and one of the session
    that ends, and is sent when the consumer has taken an event. *)
Definition waiting : list StreamChoice :=
  StreamRegister phone LosslessBackpressure :: mjoin (replicate 32 [StreamChunk 0 1 (mk_Chunk "x" "text/plain"); StreamSend 0]) ++
  [StreamChunk 0 1 (mk_Chunk "last" "text/plain")].
Lemma one_terminal_witness : ∃ c x, sm_calls (stream_run waiting) !! 1 = Some c ∧ sm_sending (stream_run waiting) !! 0%nat = Some x ∧
  (length (st_queue c) ≤ CHANNEL_CAPACITY)%nat ∧
  (sm_sending (stream_run (waiting ++ [StreamSend 0; StreamAbort 1])) !! 0%nat = Some x ∨
   ∃ c' added, sm_calls (stream_run (waiting ++ [StreamSend 0; StreamAbort 1])) !! 1 = Some c' ∧ sent c' = sent c ++ added ∧ sd_event x ∈ added) ∧
  ∃ c', sm_calls (stream_run (waiting ++ [StreamRecv 1; StreamSend 0])) !! 1 = Some c' ∧ sent c' = sent c ++ [sd_event x].
Proof.
  destruct (sm_calls (stream_run waiting) !! 1) as [c|] eqn:Hc; [|exfalso; revert Hc; vm_compute; discriminate].
  destruct (sm_sending (stream_run waiting) !! 0%nat) as [x|] eqn:Hx; [|exfalso; revert Hx; vm_compute; discriminate].
  destruct (one_terminal_result waiting [StreamSend 0; StreamAbort 1] 1 c) as (_ & _ & Hq & Hk); [unfold few_streams; vm_compute; discriminate|exact Hc|].
  destruct (Hk 0%nat x Hx) as [Ha Hb];
    [revert Hx; vm_compute; intros [= <-]; reflexivity|revert Hx; vm_compute; intros [= <-]; reflexivity|revert Hc; vm_compute; intros [= <-]; reflexivity|].
  exists c, x. split; [reflexivity|]. split; [reflexivity|]. split; [exact Hq|]. split; [|exact Hb].
  apply Ha; intros Hin; repeat (apply elem_of_cons in Hin as [Hin|Hin]; [discriminate Hin|]); by apply elem_of_nil in Hin.
Defined.

(** A call whose channel is full when its target goes offline gets no terminal
    result. *)
Definition full_channel : list StreamChoice :=
  StreamRegister phone LosslessBackpressure :: mjoin (replicate 32 [StreamChunk 0 1 (mk_Chunk "x" "text/plain"); StreamSend 0]) ++
  [StreamCancel 1 1 "target_offline"; StreamSend 1].
Example terminal_lost :
  let s := stream_run full_channel in
  sm_sending s = ∅ ∧ (terminals <$> sm_calls s !! 1) = Some O ∧ (st_entry <$> sm_calls s !! 1) = Some false.
Proof. vm_compute. split_and!; reflexivity. Qed.

(** ** Cancellation *)

#[local] Existing Instance sample_sha256.
Definition sample_lifecycles : Lifecycles := {|
  DescriptorBoundEnvelope := string * string;
  descriptor_bound_canonical_bytes e := e.1 +:+ " calls " +:+ e.2;
  envelope_caller_ura e := e.1;
  envelope_callee_ura e := e.2;
  InvocationHandle := string;
  invocation_id h := h;
|}.
#[local] Existing Instance sample_lifecycles.
Definition call_phone : string * string := ("easynet:///r/home/user/ada", phone).
(** The caller may cancel its running call, another user may not. *)
Example cancel_run :
  let s := registry_run [OpRegister call_phone "inv-1"] in
  let command := mk_CancelCommand (invocation_lifecycle_hash call_phone) None "stop" in
  request_cancel command "easynet:///r/home/user/ada" phone (Ok tt) s =
    (Some ("inv-1", "stop"), Ok (mk_CancelResult (invocation_lifecycle_hash call_phone) "inv-1" true false)) ∧
  request_cancel command "easynet:///r/home/user/bob" phone (Ok tt) s = (None, Err OwnershipDenied).
Proof. vm_compute. split; reflexivity. Qed.
