(* ===== verification/Consent.v ===== *)
(** * Approvals and sessions of the daemon (src/src/daemon/execution/permission/mod.rs, src/src/daemon/execution/session/mod.rs)

    The broker that asks an operator before a sensitive action: askers, deciders and
    subscribers are threads, and the machine interleaves them at every access to the
    queue, the broadcast and the one-shot channels.  The index of sessions with their
    timelines, whose operations each hold its lock.  Nothing panics under the locks, so
    they are never poisoned. *)

From Stdlib Require Import String.
From S2P Require Import Prelude RustStd Text Json.

Open Scope Z_scope.

(** ** The broker *)

Module Broker.

Inductive PermissionDecision := PermAllow | PermDeny | PermAllowOnce.
Inductive PermissionSensitivity := SensLow | SensMedium | SensHigh.
Record AskContext := mk_AskContext {
  ak_prompt : string;
  ak_sensitivity : PermissionSensitivity;
  ak_session : string;
  ak_tenant : string;
}.
Record ApprovalRequest := mk_Approval {
  ap_id : string;
  ap_session : string;
  ap_tenant : string;
  ap_prompt : string;
  ap_sensitivity : PermissionSensitivity;
  ap_created_unix_ms : Z;
  ap_decision : option PermissionDecision;
}.

Inductive UnobservedPermissionPolicy := UnobservedAllow.
Definition unobserved_decide (p : UnobservedPermissionPolicy) : PermissionDecision := match p with UnobservedAllow => PermAllow end.
Definition headless_ask (ctx : AskContext) : PermissionDecision := unobserved_decide UnobservedAllow.

(** How an ask ended: nobody was subscribed, the request could not be published, it
    was decided, or its time was up. *)
Inductive AskEnd := Unobserved | Retracted (id : string) | Decided (id : string) (d : PermissionDecision) | TimedOut (id : string).
Definition decision_of (e : AskEnd) : PermissionDecision :=
  match e with Unobserved => unobserved_decide UnobservedAllow | Retracted _ | TimedOut _ => PermDeny | Decided _ d => d end.

(** Where a thread is within [ask]. *)
Inductive Asker :=
| AskInsert (r : ApprovalRequest)
| AskPublish (r : ApprovalRequest)
| AskRetract (r : ApprovalRequest)
| AskWait (id : string)
| AskDone (e : AskEnd).

(** The channel from a decision to its ask, by the request's id. *)
Inductive Oneshot := OneEmpty | OneSent (d : PermissionDecision) | OneGone.

(** The queue, the receivers of the broadcast and what was published; the channels, the
    threads within [ask], those within [decide] that have taken their entry; and the
    decisions that took one, for the proofs. *)
Record SubscriberBroker := mk_Broker {
  sb_pending : gmap string ApprovalRequest;
  sb_receivers : nat;
  sb_published : list ApprovalRequest;
  sb_channels : gmap string Oneshot;
  sb_askers : gmap nat Asker;
  sb_deciders : gmap nat (string * PermissionDecision);
  sb_decided : list (string * PermissionDecision);
}.
Definition new_broker : SubscriberBroker := mk_Broker ∅ 0 [] ∅ ∅ ∅ [].

Definition has_subscribers (s : SubscriberBroker) : bool := (0 <? sb_receivers s)%nat.
Definition pending_snapshot (s : SubscriberBroker) : list ApprovalRequest :=
  omap (λ id, sb_pending s !! id) (sort_by String.leb (elements (dom (sb_pending s)))).

Definition set_asker (t : nat) (a : Asker) (s : SubscriberBroker) : SubscriberBroker :=
  mk_Broker (sb_pending s) (sb_receivers s) (sb_published s) (sb_channels s) (<[t := a]> (sb_askers s)) (sb_deciders s) (sb_decided s).
Definition set_queue (m : gmap string ApprovalRequest) (s : SubscriberBroker) : SubscriberBroker :=
  mk_Broker m (sb_receivers s) (sb_published s) (sb_channels s) (sb_askers s) (sb_deciders s) (sb_decided s).
Definition set_channel (id : string) (o : Oneshot) (s : SubscriberBroker) : SubscriberBroker :=
  mk_Broker (sb_pending s) (sb_receivers s) (sb_published s) (<[id := o]> (sb_channels s)) (sb_askers s) (sb_deciders s) (sb_decided s).

(** The beginning of [ask], with the identifier it draws and its clock; an identifier
    that was drawn before is no choice. *)
Definition ask (t : nat) (ctx : AskContext) (id : string) (now : Z) (s : SubscriberBroker) : SubscriberBroker :=
  match sb_askers s !! t, sb_channels s !! id with
  | None, None =>
      if negb (has_subscribers s) then set_asker t (AskDone Unobserved) s
      else
        set_asker t (AskInsert (mk_Approval id (ak_session ctx) (ak_tenant ctx) (ak_prompt ctx) (ak_sensitivity ctx) now None))
          (set_channel id OneEmpty s)
  | _, _ => s
  end.

(** The rest of [ask], one access at a time. *)
Definition ask_step (t : nat) (s : SubscriberBroker) : SubscriberBroker :=
  match sb_askers s !! t with
  | Some (AskInsert r) => set_asker t (AskPublish r) (set_queue (<[ap_id r := r]> (sb_pending s)) s)
  | Some (AskPublish r) =>
      if negb (has_subscribers s) then set_asker t (AskRetract r) s
      else
        mk_Broker (sb_pending s) (sb_receivers s) (sb_published s ++ [r]) (sb_channels s) (<[t := AskWait (ap_id r)]> (sb_askers s)) (sb_deciders s)
          (sb_decided s)
  | Some (AskRetract r) => set_asker t (AskDone (Retracted (ap_id r))) (set_queue (delete (ap_id r) (sb_pending s)) s)
  | Some (AskWait id) => match sb_channels s !! id with Some (OneSent d) => set_asker t (AskDone (Decided id d)) s | _ => s end
  | _ => s
  end.

(** The time of a waiting ask is up; the select may take this arm even when the
    decision was sent.  The queue is left as it is. *)
Definition wait_timeout (t : nat) (s : SubscriberBroker) : SubscriberBroker :=
  match sb_askers s !! t with
  | Some (AskWait id) =>
      set_asker t (AskDone (TimedOut id)) (match sb_channels s !! id with Some OneEmpty => set_channel id OneGone s | _ => s end)
  | _ => s
  end.

(** [decide] takes the entry, and answers whether there was one; then it sends. *)
Definition broker_decide (k : nat) (id : string) (d : PermissionDecision) (s : SubscriberBroker) : SubscriberBroker * result string unit :=
  match sb_pending s !! id with
  | Some _ =>
      (mk_Broker (delete id (sb_pending s)) (sb_receivers s) (sb_published s) (sb_channels s) (sb_askers s) (<[k := (id, d)]> (sb_deciders s))
         (sb_decided s ++ [(id, d)]), Ok tt)
  | None => (s, Err ("permission id " +:+ id +:+ " unknown (already decided?)"))
  end.
Definition decide_send (k : nat) (s : SubscriberBroker) : SubscriberBroker :=
  match sb_deciders s !! k with
  | Some (id, d) =>
      let s' := match sb_channels s !! id with Some OneEmpty => set_channel id (OneSent d) s | _ => s end in
      mk_Broker (sb_pending s') (sb_receivers s') (sb_published s') (sb_channels s') (sb_askers s') (delete k (sb_deciders s')) (sb_decided s')
  | None => s
  end.

Inductive BrokerChoice :=
| Ask (t : nat) (ctx : AskContext) (id : string) (now : Z)
| AskStep (t : nat)
| AskTimeout (t : nat)
| Decide (k : nat) (id : string) (d : PermissionDecision)
| DecideSend (k : nat)
| Subscribe
| Unsubscribe.
Definition set_receivers (n : nat) (s : SubscriberBroker) : SubscriberBroker :=
  mk_Broker (sb_pending s) n (sb_published s) (sb_channels s) (sb_askers s) (sb_deciders s) (sb_decided s).
Definition broker_step (s : SubscriberBroker) (c : BrokerChoice) : SubscriberBroker :=
  match c with
  | Ask t ctx id now => ask t ctx id now s
  | AskStep t => ask_step t s
  | AskTimeout t => wait_timeout t s
  | Decide k id d => match sb_deciders s !! k with None => (broker_decide k id d s).1 | Some _ => s end
  | DecideSend k => decide_send k s
  | Subscribe => set_receivers (S (sb_receivers s)) s
  | Unsubscribe => set_receivers (pred (sb_receivers s)) s
  end.
Definition broker_run (l : list BrokerChoice) : SubscriberBroker := foldl broker_step new_broker l.

(** The service with its broker, if it is interactive. *)
Inductive PermissionService := HeadlessService | InteractiveService (b : SubscriberBroker).
Definition service_decide (k : nat) (id : string) (d : PermissionDecision) (s : PermissionService) : PermissionService * result string unit :=
  match s with
  | InteractiveService b => let '(b', r) := broker_decide k id d b in (InteractiveService b', r)
  | HeadlessService =>
      (s, Err "permission.decide called but no SubscriberBroker is installed; headless permission policy has no pending queue")
  end.
Definition service_pending (s : PermissionService) : list ApprovalRequest :=
  match s with InteractiveService b => pending_snapshot b | HeadlessService => [] end.

(** *** Whose decision an ask returns *)

Definition ask_id (a : Asker) : option string :=
  match a with
  | AskInsert r | AskPublish r | AskRetract r => Some (ap_id r)
  | AskWait id | AskDone (Retracted id | Decided id _ | TimedOut id) => Some id
  | AskDone Unobserved => None
  end.
(** The asks whose entry is in the queue, unless it was decided. *)
Definition queued (a : Asker) : bool :=
  match a with AskPublish _ | AskRetract _ | AskWait _ | AskDone (TimedOut _) => true | _ => false end.

Record broker_inv (s : SubscriberBroker) : Prop := {
  bi_own t t' a a' id : sb_askers s !! t = Some a → sb_askers s !! t' = Some a' → ask_id a = Some id → ask_id a' = Some id → t = t';
  bi_ids t a id : sb_askers s !! t = Some a → ask_id a = Some id → is_Some (sb_channels s !! id);
  bi_pending id : is_Some (sb_pending s !! id) ↔
    (id ∉ (sb_decided s).*1) ∧ ∃ t a, sb_askers s !! t = Some a ∧ ask_id a = Some id ∧ queued a = true;
  bi_deciders k x : sb_deciders s !! k = Some x → x ∈ sb_decided s;
  bi_sent id d : sb_channels s !! id = Some (OneSent d) → (id, d) ∈ sb_decided s;
  bi_answered t id d : sb_askers s !! t = Some (AskDone (Decided id d)) → (id, d) ∈ sb_decided s;
  bi_decided id : id ∈ (sb_decided s).*1 → ∃ t a, sb_askers s !! t = Some a ∧ ask_id a = Some id ∧ (∀ r, a ≠ AskInsert r);
  bi_once : NoDup (sb_decided s).*1;
}.

(** One thread moves within [ask]. *)
Lemma asker_inv s s' t a : broker_inv s → sb_askers s' = <[t := a]> (sb_askers s) → sb_deciders s' = sb_deciders s → sb_decided s' = sb_decided s →
  (∀ id, is_Some (sb_channels s !! id) → is_Some (sb_channels s' !! id)) →
  (∀ id d, sb_channels s' !! id = Some (OneSent d) → sb_channels s !! id = Some (OneSent d)) →
  (∀ id, ask_id a = Some id → is_Some (sb_channels s' !! id) ∧
     ((∃ a0, sb_askers s !! t = Some a0 ∧ ask_id a0 = Some id) ∨ sb_askers s !! t = None ∧ sb_channels s !! id = None)) →
  (∀ a0 id, sb_askers s !! t = Some a0 → ask_id a0 = Some id → ask_id a = Some id ∧ ∀ r, a ≠ AskInsert r) →
  (∀ id, is_Some (sb_pending s' !! id) ↔
     if decide (ask_id a = Some id) then (id ∉ (sb_decided s).*1) ∧ queued a = true else is_Some (sb_pending s !! id)) →
  (∀ id d, a = AskDone (Decided id d) → (id, d) ∈ sb_decided s) → broker_inv s'.
Proof.
  intros H Ht Hk Hd Hch Hsent Hid Hold Hp Hans.
  assert (∀ t' a' id, t ≠ t' → sb_askers s !! t' = Some a' → ask_id a = Some id → ask_id a' = Some id → False) as Hno.
  { intros t' a' id Hne Ha' Hi Hi'. destruct (Hid id Hi) as [_ [(a0 & H0 & Hi0)|[_ Hn]]]; [by eapply Hne, (bi_own _ H)|].
    destruct (bi_ids _ H t' a' id Ha' Hi'). congruence. }
  constructor; rewrite ?Ht, ?Hk, ?Hd; try apply H.
  - intros t1 t2 a1 a2 id [[<- <-]|[Hn1 H1]]%lookup_insert_Some [[<- <-]|[Hn2 H2]]%lookup_insert_Some Hi1 Hi2;
      [done|exfalso; eauto|exfalso; eauto|by eapply (bi_own _ H)].
  - intros t' a' id [[<- <-]|[Hn Ha']]%lookup_insert_Some Hi; [by apply Hid|]. apply Hch. by eapply (bi_ids _ H).
  - intros id. rewrite Hp. case_decide as Hi.
    + split; [intros [Hnd Hq]; split; [done|]; exists t, a; by rewrite lookup_insert_eq|]. intros [Hnd (t' & a' & Ha' & Hi' & Hq)]. split; [done|].
      apply lookup_insert_Some in Ha' as [[_ <-]|[Hn Ha']]; [done|]. exfalso. eauto.
    + rewrite (bi_pending _ H). split; intros [Hnd (t' & a' & Ha' & Hi' & Hq)]; (split; [done|]); exists t', a'; (split; [|done]).
      * rewrite lookup_insert_ne; [done|]. intros <-. by destruct (Hold a' id Ha' Hi').
      * apply lookup_insert_Some in Ha' as [[_ <-]|[_ Ha']]; [congruence|done].
  - intros id d Hs. by apply (bi_sent _ H), Hsent.
  - intros t' id d [[_ E]|[_ Ha']]%lookup_insert_Some; [by apply Hans|by eapply (bi_answered _ H)].
  - intros id (t' & a' & Ha' & Hi' & Hn)%(bi_decided _ H). destruct (decide (t = t')) as [<- | Hne].
    + exists t, a. rewrite lookup_insert_eq. destruct (Hold a' id Ha' Hi'). done.
    + exists t', a'. by rewrite lookup_insert_ne.
Qed.

Lemma ask_inv t ctx id now s : broker_inv s → broker_inv (ask t ctx id now s).
Proof.
  intros H. unfold ask. destruct (sb_askers s !! t) eqn:Ht; [done|]. destruct (sb_channels s !! id) eqn:Hc; [done|].
  destruct (negb _); (eapply (asker_inv s _ t); [done|done|done|done|..]); cbn; try done; try (intros; by rewrite Ht in * ).
  - intros i [o Ho]. destruct (decide (id = i)) as [<- | Hne]; [by rewrite lookup_insert_eq; eexists|rewrite lookup_insert_ne by done; by eexists].
  - intros i d. destruct (decide (id = i)) as [<- | Hne]; [by rewrite lookup_insert_eq|by rewrite lookup_insert_ne].
  - intros i [= <-]. rewrite lookup_insert_eq. split; [by eexists|by right].
  - intros i. case_decide as Hi; [|done]. injection Hi as <-. rewrite (bi_pending _ H). split; [|by intros [_ ?]].
    intros [_ (t' & a' & Ha' & Hi' & _)]. destruct (bi_ids _ H t' a' id Ha' Hi'). congruence.
Qed.

(** The queue around one request. *)
Lemma queue_same s a id0 : broker_inv s → (∃ t a0, sb_askers s !! t = Some a0 ∧ ask_id a0 = Some id0 ∧ queued a0 = queued a) → ask_id a = Some id0 →
  ∀ id, is_Some (sb_pending s !! id) ↔ if decide (ask_id a = Some id) then (id ∉ (sb_decided s).*1) ∧ queued a = true else is_Some (sb_pending s !! id).
Proof.
  intros H (t & a0 & Ht & Hi0 & Hq) Hi id. case_decide as Hd; [|done]. assert (id0 = id) as <- by congruence. rewrite (bi_pending _ H).
  split; intros [Hnd He]; (split; [done|]); [|exists t, a0; by rewrite Hq].
  destruct He as (t' & a' & Ha' & Hi' & Hq'). assert (t' = t) as -> by (by eapply (bi_own _ H)). congruence.
Qed.

(** The thread keeps its request. *)
Ltac keeps_request H := solve [let Ha := fresh in intros ? ? Ha ?; rewrite H in Ha; injection Ha as <-; done].

Lemma ask_step_inv t s : broker_inv s → broker_inv (ask_step t s).
Proof.
  intros H. unfold ask_step. destruct (sb_askers s !! t) as [a0|] eqn:Ht; [|done].
  assert (∀ id, ask_id a0 = Some id →
    is_Some (sb_channels s !! id) ∧ ((∃ a0, sb_askers s !! t = Some a0 ∧ ask_id a0 = Some id) ∨ sb_askers s !! t = None ∧ sb_channels s !! id = None)) as Hown.
  { intros id Hi. split; [by eapply (bi_ids _ H)|left; eauto]. }
  destruct a0 as [r|r|r|id|]; [..|done].
  - eapply (asker_inv s _ t); [done|done|done|done|..]; cbn; try done; try (by intros ? [= <-]; apply Hown); try keeps_request Ht.
    intros i. case_decide as Hi.
    + injection Hi as <-. rewrite lookup_insert_eq. split; [|by eexists]. intros _. split; [|done].
      intros (t' & a' & Ha' & Hi' & Hn)%(bi_decided _ H). assert (t' = t) as -> by (by eapply (bi_own _ H)). rewrite Ht in Ha'. injection Ha' as <-. by eapply Hn.
    + rewrite lookup_insert_ne; [done|congruence].
  - pose proof (λ a Hi Hq, queue_same s a (ap_id r) H (ex_intro _ t (ex_intro _ (AskPublish r) (conj Ht (conj eq_refl Hq)))) Hi) as Hsame.
    destruct (negb _); (eapply (asker_inv s _ t); [done|done|done|done|..]); cbn; try done; try (by intros ? [= <-]; apply Hown); try keeps_request Ht;
      [exact (Hsame (AskRetract r) eq_refl eq_refl)|exact (Hsame (AskWait (ap_id r)) eq_refl eq_refl)].
  - eapply (asker_inv s _ t); [done|done|done|done|..]; cbn; try done; try (by intros ? [= <-]; apply Hown); try keeps_request Ht.
    intros i. case_decide as Hi; [injection Hi as <-; rewrite lookup_delete_eq; split; [by intros []|naive_solver]|]. rewrite lookup_delete_ne; [done|congruence].
  - destruct (sb_channels s !! id) as [[|d|]|] eqn:Hc; try done. pose proof (bi_sent _ H _ _ Hc) as Hd.
    eapply (asker_inv s _ t); [done|done|done|done|..]; cbn; try done; try (by intros ? [= <-]; apply Hown); try keeps_request Ht.
    + intros i. case_decide as Hi; [|done]. injection Hi as <-. split; [|by intros [_ ?]]. intros [Hnd _]%(bi_pending _ H). destruct Hnd.
      apply list_elem_of_fmap. by exists (id, d).
    + by intros ? ? [= <- <-].
Qed.

Lemma wait_timeout_inv t s : broker_inv s → broker_inv (wait_timeout t s).
Proof.
  intros H. unfold wait_timeout. destruct (sb_askers s !! t) as [[| | |id|]|] eqn:Ht; try done.
  assert (is_Some (sb_channels s !! id)) as Hc by (by eapply (bi_ids _ H)).
  assert (∀ i, is_Some (sb_pending s !! i) ↔
    if decide (ask_id (AskDone (TimedOut id)) = Some i) then (i ∉ (sb_decided s).*1) ∧ queued (AskDone (TimedOut id)) = true else is_Some (sb_pending s !! i)) as Hq
    by (eapply (queue_same s _ id); [done|by exists t, (AskWait id)|done]).
  destruct (sb_channels s !! id) as [[|d|]|] eqn:Ho; [|by eapply (asker_inv s _ t); [done|done|done|done|..]; try done; try keeps_request Ht; cbn; naive_solver..].
  eapply (asker_inv s _ t); [done|done|done|done|..]; cbn [sb_channels sb_pending set_asker set_channel]; try done; try keeps_request Ht.
  - intros i Hi. destruct (decide (id = i)) as [<- | Hne]; [by rewrite lookup_insert_eq; eexists|by rewrite lookup_insert_ne].
  - intros i d. destruct (decide (id = i)) as [<- | Hne]; [by rewrite lookup_insert_eq|by rewrite lookup_insert_ne].
  - intros i [= <-]. rewrite lookup_insert_eq. split; [by eexists|left; eauto].
Qed.

Lemma decide_inv k id d s : broker_inv s → broker_inv (broker_decide k id d s).1.
Proof.
  intros H. unfold broker_decide. destruct (sb_pending s !! id) as [r|] eqn:Hp; [|done].
  destruct (proj1 (bi_pending _ H id)) as [Hnd (t & a & Ha & Hi & Hq)]; [by eexists|].
  destruct H. constructor; cbn; try done.
  - intros i. rewrite fmap_app, not_elem_of_app. cbn. rewrite list_elem_of_singleton. destruct (decide (id = i)) as [<- | Hne].
    + rewrite lookup_delete_eq. split; [by intros []|naive_solver].
    + rewrite lookup_delete_ne by done. rewrite bi_pending0. naive_solver.
  - intros k' x [[_ <-]|[_ Hx]]%lookup_insert_Some; [set_solver|]. apply bi_deciders0 in Hx. set_solver.
  - intros i d' Hs%bi_sent0. set_solver.
  - intros t' i d' Hs%bi_answered0. set_solver.
  - intros i. rewrite fmap_app, elem_of_app. cbn. rewrite list_elem_of_singleton. intros [Hi'| ->]; [by apply bi_decided0|]. exists t, a. split_and!; [done|done|].
    by intros r' ->.
  - rewrite fmap_app. apply NoDup_app. split; [done|]. split; [|apply NoDup_singleton]. cbn. set_solver.
Qed.

Lemma decide_send_inv k s : broker_inv s → broker_inv (decide_send k s).
Proof.
  intros H. unfold decide_send. destruct (sb_deciders s !! k) as [[id d]|] eqn:Hk; [|done]. pose proof (bi_deciders _ H k _ Hk) as Hd.
  assert (∀ k' x, delete k (sb_deciders s) !! k' = Some x → x ∈ sb_decided s) as Hdel by (intros k' x [_ Hx]%lookup_delete_Some; by eapply (bi_deciders _ H)).
  destruct (sb_channels s !! id) as [[|d'|]|] eqn:Ho; [|by destruct H..].
  destruct H. constructor; cbn; try done.
  - intros t a i Ha Hi. destruct (decide (id = i)) as [<- | Hne]; [by rewrite lookup_insert_eq; eexists|]. rewrite lookup_insert_ne by done. by eapply bi_ids0.
  - intros i d'. destruct (decide (id = i)) as [<- | Hne]; [rewrite lookup_insert_eq; by intros [= <-]|]. rewrite lookup_insert_ne by done. apply bi_sent0.
Qed.

Lemma broker_run_inv l : broker_inv (broker_run l).
Proof.
  unfold broker_run. assert (broker_inv new_broker) as H.
  { constructor; cbn; try done; [|set_solver|apply NoDup_nil_2]. intros id. rewrite lookup_empty. split; [by intros []|]. by intros [_ (t & a & Ha & _)]. }
  revert H. generalize new_broker. induction l as [|c l IH]; intros s H; [done|]. apply IH.
  destruct c; cbn [broker_step];
    [by apply ask_inv|by apply ask_step_inv|by apply wait_timeout_inv| |by apply decide_send_inv|by destruct H|by destruct H].
  destruct (sb_deciders s !! k); [done|by apply decide_inv].
Qed.

(** *** What was asked, and who listened *)

(** The subscribers there are after some choices, counted from the choices alone. *)
Definition listen (n : nat) (c : BrokerChoice) : nat := match c with Subscribe => S n | Unsubscribe => pred n | _ => n end.
Definition listeners (l : list BrokerChoice) : nat := foldl listen 0%nat l.

(** The request an ask puts to the operators. *)
Definition request_of (ctx : AskContext) (id : string) (now : Z) : ApprovalRequest :=
  mk_Approval id (ak_session ctx) (ak_tenant ctx) (ak_prompt ctx) (ak_sensitivity ctx) now None.
Definition carries (r : ApprovalRequest) (a : Asker) : Prop :=
  match a with AskInsert r' | AskPublish r' | AskRetract r' => r' = r | AskDone Unobserved => False | _ => ask_id a = Some (ap_id r) end.

(** The ask of thread [t] was made as one of the choices, and whether it waits for an
    operator was settled then, by whether anyone listened. *)
Definition asked_at (l : list BrokerChoice) (t : nat) (a : Asker) : Prop :=
  ∃ l1 ctx id now l2, l = l1 ++ Ask t ctx id now :: l2 ∧ sb_askers (broker_run l1) !! t = None ∧
    if decide (listeners l1 = 0%nat) then a = AskDone Unobserved else carries (request_of ctx id now) a.

Lemma broker_run_snoc l c : broker_run (l ++ [c]) = broker_step (broker_run l) c.
Proof. unfold broker_run. by rewrite foldl_app. Qed.

Lemma receivers_listeners l : sb_receivers (broker_run l) = listeners l.
Proof.
  induction l as [|c l IH] using rev_ind; [done|]. rewrite broker_run_snoc. unfold listeners. rewrite foldl_app. cbn. fold (listeners l). rewrite <- IH.
  generalize (broker_run l) as s. intros s. destruct c; cbn; unfold ask, ask_step, wait_timeout, decide_send, broker_decide; by repeat case_match.
Qed.

(** A step leaves a thread's ask, moves it on with its request, or is its beginning. *)
Lemma step_asker s c t a' : sb_askers (broker_step s c) !! t = Some a' →
  (∃ a, sb_askers s !! t = Some a ∧ (a = a' ∨ ∀ r, carries r a → carries r a') ∧ (a = AskDone Unobserved → a' = a)) ∨
  sb_askers s !! t = None ∧ ∃ ctx id now, c = Ask t ctx id now ∧ a' = if has_subscribers s then AskInsert (request_of ctx id now) else AskDone Unobserved.
Proof.
  assert (∀ x, sb_askers s !! t = Some x → x = a' →
    ∃ a, sb_askers s !! t = Some a ∧ (a = a' ∨ ∀ r, carries r a → carries r a') ∧ (a = AskDone Unobserved → a' = a)) as Hsame by (intros x Hx ->; eauto 6).
  assert (∀ t0 a0 x, sb_askers s !! t0 = Some a0 → (∀ r, carries r a0 → carries r x) → a0 ≠ AskDone Unobserved → <[t0 := x]> (sb_askers s) !! t = Some a' →
    ∃ a, sb_askers s !! t = Some a ∧ (a = a' ∨ ∀ r, carries r a → carries r a') ∧ (a = AskDone Unobserved → a' = a)) as Hmove.
  { intros t0 a0 x Ha0 Hx Hn [[<- <-]|[Hne Hs]]%lookup_insert_Some; [|eauto]. exists a0. naive_solver. }
  destruct c as [t0 ctx id now|t0|t0|k id d|k| |]; cbn [broker_step].
  - unfold ask. destruct (sb_askers s !! t0) eqn:E; [intros; left; eauto|]. destruct (sb_channels s !! id); [intros; left; eauto|].
    destruct (has_subscribers s); cbn; (intros [[<- <-]|[Hne Hs]]%lookup_insert_Some; [right; split; [done|by exists ctx, id, now]|left; eauto]).
  - unfold ask_step. intros H; left; revert H. destruct (sb_askers s !! t0) as [[r|r|r|id|e]|] eqn:E; eauto; cbn.
    + eapply Hmove; [done| |done]. cbn. congruence.
    + destruct (negb _); cbn; (eapply Hmove; [done| |done]); cbn; congruence.
    + eapply Hmove; [done| |done]. cbn. congruence.
    + destruct (sb_channels s !! id) as [[]|]; eauto. eapply Hmove; [done| |done]. done.
  - unfold wait_timeout. intros H; left; revert H. destruct (sb_askers s !! t0) as [[r|r|r|id|e]|] eqn:E; eauto.
    destruct (sb_channels s !! id) as [[]|]; (eapply Hmove; [done| |done]); done.
  - intros H; left; revert H. destruct (sb_deciders s !! k); eauto. unfold broker_decide. destruct (sb_pending s !! id); eauto.
  - unfold decide_send. intros H; left; revert H. destruct (sb_deciders s !! k) as [[id d]|]; eauto. destruct (sb_channels s !! id) as [[]|]; eauto.
  - intros; left; eauto.
  - intros; left; eauto.
Qed.

Lemma run_asked l t a : sb_askers (broker_run l) !! t = Some a → asked_at l t a.
Proof.
  revert a. induction l as [|c l IH] using rev_ind; intros a' Ha'; [by cbn in Ha'; rewrite lookup_empty in Ha'|]. rewrite broker_run_snoc in Ha'.
  apply step_asker in Ha' as [(a & Ha & Hm & Hu)|(Hn & ctx & id & now & -> & ->)].
  - destruct (IH a Ha) as (l1 & ctx & id & now & l2 & -> & Hn & Hk). exists l1, ctx, id, now, (l2 ++ [c]). split; [by rewrite <- app_assoc|]. split; [done|].
    case_decide; [subst a; by rewrite Hu|]. destruct Hm as [-> | Hm]; [done|by apply Hm].
  - exists l, ctx, id, now, []. split; [done|]. split; [done|]. unfold has_subscribers. rewrite receivers_listeners.
    case_decide as E; [by rewrite E|]. destruct (0 <? listeners l)%nat eqn:Hb; [done|]. apply Nat.ltb_ge in Hb. lia.
Qed.

(** C20 (safety): an action is allowed only by an operator's decision on its own
    request, unless nobody was subscribed at the moment it was asked for.  In every
    interleaving of asks, decisions, timeouts and subscribers, each ask was made by one
    of the choices; with no subscriber at that moment it returns the policy without
    observers, and with one it never does, but carries the request made of its context
    and ends retracted or out of time with a denial, or with the decision that took
    this request.  Each request belongs to one ask and is decided at most once; and the
    queue holds exactly the requests that were queued, not retracted and not decided:
    also those whose time was up and which were denied. *)
Theorem allow_needs_operator (l : list BrokerChoice) :
  let s := broker_run l in
  (∀ t a, sb_askers s !! t = Some a →
     ∃ l1 ctx id now l2, l = l1 ++ Ask t ctx id now :: l2 ∧
       if decide (listeners l1 = 0%nat) then a = AskDone Unobserved ∧ decision_of Unobserved = PermAllow
       else carries (request_of ctx id now) a ∧
         ∀ e, a = AskDone e →
           (e = Retracted id ∨ e = TimedOut id) ∧ decision_of e = PermDeny ∨ ∃ d, e = Decided id d ∧ decision_of e = d ∧ (id, d) ∈ sb_decided s) ∧
  (∀ t t' a a' id, sb_askers s !! t = Some a → sb_askers s !! t' = Some a' → ask_id a = Some id → ask_id a' = Some id → t = t') ∧
  NoDup (sb_decided s).*1 ∧
  (∀ id, is_Some (sb_pending s !! id) ↔ (id ∉ (sb_decided s).*1) ∧ ∃ t a, sb_askers s !! t = Some a ∧ ask_id a = Some id ∧ queued a = true).
Proof.
  intros s. pose proof (broker_run_inv l) as H. fold s in H. split_and!; [|apply H|apply H|apply H].
  intros t a Ha. destruct (run_asked l t a Ha) as (l1 & ctx & id & now & l2 & E & _ & Hk). exists l1, ctx, id, now, l2. split; [done|].
  case_decide; [done|]. split; [done|]. intros e ->. destruct e as [|i|i d|i]; cbn in Hk; simplify_eq/=; [by left; auto| |by left; auto].
  right. exists d. split_and!; [done|done|by eapply (bi_answered _ H)].
Qed.

(** A decision made in time is what the ask returns. *)
Lemma decision_arrives l t id k d : let s := broker_run l in
  sb_askers s !! t = Some (AskWait id) → is_Some (sb_pending s !! id) → sb_channels s !! id = Some OneEmpty → sb_deciders s !! k = None →
  sb_askers (foldl broker_step s [Decide k id d; DecideSend k; AskStep t]) !! t = Some (AskDone (Decided id d)).
Proof.
  intros s Ht [r Hr] Hc Hk. cbn [foldl broker_step]. rewrite Hk. unfold broker_decide. rewrite Hr. cbn [fst]. unfold decide_send. cbn. rewrite lookup_insert_eq. cbn.
  rewrite Hc. cbn. unfold ask_step. cbn. rewrite Ht, lookup_insert_eq. cbn. by rewrite lookup_insert_eq.
Qed.
End Broker.

(** ** Sessions *)

Module Sessions.

Record Session := mk_Session {
  ss_id : string;
  ss_agent : string;
  ss_node : string;
  ss_tenant : string;
  ss_started_unix_ms : Z;
  ss_ended_unix_ms : option Z;
}.
Definition make_session (id agent node tenant : string) (now : Z) : Session := mk_Session id agent node tenant now None.
Record SessionRuntimeBinding := mk_Binding { bn_node : string; bn_tenant : string }.

(** The timeline of a session, and what was sent on its broadcast. *)
Record SessionEntry := mk_Entry { se_meta : Session; se_history : list Value; se_sent : list Value }.
Record SessionService := mk_Sessions { sn_binding : option SessionRuntimeBinding; sn_sessions : gmap string SessionEntry }.
Definition new_sessions : SessionService := mk_Sessions None ∅.

Definition bind_runtime (node tenant : string) (s : SessionService) : SessionService * result string unit :=
  if blank node then (s, Err "SessionService runtime node must not be empty")
  else if blank tenant then (s, Err "SessionService runtime tenant must not be empty")
  else (mk_Sessions (Some (mk_Binding node tenant)) (sn_sessions s), Ok tt).

Definition bound_runtime (s : SessionService) : result string SessionRuntimeBinding :=
  match sn_binding s with Some b => Ok b | None => Err "SessionService is not bound to a runtime identity" end.

Definition set_entry (id : string) (e : SessionEntry) (s : SessionService) : SessionService :=
  mk_Sessions (sn_binding s) (<[id := e]> (sn_sessions s)).

Definition admit_session (session : Session) (s : SessionService) : SessionService * result string string :=
  match bound_runtime s with
  | Err e => (s, Err e)
  | Ok b =>
      let id := ss_id session in
      let session := mk_Session id (ss_agent session) (bn_node b) (bn_tenant b) (ss_started_unix_ms session) (ss_ended_unix_ms session) in
      match sn_sessions s !! id with
      | Some _ => (s, Err ("session id " +:+ id +:+ " already admitted"))
      | None =>
          let admitted_event :=
            VObject [("kind", VString "admitted"); ("session_id", VString id); ("agent", VString (ss_agent session));
                     ("node", VString (ss_node session)); ("started_unix_ms", VInt (ss_started_unix_ms session))] in
          (set_entry id (mk_Entry session [admitted_event] []) s, Ok id)
      end
  end.

Definition emit_event (id : string) (event : Value) (s : SessionService) : SessionService * result string unit :=
  match sn_sessions s !! id with
  | Some e => (set_entry id (mk_Entry (se_meta e) (se_history e ++ [event]) (se_sent e ++ [event])) s, Ok tt)
  | None => (s, Err ("session " +:+ id +:+ " not found"))
  end.

Definition terminate (id : string) (ended_unix_ms : Z) (s : SessionService) : SessionService * result string unit :=
  match sn_sessions s !! id with
  | Some e =>
      let m := se_meta e in
      let event := VObject [("kind", VString "terminated"); ("session_id", VString id); ("ended_unix_ms", VInt ended_unix_ms)] in
      (set_entry id (mk_Entry (mk_Session (ss_id m) (ss_agent m) (ss_node m) (ss_tenant m) (ss_started_unix_ms m) (Some ended_unix_ms))
                       (se_history e ++ [event]) (se_sent e ++ [event])) s, Ok tt)
  | None => (s, Err ("session " +:+ id +:+ " not found"))
  end.

(** The snapshot, and where the new receiver starts in the broadcast. *)
Definition subscribe_session (id : string) (since_seq : nat) (s : SessionService) : result string (list Value * nat) :=
  match sn_sessions s !! id with
  | Some e => Ok (drop since_seq (se_history e), length (se_sent e))
  | None => Err ("session " +:+ id +:+ " not found")
  end.
Definition list_active (s : SessionService) : list Session :=
  omap (λ id, se_meta <$> sn_sessions s !! id) (sort_by String.leb (elements (dom (sn_sessions s)))).
Definition get_session (id : string) (s : SessionService) : option Session := se_meta <$> sn_sessions s !! id.

Inductive SessionsOp :=
| OpBind (node tenant : string)
| OpAdmit (session : Session)
| OpTerminate (id : string) (ended_unix_ms : Z)
| OpEmit (id : string) (event : Value).
Definition sessions_step (s : SessionService) (op : SessionsOp) : SessionService :=
  match op with
  | OpBind node tenant => (bind_runtime node tenant s).1
  | OpAdmit session => (admit_session session s).1
  | OpTerminate id ms => (terminate id ms s).1
  | OpEmit id event => (emit_event id event s).1
  end.
Definition sessions_run (l : list SessionsOp) (s : SessionService) : SessionService := foldl sessions_step s l.

(** *** The timeline *)

(** A session that is indexed stays, with its identity; its timeline and its broadcast
    grow together. *)
Definition goes_on (e e' : SessionEntry) : Prop :=
  ∃ live, se_history e' = se_history e ++ live ∧ se_sent e' = se_sent e ++ live ∧
    let m := se_meta e in let m' := se_meta e' in
    (ss_id m', ss_agent m', ss_node m', ss_tenant m', ss_started_unix_ms m') = (ss_id m, ss_agent m, ss_node m, ss_tenant m, ss_started_unix_ms m).
#[global] Instance goes_on_refl : Reflexive goes_on.
Proof. intros e. exists []. by rewrite !app_nil_r. Qed.
#[global] Instance goes_on_trans : Transitive goes_on.
Proof.
  intros e1 e2 e3 (l1 & H1 & S1 & M1) (l2 & H2 & S2 & M2). exists (l1 ++ l2). rewrite H2, S2, H1, S1, <- !app_assoc. split_and!; [done|done|]. cbn zeta in *. by rewrite M2.
Qed.

Lemma step_goes_on op s id e : sn_sessions s !! id = Some e → ∃ e', sn_sessions (sessions_step s op) !! id = Some e' ∧ goes_on e e'.
Proof.
  intros He. assert (∃ e', sn_sessions s !! id = Some e' ∧ goes_on e e') as Hsame by (by exists e).
  assert (∀ i x, (∀ e0, sn_sessions s !! i = Some e0 → goes_on e0 x) → ∃ e', sn_sessions (set_entry i x s) !! id = Some e' ∧ goes_on e e') as Hset.
  { intros i x Hx. cbn. destruct (decide (i = id)) as [<- | Hne]; [rewrite lookup_insert_eq; exists x; auto|by rewrite lookup_insert_ne]. }
  destruct op as [node tenant|session|i ms|i event]; cbn [sessions_step].
  - unfold bind_runtime. destruct (blank node); [done|]. by destruct (blank tenant).
  - unfold admit_session. destruct (bound_runtime s); [|done]. destruct (sn_sessions s !! ss_id session) eqn:E; [done|]. apply Hset. congruence.
  - unfold terminate. destruct (sn_sessions s !! i) as [e0|] eqn:E; [|done]. apply Hset. intros e1. rewrite E. intros [= <-]. by eexists.
  - unfold emit_event. destruct (sn_sessions s !! i) as [e0|] eqn:E; [|done]. apply Hset. intros e1. rewrite E. intros [= <-]. by eexists.
Qed.
Lemma run_goes_on l s id e : sn_sessions s !! id = Some e → ∃ e', sn_sessions (sessions_run l s) !! id = Some e' ∧ goes_on e e'.
Proof.
  revert s e. induction l as [|op l IH]; intros s e He; [by exists e|]. destruct (step_goes_on op s id e He) as (e1 & He1 & Hg1).
  destruct (IH _ _ He1) as (e2 & He2 & Hg2). exists e2. split; [done|by trans e1].
Qed.

(** A late subscriber misses nothing and sees nothing twice.
    Whatever operations ran before it attached and run after, what it got at once is
    the timeline from the number it asked for, what it is sent from then on is
    exactly what the timeline grows by, and the session keeps its identity.  This is the
    broadcast as it is sent: a receiver that lets 256 events wait is told that it lagged
    and loses the oldest. *)
Theorem attach_is_gapless (l k : list SessionsOp) (id : string) (since_seq : nat) (snapshot : list Value) (start : nat) :
  subscribe_session id since_seq (sessions_run l new_sessions) = Ok (snapshot, start) →
  ∃ e e', sn_sessions (sessions_run l new_sessions) !! id = Some e ∧ sn_sessions (sessions_run (l ++ k) new_sessions) !! id = Some e' ∧
    snapshot = drop since_seq (se_history e) ∧ se_history e' = se_history e ++ drop start (se_sent e') ∧
    ss_agent (se_meta e') = ss_agent (se_meta e) ∧ ss_node (se_meta e') = ss_node (se_meta e) ∧ ss_tenant (se_meta e') = ss_tenant (se_meta e).
Proof.
  unfold subscribe_session. destruct (sn_sessions (sessions_run l new_sessions) !! id) as [e|] eqn:He; [|done]. intros [= <- <-].
  destruct (run_goes_on k _ id e He) as (e' & He' & live & Hh & Hs & Hm). exists e, e'. unfold sessions_run in *. rewrite foldl_app.
  split; [done|]. split; [done|]. split; [done|]. rewrite Hs, drop_app_length. cbn zeta in Hm. naive_solver.
Qed.
End Sessions.

(** ** Runs *)

Definition who : Broker.AskContext := Broker.mk_AskContext "delete the files?" Broker.SensHigh "run-1" "home".
Definition asked : list Broker.BrokerChoice :=
  [Broker.Subscribe; Broker.Ask 0 who "perm-1" 5; Broker.AskStep 0; Broker.AskStep 0].
(** The operator's decision is what the ask returns. *)
Example decision_returned :
  Broker.sb_askers (Broker.broker_run (asked ++ [Broker.Decide 0 "perm-1" Broker.PermAllowOnce; Broker.DecideSend 0; Broker.AskStep 0])) !! 0%nat
    = Some (Broker.AskDone (Broker.Decided "perm-1" Broker.PermAllowOnce)).
Proof. vm_compute. reflexivity. Qed.
(** A request whose time was up stays in the queue, and deciding it succeeds although
    the ask was denied. *)
Example timed_out_stays_pending :
  let s := Broker.broker_run (asked ++ [Broker.AskTimeout 0]) in
  Broker.sb_askers s !! 0%nat = Some (Broker.AskDone (Broker.TimedOut "perm-1")) ∧ Broker.ap_id <$> Broker.pending_snapshot s = ["perm-1"] ∧
  (Broker.broker_decide 1 "perm-1" Broker.PermAllow s).2 = Ok tt.
Proof. vm_compute. split_and!; reflexivity. Qed.

Definition attached : list Sessions.SessionsOp :=
  [Sessions.OpBind "laptop" "home"; Sessions.OpAdmit (Sessions.make_session "run-1" "ada" "?" "?" 1); Sessions.OpEmit "run-1" (VString "a")].
Lemma attach_is_gapless_witness :
  ∃ e e', Sessions.sn_sessions (Sessions.sessions_run attached Sessions.new_sessions) !! "run-1" = Some e ∧
    Sessions.sn_sessions (Sessions.sessions_run (attached ++ [Sessions.OpTerminate "run-1" 9]) Sessions.new_sessions) !! "run-1" = Some e' ∧
    Sessions.se_history e' = Sessions.se_history e ++ drop 1 (Sessions.se_sent e').
Proof.
  destruct (Sessions.attach_is_gapless attached [Sessions.OpTerminate "run-1" 9] "run-1" 1 [VString "a"] 1) as (e & e' & H & H' & _ & Hh & _).
  - vm_compute. reflexivity.
  - exists e, e'. split; [exact H|]. split; [exact H'|exact Hh].
Defined.
