(* ===== verification/Samples.v ===== *)
(** * A concrete world for the properties of runs

    A world that counts dispatches, pure dispatchers and two thread pools: the
    interfaces of the interpreter instantiated, so that the properties of runs
    are seen to apply. *)

From Stdlib Require Import String Ascii.
From stdpp Require Import countable.
From S2P Require Import Prelude RustStd Text Ura AgentId Json SampleCodec Lexer Ast Parser ParserRoundtrip Ir Planner.
From S2P Require Import PlannerProps CompileProps Trace Diagnostics.
From S2P Require Import Trace World Retry RetryProps Phases PhasesProps MissionProps.
From S2P Require Import Determinism RunLogic Conformance Provenance Dispatcher.

Open Scope nat_scope.

(** ** The world *)

(** An envelope is the ability it invokes. *)
Definition sample_libs : ChildLibs := {|
  InvocationEnvelope := string;
  caller_ura := λ _, "caller";
  callee_ura := λ _, "callee";
  env_ability := λ e, e;
  subject_ura := λ _, "subject";
  invocation_nonce := λ _, "nonce";
  causal_context := λ _, CausalNone;
  hex := hex_encode;
|}.

(** The number of dispatches made, and a clock of the given step (in
    nanoseconds) per reading. *)
Record Ticks := mk_Ticks { dispatches : nat; clock : Z }.

Definition ticking (tick : Z) : World Ticks := {|
  instant_now := λ w, (clock w, mk_Ticks (dispatches w) (clock w + tick));
  unix_epoch_ms := λ w, (Some (clock w), mk_Ticks (dispatches w) (clock w + tick));
  sleep_ms := λ ms w, (tt, mk_Ticks (dispatches w) (clock w + ms * 1000000));
|}.

(** Count a dispatch and answer with [f]. *)
Definition counted (f : PureDispatch (H := sample_libs)) : Dispatch Ticks (H := sample_libs) :=
  λ run t a v timeout deps w, (f run t a v timeout deps, mk_Ticks (S (dispatches w)) (clock w)).

Definition counting (f : PureDispatch (H := sample_libs)) (c : StepDispatchConcurrency)
  : StepDispatcher Ticks (H := sample_libs) := {|
  dispatch := counted f;
  dispatch_concurrency := c;
  clone_for_thread := λ w, (Ok (counted f), w);
|}.

Definition dispatch_meter f c : Meter Ticks (World0 := ticking 1) (H := sample_libs)
  (StepDispatcher0 := counting f c).
Proof.
  exists dispatches; try (cbn; lia). intros w d E. injection E as <-. cbn. lia.
Defined.

Lemma counting_pure f c : PureDispatcher Ticks (H := sample_libs) (StepDispatcher0 := counting f c) f.
Proof. constructor; [by intros ???????|]. intros w. exists (counted f). split; [done|]. by intros ???????. Qed.

(** A thread pool that finishes its tasks in reverse order. *)
Lemma reversed_scope_spec {W A} (tasks : list (nat * st W A)) w :
  ∃ rs, (sequential_scope (reverse tasks) w).1 ≡ₚ rs ∧
    Forall2 (λ t r, r.1 = t.1 ∧ ∃ wi, r.2 = (t.2 wi).1) tasks rs.
Proof.
  destruct (sequential_scope_spec (reverse tasks) w) as (rs & Hp & Hf). exists (reverse rs).
  split; [by rewrite Hp, (reverse_Permutation rs)|]. rewrite <- (reverse_involutive tasks). by apply Forall2_reverse.
Qed.

Lemma reversed_scope_cost {W A} (cost : W → nat) (tasks : list (nat * st W A)) ns w :
  Forall2 (λ t n, ∀ wi, cost (t.2 wi).2 ≤ cost wi + n) tasks ns →
  cost (sequential_scope (reverse tasks) w).2 ≤ cost w + sum_list ns.
Proof.
  intros Hf. rewrite <- (reverse_Permutation ns). apply sequential_scope_cost. by apply Forall2_reverse.
Qed.

Definition reversed_rayon W : Rayon W := {|
  scope := λ A tasks, sequential_scope (reverse tasks);
  scope_spec := λ A, reversed_scope_spec;
  scope_cost := λ A, reversed_scope_cost;
|}.

(** ** Runs *)

#[local] Existing Instances sample_libs sample_serde zero_sha256 elements_order.

(** Every ability answers with its own name and its arguments, but for [log],
    which is not there, and [check], which is satisfied. *)
Definition answer : PureDispatch (H := sample_libs) := λ run t a v timeout deps,
  if bool_decide (ability_str a = "log") then Err (Unavailable "no log")
  else Ok (mk_StepDispatchOutcome sample_libs
             (if bool_decide (ability_str a = "check") then VObject [("done", VBool true)]
              else VObject [("ability", VString (ability_str a)); ("args", v)])
             (mk_ChildInvocationRecord (H := sample_libs) (ability_str a) "inv"
                (mk_Anchor "inv" "receipt" (ability_str a)) deps)).

Definition sample_mission (c : StepDispatchConcurrency) (pool : Rayon Ticks) (tick : Z)
    (ir : MissionIr) (timeout : option Z) : pm Ticks ExecutionReport :=
  execute_mission (World0 := ticking tick) (StepDispatcher0 := counting answer c) (Rayon0 := pool)
    "tenant" ir "mission" timeout.
Definition run_sample (c : StepDispatchConcurrency) (pool : Rayon Ticks) (tick : Z)
    (ir : MissionIr) (timeout : option Z) : option (ExecutionReport * Ticks) :=
  sample_mission c pool tick ir timeout (mk_Ticks 0 0).

(** A loop between two calls. *)
Definition loop_source : string := quoted
  "mission 'l' { let a = call 'a' on 'n'
     loop 'fix' max_iters: 3 { body { let b = call 'b' on 'n' } verify { call 'check' on 'n' } }
     call 'log' on 'n' optional emit 'out' kind answer value fix.result }".
Definition loop_program : EalProgram :=
  Eval vm_compute in match parse loop_source with Ok p => p | Err _ => diamond_program end.
Definition loop_ir : MissionIr :=
  Eval vm_compute in match compile loop_program with Ok ir => ir | Err _ => diamond_ir end.

Lemma mission_never_panics_witness : ∃ rep w', run_sample Parallel (reversed_rayon Ticks) 1 loop_ir (Some 5%Z) = Some (rep, w').
Proof.
  apply (mission_never_panics loop_program loop_ir). vm_compute. reflexivity.
Defined.

Lemma mission_report_consistent_witness : ∃ rep w',
  run_sample Parallel (reversed_rayon Ticks) 1 loop_ir None = Some (rep, w') ∧
  trace_steps_completed (trace rep) = 3 ∧ traces_truncated (trace rep) = 0 ∧
  length (step_traces (trace rep)) ≤ 256 ∧ report_of (flat_mission loop_ir) (step_traces (trace rep)) rep.
Proof.
  eexists _, _. split; [vm_compute; reflexivity|]. split; [reflexivity|].
  eapply (mission_report_consistent (World0 := ticking 1) (StepDispatcher0 := counting answer Parallel)
    (Rayon0 := reversed_rayon Ticks) loop_program loop_ir "tenant" "mission" None (mk_Ticks 0 0));
    vm_compute; reflexivity.
Defined.

(** The diamond mission makes 7 dispatches, 3 of them for the failing step. *)
Lemma mission_dispatch_budget_witness : ∃ rep w',
  run_sample Parallel (reversed_rayon Ticks) 1 diamond_ir None = Some (rep, w') ∧
  dispatches w' = 7 ∧ dispatches w' ≤ dispatch_budget diamond_ir.
Proof.
  eexists _, _. split; [vm_compute; reflexivity|]. split; [reflexivity|].
  eapply (mission_dispatch_budget (World0 := ticking 1) (StepDispatcher0 := counting answer Parallel)
    (Rayon0 := reversed_rayon Ticks) (Meter0 := dispatch_meter answer Parallel)
    diamond_program diamond_ir "tenant" "mission" None (mk_Ticks 0 0)); vm_compute; reflexivity.
Defined.

Lemma mission_dispatch_cap_witness : ∃ rep w',
  run_sample Sequential (sequential_rayon Ticks) 1 loop_ir None = Some (rep, w') ∧
  dispatches w' ≤ 256.
Proof.
  eexists _, _. split; [vm_compute; reflexivity|].
  eapply (mission_dispatch_cap (World0 := ticking 1) (StepDispatcher0 := counting answer Sequential)
    (Rayon0 := sequential_rayon Ticks) (Meter0 := dispatch_meter answer Sequential)
    loop_program loop_ir "tenant" "mission" None (mk_Ticks 0 0));
    [vm_compute; reflexivity|vm_compute; reflexivity| |vm_compute; reflexivity].
  repeat constructor; discriminate.
Defined.

(** Two clocks, two pools, both policies. *)
Lemma mission_deterministic_witness : psim (λ r1 r2, erase_report r1 = erase_report r2)
  (sample_mission Parallel (reversed_rayon Ticks) 1000000 diamond_ir None)
  (sample_mission Sequential (sequential_rayon Ticks) 3 diamond_ir None).
Proof.
  unfold sample_mission.
  refine (mission_deterministic answer (World0 := ticking 1000000) (World1 := ticking 3)
    (StepDispatcher0 := counting answer Parallel) (StepDispatcher1 := counting answer Sequential)
    (Rayon0 := reversed_rayon Ticks) (Rayon1 := sequential_rayon Ticks)
    (PureDispatcher0 := counting_pure answer Parallel) (PureDispatcher1 := counting_pure answer Sequential)
    "tenant" diamond_ir "mission").
Defined.

(** ** Arguments *)

(** A step whose argument [i] is the output of [a]. *)
Definition consumer : IrCall :=
  mk_IrCall "b" "b" (mk_AbilityName "b") (Device "n") (VObject [("k", VInt 1)]) [("i", "a")] None 0 0
    Continue false "application/json".
Definition sample_value : Value := VObject [("x", VArray [VInt (-5); VString "s"])].
Definition sample_bytes : string :=
  Eval vm_compute in match to_vec sample_value with Ok b => b | Err _ => EmptyString end.
Definition sample_captured : gmap string CapturedResult :=
  {[ "a" := mk_CapturedResult sample_libs sample_bytes
       (mk_ChildInvocationRecord (H := sample_libs) "a" "inv" (mk_Anchor "inv" "receipt" "a") []) ]}.

Lemma resolve_arguments_spec_witness : ∃ fields,
  resolve_arguments consumer sample_captured ∅ = Ok (VObject fields) ∧
  assoc "k" fields = Some (VInt 1).
Proof.
  destruct (resolve_arguments_spec consumer sample_captured ∅ (VObject [("k", VInt 1); ("i", sample_value)]))
    as (fields & E & _ & Hstatic).
  - vm_compute. repeat constructor. by intros ?%elem_of_nil.
  - vm_compute. reflexivity.
  - exists fields. rewrite <- E. split; [vm_compute; reflexivity|].
    apply Hstatic. vm_compute. by intros [E2|?%elem_of_nil]%elem_of_cons.
Defined.

Lemma data_flow_roundtrip_witness : ∃ fields,
  resolve_arguments consumer sample_captured ∅ = Ok (VObject fields) ∧ assoc "i" fields = Some sample_value.
Proof.
  eexists. split; [vm_compute; reflexivity|].
  eapply (data_flow_roundtrip (H1 := sample_serde_laws) consumer sample_captured ∅).
  - vm_compute. repeat constructor. by intros ?%elem_of_nil.
  - vm_compute. reflexivity.
  - by left.
  - vm_compute. reflexivity.
  - vm_compute. reflexivity.
  - vm_compute. reflexivity.
Defined.

(** ** Plans, provenance, emissions *)

Lemma mission_runs_its_plan_witness : ∃ rep w' p1 p2,
  run_sample Parallel (reversed_rayon Ticks) 1 diamond_ir None = Some (rep, w') ∧
  mission_plan diamond_ir = p1 ++ p2 ∧ Forall2 executed p1 (step_traces (trace rep)) ∧
  (outcome (trace rep) = MissionAborted ↔ Exists aborting (zip p1 (step_traces (trace rep)))) ∧
  (outcome (trace rep) ≠ MissionAborted → p2 = []).
Proof.
  apply (mission_runs_its_plan (World0 := ticking 1) (StepDispatcher0 := counting answer Parallel)
    (Rayon0 := reversed_rayon Ticks) diamond_program diamond_ir "tenant" "mission" None (mk_Ticks 0 0));
    vm_compute; reflexivity.
Defined.

Lemma mission_provenance_witness : ∃ rep w',
  run_sample Parallel (reversed_rayon Ticks) 1 loop_ir None = Some (rep, w') ∧
  sourced (alias loop_ir) (step_traces (trace rep)) ∧
  ∀ b v, outputs rep !! b = Some v → ∃ c, v = decode_emitted_value (cap_value c) ∧
    produced (alias loop_ir) (step_traces (trace rep)) b c.
Proof.
  apply (mission_provenance (World0 := ticking 1) (StepDispatcher0 := counting answer Parallel)
    (Rayon0 := reversed_rayon Ticks) loop_program loop_ir "tenant" "mission" None (mk_Ticks 0 0));
    vm_compute; reflexivity.
Defined.

Lemma mission_emissions_witness : ∃ rep w',
  run_sample Sequential (reversed_rayon Ticks) 1 loop_ir None = Some (rep, w') ∧
  length (emissions (trace rep)) = 1.
Proof.
  eexists _, _. split; [vm_compute; reflexivity|].
  eapply (mission_emissions (World0 := ticking 1) (StepDispatcher0 := counting answer Sequential)
    (Rayon0 := reversed_rayon Ticks) "tenant" loop_ir "mission" None (mk_Ticks 0 0)).
  vm_compute. reflexivity.
Defined.

(** ** Observed divergences *)

(** The report of a source text, with the number of dispatches. *)
Definition run_source (source : string) : option (ExecutionReport * nat) :=
  match parse source with
  | Ok p =>
      match compile p with
      | Ok ir => (λ r, (r.1, dispatches r.2)) <$> run_sample Sequential (sequential_rayon Ticks) 1 ir None
      | Err _ => None
      end
  | Err _ => None
  end.

(** The final [verify] call fails, yet the loop ends well: the output of the
    last [body] call is taken for its verdict. *)
Example verify_failure_uses_body_output :
  match run_source (quoted "mission 'm' { loop 'l' max_iters: 3
    { body { let b = call 'check' on 'n' } verify { let v = call 'log' on 'n' } } }") with
  | Some (rep, _) =>
      (st_outcome <$> step_traces (trace rep)) = [StepCompleted; StepFailed] ∧
      outcome (trace rep) = MissionPartial ∧
      outputs rep !! "l.result" = Some (VObject [("done", VBool true)])
  | None => False
  end.
Proof. vm_compute. by split_and!. Qed.

(** A mission within the cap of 256 calls makes 301 dispatches. *)
Example retries_exceed_the_cap :
  match run_source (quoted "mission 'm' { call 'log' on 'n' retries 300 on_failure retry }") with
  | Some (_, n) => n = 301
  | None => False
  end.
Proof. vm_compute. reflexivity. Qed.

(** A step skipped inside a loop is traced but not counted. *)
Example loop_skips_not_counted :
  match run_source (quoted "mission 'm' { loop 'l' max_iters: 3
    { body { call 'log' on 'n' optional } verify { call 'check' on 'n' } } }") with
  | Some (rep, _) =>
      (st_outcome <$> step_traces (trace rep)) = [StepSkipped; StepCompleted] ∧
      trace_steps_skipped (trace rep) = 0
  | None => False
  end.
Proof. vm_compute. by split. Qed.

(** ** The production dispatcher *)

Definition sample_parsed (kind : URAKind) : ParsedURA :=
  mk_ParsedURA kind "t" None None None None None None None None None.

Definition sample_ura : UraLib := {|
  parse_ura s := if String.prefix "easynet:" s then Ok (sample_parsed KDevice) else Err "not a URA";
  user_ura realm user := "easynet:///r/" +:+ realm +:+ "/user/" +:+ user;
  device_ura realm device := "easynet:///r/" +:+ realm +:+ "/device/" +:+ device;
  agent_ura realm user agent := "easynet:///r/" +:+ realm +:+ "/agent/" +:+ user +:+ "." +:+ agent;
  device_agent_ura realm device agent := "easynet:///r/" +:+ realm +:+ "/agent/device." +:+ device +:+ "." +:+ agent;
  service_ura realm user service := "easynet:///r/" +:+ realm +:+ "/service/" +:+ user +:+ "." +:+ service;
  authority_ura realm := "easynet:///r/" +:+ realm +:+ "/authority";
  authority_ability_ura realm ability := "easynet:///r/" +:+ realm +:+ "/ability/authority." +:+ ability;
  resource_dot_ura realm owner path := "easynet:///r/" +:+ realm +:+ "/resource/" +:+ owner +:+ "/" +:+ path;
  owner_ability_ura _ _ := None;
  ability_owner_identity_ura _ := None;
  kind_display _ := "device";
  debug_str s := s;
|}.
#[local] Existing Instance sample_ura.

(** A paired node; the gateway counts invocations and answers. *)
Definition sample_daemon : Daemon Ticks unit := {|
  load_credentials_optional := mret (Ok (Some " here "));
  manifests_for agent _ := mret [mk_AbilityManifest "join" (Some 5%Z)];
  gateway_invoke r := counted answer (mk_RunContext "" "" None) (Device "n")
    (mk_AbilityName (req_ability r)) (req_args r) None (req_dependency_receipts r) ≫=
    λ res, mret (map_err display res);
|}.
#[local] Existing Instance sample_daemon.

Definition sample_meter : GatewayMeter Ticks unit (World0 := ticking 1).
Proof.
  exists dispatches; try (cbn; lia). intros r w. cbn. unfold counted, mbind, st_bind. cbn. lia.
Defined.

Lemma target_request_routing_witness : ∃ r w',
  target_request ∅ (mk_RunContext "t" "m" None) (Device "there") (mk_AbilityName "a") VNull (mk_Ticks 0 0)
    = (Ok (r, None), w') ∧
  req_target r = RemoteDeviceHost "easynet:///r/t/device/there" ∧ req_ability r = "a" ∧
  device_routed "there" (mk_Ticks 0 0) (req_target r).
Proof.
  eexists _, _. split; [vm_compute; reflexivity|]. split; [reflexivity|].
  edestruct (target_request_routing (W := Ticks) ∅ (mk_RunContext "t" "m" None) (Device "there") (mk_AbilityName "a")
    VNull (mk_Ticks 0 0)) as (Ha & _ & _ & Hr); [vm_compute; reflexivity|]. split; [exact Ha|exact Hr].
Defined.

Lemma mission_gateway_calls_witness : ∃ rep w',
  execute_mission (World0 := ticking 1) (StepDispatcher0 := AgentAwareDispatcher {[ "team/d" := tt ]})
    (Rayon0 := reversed_rayon Ticks) "tenant" diamond_ir "mission" None (mk_Ticks 0 0) = Some (rep, w') ∧
  dispatches w' ≤ 0 + dispatch_budget diamond_ir.
Proof.
  apply (mission_gateway_calls (World0 := ticking 1) (GatewayMeter0 := sample_meter)
    (Rayon0 := reversed_rayon Ticks) {[ "team/d" := tt ]} diamond_program diamond_ir "tenant" "mission" None (mk_Ticks 0 0)).
  vm_compute. reflexivity.
Defined.
